(* ===== verification/_CoqProject ===== *)
-Q . S2P
Prelude.v
RaftTypes.v
Membership.v
Node.v
NodeInv.v
NodeReplication.v
NodeStep.v
NodeHost.v
Campaign.v
NodeProps.v
Election.v
Json.v
Heap.v
Simulator.v
SimInv.v
SimProps.v
Rand.v
Network.v
NetProps.v
JsonEnc.v
Sha256.v
Fields.v
Digest.v
Decision.v
DecisionProps.v
Outcome.v
Explore.v
ExploreProps.v
ExploreSearch.v
AppOracle.v
AppOracleProps.v
AppOracleRestore.v
Check.v
CheckReports.v
CheckSafe.v
Scenario.v
ClusterState.v
Artifact.v
Cluster.v
ClusterGroup.v
ClusterRun.v
ClusterProps.v
ArtifactProps.v
Minimize.v
MinimizeProps.v
JsonTree.v
StrictJson.v
Text.v
JsonText.v
Order.v
Projector.v
ProjectorProps.v
Document.v
DocumentProps.v
Normalized.v
NormalizedProps.v
Plan.v
PlanProps.v
Execution.v
ExecutionProps.v
ExecutionCompare.v
Causal.v
CausalProps.v
Canonical.v
Experiment.v
ClusterClock.v
ExperimentProps.v
ClusterProgram.v
ExperimentReplay.v
Semantic.v
Lines.v
MutantCorpus.v
MutantProps.v
Defects.v
Trace.v
EtcdState.v
EtcdCluster.v
EtcdExecute.v
EtcdInv.v
EtcdProps.v
