(* ===== verification/Prelude.v ===== *)
(** * Verification of d-raft

    d-raft is a deterministic simulator for the Raft consensus protocol: a reference Raft
    node, a discrete-event scheduler, a simulated network, semantic choices that can be
    recorded and replayed, a cluster harness that puts them together, a checker of safety
    properties over histories, a systematic explorer of schedules, and the artifacts that
    make a run reproducible.  This library models these parts as executable definitions,
    one file per component, and proves what makes them correct.

    ** The parts and the files that model them

    - The Raft protocol (src/raft).  [RaftTypes] has the data of types.go: durable states,
      messages, inputs and effects as tagged unions.  [Membership] is membership.go, joint
      consensus.  [Node] is node.go: the node record, [New], [Start], [Step] and every
      handler; a function that can panic returns a [go] value.  [NodeInv], [NodeReplication]
      and [NodeStep] hold the lemmas and the invariant [node_wf]; [NodeHost] is a node behind its persistence barrier with
      crashes, [Campaign] what a step does to terms and votes, [Election] a group of hosts
      over a network that may lose, repeat and reorder messages.  [NodeProps] has the
      theorems on one node.
    - The scheduler (src/queue.go, src/simulator.go).  [Heap] is the indexed binary heap
      over a store of events, [Simulator] the operations and run loops, [SimInv] the
      invariant and the abstract scheduler (a clock and a map of pending events), and
      [SimProps] the refinement and the run loops.
    - Random streams (src/rand.go): [Rand], SplitMix64 and rejection sampling.
    - The network (src/network.go): [Network], with its theorems in [NetProps].
    - Text and digests (the Standard Library of Go as the code uses it): [Json] is the
      grammar of JSON, [JsonEnc] the encoding of strings and numbers and [Compact],
      [JsonTree] the parser into trees, [StrictJson] the refusal of repeated names and deep
      nesting (src/internal/strictjson), [Text] and [JsonText] the texts of numbers,
      identifiers and whole documents, [Sha256] the digest, [Digest] hexadecimal text and
      byte order, [Order] the order of strings, [Fields] length-prefixed concatenations.
    - Semantic choices (src/decision): [Decision] has choices, the seeded decider, the
      recorder, tapes, prefixes and guided replay as instances of the class [Decider];
      [DecisionProps] shows that a recorded run replays.
    - Exploration (src/explore): [Explore], with [ExploreProps] (it ends and counts) and
      [ExploreSearch] (it is exhaustive, what it reports is reproduced, and the cache of
      states prunes exact repetitions only).
    - The application (src/apporacle): [AppOracle] is the portable key/value machine with
      its command codec, hash chain and checkpoints; [AppOracleProps], [AppOracleRestore].
    - The checker (src/check): [Check] observes states and reports violations;
      [CheckReports] states the safety of a history on the observations themselves and
      [CheckSafe] relates the two.
    - Artifacts (src/artifact): [Outcome] and [Scenario] hold the data, [Artifact] the
      validation of scenarios, configurations and runs, [ArtifactProps] its theorems.
    - Minimization (src/minimize): [Minimize] has the three reduction phases over an
      evaluator and the entry point; [MinimizeProps] its theorems.
    - The cluster harness (src/raftsim/cluster.go) composes all of these.  [ClusterState]
      is the cluster record and the monad of its computations, [Cluster] every operation
      and callback, [ClusterGroup] and [ClusterRun] the simulation of a cluster by a group
      of [Election], [ClusterProps] what holds of all runs of all clusters and of their
      mailboxes, [ClusterClock] that no operation moves the clock, [ClusterProgram] that
      the harness is one program of its decider.  [Canonical] is the canonical state of the
      router and of the cluster.
    - Experiments (src/experiment): [Experiment] schedules the actions of a scenario on a
      cluster, runs it, digests what it observes and encodes frontiers; [Semantic] executes
      plans and has the canonical workloads; [ExperimentProps] and [ExperimentReplay] have
      the theorems.
    - Semantic plans (src/semanticplan): [Projector] answers choices by portable keys,
      [Document] reads documents, [Normalized] compares outcomes, [Plan] has capabilities
      and the preflight, [Execution] the evidence of an execution and its independent
      reconstruction, [Causal] replay by operation.  Their theorems are in the files of the
      same name with [Props], and in [ExecutionCompare].
    - Corpora of source mutants (src/mutant) and manifests of defects (src/defect): [Lines]
      cuts texts and cleans paths, [MutantCorpus] has manifests, results, classification and
      the runner, [MutantProps] its theorems; [Defects] the manifests of pinned defects.
    - Traces (src/trace.go, src/trace): [Trace] has the events, the recorder, the decoder
      and the theorem that a scheduler's trace is read back.
    - The adapter to etcd's Raft (src/adapters/etcdraft): [EtcdState] has the class
      [Library] of what it calls of go.etcd.io/raft, its chain of applied entries
      (oracle.go), its state and its computations; [EtcdCluster] its operations and
      callbacks (cluster.go, observe.go, decisions.go, adapter.go), [EtcdExecute] its
      executions (execute.go, semantic.go); [EtcdInv] the invariant of its clusters and
      [EtcdProps] that every operation keeps it, with the theorems.

    ** How the parts interact

    A node never does I/O: [Node.Step] returns effects.  The harness ([Cluster.submit],
    [processEffects]) turns them into events of the scheduler and packets of the network;
    their callbacks ([Cluster.runAction], [runDelivery]) come back into [submit].  The
    scheduler and the network are generic in the actions they carry, and the harness
    instantiates them.  Where the code asks a decider, the model takes any instance of the
    class [Decision.Decider]; the recorder, the tape and the explorer are instances, and
    the theorems on replay and exploration hold of every program that asks a decider.

    ** What the theorems show

    - One node: the invariant of all runs, no panic, votes that survive crashes, the
      history a step keeps, the persistence barrier, quorums behind every leader, the
      commit rule, what an acknowledgement promises, recovery of the application.
    - Groups and clusters: election safety of a group under any loss, repetition, order
      and crashes; every run of the harness is a run of such a group, so the harness has
      it too; storage events are never stale; mailboxes drain.
    - Configurations: any two quorums of one configuration, and of neighbouring ones, meet.
    - The scheduler refines a map of pending events, runs them in order of time and of
      scheduling, and its loops end; a packet is dropped or delivered exactly once.
    - Recording and replay reproduce a run; exploration ends, counts, reports only what
      its tape reproduces, and misses nothing when it reports nothing left out.
    - The application: codecs and checkpoints are exact, commitments bind histories up to
      a collision of the hash function.
    - The checker reports nothing exactly on safe histories; its reports are valid and
      unique.
    - Artifacts: a validated experiment is executable; the resource budget is exact.
    - Minimization ends within its budget with a result from which no single action or
      guide entry can be left out; the minimized artifact reproduces the violation.
    - Experiments: an execution ends within the budget of its scenario, its outcome is one
      an artifact accepts, the cluster it leaves has the safety of a group, and a recorded
      experiment replays exactly.
    - Corpora: a kill is attributed to its invariant by the evidence it is recorded with,
      and the runner never refuses its own results.
    - Traces: what a scheduler reports is recorded without error and read back in full.
    - The adapter: whatever the library does, a ready is released only when the storage is
      what writing it makes, a process recovers exactly the application it had, and equal
      chain digests mean equal histories up to a collision of the hash function.
    - Semantic plans: the preflight lists exactly the reasons to refuse a plan; projecting a
      tape with its own directives reproduces it and reports so; evidence of an honest run
      is never rejected; comparison of outcomes is total and symmetric; causal replay gives
      an operation one disposition.

    ** Integers, fuel and bounds

    A [uint64] is a [Z] with [wrap64] wherever Go's arithmetic can wrap; an [int64]
    addition that can overflow is tested as the code tests it.  Loops that are not
    structural take fuel: rejection sampling stops with probability one only, so its fuel
    is a parameter and running out is a value of its own ([None]), never a result;
    [Uint64N_terminates_in_range] names the draws that end it.  The loop of the adapter over
    the readies of a raw node lasts as long as the library has any, so it shares that fuel.  The loops of the
    explorer, of [drain], of the line reader of traces and of the JSON scanner have fuel computed from their input, with
    theorems that it is enough ([search_ends_and_counts], [drain_ends]).  The run loops of
    the scheduler may run forever when actions keep scheduling; [run_drains_queue] and
    [run_until_stops_at_end] say when they end.

    ** Parameters

    The JSON texts that [encoding/json] writes by reflection for tags, packets, decision
    contexts, observations, plans and evidence are parameters ([ClusterState.Encoders],
    [Experiment.Texts], [marshal], [marshalPlan], [marshalExecution], [marshalEvidence]), as
    is the filling of a structure from a document ([Decode]); what is assumed of them is
    that they are valid JSON, or read back what was written, where a theorem needs it.
    What git, the file system and the test processes answer to the runner of a corpus is a
    record of the world ([World]).  The types and functions of go.etcd.io/raft that the
    adapter calls are the class [EtcdState.Library], of which nothing is assumed but, in one
    theorem, that indexes and terms of entries have 64 bits; a toy instance runs the
    witnesses.  Runners of the explorer, and the executions that
    minimization evaluates, are deterministic programs over a decider.

    ** Not modelled

    Decoding of documents into Go structures (reflection), the text of error messages, the
    trace sinks of the network, of the harness and of the random streams, command-line programs (src/cmd), the demonstration of src/internal/projectionstudy, the
    resolution of symbolic links and the environment of subprocesses in src/mutant, the
    logger and the commands of the adapter to etcd's Raft (src/adapters/etcdraft/logger.go
    and cmd), and the evaluation harness (src/evaluation), which measures subprocesses. *)

From stdpp Require Export base gmap list sorting strings fin_maps.
From Stdlib Require Export ZArith Lia Strings.Byte.
From stdpp Require Import options.

#[global] Open Scope Z_scope.

(** ** Go's fixed-width integers

    A [uint64] is a [Z] between 0 and [max_u64]; every operation that can leave
    that range in Go is written with [wrap64]. *)

Abbreviation two64 := 18446744073709551616 (only parsing).
Abbreviation max_u64 := 18446744073709551615 (only parsing).
Abbreviation max_i64 := 9223372036854775807 (only parsing).

(** Reduction of a result to 64 bits, the value of Go's unsigned arithmetic. *)
Definition wrap64 (z : Z) : Z := z mod two64.

(** The values of a [uint64]. *)
Definition is_u64 (z : Z) : Prop := 0 ≤ z ≤ max_u64.

(** The non-negative values of an [int64], the range of a virtual time. *)
Definition is_i64_nonneg (z : Z) : Prop := 0 ≤ z ≤ max_i64.

#[export] Instance is_u64_dec z : Decision (is_u64 z) := _.
#[export] Instance is_i64_nonneg_dec z : Decision (is_i64_nonneg z) := _.

(** Byte slices. *)
Abbreviation bytes := (list byte).
#[export] Instance byte_eq_dec : EqDecision byte := Byte.byte_eq_dec.
#[export] Instance byte_countable : Countable byte := inj_countable Byte.to_N Byte.of_N Byte.of_to_N.

(** The length of a slice as a number. *)
Definition zlen {A} (l : list A) : Z := Z.of_nat (length l).

Lemma wrap64_small z : is_u64 z → wrap64 z = z.
Proof. unfold is_u64, wrap64. intros. apply Z.mod_small. lia. Qed.

Lemma wrap64_range z : is_u64 (wrap64 z).
Proof. unfold is_u64, wrap64. pose proof (Z.mod_pos_bound z two64 ltac:(lia)). lia. Qed.

Lemma zlen_nonneg {A} (l : list A) : 0 ≤ zlen l.
Proof. unfold zlen. lia. Qed.

Lemma zlen_app {A} (l k : list A) : zlen (l ++ k) = zlen l + zlen k.
Proof. unfold zlen. rewrite length_app. lia. Qed.

Lemma zlen_cons {A} (x : A) l : zlen (x :: l) = 1 + zlen l.
Proof. unfold zlen. simpl. lia. Qed.

Lemma zlen_nil {A} : zlen (@nil A) = 0.
Proof. done. Qed.

Lemma zlen_take {A} (l : list A) n : Z.of_nat n ≤ zlen l → zlen (take n l) = Z.of_nat n.
Proof. unfold zlen. rewrite length_take. lia. Qed.

Lemma zlen_drop {A} (l : list A) n : Z.of_nat n ≤ zlen l → zlen (drop n l) = zlen l - Z.of_nat n.
Proof. unfold zlen. rewrite length_drop. lia. Qed.

(** Lookup at an offset that is in range by arithmetic. *)
Lemma lookup_zlen_is_Some {A} (l : list A) (z : Z) :
  0 ≤ z < zlen l → is_Some (l !! Z.to_nat z).
Proof. intros. apply lookup_lt_is_Some_2. unfold zlen in *. lia. Qed.

(** ** Panics

    A Go function that can panic returns a [go A]. *)

Inductive go (A : Type) : Type :=
| Done (a : A)
| Panic.
Arguments Done {A} a.
Arguments Panic {A}.

#[export] Instance go_eq_dec `{EqDecision A} : EqDecision (go A).
Proof. solve_decision. Defined.

#[export] Instance go_ret : MRet go := λ A a, Done a.
#[export] Instance go_bind : MBind go := λ A B k m,
  match m with Done a => k a | Panic => Panic end.

(** [wp m Q]: [m] does not panic and its value satisfies [Q]. *)
Definition wp {A} (m : go A) (Q : A → Prop) : Prop :=
  match m with Done a => Q a | Panic => False end.

Lemma wp_done {A} (a : A) (Q : A → Prop) : Q a → wp (Done a) Q.
Proof. done. Qed.

Lemma wp_bind {A B} (m : go A) (k : A → go B) (Q : B → Prop) :
  wp m (λ a, wp (k a) Q) → wp (m ≫= k) Q.
Proof. by destruct m. Qed.

Lemma wp_mono {A} (m : go A) (P Q : A → Prop) :
  wp m P → (∀ a, P a → Q a) → wp m Q.
Proof. destruct m; simpl; auto. Qed.

Lemma wp_inv {A} (m : go A) (Q : A → Prop) : wp m Q → ∃ a, m = Done a ∧ Q a.
Proof. destruct m; simpl; [eauto | done]. Qed.

Lemma wp_value {A} (m : go A) (a : A) (Q : A → Prop) : m = Done a → Q a → wp m Q.
Proof. by intros ->. Qed.

Lemma wp_and {A} (m : go A) (P Q : A → Prop) :
  wp m P → wp m Q → wp m (λ a, P a ∧ Q a).
Proof. destruct m; simpl; auto. Qed.

(** A partial-correctness companion of [wp]: the value, if there is one. *)
Definition wlp {A} (m : go A) (Q : A → Prop) : Prop :=
  match m with Done a => Q a | Panic => True end.

Lemma wlp_bind {A B} (m : go A) (k : A → go B) (Q : B → Prop) :
  wlp m (λ a, wlp (k a) Q) → wlp (m ≫= k) Q.
Proof. by destruct m. Qed.

Lemma wlp_mono {A} (m : go A) (P Q : A → Prop) :
  wlp m P → (∀ a, P a → Q a) → wlp m Q.
Proof. destruct m; simpl; auto. Qed.

Lemma wp_wlp {A} (m : go A) (P Q : A → Prop) :
  wp m P → wlp m Q → wp m (λ a, P a ∧ Q a).
Proof. destruct m; simpl; auto. Qed.

(** ** Node identifiers and their order

    A node identifier is a Go string; [slices.Sort] orders them bytewise. *)

Abbreviation NodeID := string (only parsing).

Definition sort_nodes (l : list NodeID) : list NodeID := merge_sort String.le l.

Lemma sort_nodes_perm l : sort_nodes l ≡ₚ l.
Proof. apply merge_sort_Permutation. Qed.

Lemma sort_nodes_sorted l : StronglySorted String.le (sort_nodes l).
Proof. apply StronglySorted_merge_sort; apply _. Qed.

Lemma sort_nodes_id l : StronglySorted String.le l → sort_nodes l = l.
Proof.
  intros H. apply (StronglySorted_unique String.le);
    auto using sort_nodes_sorted, sort_nodes_perm.
Qed.

Lemma elem_of_sort_nodes x l : x ∈ sort_nodes l ↔ x ∈ l.
Proof. by rewrite sort_nodes_perm. Qed.

(** [slices.Contains], [slices.Equal], [slices.IsSorted] on identifiers. *)
Definition contains (l : list NodeID) (x : NodeID) : bool := bool_decide (x ∈ l).
Definition nodes_equal (l k : list NodeID) : bool := bool_decide (l = k).

Fixpoint is_sorted (l : list NodeID) : bool :=
  match l with
  | x :: ((y :: _) as l') => String.leb x y && is_sorted l'
  | _ => true
  end.

Lemma is_sorted_spec l : is_sorted l = true ↔ StronglySorted String.le l.
Proof.
  split.
  - intros H. apply Sorted_StronglySorted; [apply _ |].
    induction l as [|x [|y l] IH]; [constructor | repeat constructor |].
    simpl in H. apply andb_true_iff in H as [H1 H2].
    constructor; [by apply IH | constructor]. by unfold String.le; rewrite H1.
  - intros H. induction H as [|x l Hs IH Hf]; [done |].
    destruct l as [|y l]; [done |]. simpl. apply andb_true_iff. split; [| done].
    inversion Hf as [|? ? Hxy]; subst. unfold String.le in Hxy.
    by apply Is_true_eq_true in Hxy.
Qed.

(** ** Reflection and automation *)

Lemma bool_decide_true_iff (P : Prop) `{Decision P} : bool_decide P = true ↔ P.
Proof. by rewrite bool_decide_eq_true. Qed.

Lemma bool_decide_false_iff (P : Prop) `{Decision P} : bool_decide P = false ↔ ¬ P.
Proof. by rewrite bool_decide_eq_false. Qed.

Lemma contains_true l x : contains l x = true ↔ x ∈ l.
Proof. apply bool_decide_true_iff. Qed.

Lemma contains_false l x : contains l x = false ↔ x ∉ l.
Proof. apply bool_decide_false_iff. Qed.

Lemma nodes_equal_true l k : nodes_equal l k = true ↔ l = k.
Proof. apply bool_decide_true_iff. Qed.

Lemma nodes_equal_false l k : nodes_equal l k = false ↔ l ≠ k.
Proof. apply bool_decide_false_iff. Qed.

Create Rewrite HintDb reflect.
#[export] Hint Rewrite andb_true_iff andb_false_iff orb_true_iff orb_false_iff
  negb_true_iff negb_false_iff bool_decide_true_iff bool_decide_false_iff
  contains_true contains_false nodes_equal_true nodes_equal_false
  Z.eqb_eq Z.eqb_neq Z.leb_le Z.leb_gt Z.ltb_lt Z.ltb_ge
  String.eqb_eq String.eqb_neq Nat.eqb_eq Nat.eqb_neq : reflect.

(** Turn boolean hypotheses and goals into the propositions they decide. *)
Ltac reflect := autorewrite with reflect in *.

(** Case analysis on the first conditional of the goal. *)
Ltac case_if :=
  match goal with
  | |- context [if ?b then _ else _] => let H := fresh "Hif" in destruct b eqn:H
  end.

(** Case analysis on the first conditional of the hypothesis. *)
Ltac case_if_in H :=
  match type of H with
  | context [if ?b then _ else _] => let E := fresh "Hif" in destruct b eqn:E
  end.

(** Split conjunctions in hypotheses. *)
Ltac conj_all := repeat match goal with H : _ ∧ _ |- _ => destruct H end.

(** Weakest-precondition step on a bind or a value. *)
Ltac wp_step := first [apply wp_bind | apply wp_done].

(** The generic list facts the components share. *)

Lemma take_drop_lookup {A} (l : list A) n x :
  l !! n = Some x → drop n l = x :: drop (S n) l.
Proof. intros H. by rewrite (drop_S l x n H). Qed.

Lemma Forall_take_drop {A} (P : A → Prop) (l : list A) n :
  Forall P l → Forall P (take n l) ∧ Forall P (drop n l).
Proof. intros. split; [by apply Forall_take | by apply Forall_drop]. Qed.
