(* ===== verification/RaftTypes.v ===== *)
(** * Raft data model (raft/types.go)

    The durable state, the messages, the inputs and the effects of the reference
    Raft state machine, as the source declares them.  A [uint8] enumeration is an
    inductive type with one extra constructor for the values outside the declared
    constants; the unions [Input] and [Effect], which the Go code represents by a
    kind and the fields of that kind, are tagged unions.  [Message] keeps every
    field, as the handlers read fields of several kinds. *)

From S2P Require Export Prelude.



(** ** Roles, entries and configurations *)

Inductive Role := Follower | Candidate | Leader.

Definition role_string (r : Role) : string :=
  match r with
  | Follower => "follower"
  | Candidate => "candidate"
  | Leader => "leader"
  end.

Inductive EntryType :=
| EntryNoop
| EntryCommand
| EntryConfigJoint
| EntryConfigFinal
| EntryUnknown (code : Z).

(** [type < EntryNoop || type > EntryConfigFinal] *)
Definition entry_type_unknown (t : EntryType) : bool :=
  match t with EntryUnknown _ => true | _ => false end.

(** A stable or joint voting configuration (raft/membership.go). *)
Record Membership := mkMembership {
  Voters : list NodeID;
  VotersOutgoing : list NodeID;
  Learners : list NodeID;
  LearnersNext : list NodeID }.

Definition emptyMembership : Membership := mkMembership [] [] [] [].

Record Entry := mkEntry {
  Index : Z;
  Term : Z;
  Type_ : EntryType;
  Data : bytes;
  EntryMembership : Membership }.

Record HardState := mkHardState {
  CurrentTerm : Z;
  VotedFor : NodeID;
  CommitIndex : Z }.

Record Snapshot := mkSnapshot {
  LastIncludedIndex : Z;
  LastIncludedTerm : Z;
  SnapMembers : list NodeID;
  SnapData : bytes;
  SnapMembership : Membership }.

Definition emptySnapshot : Snapshot := mkSnapshot 0 0 [] [] emptyMembership.

Record PersistentState := mkPersistentState {
  HardState_ : HardState;
  Snapshot_ : Snapshot;
  Log : list Entry }.

Record Config := mkConfig {
  ID : NodeID;
  Members : list NodeID;
  CfgVoters : list NodeID;
  CfgLearners : list NodeID;
  CfgAppliedIndex : Z }.

(** ** Messages, inputs, effects *)

Inductive MessageType :=
| RequestVote
| RequestVoteResponse
| AppendEntries
| AppendEntriesResponse
| InstallSnapshot
| InstallSnapshotResponse
| MessageUnknown (code : Z).

Definition message_type_string (t : MessageType) : string :=
  match t with
  | RequestVote => "request_vote"
  | RequestVoteResponse => "request_vote_response"
  | AppendEntries => "append_entries"
  | AppendEntriesResponse => "append_entries_response"
  | InstallSnapshot => "install_snapshot"
  | InstallSnapshotResponse => "install_snapshot_response"
  | MessageUnknown _ => "unknown"
  end.

(** [type < RequestVote || type > InstallSnapshotResponse] *)
Definition message_type_unknown (t : MessageType) : bool :=
  match t with MessageUnknown _ => true | _ => false end.

Record Message := mkMessage {
  MsgType : MessageType;
  From : NodeID;
  To : NodeID;
  MsgTerm : Z;
  Sequence : Z;
  LastLogIndex : Z;
  LastLogTerm : Z;
  VoteGranted : bool;
  PrevLogIndex : Z;
  PrevLogTerm : Z;
  Entries : list Entry;
  LeaderCommit : Z;
  Success : bool;
  MatchIndex : Z;
  RejectHint : Z;
  MsgSnapshot : Snapshot }.

Inductive Input :=
| InputElectionTimeout
| InputHeartbeatTimeout
| InputMessage (message : Message)
| InputProposal (data : bytes)
| InputPersisted (writeToken : Z)
| InputSnapshot (snapshotIndex : Z) (snapshotData : bytes)
| InputBeginMembership (voters learners : list NodeID)
| InputFinalizeMembership
| InputUnknown (kind : Z).

Inductive Effect :=
| EffectPersist (writeToken : Z) (state : PersistentState)
| EffectSend (message : Message)
| EffectResetElectionTimer
| EffectResetHeartbeatTimer
| EffectApply (entry : Entry)
| EffectInstallSnapshot (snapshot : Snapshot).

(** The error values of the package (types.go:12-23). *)
Inductive Error :=
| ErrInvalidConfig
| ErrInvalidState
| ErrInvalidInput
| ErrNotLeader
| ErrAwaitingPersistence
| ErrUnexpectedPersistence
| ErrTermExhausted
| ErrIndexExhausted
| ErrNotVoter
| ErrMembershipInProgress.

(** ** Deep copies

    [slices.Clone] is the identity on the value of a slice; the clone functions
    rebuild each record as the source does. *)

Definition slices_Clone {A} (l : list A) : list A := l.

Definition CloneMembership (m : Membership) : Membership :=
  mkMembership (slices_Clone (Voters m)) (slices_Clone (VotersOutgoing m))
    (slices_Clone (Learners m)) (slices_Clone (LearnersNext m)).

Definition cloneEntry (e : Entry) : Entry :=
  mkEntry (Index e) (Term e) (Type_ e) (slices_Clone (Data e))
    (CloneMembership (EntryMembership e)).

Definition cloneSnapshot (s : Snapshot) : Snapshot :=
  mkSnapshot (LastIncludedIndex s) (LastIncludedTerm s) (slices_Clone (SnapMembers s))
    (slices_Clone (SnapData s)) (CloneMembership (SnapMembership s)).

Definition cloneEntries (l : list Entry) : list Entry := map cloneEntry l.

Definition CloneMessage (m : Message) : Message :=
  mkMessage (MsgType m) (From m) (To m) (MsgTerm m) (Sequence m) (LastLogIndex m)
    (LastLogTerm m) (VoteGranted m) (PrevLogIndex m) (PrevLogTerm m)
    (cloneEntries (Entries m)) (LeaderCommit m) (Success m) (MatchIndex m)
    (RejectHint m) (cloneSnapshot (MsgSnapshot m)).

Definition cloneState (s : PersistentState) : PersistentState :=
  mkPersistentState (HardState_ s) (cloneSnapshot (Snapshot_ s)) (cloneEntries (Log s)).

Definition cloneEffect (e : Effect) : Effect :=
  match e with
  | EffectPersist token state => EffectPersist token (cloneState state)
  | EffectSend message => EffectSend (CloneMessage message)
  | EffectApply entry => EffectApply (cloneEntry entry)
  | EffectInstallSnapshot snapshot => EffectInstallSnapshot (cloneSnapshot snapshot)
  | EffectResetElectionTimer => EffectResetElectionTimer
  | EffectResetHeartbeatTimer => EffectResetHeartbeatTimer
  end.

Definition cloneEffects (l : list Effect) : list Effect := map cloneEffect l.

Lemma CloneMembership_id m : CloneMembership m = m.
Proof. by destruct m. Qed.

Lemma cloneEntry_id e : cloneEntry e = e.
Proof. unfold cloneEntry. rewrite CloneMembership_id. by destruct e. Qed.

Lemma cloneSnapshot_id s : cloneSnapshot s = s.
Proof. unfold cloneSnapshot. rewrite CloneMembership_id. by destruct s. Qed.

Lemma cloneEntries_id l : cloneEntries l = l.
Proof.
  unfold cloneEntries. induction l as [|e l IH]; simpl; [done |].
  by rewrite cloneEntry_id, IH.
Qed.

Lemma CloneMessage_id m : CloneMessage m = m.
Proof. unfold CloneMessage. rewrite cloneEntries_id, cloneSnapshot_id. by destruct m. Qed.

Lemma cloneState_id s : cloneState s = s.
Proof. unfold cloneState. rewrite cloneEntries_id, cloneSnapshot_id. by destruct s. Qed.

Create Rewrite HintDb clone.
#[export] Hint Rewrite CloneMembership_id cloneEntry_id cloneSnapshot_id cloneEntries_id
  CloneMessage_id cloneState_id : clone.

(** ** Decidable equality *)

#[export] Instance Role_eq_dec : EqDecision Role.
Proof. solve_decision. Defined.
#[export] Instance EntryType_eq_dec : EqDecision EntryType.
Proof. solve_decision. Defined.
#[export] Instance Membership_eq_dec : EqDecision Membership.
Proof. solve_decision. Defined.
#[export] Instance Entry_eq_dec : EqDecision Entry.
Proof. solve_decision. Defined.
#[export] Instance HardState_eq_dec : EqDecision HardState.
Proof. solve_decision. Defined.
#[export] Instance Snapshot_eq_dec : EqDecision Snapshot.
Proof. solve_decision. Defined.
#[export] Instance PersistentState_eq_dec : EqDecision PersistentState.
Proof. solve_decision. Defined.
#[export] Instance MessageType_eq_dec : EqDecision MessageType.
Proof. solve_decision. Defined.
#[export] Instance Message_eq_dec : EqDecision Message.
Proof. solve_decision. Defined.
#[export] Instance Effect_eq_dec : EqDecision Effect.
Proof. solve_decision. Defined.
#[export] Instance Error_eq_dec : EqDecision Error.
Proof. solve_decision. Defined.

(** The log index arithmetic shared by a node and by the checker: a state's fields. *)

Definition snapIndex (s : PersistentState) : Z := LastIncludedIndex (Snapshot_ s).
Definition snapTerm (s : PersistentState) : Z := LastIncludedTerm (Snapshot_ s).
Definition currentTerm (s : PersistentState) : Z := CurrentTerm (HardState_ s).
Definition votedFor (s : PersistentState) : NodeID := VotedFor (HardState_ s).
Definition commitIndex (s : PersistentState) : Z := CommitIndex (HardState_ s).
