(* ===== verification/Membership.v ===== *)
(** * Voting configurations (raft/membership.go)

    Majorities, joint quorums, the canonical form of a configuration and the
    transitions between configurations that a log may contain.  The theorems
    are the overlap of quorums of one configuration and across a transition, and
    that a transition keeps configurations valid. *)

From S2P Require Export RaftTypes.

Definition Joint (m : Membership) : bool := negb (length (VotersOutgoing m) =? 0)%nat.

Definition isVoter (m : Membership) (id : NodeID) : bool :=
  contains (Voters m) id || contains (VotersOutgoing m) id.

Definition IsVoter (m : Membership) (id : NodeID) : bool := isVoter m id.

Fixpoint count_matches (voters : list NodeID) (matches : NodeID → bool) : nat :=
  match voters with
  | [] => 0
  | voter :: rest =>
    if matches voter then S (count_matches rest matches) else count_matches rest matches
  end.

Definition majorityMatches (voters : list NodeID) (matches : NodeID → bool) : bool :=
  (length voters / 2 + 1 <=? count_matches voters matches)%nat.

Definition quorum (m : Membership) (matches : NodeID → bool) : bool :=
  if negb (majorityMatches (Voters m) matches) then false
  else (length (VotersOutgoing m) =? 0)%nat || majorityMatches (VotersOutgoing m) matches.

Definition HasQuorum (m : Membership) (nodes : list NodeID) : bool :=
  quorum m (λ id, contains nodes id).

Definition stableMembership (voters learners : list NodeID) : Membership :=
  mkMembership (sort_nodes (slices_Clone voters)) [] (sort_nodes (slices_Clone learners)) [].

Definition membershipIsZero (m : Membership) : bool :=
  (length (Voters m) =? 0)%nat && (length (VotersOutgoing m) =? 0)%nat &&
  (length (Learners m) =? 0)%nat && (length (LearnersNext m) =? 0)%nat.

(** The loop of [canonicalNodeSet]: [prev] is [nodes[index-1]] when [index > 0]. *)
Fixpoint canonicalNodes (prev : option NodeID) (nodes universe : list NodeID) : bool :=
  match nodes with
  | [] => true
  | node :: rest =>
    if String.eqb node "" || negb (contains universe node) ||
       match prev with Some p => String.eqb node p | None => false end
    then false else canonicalNodes (Some node) rest universe
  end.

Definition canonicalNodeSet (nodes universe : list NodeID) : bool :=
  if negb (is_sorted nodes) then false else canonicalNodes None nodes universe.

Definition validateMembership (m : Membership) (universe : list NodeID) : bool :=
  if (length (Voters m) =? 0)%nat || negb (canonicalNodeSet (Voters m) universe) ||
     negb (canonicalNodeSet (VotersOutgoing m) universe) ||
     negb (canonicalNodeSet (Learners m) universe) ||
     negb (canonicalNodeSet (LearnersNext m) universe)
  then false
  else if negb (Joint m) && negb (length (LearnersNext m) =? 0)%nat then false
  else if existsb (λ voter, contains (Learners m) voter || contains (LearnersNext m) voter)
            (Voters m) then false
  else if existsb (λ voter, contains (Learners m) voter) (VotersOutgoing m) then false
  else true.

Definition ValidateMembership (m : Membership) (universe : list NodeID) : bool :=
  validateMembership m (sort_nodes (slices_Clone universe)).

Definition initialMembership_of (config : Config) (universe : list NodeID) : Membership * bool :=
  if (length (CfgVoters config) =? 0)%nat && (length (CfgLearners config) =? 0)%nat
  then (stableMembership universe [], true)
  else let membership := stableMembership (CfgVoters config) (CfgLearners config) in
       (membership, validateMembership membership universe).

Definition membershipsEqual (left right : Membership) : bool :=
  nodes_equal (Voters left) (Voters right) &&
  nodes_equal (VotersOutgoing left) (VotersOutgoing right) &&
  nodes_equal (Learners left) (Learners right) &&
  nodes_equal (LearnersNext left) (LearnersNext right).

(** The learners a joint entry must carry: those of the target configuration that
    are not still outgoing voters. *)
Definition expectedLearners (next outgoing : list NodeID) : list NodeID :=
  filter (λ learner, contains outgoing learner = false) next.

Definition transitionMembership (current : Membership) (entry : Entry)
    (universe : list NodeID) : Membership * bool :=
  let m := EntryMembership entry in
  match Type_ entry with
  | EntryConfigJoint =>
    if negb (length (Data entry) =? 0)%nat || Joint current || negb (Joint m) ||
       negb (validateMembership m universe) ||
       negb (nodes_equal (VotersOutgoing m) (Voters current))
    then (emptyMembership, false)
    else if negb (nodes_equal (Learners m) (expectedLearners (LearnersNext m) (VotersOutgoing m)))
    then (emptyMembership, false)
    else (CloneMembership m, true)
  | EntryConfigFinal =>
    if negb (length (Data entry) =? 0)%nat || negb (Joint current) || Joint m ||
       negb (validateMembership m universe) ||
       negb (nodes_equal (Voters m) (Voters current)) ||
       negb (nodes_equal (Learners m) (LearnersNext current))
    then (emptyMembership, false)
    else (CloneMembership m, true)
  | _ =>
    if negb (membershipIsZero m) then (emptyMembership, false) else (current, true)
  end.

Definition voterUnion (m : Membership) : list NodeID :=
  sort_nodes
    (fold_left (λ result voter, if contains result voter then result else result ++ [voter])
       (VotersOutgoing m) (slices_Clone (Voters m))).

(** ** Counting and quorums *)

Lemma count_matches_overlap vs (P Q : NodeID → bool) :
  (count_matches vs P + count_matches vs Q ≤
   length vs + count_matches vs (λ x, P x && Q x))%nat.
Proof. induction vs as [|v vs IH]; simpl; [lia |]. destruct (P v), (Q v); simpl; lia. Qed.

Lemma count_matches_pos vs (P : NodeID → bool) :
  (0 < count_matches vs P)%nat → ∃ v, v ∈ vs ∧ P v = true.
Proof.
  induction vs as [|v vs IH]; simpl; [lia |]. destruct (P v) eqn:E.
  - intros _. exists v. split; [by constructor | done].
  - intros H. destruct (IH H) as (w & ? & ?). exists w. split; [by constructor | done].
Qed.

Lemma count_matches_mono vs (P Q : NodeID → bool) :
  (∀ v, v ∈ vs → P v = true → Q v = true) →
  (count_matches vs P ≤ count_matches vs Q)%nat.
Proof.
  induction vs as [|v vs IH]; simpl; [lia |]. intros H.
  assert (count_matches vs P ≤ count_matches vs Q)%nat.
  { apply IH. intros w Hw. apply H. by constructor. }
  destruct (P v) eqn:E; [| destruct (Q v); lia].
  rewrite (H v); [lia | by constructor | done].
Qed.

Lemma majority_overlap vs (P Q : NodeID → bool) :
  majorityMatches vs P = true → majorityMatches vs Q = true →
  ∃ v, v ∈ vs ∧ P v = true ∧ Q v = true.
Proof.
  unfold majorityMatches. rewrite !Nat.leb_le. intros HP HQ.
  pose proof (count_matches_overlap vs P Q).
  pose proof (Nat.div_mod_eq (length vs) 2). pose proof (Nat.mod_upper_bound (length vs) 2).
  destruct (count_matches_pos vs (λ x, P x && Q x)) as (v & ? & Hv); [lia |].
  apply andb_true_iff in Hv. eauto.
Qed.

Lemma majority_mono vs (P Q : NodeID → bool) :
  (∀ v, v ∈ vs → P v = true → Q v = true) →
  majorityMatches vs P = true → majorityMatches vs Q = true.
Proof.
  unfold majorityMatches. rewrite !Nat.leb_le. intros H HP.
  pose proof (count_matches_mono vs P Q H). lia.
Qed.

Lemma quorum_true m P :
  quorum m P = true ↔
  majorityMatches (Voters m) P = true ∧
  (Joint m = true → majorityMatches (VotersOutgoing m) P = true).
Proof.
  unfold quorum, Joint. destruct (majorityMatches (Voters m) P); simpl.
  - destruct (length (VotersOutgoing m) =? 0)%nat; simpl; intuition congruence.
  - intuition congruence.
Qed.

Lemma quorum_mono m (P Q : NodeID → bool) :
  (∀ v, isVoter m v = true → P v = true → Q v = true) →
  quorum m P = true → quorum m Q = true.
Proof.
  rewrite !quorum_true. unfold isVoter. intros H [H1 H2]. split.
  - revert H1. apply majority_mono. intros v Hv. apply H. rewrite orb_true_iff.
    left. by rewrite contains_true.
  - intros HJ. generalize (H2 HJ). apply majority_mono. intros v Hv. apply H.
    rewrite orb_true_iff. right. by rewrite contains_true.
Qed.

Lemma quorum_ext m (P Q : NodeID → bool) :
  (∀ v, P v = Q v) → quorum m P = quorum m Q.
Proof.
  intros H. apply Bool.eq_iff_eq_true. split; apply quorum_mono; intros v _; by rewrite H.
Qed.

(** ** Canonical sets and valid configurations as propositions *)

Definition canonical_set (nodes universe : list NodeID) : Prop :=
  StronglySorted String.le nodes ∧ NoDup nodes ∧
  ∀ x, x ∈ nodes → x ≠ "" ∧ x ∈ universe.

Lemma StronglySorted_cons_between (p x : NodeID) l :
  StronglySorted String.le (p :: l) → x ∈ l → String.le p x.
Proof. intros H Hx. inversion H as [|? ? ? Hf]; subst. rewrite Forall_forall in Hf. auto. Qed.

Lemma canonicalNodes_spec nodes universe prev :
  StronglySorted String.le (from_option (λ p, [p]) [] prev ++ nodes) →
  canonicalNodes prev nodes universe = true ↔
  NoDup nodes ∧ (∀ p, prev = Some p → p ∉ nodes) ∧
  ∀ x, x ∈ nodes → x ≠ "" ∧ x ∈ universe.
Proof.
  revert prev. induction nodes as [|x nodes IH]; intros prev Hs; simpl.
  { split; [|done]. intros _. split; [constructor |]. by split; [intros ? _ ?%elem_of_nil | intros ? ?%elem_of_nil]. }
  assert (Hx : StronglySorted String.le (x :: nodes)).
  { destruct prev; [by inversion Hs | done]. }
  specialize (IH (Some x) Hx). rewrite NoDup_cons.
  destruct (String.eqb x "") eqn:E1; simpl.
  { split; [done |]. intros (_ & _ & H). apply String.eqb_eq in E1.
    destruct (H x) as [? _]; [by constructor | done]. }
  destruct (contains universe x) eqn:E2; simpl; last first.
  { split; [done |]. intros (_ & _ & H). apply contains_false in E2.
    destruct (H x) as [_ ?]; [by constructor | done]. }
  destruct prev as [p|]; simpl in *.
  - destruct (String.eqb x p) eqn:E3; simpl.
    { split; [done |]. intros (_ & H & _). apply String.eqb_eq in E3.
      destruct (H p eq_refl). subst. by constructor. }
    rewrite IH. apply String.eqb_neq in E1, E3. apply contains_true in E2.
    split.
    + intros (H1 & H2 & H3). split; [split; [by apply H2 | done] |]. split.
      * intros ? [= <-] [->|Hin]%elem_of_cons; [done |]. apply E3.
        apply (anti_symm String.le).
        -- by apply StronglySorted_cons_between with (l := nodes).
        -- apply StronglySorted_cons_between with (l := x :: nodes); [done | by constructor].
      * intros y [->|Hy]%elem_of_cons; auto.
    + intros ([H1 H2] & H3 & H4). split; [done |]. split.
      * by intros ? [= <-].
      * intros y Hy. apply H4. by constructor.
  - rewrite IH. apply String.eqb_neq in E1. apply contains_true in E2. split.
    + intros (H1 & H2 & H3). split; [split; [by apply H2 | done] |]. split; [done |].
      intros y [->|Hy]%elem_of_cons; auto.
    + intros ([H1 H2] & H3 & H4). split; [done |]. split.
      * by intros ? [= <-].
      * intros y Hy. apply H4. by constructor.
Qed.

Lemma canonicalNodeSet_spec nodes universe :
  canonicalNodeSet nodes universe = true ↔ canonical_set nodes universe.
Proof.
  unfold canonicalNodeSet, canonical_set.
  destruct (is_sorted nodes) eqn:E; simpl.
  - apply is_sorted_spec in E. rewrite canonicalNodes_spec by done. naive_solver.
  - split; [done |]. intros [H _]. apply is_sorted_spec in H. congruence.
Qed.

Lemma canonical_set_nil universe : canonical_set [] universe.
Proof. split; [constructor |]. split; [constructor | by intros ? ?%elem_of_nil]. Qed.

Lemma canonical_set_filter (P : NodeID → Prop) `{∀ x, Decision (P x)} nodes universe :
  canonical_set nodes universe → canonical_set (filter P nodes) universe.
Proof.
  intros (H1 & H2 & H3). split; [| split].
  - clear H2 H3. induction H1 as [|x l Hs IH Hf]; [constructor |].
    rewrite filter_cons. destruct (decide (P x)); [| done].
    constructor; [done |]. rewrite Forall_forall in *. intros y Hy.
    apply Hf. by apply list_elem_of_filter in Hy as [_ ?].
  - by apply NoDup_filter.
  - intros x Hx. apply H3. by apply list_elem_of_filter in Hx as [_ ?].
Qed.

(** What [validateMembership] accepts. *)
Record membership_valid (m : Membership) (universe : list NodeID) : Prop := {
  mv_nonempty : Voters m ≠ [];
  mv_voters : canonical_set (Voters m) universe;
  mv_outgoing : canonical_set (VotersOutgoing m) universe;
  mv_learners : canonical_set (Learners m) universe;
  mv_next : canonical_set (LearnersNext m) universe;
  mv_stable : Joint m = false → LearnersNext m = [];
  mv_voter_learner : ∀ x, x ∈ Voters m → x ∉ Learners m ∧ x ∉ LearnersNext m;
  mv_outgoing_learner : ∀ x, x ∈ VotersOutgoing m → x ∉ Learners m }.

Lemma existsb_false {A} (f : A → bool) l :
  existsb f l = false ↔ ∀ x, x ∈ l → f x = false.
Proof.
  induction l as [|a l IH]; simpl; [split; [intros _ ? ?%elem_of_nil; done | done] |].
  rewrite orb_false_iff, IH. setoid_rewrite elem_of_cons. naive_solver.
Qed.

Lemma Joint_true m : Joint m = true ↔ VotersOutgoing m ≠ [].
Proof.
  unfold Joint. rewrite negb_true_iff, Nat.eqb_neq.
  destruct (VotersOutgoing m); simpl; split; intros; congruence || lia.
Qed.

Lemma Joint_false m : Joint m = false ↔ VotersOutgoing m = [].
Proof.
  unfold Joint. rewrite negb_false_iff, Nat.eqb_eq. split; [apply nil_length_inv | by intros ->].
Qed.

Lemma length_eqb_0 {A} (l : list A) : (length l =? 0)%nat = true ↔ l = [].
Proof. rewrite Nat.eqb_eq. split; [apply nil_length_inv | by intros ->]. Qed.

Lemma validateMembership_spec m universe :
  validateMembership m universe = true ↔ membership_valid m universe.
Proof.
  unfold validateMembership. split.
  - intros H. repeat case_if_in H; try discriminate.
    repeat match goal with E : _ || _ = false |- _ => apply orb_false_iff in E as [? ?] end.
    repeat match goal with E : negb _ = false |- _ => apply negb_false_iff in E end.
    rewrite canonicalNodeSet_spec in *. rewrite existsb_false in *.
    split; try done.
    + intros E. rewrite E in *. simpl in *. congruence.
    + intros E. rewrite E in *. simpl in *.
      match goal with E : negb (length _ =? 0)%nat = false |- _ =>
        apply negb_false_iff, length_eqb_0 in E; done end.
    + intros x Hx. match goal with E : ∀ x, x ∈ Voters m → _ |- _ =>
        specialize (E x Hx); apply orb_false_iff in E as [E1 E2] end.
      by rewrite contains_false in E1, E2.
    + intros x Hx. match goal with E : ∀ x, x ∈ VotersOutgoing m → _ |- _ =>
        specialize (E x Hx) end. by rewrite contains_false in *.
  - intros [H1 H2 H3 H4 H5 H6 H7 H8].
    rewrite <- canonicalNodeSet_spec in *. rewrite H2, H3, H4, H5. simpl.
    destruct (length (Voters m) =? 0)%nat eqn:E; [by apply length_eqb_0 in E |]. simpl.
    assert (negb (Joint m) && negb (length (LearnersNext m) =? 0)%nat = false) as ->.
    { destruct (Joint m) eqn:EJ; [done |]. by rewrite (H6 eq_refl). }
    assert (existsb (λ voter, contains (Learners m) voter || contains (LearnersNext m) voter)
              (Voters m) = false) as ->.
    { apply existsb_false. intros x Hx. apply orb_false_iff. rewrite !contains_false. auto. }
    assert (existsb (λ voter, contains (Learners m) voter) (VotersOutgoing m) = false) as ->;
      [| done].
    apply existsb_false. intros x Hx. rewrite contains_false. auto.
Qed.

Lemma membershipIsZero_spec m : membershipIsZero m = true ↔ m = emptyMembership.
Proof.
  unfold membershipIsZero. rewrite !andb_true_iff, !length_eqb_0. destruct m; simpl.
  unfold emptyMembership. split; [intros; conj_all; by subst | intros [= -> -> -> ->]; done].
Qed.

Lemma membershipsEqual_spec l r : membershipsEqual l r = true ↔ l = r.
Proof.
  unfold membershipsEqual. rewrite !andb_true_iff, !nodes_equal_true.
  destruct l, r; simpl. split; [intros; conj_all; by subst | by intros [= -> -> -> ->]].
Qed.

Lemma stableMembership_sorted_id vs ls universe :
  canonical_set vs universe → canonical_set ls universe →
  stableMembership vs ls = mkMembership vs [] ls [].
Proof. intros [H1 _] [H2 _]. unfold stableMembership, slices_Clone. by rewrite !sort_nodes_id. Qed.

(** The cases of an accepted transition. *)
Lemma transitionMembership_inv cur e universe next :
  transitionMembership cur e universe = (next, true) →
  (Type_ e = EntryConfigJoint ∧ next = EntryMembership e ∧ Data e = [] ∧
   Joint cur = false ∧ Joint next = true ∧ membership_valid next universe ∧
   VotersOutgoing next = Voters cur ∧
   Learners next = expectedLearners (LearnersNext next) (VotersOutgoing next)) ∨
  (Type_ e = EntryConfigFinal ∧ next = EntryMembership e ∧ Data e = [] ∧
   Joint cur = true ∧ Joint next = false ∧ membership_valid next universe ∧
   Voters next = Voters cur ∧ Learners next = LearnersNext cur) ∨
  (Type_ e ≠ EntryConfigJoint ∧ Type_ e ≠ EntryConfigFinal ∧
   EntryMembership e = emptyMembership ∧ next = cur).
Proof.
  unfold transitionMembership. rewrite !CloneMembership_id.
  destruct (Type_ e) eqn:ET; intros H; repeat case_if_in H; simplify_eq;
    rewrite ?negb_false_iff, ?membershipIsZero_spec in *;
    try (right; right; split_and!; congruence).
  all: repeat match goal with E : _ || _ = false |- _ => apply orb_false_iff in E as [? ?] end.
  all: rewrite ?negb_false_iff, ?validateMembership_spec, ?nodes_equal_true, ?length_eqb_0 in *.
  - left. by split_and!.
  - right; left. by split_and!.
Qed.

Lemma transitionMembership_valid cur e universe next :
  transitionMembership cur e universe = (next, true) →
  membership_valid cur universe → membership_valid next universe.
Proof. intros H. apply transitionMembership_inv in H. naive_solver. Qed.

(** The joint entry [beginMembership] builds from a valid stable target. *)
Definition jointOf (cur target : Membership) : Membership :=
  mkMembership (Voters target) (slices_Clone (Voters cur))
    (expectedLearners (Learners target) (Voters cur)) (Learners target).

Lemma jointOf_transition cur target universe idx term :
  membership_valid cur universe → Joint cur = false →
  membership_valid target universe → Joint target = false →
  transitionMembership cur (mkEntry idx term EntryConfigJoint [] (jointOf cur target)) universe
  = (jointOf cur target, true).
Proof.
  intros Hc HJ Ht HT. unfold transitionMembership. simpl. rewrite HJ. simpl.
  assert (Joint (jointOf cur target) = true) as HJ'.
  { apply Joint_true. apply (mv_nonempty _ _ Hc). }
  rewrite HJ'. simpl.
  assert (validateMembership (jointOf cur target) universe = true) as ->.
  { apply validateMembership_spec. destruct Ht, Hc. split; simpl; try done.
    - by apply canonical_set_filter.
    - congruence.
    - intros x Hx. split; [| by apply mv_voter_learner0].
      intros [_ Hf]%list_elem_of_filter. by destruct (mv_voter_learner0 x Hx).
    - intros x Hx [Hc _]%list_elem_of_filter. by apply contains_false in Hc. }
  simpl. unfold slices_Clone.
  rewrite (proj2 (nodes_equal_true _ _) eq_refl), (proj2 (nodes_equal_true _ _) eq_refl).
  done.
Qed.

(** The stable entry [finalizeMembership] builds from a valid joint configuration. *)
Lemma finalOf_transition cur universe idx term :
  membership_valid cur universe → Joint cur = true →
  transitionMembership cur
    (mkEntry idx term EntryConfigFinal [] (stableMembership (Voters cur) (LearnersNext cur))) universe
  = (mkMembership (Voters cur) [] (LearnersNext cur) [], true).
Proof.
  intros Hc HJ. destruct Hc.
  rewrite (stableMembership_sorted_id _ _ universe) by done.
  unfold transitionMembership. simpl. rewrite HJ. simpl.
  assert (validateMembership (mkMembership (Voters cur) [] (LearnersNext cur) []) universe = true) as ->.
  { apply validateMembership_spec.
    split; simpl; try done; try apply canonical_set_nil.
    - intros x Hx. split; [by apply mv_voter_learner0 | by intros ?%elem_of_nil].
    - by intros x ?%elem_of_nil. }
  simpl. rewrite (proj2 (nodes_equal_true _ _) eq_refl), (proj2 (nodes_equal_true _ _) eq_refl).
  done.
Qed.

Lemma initialMembership_valid config universe m :
  initialMembership_of config universe = (m, true) →
  canonical_set universe universe → universe ≠ [] → membership_valid m universe.
Proof.
  unfold initialMembership_of. intros H Hu Hne. case_if_in H; simplify_eq.
  - rewrite (stableMembership_sorted_id _ _ universe) by (done || apply canonical_set_nil).
    split; simpl; try done; try apply canonical_set_nil.
    + intros x _. split; by intros ?%elem_of_nil.
    + by intros x ?%elem_of_nil.
  - by apply validateMembership_spec.
Qed.

Lemma isVoter_true m x : isVoter m x = true ↔ x ∈ Voters m ∨ x ∈ VotersOutgoing m.
Proof. unfold isVoter. by rewrite orb_true_iff, !contains_true. Qed.

(** ** Theorems *)

(** Two quorums of one configuration, stable or joint, share a voter. *)
Theorem quorum_intersection (m : Membership) (P Q : NodeID → bool) :
  quorum m P = true → quorum m Q = true →
  ∃ v, isVoter m v = true ∧ P v = true ∧ Q v = true.
Proof.
  rewrite !quorum_true. intros [HP _] [HQ _].
  destruct (majority_overlap _ _ _ HP HQ) as (v & Hv & ? & ?).
  exists v. rewrite isVoter_true. auto.
Qed.

(** C7.  Across one accepted configuration transition, a quorum of the old
    configuration and a quorum of the new one share a node that votes in both. *)
Theorem transition_quorum_intersection cur e universe next (P Q : NodeID → bool) :
  transitionMembership cur e universe = (next, true) →
  quorum cur P = true → quorum next Q = true →
  ∃ v, isVoter cur v = true ∧ isVoter next v = true ∧ P v = true ∧ Q v = true.
Proof.
  intros HT. rewrite !quorum_true. intros [HP HP'] [HQ HQ'].
  apply transitionMembership_inv in HT as
    [(_ & _ & _ & _ & HJ & _ & Hout & _) | [(_ & _ & _ & _ & _ & _ & Hv & _) | (_ & _ & _ & ->)]].
  - specialize (HQ' HJ). rewrite Hout in HQ'.
    destruct (majority_overlap _ _ _ HP HQ') as (v & Hv & ? & ?).
    exists v. rewrite !isVoter_true, Hout. auto.
  - rewrite Hv in HQ. destruct (majority_overlap _ _ _ HP HQ) as (v & Hin & ? & ?).
    exists v. rewrite !isVoter_true, Hv. auto.
  - destruct (majority_overlap _ _ _ HP HQ) as (v & Hin & ? & ?).
    exists v. rewrite !isVoter_true. auto.
Qed.

Section witnesses.
Let m3 : Membership := stableMembership ["a"; "b"; "c"] [].
Let m3' : Membership := mkMembership ["b"; "c"; "d"] ["a"; "b"; "c"] [] ["a"].

Lemma quorum_intersection_witness :
  ∃ v, isVoter m3 v = true ∧ contains ["a"; "b"] v = true ∧ contains ["b"; "c"] v = true.
Proof.
  apply (quorum_intersection m3 (contains ["a"; "b"]) (contains ["b"; "c"])); reflexivity.
Defined.

Lemma transition_quorum_intersection_witness :
  ∃ v, isVoter m3 v = true ∧ isVoter m3' v = true ∧
       contains ["a"; "b"] v = true ∧ contains ["b"; "c"; "d"] v = true.
Proof.
  apply (transition_quorum_intersection m3 (mkEntry 1 1 EntryConfigJoint [] m3')
           ["a"; "b"; "c"; "d"] m3' (contains ["a"; "b"]) (contains ["b"; "c"; "d"])); reflexivity.
Defined.
End witnesses.
