(* ===== verification/Node.v ===== *)
(** * The Raft state machine (raft/node.go and Config.validate of raft/types.go)

    Definitions only: the node record, the log accessors, the elections, the log
    replication handlers, snapshots, membership changes, and [Step], which queues
    the effects of a state change behind its persistence.  A function whose Go
    counterpart can panic (a write to a nil map, a missing committed entry, an
    invalid retained configuration entry) returns a [go] value. *)

From S2P Require Export Membership.

(** ** Node *)

Record pendingWrite := mkPending { token : Z; effects : list Effect }.

(** Go maps: [None] is the nil map, which reads as empty and panics on a write. *)
Abbreviation node_map := (option (gmap string Z)).

Record Node := mkNode {
  id : NodeID;
  members : list NodeID;
  initialMembership : Membership;
  membership : Membership;
  role : Role;
  leader : NodeID;
  state : PersistentState;
  applied : Z;
  votes : option (gset string);
  electionVotes : list NodeID;
  electionMembership : Membership;
  nextIndex : node_map;
  matchIndex : node_map;
  appendSequence : node_map;
  nextWriteToken : Z;
  pending : option pendingWrite }.

(** Assignments to the fields of [n]. *)
Definition set_membership (n : Node) (m : Membership) : Node :=
  mkNode (id n) (members n) (initialMembership n) m (role n) (leader n) (state n) (applied n)
    (votes n) (electionVotes n) (electionMembership n) (nextIndex n) (matchIndex n)
    (appendSequence n) (nextWriteToken n) (pending n).
Definition set_state (n : Node) (s : PersistentState) : Node :=
  mkNode (id n) (members n) (initialMembership n) (membership n) (role n) (leader n) s (applied n)
    (votes n) (electionVotes n) (electionMembership n) (nextIndex n) (matchIndex n)
    (appendSequence n) (nextWriteToken n) (pending n).
Definition set_applied (n : Node) (a : Z) : Node :=
  mkNode (id n) (members n) (initialMembership n) (membership n) (role n) (leader n) (state n) a
    (votes n) (electionVotes n) (electionMembership n) (nextIndex n) (matchIndex n)
    (appendSequence n) (nextWriteToken n) (pending n).
Definition set_votes (n : Node) (v : option (gset string)) : Node :=
  mkNode (id n) (members n) (initialMembership n) (membership n) (role n) (leader n) (state n)
    (applied n) v (electionVotes n) (electionMembership n) (nextIndex n) (matchIndex n)
    (appendSequence n) (nextWriteToken n) (pending n).
Definition set_nextIndex (n : Node) (m : node_map) : Node :=
  mkNode (id n) (members n) (initialMembership n) (membership n) (role n) (leader n) (state n)
    (applied n) (votes n) (electionVotes n) (electionMembership n) m (matchIndex n)
    (appendSequence n) (nextWriteToken n) (pending n).
Definition set_matchIndex (n : Node) (m : node_map) : Node :=
  mkNode (id n) (members n) (initialMembership n) (membership n) (role n) (leader n) (state n)
    (applied n) (votes n) (electionVotes n) (electionMembership n) (nextIndex n) m
    (appendSequence n) (nextWriteToken n) (pending n).
Definition set_appendSequence (n : Node) (m : node_map) : Node :=
  mkNode (id n) (members n) (initialMembership n) (membership n) (role n) (leader n) (state n)
    (applied n) (votes n) (electionVotes n) (electionMembership n) (nextIndex n) (matchIndex n)
    m (nextWriteToken n) (pending n).
Definition set_pending (n : Node) (tok : Z) (p : option pendingWrite) : Node :=
  mkNode (id n) (members n) (initialMembership n) (membership n) (role n) (leader n) (state n)
    (applied n) (votes n) (electionVotes n) (electionMembership n) (nextIndex n) (matchIndex n)
    (appendSequence n) tok p.

(** Assignments to [n.state]. *)
Definition set_log (n : Node) (l : list Entry) : Node :=
  set_state n (mkPersistentState (HardState_ (state n)) (Snapshot_ (state n)) l).
Definition set_commit (n : Node) (c : Z) : Node :=
  set_state n (mkPersistentState
    (mkHardState (currentTerm (state n)) (votedFor (state n)) c) (Snapshot_ (state n)) (Log (state n))).
Definition set_votedFor (n : Node) (v : NodeID) : Node :=
  set_state n (mkPersistentState
    (mkHardState (currentTerm (state n)) v (commitIndex (state n))) (Snapshot_ (state n)) (Log (state n))).
Definition set_term_vote (n : Node) (t : Z) (v : NodeID) : Node :=
  set_state n (mkPersistentState
    (mkHardState t v (commitIndex (state n))) (Snapshot_ (state n)) (Log (state n))).
Definition set_snapshot (n : Node) (s : Snapshot) : Node :=
  set_state n (mkPersistentState (HardState_ (state n)) s (Log (state n))).

(** Map reads (a missing key or the nil map is zero) and writes. *)
Definition map_get (m : node_map) (k : NodeID) : Z :=
  match m with Some g => default 0 (g !! k) | None => 0 end.
Definition map_set (m : node_map) (k : NodeID) (v : Z) : go node_map :=
  match m with Some g => Done (Some (<[k := v]> g)) | None => Panic end.

(** ** Log accessors *)

Definition log (n : Node) : list Entry := Log (state n).

Definition lastIndex (n : Node) : Z := wrap64 (snapIndex (state n) + zlen (log n)).

Definition entryAt (n : Node) (index : Z) : option Entry :=
  let boundary := snapIndex (state n) in
  if (index <=? boundary) || (lastIndex n <? index) then None
  else log n !! Z.to_nat (wrap64 (index - boundary - 1)).

Definition termAt (n : Node) (index : Z) : Z :=
  if index =? 0 then 0
  else if index =? snapIndex (state n) then snapTerm (state n)
  else match entryAt n index with Some entry => Term entry | None => 0 end.

Definition lastTerm (n : Node) : Z := termAt n (lastIndex n).

Definition entriesFrom (n : Node) (index : Z) : list Entry :=
  let boundary := snapIndex (state n) in
  if index <=? boundary then cloneEntries (log n)
  else if lastIndex n <? index then []
  else cloneEntries (drop (Z.to_nat (wrap64 (index - boundary - 1))) (log n)).

Definition truncateFrom (n : Node) (index : Z) : Node :=
  let boundary := snapIndex (state n) in
  if index <=? boundary then set_log n []
  else if index <=? lastIndex n
  then set_log n (take (Z.to_nat (wrap64 (index - boundary - 1))) (log n))
  else n.

Definition nextIndexAfter (index : Z) : Z :=
  if index =? max_u64 then max_u64 else index + 1.

Definition is_config (t : EntryType) : bool :=
  match t with EntryConfigJoint | EntryConfigFinal => true | _ => false end.

(** The configuration the snapshot holds: the configuration of a legacy snapshot
    is every member. *)
Definition snapshotMembership (s : Snapshot) : Membership :=
  if membershipIsZero (SnapMembership s) then stableMembership (SnapMembers s) []
  else CloneMembership (SnapMembership s).

Fixpoint membershipLoop (universe : list NodeID) (index : Z) (m : Membership)
    (entries : list Entry) : go Membership :=
  match entries with
  | [] => Done m
  | entry :: rest =>
    if index <? Index entry then Done m
    else if negb (is_config (Type_ entry)) then membershipLoop universe index m rest
    else match transitionMembership m entry universe with
         | (next, true) => membershipLoop universe index next rest
         | (_, false) => Panic
         end
  end.

Definition membershipAt (n : Node) (index : Z) : go Membership :=
  let snapshot := Snapshot_ (state n) in
  let base :=
    if (0 <? LastIncludedIndex snapshot) && (LastIncludedIndex snapshot <=? index)
    then snapshotMembership snapshot
    else CloneMembership (initialMembership n) in
  membershipLoop (members n) index base (log n).

Definition refreshMembership (n : Node) : go Node :=
  m ← membershipAt n (lastIndex n);
  Done (set_membership n m).

Definition hasUncommittedConfiguration (n : Node) : bool :=
  existsb (λ entry, (commitIndex (state n) <? Index entry) && is_config (Type_ entry)) (log n).

Definition candidateLogIsUpToDate (n : Node) (index term : Z) : bool :=
  let lastT := lastTerm n in
  (lastT <? term) || (term =? lastT) && (lastIndex n <=? index).

(** ** Construction: validation of durable state *)

(** The loop of [Config.validate] over the retained log; [index] is the entry's
    position, [previousTerm] and [m] the loop's variables. *)
Fixpoint validateLog (universe : list NodeID) (snap commit current : Z) (index : Z)
    (previousTerm : Z) (m : Membership) (entries : list Entry) : option Membership :=
  match entries with
  | [] => Some m
  | entry :: rest =>
    let want := wrap64 (snap + index + 1) in
    if negb (Index entry =? want) || (Term entry =? 0) || (current <? Term entry) ||
       (Term entry <? previousTerm) || entry_type_unknown (Type_ entry)
    then None
    else if bool_decide (Type_ entry = EntryConfigFinal) && (commit <? wrap64 (Index entry - 1))
    then None
    else match transitionMembership m entry universe with
         | (next, true) =>
           validateLog universe snap commit current (index + 1) (Term entry) next rest
         | (_, false) => None
         end
  end.

(** The members check of [Config.validate] on the sorted members. *)
Fixpoint has_duplicate (l : list NodeID) : bool :=
  match l with
  | x :: ((y :: _) as l') => String.eqb y x || has_duplicate l'
  | _ => false
  end.

Definition zero_snapshot_metadata (s : Snapshot) : bool :=
  negb (LastIncludedTerm s =? 0) || negb (length (SnapMembers s) =? 0)%nat ||
  negb (length (SnapData s) =? 0)%nat || negb (membershipIsZero (SnapMembership s)).

(** The configuration at the snapshot boundary, or the error of the check. *)
Definition validateSnapshot (c : Config) (universe : list NodeID) (initial : Membership)
    (state : PersistentState) : Error + Membership :=
  let s := Snapshot_ state in
  if LastIncludedIndex s =? 0 then
    if zero_snapshot_metadata s then inl ErrInvalidState else inr initial
  else if (LastIncludedTerm s =? 0) || (currentTerm state <? LastIncludedTerm s) ||
          negb (nodes_equal (SnapMembers s) universe)
  then inl ErrInvalidState
  else if negb (membershipIsZero (SnapMembership s)) then
    if negb (validateMembership (SnapMembership s) universe) then inl ErrInvalidState
    else inr (CloneMembership (SnapMembership s))
  else if negb (membershipsEqual initial (stableMembership universe [])) then inl ErrInvalidState
  else inr initial.

Definition validate (c : Config) (state : PersistentState) : option Error :=
  if String.eqb (ID c) "" || (length (Members c) =? 0)%nat then Some ErrInvalidConfig
  else
  let universe := sort_nodes (slices_Clone (Members c)) in
  if contains universe "" then Some ErrInvalidConfig
  else if has_duplicate universe then Some ErrInvalidConfig
  else if negb (contains universe (ID c)) then Some ErrInvalidConfig
  else match initialMembership_of c universe with
  | (_, false) => Some ErrInvalidConfig
  | (initial, true) =>
    match validateSnapshot c universe initial state with
    | inl err => Some err
    | inr m =>
      if (max_u64 - snapIndex state) <? zlen (Log state) then Some ErrInvalidState
      else match validateLog universe (snapIndex state) (commitIndex state) (currentTerm state) 0
                   (snapTerm state) m (Log state) with
      | None => Some ErrInvalidState
      | Some _ =>
        let last := wrap64 (snapIndex state + zlen (Log state)) in
        if (commitIndex state <? snapIndex state) || (last <? commitIndex state) ||
           (commitIndex state <? CfgAppliedIndex c)
        then Some ErrInvalidState
        else None
      end
    end
  end.

Definition New (config : Config) (st : PersistentState) : go (Error + Node) :=
  let st := cloneState st in
  match validate config st with
  | Some err => Done (inl err)
  | None =>
    let members := sort_nodes (slices_Clone (Members config)) in
    let '(initial, _) := initialMembership_of config members in
    let node := mkNode (ID config) members initial emptyMembership Follower "" st
                  (CfgAppliedIndex config) None [] emptyMembership None None None 1 None in
    node ← refreshMembership node;
    Done (inr node)
  end.

(** ** Applying committed entries *)

(** One iteration per index between [applied] and the commit index: the fuel is
    their difference. *)
Fixpoint applyLoop (fuel : nat) (n : Node) : go (Node * list Effect) :=
  match fuel with
  | O => Done (n, [])
  | S fuel =>
    if applied n <? commitIndex (state n) then
      let n := set_applied n (wrap64 (applied n + 1)) in
      match entryAt n (applied n) with
      | None => Panic
      | Some entry =>
        '(n, rest) ← applyLoop fuel n;
        Done (n, EffectApply (cloneEntry entry) :: rest)
      end
    else Done (n, [])
  end.

Definition applyCommitted (n : Node) : go (Node * list Effect) :=
  applyLoop (Z.to_nat (commitIndex (state n) - applied n)) n.

Definition Start (n : Node) : go (Node * list Effect) :=
  let '(n, effects) :=
    if applied n <? snapIndex (state n)
    then (set_applied n (snapIndex (state n)),
          [EffectInstallSnapshot (cloneSnapshot (Snapshot_ (state n)))])
    else (n, []) in
  '(n, committed) ← applyCommitted n;
  Done (n, effects ++ committed ++
           (if isVoter (membership n) (id n) then [EffectResetElectionTimer] else [])).

Definition becomeFollower (n : Node) (term : Z) (newLeader : NodeID) : Node :=
  let n := mkNode (id n) (members n) (initialMembership n) (membership n) Follower newLeader
             (state n) (applied n) None [] emptyMembership None None None
             (nextWriteToken n) (pending n) in
  if currentTerm (state n) <? term then set_term_vote n term "" else n.

(** ** Replication messages *)

Definition blankMessage (t : MessageType) (from to : NodeID) (term : Z) : Message :=
  mkMessage t from to term 0 0 0 false 0 0 [] 0 false 0 0 emptySnapshot.

Definition snapshotResponse (n : Node) (to : NodeID) (sequence : Z) (success : bool)
    (match_ : Z) : Message :=
  mkMessage InstallSnapshotResponse (id n) to (currentTerm (state n)) sequence 0 0 false
    0 0 [] 0 success match_ 0 emptySnapshot.

Definition appendResponse (n : Node) (to : NodeID) (sequence : Z) (success : bool)
    (match_ hint : Z) : Message :=
  mkMessage AppendEntriesResponse (id n) to (currentTerm (state n)) sequence 0 0 false
    0 0 [] 0 success match_ hint emptySnapshot.

Definition appendMessage (n : Node) (member : NodeID) (prev : Z) (entries : list Entry) : Message :=
  mkMessage AppendEntries (id n) member (currentTerm (state n)) (map_get (appendSequence n) member)
    0 0 false prev (termAt n prev) entries (commitIndex (state n)) false 0 0 emptySnapshot.

Definition appendFor (n : Node) (member : NodeID) : go (Node * Message) :=
  sequence ← map_set (appendSequence n) member
               (wrap64 (map_get (appendSequence n) member + 1));
  let n := set_appendSequence n sequence in
  if map_get (matchIndex n) member =? max_u64 then
    Done (n, appendMessage n member max_u64 [])
  else
  let next := map_get (nextIndex n) member in
  let next := if next =? 0 then nextIndexAfter (lastIndex n) else next in
  if next <=? snapIndex (state n) then
    Done (n, mkMessage InstallSnapshot (id n) member (currentTerm (state n))
               (map_get (appendSequence n) member) 0 0 false 0 0 [] 0 false 0 0
               (cloneSnapshot (Snapshot_ (state n))))
  else
  let prev := wrap64 (next - 1) in
  let entries := if next <=? lastIndex n then entriesFrom n next else [] in
  Done (n, appendMessage n member prev entries).

Fixpoint broadcastLoop (n : Node) (targets : list NodeID) : go (Node * list Effect) :=
  match targets with
  | [] => Done (n, [])
  | member :: rest =>
    if String.eqb member (id n) then broadcastLoop n rest
    else
      '(n, message) ← appendFor n member;
      '(n, more) ← broadcastLoop n rest;
      Done (n, EffectSend message :: more)
  end.

(** [make([]Effect, 0, len(n.members)-1)] panics on an empty member list. *)
Definition broadcastAppend (n : Node) : go (Node * list Effect) :=
  if (length (members n) =? 0)%nat then Panic else broadcastLoop n (members n).

(** ** Commit index *)

(** The loop over [index] from the last index down to the old commit index: the
    fuel is their difference. *)
Fixpoint advanceLoop (fuel : nat) (n : Node) (oldCommit index : Z) : go (Node * list Effect) :=
  match fuel with
  | O => Done (n, [])
  | S fuel =>
    if negb (oldCommit <? index) then Done (n, [])
    else if negb (termAt n index =? currentTerm (state n))
    then advanceLoop fuel n oldCommit (wrap64 (index - 1))
    else
      m ← membershipAt n index;
      if quorum m (λ member, index <=? map_get (matchIndex n) member) then
        let n := set_commit n index in
        '(n, effects) ← applyCommitted n;
        let n := if bool_decide (role n = Leader) && negb (isVoter (membership n) (id n))
                 then becomeFollower n (currentTerm (state n)) "" else n in
        Done (n, effects)
      else advanceLoop fuel n oldCommit (wrap64 (index - 1))
  end.

Definition advanceCommit (n : Node) : go (Node * list Effect) :=
  let oldCommit := commitIndex (state n) in
  advanceLoop (Z.to_nat (lastIndex n - oldCommit)) n oldCommit (lastIndex n).

(** ** Elections *)

(** [votes[id]] on a set: the predicate passed to [quorum]. *)
Definition voted (n : Node) (member : NodeID) : bool :=
  match votes n with Some v => bool_decide (member ∈ v) | None => false end.

Definition becomeLeader (n : Node) : go (Node * (Error + list Effect)) :=
  if lastIndex n =? max_u64 then Done (n, inl ErrIndexExhausted)
  else
  let last := lastIndex n in
  let next := Some (list_to_map (map (λ member, (member, wrap64 (last + 1))) (members n))) in
  let match_ := Some (list_to_map (map (λ member, (member, 0)) (members n))) in
  match_ ← map_set match_ (id n) last;
  let noop := mkEntry (wrap64 (last + 1)) (currentTerm (state n)) EntryNoop [] emptyMembership in
  match_ ← map_set match_ (id n) (Index noop);
  let n := mkNode (id n) (members n) (initialMembership n) (membership n) Leader (id n)
             (state n) (applied n) (votes n) (filter (λ member, voted n member = true) (members n))
             (CloneMembership (membership n)) next match_ (Some ∅) (nextWriteToken n) (pending n) in
  let n := set_log n (log n ++ [noop]) in
  '(n, committed) ← advanceCommit n;
  '(n, appends) ← broadcastAppend n;
  Done (n, inr (EffectResetHeartbeatTimer :: committed ++ appends)).

Definition voteRequest (n : Node) (member : NodeID) : Message :=
  mkMessage RequestVote (id n) member (currentTerm (state n)) 0 (lastIndex n) (lastTerm n)
    false 0 0 [] 0 false 0 0 emptySnapshot.

(** The dirty flag and the effects, or an error. *)
Abbreviation Handled := (Error + bool * list Effect)%type.

Definition startElection (n : Node) : go (Node * Handled) :=
  if negb (isVoter (membership n) (id n)) then Done (n, inl ErrNotVoter)
  else if quorum (membership n) (λ member, String.eqb member (id n)) && (lastIndex n =? max_u64)
  then Done (n, inl ErrIndexExhausted)
  else
  let n := mkNode (id n) (members n) (initialMembership n) (membership n) Candidate ""
             (state n) (applied n) (Some {[id n]}) [] (electionMembership n) None None None
             (nextWriteToken n) (pending n) in
  let n := set_term_vote n (wrap64 (currentTerm (state n) + 1)) (id n) in
  if quorum (membership n) (voted n) then
    '(n, result) ← becomeLeader n;
    match result with
    | inl err => Done (n, inl err)
    | inr leaderEffects => Done (n, inr (true, EffectResetElectionTimer :: leaderEffects))
    end
  else
    let targets := filter (λ member, member ≠ id n) (voterUnion (membership n)) in
    Done (n, inr (true, EffectResetElectionTimer ::
                        map (λ member, EffectSend (voteRequest n member)) targets)).

Definition handleRequestVote (n : Node) (message : Message) : Node * (bool * list Effect) :=
  let grant := (MsgTerm message =? currentTerm (state n)) &&
    isVoter (membership n) (id n) && isVoter (membership n) (From message) &&
    (String.eqb (votedFor (state n)) "" || String.eqb (votedFor (state n)) (From message)) &&
    candidateLogIsUpToDate n (LastLogIndex message) (LastLogTerm message) in
  let dirty := grant && negb (String.eqb (votedFor (state n)) (From message)) in
  let n := if dirty then set_votedFor n (From message) else n in
  let response := EffectSend (mkMessage RequestVoteResponse (id n) (From message)
    (currentTerm (state n)) 0 0 0 grant 0 0 [] 0 false 0 0 emptySnapshot) in
  (n, (dirty, if grant then [EffectResetElectionTimer; response] else [response])).

Definition handleRequestVoteResponse (n : Node) (message : Message) : go (Node * Handled) :=
  if negb (bool_decide (role n = Candidate)) || negb (MsgTerm message =? currentTerm (state n)) ||
     negb (VoteGranted message)
  then Done (n, inr (false, []))
  else if voted n (From message) then Done (n, inr (false, []))
  else match votes n with
  | None => Panic
  | Some v =>
    let n := set_votes n (Some ({[From message]} ∪ v)) in
    if negb (quorum (membership n) (voted n)) then Done (n, inr (false, []))
    else
      '(n, result) ← becomeLeader n;
      match result with
      | inl err => Done (n, inl err)
      | inr leaderEffects => Done (n, inr (true, leaderEffects))
      end
  end.

(** ** Append entries *)

(** The validation loop: the index to reject at, if some entry is malformed. *)
Fixpoint checkIncoming (universe : list NodeID) (prevIndex term : Z) (offset : Z)
    (previousTerm : Z) (m : Membership) (entries : list Entry) : option Z :=
  match entries with
  | [] => None
  | incoming :: rest =>
    let index := wrap64 (prevIndex + offset + 1) in
    if negb (Index incoming =? index) || (Term incoming =? 0) || (term <? Term incoming) ||
       (Term incoming <? previousTerm) || entry_type_unknown (Type_ incoming)
    then Some index
    else match transitionMembership m incoming universe with
         | (next, true) =>
           checkIncoming universe prevIndex term (offset + 1) (Term incoming) next rest
         | (_, false) => Some index
         end
  end.

(** The append loop: the node, the dirty flag, and whether the loop returned early. *)
Fixpoint appendLoop (n : Node) (prevIndex : Z) (offset : Z) (dirty : bool)
    (entries : list Entry) : Node * bool * bool :=
  match entries with
  | [] => (n, dirty, false)
  | incoming :: rest =>
    let index := wrap64 (prevIndex + offset + 1) in
    if (index <=? lastIndex n) && (termAt n index =? Term incoming)
    then appendLoop n prevIndex (offset + 1) dirty rest
    else
    let n := if index <=? lastIndex n then truncateFrom n index else n in
    if lastIndex n <? index then
      if negb (index =? nextIndexAfter (lastIndex n)) then (n, dirty, true)
      else appendLoop (set_log n (log n ++ [cloneEntry incoming])) prevIndex (offset + 1) true rest
    else appendLoop n prevIndex (offset + 1) dirty rest
  end.

Definition handleAppendEntries (n : Node) (message : Message)
    : go (Node * (bool * list Effect)) :=
  if MsgTerm message <? currentTerm (state n) then
    Done (n, (false, [EffectSend (appendResponse n (From message) (Sequence message) false 0
                                    (nextIndexAfter (lastIndex n)))]))
  else
  let n := if negb (bool_decide (role n = Follower)) || negb (String.eqb (leader n) (From message))
           then becomeFollower n (MsgTerm message) (From message) else n in
  let reject hint :=
    [EffectResetElectionTimer;
     EffectSend (appendResponse n (From message) (Sequence message) false 0 hint)] in
  let prev := PrevLogIndex message in
  if (prev <? snapIndex (state n)) || negb (termAt n prev =? PrevLogTerm message) then
    let hint := Z.min prev (nextIndexAfter (lastIndex n)) in
    let hint := if prev <? snapIndex (state n) then nextIndexAfter (snapIndex (state n)) else hint in
    let hint := if hint =? 0 then 1 else hint in
    Done (n, (false, reject hint))
  else if (max_u64 - prev) <? zlen (Entries message) then
    Done (n, (false, reject (nextIndexAfter (lastIndex n))))
  else
  m ← membershipAt n prev;
  match checkIncoming (members n) prev (MsgTerm message) 0 (PrevLogTerm message) m
          (Entries message) with
  | Some index => Done (n, (false, reject index))
  | None =>
    let '(n, dirty, early) := appendLoop n prev 0 false (Entries message) in
    if (early : bool) then
      Done (n, (dirty, [EffectResetElectionTimer;
        EffectSend (appendResponse n (From message) (Sequence message) false 0
                      (nextIndexAfter (lastIndex n)))]))
    else
    n ← (if dirty then refreshMembership n else Done n);
    '(n, (dirty, committed)) ←
      (if commitIndex (state n) <? LeaderCommit message then
         '(n, committed) ← applyCommitted
            (set_commit n (Z.min (LeaderCommit message) (lastIndex n)));
         Done (n, (true, committed))
       else Done (n, (dirty, [])));
    let match_ := wrap64 (prev + zlen (Entries message)) in
    Done (n, (dirty, EffectResetElectionTimer :: committed ++
      [EffectSend (appendResponse n (From message) (Sequence message) true match_ 0)]))
  end.

(** The tail both successful responses have: record the follower's progress,
    advance the commit index, send what is missing. *)
Definition followerProgress (n : Node) (message : Message)
    : go (Node * (bool * list Effect)) :=
  let from := From message in
  n ← (if map_get (matchIndex n) from <? MatchIndex message then
         matches ← map_set (matchIndex n) from (Z.min (MatchIndex message) (lastIndex n));
         let n := set_matchIndex n matches in
         nexts ← map_set (nextIndex n) from (nextIndexAfter (map_get (matchIndex n) from));
         Done (set_nextIndex n nexts)
       else Done n);
  '(n, committed) ← advanceCommit n;
  let dirty := negb (length committed =? 0)%nat in
  if negb (bool_decide (role n = Leader)) then Done (n, (dirty, committed))
  else if map_get (matchIndex n) from <? lastIndex n then
    '(n, append) ← appendFor n from;
    Done (n, (dirty, committed ++ [EffectSend append]))
  else Done (n, (dirty, committed)).

Definition handleAppendEntriesResponse (n : Node) (message : Message)
    : go (Node * (bool * list Effect)) :=
  let from := From message in
  if negb (bool_decide (role n = Leader)) || negb (MsgTerm message =? currentTerm (state n))
  then Done (n, (false, []))
  else if negb (Success message) then
    if negb (Sequence message =? map_get (appendSequence n) from) then Done (n, (false, []))
    else
    let next := map_get (nextIndex n) from in
    let next := if 1 <? next then next - 1 else next in
    let next := if (0 <? RejectHint message) && (RejectHint message <? next)
                then RejectHint message else next in
    nexts ← map_set (nextIndex n) from (Z.max 1 next);
    '(n, append) ← appendFor (set_nextIndex n nexts) from;
    Done (n, (false, [EffectSend append]))
  else followerProgress n message.

(** ** Snapshots *)

(** The loop over the retained suffix: its last configuration, if every
    transition is valid. *)
Fixpoint checkSuffix (universe : list NodeID) (m : Membership) (entries : list Entry)
    : option Membership :=
  match entries with
  | [] => Some m
  | entry :: rest =>
    match transitionMembership m entry universe with
    | (next, true) => checkSuffix universe next rest
    | (_, false) => None
    end
  end.

Definition handleInstallSnapshot (n : Node) (message : Message)
    : go (Node * (bool * list Effect)) :=
  if MsgTerm message <? currentTerm (state n) then
    Done (n, (false, [EffectSend (snapshotResponse n (From message) (Sequence message) false
                                    (snapIndex (state n)))]))
  else
  let n := if negb (bool_decide (role n = Follower)) || negb (String.eqb (leader n) (From message))
           then becomeFollower n (MsgTerm message) (From message) else n in
  let respond (ok : bool) index :=
    EffectSend (snapshotResponse n (From message) (Sequence message) ok index) in
  let snapshot := MsgSnapshot message in
  let snapshotM := if membershipIsZero (SnapMembership snapshot)
                   then stableMembership (SnapMembers snapshot) [] else SnapMembership snapshot in
  let legacyMismatch := membershipIsZero (SnapMembership snapshot) &&
    negb (membershipsEqual (initialMembership n) (stableMembership (members n) [])) in
  if (LastIncludedIndex snapshot =? 0) || (LastIncludedTerm snapshot =? 0) ||
     (MsgTerm message <? LastIncludedTerm snapshot) ||
     negb (nodes_equal (SnapMembers snapshot) (members n)) ||
     negb (validateMembership snapshotM (members n)) || legacyMismatch
  then Done (n, (false, [EffectResetElectionTimer; respond false (snapIndex (state n))]))
  else if LastIncludedIndex snapshot <=? commitIndex (state n) then
    Done (n, (false, [EffectResetElectionTimer; respond true (LastIncludedIndex snapshot)]))
  else
  let suffix :=
    if (termAt n (LastIncludedIndex snapshot) =? LastIncludedTerm snapshot) &&
       (LastIncludedIndex snapshot <? max_u64)
    then entriesFrom n (LastIncludedIndex snapshot + 1) else [] in
  match checkSuffix (members n) snapshotM suffix with
  | None => Done (n, (false, [EffectResetElectionTimer; respond false (snapIndex (state n))]))
  | Some _ =>
    let n := set_state n (mkPersistentState
      (mkHardState (currentTerm (state n)) (votedFor (state n)) (LastIncludedIndex snapshot))
      (cloneSnapshot snapshot) suffix) in
    let n := set_applied n (LastIncludedIndex snapshot) in
    n ← refreshMembership n;
    Done (n, (true, [EffectResetElectionTimer; EffectInstallSnapshot (cloneSnapshot snapshot);
                     EffectSend (snapshotResponse n (From message) (Sequence message) true
                                   (LastIncludedIndex snapshot))]))
  end.

Definition handleInstallSnapshotResponse (n : Node) (message : Message)
    : go (Node * (bool * list Effect)) :=
  if negb (bool_decide (role n = Leader)) || negb (MsgTerm message =? currentTerm (state n)) ||
     negb (Success message)
  then Done (n, (false, []))
  else followerProgress n message.

(** ** Membership changes and proposals *)

Definition appendMembershipEntry (n : Node) (t : EntryType) (m : Membership)
    : go (Node * Handled) :=
  let entry := mkEntry (wrap64 (lastIndex n + 1)) (currentTerm (state n)) t [] m in
  match transitionMembership (membership n) entry (members n) with
  | (_, false) => Done (n, inl ErrInvalidInput)
  | (_, true) =>
    n ← refreshMembership (set_log n (log n ++ [entry]));
    matches ← map_set (matchIndex n) (id n) (Index entry);
    '(n, effects) ← advanceCommit (set_matchIndex n matches);
    if bool_decide (role n = Leader) then
      '(n, appends) ← broadcastAppend n;
      Done (n, inr (true, effects ++ appends))
    else Done (n, inr (true, effects))
  end.

Definition beginMembership (n : Node) (voters learners : list NodeID) : go (Node * Handled) :=
  if negb (bool_decide (role n = Leader)) then Done (n, inl ErrNotLeader)
  else if negb (isVoter (membership n) (id n)) then Done (n, inl ErrNotVoter)
  else if Joint (membership n) || hasUncommittedConfiguration n
  then Done (n, inl ErrMembershipInProgress)
  else if lastIndex n =? max_u64 then Done (n, inl ErrIndexExhausted)
  else
  let target := stableMembership voters learners in
  if negb (validateMembership target (members n)) || membershipsEqual target (membership n)
  then Done (n, inl ErrInvalidInput)
  else
  let joint := mkMembership (Voters target) (slices_Clone (Voters (membership n)))
                 (expectedLearners (Learners target) (Voters (membership n))) (Learners target) in
  appendMembershipEntry n EntryConfigJoint joint.

Definition finalizeMembership (n : Node) : go (Node * Handled) :=
  if negb (bool_decide (role n = Leader)) then Done (n, inl ErrNotLeader)
  else if negb (Joint (membership n)) || hasUncommittedConfiguration n ||
          negb (commitIndex (state n) =? lastIndex n)
  then Done (n, inl ErrMembershipInProgress)
  else if lastIndex n =? max_u64 then Done (n, inl ErrIndexExhausted)
  else
  let final := stableMembership (Voters (membership n)) (LearnersNext (membership n)) in
  appendMembershipEntry n EntryConfigFinal final.

Definition propose (n : Node) (data : bytes) : go (Node * Handled) :=
  if negb (bool_decide (role n = Leader)) then Done (n, inl ErrNotLeader)
  else if negb (isVoter (membership n) (id n)) then Done (n, inl ErrNotVoter)
  else if hasUncommittedConfiguration n then Done (n, inl ErrMembershipInProgress)
  else if lastIndex n =? max_u64 then Done (n, inl ErrIndexExhausted)
  else
  let entry := mkEntry (wrap64 (lastIndex n + 1)) (currentTerm (state n)) EntryCommand
                 (slices_Clone data) emptyMembership in
  let n := set_log n (log n ++ [entry]) in
  matches ← map_set (matchIndex n) (id n) (Index entry);
  '(n, committed) ← advanceCommit (set_matchIndex n matches);
  '(n, appends) ← broadcastAppend n;
  Done (n, inr (true, committed ++ appends)).

Definition takeSnapshot (n : Node) (index : Z) (data : bytes) : go (Node * Handled) :=
  if (index =? 0) || (index <=? snapIndex (state n)) || (applied n <? index) ||
     (commitIndex (state n) <? index)
  then Done (n, inl ErrInvalidInput)
  else
  let term := termAt n index in
  if term =? 0 then Done (n, inl ErrInvalidInput)
  else
  let suffix := if index <? max_u64 then entriesFrom n (index + 1) else [] in
  m ← membershipAt n index;
  let snapshot := mkSnapshot index term (slices_Clone (members n)) (slices_Clone data) m in
  n ← refreshMembership (set_log (set_snapshot n snapshot) suffix);
  Done (n, inr (true, [])).

(** ** Step *)

Definition lift_handled (m : go (Node * (bool * list Effect))) : go (Node * Handled) :=
  '(n, r) ← m; Done (n, inr r).

Definition or_dirty (dirty : bool) (m : go (Node * Handled)) : go (Node * Handled) :=
  '(n, r) ← m;
  Done (n, match r with
           | inl err => inl err
           | inr (changed, effects) => inr (dirty || changed, effects)
           end).

Definition stepMessage (n : Node) (message : Message) : go (Node * Handled) :=
  if negb (String.eqb (To message) (id n)) || String.eqb (From message) "" ||
     String.eqb (From message) (id n) || negb (contains (members n) (From message))
  then Done (n, inl ErrInvalidInput)
  else if message_type_unknown (MsgType message) then Done (n, inl ErrInvalidInput)
  else
  let dirty := currentTerm (state n) <? MsgTerm message in
  let n := if dirty then becomeFollower n (MsgTerm message) "" else n in
  or_dirty dirty
    (match MsgType message with
     | RequestVote => lift_handled (Done (handleRequestVote n message))
     | RequestVoteResponse => handleRequestVoteResponse n message
     | AppendEntries => lift_handled (handleAppendEntries n message)
     | AppendEntriesResponse => lift_handled (handleAppendEntriesResponse n message)
     | InstallSnapshot => lift_handled (handleInstallSnapshot n message)
     | InstallSnapshotResponse => lift_handled (handleInstallSnapshotResponse n message)
     | MessageUnknown _ => Done (n, inr (false, []))
     end).

Definition acknowledgePersistence (n : Node) (tok : Z) : Node * (Error + list Effect) :=
  match pending n with
  | None => (n, inl ErrUnexpectedPersistence)
  | Some p =>
    if (tok =? 0) || negb (tok =? token p) then (n, inl ErrUnexpectedPersistence)
    else (set_pending n (nextWriteToken n) None, inr (effects p))
  end.

(** The switch of [Step]; the early returns of the source are the results with a
    false dirty flag. *)
Definition stepInput (n : Node) (input : Input) : go (Node * Handled) :=
  match input with
  | InputElectionTimeout =>
    if negb (isVoter (membership n) (id n)) then Done (n, inr (false, []))
    else if currentTerm (state n) =? max_u64 then Done (n, inl ErrTermExhausted)
    else startElection n
  | InputHeartbeatTimeout =>
    if bool_decide (role n = Leader) then
      '(n, appends) ← broadcastAppend n;
      Done (n, inr (false, EffectResetHeartbeatTimer :: appends))
    else Done (n, inr (false, []))
  | InputMessage message => stepMessage n message
  | InputProposal data => propose n data
  | InputSnapshot index data => takeSnapshot n index data
  | InputBeginMembership voters learners => beginMembership n voters learners
  | InputFinalizeMembership => finalizeMembership n
  | InputPersisted _ | InputUnknown _ => Done (n, inl ErrInvalidInput)
  end.

Definition Step (n : Node) (input : Input) : go (Node * (Error + list Effect)) :=
  match input with
  | InputPersisted tok => Done (acknowledgePersistence n tok)
  | _ =>
    match pending n with
    | Some _ => Done (n, inl ErrAwaitingPersistence)
    | None =>
      '(n, r) ← stepInput n input;
      Done (match r with
            | inl err => (n, inl err)
            | inr (true, effects) =>
              let tok := nextWriteToken n in
              (set_pending n (wrap64 (tok + 1)) (Some (mkPending tok effects)),
               inr [EffectPersist tok (cloneState (state n))])
            | inr (false, effects) => (n, inr effects)
            end)
    end
  end.

(** ** Observations *)

Record Status_ := mkStatus {
  StID : NodeID;
  StRole : Role;
  StTerm : Z;
  StVotedFor : NodeID;
  StLeader : NodeID;
  StCommitIndex : Z;
  StAppliedIndex : Z;
  StLastLogIndex : Z;
  StLastLogTerm : Z;
  StSnapshot : Snapshot;
  StMembership : Membership;
  StLog : list Entry;
  StElectionVotes : list NodeID;
  StElectionMembership : Membership;
  StAwaitingPersistence : bool;
  StWriteToken : Z }.

Definition AwaitingPersistence (n : Node) : bool := bool_decide (is_Some (pending n)).

Definition Status (n : Node) : Status_ :=
  mkStatus (id n) (role n) (currentTerm (state n)) (votedFor (state n)) (leader n)
    (commitIndex (state n)) (applied n) (lastIndex n) (lastTerm n)
    (cloneSnapshot (Snapshot_ (state n))) (CloneMembership (membership n))
    (cloneEntries (log n)) (slices_Clone (electionVotes n))
    (CloneMembership (electionMembership n)) (AwaitingPersistence n)
    (match pending n with Some p => token p | None => 0 end).

(** Maps rendered as lists sorted by node: [sortedNodeSet], [sortedNodeIndexes]. *)
Definition sortedNodeSet (values : option (gset string)) : list NodeID :=
  sort_nodes (match values with Some s => elements s | None => [] end).

Definition node_index_le (l r : NodeID * Z) : Prop := String.le l.1 r.1.

Definition sortedNodeIndexes (values : node_map) : list (NodeID * Z) :=
  merge_sort node_index_le (match values with Some m => map_to_list m | None => [] end).

Record NodeState := mkNodeState {
  NsID : NodeID;
  NsMembers : list NodeID;
  NsInitialMembership : Membership;
  NsMembership : Membership;
  NsRole : Role;
  NsLeader : NodeID;
  NsPersistent : PersistentState;
  NsApplied : Z;
  NsVotes : list NodeID;
  NsElectionVotes : list NodeID;
  NsElectionMembership : Membership;
  NsNextIndex : list (NodeID * Z);
  NsMatchIndex : list (NodeID * Z);
  NsAppendSequence : list (NodeID * Z);
  NsNextWriteToken : Z;
  NsPending : option pendingWrite }.

Definition State (n : Node) : NodeState :=
  mkNodeState (id n) (slices_Clone (members n)) (CloneMembership (initialMembership n))
    (CloneMembership (membership n)) (role n) (leader n) (cloneState (state n)) (applied n)
    (sortedNodeSet (votes n)) (slices_Clone (electionVotes n))
    (CloneMembership (electionMembership n)) (sortedNodeIndexes (nextIndex n))
    (sortedNodeIndexes (matchIndex n)) (sortedNodeIndexes (appendSequence n))
    (nextWriteToken n)
    (match pending n with
     | Some p => Some (mkPending (token p) (cloneEffects (effects p)))
     | None => None
     end).
