(* ===== verification/NodeInv.v ===== *)
(** * Valid logs

    The shape a log suffix has after a snapshot boundary - contiguous indexes,
    monotone terms, known entry types, accepted configuration transitions - as an
    inductive predicate, with its decomposition at a position.  The loops of the
    source that validate a log ([validateLog], [checkIncoming], [checkSuffix],
    [membershipLoop]) are related to it. *)

From S2P Require Export Node.

(** [log_ok universe current commit prev pt m l m']: the entries [l] extend a log
    whose last index is [prev], last term [pt] and configuration [m], and leave the
    configuration [m']. *)
Inductive log_ok (universe : list NodeID) (current commit : Z)
    : Z → Z → Membership → list Entry → Membership → Prop :=
| log_ok_nil prev pt m : log_ok universe current commit prev pt m [] m
| log_ok_cons prev pt m e l next m' :
  Index e = prev + 1 →
  0 < Term e → pt ≤ Term e ≤ current →
  entry_type_unknown (Type_ e) = false →
  (Type_ e = EntryConfigFinal → Index e - 1 ≤ commit) →
  transitionMembership m e universe = (next, true) →
  log_ok universe current commit (Index e) (Term e) next l m' →
  log_ok universe current commit prev pt m (e :: l) m'.

Definition last_term (pt : Z) (l : list Entry) : Z := default pt (Term <$> last l).

Lemma last_term_cons pt e l : last_term pt (e :: l) = last_term (Term e) l.
Proof. unfold last_term. rewrite last_cons. by destruct (last l). Qed.

Lemma last_term_snoc pt l e : last_term pt (l ++ [e]) = Term e.
Proof. unfold last_term. by rewrite last_snoc. Qed.

Section log_ok.
Context (universe : list NodeID) (current commit : Z).
Abbreviation ok := (log_ok universe current commit).

Lemma log_ok_app p pt m l1 l2 m' :
  ok p pt m (l1 ++ l2) m' ↔
  ∃ m1, ok p pt m l1 m1 ∧ ok (p + zlen l1) (last_term pt l1) m1 l2 m'.
Proof.
  revert p pt m. induction l1 as [|e l1 IH]; intros p pt m; simpl.
  - rewrite zlen_nil, Z.add_0_r. split.
    + intros H. exists m. split; [constructor | done].
    + intros (m1 & H1 & H2). by inversion H1; subst.
  - rewrite last_term_cons, zlen_cons. split.
    + intros H. inversion H as [|? ? ? ? ? nx ? HI HT Hpt Hty Hf Htr Hrest]; subst.
      apply IH in Hrest as (m1 & H8 & H9). exists m1. split; [by econstructor |].
      replace (p + (1 + zlen l1)) with (Index e + zlen l1) by lia. done.
    + intros (m1 & H1 & H2). inversion H1; subst.
      econstructor; try done. apply IH. exists m1. split; [done |].
      by replace (Index e + zlen l1) with (p + (1 + zlen l1)) by lia.
Qed.

Lemma log_ok_snoc p pt m l m1 e next :
  ok p pt m l m1 →
  Index e = p + zlen l + 1 → 0 < Term e → last_term pt l ≤ Term e ≤ current →
  entry_type_unknown (Type_ e) = false →
  (Type_ e = EntryConfigFinal → Index e - 1 ≤ commit) →
  transitionMembership m1 e universe = (next, true) →
  ok p pt m (l ++ [e]) next.
Proof.
  intros. apply log_ok_app. exists m1. split; [done |]. econstructor; try done. constructor.
Qed.

Lemma log_ok_take p pt m l m' k :
  ok p pt m l m' → ∃ mk, ok p pt m (take k l) mk ∧
    ok (p + zlen (take k l)) (last_term pt (take k l)) mk (drop k l) m'.
Proof. intros H. apply log_ok_app. by rewrite take_drop. Qed.

Lemma log_ok_det p pt m l m1 m2 : ok p pt m l m1 → ok p pt m l m2 → m1 = m2.
Proof.
  intros H. revert m2.
  induction H as [|p pt m e l next m1 ? ? ? ? ? Htr _ IH]; intros m2 Hm2;
    inversion Hm2 as [|? ? ? ? ? n2 ? ? ? ? ? ? Htr2 Hrest]; subst; [done |].
  apply IH. congruence.
Qed.

Lemma log_ok_lookup p pt m l m' i e :
  ok p pt m l m' → l !! i = Some e →
  Index e = p + Z.of_nat i + 1 ∧ 0 < Term e ∧ pt ≤ Term e ≤ current ∧
  entry_type_unknown (Type_ e) = false.
Proof.
  intros H. revert i. induction H; intros [|i] Hi; simplify_eq/=.
  - repeat split; try done; lia.
  - apply IHlog_ok in Hi as (? & ? & ? & ?). repeat split; try done; lia.
Qed.

Lemma log_ok_elem p pt m l m' e :
  ok p pt m l m' → e ∈ l →
  p < Index e ≤ p + zlen l ∧ 0 < Term e ∧ pt ≤ Term e ≤ current.
Proof.
  intros H [i Hi]%list_elem_of_lookup.
  pose proof (lookup_lt_Some _ _ _ Hi).
  apply (log_ok_lookup _ _ _ _ _ _ _ H) in Hi as (? & ? & ? & ?).
  unfold zlen. lia.
Qed.

Lemma log_ok_last_term p pt m l m' : ok p pt m l m' → pt ≤ current →
  pt ≤ last_term pt l ≤ current.
Proof.
  intros H Hpt. unfold last_term. destruct (last l) as [e|] eqn:E; simpl; [| lia].
  rewrite last_lookup in E. apply (log_ok_lookup _ _ _ _ _ _ _ H) in E. lia.
Qed.

Lemma log_ok_valid p pt m l m' : ok p pt m l m' →
  membership_valid m universe → membership_valid m' universe.
Proof. induction 1; eauto using transitionMembership_valid. Qed.

(** The configuration loop stops at the entry after [index]. *)
Lemma membershipLoop_ok p pt m l m' index :
  ok p pt m l m' →
  wp (membershipLoop universe index m l)
     (λ mk, ok p pt m (take (Z.to_nat (index - p)) l) mk).
Proof.
  intros H. induction H as [p pt m | p pt m e l next m' HI HT Hpt Hty Hf Htr H IH]; simpl.
  { rewrite take_nil. constructor. }
  destruct (Z.ltb_spec index (Index e)) as [Hlt|Hge].
  { replace (Z.to_nat (index - p)) with 0%nat by lia. constructor. }
  replace (Z.to_nat (index - p)) with (S (Z.to_nat (index - Index e))) by lia. simpl.
  assert (is_config (Type_ e) = false → next = m) as Hnext.
  { intros Hc. apply transitionMembership_inv in Htr.
    destruct Htr as [(E&_)|[(E&_)|(_&_&_&?)]]; [rewrite E in Hc; done.. | done]. }
  destruct (is_config (Type_ e)) eqn:Hc; simpl.
  - rewrite Htr. eapply wp_mono; [apply IH |]. intros mk Hk. by econstructor.
  - rewrite (Hnext eq_refl) in *. eapply wp_mono; [apply IH |].
    intros mk Hk. by econstructor.
Qed.
End log_ok.

Lemma log_ok_weaken universe cur commit cur' commit' p pt m l m' :
  log_ok universe cur commit p pt m l m' → cur ≤ cur' → commit ≤ commit' →
  log_ok universe cur' commit' p pt m l m'.
Proof. induction 1; intros; econstructor; eauto; intros; try lia. assert (Index e - 1 ≤ commit) by auto. lia. Qed.

(** A commit index past the end of the log constrains no more than its last index. *)
Lemma log_ok_commit_min universe cur com com' p pt m l m' :
  log_ok universe cur com p pt m l m' → Z.min com (p + zlen l) ≤ com' →
  log_ok universe cur com' p pt m l m'.
Proof.
  induction 1 as [|p pt m e l next m' HI HT Hpt Hty Hf Htr H IH]; intros Hc; [constructor |].
  rewrite zlen_cons in Hc. pose proof (zlen_nonneg l).
  econstructor; try done; [intros E; specialize (Hf E); lia | apply IH; lia].
Qed.

(** The previous term may be lowered, as at a snapshot that replaces the prefix. *)
Lemma log_ok_pt universe cur commit p pt pt' m l m' :
  log_ok universe cur commit p pt m l m' → pt' ≤ pt →
  log_ok universe cur commit p pt' m l m'.
Proof. intros H Hle. destruct H; econstructor; eauto; lia. Qed.

(** ** The loops of the source *)

Lemma validateLog_ok universe snap commit cur index pt m l m' :
  0 ≤ snap + index → snap + index + zlen l ≤ max_u64 →
  log_ok universe cur commit (snap + index) pt m l m' →
  validateLog universe snap commit cur index pt m l = Some m'.
Proof.
  revert index pt m. induction l as [|e l IH]; intros index pt m Hlo Hhi H; inversion H; subst; simpl.
  { done. }
  rewrite zlen_cons in Hhi. pose proof (zlen_nonneg l).
  rewrite !wrap64_small by (unfold is_u64; lia).
  destruct (Z.eqb_spec (Index e) (snap + index + 1)); [simpl | lia].
  destruct (Z.eqb_spec (Term e) 0); [lia | simpl].
  destruct (Z.ltb_spec cur (Term e)); [lia | simpl].
  destruct (Z.ltb_spec (Term e) pt); [lia | simpl].
  match goal with E : entry_type_unknown _ = false |- _ => rewrite E end. simpl.
  assert (bool_decide (Type_ e = EntryConfigFinal) && (commit <? Index e - 1) = false) as ->.
  { apply andb_false_iff. destruct (decide (Type_ e = EntryConfigFinal)) as [E|E].
    - right. apply Z.ltb_ge. auto.
    - left. by apply bool_decide_eq_false. }
  match goal with E : transitionMembership _ _ _ = _ |- _ => rewrite E end.
  apply IH; try lia. by replace (snap + (index + 1)) with (Index e) by lia.
Qed.

Lemma validateLog_sound universe snap commit cur index pt m l m' :
  0 ≤ snap + index → snap + index + zlen l ≤ max_u64 → Forall (λ e, is_u64 (Term e)) l →
  validateLog universe snap commit cur index pt m l = Some m' →
  log_ok universe cur commit (snap + index) pt m l m'.
Proof.
  revert index pt m. induction l as [|e l IH]; intros index pt m Hlo Hhi Hu H; simpl in H.
  { simplify_eq. constructor. }
  rewrite zlen_cons in Hhi. pose proof (zlen_nonneg l).
  inversion Hu as [|? ? Hue Hul]; subst. unfold is_u64 in Hue.
  rewrite (wrap64_small (snap + index + 1)) in H by (unfold is_u64; lia).
  case_if_in H; [done |]. case_if_in H; [done |].
  repeat match goal with E : _ || _ = false |- _ => apply orb_false_iff in E as [? ?] end.
  rewrite negb_false_iff in *. reflect.
  destruct (transitionMembership m e universe) as [next []] eqn:Etr; [| done].
  econstructor; try done; try lia.
  - intros Hf. rewrite wrap64_small in Hif0 by (unfold is_u64; lia). naive_solver lia.
  - apply IH in H; try done; try lia. by replace (Index e) with (snap + (index + 1)) by lia.
Qed.

Lemma checkIncoming_sound universe prev term commit offset pt m l :
  0 ≤ prev + offset → prev + offset + zlen l ≤ max_u64 → Forall (λ e, is_u64 (Term e)) l →
  (∀ e, e ∈ l → Type_ e = EntryConfigFinal → Index e - 1 ≤ commit) →
  checkIncoming universe prev term offset pt m l = None →
  ∃ m', log_ok universe term commit (prev + offset) pt m l m'.
Proof.
  revert offset pt m. induction l as [|e l IH]; intros offset pt m Hlo Hhi Hu Hf H; simpl in H.
  { eexists. constructor. }
  rewrite zlen_cons in Hhi. pose proof (zlen_nonneg l).
  inversion Hu as [|? ? Hue Hul]; subst. unfold is_u64 in Hue.
  rewrite wrap64_small in H by (unfold is_u64; lia).
  case_if_in H; [done |].
  repeat match goal with E : _ || _ = false |- _ => apply orb_false_iff in E as [? ?] end.
  rewrite negb_false_iff in *. reflect.
  destruct (transitionMembership m e universe) as [next []] eqn:Etr; [| done].
  apply IH in H as [m' H]; [| lia | lia | done | by intros; apply Hf; [constructor |] ].
  exists m'. econstructor; try done; try lia.
  - intros. apply Hf; [by constructor | done].
  - by replace (Index e) with (prev + (offset + 1)) by lia.
Qed.

(** Replacing the prefix of a valid suffix by a snapshot keeps it valid when its
    transitions are accepted again. *)
Lemma checkSuffix_sound universe cur commit p pt m0 m0' l m m' :
  log_ok universe cur commit p pt m0 l m0' →
  checkSuffix universe m l = Some m' →
  log_ok universe cur commit p pt m l m'.
Proof.
  intros H. revert m. induction H; intros mm Hs; simpl in Hs; simplify_eq; [constructor |].
  destruct (transitionMembership mm e universe) as [n2 []] eqn:E; [| done].
  econstructor; eauto.
Qed.

(** * The node invariant

    [node_wf] is the invariant of a started node, [step_rel] what one handler may
    change.  The lemmas here give the value of every log accessor on a well-formed
    node, and discharge each panic of the helpers ([applyCommitted],
    [membershipAt], [appendFor], [broadcastAppend], [advanceCommit]). *)

(** Unfold the scalar fields of the durable state; arithmetic on them. *)
Ltac fields :=
  unfold snapIndex, snapTerm, currentTerm, votedFor, commitIndex, log, is_u64 in *; simpl in *.
Ltac flia := fields; lia.

(** ** The invariant *)

(** The configuration at the snapshot boundary. *)
Definition baseMembership (initial : Membership) (s : PersistentState) : Membership :=
  if 0 <? snapIndex s then snapshotMembership (Snapshot_ s) else initial.

Record snapshot_ok (universe : list NodeID) (initial : Membership) (cur : Z) (s : Snapshot) : Prop := {
  sn_index : 0 ≤ LastIncludedIndex s;
  sn_none : LastIncludedIndex s = 0 → s = emptySnapshot;
  sn_term : LastIncludedIndex s ≠ 0 → 0 < LastIncludedTerm s ≤ cur;
  sn_members : LastIncludedIndex s ≠ 0 → SnapMembers s = universe;
  sn_valid : LastIncludedIndex s ≠ 0 → SnapMembership s ≠ emptyMembership →
             membership_valid (SnapMembership s) universe;
  sn_legacy : LastIncludedIndex s ≠ 0 → SnapMembership s = emptyMembership →
              initial = stableMembership universe [] }.

(** Durable state: [m] is the configuration at the end of its log. *)
Record state_ok (universe : list NodeID) (initial : Membership) (s : PersistentState)
    (m : Membership) : Prop := {
  so_term : is_u64 (currentTerm s);
  so_snapshot : snapshot_ok universe initial (currentTerm s) (Snapshot_ s);
  so_log : log_ok universe (currentTerm s) (commitIndex s) (snapIndex s) (snapTerm s)
             (baseMembership initial s) (Log s) m;
  so_last : snapIndex s + zlen (Log s) ≤ max_u64;
  so_commit : snapIndex s ≤ commitIndex s ≤ snapIndex s + zlen (Log s) }.

(** The recorded ballot: the votes of a quorum of the configuration the election
    was held in. *)
Definition elected (n : Node) : Prop :=
  quorum (electionMembership n) (λ x, bool_decide (x ∈ electionVotes n)) = true.

Definition role_ok (n : Node) : Prop :=
  match role n with
  | Follower => True
  | Candidate => 0 < currentTerm (state n) ∧ is_Some (votes n) ∧
                 isVoter (membership n) (id n) = true
  | Leader => 0 < currentTerm (state n) ∧ is_Some (nextIndex n) ∧ is_Some (matchIndex n) ∧ is_Some (appendSequence n) ∧
              elected n
  end.

Record node_wf (n : Node) : Prop := {
  nw_members : canonical_set (members n) (members n);
  nw_id : id n ∈ members n;
  nw_initial : membership_valid (initialMembership n) (members n);
  nw_state : state_ok (members n) (initialMembership n) (state n) (membership n);
  nw_applied : snapIndex (state n) ≤ applied n ≤ commitIndex (state n);
  nw_role : role_ok n }.

(** What a handler may change: never the identity, the term and the indexes only
    upwards, a vote only in a new term, and no committed entry. *)
Record step_rel (n n' : Node) : Prop := {
  sr_id : id n' = id n;
  sr_members : members n' = members n;
  sr_initial : initialMembership n' = initialMembership n;
  sr_pending : pending n' = pending n;
  sr_token : nextWriteToken n' = nextWriteToken n;
  sr_term : currentTerm (state n) ≤ currentTerm (state n');
  sr_vote : currentTerm (state n') = currentTerm (state n) → votedFor (state n) ≠ "" →
            votedFor (state n') = votedFor (state n);
  sr_snap : snapIndex (state n) ≤ snapIndex (state n');
  sr_commit : commitIndex (state n) ≤ commitIndex (state n');
  sr_applied : applied n ≤ applied n';
  sr_committed : ∀ i e, i ≤ commitIndex (state n) → snapIndex (state n') < i →
                 entryAt n i = Some e → entryAt n' i = Some e }.

Lemma step_rel_refl n : step_rel n n.
Proof. split; done || lia. Qed.

Lemma step_rel_trans n1 n2 n3 : step_rel n1 n2 → step_rel n2 n3 → step_rel n1 n3.
Proof.
  intros [] []. split; try congruence; try lia.
  - intros Ht Hv. assert (currentTerm (state n2) = currentTerm (state n1)) as E by lia.
    rewrite sr_vote1; [by apply sr_vote0 | congruence |]. by rewrite sr_vote0.
  - intros i e Hi Hs He. apply sr_committed1; [lia | lia |]. apply sr_committed0; [lia | lia | done].
Qed.

(** A handler's result: the invariant, the relation, and no change of durable state
    behind a clean flag or an error. *)
Definition handled_ok (n : Node) (p : Node * Handled) : Prop :=
  let '(n', r) := p in
  node_wf n' ∧ step_rel n n' ∧
  match r with
  | inl _ => state n' = state n
  | inr (dirty, _) => dirty = false → state n' = state n
  end.

(** ** Accessors on a well-formed state *)

Lemma membership_nonzero m universe : membership_valid m universe → m ≠ emptyMembership.
Proof. intros [H] ->. by apply H. Qed.

Lemma snapshotMembership_valid universe initial cur s :
  snapshot_ok universe initial cur s → membership_valid initial universe →
  LastIncludedIndex s ≠ 0 → membership_valid (snapshotMembership s) universe.
Proof.
  intros [] Hi Hne. unfold snapshotMembership. destruct (membershipIsZero (SnapMembership s)) eqn:E.
  - apply membershipIsZero_spec in E. rewrite (sn_members0 Hne), <- (sn_legacy0 Hne E). done.
  - rewrite CloneMembership_id. apply sn_valid0; [done |].
    intros E'. apply membershipIsZero_spec in E'. congruence.
Qed.

Lemma base_valid universe initial s m :
  state_ok universe initial s m → membership_valid initial universe →
  membership_valid (baseMembership initial s) universe.
Proof.
  intros Hs Hi. unfold baseMembership. destruct (Z.ltb_spec 0 (snapIndex s)); [| done].
  eapply snapshotMembership_valid; [apply (so_snapshot _ _ _ _ Hs) | done |].
  unfold snapIndex in *. lia.
Qed.

Section accessors.
Context (n : Node) (m : Membership).
Context (Hinit : membership_valid (initialMembership n) (members n)).
Context (Hok : state_ok (members n) (initialMembership n) (state n) m).

Lemma snapIndex_nonneg : 0 ≤ snapIndex (state n).
Proof. apply (sn_index _ _ _ _ (so_snapshot _ _ _ _ Hok)). Qed.

Lemma lastIndex_eq : lastIndex n = snapIndex (state n) + zlen (log n).
Proof.
  unfold lastIndex, log. apply wrap64_small. pose proof (so_last _ _ _ _ Hok).
  pose proof snapIndex_nonneg. pose proof (zlen_nonneg (Log (state n))). unfold is_u64. lia.
Qed.

Lemma lastIndex_range : is_u64 (lastIndex n).
Proof. apply wrap64_range. Qed.

Lemma entryAt_eq i :
  snapIndex (state n) < i → entryAt n i = log n !! Z.to_nat (i - snapIndex (state n) - 1).
Proof.
  intros Hi. pose proof snapIndex_nonneg. pose proof lastIndex_range as [_ Hr].
  rewrite lastIndex_eq in Hr.
  unfold entryAt. destruct (Z.leb_spec i (snapIndex (state n))); [lia |]. simpl.
  rewrite lastIndex_eq. destruct (Z.ltb_spec (snapIndex (state n) + zlen (log n)) i).
  - symmetry. apply lookup_ge_None_2. unfold zlen in *. lia.
  - by rewrite wrap64_small by (unfold is_u64; lia).
Qed.

Lemma entryAt_is_Some i :
  snapIndex (state n) < i ≤ lastIndex n → ∃ e, entryAt n i = Some e ∧ e ∈ log n.
Proof.
  intros Hi. rewrite lastIndex_eq in Hi. rewrite entryAt_eq by lia.
  destruct (lookup_zlen_is_Some (log n) (i - snapIndex (state n) - 1)) as [e He]; [lia |].
  exists e. split; [done | by eapply list_elem_of_lookup_2].
Qed.

Lemma entryAt_Some i e : entryAt n i = Some e →
  snapIndex (state n) < i ≤ lastIndex n ∧ e ∈ log n ∧ Index e = i ∧
  0 < Term e ≤ currentTerm (state n).
Proof.
  intros He. assert (snapIndex (state n) < i ≤ lastIndex n) as Hr.
  { unfold entryAt in He. case_if_in He; [done |]. apply orb_false_iff in Hif as [? ?].
    reflect. lia. }
  rewrite entryAt_eq in He by lia. pose proof (list_elem_of_lookup_2 _ _ _ He).
  apply (log_ok_lookup _ _ _ _ _ _ _ _ _ _ (so_log _ _ _ _ Hok)) in He. lia || (split_and!; done || lia).
Qed.

Lemma entryAt_None i : lastIndex n < i → entryAt n i = None.
Proof.
  intros. unfold entryAt. destruct (Z.ltb_spec (lastIndex n) i); [| lia].
  by rewrite orb_true_r.
Qed.

(** The term at a position of the log is the last term of the log's prefix. *)
Lemma termAt_eq i :
  snapIndex (state n) ≤ i ≤ lastIndex n →
  termAt n i = last_term (snapTerm (state n)) (take (Z.to_nat (i - snapIndex (state n))) (log n)).
Proof.
  intros Hi. pose proof snapIndex_nonneg. unfold termAt.
  destruct (so_snapshot _ _ _ _ Hok) as [? Hnone _ _ _ _]. unfold snapIndex, snapTerm in *.
  destruct (Z.eqb_spec i 0) as [->|].
  { replace (Z.to_nat (0 - LastIncludedIndex (Snapshot_ (state n)))) with 0%nat by lia. simpl.
    rewrite Hnone by lia. done. }
  destruct (Z.eqb_spec i (LastIncludedIndex (Snapshot_ (state n)))) as [->|].
  { by replace (Z.to_nat (_ - _)) with 0%nat by lia. }
  destruct (entryAt_is_Some i) as (e & He & _); [unfold snapIndex; lia |]. rewrite He.
  rewrite entryAt_eq in He by (unfold snapIndex; lia). unfold snapIndex in He.
  replace (Z.to_nat (i - LastIncludedIndex (Snapshot_ (state n))))
    with (S (Z.to_nat (i - LastIncludedIndex (Snapshot_ (state n)) - 1))) by lia.
  rewrite (take_S_r _ _ e) by done. by rewrite last_term_snoc.
Qed.

Lemma termAt_le i : termAt n i ≤ currentTerm (state n).
Proof.
  unfold termAt. destruct (so_term _ _ _ _ Hok) as [? _].
  destruct (Z.eqb_spec i 0); [done |].
  destruct (Z.eqb_spec i (snapIndex (state n))).
  - destruct (so_snapshot _ _ _ _ Hok) as [? _ Ht _ _ _]. unfold snapIndex, snapTerm in *.
    lia.
  - destruct (entryAt n i) as [e|] eqn:E; [| done]. apply entryAt_Some in E. lia.
Qed.

(** The configuration at an index of the log. *)
Lemma membershipAt_ok i :
  snapIndex (state n) ≤ i →
  wp (membershipAt n i) (λ mk,
    log_ok (members n) (currentTerm (state n)) (commitIndex (state n)) (snapIndex (state n))
      (snapTerm (state n)) (baseMembership (initialMembership n) (state n))
      (take (Z.to_nat (i - snapIndex (state n))) (log n)) mk).
Proof.
  intros Hi. unfold membershipAt. pose proof snapIndex_nonneg.
  assert ((if (0 <? LastIncludedIndex (Snapshot_ (state n))) &&
              (LastIncludedIndex (Snapshot_ (state n)) <=? i)
           then snapshotMembership (Snapshot_ (state n))
           else CloneMembership (initialMembership n)) =
          baseMembership (initialMembership n) (state n)) as ->.
  { unfold baseMembership, snapIndex in *. rewrite CloneMembership_id.
    destruct (Z.leb_spec (LastIncludedIndex (Snapshot_ (state n))) i); [| lia].
    by rewrite andb_true_r. }
  eapply membershipLoop_ok, (so_log _ _ _ _ Hok).
Qed.

Lemma membershipAt_last i : lastIndex n ≤ i → membershipAt n i = Done m.
Proof.
  intros Hi. rewrite lastIndex_eq in Hi. pose proof (zlen_nonneg (log n)).
  destruct (wp_inv _ _ (membershipAt_ok i ltac:(lia))) as (mk & -> & Hk).
  rewrite take_ge in Hk by (unfold zlen in *; lia).
  f_equal. eapply log_ok_det; [done | apply (so_log _ _ _ _ Hok)].
Qed.

Lemma entriesFrom_eq i :
  snapIndex (state n) < i → entriesFrom n i = drop (Z.to_nat (i - snapIndex (state n) - 1)) (log n).
Proof.
  intros Hi. pose proof snapIndex_nonneg. pose proof lastIndex_range as [_ Hr]. rewrite lastIndex_eq in Hr.
  unfold entriesFrom. rewrite !cloneEntries_id.
  destruct (Z.leb_spec i (snapIndex (state n))); [lia |]. rewrite lastIndex_eq.
  destruct (Z.ltb_spec (snapIndex (state n) + zlen (log n)) i).
  - symmetry. apply drop_ge. unfold zlen in *. lia.
  - by rewrite wrap64_small by (unfold is_u64; lia).
Qed.
End accessors.

Lemma refreshMembership_ok n m :
  membership_valid (initialMembership n) (members n) →
  state_ok (members n) (initialMembership n) (state n) m →
  refreshMembership n = Done (set_membership n m).
Proof.
  intros Hi Hs. unfold refreshMembership. by erewrite membershipAt_last.
Qed.

(** ** Field updates that keep the invariant *)

(** The commit index moves up and everything up to it is applied. *)
Definition committed_at (n : Node) (c : Z) : Node := set_applied (set_commit n c) c.

Lemma state_ok_commit n m c :
  state_ok (members n) (initialMembership n) (state n) m →
  commitIndex (state n) ≤ c ≤ snapIndex (state n) + zlen (log n) →
  state_ok (members n) (initialMembership n) (state (set_commit n c)) m.
Proof.
  intros [] Hc. split; simpl; try done.
  - eapply log_ok_weaken; [done | flia | flia].
  - flia.
Qed.

Lemma committed_at_wf n c :
  node_wf n → commitIndex (state n) ≤ c ≤ lastIndex n →
  node_wf (committed_at n c) ∧ step_rel n (committed_at n c).
Proof.
  intros Hn Hc. pose proof Hn as [].
  rewrite (lastIndex_eq n (membership n)) in Hc by done. split.
  - split; try done; simpl.
    + by apply (state_ok_commit n).
    + flia.
  - split; simpl; try done; try flia.
Qed.

Lemma becomeFollower_wf n term l :
  node_wf n → is_u64 term →
  node_wf (becomeFollower n term l) ∧ step_rel n (becomeFollower n term l).
Proof.
  intros [] Ht. unfold becomeFollower. simpl.
  destruct (Z.ltb_spec (currentTerm (state n)) term) as [Hlt|Hge]; split; split; simpl; try done;
    unfold snapIndex, commitIndex, currentTerm in *; simpl; try lia.
  destruct nw_state0 as [? [] ? ? ?]. unfold currentTerm in *.
  split; unfold currentTerm; simpl; try done.
  - split; intros; auto. unfold currentTerm in *. naive_solver lia.
  - eapply log_ok_weaken; [done | flia | flia].
Qed.

Lemma becomeFollower_fields n term l :
  role (becomeFollower n term l) = Follower ∧ leader (becomeFollower n term l) = l ∧
  log (becomeFollower n term l) = log n ∧
  currentTerm (state (becomeFollower n term l)) = Z.max (currentTerm (state n)) term ∧
  membership (becomeFollower n term l) = membership n ∧ applied (becomeFollower n term l) = applied n ∧
  commitIndex (state (becomeFollower n term l)) = commitIndex (state n) ∧
  Snapshot_ (state (becomeFollower n term l)) = Snapshot_ (state n) ∧
  id (becomeFollower n term l) = id n ∧ members (becomeFollower n term l) = members n ∧
  initialMembership (becomeFollower n term l) = initialMembership n.
Proof.
  unfold becomeFollower. simpl. unfold currentTerm.
  destruct (Z.ltb_spec (CurrentTerm (HardState_ (state n))) term); simpl; split_and!; try done; lia.
Qed.

Lemma becomeFollower_same_term n term l :
  term ≤ currentTerm (state n) → state (becomeFollower n term l) = state n.
Proof.
  intros. unfold becomeFollower. simpl.
  destruct (Z.ltb_spec (currentTerm (state n)) term); [lia | done].
Qed.

(** Appending one entry at the end of the log. *)
Lemma append_state_ok n e next :
  node_wf n → lastIndex n < max_u64 →
  Index e = lastIndex n + 1 → 0 < Term e → Term e = currentTerm (state n) →
  entry_type_unknown (Type_ e) = false →
  (Type_ e = EntryConfigFinal → Index e - 1 ≤ commitIndex (state n)) →
  transitionMembership (membership n) e (members n) = (next, true) →
  state_ok (members n) (initialMembership n) (state (set_log n (log n ++ [e]))) next.
Proof.
  intros Hn Hlast HI HT HTc Hty Hf Htr. pose proof Hn as [].
  rewrite (lastIndex_eq n (membership n)) in * by done.
  pose proof nw_state0 as [? ? ? ? ?]. split; simpl; try done.
  - eapply log_ok_snoc; try done.
    split; [| unfold currentTerm in *; simpl in *; lia].
    eapply Z.le_trans; [eapply (log_ok_last_term _ _ _ _ _ _ _ _ so_log0) |
                        unfold currentTerm in *; simpl in *; lia].
    destruct so_snapshot0 as [? Hnone ? _ _ _]. unfold snapTerm, currentTerm, is_u64 in *. simpl in *.
    destruct (decide (LastIncludedIndex (Snapshot_ (state n)) = 0)) as [E|E];
      [rewrite (Hnone E); simpl; lia | naive_solver lia].
  - rewrite zlen_app, zlen_cons, zlen_nil. flia.
  - rewrite zlen_app, zlen_cons, zlen_nil. flia.
Qed.

Lemma entryAt_append n e m m' i e' :
  membership_valid (initialMembership n) (members n) →
  state_ok (members n) (initialMembership n) (state n) m →
  state_ok (members n) (initialMembership n) (state (set_log n (log n ++ [e]))) m' →
  entryAt n i = Some e' → entryAt (set_log n (log n ++ [e])) i = Some e'.
Proof.
  intros Hi Hm Hm' He. pose proof (entryAt_Some n m Hm i e' He) as (? & _).
  rewrite (entryAt_eq n m) in He by (done || lia).
  rewrite (entryAt_eq (set_log n (log n ++ [e])) m'); simpl; try done; [| unfold snapIndex in *; simpl; lia].
  unfold log; simpl. by apply lookup_app_l_Some.
Qed.

(** An unchanged configuration: no-ops and commands. *)
Lemma transition_plain m idx term t data universe :
  is_config t = false →
  transitionMembership m (mkEntry idx term t data emptyMembership) universe = (m, true).
Proof. destruct t; done. Qed.

(** ** Applying committed entries *)

Definition apply_effects (n : Node) (c : Z) : list Effect :=
  map EffectApply
    (take (Z.to_nat (c - applied n)) (drop (Z.to_nat (applied n - snapIndex (state n))) (log n))).

Lemma applyLoop_ok n m fuel :
  membership_valid (initialMembership n) (members n) →
  state_ok (members n) (initialMembership n) (state n) m →
  snapIndex (state n) ≤ applied n ≤ commitIndex (state n) →
  fuel = Z.to_nat (commitIndex (state n) - applied n) →
  applyLoop fuel n = Done (set_applied n (commitIndex (state n)), apply_effects n (commitIndex (state n))).
Proof.
  intros Hi Hok. pose proof Hok as [_ _ _ Hlast Hcom].
  pose proof (snapIndex_nonneg n m Hok).
  revert n Hi Hok Hlast Hcom H. induction fuel as [|fuel IH]; intros n Hi Hok Hlast Hcom Hnn Ha Hf; simpl.
  - assert (applied n = commitIndex (state n)) as E by lia. unfold apply_effects.
    rewrite <- Hf. simpl. rewrite <- E. by destruct n.
  - destruct (Z.ltb_spec (applied n) (commitIndex (state n))); [| lia].
    unfold log in *. rewrite (wrap64_small (applied n + 1)) by (unfold is_u64; lia).
    set (n1 := set_applied n (applied n + 1)).
    assert (entryAt n1 (applied n + 1) = log n !! Z.to_nat (applied n - snapIndex (state n))) as Hent.
    { rewrite (entryAt_eq n1 m Hok) by (unfold n1; simpl; lia). f_equal. unfold n1. simpl. lia. }
    rewrite Hent. destruct (lookup_zlen_is_Some (log n) (applied n - snapIndex (state n))) as [e He].
    { unfold log. lia. }
    rewrite He. rewrite (IH n1); try done; try (unfold n1; simpl; lia). simpl.
    rewrite cloneEntry_id. unfold apply_effects. f_equal. f_equal.
    rewrite (drop_S _ _ _ He).
    replace (Z.to_nat (commitIndex (state n) - applied n))
      with (S (Z.to_nat (commitIndex (state n) - (applied n + 1)))) by lia.
    simpl. f_equal. f_equal. f_equal. f_equal. lia.
Qed.

Lemma applyCommitted_ok n m :
  membership_valid (initialMembership n) (members n) →
  state_ok (members n) (initialMembership n) (state n) m →
  snapIndex (state n) ≤ applied n ≤ commitIndex (state n) →
  applyCommitted n = Done (set_applied n (commitIndex (state n)), apply_effects n (commitIndex (state n))).
Proof. intros. by eapply applyLoop_ok. Qed.

(** ** Sending *)

Definition is_send (e : Effect) : Prop := match e with EffectSend _ => True | _ => False end.

(** [n'] is [n] up to the append sequence numbers of a leader. *)
Definition same_but_sequence (n n' : Node) : Prop :=
  ∃ seq, n' = set_appendSequence n (Some seq).

Lemma appendFor_ok n x :
  is_Some (appendSequence n) → wp (appendFor n x) (λ '(n', _), same_but_sequence n n').
Proof.
  intros [seq Hseq]. unfold appendFor, map_set. rewrite Hseq. simpl.
  repeat case_if; simpl; by eexists.
Qed.

Lemma same_but_sequence_trans n1 n2 n3 :
  same_but_sequence n1 n2 → same_but_sequence n2 n3 → same_but_sequence n1 n3.
Proof. intros [s1 ->] [s2 ->]. by exists s2. Qed.

Lemma broadcastLoop_ok n targets :
  is_Some (appendSequence n) →
  wp (broadcastLoop n targets) (λ '(n', es),
    (n' = n ∨ same_but_sequence n n') ∧ Forall is_send es).
Proof.
  revert n. induction targets as [|x targets IH]; intros n Hs; simpl; [by auto |].
  case_if; [by apply IH |]. apply wp_bind.
  eapply wp_mono; [by apply appendFor_ok |]. intros [n1 msg] Hn1. apply wp_bind.
  eapply wp_mono; [apply IH; destruct Hn1 as [s ->]; by eexists |].
  intros [n2 es] [Hn2 Hes]. simpl. split; [| by constructor].
  right. destruct Hn2 as [-> | ?]; eauto using same_but_sequence_trans.
Qed.

Lemma broadcastAppend_ok n :
  id n ∈ members n → is_Some (appendSequence n) →
  wp (broadcastAppend n) (λ '(n', es), (n' = n ∨ same_but_sequence n n') ∧ Forall is_send es).
Proof.
  intros Hin Hs. unfold broadcastAppend.
  destruct (length (members n) =? 0)%nat eqn:E; [| by apply broadcastLoop_ok].
  apply length_eqb_0 in E. rewrite E in Hin. by apply elem_of_nil in Hin.
Qed.

Lemma same_but_sequence_wf n n' :
  n' = n ∨ same_but_sequence n n' → node_wf n →
  node_wf n' ∧ step_rel n n' ∧ state n' = state n ∧ role n' = role n.
Proof.
  intros [-> | [s ->]] Hn; [eauto using step_rel_refl |].
  destruct Hn. split_and!; try done; split; try done; try lia.
  unfold role_ok in *. simpl. destruct (role n); naive_solver.
Qed.

(** ** Advancing the commit index *)

(** The condition under which an index can be committed. *)
Definition committable (n : Node) (i : Z) : bool :=
  (termAt n i =? currentTerm (state n)) &&
  match membershipAt n i with
  | Done m => quorum m (λ member, i <=? map_get (matchIndex n) member)
  | Panic => false
  end.

(** A leader outside its own configuration steps down. *)
Definition stepDown (n : Node) : Node :=
  if bool_decide (role n = Leader) && negb (isVoter (membership n) (id n))
  then becomeFollower n (currentTerm (state n)) "" else n.

(** [advanceCommit] commits the greatest committable index above the commit index. *)
Definition advance_spec (n : Node) (p : Node * list Effect) : Prop :=
  let '(n', es) := p in
  (n' = n ∧ es = [] ∧
   ∀ i, commitIndex (state n) < i ≤ lastIndex n → committable n i = false) ∨
  ∃ c, commitIndex (state n) < c ≤ lastIndex n ∧ committable n c = true ∧
       (∀ i, c < i ≤ lastIndex n → committable n i = false) ∧
       n' = stepDown (committed_at n c) ∧ es = apply_effects n c ∧ es ≠ [].

Lemma apply_effects_nonempty n c :
  node_wf n → commitIndex (state n) < c ≤ lastIndex n → apply_effects n c ≠ [].
Proof.
  intros [] Hc. rewrite (lastIndex_eq n (membership n)) in Hc by done.
  unfold apply_effects. intros E%(f_equal length). simpl in E.
  rewrite length_map, length_take, length_drop in E. unfold zlen in *. lia.
Qed.

Lemma advanceLoop_ok n fuel i :
  node_wf n → commitIndex (state n) ≤ i ≤ lastIndex n →
  fuel = Z.to_nat (i - commitIndex (state n)) →
  (∀ j, i < j ≤ lastIndex n → committable n j = false) →
  wp (advanceLoop fuel n (commitIndex (state n)) i) (advance_spec n).
Proof.
  intros Hn. pose proof Hn as [_ _ Hinit Hok Happ _].
  pose proof (lastIndex_range n). pose proof (so_commit _ _ _ _ Hok) as Hcom.
  pose proof (snapIndex_nonneg n _ Hok).
  revert i. induction fuel as [|fuel IH]; intros i Hi Hf Habove; simpl.
  { left. split_and!; [done | done |]. intros j Hj. apply Habove. lia. }
  destruct (Z.ltb_spec (commitIndex (state n)) i) as [Hlt|]; [simpl | lia].
  rewrite (wrap64_small (i - 1)) by (unfold is_u64 in *; lia).
  assert (committable n i = false →
          wp (advanceLoop fuel n (commitIndex (state n)) (i - 1)) (advance_spec n)) as Hnext.
  { intros Hc. apply IH; [lia | lia |]. intros j Hj.
    destruct (decide (j = i)) as [->|]; [done | apply Habove; lia]. }
  unfold committable in Hnext.
  destruct (termAt n i =? currentTerm (state n)) eqn:Ht; simpl in *; [| by apply Hnext].
  destruct (wp_inv _ _ (membershipAt_ok n _ Hok i ltac:(lia))) as (mk & Hmk & _).
  rewrite Hmk in *. simpl.
  destruct (quorum mk _) eqn:Hq; [| by apply Hnext].
  pose proof (lastIndex_eq n _ Hok) as Hl.
  rewrite (applyCommitted_ok _ (membership n)); simpl.
  - right. exists i. split_and!; try done; try lia.
    + unfold committable. rewrite Ht, Hmk. done.
    + exact (apply_effects_nonempty n i Hn ltac:(lia)).
  - done.
  - apply (state_ok_commit n); [done | lia].
  - unfold commitIndex at 1. simpl. flia.
Qed.

Lemma advanceCommit_ok n : node_wf n → wp (advanceCommit n) (advance_spec n).
Proof.
  intros Hn. pose proof Hn as [_ _ Hinit Hok Happ _]. apply advanceLoop_ok; try done.
  - rewrite (lastIndex_eq n _ Hok). pose proof (so_commit _ _ _ _ Hok). unfold log in *. lia.
  - intros j Hj. lia.
Qed.

Lemma stepDown_wf n : node_wf n →
  node_wf (stepDown n) ∧ step_rel n (stepDown n) ∧ state (stepDown n) = state n.
Proof.
  intros Hn. unfold stepDown. case_if; [| eauto using step_rel_refl].
  destruct (becomeFollower_wf n (currentTerm (state n)) "") as [? ?];
    [done | apply (so_term _ _ _ _ (nw_state _ Hn)) |].
  split_and!; try done. by apply becomeFollower_same_term.
Qed.

Lemma advance_spec_wf n n' es :
  node_wf n → advance_spec n (n', es) →
  node_wf n' ∧ step_rel n n' ∧ (es = [] → state n' = state n) ∧
  (role n' = Leader → role n = Leader) ∧ 
  (isVoter (membership n) (id n) = true → role n' = role n).
Proof.
  intros Hn [(-> & -> & _) | (c & Hc & _ & _ & -> & -> & Hne)].
  { split_and!; eauto using step_rel_refl. }
  destruct (committed_at_wf n c) as [Hwf Hrel]; [done | lia |].
  destruct (stepDown_wf _ Hwf) as (Hwf' & Hrel' & _).
  split_and!; try done; eauto using step_rel_trans.
  - unfold stepDown. case_if; [| done].
    destruct (becomeFollower_fields (committed_at n c) (currentTerm (state (committed_at n c))) "") as [-> _].
    done.
  - intros Hv. unfold stepDown. simpl. rewrite Hv. by rewrite andb_false_r.
Qed.
