(* ===== verification/NodeReplication.v ===== *)
(** * Every handler keeps the node invariant

    One lemma per handler of raft/node.go: on a well-formed node and an
    admissible input it does not panic, keeps [node_wf], respects [step_rel] and
    changes durable state only under its dirty flag. *)

From S2P Require Export NodeInv.

Lemma wp_handled n (m : go (Node * Handled)) (Q : Node * Handled → Prop) :
  wp m (handled_ok n) → (∀ p, handled_ok n p → Q p) → wp m Q.
Proof. apply wp_mono. Qed.

Lemma handled_same n es : node_wf n → handled_ok n (n, inr (false, es)).
Proof. intros. simpl. eauto using step_rel_refl. Qed.

Lemma handled_error n err : node_wf n → handled_ok n (n, inl err).
Proof. intros. simpl. eauto using step_rel_refl. Qed.

Lemma handled_dirty n n' es : node_wf n' → step_rel n n' → handled_ok n (n', inr (true, es)).
Proof. intros. simpl. done. Qed.

Create HintDb raft discriminated.
#[export] Hint Constants Opaque : raft.
#[export] Hint Resolve step_rel_refl step_rel_trans handled_same handled_error handled_dirty : raft.

(** ** Elections *)

Lemma is_Some_map_set m k v : is_Some m → wp (map_set m k v) is_Some.
Proof. intros [g ->]. by eexists. Qed.

Lemma membership_wf n : node_wf n → membership_valid (membership n) (members n).
Proof.
  intros Hn. eapply log_ok_valid; [apply (so_log _ _ _ _ (nw_state _ Hn)) |].
  eapply base_valid; [apply (nw_state _ Hn) | apply (nw_initial _ Hn)].
Qed.

Lemma isVoter_member n x : node_wf n → isVoter (membership n) x = true → x ∈ members n.
Proof.
  intros Hn [H|H]%isVoter_true; destruct (membership_wf n Hn) as [_ [_ [_ Hv]] [_ [_ Ho]] _ _ _ _ _];
    [by apply Hv | by apply Ho].
Qed.

(** The node [becomeLeader] leaves before it advances the commit index. *)
Lemma becomeLeader_ok n :
  node_wf n → role n = Candidate → quorum (membership n) (voted n) = true →
  wp (becomeLeader n) (λ '(n', r),
    match r with
    | inl _ => n' = n ∧ lastIndex n = max_u64
    | inr _ => node_wf n' ∧ step_rel n n' ∧ role n' = Leader ∧
               electionVotes n' = filter (λ x, voted n x = true) (members n) ∧
               electionMembership n' = membership n ∧
               currentTerm (state n') = currentTerm (state n)
    end).
Proof.
  intros Hn Hr Hq. pose proof Hn as [Hmem Hid Hinit Hok Happ Hrole]. unfold role_ok in Hrole.
  rewrite Hr in Hrole. destruct Hrole as (Ht & Hv & Hvoter).
  unfold becomeLeader. destruct (Z.eqb_spec (lastIndex n) max_u64) as [|Hmax]; [done |].
  pose proof (lastIndex_range n) as Hlr. unfold is_u64 in Hlr.
  simpl. rewrite (wrap64_small (lastIndex n + 1)) by (unfold is_u64; lia).
  set (noop := mkEntry _ _ EntryNoop [] _). set (n1 := set_log _ _).
  assert (node_wf n1) as Hn1.
  { assert (state_ok (members n) (initialMembership n) (state (set_log n (log n ++ [noop])))
              (membership n)) as Hs.
    { apply append_state_ok; try done; simpl; lia. }
    assert (elected n1) as He.
    { unfold elected, n1. simpl. rewrite CloneMembership_id. revert Hq. apply quorum_mono.
      intros x Hx Hvx. apply bool_decide_eq_true, list_elem_of_filter. eauto using isVoter_member. }
    by split. }
  assert (step_rel n n1) as Hrel1.
  { split; try done; unfold n1; simpl; try flia.
    intros j e _ _ He. apply (entryAt_append n noop (membership n) (membership n)); try done.
    exact (nw_state _ Hn1). }
  apply wp_bind. eapply wp_mono; [by apply advanceCommit_ok |]. intros [n2 es] Hadv.
  assert (electionVotes n2 = electionVotes n1 ∧ electionMembership n2 = electionMembership n1 ∧
          currentTerm (state n2) = currentTerm (state n1)) as (Hev & Hem & Hct).
  { destruct Hadv as [(-> & _ & _) | (c & _ & _ & _ & -> & _ & _)]; [done |].
    unfold stepDown. unfold n1. simpl. rewrite Hvoter. done. }
  destruct (advance_spec_wf _ _ _ Hn1 Hadv) as (Hn2 & Hrel2 & _ & _ & Hkeep).
  assert (role n2 = Leader) as Hr2 by (rewrite Hkeep; [done | apply Hvoter]).
  pose proof (nw_role _ Hn2) as Hro. unfold role_ok in Hro. rewrite Hr2 in Hro.
  apply wp_bind. eapply wp_mono.
  { apply broadcastAppend_ok; [apply (nw_id _ Hn2) | apply Hro]. }
  intros [n3 es'] [Hsame _]. simpl.
  destruct (same_but_sequence_wf _ _ Hsame Hn2) as (Hn3 & Hrel3 & Hst3 & Hr3).
  split_and!; try done; [eauto using step_rel_trans | congruence | | |].
  - destruct Hsame as [-> | [s ->]]; simpl; rewrite Hev; done.
  - destruct Hsame as [-> | [s ->]]; simpl; rewrite Hem; unfold n1; simpl; by rewrite CloneMembership_id.
  - rewrite Hst3, Hct. done.
Qed.

Lemma startElection_ok n :
  node_wf n → currentTerm (state n) < max_u64 → wp (startElection n) (handled_ok n).
Proof.
  intros Hn Hmax. pose proof Hn as [Hmem Hid Hinit Hok Happ Hrole].
  unfold startElection. case_if; [by apply handled_error |]. case_if; [by apply handled_error |].
  apply negb_false_iff in Hif.
  pose proof (so_term _ _ _ _ Hok) as Hct.
  assert (is_u64 (currentTerm (state n) + 1)) as Hc1 by (unfold is_u64 in *; lia).
  simpl. rewrite (wrap64_small (currentTerm (state n) + 1)) by done.
  set (n1 := set_term_vote _ _ _).
  assert (node_wf n1 ∧ step_rel n n1) as [Hn1 Hrel1].
  { destruct (becomeFollower_wf n (currentTerm (state n) + 1) "" Hn Hc1) as [Hf Hfr].
    unfold becomeFollower in Hf, Hfr. simpl in Hf, Hfr.
    destruct (Z.ltb_spec (currentTerm (state n)) (currentTerm (state n) + 1)); [| lia].
    split.
    - destruct Hf as [? ? ? [? ? ? ? ?] ? ?]. split; try done.
      all: unfold role_ok; simpl; split_and!; first [done | by eexists | flia].
    - destruct Hfr. split; try done. simpl. unfold currentTerm. simpl. lia. }
  destruct (quorum (membership n) (voted n1)) eqn:Hq; simpl.
  - apply wp_bind. eapply wp_mono; [by apply (becomeLeader_ok n1) |].
    intros [n2 [err|es]]; simpl.
    + intros [-> Hl]. exfalso.
      assert (quorum (membership n) (λ x, String.eqb x (id n)) = true) as E.
      { erewrite quorum_ext; [exact Hq |]. intros v. unfold voted, n1. simpl.
        apply Bool.eq_iff_eq_true. rewrite String.eqb_eq, bool_decide_eq_true. set_solver. }
      rewrite E in Hif0. simpl in Hif0. apply Z.eqb_neq in Hif0. done.
    + intros (? & ? & _). split_and!; eauto using step_rel_trans; done.
  - by split_and!.
Qed.

Lemma handleRequestVote_ok n m :
  node_wf n → handled_ok n (let '(n', r) := handleRequestVote n m in (n', inr r)).
Proof.
  intros Hn. unfold handleRequestVote.
  set (g := (MsgTerm m =? currentTerm (state n)) && _ && _ && _ && _).
  destruct g eqn:Eg; simpl; [| split_and!; auto using step_rel_refl].
  unfold g in Eg. rewrite !andb_true_iff, orb_true_iff, !String.eqb_eq in Eg.
  destruct Eg as [[[[Ht Hv] Hf] Hvote] Hup].
  destruct (String.eqb (votedFor (state n)) (From m)) eqn:E; simpl;
    [split_and!; auto using step_rel_refl |].
  apply String.eqb_neq in E. destruct Hvote as [Hvote|]; [| done].
  pose proof Hn as [Hmem Hid Hinit Hok Happ Hrole]. split_and!; [| | done].
  - split; try done. simpl. by destruct Hok.
  - split; try done; simpl; try flia; intros _ Hne; by rewrite Hvote in Hne.
Qed.

Lemma handleRequestVoteResponse_ok n m :
  node_wf n →
  wp (handleRequestVoteResponse n m) (λ p, handled_ok n p ∧
    (role n = Follower → ∃ r, p.2 = inr r)).
Proof.
  intros Hn. unfold handleRequestVoteResponse. case_if; simpl.
  { split; [eauto with raft | eauto]. }
  apply orb_false_iff in Hif as [Hif _]. apply orb_false_iff in Hif as [Hr _].
  rewrite negb_false_iff, bool_decide_eq_true in Hr.
  pose proof (nw_role _ Hn) as Hrole. unfold role_ok in Hrole. rewrite Hr in Hrole.
  destruct Hrole as (Ht & [v Hv] & Hvoter).
  case_if; simpl. { split; [eauto with raft | eauto]. }
  rewrite Hv. set (n1 := set_votes n _).
  assert (node_wf n1) as Hn1.
  { destruct Hn. split; try done. unfold role_ok. simpl. rewrite Hr. split_and!; first [done | by eexists]. }
  assert (step_rel n n1) as Hrel1 by (split; try done; flia).
  case_if; simpl. { split; [split_and!; done | eauto]. }
  apply wp_bind. eapply wp_mono; [apply (becomeLeader_ok n1); try done; by rewrite negb_false_iff in * |].
  intros [n2 [err|es]]; simpl.
  - intros [-> _]. split; [split_and!; done | congruence].
  - intros (? & ? & _). split; [split_and!; eauto using step_rel_trans; done | eauto].
Qed.

(** ** Proposals, snapshots, membership entries *)

Lemma leader_progress_ok n1 es :
  node_wf n1 → role n1 = Leader →
  wp (broadcastAppend n1) (λ '(n2, _), handled_ok n1 (n2, inr (true, es))).
Proof.
  intros Hn Hr. pose proof (nw_role _ Hn) as Hro. unfold role_ok in Hro. rewrite Hr in Hro.
  eapply wp_mono; [apply broadcastAppend_ok; [apply (nw_id _ Hn) | apply Hro] |].
  intros [n2 es'] [Hs _]. destruct (same_but_sequence_wf _ _ Hs Hn) as (? & ? & _ & _).
  eauto with raft.
Qed.

Lemma leader_append_wf n e next matches :
  node_wf n → role n = Leader → lastIndex n < max_u64 →
  Index e = lastIndex n + 1 → Term e = currentTerm (state n) →
  entry_type_unknown (Type_ e) = false →
  (Type_ e = EntryConfigFinal → Index e - 1 ≤ commitIndex (state n)) →
  transitionMembership (membership n) e (members n) = (next, true) →
  is_Some matches →
  let n1 := set_matchIndex (set_membership (set_log n (log n ++ [e])) next) matches in
  node_wf n1 ∧ step_rel n n1.
Proof.
  intros Hn Hr Hmax HI HT Hty Hf Htr Hm n1. pose proof Hn as [Hmem Hid Hinit Hok Happ Hrole].
  unfold role_ok in Hrole. rewrite Hr in Hrole.
  assert (state_ok (members n) (initialMembership n) (state (set_log n (log n ++ [e]))) next) as Hs.
  { apply append_state_ok; try done. lia. }
  split.
  - split; try done; unfold role_ok, n1; simpl; rewrite Hr; naive_solver.
  - split; try done; unfold n1; simpl; try flia.
    intros j e' _ _ He. exact (entryAt_append n e _ _ j e' Hinit Hok Hs He).
Qed.

Lemma set_membership_id n : set_membership n (membership n) = n.
Proof. by destruct n. Qed.

Lemma propose_ok n data : node_wf n → wp (propose n data) (handled_ok n).
Proof.
  intros Hn. unfold propose. repeat (case_if; [by apply handled_error |]).
  rewrite negb_false_iff in *. reflect.
  pose proof (lastIndex_range n) as Hlr. unfold is_u64 in Hlr.
  pose proof (nw_role _ Hn) as Hrole. unfold role_ok in Hrole. rewrite Hif in Hrole.
  destruct Hrole as (Ht & _ & [g Hg] & _).
  simpl. rewrite (wrap64_small (lastIndex n + 1)) by (unfold is_u64; lia).
  set (e := mkEntry _ _ _ _ _). rewrite Hg. simpl.
  set (matches := Some _). set (n1 := set_matchIndex (set_log n (log n ++ [e])) matches).
  destruct (leader_append_wf n e (membership n) matches) as [Hn1 Hrel1];
    try first [done | lia | by eexists].
  change (set_matchIndex (set_membership (set_log n (log n ++ [e])) (membership n)) matches)
    with (set_membership n1 (membership n1)) in *. rewrite set_membership_id in *.
  apply wp_bind. eapply wp_mono; [by apply advanceCommit_ok |]. intros [n2 es] Hadv.
  destruct (advance_spec_wf _ _ _ Hn1 Hadv) as (Hn2 & Hrel2 & _ & _ & Hkeep).
  assert (role n2 = Leader) as Hr2 by (rewrite Hkeep; done).
  apply wp_bind. eapply wp_mono; [by apply (leader_progress_ok n2 []) |].
  intros [n3 es'] (? & ? & _). split_and!; eauto using step_rel_trans; done.
Qed.

Lemma appendMembershipEntry_ok n t m next :
  node_wf n → role n = Leader → lastIndex n < max_u64 →
  (t = EntryConfigJoint ∨ t = EntryConfigFinal ∧ commitIndex (state n) = lastIndex n) →
  transitionMembership (membership n)
    (mkEntry (lastIndex n + 1) (currentTerm (state n)) t [] m) (members n) = (next, true) →
  wp (appendMembershipEntry n t m) (handled_ok n).
Proof.
  intros Hn Hr Hmax Ht Htr. pose proof Hn as [Hmem Hid Hinit Hok Happ Hrole].
  pose proof (lastIndex_range n) as Hlr. unfold is_u64 in Hlr.
  unfold role_ok in Hrole. rewrite Hr in Hrole. destruct Hrole as (Hterm & _ & [g Hg] & _).
  unfold appendMembershipEntry. rewrite (wrap64_small (lastIndex n + 1)) by (unfold is_u64; lia).
  rewrite Htr. set (e := mkEntry _ _ _ _ _) in *.
  destruct (leader_append_wf n e next (Some (<[id n := Index e]> g))) as [Hn1 Hrel1]; try done.
  { by destruct Ht as [-> | [-> _]]. }
  { simpl. intros ->. destruct Ht as [|[_ E]]; [done | lia]. }
  set (n1 := set_matchIndex _ _) in *.
  rewrite (refreshMembership_ok _ next); [simpl | done | exact (nw_state _ Hn1)].
  rewrite Hg. simpl. fold n1. apply wp_bind. eapply wp_mono; [by apply (advanceCommit_ok n1) |].
  intros [n2 es] Hadv.
  destruct (advance_spec_wf _ _ _ Hn1 Hadv) as (Hn2 & Hrel2 & _ & _ & _).
  case_if; simpl; [| split_and!; eauto using step_rel_trans; done]. rewrite bool_decide_eq_true in Hif.
  apply wp_bind. eapply wp_mono; [by apply (leader_progress_ok n2 []) |].
  intros [n3 es'] (? & ? & _). split_and!; eauto using step_rel_trans; done.
Qed.

Lemma beginMembership_ok n voters learners :
  node_wf n → wp (beginMembership n voters learners) (handled_ok n).
Proof.
  intros Hn. unfold beginMembership. repeat (case_if; [by apply handled_error |]).
  repeat match goal with E : _ || _ = false |- _ => apply orb_false_iff in E as [? ?] end.
  rewrite negb_false_iff in *. reflect.
  pose proof (lastIndex_range n) as Hlr. unfold is_u64 in Hlr.
  rewrite validateMembership_spec in *.
  eapply appendMembershipEntry_ok; try done; [lia | by left |].
  by apply (jointOf_transition _ (stableMembership voters learners)); try apply membership_wf.
Qed.

Lemma finalizeMembership_ok n : node_wf n → wp (finalizeMembership n) (handled_ok n).
Proof.
  intros Hn. unfold finalizeMembership. repeat (case_if; [by apply handled_error |]).
  repeat match goal with E : _ || _ = false |- _ => apply orb_false_iff in E as [? ?] end.
  rewrite !negb_false_iff in *. reflect.
  pose proof (lastIndex_range n) as Hlr. unfold is_u64 in Hlr.
  eapply appendMembershipEntry_ok; try done; [lia | by right |].
  by apply finalOf_transition; [apply membership_wf |].
Qed.

(** * Replication handlers and the step keep the node invariant

    The handlers of raft/node.go for append entries, snapshots and their responses,
    and [stepMessage], [stepInput]: on a well-formed node and an admissible input
    none of them panics and each keeps [node_wf] and [step_rel]. *)

(** ** Admissible inputs *)

Definition entry_u64 (e : Entry) : Prop := is_u64 (Index e) ∧ is_u64 (Term e).

(** What the Raft protocol guarantees about an AppendEntries message that reaches
    [n]: entries with the index and term of a local entry are that entry (Log
    Matching), committed entries are not contradicted (Leader Completeness), and a
    final configuration follows a committed prefix. *)
Record append_ok (n : Node) (m : Message) : Prop := {
  ap_matching : ∀ e e', e ∈ Entries m → entryAt n (Index e) = Some e' → Term e' = Term e → e' = e;
  ap_committed : ∀ e e', e ∈ Entries m → Index e ≤ commitIndex (state n) →
                 entryAt n (Index e) = Some e' → Term e' = Term e;
  ap_final : ∀ e, e ∈ Entries m → Type_ e = EntryConfigFinal →
             Index e - 1 ≤ Z.max (commitIndex (state n)) (LeaderCommit m) }.

Record message_u64 (m : Message) : Prop := {
  mu_term : is_u64 (MsgTerm m);
  mu_prev : is_u64 (PrevLogIndex m);
  mu_prev_term : is_u64 (PrevLogTerm m);
  mu_entries : Forall entry_u64 (Entries m);
  mu_commit : is_u64 (LeaderCommit m);
  mu_match : is_u64 (MatchIndex m);
  mu_snap_index : is_u64 (LastIncludedIndex (MsgSnapshot m));
  mu_snap_term : is_u64 (LastIncludedTerm (MsgSnapshot m)) }.

Definition input_ok (n : Node) (i : Input) : Prop :=
  match i with
  | InputMessage m =>
    message_u64 m ∧ (MsgType m = AppendEntries → currentTerm (state n) ≤ MsgTerm m → append_ok n m)
  | _ => True
  end.

(** ** Taking a snapshot *)

Lemma entriesFrom_suffix n m i :
  state_ok (members n) (initialMembership n) (state n) m →
  snapIndex (state n) ≤ i ≤ lastIndex n →
  (if i <? max_u64 then entriesFrom n (i + 1) else []) =
  drop (Z.to_nat (i - snapIndex (state n))) (log n).
Proof.
  intros Hok Hi. pose proof (lastIndex_range n) as Hr. rewrite (lastIndex_eq n m) in * by done.
  unfold is_u64 in Hr. destruct (Z.ltb_spec i max_u64).
  - rewrite (entriesFrom_eq n m) by (done || lia). f_equal. lia.
  - symmetry. apply drop_ge. unfold zlen in *. lia.
Qed.

Lemma snapTerm_range universe initial cur s :
  0 ≤ cur → snapshot_ok universe initial cur s → 0 ≤ LastIncludedTerm s ≤ cur.
Proof.
  intros Hc [_ Hnone Ht _ _ _]. destruct (decide (LastIncludedIndex s = 0)) as [E|E].
  - rewrite (Hnone E). simpl. lia.
  - specialize (Ht E). lia.
Qed.

Lemma termAt_range n m i :
  state_ok (members n) (initialMembership n) (state n) m →
  0 ≤ termAt n i ≤ currentTerm (state n).
Proof.
  intros Hok. split; [| by eapply termAt_le]. unfold termAt.
  destruct (Z.eqb_spec i 0); [done |]. destruct (Z.eqb_spec i (snapIndex (state n))).
  - eapply (snapTerm_range _ _ (currentTerm (state n)));
      [apply (so_term _ _ _ _ Hok) | apply (so_snapshot _ _ _ _ Hok)].
  - destruct (entryAt n i) as [e|] eqn:E; [| done].
    apply (entryAt_Some n m Hok) in E as (_ & _ & _ & ?). lia.
Qed.

(** The log splits at any position into a prefix that ends in the configuration
    [membershipAt] computes and a valid suffix. *)
Lemma log_split n m i :
  state_ok (members n) (initialMembership n) (state n) m →
  snapIndex (state n) ≤ i ≤ lastIndex n →
  ∃ A B mk, log n = A ++ B ∧ zlen A = i - snapIndex (state n) ∧
    B = drop (Z.to_nat (i - snapIndex (state n))) (log n) ∧
    membershipAt n i = Done mk ∧ termAt n i = last_term (snapTerm (state n)) A ∧
    log_ok (members n) (currentTerm (state n)) (commitIndex (state n)) (snapIndex (state n))
      (snapTerm (state n)) (baseMembership (initialMembership n) (state n)) A mk ∧
    log_ok (members n) (currentTerm (state n)) (commitIndex (state n)) i (termAt n i) mk B m.
Proof.
  intros Hok Hi. pose proof (termAt_eq n m Hok i Hi) as Ht. rewrite (lastIndex_eq n m) in Hi by done.
  destruct (wp_inv _ _ (membershipAt_ok n _ Hok i ltac:(lia))) as (mk & Hmk & Hpre).
  set (k := Z.to_nat (i - snapIndex (state n))) in *.
  destruct (log_ok_take _ _ _ _ _ _ _ _ k (so_log _ _ _ _ Hok)) as (mk' & Hpre' & Hsuf).
  fold (log n) in *. assert (mk' = mk) as -> by (eapply log_ok_det; done).
  assert (zlen (take k (log n)) = i - snapIndex (state n)) as Hk by (rewrite zlen_take; lia).
  exists (take k (log n)), (drop k (log n)), mk. rewrite take_drop.
  split_and!; try done. rewrite Ht.
  by replace (snapIndex (state n) + zlen (take k (log n))) with i in Hsuf by lia.
Qed.

(** The durable state [takeSnapshot] leaves. *)
Definition compacted (n : Node) (index : Z) (mk : Membership) (data : bytes) : Node :=
  set_log (set_snapshot n (mkSnapshot index (termAt n index) (members n) data mk))
    (drop (Z.to_nat (index - snapIndex (state n))) (log n)).

Lemma compacted_ok n index mk data :
  node_wf n → snapIndex (state n) < index ≤ commitIndex (state n) → termAt n index ≠ 0 →
  membershipAt n index = Done mk →
  state_ok (members n) (initialMembership n) (state (compacted n index mk data)) (membership n).
Proof.
  intros [_ _ Hinit Hok _ _] Hi Ht Hmk. pose proof (snapIndex_nonneg n _ Hok) as Hs0.
  pose proof Hok as [Hterm Hsn Hlog Hl Hcom]. fold (log n) in *.
  destruct (log_split n _ index Hok) as (A & B & mk' & Hab & Ha & Hb & Hmk' & HtA & Hpre & Hsuf).
  { rewrite (lastIndex_eq n _ Hok). lia. }
  assert (mk' = mk) as -> by congruence. pose proof (termAt_range n _ index Hok).
  assert (membership_valid mk (members n)) as Hmkv.
  { eapply log_ok_valid; [exact Hpre |]. by eapply base_valid. }
  apply (f_equal zlen) in Hab. rewrite zlen_app in Hab.
  unfold compacted. rewrite <- Hb. split; simpl; try done.
  - split; simpl; try flia; try done. intros _ E. by apply membership_nonzero in Hmkv.
  - unfold baseMembership, snapIndex, snapTerm. simpl. destruct (Z.ltb_spec 0 index); [| lia].
    unfold snapshotMembership. simpl. destruct (membershipIsZero mk) eqn:E.
    { apply membershipIsZero_spec in E. by apply membership_nonzero in Hmkv. }
    by rewrite CloneMembership_id.
  - unfold snapIndex in *. simpl in *. lia.
  - unfold snapIndex, commitIndex in *. simpl in *. lia.
Qed.

Lemma takeSnapshot_ok n index data :
  node_wf n → wp (takeSnapshot n index data) (handled_ok n).
Proof.
  intros Hn. pose proof Hn as [Hmem Hid Hinit Hok Happ Hrole].
  unfold takeSnapshot. case_if; [by apply handled_error |].
  repeat match goal with E : _ || _ = false |- _ => apply orb_false_iff in E as [? ?] end.
  case_if; [by apply handled_error |]. reflect. pose proof (so_commit _ _ _ _ Hok).
  assert (snapIndex (state n) ≤ index ≤ lastIndex n) as Hin
    by (rewrite (lastIndex_eq n _ Hok); fold (log n) in *; lia).
  rewrite (entriesFrom_suffix n _ _ Hok Hin).
  destruct (wp_inv _ _ (membershipAt_ok n _ Hok index ltac:(lia))) as (mk & Hmk & _).
  rewrite Hmk. simpl.
  assert (state_ok (members n) (initialMembership n) (state (compacted n index mk data))
            (membership n)) as Hok1 by (apply compacted_ok; (done || lia)).
  change (wp (refreshMembership (compacted n index mk data) ≫= λ n, Done (n, inr (true, [])))
            (handled_ok n)).
  rewrite (refreshMembership_ok _ (membership n)) by done. simpl. split_and!; [| | done].
  - split; try done. flia.
  - split; try done; try flia.
    intros i e Hic His He. pose proof (entryAt_Some n _ Hok i e He) as (? & _).
    rewrite (entryAt_eq n _ Hok) in He by lia.
    change (entryAt (compacted n index mk data) i = Some e).
    rewrite (entryAt_eq (compacted n index mk data) _ Hok1) by done.
    unfold compacted, log, snapIndex in *. simpl in *. rewrite lookup_drop, <- He. f_equal. lia.
Qed.

(** ** Successful responses *)

Definition flat_ok (n : Node) (p : Node * (bool * list Effect)) : Prop :=
  handled_ok n (p.1, inr p.2).

Ltac flat := unfold flat_ok, handled_ok; simpl; split_and!; eauto using step_rel_trans, step_rel_refl.

Lemma wp_lift n m : wp m (flat_ok n) → wp (lift_handled m) (handled_ok n).
Proof. intros H. apply wp_bind. eapply wp_mono; [exact H |]. by intros [n' r]. Qed.

Lemma flat_same n es : node_wf n → flat_ok n (n, (false, es)).
Proof. apply handled_same. Qed.

(** Updates of a leader's bookkeeping. *)
Lemma leader_maps_wf n nexts matches :
  node_wf n → is_Some nexts → is_Some matches →
  node_wf (set_nextIndex (set_matchIndex n matches) nexts) ∧
  step_rel n (set_nextIndex (set_matchIndex n matches) nexts).
Proof.
  intros [] [nx ->] [mt ->]. split; split; try done; try lia.
  unfold role_ok in *. simpl. destruct (role n); try done. naive_solver.
Qed.

Lemma set_nextIndex_wf n nexts :
  node_wf n → is_Some nexts → node_wf (set_nextIndex n nexts) ∧ step_rel n (set_nextIndex n nexts).
Proof.
  intros [] [nx ->]. split; split; try done; try lia.
  unfold role_ok in *. simpl. destruct (role n); try done. naive_solver.
Qed.

Lemma appendFor_flat n0 n x dirty es :
  node_wf n → role n = Leader → step_rel n0 n → (dirty = false → state n = state n0) →
  wp ('(n', a) ← appendFor n x; Done (n', (dirty, es ++ [EffectSend a]))) (flat_ok n0).
Proof.
  intros Hn Hr Hrel Hs. pose proof (nw_role _ Hn) as Hro. unfold role_ok in Hro. rewrite Hr in Hro.
  apply wp_bind. eapply wp_mono; [apply appendFor_ok, Hro |]. intros [n' a] Hsame.
  destruct (same_but_sequence_wf n n' (or_intror Hsame) Hn) as (? & ? & Hst & _).
  flat. intros. rewrite Hst. auto.
Qed.

(** The update of the follower's entry of the two maps. *)
Definition record_progress (n : Node) (message : Message) : go Node :=
  if map_get (matchIndex n) (From message) <? MatchIndex message then
    matches ← map_set (matchIndex n) (From message) (Z.min (MatchIndex message) (lastIndex n));
    let n := set_matchIndex n matches in
    nexts ← map_set (nextIndex n) (From message)
              (nextIndexAfter (map_get (matchIndex n) (From message)));
    Done (set_nextIndex n nexts)
  else Done n.

Lemma record_progress_ok n m :
  node_wf n → role n = Leader →
  wp (record_progress n m) (λ n1,
    node_wf n1 ∧ step_rel n n1 ∧ role n1 = Leader ∧ state n1 = state n).
Proof.
  intros Hn Hr. pose proof (nw_role _ Hn) as Hro. unfold role_ok in Hro. rewrite Hr in Hro.
  destruct Hro as (_ & [gn Hgn] & [gm Hgm] & _).
  unfold record_progress. case_if; [| split_and!; eauto using step_rel_refl].
  rewrite Hgm. simpl. rewrite Hgn. simpl.
  destruct (leader_maps_wf n (Some (<[From m:=nextIndexAfter
    (map_get (Some (<[From m:=Z.min (MatchIndex m) (lastIndex n)]> gm)) (From m))]> gn))
    (Some (<[From m:=Z.min (MatchIndex m) (lastIndex n)]> gm)) Hn) as [? ?]; [by eexists.. |]. done.
Qed.

Lemma followerProgress_ok n m :
  node_wf n → role n = Leader → wp (followerProgress n m) (flat_ok n).
Proof.
  intros Hn Hr. unfold followerProgress. apply wp_bind.
  eapply wp_mono; [by apply record_progress_ok |]. intros n1 (Hn1 & Hrel1 & Hr1 & Hst1).
  apply wp_bind. eapply wp_mono; [by apply advanceCommit_ok |]. intros [n2 es] Hadv.
  destruct (advance_spec_wf _ _ _ Hn1 Hadv) as (Hn2 & Hrel2 & Hst2 & _ & _).
  assert (negb (length es =? 0)%nat = false → state n2 = state n) as Hst.
  { destruct es; [|done]. simpl. rewrite <- Hst1. auto. }
  case_if; [flat |].
  rewrite negb_false_iff, bool_decide_eq_true in Hif.
  case_if; [| flat].
  apply appendFor_flat; eauto using step_rel_trans.
Qed.

Lemma handleAppendEntriesResponse_ok n m :
  node_wf n → wp (handleAppendEntriesResponse n m) (flat_ok n).
Proof.
  intros Hn. unfold handleAppendEntriesResponse. case_if; [by apply flat_same |].
  apply orb_false_iff in Hif as [Hr _]. rewrite negb_false_iff, bool_decide_eq_true in Hr.
  case_if; [| by apply followerProgress_ok]. case_if; [by apply flat_same |].
  pose proof (nw_role _ Hn) as Hro. unfold role_ok in Hro. rewrite Hr in Hro.
  destruct Hro as (_ & [gn Hgn] & _). rewrite Hgn. cbn [map_set mbind go_bind].
  destruct (set_nextIndex_wf n (Some (<[From m := Z.max 1
    (if (0 <? RejectHint m) && (RejectHint m <? (if 1 <? map_get (Some gn) (From m)
        then map_get (Some gn) (From m) - 1 else map_get (Some gn) (From m)))
     then RejectHint m else (if 1 <? map_get (Some gn) (From m)
        then map_get (Some gn) (From m) - 1 else map_get (Some gn) (From m)))]> gn)) Hn)
    as [? ?]; [by eexists |].
  by apply (appendFor_flat n _ (From m) false []).
Qed.

Lemma handleInstallSnapshotResponse_ok n m :
  node_wf n → wp (handleInstallSnapshotResponse n m) (flat_ok n).
Proof.
  intros Hn. unfold handleInstallSnapshotResponse. case_if; [by apply flat_same |].
  apply orb_false_iff in Hif as [Hif _]. apply orb_false_iff in Hif as [Hr _].
  rewrite negb_false_iff, bool_decide_eq_true in Hr. by apply followerProgress_ok.
Qed.

(** ** Following a leader *)

(** The first statement of both append and snapshot handlers, past the term check. *)
Definition follow (n : Node) (message : Message) : Node :=
  if negb (bool_decide (role n = Follower)) || negb (String.eqb (leader n) (From message))
  then becomeFollower n (MsgTerm message) (From message) else n.

Lemma follow_ok n m :
  node_wf n → MsgTerm m = currentTerm (state n) →
  node_wf (follow n m) ∧ step_rel n (follow n m) ∧ state (follow n m) = state n ∧
  role (follow n m) = Follower ∧ members (follow n m) = members n ∧
  initialMembership (follow n m) = initialMembership n ∧ membership (follow n m) = membership n ∧
  id (follow n m) = id n.
Proof.
  intros Hn Ht. unfold follow. case_if.
  - destruct (becomeFollower_wf n (MsgTerm m) (From m) Hn) as [? ?].
    { rewrite Ht. apply (so_term _ _ _ _ (nw_state _ Hn)). }
    destruct (becomeFollower_fields n (MsgTerm m) (From m)) as (?&?&?&?&?&?&?&?&?&?&?).
    split_and!; try done. apply becomeFollower_same_term. lia.
  - apply orb_false_iff in Hif as [Hr _]. rewrite negb_false_iff, bool_decide_eq_true in Hr.
    split_and!; eauto using step_rel_refl.
Qed.

(** ** Installing a snapshot *)

(** The configuration of a received snapshot, as the handler reads it. *)
Definition received_membership (s : Snapshot) : Membership :=
  if membershipIsZero (SnapMembership s) then stableMembership (SnapMembers s) []
  else SnapMembership s.

Definition installed (n : Node) (s : Snapshot) (suffix : list Entry) : Node :=
  set_state n (mkPersistentState
    (mkHardState (currentTerm (state n)) (votedFor (state n)) (LastIncludedIndex s)) s suffix).

Lemma installed_ok n s suffix m' :
  node_wf n → is_u64 (LastIncludedIndex s) → 
  commitIndex (state n) < LastIncludedIndex s → 0 < LastIncludedTerm s ≤ currentTerm (state n) →
  SnapMembers s = members n → validateMembership (received_membership s) (members n) = true →
  (SnapMembership s = emptyMembership → initialMembership n = stableMembership (members n) []) →
  suffix = [] ∨ (LastIncludedIndex s ≤ lastIndex n ∧ termAt n (LastIncludedIndex s) = LastIncludedTerm s ∧
    suffix = drop (Z.to_nat (LastIncludedIndex s - snapIndex (state n))) (log n)) →
  checkSuffix (members n) (received_membership s) suffix = Some m' →
  state_ok (members n) (initialMembership n) (state (installed n s suffix)) m'.
Proof.
  intros [_ _ Hinit Hok _ _] Hu Hc Ht Hmem Hval Hleg Hsuf Hchk.
  pose proof (snapIndex_nonneg n _ Hok) as Hs0. pose proof Hok as [Hterm Hsn Hlog Hl Hcom].
  fold (log n) in *. rewrite validateMembership_spec in Hval.
  assert (log_ok (members n) (currentTerm (state n)) (LastIncludedIndex s) (LastIncludedIndex s)
            (LastIncludedTerm s) (received_membership s) suffix m' ∧
          LastIncludedIndex s + zlen suffix ≤ max_u64) as [Hlogok Hlen].
  { unfold is_u64 in *. destruct Hsuf as [-> | (Hin & HtA & ->)].
    - simpl in Hchk. simplify_eq. split; [constructor | rewrite zlen_nil; lia].
    - destruct (log_split n _ (LastIncludedIndex s) Hok) as (A & B & mk & Hab & Ha & Hb & _ & _ & _ & HB);
        [lia |]. rewrite <- Hb in *. rewrite HtA in HB. split.
      + eapply checkSuffix_sound; [| done]. eapply log_ok_weaken; [done | done | lia].
      + apply (f_equal zlen) in Hab. rewrite zlen_app in Hab. lia. }
  pose proof (zlen_nonneg suffix).
  split; simpl; try done.
  - split; simpl; try done; try flia.
    intros _ Hne. unfold received_membership in Hval.
    destruct (membershipIsZero (SnapMembership s)) eqn:E; [| done].
    apply membershipIsZero_spec in E. done.
  - unfold baseMembership, snapIndex, snapTerm. simpl.
    destruct (Z.ltb_spec 0 (LastIncludedIndex s)); [| unfold commitIndex in *; simpl in *; lia].
    unfold snapshotMembership, received_membership in *. rewrite CloneMembership_id. done.
  - unfold snapIndex, commitIndex in *. simpl. lia.
Qed.

Lemma handleInstallSnapshot_ok n m :
  node_wf n → message_u64 m → MsgTerm m ≤ currentTerm (state n) →
  wp (handleInstallSnapshot n m) (flat_ok n).
Proof.
  intros Hn Hu Hle. unfold handleInstallSnapshot. case_if; [by apply flat_same |].
  reflect. fold (follow n m).
  destruct (follow_ok n m Hn ltac:(lia)) as (Hn1 & Hrel1 & Hst & Hr & Hmm & Hii & Hms & Hid).
  fold (received_membership (MsgSnapshot m)). set (n1 := follow n m) in *. set (s := MsgSnapshot m).
  cbv zeta. case_if; [flat |].
  repeat match goal with E : _ || _ = false |- _ => apply orb_false_iff in E as [? ?] end.
  case_if; [flat |]. rewrite !negb_false_iff, andb_false_iff, negb_false_iff in *.
  set (suffix := if (termAt n1 _ =? _) && _ then _ else []).
  destruct (checkSuffix (members n1) (received_membership s) suffix) as [m'|] eqn:Hchk; [| flat].
  rewrite cloneSnapshot_id. reflect.
  pose proof Hn1 as [_ _ Hinit Hok Happ _]. pose proof (snapIndex_nonneg n1 _ Hok).
  pose proof (so_commit _ _ _ _ Hok).
  assert (state_ok (members n1) (initialMembership n1) (state (installed n1 s suffix)) m') as Hok1.
  { apply installed_ok; try done; try apply Hu.
    - rewrite Hst. destruct (mu_snap_term _ Hu). unfold s in *. lia.
    - intros E. apply membershipIsZero_spec in E. unfold s in *.
      destruct H0 as [H0|H0]; [congruence |]. by apply membershipsEqual_spec in H0.
    - unfold suffix. case_if; [right | by left]. reflect. destruct Hif1 as [HtA Hlt].
      assert (LastIncludedIndex s ≤ lastIndex n1) as Hin.
      { destruct (Z.le_gt_cases (LastIncludedIndex s) (lastIndex n1)) as [|Hgt]; [done |].
        unfold termAt in HtA. rewrite (entryAt_None n1) in HtA by lia.
        unfold s in *. repeat case_if_in HtA; reflect; try lia. }
      split_and!; try done. rewrite <- (entriesFrom_suffix n1 _ _ Hok) by lia.
      by destruct (Z.ltb_spec (LastIncludedIndex s) max_u64); [| lia]. }
  change (wp (n ← refreshMembership (set_applied (installed n1 s suffix) (LastIncludedIndex s));
    Done (n, (true, [EffectResetElectionTimer; EffectInstallSnapshot s;
      EffectSend (snapshotResponse n (From m) (Sequence m) true (LastIncludedIndex s))]))) (flat_ok n)).
  rewrite (refreshMembership_ok _ m') by done. simpl.
  assert (node_wf (set_membership (set_applied (installed n1 s suffix) (LastIncludedIndex s)) m') ∧
          step_rel n1 (set_membership (set_applied (installed n1 s suffix) (LastIncludedIndex s)) m'))
    as [? ?].
  { destruct Hn1 as [? ? ? ? ? ?]. split; split; try done; simpl; try flia.
    unfold role_ok. simpl. by rewrite Hr. }
  flat. done.
Qed.

(** ** Appending entries *)

Definition same_terms (bs es : list Entry) : Prop := Forall2 (λ b e, Term b = Term e) bs es.

Lemma lastIndex_raw n : 0 ≤ snapIndex (state n) → snapIndex (state n) + zlen (log n) ≤ max_u64 →
  lastIndex n = snapIndex (state n) + zlen (log n).
Proof. intros. unfold lastIndex. apply wrap64_small. unfold is_u64. pose proof (zlen_nonneg (log n)). lia. Qed.

(** Past the end of the log the loop appends every entry. *)
Lemma appendLoop_fresh n prev off dirty es :
  0 ≤ snapIndex (state n) → snapIndex (state n) + zlen (log n) = prev + off →
  prev + off + zlen es ≤ max_u64 →
  appendLoop n prev off dirty es =
  (set_log n (log n ++ es), match es with [] => dirty | _ => true end, false).
Proof.
  revert n off dirty. induction es as [|e es IH]; intros n off dirty Hs Hl Hmax; simpl.
  { rewrite app_nil_r. by destruct n as [? ? ? ? ? ? [] ? ? ? ? ? ? ? ?]. }
  rewrite zlen_cons in Hmax. pose proof (zlen_nonneg es). pose proof (zlen_nonneg (log n)).
  rewrite lastIndex_raw, Hl by lia. rewrite (wrap64_small (prev + off + 1)) by (unfold is_u64; lia).
  destruct (Z.leb_spec (prev + off + 1) (prev + off)); [lia | simpl].
  rewrite lastIndex_raw, Hl by lia. destruct (Z.ltb_spec (prev + off) (prev + off + 1)); [| lia].
  assert ((prev + off + 1 =? nextIndexAfter (prev + off)) = true) as ->.
  { unfold nextIndexAfter. destruct (Z.eqb_spec (prev + off) max_u64); [lia |]. by apply Z.eqb_eq. }
  simpl. rewrite cloneEntry_id. rewrite IH; [| done | |].
  - unfold log. simpl. rewrite <- app_assoc. by destruct es.
  - unfold log, snapIndex in *. simpl. rewrite zlen_app, zlen_cons, zlen_nil. lia.
  - lia.
Qed.

(** The loop leaves the log alone when the entries are already there, and otherwise
    replaces the suffix from the first position that is missing or has another term. *)
Lemma appendLoop_spec n m A B prev off dirty es :
  state_ok (members n) (initialMembership n) (state n) m →
  log n = A ++ B → snapIndex (state n) + zlen A = prev + off → prev + off + zlen es ≤ max_u64 →
  (appendLoop n prev off dirty es = (n, dirty, false) ∧ (length es ≤ length B)%nat ∧
   same_terms (take (length es) B) es) ∨
  ∃ k, (k < length es)%nat ∧ (k ≤ length B)%nat ∧ same_terms (take k B) (take k es) ∧
    (k = length B ∨ ∃ b e, B !! k = Some b ∧ es !! k = Some e ∧ Term b ≠ Term e) ∧
    appendLoop n prev off dirty es = (set_log n (A ++ take k B ++ drop k es), true, false).
Proof.
  intros Hok. revert A B off. induction es as [|e es IH]; intros A B off Hl Ha Hmax.
  { left. split_and!; [done | simpl; lia | constructor]. }
  pose proof (snapIndex_nonneg n m Hok) as Hs0. pose proof (lastIndex_eq n m Hok) as Hlast.
  rewrite Hl, zlen_app in Hlast. pose proof (zlen_nonneg es). rewrite zlen_cons in Hmax.
  pose proof (zlen_nonneg A).
  destruct B as [|b B].
  - right. exists 0%nat. split_and!; [simpl; lia | simpl; lia | constructor | by left |].
    rewrite zlen_nil in Hlast. rewrite app_nil_r in Hl.
    rewrite appendLoop_fresh; [by rewrite Hl | done | rewrite Hl; lia | rewrite zlen_cons; lia].
  - rewrite zlen_cons in Hlast. pose proof (zlen_nonneg B). pose proof (lastIndex_range n) as Hr.
    unfold is_u64 in Hr. set (index := prev + off + 1).
    assert (termAt n index = Term b) as Hterm.
    { unfold termAt. rewrite (entryAt_eq n m Hok) by (unfold index; lia).
      destruct (Z.eqb_spec index 0); [unfold index in *; lia |].
      destruct (Z.eqb_spec index (snapIndex (state n))); [unfold index in *; lia |].
      rewrite Hl. replace (Z.to_nat (index - snapIndex (state n) - 1)) with (length A + 0)%nat
        by (unfold zlen, index in *; lia).
      by rewrite lookup_app_r, Nat.add_0_r, Nat.sub_diag by lia. }
    simpl. fold index. rewrite (wrap64_small index) by (unfold is_u64, index; lia). rewrite Hterm.
    destruct (Z.leb_spec index (lastIndex n)); [| unfold index in *; lia]. simpl.
    destruct (Z.eqb_spec (Term b) (Term e)) as [Heq|Hne].
    + destruct (IH (A ++ [b]) B (off + 1)) as [(-> & Hlen & Hsame) | (k & Hk & HkB & Hsame & Hcase & ->)].
      * by rewrite <- app_assoc.
      * rewrite zlen_app, zlen_cons, zlen_nil. lia.
      * lia.
      * left. split_and!; [done | simpl; lia | by constructor].
      * right. exists (S k). split_and!; [lia | simpl; lia | by constructor | |].
        { destruct Hcase as [-> | (b' & e' & ?)]; [by left | right; eauto]. }
        simpl. by rewrite <- app_assoc.
    + right. exists 0%nat. split_and!; [lia | lia | constructor | right; by exists b, e |].
      assert (truncateFrom n index = set_log n A) as ->.
      { unfold truncateFrom. destruct (Z.leb_spec index (snapIndex (state n))); [unfold index in *; lia |].
        destruct (Z.leb_spec index (lastIndex n)); [| lia].
        rewrite wrap64_small by (unfold is_u64, index in *; lia).
        rewrite Hl. f_equal. replace (Z.to_nat _) with (length A) by (unfold zlen, index in *; lia).
        by rewrite take_app_length. }
      assert (lastIndex (set_log n A) = prev + off) as ->.
      { rewrite lastIndex_raw; unfold log, snapIndex in *; simpl; lia. }
      destruct (Z.ltb_spec (prev + off) index); [| unfold index in *; lia].
      assert ((index =? nextIndexAfter (prev + off)) = true) as ->.
      { unfold nextIndexAfter, index. destruct (Z.eqb_spec (prev + off) max_u64); [lia |].
        by apply Z.eqb_eq. }
      simpl. rewrite cloneEntry_id, appendLoop_fresh.
      * unfold log. simpl. rewrite <- app_assoc. by destruct es.
      * done.
      * unfold log, snapIndex in *. simpl. rewrite zlen_app, zlen_cons, zlen_nil. lia.
      * lia.
Qed.

(** With Log Matching, positions of equal index and term hold equal entries. *)
Lemma same_terms_eq n m msg A B prev cur com pt mk m' k :
  state_ok (members n) (initialMembership n) (state n) m → append_ok n msg →
  log n = A ++ B → snapIndex (state n) + zlen A = prev →
  log_ok (members n) cur com prev pt mk (Entries msg) m' →
  same_terms (take k B) (take k (Entries msg)) → take k B = take k (Entries msg).
Proof.
  intros Hok Hap Hl Ha Hes Hsame. pose proof (Forall2_length _ _ _ Hsame) as Hlen.
  apply (list_eq_same_length _ _ (length (take k B))); [done | done |].
  intros i b e Hi Hb He. pose proof (Forall2_lookup_lr _ _ _ _ _ _ Hsame Hb He) as HT.
  apply lookup_take_Some in Hb as [Hb _]. apply lookup_take_Some in He as [He _].
  pose proof (log_ok_lookup _ _ _ _ _ _ _ _ _ _ Hes He) as (HI & _).
  apply (ap_matching _ _ Hap); [by eapply list_elem_of_lookup_2 | | done].
  pose proof (zlen_nonneg A).
  rewrite (entryAt_eq n m Hok) by lia. rewrite Hl.
  rewrite lookup_app_r by (unfold zlen in *; lia).
  rewrite <- Hb. f_equal. unfold zlen in *. lia.
Qed.

(** Rejections past the term check leave the durable state. *)
Lemma follow_flat n m es :
  node_wf n → MsgTerm m = currentTerm (state n) → flat_ok n (follow n m, (false, es)).
Proof.
  intros Hn Ht. destruct (follow_ok n m Hn Ht) as (? & ? & ? & _). flat.
Qed.

(** The committed part of the log survives the replacement of its suffix. *)
Lemma replaced_committed n m A B k es i e :
  state_ok (members n) (initialMembership n) (state n) m →
  log n = A ++ B → take k B = take k es → (k ≤ length B)%nat →
  snapIndex (state n) + zlen (A ++ es) ≤ max_u64 →
  i ≤ snapIndex (state n) + zlen A + Z.of_nat k → entryAt n i = Some e →
  entryAt (set_log n (A ++ es)) i = Some e.
Proof.
  intros Hok Hl Hk HkB Hmax Hi He. pose proof (entryAt_Some n m Hok i e He) as (Hr & _).
  rewrite (entryAt_eq n m Hok) in He by lia. rewrite Hl in He. pose proof (snapIndex_nonneg n m Hok).
  assert ((A ++ es) !! Z.to_nat (i - snapIndex (state n) - 1) = Some e) as He'.
  { apply lookup_app_Some in He as [He | [Hle He]]; apply lookup_app_Some; [by left | right].
    split; [done |]. rewrite <- (lookup_take_lt es k) by (unfold zlen in *; lia).
    rewrite <- Hk, lookup_take_lt by (unfold zlen in *; lia). done. }
  unfold entryAt. change (snapIndex (state (set_log n (A ++ es)))) with (snapIndex (state n)).
  rewrite (lastIndex_raw (set_log n (A ++ es))) by done.
  change (log (set_log n (A ++ es))) with (A ++ es).
  change (snapIndex (state (set_log n (A ++ es)))) with (snapIndex (state n)).
  pose proof (lookup_lt_Some _ _ _ He') as Hlt.
  destruct (Z.leb_spec i (snapIndex (state n))); [lia |].
  destruct (Z.ltb_spec (snapIndex (state n) + zlen (A ++ es)) i); [unfold zlen in *; lia |].
  simpl. by rewrite wrap64_small by (unfold is_u64; lia).
Qed.

(** The commit index a follower takes from the message. *)
Definition followed_commit (n : Node) (message : Message) : Z :=
  if commitIndex (state n) <? LeaderCommit message
  then Z.min (LeaderCommit message) (lastIndex n) else commitIndex (state n).

Lemma set_commit_same n : set_commit n (commitIndex (state n)) = n.
Proof. by destruct n as [? ? ? ? ? ? [[? ? ?] ? ?] ? ? ? ? ? ? ? ? ?]. Qed.

(** The end of the append handler: the commit index and the applied entries. *)
Lemma commit_tail_ok n0 n msg dirty (es : Node → list Effect → list Effect) :
  let c := followed_commit n msg in
  snapIndex (state n) ≤ applied n ≤ commitIndex (state n) → commitIndex (state n) ≤ c →
  node_wf (set_applied (set_commit n c) c) ∧ step_rel n0 (set_applied (set_commit n c) c) →
  (LeaderCommit msg ≤ commitIndex (state n) → node_wf n ∧ step_rel n0 n) →
  (dirty = false → state n = state n0) →
  wp ('(n, (dirty, committed)) ←
        (if commitIndex (state n) <? LeaderCommit msg then
           '(n, committed) ← applyCommitted (set_commit n (Z.min (LeaderCommit msg) (lastIndex n)));
           Done (n, (true, committed))
         else Done (n, (dirty, [])));
      Done (n, (dirty, es n committed))) (flat_ok n0).
Proof.
  intros c Happ Hle [Hwf Hrel] Hno Hst. unfold c, followed_commit in *.
  destruct (Z.ltb_spec (commitIndex (state n)) (LeaderCommit msg)).
  - rewrite (applyCommitted_ok _ (membership n));
      [| exact (nw_initial _ Hwf) | exact (nw_state _ Hwf) | unfold commitIndex in *; simpl; flia].
    cbn [mbind go_bind wp]. split_and!; done.
  - destruct (Hno ltac:(done)). simpl. flat.
Qed.

(** The node after the suffix was replaced, with its commit and applied indexes. *)
Definition replaced (n : Node) (l : list Entry) (m : Membership) (c a : Z) : Node :=
  set_applied (set_commit (set_membership (set_log n l) m) c) a.

Lemma replaced_wf n prev A B es mk m' com k c a :
  node_wf n → role n = Follower →
  log n = A ++ B → zlen A = prev - snapIndex (state n) →
  log_ok (members n) (currentTerm (state n)) (commitIndex (state n)) (snapIndex (state n))
      (snapTerm (state n)) (baseMembership (initialMembership n) (state n)) A mk →
  log_ok (members n) (currentTerm (state n)) com prev
      (last_term (snapTerm (state n)) A) mk es m' →
  take k B = take k es → (k ≤ length B)%nat → (k < length es)%nat →
  prev + zlen es ≤ max_u64 → commitIndex (state n) ≤ prev + Z.of_nat k →
  commitIndex (state n) ≤ c ≤ prev + zlen es → Z.min com (prev + zlen es) ≤ c →
  applied n ≤ a ≤ c →
  node_wf (replaced n (A ++ es) m' c a) ∧ step_rel n (replaced n (A ++ es) m' c a).
Proof.
  intros Hn Hr Hl HA HokA Hokes Htk HkB Hkes Hmax Hck Hc Hmin Ha.
  pose proof Hn as [Hmem Hid Hinit Hok Happ Hrole].
  assert (state_ok (members n) (initialMembership n)
            (state (replaced n (A ++ es) m' c a)) m') as Hok'.
  { destruct Hok as [Hterm Hsn Hlog Hlast Hcom]. split; simpl; try done.
    - change (log_ok (members n) (currentTerm (state n)) c (snapIndex (state n))
        (snapTerm (state n)) (baseMembership (initialMembership n) (state n)) (A ++ es) m').
      apply log_ok_app. exists mk. split; [eapply log_ok_weaken; [done | lia | lia] |].
      replace (snapIndex (state n) + zlen A) with prev by lia. by eapply log_ok_commit_min.
    - rewrite zlen_app. unfold snapIndex in *. simpl. lia.
    - rewrite zlen_app. unfold snapIndex, commitIndex in *. simpl. lia. }
  split.
  - split; try done.
    + unfold snapIndex, commitIndex in *. simpl. lia.
    + unfold role_ok. simpl. by rewrite Hr.
  - split; try done; unfold replaced; simpl; try flia.
    intros i e Hi _ He.
    change (entryAt (set_log n (A ++ es)) i = Some e).
    eapply (replaced_committed n _ A B k); try done; [| lia].
    rewrite zlen_app. lia.
Qed.

Lemma appendLoop_early n prev es :
  prev + zlen es ≤ max_u64 → lastIndex n < prev → es ≠ [] →
  appendLoop n prev 0 false es = (n, false, true).
Proof.
  intros Hmax Hlt Hne. destruct es as [|e es]; [done |]. simpl.
  rewrite zlen_cons in Hmax. pose proof (zlen_nonneg es). pose proof (lastIndex_range n) as Hr.
  unfold is_u64 in Hr. rewrite (wrap64_small (prev + 0 + 1)) by (unfold is_u64; lia).
  destruct (Z.leb_spec (prev + 0 + 1) (lastIndex n)); [lia | simpl].
  destruct (Z.ltb_spec (lastIndex n) (prev + 0 + 1)); [| lia].
  unfold nextIndexAfter. destruct (Z.eqb_spec (lastIndex n) max_u64); [lia |].
  by destruct (Z.eqb_spec (prev + 0 + 1) (lastIndex n + 1)); [lia |].
Qed.

(** The loop, the refresh and the commit of the append handler, on a node that
    follows the sender. *)
Definition appendTail (n : Node) (message : Message) : go (Node * (bool * list Effect)) :=
  let prev := PrevLogIndex message in
  let '(n, dirty, early) := appendLoop n prev 0 false (Entries message) in
  if (early : bool) then
    Done (n, (dirty, [EffectResetElectionTimer;
      EffectSend (appendResponse n (From message) (Sequence message) false 0
                    (nextIndexAfter (lastIndex n)))]))
  else
  n ← (if dirty then refreshMembership n else Done n);
  '(n, (dirty, committed)) ←
    (if commitIndex (state n) <? LeaderCommit message then
       '(n, committed) ← applyCommitted
          (set_commit n (Z.min (LeaderCommit message) (lastIndex n)));
       Done (n, (true, committed))
     else Done (n, (dirty, [])));
  let match_ := wrap64 (prev + zlen (Entries message)) in
  Done (n, (dirty, EffectResetElectionTimer :: committed ++
    [EffectSend (appendResponse n (From message) (Sequence message) true match_ 0)])).

(** Nothing to append: only the commit index may move. *)
Lemma followed_commit_range n msg :
  node_wf n →
  commitIndex (state n) ≤ followed_commit n msg ≤ lastIndex n.
Proof.
  intros [_ _ _ Hok _ _]. pose proof (so_commit _ _ _ _ Hok). unfold followed_commit.
  rewrite (lastIndex_eq n _ Hok). unfold log.
  destruct (Z.ltb_spec (commitIndex (state n)) (LeaderCommit msg)); lia.
Qed.

(** The position of the first difference is past the commit index. *)
Lemma mismatch_committed n m msg A B k cur com pt mk m' :
  state_ok (members n) (initialMembership n) (state n) m → append_ok n msg →
  log n = A ++ B → zlen A = PrevLogIndex msg - snapIndex (state n) →
  log_ok (members n) cur com (PrevLogIndex msg) pt mk (Entries msg) m' →
  k = length B ∨ (∃ b e, B !! k = Some b ∧ Entries msg !! k = Some e ∧ Term b ≠ Term e) →
  commitIndex (state n) ≤ PrevLogIndex msg + Z.of_nat k.
Proof.
  intros Hok Hap Hl Ha Hes. pose proof (so_commit _ _ _ _ Hok) as Hc. fold (log n) in Hc.
  rewrite Hl, zlen_app in Hc. intros [-> | (b & e & Hb & He & Hne)]; [unfold zlen in *; lia |].
  pose proof (log_ok_lookup _ _ _ _ _ _ _ _ _ _ Hes He) as (HI & _).
  destruct (Z.le_gt_cases (commitIndex (state n)) (PrevLogIndex msg + Z.of_nat k)); [done |].
  exfalso. apply Hne. eapply (ap_committed _ _ Hap); [by eapply list_elem_of_lookup_2 | lia |].
  pose proof (zlen_nonneg A). rewrite (entryAt_eq n m Hok) by lia. rewrite Hl.
  rewrite lookup_app_r by (unfold zlen in *; lia).
  rewrite <- Hb. f_equal. unfold zlen in *. lia.
Qed.

Lemma set_applied_same n : set_applied n (applied n) = n.
Proof. by destruct n. Qed.

(** The log changed: the configuration is refreshed, then the commit index moves. *)
Lemma appendTail_replaced n0 n msg A B mk m' k (es : Node → list Effect → list Effect) :
  node_wf n → role n = Follower → step_rel n0 n →
  log n = A ++ B → zlen A = PrevLogIndex msg - snapIndex (state n) →
  log_ok (members n) (currentTerm (state n)) (commitIndex (state n)) (snapIndex (state n))
      (snapTerm (state n)) (baseMembership (initialMembership n) (state n)) A mk →
  log_ok (members n) (currentTerm (state n)) (Z.max (commitIndex (state n)) (LeaderCommit msg))
      (PrevLogIndex msg) (last_term (snapTerm (state n)) A) mk (Entries msg) m' →
  take k B = take k (Entries msg) → (k ≤ length B)%nat → (k < length (Entries msg))%nat →
  PrevLogIndex msg + zlen (Entries msg) ≤ max_u64 →
  commitIndex (state n) ≤ PrevLogIndex msg + Z.of_nat k →
  wp (n ← refreshMembership (set_log n (A ++ Entries msg));
      '(n, (dirty, committed)) ←
        (if commitIndex (state n) <? LeaderCommit msg then
           '(n, committed) ← applyCommitted (set_commit n (Z.min (LeaderCommit msg) (lastIndex n)));
           Done (n, (true, committed))
         else Done (n, (true, [])));
      Done (n, (dirty, es n committed))) (flat_ok n0).
Proof.
  intros Hn Hr Hrel Hl HA HokA Hokes Htk HkB Hkes Hmax Hck.
  pose proof Hn as [_ _ Hinit Hok Happ _].
  set (n3 := set_membership (set_log n (A ++ Entries msg)) m').
  assert (lastIndex n3 = PrevLogIndex msg + zlen (Entries msg)) as Hlast.
  { pose proof (snapIndex_nonneg n _ Hok).
    rewrite lastIndex_raw; unfold n3, log, snapIndex in *; simpl; rewrite ?zlen_app; lia. }
  assert (∀ c a, commitIndex (state n) ≤ c ≤ lastIndex n3 →
            Z.min (Z.max (commitIndex (state n)) (LeaderCommit msg)) (lastIndex n3) ≤ c →
            applied n ≤ a ≤ c →
            node_wf (set_applied (set_commit n3 c) a) ∧ step_rel n0 (set_applied (set_commit n3 c) a))
    as Hrep.
  { intros c a H1 H2 H3. rewrite Hlast in *.
    destruct (replaced_wf n (PrevLogIndex msg) A B (Entries msg) mk m' _ k c a Hn Hr Hl HA HokA Hokes
                Htk HkB Hkes Hmax Hck) as [? ?]; try done. eauto using step_rel_trans. }
  assert (zlen (Entries msg) = Z.of_nat (length (Entries msg))) as Hz by done.
  assert (refreshMembership (set_log n (A ++ Entries msg)) = Done n3) as ->.
  { destruct (Hrep (lastIndex n3) (applied n)) as [Hwf _]; [lia.. |].
    pose proof (membershipAt_last _ _ (nw_state _ Hwf) (lastIndex n3) ltac:(reflexivity)) as E.
    change (membershipAt (set_log n (A ++ Entries msg)) (lastIndex (set_log n (A ++ Entries msg)))
            = Done m') in E.
    unfold refreshMembership. by rewrite E. }
  cbn [mbind go_bind].
  assert (commitIndex (state n3) ≤ followed_commit n3 msg ≤ lastIndex n3 ∧
          Z.min (Z.max (commitIndex (state n)) (LeaderCommit msg)) (lastIndex n3) ≤ followed_commit n3 msg)
    as [Hfc1 Hfc2].
  { unfold followed_commit. change (commitIndex (state n3)) with (commitIndex (state n)).
    destruct (Z.ltb_spec (commitIndex (state n)) (LeaderCommit msg)); lia. }
  change (commitIndex (state n3)) with (commitIndex (state n)) in Hfc1.
  apply commit_tail_ok; [exact Happ | apply Hfc1 | apply Hrep; lia | | done].
  intros HLC. change (commitIndex (state n3)) with (commitIndex (state n)) in HLC.
  assert (set_applied (set_commit n3 (commitIndex (state n))) (applied n) = n3) as E.
  { change (set_applied (set_commit n3 (commitIndex (state n3)))
              (applied (set_commit n3 (commitIndex (state n3)))) = n3).
    by rewrite set_applied_same, set_commit_same. }
  rewrite <- E. apply Hrep; lia.
Qed.

Lemma appendTail_ok n0 n m msg :
  node_wf n → role n = Follower → step_rel n0 n → state n = state n0 →
  append_ok n msg → PrevLogIndex msg + zlen (Entries msg) ≤ max_u64 →
  snapIndex (state n) ≤ PrevLogIndex msg → termAt n (PrevLogIndex msg) = PrevLogTerm msg →
  membershipAt n (PrevLogIndex msg) = Done m →
  (∃ m', log_ok (members n) (currentTerm (state n)) (Z.max (commitIndex (state n)) (LeaderCommit msg))
           (PrevLogIndex msg) (PrevLogTerm msg) m (Entries msg) m') →
  wp (appendTail n msg) (flat_ok n0).
Proof.
  intros Hn Hr Hrel Hst Hap Hmax Hprev Hpt Hm [m' Hes].
  pose proof Hn as [_ _ Hinit Hok Happ _]. unfold appendTail. cbv zeta.
  assert (wp ('(n, (dirty, committed)) ←
        (if commitIndex (state n) <? LeaderCommit msg then
           '(n, committed) ← applyCommitted (set_commit n (Z.min (LeaderCommit msg) (lastIndex n)));
           Done (n, (true, committed))
         else Done (n, (false, [])));
      Done (n, (dirty, EffectResetElectionTimer :: committed ++
        [EffectSend (appendResponse n (From msg) (Sequence msg) true
           (wrap64 (PrevLogIndex msg + zlen (Entries msg))) 0)]))) (flat_ok n0)) as Hsame.
  { pose proof (followed_commit_range n msg Hn) as Hc.
    destruct (committed_at_wf n (followed_commit n msg) Hn Hc) as [? ?].
    apply (commit_tail_ok n0 n msg false (λ n committed, EffectResetElectionTimer :: committed ++
      [EffectSend (appendResponse n (From msg) (Sequence msg) true
         (wrap64 (PrevLogIndex msg + zlen (Entries msg))) 0)])); eauto using step_rel_trans; lia. }
  destruct (Z.le_gt_cases (PrevLogIndex msg) (lastIndex n)) as [Hin|Hout].
  2: { destruct (decide (Entries msg = [])) as [E|E].
       - rewrite E in *. exact Hsame.
       - rewrite appendLoop_early by (done || lia). flat. }
  destruct (log_split n _ (PrevLogIndex msg) Hok) as (A & B & mk & Hab & Ha & _ & Hmk & HtA & HokA & _);
    [lia |].
  assert (mk = m) as -> by congruence. rewrite Hpt in HtA.
  destruct (appendLoop_spec n _ A B (PrevLogIndex msg) 0 false (Entries msg) Hok Hab) as
    [(-> & _ & _) | (k & Hk & HkB & Hsm & Hcase & ->)]; [lia | lia | exact Hsame |].
  assert (take k B = take k (Entries msg)) as Htk.
  { eapply (same_terms_eq n _ msg A B (PrevLogIndex msg)); try done. lia. }
  rewrite Htk, take_drop. cbn iota beta.
  apply (appendTail_replaced n0 n msg A B m m' k); try done.
  - by rewrite <- HtA.
  - eapply (mismatch_committed n _ msg A B); try done.
Qed.

Lemma append_ok_follow n m : append_ok n m → append_ok (follow n m) m ∨ 
  currentTerm (state n) ≠ MsgTerm m.
Proof.
  intros [H1 H2 H3]. destruct (decide (currentTerm (state n) = MsgTerm m)) as [E|]; [left | by right].
  unfold follow, becomeFollower. case_if; [| by split]. rewrite <- E. simpl.
  destruct (Z.ltb_spec (currentTerm (state n)) (currentTerm (state n))); [lia | by split].
Qed.

Lemma handleAppendEntries_ok n m :
  node_wf n → message_u64 m → (currentTerm (state n) ≤ MsgTerm m → append_ok n m) →
  MsgTerm m ≤ currentTerm (state n) →
  wp (handleAppendEntries n m) (flat_ok n).
Proof.
  intros Hn Hu Hap Hle. unfold handleAppendEntries. case_if; [by apply flat_same |].
  reflect. assert (MsgTerm m = currentTerm (state n)) as HT by lia. fold (follow n m).
  pose proof (follow_flat n m) as Hflat.
  destruct (follow_ok n m Hn HT) as (Hn1 & Hrel1 & Hst & Hr & Hmm & Hii & Hms & Hid).
  destruct (append_ok_follow n m (Hap Hif)) as [Hap1|]; [| congruence].
  set (n1 := follow n m) in *. cbv zeta. case_if; [by apply Hflat |]. reflect.
  destruct Hif0 as [Hprev Hpt]. case_if; [by apply Hflat |]. reflect.
  pose proof Hn1 as [_ _ Hinit Hok _ _].
  destruct (wp_inv _ _ (membershipAt_ok n1 _ Hok (PrevLogIndex m) ltac:(lia))) as (mk & Hmk & _).
  rewrite Hmk. cbn [mbind go_bind].
  destruct (checkIncoming _ _ _ _ _ _ _) as [index|] eqn:Hchk; [by apply Hflat |].
  change (wp (appendTail n1 m) (flat_ok n)).
  pose proof (snapIndex_nonneg n1 _ Hok).
  apply (appendTail_ok n n1 mk m); try done; [lia |].
  assert (Forall (λ e, is_u64 (Term e)) (Entries m)) as Hterms
    by (eapply Forall_impl; [apply (mu_entries _ Hu) | by intros ? []]).
  eapply checkIncoming_sound in Hchk as [m' Hm']; [| lia | lia | done | exact (ap_final _ _ Hap1)].
  exists m'. rewrite HT, <- Hst, Z.add_0_r in Hm'. done.
Qed.
