(* ===== verification/NodeStep.v ===== *)
(** * The node: every step keeps the invariant

    [stepMessage] and [stepInput] from the handler lemmas, the lemmas on [New],
    [Start] and [Step] the properties of NodeProps.v are drawn from. *)

From S2P Require Export NodeReplication.

(** ** Inputs *)

Lemma append_ok_promote n m l : append_ok n m → append_ok (becomeFollower n (MsgTerm m) l) m.
Proof.
  intros [H1 H2 H3]. unfold becomeFollower. simpl.
  destruct (Z.ltb_spec (currentTerm (state n)) (MsgTerm m)); split; done.
Qed.

(** The term promotion of [stepMessage]. *)
Definition promote (n : Node) (message : Message) : Node :=
  if currentTerm (state n) <? MsgTerm message then becomeFollower n (MsgTerm message) "" else n.

(** The handler [stepMessage] calls. *)
Definition dispatch (n : Node) (message : Message) : go (Node * Handled) :=
  match MsgType message with
  | RequestVote => lift_handled (Done (handleRequestVote n message))
  | RequestVoteResponse => handleRequestVoteResponse n message
  | AppendEntries => lift_handled (handleAppendEntries n message)
  | AppendEntriesResponse => lift_handled (handleAppendEntriesResponse n message)
  | InstallSnapshot => lift_handled (handleInstallSnapshot n message)
  | InstallSnapshotResponse => lift_handled (handleInstallSnapshotResponse n message)
  | MessageUnknown _ => Done (n, inr (false, []))
  end.

Lemma dispatch_ok n m :
  node_wf n → message_u64 m → (MsgType m = AppendEntries → currentTerm (state n) ≤ MsgTerm m → append_ok n m) →
  MsgTerm m ≤ currentTerm (state n) →
  wp (dispatch n m) (λ p, handled_ok n p ∧ (role n = Follower → ∃ r, p.2 = inr r)).
Proof.
  intros Hn Hu Hap Hle.
  assert (∀ h, wp h (flat_ok n) → wp (lift_handled h)
            (λ p, handled_ok n p ∧ (role n = Follower → ∃ r, p.2 = inr r))) as Hlift.
  { intros h Hh. apply wp_bind. eapply wp_mono; [exact Hh |]. intros [n' r] H. split; [done | by eexists]. }
  unfold dispatch. destruct (MsgType m) eqn:Et.
  - apply Hlift. pose proof (handleRequestVote_ok n m Hn) as H.
    destruct (handleRequestVote n m) as [n' r] eqn:E. exact H.
  - by apply handleRequestVoteResponse_ok.
  - apply Hlift, handleAppendEntries_ok; auto.
  - by apply Hlift, handleAppendEntriesResponse_ok.
  - by apply Hlift, handleInstallSnapshot_ok.
  - by apply Hlift, handleInstallSnapshotResponse_ok.
  - split; [by apply handled_same | by eexists].
Qed.

Lemma stepMessage_ok n m :
  node_wf n → input_ok n (InputMessage m) → wp (stepMessage n m) (handled_ok n).
Proof.
  intros Hn [Hu Hap]. unfold stepMessage. case_if; [by apply handled_error |].
  case_if; [by apply handled_error |]. fold (promote n m).
  change (wp (or_dirty (currentTerm (state n) <? MsgTerm m) (dispatch (promote n m) m)) (handled_ok n)).
  unfold promote. apply wp_bind. destruct (Z.ltb_spec (currentTerm (state n)) (MsgTerm m)).
  - destruct (becomeFollower_wf n (MsgTerm m) "" Hn (mu_term _ Hu)) as [Hn1 Hrel1].
    destruct (becomeFollower_fields n (MsgTerm m) "") as (Hr & _ & _ & Hct & _).
    eapply wp_mono; [apply dispatch_ok; try done |].
    + intros. apply append_ok_promote, Hap; [done | lia].
    + lia.
    + intros [n' r] [(Hwf & Hrel & Hst) Hno]. destruct (Hno Hr) as [[dirty es] Hr']. simpl in Hr'.
      subst r. simpl. split_and!; eauto using step_rel_trans. done.
  - eapply wp_mono; [apply dispatch_ok; try done |].
    + by intros [n' [err|[dirty es]]] [(Hwf & Hrel & Hst) _].
Qed.

Lemma stepInput_ok n i :
  node_wf n → input_ok n i → wp (stepInput n i) (handled_ok n).
Proof.
  intros Hn Hi. destruct i; simpl; try by apply (handled_error n ErrInvalidInput).
  - case_if; [by apply handled_same |]. case_if; [by apply handled_error |].
    apply startElection_ok; [done |]. reflect. pose proof (so_term _ _ _ _ (nw_state _ Hn)) as [? ?]. lia.
  - case_if; [| by apply handled_same]. reflect. pose proof (nw_role _ Hn) as Hro.
    unfold role_ok in Hro. rewrite Hif in Hro. apply wp_bind.
    eapply wp_mono; [apply broadcastAppend_ok; [apply (nw_id _ Hn) | apply Hro] |].
    intros [n' es] [Hs _]. destruct (same_but_sequence_wf n n' Hs Hn) as (? & ? & ? & _). done.
  - by apply stepMessage_ok.
  - by apply propose_ok.
  - by apply takeSnapshot_ok.
  - by apply beginMembership_ok.
  - by apply finalizeMembership_ok.
Qed.

(** ** Construction *)

Record state_u64 (s : PersistentState) : Prop := {
  su_term : is_u64 (currentTerm s);
  su_commit : is_u64 (commitIndex s);
  su_snap : is_u64 (snapIndex s);
  su_snap_term : is_u64 (snapTerm s);
  su_log : Forall (λ e, is_u64 (Term e)) (Log s) }.

Lemma has_duplicate_NoDup l :
  StronglySorted String.le l → has_duplicate l = false → NoDup l.
Proof.
  intros Hs. induction Hs as [|x l Hs IH Hf]; intros H; [constructor |].
  destruct l as [|y l]; [constructor; [by intros ?%elem_of_nil | constructor] |].
  cbn [has_duplicate] in H. apply orb_false_iff in H as [Hne H].
  apply String.eqb_neq in Hne. constructor; [| by apply IH].
  intros [->|Hin]%elem_of_cons; [done |].
  inversion Hf as [|? ? Hxy _]; subst. inversion Hs as [|? ? _ Hyl]; subst.
  assert (String.le y x) as Hyx by (by eapply Forall_forall in Hyl).
  apply Hne. by apply (anti_symm String.le).
Qed.

(** The members a valid configuration names. *)
Lemma validate_members c st :
  validate c st = None →
  let universe := sort_nodes (Members c) in
  canonical_set universe universe ∧ ID c ∈ universe ∧
  ∃ initial, initialMembership_of c universe = (initial, true).
Proof.
  unfold validate. case_if; [done |]. case_if; [done |]. case_if; [done |]. case_if; [done |].
  unfold slices_Clone in *. reflect. intros H. split_and!.
  - split; [apply sort_nodes_sorted |]. split; [by apply has_duplicate_NoDup, Hif1; apply sort_nodes_sorted |].
    intros x Hx. split; [by intros -> | done].
  - done.
  - destruct (initialMembership_of _ _) as [initial []]; [by exists initial | done].
Qed.

Lemma validateSnapshot_sound c universe initial st m :
  state_u64 st → validateSnapshot c universe initial st = inr m →
  snapshot_ok universe initial (currentTerm st) (Snapshot_ st) ∧ m = baseMembership initial st.
Proof.
  intros [_ _ Hi Ht _]. unfold is_u64 in *. unfold validateSnapshot, baseMembership, snapIndex, snapTerm in *.
  case_if; reflect.
  - case_if; [done |]. intros [= <-]. unfold zero_snapshot_metadata in Hif0.
    repeat match goal with E : _ || _ = false |- _ => apply orb_false_iff in E as [? ?] end.
    rewrite !negb_false_iff, !length_eqb_0, membershipIsZero_spec in *. reflect.
    rewrite Hif. split; [| done].
    destruct (Snapshot_ st) as [? ? ? ? ?]. simpl in *. subst. by split.
  - case_if; [done |].
    repeat match goal with E : _ || _ = false |- _ => apply orb_false_iff in E as [? ?] end.
    rewrite !negb_false_iff in *. reflect.
    destruct (Z.ltb_spec 0 (LastIncludedIndex (Snapshot_ st))); [| lia].
    unfold snapshotMembership.
    destruct (membershipIsZero (SnapMembership (Snapshot_ st))) eqn:Ez; simpl.
    + pose proof (proj1 (membershipIsZero_spec _) Ez) as Ee.
      destruct (membershipsEqual initial (stableMembership universe [])) eqn:Eq; [simpl | done].
      intros [= <-]. apply membershipsEqual_spec in Eq. subst initial.
      match goal with E : SnapMembers _ = universe |- _ => rewrite E end.
      split; [split; try done; lia | done].
    + destruct (validateMembership (SnapMembership (Snapshot_ st)) universe) eqn:Ev; [simpl | done].
      intros [= <-]. split; [| done]. split; try done; try lia.
      * intros _ _. by apply validateMembership_spec.
      * intros _ E. apply membershipIsZero_spec in E. congruence.
Qed.

(** A state that passes the check is well formed. *)
Lemma validate_sound c st :
  state_u64 st → validate c st = None →
  ∃ initial m, initialMembership_of c (sort_nodes (Members c)) = (initial, true) ∧
    membership_valid initial (sort_nodes (Members c)) ∧
    state_ok (sort_nodes (Members c)) initial st m ∧ CfgAppliedIndex c ≤ commitIndex st.
Proof.
  intros Hu H. pose proof (validate_members c st H) as (Hcan & Hid & initial & Hinit).
  unfold validate in H. do 4 (case_if_in H; [done |]). unfold slices_Clone in *.
  rewrite Hinit in H. destruct (validateSnapshot _ _ _ _) as [|m0] eqn:Hs; [done |].
  apply validateSnapshot_sound in Hs as [Hsn ->]; [| done].
  case_if_in H; [done |]. destruct (validateLog _ _ _ _ _ _ _ _) as [m|] eqn:Hlog; [| done].
  case_if_in H; [done |]. reflect. pose proof (zlen_nonneg (Log st)).
  assert (membership_valid initial (sort_nodes (Members c))) as Hiv.
  { eapply initialMembership_valid; [done | done |]. intros E. rewrite E in Hid. by apply elem_of_nil in Hid. }
  destruct Hu as [Hu1 Hu2 Hu3 Hu4 Hu5]. destruct Hif4 as [[? ?] ?].
  pose proof (sn_index _ _ _ _ Hsn). fold (snapIndex st) in *.
  apply validateLog_sound in Hlog; [| lia | lia | done]. rewrite Z.add_0_r in Hlog.
  exists initial, m. split_and!; try done; try lia.
  rewrite wrap64_small in * by (unfold is_u64; lia). split; try done; lia.
Qed.

(** A constructed node: everything of [node_wf] but the lower bound of [applied],
    which [Start] establishes. *)
Record constructed (c : Config) (st : PersistentState) (n : Node) : Prop := {
  ct_id : id n = ID c;
  ct_members : members n = sort_nodes (Members c);
  ct_state : state n = st;
  ct_applied : applied n = CfgAppliedIndex c ∧ applied n ≤ commitIndex st;
  ct_role : role n = Follower;
  ct_token : nextWriteToken n = 1 ∧ pending n = None;
  ct_canonical : canonical_set (members n) (members n) ∧ id n ∈ members n;
  ct_initial : membership_valid (initialMembership n) (members n);
  ct_ok : state_ok (members n) (initialMembership n) st (membership n) }.

Lemma New_ok c st :
  state_u64 st →
  wp (New c st) (λ r, match r with
    | inl err => validate c st = Some err
    | inr n => validate c st = None ∧ constructed c st n
    end).
Proof.
  intros Hu. unfold New. rewrite cloneState_id. destruct (validate c st) as [err|] eqn:Hv; [done |].
  pose proof (validate_members c st Hv) as (Hcan & Hid & _).
  destruct (validate_sound c st Hu Hv) as (initial & m & Hinit & Hiv & Hok & Happ).
  unfold slices_Clone. rewrite Hinit.
  rewrite (refreshMembership_ok _ m) by done. simpl. split; [done |]. by split.
Qed.

(** The effects of [Start]: the snapshot if the state machine is behind it, the
    entries up to the commit index, and an election timer for a voter. *)
Definition start_effects (n : Node) : list Effect :=
  let from := Z.max (applied n) (snapIndex (state n)) in
  (if applied n <? snapIndex (state n) then [EffectInstallSnapshot (Snapshot_ (state n))] else []) ++
  apply_effects (set_applied n from) (commitIndex (state n)) ++
  (if isVoter (membership n) (id n) then [EffectResetElectionTimer] else []).

Lemma Start_ok c st n :
  constructed c st n →
  Start n = Done (set_applied n (commitIndex st), start_effects n) ∧
  node_wf (set_applied n (commitIndex st)).
Proof.
  intros [Hid Hmm Hst [Hap1 Hap2] Hr _ [Hcan Hin] Hiv Hok]. subst st.
  pose proof (so_commit _ _ _ _ Hok). split.
  - unfold Start, start_effects. rewrite cloneSnapshot_id.
    destruct (Z.ltb_spec (applied n) (snapIndex (state n))).
    + rewrite Z.max_r by lia.
      rewrite (applyCommitted_ok _ (membership n)); try done. simpl. lia.
    + rewrite Z.max_l by lia. rewrite (applyCommitted_ok n (membership n)) by (done || lia).
      simpl. by rewrite set_applied_same.
  - split; try done; simpl; [lia |]. unfold role_ok. simpl. by rewrite Hr.
Qed.

(** ** Steps *)

(** What a step never undoes. *)
Record history (n n' : Node) : Prop := {
  hi_id : id n' = id n;
  hi_members : members n' = members n;
  hi_initial : initialMembership n' = initialMembership n;
  hi_term : currentTerm (state n) ≤ currentTerm (state n');
  hi_vote : currentTerm (state n') = currentTerm (state n) → votedFor (state n) ≠ "" →
            votedFor (state n') = votedFor (state n);
  hi_snap : snapIndex (state n) ≤ snapIndex (state n');
  hi_commit : commitIndex (state n) ≤ commitIndex (state n');
  hi_applied : applied n ≤ applied n';
  hi_committed : ∀ i e, i ≤ commitIndex (state n) → snapIndex (state n') < i →
                 entryAt n i = Some e → entryAt n' i = Some e }.

Lemma history_refl n : history n n.
Proof. split; done || lia. Qed.

Lemma history_trans n1 n2 n3 : history n1 n2 → history n2 n3 → history n1 n3.
Proof.
  intros [? ? ? Ht1 Hv1 ? ? ? Hc1] [? ? ? Ht2 Hv2 ? ? ? Hc2].
  split; try congruence; try lia.
  - intros Ht Hv. assert (currentTerm (state n2) = currentTerm (state n1)) as E by lia.
    rewrite Hv2; [by apply Hv1 | congruence |]. by rewrite Hv1.
  - intros i e Hi Hs He. apply Hc2; [lia | lia |]. apply Hc1; [lia | lia | done].
Qed.

Lemma history_step_rel n n' tok p : step_rel n n' → history n (set_pending n' tok p).
Proof. intros []. by split. Qed.

Lemma set_pending_wf n tok p : node_wf n → node_wf (set_pending n tok p).
Proof. intros []. by split. Qed.

(** The four outcomes of a step of a node that is not waiting. *)
Definition step_outcome (n : Node) (p : Node * (Error + list Effect)) : Prop :=
  let '(n', r) := p in
  node_wf n' ∧ history n n' ∧
  match r with
  | inl _ => state n' = state n ∧ pending n' = None
  | inr es =>
    (state n' = state n ∧ pending n' = None) ∨
    (∃ queued, es = [EffectPersist (nextWriteToken n) (state n')] ∧
       pending n' = Some (mkPending (nextWriteToken n) queued))
  end.

Lemma Step_idle n i :
  pending n = None → (∀ t, i ≠ InputPersisted t) →
  Step n i = (r ← stepInput n i;
    let '(n, r) := r in Done (match r with
            | inl err => (n, inl err)
            | inr (true, effects) =>
              (set_pending n (wrap64 (nextWriteToken n + 1)) (Some (mkPending (nextWriteToken n) effects)),
               inr [EffectPersist (nextWriteToken n) (cloneState (state n))])
            | inr (false, effects) => (n, inr effects)
            end)).
Proof. intros Hp Hne. unfold Step. rewrite Hp. destruct i; try done. by destruct (Hne writeToken). Qed.

Lemma Step_ok n i :
  node_wf n → pending n = None → input_ok n i → (∀ t, i ≠ InputPersisted t) →
  wp (Step n i) (step_outcome n).
Proof.
  intros Hn Hp Hi Hne.
  rewrite Step_idle by done.
  apply wp_bind. eapply wp_mono; [by apply stepInput_ok |]. intros [n' r] (Hwf & Hrel & Hst).
  pose proof (history_step_rel _ _ (nextWriteToken n') (pending n') Hrel) as Hh.
  assert (set_pending n' (nextWriteToken n') (pending n') = n') as E by (by destruct n').
  rewrite E in Hh. destruct Hrel as [_ _ _ Hpend Htok _ _ _ _ _ _].
  destruct r as [err | [[] es]]; simpl.
  - split_and!; try done. congruence.
  - split_and!; [by apply set_pending_wf | by destruct Hh |].
    right. exists es. rewrite cloneState_id, Htok. done.
  - split_and!; try done. left. split; [auto | congruence].
Qed.

Lemma Step_waiting n i p :
  pending n = Some p → (∀ t, i ≠ InputPersisted t) → Step n i = Done (n, inl ErrAwaitingPersistence).
Proof. intros Hp Hne. unfold Step. rewrite Hp. destruct i; try done. by destruct (Hne writeToken). Qed.

(** Any step: the invariant and the history. *)
Lemma Step_any n i :
  node_wf n → input_ok n i → wp (Step n i) (λ '(n', _), node_wf n' ∧ history n n').
Proof.
  intros Hn Hi. assert ((∃ t, i = InputPersisted t) ∨ ∀ t, i ≠ InputPersisted t) as [[t ->]|Hne].
  { destruct i; eauto; by right. }
  - simpl. unfold acknowledgePersistence. destruct (pending n); [| by eauto using history_refl].
    case_if; simpl; [by eauto using history_refl |]. split; [by apply set_pending_wf |].
    destruct Hn. split; done || lia.
  - destruct (pending n) as [p|] eqn:Hp.
    + rewrite (Step_waiting n i p Hp Hne). simpl. by eauto using history_refl.
    + eapply wp_mono; [by apply Step_ok |]. intros [n' r] (? & ? & _). done.
Qed.

(** ** Restart: a well-formed state passes the check *)

Lemma NoDup_has_duplicate l : NoDup l → has_duplicate l = false.
Proof.
  induction 1 as [|x l Hx Hl IH]; [done |]. destruct l as [|y l]; [done |].
  change (String.eqb y x || has_duplicate (y :: l) = false). rewrite IH, orb_false_r. apply String.eqb_neq. intros ->.
  apply Hx. by constructor.
Qed.

Lemma validateSnapshot_complete c universe initial st :
  snapshot_ok universe initial (currentTerm st) (Snapshot_ st) →
  validateSnapshot c universe initial st = inr (baseMembership initial st).
Proof.
  intros [H0 Hnone Ht Hm Hv Hl]. unfold validateSnapshot, baseMembership, snapIndex in *.
  destruct (Z.eqb_spec (LastIncludedIndex (Snapshot_ st)) 0) as [E|E].
  - rewrite (Hnone E). done.
  - specialize (Ht E). destruct (Z.eqb_spec (LastIncludedTerm (Snapshot_ st)) 0); [lia | simpl].
    destruct (Z.ltb_spec (currentTerm st) (LastIncludedTerm (Snapshot_ st))); [lia | simpl].
    rewrite (Hm E), (proj2 (nodes_equal_true _ _) eq_refl). simpl.
    destruct (Z.ltb_spec 0 (LastIncludedIndex (Snapshot_ st))); [| lia].
    unfold snapshotMembership. rewrite (Hm E).
    destruct (membershipIsZero (SnapMembership (Snapshot_ st))) eqn:Ez; simpl.
    + pose proof (proj1 (membershipIsZero_spec _) Ez) as Ee. rewrite (Hl E Ee).
      by rewrite (proj2 (membershipsEqual_spec _ _) eq_refl).
    + assert (SnapMembership (Snapshot_ st) ≠ emptyMembership) as Hne
        by (intros Ee; apply membershipIsZero_spec in Ee; congruence).
      by rewrite (proj2 (validateMembership_spec _ _) (Hv E Hne)).
Qed.

Lemma validate_complete c st initial m :
  canonical_set (sort_nodes (Members c)) (sort_nodes (Members c)) → ID c ∈ Members c → ID c ≠ "" →
  initialMembership_of c (sort_nodes (Members c)) = (initial, true) →
  state_ok (sort_nodes (Members c)) initial st m → CfgAppliedIndex c ≤ commitIndex st →
  validate c st = None.
Proof.
  intros (Hsort & Hnd & Hne) Hid Hidn Hinit [Hterm Hsn Hlog Hlast Hcom] Happ. unfold validate.
  assert (length (Members c) =? 0 = false)%nat as ->.
  { apply Nat.eqb_neq. intros E. apply nil_length_inv in E. rewrite E in Hid. by apply elem_of_nil in Hid. }
  rewrite (proj2 (String.eqb_neq _ _) Hidn). simpl. unfold slices_Clone.
  rewrite (proj2 (contains_false _ _)) by (intros Hx; by apply Hne in Hx as [? _]).
  rewrite NoDup_has_duplicate by done.
  rewrite (proj2 (contains_true _ _)) by (by apply elem_of_sort_nodes). simpl.
  rewrite Hinit, (validateSnapshot_complete c _ initial) by done.
  pose proof (zlen_nonneg (Log st)). pose proof (sn_index _ _ _ _ Hsn). fold (snapIndex st) in *.
  destruct (Z.ltb_spec (max_u64 - snapIndex st) (zlen (Log st))); [lia |].
  rewrite (validateLog_ok _ _ _ _ _ _ _ _ m) by (rewrite ?Z.add_0_r; done || lia).
  rewrite wrap64_small by (unfold is_u64; lia).
  destruct (Z.ltb_spec (commitIndex st) (snapIndex st)); [lia |].
  destruct (Z.ltb_spec (snapIndex st + zlen (Log st)) (commitIndex st)); [lia |].
  by destruct (Z.ltb_spec (commitIndex st) (CfgAppliedIndex c)); [lia |].
Qed.

(** * The votes a node grants

    Which effects of raft/node.go grant a vote, and what they grant: only
    [handleRequestVote] does, for the candidate of the durable vote in the current
    term. *)

(** The term and the candidate of a granted vote. *)
Definition granted (e : Effect) : option (Z * NodeID) :=
  match e with
  | EffectSend m =>
    if bool_decide (MsgType m = RequestVoteResponse) && VoteGranted m
    then Some (MsgTerm m, To m) else None
  | _ => None
  end.

Definition ballots (es : list Effect) : list (Z * NodeID) := omap granted es.

Definition quiet (es : list Effect) : Prop := Forall (λ e, granted e = None) es.

Lemma quiet_ballots es : quiet es → ballots es = [].
Proof. induction 1 as [|e es He _ IH]; [done |]. unfold ballots in *. simpl. by rewrite He. Qed.

Lemma quiet_app es fs : quiet es → quiet fs → quiet (es ++ fs).
Proof. apply Forall_app_2. Qed.

Create HintDb quiet discriminated.
#[export] Hint Constants Opaque : quiet.
#[export] Hint Resolve quiet_app : quiet.

Lemma wlp_ret {A} (a : A) (Q : A → Prop) : Q a → wlp (Done a) Q.
Proof. done. Qed.

Lemma wlp_if {A} (b : bool) (x y : go A) Q : wlp x Q → wlp y Q → wlp (if b then x else y) Q.
Proof. by destruct b. Qed.

Lemma wlp_trivial {A} (m : go A) : wlp m (λ _, True).
Proof. by destruct m. Qed.

(** The shape of the quiet postconditions. *)
Definition quiet_pair {A} (p : A * list Effect) : Prop := quiet p.2.
Definition quiet_dirty (p : Node * (bool * list Effect)) : Prop := quiet p.2.2.
Definition quiet_handled (p : Node * Handled) : Prop :=
  match p.2 with inl _ => True | inr (_, es) => quiet es end.

(** Reason about a call by its lemma, and about a call that emits nothing. *)
Ltac wlp_call lem := apply wlp_bind; eapply wlp_mono; [apply lem |].
Ltac wlp_skip := wlp_call @wlp_trivial; let x := fresh "x" in intros x _.

Lemma appendFor_quiet n x : wlp (appendFor n x) (λ '(_, m), granted (EffectSend m) = None).
Proof.
  unfold appendFor. wlp_skip.
  by repeat case_if.
Qed.

Lemma broadcastLoop_quiet n targets : wlp (broadcastLoop n targets) quiet_pair.
Proof.
  revert n. induction targets as [|x targets IH]; intros n; simpl; [constructor |].
  case_if; [apply IH |]. wlp_call appendFor_quiet.
  intros [n1 m] Hm. wlp_call IH. intros [n2 es] Hes.
  by apply Forall_cons_2.
Qed.

Lemma broadcastAppend_quiet n : wlp (broadcastAppend n) quiet_pair.
Proof. unfold broadcastAppend. case_if; [done | apply broadcastLoop_quiet]. Qed.

Lemma applyLoop_quiet fuel n : wlp (applyLoop fuel n) quiet_pair.
Proof.
  revert n. induction fuel as [|fuel IH]; intros n; simpl; [constructor |].
  case_if; [| constructor]. destruct (entryAt _ _); [| done].
  wlp_call IH. intros [n2 es] Hes. by apply Forall_cons_2.
Qed.

Lemma advanceLoop_quiet fuel n old i : wlp (advanceLoop fuel n old i) quiet_pair.
Proof.
  revert i. induction fuel as [|fuel IH]; intros i; simpl; [constructor |].
  case_if; [constructor |]. case_if; [apply IH |].
  wlp_skip.
  case_if; [| apply IH]. wlp_call applyLoop_quiet.
  by intros [n2 es] Hes.
Qed.

Lemma advanceCommit_quiet n : wlp (advanceCommit n) quiet_pair.
Proof. apply advanceLoop_quiet. Qed.

Lemma becomeLeader_quiet n :
  wlp (becomeLeader n) (λ '(_, r), match r with inl _ => True | inr es => quiet es end).
Proof.
  unfold becomeLeader. case_if; [done |]. cbv zeta.
  do 2 wlp_skip.
  wlp_call advanceCommit_quiet. intros [n1 es] Hes.
  wlp_call broadcastAppend_quiet. intros [n2 es'] Hes'.
  by apply Forall_cons_2; [| apply quiet_app].
Qed.

Lemma startElection_quiet n : wlp (startElection n) quiet_handled.
Proof.
  unfold startElection. case_if; [done |]. case_if; [done |]. cbv zeta. case_if.
  - wlp_call becomeLeader_quiet. intros [n2 [err|es]] H; [done |].
    by apply Forall_cons_2.
  - apply Forall_cons_2; [done |]. apply Forall_map, Forall_true. done.
Qed.

Lemma handleRequestVoteResponse_quiet n m : wlp (handleRequestVoteResponse n m) quiet_handled.
Proof.
  unfold handleRequestVoteResponse. case_if; [constructor |]. case_if; [constructor |].
  destruct (votes n); [| done]. cbv zeta. case_if; [constructor |].
  wlp_call becomeLeader_quiet. by intros [n2 [err|es]] H.
Qed.

Lemma handleAppendEntries_quiet n m : wlp (handleAppendEntries n m) quiet_dirty.
Proof.
  unfold handleAppendEntries. case_if; [by repeat constructor |]. cbv zeta.
  case_if; [by repeat constructor |]. case_if; [by repeat constructor |].
  wlp_skip.
  destruct (checkIncoming _ _ _ _ _ _ _); [by repeat constructor |].
  destruct (appendLoop _ _ _ _ _) as [[n1 dirty] []]; [by repeat constructor |].
  wlp_skip.
  apply wlp_bind. apply (wlp_mono _ (λ p, quiet p.2.2)).
  - case_if; [| constructor]. wlp_call applyLoop_quiet. by intros [n3 es] H.
  - intros [n3 [d es]] H. apply Forall_cons_2; [done |]. apply quiet_app; [done |]. by repeat constructor.
Qed.

Lemma followerProgress_quiet n m : wlp (followerProgress n m) quiet_dirty.
Proof.
  unfold followerProgress. cbv zeta. wlp_skip. wlp_call advanceCommit_quiet. intros [n2 es] H.
  case_if; [done |]. case_if; [| done].
  wlp_call appendFor_quiet. intros [n3 a] Ha.
  apply quiet_app; [done |]. by repeat constructor.
Qed.

Lemma handleAppendEntriesResponse_quiet n m : wlp (handleAppendEntriesResponse n m) quiet_dirty.
Proof.
  unfold handleAppendEntriesResponse. cbv zeta. case_if; [constructor |].
  case_if; [| apply followerProgress_quiet]. case_if; [constructor |].
  wlp_skip.
  wlp_call appendFor_quiet. intros [n3 a] Ha. by repeat constructor.
Qed.

Lemma handleInstallSnapshot_quiet n m : wlp (handleInstallSnapshot n m) quiet_dirty.
Proof.
  unfold handleInstallSnapshot. case_if; [by repeat constructor |]. cbv zeta.
  case_if; [by repeat constructor |]. case_if; [by repeat constructor |].
  destruct (checkSuffix _ _ _); [| by repeat constructor].
  wlp_skip. by repeat constructor.
Qed.

Lemma handleInstallSnapshotResponse_quiet n m : wlp (handleInstallSnapshotResponse n m) quiet_dirty.
Proof.
  unfold handleInstallSnapshotResponse. case_if; [constructor | apply followerProgress_quiet].
Qed.

Lemma appendMembershipEntry_quiet n t m : wlp (appendMembershipEntry n t m) quiet_handled.
Proof.
  unfold appendMembershipEntry. destruct (transitionMembership _ _ _) as [? []]; [| done].
  do 2 wlp_skip.
  wlp_call advanceCommit_quiet. intros [n1 es] H.
  case_if; [| done].
  wlp_call broadcastAppend_quiet. intros [n2 es'] H'.
  by apply quiet_app.
Qed.

Lemma beginMembership_quiet n vs ls : wlp (beginMembership n vs ls) quiet_handled.
Proof.
  unfold beginMembership. repeat (case_if; [done |]). apply appendMembershipEntry_quiet.
Qed.

Lemma finalizeMembership_quiet n : wlp (finalizeMembership n) quiet_handled.
Proof.
  unfold finalizeMembership. repeat (case_if; [done |]). apply appendMembershipEntry_quiet.
Qed.

Lemma propose_quiet n data : wlp (propose n data) quiet_handled.
Proof.
  unfold propose. repeat (case_if; [done |]). cbv zeta.
  wlp_skip.
  wlp_call advanceCommit_quiet. intros [n1 es] H.
  wlp_call broadcastAppend_quiet. intros [n2 es'] H'.
  by apply quiet_app.
Qed.

Lemma takeSnapshot_quiet n i data : wlp (takeSnapshot n i data) quiet_handled.
Proof.
  unfold takeSnapshot. repeat (case_if; [done |]). cbv zeta.
  do 2 wlp_skip. constructor.
Qed.

(** ** What a step grants *)

Definition ballots_ok (n : Node) (es : list Effect) : Prop :=
  ∀ t c, (t, c) ∈ ballots es → t = currentTerm (state n) ∧ c = votedFor (state n) ∧ c ≠ "".

Lemma quiet_ok n es : quiet es → ballots_ok n es.
Proof. intros H t c. rewrite quiet_ballots by done. by intros ?%elem_of_nil. Qed.

Definition ballots_handled (p : Node * Handled) : Prop :=
  match p.2 with inl _ => True | inr (_, es) => ballots_ok p.1 es end.

Lemma handled_quiet_ok p : quiet_handled p → ballots_handled p.
Proof. destruct p as [n [err | [d es]]]; [done |]. apply quiet_ok. Qed.

Lemma handleRequestVote_ballots n m :
  From m ≠ "" → ballots_ok (handleRequestVote n m).1 (handleRequestVote n m).2.2.
Proof.
  intros Hne. unfold handleRequestVote.
  set (g := (MsgTerm m =? currentTerm (state n)) && _ && _ && _ && _).
  destruct g eqn:Eg; simpl; [| intros t c H; by apply elem_of_nil in H].
  intros t c H. unfold ballots in H. simpl in H. apply list_elem_of_singleton in H. simplify_eq.
  destruct (String.eqb_spec (votedFor (state n)) (From m)) as [E|E]; simpl; done.
Qed.

Lemma lift_quiet h : wlp h quiet_dirty → wlp (lift_handled h) ballots_handled.
Proof.
  intros H. apply wlp_bind. eapply wlp_mono; [exact H |]. intros [n [d es]] Hes.
  by apply (quiet_ok n).
Qed.

Lemma nothing_ballots n : wlp (Done (n, inr (false, []))) ballots_handled.
Proof. apply (quiet_ok n []). constructor. Qed.

Lemma dispatch_ballots n m : From m ≠ "" → wlp (dispatch n m) ballots_handled.
Proof.
  intros Hne. unfold dispatch. destruct (MsgType m).
  - pose proof (handleRequestVote_ballots n m Hne) as H.
    by destruct (handleRequestVote n m) as [n' [d es]].
  - eapply wlp_mono; [apply handleRequestVoteResponse_quiet | apply handled_quiet_ok].
  - apply lift_quiet, handleAppendEntries_quiet.
  - apply lift_quiet, handleAppendEntriesResponse_quiet.
  - apply lift_quiet, handleInstallSnapshot_quiet.
  - apply lift_quiet, handleInstallSnapshotResponse_quiet.
  - apply (quiet_ok n []). constructor.
Qed.

Lemma stepInput_ballots n i : wlp (stepInput n i) ballots_handled.
Proof.
  destruct i; simpl; try done.
  - case_if; [apply nothing_ballots |]. case_if; [done |].
    eapply wlp_mono; [apply startElection_quiet | apply handled_quiet_ok].
  - case_if; [| apply nothing_ballots]. wlp_call broadcastAppend_quiet. intros [n' es] H.
    by apply (quiet_ok n'), Forall_cons_2.
  - unfold stepMessage. case_if; [done |]. case_if; [done |].
    wlp_call dispatch_ballots.
    + intros E. rewrite E in Hif. simpl in Hif. by rewrite orb_true_r in Hif.
    + by intros [n' [err | [d es]]] H.
  - eapply wlp_mono; [apply propose_quiet | apply handled_quiet_ok].
  - eapply wlp_mono; [apply takeSnapshot_quiet | apply handled_quiet_ok].
  - eapply wlp_mono; [apply beginMembership_quiet | apply handled_quiet_ok].
  - eapply wlp_mono; [apply finalizeMembership_quiet | apply handled_quiet_ok].
Qed.
