(* ===== verification/NodeHost.v ===== *)
(** * A node behind its persistence barrier, with crashes

    The host of a node as README.md describes the persistence boundary: it applies
    [Step], writes the state of [EffectPersist] before it acknowledges the token,
    and may crash at any point, before or after the write, and restart the node
    from what is durable.  The inputs a run may take are a parameter; [host_wf] is the
    invariant of runs whose inputs are [input_ok]. *)

From S2P Require Export NodeStep.

Record Host := mkHost { hnode : Node; disk : PersistentState }.

Definition effects_of (r : Error + list Effect) : list Effect :=
  match r with inl _ => [] | inr es => es end.

Definition restart_config (c : Config) (app : Z) : Config :=
  mkConfig (ID c) (Members c) (CfgVoters c) (CfgLearners c) app.

Section runs.
Context (admissible : Node → Input → Prop) (c : Config).

Inductive hstep : Host → list Effect → Host → Prop :=
| h_step n d i n' r :
  (∀ t, i ≠ InputPersisted t) → admissible n i → Step n i = Done (n', r) →
  hstep (mkHost n d) (effects_of r) (mkHost n' d)
| h_ack n d t n' es :
  Step n (InputPersisted t) = Done (n', inr es) →
  hstep (mkHost n d) es (mkHost n' (state n))
| h_crash n d d' app n1 n2 es :
  d' = d ∨ (is_Some (pending n) ∧ d' = state n) →
  New (restart_config c app) d' = Done (inr n1) → Start n1 = Done (n2, es) →
  hstep (mkHost n d) es (mkHost n2 d').

Inductive hrun : Host → list Effect → Host → Prop :=
| hrun_nil h : hrun h [] h
| hrun_snoc h es h' es' h'' : hrun h es h' → hstep h' es' h'' → hrun h (es ++ es') h''.
End runs.

Record host_wf (c : Config) (h : Host) : Prop := {
  hw_node : node_wf (hnode h);
  hw_id : id (hnode h) = ID c;
  hw_members : members (hnode h) = sort_nodes (Members c);
  hw_initial : initialMembership_of c (sort_nodes (Members c)) = (initialMembership (hnode h), true);
  hw_disk : ∃ m, state_ok (members (hnode h)) (initialMembership (hnode h)) (disk h) m;
  hw_clean : pending (hnode h) = None → disk h = state (hnode h);
  hw_term : currentTerm (disk h) ≤ currentTerm (state (hnode h));
  hw_vote : currentTerm (state (hnode h)) = currentTerm (disk h) → votedFor (disk h) ≠ "" →
            votedFor (state (hnode h)) = votedFor (disk h) }.

(** The votes granted so far, and those queued behind a write. *)
Record ledger_ok (L : list (Z * NodeID)) (h : Host) : Prop := {
  lg_some : ∀ t x, (t, x) ∈ L → x ≠ "";
  lg_disk : ∀ t x, (t, x) ∈ L →
    t ≤ currentTerm (disk h) ∧ (t = currentTerm (disk h) → votedFor (disk h) = x);
  lg_pending : ∀ p t x, pending (hnode h) = Some p → (t, x) ∈ ballots (effects p) →
    t = currentTerm (state (hnode h)) ∧ x = votedFor (state (hnode h)) ∧ x ≠ "";
  lg_unique : ∀ t x y, (t, x) ∈ L → (t, y) ∈ L → x = y }.

(** ** Restarting *)

Lemma state_ok_u64 universe initial s m : state_ok universe initial s m → state_u64 s.
Proof.
  intros [Ht Hsn Hlog Hl Hc]. pose proof (zlen_nonneg (Log s)). pose proof (sn_index _ _ _ _ Hsn).
  fold (snapIndex s) in *. unfold is_u64 in *.
  split; try done; try (unfold is_u64; lia).
  - pose proof (snapTerm_range universe initial (currentTerm s) (Snapshot_ s) ltac:(lia) Hsn).
    unfold snapTerm, is_u64. lia.
  - apply Forall_forall. intros e He. pose proof (log_ok_elem _ _ _ _ _ _ _ _ _ Hlog He).
    unfold is_u64. lia.
Qed.

Lemma restart_ok c h d app :
  host_wf c h → d = disk h ∨ d = state (hnode h) → app ≤ commitIndex d →
  ∃ n1 n2 es, New (restart_config c app) d = Done (inr n1) ∧ Start n1 = Done (n2, es).
Proof.
  intros [Hn Hid Hm Hin [m Hd] _ _ _] Hor Happ.
  assert (∃ m, state_ok (sort_nodes (Members c)) (initialMembership (hnode h)) d m) as [m1 Hok].
  { rewrite <- Hm. destruct Hor as [-> | ->]; eauto. eexists. apply (nw_state _ Hn). }
  pose proof Hn as [Hcan Hidin _ _ _ _]. rewrite Hm, Hid in Hidin. rewrite Hm in Hcan.
  assert (validate (restart_config c app) d = None) as Hv.
  { eapply validate_complete; try done; simpl; [by apply elem_of_sort_nodes |].
    destruct Hcan as (_ & _ & Hx). by apply Hx in Hidin as [? _]. }
  destruct (wp_inv _ _ (New_ok (restart_config c app) d (state_ok_u64 _ _ _ _ Hok))) as (r & Hr & Hspec).
  destruct r as [err|n1]; [congruence |]. destruct Hspec as [_ Hct].
  destruct (Start_ok _ _ _ Hct) as [Hs _]. eauto.
Qed.

Lemma New_initial c st n1 :
  New c st = Done (inr n1) →
  initialMembership_of c (sort_nodes (Members c)) = (initialMembership n1, true).
Proof.
  unfold New. rewrite cloneState_id. destruct (validate c st) eqn:Hv; [done |].
  pose proof (validate_members c st Hv) as (_ & _ & initial & Hinit). unfold slices_Clone.
  rewrite Hinit. unfold refreshMembership. destruct (membershipAt _ _); [| done].
  simpl. by intros [= <-].
Qed.

Lemma started_wf c c' st n1 n2 es :
  state_u64 st → New c st = Done (inr n1) → Start n1 = Done (n2, es) →
  ID c' = ID c → Members c' = Members c →
  initialMembership_of c' (sort_nodes (Members c)) = initialMembership_of c (sort_nodes (Members c)) →
  host_wf c' (mkHost n2 st) ∧ pending n2 = None ∧ state n2 = st.
Proof.
  intros Hu Hnew Hstart HI HM Hinit. pose proof (New_initial _ _ _ Hnew) as Hin.
  pose proof (New_ok c st Hu) as H. rewrite Hnew in H. destruct H as [_ Hct].
  destruct (Start_ok _ _ _ Hct) as [Hs Hwf]. rewrite Hs in Hstart. simplify_eq.
  destruct Hct as [H1 H2 H3 H4 H5 [H6 H7] H8 H9 H10]. split_and!; try done.
  split; simpl; try done; try congruence.
  all: first [by exists (membership n1) | by rewrite H3].
Qed.

(** ** Votes of one step *)

Lemma Step_ballots n i :
  node_wf n → pending n = None → input_ok n i → (∀ t, i ≠ InputPersisted t) →
  wp (Step n i) (λ '(n', r), step_outcome n (n', r) ∧
    match pending n' with
    | Some p => ballots_ok n' (effects p) ∧ ballots (effects_of r) = []
    | None => ballots_ok n' (effects_of r)
    end).
Proof.
  intros Hn Hp Hi Hne.
  pose proof (Step_ok n i Hn Hp Hi Hne) as Hok.
  assert (wlp (Step n i) (λ '(n', r),
    match pending n' with
    | Some p => ballots_ok n' (effects p) ∧ ballots (effects_of r) = []
    | None => ballots_ok n' (effects_of r)
    end)) as Hb.
  { rewrite Step_idle by done.
    pose proof (wp_wlp _ _ _ (stepInput_ok n i Hn Hi) (stepInput_ballots n i)) as H.
    apply wlp_bind. destruct (stepInput n i) as [[n' r]|]; [| done]. simpl in *.
    destruct H as [(_ & Hrel & _) Hbal]. apply sr_pending in Hrel. rewrite Hp in Hrel.
    unfold ballots_handled in Hbal. simpl in Hbal.
    destruct r as [err | [[] es]]; simpl; rewrite ?Hrel; try done.
    intros t x H. by apply elem_of_nil in H. }
  pose proof (wp_wlp _ _ _ Hok Hb) as H. eapply wp_mono; [exact H |]. by intros [n' r].
Qed.

(** ** The invariant of a run *)

Lemma set_ack n t n' es :
  Step n (InputPersisted t) = Done (n', inr es) →
  ∃ p, pending n = Some p ∧ t = token p ∧ n' = set_pending n (nextWriteToken n) None ∧ es = effects p.
Proof.
  simpl. unfold acknowledgePersistence. intros H. destruct (pending n) as [p|]; [| by simplify_eq].
  destruct ((t =? 0) || negb (t =? token p)) eqn:E; simplify_eq. exists p.
  apply orb_false_iff in E as [_ E]. rewrite negb_false_iff in E. reflect. done.
Qed.

Lemma hstep_wf c h es h' : hstep input_ok c h es h' → host_wf c h → host_wf c h'.
Proof.
  intros Hstep [Hn Hid Hm Hin Hd Hclean Ht Hv].
  destruct Hstep as [n d i n' r Hne Hi Hs | n d t n' es Hs | n d d' app n1 n2 es Hd' Hnew Hst]; simpl in *.
  - pose proof (Step_any n i Hn Hi) as Hany. rewrite Hs in Hany. simpl in Hany.
    destruct Hany as [Hn' Hh]. pose proof Hh as [Hid' Hm' Hin' Ht' Hv' _ _ _ _].
    split; simpl; try congruence.
    + by rewrite Hm', Hin'.
    + intros Hp'. destruct (pending n) as [p|] eqn:Hp.
      { rewrite (Step_waiting n i p Hp Hne) in Hs. by simplify_eq. }
      pose proof (Step_ok n i Hn Hp Hi Hne) as Hok. rewrite Hs in Hok. simpl in Hok.
      destruct Hok as (_ & _ & Hr). rewrite (Hclean eq_refl).
      destruct r as [err|es]; [by destruct Hr | destruct Hr as [[? _] | (q & _ & ?)]; [done | congruence]].
    + lia.
    + intros E Hne'. assert (currentTerm (state n) = currentTerm d) as E' by lia.
      rewrite Hv'; [by apply Hv | congruence |]. by rewrite Hv.
  - apply set_ack in Hs as (p & Hp & _ & -> & _).
    split; simpl; try done; [by apply set_pending_wf | eexists; apply (nw_state _ Hn)].
  - assert (∃ m, state_ok (members n) (initialMembership n) d' m) as [m Hok].
    { destruct Hd' as [-> | [_ ->]]; [done |]. eexists. apply (nw_state _ Hn). }
    by apply (started_wf (restart_config c app) c d' n1 n2 es (state_ok_u64 _ _ _ _ Hok)).
Qed.

Lemma ballots_app es fs : ballots (es ++ fs) = ballots es ++ ballots fs.
Proof. apply omap_app. Qed.

(** New ballots for the durable vote of the current term keep the ledger. *)
Lemma ledger_extend L h (bs : list (Z * NodeID)) h' :
  ledger_ok L h →
  currentTerm (disk h) ≤ currentTerm (disk h') →
  (currentTerm (disk h') = currentTerm (disk h) → votedFor (disk h) ≠ "" →
   votedFor (disk h') = votedFor (disk h)) →
  (∀ t x, (t, x) ∈ bs → t = currentTerm (disk h') ∧ x = votedFor (disk h') ∧ x ≠ "") →
  (∀ p t x, pending (hnode h') = Some p → (t, x) ∈ ballots (effects p) →
    t = currentTerm (state (hnode h')) ∧ x = votedFor (state (hnode h')) ∧ x ≠ "") →
  ledger_ok (L ++ bs) h'.
Proof.
  intros [Hsome Hdisk _ Huniq] Ht Hv Hnew Hpend.
  assert (∀ t x, (t, x) ∈ L → t ≤ currentTerm (disk h') ∧
            (t = currentTerm (disk h') → votedFor (disk h') = x)) as Hold.
  { intros t x Hin. destruct (Hdisk t x Hin) as [Hle Heq]. split; [lia |].
    intros E. assert (currentTerm (disk h') = currentTerm (disk h)) as E' by lia.
    rewrite Hv; [apply Heq; lia | done |]. rewrite Heq by lia. by eapply Hsome. }
  split; try done.
  - intros t x [Hin|Hin]%elem_of_app; [by eapply Hsome | by apply Hnew in Hin as (_ & _ & ?)].
  - intros t x [Hin|Hin]%elem_of_app; [by apply Hold | apply Hnew in Hin as (? & ? & _)].
    split; [lia | done].
  - intros t x y [Hx|Hx]%elem_of_app [Hy|Hy]%elem_of_app.
    + by eapply Huniq.
    + apply Hold in Hx as [_ Hx]. apply Hnew in Hy as (-> & -> & _). by rewrite Hx.
    + apply Hold in Hy as [_ Hy]. apply Hnew in Hx as (-> & -> & _). by rewrite Hy.
    + apply Hnew in Hx as (_ & -> & _). by apply Hnew in Hy as (_ & -> & _).
Qed.

Lemma start_effects_quiet n : quiet (start_effects n).
Proof.
  unfold start_effects, apply_effects. cbv zeta. repeat apply quiet_app.
  - case_if; by repeat constructor.
  - apply Forall_map, Forall_true. done.
  - case_if; by repeat constructor.
Qed.

Lemma hstep_ledger c h es h' L :
  host_wf c h → hstep input_ok c h es h' → ledger_ok L h → ledger_ok (L ++ ballots es) h'.
Proof.
  intros Hh Hstep HL. pose proof Hh as [Hn _ _ _ Hd Hclean Ht Hv].
  destruct Hstep as [n d i n' r Hne Hi Hs | n d t n' es Hs | n d d' app n1 n2 es Hd' Hnew Hst]; simpl in *.
  - destruct (pending n) as [p|] eqn:Hp.
    { rewrite (Step_waiting n i p Hp Hne) in Hs. simplify_eq. apply (ledger_extend _ (mkHost n' d)); try done.
      - intros t x Hx. by apply elem_of_nil in Hx.
      - apply HL. }
    pose proof (Step_ballots n i Hn Hp Hi Hne) as Hb. rewrite Hs in Hb. simpl in Hb.
    destruct Hb as [(_ & _ & Hr) Hb]. apply (ledger_extend _ (mkHost n d)); simpl; try done.
    + intros t x Hx. destruct (pending n') as [q|] eqn:Hp'.
      { destruct Hb as [_ Hb]. rewrite Hb in Hx. by apply elem_of_nil in Hx. }
      assert (state n' = d) as <-; [| by apply Hb].
      rewrite (Hclean eq_refl).
      destruct r as [err|fs]; [by destruct Hr | destruct Hr as [[? _] | (q & _ & ?)]; [done | congruence]].
    + intros q t x Hp' Hx. rewrite Hp' in Hb. by apply Hb.
  - apply set_ack in Hs as (p & Hp & _ & -> & ->).
    apply (ledger_extend _ (mkHost n d)); simpl; try done.
    intros t' x Hx. by eapply (lg_pending _ _ HL).
  - assert (∃ m, state_ok (members n) (initialMembership n) d' m) as [m Hok].
    { destruct Hd' as [-> | [_ ->]]; [done |]. eexists. apply (nw_state _ Hn). }
    pose proof (state_ok_u64 _ _ _ _ Hok) as Hu.
    destruct (started_wf (restart_config c app) c d' n1 n2 es Hu Hnew Hst) as (_ & Hp2 & _); try done.
    pose proof (New_ok (restart_config c app) d' Hu) as Hct. rewrite Hnew in Hct. destruct Hct as [_ Hct].
    destruct (Start_ok _ _ _ Hct) as [Hs _]. rewrite Hs in Hst. simplify_eq.
    rewrite quiet_ballots by apply start_effects_quiet.
    apply (ledger_extend _ (mkHost n d)); simpl; try done.
    + destruct Hd' as [-> | [_ ->]]; [lia | done].
    + destruct Hd' as [-> | [_ ->]]; done.
    + intros t x Hx. by apply elem_of_nil in Hx.
    + intros p t x E. simpl in Hp2. congruence.
Qed.

Lemma hrun_inv c h es h' :
  hrun input_ok c h es h' → host_wf c h → ledger_ok [] h → host_wf c h' ∧ ledger_ok (ballots es) h'.
Proof.
  induction 1 as [h | h es h1 es' h2 Hrun IH Hstep]; intros Hh HL; [done |].
  destruct (IH Hh HL) as [Hh1 HL1]. split; [by eapply hstep_wf |].
  rewrite ballots_app. by eapply hstep_ledger.
Qed.

Lemma ledger_nil h : pending (hnode h) = None → ledger_ok [] h.
Proof. intros Hp. split; try (intros; by match goal with H : _ ∈ [] |- _ => apply elem_of_nil in H end). congruence. Qed.
