(* ===== verification/Campaign.v ===== *)
(** * What a step does to a campaign

    The term, the vote, the role and the collected votes of a node under each handler of
    raft/node.go, without any assumption on logs or messages: these fields decide who
    may lead a term.  [calm] is the change of a handler that takes no part in elections;
    [campaign] is the invariant of the nodes that do. *)

From S2P Require Export NodeHost.

(** ** Handlers that take no part in elections *)

Record same_ballot (n n' : Node) : Prop := {
  sb_id : id n' = id n;
  sb_members : members n' = members n;
  sb_pending : pending n' = pending n;
  sb_token : nextWriteToken n' = nextWriteToken n;
  sb_term : currentTerm (state n') = currentTerm (state n);
  sb_vote : votedFor (state n') = votedFor (state n) }.

#[export] Instance same_ballot_equiv : Equivalence same_ballot.
Proof.
  split; [by split | intros n1 n2 []; by split |].
  intros n1 n2 n3 [] []. split; congruence.
Qed.

(** The campaign goes on as it was, or the node has given it up. *)
Definition same_campaign (n n' : Node) : Prop :=
  role n' = role n ∧ votes n' = votes n ∧ electionVotes n' = electionVotes n ∧
  electionMembership n' = electionMembership n.

Definition resigned (n' : Node) : Prop := role n' = Follower ∧ votes n' = None.

Definition calm (n n' : Node) : Prop :=
  same_ballot n n' ∧ (same_campaign n n' ∨ resigned n').

#[export] Instance calm_preorder : PreOrder calm.
Proof.
  split; [by repeat split; left |].
  intros n1 n2 n3 [Hb [Hc|Hr]] [Hb' [Hc'|Hr']];
    (split; [by etrans |]); unfold same_campaign, resigned in *.
  - left. destruct_and!. split_and!; congruence.
  - by right.
  - right. destruct_and!. split; congruence.
  - by right.
Qed.

(** What a node sends names itself and its term. *)
Definition sent_by (n : Node) (e : Effect) : Prop :=
  match e with
  | EffectSend m => From m = id n ∧ MsgTerm m = currentTerm (state n)
  | EffectPersist _ _ => False
  | _ => True
  end.

Definition calm_pair (n : Node) (p : Node * list Effect) : Prop :=
  calm n p.1 ∧ Forall (sent_by n) p.2.
Definition calm_dirty (n : Node) (p : Node * (bool * list Effect)) : Prop :=
  calm n p.1 ∧ Forall (sent_by n) p.2.2.

Lemma sent_by_calm n n' es : same_ballot n n' → Forall (sent_by n') es → Forall (sent_by n) es.
Proof.
  intros [Hid _ _ _ Ht _] H. apply (Forall_impl _ _ _ H). intros [|m| | | |]; simpl; try done.
  by rewrite Hid, Ht.
Qed.

(** Sequential composition of two quiet steps. *)
Lemma calm_app n n1 es (p : Node * list Effect) :
  calm_pair n (n1, es) → calm_pair n1 p → calm_pair n (p.1, es ++ p.2).
Proof.
  intros [Hc He] [Hc' He']. split; simpl in *; [by etrans |].
  apply Forall_app_2; [done |]. eapply sent_by_calm; [apply Hc | done].
Qed.

Lemma calm_cons n e p : sent_by n e → calm_pair n p → calm_pair n (p.1, e :: p.2).
Proof. intros He [Hc Hes]. split; [done | by constructor]. Qed.

Lemma calm_step n n1 p : calm n n1 → calm_pair n1 p → calm_pair n p.
Proof. intros Hc [Hc' He]. split; [by etrans |]. eapply sent_by_calm; [apply Hc | done]. Qed.

Lemma calm_dirty_step n n1 p : calm n n1 → calm_dirty n1 p → calm_dirty n p.
Proof. intros Hc [Hc' He]. split; [by etrans |]. eapply sent_by_calm; [apply Hc | done]. Qed.

Lemma becomeFollower_calm n t l : t ≤ currentTerm (state n) → calm n (becomeFollower n t l).
Proof.
  intros Ht. unfold becomeFollower. cbv zeta. simpl.
  destruct (Z.ltb_spec (currentTerm (state n)) t); [lia |].
  split; [by split | by right].
Qed.

Create HintDb calm discriminated.
#[export] Hint Constants Opaque : calm.
#[export] Hint Extern 1 (calm ?n ?n) => reflexivity : calm.

(** A node that differs only in fields that elections do not read. *)
Ltac calm_refl := split; [by split | left; by split_and!].

Lemma calm_ret n n' : calm n n' → wlp (Done n') (calm n).
Proof. done. Qed.

Lemma refreshMembership_calm n : wlp (refreshMembership n) (calm n).
Proof. unfold refreshMembership. wlp_skip. calm_refl. Qed.

Lemma appendFor_calm n x :
  wlp (appendFor n x) (λ p, calm n p.1 ∧ sent_by n (EffectSend p.2)).
Proof.
  unfold appendFor. wlp_skip.
  case_if; [split; [calm_refl | done] |]. cbv zeta. case_if; split; [calm_refl | done | calm_refl | done].
Qed.

Lemma broadcastLoop_calm n targets : wlp (broadcastLoop n targets) (calm_pair n).
Proof.
  revert n. induction targets as [|x targets IH]; intros n; simpl; [by split |].
  case_if; [apply IH |]. wlp_call appendFor_calm. intros [n1 m] [Hc Hm].
  wlp_call IH. intros [n2 es] H. apply (calm_cons n _ (n2, es)); [done |].
  by eapply calm_step.
Qed.

Lemma broadcastAppend_calm n : wlp (broadcastAppend n) (calm_pair n).
Proof. unfold broadcastAppend. case_if; [done | apply broadcastLoop_calm]. Qed.

Lemma applyLoop_calm fuel n : wlp (applyLoop fuel n) (calm_pair n).
Proof.
  revert n. induction fuel as [|fuel IH]; intros n; simpl; [by split |].
  case_if; [| by split]. destruct (entryAt _ _); [| done].
  wlp_call IH. intros [n2 es] H. apply (calm_cons n _ (n2, es)); [done |].
  eapply calm_step; [| exact H]. calm_refl.
Qed.

Lemma advanceLoop_calm fuel n old i : wlp (advanceLoop fuel n old i) (calm_pair n).
Proof.
  revert i. induction fuel as [|fuel IH]; intros i; simpl; [by split |].
  case_if; [by split |]. case_if; [apply IH |]. wlp_skip.
  case_if; [| apply IH]. wlp_call applyLoop_calm.
  intros [n2 es] H. apply (calm_step n (set_commit n i)) in H; [| calm_refl].
  case_if; [| done]. destruct H as [H He]. split; [| done]. etrans; [exact H |].
  by apply becomeFollower_calm.
Qed.

Lemma advanceCommit_calm n : wlp (advanceCommit n) (calm_pair n).
Proof. apply advanceLoop_calm. Qed.

Lemma appendLoop_calm n prev off d es :
  calm n (appendLoop n prev off d es).1.1.
Proof.
  revert n off d. induction es as [|e es IH]; intros n off d; simpl; [done |].
  case_if; [apply IH |].
  assert (calm n (if wrap64 (prev + off + 1) <=? lastIndex n
                  then truncateFrom n (wrap64 (prev + off + 1)) else n)) as Ht.
  { unfold truncateFrom. repeat case_if; calm_refl || done. }
  case_if; [case_if; [done |] |]; (etrans; [exact Ht |]); [| apply IH].
  etrans; [| apply IH]. calm_refl.
Qed.

Lemma handleAppendEntries_calm n m :
  MsgTerm m ≤ currentTerm (state n) → wlp (handleAppendEntries n m) (calm_dirty n).
Proof.
  intros Hm. unfold handleAppendEntries. case_if; [split; [done | by repeat constructor] |].
  set (n1 := if _ || _ then _ else n). cbv zeta.
  assert (calm n n1) as Hc by (subst n1; case_if; [by apply becomeFollower_calm | done]).
  clearbody n1. eapply wlp_mono; [| intros p Hp; exact (calm_dirty_step n n1 p Hc Hp)].
  case_if; [split; [done | by repeat constructor] |].
  case_if; [split; [done | by repeat constructor] |].
  wlp_skip. destruct (checkIncoming _ _ _ _ _ _ _); [split; [done | by repeat constructor] |].
  pose proof (appendLoop_calm n1 (PrevLogIndex m) 0 false (Entries m)) as Hl.
  destruct (appendLoop _ _ _ _ _) as [[n2 dirty] early]; simpl in Hl.
  assert (Forall (sent_by n1) [EffectResetElectionTimer]) as Hr by by repeat constructor.
  eapply wlp_mono; [| intros p Hp; exact (calm_dirty_step n1 n2 p Hl Hp)].
  destruct early; [split; [done | by repeat constructor] |].
  apply wlp_bind, (wlp_mono _ (calm n2)).
  { case_if; [apply refreshMembership_calm | by apply calm_ret]. }
  intros n3 H3. eapply wlp_mono; [| intros p Hp; exact (calm_dirty_step n2 n3 p H3 Hp)].
  apply wlp_bind, (wlp_mono _ (calm_dirty n3)).
  - case_if; [| by split]. wlp_call applyLoop_calm. intros [n4 es] H4.
    apply (calm_step n3) in H4; [done | calm_refl].
  - intros [n4 [d es]] [H4 He]. split; simpl in *; [done |]. constructor; [done |].
    apply Forall_app_2; [done |]. destruct H4 as [[] _]. repeat constructor; simpl; congruence.
Qed.

Lemma followerProgress_calm n m : wlp (followerProgress n m) (calm_dirty n).
Proof.
  unfold followerProgress. cbv zeta. apply wlp_bind, (wlp_mono _ (calm n)).
  { case_if; [| by apply calm_ret]. do 2 wlp_skip. apply calm_ret. calm_refl. }
  intros n1 H1. eapply wlp_mono; [| intros p Hp; exact (calm_dirty_step n n1 p H1 Hp)].
  wlp_call advanceCommit_calm. intros [n2 es] H2.
  case_if; [done |]. case_if; [| done].
  wlp_call appendFor_calm. intros [n3 a] [H3 Ha].
  apply (calm_app n1 n2 es (n3, [EffectSend a])); [done |]. split; [done | by apply Forall_singleton].
Qed.

Lemma handleAppendEntriesResponse_calm n m : wlp (handleAppendEntriesResponse n m) (calm_dirty n).
Proof.
  unfold handleAppendEntriesResponse. cbv zeta. case_if; [by split |].
  case_if; [| apply followerProgress_calm]. case_if; [by split |].
  wlp_skip. wlp_call appendFor_calm. intros [n3 a] [H3 Ha].
  split; simpl; [| by apply Forall_singleton]. etrans; [| exact H3]. calm_refl.
Qed.

Lemma handleInstallSnapshot_calm n m :
  MsgTerm m ≤ currentTerm (state n) → wlp (handleInstallSnapshot n m) (calm_dirty n).
Proof.
  intros Hm. unfold handleInstallSnapshot. case_if; [split; [done | by repeat constructor] |].
  set (n1 := if _ || _ then _ else n). cbv zeta.
  assert (calm n n1) as Hc by (subst n1; case_if; [by apply becomeFollower_calm | done]).
  clearbody n1. eapply wlp_mono; [| intros p Hp; exact (calm_dirty_step n n1 p Hc Hp)].
  case_if; [split; [done | by repeat constructor] |].
  case_if; [split; [done | by repeat constructor] |].
  destruct (checkSuffix _ _ _); [| split; [done | by repeat constructor]].
  wlp_call refreshMembership_calm. intros n2 H2.
  assert (calm n1 n2) as H12 by (etrans; [| exact H2]; calm_refl).
  split; [done |]. destruct H12 as [[] _]. repeat constructor; simpl; congruence.
Qed.

Lemma handleInstallSnapshotResponse_calm n m :
  wlp (handleInstallSnapshotResponse n m) (calm_dirty n).
Proof.
  unfold handleInstallSnapshotResponse. case_if; [by split | apply followerProgress_calm].
Qed.

(** Inputs that leave the campaign alone and fail without an effect. *)
Definition calm_handled (n : Node) (p : Node * Handled) : Prop :=
  calm n p.1 ∧ match p.2 with inl _ => True | inr (_, es) => Forall (sent_by n) es end.

Lemma calm_handled_step n n1 p : calm n n1 → calm_handled n1 p → calm_handled n p.
Proof.
  intros Hc [Hc' He]. split; [by etrans |].
  destruct (p.2) as [|[d es]]; [done |]. eapply sent_by_calm; [apply Hc | done].
Qed.

Lemma calm_log n l n' : calm (set_log n l) n' → calm n n'.
Proof. intros H. etrans; [| exact H]. calm_refl. Qed.

Lemma appendMembershipEntry_calm n t m : wlp (appendMembershipEntry n t m) (calm_handled n).
Proof.
  unfold appendMembershipEntry. destruct (transitionMembership _ _ _) as [? []]; [| by split].
  wlp_call refreshMembership_calm. intros n1 H1%calm_log. wlp_skip.
  wlp_call advanceCommit_calm. intros [n2 es] H2.
  apply (calm_step n) in H2; [| etrans; [exact H1 |]; calm_refl].
  case_if; [| done]. wlp_call broadcastAppend_calm. intros [n3 es'] H3.
  exact (calm_app n n2 es (n3, es') H2 H3).
Qed.

Lemma beginMembership_calm n vs ls : wlp (beginMembership n vs ls) (calm_handled n).
Proof.
  unfold beginMembership. repeat (case_if; [by split |]). apply appendMembershipEntry_calm.
Qed.

Lemma finalizeMembership_calm n : wlp (finalizeMembership n) (calm_handled n).
Proof.
  unfold finalizeMembership. repeat (case_if; [by split |]). apply appendMembershipEntry_calm.
Qed.

Lemma propose_calm n data : wlp (propose n data) (calm_handled n).
Proof.
  unfold propose. repeat (case_if; [by split |]). cbv zeta. wlp_skip.
  wlp_call advanceCommit_calm. intros [n1 es] H1. apply (calm_step n) in H1; [| calm_refl].
  wlp_call broadcastAppend_calm. intros [n2 es'] H2.
  exact (calm_app n n1 es (n2, es') H1 H2).
Qed.

Lemma takeSnapshot_calm n i data : wlp (takeSnapshot n i data) (calm_handled n).
Proof.
  unfold takeSnapshot. repeat (case_if; [by split |]). cbv zeta. wlp_skip.
  wlp_call refreshMembership_calm. intros n1 H1%calm_log. split; [| by constructor].
  etrans; [| exact H1]. calm_refl.
Qed.

(** ** Handlers that run elections *)

(** [nl] leads with the votes of [n]. *)
Record leads (n nl : Node) : Prop := {
  ld_ballot : same_ballot n nl;
  ld_role : role nl = Leader;
  ld_votes : votes nl = votes n;
  ld_electionVotes : electionVotes nl = filter (λ member, voted n member = true) (members n);
  ld_membership : electionMembership nl = membership n }.

Lemma becomeLeader_leads n :
  wlp (becomeLeader n) (λ '(n', r),
    match r with
    | inl _ => n' = n ∧ lastIndex n = max_u64
    | inr es => (∃ nl, leads n nl ∧ calm nl n') ∧ Forall (sent_by n) es
    end).
Proof.
  unfold becomeLeader. case_if; [by apply Z.eqb_eq in Hif |]. cbv zeta. do 2 wlp_skip.
  wlp_call advanceCommit_calm. intros [n1 es] H1.
  wlp_call broadcastAppend_calm. intros [n2 es'] H2.
  pose proof (calm_app _ _ _ (n2, es') H1 H2) as [Hc He]. split; [| constructor; [done | exact He]].
  eexists. split; [| exact Hc]. by split; [split | ..]; simpl; rewrite ?CloneMembership_id.
Qed.

(** Who voted for a campaign is the node itself or is vouched for by [G]; a leader holds a
    quorum of the configuration it was elected in. *)
Section campaign.
Context (G : Z → NodeID → Prop).

Record running (n : Node) : Prop := {
  rn_vote : votedFor (state n) = id n;
  rn_votes : ∀ v, voted n v = true → v = id n ∨ G (currentTerm (state n)) v;
  rn_leader : role n = Leader →
    quorum (electionMembership n) (voted n) = true ∧
    electionVotes n = filter (λ member, voted n member = true) (members n) }.

Definition campaign (n : Node) : Prop := role n ≠ Follower → running n.

Lemma voted_votes n n' : votes n' = votes n → voted n' = voted n.
Proof. unfold voted. by intros ->. Qed.

Lemma campaign_calm n n' : calm n n' → campaign n → campaign n'.
Proof.
  intros [[Hid Hm _ _ Ht Hv] [(Hr & Hvo & Hev & Hem) | [Hr _]]] Hn Hne; [| congruence].
  rewrite Hr in Hne. destruct (Hn Hne) as [H1 H2 H3].
  pose proof (voted_votes _ _ Hvo) as Hvd. split; rewrite ?Hid, ?Ht, ?Hvd; [congruence | done |].
  rewrite Hr, Hev, Hem, Hm. exact H3.
Qed.

Lemma campaign_leads n nl :
  leads n nl → votedFor (state n) = id n →
  (∀ v, voted n v = true → v = id n ∨ G (currentTerm (state n)) v) →
  quorum (membership n) (voted n) = true → campaign nl.
Proof.
  intros [[Hid Hm _ _ Ht Hv] Hr Hvo Hev Hem] H1 H2 Hq _.
  pose proof (voted_votes _ _ Hvo) as Hvd. split; rewrite ?Hid, ?Ht, ?Hvd; [congruence | done |].
  rewrite Hev, Hem, Hm. done.
Qed.
End campaign.

(** What one input may do to the term, the vote and the campaign of a node. *)
Record ballot_step (n n' : Node) : Prop := {
  bs_id : id n' = id n;
  bs_members : members n' = members n;
  bs_pending : pending n' = pending n;
  bs_token : nextWriteToken n' = nextWriteToken n;
  bs_term : currentTerm (state n) ≤ currentTerm (state n');
  bs_u64 : is_u64 (currentTerm (state n'));
  bs_vote : currentTerm (state n') = currentTerm (state n) → votedFor (state n) ≠ "" →
            votedFor (state n') = votedFor (state n) }.

Definition campaign_ok (G : Z → NodeID → Prop) (n : Node) (p : Node * Handled) : Prop :=
  ballot_step n p.1 ∧ campaign G p.1 ∧
  match p.2 with
  | inl _ => same_ballot n p.1
  | inr (dirty, es) => Forall (sent_by p.1) es ∧ (dirty = false → same_ballot n p.1)
  end.

Lemma same_ballot_step n n' :
  same_ballot n n' → is_u64 (currentTerm (state n)) → ballot_step n n'.
Proof. intros [] Hu. split; try done; congruence || lia. Qed.

Section steps.
Context (G : Z → NodeID → Prop) (n : Node).
Context (Hu : is_u64 (currentTerm (state n))) (Hc : campaign G n).

Lemma calm_handled_campaign p : calm_handled n p → campaign_ok G n p.
Proof.
  intros [Hcalm He]. pose proof Hcalm as [Hb _].
  split_and!; [by apply same_ballot_step | by eapply campaign_calm |].
  destruct (p.2) as [|[d es]]; [done |]. split; [| done].
  eapply sent_by_calm; [by symmetry | exact He].
Qed.

Lemma lift_calm h : wlp h (calm_dirty n) → wlp (lift_handled h) (campaign_ok G n).
Proof.
  intros H. apply wlp_bind. eapply wlp_mono; [exact H |]. intros [n' [d es]] Hes.
  by apply calm_handled_campaign.
Qed.

Lemma campaign_same : campaign_ok G n (n, inr (false, [])).
Proof. apply calm_handled_campaign. split; [reflexivity | by simpl]. Qed.

Lemma campaign_error err : campaign_ok G n (n, inl err).
Proof. apply calm_handled_campaign. split; [reflexivity | by simpl]. Qed.

(** A new leader and what follows in the same step. *)
Lemma elected_campaign n1 nl n' :
  ballot_step n n1 → leads n1 nl → calm nl n' →
  votedFor (state n1) = id n1 →
  (∀ v, voted n1 v = true → v = id n1 ∨ G (currentTerm (state n1)) v) →
  quorum (membership n1) (voted n1) = true →
  ballot_step n n' ∧ campaign G n' ∧ same_ballot n1 n'.
Proof.
  intros [] Hl Hcalm H1 H2 Hq.
  assert (same_ballot n1 n') as Hb by (etrans; [apply Hl | apply Hcalm]).
  split_and!; [| eapply campaign_calm, campaign_leads; done | done].
  destruct Hb. split; congruence || (intros; rewrite ?sb_term0, ?sb_vote0 in *; auto).
Qed.

Lemma startElection_campaign :
  currentTerm (state n) ≠ max_u64 → wlp (startElection n) (campaign_ok G n).
Proof.
  intros Hmax. unfold startElection. case_if; [apply campaign_error |].
  case_if; [apply campaign_error |]. cbv zeta. set (n1 := set_term_vote _ _ _).
  assert (currentTerm (state n1) = currentTerm (state n) + 1) as Ht.
  { change (wrap64 (currentTerm (state n) + 1) = currentTerm (state n) + 1).
    apply wrap64_small. unfold is_u64 in *. lia. }
  assert (ballot_step n n1) as Hb.
  { unfold is_u64 in Hu. split; try done; rewrite Ht; [lia | unfold is_u64; lia | lia]. }
  assert (∀ v, voted n1 v = true → v = id n1 ∨ G (currentTerm (state n1)) v) as Hv.
  { intros v Hv. left. unfold voted in Hv. simpl in Hv.
    apply bool_decide_true_iff in Hv. by apply elem_of_singleton in Hv. }
  case_if.
  - wlp_call becomeLeader_leads. intros [n2 [err|es]].
    + intros [-> Hlast]. reflect. destruct Hif0 as [Hq|Hne]; [| done].
      erewrite quorum_ext in Hif1; [rewrite Hif1 in Hq; discriminate |].
      intros v. unfold voted. simpl. apply Bool.eq_iff_eq_true. reflect. set_solver.
    + intros [(nl & Hl & Hcalm) He].
      destruct (elected_campaign n1 nl n2 Hb Hl Hcalm) as (? & ? & Hb2); try done.
      split_and!; try done. split; [| done]. constructor; [done |].
      eapply sent_by_calm; [by symmetry | exact He].
  - split_and!; [done | |].
    + intros _. by split.
    + split; [| done]. constructor; [done |]. apply Forall_map, Forall_true. done.
Qed.

Lemma handleRequestVote_campaign m :
  id n ≠ "" → campaign_ok G n ((handleRequestVote n m).1, inr (handleRequestVote n m).2).
Proof.
  intros Hid. unfold handleRequestVote.
  set (g := (MsgTerm m =? currentTerm (state n)) && _ && _ && _ && _). cbv zeta.
  destruct (g && negb (String.eqb (votedFor (state n)) (From m))) eqn:Ed; simpl.
  - subst g. reflect. destruct Ed as [((((_ & _) & _) & Hv) & _) Hne].
    destruct Hv as [Hv|]; [| done]. split_and!; simpl.
    + split; simpl; try done.
    + intros Hr. destruct (Hc Hr) as [Hid' _ _]. congruence.
    + case_if; by repeat constructor.
  - apply calm_handled_campaign. split; simpl; [done |]. destruct g; by repeat constructor.
Qed.

Lemma handleRequestVoteResponse_campaign m :
  (VoteGranted m = true → MsgTerm m = currentTerm (state n) → G (MsgTerm m) (From m)) →
  wlp (handleRequestVoteResponse n m) (campaign_ok G n).
Proof.
  intros Hgrant. unfold handleRequestVoteResponse. case_if; [apply campaign_same |].
  case_if; [apply campaign_same |]. destruct (votes n) as [v|] eqn:Ev; [| done]. cbv zeta.
  reflect. destruct Hif as [[Hrole Hterm] Hg]. specialize (Hgrant Hg Hterm).
  set (n1 := set_votes n _).
  assert (same_ballot n n1) as Hb by by split.
  assert (running G n) as [H1 H2 _] by (apply Hc; congruence).
  assert (∀ w, voted n1 w = true → w = id n1 ∨ G (currentTerm (state n1)) w) as Hv.
  { intros w Hw. unfold voted in Hw. simpl in Hw. reflect.
    apply elem_of_union in Hw as [Hw|Hw].
    - apply elem_of_singleton in Hw as ->. right. by rewrite Hterm in Hgrant.
    - apply (H2 w). unfold voted. rewrite Ev. by apply bool_decide_true_iff. }
  case_if.
  - split_and!; [by apply same_ballot_step | | by split; [constructor |]].
    intros _. split; [done | done |]. simpl. congruence.
  - wlp_call becomeLeader_leads. intros [n2 [err|es]].
    + intros [-> _]. split_and!; [by apply same_ballot_step | | done].
      intros _. split; [done | done |]. simpl. congruence.
    + intros [(nl & Hl & Hcalm) He]. apply negb_false_iff in Hif.
      destruct (elected_campaign n1 nl n2 (same_ballot_step _ _ Hb Hu) Hl Hcalm) as (? & ? & Hb2); try done.
      split_and!; try done. split; [| done].
      eapply sent_by_calm; [by symmetry | exact He].
Qed.

Lemma dispatch_campaign m :
  id n ≠ "" → MsgTerm m ≤ currentTerm (state n) →
  (MsgType m = RequestVoteResponse → VoteGranted m = true → G (MsgTerm m) (From m)) →
  wlp (dispatch n m) (campaign_ok G n).
Proof.
  intros Hid Hm Hg. unfold dispatch. destruct (MsgType m) eqn:Et.
  - pose proof (handleRequestVote_campaign m Hid) as H.
    by destruct (handleRequestVote n m) as [n' [d es]].
  - apply handleRequestVoteResponse_campaign. auto.
  - by apply lift_calm, handleAppendEntries_calm.
  - apply lift_calm, handleAppendEntriesResponse_calm.
  - by apply lift_calm, handleInstallSnapshot_calm.
  - apply lift_calm, handleInstallSnapshotResponse_calm.
  - apply campaign_same.
Qed.
End steps.

(** A follower's handlers report no error. *)
Lemma dispatch_follower n m : role n = Follower → wlp (dispatch n m) (λ p, ∃ r, p.2 = inr r).
Proof.
  intros Hr. assert (∀ h, wlp (lift_handled h) (λ p, ∃ r, p.2 = inr r)) as Hl.
  { intros h. apply wlp_bind. eapply wlp_mono; [apply wlp_trivial |]. intros [n' r] _. by eexists. }
  unfold dispatch. destruct (MsgType m); try apply Hl; [| by eexists].
  unfold handleRequestVoteResponse. rewrite Hr. by eexists.
Qed.

(** What an input tells a campaign: its term is a [uint64], and a vote it brings is
    vouched for. *)
Definition vouched (G : Z → NodeID → Prop) (n : Node) (i : Input) : Prop :=
  match i with
  | InputMessage m =>
    is_u64 (MsgTerm m) ∧
    (MsgType m = RequestVoteResponse → VoteGranted m = true → To m = id n → G (MsgTerm m) (From m))
  | _ => True
  end.

Lemma promote_step n t :
  is_u64 t → currentTerm (state n) < t →
  ballot_step n (becomeFollower n t "") ∧ currentTerm (state (becomeFollower n t "")) = t ∧
  role (becomeFollower n t "") = Follower.
Proof.
  intros Hu Hlt. unfold becomeFollower. cbv zeta. simpl.
  destruct (Z.ltb_spec (currentTerm (state n)) t); [| lia].
  set (n1 := set_term_vote _ _ _). assert (currentTerm (state n1) = t) as Ht by done.
  split_and!; [split | done | done]; try done; rewrite Ht; done || (intros; lia).
Qed.

Lemma ballot_step_trans n1 n2 n3 : ballot_step n1 n2 → ballot_step n2 n3 → ballot_step n1 n3.
Proof.
  intros [Hi Hm Hp Ht Hle Hu Hv] [Hi' Hm' Hp' Ht' Hle' Hu' Hv']. split; try congruence; try lia.
  intros E Hne. rewrite Hv', Hv; [done | lia | done | lia |]. by rewrite Hv; [| lia |].
Qed.

Lemma stepMessage_campaign G n m :
  id n ≠ "" → is_u64 (currentTerm (state n)) → campaign G n → vouched G n (InputMessage m) →
  wlp (stepMessage n m) (campaign_ok G n).
Proof.
  intros Hid Hu Hc [Hm Hg]. unfold stepMessage. case_if; [by apply campaign_error |].
  case_if; [by apply campaign_error |]. cbv zeta. reflect.
  destruct Hif as [[[Hto _] _] _].
  set (n1 := if _ <? _ then _ else n).
  change (wlp (or_dirty (currentTerm (state n) <? MsgTerm m) (dispatch n1 m)) (campaign_ok G n)).
  apply wlp_bind. destruct (Z.ltb_spec (currentTerm (state n)) (MsgTerm m)); subst n1.
  - destruct (promote_step n (MsgTerm m)) as (Hb & Ht & Hr); [done | done |].
    set (n1 := becomeFollower n (MsgTerm m) "") in *.
    assert (campaign G n1) as Hc1 by (intros ?; congruence).
    pose proof (dispatch_campaign G n1 (bs_u64 _ _ Hb) Hc1 m) as Hd.
    rewrite (bs_id _ _ Hb), Ht in Hd. specialize (Hd Hid ltac:(lia) ltac:(auto)).
    pose proof (dispatch_follower n1 m Hr) as Hf.
    destruct (dispatch n1 m) as [[n' r]|]; [| done]. destruct Hf as [[d es] Hf]. simpl in Hf. subst r.
    destruct Hd as (Hb' & Hc' & He & _).
    simpl in *. split_and!; [by eapply ballot_step_trans | done | by split].
  - eapply wlp_mono; [apply (dispatch_campaign G n); auto |].
    by intros [n' [err|[d es]]] H1.
Qed.

Lemma stepInput_campaign G n i :
  id n ≠ "" → is_u64 (currentTerm (state n)) → campaign G n → vouched G n i →
  wlp (stepInput n i) (campaign_ok G n).
Proof.
  intros Hid Hu Hc Hv. destruct i; simpl; try by apply campaign_error.
  - case_if; [by apply campaign_same |]. case_if; [by apply campaign_error |].
    apply startElection_campaign; [done.. |]. by apply Z.eqb_neq.
  - case_if; [| by apply campaign_same]. wlp_call broadcastAppend_calm. intros [n' es] [H1 H2].
    apply calm_handled_campaign; [done.. |]. split; [done |]. by constructor.
  - by apply stepMessage_campaign.
  - eapply wlp_mono; [apply propose_calm | by intros p; apply calm_handled_campaign].
  - eapply wlp_mono; [apply takeSnapshot_calm | by intros p; apply calm_handled_campaign].
  - eapply wlp_mono; [apply beginMembership_calm | by intros p; apply calm_handled_campaign].
  - eapply wlp_mono; [apply finalizeMembership_calm | by intros p; apply calm_handled_campaign].
Qed.
