(* ===== verification/NodeProps.v ===== *)
(** * Properties of the Raft node

    The theorems on raft/node.go, each drawn from the lemmas of the files before,
    and their witnesses on a three-node group. *)

From S2P Require Export NodeHost.

(** ** Lemmas on the append handler's log *)

Lemma applyLoop_log fuel n : wlp (applyLoop fuel n) (λ '(n', _), state n' = state n).
Proof.
  revert n. induction fuel as [|fuel IH]; intros n; simpl; [done |].
  case_if; [| done]. destruct (entryAt _ _); [| done].
  wlp_call IH. by intros [n2 es] H.
Qed.

(** The position of a message's entries in a log: after the log's own entries up to
    [prev], and followed by something only when the log did not change. *)
Definition holds_entries (n n' : Node) (prev : Z) (es : list Entry) : Prop :=
  ∃ A B, log n' = A ++ es ++ B ∧ snapIndex (state n') + zlen A = prev ∧
    (∃ C, log n = A ++ C) ∧ (B ≠ [] → log n' = log n).

(** The response that acknowledges entries. *)
Definition acknowledges (e : Effect) : Prop :=
  match e with EffectSend m => Success m = true | _ => False end.

Lemma commit_tail_log n msg dirty (es : Node → list Effect → list Effect) :
  wlp ('(n, (dirty, committed)) ←
        (if commitIndex (state n) <? LeaderCommit msg then
           '(n, committed) ← applyCommitted (set_commit n (Z.min (LeaderCommit msg) (lastIndex n)));
           Done (n, (true, committed))
         else Done (n, (dirty, [])));
      Done (n, (dirty, es n committed)))
    (λ '(n', _), log n' = log n ∧ snapIndex (state n') = snapIndex (state n)).
Proof.
  case_if; [| done].
  apply wlp_bind. apply wlp_bind. eapply wlp_mono; [apply applyLoop_log |].
  intros [n2 cs] H. simpl. unfold log. rewrite H. done.
Qed.

Lemma appendTail_log n m mk m' msg :
  state_ok (members n) (initialMembership n) (state n) m → append_ok n msg →
  PrevLogIndex msg + zlen (Entries msg) ≤ max_u64 →
  snapIndex (state n) ≤ PrevLogIndex msg ≤ lastIndex n →
  log_ok (members n) (currentTerm (state n)) (Z.max (commitIndex (state n)) (LeaderCommit msg))
           (PrevLogIndex msg) (PrevLogTerm msg) mk (Entries msg) m' →
  wlp (appendTail n msg) (λ '(n', _), holds_entries n n' (PrevLogIndex msg) (Entries msg)).
Proof.
  intros Hok Hap Hmax Hprev Hes. unfold appendTail. cbv zeta.
  destruct (log_split n m (PrevLogIndex msg) Hok Hprev) as (A & B & mk' & Hab & Ha & _ & _).
  destruct (appendLoop_spec n m A B (PrevLogIndex msg) 0 false (Entries msg) Hok Hab) as
    [(-> & Hlen & Hsm) | (k & Hk & HkB & Hsm & Hcase & ->)]; [lia | lia | |].
  - simpl. eapply wlp_mono.
    { exact (commit_tail_log n msg false (λ n committed, EffectResetElectionTimer :: committed ++
      [EffectSend (appendResponse n (From msg) (Sequence msg) true
         (wrap64 (PrevLogIndex msg + zlen (Entries msg))) 0)])). }
    intros [n' r] [Hl Hs]. exists A, (drop (length (Entries msg)) B). rewrite Hl, Hs.
    split_and!; [| lia | by exists B | done].
    rewrite <- (firstn_all (Entries msg)) in Hsm at 2.
    rewrite <- (firstn_all (Entries msg)) at 1.
    erewrite <- (same_terms_eq n m msg A B (PrevLogIndex msg)); try done; [| lia].
    by rewrite take_drop.
  - assert (take k B = take k (Entries msg)) as Htk.
    { eapply (same_terms_eq n m msg A B (PrevLogIndex msg)); try done. lia. }
    rewrite Htk, take_drop. unfold refreshMembership. cbn iota beta.
    apply wlp_bind. destruct (membershipAt _ _) as [m1|]; [| done]. cbn [mbind go_bind wlp].
    eapply wlp_mono.
    { exact (commit_tail_log (set_membership (set_log n (A ++ Entries msg)) m1) msg true
      (λ n committed, EffectResetElectionTimer :: committed ++
      [EffectSend (appendResponse n (From msg) (Sequence msg) true
         (wrap64 (PrevLogIndex msg + zlen (Entries msg))) 0)])). }
    intros [n' r] [Hl Hs]. exists A, []. rewrite Hl, Hs, app_nil_r.
    split_and!; [done | unfold snapIndex in *; simpl; lia | by exists B | done].
Qed.

(** What the append handler leaves when it follows the sender. *)
Lemma handleAppendEntries_log n m :
  node_wf n → message_u64 m → append_ok n m →
  MsgTerm m = currentTerm (state n) → PrevLogIndex m ≤ lastIndex n →
  wlp (handleAppendEntries n m) (λ '(n', (_, es)),
    Exists acknowledges es → holds_entries n n' (PrevLogIndex m) (Entries m)).
Proof.
  intros Hn Hu Hap HT Hle. unfold handleAppendEntries.
  destruct (Z.ltb_spec (MsgTerm m) (currentTerm (state n))); [lia |]. fold (follow n m).
  destruct (follow_ok n m Hn HT) as (Hn1 & _ & Hst & _ & Hmm & _ & _ & _).
  destruct (append_ok_follow n m Hap) as [Hap1|]; [| congruence].
  assert (∀ (n1 : Node) hint, ¬ Exists acknowledges
    [EffectResetElectionTimer; EffectSend (appendResponse n1 (From m) (Sequence m) false 0 hint)])
    as Hno.
  { intros ? hint H1. inversion H1 as [? ? H2|? ? H2]; subst; [done |].
    inversion H2 as [? ? H3|? ? H3]; subst; [done | by inversion H3]. }
  set (n1 := follow n m) in *. cbv zeta. case_if; [intros Hx; by apply Hno in Hx |].
  apply orb_false_iff in Hif as [Hprev Hpt]. rewrite negb_false_iff in Hpt. reflect.
  case_if; [intros Hx; by apply Hno in Hx |]. reflect.
  pose proof Hn1 as [_ _ Hinit Hok _ _]. pose proof (snapIndex_nonneg n1 _ Hok).
  destruct (wp_inv _ _ (membershipAt_ok n1 _ Hok (PrevLogIndex m) ltac:(lia))) as (mk & Hmk & _).
  rewrite Hmk. cbn [mbind go_bind].
  destruct (checkIncoming _ _ _ _ _ _ _) as [index|] eqn:Hchk; [intros Hx; by apply Hno in Hx |].
  change (wlp (appendTail n1 m) (λ '(n', (_, es)),
    Exists acknowledges es → holds_entries n n' (PrevLogIndex m) (Entries m))).
  assert (Forall (λ e, is_u64 (Term e)) (Entries m)) as Hterms
    by (eapply Forall_impl; [apply (mu_entries _ Hu) | by intros ? []]).
  eapply checkIncoming_sound in Hchk as [m' Hm']; [| lia | lia | done | exact (ap_final _ _ Hap1)].
  rewrite HT, <- Hst, Z.add_0_r in Hm'.
  assert (lastIndex n1 = lastIndex n) as Hl by (unfold lastIndex, log; by rewrite Hst).
  eapply wlp_mono; [apply (appendTail_log n1 (membership n1) mk m' m); try done; lia |].
  intros [n' [d es]] (A & B & H1 & H2 & H3 & H4) _. unfold log in *. rewrite Hst in *.
  by exists A, B.
Qed.

(** ** Invariants of runs *)

(** C1.  Crash-safe runs keep the node invariant and no input makes a node panic: in
    every state a host reaches from [New] and [Start] by admissible inputs,
    acknowledgements and crash/restart cycles the node is well formed - a valid log
    of contiguous indexes and monotone terms, applied between snapshot and commit
    index, a leader elected by a quorum - and [Step] returns on every admissible
    input. *)
Theorem run_safe c st n0 n1 es0 es h i :
  state_u64 st → New c st = Done (inr n0) → Start n0 = Done (n1, es0) →
  hrun input_ok c (mkHost n1 st) es h → input_ok (hnode h) i →
  node_wf (hnode h) ∧ ∃ n' r, Step (hnode h) i = Done (n', r) ∧ node_wf n'.
Proof.
  intros Hu Hnew Hstart Hrun Hi.
  destruct (started_wf c c st n0 n1 es0 Hu Hnew Hstart) as (Hwf & Hp & _); try done.
  destruct (hrun_inv _ _ _ _ Hrun Hwf (ledger_nil (mkHost n1 st) Hp)) as [Hh _].
  pose proof (hw_node _ _ Hh) as Hn. split; [done |].
  destruct (wp_inv _ _ (Step_any _ i Hn Hi)) as ([n' r] & Hs & ? & _). eauto.
Qed.

(** C2.  A node never votes for two candidates in one term, across any sequence of
    inputs, acknowledgements and crashes before or after the write: the votes are
    released by the acknowledgement of the write that records them. *)
Theorem votes_unique_across_crashes c st n0 n1 es0 es h t x y :
  state_u64 st → New c st = Done (inr n0) → Start n0 = Done (n1, es0) →
  hrun input_ok c (mkHost n1 st) es h →
  (t, x) ∈ ballots es → (t, y) ∈ ballots es → x = y.
Proof.
  intros Hu Hnew Hstart Hrun.
  destruct (started_wf c c st n0 n1 es0 Hu Hnew Hstart) as (Hwf & Hp & _); try done.
  destruct (hrun_inv _ _ _ _ Hrun Hwf (ledger_nil (mkHost n1 st) Hp)) as [_ HL].
  by apply (lg_unique _ _ HL).
Qed.

(** C3.  A step never moves the term, the commit index, the applied index or the
    snapshot backwards, never changes a vote within its term, and keeps every
    committed entry that the snapshot does not cover. *)
Theorem step_keeps_history n i n' r :
  node_wf n → input_ok n i → Step n i = Done (n', r) → history n n'.
Proof.
  intros Hn Hi Hs. pose proof (Step_any n i Hn Hi) as H. rewrite Hs in H. apply H.
Qed.


(** C5.  What a node leaves on disk always restarts: in every reachable state, from the
    last acknowledged state or from the one being written, [New] accepts the durable
    state for every applied index it covers, and [Start] returns. *)
Theorem restart_succeeds c st n0 n1 es0 es h d app :
  state_u64 st → New c st = Done (inr n0) → Start n0 = Done (n1, es0) →
  hrun input_ok c (mkHost n1 st) es h →
  d = disk h ∨ d = state (hnode h) → app ≤ commitIndex d →
  ∃ m1 m2 fs, New (restart_config c app) d = Done (inr m1) ∧ Start m1 = Done (m2, fs) ∧
    node_wf m2 ∧ state m2 = d.
Proof.
  intros Hu Hnew Hstart Hrun Hd Happ.
  destruct (started_wf c c st n0 n1 es0 Hu Hnew Hstart) as (Hwf & Hp & _); try done.
  destruct (hrun_inv _ _ _ _ Hrun Hwf (ledger_nil (mkHost n1 st) Hp)) as [Hh _].
  destruct (restart_ok c h d app Hh Hd Happ) as (m1 & m2 & fs & Hm1 & Hm2).
  assert (∃ m, state_ok (members (hnode h)) (initialMembership (hnode h)) d m) as [m Hok].
  { destruct Hd as [-> | ->]; [apply (hw_disk _ _ Hh) | eexists; apply (nw_state _ (hw_node _ _ Hh))]. }
  destruct (started_wf (restart_config c app) c d m1 m2 fs (state_ok_u64 _ _ _ _ Hok) Hm1 Hm2)
    as (Hw & _ & Hst); try done.
  exists m1, m2, fs. split_and!; try done. apply (hw_node _ _ Hw).
Qed.

(** In every reachable state a leader holds the votes of a quorum of the
    configuration its election was held in. *)
Theorem leader_elected_by_quorum c st n0 n1 es0 es h :
  state_u64 st → New c st = Done (inr n0) → Start n0 = Done (n1, es0) →
  hrun input_ok c (mkHost n1 st) es h → role (hnode h) = Leader →
  quorum (electionMembership (hnode h)) (λ x, bool_decide (x ∈ electionVotes (hnode h))) = true.
Proof.
  intros Hu Hnew Hstart Hrun Hr.
  destruct (started_wf c c st n0 n1 es0 Hu Hnew Hstart) as (Hwf & Hp & _); try done.
  destruct (hrun_inv _ _ _ _ Hrun Hwf (ledger_nil (mkHost n1 st) Hp)) as [Hh _].
  pose proof (nw_role _ (hw_node _ _ Hh)) as H. unfold role_ok in H. rewrite Hr in H. apply H.
Qed.

(** C6.  [advanceCommit] commits the greatest index above the commit index whose entry
    is of the current term and which a quorum of the configuration at that index
    has matched, applies exactly the entries up to it, steps down when the leader
    is no longer a voter, and does nothing when there is no such index. *)
Theorem advanceCommit_correct n :
  node_wf n → ∃ n' es, advanceCommit n = Done (n', es) ∧ advance_spec n (n', es).
Proof.
  intros Hn. destruct (wp_inv _ _ (advanceCommit_ok n Hn)) as ([n' es] & ? & ?). eauto.
Qed.

(** When a follower acknowledges entries, its log is its own log up to
    PrevLogIndex followed by the message's entries; anything after them was in its
    log before and did not conflict. *)
Theorem append_acknowledged n m n' d es :
  node_wf n → message_u64 m → append_ok n m →
  MsgTerm m = currentTerm (state n) → PrevLogIndex m ≤ lastIndex n →
  handleAppendEntries n m = Done (n', (d, es)) → Exists acknowledges es →
  holds_entries n n' (PrevLogIndex m) (Entries m).
Proof.
  intros Hn Hu Hap HT Hle Hs. pose proof (handleAppendEntries_log n m Hn Hu Hap HT Hle) as H.
  rewrite Hs in H. exact H.
Qed.

(** Starting a constructed node: the state machine is brought to the commit
    index - by the snapshot when it is behind it, then by the entries from there to
    the commit index, in order - and nothing durable changes. *)
Theorem start_applies_committed c st n :
  state_u64 st → New c st = Done (inr n) →
  Start n = Done (set_applied n (commitIndex st), start_effects n) ∧
  node_wf (set_applied n (commitIndex st)) ∧ state n = st.
Proof.
  intros Hu Hnew. pose proof (New_ok c st Hu) as H. rewrite Hnew in H. destruct H as [_ Hct].
  destruct (Start_ok c st n Hct). destruct Hct. done.
Qed.

(** [New] refuses a durable state exactly when the check refuses it, and the
    check accepts exactly the well-formed states that cover the applied index. *)
Theorem New_accepts_valid_states c st :
  state_u64 st → canonical_set (sort_nodes (Members c)) (sort_nodes (Members c)) →
  ID c ∈ Members c → ID c ≠ "" →
  (∃ n, New c st = Done (inr n)) ↔
  ∃ initial m, initialMembership_of c (sort_nodes (Members c)) = (initial, true) ∧
    state_ok (sort_nodes (Members c)) initial st m ∧ CfgAppliedIndex c ≤ commitIndex st.
Proof.
  intros Hu Hcan Hid Hne. split.
  - intros [n Hnew]. pose proof (New_ok c st Hu) as H. rewrite Hnew in H. destruct H as [Hv _].
    destruct (validate_sound c st Hu Hv) as (initial & m & ? & _ & ? & ?). eauto.
  - intros (initial & m & Hin & Hok & Happ).
    pose proof (validate_complete c st initial m Hcan Hid Hne Hin Hok Happ) as Hv.
    destruct (wp_inv _ _ (New_ok c st Hu)) as ([err|n] & Hr & Hspec); [congruence | eauto].
Qed.

(** ** Witnesses: a group of three nodes *)

Definition node_after (n : Node) (i : Input) : Node :=
  match Step n i with Done (n', _) => n' | Panic => n end.

Lemma node_after_wf n i : node_wf n → input_ok n i → node_wf (node_after n i).
Proof.
  intros Hn Hi. destruct (wp_inv _ _ (Step_any n i Hn Hi)) as ([n' r] & Hs & ? & _).
  unfold node_after. by rewrite Hs.
Qed.

Definition group_config (x : NodeID) : Config := mkConfig x ["a"; "b"; "c"] [] [] 0.
Definition empty_state : PersistentState := mkPersistentState (mkHardState 0 "" 0) emptySnapshot [].

Definition constructed_node (x : NodeID) : Node :=
  match New (group_config x) empty_state with
  | Done (inr n) => n
  | _ => mkNode x [] emptyMembership emptyMembership Follower "" empty_state 0 None [] emptyMembership
           None None None 0 None
  end.
Definition started_node (x : NodeID) : Node :=
  match Start (constructed_node x) with Done (n, _) => n | Panic => constructed_node x end.

(** A concrete number is in range. *)
Ltac u64 := vm_compute; split; discriminate.

Lemma empty_u64 : state_u64 empty_state.
Proof. split; [by u64.. | constructor]. Qed.

Lemma constructed_a : New (group_config "a") empty_state = Done (inr (constructed_node "a")).
Proof. reflexivity. Qed.
Lemma constructed_b : New (group_config "b") empty_state = Done (inr (constructed_node "b")).
Proof. reflexivity. Qed.
Lemma started_a : Start (constructed_node "a") = Done (started_node "a", [EffectResetElectionTimer]).
Proof. reflexivity. Qed.
Lemma started_b : Start (constructed_node "b") = Done (started_node "b", [EffectResetElectionTimer]).
Proof. reflexivity. Qed.

Definition vote_message : Message :=
  mkMessage RequestVote "a" "b" 1 0 0 0 false 0 0 [] 0 false 0 0 emptySnapshot.
Definition grant_message : Message :=
  mkMessage RequestVoteResponse "b" "a" 1 0 0 0 true 0 0 [] 0 false 0 0 emptySnapshot.
Definition append_message : Message :=
  mkMessage AppendEntries "a" "b" 1 1 0 0 false 0 0
    [mkEntry 1 1 EntryNoop [] emptyMembership; mkEntry 2 1 EntryCommand [Byte.x41] emptyMembership]
    1 false 0 0 emptySnapshot.

Lemma vote_message_ok n : input_ok n (InputMessage vote_message).
Proof. split; [| done]. split; first [apply Forall_nil_2 | by u64]. Qed.
Lemma grant_message_ok n : input_ok n (InputMessage grant_message).
Proof. split; [| done]. split; first [apply Forall_nil_2 | by u64]. Qed.
Lemma append_message_u64 : message_u64 append_message.
Proof.
  split; [by u64 | by u64 | by u64 | | by u64 ..].
  repeat apply Forall_cons_2; try apply Forall_nil_2; split; by u64.
Qed.

Lemma started_a_wf : node_wf (started_node "a").
Proof.
  destruct (started_wf _ (group_config "a") _ _ _ _ empty_u64 constructed_a started_a) as (H & _); try done.
  apply (hw_node _ _ H).
Qed.
Lemma started_b_wf : node_wf (started_node "b").
Proof.
  destruct (started_wf _ (group_config "b") _ _ _ _ empty_u64 constructed_b started_b) as (H & _); try done.
  apply (hw_node _ _ H).
Qed.

(** Node a campaigns, persists its vote, and receives the vote of b. *)
Definition candidate_a : Node := node_after (started_node "a") InputElectionTimeout.
Definition persisted_a : Node := node_after candidate_a (InputPersisted 1).
Definition leader_a : Node := node_after persisted_a (InputMessage grant_message).

Lemma leader_a_wf : node_wf leader_a.
Proof.
  repeat (apply node_after_wf; [| first [exact I | apply grant_message_ok]]). apply started_a_wf.
Qed.

Lemma append_message_ok n :
  snapIndex (state n) = 0 → log n = [] → append_ok n append_message.
Proof.
  intros Hs Hl. assert (∀ i, entryAt n i = None) as Hnone.
  { intros i. unfold entryAt, lastIndex. rewrite Hs, Hl. change (wrap64 (0 + zlen (@nil Entry))) with 0.
    destruct (Z.leb_spec i 0); [done |]. by destruct (Z.ltb_spec 0 i); [| lia]. }
  split.
  - intros e e' _. by rewrite Hnone.
  - intros e e' _ _. by rewrite Hnone.
  - intros e He Hf. simpl in He. rewrite !elem_of_cons in He.
    destruct He as [-> | [-> | He]]; [done | done | by apply elem_of_nil in He].
Qed.

(** Node b persists a vote and the host acknowledges it; then it crashes. *)
Definition voted_b : Node := node_after (started_node "b") (InputMessage vote_message).
Definition grant_effects : list Effect :=
  match Step voted_b (InputPersisted 1) with Done (_, inr es) => es | _ => [] end.

Lemma step_b : Step (started_node "b") (InputMessage vote_message) =
  Done (voted_b, inr [EffectPersist 1 (state voted_b)]).
Proof. vm_compute. reflexivity. Qed.

(** Two runs: a becomes leader; b grants a vote and crashes after the write. *)
Lemma run_b : hrun input_ok (group_config "b") (mkHost (started_node "b") empty_state)
  (([] ++ [EffectPersist 1 (state voted_b)]) ++ grant_effects)
  (mkHost (node_after voted_b (InputPersisted 1)) (state voted_b)).
Proof.
  eapply hrun_snoc; [eapply hrun_snoc; [apply hrun_nil |] |].
  - apply (h_step _ _ (started_node "b") empty_state (InputMessage vote_message) voted_b
             (inr [EffectPersist 1 (state voted_b)])); [done | apply vote_message_ok | exact step_b].
  - apply (h_ack _ _ voted_b empty_state 1). reflexivity.
Qed.

Lemma run_a : ∃ es d, hrun input_ok (group_config "a") (mkHost (started_node "a") empty_state) es (mkHost leader_a d).
Proof.
  do 2 eexists. eapply hrun_snoc; [eapply hrun_snoc; [eapply hrun_snoc; [apply hrun_nil |] |] |].
  - apply (h_step _ _ (started_node "a") empty_state InputElectionTimeout candidate_a
             (inr [EffectPersist 1 (state candidate_a)])); [done | exact I | vm_compute; reflexivity].
  - eapply (h_ack _ _ candidate_a empty_state 1 persisted_a). vm_compute. reflexivity.
  - apply (h_step _ _ persisted_a _ (InputMessage grant_message) leader_a
             (inr [EffectPersist 2 (state leader_a)]));
      [done | apply grant_message_ok | vm_compute; reflexivity].
Qed.

Lemma run_safe_witness :
  node_wf (node_after voted_b (InputPersisted 1)) ∧
  ∃ n' r, Step (node_after voted_b (InputPersisted 1)) InputElectionTimeout = Done (n', r) ∧ node_wf n'.
Proof.
  apply (run_safe _ _ _ _ _ _ _ InputElectionTimeout empty_u64 constructed_b started_b run_b). exact I.
Defined.

Lemma votes_unique_across_crashes_witness : "a" = "a".
Proof.
  apply (votes_unique_across_crashes _ _ _ _ _ _ _ 1 "a" "a" empty_u64 constructed_b started_b run_b);
    vm_compute; left.
Defined.

Lemma step_keeps_history_witness : history (started_node "b") voted_b.
Proof.
  apply (step_keeps_history (started_node "b") (InputMessage vote_message) voted_b
           (inr [EffectPersist 1 (state voted_b)])); [apply started_b_wf | apply vote_message_ok | exact step_b].
Defined.


Lemma restart_succeeds_witness :
  ∃ m1 m2 fs, New (restart_config (group_config "b") 0) (state voted_b) = Done (inr m1) ∧
    Start m1 = Done (m2, fs) ∧ node_wf m2 ∧ state m2 = state voted_b.
Proof.
  apply (restart_succeeds _ _ _ _ _ _ _ (state voted_b) 0 empty_u64 constructed_b started_b run_b);
    [by left | vm_compute; discriminate].
Defined.

Lemma leader_elected_by_quorum_witness :
  quorum (electionMembership leader_a) (λ x, bool_decide (x ∈ electionVotes leader_a)) = true.
Proof.
  destruct run_a as (es & d & Hrun).
  apply (leader_elected_by_quorum _ _ _ _ _ _ _ empty_u64 constructed_a started_a Hrun).
  vm_compute. reflexivity.
Defined.

Lemma advanceCommit_correct_witness :
  ∃ n' es, advanceCommit leader_a = Done (n', es) ∧ advance_spec leader_a (n', es).
Proof. apply (advanceCommit_correct leader_a leader_a_wf). Defined.

Definition persisted_b : Node := node_after voted_b (InputPersisted 1).

Lemma append_acknowledged_witness :
  ∃ n', holds_entries persisted_b n' 0 (Entries append_message).
Proof.
  destruct (handleAppendEntries persisted_b append_message) as [[n' [d es]]|] eqn:E.
  2: { vm_compute in E. discriminate E. }
  exists n'. apply (append_acknowledged persisted_b append_message n' d es).
  - apply node_after_wf; [apply node_after_wf; [apply started_b_wf | apply vote_message_ok] | exact I].
  - apply append_message_u64.
  - apply append_message_ok; reflexivity.
  - reflexivity.
  - vm_compute. discriminate.
  - exact E.
  - vm_compute in E. injection E as <- <- <-. right. right. left. reflexivity.
Defined.

Lemma start_applies_committed_witness :
  Start (constructed_node "a") = Done (set_applied (constructed_node "a") 0, start_effects (constructed_node "a")) ∧
  node_wf (set_applied (constructed_node "a") 0) ∧ state (constructed_node "a") = empty_state.
Proof. apply (start_applies_committed _ _ _ empty_u64 constructed_a). Defined.

Lemma New_accepts_valid_states_witness :
  (∃ n, New (group_config "a") empty_state = Done (inr n)) ↔
  ∃ initial m, initialMembership_of (group_config "a") (sort_nodes ["a"; "b"; "c"]) = (initial, true) ∧
    state_ok (sort_nodes ["a"; "b"; "c"]) initial empty_state m ∧ 0 ≤ commitIndex empty_state.
Proof.
  apply (New_accepts_valid_states (group_config "a") empty_state empty_u64);
    [exact (nw_members _ started_a_wf) | left | done].
Defined.
