(* ===== verification/Election.v ===== *)
(** * Election safety of a group

    A group of hosts (NodeHost.v) that exchange messages through a network that may lose,
    delay, reorder and duplicate them: a message is received if it was sent at some time.
    Hosts crash and restart independently.  No assumption is made on logs: what a term's
    leader is only depends on the votes. *)

From S2P Require Export Campaign NodeProps.

(** ** Runs that only vouch for votes *)

Record elector (c : Config) (h : Host) : Prop := {
  el_id : id (hnode h) = ID c;
  el_name : ID c ≠ "";
  el_u64 : is_u64 (currentTerm (state (hnode h)));
  el_disk : is_u64 (currentTerm (disk h));
  el_clean : pending (hnode h) = None →
    currentTerm (disk h) = currentTerm (state (hnode h)) ∧ votedFor (disk h) = votedFor (state (hnode h));
  el_term : currentTerm (disk h) ≤ currentTerm (state (hnode h));
  el_vote : currentTerm (state (hnode h)) = currentTerm (disk h) → votedFor (disk h) ≠ "" →
            votedFor (state (hnode h)) = votedFor (disk h);
  el_pending : ∀ p, pending (hnode h) = Some p → Forall (sent_by (hnode h)) (effects p) }.

(** What a host sends names the host and a term. *)
Definition sent_from (x : NodeID) (e : Effect) : Prop :=
  match e with EffectSend m => From m = x ∧ is_u64 (MsgTerm m) | _ => True end.

(** A state to persist is that of the write the node waits for. *)
Definition written (n : Node) (e : Effect) : Prop :=
  match e with
  | EffectPersist t st => ∃ w, pending n = Some w ∧ token w = t ∧ state n = st
  | _ => True
  end.

Lemma sent_by_written n n' es : Forall (sent_by n) es → Forall (written n') es.
Proof. intros H. apply (Forall_impl _ _ _ H). by intros []. Qed.

Lemma sent_by_from n es :
  is_u64 (currentTerm (state n)) → Forall (sent_by n) es → Forall (sent_from (id n)) es.
Proof.
  intros Hu H. apply (Forall_impl _ _ _ H). intros [|m| | | |]; simpl; try done.
  intros [-> ->]. done.
Qed.

Lemma Step_campaign G n i :
  id n ≠ "" → is_u64 (currentTerm (state n)) → campaign G n → vouched G n i → pending n = None →
  (∀ t, i ≠ InputPersisted t) →
  wlp (Step n i) (λ '(n', r), ∃ n1, ballot_step n n1 ∧ campaign G n1 ∧
    match pending n' with
    | Some p => ∃ tok, n' = set_pending n1 tok (Some p) ∧ ballots_ok n1 (effects p) ∧
                Forall (sent_by n1) (effects p) ∧ effects_of r = [EffectPersist (token p) (state n1)]
    | None => n' = n1 ∧ same_ballot n n1 ∧ ballots_ok n1 (effects_of r) ∧ Forall (sent_by n1) (effects_of r)
    end).
Proof.
  intros Hid Hu Hc Hv Hp Hne. rewrite Step_idle by done. apply wlp_bind.
  pose proof (stepInput_campaign G n i Hid Hu Hc Hv) as H1. pose proof (stepInput_ballots n i) as H2.
  destruct (stepInput n i) as [[n1 r]|]; [| done]. destruct H1 as (Hb & Hc1 & Hr). simpl in *.
  pose proof (bs_pending _ _ Hb) as Hp1. rewrite Hp in Hp1. unfold ballots_handled in H2. simpl in H2.
  destruct r as [err | [[] es]]; simpl; exists n1; (split; [done |]; split; [done |]); simpl.
  - rewrite Hp1. split_and!; [done | done | | by constructor]. intros t x Hx. by apply elem_of_nil in Hx.
  - eexists. rewrite cloneState_id. split_and!; [done | done | apply Hr | done].
  - rewrite Hp1. destruct Hr as [He Hs]. split_and!; auto.
Qed.

(** ** The invariant of one host *)

Lemma New_fresh c d n :
  New c d = Done (inr n) →
  ID c ≠ "" ∧ id n = ID c ∧ state n = d ∧ role n = Follower ∧ pending n = None ∧ votes n = None.
Proof.
  unfold New. rewrite cloneState_id. destruct (validate c d) eqn:Hv; [done |].
  assert (ID c ≠ "") as Hne.
  { intros E. unfold validate in Hv. by rewrite E in Hv. }
  destruct (initialMembership_of _ _) as [initial ?].
  unfold refreshMembership. destruct (membershipAt _ _); [| done]. simpl. by intros [= <-].
Qed.

(** The messages among effects. *)
Definition sends (es : list Effect) : list Message :=
  omap (λ e, match e with EffectSend m => Some m | _ => None end) es.

Lemma elem_of_sends es m : m ∈ sends es ↔ EffectSend m ∈ es.
Proof.
  unfold sends. rewrite list_elem_of_omap. split.
  - intros (e & He & Hm). destruct e; simplify_eq. done.
  - intros H. by exists (EffectSend m).
Qed.

Lemma applyLoop_silent fuel n : wlp (applyLoop fuel n) (λ p, sends p.2 = []).
Proof.
  revert n. induction fuel as [|fuel IH]; intros n; simpl; [done |].
  case_if; [| done]. destruct (entryAt _ _); [| done]. wlp_call IH. by intros [n2 es].
Qed.

Lemma Start_quiet n :
  wlp (Start n) (λ p, calm_pair n p ∧ quiet p.2 ∧ sends p.2 = []).
Proof.
  unfold Start. set (first := if _ <? _ then _ else _).
  assert (calm_pair n first ∧ quiet first.2 ∧ sends first.2 = []) as (H1 & H2 & H3).
  { subst first. case_if; (split; [split; [calm_refl | by repeat constructor] | by repeat constructor]). }
  destruct first as [n1 es1]; simpl in *. apply wlp_bind.
  pose proof (applyLoop_calm (Z.to_nat (commitIndex (state n1) - applied n1)) n1) as Hc.
  pose proof (applyLoop_quiet (Z.to_nat (commitIndex (state n1) - applied n1)) n1) as Hq.
  pose proof (applyLoop_silent (Z.to_nat (commitIndex (state n1) - applied n1)) n1) as Hs.
  unfold applyCommitted. destruct (applyLoop _ n1) as [[n2 es2]|]; [| done].
  unfold quiet_pair in Hq. simpl in *. split_and!.
  - apply (calm_app n n1 es1 (_, _) H1). apply (calm_app n1 _ _ (_, _) Hc).
    split; [calm_refl | case_if; by repeat constructor].
  - apply quiet_app; [done |]. apply quiet_app; [done |]. case_if; by repeat constructor.
  - unfold sends in *. rewrite !omap_app, H3, Hs. by case_if.
Qed.

(** The invariant of a host: its ledger holds every vote it has granted. *)
Record voting (G : Z → NodeID → Prop) (c : Config) (L : list (Z * NodeID)) (h : Host) : Prop := {
  vt_elector : elector c h;
  vt_campaign : campaign G (hnode h);
  vt_ledger : ledger_ok L h }.

Lemma campaign_pending G n tok p : campaign G n → campaign G (set_pending n tok p).
Proof. intros H Hr. destruct (H Hr). by split. Qed.

Lemma fresh_voting G c L st n1 n2 es app :
  is_u64 (currentTerm st) →
  New (restart_config c app) st = Done (inr n1) → Start n1 = Done (n2, es) →
  (∀ t x, (t, x) ∈ L → x ≠ "" ∧ t ≤ currentTerm st ∧ (t = currentTerm st → votedFor st = x)) →
  (∀ t x y, (t, x) ∈ L → (t, y) ∈ L → x = y) →
  voting G c L (mkHost n2 st) ∧ quiet es ∧ sends es = [] ∧ Forall (written n2) es.
Proof.
  intros Hu Hnew Hst HL Huniq. apply New_fresh in Hnew as (Hname & Hid & Hs & Hr & Hp & Hvo).
  pose proof (Start_quiet n1) as H. rewrite Hst in H. destruct H as ([[Hb Hc] Hby] & Hq & Hsent). simpl in *.
  destruct Hb as [Hid' _ Hp' _ Ht Hv]. rewrite Hs in Ht, Hv.
  assert (role n2 = Follower) as Hr2 by (destruct Hc as [(? & _) | [? _]]; congruence).
  apply sent_by_written with (n' := n2) in Hby.
  split; [| done]. split; [split | | split]; simpl; rewrite ?Ht; try done; try congruence.
  - intros t x Hx. by destruct (HL t x Hx).
  - intros t x Hx. by destruct (HL t x Hx).
Qed.

Lemma hstep_voting G c L h es h' :
  voting G c L h → hstep (vouched G) c h es h' →
  voting G c (L ++ ballots es) h' ∧ Forall (sent_from (ID c)) es ∧ Forall (written (hnode h')) es.
Proof.
  intros [He Hc HL] Hstep.
  destruct Hstep as [n d i n' r Hne Hi Hs | n d t n' es Hs | n d d' app n1 n2 es Hd' Hnew Hst].
  - destruct (pending n) as [p|] eqn:Hp.
    { rewrite (Step_waiting n i p Hp Hne) in Hs. simplify_eq. simpl. rewrite app_nil_r. by split_and!. }
    pose proof He as [Hid Hname Hu Hdu Hclean Ht Hv Hpe]; simpl in *.
    destruct (Hclean Hp) as [Hct Hcv].
    pose proof (Step_campaign G n i ltac:(congruence) Hu Hc Hi Hp Hne) as H. rewrite Hs in H.
    destruct H as (n1 & Hb & Hc1 & H). destruct Hb as [Hid1 _ _ _ Ht1 Hu1 Hv1].
    destruct (pending n') as [q|] eqn:Hp'.
    + destruct H as (tok & -> & Hbal & Hsent & ->). simpl in Hp'.
      split; [| split; [by repeat constructor | repeat constructor; by exists q]].
      split; [split; simpl; try done | by apply campaign_pending |].
      * congruence.
      * lia.
      * intros E Hnv. rewrite Hv1; [congruence | congruence |]. by rewrite <- Hcv.
      * by intros p [= <-].
      * apply (ledger_extend _ (mkHost n d)); simpl; try done.
        -- intros t x Hx. by apply elem_of_nil in Hx.
        -- intros p t x [= <-] Hx. by apply Hbal.
    + destruct H as (-> & [_ _ _ _ Ht' Hv'] & Hbal & Hsent).
      split; [| split; [| by eapply sent_by_written]; apply sent_by_from in Hsent; [by rewrite Hid1, Hid in Hsent | done]].
      split; [split; simpl; try done; [congruence | split; congruence | lia | congruence | congruence] | done |].
      apply (ledger_extend _ (mkHost n d)); simpl; try done; [| congruence].
      intros t x Hx. apply Hbal in Hx as (-> & -> & ?). rewrite Hct, Hcv. by split_and!.
  - apply set_ack in Hs as (p & Hp & _ & -> & ->).
    destruct He as [Hid Hname Hu Hdu Hclean Ht Hv Hpe]; simpl in *.
    specialize (Hpe p Hp). split; [| split; [| by eapply sent_by_written]; apply sent_by_from in Hpe; [by rewrite Hid in Hpe | done]].
    split; [split; simpl; try done | by apply campaign_pending |].
    apply (ledger_extend _ (mkHost n d)); simpl; try done.
    intros t' x Hx. by eapply (lg_pending _ _ HL).
  - destruct He as [Hid Hname Hu Hdu Hclean Ht Hv Hpe]; simpl in *.
    destruct HL as [Hsome Hdisk _ Huniq]; simpl in *.
    destruct (fresh_voting G c L d' n1 n2 es app) as (Hvo & Hq & Hsent & Hwr); try done.
    + destruct Hd' as [-> | [_ ->]]; done.
    + intros t x Hx. split; [by eapply Hsome |]. destruct (Hdisk t x Hx) as [Hle Heq].
      destruct Hd' as [-> | [_ ->]]; [done |]. split; [lia |]. intros E.
      assert (currentTerm (state n) = currentTerm d) as E' by lia.
      rewrite Hv; [apply Heq; lia | done |]. rewrite Heq by lia. by eapply Hsome.
    + rewrite quiet_ballots by done. rewrite app_nil_r. split_and!; [done | | done].
      apply Forall_forall. intros [|m| | | |] He; simpl; try done.
      apply elem_of_sends in He. rewrite Hsent in He. by apply elem_of_nil in He.
Qed.

(** ** Groups *)

Record Group := mkGroup { hosts : gmap string Host; soup : list Message }.

(** A received message was sent before. *)
Definition delivered (S : list Message) (n : Node) (i : Input) : Prop :=
  match i with InputMessage m => m ∈ S | _ => True end.

Section group.
Context (config : NodeID → Config).

(** Hosts that were constructed and started from any durable states, and no message. *)
Definition started_host (x : NodeID) (h : Host) : Prop :=
  ID (config x) = x ∧ is_u64 (currentTerm (disk h)) ∧
  ∃ n app es, New (restart_config (config x) app) (disk h) = Done (inr n) ∧
              Start n = Done (hnode h, es).

Definition started_group (g : Group) : Prop :=
  soup g = [] ∧ ∀ x h, hosts g !! x = Some h → started_host x h.

Inductive gstep : Group → Group → Prop :=
| g_host g x h es h' :
  hosts g !! x = Some h → hstep (delivered (soup g)) (config x) h es h' →
  gstep g (mkGroup (<[x := h']> (hosts g)) (soup g ++ sends es))
| g_start g x h :
  hosts g !! x = None → started_host x h → gstep g (mkGroup (<[x := h]> (hosts g)) (soup g)).

(** The ledgers of all hosts: every vote in the network is in its sender's. *)
Definition soup_ok (L : NodeID → list (Z * NodeID)) (S : list Message) : Prop :=
  ∀ m, m ∈ S → is_u64 (MsgTerm m) ∧
    (MsgType m = RequestVoteResponse → VoteGranted m = true → (MsgTerm m, To m) ∈ L (From m)).

Definition voted_for (L : NodeID → list (Z * NodeID)) (x : NodeID) (t : Z) (v : NodeID) : Prop :=
  (t, x) ∈ L v.

Definition group_ok (L : NodeID → list (Z * NodeID)) (g : Group) : Prop :=
  (∀ x h, hosts g !! x = Some h → ID (config x) = x ∧ voting (voted_for L x) (config x) (L x) h) ∧
  (∀ x, hosts g !! x = None → L x = []) ∧ soup_ok L (soup g).

Lemma hstep_mono (A B : Node → Input → Prop) c h es h' :
  (∀ i, A (hnode h) i → B (hnode h) i) → hstep A c h es h' → hstep B c h es h'.
Proof.
  intros HAB H. destruct H; simpl in *;
    [eapply h_step; eauto | eapply h_ack; eauto | eapply h_crash; eauto].
Qed.

Lemma voting_mono (G G' : Z → NodeID → Prop) c L h :
  (∀ t v, G t v → G' t v) → voting G c L h → voting G' c L h.
Proof.
  intros HG [He Hc HL]. split; [done | | done]. intros Hr. destruct (Hc Hr) as [H1 H2 H3].
  split; [done | | done]. intros v Hv. destruct (H2 v Hv); auto.
Qed.

(** A granted vote among the effects is on the ballot. *)
Lemma sends_ballots es m :
  m ∈ sends es → MsgType m = RequestVoteResponse → VoteGranted m = true → (MsgTerm m, To m) ∈ ballots es.
Proof.
  intros Hm Ht Hg. apply elem_of_sends in Hm. unfold ballots. apply list_elem_of_omap.
  exists (EffectSend m). split; [done |]. simpl. rewrite Hg, andb_true_r. by rewrite bool_decide_true.
Qed.

Definition grow (L : NodeID → list (Z * NodeID)) (x : NodeID) (bs : list (Z * NodeID)) : NodeID → list (Z * NodeID) :=
  λ y, if decide (y = x) then L x ++ bs else L y.

Lemma grow_incl L x bs y b : b ∈ L y → b ∈ grow L x bs y.
Proof. unfold grow. case_decide; [subst; rewrite elem_of_app; auto | done]. Qed.

Lemma started_voting G x h :
  started_host x h → ID (config x) = x ∧ voting G (config x) [] h.
Proof.
  destruct h as [n d]. intros (Hid & Hu & n0 & app & es & Hnew & Hst); simpl in *. split; [done |].
  destruct (fresh_voting G (config x) [] d n0 n es app) as [Hv _]; try done.
  - intros t y Hy. by apply elem_of_nil in Hy.
  - intros t y z Hy. by apply elem_of_nil in Hy.
Qed.

(** What a host of a good group receives is vouched for. *)
Lemma group_vouched L g x h es h' :
  group_ok L g → hosts g !! x = Some h → hstep (delivered (soup g)) (config x) h es h' →
  hstep (vouched (voted_for L x)) (config x) h es h'.
Proof.
  intros (Hh & _ & Hs) Hx Hstep. destruct (Hh x h Hx) as [Hid Hv].
  eapply hstep_mono; [| exact Hstep]. intros [| |m| | | | | |] Hi; try done. simpl in *.
  destruct (Hs m Hi) as [Hu Hg]. split; [done |]. intros Ht Hgr Hto. unfold voted_for.
  pose proof (el_id _ _ (vt_elector _ _ _ _ Hv)). replace x with (To m) by congruence. auto.
Qed.

Lemma group_written L g x h es h' :
  group_ok L g → hosts g !! x = Some h → hstep (delivered (soup g)) (config x) h es h' →
  Forall (written (hnode h')) es.
Proof.
  intros HL Hx Hstep. pose proof HL as [Hh _]. destruct (Hh x h Hx) as [_ Hv].
  by eapply hstep_voting, group_vouched.
Qed.

Lemma gstep_ok L g g' : group_ok L g → gstep g g' → ∃ L', group_ok L' g'.
Proof.
  intros HL Hstep. pose proof HL as (Hh & Hnone & Hs). destruct Hstep as [g x h es h' Hx Hstep | g x h Hx Hstart].
  2: { exists L. split_and!; [| | done]; simpl.
    - intros y hy Hy. destruct (decide (y = x)) as [->|Hne].
      + rewrite lookup_insert_eq in Hy. simplify_eq. rewrite (Hnone x Hx). by apply started_voting.
      + rewrite lookup_insert_ne in Hy by done. by apply Hh.
    - intros y Hy. apply Hnone. destruct (decide (y = x)) as [->|Hne]; [done |].
      by rewrite lookup_insert_ne in Hy. }
  destruct (Hh x h Hx) as [Hid Hv].
  pose proof (group_vouched _ _ _ _ _ _ HL Hx Hstep) as Hstep'.
  destruct (hstep_voting _ _ _ _ _ _ Hv Hstep') as (Hv' & Hsent & _). rewrite Hid in Hsent.
  exists (grow L x (ballots es)).
  assert (∀ y t v, voted_for L y t v → voted_for (grow L x (ballots es)) y t v) as Hgrow.
  { intros y t v. apply grow_incl. }
  split_and!; simpl.
  - intros y hy Hy. destruct (decide (y = x)) as [->|Hne].
    + rewrite lookup_insert_eq in Hy. simplify_eq. split; [done |].
      unfold grow at 2. rewrite decide_True by done. eapply voting_mono; [apply Hgrow | done].
    + rewrite lookup_insert_ne in Hy by done. destruct (Hh y hy Hy) as [? Hvy]. split; [done |].
      unfold grow at 2. rewrite decide_False by done. eapply voting_mono; [apply Hgrow | done].
  - intros y Hy. destruct (decide (y = x)) as [->|Hne]; [by rewrite lookup_insert_eq in Hy |].
    rewrite lookup_insert_ne in Hy by done. unfold grow. rewrite decide_False by done. by apply Hnone.
  - intros m [Hm|Hm]%elem_of_app.
    + destruct (Hs m Hm) as [? Hg]. split; [done |]. intros. by apply grow_incl, Hg.
    + pose proof Hm as Hm'. apply elem_of_sends in Hm'.
      pose proof (proj1 (Forall_forall _ _) Hsent _ Hm') as [Hfrom Hu]. split; [done |].
      intros Ht Hg. unfold grow. rewrite decide_True by done. apply elem_of_app. right.
      by apply sends_ballots.
Qed.

Lemma started_group_ok g : started_group g → group_ok (λ _, []) g.
Proof.
  intros [Hs Hg]. split_and!.
  - intros x h Hx. by apply started_voting, Hg.
  - done.
  - intros m Hm. rewrite Hs in Hm. by apply elem_of_nil in Hm.
Qed.

Lemma group_reachable g0 g : started_group g0 → rtc gstep g0 g → ∃ L, group_ok L g.
Proof.
  intros Hstart Hrun. apply started_group_ok in Hstart. revert Hstart.
  generalize (λ _ : NodeID, @nil (Z * NodeID)).
  induction Hrun as [g|g g1 g2 Hstep _ IH]; intros L HL; [by exists L |].
  destruct (gstep_ok L g g1 HL Hstep) as [L' HL']. by apply (IH L').
Qed.

(** Who a voter of a leader voted for. *)
Lemma voter_chose L g x h v :
  group_ok L g → hosts g !! x = Some h → role (hnode h) = Leader → voted (hnode h) v = true →
  v = x ∨ (currentTerm (state (hnode h)), x) ∈ L v.
Proof.
  intros [Hh _] Hx Hr Hv. destruct (Hh x h Hx) as [Hid [He Hc _]].
  destruct (Hc ltac:(congruence)) as [_ Hvotes _]. rewrite (el_id _ _ He), Hid in Hvotes. by apply Hvotes.
Qed.

(** A leader that is a voter of another campaign of its term is that campaign's node. *)
Lemma leader_votes_itself L g x h y :
  group_ok L g → hosts g !! x = Some h → role (hnode h) = Leader →
  (currentTerm (state (hnode h)), y) ∈ L x → y = x.
Proof.
  intros [Hh _] Hx Hr Hy. destruct (Hh x h Hx) as [Hid [He Hc HL]].
  destruct (Hc ltac:(congruence)) as [Hvote _ _]. destruct (lg_disk _ _ HL _ _ Hy) as [Hle Heq].
  pose proof (el_term _ _ He). pose proof (lg_some _ _ HL _ _ Hy).
  assert (currentTerm (state (hnode h)) = currentTerm (disk h)) as E by lia.
  rewrite <- Heq by done. rewrite <- (el_vote _ _ He E); [| by rewrite Heq].
  rewrite Hvote, (el_id _ _ He). done.
Qed.

Lemma ledger_unique L g v t x y : group_ok L g → (t, x) ∈ L v → (t, y) ∈ L v → x = y.
Proof.
  intros (Hh & Hnone & _) Hx Hy. destruct (hosts g !! v) as [h|] eqn:Hv.
  - destruct (Hh v h Hv) as [_ [_ _ HL]]. by eapply (lg_unique _ _ HL).
  - rewrite (Hnone v Hv) in Hx. by apply elem_of_nil in Hx.
Qed.

Lemma election_safety_of g0 g x y hx hy :
  started_group g0 → rtc gstep g0 g →
  hosts g !! x = Some hx → hosts g !! y = Some hy →
  role (hnode hx) = Leader → role (hnode hy) = Leader →
  currentTerm (state (hnode hx)) = currentTerm (state (hnode hy)) →
  (electionMembership (hnode hx) = electionMembership (hnode hy) ∨
   ∃ e universe, transitionMembership (electionMembership (hnode hx)) e universe =
                 (electionMembership (hnode hy), true)) →
  x = y.
Proof.
  intros Hstart Hrun Hx Hy Hrx Hry Ht Hcfg.
  destruct (group_reachable g0 g Hstart Hrun) as [L HL]. pose proof HL as [Hh _].
  destruct (Hh x hx Hx) as [_ [_ Hcx _]]. destruct (Hh y hy Hy) as [_ [_ Hcy _]].
  destruct (rn_leader _ _ (Hcx ltac:(congruence)) Hrx) as [Hqx _].
  destruct (rn_leader _ _ (Hcy ltac:(congruence)) Hry) as [Hqy _].
  assert (∃ v, voted (hnode hx) v = true ∧ voted (hnode hy) v = true) as (v & Hvx & Hvy).
  { destruct Hcfg as [E | (e & u & E)].
    - rewrite <- E in Hqy. destruct (quorum_intersection _ _ _ Hqx Hqy) as (v & _ & ? & ?). by exists v.
    - destruct (transition_quorum_intersection _ _ _ _ _ _ E Hqx Hqy) as (v & _ & _ & ? & ?). by exists v. }
  destruct (voter_chose L g x hx v HL Hx Hrx Hvx) as [Ex|Hbx];
    destruct (voter_chose L g y hy v HL Hy Hry Hvy) as [Ey|Hby]; [congruence | | |].
  - subst v. rewrite <- Ht in Hby. symmetry. by eapply leader_votes_itself.
  - subst v. rewrite Ht in Hbx. by eapply leader_votes_itself.
  - rewrite <- Ht in Hby. by eapply ledger_unique.
Qed.

(** C18.  Election safety: in any run of a group - with messages lost, delayed, reordered and
    duplicated, and hosts that crash before or after their writes and restart - two
    leaders of one term are one node, if they were elected in the same configuration or in
    two configurations one accepted change apart. *)
Theorem election_safety g0 g x y hx hy :
  started_group g0 → rtc gstep g0 g →
  hosts g !! x = Some hx → hosts g !! y = Some hy →
  role (hnode hx) = Leader → role (hnode hy) = Leader →
  currentTerm (state (hnode hx)) = currentTerm (state (hnode hy)) →
  (electionMembership (hnode hx) = electionMembership (hnode hy) ∨
   ∃ e universe, transitionMembership (electionMembership (hnode hx)) e universe =
                 (electionMembership (hnode hy), true)) →
  x = y.
Proof. apply election_safety_of. Qed.
End group.

(** ** A run of three nodes *)

Definition three_hosts : Group :=
  mkGroup (list_to_map (map (λ x, (x, mkHost (started_node x) empty_state)) ["a"; "b"; "c"])) [].

Definition result_of (n : Node) (i : Input) : Error + list Effect :=
  match Step n i with Done (_, r) => r | Panic => inl ErrInvalidInput end.

(** Node [x] takes an input; the host acknowledges a write of [x]. *)
Definition takes (g : Group) (x : NodeID) (n : Node) (d : PersistentState) (i : Input) : Group :=
  mkGroup (<[x := mkHost (node_after n i) d]> (hosts g)) (soup g ++ sends (effects_of (result_of n i))).
Definition acks (g : Group) (x : NodeID) (n : Node) (t : Z) : Group :=
  mkGroup (<[x := mkHost (node_after n (InputPersisted t)) (state n)]> (hosts g))
    (soup g ++ sends (effects_of (result_of n (InputPersisted t)))).

Lemma takes_step config g x n d i :
  hosts g !! x = Some (mkHost n d) → (∀ t, i ≠ InputPersisted t) → delivered (soup g) n i →
  Step n i = Done (node_after n i, result_of n i) → gstep config g (takes g x n d i).
Proof. intros Hx Hne Hi Hs. apply (g_host _ _ _ _ _ _ Hx). by apply (h_step _ _ n d i). Qed.

Lemma acks_step config g x n d t es :
  hosts g !! x = Some (mkHost n d) → Step n (InputPersisted t) = Done (node_after n (InputPersisted t), inr es) →
  gstep config g (acks g x n t).
Proof.
  intros Hx Hs. unfold acks, result_of. rewrite Hs. apply (g_host _ _ _ _ _ _ Hx). by eapply h_ack.
Qed.

Definition group1 : Group := takes three_hosts "a" (started_node "a") empty_state InputElectionTimeout.
Definition group2 : Group := acks group1 "a" candidate_a 1.
Definition group3 : Group := takes group2 "b" (started_node "b") empty_state (InputMessage vote_message).
Definition group4 : Group := acks group3 "b" voted_b 1.
Definition group5 : Group := takes group4 "a" persisted_a (state candidate_a) (InputMessage grant_message).

Lemma three_hosts_started : started_group group_config three_hosts.
Proof.
  split; [done |]. intros x h Hx. apply elem_of_list_to_map_2 in Hx.
  apply list_elem_of_fmap in Hx as (y & Hy & Hin). simplify_eq.
  assert (∃ n es, New (restart_config (group_config y) 0) empty_state = Done (inr n) ∧
            Start n = Done (started_node y, es)) as (n & es & Hn & Hs).
  { rewrite !elem_of_cons, elem_of_nil in Hin.
    destruct Hin as [-> | [-> | [-> | []]]]; by do 2 eexists. }
  split; [done |]. split; [by u64 |]. by exists n, 0, es.
Qed.

Lemma group5_reachable : rtc (gstep group_config) three_hosts group5.
Proof.
  apply (rtc_l _ _ group1). { apply takes_step; [reflexivity | done | done | reflexivity]. }
  apply (rtc_l _ _ group2). { eapply acks_step; [reflexivity | vm_compute; reflexivity]. }
  apply (rtc_l _ _ group3).
  { apply takes_step; [reflexivity | done | vm_compute; left | vm_compute; reflexivity]. }
  apply (rtc_l _ _ group4). { eapply acks_step; [reflexivity | vm_compute; reflexivity]. }
  apply rtc_once, takes_step; [reflexivity | done | | vm_compute; reflexivity].
  vm_compute. right. right. left.
Qed.

Lemma election_safety_witness : "a" = "a".
Proof.
  apply (election_safety group_config three_hosts group5 "a" "a" (mkHost leader_a (state candidate_a))
           (mkHost leader_a (state candidate_a)) three_hosts_started group5_reachable);
    try (vm_compute; reflexivity).
  left. reflexivity.
Defined.
