(* ===== verification/Json.v ===== *)
(** * JSON well-formedness (encoding/json's [Valid])

    The scanner the Standard Library of Go documents: the grammar of RFC 8259 on
    bytes (the encoding of non-ASCII text is not checked), at most 10000 levels of
    nesting.  The fuel is the length of the input: every recursive call is made
    after at least one byte was consumed. *)

From S2P Require Export Prelude.

Definition code (b : byte) : Z := Z.of_N (Byte.to_N b).

Definition is_space (b : byte) : bool :=
  match code b with 32 | 9 | 10 | 13 => true | _ => false end.
Definition is_digit (b : byte) : bool := (48 <=? code b) && (code b <=? 57).
Definition is_hex (b : byte) : bool :=
  is_digit b || ((97 <=? code b) && (code b <=? 102)) || ((65 <=? code b) && (code b <=? 70)).

Fixpoint skip_space (l : bytes) : bytes :=
  match l with b :: l' => if is_space b then skip_space l' else l | [] => [] end.

Fixpoint skip_digits (l : bytes) : bytes :=
  match l with b :: l' => if is_digit b then skip_digits l' else l | [] => [] end.

Definition one_digit (l : bytes) : option bytes :=
  match l with b :: l' => if is_digit b then Some (skip_digits l') else None | [] => None end.

(** The characters of a string after its opening quote. *)
Fixpoint scan_string (l : bytes) : option bytes :=
  match l with
  | [] => None
  | b :: l' =>
    let c := code b in
    if c =? 34 then Some l'
    else if c <? 32 then None
    else if c =? 92 then
      match l' with
      | e :: l'' =>
        match code e with
        | 34 | 92 | 47 | 98 | 102 | 110 | 114 | 116 => scan_string l''
        | 117 =>
          match l'' with
          | h1 :: h2 :: h3 :: h4 :: rest =>
            if is_hex h1 && is_hex h2 && is_hex h3 && is_hex h4 then scan_string rest else None
          | _ => None
          end
        | _ => None
        end
      | [] => None
      end
    else scan_string l'
  end.

Definition scan_fraction (l : bytes) : option bytes :=
  match l with
  | b :: l' => if code b =? 46 then one_digit l' else Some l
  | [] => Some []
  end.

Definition scan_exponent (l : bytes) : option bytes :=
  match l with
  | b :: l' =>
    if (code b =? 101) || (code b =? 69) then
      match l' with
      | s :: l'' => if (code s =? 43) || (code s =? 45) then one_digit l'' else one_digit l'
      | [] => None
      end
    else Some l
  | [] => Some []
  end.

(** A number after its optional sign. *)
Definition scan_number (l : bytes) : option bytes :=
  rest ← match l with
         | b :: l' => if code b =? 48 then Some l' else one_digit l
         | [] => None
         end;
  rest ← scan_fraction rest;
  scan_exponent rest.

Definition scan_literal (word l : bytes) : option bytes :=
  if bool_decide (take (length word) l = word) then Some (drop (length word) l) else None.

(** A value; [depth] is the nesting that is still allowed. *)
Fixpoint scan_value (fuel : nat) (depth : nat) (l : bytes) : option bytes :=
  match fuel with
  | O => None
  | S fuel =>
    match skip_space l with
    | [] => None
    | b :: l' =>
      match code b with
      | 123 => match depth with O => None | S depth =>
                 match skip_space l' with
                 | c :: rest => if code c =? 125 then Some rest
                                else scan_members fuel depth (c :: rest)
                 | [] => None
                 end end
      | 91 => match depth with O => None | S depth =>
                match skip_space l' with
                | c :: rest => if code c =? 93 then Some rest
                               else scan_elements fuel depth (c :: rest)
                | [] => None
                end end
      | 34 => scan_string l'
      | 45 => scan_number l'
      | 116 => scan_literal [x72; x75; x65] l'
      | 102 => scan_literal [x61; x6c; x73; x65] l'
      | 110 => scan_literal [x75; x6c; x6c] l'
      | _ => if is_digit b then scan_number (b :: l') else None
      end
    end
  end
with scan_members (fuel : nat) (depth : nat) (l : bytes) : option bytes :=
  match fuel with
  | O => None
  | S fuel =>
    match skip_space l with
    | q :: l' =>
      if code q =? 34 then
        rest ← scan_string l';
        match skip_space rest with
        | colon :: rest =>
          if code colon =? 58 then
            rest ← scan_value fuel depth rest;
            match skip_space rest with
            | c :: rest =>
              if code c =? 44 then scan_members fuel depth rest
              else if code c =? 125 then Some rest else None
            | [] => None
            end
          else None
        | [] => None
        end
      else None
    | [] => None
    end
  end
with scan_elements (fuel : nat) (depth : nat) (l : bytes) : option bytes :=
  match fuel with
  | O => None
  | S fuel =>
    rest ← scan_value fuel depth l;
    match skip_space rest with
    | c :: rest =>
      if code c =? 44 then scan_elements fuel depth rest
      else if code c =? 93 then Some rest else None
    | [] => None
    end
  end.

Definition json_valid (l : bytes) : bool :=
  match scan_value (2 * length l + 1) (Z.to_nat 10000) l with
  | Some rest => bool_decide (skip_space rest = [])
  | None => false
  end.

(** Strings as bytes. *)
Definition str (s : string) : bytes := String.list_byte_of_string s.

(** A quoted key followed by a value, and numbers, literals and nesting. *)
Example json_valid_examples :
  map json_valid
    [str "{}"; str "[1,2.5e-3,-0]"; str "{" ++ [x22; x61; x22] ++ str ":[true,null]}"; str "01";
     str "[1,]"; str "nul"; str " 7 "; []] =
  [true; true; true; false; false; false; true; false].
Proof. vm_compute. reflexivity. Qed.
