(* ===== verification/Heap.v ===== *)
(** * The event queue (queue.go)

    An indexed binary heap of pointers to events.  The events live in a store
    ([mem]), because the simulator's pending map holds the same pointers and
    [Cancel] finds an event's position in its [index] field.  An event's identifier
    is unique, so it serves as the pointer.  An index out of range or a missing
    event is a panic. *)

From S2P Require Export Prelude.

(** ** Data *)

Record EventTag := mkTag { TagKind : string; TagData : list Byte.byte }.

Record scheduledEvent (A : Type) := mkEvent {
  ev_id : Z;
  when : Z;
  tag : EventTag;
  action : option A;
  index : Z }.
Arguments mkEvent {A}.
Arguments ev_id {A}.
Arguments when {A}.
Arguments tag {A}.
Arguments action {A}.
Arguments index {A}.

Section heap.
Context {A : Type}.

Abbreviation event := (scheduledEvent A).
Abbreviation store := (gmap Z (scheduledEvent A)).
Abbreviation eventHeap := (list Z).

Definition set_index (e : event) (i : Z) : event :=
  mkEvent (ev_id e) (when e) (tag e) (action e) i.
Definition clear_action (e : event) : event :=
  mkEvent (ev_id e) (when e) (tag e) None (index e).

(** ** Operations *)

(** [h[i]] and the event it points to. *)
Definition at_ (h : eventHeap) (i : nat) : go Z :=
  match h !! i with Some x => Done x | None => Panic end.
Definition deref (mem : store) (x : Z) : go event :=
  match mem !! x with Some e => Done e | None => Panic end.

Definition event_lt (a b : event) : bool :=
  if negb (when a =? when b) then when a <? when b else ev_id a <? ev_id b.

Definition less (mem : store) (h : eventHeap) (i j : nat) : go bool :=
  x ← at_ h i; y ← at_ h j;
  a ← deref mem x; b ← deref mem y;
  Done (event_lt a b).

Definition write_index (mem : store) (x : Z) (i : nat) : go store :=
  e ← deref mem x; Done (<[x := set_index e (Z.of_nat i)]> mem).

Definition swap (mem : store) (h : eventHeap) (i j : nat) : go (store * eventHeap) :=
  x ← at_ h i; y ← at_ h j;
  let h := <[j := x]> (<[i := y]> h) in
  mem ← write_index mem y i;
  mem ← write_index mem x j;
  Done (mem, h).

Definition parent (i : nat) : nat := Nat.div2 (i - 1).

(** The loops halve or double the index: the fuel is the index for [up] and the
    length for [down]. *)
Fixpoint up (fuel : nat) (mem : store) (h : eventHeap) (i : nat) : go (store * eventHeap) :=
  match fuel with
  | O => Done (mem, h)
  | S fuel =>
    if (0 <? i)%nat then
      b ← less mem h i (parent i);
      if negb b then Done (mem, h)
      else
        '(mem, h) ← swap mem h i (parent i);
        up fuel mem h (parent i)
    else Done (mem, h)
  end.

(** The smaller child of [i]. *)
Definition smallest (mem : store) (h : eventHeap) (i : nat) : go nat :=
  let left := (2 * i + 1)%nat in
  let right := (left + 1)%nat in
  if (right <? length h)%nat then
    b ← less mem h right left;
    Done (if (b : bool) then right else left)
  else Done left.

Fixpoint downLoop (fuel : nat) (mem : store) (h : eventHeap) (i : nat)
    : go (store * eventHeap * nat) :=
  match fuel with
  | O => Done (mem, h, i)
  | S fuel =>
    let left := (2 * i + 1)%nat in
    if (length h <=? left)%nat then Done (mem, h, i)
    else
      c ← smallest mem h i;
      b ← less mem h c i;
      if negb b then Done (mem, h, i)
      else
        '(mem, h) ← swap mem h i c;
        downLoop fuel mem h c
  end.

Definition down (mem : store) (h : eventHeap) (i : nat) : go (store * eventHeap * bool) :=
  '(mem, h, i') ← downLoop (length h) mem h i;
  Done (mem, h, negb (i' =? i)%nat).

Definition push (mem : store) (h : eventHeap) (x : Z) : go (store * eventHeap) :=
  mem ← write_index mem x (length h);
  up (length h) mem (h ++ [x]) (length h).

(** [last] is -1 on the empty queue, an index out of range. *)
Definition remove (mem : store) (h : eventHeap) (i : Z) : go (store * eventHeap * Z) :=
  if (i <? 0) || (length h =? 0)%nat then Panic else
  let last := (length h - 1)%nat in
  '(mem, h) ← swap mem h (Z.to_nat i) last;
  x ← at_ h last;
  let h := take last h in
  e ← deref mem x;
  let mem := <[x := set_index e (-1)]> mem in
  if (Z.to_nat i =? last)%nat then Done (mem, h, x)
  else
    '(mem, h, moved) ← down mem h (Z.to_nat i);
    if (moved : bool) then Done (mem, h, x)
    else
      '(mem, h) ← up (Z.to_nat i) mem h (Z.to_nat i);
      Done (mem, h, x).

Definition pop (mem : store) (h : eventHeap) : go (store * eventHeap * Z) := remove mem h 0.

(** ** Order *)

(** [κ] gives the time of each pointer; ties are broken by the identifier. *)
Definition key_lt (κ : Z → Z) (x y : Z) : bool :=
  if negb (κ x =? κ y) then κ x <? κ y else x <? y.

Definition key_le (κ : Z → Z) (x y : Z) : Prop := key_lt κ y x = false.

Lemma key_lt_spec κ x y : key_lt κ x y = true ↔ κ x < κ y ∨ (κ x = κ y ∧ x < y).
Proof. unfold key_lt. destruct (Z.eqb_spec (κ x) (κ y)); simpl; reflect; lia. Qed.

Lemma key_le_spec κ x y : key_le κ x y ↔ κ x < κ y ∨ (κ x = κ y ∧ x ≤ y).
Proof.
  unfold key_le. rewrite <- Bool.not_true_iff_false, key_lt_spec. lia.
Qed.

Lemma key_lt_le κ x y : key_lt κ x y = true → key_le κ x y.
Proof. rewrite key_lt_spec, key_le_spec. lia. Qed.

Lemma key_le_trans κ x y z : key_le κ x y → key_le κ y z → key_le κ x z.
Proof. rewrite !key_le_spec. lia. Qed.

Lemma key_le_refl κ x : key_le κ x x.
Proof. rewrite key_le_spec. lia. Qed.

(** ** Coherence of the store and the queue *)

Definition coherent (κ : Z → Z) (mem : store) (h : eventHeap) : Prop :=
  ∀ i x, h !! i = Some x →
  ∃ e, mem !! x = Some e ∧ ev_id e = x ∧ when e = κ x ∧ index e = Z.of_nat i.

(** Everything of an event but its position. *)
Definition erase (e : event) : event := set_index e 0.
Definition erased (mem : store) : store := erase <$> mem.

Lemma coherent_inj κ mem h i j x : coherent κ mem h → h !! i = Some x → h !! j = Some x → i = j.
Proof.
  intros Hc Hi Hj. destruct (Hc _ _ Hi) as (e & He & _ & _ & H1).
  destruct (Hc _ _ Hj) as (e' & He' & _ & _ & H2). simplify_eq. lia.
Qed.

Lemma coherent_NoDup κ mem h : coherent κ mem h → NoDup h.
Proof. intros Hc. apply NoDup_alt. intros i j x. by eapply coherent_inj. Qed.

Definition swapped (h : eventHeap) (i j : nat) (x y : Z) : eventHeap := <[j := x]> (<[i := y]> h).

Lemma length_swapped h i j x y : length (swapped h i j x y) = length h.
Proof. unfold swapped. by rewrite !length_insert. Qed.

Lemma lookup_swapped h i j x y k :
  h !! i = Some x → h !! j = Some y →
  swapped h i j x y !! k = if decide (k = i) then Some y else if decide (k = j) then Some x else h !! k.
Proof.
  intros Hi Hj. pose proof (lookup_lt_Some _ _ _ Hi). pose proof (lookup_lt_Some _ _ _ Hj).
  unfold swapped. destruct (decide (k = j)) as [->|].
  - rewrite list_lookup_insert_eq by (rewrite length_insert; lia).
    case_decide; [subst; congruence | done].
  - rewrite list_lookup_insert_ne by done. case_decide as E.
    + subst. by rewrite list_lookup_insert_eq.
    + by rewrite list_lookup_insert_ne.
Qed.

Lemma elem_of_swapped h i j x y z :
  h !! i = Some x → h !! j = Some y → z ∈ swapped h i j x y ↔ z ∈ h.
Proof.
  intros Hi Hj. rewrite !list_elem_of_lookup. split; intros [k Hk].
  - rewrite (lookup_swapped h i j x y) in Hk by done. repeat case_decide; simplify_eq; eauto.
  - destruct (decide (k = i)) as [->|]; [| destruct (decide (k = j)) as [->|]].
    + exists j. rewrite (lookup_swapped h i j x y) by done. repeat case_decide; congruence.
    + exists i. rewrite (lookup_swapped h i j x y) by done. repeat case_decide; congruence.
    + exists k. rewrite (lookup_swapped h i j x y) by done. by repeat case_decide.
Qed.

Lemma event_lt_key κ e e' x y :
  ev_id e = x → when e = κ x → ev_id e' = y → when e' = κ y → event_lt e e' = key_lt κ x y.
Proof. intros <- H1 <- H2. unfold event_lt, key_lt. by rewrite H1, H2. Qed.

Lemma less_ok κ mem h i j x y :
  coherent κ mem h → h !! i = Some x → h !! j = Some y → less mem h i j = Done (key_lt κ x y).
Proof.
  intros Hc Hi Hj. destruct (Hc _ _ Hi) as (e & He & H1 & H2 & _).
  destruct (Hc _ _ Hj) as (e' & He' & H3 & H4 & _).
  unfold less, at_, deref. rewrite Hi, Hj. simpl. rewrite He, He'. simpl.
  by rewrite (event_lt_key κ e e' x y).
Qed.

Lemma erased_insert mem x e i :
  mem !! x = Some e → erased (<[x := set_index e i]> mem) = erased mem.
Proof.
  intros Hx. unfold erased. rewrite fmap_insert. apply map_eq. intros z.
  destruct (decide (z = x)) as [->|].
  - by rewrite lookup_insert_eq, lookup_fmap, Hx.
  - by rewrite lookup_insert_ne by done.
Qed.

(** The swap puts both events at the other's position and records it. *)
Lemma swap_ok κ mem h i j x y :
  coherent κ mem h → h !! i = Some x → h !! j = Some y →
  wp (swap mem h i j) (λ '(mem', h'),
    h' = swapped h i j x y ∧ coherent κ mem' h' ∧ erased mem' = erased mem).
Proof.
  intros Hc Hi Hj. destruct (Hc _ _ Hi) as (e & He & H1 & H2 & H3).
  destruct (Hc _ _ Hj) as (e' & He' & H4 & H5 & H6).
  unfold swap, at_, write_index, deref. rewrite Hi, Hj. simpl. rewrite He'. simpl.
  assert (∃ e1, <[y := set_index e' (Z.of_nat i)]> mem !! x = Some e1 ∧ ev_id e1 = x ∧ when e1 = κ x)
    as (e1 & He1 & H7 & H8).
  { destruct (decide (x = y)) as [->|].
    - eexists. by rewrite lookup_insert_eq.
    - exists e. by rewrite lookup_insert_ne by done. }
  rewrite He1. simpl. fold (swapped h i j x y). split_and!; [done | |].
  - assert (x = y → i = j) as Hxy by (intros <-; by eapply coherent_inj).
    assert (∀ k z, h !! k = Some z → z = x → k = i) as Hx by (intros; subst; by eapply coherent_inj).
    assert (∀ k z, h !! k = Some z → z = y → k = j) as Hy by (intros; subst; by eapply coherent_inj).
    intros k z Hk. rewrite (lookup_swapped h i j x y) in Hk by done.
    destruct (decide (z = x)) as [Ez|Hzx].
    + rewrite Ez, lookup_insert_eq. eexists. split_and!; try done. simpl. f_equal.
      destruct (decide (k = i)); [injection Hk as Hk; symmetry; rewrite e0; apply Hxy; congruence |].
      destruct (decide (k = j)); [done | naive_solver].
    + rewrite lookup_insert_ne by done. destruct (decide (z = y)) as [Ez|Hzy].
      * rewrite Ez, lookup_insert_eq. eexists. split_and!; try done. simpl. f_equal.
        destruct (decide (k = i)); [done |].
        destruct (decide (k = j)); [naive_solver | naive_solver].
      * rewrite lookup_insert_ne by done. repeat case_decide; simplify_eq. by apply Hc.
  - by rewrite (erased_insert _ x e1), (erased_insert _ y e').
Qed.

(** ** Heap order *)

Lemma parent_spec j : (0 < j)%nat → j = (2 * parent j + 1)%nat ∨ j = (2 * parent j + 2)%nat.
Proof.
  intros. unfold parent. pose proof (Nat.div2_odd (j - 1)) as H1.
  destruct (Nat.odd (j - 1)); simpl Nat.b2n in H1; lia.
Qed.

(** The events at two positions are in order (or one position is out of range). *)
Definition ordered (κ : Z → Z) (h : eventHeap) (i j : nat) : Prop :=
  ∀ x y, h !! i = Some x → h !! j = Some y → key_le κ x y.

Definition heap_ordered (κ : Z → Z) (h : eventHeap) : Prop :=
  ∀ j, (0 < j)%nat → ordered κ h (parent j) j.

(** The children of [i] are in order with its parent. *)
Definition bridged (κ : Z → Z) (h : eventHeap) (i : nat) : Prop :=
  ∀ j, (0 < j)%nat → parent j = i → (0 < i)%nat → ordered κ h (parent i) j.

(** In order but for the pair of [i] and its parent, and but for the pairs of [i]. *)
Definition up_inv (κ : Z → Z) (h : eventHeap) (i : nat) : Prop :=
  (∀ j, (0 < j)%nat → j ≠ i → ordered κ h (parent j) j) ∧ bridged κ h i.
Definition hole_inv (κ : Z → Z) (h : eventHeap) (i : nat) : Prop :=
  (∀ j, (0 < j)%nat → j ≠ i → parent j ≠ i → ordered κ h (parent j) j) ∧ bridged κ h i.

Lemma up_inv_root κ h : up_inv κ h 0 → heap_ordered κ h.
Proof. intros [H _] j Hj. apply H; lia. Qed.

(** One step up: the event at [i] moves to its parent's position. *)
Lemma up_inv_step κ h i x y :
  (0 < i)%nat → h !! i = Some x → h !! parent i = Some y → key_le κ x y →
  up_inv κ h i → up_inv κ (swapped h i (parent i) x y) (parent i).
Proof.
  intros Hi Hx Hy Hle [Hord Hbr]. pose proof (parent_spec i Hi) as Hp.
  split.
  - intros j Hj Hne u v. rewrite !(lookup_swapped h i (parent i) x y) by done.
    pose proof (parent_spec j Hj). intros Hu Hv.
    destruct (decide (j = i)) as [->|Hji].
    { destruct (decide (parent i = i)); [lia |]. rewrite decide_True in Hu by done. by simplify_eq. }
    rewrite (decide_False (P := j = parent i)) in Hv by done.
    destruct (decide (parent j = i)) as [E|].
    { simplify_eq. by apply (Hbr j). }
    destruct (decide (parent j = parent i)) as [E|].
    { simplify_eq. eapply key_le_trans; [exact Hle |]. apply (Hord j Hj Hji); [by rewrite E | done]. }
    by apply (Hord j).
  - intros j Hj Hpj Hpi u v. rewrite !(lookup_swapped h i (parent i) x y) by done.
    pose proof (parent_spec j Hj). pose proof (parent_spec (parent i) Hpi).
    rewrite (decide_False (P := parent (parent i) = i)) by lia.
    rewrite (decide_False (P := parent (parent i) = parent i)) by lia. intros Hu Hv.
    assert (key_le κ u y) as Huy by (apply (Hord (parent i)); (done || lia)).
    destruct (decide (j = i)); [by simplify_eq |].
    rewrite (decide_False (P := j = parent i)) in Hv by lia.
    eapply key_le_trans; [exact Huy |]. apply (Hord j); [done | done | by rewrite Hpj | done].
Qed.

(** What the sifting loops keep: the events, the coherence, and the store up to
    positions. *)
Definition sifted (κ : Z → Z) (mem : store) (h : eventHeap) (mem' : store) (h' : eventHeap) : Prop :=
  coherent κ mem' h' ∧ erased mem' = erased mem ∧ length h' = length h ∧ (∀ z, z ∈ h' ↔ z ∈ h).

Lemma sifted_refl κ mem h : coherent κ mem h → sifted κ mem h mem h.
Proof. done. Qed.

Lemma sifted_trans κ m1 h1 m2 h2 m3 h3 :
  sifted κ m1 h1 m2 h2 → sifted κ m2 h2 m3 h3 → sifted κ m1 h1 m3 h3.
Proof.
  intros (_ & E1 & L1 & P1) (C & E2 & L2 & P2). split_and!; [done | congruence | congruence |].
  intros z. by rewrite P2.
Qed.

Lemma swap_sifted κ mem h i j x y :
  coherent κ mem h → h !! i = Some x → h !! j = Some y →
  wp (swap mem h i j) (λ '(mem', h'), h' = swapped h i j x y ∧ sifted κ mem h mem' h').
Proof.
  intros Hc Hi Hj. eapply wp_mono; [by eapply swap_ok |]. intros [mem' h'] (-> & Hc' & He).
  split_and!; try done. split_and!; [done | done | apply length_swapped |].
  intros z. by apply elem_of_swapped.
Qed.

Lemma up_ok κ fuel mem h i :
  coherent κ mem h → (i < length h)%nat → (i ≤ fuel)%nat → up_inv κ h i →
  wp (up fuel mem h i) (λ '(mem', h'), sifted κ mem h mem' h' ∧ heap_ordered κ h').
Proof.
  revert mem h i. induction fuel as [|fuel IH]; intros mem h i Hc Hi Hf Hup; simpl.
  { assert (i = 0)%nat as -> by lia. split; [by apply sifted_refl | by apply up_inv_root]. }
  destruct (Nat.ltb_spec 0 i) as [Hpos|]; simpl.
  2: { assert (i = 0)%nat as -> by lia. split; [by apply sifted_refl | by apply up_inv_root]. }
  pose proof (parent_spec i Hpos).
  destruct (lookup_lt_is_Some_2 h i Hi) as [x Hx].
  destruct (lookup_lt_is_Some_2 h (parent i)) as [y Hy]; [lia |].
  rewrite (less_ok κ mem h i (parent i) x y) by done. simpl.
  destruct (key_lt κ x y) eqn:E; simpl.
  - apply wp_bind. eapply wp_mono; [by apply (swap_sifted κ mem h i (parent i) x y) |].
    intros [mem1 h1] [-> Hs]. eapply wp_mono; [apply IH |].
    + apply Hs.
    + rewrite length_swapped. lia.
    + lia.
    + apply up_inv_step; try done. by apply key_lt_le.
    + intros [mem2 h2] [Hs2 Ho]. split; [by eapply sifted_trans | done].
  - split; [by apply sifted_refl |]. intros j Hj. destruct Hup as [Hord _].
    destruct (decide (j = i)) as [->|]; [| by apply Hord].
    intros u v Hu Hv. simplify_eq. exact E.
Qed.

Lemma smallest_ok κ mem h i :
  coherent κ mem h → (2 * i + 1 < length h)%nat →
  wp (smallest mem h i) (λ c, (c < length h)%nat ∧ (0 < c)%nat ∧ parent c = i ∧
    ∀ j, (0 < j)%nat → parent j = i → ordered κ h c j).
Proof.
  intros Hc Hl. unfold smallest.
  assert (∀ c, c = (2 * i + 1)%nat ∨ c = (2 * i + 2)%nat → (0 < c)%nat ∧ parent c = i) as Hpar.
  { intros c Hcc. assert (0 < c)%nat as H0 by lia. pose proof (parent_spec c H0). lia. }
  destruct (lookup_lt_is_Some_2 h (2 * i + 1)) as [y Hy]; [done |].
  destruct (Nat.ltb_spec (2 * i + 1 + 1) (length h)) as [Hr|Hr].
  - destruct (lookup_lt_is_Some_2 h (2 * i + 1 + 1)) as [z Hz]; [done |].
    rewrite (less_ok κ mem h _ _ z y) by done. cbn [mbind go_bind].
    destruct (key_lt κ z y) eqn:E; (split; [lia |]; split; [lia |]; split; [apply Hpar; lia |]);
      intros j Hj Hpj u v Hu Hv; destruct (parent_spec j Hj) as [Ej|Ej]; rewrite Hpj in Ej; subst j;
      replace (2 * i + 2)%nat with (2 * i + 1 + 1)%nat in * by lia; simplify_eq;
      first [by apply key_le_refl | by apply key_lt_le | exact E].
  - split; [lia |]. split; [lia |]. split; [apply Hpar; lia |].
    intros j Hj Hpj u v Hu Hv. apply lookup_lt_Some in Hv as Hlt.
    destruct (parent_spec j Hj) as [Ej|Ej]; rewrite Hpj in Ej; subst j; [| lia].
    simplify_eq. apply key_le_refl.
Qed.

(** One step down: the smaller child moves up. *)
Lemma hole_inv_step κ h i c x y :
  (0 < c)%nat → parent c = i → h !! i = Some x → h !! c = Some y → key_le κ y x →
  (∀ j, (0 < j)%nat → parent j = i → ordered κ h c j) →
  hole_inv κ h i →
  hole_inv κ (swapped h i c x y) c ∧ ordered κ (swapped h i c x y) (parent c) c.
Proof.
  intros Hc Hpc Hx Hy Hle Hsm [Hord Hbr]. pose proof (parent_spec c Hc). split; [split |].
  - intros j Hj Hjc Hpj u v. rewrite !(lookup_swapped h i c x y) by done.
    pose proof (parent_spec j Hj). rewrite !(decide_False (P := _ = c)) by done. intros Hu Hv.
    destruct (decide (j = i)) as [Eji|Hji].
    { rewrite decide_False in Hu by lia. simplify_eq. by apply (Hbr c). }
    destruct (decide (parent j = i)) as [Epi|]; [| by apply (Hord j)].
    simplify_eq. by apply (Hsm j).
  - intros j Hj Hpj _ u v. rewrite !(lookup_swapped h i c x y) by done. pose proof (parent_spec j Hj).
    rewrite (decide_True (P := parent c = i)) by done.
    rewrite (decide_False (P := j = i)), (decide_False (P := j = c)) by lia. intros Hu Hv. simplify_eq.
    apply (Hord j); [done | lia | lia | congruence | done].
  - intros u v. rewrite !(lookup_swapped h i c x y) by done. rewrite Hpc.
    rewrite (decide_True (P := i = i)) by done. rewrite (decide_False (P := c = i)) by lia.
    rewrite (decide_True (P := c = c)) by done. intros Hu Hv. by simplify_eq.
Qed.

Lemma downLoop_ok κ fuel mem h i :
  coherent κ mem h → (i < length h)%nat → (length h ≤ fuel + i)%nat → hole_inv κ h i →
  wp (downLoop fuel mem h i) (λ '(mem', h', i'),
    (i' = i ∧ mem' = mem ∧ h' = h ∧ up_inv κ h i) ∨
    ((i < i')%nat ∧ sifted κ mem h mem' h' ∧ heap_ordered κ h')).
Proof.
  revert mem h i. induction fuel as [|fuel IH]; intros mem h i Hc Hi Hf Hinv; [lia | cbn [downLoop]].
  pose proof Hinv as [Hord Hbr].
  destruct (Nat.leb_spec (length h) (2 * i + 1)) as [Hleaf|Hl].
  { left. split_and!; try done. split; [| done]. intros j Hj Hji.
    destruct (decide (parent j = i)) as [E|]; [| by apply Hord].
    intros u v Hu Hv. apply lookup_lt_Some in Hv. pose proof (parent_spec j Hj). lia. }
  apply wp_bind. eapply wp_mono; [by apply (smallest_ok κ) |]. intros c (Hcl & Hc0 & Hpc & Hsm).
  pose proof (parent_spec c Hc0).
  destruct (lookup_lt_is_Some_2 h i Hi) as [x Hx]. destruct (lookup_lt_is_Some_2 h c Hcl) as [y Hy].
  rewrite (less_ok κ mem h c i y x) by done. cbn [mbind go_bind].
  destruct (key_lt κ y x) eqn:E; cbn [negb].
  - apply wp_bind. eapply wp_mono; [by apply (swap_sifted κ mem h i c x y) |].
    intros [mem1 h1] [-> Hs].
    destruct (hole_inv_step κ h i c x y) as [Hinv1 Hpar]; try done; [by apply key_lt_le |].
    eapply wp_mono; [apply IH |].
    + apply Hs.
    + rewrite length_swapped. lia.
    + rewrite length_swapped. lia.
    + done.
    + intros [[mem2 h2] i2] [(-> & -> & -> & [Hup _]) | (Hne & Hs2 & Ho)]; right.
      * split_and!; [lia | done |]. intros j Hj. destruct (decide (j = c)) as [->|]; [done | by apply Hup].
      * split_and!; [lia | by eapply sifted_trans | done].
  - left. split_and!; try done. split; [| done]. intros j Hj Hji.
    destruct (decide (parent j = i)) as [Epi|]; [| by apply Hord].
    rewrite Epi. intros u v Hu Hv. simplify_eq.
    eapply key_le_trans; [exact E |]. by apply (Hsm j).
Qed.

Lemma down_ok κ mem h i :
  coherent κ mem h → (i < length h)%nat → hole_inv κ h i →
  wp (down mem h i) (λ '(mem', h', moved),
    if (moved : bool) then sifted κ mem h mem' h' ∧ heap_ordered κ h'
    else mem' = mem ∧ h' = h ∧ up_inv κ h i).
Proof.
  intros Hc Hi Hinv. unfold down. apply wp_bind.
  eapply wp_mono; [apply (downLoop_ok κ); [done | done | lia | done] |].
  intros [[mem' h'] i'] [(-> & -> & -> & Hup) | (Hlt & Hs & Ho)]; simpl.
  - by rewrite Nat.eqb_refl.
  - by rewrite (proj2 (Nat.eqb_neq i' i)) by lia.
Qed.

(** The root is the least event. *)
Lemma heap_root_min κ h r i x :
  heap_ordered κ h → h !! 0%nat = Some r → h !! i = Some x → key_le κ r x.
Proof.
  intros Ho Hr. revert x. induction (lt_wf i) as [i _ IH]; intros x Hx.
  destruct (decide (i = 0)%nat) as [->|]; [simplify_eq; apply key_le_refl |].
  pose proof (parent_spec i ltac:(lia)). pose proof (lookup_lt_Some _ _ _ Hx).
  destruct (lookup_lt_is_Some_2 h (parent i)) as [y Hy]; [lia |].
  eapply key_le_trans; [apply (IH (parent i)); [lia | done] |]. by apply (Ho i ltac:(lia)).
Qed.

(** ** Insertion and removal *)

Lemma push_ok κ mem h x e :
  coherent κ mem h → heap_ordered κ h → x ∉ h →
  mem !! x = Some e → ev_id e = x → when e = κ x →
  wp (push mem h x) (λ '(mem', h'),
    coherent κ mem' h' ∧ heap_ordered κ h' ∧ erased mem' = erased mem ∧
    (∀ z, z ∈ h' ↔ z = x ∨ z ∈ h) ∧ length h' = S (length h)).
Proof.
  intros Hc Ho Hx He Hid Hw. unfold push, write_index, deref. rewrite He. simpl.
  set (mem1 := <[x := _]> mem).
  assert (coherent κ mem1 (h ++ [x])) as Hc1.
  { intros k z [Hk | [Hk Hz]]%lookup_app_Some.
    - unfold mem1. rewrite lookup_insert_ne; [by apply Hc |].
      intros <-. apply Hx. by eapply list_elem_of_lookup_2.
    - apply list_lookup_singleton_Some in Hz as [Hk0 <-]. unfold mem1. rewrite lookup_insert_eq.
      eexists. split_and!; try done. simpl. lia. }
  eapply wp_mono; [apply (up_ok κ) |].
  - done.
  - rewrite length_app. simpl. lia.
  - done.
  - split.
    + intros j Hj Hne u v Hu Hv. pose proof (lookup_lt_Some _ _ _ Hv) as Hl.
      rewrite length_app in Hl. simpl in Hl. pose proof (parent_spec j Hj).
      rewrite lookup_app_l in Hu, Hv by lia. by apply (Ho j).
    + intros j Hj Hpj _ u v _ Hv. apply lookup_lt_Some in Hv. rewrite length_app in Hv. simpl in Hv.
      pose proof (parent_spec j Hj). lia.
  - intros [mem' h'] [(Hc' & He' & Hl & Hz) Ho']. split_and!; try done.
    + rewrite He'. unfold mem1. by rewrite (erased_insert _ x e).
    + intros z. rewrite Hz, elem_of_app, list_elem_of_singleton. tauto.
    + rewrite Hl, length_app. simpl. lia.
Qed.

(** The queue after the event at [i] was replaced by the last one. *)
Lemma removed_hole κ h i h2 :
  heap_ordered κ h → (i < length h2)%nat → length h = S (length h2) →
  (∀ k, (k < length h2)%nat → k ≠ i → h2 !! k = h !! k) →
  hole_inv κ h2 i.
Proof.
  intros Ho Hi Hlen Hk. split.
  - intros j Hj Hji Hpj u v Hu Hv. pose proof (parent_spec j Hj). pose proof (lookup_lt_Some _ _ _ Hv).
    rewrite Hk in Hu, Hv by lia. by apply (Ho j).
  - intros j Hj Hpj Hi0 u v Hu Hv. pose proof (parent_spec j Hj). pose proof (parent_spec i Hi0).
    pose proof (lookup_lt_Some _ _ _ Hv). rewrite Hk in Hu, Hv by lia.
    destruct (lookup_lt_is_Some_2 h i) as [w Hw]; [lia |].
    eapply key_le_trans; [by apply (Ho i) |]. apply (Ho j Hj); [by rewrite Hpj | done].
Qed.

(** Taking the last event of a coherent queue away. *)
Lemma coherent_last κ mem h2 x e :
  coherent κ mem (h2 ++ [x]) → mem !! x = Some e →
  coherent κ (<[x := set_index e (-1)]> mem) h2 ∧ x ∉ h2.
Proof.
  intros Hc He. pose proof (coherent_NoDup _ _ _ Hc) as Hnd.
  apply NoDup_app in Hnd as (_ & Hnx & _).
  assert (x ∉ h2) as Hx by (intros Hx; apply (Hnx x Hx); by left). split; [| done].
  intros j z Hj. rewrite lookup_insert_ne.
  - apply Hc. by apply lookup_app_l_Some.
  - intros <-. by apply Hx, list_elem_of_lookup_2 with j.
Qed.

(** The swapped queue ends in the removed event and keeps the other positions. *)
Lemma swapped_last h k l x y :
  h !! k = Some x → h !! l = Some y → length h = S l →
  ∃ h2, swapped h k l x y = h2 ++ [x] ∧ length h2 = l ∧ take l (swapped h k l x y) = h2 ∧
    ∀ j, (j < l)%nat → j ≠ k → h2 !! j = h !! j.
Proof.
  intros Hx Hy Hlen. set (h1 := swapped h k l x y).
  assert (h1 !! l = Some x) as Hl1.
  { unfold h1. rewrite (lookup_swapped h k l x y) by done. case_decide; [subst; congruence |].
    by rewrite decide_True. }
  assert (length h1 = S l) as Hlen1 by (unfold h1; rewrite length_swapped; lia).
  exists (take l h1). split_and!; [| rewrite length_take; lia | done |].
  - rewrite <- (take_drop l h1) at 1. f_equal. rewrite (drop_S _ _ _ Hl1).
    by rewrite drop_ge by lia.
  - intros j Hj Hjk. rewrite lookup_take_lt by lia.
    unfold h1. rewrite (lookup_swapped h k l x y) by done. by rewrite !decide_False by lia.
Qed.

Lemma remove_ok κ mem h i x :
  coherent κ mem h → heap_ordered κ h → 0 ≤ i → h !! Z.to_nat i = Some x →
  wp (remove mem h i) (λ '(mem', h', y),
    y = x ∧ coherent κ mem' h' ∧ heap_ordered κ h' ∧ erased mem' = erased mem ∧
    (∀ z, z ∈ h' ↔ z ≠ x ∧ z ∈ h) ∧ length h = S (length h')).
Proof.
  intros Hc Ho Hi Hx. pose proof (lookup_lt_Some _ _ _ Hx) as Hlt. unfold remove.
  destruct (Z.ltb_spec i 0); [lia |]. destruct (Nat.eqb_spec (length h) 0); [lia |]. cbn [orb]. cbv zeta.
  set (l := (length h - 1)%nat). set (k := Z.to_nat i) in *.
  destruct (lookup_lt_is_Some_2 h l) as [y Hy]; [unfold l; lia |].
  apply wp_bind. eapply wp_mono; [by apply (swap_sifted κ mem h k l x y) |].
  intros [mem1 h1] [-> (Hc1 & He1 & _ & Hz1)].
  destruct (swapped_last h k l x y Hx Hy) as (h2 & Happ & Hlen & Htake & Hsame); [unfold l; lia |].
  rewrite Htake. rewrite Happ in *. unfold at_, deref.
  assert ((h2 ++ [x]) !! l = Some x) as Hlast by (rewrite <- Hlen; by apply list_lookup_middle).
  rewrite Hlast. cbn [mbind go_bind].
  destruct (Hc1 _ _ Hlast) as (e & He & _). rewrite He. cbn [mbind go_bind].
  destruct (coherent_last κ mem1 h2 x e Hc1 He) as [Hc2 Hnx].
  pose proof (erased_insert mem1 x e (-1) He) as He2. set (mem2 := <[x := _]> mem1) in *.
  assert (∀ z, z ∈ h2 ↔ z ≠ x ∧ z ∈ h) as Hz2.
  { intros z. rewrite <- Hz1, elem_of_app, list_elem_of_singleton. split; [| tauto].
    intros Hzz. split; [by intros -> | by left]. }
  destruct (Nat.eqb_spec k l) as [Ekl|Hkl].
  - split_and!; try done; [| congruence | lia]. intros j Hj u v Hu Hv. pose proof (parent_spec j Hj).
    pose proof (lookup_lt_Some _ _ _ Hv). rewrite Hsame in Hu, Hv by lia. by apply (Ho j).
  - assert (k < length h2)%nat as Hk2 by lia.
    apply wp_bind. eapply wp_mono; [apply (down_ok κ mem2 h2 k); [done | done |] |].
    { apply (removed_hole κ h); try done; [lia | by rewrite Hlen]. }
    intros [[mem3 h3] moved] H3. destruct moved.
    + destruct H3 as [(Hc3 & He3 & Hl3 & Hz3) Ho3]. split_and!; try done; [congruence | | lia].
      intros z. by rewrite Hz3.
    + destruct H3 as (-> & -> & Hup). apply wp_bind.
      eapply wp_mono; [by apply (up_ok κ) |].
      intros [mem4 h4] [(Hc4 & He4 & Hl4 & Hz4) Ho4]. split_and!; try done; [congruence | | lia].
      intros z. by rewrite Hz4.
Qed.
End heap.
