(* ===== verification/Simulator.v ===== *)
(** * The discrete-event scheduler (simulator.go)

    The simulator's state, its operations, and the run loops.  An action is an
    arbitrary value of a type [A]; [run_action] says what invoking it does to the
    simulator.  A trace sink is the list of the events it received. *)

From S2P Require Export Heap Json.

(** ** Data *)

Inductive SimError :=
| ErrNegativeTime | ErrPast | ErrTimeOverflow | ErrEventIDExhausted | ErrUncacheableState
| ErrInvalidEventTag | ErrNilAction.

(** The scheduler's events in a trace: the current time, the event, its time. *)
Inductive SimTrace :=
| TraceEventScheduled (at_ns : Z) (event : Z) (scheduled_for : Z)
| TraceEventCanceled (at_ns : Z) (event : Z) (scheduled_for : Z)
| TraceEventExecuted (at_ns : Z) (event : Z)
| TraceClockAdvanced (at_ns : Z).

Definition event_kinds : list string :=
  ["network_delivery"; "storage_completion"; "persistence_ack"; "election_timer";
   "heartbeat_timer"; "external_action"; "scheduled_crash"; "scheduled_restart"].

Record PendingEventState := mkPendingEvent {
  PeID : Z; AtNS : Z; Order : Z; PeTag : EventTag }.

Record SimulatorState := mkSimulatorState {
  SsNowNS : Z; SsNextID : Z; SsExhausted : bool; SsEvents : list PendingEventState }.

(** [pending] is the set of keys of the pending map: the map sends an identifier to
    the event of that identifier, whose fields are in [mem]. *)
Record Simulator (A : Type) := mkSim {
  mem : gmap Z (scheduledEvent A);
  now : Z;
  queue : list Z;
  pending : gset Z;
  nextID : Z;
  exhausted : bool;
  trace : option (list SimTrace) }.
Arguments mkSim {A}.
Arguments mem {A}.
Arguments now {A}.
Arguments queue {A}.
Arguments pending {A}.
Arguments nextID {A}.
Arguments exhausted {A}.
Arguments trace {A}.

Definition emptyTag : EventTag := mkTag "" [].

Definition validateEventTag (t : EventTag) : option SimError :=
  if negb (bool_decide (TagKind t ∈ event_kinds)) then Some ErrInvalidEventTag
  else if (length (TagData t) =? 0)%nat || negb (json_valid (TagData t)) then Some ErrInvalidEventTag
  else None.

Definition cloneEventTag (t : EventTag) : EventTag := mkTag (TagKind t) (TagData t).

Section simulator.
Context {A : Type}.
Abbreviation Sim := (Simulator A).

(** ** Construction and field updates *)

Definition New : Sim := mkSim ∅ 0 [] ∅ 1 false None.

Definition SetTraceSink (s : Sim) (sink : option (list SimTrace)) : Sim :=
  mkSim (mem s) (now s) (queue s) (pending s) (nextID s) (exhausted s) sink.
Definition set_now (s : Sim) (t : Z) : Sim :=
  mkSim (mem s) t (queue s) (pending s) (nextID s) (exhausted s) (trace s).
Definition set_heap (s : Sim) (m : gmap Z (scheduledEvent A)) (h : list Z) : Sim :=
  mkSim m (now s) h (pending s) (nextID s) (exhausted s) (trace s).
Definition set_pending (s : Sim) (p : gset Z) : Sim :=
  mkSim (mem s) (now s) (queue s) p (nextID s) (exhausted s) (trace s).

Definition recordTrace (s : Sim) (e : SimTrace) : Sim :=
  match trace s with
  | Some l => SetTraceSink s (Some (l ++ [e]))
  | None => s
  end.

Definition Len (s : Sim) : nat := length (queue s).

(** ** Scheduling *)

Definition scheduleAt (s : Sim) (at_ : Z) (t : EventTag) (act : option A)
    : go (Sim * (SimError + Z)) :=
  if at_ <? 0 then Done (s, inl ErrNegativeTime)
  else if at_ <? now s then Done (s, inl ErrPast)
  else match act with
  | None => Done (s, inl ErrNilAction)
  | Some _ =>
    if exhausted s then Done (s, inl ErrEventIDExhausted)
    else
    let next := if nextID s =? 0 then 1 else nextID s in
    let id := next in
    let '(next, exh) := if id =? max_u64 then (next, true) else (wrap64 (next + 1), false) in
    let event := mkEvent id at_ t act 0 in
    '(m, h) ← push (<[id := event]> (mem s)) (queue s) id;
    let s := mkSim m (now s) h ({[id]} ∪ pending s) next exh (trace s) in
    Done (recordTrace s (TraceEventScheduled (now s) id at_), inr id)
  end.

Definition ScheduleAt (s : Sim) (at_ : Z) (act : option A) : go (Sim * (SimError + Z)) :=
  scheduleAt s at_ emptyTag act.

Definition ScheduleAtTagged (s : Sim) (at_ : Z) (t : EventTag) (act : option A)
    : go (Sim * (SimError + Z)) :=
  match validateEventTag t with
  | Some err => Done (s, inl err)
  | None => scheduleAt s at_ (cloneEventTag t) act
  end.

Definition Schedule (s : Sim) (delay : Z) (act : option A) : go (Sim * (SimError + Z)) :=
  if delay <? 0 then Done (s, inl ErrNegativeTime)
  else if (max_i64 - delay) <? now s then Done (s, inl ErrTimeOverflow)
  else ScheduleAt s (now s + delay) act.

Definition ScheduleTagged (s : Sim) (delay : Z) (t : EventTag) (act : option A)
    : go (Sim * (SimError + Z)) :=
  if delay <? 0 then Done (s, inl ErrNegativeTime)
  else if (max_i64 - delay) <? now s then Done (s, inl ErrTimeOverflow)
  else ScheduleAtTagged s (now s + delay) t act.

Definition Cancel (s : Sim) (id : Z) : go (Sim * bool) :=
  if negb (bool_decide (id ∈ pending s)) then Done (s, false)
  else
    event ← deref (mem s) id;
    let s := set_pending s (pending s ∖ {[id]}) in
    '(m, h, _) ← Heap.remove (mem s) (queue s) (index event);
    event ← deref m id;
    let s := set_heap s (<[id := clear_action event]> m) h in
    Done (recordTrace s (TraceEventCanceled (now s) id (when event)), true).

Definition NextEventTime (s : Sim) : go (Z * bool) :=
  match queue s with
  | [] => Done (0, false)
  | x :: _ => e ← deref (mem s) x; Done (when e, true)
  end.

(** ** Execution *)

(** [Step] up to the call of the action: the next event leaves the queue, time moves to
    it, and its action is handed out. *)
Definition takeNext (s : Sim) : go (option (Sim * A)) :=
  match queue s with
  | [] => Done None
  | _ =>
    '(m, h, x) ← pop (mem s) (queue s);
    event ← deref m x;
    let s := set_pending (set_heap s m h) (pending s ∖ {[ev_id event]}) in
    let s := set_now s (when event) in
    let s := recordTrace s (TraceEventExecuted (when event) (ev_id event)) in
    let s := set_heap s (<[x := clear_action event]> (mem s)) (queue s) in
    match action event with
    | None => Panic
    | Some act => Done (Some (s, act))
    end
  end.

Context (run_action : A → Sim → go Sim).

Definition Step (s : Sim) : go (Sim * bool) :=
  next ← takeNext s;
  match next with
  | None => Done (s, false)
  | Some (s, act) => s ← run_action act s; Done (s, true)
  end.

(** The loops run actions that can schedule more events, so they need not end: the
    fuel bounds the number of events, and [None] says that it ran out. *)
Fixpoint Run (fuel : nat) (s : Sim) (count : Z) : go (option (Sim * Z)) :=
  match fuel with
  | O => Done None
  | S fuel =>
    '(s, stepped) ← Step s;
    if (stepped : bool) then Run fuel s (count + 1) else Done (Some (s, count))
  end.

(** [limit] is the fuel: the loop condition is checked before each step. *)
Fixpoint runSteps (limit : nat) (s : Sim) (count : Z) : go (Sim * Z) :=
  match limit with
  | O => Done (s, count)
  | S limit =>
    '(s, stepped) ← Step s;
    if (stepped : bool) then runSteps limit s (count + 1) else Done (s, count)
  end.

Definition RunSteps (limit : Z) (s : Sim) : go (Sim * Z) := runSteps (Z.to_nat limit) s 0.

Fixpoint runUntil (fuel : nat) (end_ : Z) (s : Sim) (count : Z) : go (option (Sim * Z)) :=
  match fuel with
  | O => Done None
  | S fuel =>
    '(t, exists_) ← NextEventTime s;
    if (exists_ : bool) && (t <=? end_) then
      '(s, _) ← Step s;
      runUntil fuel end_ s (count + 1)
    else Done (Some (s, count))
  end.

Definition RunUntil (fuel : nat) (end_ : Z) (s : Sim) : go (option (Sim * (SimError + Z))) :=
  if end_ <? 0 then Done (Some (s, inl ErrNegativeTime))
  else if end_ <? now s then Done (Some (s, inl ErrPast))
  else
    r ← runUntil fuel end_ s 0;
    Done (match r with
          | None => None
          | Some (s, count) =>
            Some (if negb (now s =? end_)
                  then (recordTrace (set_now s end_) (TraceClockAdvanced end_), inr count)
                  else (s, inr count))
          end).

(** ** Checkpoints *)

Definition pending_le (l r : PendingEventState) : Prop :=
  AtNS l < AtNS r ∨ (AtNS l = AtNS r ∧ Order l ≤ Order r).
#[export] Instance pending_le_dec l r : Decision (pending_le l r) := _.

Fixpoint canonicalEvents (m : gmap Z (scheduledEvent A)) (h : list Z)
    : go (SimError + list PendingEventState) :=
  match h with
  | [] => Done (inr [])
  | x :: h =>
    event ← deref m x;
    if String.eqb (TagKind (tag event)) "" then Done (inl ErrUncacheableState)
    else match validateEventTag (tag event) with
    | Some err => Done (inl err)
    | None =>
      rest ← canonicalEvents m h;
      Done (match rest with
            | inl err => inl err
            | inr l => inr (mkPendingEvent (ev_id event) (when event) (ev_id event)
                              (cloneEventTag (tag event)) :: l)
            end)
    end
  end.

Definition CanonicalState (s : Sim) : go (SimError + SimulatorState) :=
  match trace s with
  | Some _ => Done (inl ErrUncacheableState)
  | None =>
    events ← canonicalEvents (mem s) (queue s);
    Done (match events with
          | inl err => inl err
          | inr l => inr (mkSimulatorState (now s) (nextID s) (exhausted s) (merge_sort pending_le l))
          end)
  end.
End simulator.
