(* ===== verification/SimInv.v ===== *)
(** * The scheduler's invariant and its abstract specification

    The specification is a clock and a finite map of pending events, without a heap
    or positions.  [sim_wf] is the invariant of the implementation, and each
    operation refines its counterpart on the abstraction [abs]. *)

From S2P Require Export Simulator.

Section spec.
Context {A : Type}.
Abbreviation Sim := (Simulator A).
Abbreviation entry := (Z * EventTag * option A)%type.

(** ** Abstract scheduler *)

Record Sched := mkSched {
  sp_now : Z;
  sp_events : gmap Z entry;
  sp_next : Z;
  sp_exhausted : bool }.

Definition entry_of (e : scheduledEvent A) : entry := (when e, tag e, action e).

Definition abs (s : Sim) : Sched :=
  mkSched (now s) (filter (λ p, p.1 ∈ pending s) (entry_of <$> mem s)) (nextID s) (exhausted s).

Definition spec_schedule (sp : Sched) (at_ : Z) (t : EventTag) (act : option A)
    : Sched * (SimError + Z) :=
  if at_ <? 0 then (sp, inl ErrNegativeTime)
  else if at_ <? sp_now sp then (sp, inl ErrPast)
  else if negb (bool_decide (is_Some act)) then (sp, inl ErrNilAction)
  else if sp_exhausted sp then (sp, inl ErrEventIDExhausted)
  else
    let id := Z.max 1 (sp_next sp) in
    (mkSched (sp_now sp) (<[id := (at_, t, act)]> (sp_events sp))
       (if id =? max_u64 then id else id + 1) (id =? max_u64), inr id).

Definition spec_cancel (sp : Sched) (id : Z) : Sched * bool :=
  (mkSched (sp_now sp) (delete id (sp_events sp)) (sp_next sp) (sp_exhausted sp),
   bool_decide (is_Some (sp_events sp !! id))).

(** The next event: the earliest, and of the earliest the one scheduled first. *)
Definition next_event (sp : Sched) (x : Z) (e : entry) : Prop :=
  sp_events sp !! x = Some e ∧
  ∀ y f, sp_events sp !! y = Some f → e.1.1 < f.1.1 ∨ (e.1.1 = f.1.1 ∧ x ≤ y).

(** ** Invariant *)

Definition time_of (m : gmap Z (scheduledEvent A)) (x : Z) : Z :=
  match m !! x with Some e => when e | None => 0 end.

Definition event_ok (s : Sim) (x : Z) : Prop :=
  0 < x ∧ (exhausted s = false → x < nextID s) ∧
  ∃ e, mem s !! x = Some e ∧ now s ≤ when e ≤ max_i64 ∧ is_Some (action e) ∧
       (tag e = emptyTag ∨ validateEventTag (tag e) = None).

Record sim_wf (s : Sim) : Prop := {
  sw_coherent : coherent (time_of (mem s)) (mem s) (queue s);
  sw_ordered : heap_ordered (time_of (mem s)) (queue s);
  sw_pending : ∀ x, x ∈ pending s ↔ x ∈ queue s;
  sw_events : ∀ x, x ∈ queue s → event_ok s x;
  sw_now : 0 ≤ now s ≤ max_i64;
  sw_next : is_u64 (nextID s) }.

(** ** Lemmas *)

Lemma erased_lookup (m m' : gmap Z (scheduledEvent A)) x e :
  erased m' = erased m → m !! x = Some e →
  ∃ e', m' !! x = Some e' ∧ ev_id e' = ev_id e ∧ when e' = when e ∧ tag e' = tag e ∧ action e' = action e.
Proof.
  intros He Hx. apply (f_equal (.!! x)) in He. unfold erased in He. rewrite !lookup_fmap, Hx in He.
  destruct (m' !! x) as [e'|]; [| done]. simpl in He. exists e'. injection He. done.
Qed.

Lemma erased_time (m m' : gmap Z (scheduledEvent A)) x :
  erased m' = erased m → time_of m' x = time_of m x.
Proof.
  intros He. unfold time_of. destruct (m !! x) as [e|] eqn:Hx.
  - destruct (erased_lookup m m' x e He Hx) as (e' & -> & _ & Hw & _). done.
  - apply (f_equal (.!! x)) in He. unfold erased in He. rewrite !lookup_fmap, Hx in He.
    by destruct (m' !! x).
Qed.

Lemma erased_entry (m m' : gmap Z (scheduledEvent A)) :
  erased m' = erased m → entry_of <$> m' = entry_of <$> m.
Proof.
  intros He. apply map_eq. intros x. rewrite !lookup_fmap. destruct (m !! x) as [e|] eqn:Hx.
  - destruct (erased_lookup m m' x e He Hx) as (e' & -> & _ & H1 & H2 & H3). simpl. unfold entry_of. by rewrite H1, H2, H3.
  - apply (f_equal (.!! x)) in He. unfold erased in He. rewrite !lookup_fmap, Hx in He. by destruct (m' !! x).
Qed.

Lemma coherent_ext κ κ' (m : gmap Z (scheduledEvent A)) (h : list Z) :
  (∀ x, x ∈ h → κ x = κ' x) → coherent κ m h → coherent κ' m h.
Proof.
  intros Hk Hc i x Hi. destruct (Hc i x Hi) as (e & ? & ? & Hw & ?). exists e. split_and!; try done.
  rewrite Hw. apply Hk. by eapply list_elem_of_lookup_2.
Qed.

Lemma heap_ordered_ext κ κ' (h : list Z) :
  (∀ x, x ∈ h → κ x = κ' x) → heap_ordered κ h → heap_ordered κ' h.
Proof.
  intros Hk Ho j Hj x y Hx Hy. specialize (Ho j Hj x y Hx Hy). revert Ho. rewrite !key_le_spec.
  rewrite (Hk x), (Hk y) by (by eapply list_elem_of_lookup_2). done.
Qed.

(** The store may change off the queue. *)
Lemma coherent_off κ (m : gmap Z (scheduledEvent A)) h x e :
  x ∉ h → coherent κ m h → coherent κ (<[x := e]> m) h.
Proof.
  intros Hx Hc i z Hi. rewrite lookup_insert_ne; [by apply Hc |].
  intros ->. by apply Hx, list_elem_of_lookup_2 with i.
Qed.

Lemma abs_lookup s x :
  sp_events (abs s) !! x = if decide (x ∈ pending s) then entry_of <$> mem s !! x else None.
Proof.
  simpl. case_decide as Hx.
  - destruct (mem s !! x) as [e|] eqn:E.
    + apply map_lookup_filter_Some. rewrite lookup_fmap, E. done.
    + apply map_lookup_filter_None. left. by rewrite lookup_fmap, E.
  - apply map_lookup_filter_None. right. intros e _ ?. done.
Qed.

Lemma time_of_insert_ne (m : gmap Z (scheduledEvent A)) x y e :
  x ≠ y → time_of (<[x := e]> m) y = time_of m y.
Proof. intros. unfold time_of. by rewrite lookup_insert_ne. Qed.

Lemma recordTrace_same s e :
  abs (recordTrace s e) = abs s ∧ (sim_wf s → sim_wf (recordTrace s e)) ∧
  now (recordTrace s e) = now s ∧ queue (recordTrace s e) = queue s.
Proof.
  unfold recordTrace. destruct (trace s); [| done]. split_and!; try done. intros []. by split.
Qed.

Lemma New_wf : sim_wf (New : Sim).
Proof.
  split; simpl; try done.
  - intros x. set_solver.
  - intros x Hx. by apply elem_of_nil in Hx.
Qed.

(** ** Scheduling refines insertion *)

(** The result of an operation that refused. *)
Ltac unchanged := simpl; split_and!; done || lia.

Lemma scheduleAt_ok s at_ t act :
  sim_wf s → at_ ≤ max_i64 → t = emptyTag ∨ validateEventTag t = None →
  wp (scheduleAt s at_ t act) (λ '(s', r),
    sim_wf s' ∧ spec_schedule (abs s) at_ t act = (abs s', r) ∧ now s' = now s ∧
    (length (queue s') ≤ S (length (queue s)))%nat).
Proof.
  intros Hs Hmax Ht. pose proof Hs as [Hc Ho Hp Hev Hnow Hnext]. unfold scheduleAt, spec_schedule.
  simpl sp_now. simpl sp_next. simpl sp_exhausted.
  case_if; [unchanged |]. case_if; [unchanged |]. destruct act as [act|]; [| unchanged].
  rewrite bool_decide_eq_true_2 by done. cbn [negb]. case_if; [unchanged |]. reflect.
  set (id := if nextID s =? 0 then 1 else nextID s).
  assert (Z.max 1 (nextID s) = id ∧ 0 < id ∧ nextID s ≤ id ∧ is_u64 id) as (-> & Hid0 & Hidn & Hidu).
  { unfold id, is_u64 in *. destruct (Z.eqb_spec (nextID s) 0); lia. }
  assert (id ∉ queue s) as Hfresh.
  { intros Hin. destruct (Hev id Hin) as (H0 & Hlt & _). specialize (Hlt Hif1).
    unfold id in *. destruct (Z.eqb_spec (nextID s) 0); lia. }
  set (ev := mkEvent id at_ t (Some act) 0). set (m := <[id := ev]> (mem s)).
  assert (∀ x, x ∈ queue s → time_of (mem s) x = time_of m x) as Hts.
  { intros x Hx. unfold m. rewrite time_of_insert_ne; [done | by intros ->]. }
  destruct (if id =? max_u64 then (id, true) else (wrap64 (id + 1), false)) as [next exh] eqn:En.
  assert ((if id =? max_u64 then id else id + 1) = next ∧ (id =? max_u64) = exh ∧ is_u64 next ∧
          (exh = false → id < next)) as (Hn1 & Hn2 & Hn3 & Hn4).
  { unfold is_u64 in *. destruct (Z.eqb_spec id max_u64); simplify_eq; [done |].
    rewrite wrap64_small by (unfold is_u64; lia). split_and!; try done; lia. }
  apply wp_bind. eapply wp_mono.
  { apply (push_ok (time_of m) m (queue s) id ev); try done.
    - apply (coherent_off (time_of m) (mem s)); [done |]. eapply coherent_ext; [exact Hts | done].
    - eapply heap_ordered_ext; [exact Hts | done].
    - unfold m. by rewrite lookup_insert_eq.
    - unfold time_of, m. by rewrite lookup_insert_eq. }
  intros [m' h'] (Hc' & Ho' & He' & Hz & Hl). cbn [wp].
  set (s1 := mkSim m' (now s) h' ({[id]} ∪ pending s) next exh (trace s)).
  assert (∀ x, time_of m x = time_of m' x) as Ht' by (intros; symmetry; by apply erased_time).
  assert (sim_wf s1) as Hw.
  { split; unfold s1; simpl; try done.
    - eapply coherent_ext; [intros x _; apply Ht' | exact Hc'].
    - eapply heap_ordered_ext; [intros x _; apply Ht' | exact Ho'].
    - intros x. rewrite Hz, <- Hp. set_solver.
    - intros x Hx. apply Hz in Hx.
      assert (∃ e, m !! x = Some e ∧ now s ≤ when e ≤ max_i64 ∧ is_Some (action e) ∧
                (tag e = emptyTag ∨ validateEventTag (tag e) = None) ∧ 0 < x ∧ (exh = false → x < next))
        as (e & Hme & Hwe & Hae & Hte & Hx0 & Hxn).
      { destruct (decide (x = id)) as [->|Hne].
        - exists ev. unfold m. rewrite lookup_insert_eq. by split_and!.
        - destruct Hx as [|Hx]; [done |]. destruct (Hev x Hx) as (? & Hlt & e & ? & ? & ? & ?).
          exists e. unfold m. rewrite lookup_insert_ne by done. split_and!; try done; try lia.
          intros Hexh. specialize (Hn4 Hexh). specialize (Hlt Hif1). lia. }
      destruct (erased_lookup m m' x e He' Hme) as (e' & Hm' & _ & H1 & H2 & H3).
      split; [exact Hx0 |]. split; [exact Hxn |]. exists e'. simpl. by rewrite H1, H2, H3. }
  destruct (recordTrace_same s1 (TraceEventScheduled (now s1) id at_)) as (Ha & Hwt & Hnt & Hqt).
  split_and!; [by apply Hwt | | done | rewrite Hqt; simpl; lia].
  rewrite Ha. f_equal. unfold abs, s1. simpl. rewrite Hn1, Hn2. f_equal.
  rewrite (erased_entry m m') by done. unfold m. rewrite fmap_insert.
  apply map_eq. intros x. destruct (decide (x = id)) as [->|Hne].
  - rewrite lookup_insert_eq. symmetry. apply map_lookup_filter_Some.
    rewrite lookup_insert_eq. split; [done | set_solver].
  - rewrite lookup_insert_ne by done. apply option_eq. intros e.
    rewrite !map_lookup_filter_Some, lookup_insert_ne by done. set_solver.
Qed.

(** ** Removal refines deletion *)

Lemma removed_ok s m' h' x e t tr :
  sim_wf s → coherent (time_of (mem s)) m' h' → heap_ordered (time_of (mem s)) h' →
  erased m' = erased (mem s) → (∀ z, z ∈ h' ↔ z ≠ x ∧ z ∈ queue s) →
  now s ≤ t ≤ max_i64 → (∀ y, y ∈ h' → t ≤ time_of (mem s) y) →
  let s1 := mkSim (<[x := e]> m') t h' (pending s ∖ {[x]}) (nextID s) (exhausted s) tr in
  sim_wf s1 ∧ abs s1 = mkSched t (delete x (sp_events (abs s))) (nextID s) (exhausted s).
Proof.
  intros Hs Hc Ho He Hz Ht Hmin s1. destruct Hs as [_ _ Hp Hev Hnow Hnext].
  assert (x ∉ h') as Hx by (rewrite Hz; tauto).
  assert (∀ y, y ∈ h' → time_of (mem s) y = time_of (<[x := e]> m') y) as Hts.
  { intros y Hy. rewrite time_of_insert_ne by (by intros ->). symmetry. by apply erased_time. }
  split; [split; unfold s1; simpl; try done; try lia |].
  - apply coherent_off; [done |]. eapply coherent_ext; [exact Hts | done].
  - eapply heap_ordered_ext; [exact Hts | done].
  - intros z. rewrite Hz, <- Hp. set_solver.
  - intros y Hy. pose proof Hy as Hy'. apply Hz in Hy' as [Hne Hy'].
    destruct (Hev y Hy') as (H0 & Hlt & e0 & He0 & Hw & Ha & Htag).
    destruct (erased_lookup (mem s) m' y e0 He He0) as (e1 & He1 & _ & H1 & H2 & H3).
    split; [done |]. split; [done |]. exists e1. simpl. rewrite lookup_insert_ne by done.
    rewrite H1, H2, H3. split_and!; try done; try lia.
    specialize (Hmin y Hy). unfold time_of in Hmin. rewrite He0 in Hmin. lia.
  - unfold abs, s1. simpl. f_equal. rewrite fmap_insert, (erased_entry (mem s) m') by done.
    apply map_eq. intros y. destruct (decide (y = x)) as [->|Hne].
    + rewrite lookup_delete_eq. apply map_lookup_filter_None. right. intros ? _. set_solver.
    + rewrite lookup_delete_ne by done. apply option_eq. intros f.
      rewrite !map_lookup_filter_Some, lookup_insert_ne by done. set_solver.
Qed.

Lemma deref_Some (m : gmap Z (scheduledEvent A)) x e : m !! x = Some e → deref m x = Done e.
Proof. intros H. unfold deref. by rewrite H. Qed.

Lemma queue_position s x :
  sim_wf s → x ∈ queue s →
  ∃ e, mem s !! x = Some e ∧ ev_id e = x ∧ 0 ≤ index e ∧ queue s !! Z.to_nat (index e) = Some x.
Proof.
  intros [Hc _ _ _ _ _] [i Hi]%list_elem_of_lookup. destruct (Hc i x Hi) as (e & He & Hid & _ & Hidx).
  exists e. rewrite Hidx, Nat2Z.id. split_and!; try done. lia.
Qed.

Lemma Cancel_ok s id :
  sim_wf s →
  wp (Cancel s id) (λ '(s', b),
    sim_wf s' ∧ spec_cancel (abs s) id = (abs s', b) ∧ now s' = now s ∧
    (length (queue s') ≤ length (queue s))%nat).
Proof.
  intros Hs. pose proof Hs as [Hc Ho Hp Hev Hnow Hnext]. unfold Cancel, spec_cancel.
  destruct (bool_decide_reflect (id ∈ pending s)) as [Hin|Hout]; cbn [negb].
  2: { assert (sp_events (abs s) !! id = None) as E by (rewrite abs_lookup; by rewrite decide_False).
       simpl. simpl in E. rewrite E, delete_id by done. done. }
  pose proof Hin as Hq. apply Hp in Hq.
  destruct (queue_position s id Hs Hq) as (e & He & Hid & Hidx & Hpos).
  rewrite (deref_Some (mem s) id e He). cbn [mbind go_bind].
  apply wp_bind. eapply wp_mono; [apply (remove_ok (time_of (mem s))); done |].
  intros [[m' h'] y] (-> & Hc' & Ho' & He' & Hz & Hl). cbn [mem set_pending].
  destruct (erased_lookup (mem s) m' id e He' He) as (e' & Hm' & _).
  rewrite (deref_Some m' id e' Hm').
  cbn [mbind go_bind]. set (s1 := set_heap _ _ _).
  assert (∀ y, y ∈ h' → now s ≤ time_of (mem s) y) as Hmin.
  { intros z [_ Hzz]%Hz. destruct (Hev z Hzz) as (_ & _ & ez & Hez & ? & _). unfold time_of. rewrite Hez. lia. }
  destruct (removed_ok s m' h' id (clear_action e') (now s) (trace s) Hs Hc' Ho' He' Hz ltac:(lia) Hmin)
    as [Hwf Habs].
  destruct (recordTrace_same s1 (TraceEventCanceled (now s1) id (when e'))) as (Ha & Hwt & Hnt & Hqt).
  cbn [wp]. split_and!; [by apply Hwt | | done | rewrite Hqt; simpl in *; lia].
  rewrite Ha. change (abs s1) with (abs (mkSim (<[id := clear_action e']> m') (now s) h'
    (pending s ∖ {[id]}) (nextID s) (exhausted s) (trace s))). rewrite Habs. f_equal.
  rewrite abs_lookup, decide_True, He by done. done.
Qed.

(** The next event leaves the queue and time moves to it. *)
Lemma takeNext_ok s :
  sim_wf s →
  (queue s = [] ∧ sp_events (abs s) = ∅ ∧ takeNext s = Done None) ∨
  ∃ x e act s1, next_event (abs s) x (e, act.1, Some act.2) ∧ sim_wf s1 ∧
    abs s1 = mkSched e (delete x (sp_events (abs s))) (nextID s) (exhausted s) ∧
    now s ≤ e ∧ length (queue s) = S (length (queue s1)) ∧
    takeNext s = Done (Some (s1, act.2)).
Proof.
  intros Hs. pose proof Hs as [Hc Ho Hp Hev Hnow Hnext]. unfold takeNext.
  destruct (queue s) as [|x q] eqn:Hq.
  { left. split_and!; try done. apply map_eq. intros y. rewrite abs_lookup, lookup_empty.
    rewrite decide_False; [done |]. rewrite Hp. by intros ?%elem_of_nil. }
  right. rewrite <- Hq in *.
  assert (queue s !! 0%nat = Some x) as Hx by by rewrite Hq.
  assert (x ∈ queue s) as Hxq by (by eapply list_elem_of_lookup_2).
  destruct (Hev x Hxq) as (Hx0 & Hlt & e & He & Hw & [act Hact] & _).
  unfold pop. destruct (wp_inv _ _ (remove_ok (time_of (mem s)) (mem s) (queue s) 0 x Hc Ho ltac:(lia) Hx))
    as ([[m' h'] y] & -> & -> & Hc' & Ho' & He' & Hz & Hl). cbn [mbind go_bind].
  destruct (erased_lookup (mem s) m' x e He' He) as (e' & Hm' & Hid & H1 & H2 & H3).
  rewrite (deref_Some m' x e' Hm'). cbn [mbind go_bind]. rewrite H3, Hact, H1.
  destruct (Hc _ _ Hx) as (e0 & He0 & Hid0 & _). rewrite He in He0. injection He0 as <-.
  rewrite Hid, Hid0.
  assert (∀ y, y ∈ h' → when e ≤ time_of (mem s) y) as Hmin.
  { intros z [_ [i Hi]%list_elem_of_lookup]%Hz.
    pose proof (heap_root_min _ _ _ _ _ Ho Hx Hi) as Hk. apply key_le_spec in Hk.
    unfold time_of at 1 3 in Hk. rewrite He in Hk. lia. }
  set (tr := trace (recordTrace (set_now (set_pending (set_heap s m' h') (pending s ∖ {[x]})) (when e))
                     (TraceEventExecuted (when e) x))).
  destruct (removed_ok s m' h' x (clear_action e') (when e) tr Hs Hc' Ho' He' Hz ltac:(lia) Hmin)
    as [Hwf Habs].
  exists x, (when e), (tag e, act), (mkSim (<[x := clear_action e']> m') (when e) h' (pending s ∖ {[x]})
    (nextID s) (exhausted s) tr).
  split_and!; [| done | done | lia | done |].
  - split.
    + rewrite abs_lookup, decide_True, He by (by apply Hp). simpl. unfold entry_of. by rewrite Hact.
    + intros z f. rewrite abs_lookup. case_decide as Hzp; [| done].
      apply Hp in Hzp. pose proof Hzp as [i Hi]%list_elem_of_lookup.
      destruct (mem s !! z) as [ez|] eqn:Hez; [| done]. intros [= <-]. simpl.
      pose proof (heap_root_min _ _ _ _ _ Ho Hx Hi) as Hk. apply key_le_spec in Hk.
      unfold time_of in Hk. rewrite He, Hez in Hk. lia.
  - unfold tr, recordTrace. simpl. by destruct (trace s).
Qed.

(** Then its action runs. *)
Lemma Sim_Step_ok (run_action : A → Sim → go Sim) s :
  sim_wf s →
  (queue s = [] ∧ sp_events (abs s) = ∅ ∧ Step run_action s = Done (s, false)) ∨
  ∃ x e act s1, next_event (abs s) x (e, act.1, Some act.2) ∧ sim_wf s1 ∧
    abs s1 = mkSched e (delete x (sp_events (abs s))) (nextID s) (exhausted s) ∧
    now s ≤ e ∧ length (queue s) = S (length (queue s1)) ∧
    Step run_action s = (s' ← run_action act.2 s1; Done (s', true)).
Proof.
  intros Hs. unfold Step. destruct (takeNext_ok s Hs) as
    [(? & ? & ->) | (x & e & act & s1 & ? & ? & ? & ? & ? & ->)]; [by left | right].
  by exists x, e, act, s1.
Qed.
End spec.
