(* ===== verification/SimProps.v ===== *)
(** * Properties of the scheduler

    The operations of simulator.go refine the abstract scheduler of SimInv.v; the
    run loops, for actions that use the simulator through its operations. *)

From S2P Require Export SimInv.

Section props.
Context {A : Type}.
Abbreviation Sim := (Simulator A).

(** ** What an action may do *)

Inductive command :=
| CSchedule (delay : Z) (act : option A)
| CScheduleTagged (delay : Z) (t : EventTag) (act : option A)
| CScheduleAt (at_ : Z) (act : option A)
| CScheduleAtTagged (at_ : Z) (t : EventTag) (act : option A)
| CCancel (id : Z).

Definition command_i64 (c : command) : Prop :=
  match c with
  | CScheduleAt at_ _ | CScheduleAtTagged at_ _ _ => at_ ≤ max_i64
  | _ => True
  end.

Inductive response := Scheduled (r : SimError + Z) | Canceled (b : bool).

Definition scheduled (m : go (Sim * (SimError + Z))) : go (Sim * response) :=
  '(s, r) ← m; Done (s, Scheduled r).

Definition exec_command (s : Sim) (c : command) : go (Sim * response) :=
  match c with
  | CSchedule d act => scheduled (Schedule s d act)
  | CScheduleTagged d t act => scheduled (ScheduleTagged s d t act)
  | CScheduleAt at_ act => scheduled (ScheduleAt s at_ act)
  | CScheduleAtTagged at_ t act => scheduled (ScheduleAtTagged s at_ t act)
  | CCancel id => '(s, b) ← Cancel s id; Done (s, Canceled b)
  end.

(** The same operations on the abstract scheduler. *)
Definition spec_at (sp : Sched) (at_ : Z) (t : option EventTag) (act : option A) : Sched * response :=
  match t with
  | Some t => match validateEventTag t with
              | Some err => (sp, Scheduled (inl err))
              | None => let '(sp, r) := spec_schedule sp at_ t act in (sp, Scheduled r)
              end
  | None => let '(sp, r) := spec_schedule sp at_ emptyTag act in (sp, Scheduled r)
  end.

Definition spec_after (sp : Sched) (delay : Z) (t : option EventTag) (act : option A) : Sched * response :=
  if delay <? 0 then (sp, Scheduled (inl ErrNegativeTime))
  else if max_i64 <? sp_now sp + delay then (sp, Scheduled (inl ErrTimeOverflow))
  else spec_at sp (sp_now sp + delay) t act.

Definition spec_command (sp : Sched) (c : command) : Sched * response :=
  match c with
  | CSchedule d act => spec_after sp d None act
  | CScheduleTagged d t act => spec_after sp d (Some t) act
  | CScheduleAt at_ act => spec_at sp at_ None act
  | CScheduleAtTagged at_ t act => spec_at sp at_ (Some t) act
  | CCancel id => let '(sp, b) := spec_cancel sp id in (sp, Canceled b)
  end.

Fixpoint script (s : Sim) (cs : list command) : go Sim :=
  match cs with [] => Done s | c :: cs => '(s, _) ← exec_command s c; script s cs end.

(** An action schedules and cancels through the simulator's operations; what it does
    may depend on the simulator, and its effects elsewhere are its own. *)
Class Actions (run_action : A → Sim → go Sim) : Prop :=
  run_script : ∀ a s, ∃ cs, Forall command_i64 cs ∧ run_action a s = script s cs.

(** Actions that leave no more events than they found. *)
Class Draining (run_action : A → Sim → go Sim) : Prop :=
  run_drains : ∀ a s, wlp (run_action a s) (λ s', length (queue s') ≤ length (queue s))%nat.

(** ** Lemmas *)

Lemma validated t : validateEventTag t = None → cloneEventTag t = emptyTag ∨ validateEventTag (cloneEventTag t) = None.
Proof. destruct t. by right. Qed.

Lemma exec_command_ok (s : Sim) c :
  sim_wf s → command_i64 c →
  wp (exec_command s c) (λ '(s', r),
    sim_wf s' ∧ spec_command (abs s) c = (abs s', r) ∧ now s' = now s).
Proof.
  intros Hs Hc. pose proof (sw_now _ Hs).
  assert (∀ at_ act, at_ ≤ max_i64 → wp (scheduled (ScheduleAt s at_ act)) (λ '(s', r),
            sim_wf s' ∧ spec_at (abs s) at_ None act = (abs s', r) ∧ now s' = now s)) as Hat.
  { intros at_ act Ha. apply wp_bind. eapply wp_mono; [apply scheduleAt_ok; [done | done | by left] |].
    intros [s' r] (? & E & ? & _). unfold spec_at. by rewrite E. }
  assert (∀ at_ t act, at_ ≤ max_i64 → wp (scheduled (ScheduleAtTagged s at_ t act)) (λ '(s', r),
            sim_wf s' ∧ spec_at (abs s) at_ (Some t) act = (abs s', r) ∧ now s' = now s)) as Hatt.
  { intros at_ t act Ha. unfold ScheduleAtTagged, spec_at. destruct (validateEventTag t) eqn:E; [done |].
    apply wp_bind. eapply wp_mono; [apply scheduleAt_ok; [done | done | by apply validated] |].
    intros [s' r] (? & E' & ? & _). destruct t as [k d]. unfold cloneEventTag in E'. simpl in E'.
    by rewrite E'. }
  destruct c; simpl in Hc; cbn [exec_command spec_command].
  - unfold Schedule, spec_after. change (sp_now (abs s)) with (now s). case_if; [done |].
    destruct (Z.ltb_spec max_i64 (now s + delay)); destruct (Z.ltb_spec (max_i64 - delay) (now s)); try lia.
    + done.
    + apply Hat. lia.
  - unfold ScheduleTagged, spec_after. change (sp_now (abs s)) with (now s). case_if; [done |].
    destruct (Z.ltb_spec max_i64 (now s + delay)); destruct (Z.ltb_spec (max_i64 - delay) (now s)); try lia.
    + done.
    + apply Hatt. lia.
  - by apply Hat.
  - by apply Hatt.
  - apply wp_bind. eapply wp_mono; [by apply Cancel_ok |]. intros [s' b] (? & E & ? & _).
    cbn [wp]. by rewrite E.
Qed.

Lemma script_ok s cs :
  sim_wf s → Forall command_i64 cs → wp (script s cs) (λ s', sim_wf s' ∧ now s' = now s).
Proof.
  intros Hs Hcs. revert s Hs. induction Hcs as [|c cs Hc _ IH]; intros s Hs; [done |].
  apply wp_bind. eapply wp_mono; [by apply exec_command_ok |]. intros [s1 r] (Hs1 & _ & Hn1).
  eapply wp_mono; [by apply IH |]. intros s2 [? ?]. split; [done | congruence].
Qed.

Context (run_action : A → Sim → go Sim) `{!Actions run_action}.

Lemma action_ok a s : sim_wf s → wp (run_action a s) (λ s', sim_wf s' ∧ now s' = now s).
Proof. intros Hs. destruct (run_script a s) as (cs & Hcs & ->). by apply script_ok. Qed.

Lemma Step_wf (s : Sim) :
  sim_wf s → wp (Step run_action s) (λ '(s', b),
    sim_wf s' ∧ now s ≤ now s' ∧ (b = false → s' = s ∧ queue s = [])).
Proof.
  intros Hs. destruct (Sim_Step_ok run_action s Hs) as
    [(Hq & _ & ->) | (x & e & act & s1 & _ & Hs1 & Ha & Hle & _ & ->)]; simpl.
  - split_and!; [done | lia | done].
  - apply wp_bind. eapply wp_mono; [by apply action_ok |]. intros s2 [Hs2 Hn2]. simpl.
    apply (f_equal (sp_now (A := A))) in Ha. simpl in Ha. split_and!; [done | lia | done].
Qed.

Lemma Step_length `{!Draining run_action} s :
  sim_wf s → queue s ≠ [] →
  wp (Step run_action s) (λ '(s', b), b = true ∧ (length (queue s') < length (queue s))%nat).
Proof.
  intros Hs Hne. destruct (Sim_Step_ok run_action s Hs) as
    [(Hq & _ & ->) | (x & e & act & s1 & _ & Hs1 & Ha & Hle & Hl & ->)]; [done |].
  apply wp_bind. pose proof (action_ok act.2 s1 Hs1) as Hwp. pose proof (run_drains act.2 s1) as Hlen.
  destruct (run_action act.2 s1); [simpl in *; split; [done | lia] | done].
Qed.

(** Moving the clock when no event is due before. *)
Lemma clock_set (s : Sim) end_ :
  sim_wf s → 0 ≤ end_ ≤ max_i64 → (∀ x e, sp_events (abs s) !! x = Some e → end_ < e.1.1) →
  sim_wf (recordTrace (set_now s end_) (TraceClockAdvanced end_)) ∧
  now (recordTrace (set_now s end_) (TraceClockAdvanced end_)) = end_ ∧
  sp_events (abs (recordTrace (set_now s end_) (TraceClockAdvanced end_))) = sp_events (abs s).
Proof.
  intros Hs Hend Hrest.
  destruct (recordTrace_same (set_now s end_) (TraceClockAdvanced end_)) as (Ha & Hw & Hn & _).
  rewrite Ha, Hn. split_and!; [| done | done]. apply Hw.
  pose proof (sw_now _ Hs). destruct Hs as [? ? Hp Hev Hnow ?]. split; try done; simpl.
  intros x Hx. destruct (Hev x Hx) as (? & ? & e & He & Hwe & ?). split; [done |]. split; [done |].
  exists e. split; [done |]. split; [| done]. split; [| lia]. simpl.
  specialize (Hrest x (entry_of e)). rewrite abs_lookup, decide_True, He in Hrest by (by apply Hp).
  specialize (Hrest eq_refl). simpl in Hrest. lia.
Qed.

Lemma clock_advanced (s : Sim) end_ :
  sim_wf s → now s ≤ end_ ≤ max_i64 → (∀ x e, sp_events (abs s) !! x = Some e → end_ < e.1.1) →
  sim_wf (recordTrace (set_now s end_) (TraceClockAdvanced end_)) ∧
  now (recordTrace (set_now s end_) (TraceClockAdvanced end_)) = end_ ∧
  sp_events (abs (recordTrace (set_now s end_) (TraceClockAdvanced end_))) = sp_events (abs s).
Proof. intros Hs Hend. pose proof (sw_now _ Hs). apply clock_set; [done | lia]. Qed.

Lemma NextEventTime_ok (s : Sim) :
  sim_wf s → ∃ t, NextEventTime s = Done (t, negb (length (queue s) =? 0)%nat) ∧
    (∀ x e, sp_events (abs s) !! x = Some e → t ≤ e.1.1) ∧
    (queue s ≠ [] → ∃ x e, sp_events (abs s) !! x = Some e ∧ e.1.1 = t).
Proof.
  intros [Hc Ho Hp Hev _ _]. unfold NextEventTime. destruct (queue s) as [|x q] eqn:Hq.
  - exists 0. split_and!; [done | | done]. intros x e. rewrite abs_lookup, decide_False; [done |].
    rewrite Hp. by intros ?%elem_of_nil.
  - destruct (Hev x) as (_ & _ & e & He & _); [left |].
    rewrite (deref_Some _ _ _ He). exists (when e). split_and!; [done | |].
    2: { intros _. exists x, (entry_of e). rewrite abs_lookup, decide_True, He; [done |].
         apply Hp. left. }
    intros y f. rewrite abs_lookup. case_decide as Hy; [| done].
    destruct (mem s !! y) as [ey|] eqn:Hey; [| done]. intros [= <-]. simpl.
    apply Hp, list_elem_of_lookup in Hy as [i Hi].
    pose proof (heap_root_min _ _ x i y Ho eq_refl Hi) as Hk. apply key_le_spec in Hk.
    unfold time_of in Hk. rewrite He, Hey in Hk. lia.
Qed.

Lemma runUntil_ok fuel end_ s count :
  sim_wf s → now s ≤ end_ →
  wp (runUntil run_action fuel end_ s count) (λ r, match r with
    | None => True
    | Some (s', _) => sim_wf s' ∧ now s' ≤ end_ ∧
        (∀ x e, sp_events (abs (s' : Sim)) !! x = Some e → end_ < e.1.1)
    end).
Proof.
  revert s count. induction fuel as [|fuel IH]; intros s count Hs Hend; [done | cbn [runUntil]].
  destruct (NextEventTime_ok s Hs) as (t & -> & Ht & Hex). cbn [mbind go_bind].
  case_if; [apply andb_true_iff in Hif as [Hne Hle] | apply andb_false_iff in Hif].
  - apply wp_bind. reflect. destruct (Sim_Step_ok run_action s Hs) as
      [(Hq & _ & _) | (x & e & act & s1 & [Hin Hmin] & Hs1 & Ha & _ & _ & ->)].
    { by rewrite Hq in Hne. }
    apply wp_bind. eapply wp_mono; [by apply action_ok |]. intros s2 [Hs2 Hn2]. simpl.
    apply (f_equal (sp_now (A := A))) in Ha. simpl in Ha. apply IH; [done |]. rewrite Hn2, Ha.
    destruct Hex as (y & f & Hf & Hft); [by intros E; rewrite E in Hne |].
    apply Hmin in Hf. simpl in Hf. lia.
  - cbn [wp]. split_and!; [done | done |]. intros x e Hx. destruct Hif as [Hif | Hif].
    + rewrite negb_false_iff, Nat.eqb_eq in Hif. apply nil_length_inv in Hif.
      rewrite abs_lookup in Hx. case_decide as Hxp; [| done].
      apply (sw_pending _ Hs) in Hxp. rewrite Hif in Hxp. by apply elem_of_nil in Hxp.
    + reflect. specialize (Ht x e Hx). lia.
Qed.

Lemma runUntil_fuel `{!Draining run_action} fuel end_ s count :
  sim_wf s → (length (queue s) < fuel)%nat →
  wp (runUntil run_action fuel end_ s count) (λ r, is_Some r).
Proof.
  revert s count. induction fuel as [|fuel IH]; intros s count Hs Hf; simpl; [lia |].
  destruct (NextEventTime_ok s Hs) as (t & -> & _ & _). cbn [mbind go_bind].
  case_if; [| by eexists]. apply andb_true_iff in Hif as [Hne _].
  assert (queue s ≠ []) as Hq by (intros E; by rewrite E in Hne).
  apply wp_bind. pose proof (wp_and _ _ _ (Step_wf s Hs) (Step_length s Hs Hq)) as H.
  eapply wp_mono; [exact H |]. intros [s1 b] [(Hs1 & _) [_ Hl]]. apply IH; [done | lia].
Qed.

Lemma Run_ok fuel s count :
  sim_wf s → wp (Run run_action fuel s count) (λ r, match r with
    | None => True
    | Some (s', _) => sim_wf s' ∧ now s ≤ now s' ∧ queue s' = []
    end).
Proof.
  revert s count. induction fuel as [|fuel IH]; intros s count Hs; simpl; [done |].
  apply wp_bind. eapply wp_mono; [by apply Step_wf |]. intros [s1 []] (Hs1 & Hn1 & Hq); simpl.
  - eapply wp_mono; [by apply IH |]. intros [[s2 c]|]; [| done]. intros (? & ? & ?). split_and!; done || lia.
  - destruct (Hq eq_refl) as [-> Hqs]. done.
Qed.

Lemma Run_fuel `{!Draining run_action} fuel s count :
  sim_wf s → (length (queue s) < fuel)%nat → wp (Run run_action fuel s count) (λ r, is_Some r).
Proof.
  revert s count. induction fuel as [|fuel IH]; intros s count Hs Hf; simpl; [lia |].
  apply wp_bind. destruct (decide (queue s = [])) as [Hq|Hq].
  - unfold Step, takeNext. rewrite Hq. by eexists.
  - pose proof (wp_and _ _ _ (Step_wf s Hs) (Step_length s Hs Hq)) as H.
    eapply wp_mono; [exact H |]. intros [s1 b] [(Hs1 & _) [-> Hl]]. simpl. apply IH; [done | lia].
Qed.

Lemma runSteps_ok limit s count :
  sim_wf s → wp (runSteps run_action limit s count) (λ '(s', n),
    sim_wf s' ∧ now s ≤ now s' ∧ count ≤ n ≤ count + Z.of_nat limit ∧
    (n < count + Z.of_nat limit → queue s' = [])).
Proof.
  revert s count. induction limit as [|limit IH]; intros s count Hs; simpl.
  { split_and!; done || lia. }
  apply wp_bind. eapply wp_mono; [by apply Step_wf |]. intros [s1 []] (Hs1 & Hn1 & Hq); simpl.
  - eapply wp_mono; [by apply IH |]. intros [s2 c] (? & ? & ? & Hd).
    split_and!; try done; try lia. intros. apply Hd. lia.
  - destruct (Hq eq_refl) as [-> Hqs]. split_and!; done || lia.
Qed.

(** ** Checkpoints *)

Definition event_state (p : Z * (Z * EventTag * option A)) : PendingEventState :=
  mkPendingEvent p.1 p.2.1.1 p.1 p.2.1.2.

(** The checkpoint of the abstract scheduler: refused when an event is opaque. *)
Definition canonical_spec (sp : Sched) : SimError + SimulatorState :=
  if existsb (λ p, String.eqb (TagKind p.2.1.2) "") (map_to_list (sp_events sp))
  then inl ErrUncacheableState
  else inr (mkSimulatorState (sp_now sp) (sp_next sp) (sp_exhausted sp)
              (merge_sort pending_le (map event_state (map_to_list (sp_events sp))))).

Definition queue_entry (s : Sim) (x : Z) : Z * (Z * EventTag * option A) :=
  (x, default (0, emptyTag, None) (sp_events (abs s) !! x)).

Lemma queue_entries (s : Sim) :
  sim_wf s → map (queue_entry s) (queue s) ≡ₚ map_to_list (sp_events (abs s)).
Proof.
  intros Hs. pose proof Hs as [Hc _ Hp Hev _ _]. apply NoDup_Permutation.
  - apply NoDup_fmap_2_strong; [| by eapply coherent_NoDup].
    intros x y _ _ [= E _]. done.
  - apply NoDup_map_to_list.
  - intros [x e]. rewrite elem_of_map_to_list, list_elem_of_fmap. split.
    + intros (y & Heq & Hy). destruct (Hev y Hy) as (_ & _ & ev & He & _).
      assert (sp_events (abs s) !! y = Some (entry_of ev)) as E
        by (rewrite abs_lookup, decide_True, He by (by apply Hp); done).
      unfold queue_entry in Heq. rewrite E in Heq. by simplify_eq/=.
    + intros Hx. exists x. unfold queue_entry. rewrite Hx. split; [done |].
      rewrite abs_lookup in Hx. case_decide; [by apply Hp | done].
Qed.

Lemma existsb_perm {B} (f : B → bool) l k : l ≡ₚ k → existsb f l = existsb f k.
Proof.
  intros H. induction H; simpl; [done | congruence | | congruence].
  by destruct (f x), (f y).
Qed.

Lemma cloneEventTag_id t : cloneEventTag t = t.
Proof. by destruct t. Qed.

Lemma canonicalEvents_ok (s : Sim) q :
  sim_wf s → (∀ x, x ∈ q → x ∈ queue s) →
  canonicalEvents (mem s) q =
  Done (if existsb (λ p, String.eqb (TagKind p.2.1.2) "") (map (queue_entry s) q)
        then inl ErrUncacheableState else inr (map event_state (map (queue_entry s) q))).
Proof.
  intros Hs. pose proof Hs as [Hc _ Hp Hev _ _]. induction q as [|x q IH]; intros Hq; [done |].
  cbn [canonicalEvents map existsb].
  assert (x ∈ queue s) as Hx by (apply Hq; left).
  destruct (Hev x Hx) as (_ & _ & e & He & _ & _ & Htag). rewrite (deref_Some _ _ _ He).
  cbn [mbind go_bind].
  assert (queue_entry s x = (x, entry_of e)) as ->.
  { unfold queue_entry. by rewrite abs_lookup, decide_True, He by (by apply Hp). }
  simpl. destruct (String.eqb (TagKind (tag e)) "") eqn:Ek; [done |].
  destruct Htag as [Ht|Ht]; [rewrite Ht in Ek; done |]. rewrite Ht.
  rewrite IH by (intros y Hy; apply Hq; by right). simpl.
  assert (ev_id e = x) as ->.
  { apply list_elem_of_lookup in Hx as [i Hi]. destruct (Hc i x Hi) as (e' & He' & Hid & _).
    rewrite He in He'. by injection He' as <-. }
  case_if; [done |]. by rewrite cloneEventTag_id.
Qed.

Lemma pending_le_trans : Transitive pending_le.
Proof. intros x y z. unfold pending_le. lia. Qed.
Lemma pending_le_total : Total pending_le.
Proof. intros x y. unfold pending_le. lia. Qed.

Lemma sorted_events_perm (l k : list (Z * (Z * EventTag * option A))) :
  NoDup l.*1 → l ≡ₚ k →
  merge_sort pending_le (map event_state l) = merge_sort pending_le (map event_state k).
Proof.
  intros Hnd Hperm. pose proof pending_le_trans. pose proof pending_le_total.
  apply (StronglySorted_unique_strong pending_le).
  - intros x y Hx Hy. rewrite merge_sort_Permutation in Hx, Hy. rewrite <- Hperm in Hy.
    apply list_elem_of_fmap in Hx as ([i e] & -> & Hx). apply list_elem_of_fmap in Hy as ([j f] & -> & Hy).
    unfold pending_le. simpl. intros H1 H2. assert (i = j) as <- by lia.
    apply list_elem_of_lookup in Hx as [a Ha]. apply list_elem_of_lookup in Hy as [b Hb].
    assert (a = b) as <-.
    { eapply (NoDup_lookup l.*1 _ _ i); [done | |]; rewrite list_lookup_fmap; [by rewrite Ha | by rewrite Hb]. }
    by rewrite Ha in Hb; simplify_eq.
  - by apply (StronglySorted_merge_sort pending_le).
  - by apply (StronglySorted_merge_sort pending_le).
  - rewrite !merge_sort_Permutation. by apply fmap_Permutation.
Qed.

(** ** Theorems *)

(** C8.  Scheduling and canceling, through any of the entry points, implement the
    abstract scheduler: they return what it returns (identifiers, errors on negative
    delays, past times, overflow, exhausted identifiers, malformed tags), leave its
    pending events, and keep the heap and position invariants. *)
Theorem scheduler_refines_spec (s : Sim) c :
  sim_wf s → command_i64 c →
  ∃ s' r, exec_command s c = Done (s', r) ∧ sim_wf s' ∧ spec_command (abs s) c = (abs s', r).
Proof.
  intros Hs Hc. destruct (wp_inv _ _ (exec_command_ok s c Hs Hc)) as ([s' r] & He & ? & ? & _). eauto.
Qed.

(** [Step] removes the earliest event - of simultaneous events the one scheduled
    first -, moves virtual time to it, never backwards, and runs its action once in
    the state without it; it reports false exactly when nothing is pending. *)
Theorem step_runs_next_event (s : Sim) :
  sim_wf s →
  (sp_events (abs s) = ∅ ∧ Step run_action s = Done (s, false)) ∨
  ∃ x t tg act s1, next_event (abs s) x (t, tg, Some act) ∧ sim_wf s1 ∧ now s ≤ t ∧
    abs s1 = mkSched t (delete x (sp_events (abs s))) (nextID s) (exhausted s) ∧
    Step run_action s = (s' ← run_action act s1; Done (s', true)).
Proof.
  intros Hs. destruct (Sim_Step_ok run_action s Hs) as
    [(_ & ? & ?) | (x & t & [tg act] & s1 & ? & ? & ? & ? & _ & ?)]; [by left | right].
  by exists x, t, tg, act, s1.
Qed.

(** [RunUntil] returns with the clock at the requested time and every remaining
    event after it; with actions that leave no more events than they found it does
    return, within one step more than there are events, and it never panics. *)
Theorem run_until_stops_at_end fuel end_ (s : Sim) :
  sim_wf s → now s ≤ end_ ≤ max_i64 →
  wp (RunUntil run_action fuel end_ s) (λ r,
    (∀ s' n, r = Some (s', n) → sim_wf s' ∧ now s' = end_ ∧ (∃ k, n = inr k) ∧
       ∀ x e, sp_events (abs s') !! x = Some e → end_ < e.1.1) ∧
    (Draining run_action → (length (queue s) < fuel)%nat → is_Some r)).
Proof.
  intros Hs Hend. pose proof (sw_now _ Hs). unfold RunUntil.
  destruct (Z.ltb_spec end_ 0); [lia |]. destruct (Z.ltb_spec end_ (now s)); [lia |].
  destruct (wp_inv _ _ (runUntil_ok fuel end_ s 0 Hs ltac:(lia))) as (r & Hr & Hok).
  rewrite Hr. cbn [mbind go_bind wp]. split.
  - intros s' n Hs'. destruct r as [[s1 c]|]; [| done]. destruct Hok as (Hs1 & Hn1 & Hrest).
    destruct (Z.eqb_spec (now s1) end_) as [E|Hne]; cbn [negb] in Hs'; injection Hs' as <- <-; [by eauto 10 |].
    destruct (clock_advanced s1 end_ Hs1 ltac:(lia) Hrest) as (Hw & Hn & Ha). rewrite Ha, Hn.
    split_and!; [done | done | eauto | done].
  - intros Hd Hf. pose proof (runUntil_fuel fuel end_ s 0 Hs Hf) as Hsome. rewrite Hr in Hsome.
    simpl in Hsome. destruct Hsome as [[s1 c] ->]. by destruct (negb _).
Qed.

(** [Run] and [RunSteps] keep the invariant and never move time backwards; [Run]
    ends only with an empty queue, and does end with actions that leave no more
    events than they found; [RunSteps] runs exactly its limit unless the queue
    empties. *)
Theorem run_drains_queue fuel limit (s : Sim) :
  sim_wf s →
  wp (Run run_action fuel s 0) (λ r,
    (∀ s' n, r = Some (s', n) → sim_wf s' ∧ now s ≤ now s' ∧ queue s' = []) ∧
    (Draining run_action → (length (queue s) < fuel)%nat → is_Some r)) ∧
  wp (RunSteps run_action limit s) (λ '(s', n),
    sim_wf s' ∧ now s ≤ now s' ∧ 0 ≤ n ≤ Z.max 0 limit ∧ (n < limit → queue s' = [])).
Proof.
  intros Hs. split.
  - destruct (wp_inv _ _ (Run_ok fuel s 0 Hs)) as (r & Hr & Hok). rewrite Hr. cbn [wp]. split.
    + intros s' n ->. exact Hok.
    + intros Hd Hf. pose proof (Run_fuel fuel s 0 Hs Hf) as H. by rewrite Hr in H.
  - unfold RunSteps. eapply wp_mono; [by apply runSteps_ok |].
    intros [s' n] (? & ? & ? & Hd). split_and!; try done; try lia. intros. apply Hd. lia.
Qed.

(** The canonical checkpoint is a function of the abstract scheduler: it does not
    depend on the layout of the heap or on the history of the queue, lists the events
    in execution order, and is refused exactly when an event is opaque. *)
Theorem canonical_state_of_spec (s : Sim) :
  sim_wf s → trace s = None → CanonicalState s = Done (canonical_spec (abs s)).
Proof.
  intros Hs Ht. unfold CanonicalState, canonical_spec. rewrite Ht.
  rewrite (canonicalEvents_ok s (queue s) Hs) by done. cbn [mbind go_bind].
  pose proof (queue_entries s Hs) as Hperm.
  rewrite (existsb_perm _ _ _ Hperm). case_if; [done |].
  do 3 f_equal.
  apply sorted_events_perm; [| done]. rewrite Hperm. apply NoDup_fst_map_to_list.
Qed.
End props.

(** ** Witnesses: actions that schedule a follow-up, or nothing *)

Definition demo_action (again : bool) (s : Simulator bool) : go (Simulator bool) :=
  script s (if again then [CSchedule 5 (Some false)] else []).

#[export] Instance demo_actions : Actions demo_action.
Proof. intros [] s; eexists; (split; [| reflexivity]); repeat constructor. Qed.

Definition demo_tag : EventTag := mkTag "election_timer" (str "{}").
Definition demo_script : list (command (A := bool)) :=
  [CScheduleTagged 10 demo_tag (Some true); CScheduleTagged 3 demo_tag (Some false);
   CScheduleTagged 10 demo_tag (Some false); CScheduleTagged 7 demo_tag (Some true); CCancel 2].

Definition demo_sim : Simulator bool :=
  match script New demo_script with Done s => s | Panic => New end.

Lemma demo_wf : sim_wf demo_sim.
Proof.
  pose proof (script_ok New demo_script New_wf) as H. unfold demo_sim.
  destruct (script New demo_script); [apply H; repeat constructor | apply New_wf].
Qed.

Lemma scheduler_refines_spec_witness :
  ∃ s' r, exec_command demo_sim (CCancel 3) = Done (s', r) ∧ sim_wf s' ∧
    spec_command (abs demo_sim) (CCancel 3) = (abs s', r).
Proof. apply (scheduler_refines_spec demo_sim (CCancel 3) demo_wf). exact I. Defined.

Lemma step_runs_next_event_witness :
  (sp_events (abs demo_sim) = ∅ ∧ Step demo_action demo_sim = Done (demo_sim, false)) ∨
  ∃ x t tg act s1, next_event (abs demo_sim) x (t, tg, Some act) ∧ sim_wf s1 ∧ now demo_sim ≤ t ∧
    abs s1 = mkSched t (delete x (sp_events (abs demo_sim))) (nextID demo_sim) (exhausted demo_sim) ∧
    Step demo_action demo_sim = (s' ← demo_action act s1; Done (s', true)).
Proof. apply (step_runs_next_event demo_action demo_sim demo_wf). Defined.

Lemma run_until_stops_at_end_witness :
  wp (RunUntil demo_action 10 12 demo_sim) (λ r,
    (∀ s' n, r = Some (s', n) → sim_wf s' ∧ now s' = 12 ∧ (∃ k, n = inr k) ∧
       ∀ x e, sp_events (abs s') !! x = Some e → 12 < e.1.1) ∧
    (Draining demo_action → (length (queue demo_sim) < 10)%nat → is_Some r)).
Proof. apply (run_until_stops_at_end demo_action 10 12 demo_sim demo_wf). vm_compute. split; discriminate. Defined.

Lemma run_drains_queue_witness :
  wp (Run demo_action 10 demo_sim 0) (λ r,
    (∀ s' n, r = Some (s', n) → sim_wf s' ∧ now demo_sim ≤ now s' ∧ queue s' = []) ∧
    (Draining demo_action → (length (queue demo_sim) < 10)%nat → is_Some r)) ∧
  wp (RunSteps demo_action 2 demo_sim) (λ '(s', n),
    sim_wf s' ∧ now demo_sim ≤ now s' ∧ 0 ≤ n ≤ Z.max 0 2 ∧ (n < 2 → queue s' = [])).
Proof. apply (run_drains_queue demo_action 10 2 demo_sim demo_wf). Defined.

Lemma canonical_state_of_spec_witness :
  CanonicalState demo_sim = Done (canonical_spec (abs demo_sim)).
Proof. apply (canonical_state_of_spec demo_sim demo_wf). reflexivity. Defined.

(** The order of execution: 4 at 7, then 1 and 3 at 10 in the order of scheduling, the
    follow-ups at 12 and 15. *)
Example demo_order :
  (r ← Run demo_action 10 (SetTraceSink demo_sim (Some [])) 0;
   Done (match r with
         | Some (s, n) => (omap (λ e, match e with TraceEventExecuted t x => Some (t, x) | _ => None end)
                             (default [] (trace s)), n)
         | None => ([], 0)
         end)) = Done ([(7, 4); (10, 1); (10, 3); (12, 5); (15, 6)], 5).
Proof. vm_compute. reflexivity. Qed.
