(* ===== verification/Rand.v ===== *)
(** * The deterministic random stream (rand.go)

    SplitMix64 on 64-bit words, the rejection sampling of [Uint64N], durations,
    probabilities and split streams.  A float64 is the rational it denotes, an
    infinity or NaN: every comparison and the scaling by 2^-53 are exact.  Trace
    records are not modelled (the sink is nil). *)

From S2P Require Export Prelude.
From Stdlib Require Export QArith.QArith.
From stdpp Require Import pretty.

#[global] Open Scope Z_scope.

(** ** Data *)

Record Rand := mkRand { rstate : Z; stream : string; splitCount : Z }.

Record RandState := mkRandState { RsState : Z; RsSplitCount : Z }.

Inductive float64 := FNaN | FInf (negative : bool) | FQ (q : Q).

Definition flt (a b : float64) : bool :=
  match a, b with
  | FNaN, _ | _, FNaN => false
  | FInf s, FInf t => s && negb t
  | FInf s, FQ _ => s
  | FQ _, FInf t => negb t
  | FQ p, FQ q => negb (Qle_bool q p)
  end.
Definition feq (a b : float64) : bool :=
  match a, b with
  | FInf s, FInf t => Bool.eqb s t
  | FQ p, FQ q => Qeq_bool p q
  | _, _ => false
  end.

(** ** Operations *)

Definition gamma : Z := 11400714819323198485. (* 0x9e3779b97f4a7c15 *)
Definition mix1 : Z := 13787848793156543929. (* 0xbf58476d1ce4e5b9 *)
Definition mix2 : Z := 10723151780598845931. (* 0x94d049bb133111eb *)

Definition xorshift (z k : Z) : Z := Z.lxor z (Z.shiftr z k).

Definition mix (z : Z) : Z :=
  let z := wrap64 (xorshift z 30 * mix1) in
  let z := wrap64 (xorshift z 27 * mix2) in
  xorshift z 31.

Definition NewRand (seed : Z) : Rand := mkRand seed "default" 0.

(** [State] on a nil receiver is the zero state. *)
Definition State (r : option Rand) : RandState :=
  match r with Some r => mkRandState (rstate r) (splitCount r) | None => mkRandState 0 0 end.

Definition nextUint64 (r : Rand) : Rand * Z :=
  let s := wrap64 (rstate r + gamma) in
  (mkRand s (stream r) (splitCount r), mix s).

Definition Uint64 (r : Rand) : Rand * Z := nextUint64 r.

(** [bits.Mul64]. *)
Definition Mul64 (x y : Z) : Z * Z := (x * y / two64, wrap64 (x * y)).

(** The rejection loop; its fuel is bounded in Rand's theorems by the period. *)
Fixpoint reject (fuel : nat) (r : Rand) (n threshold hi lo : Z) : option (Rand * Z) :=
  if lo <? threshold then
    match fuel with
    | O => None
    | S fuel =>
      let '(r, x) := nextUint64 r in
      let '(hi, lo) := Mul64 x n in
      reject fuel r n threshold hi lo
    end
  else Some (r, hi).

Definition uint64N (fuel : nat) (r : Rand) (n : Z) : option (Rand * Z) :=
  let '(r, x) := nextUint64 r in
  let '(hi, lo) := Mul64 x n in
  if lo <? n then reject fuel r n (wrap64 (- n) mod n) hi lo
  else Some (r, hi).

Definition Uint64N (fuel : nat) (r : Rand) (n : Z) : go (option (Rand * Z)) :=
  if n =? 0 then Panic else Done (uint64N fuel r n).

Definition IntN (fuel : nat) (r : Rand) (n : Z) : go (option (Rand * Z)) :=
  if n <=? 0 then Panic else Done (uint64N fuel r n).

Definition two53 : positive := 9007199254740992.

Definition float64_ (r : Rand) : Rand * float64 :=
  let '(r, x) := nextUint64 r in (r, FQ (Z.shiftr x 11 # two53)).

Definition Float64 (r : Rand) : Rand * float64 := float64_ r.

Definition Chance (r : Rand) (p : float64) : go (Rand * bool) :=
  if flt p (FQ 0) || flt (FQ 1) p || negb (feq p p) then Panic
  else if feq p (FQ 0) then Done (r, false)
  else if feq p (FQ 1) then Done (r, true)
  else let '(r, v) := float64_ r in Done (r, flt v p).

Definition Duration (fuel : nat) (r : Rand) (min max : Z) : go (option (Rand * Z)) :=
  if (min <? 0) || (max <? min) then Panic
  else if min =? max then Done (Some (r, min))
  else
    let span := wrap64 (wrap64 (max - min) + 1) in
    Done (match uint64N fuel r span with
          | Some (r, v) => Some (r, min + v)
          | None => None
          end).

(** The child's stream label: the parent's, a slash and the split count. *)
Definition Split (r : Rand) : Rand * Rand :=
  let '(r, seed) := nextUint64 r in
  let r := mkRand (rstate r) (stream r) (wrap64 (splitCount r + 1)) in
  (r, mkRand seed (stream r ++ "/" ++ pretty.pretty (splitCount r)) 0).

(** The [k]-th value of a stream, from 0. *)
Fixpoint draw (k : nat) (r : Rand) : Z :=
  let '(r, x) := nextUint64 r in
  match k with O => x | S k => draw k r end.

(** ** Words *)

Lemma lxor_range a b : is_u64 a → is_u64 b → is_u64 (Z.lxor a b).
Proof.
  unfold is_u64. intros Ha Hb. assert (0 ≤ Z.lxor a b) as H0 by (apply Z.lxor_nonneg; lia).
  split; [done |]. destruct (Z.eq_dec (Z.lxor a b) 0) as [->|Hne]; [lia |].
  assert (Z.lxor a b < 2 ^ 64); [| lia]. apply Z.log2_lt_pow2; [lia |].
  pose proof (Z.log2_lxor a b ltac:(lia) ltac:(lia)) as Hl.
  assert (∀ c, 0 ≤ c ≤ max_u64 → Z.log2 c < 64) as Hlog.
  { intros c Hc. destruct (Z.eq_dec c 0) as [->|]; [simpl; lia |]. apply Z.log2_lt_pow2; lia. }
  pose proof (Hlog a Ha). pose proof (Hlog b Hb). lia.
Qed.

Lemma shiftr_range a k : 0 ≤ k → is_u64 a → is_u64 (Z.shiftr a k).
Proof.
  unfold is_u64. intros Hk Ha. rewrite Z.shiftr_div_pow2 by done.
  pose proof (Z.pow_pos_nonneg 2 k ltac:(lia) Hk).
  split; [apply Z.div_pos; lia |]. apply Z.le_trans with a; [| lia]. apply Z.div_le_upper_bound; nia.
Qed.

Lemma xorshift_range z k : 0 ≤ k → is_u64 z → is_u64 (xorshift z k).
Proof. intros. apply lxor_range; [done | by apply shiftr_range]. Qed.

Lemma mix_range z : is_u64 (mix z).
Proof. unfold mix. apply xorshift_range; [lia | apply wrap64_range]. Qed.

(** Each stage of the mixing function is injective. *)
Lemma xorshift_inj z w k : 0 < k → is_u64 z → is_u64 w → xorshift z k = xorshift w k → z = w.
Proof.
  unfold xorshift. intros Hk Hz Hw H. apply Z.lxor_eq.
  set (d := Z.lxor z w).
  assert (is_u64 d) as Hd by by apply lxor_range.
  assert (d = Z.shiftr d k) as Hs.
  { apply Z.lxor_eq. unfold d. rewrite Z.shiftr_lxor.
    rewrite <- (Z.lxor_nilpotent (Z.lxor w (Z.shiftr w k))). rewrite <- H at 1.
    apply Z.bits_inj'. intros i Hi. rewrite !Z.lxor_spec.
    by destruct (Z.testbit z i), (Z.testbit w i), (Z.testbit (Z.shiftr z k) i), (Z.testbit (Z.shiftr w k) i). }
  unfold is_u64 in Hd. rewrite Z.shiftr_div_pow2 in Hs by lia.
  assert (2 ≤ 2 ^ k) by (change 2 with (2 ^ 1) at 1; apply Z.pow_le_mono_r; lia).
  destruct (Z.eq_dec d 0); [done |]. pose proof (Z.div_lt d (2 ^ k) ltac:(lia) ltac:(lia)). lia.
Qed.

Lemma mul_inj z w m inv :
  wrap64 (m * inv) = 1 → is_u64 z → is_u64 w → wrap64 (z * m) = wrap64 (w * m) → z = w.
Proof.
  intros Hinv Hz Hw H.
  assert (∀ x, is_u64 x → wrap64 (wrap64 (x * m) * inv) = x) as Hx.
  { intros x Hx. unfold wrap64 in *. rewrite Z.mul_mod_idemp_l by lia.
    rewrite <- Z.mul_assoc, <- Z.mul_mod_idemp_r, Hinv, Z.mul_1_r by lia.
    apply Z.mod_small. unfold is_u64 in Hx. lia. }
  rewrite <- (Hx z), <- (Hx w), H by done. done.
Qed.

Lemma mix_inj z w : is_u64 z → is_u64 w → mix z = mix w → z = w.
Proof.
  intros Hz Hw H. unfold mix in H.
  apply xorshift_inj in H; [| lia | apply wrap64_range | apply wrap64_range].
  apply (mul_inj _ _ mix2 3573116690164977347) in H;
    [| reflexivity | apply xorshift_range; [lia | apply wrap64_range] ..].
  apply xorshift_inj in H; [| lia | apply wrap64_range | apply wrap64_range].
  apply (mul_inj _ _ mix1 10871156337175269513) in H; [| reflexivity | apply xorshift_range; [lia | done] ..].
  by apply xorshift_inj in H.
Qed.

Lemma nextUint64_range r : is_u64 (rstate (nextUint64 r).1) ∧ is_u64 (nextUint64 r).2.
Proof. split; [apply wrap64_range | apply mix_range]. Qed.

Lemma draw_eq k r : draw k r = mix (wrap64 (rstate r + (Z.of_nat k + 1) * gamma)).
Proof.
  revert r. induction k as [|k IH]; intros r.
  - simpl. by rewrite Z.mul_1_l.
  - change (draw (S k) r) with (draw k (nextUint64 r).1). rewrite IH. f_equal. simpl rstate.
    unfold wrap64. rewrite Z.add_mod_idemp_l by lia. f_equal. lia.
Qed.

(** ** Rejection sampling *)

Definition threshold (n : Z) : Z := two64 mod n.

Lemma threshold_eq n : 0 < n ≤ max_u64 → wrap64 (- n) mod n = threshold n.
Proof.
  intros Hn. unfold wrap64, threshold.
  replace (- n mod two64) with (two64 - n).
  - replace (two64 - n) with (two64 + (-1) * n) by lia. apply Z.mod_add. lia.
  - symmetry. rewrite <- (Z.mod_add (- n) 1 two64) by lia. rewrite Z.mod_small by lia. lia.
Qed.

(** One draw: accepted exactly when the low word reaches the threshold. *)
Definition accepts (x n : Z) : bool := threshold n <=? wrap64 (x * n).

Lemma uint64N_step fuel r n :
  0 < n ≤ max_u64 →
  uint64N fuel r n =
  let '(r', x) := nextUint64 r in
  if accepts x n then Some (r', x * n / two64)
  else match fuel with O => None | S fuel => uint64N fuel r' n end.
Proof.
  intros Hn. unfold uint64N at 1. destruct (nextUint64 r) as [r' x] eqn:E. unfold Mul64, accepts.
  assert (threshold n < n) by (apply Z.mod_pos_bound; lia). rewrite threshold_eq by done.
  destruct (Z.ltb_spec (wrap64 (x * n)) n) as [Hlt|Hge].
  - destruct fuel as [|fuel]; cbn [reject];
      destruct (Z.ltb_spec (wrap64 (x * n)) (threshold n)); destruct (Z.leb_spec (threshold n) (wrap64 (x * n)));
      try lia; try done.
    unfold uint64N. destruct (nextUint64 r') as [r2 y]. unfold Mul64. rewrite threshold_eq by done.
    destruct (Z.ltb_spec (wrap64 (y * n)) n); [done |].
    destruct fuel; cbn [reject]; destruct (Z.ltb_spec (wrap64 (y * n)) (threshold n)); done || lia.
  - destruct (Z.leb_spec (threshold n) (wrap64 (x * n))); [done | lia].
Qed.

Lemma high_range x n : is_u64 x → 0 < n → 0 ≤ x * n / two64 < n.
Proof.
  unfold is_u64. intros Hx Hn. split; [apply Z.div_pos; nia |]. apply Z.div_lt_upper_bound; nia.
Qed.

Lemma uint64N_range fuel r n r' v :
  0 < n ≤ max_u64 → uint64N fuel r n = Some (r', v) → 0 ≤ v < n.
Proof.
  intros Hn. revert r. induction fuel as [|fuel IH]; intros r; rewrite uint64N_step by done;
    pose proof (nextUint64_range r) as [_ Hx]; destruct (nextUint64 r) as [r1 x]; simpl in Hx;
    (case_if; [intros [= <- <-]; apply high_range; (done || lia) |]); [done | apply IH].
Qed.

(** The word whose every bit is set is always accepted, and some state yields it. *)
Lemma accepts_max n : 0 < n ≤ max_u64 → accepts max_u64 n = true.
Proof.
  intros Hn. unfold accepts. apply Z.leb_le. rewrite <- threshold_eq by done.
  assert (wrap64 (max_u64 * n) = wrap64 (- n)) as ->.
  { unfold wrap64. replace (max_u64 * n) with (- n + n * two64) by lia. apply Z.mod_add. lia. }
  apply Z.mod_le; [apply wrap64_range | lia].
Qed.

Definition max_state : Z := 14959274266131672512.

Lemma mix_max_state : mix max_state = max_u64.
Proof. reflexivity. Qed.

Lemma uint64N_hits fuel r n k :
  0 < n ≤ max_u64 → (k ≤ fuel)%nat → draw k r = max_u64 → is_Some (uint64N fuel r n).
Proof.
  intros Hn. revert fuel r. induction k as [|k IH]; intros fuel r Hk Hd; rewrite uint64N_step by done.
  - simpl in Hd. simpl. by rewrite Hd, accepts_max.
  - destruct fuel as [|fuel]; [lia |]. destruct (nextUint64 r) as [r1 x] eqn:E.
    case_if; [done |]. apply IH; [lia |]. change (draw (S k) r) with (draw k (nextUint64 r).1) in Hd.
    by rewrite E in Hd.
Qed.

Lemma max_state_reached r : ∃ k, Z.of_nat k < two64 ∧ draw k r = max_u64.
Proof.
  set (k := wrap64 ((max_state - rstate r) * 17428512612931826493 - 1)).
  pose proof (wrap64_range ((max_state - rstate r) * 17428512612931826493 - 1)) as Hk. fold k in Hk.
  unfold is_u64 in Hk. exists (Z.to_nat k). split; [lia |].
  rewrite draw_eq, Z2Nat.id by lia. rewrite <- mix_max_state. f_equal.
  set (x := max_state - rstate r) in *.
  pose proof (Z.div_mod (x * 17428512612931826493 - 1) two64 ltac:(lia)) as Hq.
  fold (wrap64 (x * 17428512612931826493 - 1)) in Hq. fold k in Hq.
  set (q := (x * 17428512612931826493 - 1) / two64) in *.
  replace (rstate r + (k + 1) * gamma)
    with (max_state + (x * 10771413168148108919 - q * gamma) * two64) by (unfold gamma; lia).
  unfold wrap64. rewrite Z.mod_add by lia. reflexivity.
Qed.

(** The values that give one result. *)
Definition first_value (n k : Z) : Z := (k * two64 + threshold n + n - 1) / n.

Lemma accepted_interval x n k :
  0 < n ≤ max_u64 → is_u64 x → 0 ≤ k < n →
  (accepts x n = true ∧ x * n / two64 = k) ↔
  first_value n k ≤ x < first_value n k + two64 / n.
Proof.
  intros Hn Hx Hk. unfold accepts, first_value, is_u64 in *. rewrite Z.leb_le.
  pose proof (Z.div_mod two64 n ltac:(lia)) as Hdm. fold (threshold n) in Hdm.
  pose proof (Z.mod_pos_bound two64 n ltac:(lia)) as Hmb. fold (threshold n) in Hmb.
  set (t := threshold n) in *. set (q := two64 / n) in *.
  set (a := k * two64 + t).
  pose proof (Z.div_mod (a + n - 1) n ltac:(lia)) as Hc.
  pose proof (Z.mod_pos_bound (a + n - 1) n ltac:(lia)).
  set (c := (a + n - 1) / n) in *.
  pose proof (Z.div_mod (x * n) two64 ltac:(lia)) as Hx2.
  pose proof (Z.mod_pos_bound (x * n) two64 ltac:(lia)) as Hx3. unfold wrap64.
  set (hi := x * n / two64) in *. set (lo := x * n mod two64) in *.
  assert (c ≤ x ↔ a ≤ x * n) as Hlow by (split; nia).
  assert (x < c + q ↔ x * n < a + n * q) as Hhigh by (split; nia).
  rewrite Hlow, Hhigh. unfold a. split; [intros [? ->]; lia |].
  intros [H1 H2]. assert (hi = k) as -> by nia. lia.
Qed.

Lemma uint64N_terminating r n :
  0 < n ≤ max_u64 →
  ∃ k, Z.of_nat k < two64 ∧ ∀ fuel, (k ≤ fuel)%nat → ∃ r' v, uint64N fuel r n = Some (r', v) ∧ 0 ≤ v < n.
Proof.
  intros Hn. destruct (max_state_reached r) as (k & Hk & Hd). exists k. split; [done |].
  intros fuel Hf. destruct (uint64N_hits fuel r n k Hn Hf Hd) as [[r' v] E].
  exists r', v. split; [done |]. by eapply uint64N_range.
Qed.

(** More fuel changes nothing. *)
Lemma uint64N_mono fuel fuel' r n v :
  0 < n ≤ max_u64 → (fuel ≤ fuel')%nat → uint64N fuel r n = Some v → uint64N fuel' r n = Some v.
Proof.
  intros Hn. revert fuel' r. induction fuel as [|fuel IH]; intros fuel' r Hle;
    rewrite (uint64N_step _ r), (uint64N_step fuel' r) by done; destruct (nextUint64 r) as [r1 x];
    (case_if; [done |]); [done |]. destruct fuel' as [|fuel']; [lia |]. apply IH. lia.
Qed.

Lemma uint64N_limit r n :
  0 < n ≤ max_u64 → ∃ k v, ∀ fuel, (k ≤ fuel)%nat → uint64N fuel r n = Some v.
Proof.
  intros Hn. destruct (uint64N_terminating r n Hn) as (k & _ & Hk).
  destruct (Hk k ltac:(lia)) as (r' & v & E & _). exists k, (r', v). intros fuel Hf.
  by eapply uint64N_mono.
Qed.

(** ** Durations and probabilities *)

Lemma Duration_spec r min max :
  - max_i64 - 1 ≤ min ≤ max_i64 → - max_i64 - 1 ≤ max ≤ max_i64 →
  (min < 0 ∨ max < min → ∀ fuel, Duration fuel r min max = Panic) ∧
  (0 ≤ min ≤ max → ∃ k, Z.of_nat k < two64 ∧
     ∀ fuel, (k ≤ fuel)%nat → ∃ r' v, Duration fuel r min max = Done (Some (r', v)) ∧ min ≤ v ≤ max).
Proof.
  intros Hmin Hmax. unfold Duration. split.
  - intros H fuel. destruct (Z.ltb_spec min 0), (Z.ltb_spec max min); simpl; done || lia.
  - intros H. destruct (Z.ltb_spec min 0); [lia |]. destruct (Z.ltb_spec max min); [lia |]. simpl.
    destruct (Z.eqb_spec min max) as [->|Hne].
    { exists 0%nat. split; [lia |]. intros fuel _. exists r, max. split; [done | lia]. }
    rewrite (wrap64_small (max - min)) by (unfold is_u64; lia).
    rewrite (wrap64_small (max - min + 1)) by (unfold is_u64; lia).
    destruct (uint64N_terminating r (max - min + 1) ltac:(lia)) as (k & Hk & Hall).
    exists k. split; [done |]. intros fuel Hf. destruct (Hall fuel Hf) as (r' & v & -> & ?).
    exists r', (min + v). split; [done | lia].
Qed.

(** Whatever the fuel, a returned duration is in range. *)
Lemma Duration_value fuel r min max r' v :
  min ≤ max → max ≤ max_i64 →
  Duration fuel r min max = Done (Some (r', v)) → min ≤ v ≤ max.
Proof.
  intros Hm Hmax. unfold Duration. case_if; [done |]. reflect.
  destruct (Z.eqb_spec min max) as [->|Hne]; [intros [= <- <-]; lia |].
  rewrite (wrap64_small (max - min)) by (unfold is_u64; lia).
  rewrite (wrap64_small (max - min + 1)) by (unfold is_u64; lia).
  destruct (uint64N _ _ _) as [[r1 x]|] eqn:E; [| done]. intros [= <- <-].
  apply uint64N_range in E; lia.
Qed.

Lemma Chance_spec r p :
  (Chance r p = Panic ↔ ¬ ∃ q, p = FQ q ∧ (0 <= q <= 1)%Q) ∧
  (∀ q, p = FQ q → (q == 0)%Q → Chance r p = Done (r, false)) ∧
  (∀ q, p = FQ q → (q == 1)%Q → Chance r p = Done (r, true)) ∧
  (∀ q, p = FQ q → (0 < q < 1)%Q →
     ∃ b, Chance r p = Done ((nextUint64 r).1, b) ∧
       (b = true ↔ (Z.shiftr (nextUint64 r).2 11 # two53 < q)%Q)).
Proof.
  assert (∀ x y, Qle_bool x y = false ↔ (y < x)%Q) as Hlt.
  { intros x y. rewrite <- Bool.not_true_iff_false, Qle_bool_iff. split; [apply Qnot_le_lt | apply Qlt_not_le]. }
  assert (∀ q, (0 <= q <= 1)%Q → Chance r (FQ q) = if Qeq_bool q 0 then Done (r, false)
            else if Qeq_bool q 1 then Done (r, true)
            else let '(r', v) := float64_ r in Done (r', flt v (FQ q))) as Hin.
  { intros q [H0 H1]. unfold Chance. simpl.
    rewrite (proj2 (Qle_bool_iff 0 q)), (proj2 (Qle_bool_iff q 1)), Qeq_bool_refl by done. done. }
  split_and!.
  - split.
    + intros HP (q & -> & Hq). rewrite Hin in HP by done. destruct (Qeq_bool q 0), (Qeq_bool q 1); done.
    + intros Hno. destruct p as [| [] | q]; try done. unfold Chance. simpl.
      destruct (Qle_bool 0 q) eqn:E0; [| done]. destruct (Qle_bool q 1) eqn:E1; [| done].
      exfalso. apply Hno. exists q. apply Qle_bool_iff in E0, E1. done.
  - intros q -> Hq. rewrite Hin; [by rewrite (Qeq_eq_bool _ _ Hq) |]. rewrite Hq. done.
  - intros q -> Hq. rewrite Hin; [| by rewrite Hq].
    rewrite (Qeq_eq_bool _ _ Hq). destruct (Qeq_bool q 0) eqn:E; [| done].
    apply Qeq_bool_eq in E. rewrite Hq in E. discriminate E.
  - intros q -> [H0 H1]. rewrite Hin by (split; by apply Qlt_le_weak).
    destruct (Qeq_bool q 0) eqn:E; [apply Qeq_bool_eq in E; rewrite E in H0; by apply Qlt_irrefl in H0 |].
    destruct (Qeq_bool q 1) eqn:E1; [apply Qeq_bool_eq in E1; rewrite E1 in H1; by apply Qlt_irrefl in H1 |].
    unfold float64_. destruct (nextUint64 r) as [r' x]. simpl. eexists. split; [reflexivity |].
    by rewrite negb_true_iff, Hlt.
Qed.

(** ** Theorems *)

(** [Uint64N] returns for every bound and every state of the stream: the
    rejection loop ends within one period of the generator, because some state of
    the period yields a word that every bound accepts; the result is below the
    bound.  It panics exactly on zero. *)
Theorem Uint64N_terminates_in_range r n :
  is_u64 n →
  (n = 0 → ∀ fuel, Uint64N fuel r n = Panic) ∧
  (n ≠ 0 → ∃ k, Z.of_nat k < two64 ∧
     ∀ fuel, (k ≤ fuel)%nat → ∃ r' v, Uint64N fuel r n = Done (Some (r', v)) ∧ 0 ≤ v < n).
Proof.
  unfold is_u64. intros Hn. split; [by intros -> |]. intros Hne.
  destruct (uint64N_terminating r n ltac:(lia)) as (k & Hk & Hall). exists k. split; [done |].
  intros fuel Hf. destruct (Hall fuel Hf) as (r' & v & E & ?). exists r', v. split; [| done].
  unfold Uint64N. destruct (Z.eqb_spec n 0); [done |]. by rewrite E.
Qed.

(** The sampling is unbiased: for every result below the bound the words that
    give it are an interval of the same length 2^64/n, and a rejected word means a
    fresh draw. *)
Theorem Uint64N_unbiased r n k fuel :
  0 < n ≤ max_u64 → 0 ≤ k < n →
  (uint64N 0 r n = Some ((nextUint64 r).1, k) ↔
     first_value n k ≤ (nextUint64 r).2 < first_value n k + two64 / n) ∧
  0 ≤ first_value n k ∧ first_value n k + two64 / n ≤ two64 ∧
  uint64N (S fuel) r n =
    match uint64N 0 r n with Some v => Some v | None => uint64N fuel (nextUint64 r).1 n end.
Proof.
  intros Hn Hk. rewrite (uint64N_step 0), (uint64N_step (S fuel)) by done.
  pose proof (nextUint64_range r) as [_ Hx]. destruct (nextUint64 r) as [r' x]. simpl in *.
  split_and!.
  - rewrite <- accepted_interval by done. destruct (accepts x n); [| naive_solver].
    split; [intros [= ->]; done | intros [_ ->]; done].
  - unfold first_value. apply Z.div_pos; [| lia]. pose proof (Z.mod_pos_bound two64 n ltac:(lia)).
    fold (threshold n) in *. nia.
  - pose proof (Z.div_mod two64 n ltac:(lia)) as Hdm. fold (threshold n) in Hdm.
    pose proof (Z.mod_pos_bound two64 n ltac:(lia)) as Hmb. fold (threshold n) in Hmb.
    unfold first_value. set (a := k * two64 + threshold n + n - 1).
    pose proof (Z.div_mod a n ltac:(lia)). pose proof (Z.mod_pos_bound a n ltac:(lia)).
    set (c := a / n) in *. set (q := two64 / n) in *.
    assert (n * (c + q) ≤ n * two64 + n - 1) by (unfold a in *; nia). nia.
  - by destruct (accepts x n).
Qed.

(** A stream repeats no value within a period of 2^64 draws. *)
Theorem stream_values_distinct r i j :
  is_u64 (rstate r) → (i < j)%nat → Z.of_nat j < two64 → draw i r ≠ draw j r.
Proof.
  intros Hr Hij Hj. rewrite !draw_eq. intros E.
  apply mix_inj in E; [| apply wrap64_range ..].
  unfold wrap64 in E.
  assert ((Z.of_nat j - Z.of_nat i) * gamma mod two64 = 0) as Hz.
  { replace ((Z.of_nat j - Z.of_nat i) * gamma)
      with ((rstate r + (Z.of_nat j + 1) * gamma) - (rstate r + (Z.of_nat i + 1) * gamma)) by lia.
    rewrite Zminus_mod, E, Z.sub_diag. reflexivity. }
  assert (wrap64 ((Z.of_nat j - Z.of_nat i) * gamma) = wrap64 (0 * gamma)) as Hw by (unfold wrap64; by rewrite Hz).
  apply (mul_inj _ _ gamma 17428512612931826493) in Hw; [lia | reflexivity | unfold is_u64; lia ..].
Qed.

(** [Duration] returns a value of its inclusive range, for every valid range up to
    the largest duration, after boundedly many draws; it panics exactly on an invalid
    range. *)
Theorem Duration_in_range r min max :
  - max_i64 - 1 ≤ min ≤ max_i64 → - max_i64 - 1 ≤ max ≤ max_i64 →
  (min < 0 ∨ max < min → ∀ fuel, Duration fuel r min max = Panic) ∧
  (0 ≤ min ≤ max → ∃ k, Z.of_nat k < two64 ∧
     ∀ fuel, (k ≤ fuel)%nat → ∃ r' v, Duration fuel r min max = Done (Some (r', v)) ∧ min ≤ v ≤ max).
Proof. apply Duration_spec. Qed.

(** [Chance] panics exactly on probabilities outside the unit interval and on NaN,
    is certain at 0 and 1 without consuming a draw, and otherwise reports whether the
    top 53 bits of one draw, scaled to the unit interval, are below the probability. *)
Theorem Chance_correct r p :
  (Chance r p = Panic ↔ ¬ ∃ q, p = FQ q ∧ (0 <= q <= 1)%Q) ∧
  (∀ q, p = FQ q → (q == 0)%Q → Chance r p = Done (r, false)) ∧
  (∀ q, p = FQ q → (q == 1)%Q → Chance r p = Done (r, true)) ∧
  (∀ q, p = FQ q → (0 < q < 1)%Q →
     ∃ b, Chance r p = Done ((nextUint64 r).1, b) ∧
       (b = true ↔ (Z.shiftr (nextUint64 r).2 11 # two53 < q)%Q)).
Proof. apply Chance_spec. Qed.

(** ** Witnesses *)

Lemma Uint64N_terminates_in_range_witness :
  (10 = 0 → ∀ fuel, Uint64N fuel (NewRand 7) 10 = Panic) ∧
  (10 ≠ 0 → ∃ k, Z.of_nat k < two64 ∧
     ∀ fuel, (k ≤ fuel)%nat → ∃ r' v, Uint64N fuel (NewRand 7) 10 = Done (Some (r', v)) ∧ 0 ≤ v < 10).
Proof. apply (Uint64N_terminates_in_range (NewRand 7) 10). split; lia. Defined.

Lemma Uint64N_unbiased_witness :
  (uint64N 0 (NewRand 7) 10 = Some ((nextUint64 (NewRand 7)).1, 3) ↔
     first_value 10 3 ≤ (nextUint64 (NewRand 7)).2 < first_value 10 3 + two64 / 10) ∧
  0 ≤ first_value 10 3 ∧ first_value 10 3 + two64 / 10 ≤ two64 ∧
  uint64N 5 (NewRand 7) 10 =
    match uint64N 0 (NewRand 7) 10 with Some v => Some v | None => uint64N 4 (nextUint64 (NewRand 7)).1 10 end.
Proof. apply (Uint64N_unbiased (NewRand 7) 10 3 4); lia. Defined.

Lemma stream_values_distinct_witness : draw 0 (NewRand 7) ≠ draw 3 (NewRand 7).
Proof. apply (stream_values_distinct (NewRand 7) 0 3); [split; simpl; lia | lia | lia]. Defined.

Lemma Duration_in_range_witness :
  (5 < 0 ∨ 9 < 5 → ∀ fuel, Duration fuel (NewRand 7) 5 9 = Panic) ∧
  (0 ≤ 5 ≤ 9 → ∃ k, Z.of_nat k < two64 ∧
     ∀ fuel, (k ≤ fuel)%nat → ∃ r' v, Duration fuel (NewRand 7) 5 9 = Done (Some (r', v)) ∧ 5 ≤ v ≤ 9).
Proof. apply (Duration_in_range (NewRand 7) 5 9); lia. Defined.

(** The reference values of SplitMix64 from seed 0. *)
Example splitmix64_reference :
  map (λ k, draw k (NewRand 0)) [0; 1; 2]%nat =
  [16294208416658607535; 7960286522194355700; 487617019471545679].
Proof. vm_compute. reflexivity. Qed.
