(* ===== verification/Network.v ===== *)
(** * The simulated network (network.go)

    Links, partition matrices and the router.  Messages are values of a type [M],
    handlers of a type [H] run by a parameter.  In-flight packets are delivery
    actions of the simulator, which the router shares with other users: their
    actions are values of a type [X].  [observed] is the sequence of lifecycle
    events the router reported.  Traces of the router are not modelled (the sink is
    nil). *)

From S2P Require Export SimInv Rand.

(** ** Data *)

Inductive NetError :=
| ErrEmptyNode | ErrNilHandler | ErrDuplicateNode | ErrUnknownSource | ErrUnknownTarget
| ErrInvalidLink | ErrInvalidMatrix | ErrPacketExhausted | ErrInvalidNetworkDecision
| ErrUncacheableRouter
| ErrSimulator (e : SimError)
| ErrCallback (n : Z). (* an error of a decision source or of a tagger *)

Record LinkConfig := mkLink { MinLatency : Z; MaxLatency : Z; LossProbability : float64 }.

Definition Validate (c : LinkConfig) : option NetError :=
  if (MinLatency c <? 0) || (MaxLatency c <? MinLatency c) then Some ErrInvalidLink
  else if flt (LossProbability c) (FQ 0) || flt (FQ 1) (LossProbability c) ||
          negb (feq (LossProbability c) (LossProbability c))
  then Some ErrInvalidLink
  else None.

(** ** Partition matrices *)

Abbreviation route := (string * string)%type.

Record PartitionMatrix := mkMatrix { nodes : list string; allowed : gset route }.

Fixpoint checkNodes (seen : gset string) (l : list string) : option (gset string) :=
  match l with
  | [] => Some seen
  | node :: l =>
    if String.eqb node "" then None
    else if bool_decide (node ∈ seen) then None
    else checkNodes ({[node]} ∪ seen) l
  end.

(** The cells of one row. *)
Fixpoint addRow (from : string) (columns : list string) (row : list bool) (acc : gset route) : gset route :=
  match columns, row with
  | to :: columns, permits :: row =>
    addRow from columns row (if (permits : bool) then {[(from, to)]} ∪ acc else acc)
  | _, _ => acc
  end.

Fixpoint addRows (all rows : list string) (matrix : list (list bool)) (acc : gset route)
    : option (gset route) :=
  match rows, matrix with
  | from :: rows, row :: matrix =>
    if negb (length row =? length all)%nat then None
    else addRows all rows matrix (addRow from all row acc)
  | _, _ => Some acc
  end.

Definition NewPartitionMatrix (ns : list string) (matrix : list (list bool))
    : NetError + PartitionMatrix :=
  if (length ns =? 0)%nat || negb (length matrix =? length ns)%nat then inl ErrInvalidMatrix
  else match checkNodes ∅ ns with
  | None => inl ErrInvalidMatrix
  | Some _ =>
    match addRows ns ns matrix ∅ with
    | None => inl ErrInvalidMatrix
    | Some acc => inr (mkMatrix ns acc)
    end
  end.

(** The pairs of one group. *)
Definition groupPairs (group : list string) : gset route :=
  list_to_set (from ← group; to ← group; [(from, to)]).

Fixpoint addGroups (groups : list (list string)) (seen : gset string) (m : PartitionMatrix)
    : option PartitionMatrix :=
  match groups with
  | [] => Some m
  | group :: groups =>
    if (length group =? 0)%nat then None
    else match checkNodes seen group with
    | None => None
    | Some seen =>
      addGroups groups seen (mkMatrix (nodes m ++ group) (groupPairs group ∪ allowed m))
    end
  end.

Definition NewPartitions (groups : list (list string)) : NetError + PartitionMatrix :=
  if (length groups =? 0)%nat then inl ErrInvalidMatrix
  else match addGroups groups ∅ (mkMatrix [] ∅) with
  | None => inl ErrInvalidMatrix
  | Some m => inr m
  end.

Definition Allows (m : option PartitionMatrix) (source target : string) : bool :=
  match m with None => true | Some m => bool_decide ((source, target) ∈ allowed m) end.

Definition Nodes (m : option PartitionMatrix) : list string :=
  match m with None => [] | Some m => nodes m end.

(** ** Packets *)

Record Packet (M : Type) := mkPacket {
  PkID : Z; PkFrom : string; PkTo : string; PkMessage : M; SentAt : Z }.
Arguments mkPacket {M}.
Arguments PkID {M}.
Arguments PkFrom {M}.
Arguments PkTo {M}.
Arguments PkMessage {M}.
Arguments SentAt {M}.

Inductive NetworkEventKind := PacketScheduled | PacketDelivered | PacketDropped.
Inductive DropReason := NotDropped | DropLoss | DropPartition | DropTargetUnavailable.

Record NetworkEvent (M : Type) := mkNetEvent {
  NeKind : NetworkEventKind; NePacket : Packet M; NeAt : Z; NeDeliveryAt : Z;
  NeReason : DropReason; NeWasInFlight : bool }.
Arguments mkNetEvent {M}.
Arguments NeKind {M}.
Arguments NePacket {M}.
Arguments NeAt {M}.
Arguments NeDeliveryAt {M}.
Arguments NeReason {M}.
Arguments NeWasInFlight {M}.

Record SendResult := mkSendResult {
  SrPacketID : Z; SrScheduled : bool; SrDeliveryAt : Z; SrDropReason : DropReason }.

(** A decision source: an object of state [D], shared with whoever else asks it.  Its
    methods take the fuel of what they sample; [None] says that it ran out. *)
Record NetworkDecisionSource (M D : Type) := mkSource {
  Drop : nat → D → Packet M → LinkConfig → go (option (D * (NetError + bool)));
  Latency : nat → D → Packet M → LinkConfig → go (option (D * (NetError + Z))) }.
Arguments mkSource {M D}.
Arguments Drop {M D}.
Arguments Latency {M D}.

(** The captured variables of a delivery callback. *)
Record delivery (M : Type) := mkDelivery { dl_packet : Packet M; dl_at : Z }.
Arguments mkDelivery {M}.
Arguments dl_packet {M}.
Arguments dl_at {M}.

Section router.
Context {M H X D : Type}.
Abbreviation Act := (delivery M + X)%type.

Record Router := mkRouter {
  defaultLink : LinkConfig;
  links : gmap route LinkConfig;
  handlers : gmap string H;
  partition : option PartitionMatrix;
  clone : option (M → M);
  nextPacket : Z;
  r_exhausted : bool;
  decisions : option (NetworkDecisionSource M D);
  eventTagger : option (Packet M → NetError + EventTag) }.

Record Net := mkNet {
  sim : Simulator Act;
  rng : Rand;
  dstate : D;
  router : Router;
  observed : list (NetworkEvent M) }.

Definition set_sim (w : Net) (s : Simulator Act) : Net := mkNet s (rng w) (dstate w) (router w) (observed w).
Definition set_rng (w : Net) (r : Rand) : Net := mkNet (sim w) r (dstate w) (router w) (observed w).
Definition set_dstate (w : Net) (d : D) : Net := mkNet (sim w) (rng w) d (router w) (observed w).
Definition set_router (w : Net) (r : Router) : Net := mkNet (sim w) (rng w) (dstate w) r (observed w).

(** ** Topology *)

Definition NewRouter (s : Simulator Act) (r : Rand) (link : LinkConfig)
    (c : option (M → M)) (d : D) : NetError + Net :=
  match Validate link with
  | Some err => inl err
  | None => inr (mkNet s r d (mkRouter link ∅ ∅ None c 1 false None None) [])
  end.

Definition Register (w : Net) (node : string) (handler : option H) : Net * option NetError :=
  if String.eqb node "" then (w, Some ErrEmptyNode)
  else match handler with
  | None => (w, Some ErrNilHandler)
  | Some h =>
    match handlers (router w) !! node with
    | Some _ => (w, Some ErrDuplicateNode)
    | None =>
      let r := router w in
      (set_router w (mkRouter (defaultLink r) (links r) (<[node := h]> (handlers r)) (partition r)
         (clone r) (nextPacket r) (r_exhausted r) (decisions r) (eventTagger r)), None)
    end
  end.

Definition Unregister (w : Net) (node : string) : Net * bool :=
  match handlers (router w) !! node with
  | None => (w, false)
  | Some _ =>
    let r := router w in
    (set_router w (mkRouter (defaultLink r) (links r) (delete node (handlers r)) (partition r)
       (clone r) (nextPacket r) (r_exhausted r) (decisions r) (eventTagger r)), true)
  end.

Definition SetDecisionSource (w : Net) (d : option (NetworkDecisionSource M D)) : Net :=
  let r := router w in
  set_router w (mkRouter (defaultLink r) (links r) (handlers r) (partition r)
    (clone r) (nextPacket r) (r_exhausted r) d (eventTagger r)).

Definition SetPacketEventTagger (w : Net) (t : option (Packet M → NetError + EventTag)) : Net :=
  let r := router w in
  set_router w (mkRouter (defaultLink r) (links r) (handlers r) (partition r)
    (clone r) (nextPacket r) (r_exhausted r) (decisions r) t).

Definition SetLink (w : Net) (from to : string) (config : LinkConfig) : Net * option NetError :=
  if String.eqb from "" || String.eqb to "" then (w, Some ErrEmptyNode)
  else match Validate config with
  | Some err => (w, Some err)
  | None =>
    let r := router w in
    (set_router w (mkRouter (defaultLink r) (<[(from, to) := config]> (links r)) (handlers r) (partition r)
       (clone r) (nextPacket r) (r_exhausted r) (decisions r) (eventTagger r)), None)
  end.

Definition ResetLink (w : Net) (from to : string) : Net :=
  let r := router w in
  set_router w (mkRouter (defaultLink r) (delete (from, to) (links r)) (handlers r) (partition r)
    (clone r) (nextPacket r) (r_exhausted r) (decisions r) (eventTagger r)).

Definition SetPartition (w : Net) (m : option PartitionMatrix) : Net :=
  let r := router w in
  set_router w (mkRouter (defaultLink r) (links r) (handlers r) m
    (clone r) (nextPacket r) (r_exhausted r) (decisions r) (eventTagger r)).

(** ** Sending *)

Definition observe (w : Net) (e : NetworkEvent M) : Net :=
  mkNet (sim w) (rng w) (dstate w) (router w) (observed w ++ [e]).

Definition drop (w : Net) (p : Packet M) (reason : DropReason) (deliveryAt : Z) (inFlight : bool)
    : Net * SendResult :=
  (observe w (mkNetEvent PacketDropped p (now (sim w)) deliveryAt reason inFlight),
   mkSendResult (PkID p) false 0 reason).

(** The next packet identifier is allocated before anything else can fail. *)
Definition allocatePacket (w : Net) : Net * Z :=
  let r := router w in
  let packetID := nextPacket r in
  let '(next, exh) := if packetID =? max_u64 then (packetID, true)
                      else (wrap64 (packetID + 1), r_exhausted r) in
  (set_router w (mkRouter (defaultLink r) (links r) (handlers r) (partition r) (clone r) next exh
     (decisions r) (eventTagger r)), packetID).

Definition linkOf (r : Router) (from to : string) : LinkConfig :=
  default (defaultLink r) (links r !! (from, to)).

(** Whether the packet is lost: by the decision source, or by a draw.  [None]: out of
    fuel. *)
Definition decideLoss (fuel : nat) (w : Net) (p : Packet M) (link : LinkConfig)
    : go (option (Net * (NetError + bool))) :=
  match decisions (router w) with
  | Some source =>
    answer ← Drop source fuel (dstate w) p link;
    Done (match answer with
    | None => None
    | Some (d, inl err) => Some (set_dstate w d, inl err)
    | Some (d, inr dropped) =>
      Some (set_dstate w d,
        if (dropped && feq (LossProbability link) (FQ 0)) ||
           (negb dropped && feq (LossProbability link) (FQ 1))
        then inl ErrInvalidNetworkDecision else inr dropped)
    end)
  | None =>
    '(r, b) ← Chance (rng w) (LossProbability link);
    Done (Some (set_rng w r, inr b))
  end.

Definition decideLatency (fuel : nat) (w : Net) (p : Packet M) (link : LinkConfig)
    : go (option (Net * (NetError + Z))) :=
  match decisions (router w) with
  | Some source =>
    answer ← Latency source fuel (dstate w) p link;
    Done (match answer with
    | None => None
    | Some (d, inl err) => Some (set_dstate w d, inl err)
    | Some (d, inr latency) =>
      Some (set_dstate w d,
        if (latency <? MinLatency link) || (MaxLatency link <? latency)
        then inl ErrInvalidNetworkDecision else inr latency)
    end)
  | None =>
    d ← Duration fuel (rng w) (MinLatency link) (MaxLatency link);
    Done (match d with
          | Some (r, latency) => Some (set_rng w r, inr latency)
          | None => None
          end)
  end.

Definition scheduleDelivery (w : Net) (p : Packet M) (latency : Z) : go (Net * option NetError) :=
  let act := Some (inl (mkDelivery p (now (sim w) + latency))) in
  match eventTagger (router w) with
  | None =>
    '(s, r) ← Schedule (sim w) latency act;
    Done (set_sim w s, match r with inl err => Some (ErrSimulator err) | inr _ => None end)
  | Some tagger =>
    match tagger p with
    | inl err => Done (w, Some err)
    | inr tag =>
      '(s, r) ← ScheduleTagged (sim w) latency tag act;
      Done (set_sim w s, match r with inl err => Some (ErrSimulator err) | inr _ => None end)
    end
  end.

Definition Send (fuel : nat) (w : Net) (from to : string) (message : M)
    : go (option (Net * (NetError + SendResult))) :=
  match handlers (router w) !! from with
  | None => Done (Some (w, inl ErrUnknownSource))
  | Some _ =>
  match handlers (router w) !! to with
  | None => Done (Some (w, inl ErrUnknownTarget))
  | Some _ =>
  if r_exhausted (router w) then Done (Some (w, inl ErrPacketExhausted))
  else
  let '(w, packetID) := allocatePacket w in
  let message := match clone (router w) with Some f => f message | None => message end in
  let packet := mkPacket packetID from to message (now (sim w)) in
  if negb (Allows (partition (router w)) from to)
  then let '(w, r) := drop w packet DropPartition 0 false in Done (Some (w, inr r))
  else
  let link := linkOf (router w) from to in
  lost ← decideLoss fuel w packet link;
  match lost with
  | None => Done None
  | Some (w, inl err) => Done (Some (w, inl err))
  | Some (w, inr true) => let '(w, r) := drop w packet DropLoss 0 false in Done (Some (w, inr r))
  | Some (w, inr false) =>
    sampled ← decideLatency fuel w packet link;
    match sampled with
    | None => Done None
    | Some (w, inl err) => Done (Some (w, inl err))
    | Some (w, inr latency) =>
      '(w, failed) ← scheduleDelivery w packet latency;
      match failed with
      | Some err => Done (Some (w, inl err))
      | None =>
        let deliveryAt := now (sim w) + latency in
        let w := observe w (mkNetEvent PacketScheduled packet (now (sim w)) deliveryAt NotDropped false) in
        Done (Some (w, inr (mkSendResult packetID true deliveryAt NotDropped)))
      end
    end
  end end end.

(** ** Delivery *)

(** The arrival of a packet: the handler that is to be called with it, or a drop. *)
Definition arrive (w : Net) (d : delivery M) : Net * option H :=
  let p := dl_packet d in
  if negb (Allows (partition (router w)) (PkFrom p) (PkTo p))
  then ((drop w p DropPartition (dl_at d) true).1, None)
  else match handlers (router w) !! PkTo p with
  | None => ((drop w p DropTargetUnavailable (dl_at d) true).1, None)
  | Some h =>
    (observe w (mkNetEvent PacketDelivered p (now (sim w)) (dl_at d) NotDropped false), Some h)
  end.

Context (run_handler : H → Packet M → Net → go Net) (run_other : X → Net → go Net).

Definition deliver (w : Net) (d : delivery M) : go Net :=
  match arrive w d with
  | (w, Some h) => run_handler h (dl_packet d) w
  | (w, None) => Done w
  end.

(** One step of the simulator that drives the router. *)
Definition netStep (w : Net) : go (Net * bool) :=
  next ← takeNext (sim w);
  match next with
  | None => Done (w, false)
  | Some (s, inl d) => w ← deliver (set_sim w s) d; Done (w, true)
  | Some (s, inr x) => w ← run_other x (set_sim w s); Done (w, true)
  end.
End router.
Arguments Router : clear implicits.
Arguments Net : clear implicits.

