(* ===== verification/NetProps.v ===== *)
(** * Properties of the network

    Partition matrices permit exactly what their constructors were told; [Send]
    decides the fate of one packet; every packet has one lifecycle.  Handlers and
    other actions act on the network through the router's operations and the
    scheduler. *)

From S2P Require Export SimProps Network.

(** ** Partition matrices *)

Lemma checkNodes_spec seen l :
  match checkNodes seen l with
  | Some seen' => "" ∉ l ∧ NoDup l ∧ (∀ x, x ∈ l → x ∉ seen) ∧ seen' = seen ∪ list_to_set l
  | None => ¬ ("" ∉ l ∧ NoDup l ∧ (∀ x, x ∈ l → x ∉ seen))
  end.
Proof.
  revert seen. induction l as [|x l IH]; intros seen; cbn [checkNodes].
  { split_and!; [by intros ?%elem_of_nil | constructor | by intros ? ?%elem_of_nil | set_solver]. }
  destruct (String.eqb_spec x "") as [->|Hx]; [intros (H & _); apply H; left |].
  destruct (bool_decide_reflect (x ∈ seen)) as [Hs|Hs]; [intros (_ & _ & H); by apply (H x); [left |] |].
  specialize (IH ({[x]} ∪ seen)). destruct (checkNodes _ l) as [seen'|].
  - destruct IH as (He & Hnd & Hd & ->). split_and!.
    + by rewrite not_elem_of_cons.
    + constructor; [| done]. intros Hin. apply (Hd x Hin). set_solver.
    + intros y [->|Hy]%elem_of_cons; [done |]. specialize (Hd y Hy). set_solver.
    + set_solver.
  - intros (He & Hnd & Hd). apply IH. apply NoDup_cons in Hnd as [Hn Hnd].
    split_and!; [set_solver | done |]. intros y Hy. specialize (Hd y). set_solver.
Qed.

Lemma elem_of_addRow from columns row acc a b :
  (a, b) ∈ addRow from columns row acc ↔
  (a, b) ∈ acc ∨ a = from ∧ ∃ j, columns !! j = Some b ∧ row !! j = Some true.
Proof.
  revert row acc. induction columns as [|c columns IH]; intros row acc; cbn [addRow].
  { split; [by left | intros [|(_ & j & ? & _)]; done]. }
  destruct row as [|p row].
  { split; [by left | intros [|(_ & j & _ & ?)]; done]. }
  rewrite IH. split.
  - intros [Hin | (-> & j & Hj)]; [| right; split; [done | by exists (S j)]].
    destruct p; [| by left]. apply elem_of_union in Hin as [Hin | Hin]; [| by left].
    apply elem_of_singleton in Hin as [= -> ->]. right. split; [done | by exists 0%nat].
  - intros [Hin | (-> & [|j] & Hc & Hr)]; [left; destruct p; set_solver | | right; split; [done | by exists j]].
    simpl in Hc, Hr. simplify_eq. left. set_solver.
Qed.

Lemma addRows_spec all rows matrix acc :
  length matrix = length rows →
  match addRows all rows matrix acc with
  | Some acc' => Forall (λ row, length row = length all) matrix ∧
      ∀ a b, (a, b) ∈ acc' ↔ (a, b) ∈ acc ∨
        ∃ i j row, rows !! i = Some a ∧ all !! j = Some b ∧ matrix !! i = Some row ∧ row !! j = Some true
  | None => ¬ Forall (λ row, length row = length all) matrix
  end.
Proof.
  revert matrix acc. induction rows as [|from rows IH]; intros [|row matrix] acc Hl; cbn [addRows]; try done.
  { split; [constructor |]. intros a b. split; [by left | by intros [|(i & j & row & ? & _)]]. }
  destruct (Nat.eqb_spec (length row) (length all)) as [Hr|Hr]; cbn [negb].
  2: { by intros [? _]%Forall_cons. }
  specialize (IH matrix (addRow from all row acc) ltac:(simpl in Hl; lia)).
  destruct (addRows all rows matrix _) as [acc'|].
  - destruct IH as [Hf Hin]. split; [by constructor |]. intros a b. rewrite Hin, elem_of_addRow. split.
    + intros [[|(-> & j & ? & ?)] | (i & j & r & ?)]; [by left | right; by exists 0%nat, j, row | right; by exists (S i), j, r].
    + intros [| ([|i] & j & r & H1 & H2 & H3 & H4)]; [by left; left | | right; by exists i, j, r].
      simpl in H1, H3. simplify_eq. left; right. split; [done | by exists j].
  - by intros [_ ?]%Forall_cons.
Qed.

Lemma elem_of_groupPairs group a b : (a, b) ∈ groupPairs group ↔ a ∈ group ∧ b ∈ group.
Proof.
  unfold groupPairs. rewrite elem_of_list_to_set, list_elem_of_bind. split.
  - intros (x & (y & Hxy & Hy)%list_elem_of_bind & Hx). apply list_elem_of_singleton in Hxy.
    by simplify_eq.
  - intros [Ha Hb]. exists a. split; [| done]. apply list_elem_of_bind. exists b.
    split; [by apply list_elem_of_singleton | done].
Qed.

Definition groups_ok (seen : gset string) (groups : list (list string)) : Prop :=
  Forall (λ g, g ≠ []) groups ∧ "" ∉ concat groups ∧ NoDup (concat groups) ∧
  ∀ x, x ∈ concat groups → x ∉ seen.

Lemma addGroups_spec groups seen m :
  match addGroups groups seen m with
  | Some m' => groups_ok seen groups ∧ nodes m' = nodes m ++ concat groups ∧
      ∀ a b, (a, b) ∈ allowed m' ↔ (a, b) ∈ allowed m ∨ ∃ g, g ∈ groups ∧ a ∈ g ∧ b ∈ g
  | None => ¬ groups_ok seen groups
  end.
Proof.
  unfold groups_ok. revert seen m. induction groups as [|g groups IH]; intros seen m; cbn [addGroups concat].
  { split_and!; try constructor; try set_solver. by rewrite app_nil_r. }
  destruct (Nat.eqb_spec (length g) 0) as [Hg|Hg].
  { apply nil_length_inv in Hg as ->. by intros [[? _]%Forall_cons _]. }
  pose proof (checkNodes_spec seen g) as Hc. destruct (checkNodes seen g) as [seen'|].
  2: { intros (_ & He & Hnd & Hs). apply Hc. apply NoDup_app in Hnd as (Hnd & _ & _).
       split_and!; [set_solver | done | set_solver]. }
  destruct Hc as (He & Hnd & Hd & ->).
  specialize (IH (seen ∪ list_to_set g) (mkMatrix (nodes m ++ g) (groupPairs g ∪ allowed m))).
  destruct (addGroups groups _ _) as [m'|]; simpl in IH.
  - destruct IH as ((Hne & He' & Hnd' & Hd') & -> & Hin). split_and!.
    + constructor; [by intros -> | done].
    + set_solver.
    + apply NoDup_app. split_and!; [done | | done]. intros x Hx Hx'. specialize (Hd' x Hx'). set_solver.
    + intros x [Hx|Hx]%elem_of_app; [by apply Hd |]. specialize (Hd' x Hx). set_solver.
    + by rewrite (assoc_L (++)).
    + intros a b. rewrite Hin, elem_of_union, elem_of_groupPairs. set_solver.
  - intros ([Hne Hne']%Forall_cons & Hee & (Hn1 & Hn2 & Hn3)%NoDup_app & Hs). apply IH.
    split_and!; [done | set_solver | done |]. intros x Hx. specialize (Hs x). specialize (Hn2 x). set_solver.
Qed.

(** [NewPartitions] accepts exactly non-empty disjoint groups of non-empty names,
    and the matrix then lists every node once and permits traffic exactly inside a
    group: the relation is symmetric. *)
Theorem NewPartitions_groups groups :
  match NewPartitions groups with
  | inr m => groups ≠ [] ∧ groups_ok ∅ groups ∧ Nodes (Some m) = concat groups ∧
      (∀ a b, Allows (Some m) a b = true ↔ ∃ g, g ∈ groups ∧ a ∈ g ∧ b ∈ g) ∧
      (∀ a b, Allows (Some m) a b = Allows (Some m) b a)
  | inl err => err = ErrInvalidMatrix ∧ ¬ (groups ≠ [] ∧ groups_ok ∅ groups)
  end.
Proof.
  unfold NewPartitions. destruct groups as [|g groups]; [split; [done | by intros []] |].
  cbn [length Nat.eqb]. pose proof (addGroups_spec (g :: groups) ∅ (mkMatrix [] ∅)) as H.
  destruct (addGroups _ _ _) as [m|]; [| split; [done | by intros []]].
  destruct H as (Hok & Hn & Hin).
  assert (∀ a b, Allows (Some m) a b = true ↔ ∃ g', g' ∈ g :: groups ∧ a ∈ g' ∧ b ∈ g') as Ha.
  { intros a b. simpl Allows. rewrite bool_decide_eq_true, Hin. set_solver. }
  split_and!; [done | done | done | done |]. intros a b. apply Bool.eq_iff_eq_true. rewrite !Ha. naive_solver.
Qed.

(** [NewPartitionMatrix] accepts exactly square matrices over distinct non-empty
    names, and traffic is then permitted exactly where the cell is true. *)
Theorem NewPartitionMatrix_cells ns matrix :
  let ok := ns ≠ [] ∧ length matrix = length ns ∧ "" ∉ ns ∧ NoDup ns ∧
            Forall (λ row, length row = length ns) matrix in
  match NewPartitionMatrix ns matrix with
  | inr m => ok ∧ Nodes (Some m) = ns ∧
      ∀ a b, Allows (Some m) a b = true ↔
        ∃ i j row, ns !! i = Some a ∧ ns !! j = Some b ∧ matrix !! i = Some row ∧ row !! j = Some true
  | inl err => err = ErrInvalidMatrix ∧ ¬ ok
  end.
Proof.
  intros ok. unfold NewPartitionMatrix.
  destruct (Nat.eqb_spec (length ns) 0) as [H0|H0]; cbn [orb].
  { apply nil_length_inv in H0 as ->. split; [done | by intros []]. }
  destruct (Nat.eqb_spec (length matrix) (length ns)) as [Hl|Hl]; cbn [negb].
  2: { split; [done | by intros (_ & ? & _)]. }
  pose proof (checkNodes_spec ∅ ns) as Hc. destruct (checkNodes ∅ ns).
  2: { split; [done |]. intros (_ & _ & ? & ? & _). apply Hc. set_solver. }
  destruct Hc as (He & Hnd & _). pose proof (addRows_spec ns ns matrix ∅ Hl) as Hr.
  destruct (addRows ns ns matrix ∅) as [acc|]; [| split; [done | by intros (_ & _ & _ & _ & ?)]].
  destruct Hr as [Hf Hin]. split_and!; [| done |].
  - split_and!; [by intros -> | done ..].
  - intros a b. simpl Allows. rewrite bool_decide_eq_true, Hin. split; [| by right].
    intros [H|H]; [by apply not_elem_of_empty in H | done].
Qed.

(** ** Sending *)

Section send.
Context {M H X D : Type}.
Abbreviation W := (Net M H X D).

Definition link_ok (c : LinkConfig) : Prop := Validate c = None ∧ MaxLatency c ≤ max_i64.

(** A decision source has one answer, given without a panic once the fuel is enough. *)
Definition answers {A} (ask : nat → go (option A)) (k : nat) (a : A) : Prop :=
  ∀ fuel, ask fuel = Done (Some a) ∨ (ask fuel = Done None ∧ (fuel < k)%nat).

Definition source_ok (s : NetworkDecisionSource M D) : Prop :=
  ∀ d p link, (∃ k a, answers (λ fuel, Drop s fuel d p link) k a) ∧
              (∃ k a, answers (λ fuel, Latency s fuel d p link) k a).

Record net_wf (w : W) : Prop := {
  nw_sim : sim_wf (sim w);
  nw_default : link_ok (defaultLink (router w));
  nw_links : map_Forall (λ _, link_ok) (links (router w));
  nw_next : is_u64 (nextPacket (router w));
  nw_source : ∀ s, decisions (router w) = Some s → source_ok s }.

Lemma link_ok_cases c :
  link_ok c → 0 ≤ MinLatency c ≤ MaxLatency c ∧ MaxLatency c ≤ max_i64 ∧
  ∃ q, LossProbability c = FQ q ∧ (0 <= q <= 1)%Q.
Proof.
  unfold link_ok, Validate. intros [Hv Hmax]. case_if_in Hv; [done |]. reflect.
  split; [lia |]. split; [done |]. destruct (LossProbability c) as [| [] | q]; try done.
  exists q. split; [done |]. simpl in Hv.
  destruct (Qle_bool 0 q) eqn:E0; [| done]. destruct (Qle_bool q 1) eqn:E1; [| done].
  by apply Qle_bool_iff in E0, E1.
Qed.

Lemma linkOf_ok w from to : net_wf w → link_ok (linkOf (router w) from to).
Proof.
  intros [_ Hd Hl _ _]. unfold linkOf. destruct (links (router w) !! (from, to)) as [c|] eqn:E; [| done].
  by apply (Hl _ _ E).
Qed.

Definition sent_packet (w : W) (from to : string) (message : M) : Packet M :=
  mkPacket (nextPacket (router w)) from to
    (match clone (router w) with Some f => f message | None => message end) (now (sim w)).

(** The network after a packet identifier was taken. *)
Definition allocated (w : W) : W := (allocatePacket w).1.

Definition accepted (w : W) (from to : string) : Prop :=
  is_Some (handlers (router w) !! from) ∧ is_Some (handlers (router w) !! to) ∧
  r_exhausted (router w) = false.

(** The network after draws from its stream or questions to its source: only what was asked
    has moved. *)
Definition draws (w : W) (r : Rand) (d : D) : W := mkNet (sim w) r d (router w) (observed w).

Definition drawn (w : W) (r : Rand) (d : D) : Prop :=
  match decisions (router w) with None => d = dstate w | Some _ => r = rng w end.

(** What [Send] may do. *)
Inductive send_outcome (w : W) (from to : string) (message : M) (w' : W) : NetError + SendResult → Prop :=
| SentRefused err :
    w' = w →
    (err = ErrUnknownSource ∧ handlers (router w) !! from = None) ∨
    (err = ErrUnknownTarget ∧ handlers (router w) !! to = None) ∨
    (err = ErrPacketExhausted ∧ r_exhausted (router w) = true) →
    send_outcome w from to message w' (inl err)
| SentCut :
    accepted w from to → Allows (partition (router w)) from to = false →
    w' = observe (allocated w)
           (mkNetEvent PacketDropped (sent_packet w from to message) (now (sim w)) 0 DropPartition false) →
    send_outcome w from to message w' (inr (mkSendResult (nextPacket (router w)) false 0 DropPartition))
| SentLost r d :
    accepted w from to → Allows (partition (router w)) from to = true →
    feq (LossProbability (linkOf (router w) from to)) (FQ 0) = false → drawn w r d →
    w' = observe (draws (allocated w) r d)
           (mkNetEvent PacketDropped (sent_packet w from to message) (now (sim w)) 0 DropLoss false) →
    send_outcome w from to message w' (inr (mkSendResult (nextPacket (router w)) false 0 DropLoss))
| SentFailed err r d s :
    accepted w from to → Allows (partition (router w)) from to = true → drawn w r d →
    abs s = abs (sim w) → w' = set_sim (draws (allocated w) r d) s →
    send_outcome w from to message w' (inl err)
| SentScheduled latency r d s x t :
    accepted w from to → Allows (partition (router w)) from to = true →
    feq (LossProbability (linkOf (router w) from to)) (FQ 1) = false → drawn w r d →
    MinLatency (linkOf (router w) from to) ≤ latency ≤ MaxLatency (linkOf (router w) from to) →
    let p := sent_packet w from to message in
    let at_ := now (sim w) + latency in
    at_ ≤ max_i64 → now s = now (sim w) →
    sp_events (abs (sim w)) !! x = None →
    sp_events (abs s) = <[x := (at_, t, Some (inl (mkDelivery p at_)))]> (sp_events (abs (sim w))) →
    w' = observe (set_sim (draws (allocated w) r d) s)
           (mkNetEvent PacketScheduled p (now (sim w)) at_ NotDropped false) →
    send_outcome w from to message w' (inr (mkSendResult (nextPacket (router w)) true at_ NotDropped)).

(** ** Its parts *)

Lemma allocate_eq w :
  allocatePacket w = (allocated w, nextPacket (router w)) ∧ sim (allocated w) = sim w ∧
  rng (allocated w) = rng w ∧ observed (allocated w) = observed w ∧
  handlers (router (allocated w)) = handlers (router w) ∧
  partition (router (allocated w)) = partition (router w) ∧
  clone (router (allocated w)) = clone (router w) ∧
  links (router (allocated w)) = links (router w) ∧
  defaultLink (router (allocated w)) = defaultLink (router w) ∧
  decisions (router (allocated w)) = decisions (router w) ∧
  dstate (allocated w) = dstate w.
Proof. unfold allocated, allocatePacket. by case_if. Qed.

Lemma allocated_wf w : net_wf w → net_wf (allocated w).
Proof.
  intros [Hs Hd Hl Hn Hsrc]. unfold allocated, allocatePacket. case_if; split; simpl; try done.
  apply wrap64_range.
Qed.

(** The effect of a scheduling request on the pending events. *)
Definition placed (sp sp' : Sched (A := delivery M + X)) (at_ : Z) (act : option (delivery M + X))
    (r : response) : Prop :=
  match r with
  | Scheduled (inl _) => sp' = sp
  | Scheduled (inr x) => ∃ t, sp_events sp !! x = None ∧ at_ ≤ max_i64 ∧
      sp_events sp' = <[x := (at_, t, act)]> (sp_events sp)
  | Canceled _ => False
  end.

Lemma spec_schedule_placed (s : Simulator (delivery M + X)) at_ t act sp r :
  sim_wf s → at_ ≤ max_i64 → spec_schedule (abs s) at_ t act = (sp, r) →
  placed (abs s) sp at_ act (Scheduled r).
Proof.
  intros Hs Hat. unfold spec_schedule. case_if; [by intros [= <- <-] |]. case_if; [by intros [= <- <-] |].
  destruct act as [a|]; [| by intros [= <- <-]]. rewrite bool_decide_eq_true_2 by done. cbn [negb].
  destruct (sp_exhausted (abs s)) eqn:He; [by intros [= <- <-] |]. intros [= <- <-].
  exists t. split_and!; [| done | done].
  change (sp_events (abs s) !! Z.max 1 (sp_next (abs s)) = None). rewrite abs_lookup.
  case_decide as Hp; [| done]. exfalso. apply (sw_pending _ Hs) in Hp.
  destruct (sw_events _ Hs _ Hp) as (H0 & Hlt & _). specialize (Hlt He). simpl in Hlt. lia.
Qed.

Lemma spec_at_placed (s : Simulator (delivery M + X)) at_ t act :
  sim_wf s → at_ ≤ max_i64 →
  placed (abs s) (spec_at (abs s) at_ t act).1 at_ act (spec_at (abs s) at_ t act).2.
Proof.
  intros Hs Hat. unfold spec_at. destruct t as [t|].
  - destruct (validateEventTag t); [done |].
    destruct (spec_schedule (abs s) at_ t act) as [sp r] eqn:E. by eapply spec_schedule_placed.
  - destruct (spec_schedule (abs s) at_ emptyTag act) as [sp r] eqn:E. by eapply spec_schedule_placed.
Qed.

Lemma exec_schedule_ok (s : Simulator (delivery M + X)) delay t act :
  sim_wf s →
  wp (match t with None => Schedule s delay act | Some t => ScheduleTagged s delay t act end)
    (λ '(s', r), sim_wf s' ∧ now s' = now s ∧
       placed (abs s) (abs s') (now s + delay) act (Scheduled r)).
Proof.
  intros Hs.
  set (c := match t with None => CSchedule delay act | Some t => CScheduleTagged delay t act end).
  set (m := match t with None => Schedule s delay act | Some t => ScheduleTagged s delay t act end).
  assert (wp (exec_command s c) (λ '(s', r), sim_wf s' ∧ spec_after (abs s) delay t act = (abs s', r) ∧ now s' = now s)) as Hx.
  { pose proof (exec_command_ok s c Hs) as Hx. destruct t; by apply Hx. }
  assert (exec_command s c = scheduled m) as Hc by by destruct t.
  rewrite Hc in Hx. unfold scheduled in Hx. revert Hx. clearbody m. clear c Hc.
  destruct m as [[s' r]|]; [| done]. cbn [mbind go_bind wp].
  intros (? & E & Hn). split; [done |]. split; [done |]. revert E. unfold spec_after.
  case_if; [intros (<- & [= <-])%pair_equal_spec; done |].
  case_if; [intros (<- & [= <-])%pair_equal_spec; done |]. reflect. intros E.
  pose proof (spec_at_placed s (now s + delay) t act Hs ltac:(done)) as Hp.
  change (sp_now (abs s)) with (now s) in E. by rewrite E in Hp.
Qed.

Lemma scheduleDelivery_sim (w : W) p latency :
  sim_wf (sim w) →
  wp (scheduleDelivery w p latency) (λ '(w', failed),
    ∃ s, w' = set_sim w s ∧ sim_wf s ∧ now s = now (sim w) ∧
    match failed with
    | Some _ => abs s = abs (sim w)
    | None => ∃ x t, sp_events (abs (sim w)) !! x = None ∧ now (sim w) + latency ≤ max_i64 ∧
        sp_events (abs s) = <[x := (now (sim w) + latency, t,
          Some (inl (mkDelivery p (now (sim w) + latency))))]> (sp_events (abs (sim w)))
    end).
Proof.
  intros Hs. unfold scheduleDelivery.
  set (act := Some (inl (mkDelivery p (now (sim w) + latency)))).
  pose proof (λ t, exec_schedule_ok (sim w) latency t act Hs) as Hgo.
  destruct (eventTagger (router w)) as [tagger|]; [destruct (tagger p) as [err|t] |].
  - exists (sim w). split_and!; try done. by destruct w.
  - specialize (Hgo (Some t)); cbv beta iota in Hgo; revert Hgo. destruct (ScheduleTagged _ _ _ _) as [[s [err|x]]|]; [| | done];
      intros (? & ? & Hp); exists s; split_and!; try done. destruct Hp as (t' & ?). by exists x, t'.
  - specialize (Hgo None); cbv beta iota in Hgo; revert Hgo. destruct (Schedule _ _ _) as [[s [err|x]]|]; [| | done];
      intros (? & ? & Hp); exists s; split_and!; try done. destruct Hp as (t' & ?). by exists x, t'.
Qed.
Lemma Validate_Chance c r :
  link_ok c → ∃ r' b, Chance r (LossProbability c) = Done (r', b) ∧
    feq (LossProbability c) (FQ (if b then 0 else 1)) = false.
Proof.
  intros (_ & _ & q & -> & Hq)%link_ok_cases. unfold Chance.
  destruct (flt (FQ q) (FQ 0) || flt (FQ 1) (FQ q) || negb (feq (FQ q) (FQ q))) eqn:E.
  { exfalso. apply (Chance_spec r (FQ q)); [unfold Chance; by rewrite E | by exists q]. }
  destruct (feq (FQ q) (FQ 0)) eqn:E0.
  { exists r, false. split; [done |]. destruct (feq (FQ q) (FQ 1)) eqn:E1; [| done].
    apply Qeq_bool_eq in E0, E1. rewrite E0 in E1. discriminate E1. }
  destruct (feq (FQ q) (FQ 1)) eqn:E1; [by exists r, true |].
  destruct (float64_ r) as [r' v]. eexists r', _. split; [done |]. by case_if.
Qed.

(** What a question to the source or the stream yields. *)
Definition asked {A} (w : W) (P : A → Prop) (res : W * (NetError + A)) : Prop :=
  ∃ r d, res.1 = draws w r d ∧ drawn w r d ∧ match res.2 with inl _ => True | inr a => P a end.

Lemma decideLoss_ok w p link :
  net_wf w → link_ok link →
  ∃ k res, answers (λ fuel, decideLoss fuel w p link) k res ∧
    asked w (λ b : bool, feq (LossProbability link) (FQ (if b then 0 else 1)) = false) res.
Proof.
  intros Hw Hl. unfold decideLoss, asked, drawn. destruct (decisions (router w)) as [src|] eqn:Hd.
  - destruct (nw_source _ Hw _ Hd (dstate w) p link) as [(k & [d answer] & Hk) _]. exists k.
    eexists (_, _). split.
    + intros fuel. destruct (Hk fuel) as [-> | [-> ?]]; cbn [mbind go_bind]; [left | by right].
      instantiate (2 := draws w (rng w) d).
      instantiate (1 := match answer with
        | inl err => inl err
        | inr dropped => if (dropped && feq (LossProbability link) (FQ 0)) ||
            (negb dropped && feq (LossProbability link) (FQ 1)) then inl ErrInvalidNetworkDecision else inr dropped end).
      by destruct answer.
    + exists (rng w), d. split_and!; [done | done |]. destruct answer as [|b]; [done |]. cbn [snd]. case_if; [done |].
      apply orb_false_iff in Hif as [H1 H2]. by destruct b; simpl in *.
  - destruct (Validate_Chance link (rng w) Hl) as (r & b & Hc & Hb).
    exists 0%nat, (set_rng w r, inr b). split; [intros fuel; left; by rewrite Hc |].
    by exists r, (dstate w).
Qed.

Lemma decideLatency_ok w p link :
  net_wf w → link_ok link →
  ∃ k : nat, ∀ fuel, wp (decideLatency fuel w p link)
    (λ res, match res with
     | None => (fuel < k)%nat
     | Some res => asked w (λ l, MinLatency link ≤ l ≤ MaxLatency link) res
     end).
Proof.
  intros Hw (Hmin & Hmax & _)%link_ok_cases. unfold decideLatency, asked, drawn.
  destruct (decisions (router w)) as [src|] eqn:Hd.
  - destruct (nw_source _ Hw _ Hd (dstate w) p link) as [_ (k & [d answer] & Hk)]. exists k. intros fuel.
    destruct (Hk fuel) as [-> | [-> ?]]; cbn [mbind go_bind wp]; [| done].
    destruct answer as [err|l]; exists (rng w), d; split_and!; try done.
    cbn [snd]. case_if; [done | reflect; lia].
  - destruct (Duration_spec (rng w) (MinLatency link) (MaxLatency link)) as [_ (k & _ & Hk)]; try lia.
    exists k. intros fuel. destruct (decide (k ≤ fuel)%nat) as [Hle|Hlt].
    + destruct (Hk fuel Hle) as (r & v & -> & ?). by exists r, (dstate w).
    + destruct (Duration fuel _ _ _) as [[[r v]|]|] eqn:E; cbn.
      * exists r, (dstate w). apply Duration_value in E; [| lia ..]. auto.
      * lia.
      * unfold Duration in E. destruct (Z.ltb_spec (MinLatency link) 0); [lia |].
        destruct (Z.ltb_spec (MaxLatency link) (MinLatency link)); [lia |]. cbn [orb] in E.
        by case_if_in E.
Qed.

Lemma net_wf_set w r d s l : net_wf w → sim_wf s → net_wf (mkNet s r d (router w) l).
Proof. intros [_ ? ? ? ?] ?. by split. Qed.

Lemma Send_ok w from to message :
  net_wf w →
  ∃ k : nat, ∀ fuel, wp (Send fuel w from to message) (λ res, match res with
    | None => (fuel < k)%nat
    | Some (w', r) => send_outcome w from to message w' r ∧ net_wf w'
    end).
Proof.
  intros Hw. unfold Send.
  destruct (handlers (router w) !! from) as [hf|] eqn:Hf; [| exists 0%nat; intros ?; split; [by apply SentRefused; auto | done]].
  destruct (handlers (router w) !! to) as [ht|] eqn:Ht; [| exists 0%nat; intros ?; split; [by apply SentRefused; auto | done]].
  destruct (r_exhausted (router w)) eqn:Hx; [exists 0%nat; intros ?; split; [by apply SentRefused; auto | done] |].
  assert (accepted w from to) as Hacc by by split_and!.
  destruct (allocate_eq w) as (-> & Hs & Hr & Ho & Hh & Hpt & Hcl & Hli & Hde & Hdc & Hds).
  pose proof (allocated_wf w Hw) as Hw1.
  set (w1 := allocated w) in *. rewrite Hs, Hpt, Hcl. fold (sent_packet w from to message).
  set (p := sent_packet w from to message).
  destruct (Allows (partition (router w)) from to) eqn:Ha; cbn [negb].
  2: { exists 0%nat. intros ?. unfold drop. cbn [wp]. rewrite Hs. split; [by eapply SentCut |].
       apply net_wf_set; [done | by destruct Hw1]. }
  assert (linkOf (router w1) from to = linkOf (router w) from to) as -> by (unfold linkOf; by rewrite Hli, Hde).
  pose proof (linkOf_ok w from to Hw) as Hlk. set (link := linkOf (router w) from to) in *.
  assert (∀ r d, drawn w1 r d ↔ drawn w r d) as Hdrawn.
  { intros r d. unfold drawn. by rewrite Hdc, Hr, Hds. }
  assert (∀ r d, net_wf (draws w1 r d)) as Hwd by (intros r d; apply net_wf_set; [done | by destruct Hw1]).
  assert (∀ r d s, sim_wf s → net_wf (set_sim (draws w1 r d) s)) as Hwds by (intros; by apply net_wf_set).
  destruct (decideLoss_ok w1 p link Hw1 Hlk) as (k1 & [w2 lost] & Hk1 & r1 & d1 & Hw2 & Hd1 & Hl).
  cbn [fst snd] in *. subst w2. apply Hdrawn in Hd1.
  assert (∀ err r d, drawn w r d → send_outcome w from to message (draws w1 r d) (inl err)) as Hfail.
  { intros err r d Hd. apply (SentFailed _ _ _ _ _ err r d (sim w)); try done.
    unfold set_sim, draws. simpl. fold w1. by rewrite Hs. }
  destruct lost as [err | []].
  - exists k1. intros fuel. destruct (Hk1 fuel) as [-> | [-> ?]]; cbn [mbind go_bind wp]; auto.
  - exists k1. intros fuel. destruct (Hk1 fuel) as [-> | [-> ?]]; cbn [mbind go_bind wp]; [| done].
    unfold drop. cbn [wp]. change (sim (draws w1 r1 d1)) with (sim w1). rewrite Hs.
    split; [by eapply SentLost |]. apply net_wf_set; [done | by destruct Hw1].
  - destruct (decideLatency_ok (draws w1 r1 d1) p link (Hwd r1 d1) Hlk) as (k2 & Hk2).
    exists (max k1 k2). intros fuel.
    destruct (Hk1 fuel) as [-> | [-> ?]]; cbn [mbind go_bind wp]; [| lia].
    destruct (wp_inv _ _ (Hk2 fuel)) as (res & -> & Hres). cbn [mbind go_bind].
    destruct res as [[w3 sampled]|]; [| simpl; lia]. destruct Hres as (r2 & d2 & Hw3 & Hd2 & Hlat).
    cbn [fst snd] in *. subst w3.
    assert (drawn w r2 d2) as Hdr2.
    { unfold drawn in *. simpl in Hd2. rewrite Hdc in Hd2. destruct (decisions (router w)); congruence. }
    change (draws (draws w1 r1 d1) r2 d2) with (draws w1 r2 d2).
    destruct sampled as [err|latency]; [split; [by apply Hfail | apply Hwd] |].
    destruct (wp_inv _ _ (scheduleDelivery_sim (draws w1 r2 d2) p latency (nw_sim _ (Hwd r2 d2))))
      as ([w4 failed] & -> & s & -> & Hws & Hn & Hf4).
    change (sim (draws w1 r2 d2)) with (sim w1) in *. rewrite Hs in *. cbn [mbind go_bind].
    destruct failed as [err|]; cbn [wp].
    { split; [| by apply Hwds]. by apply (SentFailed _ _ _ _ _ err r2 d2 s). }
    destruct Hf4 as (x & t & Hfresh & Hmax & Hev). change (sim (set_sim (draws w1 r2 d2) s)) with s. rewrite Hn.
    split; [| by apply (net_wf_set w1)]. by apply (SentScheduled _ _ _ _ _ latency r2 d2 s x t).
Qed.

(** What a call of [Send] that returns did, whatever the decision source answers: the
    scheduler has at most one more event, the delivery of the cloned message. *)
Lemma Send_view fuel (w : W) from to message :
  sim_wf (sim w) →
  wlp (Send fuel w from to message) (λ res, match res with
    | None => True
    | Some (w', _) =>
      sim_wf (sim w') ∧ clone (router w') = clone (router w) ∧
      (sp_events (abs (sim w')) = sp_events (abs (sim w)) ∨
       ∃ x t at_, sp_events (abs (sim w)) !! x = None ∧
         sp_events (abs (sim w')) =
           <[x := (at_, t, Some (inl (mkDelivery (sent_packet w from to message) at_)))]> (sp_events (abs (sim w))))
    end).
Proof.
  intros Hs. unfold Send. destruct (handlers (router w) !! from); [| by split_and!; auto].
  destruct (handlers (router w) !! to); [| by split_and!; auto].
  case_if; [by split_and!; auto |].
  destruct (allocate_eq w) as (-> & Hsim & _ & _ & _ & _ & Hcl & _).
  set (w1 := allocated w) in *. rewrite Hsim, Hcl. fold (sent_packet w from to message).
  case_if; [unfold drop; simpl; rewrite Hsim, Hcl; by split_and!; auto |].
  set (p := sent_packet w from to message).
  assert (∀ res, decideLoss fuel w1 p (linkOf (router w1) from to) = Done (Some res) →
            sim res.1 = sim w ∧ router res.1 = router w1) as Hloss.
  { intros res. unfold decideLoss. destruct (decisions (router w1)) as [src|].
    - destruct (Drop _ _ _ _ _) as [[[d [err|b]]|]|]; cbn; intros; simplify_eq; simpl; by rewrite Hsim.
    - destruct (Chance _ _) as [[r b]|]; cbn; intros; simplify_eq; simpl. by rewrite Hsim. }
  destruct (decideLoss _ _ _ _) as [[[w2 [err|[]]]|]|] eqn:El; cbn [mbind go_bind wlp]; try done.
  all: destruct (Hloss _ eq_refl) as [Hs2 Hr2]; cbn [fst] in Hs2, Hr2.
  - rewrite Hs2, Hr2, Hcl. by split_and!; auto.
  - unfold drop. simpl. rewrite Hs2, Hr2, Hcl. by split_and!; auto.
  - assert (∀ res, decideLatency fuel w2 p (linkOf (router w1) from to) = Done (Some res) →
              sim res.1 = sim w ∧ router res.1 = router w1) as Hlat.
    { intros res. unfold decideLatency. rewrite Hr2. destruct (decisions (router w1)) as [src|].
      - destruct (Latency _ _ _ _ _) as [[[d [e|b]]|]|]; cbn; intros; simplify_eq; simpl; by rewrite Hs2.
      - destruct (Duration _ _ _ _) as [[[r b]|]|]; cbn; intros; simplify_eq; simpl. by rewrite Hs2. }
    destruct (decideLatency _ _ _ _) as [[[w3 [err|latency]]|]|] eqn:E3; cbn [mbind go_bind wlp]; try done.
    all: destruct (Hlat _ eq_refl) as [Hs3 Hr3]; cbn [fst] in Hs3, Hr3.
    + rewrite Hs3, Hr3, Hcl. by split_and!; auto.
    + pose proof (scheduleDelivery_sim w3 p latency) as Hd. rewrite Hs3 in Hd. specialize (Hd Hs).
      destruct (wp_inv _ _ Hd) as ([w4 failed] & -> & s & -> & Hs4 & Hn4 & Hf). cbn [mbind go_bind wlp].
      destruct failed as [err|]; cbn [wlp]; simpl; rewrite Hr3, Hcl; split_and!; try done.
      * left. exact (f_equal (sp_events (A := delivery M + X)) Hf).
      * right. destruct Hf as (x & t & Hx & _ & Hev). exists x, t, (now (sim w) + latency). by split.
Qed.

(** ** Packet lifecycles *)

Definition history (w : W) (id : Z) : list (NetworkEvent M) :=
  filter (λ e, PkID (NePacket e) = id) (observed w).

(** Whether a scheduler entry carries the packet. *)
Definition carries (id : Z) (e : Z * EventTag * option (delivery M + X)) : Prop :=
  match e.2 with Some (inl d) => PkID (dl_packet d) = id | _ => False end.
#[export] Instance carries_dec id e : Decision (carries id e).
Proof. unfold carries. destruct (e.2) as [[]|]; apply _. Defined.

Definition in_flight (w : W) (id : Z) : gmap Z (Z * EventTag * option (delivery M + X)) :=
  filter (λ kv, carries id kv.2) (sp_events (abs (sim w))).

(** The five lives of an identifier. *)
Inductive packet_fate (w : W) (id : Z) : Prop :=
| FateUnsent :
    history w id = [] → in_flight w id = ∅ → packet_fate w id
| FateDropped p at_ reason :
    (reason = DropPartition ∨ reason = DropLoss) →
    history w id = [mkNetEvent PacketDropped p at_ 0 reason false] →
    in_flight w id = ∅ → packet_fate w id
| FateInFlight p at_ due x t :
    at_ ≤ due →
    history w id = [mkNetEvent PacketScheduled p at_ due NotDropped false] →
    in_flight w id = {[x := (due, t, Some (inl (mkDelivery p due)))]} → packet_fate w id
| FateDelivered p at_ due :
    at_ ≤ due →
    history w id = [mkNetEvent PacketScheduled p at_ due NotDropped false;
                    mkNetEvent PacketDelivered p due due NotDropped false] →
    in_flight w id = ∅ → packet_fate w id
| FateLost p at_ due reason :
    at_ ≤ due → (reason = DropPartition ∨ reason = DropTargetUnavailable) →
    history w id = [mkNetEvent PacketScheduled p at_ due NotDropped false;
                    mkNetEvent PacketDropped p due due reason true] →
    in_flight w id = ∅ → packet_fate w id.

Definition taken (w : W) (id : Z) : Prop :=
  id < nextPacket (router w) ∨ r_exhausted (router w) = true.

Record net_inv (w : W) : Prop := {
  ni_wf : net_wf w;
  ni_fate : ∀ id, packet_fate w id;
  ni_fresh : ∀ id, ¬ taken w id → history w id = [] ∧ in_flight w id = ∅ }.

(** What handlers, actions and drivers do to the network: the operations of the
    router, and scheduling and canceling of other actions. *)
Inductive net_op (w : W) : W → Prop :=
| op_send fuel from to message w' r :
    Send fuel w from to message = Done (Some (w', r)) → net_op w w'
| op_register node h : net_op w (Register w node h).1
| op_unregister node : net_op w (Unregister w node).1
| op_set_link from to config : MaxLatency config ≤ max_i64 → net_op w (SetLink w from to config).1
| op_reset_link from to : net_op w (ResetLink w from to)
| op_set_partition m : net_op w (SetPartition w m)
| op_set_decisions d : (∀ s, d = Some s → source_ok s) → net_op w (SetDecisionSource w d)
| op_set_dstate d : net_op w (set_dstate w d)
| op_set_tagger t : net_op w (SetPacketEventTagger w t)
| op_schedule delay t x s r :
    (match t with None => Schedule (sim w) delay x | Some t => ScheduleTagged (sim w) delay t x end) = Done (s, r) →
    (∀ d, x ≠ Some (inl d)) → net_op w (set_sim w s)
| op_cancel id s b :
    Simulator.Cancel (sim w) id = Done (s, b) →
    (∀ p, ¬ ∃ e, sp_events (abs (sim w)) !! id = Some e ∧ carries p e) → net_op w (set_sim w s).

(** ** The invariant is kept *)

Lemma packet_fate_same w w' id :
  history w' id = history w id → in_flight w' id = in_flight w id → packet_fate w id → packet_fate w' id.
Proof.
  intros Hh Hf [H1 H2 | p a r Hr H1 H2 | p a d x t Ha H1 H2 | p a d Ha H1 H2 | p a d r Ha Hr H1 H2];
    rewrite <- Hh in H1; rewrite <- Hf in H2.
  - by apply FateUnsent.
  - by eapply FateDropped.
  - by eapply FateInFlight.
  - by eapply FateDelivered.
  - by eapply FateLost.
Qed.

(** One identifier moves on. *)
Lemma net_inv_extend w w' id0 :
  net_inv w → net_wf w' →
  (∀ id, id ≠ id0 → history w' id = history w id ∧ in_flight w' id = in_flight w id) →
  packet_fate w' id0 → taken w' id0 → (∀ id, taken w id → taken w' id) → net_inv w'.
Proof.
  intros [_ Hfate Hfresh] Hw Hsame Hf0 Ht0 Hmono. split; [done | |].
  - intros id. destruct (decide (id = id0)) as [->|Hne]; [done |].
    destruct (Hsame id Hne). by eapply packet_fate_same.
  - intros id Hid. assert (id ≠ id0) as Hne by by intros ->.
    destruct (Hsame id Hne) as [-> ->]. apply Hfresh. auto.
Qed.

Lemma net_inv_view w w' :
  net_wf w' → observed w' = observed w → (∀ id, in_flight w' id = in_flight w id) →
  (∀ id, taken w id → taken w' id) → net_inv w → net_inv w'.
Proof.
  intros Hw Ho Hf Ht [_ Hfate Hfresh].
  assert (∀ id, history w' id = history w id) as Hh by (intros id; unfold history; by rewrite Ho).
  split; [done | |].
  - intros id. by apply (packet_fate_same w).
  - intros id Hid. rewrite Hh, Hf. apply Hfresh. intros H1. by apply Hid, Ht.
Qed.

Lemma in_flight_insert w w' id x e :
  sp_events (abs (sim w')) = <[x := e]> (sp_events (abs (sim w))) →
  sp_events (abs (sim w)) !! x = None →
  in_flight w' id = if decide (carries id e) then <[x := e]> (in_flight w id) else in_flight w id.
Proof.
  intros Hs Hx. unfold in_flight. rewrite Hs. case_decide as Hc.
  - by rewrite map_filter_insert_True.
  - rewrite map_filter_insert_False by done. by rewrite delete_id.
Qed.

Lemma in_flight_delete w w' id x :
  sp_events (abs (sim w')) = delete x (sp_events (abs (sim w))) →
  in_flight w' id = delete x (in_flight w id).
Proof. intros Hs. unfold in_flight. by rewrite Hs, map_filter_delete. Qed.

Lemma history_observe w e id :
  history (observe w e) id =
  history w id ++ (if decide (PkID (NePacket e) = id) then [e] else []).
Proof. unfold history, observe. simpl. rewrite filter_app, filter_cons, filter_nil. by case_decide. Qed.

Lemma allocated_taken w :
  is_u64 (nextPacket (router w)) → r_exhausted (router w) = false →
  ¬ taken w (nextPacket (router w)) ∧ taken (allocated w) (nextPacket (router w)) ∧
  (∀ id, taken w id → taken (allocated w) id).
Proof.
  unfold taken, is_u64. intros Hn Hx. rewrite Hx. unfold allocated, allocatePacket.
  destruct (Z.eqb_spec (nextPacket (router w)) max_u64) as [E|E]; simpl.
  - split_and!; [intros []; (done || lia) | by right | by right].
  - rewrite wrap64_small by (unfold is_u64; lia). rewrite Hx.
    split_and!; [intros []; (done || lia) | left; lia |]. intros id [|]; [left; lia | done].
Qed.

Lemma send_keeps_inv w from to message w' r :
  net_inv w → net_wf w' → send_outcome w from to message w' r → net_inv w'.
Proof.
  intros Hi Hw' Ho. pose proof Hi as [Hw Hfate Hfresh].
  set (id0 := nextPacket (router w)).
  destruct (allocate_eq w) as (_ & Hs & _ & Hob & _).
  assert (∀ v id, observed v = observed (allocated w) → history v id = history w id) as Hh.
  { intros v id Hv. unfold history. by rewrite Hv, Hob. }
  destruct Ho as [err -> _ | Hacc Ha -> | r1 d1 Hacc Ha Hp0 Hd -> | err r1 d1 s Hacc Ha Hd Hab ->
                 | latency r1 d1 s x t Hacc Ha Hp1 Hd Hlat p at_ Hmax Hn Hx Hev ->]; [done | | | |];
    destruct Hacc as (_ & _ & Hexh);
    destruct (allocated_taken w (nw_next _ Hw) Hexh) as (Hnt & Ht & Hmono);
    destruct (Hfresh id0 Hnt) as [Hh0 Hf0]; cbn [history] in *.
  - assert (∀ id, in_flight (observe (allocated w) (mkNetEvent PacketDropped (sent_packet w from to message)
      (now (sim w)) 0 DropPartition false)) id = in_flight w id) as Hf by (intros; unfold in_flight; simpl; by rewrite Hs).
    apply (net_inv_extend w _ id0); try done.
    + intros id Hne. rewrite history_observe, Hf. case_decide; [done |].
      rewrite app_nil_r. split; [|done]. unfold history. by rewrite Hob.
    + eapply (FateDropped _ _ (sent_packet w from to message) _ DropPartition); [by left | | by rewrite Hf].
      rewrite history_observe, decide_True by done. unfold history in *. by rewrite Hob, Hh0.
  - assert (∀ id, in_flight (observe (draws (allocated w) r1 d1) (mkNetEvent PacketDropped (sent_packet w from to message)
      (now (sim w)) 0 DropLoss false)) id = in_flight w id) as Hf by (intros; unfold in_flight; simpl; by rewrite Hs).
    apply (net_inv_extend w _ id0); try done.
    + intros id Hne. rewrite history_observe, Hf. case_decide; [done |]. rewrite app_nil_r, Hh by done. done.
    + eapply (FateDropped _ _ (sent_packet w from to message) _ DropLoss); [by right | | by rewrite Hf].
      rewrite history_observe, decide_True by done. rewrite Hh by done. by rewrite Hh0.
  - apply (net_inv_view w); try done. intros id. unfold in_flight. simpl sim. by rewrite Hab.
  - set (w1 := observe _ _).
    set (e := (at_, t, Some (inl (mkDelivery p at_))) : Z * EventTag * option (delivery M + X)).
    assert (∀ id, in_flight w1 id = if decide (carries id e) then <[x := e]> (in_flight w id) else in_flight w id)
      as Hf by (intros id; by apply in_flight_insert).
    apply (net_inv_extend w _ id0); try done.
    + intros id Hne. unfold w1. rewrite history_observe. fold w1. rewrite Hf.
      rewrite !decide_False by (intros <-; by apply Hne). rewrite app_nil_r, Hh by done. done.
    + apply (FateInFlight _ _ p (now (sim w)) at_ x t).
      * pose proof (link_ok_cases _ (linkOf_ok w from to Hw)). unfold at_. lia.
      * unfold w1. rewrite history_observe, decide_True by done. rewrite Hh by done. by rewrite Hh0.
      * rewrite Hf, decide_True by done. fold id0. by rewrite Hf0, insert_empty.
Qed.

Lemma net_op_inv w w' : net_inv w → net_op w w' → net_inv w'.
Proof.
  intros Hi Hop. pose proof Hi as [Hw Hfate Hfresh]. pose proof Hw as [Hs Hd Hl Hn Hsrc].
  destruct Hop as [fuel from to m w' r E | node h | node | from to c Hc | from to | m | d Hd' | d | t
                  | delay t x s r E Hx | id s b E Hno].
  - destruct (Send_ok w from to m Hw) as (k & Hk). specialize (Hk fuel). rewrite E in Hk.
    destruct Hk as [Ho Hw']. by eapply send_keeps_inv.
  - unfold Register. case_if; [done |]. destruct h as [h|]; [| done].
    destruct (handlers (router w) !! node); [done |]. apply (net_inv_view w); try done.
  - unfold Unregister. destruct (handlers (router w) !! node); [| done]. by apply (net_inv_view w).
  - unfold SetLink. case_if; [done |]. destruct (Validate c) eqn:Hv; [done |].
    apply (net_inv_view w); try done. split; simpl; try done. by apply map_Forall_insert_2.
  - apply (net_inv_view w); try done. split; simpl; try done. by apply map_Forall_delete.
  - by apply (net_inv_view w).
  - by apply (net_inv_view w).
  - by apply (net_inv_view w).
  - by apply (net_inv_view w).
  - pose proof (exec_schedule_ok (sim w) delay t x Hs) as H1. rewrite E in H1.
    destruct H1 as (Hs' & _ & Hp). apply (net_inv_view w); try done.
    intros id. destruct r as [err|y]; simpl in Hp; [unfold in_flight; simpl sim; by rewrite Hp |].
    destruct Hp as (t' & Hf & _ & Hev). rewrite (in_flight_insert w (set_sim w s) id y _ Hev Hf).
    rewrite decide_False; [done |]. unfold carries. simpl. destruct x as [[d|]|]; try tauto. by destruct (Hx d).
  - pose proof (Cancel_ok (sim w) id Hs) as H1. rewrite E in H1.
    destruct H1 as (Hs' & Hc & _). apply (net_inv_view w); try done.
    intros p. unfold spec_cancel in Hc. apply (f_equal (λ q, sp_events q.1)) in Hc. simpl fst in Hc.
    rewrite (in_flight_delete w (set_sim w s) p id) by done. apply delete_id.
    destruct (in_flight w p !! id) as [e|] eqn:Ee; [| done].
    apply map_lookup_filter_Some in Ee as [He Hc']. exfalso. apply (Hno p). by exists e.
Qed.

(** A taken delivery was the packet's only event, and is due now. *)
Lemma taken_delivery w x t tg d :
  net_inv w → sp_events (abs (sim w)) !! x = Some (t, tg, Some (inl d)) →
  let id := PkID (dl_packet d) in
  ∃ at_, at_ ≤ t ∧ dl_at d = t ∧
    history w id = [mkNetEvent PacketScheduled (dl_packet d) at_ t NotDropped false] ∧
    in_flight w id = {[x := (t, tg, Some (inl d))]} ∧ taken w id.
Proof.
  intros [_ Hfate Hfresh] Hx id.
  assert (in_flight w id !! x = Some (t, tg, Some (inl d))) as Hin by by apply map_lookup_filter_Some.
  assert (taken w id) as Ht.
  { destruct (decide (id < nextPacket (router w))); [by left |].
    destruct (r_exhausted (router w)) eqn:Hex; [by right |].
    destruct (Hfresh id) as [_ Hf]; [intros []; [lia | congruence] |]. by rewrite Hf in Hin. }
  destruct (Hfate id) as [_ H2 | p a r Hr _ H2 | p a due y t' Ha H1 H2 | p a due Ha _ H2 | p a due r Ha Hr _ H2];
    rewrite H2 in Hin; try done.
  apply lookup_singleton_Some in Hin as [-> [= -> -> <-]]. by exists a.
Qed.

(** The packet's event is replaced by its arrival. *)
Lemma arrival_inv w s x t tg d e :
  net_inv w → sim_wf s →
  sp_events (abs (sim w)) !! x = Some (t, tg, Some (inl d)) →
  sp_events (abs s) = delete x (sp_events (abs (sim w))) →
  e = mkNetEvent PacketDelivered (dl_packet d) t t NotDropped false ∨
  (∃ reason, (reason = DropPartition ∨ reason = DropTargetUnavailable) ∧
     e = mkNetEvent PacketDropped (dl_packet d) t t reason true) →
  net_inv (observe (set_sim w s) e).
Proof.
  intros Hi Hs Hx Hev He. destruct (taken_delivery w x t tg d Hi Hx) as (a & Ha & Hdue & Hh & Hf & Ht).
  set (id0 := PkID (dl_packet d)) in *. set (w1 := observe (set_sim w s) e).
  assert (NePacket e = dl_packet d) as Hep by (destruct He as [-> | (r & _ & ->)]; done).
  assert (∀ id, in_flight w1 id = delete x (in_flight w id)) as Hfl by (intros; by apply in_flight_delete).
  assert (in_flight w1 id0 = ∅) as Hf1 by (rewrite Hfl, Hf; apply delete_singleton_eq).
  assert (∀ id, history w1 id = history w id ++ if decide (id0 = id) then [e] else []) as Hh1.
  { intros id. unfold w1. rewrite history_observe, Hep. done. }
  apply (net_inv_extend w w1 id0); try done.
  - destruct Hi as [Hw0 _ _]. by apply (net_wf_set w (rng w) (dstate w) s).
  - intros id Hne. rewrite Hh1, Hfl, decide_False, app_nil_r by done. split; [done |].
    apply delete_id. destruct (in_flight w id !! x) as [y|] eqn:Ey; [| done].
    apply map_lookup_filter_Some in Ey as [Ey Hc]. rewrite Hx in Ey. injection Ey as <-. done.
  - specialize (Hh1 id0). rewrite decide_True, Hh in Hh1 by done.
    destruct He as [-> | (r & Hr & ->)]; [by apply (FateDelivered _ _ (dl_packet d) a t) | by apply (FateLost _ _ (dl_packet d) a t r)].
Qed.

(** ** Running the network *)

Context (run_handler : H → Packet M → W → go W) (run_other : X → W → go W).

(** Handlers and other actions act through the operations. *)
Class NetActions : Prop := {
  handler_ops : ∀ h p w, wlp (run_handler h p w) (rtc net_op w);
  other_ops : ∀ x w, wlp (run_other x w) (rtc net_op w) }.

Inductive net_step (w : W) : W → Prop :=
| step_op w' : net_op w w' → net_step w w'
| step_run w' b : netStep run_handler run_other w = Done (w', b) → net_step w w'.

Lemma net_ops_inv w w' : rtc net_op w w' → net_inv w → net_inv w'.
Proof. induction 1; [done |]. intros. by eapply IHrtc, net_op_inv. Qed.

(** A delivery that is due, with the network as it is then. *)
Lemma deliver_ok w s x t tg d :
  net_inv w → next_event (abs (sim w)) x (t, tg, Some (inl d)) → sim_wf s →
  abs s = mkSched t (delete x (sp_events (abs (sim w)))) (nextID (sim w)) (exhausted (sim w)) →
  let p := dl_packet d in
  ∃ e, NePacket e = p ∧ NeAt e = t ∧ NeDeliveryAt e = t ∧ net_inv (observe (set_sim w s) e) ∧
    if Allows (partition (router w)) (PkFrom p) (PkTo p) then
      match handlers (router w) !! PkTo p with
      | Some h => NeKind e = PacketDelivered ∧
          deliver run_handler (set_sim w s) d = run_handler h p (observe (set_sim w s) e)
      | None => NeKind e = PacketDropped ∧ NeReason e = DropTargetUnavailable ∧
          deliver run_handler (set_sim w s) d = Done (observe (set_sim w s) e)
      end
    else NeKind e = PacketDropped ∧ NeReason e = DropPartition ∧
      deliver run_handler (set_sim w s) d = Done (observe (set_sim w s) e).
Proof.
  intros Hi [Hx _] Hs Ha p. destruct (taken_delivery w x t tg d Hi Hx) as (a & Hat & Hdue & _).
  assert (now s = t) as Hn by apply (f_equal (sp_now (A := delivery M + X)) Ha).
  pose proof (f_equal (sp_events (A := delivery M + X)) Ha) as Hev. cbn [sp_events] in Hev.
  unfold deliver, arrive, drop. change (router (set_sim w s)) with (router w). change (sim (set_sim w s)) with s.
  rewrite Hdue, Hn. fold p.
  assert (∀ e, NePacket e = p → _ → net_inv (observe (set_sim w s) e)) as Hok
    by (intros e _; by apply (arrival_inv w s x t tg d)).
  destruct (Allows (partition (router w)) (PkFrom p) (PkTo p)); cbn [negb fst];
    [destruct (handlers (router w) !! PkTo p) as [h|] |];
    [ exists (mkNetEvent PacketDelivered p t t NotDropped false)
    | exists (mkNetEvent PacketDropped p t t DropTargetUnavailable true)
    | exists (mkNetEvent PacketDropped p t t DropPartition true) ];
    (split_and!; try done; apply Hok; eauto 10).
Qed.

Lemma netStep_inv `{!NetActions} w w' b :
  net_inv w → netStep run_handler run_other w = Done (w', b) → net_inv w'.
Proof.
  intros Hi. pose proof (nw_sim _ (ni_wf _ Hi)) as Hs. unfold netStep.
  destruct (takeNext_ok (sim w) Hs) as [(_ & _ & ->) | (x & t & [tg [d|o]] & s & Hnx & Hs1 & Ha & _ & _ & ->)];
    cbn [mbind go_bind snd]; [by intros [= <- _] | |].
  - destruct (deliver_ok w s x t tg d Hi Hnx Hs1 Ha) as (e & _ & _ & _ & Hi1 & Hd). revert Hd.
    destruct (Allows (partition (router w)) _ _); [destruct (handlers (router w) !! _) as [h|] |];
      [intros [_ Hd] | intros (_ & _ & Hd) ..]; rewrite Hd; cbn [mbind go_bind]; [| by intros [= <- _] ..].
    pose proof (handler_ops h (dl_packet d) (observe (set_sim w s) e)) as Hops.
    destruct (run_handler _ _ _) as [w2|]; [| done]. intros [= <- _]. by eapply net_ops_inv.
  - assert (net_inv (set_sim w s)) as Hi1.
    { apply (net_inv_view w); try done; [destruct Hi as [Hw0 _ _]; by apply (net_wf_set w (rng w) (dstate w) s) |].
      intros id. rewrite (in_flight_delete w (set_sim w s) id x);
        [| exact (f_equal (sp_events (A := delivery M + X)) Ha)].
      apply delete_id. destruct (in_flight w id !! x) as [y|] eqn:Ey; [| done].
      apply map_lookup_filter_Some in Ey as [Ey Hc]. destruct Hnx as [Hx _]. rewrite Hx in Ey.
      by injection Ey as <-. }
    pose proof (other_ops o (set_sim w s)) as Hops.
    destruct (run_other _ _) as [w2|]; [| done]. intros [= <- _]. by eapply net_ops_inv.
Qed.

Lemma NewRouter_inv r c cl d :
  MaxLatency c ≤ max_i64 →
  match NewRouter New r c cl d with inl _ => True | inr w => net_inv w end.
Proof.
  intros Hc. unfold NewRouter. destruct (Validate c) eqn:Hv; [done |].
  assert (net_wf (mkNet New r d (mkRouter c ∅ ∅ None cl 1 false None None) [])) as Hw by (split; [apply New_wf | done ..]).
  split; [done | intros id; by apply FateUnsent | done].
Qed.

Lemma reachable_inv `{!NetActions} w w' : rtc net_step w w' → net_inv w → net_inv w'.
Proof.
  induction 1 as [|w w1 w2 Hstep _ IH]; [done |]. intros Hi. apply IH.
  destruct Hstep as [w' Hop | w' b Hrun]; [by eapply net_op_inv | by eapply netStep_inv].
Qed.

(** ** Theorems *)

(** [Send] always returns, after boundedly many draws, and does one of five things:
    refuse the call without effect; drop the packet at the partition, before any
    decision or draw; lose it, unless the link is lossless; fail after taking an
    identifier, with nothing scheduled; or schedule exactly one delivery of the cloned
    message, within the latency range of the link. *)
Theorem send_decides_packet (w : W) from to message :
  net_wf w →
  ∃ k : nat, ∀ fuel, (k ≤ fuel)%nat → ∃ w' r,
    Send fuel w from to message = Done (Some (w', r)) ∧
    send_outcome w from to message w' r ∧ net_wf w'.
Proof.
  intros Hw. destruct (Send_ok w from to message Hw) as (k & Hk). exists k. intros fuel Hf.
  destruct (wp_inv _ _ (Hk fuel)) as (res & E & Hres). destruct res as [[w' r]|]; [by eauto | lia].
Qed.

(** The next event of the network: nothing, an action of another user, or a
    delivery.  A delivery is decided by the partition and the registrations at the
    time it is due, not at the time it was sent: the handler of the target runs once,
    or the packet is dropped with the reason, at the scheduled time. *)
Theorem delivery_checked_when_due (w : W) :
  net_inv w →
  (sp_events (abs (sim w)) = ∅ ∧ netStep run_handler run_other w = Done (w, false)) ∨
  ∃ x t tg act s, next_event (abs (sim w)) x (t, tg, Some act) ∧ now s = t ∧
    sp_events (abs s) = delete x (sp_events (abs (sim w))) ∧
    match act with
    | inr o => netStep run_handler run_other w = (w' ← run_other o (set_sim w s); Done (w', true))
    | inl d =>
      let p := dl_packet d in
      ∃ e, NePacket e = p ∧ NeAt e = t ∧ NeDeliveryAt e = t ∧ net_inv (observe (set_sim w s) e) ∧
      if Allows (partition (router w)) (PkFrom p) (PkTo p) then
        match handlers (router w) !! PkTo p with
        | Some h => NeKind e = PacketDelivered ∧
            netStep run_handler run_other w = (w' ← run_handler h p (observe (set_sim w s) e); Done (w', true))
        | None => NeKind e = PacketDropped ∧ NeReason e = DropTargetUnavailable ∧
            netStep run_handler run_other w = Done (observe (set_sim w s) e, true)
        end
      else NeKind e = PacketDropped ∧ NeReason e = DropPartition ∧
        netStep run_handler run_other w = Done (observe (set_sim w s) e, true)
    end.
Proof.
  intros Hi. unfold netStep.
  destruct (takeNext_ok (sim w) (nw_sim _ (ni_wf _ Hi))) as
    [(_ & ? & ->) | (x & t & [tg act] & s & Hnx & Hs1 & Ha & _ & _ & ->)]; [by left | right].
  exists x, t, tg, act, s. cbn [mbind go_bind snd fst] in *. split; [done |].
  split; [exact (f_equal (sp_now (A := delivery M + X)) Ha) |].
  split; [exact (f_equal (sp_events (A := delivery M + X)) Ha) |].
  destruct act as [d|o]; [| done].
  destruct (deliver_ok w s x t tg d Hi Hnx Hs1 Ha) as (e & H1 & H2 & H3 & H4 & Hd). exists e.
  split_and!; [done .. |]. revert Hd.
  destruct (Allows (partition (router w)) _ _); [destruct (handlers (router w) !! _) as [h|] |];
    [intros [? Hd] | intros (? & ? & Hd) ..]; rewrite Hd; done.
Qed.

(** C9.  Every packet identifier has one life, whatever handlers, other actions and
    topology changes do: unsent, dropped when sent, in flight with exactly one pending
    delivery, delivered once at its time, or dropped once at its time.  No packet is
    duplicated, delivered twice, or lost without an event. *)
Theorem packet_lifecycle `{!NetActions} r c cl d w0 w :
  MaxLatency c ≤ max_i64 → NewRouter New r c cl d = inr w0 → rtc net_step w0 w →
  ∀ id, packet_fate w id.
Proof.
  intros Hc E Hr. pose proof (NewRouter_inv r c cl d Hc) as Hi. rewrite E in Hi.
  exact (ni_fate _ (reachable_inv w0 w Hr Hi)).
Qed.
End send.

(** ** Witnesses: an echo between two nodes *)

Definition demo_link : LinkConfig := mkLink 5 5 (FQ 0).
Definition demo_handler (h : bool) (p : Packet Z) (w : Net Z bool unit unit) : go (Net Z bool unit unit) :=
  if h then
    r ← Send 0 w (PkTo p) (PkFrom p) (PkMessage p + 1);
    Done (match r with Some (w', _) => w' | None => w end)
  else Done w.
Definition demo_other (x : unit) (w : Net Z bool unit unit) : go (Net Z bool unit unit) := Done w.

#[export] Instance demo_net_actions : NetActions demo_handler demo_other.
Proof.
  split; [| intros x w; apply rtc_refl]. intros [] p w; [| apply rtc_refl]. unfold demo_handler.
  destruct (Send _ _ _ _ _) as [[[w' r]|]|] eqn:E; cbn; [| apply rtc_refl | done].
  eapply rtc_once, op_send, E.
Qed.

Definition demo_start : Net Z bool unit unit :=
  match NewRouter New (NewRand 7) demo_link None tt with
  | inr w => (Register (Register w "a" (Some false)).1 "b" (Some true)).1
  | inl _ => mkNet New (NewRand 7) tt (mkRouter demo_link ∅ ∅ None None 1 false None None) []
  end.

Definition demo_sent : Net Z bool unit unit :=
  match Send 0 demo_start "a" "b" 41 with Done (Some (w, _)) => w | _ => demo_start end.

Definition demo_router : Net Z bool unit unit :=
  mkNet New (NewRand 7) tt (mkRouter demo_link ∅ ∅ None None 1 false None None) [].

Lemma demo_sent_reachable : rtc (net_step demo_handler demo_other) demo_router demo_sent.
Proof.
  eapply rtc_l; [apply step_op, (op_register demo_router "a" (Some false)) |].
  eapply rtc_l; [apply step_op, (op_register _ "b" (Some true)) |].
  change (rtc (net_step demo_handler demo_other) demo_start demo_sent). unfold demo_sent.
  destruct (Send 0 demo_start "a" "b" 41) as [[[w r]|]|] eqn:E; [| apply rtc_refl ..].
  eapply rtc_once, step_op, op_send, E.
Qed.

Lemma demo_router_inv : net_inv demo_router.
Proof. apply (NewRouter_inv (NewRand 7) demo_link None tt). vm_compute. discriminate. Qed.

Lemma demo_sent_inv : net_inv demo_sent.
Proof. apply (reachable_inv demo_handler demo_other demo_router); [apply demo_sent_reachable | apply demo_router_inv]. Qed.

Lemma send_decides_packet_witness :
  ∃ k : nat, ∀ fuel, (k ≤ fuel)%nat → ∃ w' r,
    Send fuel demo_sent "b" "a" 3 = Done (Some (w', r)) ∧
    send_outcome demo_sent "b" "a" 3 w' r ∧ net_wf w'.
Proof. apply (send_decides_packet demo_sent "b" "a" 3 (ni_wf _ demo_sent_inv)). Defined.

Lemma delivery_checked_when_due_witness :
  (sp_events (abs (sim demo_sent)) = ∅ ∧ netStep demo_handler demo_other demo_sent = Done (demo_sent, false)) ∨
  ∃ x t tg act s, next_event (abs (sim demo_sent)) x (t, tg, Some act) ∧ now s = t ∧
    sp_events (abs s) = delete x (sp_events (abs (sim demo_sent))) ∧
    match act with
    | inr o => netStep demo_handler demo_other demo_sent = (w' ← demo_other o (set_sim demo_sent s); Done (w', true))
    | inl d =>
      let p := dl_packet d in
      ∃ e, NePacket e = p ∧ NeAt e = t ∧ NeDeliveryAt e = t ∧ net_inv (observe (set_sim demo_sent s) e) ∧
      if Allows (partition (router demo_sent)) (PkFrom p) (PkTo p) then
        match handlers (router demo_sent) !! PkTo p with
        | Some h => NeKind e = PacketDelivered ∧
            netStep demo_handler demo_other demo_sent = (w' ← demo_handler h p (observe (set_sim demo_sent s) e); Done (w', true))
        | None => NeKind e = PacketDropped ∧ NeReason e = DropTargetUnavailable ∧
            netStep demo_handler demo_other demo_sent = Done (observe (set_sim demo_sent s) e, true)
        end
      else NeKind e = PacketDropped ∧ NeReason e = DropPartition ∧
        netStep demo_handler demo_other demo_sent = Done (observe (set_sim demo_sent s) e, true)
    end.
Proof. apply (delivery_checked_when_due demo_handler demo_other demo_sent demo_sent_inv). Defined.

Lemma packet_lifecycle_witness : packet_fate demo_sent 1.
Proof.
  apply (packet_lifecycle demo_handler demo_other (NewRand 7) demo_link None tt demo_router demo_sent).
  - vm_compute. discriminate.
  - reflexivity.
  - apply demo_sent_reachable.
Defined.

(** The echo: sent at 0, answered at 5, received at 10. *)
Example demo_echo :
  ('(w, _) ← netStep demo_handler demo_other demo_sent;
   '(w, _) ← netStep demo_handler demo_other w;
   Done (map (λ e, (NeKind e, PkID (NePacket e), PkMessage (NePacket e), NeAt e)) (observed w))) =
  Done [(PacketScheduled, 1, 41, 0); (PacketDelivered, 1, 41, 5); (PacketScheduled, 2, 42, 5);
        (PacketDelivered, 2, 42, 10)].
Proof. vm_compute. reflexivity. Qed.
