(* ===== verification/JsonEnc.v ===== *)
(** * JSON encoding (encoding/json's [Marshal] of strings and numbers, [Compact])

    What Go's Standard Library documents and does for the values the development
    encodes: strings are escaped for HTML, control characters are escaped, and
    bytes that are not UTF-8 are replaced by the replacement character.  [Compact]
    drops the whitespace between tokens of a valid text. *)

From S2P Require Export Json.
From stdpp Require Import pretty.

#[global] Open Scope Z_scope.

(** Single characters of the syntax. *)
Definition bslash : byte := x5c.
Definition quote : byte := x22.

Definition hex_digit (n : Z) : byte :=
  default x30 (Byte.of_N (Z.to_N (if n <? 10 then 48 + n else 87 + n))).

(** A continuation byte in a range. *)
Definition cont (lo hi : Z) (b : byte) : bool := (lo <=? code b) && (code b <=? hi).

(** The size of the UTF-8 rune at the head of a text, 0 when there is none. *)
Definition rune_size (l : bytes) : nat :=
  match l with
  | [] => 0%nat
  | b :: l =>
    let c := code b in
    if c <? 128 then 1%nat
    else if c <? 194 then 0%nat
    else if c <? 224 then
      match l with b1 :: _ => if cont 128 191 b1 then 2%nat else 0%nat | _ => 0%nat end
    else if c <? 240 then
      let lo := if c =? 224 then 160 else 128 in
      let hi := if c =? 237 then 159 else 191 in
      match l with
      | b1 :: b2 :: _ => if cont lo hi b1 && cont 128 191 b2 then 3%nat else 0%nat
      | _ => 0%nat
      end
    else if c <? 245 then
      let lo := if c =? 240 then 144 else 128 in
      let hi := if c =? 244 then 143 else 191 in
      match l with
      | b1 :: b2 :: b3 :: _ => if cont lo hi b1 && cont 128 191 b2 && cont 128 191 b3 then 4%nat else 0%nat
      | _ => 0%nat
      end
    else 0%nat
  end.

(** One ASCII character in a string. *)
Definition escape_ascii (b : byte) : bytes :=
  let c := code b in
  if (c =? 34) || (c =? 92) then [bslash; b]
  else if c =? 8 then [bslash; x62]
  else if c =? 12 then [bslash; x66]
  else if c =? 10 then [bslash; x6e]
  else if c =? 13 then [bslash; x72]
  else if c =? 9 then [bslash; x74]
  else if (c <? 32) || (c =? 60) || (c =? 62) || (c =? 38) then
    [bslash; x75; x30; x30; hex_digit (Z.shiftr c 4); hex_digit (Z.land c 15)]
  else [b].

(** The escaped text of one rune: the line separators U+2028 and U+2029 are escaped. *)
Definition escape_rune (r : bytes) : bytes :=
  match r with
  | [b] => escape_ascii b
  | [xe2; x80; xa8] => [bslash; x75; x32; x30; x32; x38]
  | [xe2; x80; xa9] => [bslash; x75; x32; x30; x32; x39]
  | _ => r
  end.

Definition replacement : bytes := [bslash; x75; x66; x66; x66; x64].

(** The body of a string; the fuel is its length. *)
Fixpoint escape (fuel : nat) (l : bytes) : bytes :=
  match fuel, l with
  | S fuel, _ :: l' =>
    match rune_size l with
    | O => replacement ++ escape fuel l'
    | n => escape_rune (take n l) ++ escape fuel (drop n l)
    end
  | _, _ => []
  end.

Definition encode_bytes (l : bytes) : bytes := [quote] ++ escape (length l) l ++ [quote].
Definition encode_string (s : string) : bytes := encode_bytes (str s).
Definition encode_int (z : Z) : bytes := str (pretty.pretty z).

(** Arrays and members of objects. *)
Fixpoint sep_by (sep : byte) (l : list bytes) : bytes :=
  match l with
  | [] => []
  | [x] => x
  | x :: l => x ++ [sep] ++ sep_by sep l
  end.
Definition encode_array (l : list bytes) : bytes := [x5b] ++ sep_by x2c l ++ [x5d].
Definition encode_member (key : string) (v : bytes) : bytes := encode_string key ++ [x3a] ++ v.
Definition encode_object (l : list bytes) : bytes := [x7b] ++ sep_by x2c l ++ [x7d].

(** [Compact]. *)
Fixpoint strip (in_string escaped : bool) (l : bytes) : bytes :=
  match l with
  | [] => []
  | b :: l =>
    if in_string then
      if escaped then b :: strip true false l
      else if code b =? 92 then b :: strip true true l
      else if code b =? 34 then b :: strip false false l
      else b :: strip true false l
    else if code b =? 34 then b :: strip true false l
    else if is_space b then strip false false l
    else b :: strip false false l
  end.

Definition compact (l : bytes) : option bytes :=
  if json_valid l then Some (strip false false l) else None.

Example encode_examples :
  encode_object [encode_member "a<" (encode_int (-12)); encode_member "b" (encode_array [encode_bytes [xff; x0a; xc3; xa9]])] =
  str "{" ++ [quote] ++ str "a\u003c" ++ [quote] ++ str ":-12," ++ [quote] ++ str "b" ++ [quote] ++ str ":[" ++
  [quote] ++ str "\ufffd\n" ++ [xc3; xa9] ++ [quote] ++ str "]}".
Proof. vm_compute. reflexivity. Qed.

Example compact_example :
  compact (str " { " ++ [quote] ++ str "a b" ++ [quote] ++ str " : [1 , 2 ] } ") =
  Some (str "{" ++ [quote] ++ str "a b" ++ [quote] ++ str ":[1,2]}").
Proof. vm_compute. reflexivity. Qed.
