(* ===== verification/Sha256.v ===== *)
(** * SHA-256 (crypto/sha256) and hexadecimal text (encoding/hex)

    FIPS 180-4 on lists of bytes, with 32-bit words as integers. *)

From S2P Require Export JsonEnc.

Module Sha256.

Abbreviation two32 := 4294967296 (only parsing).
Definition wrap32 (z : Z) : Z := z mod two32.
Definition rotr (x n : Z) : Z := Z.lor (Z.shiftr x n) (wrap32 (Z.shiftl x (32 - n))).

Definition K : list Z :=
  [1116352408; 1899447441; 3049323471; 3921009573; 961987163; 1508970993; 2453635748; 2870763221;
   3624381080; 310598401; 607225278; 1426881987; 1925078388; 2162078206; 2614888103; 3248222580;
   3835390401; 4022224774; 264347078; 604807628; 770255983; 1249150122; 1555081692; 1996064986;
   2554220882; 2821834349; 2952996808; 3210313671; 3336571891; 3584528711; 113926993; 338241895;
   666307205; 773529912; 1294757372; 1396182291; 1695183700; 1986661051; 2177026350; 2456956037;
   2730485921; 2820302411; 3259730800; 3345764771; 3516065817; 3600352804; 4094571909; 275423344;
   430227734; 506948616; 659060556; 883997877; 958139571; 1322822218; 1537002063; 1747873779;
   1955562222; 2024104815; 2227730452; 2361852424; 2428436474; 2756734187; 3204031479; 3329325298].

Definition initial : list Z :=
  [1779033703; 3144134277; 1013904242; 2773480762; 1359893119; 2600822924; 528734635; 1541459225].

(** The bytes of a word, most significant first. *)
Fixpoint be_bytes (n : nat) (z : Z) : bytes :=
  match n with
  | O => []
  | S n => be_bytes n (Z.shiftr z 8) ++ [default x00 (Byte.of_N (Z.to_N (Z.land z 255)))]
  end.

Definition be_word (l : bytes) : Z := fold_left (λ acc b, acc * 256 + code b) l 0.

Definition padding (n : nat) : bytes :=
  [x80] ++ replicate (Z.to_nat ((55 - Z.of_nat n) mod 64)) x00 ++ be_bytes 8 (Z.of_nat n * 8).

(** The message schedule, last word first. *)
Fixpoint schedule (k : nat) (w : list Z) : list Z :=
  match k with
  | O => w
  | S k =>
    let w2 := default 0 (w !! 1%nat) in
    let w7 := default 0 (w !! 6%nat) in
    let w15 := default 0 (w !! 14%nat) in
    let w16 := default 0 (w !! 15%nat) in
    let s0 := Z.lxor (Z.lxor (rotr w15 7) (rotr w15 18)) (Z.shiftr w15 3) in
    let s1 := Z.lxor (Z.lxor (rotr w2 17) (rotr w2 19)) (Z.shiftr w2 10) in
    schedule k (wrap32 (w16 + s0 + w7 + s1) :: w)
  end.

Definition round (v : list Z) (kw : Z * Z) : list Z :=
  match v with
  | [a; b; c; d; e; f; g; h] =>
    let s1 := Z.lxor (Z.lxor (rotr e 6) (rotr e 11)) (rotr e 25) in
    let ch := Z.lxor (Z.land e f) (Z.land (4294967295 - e) g) in
    let t1 := h + s1 + ch + kw.1 + kw.2 in
    let s0 := Z.lxor (Z.lxor (rotr a 2) (rotr a 13)) (rotr a 22) in
    let maj := Z.lxor (Z.lxor (Z.land a b) (Z.land a c)) (Z.land b c) in
    [wrap32 (t1 + s0 + maj); a; b; c; wrap32 (d + t1); e; f; g]
  | _ => v
  end.

Fixpoint chunks (fuel : nat) (n : nat) (l : bytes) : list bytes :=
  match fuel, l with
  | S fuel, _ :: _ => take n l :: chunks fuel n (drop n l)
  | _, _ => []
  end.

Definition block (h : list Z) (b : bytes) : list Z :=
  let w := rev (schedule 48 (rev (map be_word (chunks 16 4 b)))) in
  zip_with (λ x y, wrap32 (x + y)) h (fold_left round (zip K w) h).

Definition Sum256 (l : bytes) : bytes :=
  let padded := l ++ padding (length l) in
  concat (map (be_bytes 4) (fold_left block (chunks (length padded) 64 padded) initial)).

End Sha256.

(** [hex.EncodeToString]. *)
Definition hex_string (l : bytes) : string :=
  String.string_of_list_byte
    (concat (map (λ b, [hex_digit (Z.shiftr (code b) 4); hex_digit (Z.land (code b) 15)]) l)).

Example sha256_abc :
  hex_string (Sha256.Sum256 (str "abc")) =
  "ba7816bf8f01cfea414140de5dae2223b00361a396177a9cb410ff61f20015ad"%string.
Proof. vm_compute. reflexivity. Qed.

Example sha256_two_blocks :
  hex_string (Sha256.Sum256 (str "abcdbcdecdefdefgefghfghighijhijkijkljklmklmnlmnomnopnopq")) =
  "248d6a61d20638b8e5c026930c3e6039a33ce45964ff2167f6ecedd419db06c1"%string.
Proof. vm_compute. reflexivity. Qed.
