(* ===== verification/Fields.v ===== *)
(** * Length-prefixed fields

    [binary.BigEndian.AppendUint64] and the concatenations that the decision keys and
    the cache identities are made of: such a concatenation determines its fields. *)

From S2P Require Export Sha256.

(** A field with its length before it. *)
Definition field (f : bytes) : bytes := Sha256.be_bytes 8 (wrap64 (zlen f)) ++ f.

Lemma code_of_byte z : code (default x00 (Byte.of_N (Z.to_N (Z.land z 255)))) = z mod 256.
Proof.
  change 255 with (Z.ones 8). rewrite Z.land_ones by lia. change (2 ^ 8) with 256.
  pose proof (Z.mod_pos_bound z 256 ltac:(lia)). unfold code.
  destruct (Byte.of_N (Z.to_N (z mod 256))) as [b|] eqn:E; simpl.
  - apply Byte.to_of_N in E. rewrite E. lia.
  - apply Byte.of_N_None_iff in E. lia.
Qed.

Lemma be_bytes_length n z : length (Sha256.be_bytes n z) = n.
Proof. revert z. induction n as [|n IH]; intros z; [done |]. simpl. rewrite length_app, IH. simpl. lia. Qed.

Lemma be_bytes_inj n z w :
  0 ≤ z < 256 ^ Z.of_nat n → 0 ≤ w < 256 ^ Z.of_nat n →
  Sha256.be_bytes n z = Sha256.be_bytes n w → z = w.
Proof.
  revert z w. induction n as [|n IH]; intros z w Hz Hw E; [simpl in *; lia |].
  rewrite Nat2Z.inj_succ, Z.pow_succ_r in Hz, Hw by lia. cbn [Sha256.be_bytes] in E.
  apply app_inj_2 in E as [E1 E2]; [| done]. injection E2 as E2.
  apply (f_equal code) in E2. rewrite !code_of_byte in E2.
  rewrite !Z.shiftr_div_pow2 in E1 by lia. change (2 ^ 8) with 256 in E1.
  apply IH in E1; [| split; [apply Z.div_pos; lia | apply Z.div_lt_upper_bound; lia] ..].
  pose proof (Z.div_mod z 256 ltac:(lia)). pose proof (Z.div_mod w 256 ltac:(lia)). lia.
Qed.

Lemma field_inj a b r s :
  zlen a ≤ max_u64 → zlen b ≤ max_u64 → field a ++ r = field b ++ s → a = b ∧ r = s.
Proof.
  pose proof (zlen_nonneg a). pose proof (zlen_nonneg b). intros Ha Hb E. unfold field in E.
  rewrite !wrap64_small, <- !(assoc_L (++)) in E by (unfold is_u64; lia).
  apply app_inj_1 in E as [E1 E2]; [| by rewrite !be_bytes_length].
  apply be_bytes_inj in E1; [| simpl; lia ..].
  apply app_inj_1 in E2; [done |]. unfold zlen in E1. lia.
Qed.

(** A sequence of fields followed by [r]. *)
Definition fields (l : list bytes) (r : bytes) : bytes := foldr (λ f acc, field f ++ acc) r l.

Definition small (f : bytes) : Prop := zlen f ≤ max_u64.

Lemma fields_inj l k r s :
  length l = length k → Forall small l → Forall small k → fields l r = fields k s → l = k ∧ r = s.
Proof.
  revert k. induction l as [|f l IH]; intros [|g k] Hlen Hl Hk E; try done.
  apply Forall_cons in Hl as [Hf Hl], Hk as [Hg Hk]. change (field f ++ fields l r = field g ++ fields k s) in E.
  apply field_inj in E as [-> E]; [| done ..]. apply IH in E as [-> ->]; [done | by injection Hlen | done | done].
Qed.

Lemma str_inj s t : str s = str t → s = t.
Proof.
  unfold str. intros H. apply (f_equal String.string_of_list_byte) in H.
  by rewrite !String.string_of_list_byte_of_string in H.
Qed.

Lemma string_of_bytes_inj l k : String.string_of_list_byte l = String.string_of_list_byte k → l = k.
Proof.
  intros H. apply (f_equal String.list_byte_of_string) in H.
  by rewrite !String.list_byte_of_string_of_list_byte in H.
Qed.
