(* ===== verification/Digest.v ===== *)
(** * Hexadecimal text, byte order and digests

    What [encoding/hex], [bytes.Compare] and [crypto/sha256] promise to the packages
    that build commitments: hexadecimal text decodes to the bytes it came from, the
    bytewise order is total, and a digest has 32 bytes. *)

From S2P Require Export Fields.

(** ** Bytes and their codes *)

(** The conversion [byte(z)]. *)
Definition byte_of (z : Z) : byte := default x00 (Byte.of_N (Z.to_N (Z.land z 255))).

Lemma code_inj a b : code a = code b → a = b.
Proof.
  unfold code. intros H. apply (f_equal Z.to_N) in H. rewrite !N2Z.id in H.
  apply (f_equal Byte.of_N) in H. rewrite !Byte.of_to_N in H. congruence.
Qed.

Lemma code_bounds b : 0 ≤ code b < 256.
Proof. unfold code. pose proof (Byte.to_N_bounded b). lia. Qed.

Lemma code_byte_of z : code (byte_of z) = z mod 256.
Proof. apply code_of_byte. Qed.

Lemma byte_of_code b : byte_of (code b) = b.
Proof. apply code_inj. rewrite code_byte_of. apply Z.mod_small, code_bounds. Qed.

(** [binary.BigEndian.Uint32] reads what [PutUint32] wrote, and conversely. *)
Lemma be_word_snoc l b : Sha256.be_word (l ++ [b]) = Sha256.be_word l * 256 + code b.
Proof. unfold Sha256.be_word. by rewrite fold_left_app. Qed.

Lemma be_word_bounds l : 0 ≤ Sha256.be_word l < 256 ^ zlen l.
Proof.
  induction l as [|b l IH] using rev_ind; [unfold zlen, Sha256.be_word; simpl; lia |].
  rewrite be_word_snoc, zlen_app, zlen_cons. change (zlen (@nil byte)) with 0. pose proof (code_bounds b).
  pose proof (zlen_nonneg l). replace (zlen l + (1 + 0)) with (Z.succ (zlen l)) by lia.
  rewrite Z.pow_succ_r by lia. lia.
Qed.

Lemma be_word_bytes n z : 0 ≤ z < 256 ^ Z.of_nat n → Sha256.be_word (Sha256.be_bytes n z) = z.
Proof.
  revert z. induction n as [|n IH]; intros z Hz; [simpl in *; unfold Sha256.be_word; simpl; lia |].
  rewrite Nat2Z.inj_succ, Z.pow_succ_r in Hz by lia. cbn [Sha256.be_bytes].
  rewrite be_word_snoc, code_of_byte, Z.shiftr_div_pow2 by lia. change (2 ^ 8) with 256.
  rewrite IH; [pose proof (Z.div_mod z 256 ltac:(lia)); lia |].
  split; [apply Z.div_pos; lia | apply Z.div_lt_upper_bound; lia].
Qed.

Lemma be_bytes_word l n : length l = n → Sha256.be_bytes n (Sha256.be_word l) = l.
Proof.
  intros <-. induction l as [|b l IH] using rev_ind; [done |].
  rewrite length_app, Nat.add_comm. cbn [length Nat.add Sha256.be_bytes].
  pose proof (code_bounds b). rewrite be_word_snoc, Z.shiftr_div_pow2 by lia. change (2 ^ 8) with 256.
  f_equal; [| f_equal; apply code_inj; rewrite code_of_byte, Z.add_comm, Z.mod_add by lia; by apply Z.mod_small].
  rewrite Z.div_add_l, (Z.div_small (code b)), Z.add_0_r by lia. exact IH.
Qed.

(** ** [encoding/hex] *)

(** The value of a digit, in either case. *)
Definition hex_value (b : byte) : option Z :=
  let c := code b in
  if (48 <=? c) && (c <=? 57) then Some (c - 48)
  else if (97 <=? c) && (c <=? 102) then Some (c - 87)
  else if (65 <=? c) && (c <=? 70) then Some (c - 55)
  else None.

(** [hex.DecodeString]. *)
Fixpoint hex_pairs (l : bytes) : option bytes :=
  match l with
  | [] => Some []
  | [_] => None
  | a :: b :: l => x ← hex_value a; y ← hex_value b; r ← hex_pairs l; Some (byte_of (16 * x + y) :: r)
  end.
Definition hex_decode (s : string) : option bytes := hex_pairs (str s).

Definition hex_text (l : bytes) : bytes :=
  concat (map (λ b, [hex_digit (Z.shiftr (code b) 4); hex_digit (Z.land (code b) 15)]) l).

Lemma hex_byte b :
  hex_value (hex_digit (Z.shiftr (code b) 4)) = Some (code b / 16) ∧
  hex_value (hex_digit (Z.land (code b) 15)) = Some (code b mod 16).
Proof. destruct b; split; reflexivity. Qed.

Lemma hex_pairs_text l : hex_pairs (hex_text l) = Some l.
Proof.
  induction l as [|b l IH]; [done |]. unfold hex_text in *. cbn [map concat app hex_pairs].
  destruct (hex_byte b) as [-> ->]. cbn [mbind option_bind]. rewrite IH. cbn [mbind option_bind].
  do 2 f_equal. rewrite <- (byte_of_code b) at 3. f_equal. by rewrite <- Z.div_mod.
Qed.

Lemma str_hex l : str (hex_string l) = hex_text l.
Proof. unfold str, hex_string. apply String.list_byte_of_string_of_list_byte. Qed.

(** Hexadecimal text decodes to its bytes. *)
Lemma hex_decode_string l : hex_decode (hex_string l) = Some l.
Proof. unfold hex_decode. by rewrite str_hex, hex_pairs_text. Qed.

Lemma hex_string_inj l k : hex_string l = hex_string k → l = k.
Proof. intros H. apply (f_equal hex_decode) in H. rewrite !hex_decode_string in H. congruence. Qed.

(** The length of a string in bytes. *)
Definition strlen (s : string) : Z := zlen (str s).

Lemma hex_text_length l : zlen (hex_text l) = 2 * zlen l.
Proof.
  induction l as [|b l IH]; [done |]. unfold hex_text in *. cbn [map concat app].
  rewrite !zlen_cons, IH. lia.
Qed.

Lemma strlen_hex l : strlen (hex_string l) = 2 * zlen l.
Proof. unfold strlen. by rewrite str_hex, hex_text_length. Qed.

Lemma hex_pairs_length l d : hex_pairs l = Some d → zlen l = 2 * zlen d.
Proof.
  revert d. induction l as [l IH] using (induction_ltof1 _ (@length byte)). unfold ltof in IH.
  destruct l as [|a [|b l]]; intros d H; [by injection H as <- | done |]. cbn [hex_pairs] in H.
  destruct (hex_value a); [| done]. destruct (hex_value b); [| done]. cbn [mbind option_bind] in H.
  destruct (hex_pairs l) as [r|] eqn:E; [| done]. injection H as <-.
  rewrite !zlen_cons, (IH l) with (d := r); [lia | simpl; lia | done].
Qed.

(** ** [bytes.Compare] *)

Fixpoint bytes_compare (l k : bytes) : comparison :=
  match l, k with
  | [], [] => Eq
  | [], _ :: _ => Lt
  | _ :: _, [] => Gt
  | a :: l, b :: k => match code a ?= code b with Eq => bytes_compare l k | c => c end
  end.

Definition bytes_le (l k : bytes) : Prop := bytes_compare l k ≠ Gt.
#[export] Instance bytes_le_dec : RelDecision bytes_le := λ l k, decide (bytes_compare l k ≠ Gt).

Lemma bytes_compare_eq l k : bytes_compare l k = Eq ↔ l = k.
Proof.
  revert k. induction l as [|a l IH]; intros [|b k]; simpl; try done.
  destruct (Z.compare_spec (code a) (code b)) as [E|E|E].
  - apply code_inj in E as ->. rewrite IH. split; [by intros -> | by intros [= ->]].
  - split; [done | intros [= -> ->]; lia].
  - split; [done | intros [= -> ->]; lia].
Qed.

Lemma bytes_compare_antisym l k : bytes_compare k l = CompOpp (bytes_compare l k).
Proof.
  revert k. induction l as [|a l IH]; intros [|b k]; simpl; try done.
  rewrite (Z.compare_antisym (code a) (code b)). destruct (code a ?= code b); simpl; auto.
Qed.

Lemma bytes_compare_trans l k m : bytes_compare l k = Lt → bytes_compare k m = Lt → bytes_compare l m = Lt.
Proof.
  revert k m. induction l as [|a l IH]; intros [|b k] [|c m]; simpl; try done.
  destruct (Z.compare_spec (code a) (code b)) as [E1|E1|E1]; try done;
    destruct (Z.compare_spec (code b) (code c)) as [E2|E2|E2]; try done; intros H1 H2.
  - rewrite E1, E2, Z.compare_refl. eauto.
  - rewrite E1. by apply Z.compare_lt_iff in E2 as ->.
  - rewrite <- E2. by apply Z.compare_lt_iff in E1 as ->.
  - assert (E : code a < code c) by lia. by apply Z.compare_lt_iff in E as ->.
Qed.

#[export] Instance bytes_le_total : Total bytes_le.
Proof.
  intros l k. unfold bytes_le. rewrite (bytes_compare_antisym l k).
  destruct (bytes_compare l k); [left | left | right]; done.
Qed.

#[export] Instance bytes_le_order : PartialOrder bytes_le.
Proof.
  split; [split |].
  - intros l. unfold bytes_le. by rewrite (proj2 (bytes_compare_eq l l) eq_refl).
  - intros l k m Hlk Hkm. unfold bytes_le in *.
    destruct (bytes_compare l k) eqn:E1; [by apply bytes_compare_eq in E1 as -> | | done].
    destruct (bytes_compare k m) eqn:E2; [apply bytes_compare_eq in E2 as <-; congruence | | done].
    by rewrite (bytes_compare_trans l k m).
  - intros l k. unfold bytes_le. rewrite (bytes_compare_antisym l k).
    destruct (bytes_compare l k) eqn:E; [by apply bytes_compare_eq in E | done | done].
Qed.

(** ** Digests *)

Lemma round_length v kw : length v = 8%nat → length (Sha256.round v kw) = 8%nat.
Proof. by destruct v as [|? [|? [|? [|? [|? [|? [|? [|? [|]]]]]]]]]. Qed.

Lemma block_length h b : length h = 8%nat → length (Sha256.block h b) = 8%nat.
Proof.
  intros Hh. unfold Sha256.block. rewrite length_zip_with, Hh.
  enough (∀ l v, length v = 8%nat → length (fold_left Sha256.round l v) = 8%nat) as H by (rewrite H; lia).
  intros l. induction l as [|kw l IH]; intros v Hv; [done |]. cbn [fold_left]. apply IH. by apply round_length.
Qed.

(** A digest has 32 bytes. *)
Lemma Sum256_length l : zlen (Sha256.Sum256 l) = 32.
Proof.
  unfold Sha256.Sum256.
  assert (H : ∀ bs h, length h = 8%nat → length (fold_left Sha256.block bs h) = 8%nat).
  { intros bs. induction bs as [|b bs IH]; intros h Hh; [done |]. cbn [fold_left]. apply IH. by apply block_length. }
  generalize (H (Sha256.chunks (length (l ++ Sha256.padding (length l))) 64 (l ++ Sha256.padding (length l)))
                Sha256.initial eq_refl). generalize (fold_left Sha256.block
    (Sha256.chunks (length (l ++ Sha256.padding (length l))) 64 (l ++ Sha256.padding (length l))) Sha256.initial).
  intros v Hv. destruct v as [|? [|? [|? [|? [|? [|? [|? [|? [|? ?]]]]]]]]]; done.
Qed.

(** A pair of different texts with one digest. *)
Definition collision : Prop := ∃ x y : bytes, x ≠ y ∧ Sha256.Sum256 x = Sha256.Sum256 y.

Lemma Sum256_binding x y : Sha256.Sum256 x = Sha256.Sum256 y → x = y ∨ collision.
Proof. intros H. destruct (decide (x = y)) as [-> | Hne]; [by left | right; by exists x, y]. Qed.

(** [validDigest]: canonical lower-case text of 32 bytes (apporacle, semanticplan, trace). *)
Definition validDigest (value : string) : bool :=
  if negb (strlen value =? 64) then false
  else match hex_decode value with
       | Some decoded => bool_decide (hex_string decoded = value)
       | None => false
       end.

Lemma validDigest_spec value : validDigest value = true ↔ ∃ d, zlen d = 32 ∧ value = hex_string d.
Proof.
  unfold validDigest. split.
  - intros H. case_if_in H; [done |]. reflect. destruct (hex_decode value) as [d|] eqn:E; [| done].
    reflect. exists d. split; [| done]. unfold strlen in Hif. rewrite <- H, str_hex, hex_text_length in Hif. lia.
  - intros (d & Hd & ->). rewrite strlen_hex, hex_decode_string, Hd. by case_bool_decide.
Qed.

Lemma validDigest_Sum256 l : validDigest (hex_string (Sha256.Sum256 l)) = true.
Proof. apply validDigest_spec. eexists. split; [apply Sum256_length | done]. Qed.

(** Conversion unfolds a digest last: two digests are compared by their texts. *)
#[global] Strategy 1000 [Sha256.Sum256].
