(* ===== verification/Decision.v ===== *)
(** * Semantic choices (decision/decision.go, decision/control.go)

    Choices and selections, the seeded decider, the recorder, exact tape replay,
    prefixes and guided replay.  A decider is an instance of [Decider]: its
    [Choose] takes the fuel of the rejection sampling and returns the new decider
    with a selection or an error, [None] when the sampling ran out of fuel.  The
    clones of the source are values, so nothing is shared. *)

From S2P Require Export Rand Sha256.
From stdpp Require Import pretty.

#[global] Open Scope Z_scope.

(** ** Data *)

Definition SchemaVersion : string := "d-raft.decisions/v1".

Abbreviation Kind := string (only parsing).
Definition kinds : list Kind :=
  ["election_timeout"; "network_loss"; "network_latency"; "storage_latency"; "fault_action"; "client_action"].

Record Option_ := mkOption { OptID : string; Weight : Z }.
Record Choice := mkChoice {
  ChID : string; ChKind : Kind; Options : list Option_; Min : option Z; Max : option Z; Context_ : bytes }.
Record Selection := mkSelection { SelOption : string; Number : option Z }.
Record Entry := mkEntry {
  EnChoice : Choice; DomainDigest_ : string; ContextDigest_ : string; EnSelection : Selection }.
Record Tape := mkTape { Schema : string; Entries : list Entry }.

#[export] Instance Option__eq_dec : EqDecision Option_.
Proof. solve_decision. Defined.
#[export] Instance Choice_eq_dec : EqDecision Choice.
Proof. solve_decision. Defined.
#[export] Instance Selection_eq_dec : EqDecision Selection.
Proof. solve_decision. Defined.
#[export] Instance Entry_eq_dec : EqDecision Entry.
Proof. solve_decision. Defined.

Inductive DecisionError :=
| ErrInvalidChoice | ErrTapeExhausted (index : nat) | ErrTapeMismatch | ErrTapeNotConsumed
| ErrOpenChoice (index : nat) (c : Choice) (* OpenChoiceError *)
| ErrNoBase | ErrNoFallback
| ErrOther (n : Z). (* an error of another decider *)

#[export] Instance DecisionError_eq_dec : EqDecision DecisionError.
Proof. solve_decision. Defined.

Class Decider (D : Type) := {
  Choose : nat → D → Choice → go (option (D * (DecisionError + Selection)));
  OperationContext : D → option bool (* the answer of an OperationContextDecider *) }.

(** ** Clones *)

Definition cloneChoice (c : Choice) : Choice :=
  mkChoice (ChID c) (ChKind c) (Options c) (Min c) (Max c) (Context_ c).
Definition cloneSelection (s : Selection) : Selection := mkSelection (SelOption s) (Number s).
Definition cloneEntry (e : Entry) : Entry :=
  mkEntry (cloneChoice (EnChoice e)) (DomainDigest_ e) (ContextDigest_ e) (cloneSelection (EnSelection e)).
Definition cloneEntries (l : list Entry) : list Entry := map cloneEntry l.
Definition cloneTape (t : Tape) : Tape := mkTape (Schema t) (cloneEntries (Entries t)).
Definition CloneTape (t : Tape) : Tape := cloneTape t.

(** ** Validation *)

Fixpoint checkOptions (seen : gset string) (l : list Option_) : bool :=
  match l with
  | [] => true
  | o :: l =>
    if String.eqb (OptID o) "" || (Weight o =? 0) then false
    else if bool_decide (OptID o ∈ seen) then false
    else checkOptions ({[OptID o]} ∪ seen) l
  end.

Definition badRange (min max : option Z) : bool :=
  match min, max with
  | Some min, Some max => (min <? 0) || (max <? min)
  | _, _ => true
  end.

Definition ValidateChoice (c : Choice) : option DecisionError :=
  if String.eqb (ChID c) "" || String.eqb (ChKind c) "" then Some ErrInvalidChoice
  else if (0 <? zlen (Context_ c)) && negb (json_valid (Context_ c)) then Some ErrInvalidChoice
  else
    let hasOptions := 0 <? zlen (Options c) in
    let hasRange := bool_decide (Min c ≠ None) || bool_decide (Max c ≠ None) in
    if Bool.eqb hasOptions hasRange || (hasRange && badRange (Min c) (Max c)) then Some ErrInvalidChoice
    else if checkOptions ∅ (Options c) then None else Some ErrInvalidChoice.

Fixpoint findOption (s : string) (l : list Option_) : bool :=
  match l with
  | [] => false
  | o :: l => if String.eqb s (OptID o) then true else findOption s l
  end.

(** A choice without options has both bounds when it was validated; a missing bound
    is a nil dereference. *)
Definition validateSelection (c : Choice) (s : Selection) : go (option DecisionError) :=
  if 0 <? zlen (Options c) then
    if bool_decide (Number s ≠ None) || String.eqb (SelOption s) "" then Done (Some ErrInvalidChoice)
    else if findOption (SelOption s) (Options c) then Done None
    else Done (Some ErrInvalidChoice)
  else match Number s with
  | None => Done (Some ErrInvalidChoice)
  | Some n =>
    if negb (String.eqb (SelOption s) "") then Done (Some ErrInvalidChoice)
    else match Min c with
    | None => Panic
    | Some min =>
      if n <? min then Done (Some ErrInvalidChoice)
      else match Max c with
      | None => Panic
      | Some max => Done (if max <? n then Some ErrInvalidChoice else None)
      end
    end
  end.

Definition ValidateSelection (c : Choice) (s : Selection) : go (option DecisionError) :=
  match ValidateChoice c with Some err => Done (Some err) | None => validateSelection c s end.

(** ** Canonical encodings *)

Definition encodeOption (o : Option_) : bytes :=
  encode_object [encode_member "id" (encode_string (OptID o)); encode_member "weight" (encode_int (Weight o))].

(** [json.Marshal] of the anonymous structure: empty members are omitted. *)
Definition marshalCanonicalDomain (c : Choice) : bytes :=
  encode_object
    ([encode_member "kind" (encode_string (ChKind c))] ++
     (if 0 <? zlen (Options c) then [encode_member "options" (encode_array (map encodeOption (Options c)))] else []) ++
     match Min c with Some z => [encode_member "min" (encode_int z)] | None => [] end ++
     match Max c with Some z => [encode_member "max" (encode_int z)] | None => [] end).

Definition marshalCanonicalContext (c : Choice) : DecisionError + bytes :=
  let context := if zlen (Context_ c) =? 0 then str "null" else Context_ c in
  match compact context with Some raw => inr raw | None => inl ErrInvalidChoice end.

Definition canonicalChoiceUnchecked (c : Choice) : DecisionError + (bytes * bytes) :=
  let domain := marshalCanonicalDomain c in
  match marshalCanonicalContext c with inl err => inl err | inr context => inr (domain, context) end.

Definition canonicalChoice (c : Choice) : DecisionError + (bytes * bytes) :=
  match ValidateChoice c with Some err => inl err | None => canonicalChoiceUnchecked c end.

Definition CanonicalDomain (c : Choice) : DecisionError + bytes :=
  match ValidateChoice c with Some err => inl err | None => inr (marshalCanonicalDomain c) end.

Definition CanonicalContext (c : Choice) : DecisionError + bytes :=
  match ValidateChoice c with Some err => inl err | None => marshalCanonicalContext c end.

Definition digestBytes (raw : bytes) : string := hex_string (Sha256.Sum256 raw).

Definition DomainDigest (c : Choice) : DecisionError + string :=
  match CanonicalDomain c with inl err => inl err | inr raw => inr (digestBytes raw) end.
Definition ContextDigest (c : Choice) : DecisionError + string :=
  match CanonicalContext c with inl err => inl err | inr raw => inr (digestBytes raw) end.

Definition newEntry (c : Choice) (s : Selection) : go (DecisionError + Entry) :=
  invalid ← ValidateSelection c s;
  Done (match invalid with
        | Some err => inl err
        | None =>
          match canonicalChoiceUnchecked c with
          | inl err => inl err
          | inr (domain, context) =>
            inr (mkEntry (cloneChoice c) (digestBytes domain) (digestBytes context) (cloneSelection s))
          end
        end).

Definition NewEntry (c : Choice) (s : Selection) : go (DecisionError + Entry) := newEntry c s.

(** ** Seeded selection *)

Record SeedDecider := mkSeed { random : Rand }.
Definition NewSeedDecider (seed : Z) : SeedDecider := mkSeed (NewRand seed).

Fixpoint totalWeight (total : Z) (l : list Option_) : option Z :=
  match l with
  | [] => Some total
  | o :: l => if (max_u64 - total) <? Weight o then None else totalWeight (wrap64 (total + Weight o)) l
  end.

Fixpoint pickOption (draw : Z) (l : list Option_) : go Selection :=
  match l with
  | [] => Panic (* unreachable weighted selection *)
  | o :: l => if draw <? Weight o then Done (mkSelection (OptID o) None)
              else pickOption (wrap64 (draw - Weight o)) l
  end.

Definition seedChoose (fuel : nat) (d : SeedDecider) (c : Choice)
    : go (option (SeedDecider * (DecisionError + Selection))) :=
  match ValidateChoice c with
  | Some err => Done (Some (d, inl err))
  | None =>
    match Options c with
    | [o] => Done (Some (d, inr (mkSelection (OptID o) None)))
    | _ :: _ =>
      match totalWeight 0 (Options c) with
      | None => Done (Some (d, inl ErrInvalidChoice))
      | Some total =>
        drawn ← Uint64N fuel (random d) total;
        match drawn with
        | None => Done None
        | Some (r, draw) => s ← pickOption draw (Options c); Done (Some (mkSeed r, inr s))
        end
      end
    | [] =>
      match Min c, Max c with
      | Some min, Some max =>
        if min =? max then Done (Some (d, inr (mkSelection "" (Some min))))
        else
          let span := wrap64 (wrap64 (max - min) + 1) in
          drawn ← Uint64N fuel (random d) span;
          match drawn with
          | None => Done None
          | Some (r, v) => Done (Some (mkSeed r, inr (mkSelection "" (Some (min + v)))))
          end
      | _, _ => Panic
      end
    end
  end.

#[export] Instance seed_decider : Decider SeedDecider :=
  {| Choose := seedChoose; OperationContext := λ _, None |}.

Record CausalSeedDecider := mkCausalSeed { seed_ : SeedDecider }.
Definition NewCausalSeedDecider (seed : Z) : CausalSeedDecider := mkCausalSeed (NewSeedDecider seed).

#[export] Instance causal_seed_decider : Decider CausalSeedDecider :=
  {| Choose := λ fuel d c,
       r ← seedChoose fuel (seed_ d) c;
       Done (match r with Some (d, s) => Some (mkCausalSeed d, s) | None => None end);
     OperationContext := λ _, Some true |}.

(** ** Recording *)

Record Recorder (D : Type) := mkRecorder {
  base : option D; entries : list Entry; rec_err : option DecisionError }.
Arguments mkRecorder {D}.
Arguments base {D}.
Arguments entries {D}.
Arguments rec_err {D}.

Section recorder.
Context {D : Type} `{!Decider D}.

Definition NewRecorder (d : option D) : Recorder D := mkRecorder d [] None.

Definition recorderChoose (fuel : nat) (r : Recorder D) (c : Choice)
    : go (option (Recorder D * (DecisionError + Selection))) :=
  match rec_err r with
  | Some err => Done (Some (r, inl err))
  | None =>
    match base r with
    | None => Done (Some (mkRecorder None (entries r) (Some ErrNoBase), inl ErrNoBase))
    | Some d =>
      chosen ← Choose fuel d c;
      match chosen with
      | None => Done None
      | Some (d, inl err) => Done (Some (mkRecorder (Some d) (entries r) (Some err), inl err))
      | Some (d, inr s) =>
        entry ← newEntry c s;
        Done (Some (match entry with
                    | inl err => (mkRecorder (Some d) (entries r) (Some err), inl err)
                    | inr e => (mkRecorder (Some d) (entries r ++ [e]) None, inr s)
                    end))
      end
    end
  end.

#[export] Instance recorder_decider : Decider (Recorder D) :=
  {| Choose := recorderChoose;
     OperationContext := λ r,
       Some (match base r with
             | Some d => default false (OperationContext d)
             | None => false
             end) |}.

Definition RecordedTape (r : Recorder D) : Tape := cloneTape (mkTape SchemaVersion (entries r)).
Definition RecordedLen (r : Recorder D) : nat := length (entries r).
Definition Suffix (r : Recorder D) (start : Z) : list Entry :=
  if (start <? 0) || (zlen (entries r) <? start) then []
  else cloneEntries (drop (Z.to_nat start) (entries r)).
Definition Err (r : Recorder D) : option DecisionError := rec_err r.
End recorder.

(** ** Exact replay *)

Record TapeDecider := mkTapeDecider { tape : Tape; tindex : nat; includeOperationIDs : bool }.

(** The stored entries must carry the digests of their choices and legal selections. *)
Fixpoint checkEntries (l : list Entry) : go (option DecisionError) :=
  match l with
  | [] => Done None
  | e :: l =>
    match canonicalChoice (EnChoice e) with
    | inl _ => Done (Some ErrTapeMismatch)
    | inr (domain, context) =>
      if negb (String.eqb (digestBytes domain) (DomainDigest_ e)) then Done (Some ErrTapeMismatch)
      else if negb (String.eqb (digestBytes context) (ContextDigest_ e)) then Done (Some ErrTapeMismatch)
      else
        invalid ← validateSelection (EnChoice e) (EnSelection e);
        match invalid with
        | Some _ => Done (Some ErrTapeMismatch)
        | None => checkEntries l
        end
    end
  end.

Definition newTapeDecider (t : Tape) (include : bool) : go (DecisionError + TapeDecider) :=
  if negb (String.eqb (Schema t) SchemaVersion) then Done (inl ErrTapeMismatch)
  else
    invalid ← checkEntries (Entries t);
    Done (match invalid with
          | Some err => inl err
          | None => inr (mkTapeDecider (cloneTape t) 0 include)
          end).

Definition NewTapeDecider (t : Tape) : go (DecisionError + TapeDecider) := newTapeDecider t false.
Definition NewCausalTapeDecider (t : Tape) : go (DecisionError + TapeDecider) := newTapeDecider t true.

Definition tapeChoose (d : TapeDecider) (c : Choice) : go (TapeDecider * (DecisionError + Selection)) :=
  match Entries (tape d) !! tindex d with
  | None => Done (d, inl (ErrTapeExhausted (tindex d)))
  | Some e =>
    match canonicalChoice c with
    | inl err => Done (d, inl err)
    | inr (actualDomain, actualContext) =>
      match canonicalChoiceUnchecked (EnChoice e) with
      | inl err => Done (d, inl err)
      | inr (recordedDomain, recordedContext) =>
        if negb (String.eqb (ChID (EnChoice e)) (ChID c)) || negb (String.eqb (ChKind (EnChoice e)) (ChKind c)) ||
           negb (bool_decide (recordedDomain = actualDomain)) || negb (bool_decide (recordedContext = actualContext)) ||
           negb (String.eqb (DomainDigest_ e) (digestBytes actualDomain)) ||
           negb (String.eqb (ContextDigest_ e) (digestBytes actualContext))
        then Done (d, inl ErrTapeMismatch)
        else
          invalid ← validateSelection c (EnSelection e);
          Done (match invalid with
                | Some _ => (d, inl ErrTapeMismatch)
                | None => (mkTapeDecider (tape d) (S (tindex d)) (includeOperationIDs d),
                           inr (cloneSelection (EnSelection e)))
                end)
      end
    end
  end.

#[export] Instance tape_decider : Decider TapeDecider :=
  {| Choose := λ _ d c, r ← tapeChoose d c; Done (Some r);
     OperationContext := λ d, Some (includeOperationIDs d) |}.

Definition Finish (d : TapeDecider) : option DecisionError :=
  if negb (tindex d =? length (Entries (tape d)))%nat then Some ErrTapeNotConsumed else None.

(** ** Prefixes *)

Record PrefixDecider := mkPrefix { pr_replay : TapeDecider; pr_length : nat }.

Definition NewPrefixDecider (prefix : Tape) : go (DecisionError + PrefixDecider) :=
  replay ← NewTapeDecider prefix;
  Done (match replay with
        | inl err => inl err
        | inr replay => inr (mkPrefix replay (length (Entries prefix)))
        end).

Definition prefixChoose (d : PrefixDecider) (c : Choice) : go (PrefixDecider * (DecisionError + Selection)) :=
  if (tindex (pr_replay d) <? pr_length d)%nat then
    '(replay, s) ← tapeChoose (pr_replay d) c;
    Done (mkPrefix replay (pr_length d), s)
  else match ValidateChoice c with
  | Some err => Done (d, inl err)
  | None => Done (d, inl (ErrOpenChoice (pr_length d) (cloneChoice c)))
  end.

#[export] Instance prefix_decider : Decider PrefixDecider :=
  {| Choose := λ _ d c, r ← prefixChoose d c; Done (Some r); OperationContext := λ _, None |}.

Definition PrefixFinish (d : PrefixDecider) : option DecisionError := Finish (pr_replay d).

Record PrefixThenDecider (D : Type) := mkPrefixThen {
  pt_replay : TapeDecider; pt_length : nat; pt_fallback : D }.
Arguments mkPrefixThen {D}.
Arguments pt_replay {D}.
Arguments pt_length {D}.
Arguments pt_fallback {D}.

Section fallback.
Context {D : Type} `{!Decider D}.

Definition NewPrefixThenDecider (prefix : Tape) (fallback : option D)
    : go (DecisionError + PrefixThenDecider D) :=
  match fallback with
  | None => Done (inl ErrNoFallback)
  | Some fallback =>
    replay ← NewTapeDecider prefix;
    Done (match replay with
          | inl err => inl err
          | inr replay => inr (mkPrefixThen replay (length (Entries prefix)) fallback)
          end)
  end.

Definition prefixThenChoose (fuel : nat) (d : PrefixThenDecider D) (c : Choice)
    : go (option (PrefixThenDecider D * (DecisionError + Selection))) :=
  if (tindex (pt_replay d) <? pt_length d)%nat then
    '(replay, s) ← tapeChoose (pt_replay d) c;
    Done (Some (mkPrefixThen replay (pt_length d) (pt_fallback d), s))
  else
    chosen ← Choose fuel (pt_fallback d) c;
    Done (match chosen with
          | Some (fallback, s) => Some (mkPrefixThen (pt_replay d) (pt_length d) fallback, s)
          | None => None
          end).

#[export] Instance prefix_then_decider : Decider (PrefixThenDecider D) :=
  {| Choose := prefixThenChoose; OperationContext := λ _, None |}.

Definition PrefixThenFinish (d : PrefixThenDecider D) : option DecisionError := Finish (pt_replay d).
End fallback.

(** ** Guided replay *)

Definition appendKeyField (destination field : bytes) : bytes :=
  destination ++ Sha256.be_bytes 8 (wrap64 (zlen field)) ++ field.

Definition choiceKey (c : Choice) : DecisionError + string :=
  match CanonicalDomain c with
  | inl err => inl err
  | inr domain =>
    match CanonicalContext c with
    | inl err => inl err
    | inr context =>
      let key := appendKeyField [] (str (ChID c)) in
      let key := appendKeyField key (str (ChKind c)) in
      let key := appendKeyField key domain in
      let key := appendKeyField key context in
      inr (String.string_of_list_byte key)
    end
  end.

Record GuidedDecider (D : Type) := mkGuided { guides : gmap string Entry; gd_fallback : D }.
Arguments mkGuided {D}.
Arguments guides {D}.
Arguments gd_fallback {D}.

Section guided.
Context {D : Type} `{!Decider D}.

Fixpoint guideEntries (acc : gmap string Entry) (l : list Entry) : DecisionError + gmap string Entry :=
  match l with
  | [] => inr acc
  | e :: l =>
    match choiceKey (EnChoice e) with
    | inl err => inl err
    | inr key =>
      match acc !! key with
      | Some _ => inl ErrTapeMismatch
      | None => guideEntries (<[key := cloneEntry e]> acc) l
      end
    end
  end.

Definition NewGuidedDecider (guide : Tape) (fallback : option D) : go (DecisionError + GuidedDecider D) :=
  match fallback with
  | None => Done (inl ErrNoFallback)
  | Some fallback =>
    replay ← NewTapeDecider guide;
    Done (match replay with
          | inl err => inl err
          | inr _ =>
            match guideEntries ∅ (Entries guide) with
            | inl err => inl err
            | inr es => inr (mkGuided es fallback)
            end
          end)
  end.

Definition guidedChoose (fuel : nat) (d : GuidedDecider D) (c : Choice)
    : go (option (GuidedDecider D * (DecisionError + Selection))) :=
  match choiceKey c with
  | inl err => Done (Some (d, inl err))
  | inr key =>
    match guides d !! key with
    | Some e => Done (Some (d, inr (cloneSelection (EnSelection e))))
    | None =>
      chosen ← Choose fuel (gd_fallback d) c;
      Done (match chosen with
            | Some (fallback, s) => Some (mkGuided (guides d) fallback, s)
            | None => None
            end)
    end
  end.

#[export] Instance guided_decider : Decider (GuidedDecider D) :=
  {| Choose := guidedChoose; OperationContext := λ _, None |}.
End guided.

(** ** Runs

    A run of deterministic code that takes a decider: it returns, or asks for a
    selection and goes on with the answer.  Running the same code again is executing
    the same program. *)

Inductive program (R : Type) :=
| Return (r : R)
| Ask (c : Choice) (k : DecisionError + Selection → program R).
Arguments Return {R}.
Arguments Ask {R}.

Fixpoint execute {R D} `{!Decider D} (fuel : nat) (p : program R) (d : D) : go (option (D * R)) :=
  match p with
  | Return r => Done (Some (d, r))
  | Ask c k =>
    chosen ← Choose fuel d c;
    match chosen with
    | None => Done None
    | Some (d, answer) => execute fuel (k answer) d
    end
  end.
