(* ===== verification/DecisionProps.v ===== *)
(** * Properties of the decision deciders

    A run is a program that asks a decider for selections ([program]); executing it
    with a recorder and then with the tape gives the same run. *)

From S2P Require Export Fields Decision.

(** ** Validation *)

Lemma checkOptions_spec seen l :
  checkOptions seen l = true ↔
  Forall (λ o, OptID o ≠ "" ∧ Weight o ≠ 0) l ∧ NoDup (OptID <$> l) ∧ (∀ o, o ∈ l → OptID o ∉ seen).
Proof.
  revert seen. induction l as [|o l IH]; intros seen; cbn [checkOptions fmap list_fmap].
  { split; [| done]. intros _. split_and!; [constructor | constructor | by intros ? ?%elem_of_nil]. }
  rewrite Forall_cons, NoDup_cons, list_elem_of_fmap.
  destruct (String.eqb_spec (OptID o) "") as [He|He]; cbn [orb]; [naive_solver |].
  destruct (Z.eqb_spec (Weight o) 0) as [Hw|Hw]; [naive_solver |].
  destruct (bool_decide_reflect (OptID o ∈ seen)) as [Hs|Hs].
  { split; [done |]. intros (_ & _ & H). exfalso. by apply (H o); [left |]. }
  rewrite IH. split.
  - intros (Hf & Hn & Hd). split_and!; try done.
    + intros (o' & Ho & Hin). apply (Hd o' Hin). rewrite <- Ho. set_solver.
    + intros o' [->|Hin]%elem_of_cons; [done |]. specialize (Hd o' Hin). set_solver.
  - intros ([_ Hf] & (Hn & Hn') & Hd). split_and!; try done. intros o' Hin.
    assert (OptID o' ≠ OptID o) by (intros E; apply Hn; by exists o').
    specialize (Hd o'). set_solver.
Qed.

(** What validation establishes. *)
Definition choice_wf (c : Choice) : Prop :=
  ChID c ≠ "" ∧ ChKind c ≠ "" ∧ (Context_ c = [] ∨ json_valid (Context_ c) = true) ∧
  ((Options c ≠ [] ∧ Min c = None ∧ Max c = None ∧
      Forall (λ o, OptID o ≠ "" ∧ Weight o ≠ 0) (Options c) ∧ NoDup (OptID <$> Options c)) ∨
   (Options c = [] ∧ ∃ lo hi, Min c = Some lo ∧ Max c = Some hi ∧ 0 ≤ lo ≤ hi)).

Lemma zlen_pos {A} (l : list A) : (0 <? zlen l) = negb (bool_decide (l = [])).
Proof. destruct l as [|x l]; [done |]. rewrite zlen_cons. pose proof (zlen_nonneg l). case_bool_decide; [done |]. cbn [negb]. lia. Qed.

Lemma ValidateChoice_spec c :
  (ValidateChoice c = None ↔ choice_wf c) ∧ (ValidateChoice c = None ∨ ValidateChoice c = Some ErrInvalidChoice).
Proof.
  unfold ValidateChoice, choice_wf. rewrite !zlen_pos.
  destruct (String.eqb_spec (ChID c) "") as [He|He]; cbn [orb]; [naive_solver |].
  destruct (String.eqb_spec (ChKind c) "") as [Hk|Hk]; [naive_solver |].
  destruct (bool_decide_reflect (Context_ c = [])) as [Hc|Hc]; cbn [negb andb].
  2: destruct (json_valid (Context_ c)) eqn:Hj; cbn [negb]; [| naive_solver].
  all: destruct (bool_decide_reflect (Options c = [])) as [Ho|Ho]; cbn [negb].
  all: destruct (Min c) as [lo|] eqn:Hlo, (Max c) as [hi|] eqn:Hhi; cbn;
    try (split; [split; [done |] | by right]; intros (_ & _ & _ & [(? & ? & ? & _) | (? & ? & ? & ? & ? & _)]); congruence).
  all: try (destruct (Z.ltb_spec lo 0); cbn [orb]; [split; [split; [done |] | by right]; naive_solver lia |]).
  all: try (destruct (Z.ltb_spec hi lo); [split; [split; [done |] | by right]; naive_solver lia |]).
  all: try (rewrite Ho; cbn; split; [| by left]; split; [| done]; intros _; split_and!; auto; right; split; [done |]; eauto with lia).
  all: destruct (checkOptions ∅ (Options c)) eqn:E; split; auto; split; auto; try done.
  all: try (apply checkOptions_spec in E as (? & ? & _); intros _; split_and!; auto; left; by split_and!).
  all: intros (_ & _ & _ & [(_ & _ & _ & Hf & Hn) | (? & _)]); [| done].
  all: assert (checkOptions ∅ (Options c) = true) as E'; [| by rewrite E in E'].
  all: apply checkOptions_spec; split_and!; auto; intros; set_solver.
Qed.

Lemma findOption_spec s l : findOption s l = true ↔ s ∈ OptID <$> l.
Proof.
  induction l as [|o l IH]; cbn [findOption fmap list_fmap]; [split; [done | by intros ?%elem_of_nil] |].
  rewrite elem_of_cons. destruct (String.eqb_spec s (OptID o)); naive_solver.
Qed.

(** Whether a selection belongs to the domain of a valid choice. *)
Definition in_domain (c : Choice) (s : Selection) : Prop :=
  (Options c ≠ [] ∧ Number s = None ∧ SelOption s ≠ "" ∧ SelOption s ∈ OptID <$> Options c) ∨
  (Options c = [] ∧ SelOption s = "" ∧ ∃ lo hi n, Min c = Some lo ∧ Max c = Some hi ∧ Number s = Some n ∧ lo ≤ n ≤ hi).

Lemma validateSelection_spec c s :
  choice_wf c →
  (validateSelection c s = Done None ∧ in_domain c s) ∨
  (validateSelection c s = Done (Some ErrInvalidChoice) ∧ ¬ in_domain c s).
Proof.
  intros (_ & _ & _ & Hd). unfold validateSelection, in_domain. rewrite zlen_pos.
  destruct Hd as [(Ho & _ & _ & _) | (Ho & lo & hi & Hlo & Hhi & _)].
  - rewrite bool_decide_eq_false_2 by done. cbn [negb].
    destruct (Number s) as [n|]; cbn; [right; naive_solver |].
    destruct (String.eqb_spec (SelOption s) "") as [Hs|Hs]; [right; naive_solver |].
    destruct (findOption (SelOption s) (Options c)) eqn:Hf.
    + apply findOption_spec in Hf. naive_solver.
    + right. split; [done |]. intros [(_ & _ & _ & Hin) | (? & _)]; [| done].
      apply findOption_spec in Hin. congruence.
  - rewrite Ho, Hlo, Hhi. cbn.
    destruct (Number s) as [n|]; [| right; naive_solver].
    destruct (String.eqb_spec (SelOption s) "") as [Hs|Hs]; cbn [negb]; [| right; naive_solver].
    destruct (Z.ltb_spec n lo); [right; split; [done |]; naive_solver lia |].
    destruct (Z.ltb_spec hi n); [right; split; [done |]; naive_solver lia |].
    left. split; [done |]. right. split_and!; [done .. |]. by exists lo, hi, n.
Qed.

(** ** Canonical identity *)

Definition canonical_context (c : Choice) : bytes :=
  if zlen (Context_ c) =? 0 then str "null" else strip false false (Context_ c).

(** Everything exact replay compares. *)
Definition same_identity (c c' : Choice) : Prop :=
  ChID c = ChID c' ∧ ChKind c = ChKind c' ∧
  marshalCanonicalDomain c = marshalCanonicalDomain c' ∧ canonical_context c = canonical_context c'.
#[export] Instance same_identity_dec c c' : Decision (same_identity c c') := _.

Lemma zlen_eqb_zero {A} (l : list A) : (zlen l =? 0) = bool_decide (l = []).
Proof. destruct l as [|x l]; [done |]. rewrite zlen_cons. pose proof (zlen_nonneg l). case_bool_decide; [done |]. lia. Qed.

Lemma canonical_wf c :
  choice_wf c → canonicalChoiceUnchecked c = inr (marshalCanonicalDomain c, canonical_context c).
Proof.
  intros (_ & _ & Hj & _). unfold canonicalChoiceUnchecked, marshalCanonicalContext, canonical_context, compact.
  rewrite zlen_eqb_zero. case_bool_decide as Hc; [done |]. destruct Hj as [|Hj]; [done |]. by rewrite Hj.
Qed.

Lemma ValidateChoice_wf c : choice_wf c → ValidateChoice c = None.
Proof. apply ValidateChoice_spec. Qed.

Lemma ValidateChoice_bad c : ¬ choice_wf c → ValidateChoice c = Some ErrInvalidChoice.
Proof. intros Hc. destruct (ValidateChoice_spec c) as [H1 [H2|]]; [by apply H1 in H2 | done]. Qed.

Lemma canonicalChoice_wf c :
  choice_wf c → canonicalChoice c = inr (marshalCanonicalDomain c, canonical_context c).
Proof. intros Hc. unfold canonicalChoice. by rewrite ValidateChoice_wf, canonical_wf. Qed.

Lemma cloneChoice_id c : cloneChoice c = c.
Proof. by destruct c. Qed.
Lemma cloneSelection_id s : cloneSelection s = s.
Proof. by destruct s. Qed.
Lemma tapeEntry_clone_id e : cloneEntry e = e.
Proof. destruct e. unfold cloneEntry. simpl. by rewrite cloneChoice_id, cloneSelection_id. Qed.
Lemma tapeEntries_clone_id l : cloneEntries l = l.
Proof. induction l as [|e l IH]; [done |]. unfold cloneEntries in *. simpl. by rewrite tapeEntry_clone_id, IH. Qed.
Lemma cloneTape_id t : cloneTape t = t.
Proof. destruct t. unfold cloneTape. simpl. by rewrite tapeEntries_clone_id. Qed.

(** The entry that records a selection. *)
Definition entry_of_choice (c : Choice) (s : Selection) : Entry :=
  mkEntry c (digestBytes (marshalCanonicalDomain c)) (digestBytes (canonical_context c)) s.

Definition entry_ok (e : Entry) : Prop :=
  choice_wf (EnChoice e) ∧ in_domain (EnChoice e) (EnSelection e) ∧
  e = entry_of_choice (EnChoice e) (EnSelection e).

Lemma newEntry_spec c s :
  (choice_wf c ∧ in_domain c s ∧ newEntry c s = Done (inr (entry_of_choice c s))) ∨
  (¬ (choice_wf c ∧ in_domain c s) ∧ newEntry c s = Done (inl ErrInvalidChoice)).
Proof.
  unfold newEntry, ValidateSelection. destruct (ValidateChoice_spec c) as [Hwf [Hv|Hv]]; rewrite Hv.
  2: { right. split; [| done]. intros [Hc _]. apply Hwf in Hc. congruence. }
  apply Hwf in Hv. destruct (validateSelection_spec c s Hv) as [[-> Hin] | [-> Hin]].
  - left. split_and!; [done | done |]. cbn [mbind go_bind]. rewrite canonical_wf by done.
    by rewrite cloneChoice_id, cloneSelection_id.
  - right. split; [naive_solver | done].
Qed.

(** ** Tapes *)

Lemma checkEntries_spec l :
  (checkEntries l = Done None ∧ Forall entry_ok l) ∨
  (checkEntries l = Done (Some ErrTapeMismatch) ∧ ¬ Forall entry_ok l).
Proof.
  induction l as [|e l IH]; cbn [checkEntries]; [by left |]. rewrite Forall_cons.
  destruct (ValidateChoice_spec (EnChoice e)) as [Hwf [Hv|Hv]].
  2: { unfold canonicalChoice. rewrite Hv. right. split; [done |]. intros [(Hc & _) _]. apply Hwf in Hc. congruence. }
  apply Hwf in Hv. rewrite canonicalChoice_wf by done.
  destruct (String.eqb_spec (digestBytes (marshalCanonicalDomain (EnChoice e))) (DomainDigest_ e)) as [Hd|Hd]; cbn [negb].
  2: { right. split; [done |]. intros [(_ & _ & He) _]. apply Hd. by rewrite He. }
  destruct (String.eqb_spec (digestBytes (canonical_context (EnChoice e))) (ContextDigest_ e)) as [Hx|Hx]; cbn [negb].
  2: { right. split; [done |]. intros [(_ & _ & He) _]. apply Hx. by rewrite He. }
  destruct (validateSelection_spec (EnChoice e) (EnSelection e) Hv) as [[-> Hin] | [-> Hin]]; cbn [mbind go_bind].
  - assert (entry_ok e) as Hok.
    { split_and!; [done | done |]. unfold entry_of_choice. rewrite Hd, Hx. by destruct e. }
    destruct IH as [[-> ?] | [-> ?]]; [by left | right]. split; [done | naive_solver].
  - right. split; [done |]. by intros [(_ & ? & _) _].
Qed.

Lemma newTapeDecider_spec t include :
  (Schema t = SchemaVersion ∧ Forall entry_ok (Entries t) ∧
     newTapeDecider t include = Done (inr (mkTapeDecider t 0 include))) ∨
  (¬ (Schema t = SchemaVersion ∧ Forall entry_ok (Entries t)) ∧
     newTapeDecider t include = Done (inl ErrTapeMismatch)).
Proof.
  unfold newTapeDecider. destruct (String.eqb_spec (Schema t) SchemaVersion) as [Hs|Hs]; cbn [negb].
  - destruct (checkEntries_spec (Entries t)) as [[-> Hf] | [-> Hf]].
    + left. split_and!; [done | done |]. cbn. by rewrite cloneTape_id.
    + right. split; [naive_solver | done].
  - right. split; [naive_solver | done].
Qed.

(** One replayed choice. *)
Definition tape_step (d : TapeDecider) (c : Choice) (s : Selection) : Prop :=
  ∃ e, Entries (tape d) !! tindex d = Some e ∧ choice_wf c ∧ same_identity (EnChoice e) c ∧
    choice_wf (EnChoice e) ∧ DomainDigest_ e = digestBytes (marshalCanonicalDomain c) ∧
    ContextDigest_ e = digestBytes (canonical_context c) ∧ in_domain c s ∧ s = EnSelection e.

Lemma same_identity_refl c : same_identity c c.
Proof. done. Qed.

Lemma tapeChoose_spec d c :
  (∀ e, Entries (tape d) !! tindex d = Some e → choice_wf (EnChoice e)) →
  (∃ s, tape_step d c s ∧
     tapeChoose d c = Done (mkTapeDecider (tape d) (S (tindex d)) (includeOperationIDs d), inr s)) ∨
  ((∀ s, ¬ tape_step d c s) ∧ ∃ err, tapeChoose d c = Done (d, inl err) ∧
     err = match Entries (tape d) !! tindex d with
           | None => ErrTapeExhausted (tindex d)
           | Some _ => if decide (ValidateChoice c = None) then ErrTapeMismatch else ErrInvalidChoice
           end).
Proof.
  intros Hstored. unfold tapeChoose, tape_step. destruct (Entries (tape d) !! tindex d) as [e|] eqn:He.
  2: { right. split; [by intros s (? & ? & _) | by eexists]. }
  specialize (Hstored e eq_refl).
  destruct (ValidateChoice_spec c) as [Hwf [Hv|Hv]].
  2: { right. split; [intros s (e' & _ & Hc & _); apply Hwf in Hc; congruence |].
       exists ErrInvalidChoice. unfold canonicalChoice. rewrite Hv. done. }
  rewrite decide_True by done. pose proof (proj1 Hwf Hv) as Hc. clear Hwf Hv. rewrite canonicalChoice_wf, canonical_wf by done.
  match goal with |- context [if ?b then Done (_, inl ErrTapeMismatch) else _] =>
    destruct b eqn:Hb end.
  - right. split; [| by eexists]. intros s (e' & [= <-] & _ & (H1 & H2 & H3 & H4) & _ & H5 & H6 & _).
    rewrite H1, H2, H3, H4, H5, H6, !String.eqb_refl in Hb. rewrite !bool_decide_eq_true_2 in Hb by done. done.
  - apply orb_false_iff in Hb as [Hb H6]. apply orb_false_iff in Hb as [Hb H5]. apply orb_false_iff in Hb as [Hb H4].
    apply orb_false_iff in Hb as [Hb H3]. apply orb_false_iff in Hb as [H1 H2].
    rewrite negb_false_iff in H1, H2, H3, H4, H5, H6. reflect.
    destruct (validateSelection_spec c (EnSelection e) Hc) as [[-> Hin] | [-> Hin]]; cbn [mbind go_bind].
    + left. exists (EnSelection e). rewrite cloneSelection_id. split; [| done]. exists e. by split_and!.
    + right. split; [| by eexists]. intros s (e' & [= <-] & _ & _ & _ & _ & _ & Hs & ->). done.
Qed.

Lemma tapeChoose_recorded t pre c s post inc :
  Entries t = pre ++ entry_of_choice c s :: post → choice_wf c → in_domain c s →
  tapeChoose (mkTapeDecider t (length pre) inc) c = Done (mkTapeDecider t (S (length pre)) inc, inr s).
Proof.
  intros Ht Hc Hs. destruct (tapeChoose_spec (mkTapeDecider t (length pre) inc) c) as [(s' & Hst & E) | [Hno _]].
  - simpl. rewrite Ht, list_lookup_middle by done. by intros e [= <-].
  - destruct Hst as (e & He & _ & _ & _ & _ & _ & _ & ->). simpl in He, E.
    rewrite Ht, list_lookup_middle in He by done. injection He as <-. done.
  - exfalso. apply (Hno s). exists (entry_of_choice c s). simpl. rewrite Ht, list_lookup_middle by done.
    by split_and!.
Qed.

(** ** Recorded runs *)

Section runs.
Context {R : Type}.

(** A failed recorder stays failed. *)
Lemma recorder_sticky {D} `{!Decider D} fuel (p : program R) (r r' : Recorder D) v err :
  rec_err r = Some err → execute fuel p r = Done (Some (r', v)) → r' = r.
Proof.
  intros Hr. induction p as [x|c k IH]; cbn [execute]; [by intros [= -> ->] |].
  cbn [Choose recorder_decider]. unfold recorderChoose. rewrite Hr. cbn [mbind go_bind]. apply IH.
Qed.

Lemma recorder_replay {D} `{!Decider D} fuel (p : program R) (b : option D) es r' v :
  execute fuel p (mkRecorder b es None) = Done (Some (r', v)) → rec_err r' = None →
  ∃ es', entries r' = es ++ es' ∧ Forall entry_ok es' ∧
    ∀ t pre post inc fuel', Entries t = pre ++ es' ++ post →
      execute fuel' p (mkTapeDecider t (length pre) inc) =
      Done (Some (mkTapeDecider t (length pre + length es') inc, v)).
Proof.
  revert b es. induction p as [x|c k IH]; intros b es; cbn [execute].
  { intros [= <- <-] _. exists []. simpl. rewrite app_nil_r. split_and!; [done | constructor |].
    intros. by rewrite Nat.add_0_r. }
  cbn [Choose recorder_decider]. unfold recorderChoose. cbn [rec_err base entries].
  destruct b as [d|]; cbn [mbind go_bind].
  2: { intros E Herr. by apply (recorder_sticky _ _ _ _ _ ErrNoBase) in E as ->. }
  destruct (Choose fuel d c) as [[[d1 [err|s]]|]|]; cbn [mbind go_bind]; [| | done | done].
  { intros E Herr. by apply (recorder_sticky _ _ _ _ _ err) in E as ->. }
  destruct (newEntry_spec c s) as [(Hc & Hs & ->) | (_ & ->)]; cbn [mbind go_bind].
  2: { intros E Herr. by apply (recorder_sticky _ _ _ _ _ ErrInvalidChoice) in E as ->. }
  intros E Herr. destruct (IH (inr s) _ _ E Herr) as (es' & He & Hok & Hrun).
  exists (entry_of_choice c s :: es'). split_and!.
  - by rewrite He, <- (assoc_L (++)).
  - by constructor.
  - intros t pre post inc fuel' Ht. cbn [Choose tape_decider].
    rewrite (tapeChoose_recorded t pre c s (es' ++ post) inc) by done. cbn [mbind go_bind].
    specialize (Hrun t (pre ++ [entry_of_choice c s]) post inc fuel').
    rewrite length_app in Hrun. simpl in Hrun. rewrite Nat.add_1_r in Hrun.
    rewrite Hrun by (by rewrite Ht, <- (assoc_L (++))). simpl. do 4 f_equal. lia.
Qed.

(** ** Theorems *)

(** C10.  Record and replay: whatever the decider and the run, a recording without error
    is a tape that replay accepts, and replaying it, with or without the operation
    identities, gives the same result and consumes the whole tape. *)
Theorem recorded_run_replays {D} `{!Decider D} fuel fuel' (p : program R) (d : option D) r' v inc :
  execute fuel p (NewRecorder d) = Done (Some (r', v)) → Err r' = None →
  ∃ td td', newTapeDecider (RecordedTape r') inc = Done (inr td) ∧
    execute fuel' p td = Done (Some (td', v)) ∧ Finish td' = None.
Proof.
  intros E Herr. destruct (recorder_replay fuel p d [] r' v E Herr) as (es & He & Hok & Hrun).
  simpl in He. unfold RecordedTape. rewrite cloneTape_id, He.
  destruct (newTapeDecider_spec (mkTape SchemaVersion es) inc) as [(_ & _ & ->) | [Hno _]];
    [| by destruct Hno]. eexists _, _. split; [reflexivity |].
  split; [apply (Hrun (mkTape SchemaVersion es) [] [] inc fuel'); simpl; by rewrite app_nil_r |]. unfold Finish. simpl. by rewrite Nat.eqb_refl.
Qed.
End runs.

(** Exact replay: the decider of an accepted tape answers a choice exactly when it
    has the identity, kind, canonical domain and context of the next entry; the
    answer is the recorded one and legal, and the tape moves on.  Otherwise the
    decider is unchanged and reports what is wrong. *)
Theorem tape_decider_exact t inc d i c :
  newTapeDecider t inc = Done (inr d) →
  let at_ j := mkTapeDecider (tape d) j inc in
  tape d = t ∧ (Finish (at_ i) = None ↔ i = length (Entries t)) ∧
  tapeChoose (at_ i) c = Done
    match Entries t !! i with
    | None => (at_ i, inl (ErrTapeExhausted i))
    | Some e =>
      if decide (ValidateChoice c = None) then
        if decide (same_identity (EnChoice e) c ∧ ValidateSelection c (EnSelection e) = Done None)
        then (at_ (S i), inr (EnSelection e)) else (at_ i, inl ErrTapeMismatch)
      else (at_ i, inl ErrInvalidChoice)
    end.
Proof.
  intros Hd at_. destruct (newTapeDecider_spec t inc) as [(_ & Hok & E) | [_ E]]; rewrite E in Hd; [| done].
  injection Hd as <-. cbn [tape] in at_. split; [done |]. split.
  { unfold Finish. simpl. destruct (Nat.eqb_spec i (length (Entries t))); naive_solver. }
  rewrite Forall_lookup in Hok. destruct (tapeChoose_spec (at_ i) c) as [(s & Hs & ->) | (Hno & err & -> & ->)].
  - intros e He. by apply (Hok i).
  - destruct Hs as (e & He & Hc & Hid & _ & _ & _ & Hin & ->). cbn [at_ tape tindex] in *. rewrite He.
    assert (ValidateSelection c (EnSelection e) = Done None) as Hv.
    { unfold ValidateSelection. rewrite ValidateChoice_wf by done.
      by destruct (validateSelection_spec c (EnSelection e) Hc) as [[-> _] | [_ ?]]. }
    by rewrite decide_True, decide_True by auto using ValidateChoice_wf.
  - cbn [at_ tape tindex] in *. destruct (Entries t !! i) as [e|] eqn:He; [| done].
    case_decide as Hv; [| done]. rewrite decide_False; [done |]. intros [Hid Hsel].
    apply (Hno (EnSelection e)). exists e. destruct (Hok i e He) as (Hwf & _ & Heq).
    apply ValidateChoice_spec in Hv as Hc. destruct Hid as (H1 & H2 & H3 & H4).
    unfold ValidateSelection in Hsel. rewrite Hv in Hsel.
    destruct (validateSelection_spec c (EnSelection e) Hc) as [[_ Hin] | [Hbad _]]; [| congruence].
    rewrite <- H3, <- H4. split_and!; try done; rewrite Heq; done.
Qed.

(** ** Seeded selection *)

Definition weights (l : list Option_) : Z := foldr (λ o acc, Weight o + acc) 0 l.

(** The values the machine gives the fields. *)
Definition choice_u64 (c : Choice) : Prop :=
  Forall (λ o, is_u64 (Weight o)) (Options c) ∧
  match Max c with Some hi => hi ≤ max_i64 | None => True end.

Lemma weights_nonneg l : Forall (λ o, is_u64 (Weight o)) l → 0 ≤ weights l.
Proof. unfold is_u64. induction 1; simpl; lia. Qed.

Lemma totalWeight_spec total l :
  is_u64 total → Forall (λ o, is_u64 (Weight o)) l →
  totalWeight total l = if decide (total + weights l ≤ max_u64) then Some (total + weights l) else None.
Proof.
  intros Ht Hl. revert total Ht. induction Hl as [|o l Ho Hl IH]; intros total Ht; cbn [totalWeight weights foldr].
  { unfold is_u64 in Ht. rewrite decide_True by lia. by rewrite Z.add_0_r. }
  fold (weights l). pose proof (weights_nonneg l Hl). unfold is_u64 in *.
  destruct (Z.ltb_spec (max_u64 - total) (Weight o)); [by rewrite decide_False by lia |].
  rewrite wrap64_small by (unfold is_u64; lia). rewrite IH by lia. by rewrite Z.add_assoc.
Qed.

(** An option is picked by as many draws as its weight. *)
Lemma pickOption_spec l draw :
  Forall (λ o, is_u64 (Weight o)) l → 0 ≤ draw < weights l → weights l ≤ max_u64 →
  ∃ i o, l !! i = Some o ∧ pickOption draw l = Done (mkSelection (OptID o) None) ∧
    weights (take i l) ≤ draw < weights (take i l) + Weight o.
Proof.
  intros Hl. revert draw. induction Hl as [|o l Ho Hl IH]; intros draw Hd Hw; cbn [weights foldr] in *; [lia |].
  fold (weights l) in *. pose proof (weights_nonneg l Hl). unfold is_u64 in *. cbn [pickOption].
  destruct (Z.ltb_spec draw (Weight o)).
  - exists 0%nat, o. simpl. split_and!; done || lia.
  - rewrite wrap64_small by (unfold is_u64; lia).
    destruct (IH (draw - Weight o) ltac:(lia) ltac:(lia)) as (i & o' & Hi & Hp & Hr).
    exists (S i), o'. simpl. split_and!; try done; lia.
Qed.

Lemma weights_pos l : l ≠ [] → Forall (λ o, is_u64 (Weight o)) l → Forall (λ o, OptID o ≠ "" ∧ Weight o ≠ 0) l → 0 < weights l.
Proof.
  destruct l as [|o l]; [done |]. intros _ [Ho Hl]%Forall_cons [[_ Hn] _]%Forall_cons.
  pose proof (weights_nonneg l Hl). unfold is_u64 in *. simpl. fold (weights l). lia.
Qed.

(** How a draw maps to a selection. *)
Definition seeded (c : Choice) (draw : Z) (s : Selection) : Prop :=
  match Min c with
  | Some lo => s = mkSelection "" (Some (lo + draw))
  | None => ∃ i o, Options c !! i = Some o ∧ s = mkSelection (OptID o) None ∧
      weights (take i (Options c)) ≤ draw < weights (take i (Options c)) + Weight o
  end.

Definition choice_size (c : Choice) : Z :=
  match Min c, Max c with Some lo, Some hi => hi - lo + 1 | _, _ => weights (Options c) end.

Lemma ValidateSelection_ok c s : choice_wf c → in_domain c s → ValidateSelection c s = Done None.
Proof.
  intros Hc Hs. unfold ValidateSelection. rewrite ValidateChoice_wf by done.
  by destruct (validateSelection_spec c s Hc) as [[? _] | [_ ?]].
Qed.

Lemma option_in_domain c i o :
  choice_wf c → Min c = None → Options c !! i = Some o → in_domain c (mkSelection (OptID o) None).
Proof.
  intros (_ & _ & _ & [(Hne & _ & _ & Hf & _) | (_ & lo & hi & Hlo & _)]) Hn Hi; [| congruence].
  rewrite Forall_lookup in Hf. destruct (Hf i o Hi) as [Hid _]. left. split_and!; try done.
  simpl. apply list_elem_of_fmap. exists o. split; [done |]. by eapply list_elem_of_lookup_2.
Qed.

Lemma seed_options d c total :
  choice_u64 c → choice_wf c → Min c = None → totalWeight 0 (Options c) = Some total →
  ∃ k : nat, ∀ fuel, (k ≤ fuel)%nat → ∃ r draw s, uint64N fuel (random d) total = Some (r, draw) ∧
    0 ≤ draw < total ∧ total = choice_size c ∧ pickOption draw (Options c) = Done s ∧ in_domain c s ∧ seeded c draw s.
Proof.
  intros [Hu _] Hc Hn Ht. pose proof Hc as (_ & _ & _ & [(Hne & _ & Hm & Hf & _) | (_ & lo & hi & Hlo & _)]); [| congruence].
  rewrite totalWeight_spec in Ht by (done || by unfold is_u64). case_decide as Hle; [| done].
  rewrite Z.add_0_l in *. injection Ht as <-. pose proof (weights_pos _ Hne Hu Hf) as Hpos.
  destruct (uint64N_terminating (random d) (weights (Options c)) ltac:(lia)) as (k & _ & Hk). exists k.
  intros fuel Hfuel. destruct (Hk fuel Hfuel) as (r & draw & E & Hd).
  destruct (pickOption_spec (Options c) draw Hu Hd ltac:(lia)) as (i & o & Hi & Hp & Hr).
  exists r, draw, (mkSelection (OptID o) None). split_and!; try done; try lia.
  - unfold choice_size. by rewrite Hn.
  - by eapply option_in_domain.
  - unfold seeded. rewrite Hn. by exists i, o.
Qed.

Lemma seed_range d c lo hi :
  choice_u64 c → choice_wf c → Options c = [] → Min c = Some lo → Max c = Some hi → lo < hi →
  wrap64 (wrap64 (hi - lo) + 1) = hi - lo + 1 ∧
  ∃ k : nat, ∀ fuel, (k ≤ fuel)%nat → ∃ r draw, uint64N fuel (random d) (hi - lo + 1) = Some (r, draw) ∧
    0 ≤ draw < hi - lo + 1 ∧ in_domain c (mkSelection "" (Some (lo + draw))).
Proof.
  intros [_ Hu] (_ & _ & _ & Hd) Ho Hlo Hhi Hlt. rewrite Hhi in Hu.
  destruct Hd as [(Hne & _) | (_ & lo' & hi' & Hlo' & Hhi' & Hr)]; [done |].
  assert (hi' = hi) as -> by congruence. assert (lo' = lo) as -> by congruence.
  rewrite (wrap64_small (hi - lo)) by (unfold is_u64; lia). rewrite wrap64_small by (unfold is_u64; lia).
  split; [done |]. destruct (uint64N_terminating (random d) (hi - lo + 1) ltac:(lia)) as (k & _ & Hk). exists k.
  intros fuel Hf. destruct (Hk fuel Hf) as (r & draw & E & Hdr). exists r, draw. split_and!; try done; try lia.
  right. split_and!; try done. exists lo, hi, (lo + draw). split_and!; try done; lia.
Qed.

Lemma in_options_size c : choice_wf c → Options c ≠ [] → Min c = None.
Proof. intros (_ & _ & _ & [(_ & ? & _) | (? & _)]); done. Qed.

(** The seeded decider never panics and always returns, after boundedly many draws.
    It refuses exactly malformed choices and domains whose weights overflow.  A
    selection is legal, and is the one the draw falls on: an option for as many of
    the equally likely draws as its weight, a number for one. *)
Theorem seed_decider_selects d c :
  choice_u64 c →
  ∃ k : nat, ∀ fuel, (k ≤ fuel)%nat → ∃ d' r, Choose fuel d c = Done (Some (d', r)) ∧
    match r with
    | inl err => err = ErrInvalidChoice ∧ d' = d ∧ (¬ choice_wf c ∨ max_u64 < weights (Options c))
    | inr s => ValidateSelection c s = Done None ∧
        ∃ draw, 0 ≤ draw < choice_size c ∧ seeded c draw s ∧
          (uint64N fuel (random d) (choice_size c) = Some (random d', draw) ∨ d' = d)
    end.
Proof.
  intros Hu. change (Choose (D := SeedDecider)) with seedChoose. unfold seedChoose.
  destruct (ValidateChoice_spec c) as [Hwf [Hv|Hv]]; rewrite Hv.
  2: { exists 0%nat. intros fuel _. eexists d, _. split; [done |]. split_and!; [done | done |]. left.
       intros Hc. apply Hwf in Hc. congruence. }
  apply Hwf in Hv as Hc. clear Hwf Hv.
  destruct (decide (Options c = [])) as [Ho|Hne].
  - pose proof Hc as (_ & _ & _ & [(? & _) | (_ & lo & hi & Hlo & Hhi & Hr)]); [done |].
    rewrite Ho, Hlo, Hhi. unfold choice_size, seeded. rewrite Hlo, Hhi.
    destruct (Z.eqb_spec lo hi) as [<-|Hne].
    + exists 0%nat. intros fuel _. eexists d, _. split; [done |]. split.
      * apply ValidateSelection_ok; [done |]. right. split_and!; try done. exists lo, lo, lo. split_and!; done || lia.
      * exists 0. rewrite Z.add_0_r. split_and!; try done; try lia. by right.
    + destruct (seed_range d c lo hi Hu Hc Ho Hlo Hhi ltac:(lia)) as (Hw & k & Hk). exists k.
      intros fuel Hf. destruct (Hk fuel Hf) as (r & draw & E & Hd & Hin). rewrite Hw.
      unfold Uint64N. destruct (Z.eqb_spec (hi - lo + 1) 0); [lia |]. cbn [mbind go_bind]. rewrite E.
      eexists (mkSeed r), _. split; [done |]. split; [by apply ValidateSelection_ok |]. exists draw. auto.
  - pose proof (in_options_size c Hc Hne) as Hn.
    destruct (totalWeight 0 (Options c)) as [total|] eqn:Ht.
    + destruct (seed_options d c total Hu Hc Hn Ht) as (k & Hk). exists k. intros fuel Hf.
      destruct (Hk fuel Hf) as (r & draw & s & E & Hd & Hsz & Hp & Hin & Hs).
      destruct (Options c) as [|o [|o' l]] eqn:Ho; [done | |].
      * eexists d, _. split; [done |]. assert (s = mkSelection (OptID o) None) as <-.
        { cbn [pickOption] in Hp. case_if_in Hp; [by injection Hp as <- | done]. }
        split; [by apply ValidateSelection_ok |]. exists draw. rewrite <- Hsz. auto.
      * unfold Uint64N. destruct (Z.eqb_spec total 0); [lia |]. cbn [mbind go_bind]. rewrite E.
        rewrite Hp. eexists (mkSeed r), _. split; [done |]. split; [by apply ValidateSelection_ok |].
        exists draw. rewrite <- Hsz. auto.
    + exists 0%nat. intros fuel _. pose proof Ht as Hover.
      rewrite totalWeight_spec in Hover by (apply Hu || by unfold is_u64). case_decide as Hle; [done |].
      destruct (Options c) as [|o [|o' l]] eqn:Ho; [done | |].
      * exfalso. destruct Hu as [Hu _]. rewrite Ho in Hu. apply Forall_cons in Hu as [Hu _].
        unfold is_u64 in Hu. apply Hle. simpl. lia.
      * eexists d, _. split; [done |]. split_and!; [done | done |]. right. lia.
Qed.

(** ** Guided replay *)

(** The fields of a key fit a slice. *)
Definition key_small (c : Choice) : Prop :=
  Forall small [str (ChID c); str (ChKind c); marshalCanonicalDomain c; canonical_context c].

Lemma choiceKey_wf c :
  choice_wf c →
  choiceKey c = inr (String.string_of_list_byte
    (fields [str (ChID c); str (ChKind c); marshalCanonicalDomain c; canonical_context c] [])).
Proof.
  intros Hc. unfold choiceKey, CanonicalDomain, CanonicalContext. rewrite ValidateChoice_wf by done.
  pose proof (canonical_wf c Hc) as E. unfold canonicalChoiceUnchecked in E.
  destruct (marshalCanonicalContext c) as [|context]; [done |].
  assert (context = canonical_context c) as -> by congruence. clear E.
  unfold appendKeyField, fields, field. cbn [foldr app]. do 2 f_equal. rewrite <- !(assoc_L (++)).
  by rewrite app_nil_r.
Qed.

Lemma four_inj {A} (a b c d a' b' c' d' : A) :
  [a; b; c; d] = [a'; b'; c'; d'] → a = a' ∧ b = b' ∧ c = c' ∧ d = d'.
Proof. intros H. by injection H. Qed.

Lemma choiceKey_inj c c' k :
  key_small c → key_small c' → choice_wf c → choice_wf c' →
  choiceKey c = inr k → (choiceKey c' = inr k ↔ same_identity c c').
Proof.
  intros Hs Hs' Hc Hc' E. rewrite choiceKey_wf in E by done. apply (inj inr) in E as <-. rewrite choiceKey_wf by done.
  split.
  - intros E%(inj inr)%string_of_bytes_inj%fields_inj; [| done ..].
    destruct E as [(E1 & E2 & E3 & E4)%four_inj _]. split_and!; auto using str_inj.
  - intros (-> & -> & -> & ->). done.
Qed.

Lemma guideEntries_spec l acc m :
  guideEntries acc l = inr m →
  ∀ k e, m !! k = Some e ↔ acc !! k = Some e ∨ (e ∈ l ∧ choiceKey (EnChoice e) = inr k).
Proof.
  revert acc. induction l as [|x l IH]; intros acc; cbn [guideEntries].
  { intros E k e. apply (inj inr) in E as <-. split; [by left | by intros [|[?%elem_of_nil _]]]. }
  destruct (choiceKey (EnChoice x)) as [err|key] eqn:Hx; [done |].
  destruct (acc !! key) eqn:Hk; [done |]. intros E k e. rewrite (IH _ E k e), elem_of_cons, tapeEntry_clone_id.
  destruct (decide (key = k)) as [<-|Hne].
  - rewrite lookup_insert_eq, Hk. naive_solver congruence.
  - rewrite lookup_insert_ne by done. split; [naive_solver |].
    intros [?|[[->|?] ?]]; [by left | congruence | by right].
Qed.

(** The guided decider reuses the recorded selection exactly for a choice with the
    identity of a guide entry - identifier, kind, canonical domain and context, which
    its keys do not confuse - and delegates every other valid choice. *)
Theorem guided_decider_reuses {D} `{!Decider D} guide (fb : D) g fuel c :
  NewGuidedDecider guide (Some fb) = Done (inr g) →
  key_small c → Forall (λ e, key_small (EnChoice e)) (Entries guide) →
  (∀ e, e ∈ Entries guide → same_identity (EnChoice e) c → choice_wf c →
     Choose fuel g c = Done (Some (g, inr (EnSelection e)))) ∧
  ((∀ e, e ∈ Entries guide → ¬ same_identity (EnChoice e) c) → choice_wf c →
     Choose fuel g c =
       (chosen ← Choose fuel (gd_fallback g) c;
        Done (match chosen with Some (fb', r) => Some (mkGuided (guides g) fb', r) | None => None end))) ∧
  (¬ choice_wf c → Choose fuel g c = Done (Some (g, inl ErrInvalidChoice))).
Proof.
  intros Hg Hsc Hsg. unfold NewGuidedDecider, NewTapeDecider in Hg.
  destruct (newTapeDecider_spec guide false) as [(_ & Hok & E) | [_ E]]; rewrite E in Hg; [| done].
  cbn [mbind go_bind] in Hg. destruct (guideEntries ∅ (Entries guide)) as [|m] eqn:Hm; [done |].
  assert (g = mkGuided m fb) as -> by congruence. clear Hg E.
  pose proof (guideEntries_spec _ _ _ Hm) as Hspec. rewrite Forall_forall in Hok, Hsg.
  change (Choose (D := GuidedDecider D)) with (guidedChoose (D := D)). unfold guidedChoose. cbn [guides gd_fallback].
  assert (∀ e k, e ∈ Entries guide → choice_wf c → choiceKey c = inr k →
            choiceKey (EnChoice e) = inr k ↔ same_identity (EnChoice e) c) as Hkey.
  { intros e k He Hc Hk. destruct (Hok e He) as (Hwf & _).
    rewrite (choiceKey_inj c (EnChoice e) k) by (done || by apply Hsg).
    split; intros (? & ? & ? & ?); by split_and!. }
  split_and!.
  - intros e He Hid Hc. pose proof (choiceKey_wf c Hc) as Hk. rewrite Hk.
    assert (m !! (String.string_of_list_byte (fields [str (ChID c); str (ChKind c); marshalCanonicalDomain c; canonical_context c] [])) = Some e) as ->;
      [| by rewrite cloneSelection_id].
    apply Hspec. right. split; [done |]. by apply Hkey.
  - intros Hno Hc. pose proof (choiceKey_wf c Hc) as Hk. rewrite Hk. destruct (m !! _) as [e|] eqn:E; [| done].
    exfalso. apply Hspec in E as [E | [He E]]; [by rewrite lookup_empty in E |].
    apply (Hno e He). by eapply Hkey.
  - intros Hc. unfold choiceKey, CanonicalDomain. by rewrite ValidateChoice_bad.
Qed.

(** ** Witnesses: a fault choice, then a latency *)

Definition demo_fault : Choice :=
  mkChoice "fault/1" "fault_action" [mkOption "crash" 3; mkOption "none" 1] None None [].
Definition demo_latency : Choice :=
  mkChoice "latency/2" "network_latency" [] (Some 10) (Some 20) (str "{ }").

Definition demo_run : program (option (string * option Z)) :=
  Ask demo_fault (λ a, match a with
    | inl _ => Return None
    | inr f => Ask demo_latency (λ b, match b with
        | inl _ => Return None
        | inr l => Return (Some (SelOption f, Number l))
        end)
    end).

Definition demo_recording : Recorder SeedDecider * option (string * option Z) :=
  match execute 9 demo_run (NewRecorder (Some (NewSeedDecider 7))) with
  | Done (Some p) => p
  | _ => (NewRecorder None, None)
  end.

Definition demo_tape : Tape := mkTape SchemaVersion
  [entry_of_choice demo_fault (mkSelection "crash" None); entry_of_choice demo_latency (mkSelection "" (Some 12))].
Definition demo_replay : TapeDecider := mkTapeDecider demo_tape 0 false.
(** The value of a constructor that succeeded. *)
Definition constructed {E A} (d : A) (m : go (E + A)) : A :=
  match m with Done (inr a) => a | _ => d end.

Definition is_constructed {E A} (m : go (E + A)) : bool :=
  match m with Done (inr _) => true | _ => false end.

Lemma constructed_ok {E A} (d : A) (m : go (E + A)) :
  is_constructed m = true → m = Done (inr (constructed d m)).
Proof. by destruct m as [[|]|]. Qed.

Definition demo_guided : GuidedDecider SeedDecider :=
  constructed (mkGuided ∅ (NewSeedDecider 1)) (NewGuidedDecider demo_tape (Some (NewSeedDecider 1))).

Lemma recorded_run_replays_witness :
  ∃ td td', newTapeDecider (RecordedTape demo_recording.1) true = Done (inr td) ∧
    execute 0 demo_run td = Done (Some (td', demo_recording.2)) ∧ Finish td' = None.
Proof.
  apply (recorded_run_replays 9 0 demo_run (Some (NewSeedDecider 7)) demo_recording.1 demo_recording.2 true);
    vm_compute; reflexivity.
Defined.

Lemma tape_decider_exact_witness :
  let at_ j := mkTapeDecider (tape demo_replay) j false in
  tape demo_replay = demo_tape ∧ (Finish (at_ 1%nat) = None ↔ 1%nat = length (Entries demo_tape)) ∧
  tapeChoose (at_ 1%nat) demo_latency = Done
    match Entries demo_tape !! 1%nat with
    | None => (at_ 1%nat, inl (ErrTapeExhausted 1))
    | Some e =>
      if decide (ValidateChoice demo_latency = None) then
        if decide (same_identity (EnChoice e) demo_latency ∧ ValidateSelection demo_latency (EnSelection e) = Done None)
        then (at_ 2%nat, inr (EnSelection e)) else (at_ 1%nat, inl ErrTapeMismatch)
      else (at_ 1%nat, inl ErrInvalidChoice)
    end.
Proof. apply (tape_decider_exact demo_tape false demo_replay 1 demo_latency). vm_compute. reflexivity. Defined.

Lemma seed_decider_selects_witness :
  ∃ k : nat, ∀ fuel, (k ≤ fuel)%nat → ∃ d' r, Choose fuel (NewSeedDecider 7) demo_fault = Done (Some (d', r)) ∧
    match r with
    | inl err => err = ErrInvalidChoice ∧ d' = NewSeedDecider 7 ∧
        (¬ choice_wf demo_fault ∨ max_u64 < weights (Options demo_fault))
    | inr s => ValidateSelection demo_fault s = Done None ∧
        ∃ draw, 0 ≤ draw < choice_size demo_fault ∧ seeded demo_fault draw s ∧
          (uint64N fuel (random (NewSeedDecider 7)) (choice_size demo_fault) = Some (random d', draw) ∨
           d' = NewSeedDecider 7)
    end.
Proof.
  apply (seed_decider_selects (NewSeedDecider 7) demo_fault).
  split; [repeat constructor; vm_compute; discriminate | exact I].
Defined.

Lemma demo_guided_ok : NewGuidedDecider demo_tape (Some (NewSeedDecider 1)) = Done (inr demo_guided).
Proof. apply constructed_ok. vm_compute. reflexivity. Qed.
Lemma demo_fault_small : key_small demo_fault.
Proof. unfold key_small. repeat (apply Forall_cons; split); [by vm_compute .. | constructor]. Qed.
Lemma demo_latency_small : key_small demo_latency.
Proof. unfold key_small. repeat (apply Forall_cons; split); [by vm_compute .. | constructor]. Qed.
Lemma demo_tape_small : Forall (λ e, key_small (EnChoice e)) (Entries demo_tape).
Proof. apply Forall_cons; split; [exact demo_fault_small |]. apply Forall_cons; split; [exact demo_latency_small | constructor]. Qed.

Lemma guided_decider_reuses_witness :
  (∀ e, e ∈ Entries demo_tape → same_identity (EnChoice e) demo_fault → choice_wf demo_fault →
     Choose 3 demo_guided demo_fault = Done (Some (demo_guided, inr (EnSelection e)))) ∧
  ((∀ e, e ∈ Entries demo_tape → ¬ same_identity (EnChoice e) demo_fault) → choice_wf demo_fault →
     Choose 3 demo_guided demo_fault =
       (chosen ← Choose 3 (gd_fallback demo_guided) demo_fault;
        Done (match chosen with Some (fb', r) => Some (mkGuided (guides demo_guided) fb', r) | None => None end))) ∧
  (¬ choice_wf demo_fault → Choose 3 demo_guided demo_fault = Done (Some (demo_guided, inl ErrInvalidChoice))).
Proof. apply (guided_decider_reuses _ _ _ 3 _ demo_guided_ok demo_fault_small demo_tape_small). Defined.

(** The recorded run took the crash and a latency. *)
Example demo_recorded :
  demo_recording.2 = Some ("crash"%string, Some 10) ∧ length (entries demo_recording.1) = 2%nat.
Proof. vm_compute. done. Qed.
