(* ===== verification/Outcome.v ===== *)
(** * Outcomes (artifact/artifact.go) and violations (check/check.go) *)

From S2P Require Export Json.

Record Violation := mkViolation {
  VID : string; VAtNS : Z; VNodes : list string; Evidence : bytes; VFingerprint : string }.

Definition OutcomeCompleted : string := "completed".
Definition OutcomeViolation : string := "violation".
Definition OutcomeError : string := "error".
Definition OutcomeBudgetExhausted : string := "budget_exhausted".

Record Outcome := mkOutcome {
  Status : string; Steps : Z; EndNS : Z; ObservationDigest : string; OutError : string;
  Violations : list Violation }.
