(* ===== verification/Explore.v ===== *)
(** * Bounded systematic exploration (explore/explore.go)

    The depth-first search over choice prefixes, its candidate selections, the
    completion of prefixes at the depth bound and the cache of canonical states.  A
    runner is a program, given whether its decider asks for operation identities;
    every clean rerun executes that program.  [None] says that the rejection sampling
    of the seeded decider ran out of fuel. *)

From S2P Require Export Decision Outcome.

(** ** Data *)

Definition MaxRunsLimit : Z := 100000.
Definition MaxDepthLimit : Z := 64.
Definition MaxBranchesLimit : Z := 64.

(** What a run returns: an outcome, a canonical state (nil is [None]), an error. *)
Inductive RunError := RunDecision (e : DecisionError) | RunFailed (n : Z).
Record RunResult := mkRunResult {
  RrOutcome : Outcome; RrState : option bytes; RrError : option RunError }.

Definition Runner := bool → program RunResult.

(** Running with a decider. *)
Definition run_with {D} `{!Decider D} (fuel : nat) (run : Runner) (d : D) : go (option (D * RunResult)) :=
  execute fuel (run (default false (OperationContext d))) d.

Inductive ExploreError :=
| ErrInvalidBounds | ErrInvalidCacheBounds | ErrMissingCanonicalState | ErrInvalidOutcomeStatus
| ExploreDecision (e : DecisionError) | ExploreRun (e : RunError).

Record CacheBounds := mkCacheBounds { MaxEntries : Z; MaxBytes : Z }.

Record Bounds := mkBounds {
  MaxRuns : Z; MaxDepth : Z; MaxBranchesPerChoice : Z; RangeSamples : Z; FallbackSeed : Z;
  StopOnViolation : bool; TargetFingerprint : string }.

Record Execution := mkExecution { ExTape : Tape; ExOutcome : Outcome }.

(** The integer fields of a result, by name. *)
Inductive counter :=
| Runs | OpenChoices | Completed | CompletedRuns | ErrorRuns | BudgetExhaustedRuns | PrunedPrefixes
| DepthBoundHits | SampledDomains | OutcomeViolationRuns | ViolatingRuns | StatePruned
| CacheLookups | CacheHits | CacheMisses | HashCollisions | UniqueStates | CacheBytes | CacheBudgetSkips.
Definition field_index (c : counter) : nat :=
  match c with
  | Runs => 0 | OpenChoices => 1 | Completed => 2 | CompletedRuns => 3 | ErrorRuns => 4 | BudgetExhaustedRuns => 5
  | PrunedPrefixes => 6 | DepthBoundHits => 7 | SampledDomains => 8 | OutcomeViolationRuns => 9 | ViolatingRuns => 10 | StatePruned => 11
  | CacheLookups => 12 | CacheHits => 13 | CacheMisses => 14 | HashCollisions => 15 | UniqueStates => 16 | CacheBytes => 17
  | CacheBudgetSkips => 18
  end%nat.
Definition same_field (x y : counter) : bool := Nat.eqb (field_index x) (field_index y).

Record Result := mkResult {
  count : counter → Z; Truncated : bool; FirstViolation : option Execution }.

Definition emptyResult : Result := mkResult (λ _, 0) false None.
Definition set_count (r : Result) (c : counter) (z : Z) : Result :=
  mkResult (λ x, if same_field x c then z else count r x) (Truncated r) (FirstViolation r).
Definition inc (c : counter) (r : Result) : Result := set_count r c (count r c + 1).
Definition set_Truncated (r : Result) (b : bool) : Result := mkResult (count r) b (FirstViolation r).
Definition set_FirstViolation (r : Result) (e : Execution) : Result :=
  mkResult (count r) (Truncated r) (Some e).

(** ** The state cache *)

Section cache.
Context (hash : bytes → bytes).

Record stateCache := mkCache {
  buckets : gmap bytes (list bytes); bounds_ : CacheBounds;
  lookups : Z; hits : Z; misses : Z; collisions : Z; cache_entries : Z; cache_bytes : Z; budgetSkips : Z }.

Definition newStateCache (bounds : CacheBounds) : stateCache := mkCache ∅ bounds 0 0 0 0 0 0 0.

(** The states of a bucket before an equal one, and whether there is one. *)
Fixpoint scanBucket (canonical : bytes) (bucket : list bytes) (skipped : Z) : Z * bool :=
  match bucket with
  | [] => (skipped, false)
  | b :: bucket => if bool_decide (b = canonical) then (skipped, true)
                   else scanBucket canonical bucket (skipped + 1)
  end.

Definition seen (c : stateCache) (canonical : bytes) : stateCache * bool :=
  let digest := hash canonical in
  let bucket := default [] (buckets c !! digest) in
  let '(skipped, found) := scanBucket canonical bucket 0 in
  if found : bool then
    (mkCache (buckets c) (bounds_ c) (lookups c + 1) (hits c + 1) (misses c) (collisions c + skipped)
       (cache_entries c) (cache_bytes c) (budgetSkips c), true)
  else if (MaxEntries (bounds_ c) <=? cache_entries c) || ((MaxBytes (bounds_ c) - cache_bytes c) <? zlen canonical)
  then
    (mkCache (buckets c) (bounds_ c) (lookups c + 1) (hits c) (misses c + 1) (collisions c + skipped)
       (cache_entries c) (cache_bytes c) (budgetSkips c + 1), false)
  else
    (mkCache (<[digest := bucket ++ [canonical]]> (buckets c)) (bounds_ c) (lookups c + 1) (hits c)
       (misses c + 1) (collisions c + skipped) (cache_entries c + 1) (cache_bytes c + zlen canonical)
       (budgetSkips c), false).

(** The deferred copy of the statistics. *)
Definition set_cache_stats (r : Result) (c : option stateCache) : Result :=
  match c with
  | None => r
  | Some c =>
    set_count (set_count (set_count (set_count (set_count (set_count (set_count r
      CacheLookups (lookups c)) CacheHits (hits c)) CacheMisses (misses c)) HashCollisions (collisions c))
      UniqueStates (cache_entries c)) CacheBytes (cache_bytes c)) CacheBudgetSkips (budgetSkips c)
  end.

(** ** Candidates *)

Definition appendField (destination value : bytes) : bytes :=
  destination ++ Sha256.be_bytes 8 (wrap64 (zlen value)) ++ value.

Definition cacheIdentity (state : bytes) (c : Choice) (remainingDepth : Z) : DecisionError + bytes :=
  match CanonicalDomain c with
  | inl err => inl err
  | inr domain =>
    match CanonicalContext c with
    | inl err => inl err
    | inr context =>
      let identity := appendField [] (str "d-raft.explore-cache/v1") in
      let identity := appendField identity state in
      let identity := appendField identity (str (ChID c)) in
      let identity := appendField identity (str (ChKind c)) in
      let identity := appendField identity domain in
      let identity := appendField identity context in
      inr (identity ++ Sha256.be_bytes 8 (wrap64 remainingDepth))
    end
  end.

Definition optionSelection (o : Option_) : Selection := mkSelection (OptID o) None.
Definition numberSelection (z : Z) : Selection := mkSelection "" (Some z).

Definition candidates (c : Choice) (b : Bounds) : go (DecisionError + (list Selection * bool)) :=
  match ValidateChoice c with
  | Some err => Done (inl err)
  | None =>
    if 0 <? zlen (Options c) then
      let limit := Z.min (zlen (Options c)) (MaxBranchesPerChoice b) in
      Done (inr (map optionSelection (take (Z.to_nat limit) (Options c)), limit <? zlen (Options c)))
    else match Min c, Max c with
    | Some minimum, Some maximum =>
      let span := wrap64 (wrap64 (maximum - minimum) + 1) in
      let count := Z.min (RangeSamples b) (MaxBranchesPerChoice b) in
      if span <=? count then
        Done (inr (map (λ i, numberSelection (minimum + Z.of_nat i)) (seq 0 (Z.to_nat span)), false))
      else
        let values := [minimum] in
        let values := if 3 <=? count then values ++ [minimum + Z.quot (maximum - minimum) 2] else values in
        let values := if 2 <=? count then values ++ [maximum] else values in
        Done (inr (map numberSelection values, true))
    | _, _ => Panic
    end
  end.

Definition outcomeMatches (o : Outcome) (target : string) : bool :=
  existsb (λ v, String.eqb target "" || String.eqb (VFingerprint v) target) (Violations o).

Definition recordOutcomeStatus (r : Result) (o : Outcome) : Result * option ExploreError :=
  if String.eqb (Status o) OutcomeCompleted then (inc CompletedRuns r, None)
  else if String.eqb (Status o) OutcomeViolation then (inc OutcomeViolationRuns r, None)
  else if String.eqb (Status o) OutcomeError then (inc ErrorRuns r, None)
  else if String.eqb (Status o) OutcomeBudgetExhausted then (inc BudgetExhaustedRuns r, None)
  else (r, Some ErrInvalidOutcomeStatus).

(** ** Completion at the depth bound *)

Definition complete (fuel : nat) (run : Runner) (prefix : Tape) (seed : Z)
    : go (option (ExploreError + (option Execution))) :=
  combined ← NewPrefixThenDecider prefix (Some (NewSeedDecider seed));
  match combined with
  | inl err => Done (Some (inl (ExploreDecision err)))
  | inr combined =>
    ran ← run_with fuel run (NewRecorder (Some combined));
    match ran with
    | None => Done None
    | Some (recorder, res) =>
      match RrError res with
      | Some err => Done (Some (inl (ExploreRun err)))
      | None =>
        match base recorder with
        | None => Panic
        | Some combined =>
          match PrefixThenFinish combined with
          | Some ErrTapeNotConsumed => Done (Some (inr None))
          | Some err => Done (Some (inl (ExploreDecision err)))
          | None =>
            match Err recorder with
            | Some err => Done (Some (inl (ExploreDecision err)))
            | None => Done (Some (inr (Some (mkExecution (RecordedTape recorder) (RrOutcome res)))))
            end
          end
        end
      end
    end
  end.

(** ** The search *)

Definition validBounds (b : Bounds) : bool :=
  (0 <? MaxRuns b) && (MaxRuns b <=? MaxRunsLimit) && (0 <=? MaxDepth b) && (MaxDepth b <=? MaxDepthLimit) &&
  (0 <? MaxBranchesPerChoice b) && (MaxBranchesPerChoice b <=? MaxBranchesLimit) &&
  (0 <? RangeSamples b) && (RangeSamples b <=? 3).

(** The top of the stack is the head of the list. *)
Record Search := mkSearch { stack : list Tape; result : Result; cache : option stateCache }.

Inductive visited :=
| Next (s : Search)
| Stop (s : Search) (err : option ExploreError).

Definition with_result (s : Search) (r : Result) : Search := mkSearch (stack s) r (cache s).
Definition fail (s : Search) (e : ExploreError) : visited := Stop s (Some e).

(** The violation found by a completed run, and whether to stop for it. *)
Definition recordViolation (b : Bounds) (s : Search) (e : Execution) : visited :=
  if outcomeMatches (ExOutcome e) (TargetFingerprint b) then
    let r := inc ViolatingRuns (result s) in
    let r := match FirstViolation r with None => set_FirstViolation r e | Some _ => r end in
    if StopOnViolation b then Stop (with_result s (set_Truncated r (0 <? zlen (stack s)))) None
    else Next (with_result s r)
  else Next s.

Definition recordCompleted (b : Bounds) (s : Search) (e : Execution) : visited :=
  let '(r, err) := recordOutcomeStatus (inc Completed (result s)) (ExOutcome e) in
  match err with
  | Some err => fail (with_result s r) err
  | None => recordViolation b (with_result s r) e
  end.

Definition visitBound (fuel : nat) (run : Runner) (b : Bounds) (s : Search) (prefix : Tape)
    : go (option visited) :=
  let s := with_result s (inc DepthBoundHits (result s)) in
  completed ← complete fuel run prefix (FallbackSeed b);
  let s := with_result s (inc Runs (result s)) in
  Done (match completed with
        | None => None
        | Some (inl err) => Some (fail s err)
        | Some (inr None) => Some (Next (with_result s (inc PrunedPrefixes (result s))))
        | Some (inr (Some e)) => Some (recordCompleted b s e)
        end).

(** The children are pushed backward, so that the first candidate is on top. *)
Fixpoint pushChildren (prefix : Tape) (c : Choice) (selections : list Selection) (st : list Tape)
    : go (DecisionError + list Tape) :=
  match selections with
  | [] => Done (inr st)
  | s :: selections =>
    pushed ← pushChildren prefix c selections st;
    match pushed with
    | inl err => Done (inl err)
    | inr st =>
      entry ← NewEntry c s;
      Done (match entry with
            | inl err => inl err
            | inr e =>
              let child := CloneTape prefix in
              inr (mkTape (Schema child) (Entries child ++ [e]) :: st)
            end)
    end
  end.

Definition expand (b : Bounds) (s : Search) (prefix : Tape) (c : Choice) : go visited :=
  chosen ← candidates c b;
  match chosen with
  | inl err => Done (fail s (ExploreDecision err))
  | inr (selections, sampled) =>
    let s := if (sampled : bool) then with_result s (inc SampledDomains (result s)) else s in
    pushed ← pushChildren prefix c selections (stack s);
    Done (match pushed with
          | inl err => fail s (ExploreDecision err)
          | inr st => Next (mkSearch st (result s) (cache s))
          end)
  end.

Definition visitOpen (b : Bounds) (s : Search) (prefix : Tape) (c : Choice) (canonical : option bytes)
    : go visited :=
  let s := with_result s (inc OpenChoices (result s)) in
  match cache s with
  | None => expand b s prefix c
  | Some cch =>
    match canonical with
    | None => Done (fail s ErrMissingCanonicalState)
    | Some canonical =>
      match cacheIdentity canonical c (MaxDepth b - zlen (Entries prefix)) with
      | inl err => Done (fail s (ExploreDecision err))
      | inr identity =>
        let '(cch, known) := seen cch identity in
        let s := mkSearch (stack s) (result s) (Some cch) in
        if (known : bool) then Done (Next (with_result s (inc StatePruned (result s))))
        else expand b s prefix c
      end
    end
  end.

(** [errors.As] finds an open choice, directly or wrapped. *)
Definition openChoice (e : option RunError) : option Choice :=
  match e with Some (RunDecision (ErrOpenChoice _ c)) => Some c | _ => None end.

Definition visitPrefix (fuel : nat) (run : Runner) (b : Bounds) (s : Search) (prefix : Tape)
    : go (option visited) :=
  decider ← NewPrefixDecider prefix;
  match decider with
  | inl err => Done (Some (fail s (ExploreDecision err)))
  | inr decider =>
    ran ← run_with fuel run decider;
    match ran with
    | None => Done None
    | Some (decider, res) =>
      let s := with_result s (inc Runs (result s)) in
      match openChoice (RrError res), RrError res with
      | Some c, _ =>
        match PrefixFinish decider with
        | Some err => Done (Some (fail s (ExploreDecision err)))
        | None => v ← visitOpen b s prefix c (RrState res); Done (Some v)
        end
      | None, Some err => Done (Some (fail s (ExploreRun err)))
      | None, None =>
        match PrefixFinish decider with
        | Some ErrTapeNotConsumed => Done (Some (Next (with_result s (inc PrunedPrefixes (result s)))))
        | Some err => Done (Some (fail s (ExploreDecision err)))
        | None => Done (Some (recordCompleted b s (mkExecution (CloneTape prefix) (RrOutcome res))))
        end
      end
    end
  end.

Definition visit (fuel : nat) (run : Runner) (b : Bounds) (s : Search) (prefix : Tape)
    : go (option visited) :=
  if MaxDepth b <=? zlen (Entries prefix) then visitBound fuel run b s prefix
  else visitPrefix fuel run b s prefix.

Definition finish (s : Search) (err : option ExploreError) : Result * option ExploreError :=
  (set_cache_stats (result s) (cache s), err).

(** Every iteration counts a run or returns, so [MaxRuns + 1] iterations are enough. *)
Fixpoint dfsLoop (iterations fuel : nat) (run : Runner) (b : Bounds) (s : Search)
    : go (option (Result * option ExploreError)) :=
  match iterations with
  | O => Done None
  | S iterations =>
    match stack s with
    | prefix :: rest =>
      if count (result s) Runs <? MaxRuns b then
        v ← visit fuel run b (mkSearch rest (result s) (cache s)) prefix;
        match v with
        | None => Done None
        | Some (Stop s err) => Done (Some (finish s err))
        | Some (Next s) => dfsLoop iterations fuel run b s
        end
      else Done (Some (finish (with_result s (set_Truncated (result s) true)) None))
    | [] => Done (Some (finish (with_result s (set_Truncated (result s) false)) None))
    end
  end.

Definition dfs (fuel : nat) (run : Runner) (b : Bounds) (c : option stateCache)
    : go (option (Result * option ExploreError)) :=
  dfsLoop (S (Z.to_nat (MaxRuns b))) fuel run b (mkSearch [mkTape SchemaVersion []] emptyResult c).

End cache.

(** ** Entry points *)

(** A plain runner returns no state. *)
Fixpoint without_state (p : program RunResult) : program RunResult :=
  match p with
  | Return r => Return (mkRunResult (RrOutcome r) None (RrError r))
  | Ask c k => Ask c (λ a, without_state (k a))
  end.

Definition DFS (fuel : nat) (run : option Runner) (b : Bounds) : go (option (Result * option ExploreError)) :=
  match run with
  | None => Done (Some (emptyResult, Some ErrInvalidBounds))
  | Some run =>
    if negb (validBounds b) then Done (Some (emptyResult, Some ErrInvalidBounds))
    else dfs Sha256.Sum256 fuel (λ ids, without_state (run ids)) b None
  end.

Definition DFSWithCache (fuel : nat) (run : option Runner) (b : Bounds) (cb : CacheBounds)
    : go (option (Result * option ExploreError)) :=
  match run with
  | None => Done (Some (emptyResult, Some ErrInvalidBounds))
  | Some run =>
    if negb (validBounds b) then Done (Some (emptyResult, Some ErrInvalidBounds))
    else if (MaxEntries cb <=? 0) || (MaxBytes cb <=? 0) then Done (Some (emptyResult, Some ErrInvalidCacheBounds))
    else dfs Sha256.Sum256 fuel run b (Some (newStateCache cb))
  end.
