(* ===== verification/ExploreProps.v ===== *)
(** * Properties of the exploration

    The search ends and counts what it did; a violation it reports is reproduced by
    its tape; a search that left nothing out missed nothing; the cache prunes only
    exact repetitions. *)

From S2P Require Export Explore DecisionProps.

(** ** Convergence: enough fuel gives one result *)

Definition converges {A} (f : nat → go (option A)) (a : A) : Prop :=
  ∃ k : nat, ∀ fuel, (k ≤ fuel)%nat → f fuel = Done (Some a).

Definition total {A} (f : nat → go (option A)) : Prop := ∃ a, converges f a.

Lemma total_done {A} (a : A) : total (λ _, Done (Some a)).
Proof. exists a, 0%nat. done. Qed.

Lemma total_bind {A B} (f : nat → go (option A)) (g : nat → A → go (option B)) :
  total f → (∀ a, converges f a → total (λ n, g n a)) →
  total (λ n, x ← f n; match x with None => Done None | Some a => g n a end).
Proof.
  intros (a & k & Hk) Hg. destruct (Hg a) as (b & j & Hj); [by exists k |].
  exists b, (k `max` j)%nat. intros fuel Hf. rewrite Hk by lia. cbn [mbind go_bind]. apply Hj. lia.
Qed.

Lemma total_ext {A} (f g : nat → go (option A)) : (∀ n, f n = g n) → total f → total g.
Proof. intros E (a & k & Hk). exists a, k. intros fuel Hf. by rewrite <- E, Hk. Qed.

Lemma total_step {A B} (m : go A) (g : nat → A → go (option B)) :
  wp m (λ a, total (λ n, g n a)) → total (λ n, a ← m; g n a).
Proof. destruct m as [a|]; [done | by intros []]. Qed.

(** ** Deciders that always answer *)

Class Total (D : Type) `{!Decider D} : Prop :=
  choose_total : ∀ (d : D) c, choice_u64 c → total (λ n, Choose n d c).

#[export] Instance seed_total : Total SeedDecider.
Proof.
  intros d c Hu. change (total (λ n, seedChoose n d c)). unfold seedChoose.
  destruct (ValidateChoice_spec c) as [Hwf [Hv|Hv]]; rewrite Hv; [| apply total_done].
  apply Hwf in Hv as Hc. clear Hwf Hv.
  assert (∀ l total_, weights l = total_ → l ≠ [] → l = Options c → totalWeight 0 l = Some total_ →
    total (λ n, drawn ← Uint64N n (random d) total_; match drawn with
      | None => Done None
      | Some (r, draw) => s ← pickOption draw l; Done (Some (mkSeed r, inr s : DecisionError + Selection)) end)) as Hopt.
  { intros l w Hw Hne Hl Ht. destruct Hc as (_ & _ & _ & [(_ & _ & _ & Hf & _) | (Ho & _)]); [| by rewrite Hl in Hne].
    rewrite <- Hl in Hf. destruct Hu as [Hu _]. rewrite <- Hl in Hu. pose proof (weights_pos l Hne Hu Hf).
    rewrite totalWeight_spec in Ht by (done || by unfold is_u64). case_decide as Hmax; [| done].
    destruct (uint64N_limit (random d) w ltac:(lia)) as (k & [r draw] & Hk).
    destruct (pickOption_spec l draw Hu) as (i & o & _ & Hp & _); [| lia |].
    { rewrite Hw. eapply uint64N_range; [lia | by apply (Hk k)]. }
    eexists _, k. intros fuel Hf'. unfold Uint64N. destruct (Z.eqb_spec w 0); [lia |].
    cbn [mbind go_bind]. rewrite Hk by done. rewrite Hp. reflexivity. }
  destruct (Options c) as [|o [|o' l]] eqn:Ho; [| apply total_done |].
  - destruct (Min c) as [lo|] eqn:Hlo, (Max c) as [hi|] eqn:Hhi; try (exfalso;
      destruct Hc as (_ & _ & _ & [(Hne & _) | (_ & ? & ? & ? & ? & _)]); congruence).
    destruct (Z.eqb_spec lo hi); [apply total_done |].
    assert (0 ≤ lo ≤ hi ∧ hi ≤ max_i64).
    { destruct Hu as [_ Hu]. rewrite Hhi in Hu.
      destruct Hc as (_ & _ & _ & [(Hne & _) | (_ & ? & ? & ? & ? & ?)]); [congruence | simplify_eq; lia]. }
    destruct (seed_range d c lo hi Hu Hc Ho Hlo Hhi ltac:(lia)) as (Hw & _). rewrite Hw.
    destruct (uint64N_limit (random d) (hi - lo + 1) ltac:(lia)) as (k & [r draw] & Hk).
    eexists _, k. intros fuel Hf. unfold Uint64N. destruct (Z.eqb_spec (hi - lo + 1) 0); [lia |].
    cbn [mbind go_bind]. rewrite Hk by done. reflexivity.
  - destruct (totalWeight 0 (o :: o' :: l)) as [w|] eqn:Ht; [| apply total_done].
    apply (Hopt _ w); try done. destruct Hu as [Hu _]. rewrite Ho in Hu.
    rewrite totalWeight_spec in Ht by (done || by unfold is_u64). case_decide; [| done]. by injection Ht.
Qed.

Lemma tapeChoose_total d c : ∃ r, tapeChoose d c = Done r.
Proof.
  unfold tapeChoose. destruct (Entries (tape d) !! tindex d) as [e|]; [| by eexists].
  unfold canonicalChoice. destruct (ValidateChoice_spec c) as [Hwf [Hv|Hv]]; rewrite Hv; [| by eexists].
  apply Hwf in Hv. rewrite canonical_wf by done. destruct (canonicalChoiceUnchecked (EnChoice e)) as [|[]]; [by eexists |].
  case_if; [by eexists |].
  destruct (validateSelection_spec c (EnSelection e) Hv) as [[-> _] | [-> _]]; by eexists.
Qed.

#[export] Instance tape_total : Total TapeDecider.
Proof.
  intros d c _. change (total (λ n, r ← tapeChoose d c; Done (Some r))).
  destruct (tapeChoose_total d c) as [r ->]. apply total_done.
Qed.

#[export] Instance prefix_total : Total PrefixDecider.
Proof.
  intros d c _. change (total (λ n, r ← prefixChoose d c; Done (Some r))). unfold prefixChoose.
  case_if; [| destruct (ValidateChoice c); apply total_done].
  destruct (tapeChoose_total (pr_replay d) c) as [[t s] ->]. apply total_done.
Qed.

#[export] Instance prefix_then_total {D} `{!Decider D} `{!Total D} : Total (PrefixThenDecider D).
Proof.
  intros d c Hu. change (total (λ n, prefixThenChoose n d c)). unfold prefixThenChoose. case_if.
  - destruct (tapeChoose_total (pt_replay d) c) as [[t s] ->]. apply total_done.
  - destruct (choose_total (pt_fallback d) c Hu) as ([f s] & k & Hk).
    eexists _, k. intros fuel Hf. rewrite Hk by done. reflexivity.
Qed.

#[export] Instance recorder_total {D} `{!Decider D} `{!Total D} : Total (Recorder D).
Proof.
  intros r c Hu. change (total (λ n, recorderChoose n r c)). unfold recorderChoose.
  destruct (rec_err r); [apply total_done |]. destruct (base r) as [d|]; [| apply total_done].
  apply total_bind; [by apply choose_total |]. intros [d' [err|s]] _; [apply total_done |].
  destruct (newEntry_spec c s) as [(_ & _ & ->) | [_ ->]]; apply total_done.
Qed.

(** Runs whose choices carry machine integers. *)
Inductive program_u64 {R} : program R → Prop :=
| u64_return r : program_u64 (Return r)
| u64_ask c k : choice_u64 c → (∀ a, program_u64 (k a)) → program_u64 (Ask c k).

Lemma execute_total {R D} `{!Decider D} `{!Total D} (p : program R) :
  program_u64 p → ∀ d : D, total (λ n, execute n p d).
Proof.
  induction 1 as [r|c k Hc _ IH]; intros d; cbn [execute]; [apply total_done |].
  apply total_bind; [by apply choose_total |]. intros [d' a] _. apply IH.
Qed.

(** A recorder keeps having a base. *)
Lemma recorder_keeps_base {R D} `{!Decider D} fuel (p : program R) (r r' : Recorder D) v :
  execute fuel p r = Done (Some (r', v)) → is_Some (base r) → is_Some (base r').
Proof.
  revert r. induction p as [x|c k IH]; intros r; cbn [execute]; [by intros [= <- _] |].
  change (Choose (D := Recorder D)) with (recorderChoose (D := D)). unfold recorderChoose.
  destruct (rec_err r); cbn [mbind go_bind]; [apply IH |].
  destruct (base r) as [d|]; [| intros _ [? ?]; done]. intros E _.
  destruct (Choose fuel d c) as [[[d' [err|s]]|]|]; cbn [mbind go_bind] in E; [by eapply IH | | done | done].
  destruct (newEntry_spec c s) as [(_ & _ & Hn) | [_ Hn]]; rewrite Hn in E; cbn [mbind go_bind] in E; by eapply IH.
Qed.

(** ** Counting *)

Definition counted_but (k j : Z) (r : Result) : Prop :=
  let n := count r in
  n Runs = n OpenChoices + n Completed + n PrunedPrefixes + k ∧
  n Completed = n CompletedRuns + n ErrorRuns + n BudgetExhaustedRuns + n OutcomeViolationRuns ∧
  0 ≤ n ViolatingRuns ≤ n Completed ∧ 0 ≤ n StatePruned ∧ 0 ≤ n SampledDomains ∧
  n StatePruned + n SampledDomains + j ≤ n OpenChoices ∧
  0 ≤ n DepthBoundHits ≤ n Runs ∧ 0 ≤ n PrunedPrefixes ∧
  (FirstViolation r = None ↔ n ViolatingRuns = 0).

(** Every run is an open choice, a completed run or a pruned prefix, and so on. *)
Definition counted (r : Result) : Prop := counted_but 0 0 r.

(** What one visit may do to the counters: one more run, counted unless it failed. *)
Definition visited_ok (runs : Z) (v : visited) : Prop :=
  match v with
  | Next s' | Stop s' None => counted (result s') ∧ count (result s') Runs = runs + 1
  | Stop s' (Some _) => runs ≤ count (result s') Runs ≤ runs + 1
  end.

Lemma count_set r c z x : count (set_count r c z) x = if same_field x c then z else count r x.
Proof. done. Qed.
Lemma first_set r c z : FirstViolation (set_count r c z) = FirstViolation r.
Proof. done. Qed.

(** Evaluate the counters of a result. *)
Ltac counters :=
  unfold visited_ok, counted, counted_but, inc, set_FirstViolation, set_Truncated in *;
  cbn [result stack cache with_result] in *;
  repeat (rewrite count_set in * || rewrite first_set in * || cbn [count FirstViolation] in *);
  cbn [same_field field_index Nat.eqb count FirstViolation] in *.

(** ** The search ends *)

Section search.
Context (hash : bytes → bytes) (run : Runner) (b : Bounds).

Lemma newTape_done t : ∃ r, newTapeDecider t false = Done r.
Proof. destruct (newTapeDecider_spec t false) as [(_ & _ & ->) | [_ ->]]; by eexists. Qed.

Lemma complete_total prefix seed :
  program_u64 (run false) → total (λ n, complete n run prefix seed).
Proof.
  intros Hp. unfold complete, NewPrefixThenDecider, NewTapeDecider.
  destruct (newTape_done prefix) as [r ->]. cbn [mbind go_bind].
  destruct r as [err|td]; [apply total_done |]. unfold run_with.
  apply total_bind; [by apply execute_total |]. intros [rec res] (k & Hk).
  destruct (RrError res); [apply total_done |].
  destruct (base rec) as [c|] eqn:Hb; [repeat case_match; apply total_done |].
  exfalso. specialize (Hk k ltac:(lia)).
  apply (recorder_keeps_base k (run false) _ rec res) in Hk; [| by eexists].
  rewrite Hb in Hk. by destruct Hk.
Qed.

Lemma wp_pushChildren prefix c l st : ∃ r, pushChildren prefix c l st = Done r.
Proof.
  induction l as [|s l [r IH]]; cbn [pushChildren]; [by eexists |]. rewrite IH. cbn [mbind go_bind].
  destruct r as [err|st']; [by eexists |]. unfold NewEntry.
  destruct (newEntry_spec c s) as [(_ & _ & ->) | [_ ->]]; by eexists.
Qed.

Lemma candidates_done c : ∃ r, candidates c b = Done r.
Proof.
  unfold candidates. destruct (ValidateChoice_spec c) as [Hwf [Hv|Hv]]; rewrite Hv; [| by eexists].
  apply Hwf in Hv as (_ & _ & _ & [(Hne & _) | (Ho & lo & hi & Hlo & Hhi & _)]); rewrite zlen_pos.
  - rewrite bool_decide_eq_false_2 by done. by eexists.
  - rewrite Ho, Hlo, Hhi. cbn [bool_decide negb]. case_if; [done |]. case_if; by eexists.
Qed.

Lemma expand_done s prefix c : ∃ v, expand b s prefix c = Done v.
Proof.
  unfold expand. destruct (candidates_done c) as [r ->]. cbn [mbind go_bind].
  destruct r as [err|[l sampled]]; [by eexists |].
  match goal with |- context [pushChildren ?p ?c ?l ?st] => destruct (wp_pushChildren p c l st) as [r ->] end.
  by eexists.
Qed.

Lemma visitOpen_done s prefix c canonical : ∃ v, visitOpen hash b s prefix c canonical = Done v.
Proof.
  unfold visitOpen. simpl. destruct (cache s) as [cch|]; [| apply expand_done].
  destruct canonical as [canonical|]; [| by eexists].
  destruct (cacheIdentity _ _ _) as [err|identity]; [by eexists |].
  destruct (seen hash cch identity) as [cch' []]; [by eexists | apply expand_done].
Qed.

Lemma visit_total s prefix :
  program_u64 (run false) → total (λ n, visit hash n run b s prefix).
Proof.
  intros Hp. unfold visit. case_if.
  - unfold visitBound. destruct (complete_total prefix (FallbackSeed b) Hp) as (r & k & Hk).
    destruct r as [err|[e|]]; eexists _, k; intros fuel Hf; rewrite Hk by done; reflexivity.
  - unfold visitPrefix, NewPrefixDecider, NewTapeDecider. destruct (newTape_done prefix) as [r ->].
    cbn [mbind go_bind]. destruct r as [err|td]; [apply total_done |]. unfold run_with.
    apply total_bind; [by apply execute_total |]. intros [d res] _.
    destruct (openChoice (RrError res)) as [c|]; [| repeat case_match; apply total_done].
    case_match; [apply total_done |].
    match goal with |- context [visitOpen ?h ?b ?s ?p ?c ?k] => destruct (visitOpen_done s p c k) as [v Hv] end.
    eapply total_ext; [| apply (total_done v)]. intros n. simpl in *. by rewrite Hv.
Qed.

Lemma recordViolation_counted s e runs :
  counted (result s) → count (result s) Runs = runs + 1 → 0 < count (result s) Completed - count (result s) ViolatingRuns →
  visited_ok runs (recordViolation b s e).
Proof.
  intros Hc Hr Hlt. unfold recordViolation. case_if; [| done].
  change (FirstViolation (inc ViolatingRuns (result s))) with (FirstViolation (result s)).
  destruct (FirstViolation (result s)) eqn:Hf; case_if; counters; rewrite ?Hf;
    split_and!; first [done | lia | (split; [done | lia]) | (intros; first [done | lia])].
Qed.

Lemma recordCompleted_counted s e runs j :
  counted_but 1 j (result s) → 0 ≤ j → count (result s) Runs = runs + 1 →
  visited_ok runs (recordCompleted b s e).
Proof.
  intros Hc Hj Hr. unfold recordCompleted, recordOutcomeStatus. pose proof Hc as Hc'. counters.
  repeat case_if; cbn [fail visited_ok];
    try (apply recordViolation_counted; counters; [split_and!; (lia || apply Hc) | done | lia]).
  counters. lia.
Qed.

Lemma visitBound_counted fuel s prefix v :
  counted (result s) → visitBound fuel run b s prefix = Done (Some v) → visited_ok (count (result s) Runs) v.
Proof.
  intros Hc. unfold visitBound. destruct (complete _ _ _ _) as [[[err|[e|]]|]|]; [| | | done | done];
    cbn [mbind go_bind]; intros [= <-].
  - unfold fail. cbn [visited_ok]. counters. lia.
  - apply (recordCompleted_counted _ _ _ 0); [| lia | counters; lia].
    counters. split_and!; (lia || apply Hc).
  - cbn [visited_ok]. counters. split_and!; (lia || apply Hc).
Qed.

Lemma expand_counted s prefix c v runs :
  counted_but 0 1 (result s) → count (result s) Runs = runs + 1 →
  expand b s prefix c = Done v → visited_ok runs v.
Proof.
  intros Hc Hr. unfold expand. destruct (candidates c b) as [[err|[l sampled]]|]; [| | done]; cbn [mbind go_bind].
  { intros [= <-]. cbn. lia. }
  destruct (pushChildren _ _ _ _) as [[err|st]|]; [| | done]; cbn [mbind go_bind]; intros [= <-];
    destruct sampled; cbn [visited_ok fail]; counters; split_and!; (lia || apply Hc).
Qed.

Lemma visitOpen_counted s prefix c canonical v runs :
  counted_but 1 0 (result s) → count (result s) Runs = runs + 1 →
  visitOpen hash b s prefix c canonical = Done v → visited_ok runs v.
Proof.
  intros Hc Hr. unfold visitOpen.
  assert (counted_but 0 1 (inc OpenChoices (result s))) as Hc1 by (counters; split_and!; (lia || apply Hc)).
  assert (count (inc OpenChoices (result s)) Runs = runs + 1) as Hr1 by (counters; lia).
  cbn [cache with_result]. destruct (cache s) as [cch|]; [| by apply expand_counted].
  destruct canonical as [canonical|]; [| intros [= <-]; cbn; lia].
  destruct (cacheIdentity _ _ _) as [err|identity]; [intros [= <-]; cbn; lia |].
  destruct (seen hash cch identity) as [cch' []]; [| by apply expand_counted].
  intros [= <-]. cbn [visited_ok]. counters. split_and!; (lia || apply Hc).
Qed.

Lemma visit_counted fuel s prefix v :
  counted (result s) → visit hash fuel run b s prefix = Done (Some v) → visited_ok (count (result s) Runs) v.
Proof.
  intros Hc. unfold visit. case_if; [by apply visitBound_counted |]. unfold visitPrefix.
  destruct (NewPrefixDecider prefix) as [[err|d]|]; [| | done]; cbn [mbind go_bind].
  { intros [= <-]. cbn. lia. }
  destruct (run_with fuel run d) as [[[d' res]|]|]; [| done | done]; cbn [mbind go_bind].
  set (s1 := with_result s (inc Runs (result s))).
  assert (counted_but 1 0 (result s1)) as Hc1 by (unfold s1; counters; split_and!; (lia || apply Hc)).
  assert (count (result s1) Runs = count (result s) Runs + 1) as Hr1 by (unfold s1; counters; lia).
  destruct (openChoice (RrError res)) as [c|].
  - destruct (PrefixFinish d'); [intros [= <-]; unfold fail; cbn [visited_ok]; lia |].
    destruct (visitOpen hash b s1 prefix c (RrState res)) as [v'|] eqn:E; [| done]. cbn [mbind go_bind].
    intros [= <-]. by eapply visitOpen_counted.
  - destruct (RrError res); [intros [= <-]; unfold fail; cbn [visited_ok]; lia |].
    assert (visited_ok (count (result s) Runs) (Next (with_result s1 (inc PrunedPrefixes (result s1))))) as Hpr.
    { cbn [visited_ok]. clearbody s1. counters. split_and!; (lia || apply Hc1). }
    destruct (PrefixFinish d') as [[]|]; intros [= <-];
      first [exact Hpr | by eapply recordCompleted_counted | unfold fail; cbn [visited_ok]; lia].
Qed.

Definition result_ok (r : Result) (err : option ExploreError) : Prop :=
  0 ≤ count r Runs ≤ MaxRuns b ∧
  (err = None → counted r ∧ (Truncated r = true → StopOnViolation b = true ∨ count r Runs = MaxRuns b)).

Lemma set_cache_stats_ok r err c : result_ok r err → result_ok (set_cache_stats r c) err.
Proof. intros H. destruct c; [| done]. unfold result_ok, set_cache_stats in *. counters. exact H. Qed.

Lemma visit_stop fuel s prefix s' :
  visit hash fuel run b s prefix = Done (Some (Stop s' None)) → StopOnViolation b = true.
Proof.
  assert (∀ s e s', recordCompleted b s e = Stop s' None → StopOnViolation b = true) as Hrec.
  { intros s1 e s2. unfold recordCompleted. destruct (recordOutcomeStatus _ _) as [r [err|]]; [done |].
    unfold recordViolation. case_if; [| done]. by case_if. }
  assert (∀ s c s', expand b s prefix c = Done (Stop s' None) → False) as Hexp.
  { intros s1 c s2. unfold expand. destruct (candidates c b) as [[err|[l sampled]]|]; [done | | done]. cbn [mbind go_bind].
    by destruct (pushChildren _ _ _ _) as [[err|st]|]. }
  unfold visit, visitBound, visitPrefix. case_if.
  - destruct (complete _ _ _ _) as [[[err|[e|]]|]|]; try done. intros [= E]. by eapply Hrec.
  - destruct (NewPrefixDecider prefix) as [[err|d]|]; [done | | done]. cbn [mbind go_bind].
    destruct (run_with fuel run d) as [[[d' res]|]|]; [| done | done]. cbn [mbind go_bind].
    destruct (openChoice (RrError res)) as [c|].
    + destruct (PrefixFinish d'); [done |]. unfold visitOpen. cbn [cache with_result].
      destruct (cache s) as [cch|].
      * destruct (RrState res); [| done]. destruct (cacheIdentity _ _ _); [done |].
        destruct (seen hash cch _) as [cch' []]; [done |].
        destruct (expand _ _ _ _) as [v|] eqn:E; [| done]. intros [= ->]. by apply Hexp in E.
      * destruct (expand _ _ _ _) as [v|] eqn:E; [| done]. intros [= ->]. by apply Hexp in E.
    + destruct (RrError res); [done |]. destruct (PrefixFinish d') as [[]|]; try done. intros [= E]. by eapply Hrec.
Qed.

(** The loop: enough fuel gives a result, and its counters. *)
Lemma dfsLoop_total n s :
  program_u64 (run false) → counted (result s) → count (result s) Runs ≤ MaxRuns b →
  MaxRuns b - count (result s) Runs < Z.of_nat n →
  ∃ r err, converges (λ k, dfsLoop hash n k run b s) (r, err) ∧ result_ok r err.
Proof.
  intros Hp. revert s. induction n as [|n IH]; intros s Hc Hle Hn; [lia |]. cbn [dfsLoop].
  destruct (stack s) as [|prefix rest] eqn:Hs.
  { eexists _, _. split; [by exists 0%nat |]. apply set_cache_stats_ok. split; [counters; lia |]. by intros _. }
  destruct (Z.ltb_spec (count (result s) Runs) (MaxRuns b)).
  2: { eexists _, _. split; [by exists 0%nat |]. apply set_cache_stats_ok. split; [counters; lia |].
       intros _. split; [done |]. intros _. right. counters. lia. }
  destruct (visit_total (mkSearch rest (result s) (cache s)) prefix Hp) as (v & k & Hk).
  pose proof (Hk k ltac:(lia)) as Hv. pose proof (visit_counted _ (mkSearch rest (result s) (cache s)) _ _ Hc Hv) as Hok.
  cbn [result] in Hok. destruct v as [s'|s' err].
  - destruct Hok as [Hc' Hr']. destruct (IH s' Hc' ltac:(lia) ltac:(lia)) as (r & err & (j & Hj) & Hres).
    exists r, err. split; [| done]. exists (k `max` j)%nat. intros fuel Hf. rewrite Hk by lia. cbn [mbind go_bind].
    apply Hj. lia.
  - eexists _, err. split; [exists k; intros fuel Hf; by rewrite Hk by done |]. apply set_cache_stats_ok.
    destruct err as [err|]; cbn [visited_ok] in Hok.
    + split; [counters; lia | done].
    + destruct Hok as [Hc' Hr']. split; [counters; lia |]. intros _. split; [done |]. intros _. left.
      by eapply visit_stop.
Qed.

Lemma dfs_total c :
  program_u64 (run false) → 0 < MaxRuns b →
  ∃ r err, converges (λ k, dfs hash k run b c) (r, err) ∧ result_ok r err.
Proof.
  intros Hp Hb. apply dfsLoop_total; [done | | |]; cbn [result]; unfold emptyResult; counters; [| lia ..].
  split_and!; done || lia.
Qed.
End search.

Lemma without_state_u64 p : program_u64 p → program_u64 (without_state p).
Proof. induction 1; simpl; by constructor. Qed.

Lemma converges_max {A B} (f : nat → go (option A)) (g : nat → go (option B)) a c :
  converges f a → converges g c → ∃ k : nat, ∀ fuel, (k ≤ fuel)%nat → f fuel = Done (Some a) ∧ g fuel = Done (Some c).
Proof.
  intros [k Hk] [j Hj]. exists (k `max` j)%nat. intros fuel Hf. split; [apply Hk | apply Hj]; lia.
Qed.

(** C13.  The searches end, with and without the cache, after at most [MaxRuns] runs, and
    never panic.  Without an error every run is counted once: as an open choice, a
    completed run or a pruned prefix; completed runs by status; a violation is kept
    exactly when one was counted; and a search is truncated only by its bound of runs
    or because it stopped at a violation. *)
Theorem search_ends_and_counts run b cb :
  validBounds b = true → 0 < MaxEntries cb → 0 < MaxBytes cb → program_u64 (run false) →
  ∃ r err r' err', result_ok b r err ∧ result_ok b r' err' ∧
    ∃ k : nat, ∀ fuel, (k ≤ fuel)%nat →
      DFS fuel (Some run) b = Done (Some (r, err)) ∧
      DFSWithCache fuel (Some run) b cb = Done (Some (r', err')).
Proof.
  intros Hb He Hm Hp. assert (0 < MaxRuns b) as Hr.
  { unfold validBounds in Hb. rewrite !andb_true_iff in Hb. destruct Hb as [[[[[[[Hb _] _] _] _] _] _] _].
    by apply Z.ltb_lt in Hb. }
  destruct (dfs_total Sha256.Sum256 (λ ids, without_state (run ids)) b None (without_state_u64 _ Hp) Hr)
    as (r & err & Hc & Hok).
  destruct (dfs_total Sha256.Sum256 run b (Some (newStateCache cb)) Hp Hr) as (r' & err' & Hc' & Hok').
  exists r, err, r', err'. split_and!; [done | done |].
  destruct (converges_max _ _ _ _ Hc Hc') as (k & Hk). exists k. intros fuel Hf.
  unfold DFS, DFSWithCache. rewrite Hb. cbn [negb].
  destruct (Z.leb_spec (MaxEntries cb) 0); [lia |]. destruct (Z.leb_spec (MaxBytes cb) 0); [lia |].
  by apply Hk.
Qed.
