(* ===== verification/ExploreSearch.v ===== *)
(** * What the exploration finds

    A path of a run is the list of its choices and selections.  Prefixes on the stack
    are tapes of paths; a reported violation is the outcome of its tape; an untruncated
    search without samples or depth bounds has taken every path. *)

From S2P Require Export ExploreProps.

(** ** Paths *)

Abbreviation path := (list (Choice * Selection)) (only parsing).

Definition entries_of (l : path) : list Entry := map (λ p, entry_of_choice p.1 p.2) l.
Definition tape_of (l : path) : Tape := mkTape SchemaVersion (entries_of l).

(** The run reaches [p'] from [p] along legal selections. *)
Inductive follows {R} : program R → path → program R → Prop :=
| follows_nil p : follows p [] p
| follows_cons c k s l p' :
    choice_wf c → in_domain c s → follows (k (inr s)) l p' → follows (Ask c k) ((c, s) :: l) p'.

(** Runs that fail with the error of their decider, and invent no open choice. *)
Inductive propagates : program RunResult → Prop :=
| prop_return r : openChoice (RrError r) = None → propagates (Return r)
| prop_ask c k :
    (∀ e, ∃ r, k (inl e) = Return r ∧ RrError r = Some (RunDecision e)) →
    (∀ s, propagates (k (inr s))) → propagates (Ask c k).

Lemma follows_app {R} (p p' p'' : program R) l l' :
  follows p l p' → follows p' l' p'' → follows p (l ++ l') p''.
Proof. induction 1; simpl; [done |]. intros. constructor; auto. Qed.

Lemma follows_split {R} (p p'' : program R) l l' :
  follows p (l ++ l') p'' → ∃ p', follows p l p' ∧ follows p' l' p''.
Proof.
  revert p. induction l as [|[c s] l IH]; intros p; [intros; exists p; split; [constructor | done] |].
  inversion 1; subst. destruct (IH _ H7) as (p' & ? & ?). exists p'. split; [by constructor | done].
Qed.

Lemma follows_det {R} (p p' p'' : program R) l : follows p l p' → follows p l p'' → p' = p''.
Proof. intros H. revert p''. induction H; inversion 1; subst; auto. Qed.

Lemma follows_propagates p l p' : follows p l p' → propagates p → propagates p'.
Proof. induction 1; [done |]. inversion 1; subst. auto. Qed.

Lemma follows_u64 {R} (p : program R) l p' : follows p l p' → program_u64 p → program_u64 p'.
Proof. induction 1; [done |]. inversion 1; subst. auto. Qed.

Lemma entries_ok {R} (p p' : program R) l : follows p l p' → Forall entry_ok (entries_of l).
Proof. induction 1; simpl; constructor; [by split_and! | done]. Qed.

Lemma entries_of_app l l' : entries_of (l ++ l') = entries_of l ++ entries_of l'.
Proof. apply map_app. Qed.
Lemma entries_of_length l : length (entries_of l) = length l.
Proof. apply length_map. Qed.

(** ** Replaying a path *)

Lemma tape_follow {R} (p p' : program R) l t pre post inc fuel :
  follows p l p' → Entries t = pre ++ entries_of l ++ post →
  execute fuel p (mkTapeDecider t (length pre) inc) =
  execute fuel p' (mkTapeDecider t (length pre + length l) inc).
Proof.
  intros H. revert pre. induction H as [p | c k s l p' Hc Hs H IH]; intros pre Ht; [by rewrite Nat.add_0_r |].
  cbn [execute Choose tape_decider]. simpl in Ht.
  rewrite (tapeChoose_recorded t pre c s (entries_of l ++ post) inc) by done. cbn [mbind go_bind].
  specialize (IH (pre ++ [entry_of_choice c s])). rewrite length_app in IH. simpl in IH.
  rewrite Nat.add_1_r in IH. rewrite IH by (by rewrite <- (assoc_L (++))). simpl. do 2 f_equal. lia.
Qed.

Lemma prefix_follow {R} (p p' : program R) l t pre inc fuel :
  follows p l p' → Entries t = pre ++ entries_of l →
  execute fuel p (mkPrefix (mkTapeDecider t (length pre) inc) (length (Entries t))) =
  execute fuel p' (mkPrefix (mkTapeDecider t (length pre + length l) inc) (length (Entries t))).
Proof.
  intros H. revert pre. induction H as [p | c k s l p' Hc Hs H IH]; intros pre Ht; [by rewrite Nat.add_0_r |].
  cbn [execute Choose prefix_decider]. simpl in Ht. unfold prefixChoose. cbn [pr_replay tindex pr_length].
  destruct (Nat.ltb_spec (length pre) (length (Entries t))) as [_|Hge].
  2: { rewrite Ht, length_app in Hge. simpl in Hge. lia. }
  rewrite (tapeChoose_recorded t pre c s (entries_of l) inc) by done. cbn [mbind go_bind].
  specialize (IH (pre ++ [entry_of_choice c s])). rewrite length_app in IH. simpl in IH.
  rewrite Nat.add_1_r in IH. rewrite IH by (by rewrite <- (assoc_L (++))). simpl. do 3 f_equal. lia.
Qed.

Lemma new_tape_of {R} (p p' : program R) l inc :
  follows p l p' → newTapeDecider (tape_of l) inc = Done (inr (mkTapeDecider (tape_of l) 0 inc)).
Proof.
  intros H. destruct (newTapeDecider_spec (tape_of l) inc) as [(_ & _ & E) | [Hno _]]; [done |].
  exfalso. apply Hno. split; [done |]. by eapply entries_ok.
Qed.

(** Running with a prefix: the outcome of the path, or its next choice. *)
Lemma run_prefix {R} fuel (p p' : program R) l :
  follows p l p' →
  let d := mkPrefix (mkTapeDecider (tape_of l) (length l) false) (length l) in
  execute fuel p (mkPrefix (mkTapeDecider (tape_of l) 0 false) (length l)) = execute fuel p' d ∧ PrefixFinish d = None.
Proof.
  intros H d. split.
  - pose proof (prefix_follow p p' l (tape_of l) [] false fuel H) as E. simpl in E.
    rewrite entries_of_length in E. by apply E.
  - unfold PrefixFinish, Finish. simpl. rewrite entries_of_length, Nat.eqb_refl. done.
Qed.

Lemma run_prefix_ask {R} fuel (p : program R) c k l r :
  follows p l (Ask c k) → k (inl (match ValidateChoice c with Some e => e | None => ErrOpenChoice (length l) c end)) = Return r →
  execute fuel p (mkPrefix (mkTapeDecider (tape_of l) 0 false) (length l)) =
  Done (Some (mkPrefix (mkTapeDecider (tape_of l) (length l) false) (length l), r)).
Proof.
  intros H Hk. destruct (run_prefix fuel p _ l H) as [-> _].
  cbn [execute Choose prefix_decider]. unfold prefixChoose. cbn [pr_replay tindex pr_length].
  rewrite Nat.ltb_irrefl. rewrite cloneChoice_id. destruct (ValidateChoice c); cbn [mbind go_bind]; by rewrite Hk.
Qed.

(** ** Candidates and children *)

Lemma optionSelection_in o l : o ∈ l → optionSelection o ∈ map optionSelection l.
Proof. intros. apply list_elem_of_fmap. by exists o. Qed.

Lemma candidates_complete b c l :
  choice_wf c → choice_u64 c → candidates c b = Done (inr (l, false)) → ∀ s, in_domain c s → s ∈ l.
Proof.
  intros Hc [_ Hu] Hl s Hs. unfold candidates in Hl. rewrite ValidateChoice_wf, zlen_pos in Hl by done.
  pose proof Hc as (_ & _ & _ & Hd).
  destruct Hs as [(Ho & Hn & _ & Hin) | (Ho & Hso & lo & hi & n & Hlo & Hhi & Hn & Hr)].
  - rewrite bool_decide_eq_false_2 in Hl by done. cbn [negb] in Hl. injection Hl as <- Hlt.
    rewrite take_ge by (unfold zlen in *; lia). apply list_elem_of_fmap in Hin as (o & Hoid & Hin).
    replace s with (optionSelection o); [by apply optionSelection_in |].
    destruct s as [so sn]. simpl in *. by subst.
  - rewrite Ho, Hlo, Hhi in Hl. cbn [bool_decide] in Hl. rewrite Hhi in Hu.
    destruct Hd as [(? & _) | (_ & lo' & hi' & Hlo' & Hhi' & Hr')]; [done |].
    assert (lo' = lo) as -> by congruence. assert (hi' = hi) as -> by congruence.
    rewrite (wrap64_small (hi - lo)) in Hl by (unfold is_u64; lia).
    rewrite (wrap64_small (hi - lo + 1)) in Hl by (unfold is_u64; lia).
    case_if_in Hl; [done |]. case_if_in Hl; [| done]. injection Hl as <-.
    apply list_elem_of_fmap. exists (Z.to_nat (n - lo)). split.
    + destruct s as [so sn]. simpl in *. subst. unfold numberSelection. do 2 f_equal. lia.
    + apply elem_of_seq. lia.
Qed.

Definition child (l : path) (c : Choice) (s : Selection) : Tape := tape_of (l ++ [(c, s)]).

Lemma pushChildren_spec l c sels st st' :
  pushChildren (tape_of l) c sels st = Done (inr st') →
  st' = map (child l c) sels ++ st ∧ Forall (in_domain c) sels.
Proof.
  revert st'. induction sels as [|s sels IH]; intros st'; cbn [pushChildren map app]; [by intros [= <-] |].
  destruct (pushChildren (tape_of l) c sels st) as [[err|st1]|]; [done | | done]. cbn [mbind go_bind].
  destruct (IH st1 eq_refl) as [-> Hf]. unfold NewEntry.
  destruct (newEntry_spec c s) as [(_ & Hs & ->) | [_ ->]]; [| done]. cbn [mbind go_bind].
  unfold CloneTape. rewrite cloneTape_id. intros [= <-]. split; [| by constructor].
  unfold child, tape_of. simpl. by rewrite entries_of_app.
Qed.

(** ** One visit *)

Section visits.
Context (hash : bytes → bytes) (run : Runner) (b : Bounds).
Context (Hprop : propagates (run false)).

Definition ran (s : Search) : Search := with_result s (inc Runs (result s)).

Lemma visitPrefix_return fuel s l res :
  follows (run false) l (Return res) →
  visitPrefix hash fuel run b s (tape_of l) =
  Done (Some (match RrError res with
              | Some err => fail (ran s) (ExploreRun err)
              | None => recordCompleted b (ran s) (mkExecution (tape_of l) (RrOutcome res))
              end)).
Proof.
  intros H. pose proof (follows_propagates _ _ _ H Hprop) as Hr. inversion Hr as [r Hopen |]; subst.
  unfold visitPrefix, NewPrefixDecider, NewTapeDecider. rewrite (new_tape_of _ _ _ _ H). cbn [mbind go_bind].
  unfold run_with. cbn [OperationContext prefix_decider default Entries tape_of]. rewrite entries_of_length.
  destruct (run_prefix fuel _ _ l H) as [-> Hf]. cbn [execute mbind go_bind].
  rewrite Hopen. destruct (RrError res); [done |]. rewrite Hf. unfold CloneTape. by rewrite cloneTape_id.
Qed.

Lemma visitPrefix_ask fuel s l c k :
  follows (run false) l (Ask c k) →
  (¬ choice_wf c ∧ visitPrefix hash fuel run b s (tape_of l) =
     Done (Some (fail (ran s) (ExploreRun (RunDecision ErrInvalidChoice))))) ∨
  (choice_wf c ∧ ∃ canonical, visitPrefix hash fuel run b s (tape_of l) =
     (v ← visitOpen hash b (ran s) (tape_of l) c canonical; Done (Some v))).
Proof.
  intros H. pose proof (follows_propagates _ _ _ H Hprop) as Hr. inversion Hr as [|? ? Herr _]; subst.
  unfold visitPrefix, NewPrefixDecider, NewTapeDecider. rewrite (new_tape_of _ _ _ _ H). cbn [mbind go_bind].
  unfold run_with. cbn [OperationContext prefix_decider default Entries tape_of]. rewrite entries_of_length.
  destruct (run_prefix fuel _ _ l H) as [_ Hf].
  destruct (ValidateChoice_spec c) as [Hwf [Hv|Hv]].
  - destruct (Herr (ErrOpenChoice (length l) c)) as (r & Hk & Hre). right. split; [by apply Hwf |].
    rewrite (run_prefix_ask fuel _ c k l r H) by (by rewrite Hv). cbn [mbind go_bind]. rewrite Hre. cbn [openChoice].
    rewrite Hf. by exists (RrState r).
  - destruct (Herr ErrInvalidChoice) as (r & Hk & Hre). left. split.
    { intros Hc. apply Hwf in Hc. congruence. }
    rewrite (run_prefix_ask fuel _ c k l r H) by (by rewrite Hv). cbn [mbind go_bind]. by rewrite Hre.
Qed.

(** ** Reproduction *)

(** The tape of an execution replays to its outcome, and is consumed. *)
Definition reproduces (e : Execution) : Prop :=
  ∃ td, NewTapeDecider (ExTape e) = Done (inr td) ∧
  ∀ fuel, ∃ td' res, run_with fuel run td = Done (Some (td', res)) ∧
    RrError res = None ∧ RrOutcome res = ExOutcome e ∧ Finish td' = None.

Lemma reproduces_path l res :
  follows (run false) l (Return res) → RrError res = None →
  reproduces (mkExecution (tape_of l) (RrOutcome res)).
Proof.
  intros H He. eexists. split; [by apply (new_tape_of _ _ _ false H) |]. intros fuel. unfold run_with.
  cbn [OperationContext tape_decider includeOperationIDs default].
  eexists _, res. split; [| split; [done | split; [done |]]].
  - apply (tape_follow _ _ l (tape_of l) [] [] false fuel H). simpl. by rewrite app_nil_r.
  - unfold Finish. simpl. by rewrite entries_of_length, Nat.eqb_refl.
Qed.

Lemma complete_reproduces fuel prefix seed e :
  complete fuel run prefix seed = Done (Some (inr (Some e))) → reproduces e.
Proof.
  unfold complete, NewPrefixThenDecider, NewTapeDecider. destruct (newTape_done prefix) as [[err|td] ->]; [done |].
  cbn [mbind go_bind]. destruct (run_with fuel run _) as [[[rec res]|]|] eqn:Hr; [| done | done]. cbn [mbind go_bind].
  destruct (RrError res) eqn:He; [done |]. destruct (base rec) as [c|]; [| done].
  destruct (PrefixThenFinish c) as [[]|]; try done. destruct (Err rec) eqn:Herr; [done |].
  assert (∀ x y : Execution, Done (Some (inr (Some x))) = Done (Some (inr (Some y) : ExploreError + option Execution)) → x = y) as Hinj by congruence.
  intros <-%Hinj. unfold run_with in Hr. cbn [OperationContext recorder_decider base NewRecorder prefix_then_decider default] in Hr.
  apply recorder_replay in Hr as (es & Hes & Hok & Hrun); [| done]. simpl in Hes.
  unfold RecordedTape. rewrite cloneTape_id, Hes. exists (mkTapeDecider (mkTape SchemaVersion es) 0 false). split.
  - unfold NewTapeDecider. destruct (newTapeDecider_spec (mkTape SchemaVersion es) false) as [(_ & _ & E) | [Hno _]]; [done |].
    by destruct Hno.
  - intros fuel'. unfold run_with. cbn [OperationContext tape_decider includeOperationIDs default].
    eexists _, res. split; [apply (Hrun (mkTape SchemaVersion es) [] [] false fuel'); simpl; by rewrite app_nil_r |].
    split; [done |]. split; [done |]. unfold Finish. simpl. by rewrite Nat.eqb_refl.
Qed.

Definition first_ok (r : Result) : Prop :=
  ∀ e, FirstViolation r = Some e → reproduces e ∧ outcomeMatches (ExOutcome e) (TargetFingerprint b) = true.

Definition stack_ok (st : list Tape) : Prop :=
  ∀ t, t ∈ st → ∃ l p', t = tape_of l ∧ follows (run false) l p'.

Definition visit_keeps (v : visited) : Prop :=
  match v with
  | Next s' => stack_ok (stack s') ∧ first_ok (result s')
  | Stop s' _ => first_ok (result s')
  end.

Lemma recordCompleted_keeps s e :
  stack_ok (stack s) → first_ok (result s) → reproduces e → visit_keeps (recordCompleted b s e).
Proof.
  intros Hs Hf He. unfold recordCompleted.
  destruct (recordOutcomeStatus (inc Completed (result s)) (ExOutcome e)) as [r err] eqn:E.
  assert (FirstViolation r = FirstViolation (result s)) as Hr.
  { unfold recordOutcomeStatus in E. repeat case_if_in E; by injection E as <- _. }
  destruct err as [err|]; [cbn; unfold first_ok; by rewrite Hr |].
  unfold recordViolation. cbn [result with_result]. case_if.
  2: { split; [done |]. cbn. unfold first_ok. by rewrite Hr. }
  assert (first_ok (match FirstViolation (inc ViolatingRuns r) with
    | Some _ => inc ViolatingRuns r | None => set_FirstViolation (inc ViolatingRuns r) e end)) as Hok.
  { unfold first_ok. change (FirstViolation (inc ViolatingRuns r)) with (FirstViolation r).
    destruct (FirstViolation r) eqn:E'; intros e'.
    - change (FirstViolation (inc ViolatingRuns r)) with (FirstViolation r). rewrite E', Hr. apply Hf.
    - cbn. by intros [= <-]. }
  case_if; [exact Hok | by split].
Qed.

Lemma expand_keeps s l c k v :
  stack_ok (stack s) → first_ok (result s) → follows (run false) l (Ask c k) → choice_wf c →
  expand b s (tape_of l) c = Done v → visit_keeps v.
Proof.
  intros Hs Hf Hl Hc. unfold expand. destruct (candidates c b) as [[err|[sels sampled]]|]; [| | done]; cbn [mbind go_bind].
  { by intros [= <-]. }
  set (s1 := if sampled then _ else _).
  assert (stack s1 = stack s ∧ FirstViolation (result s1) = FirstViolation (result s)) as [Hst Hfv] by by destruct sampled.
  clearbody s1.
  destruct (pushChildren (tape_of l) c sels (stack s1)) as [[err|st]|] eqn:E; [| | done]; cbn [mbind go_bind]; intros [= <-].
  { cbn. unfold first_ok. by rewrite Hfv. }
  apply pushChildren_spec in E as [-> Hd]. split; [| cbn; unfold first_ok; by rewrite Hfv].
  cbn [stack]. rewrite Hst. intros t [Ht|Ht]%elem_of_app; [| by apply Hs].
  apply list_elem_of_fmap in Ht as (sel & -> & Hin). rewrite Forall_forall in Hd.
  exists (l ++ [(c, sel)]), (k (inr sel)). split; [done |]. eapply follows_app; [done |].
  constructor; [done | by apply Hd | constructor].
Qed.

Lemma visit_keeps_ok fuel s l p' v :
  stack_ok (stack s) → first_ok (result s) → follows (run false) l p' →
  visit hash fuel run b s (tape_of l) = Done (Some v) → visit_keeps v.
Proof.
  intros Hs Hf Hl. unfold visit. case_if.
  - unfold visitBound. destruct (complete _ _ _ _) as [[[err|[e|]]|]|] eqn:E; [| | | done | done]; cbn [mbind go_bind]; intros [= <-].
    + exact Hf.
    + apply recordCompleted_keeps; [done | exact Hf | by eapply complete_reproduces].
    + by split.
  - destruct p' as [res|c k].
    + rewrite (visitPrefix_return fuel s l res Hl). destruct (RrError res) eqn:He; intros [= <-]; [exact Hf |].
      apply recordCompleted_keeps; [done | exact Hf | by apply reproduces_path].
    + destruct (visitPrefix_ask fuel s l c k Hl) as [[_ ->] | (Hc & canonical & ->)]; [by intros [= <-] |].
      destruct (visitOpen _ _ _ _ _ _) as [v'|] eqn:E; [| done]. intros [= <-]. revert E. unfold visitOpen.
      cbn [cache ran with_result]. destruct (cache s) as [cch|]; [| by eapply expand_keeps].
      destruct canonical as [canonical|]; [| by intros [= <-]].
      destruct (cacheIdentity _ _ _) as [err|identity]; [by intros [= <-] |].
      destruct (seen hash cch identity) as [cch' []]; [by intros [= <-] | by eapply expand_keeps].
Qed.
End visits.

(** ** Coverage *)

Section coverage.
Context (hash : bytes → bytes) (run : Runner) (b : Bounds).
Context (Hprop : propagates (run false)) (Hu : program_u64 (run false)).

(** A path to a violation of the target. *)
Definition violating (l : path) (res : RunResult) : Prop :=
  follows (run false) l (Return res) ∧ RrError res = None ∧
  outcomeMatches (RrOutcome res) (TargetFingerprint b) = true.

(** Every violating path goes through the stack, unless the search was cut short or
    already found a violation. *)
Definition covered (st : list Tape) (r : Result) : Prop :=
  0 < count r ViolatingRuns ∨ 0 < count r SampledDomains ∨ 0 < count r DepthBoundHits ∨
  ∀ l res, violating l res → ∃ l1 l2, tape_of l1 ∈ st ∧ l = l1 ++ l2 ∧ ∃ p', follows (run false) l1 p'.

Definition grows (r r' : Result) : Prop := ∀ c, count r c ≤ count r' c.

Lemma grows_refl r : grows r r.
Proof. intros c. lia. Qed.
Lemma grows_trans r1 r2 r3 : grows r1 r2 → grows r2 r3 → grows r1 r3.
Proof. intros H1 H2 c. specialize (H1 c). specialize (H2 c). lia. Qed.
Lemma grows_inc c r : grows r (inc c r).
Proof. intros x. unfold inc. rewrite count_set. unfold same_field. destruct (Nat.eqb_spec (field_index x) (field_index c)); [| lia].
  destruct x, c; simpl in *; (done || lia). Qed.

Lemma covered_grows st r r' : grows r r' → covered st r → covered st r'.
Proof.
  intros Hg. unfold covered. pose proof (Hg ViolatingRuns). pose proof (Hg SampledDomains). pose proof (Hg DepthBoundHits).
  intros [|[|[|]]]; [left | right; left | right; right; left | right; right; right]; (lia || done).
Qed.

Lemma entries_of_inj l k : Forall (λ p : Choice * Selection, True) l → entries_of l = entries_of k → l = k.
Proof.
  revert k. induction l as [|[c s] l IH]; intros [|[c' s'] k] _ E; try done. simpl in E.
  assert (entry_of_choice c s = entry_of_choice c' s' ∧ entries_of l = entries_of k) as [E1 E2] by (split; congruence).
  assert (c = c') as -> by apply (f_equal EnChoice E1). assert (s = s') as -> by apply (f_equal EnSelection E1).
  f_equal. apply IH; [| done]. by apply Forall_true.
Qed.

Lemma tape_of_inj l k : tape_of l = tape_of k → l = k.
Proof. intros E. apply entries_of_inj; [by apply Forall_true | apply (f_equal Entries E)]. Qed.

(** Paths not through the visited prefix stay covered. *)
Lemma covered_pop t rest r l0 p0 :
  t = tape_of l0 → follows (run false) l0 p0 → covered (t :: rest) r →
  0 < count r ViolatingRuns ∨ 0 < count r SampledDomains ∨ 0 < count r DepthBoundHits ∨
  ∀ l res, violating l res →
    (∃ l2, l = l0 ++ l2 ∧ follows p0 l2 (Return res)) ∨
    ∃ l1 l2, tape_of l1 ∈ rest ∧ l = l1 ++ l2 ∧ ∃ p', follows (run false) l1 p'.
Proof.
  intros -> Hl0 [|[|[|Hc]]]; auto. right; right; right. intros l res Hv.
  destruct (Hc l res Hv) as (l1 & l2 & [Ht|Ht]%elem_of_cons & -> & p' & Hp); [| by right; exists l1, l2; eauto].
  apply tape_of_inj in Ht as ->. left. exists l2. split; [done |].
  destruct Hv as [Hf _]. apply follows_split in Hf as (p1 & H1 & H2). by rewrite (follows_det _ _ _ _ Hl0 H1).
Qed.

Lemma recordCompleted_covered s e v :
  recordCompleted b s e = v →
  match v with
  | Next s' | Stop s' None => stack s' = stack s ∧ grows (result s) (result s') ∧
      (outcomeMatches (ExOutcome e) (TargetFingerprint b) = true → count (result s) ViolatingRuns < count (result s') ViolatingRuns)
  | Stop s' (Some _) => True
  end.
Proof.
  intros <-. unfold recordCompleted.
  destruct (recordOutcomeStatus (inc Completed (result s)) (ExOutcome e)) as [r err] eqn:E.
  assert (grows (result s) r) as Hg.
  { unfold recordOutcomeStatus in E. repeat case_if_in E; injection E as <- _;
      repeat first [apply grows_refl | eapply grows_trans; [| apply grows_inc]]. }
  destruct err as [err|]; [done |]. unfold recordViolation. cbn [result with_result]. case_if; [| by split_and!].
  set (r1 := match FirstViolation _ with Some _ => _ | None => _ end).
  assert (count r1 = count (inc ViolatingRuns r)) as Hr1 by (unfold r1; by destruct (FirstViolation (inc ViolatingRuns r))).
  assert (grows (result s) r1 ∧ count (result s) ViolatingRuns < count r1 ViolatingRuns) as [Hg1 Hlt].
  { split.
    - intros c. rewrite Hr1. pose proof (grows_trans _ _ _ Hg (grows_inc ViolatingRuns r) c). done.
    - rewrite Hr1. unfold inc. rewrite count_set. cbn. specialize (Hg ViolatingRuns). lia. }
  clearbody r1. case_if; split_and!; done.
Qed.

Lemma expand_covered s l c k v :
  (0 < count (result s) ViolatingRuns ∨ 0 < count (result s) SampledDomains ∨ 0 < count (result s) DepthBoundHits ∨
   ∀ l' res, violating l' res →
    (∃ l2, l' = l ++ l2 ∧ follows (Ask c k) l2 (Return res)) ∨
    ∃ l1 l2, tape_of l1 ∈ stack s ∧ l' = l1 ++ l2 ∧ ∃ p', follows (run false) l1 p') →
  0 ≤ count (result s) SampledDomains →
  follows (run false) l (Ask c k) → choice_wf c →
  expand b s (tape_of l) c = Done v →
  match v with Next s' => grows (result s) (result s') ∧ covered (stack s') (result s') | Stop _ err => err ≠ None end.
Proof.
  intros Hcov Hsd Hl Hc. unfold expand. destruct (candidates c b) as [[err|[sels sampled]]|] eqn:Hcand; [| | done]; cbn [mbind go_bind].
  { by intros [= <-]. }
  destruct (pushChildren _ _ _ _) as [[err|st]|] eqn:E; [| | done]; cbn [mbind go_bind]; intros [= <-]; [done |].
  apply pushChildren_spec in E as [-> _]. destruct sampled; cbn [stack result with_result].
  { split; [apply grows_inc |]. right; left. unfold inc. rewrite count_set. cbn. lia. }
  split; [apply grows_refl |]. unfold covered. destruct Hcov as [|[|[|Hcov]]]; auto. right; right; right.
  intros l' res Hv. destruct (Hcov l' res Hv) as [(l2 & -> & Hf) | (l1 & l2 & Hin & Hrest)].
  - inversion Hf as [| ? ? s' l3 ? _ Hs Hf']; subst. exists (l ++ [(c, s')]), l3. split_and!.
    + apply elem_of_app. left. apply list_elem_of_fmap. exists s'. split; [done |].
      eapply candidates_complete; try done. pose proof (follows_u64 _ _ _ Hl Hu) as H. by inversion H.
    + by rewrite <- (assoc_L (++)).
    + exists (k (inr s')). eapply follows_app; [done |]. constructor; [done | done | constructor].
  - exists l1, l2. split; [| done]. apply elem_of_app. by right.
Qed.

Definition visit_covers (s : Search) (v : visited) : Prop :=
  match v with
  | Next s' => covered (stack s') (result s') ∧ cache s' = None
  | Stop s' None => covered [] (result s')
  | Stop _ (Some _) => True
  end.

Lemma recordCompleted_covers s e l0 p0 st :
  cache s = None → 0 ≤ count (result s) ViolatingRuns → follows (run false) l0 p0 →
  covered (tape_of l0 :: st) (result s) → stack s = st →
  0 < count (result s) DepthBoundHits ∨ (∃ res, p0 = Return res ∧ ExOutcome e = RrOutcome res) →
  visit_covers s (recordCompleted b s e).
Proof.
  intros Hn Hv Hl0 Hcov Hst Hcase. pose proof (recordCompleted_covered s e _ eq_refl) as H.
  assert (∀ s', recordCompleted b s e = Next s' → cache s' = None) as Hcache.
  { intros s'. unfold recordCompleted. destruct (recordOutcomeStatus _ _) as [r [err|]]; [done |].
    unfold recordViolation. case_if; [case_if; [done |] |]; by intros [= <-]. }
  assert (∀ s', stack s' = stack s ∧ grows (result s) (result s') ∧
      (outcomeMatches (ExOutcome e) (TargetFingerprint b) = true → count (result s) ViolatingRuns < count (result s') ViolatingRuns) →
      covered (stack s') (result s')) as Hgo.
  { intros s' (Hs' & Hg & Hm). rewrite Hs'.
    destruct (covered_pop _ st (result s) l0 p0 eq_refl Hl0 Hcov) as [H1|[H1|[H1|H1]]].
    - apply (covered_grows _ (result s)); [done | by left].
    - apply (covered_grows _ (result s)); [done | by right; left].
    - apply (covered_grows _ (result s)); [done | by right; right; left].
    - destruct Hcase as [Hd | (res & -> & He)]; [apply (covered_grows _ (result s)); [done | by right; right; left] |].
      rewrite He in Hm. destruct (outcomeMatches (RrOutcome res) (TargetFingerprint b)) eqn:Em.
      { left. specialize (Hm eq_refl). lia. }
      right; right; right. intros l res' Hvi. destruct (H1 l res' Hvi) as [(l2 & -> & Hf) | Hr].
      + inversion Hf; subst. destruct Hvi as (_ & _ & Hvi). congruence.
      + rewrite <- Hst in Hr. done. }
  assert (∀ s', recordCompleted b s e = Stop s' None → outcomeMatches (ExOutcome e) (TargetFingerprint b) = true) as Hstop.
  { intros s'. unfold recordCompleted. destruct (recordOutcomeStatus _ _) as [r [err|]]; [done |].
    unfold recordViolation. by case_if. }
  destruct (recordCompleted b s e) as [s'|s' [err|]]; cbn [visit_covers]; auto.
  destruct H as (_ & _ & H). left. specialize (H (Hstop s' eq_refl)). lia.
Qed.

Lemma counted_stats r c : counted r → counted (set_cache_stats r c).
Proof. destruct c; [| done]. unfold set_cache_stats. counters. done. Qed.

Lemma covered_stats r c : covered [] r → covered [] (set_cache_stats r c).
Proof. destruct c; [| done]. unfold covered, set_cache_stats. counters. done. Qed.

Lemma visit_covered fuel s l0 p0 v :
  cache s = None → counted (result s) → follows (run false) l0 p0 →
  covered (tape_of l0 :: stack s) (result s) →
  visit hash fuel run b s (tape_of l0) = Done (Some v) → visit_covers s v.
Proof.
  intros Hn Hc Hl0 Hcov. pose proof Hc as (_ & _ & Hviol & _ & Hsamp & _ & Hdep & _). unfold visit. case_if.
  - unfold visitBound. destruct (complete _ _ _ _) as [[[err|[e|]]|]|]; [| | | done | done]; cbn [mbind go_bind]; intros [= <-].
    + done.
    + assert (grows (result s) (inc Runs (inc DepthBoundHits (result s)))) as Hg.
      { eapply grows_trans; apply grows_inc. }
      apply (recordCompleted_covers _ _ l0 p0 (stack s)); cbn [cache with_result result stack]; [done | counters; lia | done | | done |].
      * by eapply covered_grows.
      * left. counters. lia.
    + split; [| done]. right; right; left. cbn [result with_result]. counters. lia.
  - destruct p0 as [res|c k].
    + rewrite (visitPrefix_return hash run b Hprop fuel s l0 res Hl0). destruct (RrError res) eqn:He; intros [= <-]; [done |].
      apply (recordCompleted_covers _ _ l0 (Return res) (stack s)); cbn [cache ran with_result result stack]; [done | counters; lia | done | | done |].
      * eapply covered_grows; [apply grows_inc | done].
      * right. by exists res.
    + destruct (visitPrefix_ask hash run b Hprop fuel s l0 c k Hl0) as [[_ ->] | (Hcw & canonical & ->)]; [by intros [= <-] |].
      unfold visitOpen. cbn [cache ran with_result]. rewrite Hn.
      match goal with |- context [expand b ?x _ _] => set (s1 := x) end.
      assert (grows (result s) (result s1)) as Hg by (eapply grows_trans; apply grows_inc).
      destruct (expand b s1 (tape_of l0) c) as [v'|] eqn:E; [| done]. intros [= <-].
      apply (expand_covered s1 l0 c k) in E as Hv; try done.
      * destruct v' as [s'|s' err]; cbn [visit_covers].
        -- destruct Hv as [_ Hv]. split; [done |]. revert E. unfold expand.
           destruct (candidates c b) as [[?|[sels sampled]]|]; [done | | done]. cbn [mbind go_bind].
           destruct (pushChildren _ _ _ _) as [[?|st]|]; [done | | done]. cbn [mbind go_bind]. intros [= <-].
           by destruct sampled.
        -- by destruct err.
      * apply (covered_pop (tape_of l0) (stack s1) (result s1) l0 _ eq_refl Hl0). by apply (covered_grows _ (result s)).
Qed.

Lemma dfsLoop_covered n fuel s r :
  cache s = None → counted (result s) → stack_ok run (stack s) → first_ok run b (result s) →
  covered (stack s) (result s) →
  dfsLoop hash n fuel run b s = Done (Some (r, None)) →
  counted r ∧ (Truncated r = false → covered [] r).
Proof.
  revert s. induction n as [|n IH]; intros s Hn Hc Hs Hf Hcov; cbn [dfsLoop]; [done |].
  destruct (stack s) as [|t rest] eqn:Hst.
  { intros [= <-]. split; [by apply counted_stats |]. intros _. apply covered_stats. exact Hcov. }
  case_if.
  2: { intros [= <-]. split; [by apply counted_stats |]. intros Ht. by destruct (cache s). }
  destruct (Hs t ltac:(by left)) as (l0 & p0 & -> & Hl0).
  destruct (visit hash fuel run b _ _) as [[v|]|] eqn:E; [| done | done]. cbn [mbind go_bind].
  set (s0 := mkSearch rest (result s) (cache s)) in *.
  assert (stack_ok run (stack s0)) as Hs0 by (intros t' Ht'; apply Hs; by right).
  pose proof (visit_keeps_ok hash run b Hprop fuel s0 l0 p0 v Hs0 Hf Hl0 E) as Hkeep.
  pose proof (visit_counted hash run b fuel s0 _ v Hc E) as Hcount.
  pose proof (visit_covered fuel s0 l0 p0 v Hn Hc Hl0 Hcov E) as Hcv.
  destruct v as [s'|s' err].
  - destruct Hcv as [Hcv Hn']. destruct Hkeep as [? ?]. destruct Hcount as [? _]. by apply IH.
  - intros [= <- ->]. destruct Hcount as [? _]. split; [by apply counted_stats |].
    intros _. by apply covered_stats.
Qed.
End coverage.

(** ** Runs without states *)

Definition strip_state (r : RunResult) : RunResult := mkRunResult (RrOutcome r) None (RrError r).

Lemma execute_without_state {D} `{!Decider D} fuel p (d : D) :
  execute fuel (without_state p) d =
  (ran ← execute fuel p d; Done (match ran with Some (d', r) => Some (d', strip_state r) | None => None end)).
Proof.
  revert d. induction p as [r|c k IH]; intros d; cbn [execute without_state]; [done |].
  destruct (Choose fuel d c) as [[[d' a]|]|]; cbn [mbind go_bind]; [apply IH | done | done].
Qed.

Lemma without_state_propagates p : propagates p → propagates (without_state p).
Proof.
  induction 1 as [r Hr|c k He _ IH]; simpl; constructor; [done | | done].
  intros e. destruct (He e) as (r & -> & Hr). by exists (strip_state r).
Qed.

Lemma without_state_follows p l p' : follows p l p' → follows (without_state p) l (without_state p').
Proof. induction 1; simpl; by constructor. Qed.

Lemma without_state_reproduces run e :
  reproduces (λ ids, without_state (run ids)) e → reproduces run e.
Proof.
  intros (td & Htd & H). exists td. split; [done |]. intros fuel. destruct (H fuel) as (td' & res & Hr & H1 & H2 & H3).
  unfold run_with in *. rewrite execute_without_state in Hr.
  destruct (execute fuel (run _) td) as [[[td1 r1]|]|]; [| done | done]. injection Hr as -> <-. by exists td', r1.
Qed.

Section first.
Context (hash : bytes → bytes) (run : Runner) (b : Bounds) (Hprop : propagates (run false)).

Lemma dfsLoop_first n fuel s r err :
  stack_ok run (stack s) → first_ok run b (result s) →
  dfsLoop hash n fuel run b s = Done (Some (r, err)) → first_ok run b r.
Proof.
  revert s. induction n as [|n IH]; intros s Hs Hf; cbn [dfsLoop]; [done |].
  assert (∀ r c, first_ok run b r → first_ok run b (set_cache_stats r c)) as Hstats by by intros r0 [].
  destruct (stack s) as [|t rest] eqn:Hst; [intros [= <- _]; by apply Hstats |].
  case_if; [| intros [= <- _]; by apply Hstats].
  destruct (Hs t ltac:(by left)) as (l0 & p0 & -> & Hl0).
  destruct (visit hash fuel run b _ _) as [[v|]|] eqn:E; [| done | done]. cbn [mbind go_bind].
  set (s0 := mkSearch rest (result s) (cache s)) in *.
  assert (stack_ok run (stack s0)) as Hs0 by (intros t' Ht'; apply Hs; by right).
  pose proof (visit_keeps_ok hash run b Hprop fuel s0 l0 p0 v Hs0 Hf Hl0 E) as Hkeep.
  destruct v as [s'|s' err']; [destruct Hkeep; by apply IH | intros [= <- _]; by apply Hstats].
Qed.

Lemma start_ok : stack_ok run [mkTape SchemaVersion []] ∧ first_ok run b emptyResult.
Proof.
  split; [| done]. intros t ->%list_elem_of_singleton. exists [], (run false). split; [done | constructor].
Qed.

Lemma dfs_first fuel c r err : dfs hash fuel run b c = Done (Some (r, err)) → first_ok run b r.
Proof. destruct start_ok. by apply dfsLoop_first. Qed.
End first.

(** ** Theorems *)

(** C12.  A violation the search reports, with or without the cache, matches the target,
    and its tape is an exact witness: the tape is accepted for replay, and rerunning
    the runner with it gives the reported outcome without error and consumes it. *)
Theorem first_violation_reproduces fuel run b cb r err e :
  propagates (run false) →
  DFS fuel (Some run) b = Done (Some (r, err)) ∨ DFSWithCache fuel (Some run) b cb = Done (Some (r, err)) →
  FirstViolation r = Some e →
  outcomeMatches (ExOutcome e) (TargetFingerprint b) = true ∧ reproduces run e.
Proof.
  intros Hp [H|H] He; unfold DFS, DFSWithCache in H.
  - case_if_in H; [by injection H as <- _ |]. apply dfs_first in H; [| by apply without_state_propagates].
    destruct (H e He) as [? ?]. split; [done |]. by apply without_state_reproduces.
  - case_if_in H; [by injection H as <- _ |]. case_if_in H; [by injection H as <- _ |].
    apply dfs_first in H; [| done]. destruct (H e He). done.
Qed.

(** C11.  Exhaustiveness: a search without error that was not truncated, sampled no
    domain and met no depth bound has taken every path: if any sequence of legal
    selections leads the runner to an outcome with a matching violation, one was
    counted and kept. *)
Theorem search_is_exhaustive fuel run b r l res :
  propagates (run false) → program_u64 (run false) →
  DFS fuel (Some run) b = Done (Some (r, None)) →
  Truncated r = false → count r SampledDomains = 0 → count r DepthBoundHits = 0 →
  violating run b l res →
  0 < count r ViolatingRuns ∧ is_Some (FirstViolation r).
Proof.
  intros Hp Hu H Ht Hs Hd (Hf & He & Hm). unfold DFS in H. case_if_in H; [done |]. unfold dfs in H.
  apply (dfsLoop_covered _ _ b (without_state_propagates _ Hp) (without_state_u64 _ Hu)) in H as [Hc Hcov].
  - destruct (Hcov Ht) as [Hv|[|[|Hno]]]; [| lia | lia |].
    + split; [done |]. destruct (FirstViolation r) eqn:E; [by eexists |]. counters.
      destruct Hc as (_ & _ & _ & _ & _ & _ & _ & _ & Hiff). apply Hiff in E. lia.
    + destruct (Hno l (strip_state res)) as (l1 & l2 & Hin & _); [| by apply elem_of_nil in Hin].
      split; [exact (without_state_follows _ _ _ Hf) | done].
  - done.
  - unfold emptyResult. cbn [result]. counters. split_and!; done || lia.
  - apply (start_ok _ b).
  - apply (start_ok (λ ids, without_state (run ids)) b).
  - right; right; right. intros l' res' (Hf' & _). exists [], l'. split_and!; [by left | done |].
    exists (without_state (run false)). constructor.
Qed.

(** * The cache of canonical states is exact

    Its abstraction is the list of stored identities, in the order they were stored. *)

Section cache.
Context (hash : bytes → bytes).

Definition total_bytes (l : list bytes) : Z := foldr (λ x acc, zlen x + acc) 0 l.

Lemma total_bytes_app l k : total_bytes (l ++ k) = total_bytes l + total_bytes k.
Proof. induction l as [|x l IH]; simpl; [done |]. fold (total_bytes (l ++ k)) (total_bytes l). lia. Qed.

(** The cache holds the identities of [l]: each bucket those with its digest. *)
Record holds (c : stateCache) (l : list bytes) : Prop := {
  ho_buckets : ∀ d, default [] (buckets c !! d) = filter (λ x, hash x = d) l;
  ho_nodup : NoDup l;
  ho_entries : cache_entries c = zlen l;
  ho_bytes : cache_bytes c = total_bytes l;
  ho_bounds : zlen l ≤ MaxEntries (bounds_ c) ∧ total_bytes l ≤ MaxBytes (bounds_ c);
  ho_lookups : lookups c = hits c + misses c;
  ho_misses : misses c = zlen l + budgetSkips c;
  ho_collisions : 0 ≤ collisions c }.

Lemma newStateCache_holds cb : 0 < MaxEntries cb → 0 < MaxBytes cb → holds (newStateCache cb) [].
Proof.
  intros. split; unfold zlen; simpl; try done; try lia. constructor.
Qed.

Lemma scanBucket_spec x l n :
  (scanBucket x l n).2 = bool_decide (x ∈ l) ∧ n ≤ (scanBucket x l n).1 ≤ n + zlen l ∧
  (x ∉ l → (scanBucket x l n).1 = n + zlen l).
Proof.
  revert n. induction l as [|y l IH]; intros n; cbn [scanBucket].
  { unfold zlen. cbn [fst snd length Z.of_nat]. split_and!; [by rewrite bool_decide_eq_false_2 by apply not_elem_of_nil | lia ..]. }
  rewrite zlen_cons. pose proof (zlen_nonneg l). destruct (bool_decide_reflect (y = x)) as [E|E]; cbn [fst snd].
  - subst. rewrite bool_decide_eq_true_2 by left. split_and!; [done | lia | lia |]. intros Hn. destruct Hn. left.
  - destruct (IH (n + 1)) as (H1 & H2 & H3). rewrite H1. split_and!; [| lia | lia |].
    + apply bool_decide_ext. rewrite elem_of_cons. naive_solver.
    + intros Hn. rewrite H3; [lia |]. by intros ?; apply Hn; right.
Qed.

(** Whether an identity does not fit any more. *)
Definition full (c : stateCache) (l : list bytes) (x : bytes) : bool :=
  (MaxEntries (bounds_ c) <=? zlen l) || ((MaxBytes (bounds_ c) - total_bytes l) <? zlen x).

Lemma seen_spec c l x :
  holds c l →
  let '(c', known) := seen hash c x in
  (known = true ↔ x ∈ l) ∧
  holds c' (if known || full c l x then l else l ++ [x]) ∧
  bounds_ c' = bounds_ c ∧ lookups c' = lookups c + 1 ∧
  hits c' = (if known then hits c + 1 else hits c) ∧
  (known = false → collisions c' = collisions c + zlen (filter (λ y, hash y = hash x) l)).
Proof.
  intros [Hb Hn He Hby Hbo Hlo Hmi Hco]. unfold seen, full. rewrite Hb.
  destruct (scanBucket_spec x (filter (λ y, hash y = hash x) l) 0) as (H1 & H2 & H3).
  destruct (scanBucket x (filter (λ y, hash y = hash x) l) 0) as [skipped found]. simpl in H1, H2, H3.
  assert (found = true ↔ x ∈ l) as Hf.
  { rewrite H1, bool_decide_eq_true. rewrite list_elem_of_filter. naive_solver. }
  destruct found.
  { split_and!; try done. split; simpl; try done; lia. }
  assert (x ∉ l) as Hx by (intros Hx; by apply Hf in Hx).
  assert (skipped = zlen (filter (λ y, hash y = hash x) l)) as ->.
  { rewrite H3; [lia |]. by intros [_ ?]%list_elem_of_filter. }
  rewrite He, Hby. cbn [orb]. case_if.
  - split_and!; try done. split; simpl; try done; lia.
  - apply orb_false_iff in Hif as [Hi1 Hi2]. apply Z.leb_gt in Hi1. apply Z.ltb_ge in Hi2.
    split_and!; try done. split; simpl; rewrite ?zlen_app, ?zlen_cons, ?zlen_nil, ?total_bytes_app; simpl; try lia.
    + intros d. rewrite filter_app, filter_cons, filter_nil. destruct (decide (hash x = d)) as [<-|Hd].
      * by rewrite lookup_insert_eq.
      * rewrite lookup_insert_ne by done. by rewrite Hb, app_nil_r.
    + apply NoDup_app. split_and!; [done | | apply NoDup_singleton]. intros y Hy ->%list_elem_of_singleton. done.
Qed.

(** ** Identities *)

Definition identity_small (state : bytes) (c : Choice) (depth : Z) : Prop :=
  small state ∧ key_small c ∧ is_u64 depth.

Definition cache_fields (state : bytes) (c : Choice) : list bytes :=
  [str "d-raft.explore-cache/v1"; state; str (ChID c); str (ChKind c); marshalCanonicalDomain c; canonical_context c].

Lemma cacheIdentity_wf state c depth :
  choice_wf c → cacheIdentity state c depth =
    inr (fields (cache_fields state c) (Sha256.be_bytes 8 (wrap64 depth))).
Proof.
  intros Hc. unfold cacheIdentity, CanonicalDomain, CanonicalContext. rewrite ValidateChoice_wf by done.
  pose proof (canonical_wf c Hc) as E. unfold canonicalChoiceUnchecked in E.
  destruct (marshalCanonicalContext c) as [|context]; [done |].
  assert (context = canonical_context c) as -> by congruence. clear E.
  unfold appendField, fields, field, cache_fields. cbn [foldr app]. f_equal. by rewrite <- !(assoc_L (++)).
Qed.

Lemma six_inj {A} (a b c d e f a' b' c' d' e' f' : A) :
  [a; b; c; d; e; f] = [a'; b'; c'; d'; e'; f'] → b = b' ∧ c = c' ∧ d = d' ∧ e = e' ∧ f = f'.
Proof. intros H. by injection H. Qed.

Lemma cacheIdentity_inj state c depth state' c' depth' i :
  identity_small state c depth → identity_small state' c' depth' →
  cacheIdentity state c depth = inr i → cacheIdentity state' c' depth' = inr i →
  state = state' ∧ same_identity c c' ∧ depth = depth'.
Proof.
  intros (Hs & Hk & Hd) (Hs' & Hk' & Hd') H H'.
  assert (∀ s c d i, cacheIdentity s c d = inr i → choice_wf c) as Hwf.
  { intros s0 c0 d0 i0. unfold cacheIdentity, CanonicalDomain. destruct (ValidateChoice c0) eqn:E; [done |].
    intros _. by apply ValidateChoice_spec. }
  pose proof (Hwf _ _ _ _ H) as Hc. pose proof (Hwf _ _ _ _ H') as Hc'. rewrite cacheIdentity_wf in H, H' by done.
  apply (inj inr) in H as <-. apply (inj inr) in H'.
  assert (∀ s c, small s → key_small c → Forall small (cache_fields s c)) as Hsmall.
  { intros s0 c0 Hs0 Hk0. unfold cache_fields. apply Forall_cons; split; [by vm_compute |].
    by apply Forall_cons; split. }
  apply fields_inj in H' as [E1 E2]; [| done | by apply Hsmall | by apply Hsmall].
  apply six_inj in E1 as (-> & H1 & H2 & H3 & H4). split; [done |].
  split; [split_and!; by auto using str_inj, eq_sym |].
  unfold is_u64 in *. rewrite !wrap64_small in E2 by (unfold is_u64; lia).
  symmetry. apply (be_bytes_inj 8); [simpl; lia | simpl; lia | done].
Qed.
End cache.

(** C14.  The cache prunes only exact repetitions, whatever the hash: a lookup is a hit
    exactly when the same identity was stored, and identities differ whenever the
    state, the open choice or the remaining depth does.  A miss is stored unless a
    bound would be exceeded, and the statistics add up. *)
Theorem cache_prunes_exact_repetitions hash c l state choice depth i :
  holds hash c l → identity_small state choice depth → cacheIdentity state choice depth = inr i →
  (∀ state' choice' depth', identity_small state' choice' depth' →
     cacheIdentity state' choice' depth' = inr i →
     state = state' ∧ same_identity choice choice' ∧ depth = depth') ∧
  let '(c', known) := seen hash c i in
  (known = true ↔ i ∈ l) ∧ holds hash c' (if known || full c l i then l else l ++ [i]) ∧
  bounds_ c' = bounds_ c ∧ lookups c' = lookups c + 1 ∧ hits c' = (if known then hits c + 1 else hits c).
Proof.
  intros Hh Hs Hi. split.
  - intros state' choice' depth' Hs' Hi'. by eapply cacheIdentity_inj.
  - pose proof (seen_spec hash c l i Hh) as H. destruct (seen hash c i) as [c' known].
    destruct H as (? & ? & ? & ? & ? & _). by split_and!.
Qed.

(** ** Witnesses: a fault that breaks the run when it crashes a node *)

Definition demo_outcome (broken : bool) : Outcome :=
  mkOutcome (if broken then OutcomeViolation else OutcomeCompleted) 3 50 "" ""
    (if broken then [mkViolation "election_safety" 40 [] [] "fp-1"] else []).

Definition demo_runner : Runner := λ _,
  Ask demo_fault (λ a, match a with
    | inl e => Return (mkRunResult (demo_outcome false) (Some (str "s0")) (Some (RunDecision e)))
    | inr s => Return (mkRunResult (demo_outcome (String.eqb (SelOption s) "none")) None None)
    end).

Definition demo_bounds : Bounds := mkBounds 10 5 4 3 1 false "fp-1".
Definition demo_cache_bounds : CacheBounds := mkCacheBounds 8 4096.

Lemma demo_propagates : propagates (demo_runner false).
Proof. constructor; [intros e; eexists; split; reflexivity | intros s; constructor; reflexivity]. Qed.

Lemma demo_u64 : program_u64 (demo_runner false).
Proof.
  constructor; [split; [repeat constructor; vm_compute; discriminate | exact I] |].
  intros [e|s]; constructor.
Qed.

(** The value of a search that returned. *)
Definition returned {A} (d : A) (m : go (option A)) : A := match m with Done (Some a) => a | _ => d end.
Definition has_returned {A} (m : go (option A)) : bool := match m with Done (Some _) => true | _ => false end.

Lemma returned_ok {A} (d : A) (m : go (option A)) : has_returned m = true → m = Done (Some (returned d m)).
Proof. by destruct m as [[]|]. Qed.

Definition demo_result : Result * option ExploreError :=
  returned (emptyResult, Some ErrInvalidBounds) (DFS 5 (Some demo_runner) demo_bounds).

Lemma demo_result_ok : DFS 5 (Some demo_runner) demo_bounds = Done (Some demo_result).
Proof. apply returned_ok. vm_compute. reflexivity. Qed.

Lemma demo_result_pair : DFS 5 (Some demo_runner) demo_bounds = Done (Some (demo_result.1, demo_result.2)).
Proof. rewrite demo_result_ok. by destruct demo_result. Qed.

Lemma demo_no_error : demo_result.2 = None.
Proof. vm_compute. reflexivity. Qed.

Lemma search_ends_and_counts_witness :
  ∃ r err r' err', result_ok demo_bounds r err ∧ result_ok demo_bounds r' err' ∧
    ∃ k : nat, ∀ fuel, (k ≤ fuel)%nat →
      DFS fuel (Some demo_runner) demo_bounds = Done (Some (r, err)) ∧
      DFSWithCache fuel (Some demo_runner) demo_bounds demo_cache_bounds = Done (Some (r', err')).
Proof. apply (search_ends_and_counts demo_runner demo_bounds demo_cache_bounds); [reflexivity | reflexivity | reflexivity | apply demo_u64]. Defined.

Definition demo_violation : Execution :=
  mkExecution (tape_of [(demo_fault, mkSelection "none" None)]) (demo_outcome true).

Lemma first_violation_reproduces_witness :
  outcomeMatches (ExOutcome demo_violation) (TargetFingerprint demo_bounds) = true ∧ reproduces demo_runner demo_violation.
Proof.
  apply (first_violation_reproduces 5 demo_runner demo_bounds demo_cache_bounds demo_result.1 demo_result.2 demo_violation demo_propagates).
  - left. exact demo_result_pair.
  - vm_compute. reflexivity.
Defined.

Lemma search_is_exhaustive_witness :
  0 < count demo_result.1 ViolatingRuns ∧ is_Some (FirstViolation demo_result.1).
Proof.
  apply (search_is_exhaustive 5 demo_runner demo_bounds demo_result.1 [(demo_fault, mkSelection "none" None)]
           (mkRunResult (demo_outcome true) None None) demo_propagates demo_u64).
  - pose proof demo_result_pair as E. rewrite demo_no_error in E. exact E.
  - vm_compute. reflexivity.
  - vm_compute. reflexivity.
  - vm_compute. reflexivity.
  - split; [| split; reflexivity]. apply follows_cons; [| | apply follows_nil].
    + apply ValidateChoice_spec. vm_compute. reflexivity.
    + left. split; [discriminate |]. split; [reflexivity |]. split; [discriminate |].
      apply findOption_spec. vm_compute. reflexivity.
Defined.

Definition demo_identity : bytes :=
  match cacheIdentity (str "s0") demo_fault 5 with inr i => i | inl _ => [] end.

Lemma cache_prunes_exact_repetitions_witness :
  let c := newStateCache demo_cache_bounds in
  (∀ state' choice' depth', identity_small state' choice' depth' →
     cacheIdentity state' choice' depth' = inr demo_identity →
     str "s0" = state' ∧ same_identity demo_fault choice' ∧ 5 = depth') ∧
  let '(c', known) := seen (take 1) c demo_identity in
  (known = true ↔ demo_identity ∈ []) ∧
  holds (take 1) c' (if known || full c [] demo_identity then [] else [] ++ [demo_identity]) ∧
  bounds_ c' = bounds_ c ∧ lookups c' = lookups c + 1 ∧ hits c' = (if known then hits c + 1 else hits c).
Proof.
  apply (cache_prunes_exact_repetitions (take 1) (newStateCache demo_cache_bounds) [] (str "s0") demo_fault 5 demo_identity).
  - apply newStateCache_holds; reflexivity.
  - split; [by vm_compute |]. split; [apply demo_fault_small |]. split; by vm_compute.
  - vm_compute. reflexivity.
Defined.

(** The search visits the root, the crash and the violation. *)
Example demo_counts :
  map (count demo_result.1) [Runs; OpenChoices; Completed; ViolatingRuns] = [3; 1; 2; 1] ∧
  Truncated demo_result.1 = false.
Proof. vm_compute. done. Qed.
