(* ===== verification/AppOracle.v ===== *)
(** * The application oracle (apporacle/apporacle.go)

    The portable key/value state machine: its command codec, its hash chain, its
    checkpoints and the replay of applied Raft entries.  A Go [[]byte] that the code
    compares with [nil] is an [option bytes]; [Machine] methods that refuse a nil or
    uninitialised receiver take an [option Machine]. *)

From S2P Require Export Digest RaftTypes.

#[global] Open Scope Z_scope.

(** ** Schemas, limits and errors *)

Definition CommandSchema : string := "d-raft.kv-command/v1".
Definition StateSchema : string := "d-raft.kv-state/v1".
Definition ChainSchema : string := "d-raft.kv-chain/v1".
Definition CheckpointSchema : string := "d-raft.kv-checkpoint/v1".
Definition CommitmentSchema : string := "d-raft.kv-commitment/v1".

Definition MaxCommandBytes : Z := 1048576.
Definition MaxCheckpointBytes : Z := 67108864.
Definition MaxKeyBytes : Z := 65536.
Definition MaxValueBytes : Z := MaxCommandBytes - 64.
Definition MaxCommands : Z := 50000.
Definition MaxHistoryBytes : Z := 12582912.
Definition MaxStateBytes : Z := 8388608.

Inductive AppError :=
| ErrInvalidCommand
| ErrInvalidCheckpoint
| ErrDuplicateCommand (id first current : string)
| ErrInvalidEntry (entry : EntryType)
| ErrTooLarge.

#[export] Instance AppError_eq_dec : EqDecision AppError.
Proof. solve_decision. Defined.

Definition commandMagic : bytes := str "DRAFTKV1".

(** The application profile an adapter opts into. *)
Record AppConfig := mkAppConfig { AppSchema : string }.
Definition KVConfig : AppConfig := mkAppConfig CommandSchema.
Definition ValidateConfig (config : AppConfig) : option AppError :=
  if negb (String.eqb (AppSchema config) CommandSchema) then Some ErrInvalidCommand else None.

(** ** Commands *)

(** A [CommandID] is an array of 16 bytes, here a list of that length. *)
Definition zeroID : bytes := replicate 16 x00.

Definition ParseCommandID (value : string) : AppError + bytes :=
  if negb (strlen value =? zlen zeroID * 2) then inl ErrInvalidCommand
  else match hex_decode value with
       | None => inl ErrInvalidCommand
       | Some decoded =>
         if negb (String.eqb (hex_string decoded) value) then inl ErrInvalidCommand
         else let id := take 16 decoded ++ drop (length decoded) zeroID in
              if bool_decide (id = zeroID) then inl ErrInvalidCommand else inr id
       end.

(** [Operation] is a byte. *)
Definition Put : byte := x01.
Definition Delete : byte := x02.

Record Command := mkCommand { CID : bytes; Operation : byte; CKey : bytes; CValue : bytes }.

#[export] Instance Command_eq_dec : EqDecision Command.
Proof. solve_decision. Defined.

Definition validateCommand (command : Command) : option AppError :=
  if bool_decide (CID command = zeroID) || (zlen (CKey command) =? 0) ||
     (MaxKeyBytes <? zlen (CKey command)) || (MaxValueBytes <? zlen (CValue command))
  then Some ErrInvalidCommand
  else if bool_decide (Operation command = Put) then None
  else if bool_decide (Operation command = Delete) then
    if negb (zlen (CValue command) =? 0) then Some ErrInvalidCommand else None
  else Some ErrInvalidCommand.

(** DRAFTKV1 | op | id | key length | value length | key | value *)
Definition EncodeCommand (command : Command) : AppError + bytes :=
  match validateCommand command with
  | Some err => inl err
  | None =>
    let size := zlen commandMagic + 1 + zlen (CID command) + 4 + 4 +
                zlen (CKey command) + zlen (CValue command) in
    if MaxCommandBytes <? size then inl ErrTooLarge
    else inr (commandMagic ++ [Operation command] ++ CID command ++
              Sha256.be_bytes 4 (zlen (CKey command)) ++ Sha256.be_bytes 4 (zlen (CValue command)) ++
              CKey command ++ CValue command)
  end.

Definition DecodeCommand (data : bytes) : AppError + Command :=
  let header := 8 + 1 + 16 + 4 + 4 in
  if zlen data <? header then inl ErrInvalidCommand
  else if MaxCommandBytes <? zlen data then inl ErrTooLarge
  else if negb (bool_decide (take 8 data = commandMagic)) then inl ErrInvalidCommand
  else
    let operation := default x00 (data !! 8%nat) in
    let id := take 16 (drop 9 data) in
    let keyLength := Sha256.be_word (take 4 (drop 25 data)) in
    let valueLength := Sha256.be_word (take 4 (drop 29 data)) in
    let rest := drop 33 data in
    if (MaxKeyBytes <? keyLength) || (MaxValueBytes <? valueLength) ||
       negb (keyLength + valueLength =? zlen rest)
    then inl ErrInvalidCommand
    else
      let command := mkCommand id operation (take (Z.to_nat keyLength) rest) (drop (Z.to_nat keyLength) rest) in
      match validateCommand command with
      | Some err => inl err
      | None => inr command
      end.

Definition CommandDigest (command : Command) : AppError + string :=
  match EncodeCommand command with
  | inl err => inl err
  | inr encoded => inr (hex_string (Sha256.Sum256 encoded))
  end.

(** ** Blocks, commitments, checkpoints *)

Record Pair := mkPair { PKey : option bytes; PValue : option bytes }.
#[export] Instance Pair_eq_dec : EqDecision Pair.
Proof. solve_decision. Defined.

Record Block := mkBlock {
  Ordinal : Z; BCommandID : string; BCommand : option bytes;
  BCommandDigest : string; BStateDigest : string; Digest_ : string }.
#[export] Instance Block_eq_dec : EqDecision Block.
Proof. solve_decision. Defined.

Record Commitment := mkCommitment {
  CmSchema : string; CmCommands : Z; CmChainDigest : string; CmStateDigest : string }.
#[global] Instance Commitment_eq_dec : EqDecision Commitment.
Proof. solve_decision. Defined.

Record Checkpoint := mkCheckpoint {
  CkSchema : string; CkCommands : Z; CkChainDigest : string; CkStateDigest : string;
  CkState : option (list Pair); CkHistory : option (list Block) }.

(** The contents of a slice; nil has none. *)
Definition contents (s : option bytes) : bytes := default [] s.
Definition cloneBytes (source : option bytes) : option bytes := Some (contents source).
Definition cloneBlock (source : Block) : Block :=
  mkBlock (Ordinal source) (BCommandID source) (cloneBytes (BCommand source))
    (BCommandDigest source) (BStateDigest source) (Digest_ source).
Definition clonePair (source : Pair) : Pair := mkPair (cloneBytes (PKey source)) (cloneBytes (PValue source)).
(** [slices.Clone] keeps nil. *)
Definition cloneCheckpoint (source : Checkpoint) : Checkpoint :=
  mkCheckpoint (CkSchema source) (CkCommands source) (CkChainDigest source) (CkStateDigest source)
    (option_map (map clonePair) (CkState source)) (option_map (map cloneBlock) (CkHistory source)).

Definition blocksEqual (left right : Block) : bool :=
  (Ordinal left =? Ordinal right) && String.eqb (BCommandID left) (BCommandID right) &&
  bool_decide (contents (BCommand left) = contents (BCommand right)) &&
  String.eqb (BCommandDigest left) (BCommandDigest right) &&
  String.eqb (BStateDigest left) (BStateDigest right) && String.eqb (Digest_ left) (Digest_ right).

Fixpoint pairsEqual (lefts rights : list Pair) : bool :=
  match lefts, rights with
  | [], [] => true
  | l :: lefts, r :: rights =>
    bool_decide (contents (PKey l) = contents (PKey r)) &&
    bool_decide (contents (PValue l) = contents (PValue r)) && pairsEqual lefts rights
  | _, _ => false
  end.

(** ** The machine *)

Record Machine := mkMachine {
  state : gmap bytes bytes; seen : gmap bytes string; history : list Block;
  chainDigest : bytes; historyBytes : Z; stateBytes : Z }.

(** The keys of a map in the order [bytes.Compare] sorts them. *)
Definition sortedKeys (m : gmap bytes bytes) : list bytes := merge_sort bytes_le (map fst (map_to_list m)).

Definition stateText (m : gmap bytes bytes) : bytes :=
  str StateSchema ++ [x00] ++ Sha256.be_bytes 8 (wrap64 (zlen (sortedKeys m))) ++
  concat (map (λ key, Sha256.be_bytes 4 (zlen key) ++ key ++
                      Sha256.be_bytes 4 (zlen (default [] (m !! key))) ++ default [] (m !! key)) (sortedKeys m)).
Definition digestState (m : gmap bytes bytes) : bytes := Sha256.Sum256 (stateText m).

Definition genesis : bytes := Sha256.Sum256 (str ChainSchema ++ [x00]).
Definition New : Machine := mkMachine ∅ ∅ [] genesis 0 0.

Definition Clone (m : option Machine) : AppError + Machine :=
  match m with
  | None => inl ErrInvalidCheckpoint
  | Some m =>
    inr (mkMachine (contents ∘ cloneBytes ∘ Some <$> state m) (seen m) (map cloneBlock (history m))
           (chainDigest m) (historyBytes m) (stateBytes m))
  end.

(** The text a block of the chain hashes. *)
Definition chainText (previous : bytes) (ordinal : Z) (canonical stateDigest : bytes) : bytes :=
  str ChainSchema ++ [x00] ++ previous ++ Sha256.be_bytes 8 ordinal ++
  Sha256.be_bytes 4 (zlen canonical) ++ canonical ++ stateDigest.

(** The size of the state after a command. *)
Definition nextStateBytes (m : Machine) (command : Command) : Z :=
  match state m !! CKey command with
  | Some previousValue =>
    if bool_decide (Operation command = Put) then stateBytes m - zlen previousValue + zlen (CValue command)
    else if bool_decide (Operation command = Delete) then stateBytes m - (zlen (CKey command) + zlen previousValue)
    else stateBytes m
  | None =>
    if bool_decide (Operation command = Put) then stateBytes m + zlen (CKey command) + zlen (CValue command)
    else stateBytes m
  end.

Definition nextState (st : gmap bytes bytes) (command : Command) : gmap bytes bytes :=
  if bool_decide (Operation command = Put) then <[CKey command := CValue command]> st
  else if bool_decide (Operation command = Delete) then delete (CKey command) st
  else st.

Definition applyCanonical (m : option Machine) (command : Command) (canonical : bytes)
    : option Machine * (AppError + Block) :=
  match m with
  | None => (m, inl ErrInvalidCheckpoint)
  | Some machine =>
    let commandDigest := hex_string (Sha256.Sum256 canonical) in
    match seen machine !! CID command with
    | Some previous => (m, inl (ErrDuplicateCommand (hex_string (CID command)) previous commandDigest))
    | None =>
      if (MaxCommands <=? zlen (history machine)) || (MaxHistoryBytes - historyBytes machine <? zlen canonical)
      then (m, inl ErrTooLarge)
      else
        let stateBytes' := nextStateBytes machine command in
        if MaxStateBytes <? stateBytes' then (m, inl ErrTooLarge)
        else
          let state' := nextState (state machine) command in
          let ordinal := wrap64 (wrap64 (zlen (history machine)) + 1) in
          let stateDigest := digestState state' in
          let chainDigest' := Sha256.Sum256 (chainText (chainDigest machine) ordinal canonical stateDigest) in
          let block := mkBlock ordinal (hex_string (CID command)) (cloneBytes (Some canonical)) commandDigest
                         (hex_string stateDigest) (hex_string chainDigest') in
          (Some (mkMachine state' (<[CID command := commandDigest]> (seen machine)) (history machine ++ [block])
                   chainDigest' (historyBytes machine + zlen canonical) stateBytes'), inr (cloneBlock block))
    end
  end.

Definition Apply (m : option Machine) (command : Command) : option Machine * (AppError + Block) :=
  match EncodeCommand command with
  | inl err => (m, inl err)
  | inr encoded => applyCanonical m command encoded
  end.

Definition ApplyEncoded (m : option Machine) (data : bytes) : option Machine * (AppError + Block) :=
  match DecodeCommand data with
  | inl err => (m, inl err)
  | inr command => applyCanonical m command data
  end.

Definition Blocks (m : Machine) : list Block := map cloneBlock (history m).

Definition Commitment_ (m : Machine) : Commitment :=
  mkCommitment CommitmentSchema (wrap64 (zlen (history m))) (hex_string (chainDigest m))
    (hex_string (digestState (state m))).

Definition pair_le (left right : Pair) : Prop := bytes_le (contents (PKey left)) (contents (PKey right)).
#[export] Instance pair_le_dec : RelDecision pair_le := λ l r, decide (bytes_le _ _).

Definition Checkpoint_ (m : Machine) : Checkpoint :=
  let commitment := Commitment_ m in
  mkCheckpoint CheckpointSchema (CmCommands commitment) (CmChainDigest commitment) (CmStateDigest commitment)
    (Some (merge_sort pair_le
             (map (λ kv, mkPair (cloneBytes (Some kv.1)) (cloneBytes (Some kv.2))) (map_to_list (state m)))))
    (Some (Blocks m)).

(** ** Restoring a checkpoint *)

(** The loop over the state pairs; [previous] is the key before this one. *)
Fixpoint checkPairs (previous : option bytes) (stateBytes : Z) (pairs : list Pair) : option AppError :=
  match pairs with
  | [] => None
  | item :: pairs =>
    let key := contents (PKey item) in
    let value := contents (PValue item) in
    if (zlen key =? 0) || bool_decide (PKey item = None) || bool_decide (PValue item = None) ||
       (MaxKeyBytes <? zlen key) || (MaxValueBytes <? zlen value) ||
       match previous with Some p => bool_decide (bytes_compare p key ≠ Lt) | None => false end
    then Some ErrInvalidCheckpoint
    else if MaxStateBytes - stateBytes <? zlen key + zlen value then Some ErrTooLarge
    else checkPairs (Some key) (stateBytes + (zlen key + zlen value)) pairs
  end.

Fixpoint checkHistoryBytes (historyBytes : Z) (history : list Block) : option AppError :=
  match history with
  | [] => None
  | block :: history =>
    let size := zlen (contents (BCommand block)) in
    if MaxHistoryBytes - historyBytes <? size then Some ErrTooLarge
    else checkHistoryBytes (historyBytes + size) history
  end.

(** The loop that applies every retained block again. *)
Fixpoint replayHistory (machine : option Machine) (history : list Block) : AppError + option Machine :=
  match history with
  | [] => inr machine
  | expected :: history =>
    if bool_decide (BCommand expected = None) || negb (validDigest (BCommandDigest expected)) ||
       negb (validDigest (BStateDigest expected)) || negb (validDigest (Digest_ expected))
    then inl ErrInvalidCheckpoint
    else match ApplyEncoded machine (contents (BCommand expected)) with
         | (machine', inr actual) =>
           if blocksEqual actual expected then replayHistory machine' history else inl ErrInvalidCheckpoint
         | (_, inl _) => inl ErrInvalidCheckpoint
         end
  end.

Definition Restore (checkpoint : Checkpoint) : AppError + Machine :=
  match CkState checkpoint, CkHistory checkpoint with
  | Some pairs, Some blocks =>
    if negb (String.eqb (CkSchema checkpoint) CheckpointSchema) ||
       negb (CkCommands checkpoint =? wrap64 (zlen blocks)) ||
       negb (validDigest (CkChainDigest checkpoint)) || negb (validDigest (CkStateDigest checkpoint))
    then inl ErrInvalidCheckpoint
    else if MaxCommands <? zlen blocks then inl ErrTooLarge
    else match checkPairs None 0 pairs with
    | Some err => inl err
    | None =>
      match checkHistoryBytes 0 blocks with
      | Some err => inl err
      | None =>
        match replayHistory (Some New) blocks with
        | inl err => inl err
        | inr None => inl ErrInvalidCheckpoint
        | inr (Some machine) =>
          let actualCommitment := Commitment_ machine in
          if negb (CmCommands actualCommitment =? CkCommands checkpoint) ||
             negb (String.eqb (CmChainDigest actualCommitment) (CkChainDigest checkpoint)) ||
             negb (String.eqb (CmStateDigest actualCommitment) (CkStateDigest checkpoint))
          then inl ErrInvalidCheckpoint
          else if negb (pairsEqual (default [] (CkState (Checkpoint_ machine))) pairs)
          then inl ErrInvalidCheckpoint
          else inr machine
        end
      end
    end
  | _, _ => inl ErrInvalidCheckpoint
  end.

(** ** Replaying applied entries *)

Fixpoint replayLoop (machine : option Machine) (blocks : list Block) (entries : list Entry)
    : AppError + (option Machine * list Block) :=
  match entries with
  | [] => inr (machine, blocks)
  | entry :: entries =>
    match Type_ entry with
    | EntryNoop | EntryConfigJoint | EntryConfigFinal => replayLoop machine blocks entries
    | EntryCommand =>
      match ApplyEncoded machine (Data entry) with
      | (_, inl applyErr) => inl applyErr
      | (machine', inr block) => replayLoop machine' (blocks ++ [block]) entries
      end
    | EntryUnknown _ => inl (ErrInvalidEntry (Type_ entry))
    end
  end.

Definition ReplayEntries (base : option Checkpoint) (entries : list Entry) : AppError + (Commitment * list Block) :=
  match match base with None => inr New | Some checkpoint => Restore checkpoint end with
  | inl err => inl err
  | inr machine =>
    match replayLoop (Some machine) [] entries with
    | inl err => inl err
    | inr (Some machine', blocks) => inr (Commitment_ machine', blocks)
    | inr (None, _) => inl ErrInvalidCheckpoint
    end
  end.

(** ** Canonical JSON snapshots (encoding only) *)

(** [Uint64.MarshalJSON]: a decimal string. *)
Definition encode_uint64 (value : Z) : bytes := encode_bytes (encode_int value).

(** [encoding/base64]'s standard encoding, as [encoding/json] writes a [[]byte]. *)
Definition base64_digit (n : Z) : byte :=
  default x3d (str "ABCDEFGHIJKLMNOPQRSTUVWXYZabcdefghijklmnopqrstuvwxyz0123456789+/" !! Z.to_nat n).

Fixpoint base64 (l : bytes) : bytes :=
  match l with
  | a :: b :: c :: l =>
    let w := code a * 65536 + code b * 256 + code c in
    [base64_digit (w / 262144); base64_digit ((w / 4096) mod 64); base64_digit ((w / 64) mod 64); base64_digit (w mod 64)]
      ++ base64 l
  | [a; b] =>
    let w := code a * 65536 + code b * 256 in
    [base64_digit (w / 262144); base64_digit ((w / 4096) mod 64); base64_digit ((w / 64) mod 64); x3d]
  | [a] =>
    let w := code a * 65536 in
    [base64_digit (w / 262144); base64_digit ((w / 4096) mod 64); x3d; x3d]
  | [] => []
  end.
Definition encode_blob (s : option bytes) : bytes :=
  match s with None => str "null" | Some l => [quote] ++ base64 l ++ [quote] end.

Definition marshalPair (p : Pair) : bytes :=
  encode_object [encode_member "key" (encode_blob (PKey p)); encode_member "value" (encode_blob (PValue p))].
Definition marshalBlock (b : Block) : bytes :=
  encode_object [encode_member "ordinal" (encode_uint64 (Ordinal b)); encode_member "command_id" (encode_string (BCommandID b));
    encode_member "command" (encode_blob (BCommand b)); encode_member "command_digest" (encode_string (BCommandDigest b));
    encode_member "state_digest" (encode_string (BStateDigest b)); encode_member "digest" (encode_string (Digest_ b))].
Definition marshal_list {A} (f : A → bytes) (l : option (list A)) : bytes :=
  match l with None => str "null" | Some l => encode_array (map f l) end.
Definition marshalCheckpoint (c : Checkpoint) : bytes :=
  encode_object [encode_member "schema" (encode_string (CkSchema c)); encode_member "commands" (encode_uint64 (CkCommands c));
    encode_member "chain_digest" (encode_string (CkChainDigest c)); encode_member "state_digest" (encode_string (CkStateDigest c));
    encode_member "state" (marshal_list marshalPair (CkState c)); encode_member "history" (marshal_list marshalBlock (CkHistory c))].

Definition EncodeCheckpoint (checkpoint : Checkpoint) : AppError + bytes :=
  match Restore checkpoint with
  | inl err => inl err
  | inr _ =>
    let encoded := marshalCheckpoint checkpoint in
    if MaxCheckpointBytes <? zlen encoded then inl ErrTooLarge else inr encoded
  end.
