(* ===== verification/AppOracleProps.v ===== *)
(** * Properties of the application oracle

    The command codec is a bijection between valid commands and canonical texts; the
    machine is the state a list of admissible commands builds, errors leave it as it
    was; checkpoints restore exactly; commitments bind the command sequence. *)

From S2P Require Export AppOracle.

#[global] Open Scope Z_scope.

(** ** The codec *)

(** What [validateCommand] accepts, and the size limit of the text. *)
Definition command_valid (c : Command) : Prop :=
  CID c ≠ zeroID ∧ 0 < zlen (CKey c) ≤ MaxKeyBytes ∧ zlen (CValue c) ≤ MaxValueBytes ∧
  (Operation c = Put ∨ Operation c = Delete ∧ CValue c = []).

Lemma zlen_zero {A} (l : list A) : zlen l = 0 → l = [].
Proof. destruct l; [done |]. rewrite zlen_cons. pose proof (zlen_nonneg l). lia. Qed.

Lemma validateCommand_spec c : validateCommand c = None ↔ command_valid c.
Proof.
  unfold validateCommand, command_valid. pose proof (zlen_nonneg (CKey c)).
  case_if; reflect.
  - split; [done |]. intros (H1 & H2 & H3 & _). destruct Hif as [[[]|]|]; lia || done.
  - destruct (bool_decide_reflect (Operation c = Put)) as [Hp|Hp]; [split; [| done]; intros _ |].
    { repeat split; try lia; [tauto | by left]. }
    destruct (bool_decide_reflect (Operation c = Delete)) as [Hd|Hd].
    + case_if; reflect; split; try done.
      * intros (_ & _ & _ & [|[_ Hv]]); [done | by rewrite Hv in Hif0].
      * intros _. repeat split; try lia; [tauto |]. right. split; [done | by apply zlen_zero].
    + split; [done |]. intros (_ & _ & _ & [|[]]); done.
Qed.

(** Every rejection of [validateCommand] is [ErrInvalidCommand]. *)
Lemma validateCommand_error c err : validateCommand c = Some err → err = ErrInvalidCommand.
Proof. unfold validateCommand. intros H. repeat case_if_in H; congruence. Qed.

(** The text of a command. *)
Definition commandText (c : Command) : bytes :=
  commandMagic ++ [Operation c] ++ CID c ++ Sha256.be_bytes 4 (zlen (CKey c)) ++
  Sha256.be_bytes 4 (zlen (CValue c)) ++ CKey c ++ CValue c.

Definition command_ok (c : Command) : Prop :=
  command_valid c ∧ zlen (CID c) = 16 ∧ zlen (commandText c) ≤ MaxCommandBytes.

Lemma commandText_length c : zlen (CID c) = 16 → zlen (commandText c) = 33 + zlen (CKey c) + zlen (CValue c).
Proof.
  intros H. unfold commandText. rewrite !zlen_app, H. change (zlen commandMagic) with 8.
  unfold zlen at 2 3 4. rewrite !be_bytes_length. rewrite zlen_cons. change (zlen (@nil byte)) with 0. lia.
Qed.

(** [EncodeCommand] by cases. *)
Lemma EncodeCommand_spec c :
  zlen (CID c) = 16 →
  EncodeCommand c = if decide (command_valid c) then
                      if MaxCommandBytes <? zlen (commandText c) then inl ErrTooLarge else inr (commandText c)
                    else inl ErrInvalidCommand.
Proof.
  intros Hid. unfold EncodeCommand. destruct (validateCommand c) as [err|] eqn:E.
  - rewrite decide_False; [by apply validateCommand_error in E as -> |].
    intros Hv. apply validateCommand_spec in Hv. congruence.
  - rewrite decide_True by (by apply validateCommand_spec). rewrite commandText_length, Hid by done.
    change (zlen commandMagic) with 8. by replace (8 + 1 + 16 + 4 + 4) with 33 by done.
Qed.

(** The fields of a text at their offsets. *)
Lemma decode_fields (magic : bytes) (op : byte) (id kl vl rest : bytes) :
  length magic = 8%nat → length id = 16%nat → length kl = 4%nat → length vl = 4%nat →
  let data := magic ++ [op] ++ id ++ kl ++ vl ++ rest in
  take 8 data = magic ∧ data !! 8%nat = Some op ∧ take 16 (drop 9 data) = id ∧
  take 4 (drop 25 data) = kl ∧ take 4 (drop 29 data) = vl ∧ drop 33 data = rest.
Proof.
  intros H1 H2 H3 H4 data. unfold data.
  assert (E9 : drop 9 (magic ++ [op] ++ id ++ kl ++ vl ++ rest) = id ++ kl ++ vl ++ rest).
  { rewrite (app_assoc magic). apply drop_app_length'. rewrite length_app. simpl. lia. }
  assert (E25 : drop 25 (magic ++ [op] ++ id ++ kl ++ vl ++ rest) = kl ++ vl ++ rest).
  { change 25%nat with (9 + 16)%nat. rewrite <- drop_drop, E9. by apply drop_app_length'. }
  assert (E29 : drop 29 (magic ++ [op] ++ id ++ kl ++ vl ++ rest) = vl ++ rest).
  { change 29%nat with (25 + 4)%nat. rewrite <- drop_drop, E25. by apply drop_app_length'. }
  rewrite E9, E25, E29. repeat split; try by apply take_app_length'.
  - rewrite lookup_app_r by lia. by rewrite H1.
  - change 33%nat with (29 + 4)%nat. rewrite <- drop_drop, E29. by apply drop_app_length'.
Qed.

(** And the text from its fields. *)
Lemma split_fields (data : bytes) :
  33 ≤ zlen data →
  ∃ magic op id kl vl rest, data = magic ++ [op] ++ id ++ kl ++ vl ++ rest ∧
    length magic = 8%nat ∧ length id = 16%nat ∧ length kl = 4%nat ∧ length vl = 4%nat.
Proof.
  unfold zlen. intros Hlen. destruct (drop 8 data) as [|op tail] eqn:E8.
  { apply (f_equal length) in E8. rewrite length_drop in E8. simpl in E8. lia. }
  exists (take 8 data), op, (take 16 tail), (take 4 (drop 16 tail)), (take 4 (drop 20 tail)), (drop 24 tail).
  assert (Ht : (length tail + 9 = length data)%nat).
  { apply (f_equal length) in E8. rewrite length_drop in E8. simpl in E8. lia. }
  split; [| rewrite !length_take, ?length_drop; lia].
  rewrite <- (take_drop 8 data) at 1. rewrite E8. f_equal. simpl. f_equal.
  rewrite <- (take_drop 16 tail) at 1. f_equal. rewrite <- (take_drop 4 (drop 16 tail)) at 1. f_equal.
  rewrite drop_drop. rewrite <- (take_drop 4 (drop (16 + 4) tail)) at 1. f_equal. by rewrite drop_drop.
Qed.

Lemma be4_length z : length (Sha256.be_bytes 4 z) = 4%nat.
Proof. apply be_bytes_length. Qed.

Lemma zlen_length {A} (l : list A) (n : nat) : length l = n ↔ zlen l = Z.of_nat n.
Proof. unfold zlen. lia. Qed.

(** A text of an acceptable command decodes to it. *)
Lemma decode_text c : command_ok c → DecodeCommand (commandText c) = inr c.
Proof.
  intros (Hv & Hid & Hsize). pose proof (commandText_length c Hid) as Hlen.
  pose proof Hv as (_ & Hkey & Hval & _). pose proof (zlen_nonneg (CValue c)).
  assert (Hid' : length (CID c) = 16%nat) by (by apply zlen_length).
  destruct (decode_fields commandMagic (Operation c) (CID c) (Sha256.be_bytes 4 (zlen (CKey c)))
    (Sha256.be_bytes 4 (zlen (CValue c))) (CKey c ++ CValue c) eq_refl Hid' (be4_length _) (be4_length _))
    as (E1 & E2 & E3 & E4 & E5 & E6).
  fold (commandText c) in *. unfold DecodeCommand. cbv zeta. rewrite E1, E2, E3, E4, E5, E6.
  unfold MaxValueBytes, MaxCommandBytes, MaxKeyBytes in *.
  rewrite !be_word_bytes by (simpl; lia).
  rewrite (proj2 (Z.ltb_ge _ _)) by lia. rewrite (proj2 (Z.ltb_ge _ _)) by lia.
  rewrite bool_decide_true by done. cbn [negb]. rewrite zlen_app, Z.eqb_refl.
  rewrite (proj2 (Z.ltb_ge _ _)) by lia. rewrite (proj2 (Z.ltb_ge _ _)) by lia. cbn [orb negb default].
  unfold zlen. rewrite Nat2Z.id. rewrite take_app_length, drop_app_length.
  change (id (Operation c)) with (Operation c).
  replace (mkCommand (CID c) (Operation c) (CKey c) (CValue c)) with c by (by destruct c).
  by rewrite (proj2 (validateCommand_spec c) Hv).
Qed.

(** What decodes is the text of the command it decodes to. *)
Lemma decode_inv data c : DecodeCommand data = inr c → command_ok c ∧ data = commandText c.
Proof.
  unfold DecodeCommand. intros H. case_if_in H; [done |]. reflect.
  case_if_in H; [done |]. case_if_in H; [done |]. reflect.
  destruct (split_fields data ltac:(lia)) as (magic & op & ident & kl & vl & rest & -> & H1 & H2 & H3 & H4).
  destruct (decode_fields magic op ident kl vl rest H1 H2 H3 H4) as (E1 & E2 & E3 & E4 & E5 & E6).
  rewrite E2, E3, E4, E5, E6 in H. rewrite E1 in Hif1. subst magic. clear E1 E2 E3 E4 E5 E6.
  case_if_in H; [done |]. reflect.
  pose proof (be_word_bounds kl). pose proof (be_word_bounds vl). pose proof (zlen_nonneg rest).
  destruct (validateCommand _) as [err|] eqn:Hv in H; [done |]. injection H as <-.
  apply validateCommand_spec in Hv. destruct Hif1 as [[Hk Hl] Hsum].
  assert (Htext : commandMagic ++ [op] ++ ident ++ kl ++ vl ++ rest =
            commandText (mkCommand ident op (take (Z.to_nat (Sha256.be_word kl)) rest) (drop (Z.to_nat (Sha256.be_word kl)) rest))).
  { unfold commandText. cbn [CID Operation CKey CValue]. rewrite take_drop, zlen_take, zlen_drop by lia.
    rewrite Z2Nat.id by lia. replace (zlen rest - Sha256.be_word kl) with (Sha256.be_word vl) by lia.
    by rewrite !be_bytes_word. }
  rewrite Htext in *. split; [| done]. split; [done |]. split; [cbn; unfold zlen; lia | done].
Qed.

(** The errors of [DecodeCommand]. *)
Lemma decode_error data err :
  DecodeCommand data = inl err → (err = ErrInvalidCommand ∨ err = ErrTooLarge ∧ MaxCommandBytes < zlen data).
Proof.
  unfold DecodeCommand. intros H. repeat (case_if_in H; [reflect; injection H as <-; tauto |]).
  destruct (validateCommand _) eqn:E in H; [| done]. apply validateCommand_error in E. left. congruence.
Qed.

(** [EncodeCommand] and [DecodeCommand] are inverse to each other: a command with a
    16-byte identifier encodes exactly when it is valid and its text is within the limit,
    decoding its text gives the command back, and every text that decodes is the one text
    of its command; the errors are those of the limits and of the validation. *)
Theorem command_codec (c : Command) (data : bytes) :
  zlen (CID c) = 16 →
  match EncodeCommand c with
  | inr text => DecodeCommand text = inr c ∧ zlen text = 33 + zlen (CKey c) + zlen (CValue c) ∧ zlen text ≤ MaxCommandBytes
  | inl err => (∀ text, DecodeCommand text ≠ inr c) ∧
      (err = ErrInvalidCommand ∧ ¬ command_valid c ∨
       err = ErrTooLarge ∧ command_valid c ∧ MaxCommandBytes < 33 + zlen (CKey c) + zlen (CValue c))
  end ∧
  match DecodeCommand data with
  | inr c' => EncodeCommand c' = inr data ∧ zlen (CID c') = 16
  | inl err => (∀ c', zlen (CID c') = 16 → EncodeCommand c' ≠ inr data) ∧
      (err = ErrInvalidCommand ∨ err = ErrTooLarge ∧ MaxCommandBytes < zlen data)
  end.
Proof.
  intros Hid. split.
  - rewrite EncodeCommand_spec by done. pose proof (commandText_length c Hid) as Hlen.
    assert (Hno : ∀ text, DecodeCommand text = inr c → command_ok c) by (intros text H; by apply decode_inv in H as []).
    destruct (decide (command_valid c)) as [Hv|Hv]; [case_if; reflect |].
    + split; [intros text H; apply Hno in H as (_ & _ & ?); lia | right; split; [done |]; split; [done | lia]].
    + split; [apply decode_text; done | lia].
    + split; [intros text H; by apply Hno in H as (? & _) | by left].
  - destruct (DecodeCommand data) as [err|c'] eqn:E.
    + split; [| by apply decode_error]. intros c' Hid' H. rewrite EncodeCommand_spec in H by done.
      destruct (decide (command_valid c')); [| done]. case_if_in H; [done |]. reflect. injection H as <-.
      by rewrite decode_text in E.
    + apply decode_inv in E as [(Hv & Hid' & Hs) ->]. split; [| done]. rewrite EncodeCommand_spec by done.
      rewrite decide_True by done. by rewrite (proj2 (Z.ltb_ge _ _)) by lia.
Qed.

(** ** The machine a list of commands builds *)

(** The bytes of a state: the accounting of [stateBytes]. *)
Definition kv_bytes (st : gmap bytes bytes) : Z := map_fold (λ k v acc, zlen k + zlen v + acc) 0 st.

Lemma kv_bytes_insert st k v : st !! k = None → kv_bytes (<[k:=v]> st) = zlen k + zlen v + kv_bytes st.
Proof. intros H. unfold kv_bytes. rewrite map_fold_insert_L; [done | intros; lia | done]. Qed.

Lemma kv_bytes_delete st k v : st !! k = Some v → kv_bytes (delete k st) = kv_bytes st - (zlen k + zlen v).
Proof.
  intros H. rewrite <- (insert_delete_id st k v H) at 2. rewrite kv_bytes_insert by apply lookup_delete_eq. lia.
Qed.

Lemma kv_bytes_nonneg st : 0 ≤ kv_bytes st.
Proof.
  unfold kv_bytes. apply (map_fold_weak_ind (λ acc _, 0 ≤ acc)); [done |].
  intros k v m acc _ H. pose proof (zlen_nonneg k). pose proof (zlen_nonneg v). lia.
Qed.

(** [nextStateBytes] keeps the accounting. *)
Lemma nextStateBytes_spec m c :
  stateBytes m = kv_bytes (state m) → nextStateBytes m c = kv_bytes (nextState (state m) c).
Proof.
  intros H. unfold nextStateBytes, nextState.
  destruct (bool_decide_reflect (Operation c = Put)) as [Hp|Hp]; [| destruct (bool_decide_reflect (Operation c = Delete)) as [Hd|Hd]];
    destruct (state m !! CKey c) as [v|] eqn:E; rewrite H; try done.
  - rewrite <- insert_delete_eq, kv_bytes_insert, (kv_bytes_delete _ _ v) by (done || apply lookup_delete_eq). lia.
  - rewrite kv_bytes_insert by done. lia.
  - by rewrite (kv_bytes_delete _ _ v).
  - by rewrite delete_id.
Qed.

(** The state, the head of the chain and the blocks after some commands. *)
Record ledger := mkLedger { l_state : gmap bytes bytes; l_head : bytes; l_blocks : list Block }.

Definition extend (l : ledger) (c : Command) : ledger :=
  let st := nextState (l_state l) c in
  let n := zlen (l_blocks l) + 1 in
  let head := Sha256.Sum256 (chainText (l_head l) n (commandText c) (digestState st)) in
  mkLedger st head
    (l_blocks l ++ [mkBlock n (hex_string (CID c)) (Some (commandText c)) (hex_string (Sha256.Sum256 (commandText c)))
                      (hex_string (digestState st)) (hex_string head)]).

Definition ledger_of (cs : list Command) : ledger := foldl extend (mkLedger ∅ genesis []) cs.

Definition history_bytes (cs : list Command) : Z := foldr (λ c acc, zlen (commandText c) + acc) 0 cs.
Definition digest_of (c : Command) : bytes * string := (CID c, hex_string (Sha256.Sum256 (commandText c))).

(** The machine after some commands. *)
Definition machine_of (cs : list Command) : Machine :=
  let l := ledger_of cs in
  mkMachine (l_state l) (list_to_map (map digest_of cs)) (l_blocks l) (l_head l) (history_bytes cs) (kv_bytes (l_state l)).

(** What a machine with these commands accepts next. *)
Definition accepts (cs : list Command) (c : Command) : Prop :=
  command_ok c ∧ CID c ∉ map CID cs ∧ zlen cs < MaxCommands ∧
  history_bytes (cs ++ [c]) ≤ MaxHistoryBytes ∧ kv_bytes (l_state (ledger_of (cs ++ [c]))) ≤ MaxStateBytes.

Inductive admissible : list Command → Prop :=
| admissible_nil : admissible []
| admissible_snoc cs c : admissible cs → accepts cs c → admissible (cs ++ [c]).

Lemma ledger_snoc cs c : ledger_of (cs ++ [c]) = extend (ledger_of cs) c.
Proof. unfold ledger_of. by rewrite foldl_app. Qed.

Lemma history_bytes_snoc cs c : history_bytes (cs ++ [c]) = history_bytes cs + zlen (commandText c).
Proof.
  induction cs as [|d cs IH]; [simpl; lia |]. simpl. rewrite IH. lia.
Qed.

Lemma history_bytes_nonneg cs : 0 ≤ history_bytes cs.
Proof. induction cs as [|c cs IH]; simpl; [done |]. pose proof (zlen_nonneg (commandText c)). lia. Qed.

Lemma zlen_blocks cs : zlen (l_blocks (ledger_of cs)) = zlen cs.
Proof.
  induction cs as [|c cs IH] using rev_ind; [done |]. rewrite ledger_snoc. cbn [extend l_blocks].
  by rewrite !zlen_app, IH, !zlen_cons.
Qed.

Lemma machine_of_nil : machine_of [] = New.
Proof. done. Qed.

Lemma seen_fresh cs c : CID c ∉ map CID cs ↔ seen (machine_of cs) !! CID c = None.
Proof.
  cbn [machine_of seen]. rewrite <- not_elem_of_list_to_map. unfold digest_of. rewrite map_map. cbn. done.
Qed.

Lemma list_to_map_fresh_snoc cs c :
  CID c ∉ map CID cs →
  (list_to_map (map digest_of (cs ++ [c])) : gmap bytes string) =
  <[CID c := hex_string (Sha256.Sum256 (commandText c))]> (list_to_map (map digest_of cs)).
Proof.
  intros H. rewrite map_app. apply list_to_map_snoc.
  unfold digest_of. by rewrite map_map.
Qed.

Lemma admissible_length cs : admissible cs → zlen cs ≤ MaxCommands.
Proof. intros [|cs' c _ (_ & _ & H & _)]; [done |]. rewrite zlen_app, zlen_cons. change (zlen (@nil Command)) with 0. lia. Qed.

#[export] Instance accepts_dec cs c : Decision (accepts cs c).
Proof. unfold accepts, command_ok, command_valid. apply _. Defined.

(** A valid command runs exactly when it is fresh and within the limits. *)
Lemma applyCanonical_spec cs c :
  admissible cs → command_ok c →
  applyCanonical (Some (machine_of cs)) c (commandText c) =
    match seen (machine_of cs) !! CID c with
    | Some previous =>
      (Some (machine_of cs), inl (ErrDuplicateCommand (hex_string (CID c)) previous (hex_string (Sha256.Sum256 (commandText c)))))
    | None =>
      if decide (accepts cs c)
      then (Some (machine_of (cs ++ [c])), match last (l_blocks (ledger_of (cs ++ [c]))) with
                                           | Some b => inr b | None => inl ErrTooLarge end)
      else (Some (machine_of cs), inl ErrTooLarge)
    end.
Proof.
  intros Had Hok. unfold applyCanonical. destruct (seen (machine_of cs) !! CID c) as [previous|] eqn:Hseen; [done |].
  apply seen_fresh in Hseen. pose proof (admissible_length cs Had) as Hlen. pose proof (zlen_nonneg cs).
  cbn [machine_of history historyBytes]. rewrite zlen_blocks.
  rewrite nextStateBytes_spec by done. cbn [machine_of state].
  pose proof (history_bytes_snoc cs c) as Eh. pose proof (f_equal l_state (ledger_snoc cs c)) as Es. cbn [extend l_state] in Es.
  case_if; reflect; [rewrite decide_False by (intros (_ & _ & ? & ? & _); lia); done |].
  case_if; reflect; [rewrite decide_False by (rewrite <- Es in Hif0; intros (_ & _ & _ & _ & ?); lia); done |].
  rewrite decide_True by (rewrite <- Es in Hif0; repeat (split; [first [done | lia] |]); lia).
  unfold MaxCommands in *. rewrite !wrap64_small by (unfold is_u64; try rewrite wrap64_small by (unfold is_u64; lia); lia).
  unfold machine_of. cbv zeta. rewrite list_to_map_fresh_snoc, history_bytes_snoc, ledger_snoc by done.
  cbn [extend l_state l_head l_blocks chainDigest seen]. rewrite last_snoc. by rewrite zlen_blocks.
Qed.

Definition block_of (l : ledger) (c : Command) : Block :=
  let st := nextState (l_state l) c in
  let n := zlen (l_blocks l) + 1 in
  mkBlock n (hex_string (CID c)) (Some (commandText c)) (hex_string (Sha256.Sum256 (commandText c)))
    (hex_string (digestState st))
    (hex_string (Sha256.Sum256 (chainText (l_head l) n (commandText c) (digestState st)))).

Lemma blocks_snoc cs c : l_blocks (ledger_of (cs ++ [c])) = l_blocks (ledger_of cs) ++ [block_of (ledger_of cs) c].
Proof. by rewrite ledger_snoc. Qed.

Lemma ApplyEncoded_accepts cs c :
  admissible cs → accepts cs c →
  ApplyEncoded (Some (machine_of cs)) (commandText c) =
    (Some (machine_of (cs ++ [c])), inr (block_of (ledger_of cs) c)).
Proof.
  intros Had Hacc. pose proof Hacc as (Hok & Hid & _). unfold ApplyEncoded.
  rewrite decode_text, applyCanonical_spec by done. rewrite (proj1 (seen_fresh cs c)) by done.
  by rewrite decide_True, blocks_snoc, last_snoc by done.
Qed.

Lemma seen_stale cs c : CID c ∈ map CID cs →
  ∃ d, d ∈ cs ∧ CID d = CID c ∧ seen (machine_of cs) !! CID c = Some (hex_string (Sha256.Sum256 (commandText d))).
Proof.
  intros H. destruct (seen (machine_of cs) !! CID c) as [s|] eqn:E; [| by apply seen_fresh in E].
  cbn [machine_of seen] in E. apply elem_of_list_to_map_2 in E.
  apply list_elem_of_fmap in E as (d & Hpair & Hd).
  unfold digest_of in Hpair. injection Hpair as Hc ->. eauto.
Qed.

Lemma ApplyEncoded_inv cs data m' b :
  admissible cs → ApplyEncoded (Some (machine_of cs)) data = (m', inr b) →
  ∃ c, data = commandText c ∧ accepts cs c ∧ m' = Some (machine_of (cs ++ [c])) ∧ b = block_of (ledger_of cs) c.
Proof.
  intros Had H. unfold ApplyEncoded in H. destruct (DecodeCommand data) as [err|c] eqn:E; [done |].
  apply decode_inv in E as [Hok ->]. rewrite applyCanonical_spec in H by done.
  destruct (seen (machine_of cs) !! CID c); [done |]. destruct (decide (accepts cs c)) as [Ha|]; [| done].
  rewrite blocks_snoc, last_snoc in H. injection H as <- <-. eauto.
Qed.

(** [Apply] and [ApplyEncoded] on the machine of an admissible list of commands: a
    text that does not decode, a command identifier already seen and a command over a
    limit are refused, each with its error, and leave the machine as it was; anything
    else extends the list by the command, changes the state at its key and nowhere else,
    and returns the block that ends the history. *)
Theorem apply_encoded_by_cases (cs : list Command) (data : bytes) :
  admissible cs →
  let m := machine_of cs in
  match DecodeCommand data with
  | inl err => ApplyEncoded (Some m) data = (Some m, inl err)
  | inr c =>
    Apply (Some m) c = ApplyEncoded (Some m) data ∧
    (CID c ∈ map CID cs → ∃ d, d ∈ cs ∧ CID d = CID c ∧
       ApplyEncoded (Some m) data =
         (Some m, inl (ErrDuplicateCommand (hex_string (CID c)) (hex_string (Sha256.Sum256 (commandText d)))
                         (hex_string (Sha256.Sum256 data))))) ∧
    (CID c ∉ map CID cs → ¬ accepts cs c → ApplyEncoded (Some m) data = (Some m, inl ErrTooLarge)) ∧
    (accepts cs c → admissible (cs ++ [c]) ∧
       let m' := machine_of (cs ++ [c]) in
       ∃ b, ApplyEncoded (Some m) data = (Some m', inr b) ∧ history m' = history m ++ [b] ∧
         BCommand b = Some data ∧ Ordinal b = zlen cs + 1 ∧
         ∀ k, state m' !! k =
           if decide (k = CKey c) then if decide (Operation c = Put) then Some (CValue c) else None
           else state m !! k)
  end.
Proof.
  intros Had m. unfold m. destruct (DecodeCommand data) as [err|c] eqn:E; [unfold ApplyEncoded; by rewrite E |].
  apply decode_inv in E as [Hok ->]. pose proof Hok as ((Hv & Hkey & Hval & Hop) & Hid & Hsize).
  split; [| split; [| split]].
  - unfold Apply, ApplyEncoded. rewrite EncodeCommand_spec, decode_text, decide_True by done.
    by rewrite (proj2 (Z.ltb_ge _ _)) by lia.
  - intros Hin. destruct (seen_stale cs c Hin) as (d & Hd & Heq & Hs). exists d. split; [done |]. split; [done |].
    unfold ApplyEncoded. by rewrite decode_text, applyCanonical_spec, Hs by done.
  - intros Hin Hacc. unfold ApplyEncoded. rewrite decode_text, applyCanonical_spec by done.
    by rewrite (proj1 (seen_fresh cs c)), decide_False by done.
  - intros Hacc. split; [by constructor |]. exists (block_of (ledger_of cs) c).
    split; [by apply ApplyEncoded_accepts |]. split; [by apply blocks_snoc |]. split; [done |].
    split; [cbn; by rewrite zlen_blocks |]. intros k. cbn [machine_of state]. rewrite ledger_snoc. cbn [extend l_state].
    unfold nextState. destruct Hop as [-> | [-> _]].
    + rewrite bool_decide_true by done. rewrite (decide_True (P := Put = Put)) by done.
      destruct (decide (k = CKey c)) as [-> | Hne]; [by rewrite lookup_insert_eq | by rewrite lookup_insert_ne].
    + rewrite bool_decide_false, bool_decide_true by done. rewrite (decide_False (P := Delete = Put)) by done.
      destruct (decide (k = CKey c)) as [-> | Hne]; [by rewrite lookup_delete_eq | by rewrite lookup_delete_ne].
Qed.
