(* ===== verification/AppOracleRestore.v ===== *)
(** * Checkpoints, replay and the binding of commitments

    [Restore] accepts exactly the checkpoints of machines, [ReplayEntries] reads only
    command entries, and a commitment determines the commands up to a collision of the
    hash function. *)

From S2P Require Export AppOracleProps.

#[global] Open Scope Z_scope.

(** ** Prefixes and blocks *)

Lemma admissible_snoc_inv cs c : admissible (cs ++ [c]) → admissible cs ∧ accepts cs c.
Proof.
  intros H. inversion H as [Hnil | cs' c' H1 H2 Heq]; [by destruct cs |].
  apply app_inj_tail in Heq as [-> ->]. done.
Qed.

Lemma admissible_prefix cs cs' : admissible (cs ++ cs') → admissible cs.
Proof.
  induction cs' as [|c cs' IH] using rev_ind; [by rewrite app_nil_r |].
  rewrite app_assoc. intros H. apply admissible_snoc_inv in H as [H _]. by apply IH.
Qed.

Lemma admissible_cons cs c cs' : admissible (cs ++ c :: cs') → admissible cs ∧ accepts cs c ∧ admissible ((cs ++ [c]) ++ cs').
Proof.
  intros H. assert (H' : admissible ((cs ++ [c]) ++ cs')) by by rewrite <- app_assoc.
  apply admissible_prefix in H' as Hc. by apply admissible_snoc_inv in Hc as [].
Qed.

(** The blocks that some commands add. *)
Fixpoint blocks_from (l : ledger) (cs : list Command) : list Block :=
  match cs with [] => [] | c :: cs => block_of l c :: blocks_from (extend l c) cs end.

Lemma blocks_from_app l cs : l_blocks (foldl extend l cs) = l_blocks l ++ blocks_from l cs.
Proof.
  revert l. induction cs as [|c cs IH]; intros l; simpl; [by rewrite app_nil_r |].
  rewrite IH. cbn [extend l_blocks]. by rewrite <- app_assoc.
Qed.

Lemma blocks_of cs : l_blocks (ledger_of cs) = blocks_from (ledger_of []) cs.
Proof. apply (blocks_from_app (ledger_of []) cs). Qed.

Lemma cloneBlock_id b : BCommand b ≠ None → cloneBlock b = b.
Proof. destruct b as [n id [cmd|] d1 d2 d3]; done. Qed.

Lemma cloneBlocks_from l cs : map cloneBlock (blocks_from l cs) = blocks_from l cs.
Proof. revert l. induction cs as [|c cs IH]; intros l; [done |]. simpl. by rewrite IH. Qed.

Lemma cloneBlocks_of cs : Blocks (machine_of cs) = l_blocks (ledger_of cs).
Proof. unfold Blocks. cbn [machine_of history]. by rewrite blocks_of, cloneBlocks_from. Qed.

(** [Clone] copies the machine. *)
Lemma Clone_id cs : Clone (Some (machine_of cs)) = inr (machine_of cs).
Proof.
  unfold Clone. pose proof (cloneBlocks_of cs) as H. unfold Blocks in H. rewrite H.
  unfold machine_of. cbv zeta. cbn [state seen chainDigest historyBytes stateBytes]. do 2 f_equal.
  apply map_eq. intros k. rewrite lookup_fmap. by destruct (_ !! k).
Qed.

(** ** The replay of a history *)

Lemma blocksEqual_spec a b :
  BCommand a ≠ None → BCommand b ≠ None → blocksEqual a b = true ↔ a = b.
Proof.
  destruct a as [n1 i1 [c1|] d1 s1 h1], b as [n2 i2 [c2|] d2 s2 h2]; try done. intros _ _.
  unfold blocksEqual. simpl. reflect. split; [| by intros [= -> -> -> -> -> ->]].
  intros [[[[[-> ->] ->] ->] ->] ->]. done.
Qed.

Lemma block_digests l c :
  BCommand (block_of l c) ≠ None ∧ validDigest (BCommandDigest (block_of l c)) = true ∧
  validDigest (BStateDigest (block_of l c)) = true ∧ validDigest (Digest_ (block_of l c)) = true.
Proof. unfold block_of. cbv zeta. cbn [BCommand BCommandDigest BStateDigest Digest_]. split; [done |]. split; [| split]; apply validDigest_Sum256. Qed.

Lemma replayHistory_blocks cs cs' :
  admissible (cs ++ cs') →
  replayHistory (Some (machine_of cs)) (blocks_from (ledger_of cs) cs') = inr (Some (machine_of (cs ++ cs'))).
Proof.
  revert cs. induction cs' as [|c cs' IH]; intros cs H; [by rewrite app_nil_r |].
  apply admissible_cons in H as (Had & Hacc & H). cbn [blocks_from replayHistory].
  destruct (block_digests (ledger_of cs) c) as (H1 & -> & -> & ->). rewrite bool_decide_false by done. cbn [orb negb].
  change (contents (BCommand (block_of (ledger_of cs) c))) with (commandText c).
  rewrite ApplyEncoded_accepts by done. rewrite (proj2 (blocksEqual_spec _ _ H1 H1)) by done.
  rewrite <- ledger_snoc, IH by done. by rewrite <- app_assoc.
Qed.

Lemma replayHistory_inv bs cs m' :
  admissible cs → replayHistory (Some (machine_of cs)) bs = inr m' →
  ∃ cs', admissible (cs ++ cs') ∧ m' = Some (machine_of (cs ++ cs')) ∧ bs = blocks_from (ledger_of cs) cs'.
Proof.
  revert cs. induction bs as [|b bs IH]; intros cs Had H.
  { exists []. rewrite app_nil_r. by injection H as <-. }
  cbn [replayHistory] in H. case_if_in H; [done |]. reflect. destruct Hif as [[[Hc _] _] _].
  destruct (ApplyEncoded _ _) as [m'' [err|actual]] eqn:E; [done |]. case_if_in H; [| done].
  apply ApplyEncoded_inv in E as (c & Htext & Hacc & -> & ->); [| done].
  apply blocksEqual_spec in Hif; [subst b | done | done].
  apply IH in H as (cs' & Had' & -> & ->); [| by constructor].
  exists (c :: cs'). rewrite <- app_assoc in *. split; [done |]. split; [done |]. simpl. by rewrite <- ledger_snoc.
Qed.

Lemma checkHistoryBytes_ok n l cs :
  n + history_bytes cs ≤ MaxHistoryBytes → checkHistoryBytes n (blocks_from l cs) = None.
Proof.
  revert n l. induction cs as [|c cs IH]; intros n l H; [done |]. cbn [blocks_from checkHistoryBytes].
  change (contents (BCommand (block_of l c))) with (commandText c). cbn [history_bytes foldr] in H.
  fold (history_bytes cs) in H. pose proof (history_bytes_nonneg cs). case_if; reflect; [lia |]. apply IH. lia.
Qed.

Lemma admissible_history_bytes cs : admissible cs → history_bytes cs ≤ MaxHistoryBytes.
Proof. intros [|cs' c _ (_ & _ & _ & H & _)]; [done | exact H]. Qed.

Lemma admissible_state_bytes cs : admissible cs → kv_bytes (l_state (ledger_of cs)) ≤ MaxStateBytes.
Proof. intros [|cs' c _ (_ & _ & _ & _ & H)]; [done | exact H]. Qed.

Lemma admissible_state cs k v :
  admissible cs → l_state (ledger_of cs) !! k = Some v → 0 < zlen k ≤ MaxKeyBytes ∧ zlen v ≤ MaxValueBytes.
Proof.
  intros Had. induction Had as [|cs c Had IH (((Hid & Hk & Hv & Hop) & _) & _)]; [change ((∅ : gmap bytes bytes) !! k = Some v → 0 < zlen k ≤ MaxKeyBytes ∧ zlen v ≤ MaxValueBytes); by rewrite lookup_empty |].
  rewrite ledger_snoc. cbn [extend l_state]. unfold nextState. intros H.
  case_if_in H; [| case_if_in H; [| by apply IH]].
  - destruct (decide (k = CKey c)) as [-> | Hne]; [rewrite lookup_insert_eq in H; by injection H as <- |].
    rewrite lookup_insert_ne in H by done. by apply IH.
  - apply lookup_delete_Some in H as [_ H]. by apply IH.
Qed.

(** ** The state pairs of a checkpoint *)

Definition pair_of (kv : bytes * bytes) : Pair := mkPair (Some kv.1) (Some kv.2).
Definition pkey (p : Pair) : bytes := contents (PKey p).
Definition statePairs (st : gmap bytes bytes) : list Pair := merge_sort pair_le (map pair_of (map_to_list st)).

Definition pairs_bytes (l : list Pair) : Z := foldr (λ p acc, zlen (pkey p) + zlen (contents (PValue p)) + acc) 0 l.
Definition pair_lt (p q : Pair) : Prop := bytes_compare (pkey p) (pkey q) = Lt.
Definition pair_ok (p : Pair) : Prop :=
  PKey p ≠ None ∧ PValue p ≠ None ∧ 0 < zlen (pkey p) ≤ MaxKeyBytes ∧ zlen (contents (PValue p)) ≤ MaxValueBytes.

#[export] Instance pair_le_total : Total pair_le.
Proof. intros p q. apply (total bytes_le). Qed.
#[export] Instance pair_le_trans : Transitive pair_le.
Proof. intros p q r. apply (transitivity (R := bytes_le)). Qed.

Lemma pairs_bytes_perm l k : l ≡ₚ k → pairs_bytes l = pairs_bytes k.
Proof. induction 1; simpl; lia. Qed.

Lemma statePairs_perm st : statePairs st ≡ₚ map pair_of (map_to_list st).
Proof. apply merge_sort_Permutation. Qed.

Lemma statePairs_bytes st : pairs_bytes (statePairs st) = kv_bytes st.
Proof.
  rewrite (pairs_bytes_perm _ _ (statePairs_perm st)). unfold kv_bytes. rewrite map_fold_foldr.
  induction (map_to_list st) as [|[k v] l IH]; [done |]. simpl. by rewrite IH.
Qed.

Lemma statePairs_keys st : NoDup (map pkey (statePairs st)).
Proof.
  rewrite statePairs_perm, map_map. apply (NoDup_fst_map_to_list st).
Qed.

Lemma strictly_sorted l : NoDup (map pkey l) → StronglySorted pair_le l → StronglySorted pair_lt l.
Proof.
  intros Hnd Hs. induction Hs as [|p l Hs IH Hf]; [constructor |]. simpl in Hnd. apply NoDup_cons in Hnd as [Hp Hnd].
  constructor; [by apply IH |]. rewrite Forall_forall in *. intros q Hq. specialize (Hf q Hq).
  unfold pair_le, bytes_le in Hf. unfold pair_lt. fold (pkey p) (pkey q) in Hf.
  destruct (bytes_compare (pkey p) (pkey q)) eqn:E; [| done | done].
  apply bytes_compare_eq in E. destruct Hp. rewrite E. by apply list_elem_of_fmap_2.
Qed.

Lemma statePairs_sorted st : StronglySorted pair_lt (statePairs st).
Proof. apply strictly_sorted; [apply statePairs_keys |]. apply StronglySorted_merge_sort; apply _. Qed.

Lemma statePairs_ok cs : admissible cs → Forall pair_ok (statePairs (l_state (ledger_of cs))).
Proof.
  intros Had. rewrite statePairs_perm. apply Forall_forall. intros p Hp.
  apply list_elem_of_fmap in Hp as ([k v] & -> & Hkv). apply elem_of_map_to_list in Hkv.
  by apply admissible_state in Hkv.
Qed.

Lemma checkPairs_ok l previous n :
  Forall pair_ok l → StronglySorted pair_lt l →
  (∀ p, previous = Some p → Forall (λ q, bytes_compare p (pkey q) = Lt) l) →
  n + pairs_bytes l ≤ MaxStateBytes → checkPairs previous n l = None.
Proof.
  revert previous n. induction l as [|p l IH]; intros previous n Hok Hs Hprev Hn; [done |]. cbn [checkPairs].
  apply Forall_cons in Hok as [(Hk & Hv & Hkey & Hval) Hok].
  inversion Hs as [|? ? Hs' Hf]; subst. cbn [pairs_bytes foldr] in Hn. fold (pairs_bytes l) in Hn. fold (pkey p).
  assert (0 ≤ pairs_bytes l).
  { clear. induction l as [|q l IH]; [done |]. simpl. pose proof (zlen_nonneg (pkey q)).
    pose proof (zlen_nonneg (contents (PValue q))). lia. }
  case_if; [exfalso | case_if; reflect; [lia |]].
  - reflect. destruct Hif as [[[[[H1|H1]|H1]|H1]|H1]|H1]; try lia; try done.
    destruct previous as [q|]; [| done]. reflect. specialize (Hprev q eq_refl). by apply Forall_cons in Hprev as [].
  - apply IH; [done | done | | lia]. intros q [= <-]. exact Hf.
Qed.

Lemma checkPairs_inv l previous n :
  checkPairs previous n l = None → Forall (λ p, PKey p ≠ None ∧ PValue p ≠ None) l.
Proof.
  revert previous n. induction l as [|p l IH]; intros previous n H; [constructor |]. cbn [checkPairs] in H.
  case_if_in H; [done |]. case_if_in H; [done |]. constructor; [| by eapply IH].
  reflect. destruct Hif as [[[[[H1 H2] H3] H4] H5] H6]. done.
Qed.

Lemma pairsEqual_spec l k :
  Forall (λ p, PKey p ≠ None ∧ PValue p ≠ None) l → Forall (λ p, PKey p ≠ None ∧ PValue p ≠ None) k →
  pairsEqual l k = true ↔ l = k.
Proof.
  intros Hl. revert k. induction Hl as [|p l [Hp1 Hp2] Hl IH]; intros [|q k] Hk; try done.
  apply Forall_cons in Hk as [[Hq1 Hq2] Hk]. cbn [pairsEqual]. reflect. rewrite IH by done.
  destruct p as [[pk|] [pv|]], q as [[qk|] [qv|]]; try done. simpl.
  split; [by intros [[-> ->] ->] | by intros [= -> -> ->]].
Qed.

(** ** Restore *)

Lemma Checkpoint_of cs :
  Checkpoint_ (machine_of cs) =
  mkCheckpoint CheckpointSchema (wrap64 (zlen cs)) (hex_string (l_head (ledger_of cs)))
    (hex_string (digestState (l_state (ledger_of cs)))) (Some (statePairs (l_state (ledger_of cs))))
    (Some (l_blocks (ledger_of cs))).
Proof.
  unfold Checkpoint_. cbv zeta. rewrite cloneBlocks_of. unfold Commitment_. cbn [CmCommands CmChainDigest CmStateDigest].
  cbn [machine_of history state chainDigest]. rewrite zlen_blocks. done.
Qed.

Lemma head_digest cs : validDigest (hex_string (l_head (ledger_of cs))) = true.
Proof.
  induction cs as [|c cs _] using rev_ind; [apply validDigest_Sum256 |].
  rewrite ledger_snoc. cbn [extend l_head]. apply validDigest_Sum256.
Qed.

(** The checkpoint of a machine restores to it. *)
Lemma Restore_Checkpoint cs : admissible cs → Restore (Checkpoint_ (machine_of cs)) = inr (machine_of cs).
Proof.
  intros Had. rewrite Checkpoint_of. unfold Restore.
  cbn [CkState CkHistory CkSchema CkCommands CkChainDigest CkStateDigest].
  rewrite zlen_blocks, Z.eqb_refl, head_digest, String.eqb_refl. unfold digestState at 1.
  rewrite validDigest_Sum256. cbn [negb orb].
  pose proof (admissible_length cs Had). rewrite (proj2 (Z.ltb_ge _ _)) by lia.
  rewrite checkPairs_ok;
    [| by apply statePairs_ok | apply statePairs_sorted | done | rewrite statePairs_bytes; by apply admissible_state_bytes].
  rewrite blocks_of, checkHistoryBytes_ok by (by apply admissible_history_bytes).
  rewrite <- machine_of_nil.
  rewrite (replayHistory_blocks [] cs Had), Checkpoint_of. cbn [app]. unfold Commitment_.
  cbn [CmCommands CmChainDigest CmStateDigest machine_of history state chainDigest].
  rewrite zlen_blocks, Z.eqb_refl, !String.eqb_refl. cbn [negb orb CkState default from_option].
  assert (Hsome : Forall (λ p, PKey p ≠ None ∧ PValue p ≠ None) (statePairs (l_state (ledger_of cs)))).
  { eapply Forall_impl; [by apply statePairs_ok |]. by intros p (? & ? & _). }
  change (id ?l) with l. by rewrite (proj2 (pairsEqual_spec _ _ Hsome Hsome)).
Qed.

(** What [Restore] accepts is a checkpoint of what it returns. *)
Lemma Restore_inv checkpoint m :
  Restore checkpoint = inr m → ∃ cs, admissible cs ∧ m = machine_of cs ∧ checkpoint = Checkpoint_ m.
Proof.
  destruct checkpoint as [schema commands cd sd [pairs|] [blocks|]]; try done. unfold Restore.
  cbn [CkState CkHistory CkSchema CkCommands CkChainDigest CkStateDigest]. intros H.
  case_if_in H; [done |]. reflect. destruct Hif as [[[-> _] _] _]. case_if_in H; [done |].
  destruct (checkPairs None 0 pairs) eqn:Hpairs; [done |]. destruct (checkHistoryBytes 0 blocks); [done |].
  destruct (replayHistory (Some New) blocks) as [|[machine|]] eqn:Hreplay; try done.
  rewrite <- machine_of_nil in Hreplay.
  apply (replayHistory_inv blocks []) in Hreplay as (cs' & Had & [= ->] & ->); [| constructor].
  case_if_in H; [done |]. case_if_in H; [done |]. reflect. injection H as <-. exists cs'. split; [done |]. split; [done |].
  destruct Hif0 as [[Hn Hcd] Hsd]. apply checkPairs_inv in Hpairs.
  rewrite Checkpoint_of in *. cbn [CkState default from_option] in Hif1.
  unfold Commitment_ in *. cbn [CmCommands CmChainDigest CmStateDigest machine_of history state chainDigest] in *.
  rewrite zlen_blocks in Hn. subst commands cd sd. rewrite blocks_of. f_equal. f_equal. symmetry.
  apply pairsEqual_spec; [| done | done]. eapply Forall_impl; [by apply statePairs_ok |]. by intros p (? & ? & _).
Qed.

(** C15.  [Restore] is the inverse of [Checkpoint]: the checkpoint of a machine restores to
    that machine, and everything it accepts is the checkpoint of the machine it returns,
    which some admissible list of commands builds; [Clone] gives the same machine. *)
Theorem restore_exact (cs : list Command) (checkpoint : Checkpoint) (m : Machine) :
  (admissible cs → Restore (Checkpoint_ (machine_of cs)) = inr (machine_of cs) ∧
                   Clone (Some (machine_of cs)) = inr (machine_of cs)) ∧
  (Restore checkpoint = inr m →
     ∃ cs', admissible cs' ∧ m = machine_of cs' ∧ checkpoint = Checkpoint_ m).
Proof. split; [| apply Restore_inv]. intros Had. split; [by apply Restore_Checkpoint | apply Clone_id]. Qed.

(** ** Replaying applied entries *)

Definition is_command (e : Entry) : Prop := Type_ e = EntryCommand.
#[export] Instance is_command_dec e : Decision (is_command e) := decide (Type_ e = EntryCommand).
Definition known_type (e : Entry) : Prop := entry_type_unknown (Type_ e) = false.

(** The commands that some entries carry, as texts. *)
Definition payloads (es : list Entry) : list bytes := map Data (filter is_command es).

Lemma replayLoop_spec cs acc es m bs :
  admissible cs →
  replayLoop (Some (machine_of cs)) acc es = inr (m, bs) ↔
  ∃ cs', admissible (cs ++ cs') ∧ Forall known_type es ∧ payloads es = map commandText cs' ∧
    m = Some (machine_of (cs ++ cs')) ∧ bs = acc ++ blocks_from (ledger_of cs) cs'.
Proof.
  revert cs acc. induction es as [|e es IH]; intros cs acc Had; cbn [replayLoop].
  { split.
    - intros [= <- <-]. exists []. rewrite !app_nil_r. repeat split; [done | constructor].
    - intros (cs' & _ & _ & Hp & -> & ->). destruct cs'; [| done]. simpl. by rewrite !app_nil_r. }
  unfold payloads. rewrite filter_cons. destruct (Type_ e) eqn:Ht.
  1,3,4: rewrite IH by done; rewrite decide_False by (unfold is_command; congruence);
    split; intros (cs' & ? & Hk & ?); exists cs'; (split; [done |]); split; try done;
    [constructor; [unfold known_type; by rewrite Ht | done] | by apply Forall_cons in Hk as []].
  - rewrite decide_True by done. destruct (ApplyEncoded _ _) as [m' [err|b]] eqn:E.
    + split; [done |]. intros (cs' & Hadm & _ & Hp & _). destruct cs' as [|c cs']; [done |].
      cbn [map] in Hp. injection Hp as Hd _. apply admissible_cons in Hadm as (_ & Hacc & _).
      by rewrite Hd, ApplyEncoded_accepts in E.
    + apply ApplyEncoded_inv in E as (c & Hd & Hacc & -> & ->); [| done].
      rewrite IH by (by constructor). rewrite ledger_snoc. cbn [map].
      split.
      * intros (cs' & Hadm & Hk & Hp & -> & ->). exists (c :: cs'). rewrite <- app_assoc in *.
        repeat split; [done | constructor; [unfold known_type; by rewrite Ht | done] | | by rewrite <- app_assoc].
        cbn [map]. unfold payloads in Hp. congruence.
      * intros (cs' & Hadm & Hk & Hp & -> & ->). destruct cs' as [|c' cs']; [done |]. cbn [map] in Hp.
        injection Hp as Hd' Hp. pose proof (admissible_cons _ _ _ Hadm) as (_ & (Hok' & _) & _).
        destruct Hacc as (Hok & _). assert (c = c') as <-.
        { rewrite Hd in Hd'. apply decode_text in Hok, Hok'. congruence. }
        exists cs'. rewrite <- !app_assoc. apply Forall_cons in Hk as [_ Hk]. repeat split; done.
  - split; [done |]. intros (cs' & _ & Hk & _). apply Forall_cons in Hk as [Hk _]. unfold known_type in Hk. by rewrite Ht in Hk.
Qed.

Lemma ReplayEntries_spec cs es cm bs :
  admissible cs →
  ReplayEntries (Some (Checkpoint_ (machine_of cs))) es = inr (cm, bs) ↔
  ∃ cs', admissible (cs ++ cs') ∧ Forall known_type es ∧ payloads es = map commandText cs' ∧
    cm = Commitment_ (machine_of (cs ++ cs')) ∧ bs = blocks_from (ledger_of cs) cs'.
Proof.
  intros Had. unfold ReplayEntries. rewrite Restore_Checkpoint by done. split.
  - destruct (replayLoop _ [] es) as [err|[m' bs']] eqn:E; [done |].
    apply replayLoop_spec in E as (cs' & Hadm & Hk & Hp & -> & ->); [| done]. intros [= <- <-]. eauto 10.
  - intros (cs' & Hadm & Hk & Hp & -> & ->).
    assert (E : replayLoop (Some (machine_of cs)) [] es = inr (Some (machine_of (cs ++ cs')), blocks_from (ledger_of cs) cs'))
      by (apply replayLoop_spec; eauto 10). by rewrite E.
Qed.

Lemma admissible_ok cs cs' : admissible (cs ++ cs') → Forall command_ok cs'.
Proof.
  revert cs. induction cs' as [|c cs' IH]; intros cs H; [constructor |].
  apply admissible_cons in H as (_ & (Hok & _) & H). constructor; [done | by eapply IH].
Qed.

Lemma texts_inj l k : Forall command_ok l → Forall command_ok k → map commandText l = map commandText k → l = k.
Proof.
  intros Hl. revert k. induction Hl as [|c l Hc Hl IH]; intros [|d k] Hk E; try done.
  apply Forall_cons in Hk as [Hd Hk]. cbn [map] in E. apply (inj2 cons) in E as [Ec E]. f_equal; [| by apply IH].
  apply decode_text in Hc, Hd. congruence.
Qed.

Lemma payloads_app es es' : payloads (es ++ es') = payloads es ++ payloads es'.
Proof. unfold payloads. by rewrite filter_app, map_app. Qed.

Lemma blocks_from_split l cs cs' : blocks_from l (cs ++ cs') = blocks_from l cs ++ blocks_from (foldl extend l cs) cs'.
Proof. revert l. induction cs as [|c cs IH]; intros l; [done |]. simpl. by rewrite IH. Qed.

(** [ReplayEntries] reads an applied log as its command entries: it succeeds exactly
    when every entry has a known type and the payloads extend the checkpoint's commands
    admissibly, and returns the commitment and the blocks of that extension; no-ops and
    configuration entries do not matter, and a log replayed in two parts, the second
    from the checkpoint of the first, gives what the whole log gives. *)
Theorem replay_reads_commands (cs : list Command) (es : list Entry) (cm : Commitment) (bs : list Block) :
  admissible cs →
  let base := Checkpoint_ (machine_of cs) in
  (ReplayEntries (Some base) es = inr (cm, bs) ↔
   ∃ cs', admissible (cs ++ cs') ∧ Forall known_type es ∧ payloads es = map commandText cs' ∧
     cm = Commitment_ (machine_of (cs ++ cs')) ∧ bs = blocks_from (ledger_of cs) cs') ∧
  (Forall known_type es → ReplayEntries (Some base) es = inr (cm, bs) ↔
     ReplayEntries (Some base) (filter is_command es) = inr (cm, bs)) ∧
  ReplayEntries None es = ReplayEntries (Some (Checkpoint_ New)) es ∧
  (∀ es' cm', ReplayEntries (Some base) es = inr (cm, bs) →
     ∃ cs', cm = Commitment_ (machine_of (cs ++ cs')) ∧ admissible (cs ++ cs') ∧
       ∀ bs', ReplayEntries (Some (Checkpoint_ (machine_of (cs ++ cs')))) es' = inr (cm', bs') ↔
              ReplayEntries (Some base) (es ++ es') = inr (cm', bs ++ bs')).
Proof.
  intros Had base. unfold base. split; [by apply ReplayEntries_spec |]. split; [| split].
  - intros Hk. rewrite !ReplayEntries_spec by done. unfold payloads. rewrite list_filter_filter_l by done.
    assert (Hk' : Forall known_type (filter is_command es)) by (apply Forall_forall; intros e He;
      apply list_elem_of_filter in He as [_ He]; by eapply Forall_forall in Hk).
    split; intros (cs' & ? & _ & ?); exists cs'; tauto.
  - unfold ReplayEntries. rewrite <- machine_of_nil, Restore_Checkpoint by constructor. done.
  - intros es' cm' H. apply ReplayEntries_spec in H as (cs1 & Had1 & Hk1 & Hp1 & -> & ->); [| done].
    exists cs1. split; [done |]. split; [done |]. intros bs'. rewrite !ReplayEntries_spec by done.
    setoid_rewrite payloads_app. setoid_rewrite Forall_app. rewrite Hp1.
    split.
    + intros (cs2 & Had2 & Hk2 & Hp2 & -> & ->). exists (cs1 ++ cs2). rewrite (app_assoc cs cs1 cs2).
      rewrite map_app, Hp2, blocks_from_split. repeat split; try done. unfold ledger_of. by rewrite foldl_app.
    + intros (cs' & Had2 & [_ Hk2] & Hp2 & -> & Hb).
      assert (∃ cs2, cs' = cs1 ++ cs2 ∧ payloads es' = map commandText cs2) as (cs2 & -> & Hp3).
      { symmetry in Hp2. apply map_eq_app in Hp2 as (l1 & l2 & -> & Hl1 & Hl2).
        exists l2. split; [| by symmetry]. f_equal. apply texts_inj; [| | done].
        - rewrite app_assoc in Had2. apply admissible_prefix in Had2. by eapply admissible_ok.
        - by eapply admissible_ok. }
      exists cs2. rewrite <- (app_assoc cs cs1 cs2). repeat split; try done. rewrite blocks_from_split in Hb.
      apply app_inv_head in Hb. rewrite Hb. unfold ledger_of. by rewrite foldl_app.
Qed.

(** ** The binding of commitments *)

Lemma chainText_inj p1 n1 c1 s1 p2 n2 c2 s2 :
  zlen p1 = 32 → zlen p2 = 32 → is_u64 n1 → is_u64 n2 →
  zlen c1 ≤ MaxCommandBytes → zlen c2 ≤ MaxCommandBytes →
  chainText p1 n1 c1 s1 = chainText p2 n2 c2 s2 → p1 = p2 ∧ n1 = n2 ∧ c1 = c2 ∧ s1 = s2.
Proof.
  unfold chainText, is_u64, MaxCommandBytes. intros Hp1 Hp2 Hn1 Hn2 Hc1 Hc2 H.
  pose proof (zlen_nonneg c1). pose proof (zlen_nonneg c2).
  apply app_inv_head in H. apply app_inv_head in H.
  apply app_inj_1 in H as [-> H]; [| unfold zlen in *; lia].
  apply app_inj_1 in H as [En H]; [| by rewrite !be_bytes_length].
  apply be_bytes_inj in En; [| simpl; lia ..].
  apply app_inj_1 in H as [Ec H]; [| by rewrite !be_bytes_length].
  apply be_bytes_inj in Ec; [| simpl; lia ..].
  apply app_inj_1 in H as [-> ->]; [| unfold zlen in *; lia]. done.
Qed.

Lemma head_length cs : zlen (l_head (ledger_of cs)) = 32.
Proof. induction cs as [|c cs _] using rev_ind; [apply Sum256_length |]. rewrite ledger_snoc. apply Sum256_length. Qed.

Lemma genesis_text p n c s : str ChainSchema ++ [x00] ≠ chainText p n c s.
Proof.
  intros H. apply (f_equal zlen) in H. unfold chainText in H. rewrite !zlen_app in H.
  unfold zlen in H. rewrite be_bytes_length in H. lia.
Qed.

(** Equal heads: equal commands, or a collision. *)
Lemma head_binding cs cs' :
  admissible cs → admissible cs' → l_head (ledger_of cs) = l_head (ledger_of cs') → cs = cs' ∨ collision.
Proof.
  revert cs'. induction cs as [|c cs IH] using rev_ind; intros cs' Had Had' H.
  - destruct cs' as [|c' cs' _] using rev_ind; [by left |]. rewrite ledger_snoc in H.
    apply Sum256_binding in H as [H|]; [by apply genesis_text in H | by right].
  - destruct cs' as [|c' cs' _] using rev_ind; rewrite !ledger_snoc in H.
    + symmetry in H. apply Sum256_binding in H as [H|]; [by apply genesis_text in H | by right].
    + cbn [extend l_head] in H. apply Sum256_binding in H as [H|]; [| by right].
      apply admissible_snoc_inv in Had as [Had (Hok & _ & Hlen & _)], Had' as [Had' (Hok' & _ & Hlen' & _)].
      pose proof (zlen_nonneg cs). pose proof (zlen_nonneg cs'). unfold MaxCommands in *.
      apply chainText_inj in H as (Hhead & _ & Htext & _);
        [| apply head_length | apply head_length | rewrite zlen_blocks; unfold is_u64; lia
         | rewrite zlen_blocks; unfold is_u64; lia | apply Hok | apply Hok'].
      destruct (IH cs' Had Had' Hhead) as [-> |]; [left | by right]. f_equal.
      apply decode_text in Hok, Hok'. f_equal. congruence.
Qed.

(** A commitment binds the commands: two machines with the same commitment (or only
    the same chain digest) have executed the same commands in the same order, unless
    their texts exhibit a collision of SHA-256. *)
Theorem commitment_binding (cs cs' : list Command) :
  admissible cs → admissible cs' →
  CmChainDigest (Commitment_ (machine_of cs)) = CmChainDigest (Commitment_ (machine_of cs')) →
  (cs = cs' ∧ machine_of cs = machine_of cs') ∨ collision.
Proof.
  intros Had Had' H. unfold Commitment_ in H. cbn [CmChainDigest machine_of chainDigest] in H.
  apply hex_string_inj in H. destruct (head_binding cs cs' Had Had' H) as [-> |]; [by left | by right].
Qed.

(** ** The known answers of the source's tests, and witnesses *)

Definition demo_id (start : Z) : bytes := map (λ i, byte_of (start + Z.of_nat i)) (seq 0 16).
Definition demo_put : Command := mkCommand (demo_id 0) Put (str "x") (str "1").
Definition demo_del : Command := mkCommand (demo_id 16) Delete (str "x") [].
Definition demo_text : bytes := match EncodeCommand demo_put with inr t => t | inl _ => [] end.

Example demo_empty_commitment :
  Commitment_ New =
  mkCommitment CommitmentSchema 0 "1b62430e166c36ce68764959cd66890a6d2b2be80f1c1555ce851f7825b795b3"
    "e35da1bb3c855311c69833cbc8a3f5ce35755e92133ca240816f1bb2211921bf".
Proof. vm_compute. reflexivity. Qed.

Example demo_put_text : hex_string demo_text = "44524146544b563101000102030405060708090a0b0c0d0e0f00000001000000017831"%string.
Proof. vm_compute. reflexivity. Qed.

Example demo_two_blocks :
  let '(m, first) := Apply (Some New) demo_put in
  let '(m, second) := Apply m demo_del in
  (match first with inr b => (BCommandDigest b, BStateDigest b, Digest_ b) | inl _ => ("-", "-", "-")%string end,
   match second with inr b => (Ordinal b, BStateDigest b, Digest_ b) | inl _ => (0, "-", "-")%string end) =
  (("a4af80c9764356340696c115937255fd4157e4900d57859758706e8e79f8d62a",
    "5afa47ab2fcf92ba11bc6cb680aee8049d589f848614af90bbcf34f9bc1b4c00",
    "a7da7c9ae45a7c9560197d4237b1a65d641f128b525dfba6f77c82beb3162ccd"),
   (2, "e35da1bb3c855311c69833cbc8a3f5ce35755e92133ca240816f1bb2211921bf",
    "99433f07551d21672ceba66edffeaac1c3e6aa4a5ba3a3eef5a2a44f7800a855"))%string.
Proof. vm_compute. reflexivity. Qed.

Example demo_parse_ids :
  ParseCommandID "000102030405060708090a0b0c0d0e0f" = inr (demo_id 0) ∧
  map ParseCommandID ["00"; "00000000000000000000000000000000"; "000102030405060708090A0B0C0D0E0F";
                      "zz0102030405060708090a0b0c0d0e0f"]%string = replicate 4 (inl ErrInvalidCommand).
Proof. vm_compute. done. Qed.

(** The empty checkpoint in canonical JSON. *)
Example demo_checkpoint_text :
  EncodeCheckpoint (Checkpoint_ New) =
  inr (encode_object [encode_member "schema" (encode_string "d-raft.kv-checkpoint/v1"); encode_member "commands" (encode_string "0");
    encode_member "chain_digest" (encode_string "1b62430e166c36ce68764959cd66890a6d2b2be80f1c1555ce851f7825b795b3");
    encode_member "state_digest" (encode_string "e35da1bb3c855311c69833cbc8a3f5ce35755e92133ca240816f1bb2211921bf");
    encode_member "state" (str "[]"); encode_member "history" (str "[]")]).
Proof. vm_compute. reflexivity. Qed.

Example demo_base64 : base64 (str "x") = str "eA==" ∧ base64 (str "abcd") = str "YWJjZA==" ∧ base64 (str "1") = str "MQ==".
Proof. vm_compute. done. Qed.

Lemma demo_put_ok : accepts [] demo_put.
Proof. refine (bool_decide_unpack (accepts [] demo_put) _). vm_compute. exact I. Qed.

Lemma demo_admissible : admissible [demo_put].
Proof. apply (admissible_snoc [] demo_put); [constructor | apply demo_put_ok]. Qed.

Lemma command_codec_witness :
  EncodeCommand demo_put = inr demo_text ∧ zlen (CID demo_put) = 16.
Proof.
  pose proof (command_codec demo_put demo_text ltac:(vm_compute; reflexivity)) as [_ H].
  assert (E : DecodeCommand demo_text = inr demo_put) by (vm_compute; reflexivity).
  rewrite E in H. exact H.
Defined.

Lemma apply_encoded_by_cases_witness :
  ∃ d, d ∈ [demo_put] ∧ CID d = demo_id 0 ∧
    ApplyEncoded (Some (machine_of [demo_put])) demo_text =
      (Some (machine_of [demo_put]),
       inl (ErrDuplicateCommand (hex_string (demo_id 0)) (hex_string (Sha256.Sum256 (commandText d))) (hex_string (Sha256.Sum256 demo_text)))).
Proof.
  pose proof (apply_encoded_by_cases [demo_put] demo_text demo_admissible) as H.
  assert (E : DecodeCommand demo_text = inr demo_put) by (vm_compute; reflexivity).
  cbv zeta in H. rewrite E in H. apply H. by left.
Defined.

Lemma restore_exact_witness :
  Restore (Checkpoint_ (machine_of [demo_put])) = inr (machine_of [demo_put]).
Proof. exact (proj1 (proj1 (restore_exact [demo_put] (Checkpoint_ New) New) demo_admissible)). Defined.

Definition demo_entries : list Entry :=
  [mkEntry 1 1 EntryNoop [] emptyMembership; mkEntry 2 1 EntryCommand demo_text emptyMembership].

Lemma replay_reads_commands_witness :
  ReplayEntries (Some (Checkpoint_ (machine_of []))) demo_entries =
    inr (Commitment_ (machine_of [demo_put]), blocks_from (ledger_of []) [demo_put]).
Proof.
  refine (proj2 (proj1 (replay_reads_commands [] demo_entries (Commitment_ (machine_of [demo_put]))
    (blocks_from (ledger_of []) [demo_put]) admissible_nil)) _).
  exists [demo_put]. split; [apply demo_admissible |]. split; [repeat constructor |].
  split; [vm_compute; reflexivity | split; reflexivity].
Defined.

Lemma commitment_binding_witness :
  ([demo_put] = [demo_put] ∧ machine_of [demo_put] = machine_of [demo_put]) ∨ collision.
Proof. apply (commitment_binding [demo_put] [demo_put] demo_admissible demo_admissible). reflexivity. Defined.
