(* ===== verification/Check.v ===== *)
(** * The history-aware safety checker (check/check.go)

    The checker observes durable, applied and volatile state of all nodes at
    transition boundaries, keeps the history that the safety properties of Raft speak
    about, and reports each distinct piece of evidence once.

    Evidence is the value the code gives to [json.Marshal]; its text is a parameter of
    the model, since the model's lists do not tell a nil slice from an empty one and
    Go's encoder does.  What the code relies on is that the text is valid JSON. *)

From S2P Require Export Node Outcome Digest.

#[global] Open Scope Z_scope.

(** ** Schemas and invariants *)

Definition SchemaV1 : string := "d-raft.check/v1".
Definition SchemaV2 : string := "d-raft.check/v2".
Definition SchemaVersion : string := "d-raft.check/v3".
Definition StateSchemaVersion : string := "d-raft.check-state/v1".

Definition ElectionSafety : string := "raft/election-safety".
Definition ElectionCertificate : string := "raft/election-certificate".
Definition DurableTermMonotonic : string := "raft/durable-term-monotonic".
Definition DurableDoubleVote : string := "raft/durable-double-vote".
Definition VolatileDurableMatch : string := "raft/volatile-durable-match".
Definition LogMatching : string := "raft/log-matching".
Definition LeaderCompleteness : string := "raft/leader-completeness".
Definition CommittedConflict : string := "raft/committed-conflict".
Definition CommitMonotonic : string := "raft/commit-monotonic".
Definition AppliedConflict : string := "raft/applied-conflict".
Definition AppliedMonotonic : string := "raft/applied-monotonic".
Definition SnapshotConflict : string := "raft/snapshot-conflict".
Definition MembershipTransition : string := "raft/membership-transition".

(** ** Observations *)

Record NodeObservation := mkNodeObservation {
  ObID : NodeID; Up : bool; ObStatus : option Status_; Durable : PersistentState;
  ObAppliedIndex : Z; Applied : list Entry }.

Record Observation := mkObservation { At : Z; ObMembers : list NodeID; ObNodes : list NodeObservation }.

(** ** Violations *)

Inductive CheckError :=
| ErrIdentityOrEvidence
| ErrNodesNotSorted
| ErrNodesEmptyOrDuplicated
| ErrFingerprintMismatch
| ErrNotDefined (id schema : string).

(** The text that [Fingerprint] hashes, for nodes already sorted and compacted evidence. *)
Definition fingerprintText (id : string) (nodes : list NodeID) (evidence : bytes) : bytes :=
  str id ++ [x00] ++ concat (map (λ node, str node ++ [x00]) nodes) ++ evidence.

Definition Fingerprint (id : string) (nodes : list NodeID) (evidence : bytes) : CheckError + string :=
  if String.eqb id EmptyString || negb (json_valid evidence) then inl ErrIdentityOrEvidence
  else match compact evidence with
       | None => inl ErrIdentityOrEvidence
       | Some canonicalEvidence =>
         inr (hex_string (take 12 (Sha256.Sum256 (fingerprintText id (sort_nodes nodes) canonicalEvidence))))
       end.

(** The loop of [ValidateViolation]: [previous] is the node before this one. *)
Fixpoint nodesOk (previous : option NodeID) (nodes : list NodeID) : bool :=
  match nodes with
  | [] => true
  | node :: nodes =>
    if String.eqb node EmptyString || match previous with Some p => String.eqb node p | None => false end
    then false else nodesOk (Some node) nodes
  end.

Definition ValidateViolation (violation : Violation) : option CheckError :=
  if negb (is_sorted (VNodes violation)) then Some ErrNodesNotSorted
  else if negb (nodesOk None (VNodes violation)) then Some ErrNodesEmptyOrDuplicated
  else match Fingerprint (VID violation) (VNodes violation) (Evidence violation) with
       | inl err => Some err
       | inr fingerprint =>
         if negb (String.eqb fingerprint (VFingerprint violation)) then Some ErrFingerprintMismatch else None
       end.

Definition violationSupported (schema id : string) : bool :=
  if contains [ElectionSafety; ElectionCertificate; DurableTermMonotonic; DurableDoubleVote; VolatileDurableMatch;
               LogMatching; LeaderCompleteness; CommittedConflict; CommitMonotonic; AppliedConflict; AppliedMonotonic] id
  then contains [SchemaV1; SchemaV2; SchemaVersion] schema
  else if String.eqb id SnapshotConflict then contains [SchemaV2; SchemaVersion] schema
  else if String.eqb id MembershipTransition then String.eqb schema SchemaVersion
  else false.

Definition ValidateViolationForSchema (schema : string) (violation : Violation) : option CheckError :=
  match ValidateViolation violation with
  | Some err => Some err
  | None => if negb (violationSupported schema (VID violation)) then Some (ErrNotDefined (VID violation) schema) else None
  end.

(** ** Witnesses, evidence, state *)

Record entryWitness := mkEntryWitness { WNode : NodeID; WEntry : Entry; CommitTerm : Z }.
Record snapshotWitness := mkSnapshotWitness { SWNode : NodeID; SWSnapshot : Snapshot }.

(** One constructor per map the code marshals. *)
Inductive evidence :=
| EvSnapshotMembership (snapshot : Membership)
| EvTransition (index : Z) (before : Membership) (entry : Entry)
| EvEntryMembership (index : Z) (entry : Entry)
| EvMonotonic (previous current : Z)
| EvVotes (term : Z) (first second : NodeID)
| EvStatus (status : Status_) (hard_state : HardState)
| EvEntries (index : Z) (first second : entryWitness)
| EvSnapshots (index : Z) (first second : snapshotWitness)
| EvMatching (matching_index conflicting_index term : Z)
| EvCertificate (term : Z) (votes : list NodeID) (membership : Membership)
| EvCompleteness (term index : Z) (committed : entryWitness).

Record Checker := mkChecker {
  members : list NodeID; initial : Membership; seen : gset string;
  leaders : gmap Z NodeID; votes : gmap NodeID (gmap Z NodeID); durableTerms : gmap NodeID Z;
  commitIndexes : gmap NodeID Z; appliedIndexes : gmap NodeID Z;
  committed : gmap Z entryWitness; applied : gmap Z entryWitness; snapshots : gmap Z snapshotWitness;
  violations : list Violation }.

Definition set_reports (c : Checker) (s : gset string) (v : list Violation) : Checker :=
  mkChecker (members c) (initial c) s (leaders c) (votes c) (durableTerms c) (commitIndexes c) (appliedIndexes c)
    (committed c) (applied c) (snapshots c) v.
Definition set_leaders (c : Checker) x : Checker :=
  mkChecker (members c) (initial c) (seen c) x (votes c) (durableTerms c) (commitIndexes c) (appliedIndexes c)
    (committed c) (applied c) (snapshots c) (violations c).
Definition set_votes (c : Checker) x : Checker :=
  mkChecker (members c) (initial c) (seen c) (leaders c) x (durableTerms c) (commitIndexes c) (appliedIndexes c)
    (committed c) (applied c) (snapshots c) (violations c).
Definition set_durableTerms (c : Checker) x : Checker :=
  mkChecker (members c) (initial c) (seen c) (leaders c) (votes c) x (commitIndexes c) (appliedIndexes c)
    (committed c) (applied c) (snapshots c) (violations c).
Definition set_commitIndexes (c : Checker) x : Checker :=
  mkChecker (members c) (initial c) (seen c) (leaders c) (votes c) (durableTerms c) x (appliedIndexes c)
    (committed c) (applied c) (snapshots c) (violations c).
Definition set_appliedIndexes (c : Checker) x : Checker :=
  mkChecker (members c) (initial c) (seen c) (leaders c) (votes c) (durableTerms c) (commitIndexes c) x
    (committed c) (applied c) (snapshots c) (violations c).
Definition set_committed (c : Checker) x : Checker :=
  mkChecker (members c) (initial c) (seen c) (leaders c) (votes c) (durableTerms c) (commitIndexes c) (appliedIndexes c)
    x (applied c) (snapshots c) (violations c).
Definition set_applied (c : Checker) x : Checker :=
  mkChecker (members c) (initial c) (seen c) (leaders c) (votes c) (durableTerms c) (commitIndexes c) (appliedIndexes c)
    (committed c) x (snapshots c) (violations c).
Definition set_snapshots (c : Checker) x : Checker :=
  mkChecker (members c) (initial c) (seen c) (leaders c) (votes c) (durableTerms c) (commitIndexes c) (appliedIndexes c)
    (committed c) (applied c) x (violations c).

Definition NewWithMembership (nodes : list NodeID) (initial : Membership) : Checker :=
  mkChecker (sort_nodes (slices_Clone nodes)) (CloneMembership initial) ∅ ∅ ∅ ∅ ∅ ∅ ∅ ∅ ∅ [].

Definition New (nodes : list NodeID) : Checker := NewWithMembership nodes (stableMembership nodes []).

(** ** Looking into states *)

Definition entriesEqual (l r : Entry) : bool :=
  (Index l =? Index r) && (Term l =? Term r) && bool_decide (Type_ l = Type_ r) &&
  bool_decide (Data l = Data r) && membershipsEqual (EntryMembership l) (EntryMembership r).

Definition stateLastIndex (state : PersistentState) : Z :=
  let boundary := LastIncludedIndex (Snapshot_ state) in
  if max_u64 - boundary <? zlen (Log state) then max_u64 else boundary + zlen (Log state).

(** [stateEntryAt] and [statusEntryAt] on the boundary and the log they read. *)
Definition entryAt (boundary : Z) (log : list Entry) (index : Z) : option Entry :=
  if index <=? boundary then None
  else let offset := index - boundary - 1 in
       if zlen log <=? offset then None else log !! Z.to_nat offset.

Definition stateEntryAt (state : PersistentState) (index : Z) : option Entry :=
  entryAt (LastIncludedIndex (Snapshot_ state)) (Log state) index.
Definition statusEntryAt (status : Status_) (index : Z) : option Entry :=
  entryAt (LastIncludedIndex (StSnapshot status)) (StLog status) index.

Section Checks.
Context (marshal : evidence → bytes).

(** [add]: the panics are those of an encoder that fails. *)
Definition add (c : Checker) (at_ : Z) (id : string) (nodes : list NodeID) (e : evidence) : go Checker :=
  let canonicalNodes := sort_nodes nodes in
  let raw := marshal e in
  match Fingerprint id canonicalNodes raw with
  | inl _ => Panic
  | inr fingerprint =>
    if bool_decide (fingerprint ∈ seen c) then Done c
    else Done (set_reports c ({[fingerprint]} ∪ seen c)
                 (violations c ++ [mkViolation id at_ canonicalNodes raw fingerprint]))
  end.

(** ** Durable history *)

Definition durableTermStep (c : Checker) (at_ : Z) (node : NodeObservation) : go Checker :=
  let term := CurrentTerm (HardState_ (Durable node)) in
  c ← match durableTerms c !! ObID node with
      | Some previous =>
        if term <? previous then add c at_ DurableTermMonotonic [ObID node] (EvMonotonic previous term) else Done c
      | None => Done c
      end;
  Done (if default 0 (durableTerms c !! ObID node) <? term
        then set_durableTerms c (<[ObID node := term]> (durableTerms c)) else c).

Definition durableVoteStep (c : Checker) (at_ : Z) (node : NodeObservation) : go Checker :=
  let hard := HardState_ (Durable node) in
  if negb (String.eqb (VotedFor hard) EmptyString) then
    let ledger := default ∅ (votes c !! ObID node) in
    let recorded := set_votes c (<[ObID node := <[CurrentTerm hard := VotedFor hard]> ledger]> (votes c)) in
    match ledger !! CurrentTerm hard with
    | Some previous =>
      if negb (String.eqb previous (VotedFor hard))
      then add c at_ DurableDoubleVote [ObID node; previous; VotedFor hard]
             (EvVotes (CurrentTerm hard) previous (VotedFor hard))
      else Done recorded
    | None => Done recorded
    end
  else Done c.

Definition volatileStep (c : Checker) (at_ : Z) (node : NodeObservation) : go Checker :=
  let hard := HardState_ (Durable node) in
  match ObStatus node with
  | Some status =>
    if Up node && negb (StAwaitingPersistence status) then
      if negb (StTerm status =? CurrentTerm hard) || negb (String.eqb (StVotedFor status) (VotedFor hard)) ||
         negb (StCommitIndex status =? CommitIndex hard)
      then add c at_ VolatileDurableMatch [ObID node] (EvStatus status hard)
      else Done c
    else Done c
  | None => Done c
  end.

Definition checkDurableHistory (c : Checker) (at_ : Z) (node : NodeObservation) : go Checker :=
  c ← durableTermStep c at_ node;
  c ← durableVoteStep c at_ node;
  volatileStep c at_ node.

(** ** Committed, applied and snapshot history *)

Definition committedStep (c : Checker) (at_ : Z) (node : NodeObservation) (entry : Entry) : go Checker :=
  match committed c !! Index entry with
  | Some previous =>
    if negb (entriesEqual (WEntry previous) entry)
    then add c at_ CommittedConflict [WNode previous; ObID node]
           (EvEntries (Index entry) previous (mkEntryWitness (ObID node) entry 0))
    else Done c
  | None =>
    Done (set_committed c (<[Index entry :=
            mkEntryWitness (ObID node) (cloneEntry entry) (CurrentTerm (HardState_ (Durable node)))]> (committed c)))
  end.

(** The loop over the log, up to the commit index. *)
Fixpoint committedLoop (c : Checker) (at_ : Z) (node : NodeObservation) (log : list Entry) : go Checker :=
  match log with
  | [] => Done c
  | entry :: log =>
    if CommitIndex (HardState_ (Durable node)) <? Index entry then Done c
    else c ← committedStep c at_ node entry; committedLoop c at_ node log
  end.

Definition commitIndexStep (c : Checker) (at_ : Z) (node : NodeObservation) : go Checker :=
  let commit := CommitIndex (HardState_ (Durable node)) in
  let previous := default 0 (commitIndexes c !! ObID node) in
  c ← (if commit <? previous then add c at_ CommitMonotonic [ObID node] (EvMonotonic previous commit) else Done c);
  Done (if default 0 (commitIndexes c !! ObID node) <? commit
        then set_commitIndexes c (<[ObID node := commit]> (commitIndexes c)) else c).

Definition checkCommittedHistory (c : Checker) (at_ : Z) (node : NodeObservation) : go Checker :=
  c ← commitIndexStep c at_ node;
  committedLoop c at_ node (Log (Durable node)).

Definition appliedStep (c : Checker) (at_ : Z) (node : NodeObservation) (entry : Entry) : go Checker :=
  match applied c !! Index entry with
  | Some previous =>
    if negb (entriesEqual (WEntry previous) entry)
    then add c at_ AppliedConflict [WNode previous; ObID node]
           (EvEntries (Index entry) previous (mkEntryWitness (ObID node) entry 0))
    else Done c
  | None => Done (set_applied c (<[Index entry := mkEntryWitness (ObID node) (cloneEntry entry) 0]> (applied c)))
  end.

Fixpoint appliedLoop (c : Checker) (at_ : Z) (node : NodeObservation) (entries : list Entry) : go Checker :=
  match entries with
  | [] => Done c
  | entry :: entries => c ← appliedStep c at_ node entry; appliedLoop c at_ node entries
  end.

Definition appliedIndexStep (c : Checker) (at_ : Z) (node : NodeObservation) : go Checker :=
  let previous := default 0 (appliedIndexes c !! ObID node) in
  c ← (if ObAppliedIndex node <? previous
       then add c at_ AppliedMonotonic [ObID node] (EvMonotonic previous (ObAppliedIndex node)) else Done c);
  Done (if default 0 (appliedIndexes c !! ObID node) <? ObAppliedIndex node
        then set_appliedIndexes c (<[ObID node := ObAppliedIndex node]> (appliedIndexes c)) else c).

Definition checkAppliedHistory (c : Checker) (at_ : Z) (node : NodeObservation) : go Checker :=
  c ← appliedIndexStep c at_ node;
  appliedLoop c at_ node (Applied node).

Definition checkSnapshotHistory (c : Checker) (at_ : Z) (node : NodeObservation) : go Checker :=
  let snapshot := Snapshot_ (Durable node) in
  if LastIncludedIndex snapshot =? 0 then Done c
  else match snapshots c !! LastIncludedIndex snapshot with
       | Some previous =>
         let p := SWSnapshot previous in
         if negb (LastIncludedTerm p =? LastIncludedTerm snapshot) ||
            negb (nodes_equal (SnapMembers p) (SnapMembers snapshot)) ||
            negb (bool_decide (SnapData p = SnapData snapshot)) ||
            negb (membershipsEqual (SnapMembership p) (SnapMembership snapshot))
         then add c at_ SnapshotConflict [SWNode previous; ObID node]
                (EvSnapshots (LastIncludedIndex snapshot) previous (mkSnapshotWitness (ObID node) (cloneSnapshot snapshot)))
         else Done c
       | None =>
         Done (set_snapshots c (<[LastIncludedIndex snapshot :=
                 mkSnapshotWitness (ObID node) (cloneSnapshot snapshot)]> (snapshots c)))
       end.

(** ** Membership history *)

Fixpoint membershipLoop (c : Checker) (at_ : Z) (node : NodeObservation) (membership : Membership) (log : list Entry)
    : go Checker :=
  match log with
  | [] => Done c
  | entry :: log =>
    let m := EntryMembership entry in
    match Type_ entry with
    | EntryConfigJoint =>
      if negb (length (Data entry) =? 0)%nat || Joint membership || negb (Joint m) ||
         negb (ValidateMembership m (members c)) || negb (nodes_equal (VotersOutgoing m) (Voters membership)) ||
         negb (nodes_equal (Learners m) (expectedLearners (LearnersNext m) (VotersOutgoing m)))
      then add c at_ MembershipTransition [ObID node] (EvTransition (Index entry) membership entry)
      else membershipLoop c at_ node (CloneMembership m) log
    | EntryConfigFinal =>
      if negb (length (Data entry) =? 0)%nat || negb (Joint membership) || Joint m ||
         negb (ValidateMembership m (members c)) || negb (nodes_equal (Voters m) (Voters membership)) ||
         negb (nodes_equal (Learners m) (LearnersNext membership))
      then add c at_ MembershipTransition [ObID node] (EvTransition (Index entry) membership entry)
      else membershipLoop c at_ node (CloneMembership m) log
    | _ =>
      if negb (membershipsEqual m emptyMembership)
      then add c at_ MembershipTransition [ObID node] (EvEntryMembership (Index entry) entry)
      else membershipLoop c at_ node membership log
    end
  end.

Definition checkMembershipHistory (c : Checker) (at_ : Z) (node : NodeObservation) : go Checker :=
  let snapshot := Snapshot_ (Durable node) in
  if (0 <? LastIncludedIndex snapshot) && negb (membershipsEqual (SnapMembership snapshot) emptyMembership) then
    if negb (ValidateMembership (SnapMembership snapshot) (members c))
    then add c at_ MembershipTransition [ObID node] (EvSnapshotMembership (SnapMembership snapshot))
    else membershipLoop c at_ node (CloneMembership (SnapMembership snapshot)) (Log (Durable node))
  else membershipLoop c at_ node (CloneMembership (initial c)) (Log (Durable node)).

(** ** Log matching *)

(** The first index at which the logs differ, once [index] was looked at. *)
Definition nextConflict (left right : NodeObservation) (index : Z) (conflict : option Z) : option Z :=
  match conflict with
  | Some first => Some first
  | None => match stateEntryAt (Durable left) index, stateEntryAt (Durable right) index with
            | Some l, Some r => if entriesEqual l r then None else Some index
            | _, _ => Some index
            end
  end.

Definition matchStep (c : Checker) (at_ : Z) (left right : NodeObservation) (index : Z) (conflict : option Z) : go Checker :=
  match conflict, stateEntryAt (Durable left) index, stateEntryAt (Durable right) index with
  | Some firstConflict, Some l, Some r =>
    if Term l =? Term r
    then add c at_ LogMatching [ObID left; ObID right] (EvMatching index firstConflict (Term l))
    else Done c
  | _, _, _ => Done c
  end.

(** The loop over the indices from [index]; [k] of them follow. *)
Fixpoint matchLoop (k : nat) (c : Checker) (at_ : Z) (left right : NodeObservation) (index : Z)
    (conflict : option Z) : go Checker :=
  let conflict := nextConflict left right index conflict in
  c ← matchStep c at_ left right index conflict;
  match k with
  | O => Done c
  | S k => matchLoop k c at_ left right (index + 1) conflict
  end.

Definition checkPair (c : Checker) (at_ : Z) (left right : NodeObservation) : go Checker :=
  let boundary := Z.max (LastIncludedIndex (Snapshot_ (Durable left))) (LastIncludedIndex (Snapshot_ (Durable right))) in
  if boundary =? max_u64 then Done c
  else
    let start := boundary + 1 in
    let limit := Z.min (stateLastIndex (Durable left)) (stateLastIndex (Durable right)) in
    if limit <? start then Done c
    else matchLoop (Z.to_nat (limit - start)) c at_ left right start None.

Fixpoint pairsLoop (c : Checker) (at_ : Z) (left : NodeObservation) (rights : list NodeObservation) : go Checker :=
  match rights with
  | [] => Done c
  | other :: rights => c ← checkPair c at_ left other; pairsLoop c at_ left rights
  end.

Fixpoint checkLogs (c : Checker) (at_ : Z) (nodes : list NodeObservation) : go Checker :=
  match nodes with
  | [] => Done c
  | first :: nodes => c ← pairsLoop c at_ first nodes; checkLogs c at_ nodes
  end.

(** ** Leaders *)

(** The members whose vote in the leader's term went to it; a missing vote reads as the empty name. *)
Definition certified (c : Checker) (term : Z) (node : NodeID) : list NodeID :=
  filter (λ voter, default EmptyString (votes c !! voter ≫= λ ledger, ledger !! term) = node) (members c).

(** The committed indices a leader of this term must hold. *)
Definition committedIndexes (c : Checker) (status : Status_) : list Z :=
  merge_sort Z.le
    (map fst (filter (λ kw : Z * entryWitness, CommitTerm kw.2 ≤ StTerm status ∧
                                                LastIncludedIndex (StSnapshot status) < kw.1)
       (map_to_list (committed c)))).

Definition completenessStep (c : Checker) (at_ : Z) (id : NodeID) (status : Status_) (index : Z) : go Checker :=
  match committed c !! index with
  | None => Done c
  | Some w =>
    if match statusEntryAt status index with
       | None => true
       | Some entry => negb (entriesEqual entry (WEntry w))
       end
    then add c at_ LeaderCompleteness [id; WNode w] (EvCompleteness (StTerm status) index w)
    else Done c
  end.

Fixpoint completenessLoop (c : Checker) (at_ : Z) (id : NodeID) (status : Status_) (indexes : list Z) : go Checker :=
  match indexes with
  | [] => Done c
  | index :: indexes => c ← completenessStep c at_ id status index; completenessLoop c at_ id status indexes
  end.

Definition leaderStep (c : Checker) (at_ : Z) (id : NodeID) (term : Z) : go Checker :=
  let recorded := set_leaders c (<[term := id]> (leaders c)) in
  match leaders c !! term with
  | Some previous =>
    if negb (String.eqb previous id)
    then add c at_ ElectionSafety [previous; id] (EvVotes term previous id)
    else Done recorded
  | None => Done recorded
  end.

(** The configuration an election is checked against. *)
Definition electionMembership (c : Checker) (status : Status_) : Membership :=
  if (length (Voters (StElectionMembership status)) =? 0)%nat then CloneMembership (initial c)
  else StElectionMembership status.

Definition certificateStep (c : Checker) (at_ : Z) (id : NodeID) (status : Status_) : go Checker :=
  let votes := certified c (StTerm status) id in
  let membership := electionMembership c status in
  if negb (ValidateMembership membership (members c)) || negb (HasQuorum membership votes)
  then add c at_ ElectionCertificate [id] (EvCertificate (StTerm status) votes membership)
  else Done c.

Definition checkLeader (c : Checker) (at_ : Z) (id : NodeID) (status : Status_) : go Checker :=
  c ← leaderStep c at_ id (StTerm status);
  c ← certificateStep c at_ id status;
  completenessLoop c at_ id status (committedIndexes c status).

(** ** Observe *)

Definition observation_le (left right : NodeObservation) : Prop := String.le (ObID left) (ObID right).
#[export] Instance observation_le_dec : RelDecision observation_le := λ l r, decide (String.le (ObID l) (ObID r)).

Definition checkNode (c : Checker) (at_ : Z) (node : NodeObservation) : go Checker :=
  c ← checkDurableHistory c at_ node;
  c ← checkCommittedHistory c at_ node;
  c ← checkAppliedHistory c at_ node;
  c ← checkSnapshotHistory c at_ node;
  checkMembershipHistory c at_ node.

Fixpoint checkNodes (c : Checker) (at_ : Z) (nodes : list NodeObservation) : go Checker :=
  match nodes with
  | [] => Done c
  | node :: nodes => c ← checkNode c at_ node; checkNodes c at_ nodes
  end.

(** The status of a node that leads and does not wait for its disk. *)
Definition leading (node : NodeObservation) : option Status_ :=
  match ObStatus node with
  | Some status =>
    if Up node && bool_decide (StRole status = Leader) && negb (StAwaitingPersistence status) then Some status else None
  | None => None
  end.

Fixpoint checkLeaders (c : Checker) (at_ : Z) (nodes : list NodeObservation) : go Checker :=
  match nodes with
  | [] => Done c
  | node :: nodes =>
    c ← match leading node with
        | Some status => checkLeader c at_ (ObID node) status
        | None => Done c
        end;
    checkLeaders c at_ nodes
  end.

(** [cloneViolations] copies values. *)
Definition cloneViolations (l : list Violation) : list Violation :=
  map (λ v, mkViolation (VID v) (VAtNS v) (slices_Clone (VNodes v)) (Evidence v) (VFingerprint v)) l.

Definition Observe (c : Checker) (observation : Observation) : go (Checker * list Violation) :=
  let nodes := merge_sort observation_le (ObNodes observation) in
  let start := length (violations c) in
  c ← checkNodes c (At observation) nodes;
  c ← checkLogs c (At observation) nodes;
  c ← checkLeaders c (At observation) nodes;
  Done (c, cloneViolations (drop start (violations c))).

Definition Violations_ (c : Checker) : list Violation := cloneViolations (violations c).

End Checks.

(** ** Canonical state *)

Record CheckerState := mkCheckerState {
  CsSchema : string; CsMembers : list NodeID; CsInitial : Membership; CsSeen : list string;
  CsLeaders : list (Z * NodeID); CsVotes : list (NodeID * Z * NodeID); CsDurableTerms : list (NodeID * Z);
  CsCommitIndexes : list (NodeID * Z); CsAppliedIndexes : list (NodeID * Z);
  CsCommitted : list (Z * entryWitness); CsApplied : list (Z * entryWitness);
  CsSnapshots : list (Z * snapshotWitness); CsViolations : list Violation }.

(** The orders of the canonical lists. *)
Definition by_node (l r : NodeID * Z) : Prop := String.le l.1 r.1.
Definition by_index {A} (l r : Z * A) : Prop := l.1 ≤ r.1.
Definition by_vote (l r : NodeID * Z * NodeID) : Prop :=
  if decide (l.1.1 = r.1.1) then l.1.2 ≤ r.1.2 else String.le l.1.1 r.1.1.
#[export] Instance by_node_dec : RelDecision by_node := λ l r, decide (String.le l.1 r.1).
#[export] Instance by_index_dec {A} : RelDecision (@by_index A) := λ l r, decide (l.1 ≤ r.1).
#[export] Instance by_vote_dec : RelDecision by_vote.
Proof. intros l r. unfold by_vote. destruct (decide (l.1.1 = r.1.1)); apply _. Defined.

Definition sortedNodeValues (values : gmap NodeID Z) : list (NodeID * Z) := merge_sort by_node (map_to_list values).
Definition sortedWitnesses {A} (clone : A → A) (witnesses : gmap Z A) : list (Z * A) :=
  merge_sort by_index (map (λ kw, (kw.1, clone kw.2)) (map_to_list witnesses)).
Definition cloneEntryWitness (w : entryWitness) : entryWitness :=
  mkEntryWitness (WNode w) (cloneEntry (WEntry w)) (CommitTerm w).
Definition cloneSnapshotWitness (w : snapshotWitness) : snapshotWitness :=
  mkSnapshotWitness (SWNode w) (cloneSnapshot (SWSnapshot w)).

Definition State (c : Checker) : CheckerState :=
  mkCheckerState StateSchemaVersion (slices_Clone (members c)) (CloneMembership (initial c))
    (sort_nodes (elements (seen c))) (merge_sort by_index (map_to_list (leaders c)))
    (merge_sort by_vote (concat (map (λ nt, map (λ tc, (nt.1, tc.1, tc.2)) (map_to_list nt.2)) (map_to_list (votes c)))))
    (sortedNodeValues (durableTerms c)) (sortedNodeValues (commitIndexes c)) (sortedNodeValues (appliedIndexes c))
    (sortedWitnesses cloneEntryWitness (committed c)) (sortedWitnesses cloneEntryWitness (applied c))
    (sortedWitnesses cloneSnapshotWitness (snapshots c)) (cloneViolations (violations c)).
