(* ===== verification/CheckReports.v ===== *)
(** * What the checker reports

    No check panics, reports only grow, no evidence is reported twice, and every
    reported violation carries its fingerprint and belongs to the vocabulary of the
    schema. *)

From S2P Require Export Check.

#[global] Open Scope Z_scope.

Section Reports.
Context (marshal : evidence → bytes) (marshal_valid : ∀ e, json_valid (marshal e) = true).

Definition supported (id : string) : Prop := violationSupported SchemaVersion id = true.

Definition violation_ok (v : Violation) : Prop :=
  StronglySorted String.le (VNodes v) ∧ Fingerprint (VID v) (VNodes v) (Evidence v) = inr (VFingerprint v) ∧
  supported (VID v) ∧ ∃ e, Evidence v = marshal e.

(** The reports of a checker: [seen] are the fingerprints of [violations], each once. *)
Definition reports_ok (c : Checker) : Prop :=
  (∀ fp, fp ∈ seen c ↔ fp ∈ map VFingerprint (violations c)) ∧ NoDup (map VFingerprint (violations c)) ∧
  Forall violation_ok (violations c).

(** Two checkers with the same reports. *)
Definition same_reports (c c' : Checker) : Prop := seen c' = seen c ∧ violations c' = violations c.

Definition grown (c c' : Checker) : Prop :=
  violations c `prefix_of` violations c' ∧ (reports_ok c → reports_ok c').

(** What one boundary adds carries its time. *)
Definition grows (at_ : Z) (c c' : Checker) : Prop :=
  grown c c' ∧ ∀ v, v ∈ violations c' → v ∈ violations c ∨ VAtNS v = at_.

Lemma grown_trans c c' c'' : grown c c' → grown c' c'' → grown c c''.
Proof. intros [H1 H2] [H3 H4]. split; [by etrans | auto]. Qed.

Lemma grows_same at_ c c' : same_reports c c' → grows at_ c c'.
Proof. intros [Hs Hv]. unfold grows, grown, reports_ok. rewrite Hs, Hv. split; [done | by left]. Qed.

Lemma reports_grow_refl at_ c : grows at_ c c.
Proof. by apply grows_same. Qed.

Lemma reports_grow_trans at_ c c' c'' : grows at_ c c' → grows at_ c' c'' → grows at_ c c''.
Proof. intros [H1 H2] [H3 H4]. split; [by eapply grown_trans | naive_solver]. Qed.

(** Composition of steps that only grow the reports. *)
Lemma grows_bind at_ c (m : go Checker) (k : Checker → go Checker) :
  wp m (grows at_ c) → (∀ c', wp (k c') (grows at_ c')) → wp (m ≫= k) (grows at_ c).
Proof.
  intros Hm Hk. apply wp_bind. apply (wp_mono _ _ _ Hm). intros c' Hc'.
  apply (wp_mono _ _ _ (Hk c')). intros c'' Hc''. by eapply reports_grow_trans.
Qed.

(** The same after a step that does not report. *)
Lemma grows_from at_ c c1 (m : go Checker) : same_reports c c1 → wp m (grows at_ c1) → wp m (grows at_ c).
Proof. intros H Hm. apply (wp_mono _ _ _ Hm). intros c' Hc'. eapply reports_grow_trans; [by apply grows_same | done]. Qed.

Lemma compact_valid l : json_valid l = true → ∃ t, compact l = Some t.
Proof. intros H. unfold compact. rewrite H. eauto. Qed.

(** [Fingerprint] succeeds on the identifiers of the vocabulary. *)
Lemma Fingerprint_total id nodes e : id ≠ EmptyString → ∃ fp, Fingerprint id nodes (marshal e) = inr fp.
Proof.
  intros Hid. unfold Fingerprint. rewrite (proj2 (String.eqb_neq _ _) Hid), marshal_valid. cbn [negb orb].
  destruct (compact_valid _ (marshal_valid e)) as [t ->]. eauto.
Qed.

Lemma supported_nonempty id : supported id → id ≠ EmptyString.
Proof. by intros H ->. Qed.

(** [add] by cases: an equal fingerprint is not reported again. *)
Lemma add_spec c at_ id nodes e :
  supported id →
  ∃ fp, Fingerprint id (sort_nodes nodes) (marshal e) = inr fp ∧
    add marshal c at_ id nodes e =
      Done (if decide (fp ∈ seen c) then c
            else set_reports c ({[fp]} ∪ seen c) (violations c ++ [mkViolation id at_ (sort_nodes nodes) (marshal e) fp])).
Proof.
  intros Hid. destruct (Fingerprint_total id (sort_nodes nodes) e (supported_nonempty id Hid)) as [fp Hfp].
  exists fp. split; [done |]. unfold add. rewrite Hfp. by destruct (decide (fp ∈ seen c)) as [H|H];
    [rewrite bool_decide_true by done | rewrite bool_decide_false by done].
Qed.

Lemma add_grows c at_ id nodes e : supported id → wp (add marshal c at_ id nodes e) (grows at_ c).
Proof.
  intros Hid. destruct (add_spec c at_ id nodes e Hid) as (fp & Hfp & ->). apply wp_done.
  destruct (decide (fp ∈ seen c)) as [Hin|Hin]; [apply reports_grow_refl |]. split; [split; [by eexists |] |].
  2: { intros v [Hv | ->%list_elem_of_singleton]%elem_of_app; [by left | by right]. }
  intros (Hs & Hnd & Hok). unfold reports_ok. cbn [set_reports seen violations]. rewrite map_app. cbn [map VFingerprint].
  split; [| split].
  - intros fp'. rewrite elem_of_union, elem_of_singleton, elem_of_app, list_elem_of_singleton, Hs. tauto.
  - apply NoDup_app. split; [done |]. split; [| apply NoDup_singleton].
    intros x Hx ->%list_elem_of_singleton. by apply Hin, Hs.
  - apply Forall_app. split; [done |]. constructor; [| constructor].
    repeat split; [apply sort_nodes_sorted | exact Hfp | exact Hid | by exists e].
Qed.

(** A clean checker that reports is no longer clean. *)
Definition clean (c : Checker) : Prop := violations c = [] ∧ seen c = ∅.
Definition dirty (c : Checker) : Prop := violations c ≠ [].

Lemma add_clean c at_ id nodes e : supported id → clean c → wp (add marshal c at_ id nodes e) dirty.
Proof.
  intros Hid [Hv Hs]. destruct (add_spec c at_ id nodes e Hid) as (fp & Hfp & ->). apply wp_done.
  rewrite decide_False by (rewrite Hs; set_solver). unfold dirty. cbn. by rewrite Hv.
Qed.

Lemma grown_dirty c c' : grown c c' → dirty c → dirty c'.
Proof. intros [[k E] _] H. unfold dirty in *. rewrite E. by destruct (violations c). Qed.

Lemma grows_dirty at_ c c' : grows at_ c c' → dirty c → dirty c'.
Proof. intros [H _]. by apply grown_dirty. Qed.

(** Every check only grows the reports. *)
Ltac grow := repeat first
  [ apply add_grows; reflexivity
  | apply wp_done; first [apply reports_grow_refl | by apply grows_same]
  | case_if | case_match ].

Lemma durableTermStep_grows c at_ node : wp (durableTermStep marshal c at_ node) (grows at_ c).
Proof. unfold durableTermStep. cbv zeta. apply grows_bind; [grow |]. intros c1. grow. Qed.

Lemma durableVoteStep_grows c at_ node : wp (durableVoteStep marshal c at_ node) (grows at_ c).
Proof. unfold durableVoteStep. cbv zeta. grow. Qed.

Lemma volatileStep_grows c at_ node : wp (volatileStep marshal c at_ node) (grows at_ c).
Proof. unfold volatileStep. cbv zeta. grow. Qed.

Lemma checkDurableHistory_grows c at_ node : wp (checkDurableHistory marshal c at_ node) (grows at_ c).
Proof.
  apply grows_bind; [apply durableTermStep_grows |]. intros c1.
  apply grows_bind; [apply durableVoteStep_grows |]. intros c2. apply volatileStep_grows.
Qed.

Lemma commitIndexStep_grows c at_ node : wp (commitIndexStep marshal c at_ node) (grows at_ c).
Proof. unfold commitIndexStep. cbv zeta. apply grows_bind; [grow |]. intros c1. grow. Qed.

Lemma committedLoop_grows c at_ node log : wp (committedLoop marshal c at_ node log) (grows at_ c).
Proof.
  revert c. induction log as [|e log IH]; intros c; cbn [committedLoop]; [grow |]. case_if; [grow |].
  apply grows_bind; [unfold committedStep; grow | exact IH].
Qed.

Lemma checkCommittedHistory_grows c at_ node : wp (checkCommittedHistory marshal c at_ node) (grows at_ c).
Proof. apply grows_bind; [apply commitIndexStep_grows |]. intros c1. apply committedLoop_grows. Qed.

Lemma appliedIndexStep_grows c at_ node : wp (appliedIndexStep marshal c at_ node) (grows at_ c).
Proof. unfold appliedIndexStep. cbv zeta. apply grows_bind; [grow |]. intros c1. grow. Qed.

Lemma appliedLoop_grows c at_ node entries : wp (appliedLoop marshal c at_ node entries) (grows at_ c).
Proof.
  revert c. induction entries as [|e entries IH]; intros c; cbn [appliedLoop]; [grow |].
  apply grows_bind; [unfold appliedStep; grow | exact IH].
Qed.

Lemma checkAppliedHistory_grows c at_ node : wp (checkAppliedHistory marshal c at_ node) (grows at_ c).
Proof. apply grows_bind; [apply appliedIndexStep_grows |]. intros c1. apply appliedLoop_grows. Qed.

Lemma checkSnapshotHistory_grows c at_ node : wp (checkSnapshotHistory marshal c at_ node) (grows at_ c).
Proof. unfold checkSnapshotHistory. cbv zeta. grow. Qed.

Lemma membershipLoop_grows c at_ node m log : wp (membershipLoop marshal c at_ node m log) (grows at_ c).
Proof.
  revert m. induction log as [|e log IH]; intros m; cbn [membershipLoop]; [grow |].
  destruct (Type_ e); case_if; first [apply IH | grow].
Qed.

Lemma checkMembershipHistory_grows c at_ node : wp (checkMembershipHistory marshal c at_ node) (grows at_ c).
Proof. unfold checkMembershipHistory. cbv zeta. repeat case_if; first [apply membershipLoop_grows | grow]. Qed.

Lemma checkNode_grows c at_ node : wp (checkNode marshal c at_ node) (grows at_ c).
Proof.
  apply grows_bind; [apply checkDurableHistory_grows |]. intros c1.
  apply grows_bind; [apply checkCommittedHistory_grows |]. intros c2.
  apply grows_bind; [apply checkAppliedHistory_grows |]. intros c3.
  apply grows_bind; [apply checkSnapshotHistory_grows |]. intros c4. apply checkMembershipHistory_grows.
Qed.

Lemma checkNodes_grows c at_ nodes : wp (checkNodes marshal c at_ nodes) (grows at_ c).
Proof.
  revert c. induction nodes as [|n nodes IH]; intros c; [grow |]. apply grows_bind; [apply checkNode_grows | exact IH].
Qed.

Lemma matchLoop_grows k c at_ l r index conflict : wp (matchLoop marshal k c at_ l r index conflict) (grows at_ c).
Proof.
  revert c index conflict. induction k as [|k IH]; intros c index conflict; cbn [matchLoop];
    (apply grows_bind; [unfold matchStep; grow |]); intros c1; [grow | apply IH].
Qed.

Lemma checkPair_grows c at_ l r : wp (checkPair marshal c at_ l r) (grows at_ c).
Proof. unfold checkPair. cbv zeta. repeat case_if; first [apply matchLoop_grows | grow]. Qed.

Lemma checkLogs_grows c at_ nodes : wp (checkLogs marshal c at_ nodes) (grows at_ c).
Proof.
  revert c. induction nodes as [|n nodes IH]; intros c; [grow |]. apply grows_bind; [| exact IH].
  clear IH. revert c. induction nodes as [|m nodes IH]; intros c; [grow |]. apply grows_bind; [apply checkPair_grows | exact IH].
Qed.

Lemma leaderStep_grows c at_ id term : wp (leaderStep marshal c at_ id term) (grows at_ c).
Proof. unfold leaderStep. cbv zeta. grow. Qed.

Lemma certificateStep_grows c at_ id status : wp (certificateStep marshal c at_ id status) (grows at_ c).
Proof. unfold certificateStep. cbv zeta. grow. Qed.

Lemma completenessLoop_grows c at_ id status indexes : wp (completenessLoop marshal c at_ id status indexes) (grows at_ c).
Proof.
  revert c. induction indexes as [|i indexes IH]; intros c; [grow |].
  apply grows_bind; [unfold completenessStep; grow | exact IH].
Qed.

Lemma checkLeader_grows c at_ id status : wp (checkLeader marshal c at_ id status) (grows at_ c).
Proof.
  apply grows_bind; [apply leaderStep_grows |]. intros c1.
  apply grows_bind; [apply certificateStep_grows |]. intros c2. apply completenessLoop_grows.
Qed.

Lemma checkLeaders_grows c at_ nodes : wp (checkLeaders marshal c at_ nodes) (grows at_ c).
Proof.
  revert c. induction nodes as [|n nodes IH]; intros c; [grow |]. cbn [checkLeaders].
  apply grows_bind; [destruct (leading n); [apply checkLeader_grows | grow] | exact IH].
Qed.

Lemma cloneViolations_id l : cloneViolations l = l.
Proof. unfold cloneViolations. induction l as [|[] l IH]; [done |]. simpl. by rewrite IH. Qed.

(** [Observe] returns the reports it adds. *)
Lemma Observe_grows c o :
  wp (Observe marshal c o) (λ r, grows (At o) c r.1 ∧ violations r.1 = violations c ++ r.2).
Proof.
  unfold Observe. cbv zeta.
  apply wp_bind, (wp_mono _ _ _ (checkNodes_grows c _ _)). intros c1 H1.
  apply wp_bind, (wp_mono _ _ _ (checkLogs_grows c1 _ _)). intros c2 H2.
  apply wp_bind, (wp_mono _ _ _ (checkLeaders_grows c2 _ _)). intros c3 H3. apply wp_done. cbn [fst snd].
  assert (H : grows (At o) c c3) by (eapply reports_grow_trans; [eapply reports_grow_trans |]; done).
  split; [done |]. destruct H as [[[k E] _] _]. by rewrite cloneViolations_id, E, drop_app_length.
Qed.

(** ** Histories of observations *)

(** A checker that observes one boundary after the other, with what each call returned. *)
Fixpoint observe_all (c : Checker) (os : list Observation) : go (Checker * list Violation) :=
  match os with
  | [] => Done (c, [])
  | o :: os =>
    '(c1, first) ← Observe marshal c o;
    '(c2, rest) ← observe_all c1 os;
    Done (c2, first ++ rest)
  end.

Lemma observe_all_grows c os :
  wp (observe_all c os) (λ r, grown c r.1 ∧ violations r.1 = violations c ++ r.2).
Proof.
  revert c. induction os as [|o os IH]; intros c; cbn [observe_all].
  { apply wp_done. split; [split; done | by rewrite app_nil_r]. }
  apply wp_bind, (wp_mono _ _ _ (Observe_grows c o)). intros [c1 first] [[H1 _] E1]. cbn [fst snd] in *.
  apply wp_bind, (wp_mono _ _ _ (IH c1)). intros [c2 rest] [H2 E2]. apply wp_done. cbn [fst snd] in *.
  split; [by eapply grown_trans |]. by rewrite E2, E1, app_assoc.
Qed.

Lemma New_reports_ok nodes m : reports_ok (NewWithMembership nodes m).
Proof. split; [| split; constructor]. intros fp. cbn. set_solver. Qed.

Lemma nodesOk_sorted x l :
  StronglySorted String.le (x :: l) → nodesOk (Some x) l = true ↔ NoDup (x :: l) ∧ EmptyString ∉ l.
Proof.
  revert x. induction l as [|y l IH]; intros x Hs; cbn [nodesOk].
  { split; [intros _; split; [apply NoDup_singleton | set_solver] | done]. }
  inversion Hs as [|? ? Hs' Hf]; subst. inversion Hs' as [|? ? Hs'' Hf']; subst.
  rewrite Forall_forall in Hf, Hf'.
  assert (Hx : x ∈ l → x = y).
  { intros Hin. apply (anti_symm String.le); [apply Hf; by left | by apply Hf']. }
  case_if; reflect.
  - split; [done |]. rewrite !NoDup_cons, elem_of_cons. intros [[Hnin _] Hne].
    destruct Hif as [-> | ->]; [by destruct Hne; left | by destruct Hnin; left].
  - destruct Hif as [Hy Hyx]. rewrite IH by done. rewrite !NoDup_cons, !not_elem_of_cons. naive_solver.
Qed.

Lemma nodesOk_None l :
  StronglySorted String.le l → nodesOk None l = true ↔ NoDup l ∧ EmptyString ∉ l.
Proof.
  destruct l as [|x l]; [intros _; split; [split; [constructor | set_solver] | done] |].
  intros Hs. cbn [nodesOk]. case_if; reflect.
  - split; [done |]. intros [_ H]. destruct Hif as [-> | ]; [by destruct H; left | done].
  - destruct Hif as [Hx _]. rewrite nodesOk_sorted by done. rewrite not_elem_of_cons. naive_solver.
Qed.

(** [ValidateViolation] accepts a report exactly when its nodes are distinct names. *)
Lemma reported_valid v :
  violation_ok v → ValidateViolationForSchema SchemaVersion v = None ↔ NoDup (VNodes v) ∧ EmptyString ∉ VNodes v.
Proof.
  intros (Hs & Hfp & Hsup & _). unfold ValidateViolationForSchema, ValidateViolation.
  rewrite (proj2 (is_sorted_spec _) Hs), Hfp, String.eqb_refl. cbn [negb]. rewrite Hsup, <- nodesOk_None by done.
  by destruct (nodesOk None (VNodes v)).
Qed.

(** C17.  Over every history of observations the checker never panics, the calls return
    exactly the violations it retains, no fingerprint is reported twice, and every report
    has sorted nodes, the fingerprint of its content and an identifier of the schema:
    [ValidateViolationForSchema] accepts it exactly when its nodes are distinct names. *)
Theorem reports_unique_and_valid (nodes : list NodeID) (m : Membership) (os : list Observation) :
  ∃ c new, observe_all (NewWithMembership nodes m) os = Done (c, new) ∧ Violations_ c = new ∧
    NoDup (map VFingerprint new) ∧
    ∀ v, v ∈ new →
      StronglySorted String.le (VNodes v) ∧ Fingerprint (VID v) (VNodes v) (Evidence v) = inr (VFingerprint v) ∧
      (ValidateViolationForSchema SchemaVersion v = None ↔ NoDup (VNodes v) ∧ EmptyString ∉ VNodes v).
Proof.
  destruct (wp_inv _ _ (observe_all_grows (NewWithMembership nodes m) os)) as ([c new] & E & [_ Hok] & Hv).
  cbn [fst snd] in *. destruct (Hok (New_reports_ok nodes m)) as (Hs & Hnd & Hall).
  exists c, new. split; [done |]. unfold Violations_. rewrite cloneViolations_id. split; [by rewrite Hv |].
  rewrite <- (app_nil_l new). change ([] : list Violation) with (violations (NewWithMembership nodes m)).
  rewrite <- Hv. split; [done |]. intros v Hin. rewrite Forall_forall in Hall. specialize (Hall v Hin).
  split; [apply Hall |]. split; [apply Hall |]. by apply reported_valid.
Qed.
End Reports.

(** * What a clean history means

    The safety properties stated on the observations themselves, and the relation
    between the checker's maps and the facts a history has shown. *)

(** ** First-wins maps of facts *)

Section Facts.
Context {K V : Type} `{Countable K}.

(** Facts with the same key agree, as seen through [proj]. *)
Definition agree {W} (proj : V → W) (facts : list (K * V)) : Prop :=
  ∀ k v w, (k, v) ∈ facts → (k, w) ∈ facts → proj v = proj w.

Abbreviation fmap_of facts := (list_to_map facts : gmap K V).

Lemma facts_snoc_stale facts k v : is_Some (fmap_of facts !! k) → fmap_of (facts ++ [(k, v)]) = fmap_of facts.
Proof.
  intros [w Hw]. rewrite list_to_map_app. apply map_eq. intros k'. rewrite lookup_union.
  destruct (decide (k' = k)) as [-> | Hne]; [rewrite Hw; by rewrite union_Some_l |].
  simpl. rewrite lookup_insert_ne, lookup_empty by done. by rewrite right_id_L by apply _.
Qed.

Lemma facts_lookup_None facts k : fmap_of facts !! k = None ↔ ∀ v, (k, v) ∉ facts.
Proof.
  rewrite <- not_elem_of_list_to_map. rewrite list_elem_of_fmap. split.
  - intros Hn v Hv. apply Hn. by exists (k, v).
  - intros Hn ([k' v] & -> & Hv). by eapply Hn.
Qed.

Lemma facts_snoc_fresh facts k v : fmap_of facts !! k = None → fmap_of (facts ++ [(k, v)]) = <[k := v]> (fmap_of facts).
Proof. intros Hn. apply list_to_map_snoc. by apply not_elem_of_list_to_map. Qed.

Lemma facts_snoc_lookup facts k v k' :
  fmap_of (facts ++ [(k, v)]) !! k' = if decide (k' = k ∧ fmap_of facts !! k = None) then Some v else fmap_of facts !! k'.
Proof.
  destruct (fmap_of facts !! k) as [w|] eqn:E.
  - rewrite facts_snoc_stale by (by eexists). rewrite decide_False by naive_solver. done.
  - rewrite facts_snoc_fresh by done. destruct (decide (k' = k)) as [-> | Hne].
    + by rewrite lookup_insert_eq, decide_True.
    + by rewrite lookup_insert_ne, decide_False by naive_solver.
Qed.

Lemma facts_lookup_in facts k v : fmap_of facts !! k = Some v → (k, v) ∈ facts.
Proof. apply elem_of_list_to_map_2. Qed.

Lemma agree_snoc {W} (proj : V → W) facts k v :
  agree proj facts →
  agree proj (facts ++ [(k, v)]) ↔ ∀ w, fmap_of facts !! k = Some w → proj w = proj v.
Proof.
  intros Hag. split.
  - intros Hs w Hw. apply facts_lookup_in in Hw. apply (Hs k); apply elem_of_app; [by left | right; by left].
  - intros Hw k' v1 v2 H1 H2.
    assert (Hc : ∀ u, (k, u) ∈ facts → proj u = proj v).
    { intros u Hu. destruct (fmap_of facts !! k) as [w|] eqn:E.
      - rewrite <- (Hw w eq_refl). apply facts_lookup_in in E. by eapply Hag.
      - rewrite facts_lookup_None in E. by destruct (E u). }
    apply elem_of_app in H1 as [H1|H1%list_elem_of_singleton], H2 as [H2|H2%list_elem_of_singleton].
    + by eapply Hag.
    + injection H2 as -> ->. by apply Hc.
    + injection H1 as -> ->. symmetry. by apply Hc.
    + congruence.
Qed.

Lemma agree_cons {W} (proj : V → W) facts f facts' :
  agree proj (facts ++ f :: facts') ↔ agree proj (facts ++ [f]) ∧ agree proj ((facts ++ [f]) ++ facts').
Proof.
  assert (E : (facts ++ [f]) ++ facts' = facts ++ f :: facts') by by rewrite <- app_assoc.
  rewrite E. split; [| tauto]. intros Hag. split; [| done]. rewrite <- E in Hag.
  intros k v w H1 H2. apply (Hag k); apply elem_of_app; by left.
Qed.

Lemma agree_prefix {W} (proj : V → W) facts facts' : agree proj (facts ++ facts') → agree proj facts.
Proof. intros Hag k v w H1 H2. apply (Hag k); apply elem_of_app; by left. Qed.
End Facts.

(** ** What nodes show *)

Definition hard (n : NodeObservation) : HardState := HardState_ (Durable n).
Definition snapshot_of (n : NodeObservation) : Snapshot := Snapshot_ (Durable n).

(** The committed part of a log: up to the first index above the commit index. *)
Fixpoint committed_part (commit : Z) (log : list Entry) : list Entry :=
  match log with
  | [] => []
  | e :: log => if commit <? Index e then [] else e :: committed_part commit log
  end.

Definition commits_of (n : NodeObservation) : list (Z * entryWitness) :=
  map (λ e, (Index e, mkEntryWitness (ObID n) e (CurrentTerm (hard n))))
    (committed_part (CommitIndex (hard n)) (Log (Durable n))).
Definition applies_of (n : NodeObservation) : list (Z * entryWitness) :=
  map (λ e, (Index e, mkEntryWitness (ObID n) e 0)) (Applied n).
Definition vote_of (n : NodeObservation) : list (NodeID * Z * NodeID) :=
  if String.eqb (VotedFor (hard n)) EmptyString then [] else [(ObID n, CurrentTerm (hard n), VotedFor (hard n))].
Definition snapshots_of (n : NodeObservation) : list (Z * snapshotWitness) :=
  if LastIncludedIndex (snapshot_of n) =? 0 then []
  else [(LastIncludedIndex (snapshot_of n), mkSnapshotWitness (ObID n) (snapshot_of n))].
Definition leads_of (n : NodeObservation) : list (Z * NodeID) :=
  match leading n with Some status => [(StTerm status, ObID n)] | None => [] end.

(** All facts of a sequence of nodes. *)
Definition shown {A} (f : NodeObservation → list A) (ns : list NodeObservation) : list A := concat (map f ns).

Lemma shown_app {A} (f : NodeObservation → list A) ns ms : shown f (ns ++ ms) = shown f ns ++ shown f ms.
Proof. unfold shown. by rewrite map_app, concat_app. Qed.

Lemma shown_snoc {A} (f : NodeObservation → list A) ns n : shown f (ns ++ [n]) = shown f ns ++ f n.
Proof. rewrite shown_app. unfold shown. simpl. by rewrite app_nil_r. Qed.

Lemma elem_of_shown {A} (f : NodeObservation → list A) ns x : x ∈ shown f ns ↔ ∃ n, n ∈ ns ∧ x ∈ f n.
Proof.
  induction ns as [|n ns IH]; [split; [set_solver | by intros (? & ?%not_elem_of_nil & _)] |].
  change (shown f (n :: ns)) with (f n ++ shown f ns). rewrite elem_of_app, IH. setoid_rewrite elem_of_cons. naive_solver.
Qed.

(** A value that never goes back on one node. *)
Definition mono (f : NodeObservation → Z) (ns : list NodeObservation) : Prop :=
  ∀ i j n n', (i < j)%nat → ns !! i = Some n → ns !! j = Some n' → ObID n = ObID n' → f n ≤ f n'.

Lemma mono_snoc f ns n :
  mono f (ns ++ [n]) ↔ mono f ns ∧ ∀ n', n' ∈ ns → ObID n' = ObID n → f n' ≤ f n.
Proof.
  split.
  - intros Hm. split.
    + intros i j a b Hij Ha Hb. apply (Hm i j); [done | |]; apply lookup_app_l_Some; done.
    + intros a [i Ha]%list_elem_of_lookup Hid. apply (Hm i (length ns)); [by apply lookup_lt_Some in Ha | | | done].
      * by apply lookup_app_l_Some.
      * by apply list_lookup_middle.
  - intros [Hm Hn] i j a b Hij Ha Hb Hid. apply lookup_app_Some in Hb as [Hb|[Hj Hb]].
    + apply (Hm i j); [done | | done | done]. apply lookup_lt_Some in Hb. by rewrite lookup_app_l in Ha by lia.
    + apply list_lookup_singleton_Some in Hb as [Hj' <-]. rewrite lookup_app_l in Ha by lia.
      apply Hn; [| done]. by apply list_elem_of_lookup_2 in Ha.
Qed.

(** The largest value a node has shown, 0 before. *)
Definition maxof (f : NodeObservation → Z) (id : NodeID) (ns : list NodeObservation) : Z :=
  foldr (λ n acc, if decide (ObID n = id) then Z.max (f n) acc else acc) 0 ns.

Lemma maxof_snoc f id ns n :
  maxof f id (ns ++ [n]) = if decide (ObID n = id) then Z.max (f n) (maxof f id ns) else maxof f id ns.
Proof.
  induction ns as [|m ns IH]; [done |]. simpl. rewrite IH. destruct (decide (ObID m = id)), (decide (ObID n = id)); lia.
Qed.

Lemma maxof_nonneg f id ns : 0 ≤ maxof f id ns.
Proof. induction ns as [|m ns IH]; [done |]. simpl. case_decide; lia. Qed.

Lemma maxof_le f id ns z : 0 ≤ z → maxof f id ns ≤ z ↔ ∀ n, n ∈ ns → ObID n = id → f n ≤ z.
Proof.
  intros Hz. induction ns as [|m ns IH]; [split; [set_solver | done] |]. simpl. setoid_rewrite elem_of_cons.
  case_decide as Hd; split.
  - intros Hle n [-> | Hn] Hid; [lia |]. apply IH; [lia | done | done].
  - intros Hall. apply Z.max_lub; [by apply Hall; [left |] |]. apply IH. intros n Hn. apply Hall. by right.
  - intros Hle n [-> | Hn] Hid; [done |]. by apply IH.
  - intros Hall. apply IH. intros n Hn. apply Hall. by right.
Qed.

(** ** The safety of a node and of its history *)

(** The volatile state that a node serves requests with is its durable state. *)
Definition volatile_ok (n : NodeObservation) : Prop :=
  ∀ status, ObStatus n = Some status → Up n = true → StAwaitingPersistence status = false →
    StTerm status = CurrentTerm (hard n) ∧ StVotedFor status = VotedFor (hard n) ∧ StCommitIndex status = CommitIndex (hard n).

(** The configurations of a log, as the protocol's own transition function takes them. *)
Fixpoint config_log (universe : list NodeID) (m : Membership) (log : list Entry) : bool :=
  match log with
  | [] => true
  | e :: log => let '(m', ok) := transitionMembership m e universe in ok && config_log universe m' log
  end.

Definition config_ok (universe : list NodeID) (init : Membership) (n : NodeObservation) : Prop :=
  let s := snapshot_of n in
  if decide (0 < LastIncludedIndex s ∧ SnapMembership s ≠ emptyMembership)
  then validateMembership (SnapMembership s) universe = true ∧ config_log universe (SnapMembership s) (Log (Durable n)) = true
  else config_log universe init (Log (Durable n)) = true.

(** A sequence of node observations that violates nothing. *)
Record nodes_safe (universe : list NodeID) (init : Membership) (ns : list NodeObservation) : Prop := {
  safe_terms : mono (λ n, CurrentTerm (hard n)) ns;
  safe_votes : agree (λ v, v) (shown vote_of ns);
  safe_volatile : Forall volatile_ok ns;
  safe_commit_index : mono (λ n, CommitIndex (hard n)) ns;
  safe_commits : agree WEntry (shown commits_of ns);
  safe_applied_index : mono ObAppliedIndex ns;
  safe_applied : agree WEntry (shown applies_of ns);
  safe_snapshots : agree SWSnapshot (shown snapshots_of ns);
  safe_config : Forall (config_ok universe init) ns }.

(** The Log Matching Property of two nodes above their snapshots: where the terms of two
    entries are equal, the logs are equal up to there. *)
Definition logs_match (l r : NodeObservation) : Prop :=
  let boundary := Z.max (LastIncludedIndex (snapshot_of l)) (LastIncludedIndex (snapshot_of r)) in
  ∀ j le re, boundary < j ≤ max_u64 → stateEntryAt (Durable l) j = Some le → stateEntryAt (Durable r) j = Some re →
    Term le = Term re →
    ∀ i, boundary < i ≤ j → ∃ e, stateEntryAt (Durable l) i = Some e ∧ stateEntryAt (Durable r) i = Some e.

Fixpoint all_logs_match (ns : list NodeObservation) : Prop :=
  match ns with [] => True | l :: ns => Forall (logs_match l) ns ∧ all_logs_match ns end.

(** A leader holds the votes of a quorum and the entries committed before. *)
Definition leader_ok (universe : list NodeID) (init : Membership) (ns : list NodeObservation) (n : NodeObservation) : Prop :=
  ∀ status, leading n = Some status →
    (let m := if decide (Voters (StElectionMembership status) = []) then init else StElectionMembership status in
     validateMembership m universe = true ∧
     HasQuorum m (filter (λ v, (v, StTerm status, ObID n) ∈ shown vote_of ns) universe) = true) ∧
    ∀ index w, (list_to_map (shown commits_of ns) : gmap Z entryWitness) !! index = Some w →
      CommitTerm w ≤ StTerm status → LastIncludedIndex (StSnapshot status) < index →
      statusEntryAt status index = Some (WEntry w).

(** The nodes of an observation in the order they are checked, and of a history. *)
Definition sorted (o : Observation) : list NodeObservation := merge_sort observation_le (ObNodes o).
Definition nodes_of (os : list Observation) : list NodeObservation := concat (map sorted os).

(** A history that violates nothing. *)
Record history_safe (universe : list NodeID) (init : Membership) (os : list Observation) : Prop := {
  history_nodes : nodes_safe universe init (nodes_of os);
  history_logs : Forall (λ o, all_logs_match (sorted o)) os;
  history_election : agree (λ v, v) (shown leads_of (nodes_of os));
  history_leaders : ∀ k o, os !! k = Some o → Forall (leader_ok universe init (nodes_of (take (S k) os))) (sorted o) }.

(** Machine integers and names as Go has them. *)
Definition node_typed (n : NodeObservation) : Prop :=
  ObID n ≠ EmptyString ∧ is_u64 (CurrentTerm (hard n)) ∧ is_u64 (CommitIndex (hard n)) ∧ is_u64 (ObAppliedIndex n) ∧
  is_u64 (LastIncludedIndex (snapshot_of n)).
