(* ===== verification/CheckSafe.v ===== *)
(** * The checker reports nothing exactly on safe histories *)

From S2P Require Export CheckReports.

#[global] Open Scope Z_scope.

Section Safe.
Context (marshal : evidence → bytes) (marshal_valid : ∀ e, json_valid (marshal e) = true).
Context (ms : list NodeID) (init : Membership).

Abbreviation universe := (sort_nodes ms).

(** ** Outcomes of a check on a clean checker *)

(** Either the property holds and the checker stays clean, or it reports. *)
Definition outcome (P : Prop) (R : Checker → Prop) (c : Checker) : Prop := (P ∧ R c) ∨ (¬ P ∧ dirty c).

Lemma outcome_mono P Q (R S : Checker → Prop) c :
  (P ↔ Q) → (P → R c → S c) → outcome P R c → outcome Q S c.
Proof. intros HPQ HRS [[HP HR] | [HP HD]]; [left | right]; tauto. Qed.

(** Checks in sequence. *)
Lemma outcome_bind at_ P Q R S (m : go Checker) (k : Checker → go Checker) :
  wp m (outcome P R) → (∀ c, P → R c → wp (k c) (outcome Q S)) → (∀ c, wp (k c) (grows marshal at_ c)) →
  wp (m ≫= k) (outcome (P ∧ Q) S).
Proof.
  intros Hm Hk Hd. apply wp_bind, (wp_mono _ _ _ Hm). intros c [[HP HR] | [HP HD]].
  - apply (wp_mono _ _ _ (Hk c HP HR)). intros c' Hc'. eapply outcome_mono; [| by intros _ | done]. tauto.
  - apply (wp_mono _ _ _ (Hd c)). intros c' Hg. right. split; [tauto | by eapply grows_dirty].
Qed.

Lemma outcome_done (P : Prop) (R : Checker → Prop) c : P → R c → wp (Done c) (outcome P R).
Proof. intros HP HR. apply wp_done. by left. Qed.

Lemma outcome_add (P : Prop) R c at_ id nodes e :
  supported id → clean c → ¬ P → wp (add marshal c at_ id nodes e) (outcome P R).
Proof.
  intros Hid Hc HP. apply (wp_mono _ _ _ (add_clean marshal marshal_valid c at_ id nodes e Hid Hc)). by right.
Qed.

(** ** The facts a clean checker holds *)

Record facts := mkFacts {
  fT : list NodeObservation; fV : list (NodeID * Z * NodeID); fC : list NodeObservation; fE : list (Z * entryWitness);
  fA : list NodeObservation; fP : list (Z * entryWitness); fS : list (Z * snapshotWitness); fL : list (Z * NodeID) }.

Record knows (c : Checker) (f : facts) : Prop := {
  k_clean : clean c;
  k_members : members c = universe;
  k_initial : initial c = init;
  k_terms : ∀ id, default 0 (durableTerms c !! id) = maxof (λ n, CurrentTerm (hard n)) id (fT f);
  k_votes : ∀ id t, votes c !! id ≫= (λ ledger, ledger !! t) = (list_to_map (fV f) : gmap (NodeID * Z) NodeID) !! (id, t);
  k_commits : ∀ id, default 0 (commitIndexes c !! id) = maxof (λ n, CommitIndex (hard n)) id (fC f);
  k_committed : committed c = list_to_map (fE f);
  k_applieds : ∀ id, default 0 (appliedIndexes c !! id) = maxof ObAppliedIndex id (fA f);
  k_applied : applied c = list_to_map (fP f);
  k_snapshots : snapshots c = list_to_map (fS f);
  k_leaders : leaders c = list_to_map (fL f) }.

(** The maximum map after one more node. *)
Lemma maxof_update (m : gmap NodeID Z) g ns n :
  (∀ id, default 0 (m !! id) = maxof g id ns) →
  let m' := if default 0 (m !! ObID n) <? g n then <[ObID n := g n]> m else m in
  ∀ id, default 0 (m' !! id) = maxof g id (ns ++ [n]).
Proof.
  intros Hm m' id. unfold m'. rewrite maxof_snoc. pose proof (Hm (ObID n)) as Hn. case_if; reflect.
  - destruct (decide (ObID n = id)) as [<- | Hne]; [rewrite lookup_insert_eq; simpl; lia | by rewrite lookup_insert_ne].
  - destruct (decide (ObID n = id)) as [<- | Hne]; [rewrite Hn in *; lia | done].
Qed.

(** The step that checks and records a value that must not go back. *)
Lemma max_step_outcome (m : Checker → gmap NodeID Z) (set : Checker → gmap NodeID Z → Checker) g c at_ vid nodes e ns n R :
  (∀ id, default 0 (m c !! id) = maxof g id ns) → 0 ≤ g n → clean c → supported vid →
  (∀ c x, violations (set c x) = violations c) →
  R (if default 0 (m c !! ObID n) <? g n then set c (<[ObID n := g n]> (m c)) else c) →
  wp ((if g n <? default 0 (m c !! ObID n) then add marshal c at_ vid nodes e else Done c) ≫= λ c,
      Done (if default 0 (m c !! ObID n) <? g n then set c (<[ObID n := g n]> (m c)) else c))
    (outcome (∀ n', n' ∈ ns → ObID n' = ObID n → g n' ≤ g n) R).
Proof.
  intros Hm Hg Hc Hid Hset HR. pose proof (maxof_le g (ObID n) ns (g n) Hg) as Hle. rewrite <- Hm in Hle.
  apply wp_bind. case_if; reflect.
  - apply (wp_mono _ _ _ (add_clean marshal marshal_valid c _ _ _ _ Hid Hc)). intros c' Hd.
    apply wp_done. right. split; [rewrite <- Hle; lia |]. unfold dirty. case_if; rewrite ?Hset; exact Hd.
  - apply wp_done, outcome_done; [by apply Hle | done].
Qed.

Lemma durableTermStep_outcome c at_ n T V C E A P S L :
  node_typed n → knows c (mkFacts T V C E A P S L) →
  wp (durableTermStep marshal c at_ n)
    (outcome (∀ n', n' ∈ T → ObID n' = ObID n → CurrentTerm (hard n') ≤ CurrentTerm (hard n))
       (λ c', knows c' (mkFacts (T ++ [n]) V C E A P S L))).
Proof.
  intros (_ & [Hterm _] & _) Hk. unfold durableTermStep. cbv zeta.
  replace (match durableTerms c !! ObID n with Some previous => _ | None => _ end) with
    (if CurrentTerm (hard n) <? default 0 (durableTerms c !! ObID n)
     then add marshal c at_ DurableTermMonotonic [ObID n] (EvMonotonic (default 0 (durableTerms c !! ObID n)) (CurrentTerm (hard n)))
     else Done c).
  - apply (max_step_outcome durableTerms set_durableTerms (λ n, CurrentTerm (hard n)));
      [exact (k_terms _ _ Hk) | done | exact (k_clean _ _ Hk) | done | done |].
    pose proof (maxof_update _ _ _ n (k_terms _ _ Hk)) as Hu. destruct Hk. case_if; by constructor.
  - destruct (durableTerms c !! ObID n); cbn [default from_option]; [done |].
    by rewrite (proj2 (Z.ltb_ge _ _)) by done.
Qed.

Lemma commitIndexStep_outcome c at_ n T V C E A P S L :
  node_typed n → knows c (mkFacts T V C E A P S L) →
  wp (commitIndexStep marshal c at_ n)
    (outcome (∀ n', n' ∈ C → ObID n' = ObID n → CommitIndex (hard n') ≤ CommitIndex (hard n))
       (λ c', knows c' (mkFacts T V (C ++ [n]) E A P S L))).
Proof.
  intros (_ & _ & [Hc _] & _) Hk. unfold commitIndexStep. cbv zeta.
  apply (max_step_outcome commitIndexes set_commitIndexes (λ n, CommitIndex (hard n)));
    [exact (k_commits _ _ Hk) | done | exact (k_clean _ _ Hk) | done | done |].
  pose proof (maxof_update _ _ _ n (k_commits _ _ Hk)) as Hu. destruct Hk. case_if; by constructor.
Qed.

Lemma appliedIndexStep_outcome c at_ n T V C E A P S L :
  node_typed n → knows c (mkFacts T V C E A P S L) →
  wp (appliedIndexStep marshal c at_ n)
    (outcome (∀ n', n' ∈ A → ObID n' = ObID n → ObAppliedIndex n' ≤ ObAppliedIndex n)
       (λ c', knows c' (mkFacts T V C E (A ++ [n]) P S L))).
Proof.
  intros (_ & _ & _ & [Hc _] & _) Hk. unfold appliedIndexStep. cbv zeta.
  apply (max_step_outcome appliedIndexes set_appliedIndexes ObAppliedIndex);
    [exact (k_applieds _ _ Hk) | done | exact (k_clean _ _ Hk) | done | done |].
  pose proof (maxof_update _ _ _ n (k_applieds _ _ Hk)) as Hu. destruct Hk. case_if; by constructor.
Qed.

(** ** Votes, volatile state *)

Lemma durableVoteStep_outcome c at_ n T V C E A P S L :
  knows c (mkFacts T V C E A P S L) → agree (λ v, v) V →
  wp (durableVoteStep marshal c at_ n)
    (outcome (agree (λ v, v) (V ++ vote_of n)) (λ c', knows c' (mkFacts T (V ++ vote_of n) C E A P S L))).
Proof.
  intros Hk Hag. unfold durableVoteStep, vote_of. cbv zeta. fold (hard n).
  destruct (String.eqb (VotedFor (hard n)) EmptyString); cbn [negb].
  { rewrite app_nil_r. by apply outcome_done. }
  set (t := CurrentTerm (hard n)). set (v := VotedFor (hard n)).
  pose proof (k_votes _ _ Hk) as Hv. cbn [fV] in Hv.
  assert (Hled : default ∅ (votes c !! ObID n) !! t = (list_to_map V : gmap (NodeID * Z) NodeID) !! (ObID n, t)).
  { rewrite <- Hv. destruct (votes c !! ObID n); [done |]. apply lookup_empty. }
  assert (Hrec : (∀ w, (list_to_map V : gmap (NodeID * Z) NodeID) !! (ObID n, t) = Some w → w = v) →
    wp (Done (set_votes c (<[ObID n := <[t := v]> (default ∅ (votes c !! ObID n))]> (votes c))))
      (outcome (agree (λ v, v) (V ++ [(ObID n, t, v)])) (λ c', knows c' (mkFacts T (V ++ [(ObID n, t, v)]) C E A P S L)))).
  { intros Hw. apply outcome_done; [by apply agree_snoc |].
    assert (Hlook : ∀ id t', <[ObID n := <[t := v]> (default ∅ (votes c !! ObID n))]> (votes c) !! id ≫= (λ ledger, ledger !! t') =
      (list_to_map (V ++ [(ObID n, t, v)]) : gmap (NodeID * Z) NodeID) !! (id, t')).
    { intros id t'. rewrite facts_snoc_lookup. destruct (decide (id = ObID n)) as [-> | Hne].
      - rewrite lookup_insert_eq. cbn [mbind option_bind]. destruct (decide (t' = t)) as [-> | Hnt].
        + rewrite lookup_insert_eq. case_decide as Hd; [done |]. symmetry.
          destruct (list_to_map V !! (ObID n, t)) as [w|] eqn:Ew; [| tauto]. f_equal. by apply Hw.
        + rewrite lookup_insert_ne by done. rewrite decide_False by naive_solver. rewrite <- Hv.
          destruct (votes c !! ObID n); [done |]. apply lookup_empty.
      - rewrite lookup_insert_ne by done. rewrite decide_False by naive_solver. apply Hv. }
    destruct Hk. by constructor. }
  rewrite Hled. destruct (list_to_map V !! (ObID n, t)) as [previous|] eqn:Hp.
  - case_if; reflect.
    + apply outcome_add; [done | apply (k_clean _ _ Hk) |]. rewrite agree_snoc by done. intros H. by apply Hif, H.
    + apply Hrec. intros w [= <-]. done.
  - by apply Hrec.
Qed.

Lemma volatileStep_outcome c at_ n f :
  knows c f → wp (volatileStep marshal c at_ n) (outcome (volatile_ok n) (λ c', knows c' f)).
Proof.
  intros Hk. unfold volatileStep, volatile_ok. cbv zeta. fold (hard n).
  destruct (ObStatus n) as [status|]; [| by apply outcome_done].
  destruct (Up n) eqn:Hup; [| by apply outcome_done].
  destruct (StAwaitingPersistence status) eqn:Haw; cbn [andb negb]; [apply outcome_done; [congruence | done] |].
  case_if; reflect.
  - apply outcome_add; [done | apply (k_clean _ _ Hk) |]. intros H.
    destruct (H status eq_refl eq_refl Haw) as (H1 & H2 & H3). tauto.
  - apply outcome_done; [| done]. intros status' [= <-] _ _. tauto.
Qed.

(** ** Entries and snapshots *)

Lemma entriesEqual_spec l r : entriesEqual l r = true ↔ l = r.
Proof.
  unfold entriesEqual, membershipsEqual. reflect. destruct l as [i t ty d [v vo le ln]], r as [i' t' ty' d' [v' vo' le' ln']]. cbn.
  split; [intros [[[[-> ->] ->] ->] [[[-> ->] ->] ->]]; done | by intros [= -> -> -> -> -> -> -> ->]].
Qed.

Lemma entriesEqual_false l r : entriesEqual l r = false ↔ l ≠ r.
Proof. rewrite <- entriesEqual_spec. by destruct (entriesEqual l r). Qed.

(** One entry against the first one seen at its index. *)
Lemma entry_step_outcome (m : gmap Z entryWitness) (F : list (Z * entryWitness)) c at_ vid nodes ev w e u R :
  m = list_to_map F → agree WEntry F → WEntry w = e → clean c → supported vid →
  (is_Some (m !! Index e) → R c) → (m !! Index e = None → R u) →
  wp (match m !! Index e with
      | Some previous => if negb (entriesEqual (WEntry previous) e) then add marshal c at_ vid (nodes previous) (ev previous) else Done c
      | None => Done u
      end) (outcome (agree WEntry (F ++ [(Index e, w)])) R).
Proof.
  intros -> Hag Hw Hc Hid Hold Hnew. destruct (list_to_map F !! Index e) as [previous|] eqn:Hp.
  - case_if; reflect.
    + apply entriesEqual_false in Hif. apply outcome_add; [done | done |]. rewrite agree_snoc by done.
      intros H. apply Hif. rewrite (H previous Hp). done.
    + apply entriesEqual_spec in Hif. apply outcome_done; [| by apply Hold].
      apply agree_snoc; [done |]. intros w' Hw'. congruence.
  - apply outcome_done; [| by apply Hnew]. apply agree_snoc; [done |]. congruence.
Qed.

Lemma committedStep_outcome c at_ n e T V C E A P S L :
  knows c (mkFacts T V C E A P S L) → agree WEntry E →
  let f := (Index e, mkEntryWitness (ObID n) e (CurrentTerm (hard n))) in
  wp (committedStep marshal c at_ n e)
    (outcome (agree WEntry (E ++ [f])) (λ c', knows c' (mkFacts T V C (E ++ [f]) A P S L))).
Proof.
  intros Hk Hag f. unfold committedStep. rewrite RaftTypes.cloneEntry_id. fold (hard n).
  apply (entry_step_outcome (committed c) E c at_ CommittedConflict (λ p, [WNode p; ObID n])
           (λ p, EvEntries (Index e) p (mkEntryWitness (ObID n) e 0)));
    [exact (k_committed _ _ Hk) | done | done | exact (k_clean _ _ Hk) | done | |];
    rewrite (k_committed _ _ Hk); cbn [fE]; intros Hl; destruct Hk; constructor; try done; cbn [set_committed committed fE] in *; unfold f.
  - by rewrite facts_snoc_stale.
  - by rewrite facts_snoc_fresh by done.
Qed.

Lemma committedLoop_outcome c at_ n log T V C E A P S L :
  knows c (mkFacts T V C E A P S L) → agree WEntry E →
  let new := map (λ e, (Index e, mkEntryWitness (ObID n) e (CurrentTerm (hard n)))) (committed_part (CommitIndex (hard n)) log) in
  wp (committedLoop marshal c at_ n log)
    (outcome (agree WEntry (E ++ new)) (λ c', knows c' (mkFacts T V C (E ++ new) A P S L))).
Proof.
  revert c E. induction log as [|e log IH]; intros c E Hk Hag new; unfold new; cbn [committedLoop committed_part map].
  { rewrite app_nil_r. by apply outcome_done. }
  fold (hard n). case_if; [cbn [map]; rewrite app_nil_r; by apply outcome_done |]. cbn [map].
  eapply wp_mono; [eapply outcome_bind; [by apply committedStep_outcome | intros c' Hag' Hk'; exact (IH c' _ Hk' Hag') | intros c'; by apply committedLoop_grows] |].
  intros c'. apply outcome_mono; [symmetry; apply agree_cons |]. intros _. by rewrite <- app_assoc.
Qed.

Lemma appliedStep_outcome c at_ n e T V C E A P S L :
  knows c (mkFacts T V C E A P S L) → agree WEntry P →
  let f := (Index e, mkEntryWitness (ObID n) e 0) in
  wp (appliedStep marshal c at_ n e)
    (outcome (agree WEntry (P ++ [f])) (λ c', knows c' (mkFacts T V C E A (P ++ [f]) S L))).
Proof.
  intros Hk Hag f. unfold appliedStep. rewrite RaftTypes.cloneEntry_id.
  apply (entry_step_outcome (applied c) P c at_ AppliedConflict (λ p, [WNode p; ObID n])
           (λ p, EvEntries (Index e) p (mkEntryWitness (ObID n) e 0)));
    [exact (k_applied _ _ Hk) | done | done | exact (k_clean _ _ Hk) | done | |];
    rewrite (k_applied _ _ Hk); cbn [fP]; intros Hl; destruct Hk; constructor; try done; cbn [set_applied applied fP] in *; unfold f.
  - by rewrite facts_snoc_stale.
  - by rewrite facts_snoc_fresh by done.
Qed.

Lemma appliedLoop_outcome c at_ n entries T V C E A P S L :
  knows c (mkFacts T V C E A P S L) → agree WEntry P →
  let new := map (λ e, (Index e, mkEntryWitness (ObID n) e 0)) entries in
  wp (appliedLoop marshal c at_ n entries)
    (outcome (agree WEntry (P ++ new)) (λ c', knows c' (mkFacts T V C E A (P ++ new) S L))).
Proof.
  revert c P. induction entries as [|e entries IH]; intros c P Hk Hag new; unfold new; cbn [appliedLoop map].
  { rewrite app_nil_r. by apply outcome_done. }
  eapply wp_mono; [eapply outcome_bind; [by apply appliedStep_outcome | intros c' Hag' Hk'; exact (IH c' _ Hk' Hag') | intros c'; by apply appliedLoop_grows] |].
  intros c'. apply outcome_mono; [symmetry; apply agree_cons |]. intros _. by rewrite <- app_assoc.
Qed.

Lemma checkSnapshotHistory_outcome c at_ n T V C E A P S L :
  knows c (mkFacts T V C E A P S L) → agree SWSnapshot S →
  (∀ k w, (k, w) ∈ S → LastIncludedIndex (SWSnapshot w) = k) →
  wp (checkSnapshotHistory marshal c at_ n)
    (outcome (agree SWSnapshot (S ++ snapshots_of n)) (λ c', knows c' (mkFacts T V C E A P (S ++ snapshots_of n) L))).
Proof.
  intros Hk Hag Hkey. unfold checkSnapshotHistory, snapshots_of. cbv zeta. fold (snapshot_of n). rewrite cloneSnapshot_id.
  case_if; reflect; [rewrite app_nil_r; by apply outcome_done |]. rewrite (k_snapshots _ _ Hk). cbn [fS].
  set (s := snapshot_of n). destruct (list_to_map S !! LastIncludedIndex s) as [p|] eqn:Hp.
  - assert (Hidx : LastIncludedIndex (SWSnapshot p) = LastIncludedIndex s) by by apply Hkey, facts_lookup_in.
    assert (Heq : (LastIncludedTerm (SWSnapshot p) = LastIncludedTerm s ∧ SnapMembers (SWSnapshot p) = SnapMembers s ∧
       SnapData (SWSnapshot p) = SnapData s ∧ membershipsEqual (SnapMembership (SWSnapshot p)) (SnapMembership s) = true) ↔
       SWSnapshot p = s).
    { destruct (SWSnapshot p) as [i t mb d [v vo le ln]], s as [i' t' mb' d' [v' vo' le' ln']]. unfold membershipsEqual. cbn in *.
      reflect. split; [intros (-> & -> & -> & [[[-> ->] ->] ->]); by subst | by intros [= -> -> -> -> -> -> -> ->]]. }
    case_if; reflect.
    + apply outcome_add; [done | apply (k_clean _ _ Hk) |]. rewrite agree_snoc by done. intros H. specialize (H p Hp). cbn in H.
      apply Heq in H as (H1 & H2 & H3 & H4). rewrite H4 in Hif0. destruct Hif0 as [[[]|]|]; done.
    + assert (Hs : SWSnapshot p = s).
      { apply Heq. destruct Hif0 as [[[H1 H2] H3] H4]. by rewrite H4. }
      apply outcome_done; [apply agree_snoc; [done |]; intros w Hw; cbn; congruence |].
      destruct Hk; constructor; try done. cbn [fS] in *. rewrite k_snapshots0. by rewrite facts_snoc_stale by (by eexists).
  - apply outcome_done; [apply agree_snoc; [done |]; congruence |].
    destruct Hk; constructor; try done. cbn [set_snapshots snapshots fS] in *. by rewrite facts_snoc_fresh.
Qed.

(** ** Configurations *)

Lemma ValidateMembership_universe m : ValidateMembership m universe = validateMembership m universe.
Proof. unfold ValidateMembership. by rewrite sort_nodes_id by apply sort_nodes_sorted. Qed.

Lemma membershipIsZero_equal m : membershipIsZero m = membershipsEqual m emptyMembership.
Proof.
  apply eq_true_iff_eq. rewrite membershipsEqual_spec. unfold membershipIsZero. reflect.
  destruct m as [v vo l ln]; cbn. rewrite !length_zero_iff_nil.
  split; [intros [[[-> ->] ->] ->]; done | by intros [= -> -> -> ->]].
Qed.

(** One entry of [membershipLoop] is one call of the protocol's transition function. *)
Lemma membershipLoop_cons c at_ n m e log :
  members c = universe →
  ∃ ev, membershipLoop marshal c at_ n m (e :: log) =
    if (transitionMembership m e universe).2
    then membershipLoop marshal c at_ n (transitionMembership m e universe).1 log
    else add marshal c at_ MembershipTransition [ObID n] ev.
Proof.
  intros Hms. cbn [membershipLoop]. rewrite Hms, ValidateMembership_universe. unfold transitionMembership.
  destruct (Type_ e); rewrite ?membershipIsZero_equal.
  - eexists. by destruct (membershipsEqual _ _).
  - eexists. by destruct (membershipsEqual _ _).
  - eexists. destruct (_ || negb (nodes_equal (VotersOutgoing (EntryMembership e)) (Voters m))); [done |]. cbn [orb].
    by destruct (nodes_equal (Learners (EntryMembership e)) _).
  - eexists. by destruct (_ || negb (nodes_equal (Learners (EntryMembership e)) (LearnersNext m))).
  - eexists. by destruct (membershipsEqual _ _).
Qed.

Lemma membershipLoop_outcome c at_ n f m log :
  knows c f →
  wp (membershipLoop marshal c at_ n m log) (outcome (config_log universe m log = true) (λ c', knows c' f)).
Proof.
  intros Hk. revert m. induction log as [|e log IH]; intros m; [by apply outcome_done |].
  destruct (membershipLoop_cons c at_ n m e log (k_members _ _ Hk)) as [ev ->]. cbn [config_log].
  destruct (transitionMembership m e universe) as [m' [|]]; cbn [fst snd andb]; [apply IH |].
  by apply outcome_add; [done | apply (k_clean _ _ Hk) |].
Qed.

Lemma checkMembershipHistory_outcome c at_ n f :
  node_typed n → knows c f →
  wp (checkMembershipHistory marshal c at_ n) (outcome (config_ok universe init n) (λ c', knows c' f)).
Proof.
  intros (_ & _ & _ & _ & Hidx) Hk. unfold checkMembershipHistory, config_ok. cbv zeta. fold (snapshot_of n).
  rewrite !CloneMembership_id, (k_initial _ _ Hk), (k_members _ _ Hk), ValidateMembership_universe.
  assert (E : (0 <? LastIncludedIndex (snapshot_of n)) && negb (membershipsEqual (SnapMembership (snapshot_of n)) emptyMembership) = true ↔
              0 < LastIncludedIndex (snapshot_of n) ∧ SnapMembership (snapshot_of n) ≠ emptyMembership).
  { rewrite andb_true_iff, Z.ltb_lt, negb_true_iff, <- not_true_iff_false, membershipsEqual_spec. done. }
  case_decide as Hd.
  - rewrite (proj2 E Hd). destruct (validateMembership _ universe) eqn:Hv; cbn [negb].
    + eapply wp_mono; [by apply membershipLoop_outcome |]. intros c'. apply outcome_mono; [tauto | done].
    + apply outcome_add; [done | apply (k_clean _ _ Hk) | by intros []].
  - destruct (_ && _); [by destruct Hd; apply E |]. by apply membershipLoop_outcome.
Qed.

(** ** One node, all nodes *)

(** The facts after some nodes and some leaders. *)
Definition facts_of (ns : list NodeObservation) (ls : list (Z * NodeID)) : facts :=
  mkFacts ns (shown vote_of ns) ns (shown commits_of ns) ns (shown applies_of ns) (shown snapshots_of ns) ls.

Lemma snapshots_key ns k w : (k, w) ∈ shown snapshots_of ns → LastIncludedIndex (SWSnapshot w) = k.
Proof.
  rewrite elem_of_shown. unfold snapshots_of. intros (n & _ & Hin). case_if_in Hin; [by apply not_elem_of_nil in Hin |].
  by apply list_elem_of_singleton in Hin as [= -> ->].
Qed.

(** Safety of one more node. *)
Definition next_safe (ns : list NodeObservation) (n : NodeObservation) : Prop :=
  ((∀ n', n' ∈ ns → ObID n' = ObID n → CurrentTerm (hard n') ≤ CurrentTerm (hard n)) ∧
   agree (λ v, v) (shown vote_of ns ++ vote_of n) ∧ volatile_ok n) ∧
  ((∀ n', n' ∈ ns → ObID n' = ObID n → CommitIndex (hard n') ≤ CommitIndex (hard n)) ∧
   agree WEntry (shown commits_of ns ++ commits_of n)) ∧
  ((∀ n', n' ∈ ns → ObID n' = ObID n → ObAppliedIndex n' ≤ ObAppliedIndex n) ∧
   agree WEntry (shown applies_of ns ++ applies_of n)) ∧
  agree SWSnapshot (shown snapshots_of ns ++ snapshots_of n) ∧ config_ok universe init n.

Lemma nodes_safe_snoc ns n :
  nodes_safe universe init (ns ++ [n]) ↔ nodes_safe universe init ns ∧ next_safe ns n.
Proof.
  unfold next_safe. split.
  - intros [H1 H2 H3 H4 H5 H6 H7 H8 H9].
    apply mono_snoc in H1, H4, H6.
    rewrite shown_snoc in H2. rewrite shown_snoc in H5. rewrite shown_snoc in H7. rewrite shown_snoc in H8.
    apply Forall_app in H3 as [H3 H3'], H9 as [H9 H9']. rewrite Forall_singleton in H3', H9'.
    split; [constructor; try tauto; by eapply agree_prefix | tauto].
  - intros [[H1 H2 H3 H4 H5 H6 H7 H8 H9] H]. constructor; rewrite ?mono_snoc, ?shown_snoc, ?Forall_app, ?Forall_singleton; tauto.
Qed.

Lemma checkNode_outcome c at_ n ns ls :
  node_typed n → nodes_safe universe init ns → knows c (facts_of ns ls) →
  wp (checkNode marshal c at_ n) (outcome (next_safe ns n) (λ c', knows c' (facts_of (ns ++ [n]) ls))).
Proof.
  intros Ht [H1 H2 H3 H4 H5 H6 H7 H8 H9] Hk. unfold facts_of in *. rewrite !shown_snoc.
  apply (outcome_bind at_ _ _ (λ c', knows c' (mkFacts (ns ++ [n]) (shown vote_of ns ++ vote_of n) ns (shown commits_of ns) ns
    (shown applies_of ns) (shown snapshots_of ns) ls))).
  { eapply outcome_bind; [by apply durableTermStep_outcome | | intros c'; apply grows_bind; [by apply durableVoteStep_grows | intros; by apply volatileStep_grows]].
    intros c1 _ K1. eapply outcome_bind; [apply durableVoteStep_outcome; [exact K1 | exact H2] | | intros c'; by apply volatileStep_grows].
    intros c2 _ K2. apply volatileStep_outcome. exact K2. }
  2: { intros c'. repeat (apply grows_bind; [first [by apply checkCommittedHistory_grows | by apply checkAppliedHistory_grows | by apply checkSnapshotHistory_grows] | intros ?]).
       by apply checkMembershipHistory_grows. }
  intros c1 _ K1. eapply outcome_bind.
  { eapply outcome_bind; [apply commitIndexStep_outcome; [exact Ht | exact K1] | | intros c'; by apply committedLoop_grows].
    intros c2 _ K2. apply committedLoop_outcome; [exact K2 | exact H5]. }
  2: { intros c'. repeat (apply grows_bind; [first [by apply checkAppliedHistory_grows | by apply checkSnapshotHistory_grows] | intros ?]).
       by apply checkMembershipHistory_grows. }
  intros c2 _ K2. eapply outcome_bind.
  { eapply outcome_bind; [apply appliedIndexStep_outcome; [exact Ht | exact K2] | | intros c'; by apply appliedLoop_grows].
    intros c3 _ K3. apply appliedLoop_outcome; [exact K3 | exact H7]. }
  2: { intros c'. apply grows_bind; [by apply checkSnapshotHistory_grows | intros ?]. by apply checkMembershipHistory_grows. }
  intros c3 _ K3. eapply outcome_bind; [apply checkSnapshotHistory_outcome; [exact K3 | exact H8 | apply snapshots_key] | |].
  - intros c4 _ K4. apply checkMembershipHistory_outcome; [exact Ht | exact K4].
  - intros c'. by apply checkMembershipHistory_grows.
Qed.

Lemma nodes_safe_prefix ns ns' : nodes_safe universe init (ns ++ ns') → nodes_safe universe init ns.
Proof.
  induction ns' as [|n ns' IH] using rev_ind; [by rewrite app_nil_r |]. rewrite app_assoc, nodes_safe_snoc. tauto.
Qed.

Lemma checkNodes_outcome c at_ nodes ns ls :
  Forall node_typed nodes → nodes_safe universe init ns → knows c (facts_of ns ls) →
  wp (checkNodes marshal c at_ nodes)
    (outcome (nodes_safe universe init (ns ++ nodes)) (λ c', knows c' (facts_of (ns ++ nodes) ls))).
Proof.
  intros Ht. revert c ns. induction Ht as [|n nodes Hn Ht IH]; intros c ns Hs Hk; cbn [checkNodes].
  { rewrite app_nil_r. by apply outcome_done. }
  eapply wp_mono.
  - eapply outcome_bind; [by apply checkNode_outcome | | intros c'; by apply checkNodes_grows].
    intros c' Hnext Hk'. apply (IH c' (ns ++ [n])); [by apply nodes_safe_snoc | done].
  - intros c'. rewrite <- app_assoc. apply outcome_mono; [| done]. cbn [app]. split; [tauto |]. intros H. split; [| done].
    replace (ns ++ n :: nodes) with ((ns ++ [n]) ++ nodes) in H by by rewrite <- app_assoc.
    apply nodes_safe_prefix in H. by apply nodes_safe_snoc in H as [].
Qed.

(** ** Log matching *)

Definition equal_at (l r : NodeObservation) (i : Z) : Prop :=
  ∃ e, stateEntryAt (Durable l) i = Some e ∧ stateEntryAt (Durable r) i = Some e.
Definition same_term_at (l r : NodeObservation) (j : Z) : Prop :=
  ∃ le re, stateEntryAt (Durable l) j = Some le ∧ stateEntryAt (Durable r) j = Some re ∧ Term le = Term re.

Lemma nextConflict_None l r i conflict :
  nextConflict l r i conflict = None ↔ conflict = None ∧ equal_at l r i.
Proof.
  unfold nextConflict, equal_at. destruct conflict as [first|]; [split; [done | by intros []] |].
  destruct (stateEntryAt (Durable l) i) as [le|], (stateEntryAt (Durable r) i) as [re|];
    try (split; [done | by intros (_ & e & ? & ?)]).
  case_if; [apply entriesEqual_spec in Hif as -> | apply entriesEqual_false in Hif].
  - split; [eauto | done].
  - split; [done |]. intros (_ & e & [= ->] & [= ->]). done.
Qed.

Lemma matchStep_outcome c at_ l r i conflict f :
  knows c f →
  wp (matchStep marshal c at_ l r i conflict) (outcome (same_term_at l r i → conflict = None) (λ c', knows c' f)).
Proof.
  intros Hk. unfold matchStep, same_term_at.
  destruct conflict as [first|]; [| by apply outcome_done].
  destruct (stateEntryAt (Durable l) i) as [le|]; [| apply outcome_done; [by intros (? & ? & ? & _) | done]].
  destruct (stateEntryAt (Durable r) i) as [re|]; [| apply outcome_done; [by intros (? & ? & _ & ? & _) | done]].
  case_if; reflect.
  - apply outcome_add; [done | apply (k_clean _ _ Hk) |]. intros H. by specialize (H ltac:(eauto)).
  - apply outcome_done; [| done]. intros (? & ? & [= <-] & [= <-] & ?). done.
Qed.

Lemma matchLoop_outcome k c at_ l r i conflict f :
  knows c f →
  wp (matchLoop marshal k c at_ l r i conflict)
    (outcome (∀ j, i ≤ j ≤ i + Z.of_nat k → same_term_at l r j → conflict = None ∧ ∀ i', i ≤ i' ≤ j → equal_at l r i')
       (λ c', knows c' f)).
Proof.
  revert c i conflict. induction k as [|k IH]; intros c i conflict Hk; cbn [matchLoop].
  - eapply wp_mono; [eapply (outcome_bind at_); [by apply matchStep_outcome | intros c1 _ K1; apply (outcome_done True); [done | exact K1] |
      intros c'; apply wp_done, reports_grow_refl] |].
    intros c'. apply outcome_mono; [| done]. rewrite nextConflict_None. split.
    + intros [H _] j Hj Hsame. replace j with i in * by lia. destruct (H Hsame) as [Hc He]. split; [done |].
      intros i' Hi'. by replace i' with i by lia.
    + intros H. split; [| done]. intros Hsame. destruct (H i ltac:(lia) Hsame) as [Hc He]. split; [done | apply He; lia].
  - eapply wp_mono; [eapply outcome_bind; [by apply matchStep_outcome | intros c1 _ K1; apply IH; exact K1 |
      intros c'; by apply matchLoop_grows] |].
    intros c'. apply outcome_mono; [| done]. setoid_rewrite nextConflict_None. split.
    + intros [H0 H] j Hj Hsame. destruct (decide (j = i)) as [-> | Hne].
      * destruct (H0 Hsame) as [Hc He]. split; [done |]. intros i' Hi'. by replace i' with i by lia.
      * destruct (H j ltac:(lia) Hsame) as [[Hc He] Hall]. split; [done |]. intros i' Hi'.
        destruct (decide (i' = i)) as [-> | Hne']; [done |]. apply Hall. lia.
    + intros H. split.
      * intros Hsame. destruct (H i ltac:(lia) Hsame) as [Hc He]. split; [done | apply He; lia].
      * intros j Hj Hsame. destruct (H j ltac:(lia) Hsame) as [Hc He]. split; [split; [done | apply He; lia] |].
        intros i' Hi'. apply He. lia.
Qed.

(** An entry lies between the snapshot and the last index. *)
Lemma stateEntryAt_range st i e :
  stateEntryAt st i = Some e → i ≤ max_u64 → LastIncludedIndex (Snapshot_ st) < i ≤ stateLastIndex st.
Proof.
  unfold stateEntryAt, entryAt, stateLastIndex. intros H Hi. case_if_in H; [done |]. cbv zeta in H.
  case_if_in H; [done |]. reflect. case_if; reflect; lia.
Qed.

Lemma checkPair_outcome c at_ l r f :
  node_typed l → node_typed r → knows c f →
  wp (checkPair marshal c at_ l r) (outcome (logs_match l r) (λ c', knows c' f)).
Proof.
  intros (_ & _ & _ & _ & Hl) (_ & _ & _ & _ & Hr) Hk. unfold checkPair, logs_match. cbv zeta.
  fold (snapshot_of l) (snapshot_of r). unfold is_u64 in *.
  set (b := Z.max (LastIncludedIndex (snapshot_of l)) (LastIncludedIndex (snapshot_of r))).
  assert (Hrange : ∀ j, same_term_at l r j → b < j ≤ max_u64 → j ≤ Z.min (stateLastIndex (Durable l)) (stateLastIndex (Durable r))).
  { intros j (le & re & H1 & H2 & _) Hj. apply stateEntryAt_range in H1, H2; lia. }
  case_if; reflect; [apply outcome_done; [lia | done] |].
  case_if; reflect.
  { apply outcome_done; [| done]. intros j le re Hj H1 H2 H3. specialize (Hrange j ltac:(unfold same_term_at; eauto) Hj). lia. }
  eapply wp_mono; [by apply matchLoop_outcome |]. intros c'. apply outcome_mono; [| done].
  rewrite Z2Nat.id by lia. unfold equal_at. split.
  - intros H j le re Hj H1 H2 H3. assert (Hs : same_term_at l r j) by (unfold same_term_at; eauto).
    destruct (H j ltac:(specialize (Hrange j Hs Hj); lia) Hs) as [_ Hall]. intros i Hi. apply Hall. lia.
  - intros H j Hj (le & re & H1 & H2 & H3). split; [done |]. intros i Hi. apply (H j le re); try done; try lia.
    assert (stateLastIndex (Durable l) ≤ max_u64); [| lia]. unfold stateLastIndex. case_if; reflect; lia.
Qed.

Lemma pairsLoop_outcome c at_ l rs f :
  node_typed l → Forall node_typed rs → knows c f →
  wp (pairsLoop marshal c at_ l rs) (outcome (Forall (logs_match l) rs) (λ c', knows c' f)).
Proof.
  intros Hl Hrs. revert c. induction Hrs as [|r rs Hr Hrs IH]; intros c Hk; cbn [pairsLoop]; [by apply outcome_done |].
  eapply wp_mono; [eapply (outcome_bind at_); [by apply checkPair_outcome | intros c1 _ K1; apply IH; exact K1 |] |].
  - intros c'. clear IH. revert c'. induction rs as [|r' rs IH]; intros c'; [apply wp_done, reports_grow_refl |].
    apply grows_bind; [by apply checkPair_grows |]. apply IH. by inversion Hrs.
  - intros c'. apply outcome_mono; [by rewrite Forall_cons | done].
Qed.

Lemma checkLogs_outcome c at_ ns f :
  Forall node_typed ns → knows c f →
  wp (checkLogs marshal c at_ ns) (outcome (all_logs_match ns) (λ c', knows c' f)).
Proof.
  intros Hns. revert c. induction Hns as [|n ns Hn Hns IH]; intros c Hk; cbn [checkLogs all_logs_match]; [by apply outcome_done |].
  eapply outcome_bind; [by apply pairsLoop_outcome | intros c1 _ K1; apply IH; exact K1 | intros c'; by apply checkLogs_grows].
Qed.

(** ** Leaders *)

Lemma leaderStep_outcome c at_ id term T V C E A P S L :
  knows c (mkFacts T V C E A P S L) → agree (λ v, v) L →
  wp (leaderStep marshal c at_ id term)
    (outcome (agree (λ v, v) (L ++ [(term, id)])) (λ c', knows c' (mkFacts T V C E A P S (L ++ [(term, id)])))).
Proof.
  intros Hk Hag. unfold leaderStep. cbv zeta. rewrite (k_leaders _ _ Hk). cbn [fL].
  destruct (list_to_map L !! term) as [previous|] eqn:Hp.
  - case_if; reflect.
    + apply outcome_add; [done | apply (k_clean _ _ Hk) |]. rewrite agree_snoc by done. intros H. by apply Hif, H.
    + subst previous. apply outcome_done; [apply agree_snoc; [done |]; congruence |].
      destruct Hk; constructor; try done. cbn [set_leaders leaders fL] in *. rewrite facts_snoc_stale by (by eexists).
      by apply insert_id.
  - apply outcome_done; [apply agree_snoc; [done |]; congruence |].
    destruct Hk; constructor; try done. cbn [set_leaders leaders fL] in *. by rewrite facts_snoc_fresh.
Qed.

Lemma certified_spec c ns ls term id :
  knows c (facts_of ns ls) → agree (λ v, v) (shown vote_of ns) → id ≠ EmptyString →
  certified c term id = filter (λ v, (v, term, id) ∈ shown vote_of ns) universe.
Proof.
  intros Hk Hag Hid. unfold certified. rewrite (k_members _ _ Hk). apply list_filter_iff. intros v.
  rewrite (k_votes _ _ Hk). cbn [facts_of fV]. split.
  - destruct (list_to_map (shown vote_of ns) !! (v, term)) as [w|] eqn:E; cbn; [| congruence].
    intros ->. by apply facts_lookup_in in E.
  - intros Hin. destruct (list_to_map (shown vote_of ns) !! (v, term)) as [w|] eqn:E.
    + apply facts_lookup_in in E. cbn. by apply (Hag _ _ _ E Hin).
    + rewrite facts_lookup_None in E. by destruct (E id).
Qed.

Lemma certificateStep_outcome c at_ n status ns ls :
  knows c (facts_of ns ls) → agree (λ v, v) (shown vote_of ns) → ObID n ≠ EmptyString →
  wp (certificateStep marshal c at_ (ObID n) status)
    (outcome (let m := if decide (Voters (StElectionMembership status) = []) then init else StElectionMembership status in
       validateMembership m universe = true ∧
       HasQuorum m (filter (λ v, (v, StTerm status, ObID n) ∈ shown vote_of ns) universe) = true) (λ c', knows c' (facts_of ns ls))).
Proof.
  intros Hk Hag Hid. unfold certificateStep, electionMembership. cbv zeta.
  rewrite (certified_spec _ _ _ _ _ Hk Hag Hid), CloneMembership_id, (k_initial _ _ Hk), (k_members _ _ Hk).
  replace (if (length (Voters (StElectionMembership status)) =? 0)%nat then init else StElectionMembership status)
    with (if decide (Voters (StElectionMembership status) = []) then init else StElectionMembership status)
    by (destruct (Voters (StElectionMembership status)); done).
  rewrite ValidateMembership_universe. case_if; reflect.
  - apply outcome_add; [done | apply (k_clean _ _ Hk) |]. intros [H1 H2]. destruct Hif; congruence.
  - by apply outcome_done.
Qed.

Lemma completenessLoop_outcome c at_ id status indexes f :
  knows c f →
  wp (completenessLoop marshal c at_ id status indexes)
    (outcome (∀ index w, index ∈ indexes → (list_to_map (fE f) : gmap Z entryWitness) !! index = Some w →
       statusEntryAt status index = Some (WEntry w)) (λ c', knows c' f)).
Proof.
  revert c. induction indexes as [|i indexes IH]; intros c Hk; cbn [completenessLoop]; [apply outcome_done; [set_solver | done] |].
  eapply wp_mono; [eapply (outcome_bind at_ (∀ w, (list_to_map (fE f) : gmap Z entryWitness) !! i = Some w →
    statusEntryAt status i = Some (WEntry w)) _ (λ c', knows c' f)) | ].
  - unfold completenessStep. rewrite (k_committed _ _ Hk).
    destruct (list_to_map (fE f) !! i) as [w|]; [| by apply outcome_done].
    destruct (statusEntryAt status i) as [e|].
    + case_if; reflect; [apply entriesEqual_false in Hif | apply entriesEqual_spec in Hif].
      * apply outcome_add; [done | apply (k_clean _ _ Hk) |]. intros H. specialize (H w eq_refl). congruence.
      * apply outcome_done; [| exact Hk]. congruence.
    + apply outcome_add; [done | apply (k_clean _ _ Hk) |]. intros H. by specialize (H w eq_refl).
  - intros c1 _ K1. apply IH. exact K1.
  - intros c'. by apply completenessLoop_grows.
  - intros c'. apply outcome_mono; [| done]. setoid_rewrite elem_of_cons. naive_solver.
Qed.

Lemma elem_of_committedIndexes c status f index :
  knows c f →
  index ∈ committedIndexes c status ↔
  ∃ w, (list_to_map (fE f) : gmap Z entryWitness) !! index = Some w ∧ CommitTerm w ≤ StTerm status ∧
       LastIncludedIndex (StSnapshot status) < index.
Proof.
  intros Hk. unfold committedIndexes. rewrite merge_sort_Permutation, list_elem_of_fmap, (k_committed _ _ Hk).
  setoid_rewrite list_elem_of_filter. split.
  - intros ([i w] & -> & [H1 H2] & H3%elem_of_map_to_list). eauto.
  - intros (w & H1 & H2 & H3). exists (index, w). by rewrite elem_of_map_to_list.
Qed.

Lemma checkLeader_outcome c at_ n status ns ls :
  node_typed n → leading n = Some status → agree (λ v, v) (shown vote_of ns) → agree (λ v, v) ls → knows c (facts_of ns ls) →
  wp (checkLeader marshal c at_ (ObID n) status)
    (outcome (agree (λ v, v) (ls ++ leads_of n) ∧ leader_ok universe init ns n) (λ c', knows c' (facts_of ns (ls ++ leads_of n)))).
Proof.
  intros (Hid & _) Hl Hagv Hagl Hk. unfold leads_of, leader_ok. rewrite Hl.
  eapply wp_mono; [eapply outcome_bind; [apply leaderStep_outcome; [exact Hk | exact Hagl] | | intros c'; apply grows_bind;
    [by apply certificateStep_grows | intros c''; by apply completenessLoop_grows]] |].
  - intros c1 _ K1. eapply outcome_bind;
      [by apply (certificateStep_outcome _ _ n status ns (ls ++ [(StTerm status, ObID n)])) | | intros c'; by apply completenessLoop_grows].
    intros c2 _ K2. eapply wp_mono; [apply completenessLoop_outcome; exact K2 |]. intros c'.
    apply outcome_mono; [| intros _ K3; exact K3]. setoid_rewrite (elem_of_committedIndexes _ _ _ _ K2). reflexivity.
  - intros c'. cbn [facts_of fE]. cbv zeta. apply outcome_mono; [| done]. split.
    + intros (H1 & H2 & H3). split; [done |]. intros status' [= <-]. split; [done |]. intros index w Hw Ht Hb.
      apply H3; [by exists w | done].
    + intros (H1 & H2). destruct (H2 status eq_refl) as [H3 H4]. split; [done |]. split; [done |].
      intros index w (w' & Hw' & Ht & Hb) Hw. rewrite Hw' in Hw. injection Hw as <-. by apply H4.
Qed.

Lemma checkLeaders_outcome c at_ nodes ns ls :
  Forall node_typed nodes → agree (λ v, v) (shown vote_of ns) → agree (λ v, v) ls → knows c (facts_of ns ls) →
  wp (checkLeaders marshal c at_ nodes)
    (outcome (agree (λ v, v) (ls ++ shown leads_of nodes) ∧ Forall (leader_ok universe init ns) nodes)
       (λ c', knows c' (facts_of ns (ls ++ shown leads_of nodes)))).
Proof.
  intros Ht Hagv. revert c ls. induction Ht as [|n nodes Hn Ht IH]; intros c ls Hagl Hk; cbn [checkLeaders].
  { unfold shown. simpl. rewrite app_nil_r. apply outcome_done; [by split | done]. }
  change (shown leads_of (n :: nodes)) with (leads_of n ++ shown leads_of nodes). rewrite app_assoc.
  eapply wp_mono; [eapply (outcome_bind at_ (agree (λ v, v) (ls ++ leads_of n) ∧ leader_ok universe init ns n)
    _ (λ c', knows c' (facts_of ns (ls ++ leads_of n)))) |].
  - destruct (leading n) as [status|] eqn:Hl; [by apply checkLeader_outcome |].
    unfold leads_of. rewrite Hl, app_nil_r. apply outcome_done; [split; [done |]; by intros ? ?%(eq_trans (eq_sym Hl)) | done].
  - intros c1 [H1 _] K1. by apply IH.
  - intros c'. by apply checkLeaders_grows.
  - intros c'. apply outcome_mono; [| done]. rewrite Forall_cons. split; [tauto |]. intros (H1 & H2 & H3).
    pose proof (agree_prefix _ _ _ H1). tauto.
Qed.

(** ** Whole histories *)

Definition observation_typed (o : Observation) : Prop := Forall node_typed (ObNodes o).

Lemma sorted_typed o : observation_typed o → Forall node_typed (sorted o).
Proof. intros H. unfold sorted. by rewrite merge_sort_Permutation. Qed.

(** What an observation adds to the safety of a history. *)
Definition observation_safe (ns : list NodeObservation) (o : Observation) : Prop :=
  nodes_safe universe init (ns ++ sorted o) ∧ all_logs_match (sorted o) ∧
  agree (λ v, v) (shown leads_of ns ++ shown leads_of (sorted o)) ∧ Forall (leader_ok universe init (ns ++ sorted o)) (sorted o).

Lemma Observe_outcome c o ns :
  observation_typed o → nodes_safe universe init ns → agree (λ v, v) (shown leads_of ns) →
  knows c (facts_of ns (shown leads_of ns)) →
  wp (Observe marshal c o) (λ r, outcome (observation_safe ns o)
    (λ c', knows c' (facts_of (ns ++ sorted o) (shown leads_of (ns ++ sorted o)))) r.1).
Proof.
  intros Ht Hs Hag Hk. unfold Observe. cbv zeta. fold (sorted o). pose proof (sorted_typed o Ht) as Ht'.
  assert (H : wp (c ← checkNodes marshal c (At o) (sorted o); c ← checkLogs marshal c (At o) (sorted o);
                  checkLeaders marshal c (At o) (sorted o))
    (outcome (observation_safe ns o) (λ c', knows c' (facts_of (ns ++ sorted o) (shown leads_of (ns ++ sorted o)))))).
  { eapply outcome_bind; [by apply checkNodes_outcome | | intros c'; apply grows_bind; [by apply checkLogs_grows | intros; by apply checkLeaders_grows]].
    intros c1 Hs1 K1. eapply outcome_bind; [apply checkLogs_outcome; [exact Ht' | exact K1] | | intros c'; by apply checkLeaders_grows].
    intros c2 _ K2. rewrite shown_app. apply checkLeaders_outcome; [exact Ht' | apply (safe_votes _ _ _ Hs1) | exact Hag | exact K2]. }
  destruct (checkNodes marshal c (At o) (sorted o)) as [c1|]; [| done]. cbn [mbind go_bind] in *.
  destruct (checkLogs marshal c1 (At o) (sorted o)) as [c2|]; [| done]. cbn [mbind go_bind] in *.
  by destruct (checkLeaders marshal c2 (At o) (sorted o)).
Qed.

Lemma nodes_of_snoc os o : nodes_of (os ++ [o]) = nodes_of os ++ sorted o.
Proof. unfold nodes_of. rewrite map_app, concat_app. simpl. by rewrite app_nil_r. Qed.

Lemma history_safe_snoc os o :
  history_safe universe init (os ++ [o]) ↔ history_safe universe init os ∧ observation_safe (nodes_of os) o.
Proof.
  unfold observation_safe. split.
  - intros [H1 H2 H3 H4]. rewrite nodes_of_snoc in H1. rewrite nodes_of_snoc, shown_app in H3.
    apply Forall_app in H2 as [H2 H2']. rewrite Forall_singleton in H2'.
    split; [constructor; [by eapply nodes_safe_prefix | done | by eapply agree_prefix |] | split; [done | split; [done | split; [done |]]]].
    + intros k o' Hk. pose proof (lookup_lt_Some _ _ _ Hk). specialize (H4 k o').
      rewrite lookup_app_l, take_app_le in H4 by lia. by apply H4.
    + specialize (H4 (length os) o (list_lookup_middle _ _ _ _ eq_refl)).
      rewrite take_ge, nodes_of_snoc in H4 by (rewrite length_app; simpl; lia). done.
  - intros [[H1 H2 H3 H4] (H5 & H6 & H7 & H8)]. constructor; rewrite ?nodes_of_snoc, ?shown_app; try done.
    + apply Forall_app. split; [done | by apply Forall_singleton].
    + intros k o' Hk. apply lookup_app_Some in Hk as [Hk|[Hge Hk]].
      * pose proof (lookup_lt_Some _ _ _ Hk). rewrite take_app_le by lia. by apply H4.
      * apply list_lookup_singleton_Some in Hk as [Hk <-].
        rewrite take_ge, nodes_of_snoc by (rewrite length_app; simpl; lia). done.
Qed.

(** Dirty checkers stay dirty. *)
Lemma observe_all_outcome os os' c :
  Forall observation_typed os' → history_safe universe init os → knows c (facts_of (nodes_of os) (shown leads_of (nodes_of os))) →
  wp (observe_all marshal c os') (λ r, outcome (history_safe universe init (os ++ os')) (λ _, True) r.1 ∧
    (history_safe universe init (os ++ os') → clean r.1)).
Proof.
  intros Ht. revert os c. induction Ht as [|o os' Ho Ht IH]; intros os c Hs Hk; cbn [observe_all].
  { rewrite app_nil_r. apply wp_done. split; [by left | intros _; apply (k_clean _ _ Hk)]. }
  replace (os ++ o :: os') with ((os ++ [o]) ++ os') by by rewrite <- app_assoc.
  apply wp_bind. eapply wp_mono; [apply (Observe_outcome c o (nodes_of os)); [done | apply Hs | apply Hs | done] |].
  intros [c1 first] [[Ho' K1] | [Hno Hd]]; cbn [fst] in *.
  - assert (Hs1 : history_safe universe init (os ++ [o])) by by apply history_safe_snoc.
    apply wp_bind. eapply wp_mono; [apply (IH (os ++ [o]) c1 Hs1); by rewrite nodes_of_snoc |].
    intros [c2 rest] H2. by apply wp_done.
  - apply wp_bind. eapply wp_mono; [by apply observe_all_grows |]. intros [c2 rest] [Hg _]. apply wp_done. cbn [fst] in *.
    assert (Hno' : ¬ history_safe universe init ((os ++ [o]) ++ os')).
    { intros H. apply Hno. clear -H. induction os' as [|o' os' IH] using rev_ind;
        [rewrite app_nil_r in H; by apply history_safe_snoc in H as [] |].
      rewrite app_assoc in H. apply history_safe_snoc in H as [H _]. by apply IH. }
    split; [right; split; [done | by eapply grown_dirty] | done].
Qed.
End Safe.

(** C16.  The checker is sound and complete on whole histories: it reports nothing exactly
    when the history is safe: on every node terms, commit and applied indices never go
    back, a vote of a term is never changed, the volatile state is the durable one and
    the log's configurations are transitions of the protocol; across nodes committed
    entries, applied entries and snapshots agree at their index and logs match above the
    snapshots; a term has one leader, which holds the votes of a quorum of its
    configuration and every entry committed in terms up to its own. *)
Theorem no_violation_iff_history_safe (marshal : evidence → bytes) (ms : list NodeID) (init : Membership) (os : list Observation) :
  (∀ e, json_valid (marshal e) = true) → Forall observation_typed os →
  ∃ c new, observe_all marshal (NewWithMembership ms init) os = Done (c, new) ∧
    (new = [] ↔ history_safe (sort_nodes ms) init os).
Proof.
  intros Hm Ht.
  assert (K : knows ms init (NewWithMembership ms init) (facts_of (nodes_of []) (shown leads_of (nodes_of [])))).
  { constructor; try done. change (CloneMembership init = init). apply CloneMembership_id. }
  assert (H0 : history_safe (sort_nodes ms) init []).
  { constructor; [constructor; try constructor | constructor | |]; try (intros ?; intros; set_solver). all: intros; done. }
  pose proof (observe_all_outcome marshal Hm ms init [] os _ Ht H0 K) as H. cbn [app] in H.
  pose proof (wp_and _ _ _ H (observe_all_grows marshal Hm (NewWithMembership ms init) os)) as H'.
  apply wp_inv in H' as ([c new] & E & [Ho Hc] & _ & Hv). exists c, new. split; [done |]. cbn [fst snd] in *.
  cbn [violations NewWithMembership app] in Hv. rewrite <- Hv. split.
  - intros Hnil. destruct Ho as [[Hs _] | [_ Hd]]; [done |]. by destruct Hd.
  - intros Hs. apply Hc, Hs.
Qed.

(** * Witnesses for the checker's properties, and runs of the source's tests

    The encoder is instantiated by one that writes the constructor's fields that matter
    to the examples. *)

Definition demo_marshal (e : evidence) : bytes :=
  match e with
  | EvVotes term first second =>
    encode_object [encode_member "first" (encode_string first); encode_member "second" (encode_string second);
                   encode_member "term" (encode_int term)]
  | EvMatching i j t => encode_object [encode_member "matching_index" (encode_int i)]
  | _ => encode_object []
  end.

(** An encoder whose texts are all valid. *)
Definition constant_marshal (e : evidence) : bytes := encode_object [].

Lemma constant_marshal_valid e : json_valid (constant_marshal e) = true.
Proof. vm_compute. reflexivity. Qed.

Definition demo_state (hard : HardState) (log : list Entry) : PersistentState := mkPersistentState hard emptySnapshot log.
Definition demo_node (id : NodeID) (hard : HardState) (log : list Entry) : NodeObservation :=
  mkNodeObservation id true None (demo_state hard log) 0 [].
Definition demo_entry (i t : Z) (s : string) : Entry := mkEntry i t EntryCommand (str s) emptyMembership.
Definition demo_observation (nodes : list NodeObservation) : Observation := mkObservation 7 ["a"; "b"; "c"]%string nodes.
Definition demo_members : list NodeID := ["a"; "b"; "c"]%string.
Definition demo_checker : Checker := NewWithMembership demo_members (stableMembership demo_members []).

(** The identifiers reported over some observations. *)
Definition reported (os : list Observation) : go (list string) :=
  '(_, new) ← observe_all demo_marshal demo_checker os; Done (map VID new).

Definition demo_hard (term : Z) (vote : NodeID) (commit : Z) : HardState := mkHardState term vote commit.

(** The tests of the source: a changed vote, a committed conflict. *)
Example finds_double_vote :
  reported [demo_observation [demo_node "a" (demo_hard 2 "b" 0) []]; demo_observation [demo_node "a" (demo_hard 2 "c" 0) []]] =
  Done [DurableDoubleVote].
Proof. vm_compute. reflexivity. Qed.

Example finds_committed_conflict :
  reported [demo_observation [demo_node "a" (demo_hard 1 "a" 1) [demo_entry 1 1 "left"]; demo_node "b" (demo_hard 1 "a" 1) [demo_entry 1 1 "right"]]] =
  Done [CommittedConflict; LogMatching].
Proof. vm_compute. reflexivity. Qed.

(** The same evidence is reported once. *)
Example reports_once :
  let o := demo_observation [demo_node "a" (demo_hard 1 "a" 1) [demo_entry 1 1 "left"]; demo_node "b" (demo_hard 1 "a" 1) [demo_entry 1 1 "right"]] in
  reported [o; o] = Done [CommittedConflict; LogMatching].
Proof. vm_compute. reflexivity. Qed.

(** A node that first voted for itself and then for another in one term: the report names
    the node twice, and the validation of violations refuses the checker's own report. *)
Theorem self_vote_report_is_refused :
  match observe_all demo_marshal demo_checker
          [demo_observation [demo_node "a" (demo_hard 2 "a" 0) []]; demo_observation [demo_node "a" (demo_hard 2 "b" 0) []]] with
  | Done (_, [v]) =>
    (VID v, VNodes v, ValidateViolationForSchema SchemaVersion v) =
    (DurableDoubleVote, ["a"; "a"; "b"]%string, Some ErrNodesEmptyOrDuplicated)
  | _ => False
  end.
Proof. vm_compute. reflexivity. Qed.

(** A clean election. *)
Definition demo_leader : NodeObservation :=
  mkNodeObservation "a" true
    (Some (mkStatus "a" Leader 1 "a" "a" 0 0 1 1 emptySnapshot (stableMembership demo_members []) [demo_entry 1 1 "x"]
             ["a"; "b"]%string (stableMembership demo_members []) false 0))
    (demo_state (demo_hard 1 "a" 0) [demo_entry 1 1 "x"]) 0 [].
Definition demo_history : list Observation :=
  [demo_observation [demo_leader; demo_node "b" (demo_hard 1 "a" 0) []; demo_node "c" (demo_hard 0 EmptyString 0) []];
   demo_observation [demo_node "c" (demo_hard 1 "a" 0) []; demo_leader]].

Lemma demo_history_typed : Forall observation_typed demo_history.
Proof. repeat constructor; vm_compute; done. Qed.

Lemma reports_unique_and_valid_witness :
  ∃ c new, observe_all constant_marshal (NewWithMembership demo_members emptyMembership) demo_history = Done (c, new) ∧
    Violations_ c = new ∧ NoDup (map VFingerprint new) ∧
    ∀ v, v ∈ new →
      StronglySorted String.le (VNodes v) ∧ Fingerprint (VID v) (VNodes v) (Evidence v) = inr (VFingerprint v) ∧
      (ValidateViolationForSchema SchemaVersion v = None ↔ NoDup (VNodes v) ∧ EmptyString ∉ VNodes v).
Proof. exact (reports_unique_and_valid constant_marshal constant_marshal_valid demo_members emptyMembership demo_history). Defined.

Lemma no_violation_iff_history_safe_witness :
  history_safe (sort_nodes demo_members) (stableMembership demo_members []) demo_history.
Proof.
  destruct (no_violation_iff_history_safe constant_marshal demo_members (stableMembership demo_members []) demo_history
              constant_marshal_valid demo_history_typed) as (c & new & E & Hiff).
  apply Hiff.
  assert (H : (match observe_all constant_marshal (NewWithMembership demo_members (stableMembership demo_members [])) demo_history with
               | Done (_, new) => new | Panic => [mkViolation EmptyString 0 [] [] EmptyString] end) = []) by (vm_compute; reflexivity).
  rewrite E in H. exact H.
Defined.
