(* ===== verification/Scenario.v ===== *)
(** * Run artifacts: the data (artifact/artifact.go)

    Scenarios, configurations and runs.  The flags that remember whether a role field was
    present in the JSON text are fields, as in the source; the enumerations are strings. *)

From S2P Require Import Prelude RaftTypes Outcome.
From S2P Require Rand Decision.
From stdpp Require Import options.

#[global] Open Scope Z_scope.

(** ** Constants *)

Definition RunSchemaV1 : string := "d-raft.run/v1".
Definition RunSchemaV2 : string := "d-raft.run/v2".
Definition RunSchemaVersion : string := "d-raft.run/v3".
Definition ReferenceAdapterID : string := "d-raft/reference".
Definition ReferenceAdapterV1 : string := "1".
Definition ReferenceAdapterV2 : string := "2".
Definition ReferenceAdapterV3 : string := "3".
Definition ReferenceAdapterCurrent : string := ReferenceAdapterV3.
Definition MessageCodecV1 : string := "d-raft.raft-message/json-v1".
Definition MessageCodecV2 : string := "d-raft.raft-message/json-v2".
Definition MessageCodecV3 : string := "d-raft.raft-message/json-v3".
Definition MessageCodecCurrent : string := MessageCodecV3.
Definition ObservationSchemaV1 : string := "d-raft.observation/v1".
Definition ObservationSchemaV2 : string := "d-raft.observation/v2".
Definition ObservationSchemaV3 : string := "d-raft.observation/v3".
Definition ObservationSchemaCurrent : string := ObservationSchemaV3.
Definition DefaultMaxArtifactBytes : Z := 67108864.
Definition MaxMembers : Z := 31.
Definition MaxActions : Z := 10000.
Definition MaxDecisions : Z := 100000.
Definition MaxActionPayloadBytes : Z := 1048576.
Definition MaxDecisionContextBytes : Z := 1048576.
Definition MaxDecisionOptions : Z := 1024.
Definition MaxTotalDecisionOptions : Z := 1000000.
Definition MaxDecisionTextBytes : Z := 4096.
Definition MaxViolations : Z := 1024.
Definition MaxViolationEvidenceBytes : Z := 1048576.
Definition MaxOutcomeErrorBytes : Z := 4096.
Definition MaxScenarioSteps : Z := 1000000.
Definition MaxVirtualDurationNS : Z := 86400000000000.

Definition ActionPropose : string := "propose".
Definition ActionCrash : string := "crash".
Definition ActionRestart : string := "restart".
Definition ActionCrashAfterNextPersist : string := "crash_after_next_persist".
Definition ActionSnapshot : string := "snapshot".
Definition ActionBeginMembership : string := "begin_membership".
Definition ActionFinalizeMembership : string := "finalize_membership".
Definition ActionPartition : string := "partition".
Definition ActionHeal : string := "heal".

(** ** Data *)

Record Action := mkAction {
  ActAtNS : Z;
  ActKind : string;
  ActNode : NodeID;
  ActData : bytes;
  ActGroups : list (list NodeID);
  ActVoters : list NodeID;
  ActLearners : list NodeID;
  actVotersPresent : bool;
  actLearnersPresent : bool }.

Record Scenario := mkScenario {
  ScID : string;
  ScVersion : string;
  DurationNS : Z;
  ScMaxSteps : Z;
  Actions : list Action }.

Record Adapter := mkAdapter { AdID : string; AdVersion : string }.

Record Configuration := mkConfiguration {
  CnMembers : list NodeID;
  CnVoters : list NodeID;
  CnLearners : list NodeID;
  InfrastructureSeed : Z;
  NetworkMinLatencyNS : Z;
  NetworkMaxLatencyNS : Z;
  NetworkLossProbability : Rand.float64;
  ElectionTimeoutMinNS : Z;
  ElectionTimeoutMaxNS : Z;
  HeartbeatIntervalNS : Z;
  StorageLatencyNS : Z;
  CnStopOnViolation : bool;
  cnVotersPresent : bool;
  cnLearnersPresent : bool }.

Record Reproducibility := mkReproducibility {
  DecisionSeed : Z;
  GitRevision : string;
  GitModified : bool;
  GoVersion : string;
  DecisionSchema : string;
  CheckerSchema : string;
  MessageCodec : string;
  ObservationSchema : string }.

Record Run := mkRun {
  RunSchema : string;
  RunScenario : Scenario;
  RunAdapter : Adapter;
  RunConfiguration : Configuration;
  RunReproducibility : Reproducibility;
  Decisions : Decision.Tape;
  RunOutcome : Outcome }.

(** ** Copies (minimize/minimize.go) *)

Definition cloneAction (action : Action) : Action :=
  mkAction (ActAtNS action) (ActKind action) (ActNode action) (slices_Clone (ActData action))
    (map slices_Clone (ActGroups action)) (slices_Clone (ActVoters action)) (slices_Clone (ActLearners action))
    (actVotersPresent action) (actLearnersPresent action).

Definition set_Actions (scenario : Scenario) (actions : list Action) : Scenario :=
  mkScenario (ScID scenario) (ScVersion scenario) (DurationNS scenario) (ScMaxSteps scenario) actions.

Definition cloneScenario (scenario : Scenario) : Scenario :=
  set_Actions scenario (map cloneAction (Actions scenario)).

Lemma map_slices_Clone {A} (l : list (list A)) : map slices_Clone l = l.
Proof. apply map_id. Qed.

Lemma cloneAction_id a : cloneAction a = a.
Proof. destruct a. unfold cloneAction. simpl. by rewrite map_slices_Clone. Qed.

Lemma cloneScenario_id s : cloneScenario s = s.
Proof.
  destruct s as [i v d m actions]. unfold cloneScenario, set_Actions. simpl. f_equal.
  induction actions as [|a actions IH]; simpl; [done |]. by rewrite cloneAction_id, IH.
Qed.
