(* ===== verification/ClusterState.v ===== *)
(** * The cluster harness: state and computations (raftsim/cluster.go)

    The configuration, the processes with their durable stores, and the cluster, which
    composes the Raft node (Node.v), the network over the scheduler (Network.v), the
    semantic decider (Decision.v), the portable application (AppOracle.v) and the safety
    checker (Check.v).  The files of these parts use the same short names, as the Go
    packages do; they are required without importing them and their definitions are named
    in full.

    A method of the cluster is a computation: it may panic, run out of the fuel of a
    sampling, or return an error after it has changed the state. *)

From S2P Require Import Prelude RaftTypes Membership Outcome.
From S2P Require Node Simulator Network Decision Check AppOracle JsonEnc Digest Rand.
From Stdlib Require Import QArith.QArith.
From stdpp Require Import pretty options.

#[global] Open Scope Z_scope.

(** ** Errors *)

Inductive ClusterError :=
| ErrInvalidConfig | ErrUnknownNode | ErrNodeDown | ErrNodeUp | ErrNoLeader | ErrApplyOrder
| ErrTransportIdentity | ErrUncacheableState | ErrApplicationDisabled | ErrApplicationSnapshot
| ErrAlreadyBootstrapped | ErrOverlappingPersistence | ErrNoApplication | ErrEncoding
| ErrRaft (e : RaftTypes.Error)
| ErrSim (e : Simulator.SimError)
| ErrNet (e : Network.NetError)
| ErrDecision (e : Decision.DecisionError)
| ErrApp (e : AppOracle.AppError)
| ErrViolation (v : Violation).

(** The error of a decider as the network's decision source returns it. *)
Definition decisionError (e : Decision.DecisionError) : Network.NetError :=
  Network.ErrCallback
    match e with
    | Decision.ErrInvalidChoice => 1
    | Decision.ErrTapeExhausted _ => 2
    | Decision.ErrTapeMismatch => 3
    | Decision.ErrTapeNotConsumed => 4
    | Decision.ErrOpenChoice _ _ => 5
    | Decision.ErrNoBase => 6
    | Decision.ErrNoFallback => 7
    | Decision.ErrOther n => 8 + n
    end.

(** ** Configuration *)

(** The fields of [Config] but the decider, whose state is part of the network's, and the
    trace sink, which is nil. *)
Record ClusterConfig := mkClusterConfig {
  CcMembers : list NodeID;
  CcVoters : list NodeID;
  CcLearners : list NodeID;
  Seed : Z;
  CcNetwork : Network.LinkConfig;
  ElectionTimeoutMin : Z;
  ElectionTimeoutMax : Z;
  HeartbeatInterval : Z;
  StorageLatency : Z;
  StopOnViolation : bool;
  Application : option AppOracle.AppConfig }.

Definition millisecond : Z := 1000000.

Definition DefaultConfig (members : list NodeID) : ClusterConfig :=
  mkClusterConfig (slices_Clone members) [] [] 0
    (Network.mkLink (5 * millisecond) (25 * millisecond) (Rand.FQ 0%Q))
    (150 * millisecond) (300 * millisecond) (50 * millisecond) millisecond true None.

(** The loop over the sorted members: no empty member, no neighbours that are equal. *)
Fixpoint checkMembers (previous : option NodeID) (members : list NodeID) : bool :=
  match members with
  | [] => true
  | member :: members =>
    negb (String.eqb member "") &&
    match previous with Some p => negb (String.eqb member p) | None => true end &&
    checkMembers (Some member) members
  end.

Definition validateConfig (c : ClusterConfig) : option ClusterError :=
  let members := sort_nodes (slices_Clone (CcMembers c)) in
  if zlen (CcMembers c) =? 0 then Some ErrInvalidConfig
  else if negb (checkMembers None members) then Some ErrInvalidConfig
  else if ((0 <? zlen (CcVoters c)) || (0 <? zlen (CcLearners c))) &&
          negb (ValidateMembership (stableMembership (CcVoters c) (CcLearners c)) members)
  then Some ErrInvalidConfig
  else match Network.Validate (CcNetwork c) with
  | Some _ => Some ErrInvalidConfig
  | None =>
    if (ElectionTimeoutMin c <=? 0) || (ElectionTimeoutMax c <? ElectionTimeoutMin c) then Some ErrInvalidConfig
    else if (HeartbeatInterval c <=? 0) || (ElectionTimeoutMin c <=? HeartbeatInterval c) then Some ErrInvalidConfig
    else if StorageLatency c <? 0 then Some ErrInvalidConfig
    else match Application c with
    | None => None
    | Some application =>
      match AppOracle.ValidateConfig application with Some _ => Some ErrInvalidConfig | None => None end
    end
  end.

(** ** Messages on the network *)

Record Envelope := mkEnvelope {
  SenderIncarnation : Z; SendSequence : Z; OperationIDs : list string; EnvMessage : Message }.

Definition cloneEnvelope (envelope : Envelope) : Envelope :=
  mkEnvelope (SenderIncarnation envelope) (SendSequence envelope)
    (slices_Clone (OperationIDs envelope)) (CloneMessage (EnvMessage envelope)).

(** ** Processes *)

Record Store := mkStore {
  StState : PersistentState; StAppliedIndex : Z; StApplied : list Entry; StInstalledSnapshot : Snapshot }.

Definition cloneStore (s : Store) : Store :=
  mkStore (cloneState (StState s)) (StAppliedIndex s) (cloneEntries (StApplied s))
    (cloneSnapshot (StInstalledSnapshot s)).

Definition emptyState : PersistentState := mkPersistentState (mkHardState 0 "" 0) emptySnapshot [].
Definition emptyStore : Store := mkStore emptyState 0 [] emptySnapshot.

Inductive timerKind := noTimer | electionTimer | heartbeatTimer.

Record queuedInput := mkQueued {
  q_input : Input; q_incarnation : Z; q_timer : timerKind; q_generation : Z }.

(** An event identifier is zero when there is no event. *)
Record process := mkProcess {
  p_node : option Node.Node;
  p_up : bool;
  p_incarnation : Z;
  p_store : Store;
  p_random : Rand.Rand;
  p_mailbox : list queuedInput;
  p_electionEvent : Z;
  p_electionGeneration : Z;
  p_heartbeatEvent : Z;
  p_heartbeatGeneration : Z;
  p_persistEvent : Z;
  p_persistAckEvent : Z;
  p_persistGeneration : Z;
  p_crashAfterPersist : bool;
  p_sendSequence : Z;
  p_application : option AppOracle.Machine }.

Definition set_p_node (x : process) (v : option Node.Node) : process :=
  mkProcess v (p_up x) (p_incarnation x) (p_store x) (p_random x) (p_mailbox x) (p_electionEvent x)
    (p_electionGeneration x) (p_heartbeatEvent x) (p_heartbeatGeneration x) (p_persistEvent x)
    (p_persistAckEvent x) (p_persistGeneration x) (p_crashAfterPersist x) (p_sendSequence x)
    (p_application x).
Definition set_p_up (x : process) (v : bool) : process :=
  mkProcess (p_node x) v (p_incarnation x) (p_store x) (p_random x) (p_mailbox x) (p_electionEvent x)
    (p_electionGeneration x) (p_heartbeatEvent x) (p_heartbeatGeneration x) (p_persistEvent x)
    (p_persistAckEvent x) (p_persistGeneration x) (p_crashAfterPersist x) (p_sendSequence x)
    (p_application x).
Definition set_p_incarnation (x : process) (v : Z) : process :=
  mkProcess (p_node x) (p_up x) v (p_store x) (p_random x) (p_mailbox x) (p_electionEvent x)
    (p_electionGeneration x) (p_heartbeatEvent x) (p_heartbeatGeneration x) (p_persistEvent x)
    (p_persistAckEvent x) (p_persistGeneration x) (p_crashAfterPersist x) (p_sendSequence x)
    (p_application x).
Definition set_p_store (x : process) (v : Store) : process :=
  mkProcess (p_node x) (p_up x) (p_incarnation x) v (p_random x) (p_mailbox x) (p_electionEvent x)
    (p_electionGeneration x) (p_heartbeatEvent x) (p_heartbeatGeneration x) (p_persistEvent x)
    (p_persistAckEvent x) (p_persistGeneration x) (p_crashAfterPersist x) (p_sendSequence x)
    (p_application x).
Definition set_p_random (x : process) (v : Rand.Rand) : process :=
  mkProcess (p_node x) (p_up x) (p_incarnation x) (p_store x) v (p_mailbox x) (p_electionEvent x)
    (p_electionGeneration x) (p_heartbeatEvent x) (p_heartbeatGeneration x) (p_persistEvent x)
    (p_persistAckEvent x) (p_persistGeneration x) (p_crashAfterPersist x) (p_sendSequence x)
    (p_application x).
Definition set_p_mailbox (x : process) (v : list queuedInput) : process :=
  mkProcess (p_node x) (p_up x) (p_incarnation x) (p_store x) (p_random x) v (p_electionEvent x)
    (p_electionGeneration x) (p_heartbeatEvent x) (p_heartbeatGeneration x) (p_persistEvent x)
    (p_persistAckEvent x) (p_persistGeneration x) (p_crashAfterPersist x) (p_sendSequence x)
    (p_application x).
Definition set_p_electionEvent (x : process) (v : Z) : process :=
  mkProcess (p_node x) (p_up x) (p_incarnation x) (p_store x) (p_random x) (p_mailbox x) v
    (p_electionGeneration x) (p_heartbeatEvent x) (p_heartbeatGeneration x) (p_persistEvent x)
    (p_persistAckEvent x) (p_persistGeneration x) (p_crashAfterPersist x) (p_sendSequence x)
    (p_application x).
Definition set_p_electionGeneration (x : process) (v : Z) : process :=
  mkProcess (p_node x) (p_up x) (p_incarnation x) (p_store x) (p_random x) (p_mailbox x)
    (p_electionEvent x) v (p_heartbeatEvent x) (p_heartbeatGeneration x) (p_persistEvent x)
    (p_persistAckEvent x) (p_persistGeneration x) (p_crashAfterPersist x) (p_sendSequence x)
    (p_application x).
Definition set_p_heartbeatEvent (x : process) (v : Z) : process :=
  mkProcess (p_node x) (p_up x) (p_incarnation x) (p_store x) (p_random x) (p_mailbox x)
    (p_electionEvent x) (p_electionGeneration x) v (p_heartbeatGeneration x) (p_persistEvent x)
    (p_persistAckEvent x) (p_persistGeneration x) (p_crashAfterPersist x) (p_sendSequence x)
    (p_application x).
Definition set_p_heartbeatGeneration (x : process) (v : Z) : process :=
  mkProcess (p_node x) (p_up x) (p_incarnation x) (p_store x) (p_random x) (p_mailbox x)
    (p_electionEvent x) (p_electionGeneration x) (p_heartbeatEvent x) v (p_persistEvent x)
    (p_persistAckEvent x) (p_persistGeneration x) (p_crashAfterPersist x) (p_sendSequence x)
    (p_application x).
Definition set_p_persistEvent (x : process) (v : Z) : process :=
  mkProcess (p_node x) (p_up x) (p_incarnation x) (p_store x) (p_random x) (p_mailbox x)
    (p_electionEvent x) (p_electionGeneration x) (p_heartbeatEvent x) (p_heartbeatGeneration x) v
    (p_persistAckEvent x) (p_persistGeneration x) (p_crashAfterPersist x) (p_sendSequence x)
    (p_application x).
Definition set_p_persistAckEvent (x : process) (v : Z) : process :=
  mkProcess (p_node x) (p_up x) (p_incarnation x) (p_store x) (p_random x) (p_mailbox x)
    (p_electionEvent x) (p_electionGeneration x) (p_heartbeatEvent x) (p_heartbeatGeneration x)
    (p_persistEvent x) v (p_persistGeneration x) (p_crashAfterPersist x) (p_sendSequence x)
    (p_application x).
Definition set_p_persistGeneration (x : process) (v : Z) : process :=
  mkProcess (p_node x) (p_up x) (p_incarnation x) (p_store x) (p_random x) (p_mailbox x)
    (p_electionEvent x) (p_electionGeneration x) (p_heartbeatEvent x) (p_heartbeatGeneration x)
    (p_persistEvent x) (p_persistAckEvent x) v (p_crashAfterPersist x) (p_sendSequence x) (p_application
    x).
Definition set_p_crashAfterPersist (x : process) (v : bool) : process :=
  mkProcess (p_node x) (p_up x) (p_incarnation x) (p_store x) (p_random x) (p_mailbox x)
    (p_electionEvent x) (p_electionGeneration x) (p_heartbeatEvent x) (p_heartbeatGeneration x)
    (p_persistEvent x) (p_persistAckEvent x) (p_persistGeneration x) v (p_sendSequence x) (p_application
    x).
Definition set_p_sendSequence (x : process) (v : Z) : process :=
  mkProcess (p_node x) (p_up x) (p_incarnation x) (p_store x) (p_random x) (p_mailbox x)
    (p_electionEvent x) (p_electionGeneration x) (p_heartbeatEvent x) (p_heartbeatGeneration x)
    (p_persistEvent x) (p_persistAckEvent x) (p_persistGeneration x) (p_crashAfterPersist x) v
    (p_application x).
Definition set_p_application (x : process) (v : option AppOracle.Machine) : process :=
  mkProcess (p_node x) (p_up x) (p_incarnation x) (p_store x) (p_random x) (p_mailbox x)
    (p_electionEvent x) (p_electionGeneration x) (p_heartbeatEvent x) (p_heartbeatGeneration x)
    (p_persistEvent x) (p_persistAckEvent x) (p_persistGeneration x) (p_crashAfterPersist x)
    (p_sendSequence x) v.

Definition set_store_state (p : process) (s : PersistentState) : process :=
  set_p_store p (mkStore s (StAppliedIndex (p_store p)) (StApplied (p_store p)) (StInstalledSnapshot (p_store p))).

(** ** Scheduled actions

    A callback of the scheduler with its captured variables; the delivery of a packet is
    the network's own action. *)
Inductive action :=
| electionFired (id : NodeID) (incarnation generation : Z)
| heartbeatFired (id : NodeID) (incarnation generation : Z)
| storageCompleted (id : NodeID) (incarnation generation : Z) (state : PersistentState) (token : Z)
| persistAcked (id : NodeID) (incarnation generation : Z) (token : Z)
| scheduledCrash (id : NodeID)
| scheduledRestart (id : NodeID)
| userCallback (n : nat).

(** ** JSON texts

    The encodings of Raft states, packets, decision contexts and evidence, and the decoding
    of application checkpoints; the code relies on nothing but their being what
    encoding/json gives. *)
Record networkDecisionContext := mkNetworkContext {
  NcFrom : string; NcTo : string; NcSenderIncarnation : Z; NcSendSequence : Z; NcCausal : bool;
  NcOperationIDs : list string; NcMessage : Message; NcMinLatencyNS : Z; NcMaxLatencyNS : Z;
  NcLossProbability : Rand.float64 }.

Record Encoders := mkEncoders {
  marshalState : PersistentState → bytes;
  marshalPacket : Network.Packet Envelope → bytes;
  marshalNetworkContext : networkDecisionContext → bytes;
  marshalEvidence : Check.evidence → bytes;
  DecodeCheckpoint : bytes → AppOracle.AppError + AppOracle.Checkpoint }.

(** [json.Marshal] of the maps that name a node and an event: their keys are sorted. *)
Definition nodeMember (id : NodeID) : bytes := JsonEnc.encode_member "node" (JsonEnc.encode_string id).
Definition generationMembers (incarnation generation : Z) : list bytes :=
  [JsonEnc.encode_member "generation" (JsonEnc.encode_int generation);
   JsonEnc.encode_member "incarnation" (JsonEnc.encode_int incarnation)].
Definition timerJSON (id : NodeID) (incarnation generation : Z) : bytes :=
  JsonEnc.encode_object (generationMembers incarnation generation ++ [nodeMember id]).
Definition tokenJSON (id : NodeID) (incarnation generation token : Z) : bytes :=
  JsonEnc.encode_object (generationMembers incarnation generation ++
    [nodeMember id; JsonEnc.encode_member "token" (JsonEnc.encode_int token)]).
Definition storageJSON (enc : Encoders) (id : NodeID) (incarnation generation : Z)
    (state : PersistentState) (token : Z) : bytes :=
  JsonEnc.encode_object (generationMembers incarnation generation ++
    [nodeMember id; JsonEnc.encode_member "state" (marshalState enc state);
     JsonEnc.encode_member "token" (JsonEnc.encode_int token)]).
Definition nodeJSON (id : NodeID) : bytes := JsonEnc.encode_object [nodeMember id].

(** [fmt.Sprintf] of the decision identities. *)
Definition decimal (z : Z) : string := pretty z.
Definition timerChoiceID (id : NodeID) (incarnation generation : Z) : string :=
  "timer/" +:+ id +:+ "/" +:+ decimal incarnation +:+ "/election/" +:+ decimal generation.
Definition storageChoiceID (id : NodeID) (incarnation generation : Z) : string :=
  "storage/" +:+ id +:+ "/" +:+ decimal incarnation +:+ "/" +:+ decimal generation.
Definition networkChoiceID (what : string) (p : Network.Packet Envelope) : string :=
  "network/" +:+ Network.PkFrom p +:+ "/" +:+ decimal (SenderIncarnation (Network.PkMessage p)) +:+ "/" +:+
  decimal (SendSequence (Network.PkMessage p)) +:+ "/" +:+ what.

(** ** The cluster *)

Section state.
Context {D : Type}.

(** The network the cluster drives: a handler is the node it is registered for, and the
    decision source shares the decider, [None] when there is none. *)
Definition Net : Type := Network.Net Envelope NodeID action (option D).

Record Cluster := mkCluster {
  c_config : ClusterConfig;
  c_members : list NodeID;
  c_net : Net;
  c_processes : gmap NodeID process;
  c_checker : Check.Checker;
  c_bootstrapped : bool;
  c_violations : list Violation;
  c_err : option ClusterError }.

Definition set_c_config (x : Cluster) (v : ClusterConfig) : Cluster :=
  mkCluster v (c_members x) (c_net x) (c_processes x) (c_checker x) (c_bootstrapped x) (c_violations
    x) (c_err x).
Definition set_c_members (x : Cluster) (v : list NodeID) : Cluster :=
  mkCluster (c_config x) v (c_net x) (c_processes x) (c_checker x) (c_bootstrapped x) (c_violations x)
    (c_err x).
Definition set_c_net (x : Cluster) (v : Net) : Cluster :=
  mkCluster (c_config x) (c_members x) v (c_processes x) (c_checker x) (c_bootstrapped x)
    (c_violations x) (c_err x).
Definition set_c_processes (x : Cluster) (v : gmap string process) : Cluster :=
  mkCluster (c_config x) (c_members x) (c_net x) v (c_checker x) (c_bootstrapped x) (c_violations x)
    (c_err x).
Definition set_c_checker (x : Cluster) (v : Check.Checker) : Cluster :=
  mkCluster (c_config x) (c_members x) (c_net x) (c_processes x) v (c_bootstrapped x) (c_violations x)
    (c_err x).
Definition set_c_bootstrapped (x : Cluster) (v : bool) : Cluster :=
  mkCluster (c_config x) (c_members x) (c_net x) (c_processes x) (c_checker x) v (c_violations x) (c_err x).
Definition set_c_violations (x : Cluster) (v : list Violation) : Cluster :=
  mkCluster (c_config x) (c_members x) (c_net x) (c_processes x) (c_checker x) (c_bootstrapped x) v (c_err x).
Definition set_c_err (x : Cluster) (v : option ClusterError) : Cluster :=
  mkCluster (c_config x) (c_members x) (c_net x) (c_processes x) (c_checker x) (c_bootstrapped x)
    (c_violations x) v.

Definition c_sim (c : Cluster) : Simulator.Simulator (Network.delivery Envelope + action) :=
  Network.sim (c_net c).
Definition set_c_sim (c : Cluster) (s : Simulator.Simulator (Network.delivery Envelope + action)) : Cluster :=
  set_c_net c (Network.set_sim (c_net c) s).
Definition c_now (c : Cluster) : Z := Simulator.now (c_sim c).
Definition c_decider (c : Cluster) : option D := Network.dstate (c_net c).

(** ** Computations *)

Definition M (A : Type) : Type := Cluster → go (option (Cluster * (ClusterError + A))).

#[export] Instance M_ret : MRet M := λ A a c, Done (Some (c, inr a)).
#[export] Instance M_bind : MBind M := λ A B k m c,
  r ← m c;
  match r with
  | None => Done None
  | Some (c, inl err) => Done (Some (c, inl err))
  | Some (c, inr a) => k a c
  end.

Definition raise {A} (err : ClusterError) : M A := λ c, Done (Some (c, inl err)).
Definition panic {A} : M A := λ _, Panic.
Definition gets {A} (f : Cluster → A) : M A := λ c, Done (Some (c, inr (f c))).
Definition modify (f : Cluster → Cluster) : M unit := λ c, Done (Some (f c, inr tt)).
Definition raiseIf (b : bool) (err : ClusterError) : M unit := if b then raise err else mret tt.

(** The error of a call as a value. *)
Definition try {A} (m : M A) : M (ClusterError + A) := λ c,
  r ← m c; Done (option_map (λ cr, (cr.1, inr cr.2)) r).

(** A computation that cannot fail, and one that samples. *)
Definition lift {A} (m : go A) : M A := λ c, a ← m; Done (Some (c, inr a)).
Definition sample {A} (m : go (option A)) : M A := λ c,
  r ← m; Done (match r with None => None | Some a => Some (c, inr a) end).
Definition check {E A} (wrap : E → ClusterError) (r : E + A) : M A :=
  match r with inl err => raise (wrap err) | inr a => mret a end.

(** The error the cluster has failed with, if any. *)
Definition failed : M unit := err ← gets c_err; match err with Some err => raise err | None => mret tt end.

(** [c.processes[id]]: reading a field of a missing process panics. *)
Definition the_process (id : NodeID) : M process :=
  processes ← gets c_processes; match processes !! id with Some p => mret p | None => panic end.
Definition put_process (id : NodeID) (p : process) : M unit :=
  modify (λ c, set_c_processes c (<[id := p]> (c_processes c))).
Definition update (id : NodeID) (f : process → process) : M unit := p ← the_process id; put_process id (f p).
(** [process.node]: a call through the nil pointer panics. *)
Definition the_node (p : process) : M Node.Node := match p_node p with Some n => mret n | None => panic end.
(** [process, ok := c.processes[id]] *)
Definition known (id : NodeID) : M process :=
  processes ← gets c_processes; match processes !! id with Some p => mret p | None => raise ErrUnknownNode end.

Definition fail (err : ClusterError) : M unit :=
  modify (λ c, match c_err c with None => set_c_err c (Some err) | Some _ => c end).
(** [if err := call; err != nil { c.fail(err) }] *)
Definition orFail (m : M unit) : M unit :=
  r ← try m; match r with inl err => fail err | inr _ => mret tt end.

(** ** The scheduler *)

Definition on_sim {A} (f : Simulator.Simulator (Network.delivery Envelope + action) →
    go (Simulator.Simulator (Network.delivery Envelope + action) * A)) : M A := λ c,
  '(s, a) ← f (c_sim c); Done (Some (set_c_sim c s, inr a)).

Definition simCancel (event : Z) : M bool := on_sim (λ s, Simulator.Cancel s event).
Definition cancelEvent (event : Z) : M unit :=
  if event =? 0 then mret tt else _ ← simCancel event; mret tt.

Definition ScheduleTagged (delay : Z) (tag : Heap.EventTag) (a : action) : M Z :=
  r ← on_sim (λ s, Simulator.ScheduleTagged s delay tag (Some (inr a)));
  check ErrSim r.

End state.
Arguments Net : clear implicits.
Arguments Cluster : clear implicits.
Arguments M : clear implicits.
