(* ===== verification/Artifact.v ===== *)
(** * Run artifacts: validation (artifact/artifact.go)

    The checks that a run passes before it is written and after it is read, the conversion
    of a configuration to that of the cluster harness, and the comparison of outcomes.  The
    JSON text itself is not modelled. *)

From S2P Require Export Scenario.
From S2P Require Import Prelude RaftTypes Membership Outcome Digest.
From S2P Require Rand Network Decision Check ClusterState.
From Stdlib Require Import QArith.QArith.
From stdpp Require Import options.

#[global] Open Scope Z_scope.

Inductive ArtifactError := ErrInvalidArtifact | ErrArtifactTooLarge.

(** ** Texts *)

Definition charcode (b : byte) : Z := Z.of_N (Byte.to_N b).

Definition identifierByte (first allowSlash : bool) (b : byte) : bool :=
  let c := charcode b in
  ((97 <=? c) && (c <=? 122)) || ((65 <=? c) && (c <=? 90)) || ((48 <=? c) && (c <=? 57)) ||
  (negb first && ((c =? 45) || (c =? 95) || (c =? 46) || (c =? 43) || (allowSlash && (c =? 47)))).

Definition validIdentifier (value : string) (allowSlash : bool) (maximum : Z) : bool :=
  if (strlen value =? 0) || (maximum <? strlen value) then false
  else match str value with
  | [] => true
  | b :: rest => identifierByte true allowSlash b && forallb (identifierByte false allowSlash) rest
  end.

Definition validMetadata (value : string) (maximum : Z) : bool :=
  if (strlen value =? 0) || (maximum <? strlen value) then false
  else forallb (λ b, negb ((charcode b <? 32) || (126 <? charcode b))) (str value).

Definition validDigest (value : string) : bool :=
  match hex_decode value with
  | Some decoded => (zlen decoded =? 32) && bool_decide (hex_string decoded = value)
  | None => false
  end.

(** ** Canonical partitions *)

(** The comparison of the common prefix: [None] when it is equal. *)
Fixpoint comparePrefix (l r : list NodeID) : option bool :=
  match l, r with
  | x :: l, y :: r => if String.ltb x y then Some true else if String.ltb y x then Some false else comparePrefix l r
  | _, _ => None
  end.

Definition groupBefore (l r : list NodeID) : bool :=
  match comparePrefix l r with
  | Some before => before
  | None => zlen l <? zlen r
  end.

Fixpoint partitionGroupsSorted (groups : list (list NodeID)) : bool :=
  match groups with
  | l :: ((r :: _) as rest) => groupBefore l r && partitionGroupsSorted rest
  | _ => true
  end.

(** The nodes of one group: members that no earlier group and no earlier place names. *)
Fixpoint checkGroup (members : list NodeID) (partitioned : gset NodeID) (group : list NodeID)
    : option (gset NodeID) :=
  match group with
  | [] => Some partitioned
  | node :: group =>
    if negb (contains members node) then None
    else if bool_decide (node ∈ partitioned) then None
    else checkGroup members ({[node]} ∪ partitioned) group
  end.

Fixpoint checkGroups (members : list NodeID) (partitioned : gset NodeID) (groups : list (list NodeID)) : bool :=
  match groups with
  | [] => true
  | group :: groups =>
    if zlen group =? 0 then false
    else if negb (is_sorted group) then false
    else match checkGroup members partitioned group with
         | None => false
         | Some partitioned => checkGroups members partitioned groups
         end
  end.

(** ** Scenarios *)

Definition noRoles (action : Action) : bool :=
  (zlen (ActVoters action) =? 0) && (zlen (ActLearners action) =? 0).
Definition noGroups (action : Action) : bool := zlen (ActGroups action) =? 0.
Definition noData (action : Action) : bool := zlen (ActData action) =? 0.
Definition optionalNode (members : list NodeID) (action : Action) : bool :=
  String.eqb (ActNode action) "" || contains members (ActNode action).

(** The switch on the kind of an action. *)
Definition validKind (schema : string) (members : list NodeID) (action : Action) : bool :=
  let kind_is := String.eqb (ActKind action) in
  if kind_is ActionPropose then noGroups action && noRoles action && optionalNode members action
  else if kind_is ActionCrash || kind_is ActionRestart || kind_is ActionCrashAfterNextPersist
  then noData action && noGroups action && noRoles action && contains members (ActNode action)
  else if kind_is ActionSnapshot
  then negb (String.eqb schema RunSchemaV1) && noGroups action && noRoles action && contains members (ActNode action)
  else if kind_is ActionBeginMembership
  then String.eqb schema RunSchemaVersion && noData action && noGroups action &&
       ValidateMembership (mkMembership (ActVoters action) [] (ActLearners action) []) members &&
       optionalNode members action
  else if kind_is ActionFinalizeMembership
  then String.eqb schema RunSchemaVersion && noData action && noGroups action && noRoles action &&
       optionalNode members action
  else if kind_is ActionPartition
  then String.eqb (ActNode action) "" && noData action && negb (noGroups action) && noRoles action &&
       checkGroups members ∅ (ActGroups action) && partitionGroupsSorted (ActGroups action)
  else if kind_is ActionHeal
  then String.eqb (ActNode action) "" && noData action && noGroups action && noRoles action
  else false.

Definition validPresence (schema : string) (action : Action) : bool :=
  let present := actVotersPresent action || actLearnersPresent action in
  negb (negb (String.eqb schema RunSchemaVersion) && present) &&
  negb ((actVotersPresent action && (zlen (ActVoters action) =? 0)) ||
        (actLearnersPresent action && (zlen (ActLearners action) =? 0))) &&
  negb (String.eqb schema RunSchemaVersion && negb (String.eqb (ActKind action) ActionBeginMembership) && present).

Fixpoint validActions (schema : string) (members : list NodeID) (duration previous : Z) (actions : list Action)
    : bool :=
  match actions with
  | [] => true
  | action :: actions =>
    negb ((ActAtNS action <? previous) || (ActAtNS action <? 0) || (duration <? ActAtNS action) ||
          (MaxActionPayloadBytes <? zlen (ActData action))) &&
    validPresence schema action && validKind schema members action &&
    validActions schema members duration (ActAtNS action) actions
  end.

Definition validateScenario (scenario : Scenario) (members : list NodeID) (schema : string) : bool :=
  if negb (validIdentifier (ScID scenario) true 128) || negb (validIdentifier (ScVersion scenario) false 64) ||
     (DurationNS scenario <? 0) || (MaxVirtualDurationNS <? DurationNS scenario) ||
     (ScMaxSteps scenario =? 0) || (MaxScenarioSteps <? ScMaxSteps scenario) ||
     (MaxActions <? zlen (Actions scenario))
  then false
  else validActions schema members (DurationNS scenario) (-1) (Actions scenario).

(** ** Configurations *)

Fixpoint canonicalMembers (previous : option NodeID) (members : list NodeID) : bool :=
  match members with
  | [] => true
  | member :: members =>
    validIdentifier member false 64 &&
    match previous with Some p => negb (String.eqb member p) | None => true end &&
    canonicalMembers (Some member) members
  end.

Definition validateConfiguration (config : Configuration) (allowRoles : bool) : bool :=
  let zero := Rand.FQ 0%Q in
  let one := Rand.FQ 1%Q in
  let loss := NetworkLossProbability config in
  let votersEmpty := zlen (CnVoters config) =? 0 in
  let learnersEmpty := zlen (CnLearners config) =? 0 in
  if (zlen (CnMembers config) =? 0) || (MaxMembers <? zlen (CnMembers config)) ||
     negb (is_sorted (CnMembers config)) ||
     (NetworkMinLatencyNS config <? 0) || (NetworkMaxLatencyNS config <? NetworkMinLatencyNS config) ||
     (MaxVirtualDurationNS <? NetworkMaxLatencyNS config) || (ElectionTimeoutMinNS config <=? 0) ||
     (ElectionTimeoutMaxNS config <? ElectionTimeoutMinNS config) ||
     (MaxVirtualDurationNS <? ElectionTimeoutMaxNS config) || (HeartbeatIntervalNS config <=? 0) ||
     (ElectionTimeoutMinNS config <=? HeartbeatIntervalNS config) || (StorageLatencyNS config <? 0) ||
     (MaxVirtualDurationNS <? StorageLatencyNS config) || negb (Rand.feq loss loss) ||
     Rand.flt loss zero || Rand.flt one loss
  then false
  else if negb (canonicalMembers None (sort_nodes (slices_Clone (CnMembers config)))) then false
  else if negb allowRoles &&
          (cnVotersPresent config || cnLearnersPresent config || negb votersEmpty || negb learnersEmpty)
  then false
  else if allowRoles && ((cnVotersPresent config && votersEmpty) || (cnLearnersPresent config && learnersEmpty))
  then false
  else if allowRoles && (negb votersEmpty || negb learnersEmpty) &&
          negb (ValidateMembership (mkMembership (CnVoters config) [] (CnLearners config) [])
                  (sort_nodes (slices_Clone (CnMembers config))))
  then false
  else true.

Definition ValidateExperiment (scenario : Scenario) (configuration : Configuration) : bool :=
  validateConfiguration configuration true &&
  validateScenario scenario (CnMembers configuration) RunSchemaVersion.

(** [ClusterConfig]: the configuration of the harness, without its decider and trace. *)
Definition ClusterConfig_ (c : Configuration) : ClusterState.ClusterConfig :=
  ClusterState.mkClusterConfig (slices_Clone (CnMembers c)) (slices_Clone (CnVoters c)) (slices_Clone (CnLearners c))
    (InfrastructureSeed c)
    (Network.mkLink (NetworkMinLatencyNS c) (NetworkMaxLatencyNS c) (NetworkLossProbability c))
    (ElectionTimeoutMinNS c) (ElectionTimeoutMaxNS c) (HeartbeatIntervalNS c) (StorageLatencyNS c)
    (CnStopOnViolation c) None.

Definition ConfigurationFrom (config : ClusterState.ClusterConfig) : Configuration :=
  mkConfiguration (sort_nodes (slices_Clone (ClusterState.CcMembers config)))
    (sort_nodes (slices_Clone (ClusterState.CcVoters config)))
    (sort_nodes (slices_Clone (ClusterState.CcLearners config))) (ClusterState.Seed config)
    (Network.MinLatency (ClusterState.CcNetwork config)) (Network.MaxLatency (ClusterState.CcNetwork config))
    (Network.LossProbability (ClusterState.CcNetwork config)) (ClusterState.ElectionTimeoutMin config)
    (ClusterState.ElectionTimeoutMax config) (ClusterState.HeartbeatInterval config)
    (ClusterState.StorageLatency config) (ClusterState.StopOnViolation config) false false.

(** ** The resource budget *)

(** The closure [add]: [used] is the variable it captures. *)
Definition add (budget used size : Z) : ArtifactError + Z :=
  if (size <? 0) || (budget - used <? size) then inl ErrArtifactTooLarge else inr (used + size).

Fixpoint addAll (budget used : Z) (sizes : list Z) : ArtifactError + Z :=
  match sizes with
  | [] => inr used
  | size :: sizes =>
    match add budget used size with
    | inl err => inl err
    | inr used => addAll budget used sizes
    end
  end.

Definition stringsToCount (run : Run) : list string :=
  [RunSchema run; ScID (RunScenario run); ScVersion (RunScenario run); AdID (RunAdapter run); AdVersion (RunAdapter run);
   GitRevision (RunReproducibility run); GoVersion (RunReproducibility run); DecisionSchema (RunReproducibility run);
   CheckerSchema (RunReproducibility run); MessageCodec (RunReproducibility run);
   ObservationSchema (RunReproducibility run); Decision.Schema (Decisions run); Status (RunOutcome run);
   OutError (RunOutcome run); ObservationDigest (RunOutcome run)].

Definition actionSizes (action : Action) : list Z :=
  [strlen (ActKind action) + strlen (ActNode action) + zlen (ActData action)] ++
  map strlen (concat (ActGroups action)) ++ map strlen (ActVoters action) ++ map strlen (ActLearners action).

(** The sizes counted before the decisions, and after them. *)
Definition headerSizes (run : Run) : list Z :=
  map strlen (stringsToCount run) ++ map strlen (CnMembers (RunConfiguration run)) ++
  map strlen (CnVoters (RunConfiguration run)) ++ map strlen (CnLearners (RunConfiguration run)) ++
  concat (map actionSizes (Actions (RunScenario run))).

Definition violationSizes (violation : Violation) : list Z :=
  [strlen (VID violation) + zlen (Evidence violation) + strlen (VFingerprint violation)] ++
  map strlen (VNodes violation).

(** The options of one choice. *)
Fixpoint addOptions (budget used : Z) (options : list Decision.Option_) : ArtifactError + Z :=
  match options with
  | [] => inr used
  | option :: options =>
    if MaxDecisionTextBytes <? strlen (Decision.OptID option) then inl ErrInvalidArtifact
    else match add budget used (strlen (Decision.OptID option)) with
    | inl err => inl err
    | inr used => addOptions budget used options
    end
  end.

Definition decisionSize (entry : Decision.Entry) : Z :=
  let choice := Decision.EnChoice entry in
  strlen (Decision.ChID choice) + strlen (Decision.ChKind choice) + zlen (Decision.Context_ choice) +
  strlen (Decision.DomainDigest_ entry) + strlen (Decision.ContextDigest_ entry) +
  strlen (Decision.SelOption (Decision.EnSelection entry)).

Fixpoint addDecisions (budget used totalOptions : Z) (entries : list Decision.Entry) : ArtifactError + Z :=
  match entries with
  | [] => inr used
  | entry :: entries =>
    let choice := Decision.EnChoice entry in
    let options := zlen (Decision.Options choice) in
    if (MaxDecisionContextBytes <? zlen (Decision.Context_ choice)) || (MaxDecisionOptions <? options) ||
       (MaxDecisionTextBytes <? strlen (Decision.ChID choice)) ||
       (MaxDecisionTextBytes <? strlen (Decision.ChKind choice)) ||
       (MaxDecisionTextBytes <? strlen (Decision.SelOption (Decision.EnSelection entry)))
    then inl ErrInvalidArtifact
    else if MaxTotalDecisionOptions - totalOptions <? options then inl ErrInvalidArtifact
    else match add budget used (decisionSize entry) with
    | inl err => inl err
    | inr used =>
      match addOptions budget used (Decision.Options choice) with
      | inl err => inl err
      | inr used => addDecisions budget used (totalOptions + options) entries
      end
    end
  end.

Definition validateResourceBudget (run : Run) (maximum : Z) : option ArtifactError :=
  if maximum <=? 0 then Some ErrInvalidArtifact
  else
    let budget := maximum / 2 in
    match addAll budget 0 (headerSizes run) with
    | inl err => Some err
    | inr used =>
      match addDecisions budget used 0 (Decision.Entries (Decisions run)) with
      | inl err => Some err
      | inr used =>
        match addAll budget used (concat (map violationSizes (Violations (RunOutcome run)))) with
        | inl err => Some err
        | inr _ => None
        end
      end
    end.

(** ** Runs *)

(** The schemas that the reference adapter of a version has to name. *)
Definition referenceSchemas (run : Run) (schema codec checker observation : string) : bool :=
  let r := RunReproducibility run in
  String.eqb (RunSchema run) schema && String.eqb (MessageCodec r) codec &&
  String.eqb (CheckerSchema r) checker && String.eqb (ObservationSchema r) observation.

Definition validReference (run : Run) : bool :=
  if negb (String.eqb (AdID (RunAdapter run)) ReferenceAdapterID) then true
  else
    let version := AdVersion (RunAdapter run) in
    if String.eqb version ReferenceAdapterV1
    then referenceSchemas run RunSchemaV1 MessageCodecV1 Check.SchemaV1 ObservationSchemaV1
    else if String.eqb version ReferenceAdapterV2
    then referenceSchemas run RunSchemaV2 MessageCodecV2 Check.SchemaV2 ObservationSchemaV2
    else if String.eqb version ReferenceAdapterV3
    then referenceSchemas run RunSchemaVersion MessageCodecV3 Check.SchemaVersion ObservationSchemaV3
    else false.

Definition validWitness (run : Run) (violation : Violation) : bool :=
  let invalid := match Check.ValidateViolation violation with
                 | Some err => Some err
                 | None =>
                   if String.eqb (AdID (RunAdapter run)) ReferenceAdapterID
                   then Check.ValidateViolationForSchema (CheckerSchema (RunReproducibility run)) violation
                   else None
                 end in
  negb (negb (validIdentifier (VID violation) true 128) || (VAtNS violation <? 0) ||
        (EndNS (RunOutcome run) <? VAtNS violation) || (MaxViolationEvidenceBytes <? zlen (Evidence violation)) ||
        bool_decide (is_Some invalid)) &&
  forallb (contains (CnMembers (RunConfiguration run))) (VNodes violation).

(** The switch on the status. *)
Definition validStatus (scenario : Scenario) (outcome : Outcome) : bool :=
  let status_is := String.eqb (Status outcome) in
  let noError := String.eqb (OutError outcome) "" in
  let clean := zlen (Violations outcome) =? 0 in
  if status_is OutcomeCompleted then (EndNS outcome =? DurationNS scenario) && noError && clean
  else if status_is OutcomeViolation then noError && negb clean
  else if status_is OutcomeError then negb noError && clean
  else if status_is OutcomeBudgetExhausted then (Steps outcome =? ScMaxSteps scenario) && noError && clean
  else false.

Definition validOutcome (run : Run) : bool :=
  let outcome := RunOutcome run in
  let scenario := RunScenario run in
  negb ((ScMaxSteps scenario <? Steps outcome) || (EndNS outcome <? 0) || (DurationNS scenario <? EndNS outcome) ||
        negb (validDigest (ObservationDigest outcome)) || (MaxOutcomeErrorBytes <? strlen (OutError outcome)) ||
        (MaxViolations <? zlen (Violations outcome))) &&
  forallb (validWitness run) (Violations outcome) && validStatus scenario outcome.

Definition validIdentity (run : Run) : bool :=
  (String.eqb (RunSchema run) RunSchemaV1 || String.eqb (RunSchema run) RunSchemaV2 ||
   String.eqb (RunSchema run) RunSchemaVersion) &&
  negb (String.eqb (AdID (RunAdapter run)) "" || String.eqb (AdVersion (RunAdapter run)) "") &&
  validIdentifier (AdID (RunAdapter run)) true 128 && validIdentifier (AdVersion (RunAdapter run)) false 64 &&
  validateConfiguration (RunConfiguration run) (String.eqb (RunSchema run) RunSchemaVersion) &&
  validateScenario (RunScenario run) (CnMembers (RunConfiguration run)) (RunSchema run).

Definition validReproducibility (r : Reproducibility) : bool :=
  String.eqb (DecisionSchema r) Decision.SchemaVersion && validMetadata (CheckerSchema r) 128 &&
  validMetadata (MessageCodec r) 128 && validMetadata (ObservationSchema r) 128 &&
  validMetadata (GoVersion r) 128 && validMetadata (GitRevision r) 256.

Definition Validate (run : Run) : go (option ArtifactError) :=
  if negb (validIdentity run && validReproducibility (RunReproducibility run) && validReference run) ||
     (MaxDecisions <? zlen (Decision.Entries (Decisions run)))
  then Done (Some ErrInvalidArtifact)
  else
    match (if String.eqb (RunSchema run) RunSchemaV1 then None
           else validateResourceBudget run DefaultMaxArtifactBytes) with
    | Some err => Done (Some err)
    | None =>
      replay ← Decision.NewTapeDecider (Decisions run);
      match replay with
      | inl _ => Done (Some ErrInvalidArtifact)
      | inr _ => Done (if validOutcome run then None else Some ErrInvalidArtifact)
      end
    end.

(** ** Outcomes *)

Fixpoint fingerprintsEqual (l r : list Violation) : bool :=
  match l, r with
  | x :: l, y :: r => String.eqb (VFingerprint x) (VFingerprint y) && fingerprintsEqual l r
  | _, _ => true
  end.

Definition OutcomesEqual (l r : Outcome) : bool :=
  if negb (String.eqb (Status l) (Status r)) || negb (Steps l =? Steps r) || negb (EndNS l =? EndNS r) ||
     negb (String.eqb (ObservationDigest l) (ObservationDigest r)) || negb (String.eqb (OutError l) (OutError r)) ||
     negb (zlen (Violations l) =? zlen (Violations r))
  then false
  else fingerprintsEqual (Violations l) (Violations r).
