(* ===== verification/Cluster.v ===== *)
(** * The cluster harness: operations (raftsim/cluster.go)

    Decisions, timers, persistence, effects, the life cycle of processes, and the run
    loops.  A callback reads the process it captured again when it fires, as the process is
    a shared object; the slices that the code clones are values. *)

From S2P Require Export ClusterState.
From S2P Require Import Prelude RaftTypes Membership Outcome.
From S2P Require Node Simulator Network Decision Check AppOracle JsonEnc Digest Rand.
From Stdlib Require Import QArith.QArith QArith.Qround.
From stdpp Require Import options.

#[global] Open Scope Z_scope.

(** ** Network decisions *)

(** A stable identity of every entry, without repetitions, sorted. *)
Definition operationID (entry : Entry) : string :=
  let id := "raft-entry/" +:+ decimal (Term entry) +:+ "/" +:+ decimal (Index entry) in
  if bool_decide (Type_ entry = EntryCommand) then
    match AppOracle.DecodeCommand (Data entry) with
    | inr command => Sha256.hex_string (AppOracle.CID command)
    | inl _ => id
    end
  else id.

Fixpoint operationIDsLoop (seen : gset string) (ids : list string) (entries : list Entry) : list string :=
  match entries with
  | [] => ids
  | entry :: entries =>
    let id := operationID entry in
    if bool_decide (id ∈ seen) then operationIDsLoop seen ids entries
    else operationIDsLoop ({[id]} ∪ seen) (ids ++ [id]) entries
  end.

Definition operationIDs (entries : list Entry) : list string :=
  merge_sort String.le (operationIDsLoop ∅ [] entries).

(** [link.LossProbability] lies between 0 and 1 on a validated link. *)
Definition scale : Z := 9007199254740992.
Definition lossOptions (probability : Rand.float64) : list Decision.Option_ :=
  let zero := Rand.FQ 0%Q in
  let one := Rand.FQ 1%Q in
  if Rand.flt probability zero || Rand.feq probability zero then [Decision.mkOption "deliver" 1]
  else if Rand.flt one probability || Rand.feq probability one then [Decision.mkOption "drop" 1]
  else
    let dropWeight := match probability with
                      | Rand.FQ q => Qceiling (q * inject_Z scale)%Q
                      | _ => 0
                      end in
    [Decision.mkOption "drop" dropWeight; Decision.mkOption "deliver" (wrap64 (scale - dropWeight))].

Section cluster.
Context {D : Type} `{!Decision.Decider D}.
Context (enc : Encoders).
(** The fuel of every rejection sampling. *)
Context (fuel : nat).

Abbreviation Cluster := (Cluster D).
Abbreviation M := (M D).

Definition includeOperationIDs (decider : option D) : bool :=
  match decider with Some d => default false (Decision.OperationContext d) | None => false end.

Definition semanticNetworkContext (packet : Network.Packet Envelope) (link : Network.LinkConfig)
    (include : bool) : networkDecisionContext :=
  let envelope := Network.PkMessage packet in
  let ids := if zlen (OperationIDs envelope) =? 0 then operationIDs (Entries (EnvMessage envelope))
             else OperationIDs envelope in
  mkNetworkContext (Network.PkFrom packet) (Network.PkTo packet) (SenderIncarnation envelope)
    (SendSequence envelope) include (if include then ids else []) (EnvMessage envelope)
    (Network.MinLatency link) (Network.MaxLatency link) (Network.LossProbability link).

(** [Choose] and [ValidateSelection] for a decision of the network. *)
Definition askNetwork (d : D) (choice : Decision.Choice)
    : go (option (option D * (Network.NetError + Decision.Selection))) :=
  answer ← Decision.Choose fuel d choice;
  match answer with
  | None => Done None
  | Some (d, inl err) => Done (Some (Some d, inl (decisionError err)))
  | Some (d, inr selection) =>
    invalid ← Decision.ValidateSelection choice selection;
    Done (Some (Some d, match invalid with
                        | Some err => inl (decisionError err)
                        | None => inr selection
                        end))
  end.

Definition lossChoice (include : bool) (packet : Network.Packet Envelope) (link : Network.LinkConfig)
    : Decision.Choice :=
  Decision.mkChoice (networkChoiceID "loss" packet) "network_loss"
    (lossOptions (Network.LossProbability link)) None None
    (marshalNetworkContext enc (semanticNetworkContext packet link include)).

Definition latencyChoice (include : bool) (packet : Network.Packet Envelope) (link : Network.LinkConfig)
    : Decision.Choice :=
  Decision.mkChoice (networkChoiceID "latency" packet) "network_latency" []
    (Some (Network.MinLatency link)) (Some (Network.MaxLatency link))
    (marshalNetworkContext enc (semanticNetworkContext packet link include)).

Definition Drop (decider : option D) (packet : Network.Packet Envelope) (link : Network.LinkConfig)
    : go (option (option D * (Network.NetError + bool))) :=
  match decider with
  | None => Panic
  | Some d =>
    answer ← askNetwork d (lossChoice (includeOperationIDs decider) packet link);
    Done (match answer with
          | None => None
          | Some (d, inl err) => Some (d, inl err)
          | Some (d, inr selection) => Some (d, inr (String.eqb (Decision.SelOption selection) "drop"))
          end)
  end.

(** [*selection.Number]: a nil pointer panics. *)
Definition Latency (decider : option D) (packet : Network.Packet Envelope) (link : Network.LinkConfig)
    : go (option (option D * (Network.NetError + Z))) :=
  match decider with
  | None => Panic
  | Some d =>
    answer ← askNetwork d (latencyChoice (includeOperationIDs decider) packet link);
    match answer with
    | None => Done None
    | Some (d, inl err) => Done (Some (d, inl err))
    | Some (d, inr selection) =>
      match Decision.Number selection with
      | None => Panic
      | Some n => Done (Some (d, inr n))
      end
    end
  end.

Definition raftNetworkDecisions : Network.NetworkDecisionSource Envelope (option D) :=
  Network.mkSource (λ _, Drop) (λ _, Latency).

Definition JSONPacketEventTagger (packet : Network.Packet Envelope) : Network.NetError + Heap.EventTag :=
  inr (Heap.mkTag "network_delivery" (marshalPacket enc packet)).

(** ** Durations *)

Definition set_decider (c : Cluster) (d : option D) : Cluster :=
  set_c_net c (Network.set_dstate (c_net c) d).

Definition chooseDuration (id : string) (kind : Decision.Kind) (minimum maximum : Z) (context : bytes) : M Z :=
  decider ← gets c_decider;
  match decider with
  | None => mret minimum
  | Some d =>
    let choice := Decision.mkChoice id kind [] (Some minimum) (Some maximum) context in
    answer ← sample (Decision.Choose fuel d choice);
    _ ← modify (λ c, set_decider c (Some answer.1));
    selection ← check ErrDecision answer.2;
    invalid ← lift (Decision.ValidateSelection choice selection);
    match invalid with
    | Some err => raise (ErrDecision err)
    | None => match Decision.Number selection with Some n => mret n | None => panic end
    end
  end.

(** [process.random.Duration] *)
Definition randomDuration (id : NodeID) (minimum maximum : Z) : M Z :=
  p ← the_process id;
  drawn ← sample (Rand.Duration fuel (p_random p) minimum maximum);
  _ ← put_process id (set_p_random p drawn.1);
  mret drawn.2.

(** ** Timers *)

Definition resetElectionTimer (id : NodeID) : M unit :=
  p ← the_process id;
  _ ← (if p_electionEvent p =? 0 then mret tt
       else _ ← simCancel (p_electionEvent p); update id (λ p, set_p_electionEvent p 0));
  n ← the_node p;
  if negb (isVoter (Node.membership n) (Node.id n)) then mret tt
  else
    _ ← update id (λ p, set_p_electionGeneration p (wrap64 (p_electionGeneration p + 1)));
    p ← the_process id;
    let generation := p_electionGeneration p in
    let incarnation := p_incarnation p in
    config ← gets c_config;
    decider ← gets c_decider;
    delay ← match decider with
            | None => randomDuration id (ElectionTimeoutMin config) (ElectionTimeoutMax config)
            | Some _ =>
              chooseDuration (timerChoiceID id incarnation generation) "election_timeout"
                (ElectionTimeoutMin config) (ElectionTimeoutMax config) (timerJSON id incarnation generation)
            end;
    event ← ScheduleTagged delay (Heap.mkTag "election_timer" (timerJSON id incarnation generation))
              (electionFired id incarnation generation);
    update id (λ p, set_p_electionEvent p event).

Definition resetHeartbeatTimer (id : NodeID) : M unit :=
  p ← the_process id;
  _ ← cancelEvent (p_heartbeatEvent p);
  _ ← update id (λ p, set_p_heartbeatGeneration p (wrap64 (p_heartbeatGeneration p + 1)));
  p ← the_process id;
  let generation := p_heartbeatGeneration p in
  let incarnation := p_incarnation p in
  config ← gets c_config;
  event ← ScheduleTagged (HeartbeatInterval config)
            (Heap.mkTag "heartbeat_timer" (timerJSON id incarnation generation))
            (heartbeatFired id incarnation generation);
  update id (λ p, set_p_heartbeatEvent p event).

Definition queuedInputIsCurrent (p : process) (queued : queuedInput) : M bool :=
  if negb (q_incarnation queued =? p_incarnation p) then mret false
  else match q_timer queued with
  | electionTimer =>
    if negb (q_generation queued =? p_electionGeneration p) then mret false
    else n ← the_node p; mret (negb (bool_decide (Node.role n = Leader)))
  | heartbeatTimer =>
    if negb (q_generation queued =? p_heartbeatGeneration p) then mret false
    else n ← the_node p; mret (bool_decide (Node.role n = Leader))
  | noTimer => mret true
  end.

Definition syncRoleTimers (id : NodeID) (before after : Role) : M unit :=
  p ← the_process id;
  _ ← (if negb (bool_decide (before = Leader)) && bool_decide (after = Leader) && negb (p_electionEvent p =? 0)
       then
         _ ← simCancel (p_electionEvent p);
         update id (λ p, set_p_electionGeneration (set_p_electionEvent p 0) (wrap64 (p_electionGeneration p + 1)))
       else mret tt);
  p ← the_process id;
  if bool_decide (before = Leader) && negb (bool_decide (after = Leader)) && negb (p_heartbeatEvent p =? 0)
  then
    _ ← simCancel (p_heartbeatEvent p);
    update id (λ p, set_p_heartbeatGeneration (set_p_heartbeatEvent p 0) (wrap64 (p_heartbeatGeneration p + 1)))
  else mret tt.

Definition cancelProcessEvents (id : NodeID) : M unit :=
  p ← the_process id;
  _ ← cancelEvent (p_electionEvent p);
  _ ← cancelEvent (p_heartbeatEvent p);
  _ ← cancelEvent (p_persistEvent p);
  _ ← cancelEvent (p_persistAckEvent p);
  update id (λ p,
    let p := set_p_electionEvent p 0 in
    let p := set_p_heartbeatEvent p 0 in
    let p := set_p_persistEvent p 0 in
    let p := set_p_persistAckEvent p 0 in
    let p := set_p_electionGeneration p (wrap64 (p_electionGeneration p + 1)) in
    let p := set_p_heartbeatGeneration p (wrap64 (p_heartbeatGeneration p + 1)) in
    set_p_persistGeneration p (wrap64 (p_persistGeneration p + 1))).

(** ** The portable application *)

Definition applyApplicationEntry (application : option AppOracle.Machine) (entry : Entry)
    : option AppOracle.Machine * (AppOracle.AppError + unit) :=
  match Type_ entry with
  | EntryCommand =>
    let '(application, r) := AppOracle.ApplyEncoded application (Data entry) in
    (application, match r with inl err => inl err | inr _ => inr tt end)
  | EntryNoop | EntryConfigJoint | EntryConfigFinal => (application, inr tt)
  | EntryUnknown _ => (application, inl (AppOracle.ErrInvalidEntry (Type_ entry)))
  end.

(** [DecodeCheckpoint] and [Restore]. *)
Definition restoreCheckpoint (data : bytes) : AppOracle.AppError + AppOracle.Machine :=
  match DecodeCheckpoint enc data with
  | inl err => inl err
  | inr checkpoint => AppOracle.Restore checkpoint
  end.

Fixpoint recoverLoop (boundary applied last : Z) (application : option AppOracle.Machine)
    (entries : list Entry) : ClusterError + (option AppOracle.Machine * Z) :=
  match entries with
  | [] => inr (application, last)
  | entry :: entries =>
    if Index entry <=? boundary then recoverLoop boundary applied last application entries
    else if (last =? max_u64) || negb (Index entry =? wrap64 (last + 1)) || (applied <? Index entry)
    then inl ErrApplyOrder
    else match applyApplicationEntry application entry with
    | (_, inl err) => inl (ErrApp err)
    | (application, inr _) => recoverLoop boundary applied (Index entry) application entries
    end
  end.

Definition recoverApplication (s : Store) : ClusterError + option AppOracle.Machine :=
  let snapshot := Snapshot_ (StState s) in
  let base :=
    if (0 <? LastIncludedIndex snapshot) && (LastIncludedIndex snapshot <=? StAppliedIndex s)
    then match restoreCheckpoint (SnapData snapshot) with
         | inl err => inl (ErrApp err)
         | inr application => inr (Some application, LastIncludedIndex snapshot)
         end
    else inr (Some AppOracle.New, 0) in
  match base with
  | inl err => inl err
  | inr (application, boundary) =>
    match recoverLoop boundary (StAppliedIndex s) boundary application (StApplied s) with
    | inl err => inl err
    | inr (application, last) =>
      if negb (last =? StAppliedIndex s) then inl ErrApplyOrder else inr application
    end
  end.

(** ** Observation *)

Definition observeProcess (id : NodeID) (p : process) : go Check.NodeObservation :=
  let store := cloneStore (p_store p) in
  let observation status :=
    Check.mkNodeObservation id (p_up p) status (StState store) (StAppliedIndex store) (StApplied store) in
  if p_up p then
    match p_node p with
    | Some n => Done (observation (Some (Node.Status n)))
    | None => Panic
    end
  else Done (observation None).

Fixpoint observeProcesses (processes : gmap NodeID process) (ids : list NodeID)
    : go (list Check.NodeObservation) :=
  match ids with
  | [] => Done []
  | id :: ids =>
    match processes !! id with
    | None => Panic
    | Some p =>
      node ← observeProcess id p;
      nodes ← observeProcesses processes ids;
      Done (node :: nodes)
    end
  end.

Definition observe : M unit :=
  c ← gets (λ c, c);
  nodes ← lift (observeProcesses (c_processes c) (c_members c));
  observed ← lift (Check.Observe (marshalEvidence enc) (c_checker c)
                     (Check.mkObservation (c_now c) (slices_Clone (c_members c)) nodes));
  let '(checker, violations) := observed in
  _ ← modify (λ c, set_c_violations (set_c_checker c checker) (c_violations c ++ violations));
  match violations with
  | first :: _ => if StopOnViolation (c_config c) then fail (ErrViolation first) else mret tt
  | [] => mret tt
  end.

(** ** Effects *)

Definition persistEffect (id : NodeID) (token : Z) (state : PersistentState) : M unit :=
  p ← the_process id;
  _ ← raiseIf (negb (p_persistEvent p =? 0) || negb (p_persistAckEvent p =? 0)) ErrOverlappingPersistence;
  _ ← update id (λ p, set_p_persistGeneration p (wrap64 (p_persistGeneration p + 1)));
  p ← the_process id;
  let generation := p_persistGeneration p in
  let incarnation := p_incarnation p in
  config ← gets c_config;
  delay ← chooseDuration (storageChoiceID id incarnation generation) "storage_latency"
            (StorageLatency config) (StorageLatency config) (tokenJSON id incarnation generation token);
  event ← ScheduleTagged delay
            (Heap.mkTag "storage_completion" (storageJSON enc id incarnation generation state token))
            (storageCompleted id incarnation generation state token);
  update id (λ p, set_p_persistEvent p event).

Definition sendEffect (id : NodeID) (message : Message) : M unit :=
  _ ← update id (λ p, set_p_sendSequence p (wrap64 (p_sendSequence p + 1)));
  p ← the_process id;
  decider ← gets c_decider;
  let ids := if includeOperationIDs decider then operationIDs (Entries message) else [] in
  let envelope := mkEnvelope (p_incarnation p) (p_sendSequence p) ids message in
  net ← gets c_net;
  sent ← sample (Network.Send fuel net id (To message) envelope);
  _ ← modify (λ c, set_c_net c sent.1);
  _ ← check ErrNet sent.2;
  mret tt.

(** The machine is shared: what [ApplyEncoded] did to it stays when it fails. *)
Definition applyEffect (id : NodeID) (entry : Entry) : M unit :=
  p ← the_process id;
  config ← gets c_config;
  _ ← raiseIf (negb (Index entry =? wrap64 (StAppliedIndex (p_store p) + 1))) ErrApplyOrder;
  _ ← raiseIf (bool_decide (is_Some (Application config)) && bool_decide (p_application p = None)) ErrNoApplication;
  _ ← match p_application p with
      | None => mret tt
      | Some application =>
        let '(application, r) := applyApplicationEntry (Some application) entry in
        _ ← update id (λ p, set_p_application p application);
        check ErrApp r
      end;
  update id (λ p,
    let s := p_store p in
    set_p_store p (mkStore (StState s) (Index entry) (StApplied s ++ [entry]) (StInstalledSnapshot s))).

Definition installEffect (id : NodeID) (snapshot : Snapshot) : M unit :=
  p ← the_process id;
  config ← gets c_config;
  let last := LastIncludedIndex snapshot in
  _ ← raiseIf (last <? StAppliedIndex (p_store p)) ErrApplyOrder;
  _ ← raiseIf (bool_decide (is_Some (Application config)) && bool_decide (p_application p = None)) ErrNoApplication;
  application ← match p_application p with
    | None => mret None
    | Some application =>
      restored ← check ErrApp (restoreCheckpoint (SnapData snapshot));
      _ ← raiseIf ((last =? StAppliedIndex (p_store p)) &&
                 negb (bool_decide (AppOracle.Commitment_ restored = AppOracle.Commitment_ application)))
                ErrApplicationSnapshot;
      mret (Some restored)
    end;
  update id (λ p,
    let s := p_store p in
    set_p_application
      (set_p_store p (mkStore (StState s) last (filter (λ entry, ¬ Index entry ≤ last) (StApplied s))
                        (cloneSnapshot snapshot)))
      application).

Definition processEffect (id : NodeID) (effect : Effect) : M unit :=
  match effect with
  | EffectPersist token state => persistEffect id token state
  | EffectSend message => sendEffect id message
  | EffectResetElectionTimer => resetElectionTimer id
  | EffectResetHeartbeatTimer => resetHeartbeatTimer id
  | EffectApply entry => applyEffect id entry
  | EffectInstallSnapshot snapshot => installEffect id snapshot
  end.

Fixpoint processEffects (id : NodeID) (effects : list Effect) : M unit :=
  match effects with
  | [] => mret tt
  | effect :: effects => _ ← processEffect id effect; processEffects id effects
  end.

(** ** Inputs *)

(** [process.node.Step]: the node changes even when the input is refused. *)
Definition stepNode (id : NodeID) (n : Node.Node) (input : Input) : M (list Effect) :=
  stepped ← lift (Node.Step n input);
  _ ← update id (λ p, set_p_node p (Some stepped.1));
  check ErrRaft stepped.2.

Definition submit (id : NodeID) (queued : queuedInput) : M unit :=
  p ← the_process id;
  if negb (p_up p) || negb (q_incarnation queued =? p_incarnation p) then mret tt
  else
    n ← the_node p;
    if Node.AwaitingPersistence n then update id (λ p, set_p_mailbox p (p_mailbox p ++ [queued]))
    else
      current ← queuedInputIsCurrent p queued;
      if negb current then mret tt
      else
        let beforeRole := Node.role n in
        effects ← stepNode id n (q_input queued);
        _ ← processEffects id effects;
        p ← the_process id;
        n ← the_node p;
        syncRoleTimers id beforeRole (Node.role n).

(** The mailbox shrinks in every iteration: the fuel is one more than its length. *)
Fixpoint drainLoop (limit : nat) (id : NodeID) : M unit :=
  match limit with
  | O => mret tt
  | S limit =>
    p ← the_process id;
    if negb (p_up p) then mret tt
    else
      n ← the_node p;
      match Node.AwaitingPersistence n, p_mailbox p with
      | false, queued :: mailbox =>
        _ ← update id (λ p, set_p_mailbox p mailbox);
        r ← try (submit id queued);
        match r with
        | inl err => fail err
        | inr _ => drainLoop limit id
        end
      | _, _ => mret tt
      end
  end.

Definition drain (id : NodeID) : M unit :=
  p ← the_process id;
  drainLoop (S (length (p_mailbox p))) id.

Definition receive (id : NodeID) (packet : Network.Packet Envelope) : M unit :=
  let envelope := Network.PkMessage packet in
  let message := EnvMessage envelope in
  if (SenderIncarnation envelope =? 0) || (SendSequence envelope =? 0) ||
     negb (String.eqb (Network.PkFrom packet) (From message)) ||
     negb (String.eqb (Network.PkTo packet) (To message)) || negb (String.eqb (To message) id)
  then fail ErrTransportIdentity
  else
    p ← the_process id;
    if negb (p_up p) then mret tt
    else orFail (submit id (mkQueued (InputMessage (CloneMessage message)) (p_incarnation p) noTimer 0)).

(** ** The life cycle of processes *)

Definition start (id : NodeID) : M unit :=
  p ← the_process id;
  config ← gets c_config;
  members ← gets c_members;
  _ ← match Application config with
      | None => mret tt
      | Some _ =>
        application ← check (λ e, e) (recoverApplication (p_store p));
        update id (λ p, set_p_application p application)
      end;
  created ← lift (Node.New (mkConfig id members (CcVoters config) (CcLearners config)
                              (StAppliedIndex (p_store p))) (StState (p_store p)));
  n ← check ErrRaft created;
  started ← lift (Node.Start n);
  _ ← update id (λ p, set_p_node p (Some started.1));
  processEffects id started.2.

Definition Crash (id : NodeID) : M unit :=
  p ← known id;
  _ ← raiseIf (negb (p_up p)) ErrNodeDown;
  _ ← update id (λ p,
        let p := set_p_up p false in
        let p := set_p_incarnation p (wrap64 (p_incarnation p + 1)) in
        let p := set_p_node p None in
        let p := set_p_application p None in
        let p := set_p_mailbox p [] in
        let p := set_p_crashAfterPersist p false in
        set_p_sendSequence p 0);
  _ ← cancelProcessEvents id;
  _ ← observe;
  failed.

Definition Restart (id : NodeID) : M unit :=
  p ← known id;
  _ ← raiseIf (p_up p) ErrNodeUp;
  _ ← update id (λ p, set_p_mailbox (set_p_up p true) []);
  r ← try (start id);
  match r with
  | inl err => _ ← update id (λ p, set_p_up p false); raise err
  | inr _ => _ ← observe; failed
  end.

Definition CrashAfterNextPersist (id : NodeID) : M unit :=
  p ← known id;
  _ ← raiseIf (negb (p_up p)) ErrNodeDown;
  update id (λ p, set_p_crashAfterPersist p true).

(** ** Callbacks *)

(** The guard of the timer callbacks. *)
Definition timerCurrent (id : NodeID) (incarnation generation : Z) (generationOf : process → Z)
    (wanted : Role → bool) : M bool :=
  p ← the_process id;
  if negb (p_up p) || negb (p_incarnation p =? incarnation) || negb (generationOf p =? generation)
  then mret false
  else n ← the_node p; mret (wanted (Node.role n)).

Definition onElectionTimer (id : NodeID) (incarnation generation : Z) : M unit :=
  current ← timerCurrent id incarnation generation p_electionGeneration
              (λ r, negb (bool_decide (r = Leader)));
  if negb current then mret tt
  else
    _ ← update id (λ p, set_p_electionEvent p 0);
    orFail (submit id (mkQueued InputElectionTimeout incarnation electionTimer generation)).

Definition onHeartbeatTimer (id : NodeID) (incarnation generation : Z) : M unit :=
  current ← timerCurrent id incarnation generation p_heartbeatGeneration
              (λ r, bool_decide (r = Leader));
  if negb current then mret tt
  else
    _ ← update id (λ p, set_p_heartbeatEvent p 0);
    orFail (submit id (mkQueued InputHeartbeatTimeout incarnation heartbeatTimer generation)).

Definition persistCurrent (p : process) (incarnation generation : Z) : bool :=
  p_up p && (p_incarnation p =? incarnation) && (p_persistGeneration p =? generation).

Definition onStorageCompletion (id : NodeID) (incarnation generation : Z) (state : PersistentState)
    (token : Z) : M unit :=
  p ← the_process id;
  if negb (persistCurrent p incarnation generation) then mret tt
  else
    _ ← update id (λ p, set_store_state (set_p_persistEvent p 0) (cloneState state));
    if p_crashAfterPersist p then
      _ ← update id (λ p, set_p_crashAfterPersist p false);
      orFail (Crash id)
    else
      orFail
        (event ← ScheduleTagged 0
                   (Heap.mkTag "persistence_ack" (tokenJSON id incarnation generation token))
                   (persistAcked id incarnation generation token);
         update id (λ p, set_p_persistAckEvent p event)).

Definition onPersistenceAck (id : NodeID) (incarnation generation : Z) (token : Z) : M unit :=
  p ← the_process id;
  if negb (persistCurrent p incarnation generation) then mret tt
  else
    _ ← update id (λ p, set_p_persistAckEvent p 0);
    n ← the_node p;
    r ← try (stepNode id n (InputPersisted token));
    match r with
    | inl err => fail err
    | inr after =>
      r ← try (processEffects id after);
      match r with
      | inl err => fail err
      | inr _ => drain id
      end
    end.

(** A due delivery: the router drops it or calls the node's handler. *)
Definition runDelivery (d : Network.delivery Envelope) : M unit :=
  net ← gets c_net;
  let '(net, handler) := Network.arrive net d in
  _ ← modify (λ c, set_c_net c net);
  match handler with
  | Some id => receive id (Network.dl_packet d)
  | None => mret tt
  end.

(** ** Running

    The callbacks that users of the scheduler add: they share variables, of type [X], with
    their user.  Without such a user, [noCallback]. *)

Definition noCallback (_ : nat) (x : unit) : M unit := mret x.

Section running.
Context {X : Type} (callback : nat → X → M X).

Definition runAction (a : action) (x : X) : M X :=
  match a with
  | electionFired id incarnation generation => _ ← onElectionTimer id incarnation generation; mret x
  | heartbeatFired id incarnation generation => _ ← onHeartbeatTimer id incarnation generation; mret x
  | storageCompleted id incarnation generation state token =>
    _ ← onStorageCompletion id incarnation generation state token; mret x
  | persistAcked id incarnation generation token =>
    _ ← onPersistenceAck id incarnation generation token; mret x
  | scheduledCrash id => _ ← orFail (Crash id); mret x
  | scheduledRestart id => _ ← orFail (Restart id); mret x
  | userCallback n => callback n x
  end.

(** [c.simulator.Step()] *)
Definition simulatorStep (x : X) : M (X * bool) :=
  s ← gets c_sim;
  next ← lift (Simulator.takeNext s);
  match next with
  | None => mret (x, false)
  | Some (s, act) =>
    _ ← modify (λ c, set_c_sim c s);
    x ← match act with inl d => _ ← runDelivery d; mret x | inr a => runAction a x end;
    mret (x, true)
  end.

(** The results of [Step] and of the loops carry the error along with their value. *)
Definition Step (x : X) : M (X * (bool * option ClusterError)) :=
  err ← gets c_err;
  match err with
  | Some err => mret (x, (false, Some err))
  | None =>
    '(x, ran) ← simulatorStep x;
    _ ← (if (ran : bool) then observe else mret tt);
    err ← gets c_err;
    mret (x, (ran, err))
  end.

Fixpoint runSteps (limit : nat) (x : X) (count : Z) : M (X * (Z * option ClusterError)) :=
  match limit with
  | O => mret (x, (count, None))
  | S limit =>
    '(x, (ran, err)) ← Step x;
    if bool_decide (is_Some err) || negb ran then mret (x, (count, err)) else runSteps limit x (count + 1)
  end.

Definition RunSteps (limit : Z) (x : X) : M (X * (Z * option ClusterError)) := runSteps (Z.to_nat limit) x 0.

(** [c.simulator.RunUntil(end)] when no event is due: only the clock moves. *)
Definition advanceClock (end_ : Z) : M (option ClusterError) := λ c,
  r ← Simulator.RunUntil (λ _ _, Panic) 1 end_ (c_sim c);
  Done (match r with
        | None => None
        | Some (s, inl err) => Some (set_c_sim c s, inr (Some (ErrSim err)))
        | Some (s, inr _) => Some (set_c_sim c s, inr None)
        end).

(** [None]: more events than [events] are due. *)
Fixpoint runUntilLoop (events : nat) (end_ : Z) (x : X) (count : Z)
    : M (option (X * (Z * option ClusterError))) :=
  match events with
  | O => mret None
  | S events =>
    s ← gets c_sim;
    '(next, exists_) ← lift (Simulator.NextEventTime s);
    if negb exists_ || (end_ <? next) then
      err ← advanceClock end_;
      mret (Some (x, (count, err)))
    else
      '(x, (ran, err)) ← Step x;
      if bool_decide (is_Some err) || negb ran then mret (Some (x, (count, err)))
      else runUntilLoop events end_ x (count + 1)
  end.

Definition RunUntil (events : nat) (end_ : Z) (x : X) : M (option (X * (Z * option ClusterError))) :=
  err ← gets c_err;
  now ← gets c_now;
  match err with
  | Some err => mret (Some (x, (0, Some err)))
  | None =>
    if end_ <? now then err ← advanceClock end_; mret (Some (x, (0, err)))
    else runUntilLoop events end_ x 0
  end.
End running.

(** ** Construction *)

(** The processes, each with a stream split from the root in member order. *)
Fixpoint newProcesses (application : option AppOracle.AppConfig) (root : Rand.Rand) (members : list NodeID)
    (processes : gmap NodeID process) : gmap NodeID process :=
  match members with
  | [] => processes
  | id :: members =>
    let '(root, random) := Rand.Split root in
    let machine := match application with Some _ => Some AppOracle.New | None => None end in
    let p := mkProcess None true 1 emptyStore random [] 0 0 0 0 0 0 0 false 0 machine in
    newProcesses application root members (<[id := p]> processes)
  end.

Fixpoint registerAll (net : Net D) (members : list NodeID) : Network.NetError + Net D :=
  match members with
  | [] => inr net
  | id :: members =>
    match Network.Register net id (Some id) with
    | (_, Some err) => inl err
    | (net, None) => registerAll net members
    end
  end.

Definition NewPaused (config : ClusterConfig) (decider : option D) : ClusterError + Cluster :=
  match validateConfig config with
  | Some err => inl err
  | None =>
    let members := sort_nodes (slices_Clone (CcMembers config)) in
    let config := mkClusterConfig (slices_Clone members) (slices_Clone (CcVoters config))
      (slices_Clone (CcLearners config)) (Seed config) (CcNetwork config) (ElectionTimeoutMin config)
      (ElectionTimeoutMax config) (HeartbeatInterval config) (StorageLatency config)
      (StopOnViolation config) (Application config) in
    let initialMembership :=
      if (zlen (CcVoters config) =? 0) && (zlen (CcLearners config) =? 0)
      then stableMembership members [] else stableMembership (CcVoters config) (CcLearners config) in
    let '(root, networkRandom) := Rand.Split (Rand.NewRand (Seed config)) in
    match Network.NewRouter Simulator.New networkRandom (CcNetwork config) (Some cloneEnvelope) decider with
    | inl err => inl (ErrNet err)
    | inr net =>
      let net := match decider with
                 | Some _ => Network.SetDecisionSource net (Some raftNetworkDecisions)
                 | None => net
                 end in
      let net := Network.SetPacketEventTagger net (Some JSONPacketEventTagger) in
      match registerAll net members with
      | inl err => inl (ErrNet err)
      | inr net =>
        inr (mkCluster config members net (newProcesses (Application config) root members ∅)
               (Check.NewWithMembership members initialMembership) false [] None)
      end
    end
  end.

Fixpoint startAll (members : list NodeID) : M unit :=
  match members with
  | [] => mret tt
  | id :: members => _ ← start id; startAll members
  end.

Definition Bootstrap : M unit :=
  bootstrapped ← gets c_bootstrapped;
  _ ← raiseIf bootstrapped ErrAlreadyBootstrapped;
  members ← gets c_members;
  _ ← startAll members;
  _ ← modify (λ c, set_c_bootstrapped c true);
  _ ← observe;
  failed.

(** [New]: the cluster of [NewPaused], bootstrapped.  Who gave the decider still holds it
    when the cluster is refused, so it is part of the result. *)
Definition New (config : ClusterConfig) (decider : option D)
    : go (option (option D * (ClusterError + Cluster))) :=
  match NewPaused config decider with
  | inl err => Done (Some (decider, inl err))
  | inr c =>
    r ← Bootstrap c;
    Done (match r with
          | None => None
          | Some (c, inl err) => Some (c_decider c, inl err)
          | Some (c, inr _) => Some (c_decider c, inr c)
          end)
  end.

(** ** Reading *)

Definition Members (c : Cluster) : list NodeID := slices_Clone (c_members c).

Definition Status (id : NodeID) : M Node.Status_ :=
  p ← known id;
  _ ← raiseIf (negb (p_up p)) ErrNodeDown;
  n ← the_node p;
  mret (Node.Status n).

Fixpoint statusesLoop (members : list NodeID) : M (list Node.Status_) :=
  match members with
  | [] => mret []
  | id :: members =>
    p ← the_process id;
    if p_up p then n ← the_node p; rest ← statusesLoop members; mret (Node.Status n :: rest)
    else statusesLoop members
  end.

Definition Statuses : M (list Node.Status_) := members ← gets c_members; statusesLoop members.

Definition Store_ (id : NodeID) : M Store := p ← known id; mret (cloneStore (p_store p)).

Definition ApplicationCommitment (id : NodeID) : M AppOracle.Commitment :=
  p ← known id;
  config ← gets c_config;
  _ ← raiseIf (bool_decide (Application config = None)) ErrApplicationDisabled;
  application ← match p_application p with
                | Some application => mret (Some application)
                | None => check (λ e, e) (recoverApplication (p_store p))
                end;
  match application with
  | Some application => mret (AppOracle.Commitment_ application)
  | None => panic
  end.

(** The unique live leader: [None] when there is none or more than one. *)
Fixpoint leaderLoop (found : string) (members : list NodeID) : M (option NodeID) :=
  match members with
  | [] => mret (if String.eqb found "" then None else Some found)
  | id :: members =>
    p ← the_process id;
    if negb (p_up p) then leaderLoop found members
    else
      n ← the_node p;
      if negb (bool_decide (Node.role n = Leader)) then leaderLoop found members
      else if negb (String.eqb found "") then mret None
      else leaderLoop id members
  end.

Definition Leader_ : M (option NodeID) := members ← gets c_members; leaderLoop "" members.

Definition Violations_ (c : Cluster) : list Violation := Check.cloneViolations (c_violations c).

(** ** Driving the protocol *)

(** A client's input to one live process. *)
Definition clientInput (id : NodeID) (p : process) (input : Input) : M unit :=
  _ ← submit id (mkQueued input (p_incarnation p) noTimer 0);
  _ ← observe;
  failed.

(** The checks of the operations that address a leader. *)
Definition liveLeader (id : NodeID) : M process :=
  p ← known id;
  _ ← raiseIf (negb (p_up p)) ErrNodeDown;
  n ← the_node p;
  _ ← raiseIf (negb (bool_decide (Node.role n = Leader))) (ErrRaft ErrNotLeader);
  mret p.

Definition toLeader (call : NodeID → M unit) : M unit :=
  leader ← Leader_;
  match leader with Some id => call id | None => raise ErrNoLeader end.

Definition ProposeTo (id : NodeID) (data : bytes) : M unit :=
  p ← liveLeader id;
  config ← gets c_config;
  _ ← match Application config with
      | None => mret tt
      | Some _ => _ ← check ErrApp (AppOracle.DecodeCommand data); mret tt
      end;
  clientInput id p (InputProposal (slices_Clone data)).

Definition Propose (data : bytes) : M unit := toLeader (λ id, ProposeTo id data).

Definition snapshot (id : NodeID) (data : bytes) : M unit :=
  p ← known id;
  _ ← raiseIf (negb (p_up p)) ErrNodeDown;
  clientInput id p (InputSnapshot (StAppliedIndex (p_store p)) (slices_Clone data)).

Definition Snapshot (id : NodeID) (data : bytes) : M unit :=
  config ← gets c_config;
  _ ← raiseIf (bool_decide (is_Some (Application config))) ErrApplicationSnapshot;
  snapshot id data.

Definition SnapshotApplication (id : NodeID) : M unit :=
  p ← known id;
  config ← gets c_config;
  _ ← raiseIf (bool_decide (Application config = None)) ErrApplicationDisabled;
  _ ← raiseIf (negb (p_up p)) ErrNodeDown;
  match p_application p with
  | None => raise ErrNoApplication
  | Some application =>
    data ← check ErrApp (AppOracle.EncodeCheckpoint (AppOracle.Checkpoint_ application));
    snapshot id data
  end.

Definition BeginMembershipChangeTo (id : NodeID) (voters learners : list NodeID) : M unit :=
  p ← liveLeader id;
  clientInput id p (InputBeginMembership (slices_Clone voters) (slices_Clone learners)).

Definition BeginMembershipChange (voters learners : list NodeID) : M unit :=
  toLeader (λ id, BeginMembershipChangeTo id voters learners).

Definition FinalizeMembershipChangeTo (id : NodeID) : M unit :=
  p ← liveLeader id;
  clientInput id p InputFinalizeMembership.

Definition FinalizeMembershipChange : M unit := toLeader FinalizeMembershipChangeTo.

(** ** Faults *)

Definition Partition (groups : list (list NodeID)) : M unit :=
  matrix ← check ErrNet (Network.NewPartitions groups);
  modify (λ c, set_c_net c (Network.SetPartition (c_net c) (Some matrix))).

Definition Heal : M unit := modify (λ c, set_c_net c (Network.SetPartition (c_net c) None)).

Definition ScheduleCrash (delay : Z) (id : NodeID) : M Z :=
  ScheduleTagged delay (Heap.mkTag "scheduled_crash" (nodeJSON id)) (scheduledCrash id).

Definition ScheduleRestart (delay : Z) (id : NodeID) : M Z :=
  ScheduleTagged delay (Heap.mkTag "scheduled_restart" (nodeJSON id)) (scheduledRestart id).
End cluster.
