(* ===== verification/ClusterGroup.v ===== *)
(** * The cluster runs a group of hosts

    The relation between a cluster and a group (Election.v): a process is a host whose disk is
    the process's store, what is in flight or in a mailbox was sent, and the pending storage
    events are those of the current write.  Every computation of the cluster keeps the
    relation, the group taking the steps of the hosts it drives, whatever else happens: errors,
    crashes between the write and its acknowledgement, failed restarts. *)

From S2P Require Export Cluster.
From S2P Require Import Prelude RaftTypes Membership Outcome.
From S2P Require Node NodeHost Election Simulator SimInv SimProps Network NetProps Decision Check.
From stdpp Require Import options.

#[global] Open Scope Z_scope.

(** ** Computations that keep an invariant *)

Section keeps.
Context {D : Type}.

Definition keeps (I : Cluster D → Prop) {A} (m : M D A) : Prop :=
  ∀ c, I c → wlp (m c) (λ r, match r with None => True | Some (c', _) => I c' end).

(** The same with a fact on the value. *)
Definition yields (I : Cluster D → Prop) {A} (m : M D A) (Q : A → Prop) : Prop :=
  ∀ c, I c → wlp (m c) (λ r, match r with None => True | Some (c', inl _) => I c' | Some (c', inr a) => I c' ∧ Q a end).

Context (I : Cluster D → Prop).

Lemma yields_bind {A B} (m : M D A) (k : A → M D B) Q :
  yields I m Q → (∀ a, Q a → keeps I (k a)) → keeps I (m ≫= k).
Proof.
  intros Hm Hk c Hc. unfold mbind, M_bind. apply wlp_bind. eapply wlp_mono; [by apply Hm |].
  intros [[c' [err|a]]|] H; [done | | done]. by apply (Hk a); apply H.
Qed.

Lemma yields_keeps {A} (m : M D A) Q : yields I m Q → keeps I m.
Proof.
  intros Hm c Hc. eapply wlp_mono; [by apply Hm |]. intros [[c' [err|a]]|]; [done | by intros [? _] | done].
Qed.

Lemma keeps_yields {A} (m : M D A) : keeps I m → yields I m (λ _, True).
Proof. intros Hm c Hc. eapply wlp_mono; [by apply Hm |]. by intros [[c' [err|a]]|]. Qed.

Lemma keeps_bind {A B} (m : M D A) (k : A → M D B) :
  keeps I m → (∀ a, keeps I (k a)) → keeps I (m ≫= k).
Proof. intros Hm Hk. eapply yields_bind; [by apply keeps_yields | done]. Qed.

Lemma keeps_ret {A} (a : A) : keeps I (mret a).
Proof. by intros c Hc. Qed.
Lemma keeps_raise {A} err : keeps I (raise err : M D A).
Proof. by intros c Hc. Qed.
Lemma keeps_panic {A} : keeps I (panic : M D A).
Proof. by intros c Hc. Qed.
Lemma keeps_gets {A} (f : Cluster D → A) : keeps I (gets f).
Proof. by intros c Hc. Qed.
Lemma keeps_raiseIf b err : keeps I (raiseIf b err).
Proof. intros c Hc. unfold raiseIf. by destruct b. Qed.
Lemma keeps_lift {A} (m : go A) : keeps I (lift m).
Proof. intros c Hc. unfold lift. by destruct m. Qed.
Lemma keeps_sample {A} (m : go (option A)) : keeps I (sample m).
Proof. intros c Hc. unfold sample. by destruct m as [[]|]. Qed.
Lemma keeps_check {E A} (w : E → ClusterError) (r : E + A) : keeps I (check w r).
Proof. intros c Hc. by destruct r. Qed.
Lemma keeps_modify f : (∀ c, I c → I (f c)) → keeps I (modify f).
Proof. intros Hf c Hc. by apply Hf. Qed.
Lemma keeps_try {A} (m : M D A) : keeps I m → keeps I (try m).
Proof.
  intros Hm c Hc. unfold try. apply wlp_bind. eapply wlp_mono; [by apply Hm |]. by intros [[c' r]|].
Qed.
Lemma keeps_the_node p : keeps I (the_node p).
Proof. intros c Hc. unfold the_node. by destruct (p_node p). Qed.
Lemma keeps_failed : keeps I failed.
Proof. apply keeps_bind; [apply keeps_gets |]. intros []; [apply keeps_raise | apply keeps_ret]. Qed.
Lemma keeps_known id : keeps I (known id).
Proof.
  apply keeps_bind; [apply keeps_gets |]. intros ps.
  destruct (ps !! id); [apply keeps_ret | apply keeps_raise].
Qed.
Lemma keeps_the_process id : keeps I (the_process id).
Proof.
  apply keeps_bind; [apply keeps_gets |]. intros ps.
  destruct (ps !! id); [apply keeps_ret | apply keeps_panic].
Qed.

Lemma yields_the_process id (Q : process → Prop) :
  (∀ c p, I c → c_processes c !! id = Some p → Q p) → yields I (the_process id) Q.
Proof.
  intros HQ c Hc. unfold the_process, mbind, M_bind, gets. simpl.
  destruct (c_processes c !! id) as [p|] eqn:Hp; simpl; [| done]. split; [done | by eapply HQ].
Qed.

Lemma keeps_if {A} (b : bool) (m k : M D A) : keeps I m → keeps I k → keeps I (if b then m else k).
Proof. by destruct b. Qed.
Lemma keeps_if_decide {A} (P : Prop) `{Decision P} (m k : M D A) :
  keeps I m → keeps I k → keeps I (if decide P then m else k).
Proof. by destruct (decide P). Qed.
Lemma keeps_sum {A B E} (r : E + A) (k1 : E → M D B) (k2 : A → M D B) :
  (∀ e, keeps I (k1 e)) → (∀ a, keeps I (k2 a)) → keeps I (match r with inl e => k1 e | inr a => k2 a end).
Proof. by destruct r. Qed.
Lemma keeps_option {A B} (o : option A) (k1 : A → M D B) (k2 : M D B) :
  (∀ a, keeps I (k1 a)) → keeps I k2 → keeps I (match o with Some a => k1 a | None => k2 end).
Proof. by destruct o. Qed.
End keeps.

Create HintDb keeps discriminated.
#[export] Hint Constants Opaque : keeps.
#[export] Hint Resolve keeps_ret keeps_raise keeps_panic keeps_gets keeps_raiseIf keeps_lift keeps_sample
  keeps_check keeps_the_node keeps_failed keeps_known keeps_the_process : keeps.

(** One computation after the other; what is not closed by a hint is left. *)
Ltac keep :=
  repeat first
    [ progress intros
    | solve [auto with keeps nocore]
    | apply keeps_bind
    | apply keeps_try
    | apply keeps_if
    | apply keeps_option
    | apply keeps_sum
    | progress cbv zeta
    | match goal with |- keeps _ (let '(_, _) := ?x in _) => destruct x end ].

(** ** One step of a computation at a time *)

Section steps.
Context {D : Type} {A B : Type} (Q : option (Cluster D * (ClusterError + B)) → Prop).

Lemma bind_step (m : M D A) (k : A → M D B) c :
  wlp (m c) (λ r, match r with
    | None => Q None
    | Some (c', inl err) => Q (Some (c', inl err))
    | Some (c', inr a) => wlp (k a c') Q
    end) →
  wlp ((m ≫= k) c) Q.
Proof.
  intros H. unfold mbind, M_bind. apply wlp_bind. eapply wlp_mono; [exact H |].
  by intros [[c' [err|a]]|].
Qed.
End steps.

Section more_steps.
Context {D : Type} {B : Type} (Q : option (Cluster D * (ClusterError + B)) → Prop).

Lemma process_step id (k : process → M D B) c :
  (∀ p, c_processes c !! id = Some p → wlp (k p c) Q) → wlp ((the_process id ≫= k) c) Q.
Proof.
  intros H. apply bind_step. unfold the_process, mbind, M_bind, gets. simpl.
  destruct (c_processes c !! id) as [p|]; simpl; auto.
Qed.

Lemma known_step id (k : process → M D B) c :
  Q (Some (c, inl ErrUnknownNode)) → (∀ p, c_processes c !! id = Some p → wlp (k p c) Q) →
  wlp ((known id ≫= k) c) Q.
Proof.
  intros H0 H. apply bind_step. unfold known, mbind, M_bind, gets. simpl.
  destruct (c_processes c !! id) as [p|]; simpl; auto.
Qed.

Lemma raiseIf_step b err (k : unit → M D B) c :
  Q (Some (c, inl err)) → (b = false → wlp (k tt c) Q) → wlp ((raiseIf b err ≫= k) c) Q.
Proof. intros H1 H2. apply bind_step. unfold raiseIf. destruct b; simpl; auto. Qed.

Lemma gets_step {A} (f : Cluster D → A) (k : A → M D B) c :
  wlp (k (f c) c) Q → wlp ((gets f ≫= k) c) Q.
Proof. intros H. by apply bind_step. Qed.

Lemma node_step p (k : Node.Node → M D B) c :
  (∀ n, p_node p = Some n → wlp (k n c) Q) → wlp ((the_node p ≫= k) c) Q.
Proof. intros H. apply bind_step. unfold the_node. destruct (p_node p); simpl; auto. Qed.

Lemma lift_step {A} (m : go A) (k : A → M D B) c :
  (∀ a, m = Done a → wlp (k a c) Q) → wlp ((lift m ≫= k) c) Q.
Proof. intros H. apply bind_step. unfold lift. destruct m; simpl; auto. Qed.

Lemma update_step id f (k : unit → M D B) c p :
  c_processes c !! id = Some p →
  wlp (k tt (set_c_processes c (<[id := f p]> (c_processes c)))) Q → wlp ((update id f ≫= k) c) Q.
Proof.
  intros Hp H. apply bind_step. unfold update, the_process, mbind, M_bind, gets. simpl. by rewrite Hp.
Qed.

Lemma update_last id f c p (R : option (Cluster D * (ClusterError + unit)) → Prop) :
  c_processes c !! id = Some p →
  R (Some (set_c_processes c (<[id := f p]> (c_processes c)), inr tt)) → wlp (update id f c) R.
Proof.
  intros Hp H. unfold update, the_process, mbind, M_bind, gets. simpl. by rewrite Hp.
Qed.

(** A part that keeps an invariant stronger than what is wanted in the end. *)
Lemma keeps_step {A} (I : Cluster D → Prop) (m : M D A) (k : A → M D B) c :
  keeps I m → I c → Q None → (∀ c' err, I c' → Q (Some (c', inl err))) →
  (∀ c' a, I c' → wlp (k a c') Q) → wlp ((m ≫= k) c) Q.
Proof.
  intros Hm Hc Hn He Hk. apply bind_step. eapply wlp_mono; [by apply Hm |].
  intros [[c' [err|a]]|] H; auto.
Qed.
End more_steps.

(** ** The relation *)

Abbreviation Group := Election.Group.
Abbreviation hosts := Election.hosts.
Abbreviation soup := Election.soup.
Abbreviation hnode := NodeHost.hnode.
Abbreviation disk := NodeHost.disk.

(** The store is the host's disk, or already holds the write in progress. *)
Definition stored (h : NodeHost.Host) (s : PersistentState) : Prop :=
  s = disk h ∨ (is_Some (Node.pending (hnode h)) ∧ s = Node.state (hnode h)).

(** What may be in a mailbox: messages that were sent, and no acknowledgement of a write. *)
Definition accepted (g : Group) (q : queuedInput) : Prop :=
  match q_input q with
  | InputMessage m => m ∈ soup g
  | InputPersisted _ => False
  | _ => True
  end.

Record process_rel (g : Group) (id : NodeID) (p : process) : Prop := {
  pr_host : match hosts g !! id with
            | Some h => stored h (StState (p_store p)) ∧ ∀ n, p_node p = Some n → hnode h = n
            | None => p_node p = None ∧ StState (p_store p) = emptyState
            end;
  pr_mailbox : ∀ q, q ∈ p_mailbox p → accepted g q;
  pr_one : p_persistEvent p = 0 ∨ p_persistAckEvent p = 0;
  pr_down : p_up p = false → p_persistEvent p = 0 ∧ p_persistAckEvent p = 0;
  pr_clean : ∀ n, p_node p = Some n → Node.pending n = None →
             p_persistEvent p = 0 ∧ p_persistAckEvent p = 0 }.

(** A write in progress: the state it writes, and later its acknowledgement. *)
Definition awaits (p : process) (incarnation generation token : Z) (st : PersistentState) : Prop :=
  p_incarnation p = incarnation ∧ p_persistGeneration p = generation ∧ p_up p = true ∧
  ∃ n w, p_node p = Some n ∧ Node.pending n = Some w ∧ Node.token w = token ∧ Node.state n = st.
Definition writing (p : process) (x incarnation generation token : Z) (st : PersistentState) : Prop :=
  p_persistEvent p = x ∧ awaits p incarnation generation token st.
Definition acking (p : process) (x incarnation generation token : Z) : Prop :=
  p_persistAckEvent p = x ∧ awaits p incarnation generation token (StState (p_store p)).

(** The storage events of a process that are pending stay its own. *)
Definition upholds (p p' : process) (x : Z) : Prop :=
  (∀ inc gen tok st, writing p x inc gen tok st → writing p' x inc gen tok st) ∧
  (∀ inc gen tok, acking p x inc gen tok → acking p' x inc gen tok).

Lemma idle_upholds p p' x :
  p_persistEvent p = 0 → p_persistAckEvent p = 0 → 0 < x → upholds p p' x.
Proof. intros Hp Ha Hx. split; [intros ???? [? _] | intros ??? [? _]]; lia. Qed.

Definition event_rel (g : Group) (ps : gmap NodeID process) (x : Z)
    (a : Network.delivery Envelope + action) : Prop :=
  match a with
  | inl d => EnvMessage (Network.PkMessage (Network.dl_packet d)) ∈ soup g
  | inr (storageCompleted id incarnation generation st token) =>
    ∃ p, ps !! id = Some p ∧ writing p x incarnation generation token st
  | inr (persistAcked id incarnation generation token) =>
    ∃ p, ps !! id = Some p ∧ acking p x incarnation generation token
  | inr _ => True
  end.

Section rel.
Context {D : Type} (conf : ClusterConfig) (ms : list NodeID).
Abbreviation Cluster := (Cluster D).

Definition node_config (id : NodeID) : Config := mkConfig id ms (CcVoters conf) (CcLearners conf) 0.

Definition events (c : Cluster) := SimInv.sp_events (SimInv.abs (c_sim c)).

Record rel (g : Group) (c : Cluster) : Prop := {
  rl_config : c_config c = conf;
  rl_members : c_members c = ms;
  rl_clone : Network.clone (Network.router (c_net c)) = Some cloneEnvelope;
  rl_sim : SimInv.sim_wf (c_sim c);
  rl_process : ∀ id p, c_processes c !! id = Some p → process_rel g id p;
  rl_events : ∀ x t tg a, events c !! x = Some (t, tg, Some a) → event_rel g (c_processes c) x a }.

Lemma event_pos g c x e : rel g c → events c !! x = Some e → 0 < x.
Proof.
  intros Hr He. pose proof (rl_sim _ _ Hr) as Hs. unfold events in He. rewrite SimInv.abs_lookup in He.
  case_decide as Hp; [| done]. apply (SimInv.sw_pending _ Hs) in Hp.
  by destruct (SimInv.sw_events _ Hs _ Hp) as [? _].
Qed.

(** What does not touch processes and the scheduler. *)
Lemma rel_ext g c c' :
  c_config c' = c_config c → c_members c' = c_members c → c_sim c' = c_sim c →
  Network.clone (Network.router (c_net c')) = Network.clone (Network.router (c_net c)) →
  c_processes c' = c_processes c → rel g c → rel g c'.
Proof.
  intros H1 H2 H3 H4 H5 []. split; try congruence; unfold events in *; rewrite ?H3, ?H5; done.
Qed.

(** The scheduler lost events and has new harmless ones. *)
Lemma rel_sim g c s :
  rel g c → SimInv.sim_wf s →
  (∀ x t tg a, SimInv.sp_events (SimInv.abs s) !! x = Some (t, tg, Some a) →
     events c !! x = Some (t, tg, Some a) ∨ event_rel g (c_processes c) x a) →
  rel g (set_c_sim c s).
Proof.
  intros [] Hs He. split; try done. intros x t tg a Hx.
  destruct (He x t tg a Hx) as [H|H]; [by eapply rl_events0 | done].
Qed.

Lemma event_rel_put g ps id p p' x a :
  ps !! id = Some p → upholds p p' x → event_rel g ps x a → event_rel g (<[id := p']> ps) x a.
Proof.
  intros Hp [Hw Ha]. destruct a as [d | []]; simpl; try done; intros (q & Hq & H);
    match goal with |- ∃ _, <[_ := _]> _ !! ?y = _ ∧ _ => destruct (decide (y = id)) as [->|Hne] end.
  all: rewrite ?lookup_insert_eq, ?lookup_insert_ne by done; simplify_eq; eauto.
Qed.

(** One process changes, the group does not. *)
Lemma rel_put g c id p p' :
  rel g c → c_processes c !! id = Some p → process_rel g id p' →
  (∀ x, 0 < x → is_Some (events c !! x) → upholds p p' x) →
  rel g (set_c_processes c (<[id := p']> (c_processes c))).
Proof.
  intros Hr Hp Hp' Hw. pose proof Hr as [Hc Hm Hcl Hs Hps Hev]. split; try done; simpl.
  - intros y q Hy. destruct (decide (y = id)) as [->|Hne].
    + rewrite lookup_insert_eq in Hy. by simplify_eq.
    + rewrite lookup_insert_ne in Hy by done. by apply Hps.
  - intros x t tg a Hx. pose proof (event_pos _ _ _ _ Hr Hx) as Hpos.
    apply (event_rel_put _ _ _ p); [done | by apply Hw | by eapply Hev].
Qed.

Lemma accepted_mono g g' q : (∀ m, m ∈ soup g → m ∈ soup g') → accepted g q → accepted g' q.
Proof. intros Hs. unfold accepted. destruct (q_input q); auto. Qed.

Lemma process_rel_mono g g' id p :
  hosts g' !! id = hosts g !! id → (∀ m, m ∈ soup g → m ∈ soup g') → process_rel g id p → process_rel g' id p.
Proof.
  intros Hh Hs [H1 H2 H3 H4 H5]. split; [by rewrite Hh | | done | done | done].
  intros q Hq. by eapply accepted_mono, H2.
Qed.

Lemma event_rel_mono g g' ps x a :
  (∀ m, m ∈ soup g → m ∈ soup g') → event_rel g ps x a → event_rel g' ps x a.
Proof. intros Hs. destruct a as [d | []]; simpl; auto. Qed.

(** One process takes a step of the group. *)
Lemma rel_step g g' c id p p' :
  rel g c → c_processes c !! id = Some p →
  (∀ y, y ≠ id → hosts g' !! y = hosts g !! y) → (∀ m, m ∈ soup g → m ∈ soup g') →
  process_rel g' id p' →
  (∀ x, 0 < x → is_Some (events c !! x) → upholds p p' x) →
  rel g' (set_c_processes c (<[id := p']> (c_processes c))).
Proof.
  intros Hr Hp Hh Hs Hp' Hw. pose proof Hr as [Hc Hm Hcl Hsim Hps Hev]. split; try done; simpl.
  - intros y q Hy. destruct (decide (y = id)) as [->|Hne].
    + rewrite lookup_insert_eq in Hy. by simplify_eq.
    + rewrite lookup_insert_ne in Hy by done. eapply process_rel_mono; [by apply Hh | done | by apply Hps].
  - intros x t tg a Hx. pose proof (event_pos _ _ _ _ Hr Hx) as Hpos.
    apply (event_rel_mono g); [done |].
    apply (event_rel_put _ _ _ p); [done | by apply Hw | by eapply Hev].
Qed.

(** ** Changes that the relation does not see *)

Record harmless (p p' : process) : Prop := {
  hl_node : p_node p' = p_node p;
  hl_up : p_up p' = p_up p;
  hl_state : StState (p_store p') = StState (p_store p);
  hl_mailbox : p_mailbox p' = p_mailbox p;
  hl_persist : p_persistEvent p' = p_persistEvent p;
  hl_ack : p_persistAckEvent p' = p_persistAckEvent p;
  hl_incarnation : p_incarnation p' = p_incarnation p;
  hl_generation : p_persistGeneration p' = p_persistGeneration p }.

Lemma harmless_upholds p p' x : harmless p p' → upholds p p' x.
Proof.
  intros [Hn Hu Hs _ Hp Ha Hi Hg]. unfold upholds, writing, acking, awaits.
  by rewrite Hn, Hu, Hs, Hp, Ha, Hi, Hg.
Qed.
Lemma harmless_rel g id p p' : harmless p p' → process_rel g id p → process_rel g id p'.
Proof.
  intros [Hn Hu Hs Hm Hp Ha _ _] [H1 H2 H3 H4 H5]. split; rewrite ?Hn, ?Hs, ?Hm, ?Hp, ?Ha, ?Hu; done.
Qed.

(** The process runs the node of its host. *)
Definition live (g : Group) (id : NodeID) (c : Cluster) : Prop :=
  ∃ p h, c_processes c !! id = Some p ∧ hosts g !! id = Some h ∧ p_node p = Some (hnode h) ∧
    p_up p = true.

(** No write of these processes is in progress. *)
Definition idle (Q : NodeID → Prop) (c : Cluster) : Prop :=
  ∀ id p, Q id → c_processes c !! id = Some p → p_persistEvent p = 0 ∧ p_persistAckEvent p = 0.

Definition inv (g : Group) (o : option NodeID) (Q : NodeID → Prop) (c : Cluster) : Prop :=
  rel g c ∧ (∀ id, o = Some id → live g id c) ∧ idle Q c.

Definition none (_ : NodeID) : Prop := False.
Definition every (_ : NodeID) : Prop := True.

Lemma inv_none g o c : inv g o none c ↔ rel g c ∧ ∀ id, o = Some id → live g id c.
Proof. unfold inv, idle, none. naive_solver. Qed.

Section inv.
Context (g : Group) (o : option NodeID) (Q : NodeID → Prop).
Abbreviation I := (inv g o Q).

Lemma inv_ext c c' :
  c_config c' = c_config c → c_members c' = c_members c → c_sim c' = c_sim c →
  Network.clone (Network.router (c_net c')) = Network.clone (Network.router (c_net c)) →
  c_processes c' = c_processes c → I c → I c'.
Proof.
  intros H1 H2 H3 H4 H5 (Hr & Hl & Hi). split_and!; [by apply (rel_ext g c c') | |].
  - intros id Hid. unfold live. rewrite H5. by apply Hl.
  - unfold idle. by rewrite H5.
Qed.

Lemma inv_sim c s :
  I c → SimInv.sim_wf s →
  (∀ x t tg a, SimInv.sp_events (SimInv.abs s) !! x = Some (t, tg, Some a) →
     events c !! x = Some (t, tg, Some a) ∨ event_rel g (c_processes c) x a) →
  I (set_c_sim c s).
Proof. intros (Hr & Hl & Hi) Hs He. split_and!; [by apply rel_sim | done | done]. Qed.

Lemma inv_harmless c id p p' :
  I c → c_processes c !! id = Some p → harmless p p' →
  I (set_c_processes c (<[id := p']> (c_processes c))).
Proof.
  intros (Hr & Hl & Hi) Hp Hh. split_and!.
  - apply (rel_put _ _ _ p); [done | done | |].
    + eapply harmless_rel, rl_process; done.
    + intros x _ _. by apply harmless_upholds.
  - intros y Hy. destruct (Hl y Hy) as (q & h & Hq & Hhost & Hn & Hup). unfold live. simpl.
    destruct (decide (y = id)) as [->|Hne].
    + rewrite Hp in Hq. simplify_eq. exists p', h. rewrite lookup_insert_eq. split_and!; [done | done | |].
      * by rewrite (hl_node _ _ Hh).
      * by rewrite (hl_up _ _ Hh).
    + exists q, h. by rewrite lookup_insert_ne by done.
  - intros y q HQ Hy. simpl in Hy. destruct (decide (y = id)) as [->|Hne].
    + rewrite lookup_insert_eq in Hy. simplify_eq. rewrite (hl_persist _ _ Hh), (hl_ack _ _ Hh). by apply (Hi id).
    + rewrite lookup_insert_ne in Hy by done. by apply (Hi y).
Qed.

Lemma keeps_update id f : (∀ p, harmless p (f p)) → keeps I (update id f).
Proof.
  intros Hf c Hc. unfold update, the_process, put_process, modify, mbind, M_bind, gets. simpl.
  destruct (c_processes c !! id) as [p|] eqn:Hp; simpl; [| done]. by eapply inv_harmless.
Qed.

Lemma keeps_fail err : keeps I (fail err).
Proof. apply keeps_modify. intros c Hc. destruct (c_err c); [done |]. by apply (inv_ext c). Qed.

Lemma keeps_orFail m : keeps I m → keeps I (orFail m).
Proof. intros Hm. unfold orFail. keep. apply keeps_fail. Qed.

Lemma keeps_simCancel x : keeps I (simCancel x).
Proof.
  intros c Hc. unfold simCancel, on_sim. pose proof (rl_sim _ _ (proj1 Hc)) as Hs.
  destruct (wp_inv _ _ (SimInv.Cancel_ok (c_sim c) x Hs)) as ([s r] & -> & Hs' & Hsp & _). simpl.
  apply inv_sim; [done | done |]. intros y t tg a Hy. left.
  unfold SimInv.spec_cancel in Hsp. apply (f_equal (λ q, SimInv.sp_events q.1)) in Hsp. simpl in Hsp.
  change (SimInv.sp_events (SimInv.abs s)) with (filter (λ p, p.1 ∈ Simulator.pending s)
    (SimInv.entry_of <$> Simulator.mem s)) in Hy. rewrite <- Hsp in Hy.
  by apply lookup_delete_Some in Hy as [_ Hy].
Qed.

Lemma keeps_cancelEvent x : keeps I (cancelEvent x).
Proof. unfold cancelEvent. keep. apply keeps_simCancel. Qed.

(** The actions that are not storage events. *)
Definition tame (a : action) : Prop :=
  match a with storageCompleted _ _ _ _ _ | persistAcked _ _ _ _ => False | _ => True end.

(** Scheduling an action: the event it adds, if any. *)
Lemma ScheduleTagged_view delay tag a c :
  SimInv.sim_wf (c_sim c) →
  wlp (ScheduleTagged delay tag a c) (λ r, match r with
    | Some (c', r) => ∃ s, c' = set_c_sim c s ∧ SimInv.sim_wf s ∧
      match r with
      | inl _ => SimInv.sp_events (SimInv.abs s) = events c
      | inr x => ∃ t at_, events c !! x = None ∧
          SimInv.sp_events (SimInv.abs s) = <[x := (at_, t, Some (inr a))]> (events c)
      end
    | None => True
    end).
Proof.
  intros Hs. unfold ScheduleTagged, on_sim.
  pose proof (NetProps.exec_schedule_ok (c_sim c) delay (Some tag) (Some (inr a)) Hs) as H.
  cbv beta iota in H. unfold mbind, M_bind. destruct (Simulator.ScheduleTagged _ _ _ _) as [[s r]|]; [| done].
  destruct H as (Hs' & _ & Hp). simpl. destruct r as [err|x]; simpl.
  - exists s. split_and!; [done | done |]. exact (f_equal SimInv.sp_events Hp).
  - destruct Hp as (t & Hx & _ & Hev). exists s. split_and!; [done | done |]. by exists t, (Simulator.now (c_sim c) + delay).
Qed.

Lemma keeps_ScheduleTagged delay tag a : tame a → keeps I (ScheduleTagged delay tag a).
Proof.
  intros Ha c Hc. pose proof (ScheduleTagged_view delay tag a c (rl_sim _ _ (proj1 Hc))) as H.
  destruct (ScheduleTagged delay tag a c) as [[[c' r]|]|]; try done. destruct H as (s & -> & Hs & Hr).
  apply inv_sim; [done | done |]. intros y t tg e Hy. destruct r as [err|x]; simpl in *.
  - left. by rewrite <- Hr.
  - destruct Hr as (t' & at_ & Hx & Hev). rewrite Hev in Hy.
    apply lookup_insert_Some in Hy as [[-> Hy] | [_ Hy]]; [right | by left].
    simplify_eq. by destruct a.
Qed.

Lemma keeps_modify_ext f :
  (∀ c, c_config (f c) = c_config c ∧ c_members (f c) = c_members c ∧ c_sim (f c) = c_sim c ∧
     Network.clone (Network.router (c_net (f c))) = Network.clone (Network.router (c_net c)) ∧
     c_processes (f c) = c_processes c) → keeps I (modify f).
Proof. intros Hf. apply keeps_modify. intros c Hc. destruct (Hf c) as (? & ? & ? & ? & ?). by apply (inv_ext c). Qed.
End inv.

(** ** The parts of the harness *)

Section parts.
Context `{!Decision.Decider D} (enc : Encoders) (fuel : nat).

(** A decision changes nothing but the decider. *)
Lemma chooseDuration_only (J : Cluster → Prop) id kind minimum maximum context :
  (∀ c d, J c → J (set_decider c d)) → keeps J (chooseDuration fuel id kind minimum maximum context).
Proof. intros HJ. unfold chooseDuration. keep. apply keeps_modify. auto. Qed.

Section effects.
Context (g : Group) (o : option NodeID) (Q : NodeID → Prop).
Abbreviation I := (inv g o Q).

#[local] Hint Resolve keeps_update keeps_fail keeps_orFail keeps_simCancel keeps_cancelEvent keeps_ScheduleTagged : keeps.
#[local] Hint Extern 2 (harmless _ _) => by split : keeps.
#[local] Hint Extern 1 (∀ _, harmless _ _) => intros ? : keeps.
#[local] Hint Extern 2 (tame _) => exact Logic.I : keeps.

Lemma keeps_chooseDuration id kind minimum maximum context :
  keeps I (chooseDuration fuel id kind minimum maximum context).
Proof. apply chooseDuration_only. intros c d Hc. by apply (inv_ext g o Q c). Qed.

Lemma keeps_randomDuration id minimum maximum : keeps I (randomDuration fuel id minimum maximum).
Proof.
  intros c Hc. unfold randomDuration, the_process, sample, put_process, modify, mbind, M_bind, gets. simpl.
  destruct (c_processes c !! id) as [p|] eqn:Hp; simpl; [| done].
  destruct (Rand.Duration _ _ _ _) as [[[r v]|]|]; simpl; try done. by eapply inv_harmless.
Qed.

#[local] Hint Resolve keeps_chooseDuration keeps_randomDuration : keeps.

Lemma keeps_resetElectionTimer id : keeps I (resetElectionTimer fuel id).
Proof. unfold resetElectionTimer. keep. Qed.

Lemma keeps_resetHeartbeatTimer id : keeps I (resetHeartbeatTimer id).
Proof. unfold resetHeartbeatTimer. keep. Qed.

Lemma keeps_syncRoleTimers id before after : keeps I (syncRoleTimers id before after).
Proof. unfold syncRoleTimers. keep. Qed.

Lemma keeps_queuedInputIsCurrent p q : keeps I (queuedInputIsCurrent p q).
Proof. unfold queuedInputIsCurrent. destruct (q_timer q); keep. Qed.

Lemma keeps_applyEffect id entry : keeps I (applyEffect id entry).
Proof. unfold applyEffect. keep. Qed.

Lemma keeps_installEffect id snapshot : keeps I (installEffect enc id snapshot).
Proof. unfold installEffect. keep. Qed.

Lemma keeps_observe : keeps I (observe enc).
Proof.
  unfold observe. keep; [by apply keeps_modify_ext | destruct l; keep].
Qed.

(** Sending: the delivery that may be scheduled carries the message. *)
Lemma keeps_sendEffect id m : m ∈ soup g → keeps I (sendEffect fuel id m).
Proof.
  intros Hm. unfold sendEffect.
  apply keeps_bind; [keep | intros _]. apply keeps_bind; [keep | intros p].
  apply keeps_bind; [keep | intros d]. cbv zeta. set (envelope := mkEnvelope _ _ _ m).
  intros c Hc. unfold gets, sample, modify, mbind, M_bind. simpl.
  pose proof (NetProps.Send_view fuel (c_net c) id (To m) envelope (rl_sim _ _ (proj1 Hc))) as Hview.
  destruct (Network.Send _ _ _ _ _) as [[[w r]|]|]; simpl; try done.
  destruct Hview as (Hs & Hcl & Hev).
  assert (I (set_c_net c w)) as Hi.
  { assert (I (set_c_sim c (Network.sim w))) as H1.
    { apply inv_sim; [done | done |]. intros x t tg e He. destruct Hev as [Hev | (y & t' & at_ & Hy & Hev)].
      - left. change (c_net c) with (c_net c) in *. unfold events, c_sim. by rewrite <- Hev.
      - rewrite Hev in He. apply lookup_insert_Some in He as [[-> He] | [_ He]]; [right | by left].
        simplify_eq. simpl. rewrite (rl_clone _ _ (proj1 Hc)). simpl. by rewrite CloneMessage_id. }
    eapply inv_ext; [| | | | | exact H1]; done. }
  destruct r; done.
Qed.

Lemma keeps_gentle id e : (∀ m, e = EffectSend m → m ∈ soup g) → (∀ t s, e ≠ EffectPersist t s) →
  keeps I (processEffect enc fuel id e).
Proof.
  intros Hs Hp. destruct e as [t s|m| | |e|s]; simpl.
  - by destruct (Hp t s).
  - by apply keeps_sendEffect, Hs.
  - apply keeps_resetElectionTimer.
  - apply keeps_resetHeartbeatTimer.
  - apply keeps_applyEffect.
  - apply keeps_installEffect.
Qed.
End effects.

(** A storage event of a process that has none is scheduled and recorded. *)
Lemma rel_schedule g c s id q p' x t at_ a :
  rel g c → c_processes c !! id = Some q → p_persistEvent q = 0 → p_persistAckEvent q = 0 →
  p_up q = true → SimInv.sim_wf s →
  SimInv.sp_events (SimInv.abs s) = <[x := (at_, t, Some (inr a))]> (events c) →
  p_node p' = p_node q → p_up p' = p_up q → StState (p_store p') = StState (p_store q) →
  p_mailbox p' = p_mailbox q → (p_persistEvent p' = 0 ∨ p_persistAckEvent p' = 0) →
  (∀ n, p_node p' = Some n → Node.pending n ≠ None) →
  event_rel g (<[id := p']> (c_processes c)) x (inr a) →
  rel g (set_c_processes (set_c_sim c s) (<[id := p']> (c_processes c))).
Proof.
  intros Hr Hq Hpe Hpa Hup Hs Hev Hn' Hu' Hs' Hm' Hone Hpend Ha. pose proof Hr as [Hc Hm Hcl _ Hps Hevs].
  split; try done; simpl.
  - intros y r Hy. destruct (decide (y = id)) as [->|Hne].
    + rewrite lookup_insert_eq in Hy. simplify_eq. destruct (Hps id q Hq) as [H1 H2 _ _ _].
      split; [by rewrite Hn', Hs' | by rewrite Hm' | done | congruence |]. intros n Hn Hnone. by destruct (Hpend n Hn).
    + rewrite lookup_insert_ne in Hy by done. by apply Hps.
  - intros y t' tg e Hy. unfold events in Hy. change (c_sim (set_c_processes _ _)) with s in Hy.
    rewrite Hev in Hy. apply lookup_insert_Some in Hy as [[-> Hy] | [_ Hy]]; [by simplify_eq |].
    pose proof (event_pos _ _ _ _ Hr Hy).
    apply (event_rel_put _ _ _ q); [done | by apply idle_upholds | by eapply Hevs].
Qed.

(** The write of a node: its host is waiting for it, and no other is in progress. *)
Lemma keeps_persistEffect g id token st :
  (∃ h w, hosts g !! id = Some h ∧ Node.pending (hnode h) = Some w ∧ Node.token w = token ∧
          Node.state (hnode h) = st) →
  keeps (inv g (Some id) none) (persistEffect enc fuel id token st).
Proof.
  intros (h & w & Hh & Hw & Ht & Hst) c Hc. unfold persistEffect.
  apply process_step. intros p Hp. apply raiseIf_step; [done |]. intros Hif.
  apply orb_false_iff in Hif as [Hpe Hpa]. rewrite negb_false_iff, Z.eqb_eq in Hpe, Hpa.
  assert (inv g (Some id) (eq id) c) as Hc'.
  { destruct Hc as (Hr & Hl & _). split_and!; [done | done |]. intros y q <- Hq. rewrite Hp in Hq. by simplify_eq. }
  assert (∀ c' (err : ClusterError), inv g (Some id) (eq id) c' → inv g (Some id) none c') as Hweak.
  { intros c' err (? & ? & _). by apply inv_none. }
  set (p1 := set_p_persistGeneration p (wrap64 (p_persistGeneration p + 1))).
  apply (update_step _ id _ _ c p); [done |]. fold p1.
  assert (inv g (Some id) (eq id) (set_c_processes c (<[id := p1]> (c_processes c)))) as Hc1.
  { destruct Hc' as (Hr & Hl & Hi). destruct (Hl id eq_refl) as (q & h' & Hq & Hh' & Hn & Hup). simplify_eq. split_and!.
    - apply (rel_put _ _ _ p); [done | done | | intros; by apply idle_upholds].
      pose proof (rl_process _ _ Hr id p Hp) as []. by split.
    - intros y [= <-]. exists p1, h. simpl. by rewrite lookup_insert_eq.
    - intros y q <- Hy. simpl in Hy. rewrite lookup_insert_eq in Hy. by simplify_eq. }
  revert Hc1. generalize (c_processes c) as ps0. intros ps0 Hc1.
  set (c1 := set_c_processes c _) in *. assert (c_processes c1 !! id = Some p1) as Hp1 by apply lookup_insert_eq.
  clearbody c1 p1. clear c Hc Hc' p Hp Hpe Hpa. rename c1 into c, p1 into p.
  apply process_step. intros q Hq. simplify_eq. cbv zeta. apply gets_step.
  eapply (keeps_step _ (λ c, inv g (Some id) (eq id) c ∧ c_processes c !! id = Some p));
    [| done | done | intros ?? []; by apply Hweak |].
  { apply chooseDuration_only. intros c2 d [H1 H2]. split; [by apply (inv_ext _ _ _ c2) | done]. }
  clear c Hc1 Hp1. intros c delay [Hc Hp]. apply bind_step.
  eapply wlp_mono; [apply ScheduleTagged_view, Hc |]. intros [[c' r]|]; [| done]. intros (s & -> & Hs & Hr).
  destruct r as [err|x].
  - apply Hweak; [done |]. apply inv_sim; [done | done |]. intros y t tg e Hy. left. by rewrite <- Hr.
  - destruct Hr as (t & at_ & Hx & Hev).
    destruct Hc as (Hr & Hl & Hid). destruct (Hl id eq_refl) as (p' & h' & Hq & Hh' & Hn & Hup). simplify_eq.
    destruct (Hid id p eq_refl Hp) as [Hpe Hpa].
    apply (update_last id _ (set_c_sim c s) p); [done |]. apply inv_none. split.
    + apply (rel_schedule g c s id p _ x t at_ (storageCompleted id (p_incarnation p) (p_persistGeneration p)
        (Node.state (hnode h)) (Node.token w))); try done; [by right | simpl; congruence |].
      simpl. exists (set_p_persistEvent p x). rewrite lookup_insert_eq. split; [done |]. split; [done |].
      split_and!; [done | done | done |]. by exists (hnode h), w.
    + intros y [= <-]. exists (set_p_persistEvent p x), h. simpl. by rewrite lookup_insert_eq.
Qed.
End parts.
End rel.
