(* ===== verification/ClusterRun.v ===== *)
(** * Runs of the cluster and runs of the group

    Every operation of the harness is matched by steps of the group of hosts that its
    processes run (ClusterGroup.v), from the group without hosts.  What holds of every
    reachable group holds of every reachable cluster. *)

From S2P Require Export ClusterGroup.
From S2P Require Import Prelude RaftTypes Membership Outcome.
From S2P Require Node NodeHost Election Simulator SimInv SimProps Network NetProps Decision Check.
From stdpp Require Import options.

#[global] Open Scope Z_scope.

(** Trying a computation: its error is a value. *)
Lemma try_step {D A B} (Q : option (Cluster D * (ClusterError + B)) → Prop) (m : M D A)
    (k : ClusterError + A → M D B) c :
  wlp (m c) (λ r, match r with None => Q None | Some (c', r) => wlp (k r c') Q end) →
  wlp ((try m ≫= k) c) Q.
Proof.
  intros H. apply bind_step. unfold try. apply wlp_bind. eapply wlp_mono; [exact H |].
  by intros [[c' r]|].
Qed.

Definition empty_group : Group := Election.mkGroup ∅ [].

(** What the host of a process does with an effect. *)
Definition ready (g : Group) (id : NodeID) (e : Effect) : Prop :=
  match e with
  | EffectSend m => m ∈ soup g
  | EffectPersist token st =>
    ∃ h w, hosts g !! id = Some h ∧ Node.pending (hnode h) = Some w ∧ Node.token w = token ∧
           Node.state (hnode h) = st
  | _ => True
  end.

Section run.
Context {D : Type} `{HD : !Decision.Decider D} (enc : Encoders) (fuel : nat).
Context (conf : ClusterConfig) (ms : list NodeID).
Abbreviation Cluster := (Cluster D).
Abbreviation config_of := (node_config conf ms).
Abbreviation rel := (rel conf ms).
Abbreviation inv := (inv conf ms).

Definition reached (g : Group) : Prop := rtc (Election.gstep config_of) empty_group g.

(** The cluster runs some reachable group. *)
Definition related (c : Cluster) : Prop := ∃ g, reached g ∧ rel g c.

Definition ends {A} (r : option (Cluster * (ClusterError + A))) : Prop :=
  match r with None => True | Some (c, _) => related c end.

Lemma empty_started : Election.started_group config_of empty_group.
Proof. split; [done |]. intros x h Hx. by apply (lookup_empty_Some x h) in Hx. Qed.

Lemma reached_ok g : reached g → ∃ L, Election.group_ok config_of L g.
Proof. intros Hg. eapply Election.group_reachable; [apply empty_started | exact Hg]. Qed.

Lemma reached_step g g' : reached g → Election.gstep config_of g g' → reached g'.
Proof. intros Hg Hs. eapply rtc_r; [exact Hg | exact Hs]. Qed.

Lemma keeps_related {A} (m : M D A) : (∀ g, keeps (inv g None none) m) → keeps related m.
Proof.
  intros Hm c (g & Hg & Hr). eapply wlp_mono; [apply (Hm g); by apply inv_none |].
  intros [[c' r]|]; [| done]. intros [H _]. by exists g.
Qed.

Lemma related_inv g o Q c : reached g → inv g o Q c → related c.
Proof. intros Hg [Hr _]. by exists g. Qed.

Lemma keeps_ends {A} g o Q (m : M D A) c :
  reached g → inv g o Q c → keeps (inv g o Q) m → wlp (m c) ends.
Proof.
  intros Hg Hc Hm. eapply wlp_mono; [by apply Hm |]. intros [[c' r]|]; [| done]. intros H. by eapply related_inv.
Qed.

Lemma related_ends {A} (m : M D A) c : keeps related m → related c → wlp (m c) ends.
Proof. intros Hm Hc. eapply wlp_mono; [by apply Hm |]. by intros [[c' r]|]. Qed.

Lemma fail_related err : keeps related (fail err).
Proof. apply keeps_related. intros g. apply keeps_fail. Qed.

Lemma observe_related : keeps related (observe enc).
Proof. apply keeps_related. intros g. apply keeps_observe. Qed.

Lemma orFail_ends (m : M D unit) c : wlp (m c) ends → wlp (orFail m c) ends.
Proof.
  intros H. unfold orFail. apply try_step. eapply wlp_mono; [exact H |].
  intros [[c' [err|[]]]|] Hc; [| exact Hc | exact Hc]. by apply related_ends; [apply fail_related |].
Qed.

(** ** The host of a process takes a step *)

Lemma host_ready g x h es h' :
  reached g → hosts g !! x = Some h → NodeHost.hstep (Election.delivered (soup g)) (config_of x) h es h' →
  let g' := Election.mkGroup (<[x := h']> (hosts g)) (soup g ++ Election.sends es) in
  reached g' ∧ Forall (ready g' x) es.
Proof.
  intros Hg Hx Hs g'. split.
  - eapply reached_step; [exact Hg |]. by eapply Election.g_host.
  - destruct (reached_ok g Hg) as [L HL]. pose proof (Election.group_written _ _ _ _ _ _ _ HL Hx Hs) as Hw.
    apply Forall_forall. intros e He. pose proof (proj1 (Forall_forall _ _) Hw e He) as H.
    destruct e as [t st|m| | | |]; simpl; try done.
    + destruct H as (w & H1 & H2 & H3). exists h', w. split_and!; try done. simpl. by rewrite lookup_insert_eq.
    + apply elem_of_app. right. by apply Election.elem_of_sends.
Qed.

Lemma host_rel g (c : Cluster) id p p' h es h' :
  rel g c → c_processes c !! id = Some p → p_node p' = Some (hnode h') → p_up p' = true →
  let g' := Election.mkGroup (<[id := h']> (hosts g)) (soup g ++ es) in
  stored h' (StState (p_store p')) → p_mailbox p' = p_mailbox p →
  (p_persistEvent p' = 0 ∧ p_persistAckEvent p' = 0) →
  hosts g !! id = Some h → p_persistEvent p = 0 ∧ p_persistAckEvent p = 0 →
  inv g' (Some id) none (set_c_processes c (<[id := p']> (c_processes c))).
Proof.
  intros Hr Hp Hn Hup g' Hst Hmb [Hpe' Hpa'] Hh [Hpe Hpa]. apply inv_none. split.
  - apply (rel_step _ _ g _ _ id p); try done.
    + intros y Hy. simpl. by rewrite lookup_insert_ne.
    + intros m Hm. apply elem_of_app. by left.
    + split.
      * simpl. rewrite lookup_insert_eq. split; [done |]. intros n Hn'. congruence.
      * intros q Hq. rewrite Hmb in Hq. eapply accepted_mono; [| by apply (rl_process _ _ _ _ Hr id p)].
        intros m Hm. apply elem_of_app. by left.
      * by left.
      * done.
      * done.
    + intros x Hx _. by apply idle_upholds.
  - intros y [= <-]. exists p', h'. simpl. rewrite !lookup_insert_eq. done.
Qed.

(** What [stepNode] leaves when the group has taken the step. *)
Definition stepped (id : NodeID) (r : option (Cluster * (ClusterError + list Effect))) : Prop :=
  match r with
  | None => True
  | Some (c, inl _) => related c
  | Some (c, inr es) => ∃ g, reached g ∧ inv g (Some id) none c ∧ Forall (ready g id) es
  end.

Lemma process_host g (c : Cluster) id p n :
  rel g c → c_processes c !! id = Some p → p_node p = Some n →
  ∃ h, hosts g !! id = Some h ∧ hnode h = n ∧ stored h (StState (p_store p)).
Proof.
  intros Hr Hp Hn. destruct (rl_process _ _ _ _ Hr id p Hp) as [H _ _ _ _].
  destruct (hosts g !! id) as [h|].
  - destruct H as [H1 H2]. exists h. split_and!; auto.
  - destruct H as [H _]. congruence.
Qed.

(** The node of a process takes an input, or the acknowledgement of its write. *)
Lemma stepNode_host g c id p n i :
  reached g → rel g c → c_processes c !! id = Some p → p_up p = true → p_node p = Some n →
  p_persistEvent p = 0 ∧ p_persistAckEvent p = 0 →
  ((∀ t, i ≠ InputPersisted t) ∧ Node.pending n = None ∧ Election.delivered (soup g) n i ∨
   (∃ t, i = InputPersisted t) ∧ StState (p_store p) = Node.state n) →
  wlp (stepNode id n i c) (stepped id).
Proof.
  intros Hg Hr Hp Hup Hn Hz Hi. unfold stepNode. apply lift_step. intros [n' r] Hs.
  destruct (process_host g c id p n Hr Hp Hn) as ([n0 d] & Hh & Hhn & Hst). simpl in Hhn. subst n0.
  apply (update_step _ id _ _ c p); [done |].
  assert (∀ h', NodeHost.hstep (Election.delivered (soup g)) (config_of id) (NodeHost.mkHost n d)
            (NodeHost.effects_of r) h' → hnode h' = n' → stored h' (StState (p_store p)) →
          stepped id (Some (set_c_processes c (<[id := set_p_node p (Some n')]> (c_processes c)), 
            match r with inl err => inl (ErrRaft err) | inr es => inr es end))) as Hdo.
  { intros h' Hstep <- Hst'. destruct (host_ready g id _ _ _ Hg Hh Hstep) as [Hg' Hready].
    pose proof (host_rel g c id p (set_p_node p (Some (hnode h'))) _ (Election.sends (NodeHost.effects_of r)) h'
      Hr Hp ltac:(done) ltac:(done) Hst' ltac:(done) Hz Hh Hz) as Hinv.
    destruct r as [err|es]; simpl; [by eapply related_inv | by eauto]. }
  destruct Hi as [(Hne & Hpend & Hdel) | [[t ->] Hstore]].
  - assert (wlp (check ErrRaft r (set_c_processes c (<[id := set_p_node p (Some n')]> (c_processes c)))) (stepped id))
      as H; [| exact H].
    specialize (Hdo (NodeHost.mkHost n' d)). destruct r; apply Hdo; try done.
    1,3: by apply (NodeHost.h_step _ _ _ _ i).
    all: destruct Hst as [Hst | [[w Hw] _]]; [by left | simpl in Hw; congruence].
  - destruct r as [err|es]; simpl.
    + exists g. split; [done |]. assert (n' = n) as ->.
      { simpl in Hs. unfold Node.acknowledgePersistence in Hs. destruct (Node.pending n); [| by simplify_eq].
        by destruct ((t =? 0) || _); simplify_eq. }
      assert (inv g None none (set_c_processes c (<[id := set_p_node p (Some n)]> (c_processes c)))) as [H _]; [| done].
      apply (inv_harmless conf ms g None none c id p); [by apply inv_none | done |].
      split; simpl; done.
    + apply (Hdo (NodeHost.mkHost n' (Node.state n))); [| done |].
      * by apply (NodeHost.h_ack _ _ n d t).
      * by left.
Qed.

(** ** Inputs *)

Lemma processEffects_ready g id es :
  Forall (ready g id) es → keeps (inv g (Some id) none) (processEffects enc fuel id es).
Proof.
  induction 1 as [|e es He _ IH]; [apply keeps_ret |]. simpl. apply keeps_bind; [| done].
  destruct e as [t st|m| | | |]; [by apply keeps_persistEffect | ..]; apply keeps_gentle; try done.
  by intros m' [= <-].
Qed.

Lemma awaiting n : Node.AwaitingPersistence n = false → Node.pending n = None.
Proof. unfold Node.AwaitingPersistence. by destruct (Node.pending n). Qed.

Lemma queuedInputIsCurrent_pure (I : Cluster → Prop) p q : keeps I (queuedInputIsCurrent p q).
Proof. unfold queuedInputIsCurrent. destruct (q_timer q); keep. Qed.

Lemma submit_ends g c id q :
  reached g → rel g c → accepted g q → wlp (submit enc fuel id q c) ends.
Proof.
  intros Hg Hr Hq. assert (related c) as Hend by by exists g.
  unfold submit. apply process_step. intros p Hp.
  destruct (p_up p) eqn:Hup; simpl; [| done]. destruct (_ =? _); simpl; [| done].
  apply node_step. intros n Hn. destruct (Node.AwaitingPersistence n) eqn:Hw.
  - apply (update_last id _ c p); [done |]. exists g. split; [done |].
    assert (inv g None none c) as Hi by by apply inv_none.
    apply (rel_put _ _ g c id p); [done | done | |].
    + pose proof (rl_process _ _ _ _ Hr id p Hp) as [H1 H2 H3 H4 H5]. split; try done. simpl.
      intros y [Hy | ->%list_elem_of_singleton]%elem_of_app; auto.
    + intros x _ _. split; by intros.
  - apply awaiting in Hw.
    eapply (keeps_step _ (eq c)); [apply queuedInputIsCurrent_pure | done | done | by intros ? ? <- |].
    intros ? current <-. destruct current; simpl; [| done].
    apply bind_step. eapply wlp_mono.
    { apply (stepNode_host g c id p n); try done.
      { by apply (pr_clean _ _ _ (rl_process _ _ _ _ Hr id p Hp) n). } left.
      unfold accepted in Hq. split_and!; [by intros t E; rewrite E in Hq | done |].
      unfold Election.delivered. by destruct (q_input q). }
    intros [[c' [err|es]]|]; [done | | done]. intros (g' & Hg' & Hi & Hes).
    eapply (keeps_step _ (inv g' (Some id) none)); [by apply processEffects_ready | done | done | |].
    { intros ?? H. by eapply related_inv. }
    clear c' Hi. intros c' _ Hi. apply process_step. intros p' Hp'. apply node_step. intros n' Hn'.
    eapply keeps_ends; [exact Hg' | exact Hi | apply keeps_syncRoleTimers].
Qed.

(** A change of a process that is no business of its host. *)
Lemma related_update g c id p f :
  reached g → rel g c → c_processes c !! id = Some p → process_rel g id (f p) →
  (∀ x, 0 < x → upholds p (f p) x) →
  related (set_c_processes c (<[id := f p]> (c_processes c))).
Proof. intros Hg Hr Hp Hf Hu. exists g. split; [done |]. apply (rel_put _ _ g c id p); auto. Qed.

Lemma drainLoop_related limit id : keeps related (drainLoop enc fuel limit id).
Proof.
  induction limit as [|limit IH]; intros c Hc; [done |]. cbn [drainLoop].
  apply process_step. intros p Hp. destruct (p_up p) eqn:Hup; simpl; [| done].
  apply node_step. intros n Hn. destruct (Node.AwaitingPersistence n); [done |].
  destruct (p_mailbox p) as [|q mailbox] eqn:Hm; [done |]. destruct Hc as (g & Hg & Hr).
  pose proof (rl_process _ _ _ _ Hr id p Hp) as [H1 H2 H3 H4 H5].
  assert (accepted g q) as Hq by (apply H2; rewrite Hm; left).
  assert (rel g (set_c_processes c (<[id := set_p_mailbox p mailbox]> (c_processes c)))) as Hr'.
  { apply (rel_put _ _ g c id p); [done | done | | intros x _ _; by split].
    split; try done. simpl. intros y Hy. apply H2. rewrite Hm. by right. }
  apply (update_step _ id _ _ c p); [done |]. apply try_step.
  eapply wlp_mono; [by apply (submit_ends g) |]. intros [[c' [err|[]]]|] H; [by apply fail_related | by apply IH | done].
Qed.

Lemma drain_related id : keeps related (drain enc fuel id).
Proof. unfold drain. apply keeps_bind; [apply keeps_the_process |]. intros p. apply drainLoop_related. Qed.

Lemma receive_ends g c id packet :
  reached g → rel g c → EnvMessage (Network.PkMessage packet) ∈ soup g →
  wlp (receive enc fuel id packet c) ends.
Proof.
  intros Hg Hr Hm. assert (related c) as Hend by by exists g. unfold receive. cbv zeta.
  destruct (_ || _); [by apply related_ends; [apply fail_related |] |].
  apply process_step. intros p Hp. destruct (p_up p); simpl; [| done].
  apply orFail_ends, (submit_ends g); [done | done |]. unfold accepted. simpl. by rewrite CloneMessage_id.
Qed.

(** ** Crashes *)

Lemma simCancel_view (c : Cluster) x :
  SimInv.sim_wf (c_sim c) →
  wlp (cancelEvent x c) (λ r, ∃ c', r = Some (c', inr tt) ∧
    (x ≠ 0 → events c' = delete x (events c)) ∧ (x = 0 → events c' = events c) ∧
    SimInv.sim_wf (c_sim c') ∧ c' = set_c_sim c (c_sim c')).
Proof.
  intros Hs. unfold cancelEvent. destruct (Z.eqb_spec x 0) as [->|Hx].
  { exists c. split_and!; try done. by destruct c as [? ? []]. }
  apply bind_step. unfold simCancel, on_sim.
  destruct (wp_inv _ _ (SimInv.Cancel_ok (c_sim c) x Hs)) as ([s r] & -> & Hs' & Hsp & _). simpl.
  exists (set_c_sim c s). split_and!; try done. intros _.
  unfold SimInv.spec_cancel in Hsp. apply (f_equal (λ q, SimInv.sp_events q.1)) in Hsp. simpl in Hsp.
  symmetry. exact Hsp.
Qed.

(** Some events have been cancelled, and nothing else changed. *)
Definition cancelled (c : Cluster) (xs : list Z) (c' : Cluster) : Prop :=
  c' = set_c_sim c (c_sim c') ∧ SimInv.sim_wf (c_sim c') ∧ events c' ⊆ events c ∧
  ∀ x, x ∈ xs → x ≠ 0 → events c' !! x = None.

Lemma cancel_step {B} c xs c' x (k : unit → M D B) (Q : option (Cluster * (ClusterError + B)) → Prop) :
  cancelled c xs c' → (∀ c'', cancelled c (x :: xs) c'' → wlp (k tt c'') Q) →
  wlp ((cancelEvent x ≫= k) c') Q.
Proof.
  intros (He & Hs & Hsub & Hx) Hk. apply bind_step.
  eapply wlp_mono; [by apply simCancel_view |]. intros r (c'' & -> & H1 & H0 & Hs' & He'). apply Hk.
  assert (events c'' ⊆ events c' ∧ (x ≠ 0 → events c'' !! x = None)) as [Hsub' Hxx].
  { destruct (decide (x = 0)) as [->|Hne]; [by rewrite H0 |].
    rewrite H1 by done. split; [apply delete_subseteq |]. intros _. apply lookup_delete_eq. }
  split_and!; [by rewrite He', He | done | by etrans |].
  intros y [-> | Hy]%elem_of_cons Hne; [auto |]. eapply lookup_weaken_None; [by apply Hx | done].
Qed.

Lemma stopped_rel g c ps xs c' id p p' :
  rel g c → c_processes c !! id = Some p → cancelled (set_c_processes c ps) xs c' →
  p_persistEvent p ∈ xs → p_persistAckEvent p ∈ xs → process_rel g id p' →
  rel g (set_c_processes c' (<[id := p']> (c_processes c))).
Proof.
  intros Hr Hp (He & Hs & Hsub & Hx) Hpe Hpa Hp'. pose proof Hr as [H1 H2 H3 H4 H5 H6].
  rewrite He. split; try done; simpl.
  - intros y q Hy. destruct (decide (y = id)) as [->|Hne].
    + rewrite lookup_insert_eq in Hy. by simplify_eq.
    + rewrite lookup_insert_ne in Hy by done. by apply H5.
  - intros x t tg a Hev. change (events c' !! x = Some (t, tg, Some a)) in Hev.
    pose proof (lookup_weaken _ _ _ _ Hev Hsub) as Hc. change (events c !! x = Some (t, tg, Some a)) in Hc.
    pose proof (event_pos _ _ _ _ _ _ Hr Hc) as Hpos.
    apply (event_rel_put g _ id p); [done | | by eapply H6].
    split; [intros ???? [Heq _] | intros ??? [Heq _]]; subst x; rewrite Hx in Hev; try done; lia.
Qed.

Lemma Crash_related id : keeps related (Crash enc id).
Proof.
  intros c Hc. unfold Crash. apply known_step; [done |]. intros p Hp. apply raiseIf_step; [done |]. intros _.
  destruct Hc as (g & Hg & Hr). set (stop := λ p : process, set_p_sendSequence _ _).
  apply (update_step _ id stop _ c p); [done |]. set (c1 := set_c_processes c _).
  assert (c_processes c1 !! id = Some (stop p)) as Hp1 by apply lookup_insert_eq.
  assert (∀ Q, (∀ c', related c' → Q (Some (c', inr tt))) → wlp (cancelProcessEvents id c1) Q) as Hcancel.
  { intros Q HQ. unfold cancelProcessEvents. apply process_step. intros p1 Hp1'. simplify_eq.
    assert (cancelled c1 [] c1) as Hz.
    { split_and!; [by destruct c as [? ? []] | apply Hr | done |]. intros x Hx. by apply elem_of_nil in Hx. }
    do 4 (eapply cancel_step; [exact Hz |]; clear Hz; intros ? Hz).
    match type of Hz with cancelled _ _ ?c' => rename c' into c2 end.
    assert (c_processes c2 = c_processes c1) as Hps by (destruct Hz as [-> _]; done).
    apply (update_last id _ c2 (stop p)); [by rewrite Hps |]. apply HQ. exists g. split; [done |].
    rewrite Hps. unfold c1. simpl. rewrite insert_insert_eq.
    eapply (stopped_rel g c _ _ c2 id p); [done | done | exact Hz | set_solver | set_solver |].
    pose proof (rl_process _ _ _ _ Hr id p Hp) as [H1 H2 H3 H4 H5]. split; simpl; try done;
      [| by intros y Hy%elem_of_nil | by left].
    destruct (hosts g !! id); [| by destruct H1]. destruct H1. by split. }
  apply bind_step, Hcancel. intros c' Hc'. 
  eapply (keeps_step _ related); [apply observe_related | done | done | done |].
  clear c' Hc'. intros c' _ Hc'. eapply wlp_mono; [apply (keeps_failed related c' Hc') |]. done.
Qed.

(** ** Starting *)

Lemma processEffects_quiet g o Q id es n :
  Forall (Campaign.sent_by n) es → Election.sends es = [] → keeps (inv g o Q) (processEffects enc fuel id es).
Proof.
  intros Hby Hs. induction Hby as [|e es He _ IH]; [apply keeps_ret |]. simpl.
  apply keeps_bind; [| intros _; apply IH; by destruct e].
  apply keeps_gentle; [by intros m -> | by intros t st ->].
Qed.

(** A new node of a process: its host has restarted, or starts. *)
Lemma started_host g (c : Cluster) id p app n n' es :
  reached g → rel g c → c_processes c !! id = Some p →
  Node.New (NodeHost.restart_config (config_of id) app) (StState (p_store p)) = Done (inr n) →
  Node.Start n = Done (n', es) →
  ∃ g', reached g' ∧ soup g' = soup g ∧ (∀ y, y ≠ id → hosts g' !! y = hosts g !! y) ∧
    hosts g' !! id = Some (NodeHost.mkHost n' (StState (p_store p))) ∧
    Election.sends es = [] ∧ Forall (Campaign.sent_by n) es.
Proof.
  intros Hg Hr Hp Hnew Hst. pose proof (Election.Start_quiet n) as Hq. rewrite Hst in Hq.
  destruct Hq as ([_ Hby] & _ & Hsent). simpl in *.
  destruct (rl_process _ _ _ _ Hr id p Hp) as [Hh _ _ _ _].
  destruct (hosts g !! id) as [[m d]|] eqn:Hid.
  - exists (Election.mkGroup (<[id := NodeHost.mkHost n' (StState (p_store p))]> (hosts g)) (soup g ++ Election.sends es)).
    simpl. rewrite Hsent, app_nil_r, lookup_insert_eq. split_and!; try done.
    + eapply reached_step; [exact Hg |]. rewrite <- (app_nil_r (soup g)), <- Hsent.
      eapply Election.g_host; [exact Hid |]. eapply (NodeHost.h_crash _ _ m d); [| exact Hnew | exact Hst].
      destruct Hh as [[Hh | [Hh1 Hh2]] _]; [by left | by right].
    + intros y Hy. by rewrite lookup_insert_ne.
  - exists (Election.mkGroup (<[id := NodeHost.mkHost n' (StState (p_store p))]> (hosts g)) (soup g)).
    simpl. rewrite lookup_insert_eq. split_and!; try done.
    + eapply reached_step; [exact Hg |]. apply Election.g_start; [exact Hid |].
      destruct Hh as [_ Hs]. split; [done |]. split; [by rewrite Hs |]. by exists n, app, es.
    + intros y Hy. by rewrite lookup_insert_ne.
Qed.

Lemma start_ends g Q id c :
  reached g → inv g None Q c → Q id →
  wlp (start enc fuel id c) (λ r, match r with None => True | Some (c', _) => ∃ g', reached g' ∧ inv g' None Q c' end).
Proof.
  intros Hg Hi HQ. set (R := λ r : option (Cluster * (ClusterError + unit)), _).
  assert (∀ c' err, inv g None Q c' → R (Some (c', inl err))) as Herr by (intros c' err H; by exists g).
  unfold start. apply process_step. intros p Hp. do 2 apply gets_step.
  assert (∀ c' p', inv g None Q c' → c_processes c' !! id = Some p' → p_store p' = p_store p →
    wlp ((created ← lift (Node.New (mkConfig id ms (CcVoters conf) (CcLearners conf)
                              (StAppliedIndex (p_store p))) (StState (p_store p)));
          n ← check ErrRaft created;
          started ← lift (Node.Start n);
          _ ← update id (λ p, set_p_node p (Some started.1));
          processEffects enc fuel id started.2) c') R) as Hrest.
  { clear Hi Hp c. intros c p' Hi Hp Hstore. apply lift_step. intros created Hnew.
    apply bind_step. destruct created as [err|n]; [exact (Herr _ _ Hi) |]. simpl.
    apply lift_step. intros [n' es] Hst. pose proof Hi as (Hr & _ & Hidle). rewrite <- Hstore in Hnew.
    destruct (started_host g c id p' _ n n' es Hg Hr Hp Hnew Hst) as (g' & Hg' & Hsoup & Hother & Hh & Hsent & Hby).
    destruct (Hidle id p' HQ Hp) as [Hz1 Hz2]. simpl.
    apply (update_step _ id _ _ c p'); [done |]. eapply wlp_mono; [apply (processEffects_quiet g' None Q id es n Hby Hsent) |].
    - split_and!; [| by intros | ].
      + apply (rel_step _ _ g _ _ id p'); try done; [by rewrite Hsoup | | intros; by apply idle_upholds].
        destruct (rl_process _ _ _ _ Hr id p' Hp) as [H1 H2 H3 H4 H5]. split; simpl; try done.
        * rewrite Hh. split; [by left | by intros ? [= <-]].
        * intros q Hq. eapply accepted_mono; [| by apply H2]. by rewrite Hsoup.
      + intros y q Hy Hq. simpl in Hq. destruct (decide (y = id)) as [->|Hne].
        * rewrite lookup_insert_eq in Hq. by simplify_eq.
        * rewrite lookup_insert_ne in Hq by done. by eapply Hidle.
    - intros [[c' r]|]; [| done]. intros H. by exists g'. }
  pose proof Hi as (Hr & _). rewrite (rl_members _ _ _ _ Hr), (rl_config _ _ _ _ Hr).
  destruct (Application conf) as [application|].
  - apply bind_step. apply bind_step. destruct (recoverApplication enc (p_store p)) as [err|a]; [exact (Herr _ _ Hi) |].
    simpl. apply (update_last id _ c p); [done |]. apply (Hrest _ (set_p_application p a)); [| apply lookup_insert_eq | done].
    by apply (inv_harmless conf ms g None Q c id p).
  - apply bind_step. apply (Hrest c p); done.
Qed.

Lemma observe_failed_ends c : related c → wlp ((_ ← observe enc; failed) c) ends.
Proof.
  intros Hc. eapply (keeps_step _ related); [apply observe_related | done | done | done |].
  intros c' _ Hc'. apply related_ends; [apply keeps_failed | done].
Qed.

Lemma Restart_related id : keeps related (Restart enc fuel id).
Proof.
  intros c Hc. change (wlp (Restart enc fuel id c) ends). unfold Restart. apply known_step; [exact Hc |].
  intros p Hp. apply raiseIf_step; [exact Hc |]. intros Hup. destruct Hc as (g & Hg & Hr).
  pose proof (rl_process _ _ _ _ Hr id p Hp) as [H1 _ _ H4 H5]. destruct (H4 Hup) as [Hz1 Hz2].
  apply (update_step _ id _ _ c p); [done |].
  set (p1 := set_p_mailbox (set_p_up p true) []). set (c1 := set_c_processes c _).
  assert (inv g None (eq id) c1) as Hi.
  { split_and!; [| by intros | intros y q <- Hq; simpl in Hq; rewrite lookup_insert_eq in Hq; by simplify_eq].
    apply (rel_put _ _ g c id p); [done | done | | intros; by apply idle_upholds].
    split; simpl; try done; [by intros y Hy%elem_of_nil | by left]. }
  apply try_step. eapply wlp_mono; [by apply (start_ends g (eq id)) |].
  intros [[c2 [err|[]]]|] H; [| | exact I]; destruct H as (g' & Hg' & Hr' & _ & Hi').
  - apply bind_step. unfold update, the_process, mbind, M_bind, gets. simpl.
    destruct (c_processes c2 !! id) as [q|] eqn:Hq; simpl; [| done]. destruct (Hi' id q eq_refl Hq) as [Hq1 Hq2].
    apply (related_update g' c2 id q (λ p, set_p_up p false)); try done; [| intros; by apply idle_upholds].
    pose proof (rl_process _ _ _ _ Hr' id q Hq) as []. by split.
  - apply observe_failed_ends. by exists g'.
Qed.

Lemma startAll_ends g ids c :
  reached g → inv g None every c →
  wlp (startAll enc fuel ids c)
    (λ r, match r with None => True | Some (c', _) => ∃ g', reached g' ∧ inv g' None every c' end).
Proof.
  revert g c. induction ids as [|id ids IH]; intros g c Hg Hc; simpl; [by exists g |].
  apply bind_step. eapply wlp_mono; [by apply (start_ends g every) |].
  intros [[c' [err|[]]]|]; [done | | done]. intros (g' & Hg' & Hc'). by apply (IH g').
Qed.

Lemma Bootstrap_ends g c : reached g → inv g None every c → wlp (Bootstrap enc fuel c) ends.
Proof.
  intros Hg Hc. pose proof (related_inv _ _ _ _ Hg Hc) as Hend. unfold Bootstrap.
  apply gets_step, raiseIf_step; [exact Hend |]. intros _. apply gets_step, bind_step.
  eapply wlp_mono; [by apply (startAll_ends g) |].
  intros [[c' [err|[]]]|]; [| | done]; intros (g' & Hg' & Hc'); [by eapply related_inv |].
  apply bind_step. simpl. apply observe_failed_ends. exists g'. split; [done |].
  by apply (rel_ext _ _ _ c'); [.. | apply Hc'].
Qed.

(** ** Callbacks *)

(** The event [x] has left the queue and its action is about to run. *)
Record fired (g : Group) (x : Z) (a : Network.delivery Envelope + action) (c : Cluster) : Prop := {
  fd_rel : rel g c;
  fd_gone : events c !! x = None;
  fd_pos : 0 < x;
  fd_action : event_rel g (c_processes c) x a }.

Lemma onStorageCompletion_ends g c x id inc gen st tok :
  reached g → fired g x (inr (storageCompleted id inc gen st tok)) c →
  wlp (onStorageCompletion enc id inc gen st tok c) ends.
Proof.
  intros Hg [Hr Hgone Hpos (p & Hp & Hx & Hinc & Hgen & Hup & n & w & Hn & Hw & Htok & Hst)].
  assert (related c) as Hend by by exists g. unfold onStorageCompletion.
  apply process_step. intros q Hq. assert (q = p) as -> by congruence. clear Hq. subst inc gen tok st.
  unfold persistCurrent. rewrite Hup, !Z.eqb_refl. simpl.
  pose proof (rl_process _ _ _ _ Hr id p Hp) as [H1 H2 H3 H4 H5].
  set (p1 := set_store_state (set_p_persistEvent p 0) (cloneState (Node.state n))).
  apply (update_step _ id _ _ c p); [done |]. fold p1. set (c1 := set_c_processes c _).
  assert (p_persistAckEvent p = 0) as Hack by (destruct H3; lia).
  assert (inv g (Some id) (eq id) c1) as Hi.
  { destruct (process_host g c id p n Hr Hp Hn) as (h & Hh & Hhn & Hsto). split_and!.
    - apply (rel_put _ _ g c id p); [done | done | |].
      + split; simpl; try done; [| by left].
        rewrite Hh. rewrite cloneState_id. split; [| naive_solver]. right. rewrite Hhn. split; [by exists w | done].
      + intros y Hy Hev. split; [intros ???? [<- _] | intros ??? [<- _]]; [rewrite Hx, Hgone in Hev; by destruct Hev | lia].
    - intros y [= <-]. exists p1, h. unfold c1. simpl. rewrite lookup_insert_eq. split_and!; try done. by rewrite Hhn.
    - intros y r <- Hy. unfold c1 in Hy. simpl in Hy. rewrite lookup_insert_eq in Hy. by simplify_eq. }
  destruct (p_crashAfterPersist p).
  - eapply (keeps_step _ (inv g (Some id) (eq id))); [by apply keeps_update | done | done | |].
    { intros ?? H. by eapply related_inv. }
    intros c2 _ Hi2. apply orFail_ends, related_ends; [apply Crash_related | by eapply related_inv].
  - apply orFail_ends. apply bind_step. eapply wlp_mono; [apply ScheduleTagged_view, Hi |].
    intros [[c' r]|]; [| done]. intros (s & -> & Hs & Hev).
    destruct r as [err|y]; simpl.
    + exists g. split; [done |]. apply (inv_sim _ _ g (Some id) (eq id) c1 s Hi Hs). intros z t tg e Hz. left. by rewrite <- Hev.
    + destruct Hev as (t & at_ & Hnone & Hev). assert (c_processes c1 !! id = Some p1) as Hp1 by apply lookup_insert_eq.
      apply (update_last id _ (set_c_sim c1 s) p1); [done |]. exists g. split; [done |].
      eapply (rel_schedule conf ms g c1 s id p1); try done; [apply Hi | by left | | ].
      * simpl. intros m Hm. assert (m = n) as -> by congruence. by rewrite Hw.
      * simpl. eexists. rewrite lookup_insert_eq. split; [done |]. split; [done |]. split_and!; try done.
        exists n, w. unfold p1. simpl. by rewrite cloneState_id.
Qed.

Lemma onPersistenceAck_ends g c x id inc gen tok :
  reached g → fired g x (inr (persistAcked id inc gen tok)) c →
  wlp (onPersistenceAck enc fuel id inc gen tok c) ends.
Proof.
  intros Hg [Hr Hgone Hpos (p & Hp & Hx & Hinc & Hgen & Hup & n & w & Hn & Hw & Htok & Hst)].
  assert (related c) as Hend by by exists g. unfold onPersistenceAck.
  apply process_step. intros q Hq. assert (q = p) as -> by congruence. clear Hq. subst inc gen tok.
  unfold persistCurrent. rewrite Hup, !Z.eqb_refl. simpl.
  pose proof (rl_process _ _ _ _ Hr id p Hp) as [H1 H2 H3 H4 H5].
  assert (p_persistEvent p = 0) as Hpe by (destruct H3; lia).
  set (p1 := set_p_persistAckEvent p 0). apply (update_step _ id _ _ c p); [done |]. fold p1.
  set (c1 := set_c_processes c _).
  assert (rel g c1) as Hr1.
  { apply (rel_put _ _ g c id p); [done | done | split; simpl; try done; by right |].
    intros y Hy Hev. split; [intros ???? [<- _]; lia | intros ??? [<- _]].
    rewrite Hx, Hgone in Hev. by destruct Hev. }
  assert (c_processes c1 !! id = Some p1) as Hp1 by apply lookup_insert_eq.
  assert (related c1) as Hend1 by by exists g.
  apply node_step. intros m Hm. assert (m = n) as -> by congruence. clear Hm. apply try_step.
  eapply wlp_mono.
  { apply (stepNode_host g c1 id p1 n); try done. right. split; [by eexists | done]. }
  intros [[c2 [err|es]]|]; [intros H; by apply related_ends; [apply fail_related |] | | done].
  intros (g' & Hg' & Hi & Hes). apply try_step.
  eapply wlp_mono; [apply (processEffects_ready g' id es Hes c2 Hi) |].
  intros [[c3 [err|[]]]|] H; [| | exact I]; apply related_ends; try (by eapply related_inv).
  - apply fail_related.
  - apply drain_related.
Qed.

(** The timer callbacks read the process, then submit its timeout. *)
Lemma timerCurrent_pure (J : Cluster → Prop) id inc gen f wanted : keeps J (timerCurrent id inc gen f wanted).
Proof. unfold timerCurrent. keep. Qed.

Lemma timer_ends id inc gen f wanted (clear : process → process) q c :
  related c → (∀ p, harmless p (clear p)) → (∀ g, accepted g q) →
  wlp ((current ← timerCurrent id inc gen f wanted;
        if negb current then mret tt
        else _ ← update id clear; orFail (submit enc fuel id q)) c) ends.
Proof.
  intros Hc Hclear Hq. eapply (keeps_step _ related); [apply timerCurrent_pure | done | done | done |].
  clear c Hc. intros c [] Hc; simpl; [| done].
  eapply (keeps_step _ related); [| done | done | done |].
  { apply keeps_related. intros g. by apply keeps_update. }
  clear c Hc. intros c _ (g & Hg & Hr). by apply orFail_ends, (submit_ends g).
Qed.

Lemma and_then_ends {A} (m : M D unit) (a : A) c : wlp (m c) ends → wlp ((_ ← m; mret a) c) ends.
Proof. intros H. apply bind_step. eapply wlp_mono; [exact H |]. by intros [[c' [err|[]]]|]. Qed.

Lemma arrive_same (w : Net D) d :
  Network.sim (Network.arrive w d).1 = Network.sim w ∧
  Network.clone (Network.router (Network.arrive w d).1) = Network.clone (Network.router w).
Proof. unfold Network.arrive. destruct (negb _); [done |]. by destruct (_ !! _). Qed.

Lemma runDelivery_ends g c x d :
  reached g → fired g x (inl d) c → wlp (runDelivery enc fuel d c) ends.
Proof.
  intros Hg [Hr _ _ Hd]. unfold runDelivery. apply gets_step.
  destruct (arrive_same (c_net c) d) as [Hs Hcl]. destruct (Network.arrive (c_net c) d) as [net handler].
  apply bind_step. simpl in *.
  assert (rel g (set_c_net c net)) as Hr' by (by apply (rel_ext _ _ g c)).
  destruct handler as [id|]; [by apply (receive_ends g) | by exists g].
Qed.

(** ** Running

    The callbacks of users keep the relation, as their operations on the cluster do. *)

Section running.
Context {X : Type} (callback : nat → X → M D X).
Context (callback_related : ∀ n x, keeps related (callback n x)).

Lemma runAction_ends g c x a v :
  reached g → fired g x (inr a) c → wlp (runAction enc fuel callback a v c) ends.
Proof using All.
  intros Hg Hf. assert (related c) as Hc by (exists g; split; [done | apply Hf]).
  destruct a as [id inc gen|id inc gen|id inc gen st tok|id inc gen tok|id|id|n]; simpl; try apply and_then_ends.
  - apply timer_ends; [done | by split | done].
  - apply timer_ends; [done | by split | done].
  - by eapply onStorageCompletion_ends.
  - by eapply onPersistenceAck_ends.
  - by apply orFail_ends, related_ends; [apply Crash_related |].
  - by apply orFail_ends, related_ends; [apply Restart_related |].
  - by apply related_ends.
Qed.

Lemma simulatorStep_related v : keeps related (simulatorStep enc fuel callback v).
Proof using All.
  intros c Hc. change (wlp (simulatorStep enc fuel callback v c) ends). unfold simulatorStep.
  apply gets_step, lift_step. intros next Hnext. destruct Hc as (g & Hg & Hr).
  destruct (SimInv.takeNext_ok (c_sim c) (rl_sim _ _ _ _ Hr)) as
    [(_ & _ & E) | (x & e & act & s & Hev & Hs & Habs & _ & _ & E)]; rewrite E in Hnext; simplify_eq; [by exists g |].
  destruct Hev as [Hev _].
  assert (events (set_c_sim c s) = delete x (events c)) as Hevs.
  { exact (f_equal SimInv.sp_events Habs). }
  assert (fired g x act.2 (set_c_sim c s)) as Hf.
  { split; [| | by eapply event_pos | ].
    - apply rel_sim; [done | done |]. intros y t tg a Hy. left.
      change (events (set_c_sim c s) !! y = Some (t, tg, Some a)) in Hy. rewrite Hevs in Hy.
      by apply lookup_delete_Some in Hy as [_ Hy].
    - rewrite Hevs. apply lookup_delete_eq.
    - exact (rl_events _ _ _ _ Hr x e act.1 act.2 Hev). }
  apply bind_step. simpl. apply bind_step.
  assert (wlp ((match act.2 with
                inl d => _ ← runDelivery enc fuel d; mret v
              | inr a => runAction enc fuel callback a v end) (set_c_sim c s)) ends) as H.
  { destruct act as [tg [d|a]]; [by eapply and_then_ends, runDelivery_ends | by eapply runAction_ends]. }
  eapply wlp_mono; [exact H |]. by intros [[c' [err|]]|].
Qed.

#[local] Hint Resolve simulatorStep_related observe_related fail_related Crash_related Restart_related : keeps.

Lemma Step_related v : keeps related (Step enc fuel callback v).
Proof using All. unfold Step. keep. Qed.
#[local] Hint Resolve Step_related : keeps.

Lemma runSteps_related limit v count : keeps related (runSteps enc fuel callback limit v count).
Proof using All.
  revert v count. induction limit as [|limit IH]; intros v count; [apply keeps_ret |]. cbn [runSteps].
  apply keeps_bind; [apply Step_related |]. intros [w [ran err]]. apply keeps_if; [apply keeps_ret | apply IH].
Qed.

(** The scheduler's own [RunUntil], when no event is due. *)
Lemma advance_ok {A} (s : Simulator.Simulator A) end_ :
  SimInv.sim_wf s → end_ ≤ max_i64 →
  wlp (Simulator.RunUntil (λ _ _, Panic) 1 end_ s) (λ r, match r with
    | None => True
    | Some (s', _) => SimInv.sim_wf s' ∧ SimInv.sp_events (SimInv.abs s') = SimInv.sp_events (SimInv.abs s)
    end).
Proof.
  intros Hs Hend. unfold Simulator.RunUntil. destruct (Z.ltb_spec end_ 0); [done |].
  destruct (Z.ltb_spec end_ (Simulator.now s)) as [|Hnow]; [done |]. apply wlp_bind.
  assert (wlp (Simulator.runUntil (λ _ _, Panic) 1 end_ s 0) (λ r, match r with
    | None => True
    | Some (s', _) => s' = s ∧ ∀ x e, SimInv.sp_events (SimInv.abs s) !! x = Some e → end_ < e.1.1
    end)) as Hrun.
  { simpl. destruct (SimProps.NextEventTime_ok s Hs) as (t & -> & Hmin & Hsome). simpl.
    destruct (length (Simulator.queue s) =? 0)%nat eqn:Hlen; simpl.
    - split; [done |]. intros x e Hx. exfalso. apply Nat.eqb_eq, nil_length_inv in Hlen.
      destruct (SimInv.takeNext_ok s Hs) as [(_ & He & _) | (? & ? & ? & ? & _ & _ & _ & _ & Hl & _)].
      + pose proof (eq_trans (eq_sym Hx) (f_equal (λ m, m !! x) He)) as E. by apply (lookup_empty_Some x e).
      + rewrite Hlen in Hl. done.
    - destruct (Z.leb_spec t end_).
      + apply wlp_bind. unfold Simulator.Step. apply wlp_bind.
        destruct (SimInv.takeNext_ok s Hs) as [(Hq & _) | (? & ? & [] & ? & _ & _ & _ & _ & _ & ->)]; [| done].
        by rewrite Hq in Hlen.
      + simpl. split; [done |]. intros x e Hx. apply Hmin in Hx. lia. }
  eapply wlp_mono; [exact Hrun |]. intros [[s' count]|]; [| done]. simpl. intros [-> Hlater].
  destruct (negb _); [| done].
  by destruct (SimProps.clock_advanced s end_ Hs ltac:(lia) Hlater) as (? & _ & ?).
Qed.

Lemma advanceClock_related end_ : end_ ≤ max_i64 → keeps related (advanceClock end_).
Proof.
  intros Hend c (g & Hg & Hr). unfold advanceClock. apply wlp_bind.
  eapply wlp_mono; [apply advance_ok; [apply Hr | done] |]. intros [[s r]|]; [| done]. intros [Hs Hev].
  assert (related (set_c_sim c s)) as H.
  { exists g. split; [done |]. apply rel_sim; [done | done |]. intros x t tg a Hx. left. by rewrite Hev in Hx. }
  by destruct r.
Qed.

Lemma runUntilLoop_related events end_ v count :
  end_ ≤ max_i64 → keeps related (runUntilLoop enc fuel callback events end_ v count).
Proof using All.
  intros Hend. revert v count. induction events as [|events IH]; intros v count; [apply keeps_ret |].
  cbn [runUntilLoop]. apply keeps_bind; [apply keeps_gets |]. intros s.
  apply keeps_bind; [apply keeps_lift |]. intros [next more]. apply keeps_if.
  - apply keeps_bind; [by apply advanceClock_related |]. intros err. apply keeps_ret.
  - apply keeps_bind; [apply Step_related |]. intros [w [ran err]]. apply keeps_if; [apply keeps_ret | apply IH].
Qed.

Lemma RunUntil_related events end_ v :
  end_ ≤ max_i64 → keeps related (RunUntil enc fuel callback events end_ v).
Proof using All.
  intros Hend. unfold RunUntil. do 2 (apply keeps_bind; [apply keeps_gets |]; intros ?).
  apply keeps_option; [intros; apply keeps_ret |]. apply keeps_if; [| by apply runUntilLoop_related].
  apply keeps_bind; [by apply advanceClock_related | intros; apply keeps_ret].
Qed.
End running.

#[local] Hint Resolve observe_related : keeps.

(** ** Clients and faults *)

Lemma submit_related id q : (∀ g, accepted g q) → keeps related (submit enc fuel id q).
Proof. intros Hq c (g & Hg & Hr). by apply (submit_ends g). Qed.

Lemma clientInput_related id p input :
  (∀ g, accepted g (mkQueued input (p_incarnation p) noTimer 0)) → keeps related (clientInput enc fuel id p input).
Proof. intros Hq. unfold clientInput. apply keeps_bind; [by apply submit_related |]. intros _. keep. Qed.

Lemma leaderLoop_pure (J : Cluster → Prop) found ids : keeps J (leaderLoop found ids).
Proof. revert found. induction ids as [|id ids IH]; intros found; simpl; keep; apply IH. Qed.

Lemma liveLeader_pure (J : Cluster → Prop) id : keeps J (liveLeader id).
Proof. unfold liveLeader. keep. Qed.

Lemma toLeader_related call : (∀ id, keeps related (call id)) → keeps related (toLeader call).
Proof.
  intros Hc. unfold toLeader, Leader_. apply keeps_bind; [| intros []; [apply Hc | apply keeps_raise]].
  apply keeps_bind; [apply keeps_gets | intros; apply leaderLoop_pure].
Qed.
End run.
