(* ===== verification/ClusterProps.v ===== *)
(** * What holds of every cluster (raftsim/cluster.go)

    A cluster is built, bootstrapped and driven by any sequence of the exported operations;
    an operation that returns an error may have changed the cluster, and the sequence goes
    on.  The theorems hold of every cluster that is so reached. *)

From S2P Require Export ClusterRun.
From S2P Require Import Prelude RaftTypes Membership Outcome.
From S2P Require Node NodeHost Election Simulator SimInv SimProps Network NetProps Decision Check AppOracle Rand.
From S2P Require Node Simulator Network Decision Check AppOracle Rand.
From stdpp Require Import options.

#[global] Open Scope Z_scope.

(** ** Operations *)

Inductive command :=
| CmdStep
| CmdRunSteps (limit : Z)
| CmdRunUntil (events : nat) (end_ : Z)
| CmdCrash (id : NodeID)
| CmdRestart (id : NodeID)
| CmdCrashAfterNextPersist (id : NodeID)
| CmdPropose (data : bytes)
| CmdProposeTo (id : NodeID) (data : bytes)
| CmdSnapshot (id : NodeID) (data : bytes)
| CmdSnapshotApplication (id : NodeID)
| CmdBeginMembershipChange (voters learners : list NodeID)
| CmdBeginMembershipChangeTo (id : NodeID) (voters learners : list NodeID)
| CmdFinalizeMembershipChange
| CmdFinalizeMembershipChangeTo (id : NodeID)
| CmdPartition (groups : list (list NodeID))
| CmdHeal
| CmdScheduleCrash (delay : Z) (id : NodeID)
| CmdScheduleRestart (delay : Z) (id : NodeID).

(** A [time.Time] of the simulator has 64 bits. *)
Definition command_ok (x : command) : Prop :=
  match x with CmdRunUntil _ end_ => end_ ≤ max_i64 | _ => True end.

Section cluster.
Context {D : Type} `{HD : !Decision.Decider D} (enc : Encoders) (fuel : nat).
Abbreviation Cluster := (Cluster D).

Definition perform (x : command) : M D unit :=
  let done {A} (m : M D A) : M D unit := _ ← m; mret tt in
  match x with
  | CmdStep => done (Step enc fuel noCallback tt)
  | CmdRunSteps limit => done (RunSteps enc fuel noCallback limit tt)
  | CmdRunUntil events end_ => done (RunUntil enc fuel noCallback events end_ tt)
  | CmdCrash id => Crash enc id
  | CmdRestart id => Restart enc fuel id
  | CmdCrashAfterNextPersist id => CrashAfterNextPersist id
  | CmdPropose data => Propose enc fuel data
  | CmdProposeTo id data => ProposeTo enc fuel id data
  | CmdSnapshot id data => Cluster.Snapshot enc fuel id data
  | CmdSnapshotApplication id => SnapshotApplication enc fuel id
  | CmdBeginMembershipChange voters learners => BeginMembershipChange enc fuel voters learners
  | CmdBeginMembershipChangeTo id voters learners => BeginMembershipChangeTo enc fuel id voters learners
  | CmdFinalizeMembershipChange => FinalizeMembershipChange enc fuel
  | CmdFinalizeMembershipChangeTo id => FinalizeMembershipChangeTo enc fuel id
  | CmdPartition groups => Partition groups
  | CmdHeal => Heal
  | CmdScheduleCrash delay id => done (ScheduleCrash delay id)
  | CmdScheduleRestart delay id => done (ScheduleRestart delay id)
  end.

Fixpoint performAll (cs : list command) (c : Cluster) : go (option Cluster) :=
  match cs with
  | [] => Done (Some c)
  | x :: cs =>
    r ← perform x c;
    match r with
    | None => Done None
    | Some (c, _) => performAll cs c
    end
  end.

(** Built and bootstrapped, whether or not the bootstrap succeeded. *)
Definition launched (config : ClusterConfig) (decider : option D) (c : Cluster) : Prop :=
  ∃ c0 r, NewPaused enc fuel config decider = inr c0 ∧ Bootstrap enc fuel c0 = Done (Some (c, r)).

Definition runs (config : ClusterConfig) (decider : option D) (cs : list command) (c : Cluster) : Prop :=
  ∃ c1, launched config decider c1 ∧ performAll cs c1 = Done (Some c).

(** ** Construction *)

Definition fresh (p : process) : Prop :=
  p_node p = None ∧ p_up p = true ∧ p_store p = emptyStore ∧ p_mailbox p = [] ∧
  p_persistEvent p = 0 ∧ p_persistAckEvent p = 0.

Lemma newProcesses_fresh application root ids ps :
  map_Forall (λ _, fresh) ps → map_Forall (λ _, fresh) (newProcesses application root ids ps).
Proof.
  revert root ps. induction ids as [|id ids IH]; intros root ps Hps; simpl; [done |].
  destruct (Rand.Split root) as [root' random]. apply IH. by apply map_Forall_insert_2.
Qed.

Lemma registerAll_same (net net' : Net D) ids :
  registerAll net ids = inr net' →
  Network.sim net' = Network.sim net ∧
  Network.clone (Network.router net') = Network.clone (Network.router net).
Proof.
  revert net. induction ids as [|id ids IH]; intros net H; simpl in H; [by simplify_eq |].
  unfold Network.Register in H. destruct (String.eqb id ""); [done |]. destruct (_ !! id); [done |].
  by apply IH in H as [-> ->].
Qed.

Lemma NewPaused_inv config decider c :
  NewPaused enc fuel config decider = inr c →
  inv (c_config c) (c_members c) empty_group None every c ∧ c_err c = None ∧ c_bootstrapped c = false.
Proof.
  unfold NewPaused. destruct (validateConfig config); [done |]. cbv zeta.
  destruct (Rand.Split _) as [root random]. unfold Network.NewRouter.
  destruct (Network.Validate _); [done |].
  match goal with |- context [registerAll ?n ?l] => set (net := n); set (ids := l) end.
  assert (Network.sim net = Simulator.New ∧ Network.clone (Network.router net) = Some cloneEnvelope) as [Hsim Hcl].
  { unfold net. by destruct decider. }
  destruct (registerAll net ids) as [|net'] eqn:Hreg; [done |]. apply registerAll_same in Hreg as [Hs' Hcl'].
  intros [= <-]. simpl. split; [| done].
  match goal with |- context [newProcesses ?a ?r ?l ∅] => pose proof (newProcesses_fresh a r l ∅) as Hps end.
  specialize (Hps (map_Forall_empty _)). split_and!; [| done | ].
  - split; try done; simpl.
    + by rewrite Hcl', Hcl.
    + unfold c_sim. simpl. rewrite Hs', Hsim. apply SimInv.New_wf.
    + intros id p Hp. destruct (Hps id p Hp) as (H1 & H2 & H3 & H4 & H5 & H6).
      split; rewrite ?H1, ?H2, ?H3, ?H4, ?H5, ?H6; try done; [by intros y Hy%elem_of_nil | by left].
    + intros x t tg a Hx. unfold events in Hx. unfold c_sim in Hx at 1. cbn [c_net] in Hx.
      by rewrite Hs', Hsim, SimInv.abs_lookup in Hx.
  - intros id p _ Hp. by destruct (Hps id p Hp) as (_ & _ & _ & _ & ? & ?).
Qed.

(** ** Runs *)

Lemma launched_related config decider c :
  launched config decider c → ∃ conf ms, related conf ms c.
Proof.
  intros (c0 & r & Hnew & Hb). destruct (NewPaused_inv config decider c0 Hnew) as (Hi & _).
  exists (c_config c0), (c_members c0).
  pose proof (Bootstrap_ends enc fuel (c_config c0) (c_members c0) empty_group c0 (rtc_refl _ _) Hi) as H.
  by rewrite Hb in H.
Qed.

Section related.
Context (conf : ClusterConfig) (ms : list NodeID).
Abbreviation related := (related conf ms).

#[local] Hint Resolve Step_related Crash_related Restart_related : keeps.

Lemma rest_related {A} (m : M D A) : keeps related m → keeps related (_ ← m; mret tt).
Proof. intros Hm. apply keeps_bind; [done | intros; apply keeps_ret]. Qed.

Lemma toLive_related id (input : process → Input) :
  (∀ p g, accepted g (mkQueued (input p) (p_incarnation p) noTimer 0)) →
  keeps related (p ← liveLeader id; clientInput enc fuel id p (input p)).
Proof.
  intros Hi. apply keeps_bind; [apply liveLeader_pure |]. intros p. apply clientInput_related. auto.
Qed.

Lemma ProposeTo_related id data : keeps related (ProposeTo enc fuel id data).
Proof.
  unfold ProposeTo. apply keeps_bind; [apply liveLeader_pure |]. intros p.
  apply keeps_bind; [apply keeps_gets |]. intros config.
  apply keeps_bind; [| intros _; by apply clientInput_related].
  apply keeps_option; [intros; keep | keep].
Qed.

Lemma snapshot_related id data : keeps related (snapshot enc fuel id data).
Proof.
  unfold snapshot. apply keeps_bind; [apply keeps_known |]. intros p.
  apply keeps_bind; [apply keeps_raiseIf |]. intros _. by apply clientInput_related.
Qed.

Lemma SnapshotApplication_related id : keeps related (SnapshotApplication enc fuel id).
Proof.
  unfold SnapshotApplication. apply keeps_bind; [apply keeps_known |]. intros p.
  apply keeps_bind; [apply keeps_gets |]. intros config.
  do 2 (apply keeps_bind; [apply keeps_raiseIf |]; intros _).
  apply keeps_option; [intros application | apply keeps_raise].
  apply keeps_bind; [apply keeps_check |]. intros data. apply snapshot_related.
Qed.

Lemma set_partition_related m :
  keeps related (modify (λ c : Cluster, set_c_net c (Network.SetPartition (c_net c) m))).
Proof. apply keeps_related. intros g. by apply keeps_modify_ext. Qed.

Lemma perform_related x : command_ok x → keeps related (perform x).
Proof.
  intros Hx. destruct x; cbn [perform].
  - apply rest_related, Step_related. intros. apply keeps_ret.
  - apply rest_related, runSteps_related. intros. apply keeps_ret.
  - apply rest_related, RunUntil_related; [intros; apply keeps_ret | done].
  - apply Crash_related.
  - apply Restart_related.
  - unfold CrashAfterNextPersist. apply keeps_bind; [apply keeps_known |]. intros p.
    apply keeps_bind; [apply keeps_raiseIf |]. intros _. apply keeps_related. intros g. by apply keeps_update.
  - apply toLeader_related. intros id. apply ProposeTo_related.
  - apply ProposeTo_related.
  - unfold Cluster.Snapshot. apply keeps_bind; [apply keeps_gets |]. intros config.
    apply keeps_bind; [apply keeps_raiseIf |]. intros _. apply snapshot_related.
  - apply SnapshotApplication_related.
  - apply toLeader_related. intros id. by apply toLive_related.
  - by apply toLive_related.
  - apply toLeader_related. intros id. by apply toLive_related.
  - by apply toLive_related.
  - unfold Partition. apply keeps_bind; [apply keeps_check |]. intros m. apply set_partition_related.
  - apply set_partition_related.
  - apply rest_related, keeps_related. intros g. by apply keeps_ScheduleTagged.
  - apply rest_related, keeps_related. intros g. by apply keeps_ScheduleTagged.
Qed.

Lemma performAll_related cs c :
  Forall command_ok cs → related c → wlp (performAll cs c) (λ r, match r with None => True | Some c' => related c' end).
Proof.
  intros Hcs. revert c. induction Hcs as [|x cs Hx _ IH]; intros c Hc; [done |]. cbn [performAll].
  apply wlp_bind. eapply wlp_mono; [by apply perform_related |]. intros [[c' r]|]; [apply IH | done].
Qed.
End related.

Lemma runs_related config decider cs c :
  runs config decider cs c → Forall command_ok cs → ∃ conf ms, related conf ms c.
Proof.
  intros (c1 & Hl & Hrun) Hcs. destruct (launched_related _ _ _ Hl) as (conf & ms & Hc1). exists conf, ms.
  pose proof (performAll_related conf ms cs c1 Hcs Hc1) as H. by rewrite Hrun in H.
Qed.

(** ** Theorems *)

Lemma leader_host conf ms g (c : Cluster) x p n :
  rel conf ms g c → c_processes c !! x = Some p → p_node p = Some n → ∃ h, hosts g !! x = Some h ∧ hnode h = n.
Proof. intros Hr Hp Hn. destruct (process_host conf ms g c x p n Hr Hp Hn) as (h & ? & ? & _). by exists h. Qed.

(** C19.  The cluster implements a group of hosts: whatever sequence of operations drives it - steps,
    crashes between a write and its acknowledgement, restarts that fail, partitions, client
    requests, errors - its processes run the nodes of a group reached by group steps, each
    store is its host's disk or already holds the write in progress, and every message in a
    mailbox or on the network was sent. *)
Theorem cluster_refines_group config decider cs c :
  runs config decider cs c → Forall command_ok cs →
  ∃ g, rtc (Election.gstep (node_config (c_config c) (c_members c))) empty_group g ∧
       rel (c_config c) (c_members c) g c.
Proof.
  intros Hrun Hcs. destruct (runs_related _ _ _ _ Hrun Hcs) as (conf & ms & g & Hg & Hr).
  exists g. rewrite (rl_config _ _ _ _ Hr), (rl_members _ _ _ _ Hr). done.
Qed.

(** C20.  Election safety of the cluster: at any time, two processes whose nodes lead the same term,
    elected in one configuration or in two configurations one accepted change apart, are one
    process. *)
Theorem cluster_election_safety config decider cs c x y p q n m :
  runs config decider cs c → Forall command_ok cs →
  c_processes c !! x = Some p → p_node p = Some n → Node.role n = Leader →
  c_processes c !! y = Some q → p_node q = Some m → Node.role m = Leader →
  currentTerm (Node.state n) = currentTerm (Node.state m) →
  (Node.electionMembership n = Node.electionMembership m ∨
   ∃ e universe, transitionMembership (Node.electionMembership n) e universe = (Node.electionMembership m, true)) →
  x = y.
Proof.
  intros Hrun Hcs Hp Hn Hln Hq Hm Hlm Ht Hcfg.
  destruct (runs_related _ _ _ _ Hrun Hcs) as (conf & ms & g & Hg & Hr).
  destruct (leader_host _ _ _ _ _ _ _ Hr Hp Hn) as (hx & Hx & <-).
  destruct (leader_host _ _ _ _ _ _ _ Hr Hq Hm) as (hy & Hy & <-).
  by apply (Election.election_safety_of _ empty_group g x y hx hy (empty_started conf ms) Hg).
Qed.

(** C21.  The persistence boundary: the storage events in the queue are current.  A completion in
    the queue is the only storage event of its process, which is up, and carries the state
    and the token of the write its node waits for; an acknowledgement in the queue finds the
    node's state in the store; and a node that waits for no write has no storage event. *)
Theorem storage_events_are_current config decider cs c id p :
  runs config decider cs c → Forall command_ok cs → c_processes c !! id = Some p →
  (∀ x t tag inc gen st tok,
     events c !! x = Some (t, tag, Some (inr (storageCompleted id inc gen st tok))) →
     persistCurrent p inc gen = true ∧ p_persistEvent p = x ∧ p_persistAckEvent p = 0 ∧
     ∃ n w, p_node p = Some n ∧ Node.pending n = Some w ∧ Node.token w = tok ∧ Node.state n = st) ∧
  (∀ x t tag inc gen tok,
     events c !! x = Some (t, tag, Some (inr (persistAcked id inc gen tok))) →
     persistCurrent p inc gen = true ∧ p_persistAckEvent p = x ∧ p_persistEvent p = 0 ∧
     ∃ n w, p_node p = Some n ∧ Node.pending n = Some w ∧ Node.token w = tok ∧
            Node.state n = StState (p_store p)) ∧
  (∀ n, p_node p = Some n → Node.AwaitingPersistence n = false → p_persistEvent p = 0 ∧ p_persistAckEvent p = 0).
Proof.
  intros Hrun Hcs Hp. destruct (runs_related _ _ _ _ Hrun Hcs) as (conf & ms & g & Hg & Hr).
  pose proof (rl_process _ _ _ _ Hr id p Hp) as [_ _ Hone _ Hclean].
  assert (∀ inc gen tok st, awaits p inc gen tok st → persistCurrent p inc gen = true) as Hcur.
  { intros inc gen tok st (<- & <- & Hup & _). unfold persistCurrent. by rewrite Hup, !Z.eqb_refl. }
  split_and!.
  - intros x t tg inc gen st tok Hx. pose proof (event_pos _ _ _ _ _ _ Hr Hx).
    destruct (rl_events _ _ _ _ Hr _ _ _ _ Hx) as (q & Hq & Hpe & Hw). simplify_eq.
    split_and!; [by eapply Hcur | done | destruct Hone; lia |]. apply Hw.
  - intros x t tg inc gen tok Hx. pose proof (event_pos _ _ _ _ _ _ Hr Hx).
    destruct (rl_events _ _ _ _ Hr _ _ _ _ Hx) as (q & Hq & Hpa & Hw). simplify_eq.
    split_and!; [by eapply Hcur | done | destruct Hone; lia |]. apply Hw.
  - intros n Hn Ha. by apply (Hclean n Hn), awaiting.
Qed.
End cluster.

(** ** A cluster of three members *)

Definition demo_encoders : Encoders :=
  let empty {A} (_ : A) := JsonEnc.encode_object [] in
  mkEncoders empty empty empty empty (λ _, inl AppOracle.ErrInvalidCheckpoint).
Definition demo_config : ClusterConfig := DefaultConfig ["a"; "b"; "c"].
Definition no_decider : option Decision.SeedDecider := None.
#[local] Existing Instance Decision.seed_decider.

Definition demo_run (cs : list command) : option (Cluster Decision.SeedDecider) :=
  match NewPaused demo_encoders 10 demo_config no_decider with
  | inl _ => None
  | inr c =>
    match Bootstrap demo_encoders 10 c with
    | Done (Some (c, _)) =>
      match performAll demo_encoders 10 cs c with Done (Some c) => Some c | _ => None end
    | _ => None
    end
  end.

Lemma demo_runs cs c : demo_run cs = Some c → runs demo_encoders 10 demo_config no_decider cs c.
Proof.
  unfold demo_run, runs, launched. destruct (NewPaused _ _ _ _) as [|c0] eqn:H0; [done |].
  destruct (Bootstrap _ _ _) as [[[c1 r]|]|] eqn:H1; try done.
  destruct (performAll _ _ _ _) as [[c2|]|] eqn:H2; try done. intros [= <-].
  exists c1. split; [| done]. by exists c0, r.
Qed.

(** A run exists and passes a test. *)
Ltac demo cs c E :=
  destruct (demo_run cs) as [c|] eqn:E;
    [| exfalso; assert (bool_decide (is_Some (demo_run cs)) = true) as H by (vm_compute; reflexivity);
       rewrite E in H; discriminate H].

Definition leads (id : NodeID) (c : Cluster Decision.SeedDecider) : option (process * Node.Node) :=
  p ← c_processes c !! id;
  n ← p_node p;
  if decide (Node.role n = Leader) then Some (p, n) else None.

Lemma leads_inv id c p n :
  leads id c = Some (p, n) → c_processes c !! id = Some p ∧ p_node p = Some n ∧ Node.role n = Leader.
Proof.
  unfold leads. destruct (c_processes c !! id) as [q|] eqn:Hq; simpl; [| done].
  destruct (p_node q) as [m|] eqn:Hm; simpl; [| done]. case_decide; [| done]. by intros [= <- <-].
Qed.

Definition elected : list command := [CmdRunUntil 200 (400 * millisecond); CmdCrash "b"; CmdHeal].

Lemma elected_leads : is_Some (demo_run elected ≫= leads "a").
Proof. refine (bool_decide_eq_true_1 _ _). vm_compute. reflexivity. Qed.

Lemma cluster_refines_group_witness :
  ∃ c g, demo_run elected = Some c ∧
    rtc (Election.gstep (node_config (c_config c) (c_members c))) empty_group g ∧ rel (c_config c) (c_members c) g c.
Proof.
  demo elected c E.
  destruct (cluster_refines_group demo_encoders 10 demo_config no_decider elected c (demo_runs _ _ E)) as (g & H1 & H2).
  - repeat constructor. vm_compute. discriminate.
  - exists c, g. split; [reflexivity | by split].
Defined.

Lemma cluster_election_safety_witness :
  ∃ c p n, demo_run elected = Some c ∧ leads "a" c = Some (p, n) ∧ "a" = "a".
Proof.
  demo elected c E. pose proof elected_leads as H. rewrite E in H. simpl in H. destruct H as [[p n] H].
  exists c, p, n. split; [reflexivity |]. split; [exact H |].
  destruct (leads_inv _ _ _ _ H) as (H1 & H2 & H3).
  apply (cluster_election_safety demo_encoders 10 demo_config no_decider elected c "a" "a" p p n n (demo_runs _ _ E));
    [repeat constructor; vm_compute; discriminate | exact H1 | exact H2 | exact H3 | exact H1 | exact H2 | exact H3 | |].
  - reflexivity.
  - left. reflexivity.
Defined.

(** After one step the election timeout of [a] waits for its write. *)
Definition waits (x : Z) (id : NodeID) (c : Cluster Decision.SeedDecider)
    : option (process * (Z * Heap.EventTag) * (Z * Z * PersistentState * Z)) :=
  p ← c_processes c !! id;
  match events c !! x with
  | Some (t, tag, Some (inr (storageCompleted id' inc gen st tok))) =>
    if String.eqb id' id then Some (p, (t, tag), (inc, gen, st, tok)) else None
  | _ => None
  end.

Lemma waits_inv x id c p t tag inc gen st tok :
  waits x id c = Some (p, (t, tag), (inc, gen, st, tok)) →
  c_processes c !! id = Some p ∧ events c !! x = Some (t, tag, Some (inr (storageCompleted id inc gen st tok))).
Proof.
  unfold waits. destruct (c_processes c !! id) as [q|]; simpl; [| done].
  destruct (events c !! x) as [[[t' tag'] [[d|[]]|]]|]; try done.
  destruct (String.eqb_spec id0 id) as [->|]; [| done]. by intros [= <- <- <- <- <- <- <-].
Qed.

Lemma first_step_waits : is_Some (demo_run [CmdRunSteps 1] ≫= waits 4 "a").
Proof. refine (bool_decide_eq_true_1 _ _). vm_compute. reflexivity. Qed.

Lemma storage_events_are_current_witness :
  ∃ c p inc gen, demo_run [CmdRunSteps 1] = Some c ∧ c_processes c !! "a" = Some p ∧
    persistCurrent p inc gen = true ∧ p_persistEvent p = 4.
Proof.
  demo [CmdRunSteps 1] c E. pose proof first_step_waits as H. rewrite E in H. simpl in H.
  destruct H as [[[p [t tag]] [[[inc gen] st] tok]] H]. apply waits_inv in H as [Hp Hx].
  exists c, p, inc, gen. split; [reflexivity |]. split; [exact Hp |].
  destruct (storage_events_are_current demo_encoders 10 demo_config no_decider [CmdRunSteps 1] c "a" p (demo_runs _ _ E)
    ltac:(repeat constructor) Hp) as (Hw & _).
  destruct (Hw 4 t tag inc gen st tok Hx) as (H1 & H2 & _). split; [exact H1 | exact H2].
Defined.

(** * The mailbox of a process

    While a node waits for a write its inputs queue up in the mailbox of its process; the
    acknowledgement drains it.  Nothing that a process does with an input grows its own
    mailbox, so the loop of [drain] ends: it stops at an empty mailbox, a process that is
    down, a node that waits for a write again, or the first error. *)

Section mailbox.
Context {D : Type} `{HD : !Decision.Decider D} (enc : Encoders) (fuel : nat).
Abbreviation Cluster := (Cluster D).

Definition mailbox_of (c : Cluster) (id : NodeID) : option (list queuedInput) :=
  p_mailbox <$> c_processes c !! id.

(** ** What leaves the mailboxes alone *)

Section quiet.
Context (box : NodeID → option (list queuedInput)).

Definition boxes (c : Cluster) : Prop := ∀ id, mailbox_of c id = box id.

Lemma boxes_put c id p p' :
  boxes c → c_processes c !! id = Some p → p_mailbox p' = p_mailbox p →
  boxes (set_c_processes c (<[id := p']> (c_processes c))).
Proof.
  intros Hc Hp Hm y. rewrite <- Hc. unfold mailbox_of. simpl. destruct (decide (y = id)) as [->|Hne].
  - by rewrite lookup_insert_eq, Hp; simpl; rewrite Hm.
  - by rewrite lookup_insert_ne.
Qed.

Lemma boxes_update id f : (∀ p, p_mailbox (f p) = p_mailbox p) → keeps boxes (update id f).
Proof.
  intros Hf c Hc. unfold update, the_process, put_process, modify, mbind, M_bind, gets. simpl.
  destruct (c_processes c !! id) as [p|] eqn:Hp; simpl; [| done]. by apply (boxes_put c id p).
Qed.

Lemma boxes_sim {A} (f : _ → go (_ * A)) : keeps boxes (on_sim f).
Proof. intros c Hc. unfold on_sim. apply wlp_bind. by destruct (f (c_sim c)) as [[s a]|]. Qed.

Lemma boxes_modify f : (∀ c, c_processes (f c) = c_processes c) → keeps boxes (modify f).
Proof. intros Hf. apply keeps_modify. intros c Hc id. unfold mailbox_of. rewrite Hf. apply Hc. Qed.

Lemma boxes_fail err : keeps boxes (fail err).
Proof. apply boxes_modify. intros c. by destruct (c_err c). Qed.

#[local] Hint Resolve boxes_update boxes_sim boxes_modify boxes_fail : keeps.
#[local] Hint Extern 1 (∀ _, p_mailbox _ = p_mailbox _) => by intros [] : keeps.
#[local] Hint Extern 1 (∀ _, c_processes _ = c_processes _) => by intros [] : keeps.

Lemma boxes_cancel x : keeps boxes (cancelEvent x).
Proof. unfold cancelEvent, simCancel. keep. Qed.
Lemma boxes_schedule delay tag a : keeps boxes (ScheduleTagged delay tag a).
Proof. unfold ScheduleTagged. keep. Qed.
Lemma boxes_simCancel x : keeps boxes (simCancel x).
Proof. unfold simCancel. keep. Qed.
#[local] Hint Resolve boxes_cancel boxes_schedule boxes_simCancel : keeps.

Lemma boxes_chooseDuration id kind minimum maximum context :
  keeps boxes (chooseDuration fuel id kind minimum maximum context).
Proof. apply chooseDuration_only. intros c d Hc id'. apply Hc. Qed.

Lemma boxes_randomDuration id minimum maximum : keeps boxes (randomDuration fuel id minimum maximum).
Proof.
  intros c Hc. unfold randomDuration, the_process, sample, put_process, modify, mbind, M_bind, gets. simpl.
  destruct (c_processes c !! id) as [p|] eqn:Hp; simpl; [| done].
  destruct (Rand.Duration _ _ _ _) as [[[r v]|]|]; simpl; try done. by apply (boxes_put c id p).
Qed.
#[local] Hint Resolve boxes_chooseDuration boxes_randomDuration : keeps.

Lemma boxes_processEffect id e : keeps boxes (processEffect enc fuel id e).
Proof.
  destruct e as [t st|m| | |entry|s]; simpl.
  - unfold persistEffect. keep.
  - unfold sendEffect. keep.
  - unfold resetElectionTimer. keep.
  - unfold resetHeartbeatTimer. keep.
  - unfold applyEffect. keep.
  - unfold installEffect. keep.
Qed.

Lemma boxes_processEffects id es : keeps boxes (processEffects enc fuel id es).
Proof. induction es as [|e es IH]; simpl; keep. apply boxes_processEffect. Qed.

Lemma boxes_stepNode id n i : keeps boxes (stepNode id n i).
Proof. unfold stepNode. keep. Qed.

Lemma boxes_syncRoleTimers id before after : keeps boxes (syncRoleTimers id before after).
Proof. unfold syncRoleTimers. keep. Qed.
End quiet.

(** ** Draining *)

(** A live node that waits for no write handles the input at once. *)
Lemma submit_boxes box id q c p n :
  boxes box c → c_processes c !! id = Some p → p_node p = Some n → Node.AwaitingPersistence n = false →
  wlp (submit enc fuel id q c) (λ r, match r with None => True | Some (c', _) => boxes box c' end).
Proof.
  intros Hc Hp Hn Ha. unfold submit. apply process_step. intros p' Hp'.
  assert (p' = p) as -> by congruence. destruct (_ || _); [exact Hc |].
  apply node_step. intros n' Hn'. assert (n' = n) as -> by congruence. rewrite Ha.
  eapply (keeps_step _ (boxes box)); [apply queuedInputIsCurrent_pure | done | done | done |].
  clear c Hc Hp Hp'. intros c [] Hc; simpl; [| exact Hc].
  assert (keeps (boxes box) (effects ← stepNode id n (q_input q);
            _ ← processEffects enc fuel id effects;
            p ← the_process id; n' ← the_node p; syncRoleTimers id (Node.role n) (Node.role n'))) as H; [| by apply H].
  apply keeps_bind; [apply boxes_stepNode |]. intros es.
  apply keeps_bind; [apply boxes_processEffects |]. intros _.
  apply keeps_bind; [apply keeps_the_process |]. intros q'.
  apply keeps_bind; [apply keeps_the_node |]. intros m. apply boxes_syncRoleTimers.
Qed.

(** The loop of [drain] has ended. *)
Definition drained (id : NodeID) (c : Cluster) : Prop :=
  c_err c ≠ None ∨
  ∃ p, c_processes c !! id = Some p ∧
    (p_up p = false ∨ p_mailbox p = [] ∨ ∃ n, p_node p = Some n ∧ Node.AwaitingPersistence n = true).

Lemma fail_sets err (c : Cluster) : ∃ c', fail err c = Done (Some (c', inr tt)) ∧ c_err c' ≠ None.
Proof.
  unfold fail, modify. eexists. split; [done |]. destruct (c_err c) eqn:E; simpl; congruence.
Qed.

Lemma drainLoop_drains limit id c :
  (∀ p, c_processes c !! id = Some p → (length (p_mailbox p) ≤ limit)%nat) →
  wlp (drainLoop enc fuel limit id c) (λ r, match r with
    | None => True
    | Some (c', r) => r = inr tt ∧ (is_Some (c_processes c !! id) → drained id c')
    end).
Proof.
  revert c. induction limit as [|limit IH]; intros c Hlen; cbn [drainLoop].
  { split; [done |]. intros [p Hp]. right. exists p. split; [done |]. right. left.
    apply nil_length_inv. specialize (Hlen p Hp). lia. }
  apply process_step. intros p Hp. specialize (Hlen p Hp).
  destruct (p_up p) eqn:Hup; simpl; [| split; [done | intros _; right; exists p; auto]].
  apply node_step. intros n Hn. destruct (Node.AwaitingPersistence n) eqn:Ha.
  { split; [done |]. intros _. right. exists p. split; [done |]. right. right. by exists n. }
  destruct (p_mailbox p) as [|q mailbox] eqn:Hm.
  { split; [done |]. intros _. right. exists p. auto. }
  apply (update_step _ id _ _ c p); [done |]. set (p1 := set_p_mailbox p mailbox). set (c1 := set_c_processes c _).
  assert (c_processes c1 !! id = Some p1) as Hp1 by apply lookup_insert_eq.
  apply try_step.
  eapply wlp_mono; [apply (submit_boxes (mailbox_of c1) id q c1 p1 n); [by intros ? | done | done | done] |].
  intros [[c2 [err|[]]]|] Hbox; [| | done].
  - destruct (fail_sets err c2) as (c3 & -> & Herr). split; [done |]. intros _. by left.
  - specialize (Hbox id). unfold mailbox_of in Hbox. rewrite Hp1 in Hbox.
    destruct (c_processes c2 !! id) as [p2|] eqn:Hp2; [| done].
    assert (p_mailbox p2 = mailbox) as Hm2 by (simpl in Hbox; congruence). simpl in Hlen.
    eapply wlp_mono; [apply IH; intros p3 Hp3 |].
    + assert (p3 = p2) as -> by congruence. rewrite Hm2. lia.
    + intros [[c3 r]|]; [| done]. intros [Hr H]. split; [done |]. intros _. apply H. by exists p2.
Qed.

(** The equations of the parts of an iteration. *)
Lemma the_process_eq {B} id (k : process → M D B) c p :
  c_processes c !! id = Some p → (the_process id ≫= k) c = k p c.
Proof. intros Hp. unfold the_process, mbind, M_bind, gets. simpl. by rewrite Hp. Qed.
Lemma the_node_eq {B} p (k : Node.Node → M D B) c n : p_node p = Some n → (the_node p ≫= k) c = k n c.
Proof. intros Hn. unfold the_node. by rewrite Hn. Qed.
Lemma the_node_nil {B} p (k : Node.Node → M D B) c : p_node p = None → (the_node p ≫= k) c = Panic.
Proof. intros Hn. unfold the_node. by rewrite Hn. Qed.
Lemma update_eq {B} id f (k : unit → M D B) c p :
  c_processes c !! id = Some p →
  (update id f ≫= k) c = k tt (set_c_processes c (<[id := f p]> (c_processes c))).
Proof. intros Hp. unfold update, the_process, mbind, M_bind, gets. simpl. by rewrite Hp. Qed.
Lemma try_eq {A B} (m : M D A) (k k' : ClusterError + A → M D B) c :
  match m c with Done (Some (c', r)) => k r c' = k' r c' | _ => True end →
  (try m ≫= k) c = (try m ≫= k') c.
Proof. unfold try, mbind, M_bind. by destruct (m c) as [[[c' r]|]|]. Qed.

(** Fuel beyond the length of the mailbox changes nothing. *)
Lemma drainLoop_fuel j k id c p :
  c_processes c !! id = Some p → (length (p_mailbox p) < j)%nat → (length (p_mailbox p) < k)%nat →
  drainLoop enc fuel j id c = drainLoop enc fuel k id c.
Proof.
  revert k c p. induction j as [|j IH]; intros k c p Hp Hj Hk; [lia |]. destruct k as [|k]; [lia |].
  cbn [drainLoop]. rewrite !(the_process_eq id _ c p Hp). destruct (p_up p); simpl; [| done].
  destruct (p_node p) as [n|] eqn:Hn; [| by rewrite !the_node_nil].
  rewrite !(the_node_eq p _ c n Hn). destruct (Node.AwaitingPersistence n) eqn:Ha; [done |].
  destruct (p_mailbox p) as [|q mailbox] eqn:Hm; [done |].
  rewrite !(update_eq id _ _ c p Hp). set (c1 := set_c_processes c _).
  assert (c_processes c1 !! id = Some (set_p_mailbox p mailbox)) as Hp1 by apply lookup_insert_eq.
  apply try_eq.
  pose proof (submit_boxes (mailbox_of c1) id q c1 _ n (λ _, eq_refl) Hp1 Hn Ha) as Hbox.
  destruct (submit enc fuel id q c1) as [[[c2 [err|[]]]|]|]; try done.
  specialize (Hbox id). unfold mailbox_of in Hbox. rewrite Hp1 in Hbox.
  destruct (c_processes c2 !! id) as [p2|] eqn:Hp2; [| done].
  assert (p_mailbox p2 = mailbox) as Hm2 by (simpl in Hbox; congruence). simpl in Hj, Hk.
  apply (IH k c2 p2); [done | rewrite Hm2; lia | rewrite Hm2; lia].
Qed.

(** Draining a mailbox ends: one iteration for each queued input and one more test is
    enough, any further iterations would change nothing, as no input that a node handles
    queues another one; and when [drain] returns, it raises no error of its own and the
    mailbox is empty, or the process is down, or its node waits for a write again, or the
    cluster has recorded an error. *)
Theorem drain_ends id c p :
  c_processes c !! id = Some p →
  (∀ limit, (length (p_mailbox p) < limit)%nat → drainLoop enc fuel limit id c = drain enc fuel id c) ∧
  wlp (drain enc fuel id c) (λ r, match r with
    | None => True
    | Some (c', r) => r = inr tt ∧ drained id c'
    end).
Proof.
  intros Hp. split.
  - intros limit Hl. unfold drain. rewrite (the_process_eq id _ c p Hp).
    apply (drainLoop_fuel limit (S (length (p_mailbox p))) id c p Hp Hl). lia.
  - unfold drain. apply process_step. intros p' Hp'. assert (p' = p) as -> by congruence.
    eapply wlp_mono; [apply drainLoop_drains; intros p2 Hp2 |].
    + assert (p2 = p) as -> by congruence. lia.
    + intros [[c' r]|]; [| done]. intros [Hr H]. split; [done |]. apply H. by exists p.
Qed.
End mailbox.

(** The demonstration cluster after a step: [a] waits for a write, and an input queues up. *)
#[local] Existing Instance Decision.seed_decider.

Definition queued_up (c : Cluster Decision.SeedDecider) : option process :=
  p ← c_processes c !! "a";
  if decide (length (p_mailbox p) = 1)%nat then Some p else None.

Definition crowded : list command := [CmdRunSteps 1; CmdSnapshot "a" []].

Lemma crowded_queue : is_Some (demo_run crowded ≫= queued_up).
Proof. refine (bool_decide_eq_true_1 _ _). vm_compute. reflexivity. Qed.

Lemma drain_ends_witness :
  ∃ c p, demo_run crowded = Some c ∧ c_processes c !! "a" = Some p ∧ length (p_mailbox p) = 1%nat ∧
    drainLoop demo_encoders 10 7 "a" c = drain demo_encoders 10 "a" c.
Proof.
  demo crowded c E. pose proof crowded_queue as H. rewrite E in H. simpl in H. destruct H as [p H].
  unfold queued_up in H. destruct (c_processes c !! "a") as [p'|] eqn:Hp; simpl in H; [| discriminate H].
  destruct (decide (length (p_mailbox p') = 1%nat)) as [Hl|]; [| discriminate H].
  exists c, p'. split; [reflexivity |]. split; [exact Hp |]. split; [exact Hl |].
  apply (drain_ends demo_encoders 10 "a" c p' Hp). rewrite Hl. lia.
Defined.
