(* ===== verification/ArtifactProps.v ===== *)
(** * What validation of artifacts promises

    A validated experiment can be executed: the harness accepts its configuration, and the
    network its partitions.  The resource budget bounds the counted bytes of a run. *)

From S2P Require Export Artifact.
From S2P Require Import Prelude RaftTypes Membership Outcome Digest.
From S2P Require Rand Network NetProps Decision Check ClusterState Cluster AppOracle.
From Stdlib Require Import QArith.QArith.
From stdpp Require Import options.

#[global] Open Scope Z_scope.

(** ** Texts *)

Lemma validIdentifier_nonempty value allowSlash maximum : validIdentifier value allowSlash maximum = true → value ≠ "".
Proof. unfold validIdentifier. intros H ->. done. Qed.

(** ** Configurations *)

Lemma canonicalMembers_spec previous members :
  canonicalMembers previous members = true → ClusterState.checkMembers previous members = true.
Proof.
  revert previous. induction members as [|m members IH]; intros previous; simpl; [done |].
  rewrite !andb_true_iff. intros [[Hv Hp] Hr]. apply validIdentifier_nonempty in Hv.
  apply String.eqb_neq in Hv. rewrite Hv. by destruct previous; auto.
Qed.

(** The numeric conditions of a configuration. *)
Record configuration_ok (c : Configuration) : Prop := {
  co_members : CnMembers c ≠ [] ∧ zlen (CnMembers c) ≤ MaxMembers;
  co_sorted : StronglySorted String.le (CnMembers c);
  co_names : canonicalMembers None (CnMembers c) = true;
  co_latency : 0 ≤ NetworkMinLatencyNS c ≤ NetworkMaxLatencyNS c ∧ NetworkMaxLatencyNS c ≤ MaxVirtualDurationNS;
  co_election : 0 < ElectionTimeoutMinNS c ≤ ElectionTimeoutMaxNS c ∧ ElectionTimeoutMaxNS c ≤ MaxVirtualDurationNS;
  co_heartbeat : 0 < HeartbeatIntervalNS c < ElectionTimeoutMinNS c;
  co_storage : 0 ≤ StorageLatencyNS c ≤ MaxVirtualDurationNS;
  co_loss : Network.Validate (Network.mkLink 0 0 (NetworkLossProbability c)) = None;
  co_roles : (CnVoters c = [] ∧ CnLearners c = []) ∨
    membership_valid (mkMembership (CnVoters c) [] (CnLearners c) []) (CnMembers c) }.

Lemma zlen_is_nil {A} (l : list A) : (zlen l =? 0) = bool_decide (l = []).
Proof. by destruct l. Qed.

Lemma configuration_spec c : validateConfiguration c true = true → configuration_ok c.
Proof.
  unfold validateConfiguration, slices_Clone. cbv zeta.
  intros H. repeat case_if_in H; try discriminate H. clear H.
  repeat match goal with E : _ || _ = false |- _ => apply orb_false_iff in E as [? ?] end.
  repeat match goal with E : negb _ = false |- _ => apply negb_false_iff in E end.
  assert (StronglySorted String.le (CnMembers c)) as Hs by by apply is_sorted_spec.
  rewrite (sort_nodes_id _ Hs) in *. rewrite !zlen_is_nil in *. reflect.
  split; try done; try lia.
  - unfold Network.Validate. cbn [Network.MinLatency Network.MaxLatency Network.LossProbability].
    repeat match goal with E : Rand.flt _ _ = false |- _ => rewrite E end.
    by match goal with E : Rand.feq _ _ = true |- _ => rewrite E end.
  - destruct (decide (CnVoters c = [])) as [Hv|Hv], (decide (CnLearners c = [])) as [Hl|Hl]; [by left | right ..].
    all: match goal with E : _ ∨ ValidateMembership _ _ = true |- _ => destruct E as [[? | [? ?]] | E]; [done | done |] end;
      unfold ValidateMembership, slices_Clone in *; rewrite (sort_nodes_id _ Hs) in *;
      by apply validateMembership_spec.
Qed.

Lemma link_valid c :
  configuration_ok c →
  Network.Validate (Network.mkLink (NetworkMinLatencyNS c) (NetworkMaxLatencyNS c) (NetworkLossProbability c)) = None.
Proof.
  intros [_ _ _ Hl _ _ _ Hp _]. unfold Network.Validate in *.
  cbn [Network.MinLatency Network.MaxLatency Network.LossProbability] in *.
  destruct ((0 <? 0) || (0 <? 0)); [discriminate Hp |].
  destruct (Z.ltb_spec (NetworkMinLatencyNS c) 0); [lia |].
  destruct (Z.ltb_spec (NetworkMaxLatencyNS c) (NetworkMinLatencyNS c)); [lia | exact Hp].
Qed.

Lemma configuration_valid c :
  configuration_ok c → ClusterState.validateConfig (ClusterConfig_ c) = None.
Proof.
  intros Hc. pose proof Hc as [[Hm _] Hs Hn Hl He Hh Hst Hp Hr]. unfold ClusterState.validateConfig, ClusterConfig_, slices_Clone. simpl.
  rewrite (sort_nodes_id _ Hs), zlen_is_nil, bool_decide_false by done.
  rewrite (canonicalMembers_spec _ _ Hn). simpl.
  assert (((0 <? zlen (CnVoters c)) || (0 <? zlen (CnLearners c))) &&
    negb (ValidateMembership (stableMembership (CnVoters c) (CnLearners c)) (CnMembers c)) = false) as ->.
  { destruct Hr as [[-> ->] | Hr]; [done |]. apply andb_false_iff. right. apply negb_false_iff.
    unfold ValidateMembership, slices_Clone. rewrite (sort_nodes_id _ Hs). apply validateMembership_spec.
    rewrite (stableMembership_sorted_id _ _ (CnMembers c)); [done | apply Hr | apply Hr]. }
  assert (Network.Validate (Network.mkLink (NetworkMinLatencyNS c) (NetworkMaxLatencyNS c) (NetworkLossProbability c)) = None)
    as ->.
  { by apply link_valid. }
  destruct (Z.leb_spec (ElectionTimeoutMinNS c) 0); [lia |].
  destruct (Z.ltb_spec (ElectionTimeoutMaxNS c) (ElectionTimeoutMinNS c)); [lia |].
  destruct (Z.leb_spec (HeartbeatIntervalNS c) 0); [lia |].
  destruct (Z.leb_spec (ElectionTimeoutMinNS c) (HeartbeatIntervalNS c)); [lia |].
  destruct (Z.ltb_spec (StorageLatencyNS c) 0); [lia |]. done.
Qed.

(** ** Building the cluster *)

Lemma checked_members previous l :
  StronglySorted String.le l → ClusterState.checkMembers previous l = true →
  NoDup l ∧ "" ∉ l ∧ ∀ p, previous = Some p → Forall (String.le p) l → p ∉ l.
Proof.
  revert previous. induction l as [|x l IH]; intros previous Hs Hc; simpl in Hc.
  { split; [constructor |]. split; [by apply not_elem_of_nil |]. intros; by apply not_elem_of_nil. }
  rewrite !andb_true_iff, negb_true_iff, String.eqb_neq in Hc. destruct Hc as [[Hx Hp] Hr].
  inversion Hs as [|? ? Hs' Hf]; subst. destruct (IH (Some x) Hs' Hr) as (H1 & H2 & H3).
  specialize (H3 x eq_refl Hf). split; [by constructor |]. split; [by rewrite not_elem_of_cons |].
  intros p -> Hpl. rewrite negb_true_iff, String.eqb_neq in Hp. rewrite not_elem_of_cons. split; [done |].
  intros Hin. apply Hp. inversion Hpl as [|? ? Hpx _]; subst. rewrite Forall_forall in Hf.
  apply (anti_symm String.le); [by apply Hf | done].
Qed.

Section build.
Context {D : Type} `{HD : !Decision.Decider D} (enc : ClusterState.Encoders) (fuel : nat).

Lemma registerAll_ok ids (net : ClusterState.Net D) :
  NoDup ids → "" ∉ ids → (∀ id, id ∈ ids → Network.handlers (Network.router net) !! id = None) →
  ∃ net', Cluster.registerAll net ids = inr net'.
Proof.
  revert net. induction ids as [|id ids IH]; intros net Hd Hne Hh; [by exists net |]. simpl.
  inversion Hd as [|? ? Hid Hd']; subst. apply not_elem_of_cons in Hne as [Hne Hne'].
  unfold Network.Register. destruct (String.eqb_spec id ""); [congruence |].
  rewrite Hh by left. apply IH; [done | done |]. intros y Hy. simpl.
  rewrite lookup_insert_ne by (intros ->; done). apply Hh. by right.
Qed.

Lemma newProcesses_domain application root ids ps id :
  is_Some (Cluster.newProcesses application root ids ps !! id) ↔ id ∈ ids ∨ is_Some (ps !! id).
Proof.
  revert root ps. induction ids as [|x ids IH]; intros root ps; simpl.
  - rewrite elem_of_nil. naive_solver.
  - destruct (Rand.Split root) as [root' random]. rewrite IH, elem_of_cons, lookup_insert_is_Some'. naive_solver.
Qed.

Lemma NewPaused_ok c decider :
  configuration_ok c →
  ∃ cluster, Cluster.NewPaused enc fuel (ClusterConfig_ c) decider = inr cluster ∧
    ClusterState.c_members cluster = CnMembers c ∧
    ∀ id, is_Some (ClusterState.c_processes cluster !! id) ↔ id ∈ CnMembers c.
Proof.
  intros Hc. unfold Cluster.NewPaused. rewrite (configuration_valid c Hc). cbv zeta.
  destruct (Rand.Split _) as [root random]. pose proof Hc as [_ Hs Hn _ _ _ _ _ _].
  apply canonicalMembers_spec in Hn. destruct (checked_members None _ Hs Hn) as (Hd & Hne & _).
  unfold Network.NewRouter. cbn [ClusterState.CcNetwork ClusterState.CcMembers].
  assert (Network.Validate (ClusterState.CcNetwork (ClusterConfig_ c)) = None) as Hlink.
  { by apply link_valid. }
  rewrite Hlink. unfold slices_Clone, ClusterConfig_. cbn [ClusterState.CcMembers ClusterState.CcVoters ClusterState.CcLearners ClusterState.Application].
  unfold slices_Clone. rewrite (sort_nodes_id _ Hs).
  match goal with |- context [Cluster.registerAll ?n ?l] => destruct (registerAll_ok l n Hd Hne) as [net' Hreg] end.
  { intros id _. by destruct decider. }
  rewrite Hreg. eexists. split; [done |]. split; [done |]. intros id. simpl.
  rewrite newProcesses_domain. split; [intros [?|[? H]]; [done | by apply lookup_empty_Some in H] | by left].
Qed.
End build.

(** ** Actions *)

Lemma checkGroup_spec members seen group seen' :
  checkGroup members seen group = Some seen' →
  Forall (.∈ members) group ∧ NoDup group ∧ (∀ x, x ∈ group → x ∉ seen) ∧ seen' = seen ∪ list_to_set group.
Proof.
  revert seen. induction group as [|x group IH]; intros seen H; simpl in H.
  { simplify_eq. split_and!; [constructor | constructor | by intros x Hx%elem_of_nil | set_solver]. }
  destruct (contains members x) eqn:Hx; [| discriminate H]. case_bool_decide as Hs; [discriminate H |]. simpl in H.
  apply IH in H as (H1 & H2 & H3 & ->). apply contains_true in Hx. split_and!.
  - by constructor.
  - constructor; [| done]. intros Hin. apply (H3 x Hin). set_solver.
  - intros y [->|Hy]%elem_of_cons; [done |]. specialize (H3 y Hy). set_solver.
  - simpl. set_solver.
Qed.

Lemma checkGroups_spec members seen groups :
  checkGroups members seen groups = true →
  Forall (λ g, g ≠ []) groups ∧ Forall (.∈ members) (concat groups) ∧ NoDup (concat groups) ∧
  ∀ x, x ∈ concat groups → x ∉ seen.
Proof.
  revert seen. induction groups as [|g groups IH]; intros seen H; simpl in *.
  { split_and!; [constructor | constructor | constructor | by intros x Hx%elem_of_nil]. }
  rewrite zlen_is_nil in H. case_bool_decide as Hg; [discriminate H |].
  destruct (is_sorted g); [| discriminate H]. simpl in H.
  destruct (checkGroup members seen g) as [seen'|] eqn:Hc; [| discriminate H].
  apply checkGroup_spec in Hc as (H1 & H2 & H3 & ->). apply IH in H as (H4 & H5 & H6 & H7).
  split_and!; [by constructor | by apply Forall_app | |].
  - apply NoDup_app. split_and!; [done | | done]. intros x Hx Hx'. apply (H7 x Hx'). set_solver.
  - intros x [Hx|Hx]%elem_of_app; [by apply H3 |]. specialize (H7 x Hx). set_solver.
Qed.

(** What an accepted action may name. *)
Definition action_ok (members : list NodeID) (a : Action) : Prop :=
  (ActNode a = "" ∨ ActNode a ∈ members) ∧
  (ActKind a ∈ [ActionCrash; ActionRestart; ActionCrashAfterNextPersist; ActionSnapshot] → ActNode a ∈ members) ∧
  (ActKind a = ActionPartition → ∃ m, Network.NewPartitions (ActGroups a) = inr m ∧
     Forall (.∈ members) (Network.Nodes (Some m))) ∧
  (ActKind a = ActionBeginMembership →
     membership_valid (stableMembership (ActVoters a) (ActLearners a)) members) ∧
  ActKind a ∈ [ActionPropose; ActionCrash; ActionRestart; ActionCrashAfterNextPersist; ActionSnapshot;
               ActionBeginMembership; ActionFinalizeMembership; ActionPartition; ActionHeal].

Lemma optionalNode_spec members a : optionalNode members a = true → ActNode a = "" ∨ ActNode a ∈ members.
Proof. unfold optionalNode. intros H. by reflect. Qed.

Lemma validKind_spec schema members a :
  StronglySorted String.le members → "" ∉ members → validKind schema members a = true → action_ok members a.
Proof.
  intros Hs Hne H. unfold validKind in H.
  assert (∀ k, ActKind a = k → (ActNode a = "" ∨ ActNode a ∈ members) →
    (bool_decide (k ∈ [ActionCrash; ActionRestart; ActionCrashAfterNextPersist; ActionSnapshot]) = true →
       ActNode a ∈ members) →
    (k = ActionPartition → ∃ m, Network.NewPartitions (ActGroups a) = inr m ∧
       Forall (.∈ members) (Network.Nodes (Some m))) →
    (k = ActionBeginMembership → membership_valid (stableMembership (ActVoters a) (ActLearners a)) members) →
    bool_decide (k ∈ [ActionPropose; ActionCrash; ActionRestart; ActionCrashAfterNextPersist; ActionSnapshot;
       ActionBeginMembership; ActionFinalizeMembership; ActionPartition; ActionHeal]) = true →
    action_ok members a) as Hok.
  { intros k <- H1 H2 H3 H4 H5. split_and!; try done; [intros Hin; apply H2; by apply bool_decide_eq_true |].
    by apply bool_decide_eq_true in H5. }
  repeat case_if_in H; try discriminate H.
  all: repeat match goal with E : _ || _ = true |- _ => apply orb_true_iff in E as [E|E] end.
  all: match goal with E : String.eqb _ _ = true, Hk : ∀ k, _ |- _ => apply String.eqb_eq in E; apply (Hk _ E); clear Hk end.
  all: try done.
  all: match goal with E : _ && _ = true |- _ => rewrite ?andb_true_iff in E end; conj_all; intros; try (by apply optionalNode_spec); try (by apply contains_true);
    try (right; by apply contains_true); try (left; by apply String.eqb_eq).
  - match goal with E : ValidateMembership _ _ = true |- _ => unfold ValidateMembership, slices_Clone in E;
      rewrite (sort_nodes_id _ Hs) in E; apply validateMembership_spec in E; rename E into Hm end.
    rewrite (stableMembership_sorted_id _ _ members); [done | apply Hm | apply Hm].
  - match goal with E : checkGroups _ _ _ = true |- _ => apply checkGroups_spec in E as (G1 & G2 & G3 & G4) end.
    pose proof (NetProps.NewPartitions_groups (ActGroups a)) as Hp.
    destruct (Network.NewPartitions (ActGroups a)) as [err|m].
    + destruct Hp as [_ []]. split.
      * intros E0. unfold noGroups in *. rewrite E0 in *. by match goal with E : negb _ = true |- _ => discriminate E end.
      * split_and!; [done | | done | set_solver]. intros He. apply Hne. rewrite Forall_forall in G2. by apply G2.
    + exists m. split; [done |]. destruct Hp as (_ & _ & -> & _). done.
Qed.

Lemma validActions_spec schema members duration previous actions :
  StronglySorted String.le members → "" ∉ members →
  validActions schema members duration previous actions = true →
  Forall (action_ok members) actions ∧ Forall (λ a, 0 ≤ ActAtNS a ≤ duration) actions ∧
  Sorted Z.le (map ActAtNS actions) ∧ Forall (λ a, previous ≤ ActAtNS a) actions.
Proof.
  intros Hs Hne. revert previous. induction actions as [|a actions IH]; intros previous H; simpl in H.
  { split_and!; constructor. }
  rewrite !andb_true_iff, negb_true_iff, !orb_false_iff, !Z.ltb_ge in H.
  destruct H as [[[[[[H1 H2] H3] _] _] Hk] Hr]. apply IH in Hr as (H4 & H5 & H6 & H7).
  split_and!.
  - constructor; [by eapply validKind_spec | done].
  - constructor; [lia | done].
  - simpl. constructor; [done |]. destruct actions; [constructor |]. constructor. by inversion H7.
  - constructor; [done |]. apply (Forall_impl _ _ _ H7). simpl. intros; lia.
Qed.

(** ** The resource budget *)

Definition total (sizes : list Z) : Z := foldr Z.add 0 sizes.

Lemma total_app l k : total (l ++ k) = total l + total k.
Proof. induction l as [|x l IH]; simpl; [done | rewrite IH; lia]. Qed.

Lemma total_nonneg l : Forall (Z.le 0) l → 0 ≤ total l.
Proof. induction 1; simpl; lia. Qed.

Definition optionBytes (choice : Decision.Choice) : Z :=
  total (map (λ o, strlen (Decision.OptID o)) (Decision.Options choice)).
Definition entryBytes (entry : Decision.Entry) : Z := decisionSize entry + optionBytes (Decision.EnChoice entry).

(** The counted bytes of a run. *)
Definition countedBytes (run : Run) : Z :=
  total (headerSizes run) + total (map entryBytes (Decision.Entries (Decisions run))) +
  total (concat (map violationSizes (Violations (RunOutcome run)))).

Definition entryWithinLimits (entry : Decision.Entry) : Prop :=
  let choice := Decision.EnChoice entry in
  zlen (Decision.Context_ choice) ≤ MaxDecisionContextBytes ∧ zlen (Decision.Options choice) ≤ MaxDecisionOptions ∧
  strlen (Decision.ChID choice) ≤ MaxDecisionTextBytes ∧ strlen (Decision.ChKind choice) ≤ MaxDecisionTextBytes ∧
  strlen (Decision.SelOption (Decision.EnSelection entry)) ≤ MaxDecisionTextBytes ∧
  Forall (λ o, strlen (Decision.OptID o) ≤ MaxDecisionTextBytes) (Decision.Options choice).

Definition decisionsWithinLimits (entries : list Decision.Entry) : Prop :=
  Forall entryWithinLimits entries ∧
  total (map (λ e, zlen (Decision.Options (Decision.EnChoice e))) entries) ≤ MaxTotalDecisionOptions.

Lemma strlen_nonneg s : 0 ≤ strlen s.
Proof. apply zlen_nonneg. Qed.

Lemma budget_add_spec budget used size used' :
  0 ≤ size → add budget used size = inr used' ↔ used' = used + size ∧ used + size ≤ budget.
Proof.
  intros Hs. unfold add. destruct (Z.ltb_spec size 0); [lia |]. simpl.
  destruct (Z.ltb_spec (budget - used) size); split.
  - done.
  - intros [_ ?]. lia.
  - intros [= <-]. split; [done | lia].
  - by intros [-> _].
Qed.

Lemma addAll_spec budget used sizes used' :
  Forall (Z.le 0) sizes → used ≤ budget →
  addAll budget used sizes = inr used' ↔ used' = used + total sizes ∧ used + total sizes ≤ budget.
Proof.
  intros Hs. revert used. induction Hs as [|x sizes Hx Hs IH]; intros used Hu; simpl.
  { rewrite Z.add_0_r. split; [by intros [= <-] | by intros [-> _]]. }
  pose proof (total_nonneg sizes Hs).
  destruct (add budget used x) as [err|u] eqn:Ha.
  - split; [done |]. intros [_ Hle]. exfalso.
    assert (add budget used x = inr (used + x)) as E by (apply budget_add_spec; [done | lia]). congruence.
  - apply budget_add_spec in Ha as [-> Hb]; [| done]. rewrite IH by done.
    replace (used + x + total sizes) with (used + (x + total sizes)) by lia. done.
Qed.

Lemma addOptions_spec budget used options used' :
  used ≤ budget →
  addOptions budget used options = inr used' ↔
  used' = used + total (map (λ o, strlen (Decision.OptID o)) options) ∧
  used + total (map (λ o, strlen (Decision.OptID o)) options) ≤ budget ∧
  Forall (λ o, strlen (Decision.OptID o) ≤ MaxDecisionTextBytes) options.
Proof.
  revert used. induction options as [|o options IH]; intros used Hu; simpl.
  { rewrite Z.add_0_r. split; [by intros [= <-] | by intros [-> _]]. }
  rewrite Forall_cons. pose proof (strlen_nonneg (Decision.OptID o)) as Ho.
  assert (0 ≤ total (map (λ o, strlen (Decision.OptID o)) options)) as Hn.
  { apply total_nonneg, Forall_map, Forall_true. intros ?. apply strlen_nonneg. }
  destruct (Z.ltb_spec MaxDecisionTextBytes (strlen (Decision.OptID o))).
  { split; [done |]. intros (_ & _ & ? & _). lia. }
  destruct (add budget used _) as [err|u] eqn:Ha.
  - split; [done |]. intros (_ & Hle & _). exfalso.
    assert (add budget used (strlen (Decision.OptID o)) = inr (used + strlen (Decision.OptID o))) as E
      by (apply budget_add_spec; [done | lia]). congruence.
  - apply budget_add_spec in Ha as [-> Hb]; [| done]. rewrite IH by done. rewrite !Z.add_assoc. naive_solver.
Qed.

Lemma decisionSize_nonneg e : 0 ≤ decisionSize e.
Proof. unfold decisionSize, strlen. pose proof @zlen_nonneg. repeat apply Z.add_nonneg_nonneg; auto. Qed.

Lemma entryBytes_nonneg e : 0 ≤ entryBytes e.
Proof.
  unfold entryBytes, optionBytes. pose proof (decisionSize_nonneg e).
  assert (0 ≤ total (map (λ o, strlen (Decision.OptID o)) (Decision.Options (Decision.EnChoice e)))); [| lia].
  apply total_nonneg, Forall_map, Forall_true. intros ?. apply strlen_nonneg.
Qed.

Lemma addDecisions_spec budget used options entries used' :
  used ≤ budget →
  addDecisions budget used options entries = inr used' ↔
  used' = used + total (map entryBytes entries) ∧ used + total (map entryBytes entries) ≤ budget ∧
  Forall entryWithinLimits entries ∧
  (entries ≠ [] → options + total (map (λ e, zlen (Decision.Options (Decision.EnChoice e))) entries) ≤ MaxTotalDecisionOptions).
Proof.
  revert used options. induction entries as [|e entries IH]; intros used options Hu; cbn [addDecisions map total foldr].
  { rewrite Z.add_0_r. split; [by intros [= <-] | by intros [-> _]]. }
  rewrite Forall_cons. unfold entryWithinLimits at 1. cbv zeta.
  assert (0 ≤ total (map entryBytes entries)) as Hn.
  { apply total_nonneg, Forall_map, Forall_true. apply entryBytes_nonneg. }
  assert (0 ≤ total (map (λ e, zlen (Decision.Options (Decision.EnChoice e))) entries)) as Hn2.
  { apply total_nonneg, Forall_map, Forall_true. intros ?. apply zlen_nonneg. }
  fold (total (map entryBytes entries)) (total (map (λ e, zlen (Decision.Options (Decision.EnChoice e))) entries)).
  destruct (_ || _) eqn:Hlim.
  { split; [done |]. intros (_ & _ & [(? & ? & ? & ? & ? & _) _] & _). exfalso. reflect. lia. }
  rewrite !orb_false_iff, !Z.ltb_ge in Hlim. destruct Hlim as [[[[H1 H2] H3] H4] H5].
  destruct (Z.ltb_spec (MaxTotalDecisionOptions - options) (zlen (Decision.Options (Decision.EnChoice e)))) as [Ho|Ho].
  { split; [done |]. intros (_ & _ & _ & Ht). specialize (Ht ltac:(done)). lia. }
  pose proof (decisionSize_nonneg e) as Hd. unfold entryBytes at 1 3.
  assert (0 ≤ optionBytes (Decision.EnChoice e)) as Hob.
  { unfold optionBytes. apply total_nonneg, Forall_map, Forall_true. intros ?. apply strlen_nonneg. }
  destruct (add budget used (decisionSize e)) as [err|u] eqn:Ha.
  { split; [done |]. intros (_ & Hle & _). exfalso.
    assert (add budget used (decisionSize e) = inr (used + decisionSize e)) as E by (apply budget_add_spec; [done | lia]). congruence. }
  apply budget_add_spec in Ha as [-> Hb]; [| done].
  destruct (addOptions budget _ _) as [err|u] eqn:Ha.
  { split; [done |]. intros (_ & Hle & [(_ & _ & _ & _ & _ & Hos) _] & _). exfalso.
    assert (addOptions budget (used + decisionSize e) (Decision.Options (Decision.EnChoice e)) = inr (used + decisionSize e + optionBytes (Decision.EnChoice e))) as E;
      [| congruence]. apply addOptions_spec; [done |]. split; [done |]. split; [| done]. unfold optionBytes in *. lia. }
  apply addOptions_spec in Ha as (-> & Hb2 & Hos); [| done]. rewrite IH by done.
  fold (optionBytes (Decision.EnChoice e)) in *.
  replace (used + decisionSize e + optionBytes (Decision.EnChoice e) + total (map entryBytes entries))
    with (used + (decisionSize e + optionBytes (Decision.EnChoice e) + total (map entryBytes entries))) by lia.
  split; intros (H6 & H7 & H8 & H9); split_and!; try done.
  - intros _. destruct entries as [|e' entries]; [simpl; lia |]. specialize (H9 ltac:(done)). lia.
  - apply H8.
  - intros _. specialize (H9 ltac:(done)). lia.
Qed.

Lemma sizes_nonneg run :
  Forall (Z.le 0) (headerSizes run) ∧ Forall (Z.le 0) (concat (map violationSizes (Violations (RunOutcome run)))).
Proof.
  assert (∀ l, Forall (Z.le 0) (map strlen l)) as Hmap.
  { intros l. apply Forall_map, Forall_true. apply strlen_nonneg. }
  assert (∀ {A} (f : A → list Z) (l : list A), (∀ x, Forall (Z.le 0) (f x)) → Forall (Z.le 0) (concat (map f l))) as Hcat.
  { intros A f l Hf. induction l as [|x l IH]; simpl; [constructor | by apply Forall_app]. }
  pose proof strlen_nonneg as Hs. pose proof @zlen_nonneg as Hz.
  split.
  - unfold headerSizes. rewrite !Forall_app. split_and!; auto. apply Hcat. intros a. unfold actionSizes.
    rewrite !Forall_app. split_and!; auto. constructor; [| constructor].
    repeat apply Z.add_nonneg_nonneg; auto.
  - apply Hcat. intros v. constructor; [repeat apply Z.add_nonneg_nonneg; auto | auto].
Qed.

(** C22.  The resource budget is exact: a run passes it exactly when the limit is positive, every
    decision keeps its own limits and their options number at most a million, and all the
    counted bytes of the run together are at most half of the limit.  The running total
    never passes the budget on the way. *)
Theorem resource_budget_exact run maximum :
  validateResourceBudget run maximum = None ↔
  0 < maximum ∧ decisionsWithinLimits (Decision.Entries (Decisions run)) ∧ countedBytes run ≤ maximum / 2.
Proof.
  unfold validateResourceBudget, countedBytes, decisionsWithinLimits. destruct (sizes_nonneg run) as [Hh Hv].
  set (entries := Decision.Entries (Decisions run)).
  assert (0 ≤ total (map entryBytes entries)) as Hn.
  { apply total_nonneg, Forall_map, Forall_true. apply entryBytes_nonneg. }
  pose proof (total_nonneg _ Hh) as Hhn. pose proof (total_nonneg _ Hv) as Hvn.
  destruct (Z.leb_spec maximum 0) as [|Hm]; [split; [done | lia] |].
  assert (0 ≤ maximum / 2) as Hb by (apply Z.div_pos; lia).
  destruct (addAll (maximum / 2) 0 (headerSizes run)) as [err|u1] eqn:H1.
  { split; [done |]. intros (_ & _ & Hle).
    assert (addAll (maximum / 2) 0 (headerSizes run) = inr (0 + total (headerSizes run))) as E; [| congruence].
    apply addAll_spec; [done | done |]. split; [done | lia]. }
  apply addAll_spec in H1 as [-> Hu1]; [| done | done].
  destruct (addDecisions (maximum / 2) _ 0 entries) as [err|u2] eqn:H2.
  { split; [done |]. intros (_ & [Hf Ht] & Hle).
    assert (addDecisions (maximum / 2) (0 + total (headerSizes run)) 0 entries =
            inr (0 + total (headerSizes run) + total (map entryBytes entries))) as E; [| congruence].
    apply addDecisions_spec; [done |]. split_and!; [done | lia | done |]. intros _. by rewrite Z.add_0_l. }
  apply addDecisions_spec in H2 as (-> & Hu2 & Hf & Ht); [| done].
  assert (total (map (λ e, zlen (Decision.Options (Decision.EnChoice e))) entries) ≤ MaxTotalDecisionOptions) as Htot.
  { destruct entries; [done |]. by specialize (Ht ltac:(done)). }
  destruct (addAll (maximum / 2) _ _) as [err|u3] eqn:H3.
  - split; [done |]. intros (_ & _ & Hle).
    match type of H3 with addAll _ ?u ?l = _ => assert (addAll (maximum / 2) u l = inr (u + total l)) as E; [| congruence] end.
    apply addAll_spec; [done | done |]. split; [done | lia].
  - apply addAll_spec in H3 as [-> Hu3]; [| done | done]. split; [intros _ | done]. split_and!; [done | done | done | lia].
Qed.

(** ** Executable experiments *)

Section executable.
Context {D : Type} `{HD : !Decision.Decider D} (enc : ClusterState.Encoders) (fuel : nat).

(** A validated experiment is never malformed for the harness: the cluster of its
    configuration can be built, with exactly the configured members; its actions come in
    time order within the horizon, each of a known kind and addressed to members; every
    partition is accepted by the network and names members only, and every membership
    change names a valid stable configuration. *)
Theorem experiment_is_executable scenario c (decider : option D) :
  ValidateExperiment scenario c = true →
  (∃ cluster, Cluster.NewPaused enc fuel (ClusterConfig_ c) decider = inr cluster ∧
     ClusterState.c_members cluster = CnMembers c ∧
     ∀ id, is_Some (ClusterState.c_processes cluster !! id) ↔ id ∈ CnMembers c) ∧
  Forall (action_ok (CnMembers c)) (Actions scenario) ∧
  Forall (λ a, 0 ≤ ActAtNS a ≤ DurationNS scenario) (Actions scenario) ∧
  Sorted Z.le (map ActAtNS (Actions scenario)).
Proof.
  unfold ValidateExperiment. rewrite andb_true_iff. intros [Hc Hs]. apply configuration_spec in Hc.
  split; [by apply NewPaused_ok |]. pose proof Hc as [_ Hsort Hnames _ _ _ _ _ _].
  apply canonicalMembers_spec in Hnames. destruct (checked_members None _ Hsort Hnames) as (_ & Hne & _).
  unfold validateScenario in Hs. case_if_in Hs; [discriminate Hs |].
  apply validActions_spec in Hs as (H1 & H2 & H3 & _); done.
Qed.
End executable.

(** ** An experiment *)

Definition demo_configuration : Configuration :=
  ConfigurationFrom (ClusterState.DefaultConfig ["c"; "a"; "b"]).
Definition demo_action (at_ : Z) (kind : string) (node : NodeID) (groups : list (list NodeID)) : Action :=
  mkAction at_ kind node [] groups [] [] false false.
Definition demo_scenario : Scenario :=
  mkScenario "split-and-heal" "1" 1000000000 5000
    [demo_action 100 ActionPartition "" [["a"]; ["b"; "c"]]; demo_action 200 ActionCrash "b" [];
     demo_action 200 ActionHeal "" []; demo_action 300 ActionRestart "b" []].

Lemma experiment_is_executable_witness :
  ValidateExperiment demo_scenario demo_configuration = true ∧
  Forall (action_ok (CnMembers demo_configuration)) (Actions demo_scenario).
Proof.
  assert (ValidateExperiment demo_scenario demo_configuration = true) as H by (vm_compute; reflexivity).
  split; [exact H |].
  apply (experiment_is_executable (D := Decision.SeedDecider) (HD := Decision.seed_decider)
    (ClusterState.mkEncoders (λ _, []) (λ _, []) (λ _, []) (λ _, []) (λ _, inl AppOracle.ErrInvalidCheckpoint)) 10
    demo_scenario demo_configuration None H).
Defined.
