(* ===== verification/Minimize.v ===== *)
(** * Minimization (minimize/minimize.go)

    The reduction of the actions of a scenario and of the entries of its guide by halving
    chunks, the shrinking of the selections that are left, and [Artifact], which replays
    its input and evaluates candidates with a guided, recorded decider.

    An evaluation may panic ([Panic]), run out of the fuel of the rejection sampling
    ([None]) or fail; a failure ends the minimization.  The build information that
    [NewReproducibility] reads is a parameter. *)

From S2P Require Import Prelude RaftTypes Outcome.
From S2P Require Export Scenario Decision.
From S2P Require Artifact Check.
From stdpp Require Import options.

#[global] Open Scope Z_scope.

Inductive MinError :=
| ErrInvalidBounds | ErrNoViolation | ErrNotReproducible | ErrUnsupportedAdapter
| ErrArtifact (e : Artifact.ArtifactError)
| ErrDecision (e : DecisionError)
| ErrExecute (n : Z). (* an error of the execution *)

Definition MaxRunsLimit : Z := 100000.

Record Bounds := mkBounds { MaxRuns : Z; FallbackSeed : Z; TargetFingerprint : string }.

Record Result := mkResult {
  ReRun : Run; ReRuns : Z; ActionsRemoved : Z; GuidanceEntriesRemoved : Z; SelectionsShrunk : Z;
  Truncated : bool }.

(** ** Computations *)

Definition M (A : Type) : Type := go (option (MinError + A)).

#[export] Instance M_ret : MRet M := λ A a, Done (Some (inr a)).
#[export] Instance M_bind : MBind M := λ A B k m,
  match m with
  | Panic => Panic
  | Done None => Done None
  | Done (Some (inl err)) => Done (Some (inl err))
  | Done (Some (inr a)) => k a
  end.

Definition throw {A} (err : MinError) : M A := Done (Some (inl err)).

(** A call that returns an error or a value. *)
Definition call {A} (m : DecisionError + A) : M A :=
  match m with inl err => throw (ErrDecision err) | inr a => mret a end.
Definition call_go {A} (m : go (DecisionError + A)) : M A :=
  match m with Panic => Panic | Done r => call r end.

(** ** Copies *)

Definition cloneViolation (v : Violation) : Violation :=
  mkViolation (VID v) (VAtNS v) (slices_Clone (VNodes v)) (slices_Clone (Evidence v)) (VFingerprint v).

Definition cloneOutcome (o : Outcome) : Outcome :=
  mkOutcome (Status o) (Steps o) (EndNS o) (ObservationDigest o) (OutError o) (map cloneViolation (Violations o)).

Definition cloneConfiguration (c : Configuration) : Configuration :=
  mkConfiguration (slices_Clone (CnMembers c)) (slices_Clone (CnVoters c)) (slices_Clone (CnLearners c))
    (InfrastructureSeed c) (NetworkMinLatencyNS c) (NetworkMaxLatencyNS c) (NetworkLossProbability c)
    (ElectionTimeoutMinNS c) (ElectionTimeoutMaxNS c) (HeartbeatIntervalNS c) (StorageLatencyNS c)
    (CnStopOnViolation c) (cnVotersPresent c) (cnLearnersPresent c).

Definition cloneRun (run : Run) : Run :=
  mkRun (RunSchema run) (cloneScenario (RunScenario run)) (RunAdapter run)
    (cloneConfiguration (RunConfiguration run)) (RunReproducibility run) (CloneTape (Decisions run))
    (cloneOutcome (RunOutcome run)).

(** ** Simpler selections *)

(** Wrapping [int64] arithmetic. *)
Definition int64 (z : Z) : Z := wrap64 (z + (max_i64 + 1)) - (max_i64 + 1).

Fixpoint optionExists (options : list Option_) (id : string) : bool :=
  match options with
  | [] => false
  | option :: options => if String.eqb (OptID option) id then true else optionExists options id
  end.

Fixpoint selectionExists (selections : list Selection) (target : Selection) : bool :=
  match selections with
  | [] => false
  | selection :: selections =>
    if String.eqb (SelOption selection) (SelOption target) then true else selectionExists selections target
  end.

(** The loop over the preferred options. *)
Fixpoint preferredSelections (choice : Choice) (current : Selection) (preferred : list string)
    (result : list Selection) : list Selection :=
  match preferred with
  | [] => result
  | p :: preferred =>
    let selection := mkSelection p None in
    if negb (String.eqb p (SelOption current)) && optionExists (Options choice) p &&
       negb (selectionExists result selection)
    then preferredSelections choice current preferred (result ++ [selection])
    else preferredSelections choice current preferred result
  end.

(** The values between the minimum and the current number, halving the distance: the
    distance is below 2^64, so 64 iterations are enough. *)
Fixpoint halving (fuel : nat) (minimum original cursor : Z) : list Z :=
  match fuel with
  | O => []
  | S fuel =>
    if (minimum <? cursor) && (cursor <? original) then
      cursor :: (if int64 (original - cursor) <=? 1 then []
                 else halving fuel minimum original (int64 (cursor + Z.quot (int64 (original - cursor)) 2)))
    else []
  end.

Definition simplerSelections (entry : Entry) : go (list Selection) :=
  let choice := EnChoice entry in
  let current := EnSelection entry in
  match Options choice with
  | first :: _ => Done (preferredSelections choice current ["drop"; OptID first] [])
  | [] =>
    match Number current with
    | None => Done []
    | Some original =>
      match Min choice with
      | None => Panic
      | Some minimum =>
        if original <=? minimum then Done []
        else
          let values := minimum :: halving 64 minimum original
                          (int64 (minimum + Z.quot (int64 (original - minimum)) 2)) in
          Done (map (λ value, mkSelection "" (Some value)) values)
      end
    end
  end.

Fixpoint hasViolation (violations : list Violation) (target : string) : bool :=
  match violations with
  | [] => false
  | violation :: violations =>
    if String.eqb (VFingerprint violation) target then true else hasViolation violations target
  end.

(** ** Reduction by chunks

    The two loops of [minimize] that remove chunks differ in the list they cut and in what
    they keep of an accepted candidate: [size] is the length of the list and [attempt] the
    evaluation of the candidate without the elements from [start] to [end_], [Some] with
    the next state when it matches.  [MaxRuns - runs] bounds the iterations left, as each
    of them evaluates. *)
Section reduction.
Context {St : Type} (size : St → nat) (attempt : St → nat → nat → M (option St)) (maximum : Z).

(** One pass over the chunks; [chunk] is positive. *)
Fixpoint scanChunks (fuel : nat) (st : St) (length_ chunk start : nat) (runs : Z) : M (Z * option St) :=
  match fuel with
  | O => mret (runs, None)
  | S fuel =>
    if (start <? length_)%nat && (runs <? maximum) then
      let end_ := Nat.min (start + chunk) length_ in
      accepted ← attempt st start end_;
      let runs := runs + 1 in
      match accepted with
      | Some st => mret (runs, Some st)
      | None => scanChunks fuel st length_ chunk (start + chunk) runs
      end
    else mret (runs, None)
  end.

Fixpoint reduceLoop (fuel : nat) (st : St) (granularity : nat) (runs : Z) : M (St * Z) :=
  match fuel with
  | O => mret (st, runs)
  | S fuel =>
    if (0 <? size st)%nat && (runs <? maximum) then
      let length_ := size st in
      let chunk := ((length_ + granularity - 1) / granularity)%nat in
      '(runs, accepted) ← scanChunks (Z.to_nat (maximum - runs)) st length_ chunk 0 runs;
      match accepted with
      | Some st => reduceLoop fuel st (Nat.max 2 (granularity - 1)) runs
      | None =>
        if (length_ <=? granularity)%nat then mret (st, runs)
        else reduceLoop fuel st (Nat.min length_ (granularity * 2)) runs
      end
    else mret (st, runs)
  end.

Definition reduce (st : St) (runs : Z) : M (St * Z) := reduceLoop (Z.to_nat (maximum - runs)) st 2 runs.
End reduction.

(** The elements of a list outside a chunk. *)
Definition without {A} (l : list A) (start end_ : nat) : list A := take start l ++ drop end_ l.

(** ** The three phases *)

Definition Evaluator := Scenario → Tape → M (Run * bool).

Definition set_Entries (t : Tape) (es : list Entry) : Tape := mkTape (Schema t) es.
Definition set_Selection (e : Entry) (s : Selection) : Entry :=
  mkEntry (EnChoice e) (DomainDigest_ e) (ContextDigest_ e) s.

Section phases.
Context (evaluate : Evaluator).

(** Actions: an accepted candidate replaces the run and its decisions the guide. *)
Definition attemptActions (st : Run * Tape) (start end_ : nat) : M (option (Run * Tape)) :=
  let '(current, guide) := st in
  let scenario := cloneScenario (RunScenario current) in
  let scenario := set_Actions scenario (without (Actions scenario) start end_) in
  '(candidate, matches) ← evaluate scenario guide;
  mret (if matches : bool then Some (cloneRun candidate, CloneTape (Decisions candidate)) else None).

Definition countActions (st : Run * Tape) : nat := length (Actions (RunScenario st.1)).

Definition reduceActions (maximum : Z) (st : Run * Tape) (runs : Z) : M (Run * Tape * Z) :=
  reduce countActions attemptActions maximum st runs.

(** Guide entries: the candidate guide is kept, not the recorded decisions. *)
Definition attemptGuide (st : Run * Tape) (start end_ : nat) : M (option (Run * Tape)) :=
  let '(current, guide) := st in
  let candidateGuide := CloneTape guide in
  let candidateGuide := set_Entries candidateGuide (without (Entries candidateGuide) start end_) in
  '(candidate, matches) ← evaluate (RunScenario current) candidateGuide;
  mret (if matches : bool then Some (cloneRun candidate, candidateGuide) else None).

Definition countGuide (st : Run * Tape) : nat := length (Entries st.2).

Definition reduceGuide (maximum : Z) (st : Run * Tape) (runs : Z) : M (Run * Tape * Z) :=
  reduce countGuide attemptGuide maximum st runs.

(** The selections of one entry, until one matches or the runs are used up. *)
Fixpoint trySelections (maximum : Z) (st : Run * Tape) (index : nat) (selections : list Selection) (runs : Z)
    : M (Z * option (Run * Tape)) :=
  match selections with
  | [] => mret (runs, None)
  | selection :: selections =>
    let '(current, guide) := st in
    let candidateGuide := CloneTape guide in
    let candidateGuide :=
      set_Entries candidateGuide (alter (λ e, set_Selection e selection) index (Entries candidateGuide)) in
    '(candidate, matches) ← evaluate (RunScenario current) candidateGuide;
    let runs := runs + 1 in
    if matches : bool then mret (runs, Some (cloneRun candidate, candidateGuide))
    else if maximum <=? runs then mret (runs, None)
    else trySelections maximum st index selections runs
  end.

(** The loop over the indices of the guide, whose length does not change. *)
Fixpoint shrinkSelections (maximum : Z) (st : Run * Tape) (indices : list nat) (shrunk runs : Z)
    : M (Run * Tape * Z * Z) :=
  match indices with
  | [] => mret (st, shrunk, runs)
  | index :: indices =>
    if maximum <=? runs then mret (st, shrunk, runs)
    else match Entries st.2 !! index with
    | None => Panic
    | Some entry =>
      match simplerSelections entry with
      | Panic => Panic
      | Done selections =>
        '(runs, accepted) ← trySelections maximum st index selections runs;
        match accepted with
        | Some st => shrinkSelections maximum st indices (shrunk + 1) runs
        | None => shrinkSelections maximum st indices shrunk runs
        end
      end
    end
  end.

(** [target] is not used by the code. *)
Definition minimize (input : Run) (bounds : Bounds) (target : string) : M Result :=
  let current := cloneRun input in
  let guide := CloneTape (Decisions input) in
  let originalActions := zlen (Actions (RunScenario input)) in
  '(current, guide, runs) ← reduceActions (MaxRuns bounds) (current, guide) 0;
  let guideStart := zlen (Entries guide) in
  '(current, guide, runs) ← reduceGuide (MaxRuns bounds) (current, guide) runs;
  '(current, guide, shrunk, runs) ←
    shrinkSelections (MaxRuns bounds) (current, guide) (seq 0 (length (Entries guide))) 0 runs;
  mret (mkResult (cloneRun current) runs (originalActions - zlen (Actions (RunScenario current)))
          (guideStart - zlen (Entries guide)) shrunk (MaxRuns bounds <=? runs)).
End phases.

(** ** Artifacts *)

(** What [runtime] and [debug] say of the running program. *)
Record Build := mkBuild { BuRevision : string; BuModified : bool; BuGoVersion : string }.

Definition NewReproducibility (build : Build) (seed : Z) : Reproducibility :=
  mkReproducibility seed (BuRevision build) (BuModified build) (BuGoVersion build) SchemaVersion
    Check.SchemaVersion MessageCodecCurrent ObservationSchemaCurrent.

Section artifact.
(** The execution of an experiment is a program that asks a decider. *)
Context (Execute : Scenario → Configuration → program (Z + Outcome)) (build : Build) (fuel : nat).

Definition runExecute {D} `{!Decider D} (scenario : Scenario) (configuration : Configuration) (d : D) : M (D * Outcome) :=
  match execute fuel (Execute scenario configuration) d with
  | Panic => Panic
  | Done None => Done None
  | Done (Some (d, inl err)) => throw (ErrExecute err)
  | Done (Some (d, inr outcome)) => mret (d, outcome)
  end.

Definition validateRun (run : Run) : M unit :=
  match Artifact.Validate run with
  | Panic => Panic
  | Done (Some err) => throw (ErrArtifact err)
  | Done None => mret tt
  end.

(** The closure [evaluate]. *)
Definition evaluateCandidate (input : Run) (bounds : Bounds) (target : string) : Evaluator := λ scenario guide,
  guided ← call_go (NewGuidedDecider guide (Some (NewSeedDecider (FallbackSeed bounds))));
  '(recorder, outcome) ← runExecute scenario (RunConfiguration input) (NewRecorder (Some guided));
  match Err recorder with
  | Some err => throw (ErrDecision err)
  | None =>
    let candidate := cloneRun input in
    let candidate := mkRun (RunSchema candidate) (cloneScenario scenario) (RunAdapter candidate)
      (RunConfiguration candidate) (NewReproducibility build (FallbackSeed bounds)) (RecordedTape recorder) outcome in
    _ ← validateRun candidate;
    mret (candidate, hasViolation (Violations outcome) target)
  end.

Definition targetOf (input : Run) (bounds : Bounds) : string :=
  match TargetFingerprint bounds, Violations (RunOutcome input) with
  | EmptyString, first :: _ => VFingerprint first
  | target, _ => target
  end.

Definition MinimizeArtifact (input : Run) (bounds : Bounds) : M Result :=
  _ ← validateRun input;
  if (MaxRuns bounds <=? 0) || (MaxRunsLimit <? MaxRuns bounds) then throw ErrInvalidBounds
  else
    let target := targetOf input bounds in
    if String.eqb target "" || negb (hasViolation (Violations (RunOutcome input)) target) then throw ErrNoViolation
    else if negb (String.eqb (AdID (RunAdapter input)) ReferenceAdapterID) ||
            negb (String.eqb (AdVersion (RunAdapter input)) ReferenceAdapterCurrent)
    then throw ErrUnsupportedAdapter
    else
      replay ← call_go (NewTapeDecider (Decisions input));
      '(replay, outcome) ← runExecute (RunScenario input) (RunConfiguration input) replay;
      if bool_decide (Finish replay ≠ None) || negb (Artifact.OutcomesEqual (RunOutcome input) outcome)
      then throw ErrNotReproducible
      else
        let remaining := mkBounds (MaxRuns bounds - 1) (FallbackSeed bounds) (TargetFingerprint bounds) in
        if MaxRuns remaining =? 0 then mret (mkResult (cloneRun input) 1 0 0 0 true)
        else
          result ← minimize (evaluateCandidate input bounds target) input remaining target;
          mret (mkResult (ReRun result) (ReRuns result + 1) (ActionsRemoved result) (GuidanceEntriesRemoved result)
                  (SelectionsShrunk result) (Truncated result)).
End artifact.
