(* ===== verification/MinimizeProps.v ===== *)
(** * What minimization promises (minimize/minimize.go)

    The loops that remove chunks end within the budget and leave a list from which no
    single element can be removed; the minimized artifact is valid, reproduces the target
    violation, and its actions are a sublist of those of the input. *)

From S2P Require Import Prelude RaftTypes Outcome.
From S2P Require Export Minimize DecisionProps.
From S2P Require Artifact Check.
From stdpp Require Import options.

#[global] Open Scope Z_scope.

(** ** Outcomes of computations

    [sat total m Q]: a value that [m] returns satisfies [Q]; a [total] computation does
    return one. *)

Definition sat {A} (total : bool) (m : M A) (Q : A → Prop) : Prop :=
  match m with
  | Done (Some (inr a)) => Q a
  | _ => total = false
  end.

Lemma sat_ret {A} total (a : A) (Q : A → Prop) : Q a → sat total (mret a) Q.
Proof. done. Qed.

Lemma sat_bind {A B} total (m : M A) (k : A → M B) (Q : B → Prop) :
  sat total m (λ a, sat total (k a) Q) → sat total (m ≫= k) Q.
Proof. by destruct m as [[[|]|]|]. Qed.

Lemma sat_mono {A} total (m : M A) (P Q : A → Prop) :
  sat total m P → (∀ a, P a → Q a) → sat total m Q.
Proof. destruct m as [[[|]|]|]; simpl; auto. Qed.

(** The value of a computation is remembered. *)
Lemma sat_eq {A} total (m : M A) (P : A → Prop) :
  sat total m P → sat total m (λ a, m = Done (Some (inr a)) ∧ P a).
Proof. by destruct m as [[[|]|]|]; simpl. Qed.

Lemma sat_value {A} (m : M A) a (Q : A → Prop) : m = Done (Some (inr a)) → sat false m Q → Q a.
Proof. by intros ->. Qed.

Lemma sat_total {A} (m : M A) (Q : A → Prop) : sat true m Q → ∃ a, m = Done (Some (inr a)) ∧ Q a.
Proof. destruct m as [[[e|a]|]|]; simpl; try done. intros H. by exists a. Qed.

(** ** Removing chunks *)

Section reduction.
Context {St : Type} (size : St → nat) (attempt : St → nat → nat → M (option St)) (maximum : Z).
Context (total : bool) (I : St → Prop).

Definition refused (st : St) (start end_ : nat) : Prop := attempt st start end_ = mret None.

Hypothesis attempt_keeps : ∀ st start end_, I st → (start < end_ ≤ size st)%nat →
  sat total (attempt st start end_) (λ r, match r with Some st' => I st' | None => True end).

Lemma scanChunks_spec fuel st chunk start runs :
  I st → (0 < chunk)%nat → (Z.to_nat (maximum - runs) ≤ fuel)%nat →
  sat total (scanChunks attempt maximum fuel st (size st) chunk start runs) (λ r,
    runs ≤ r.1 ≤ Z.max runs maximum ∧
    ((start < size st)%nat → runs < maximum → runs < r.1) ∧
    match r.2 with
    | Some st' => I st'
    | None => r.1 < maximum → ∀ k, (start + k * chunk < size st)%nat →
        refused st (start + k * chunk) (Nat.min (start + k * chunk + chunk) (size st))
    end).
Proof using Type*.
  intros Hst Hc. revert start runs. induction fuel as [|fuel IH]; intros start runs Hf; cbn [scanChunks].
  { apply sat_ret. simpl. split; [lia |]. split; [lia |]. intros; lia. }
  destruct (start <? size st)%nat eqn:Hs; [apply Nat.ltb_lt in Hs | apply Nat.ltb_ge in Hs]; cbn [andb].
  2: { apply sat_ret. simpl. split; [lia |]. split; [lia |]. intros; nia. }
  destruct (runs <? maximum) eqn:Hr; reflect; [| apply sat_ret; simpl; split; [lia |]; split; intros; lia].
  apply sat_bind. set (end_ := Nat.min (start + chunk) (size st)).
  eapply sat_mono; [apply sat_eq, attempt_keeps; [done | unfold end_; lia] |].
  intros [st'|] [Ha Hi]; cbv zeta; cbn iota.
  { apply sat_ret. simpl. split; [lia |]. split; [lia | done]. }
  eapply sat_mono; [apply IH; lia |]. intros [runs' r] (H1 & _ & H3). cbn [fst snd] in *.
  split; [lia |]. split; [lia |]. destruct r as [st'|]; [done |]. intros Hm [|k] Hk.
  - by rewrite Nat.mul_0_l, Nat.add_0_r.
  - replace (start + S k * chunk)%nat with (start + chunk + k * chunk)%nat in * by lia. by apply H3.
Qed.

(** No single element can be removed. *)
Definition minimal (st : St) : Prop := ∀ i, (i < size st)%nat → refused st i (S i).

Lemma chunk_pos (n g : nat) : (0 < n)%nat → (0 < g)%nat → (0 < (n + g - 1) / g)%nat.
Proof. intros. apply Nat.div_str_pos. lia. Qed.

Lemma chunk_one (n g : nat) : (0 < n ≤ g)%nat → ((n + g - 1) / g = 1)%nat.
Proof. intros. symmetry. apply (Nat.div_unique _ _ _ (n - 1)); lia. Qed.

Lemma reduceLoop_spec fuel st granularity runs :
  I st → (2 ≤ granularity ∨ size st ≤ granularity ∧ 1 ≤ granularity)%nat → (Z.to_nat (maximum - runs) ≤ fuel)%nat →
  sat total (reduceLoop size attempt maximum fuel st granularity runs) (λ r,
    I r.1 ∧ runs ≤ r.2 ≤ Z.max runs maximum ∧ (r.2 < maximum → minimal r.1)).
Proof using Type*.
  revert st granularity runs. induction fuel as [|fuel IH]; intros st granularity runs Hst Hg Hf; cbn [reduceLoop].
  { apply sat_ret. simpl. split; [done |]. split; [lia |]. intros; lia. }
  destruct (0 <? size st)%nat eqn:Hs; [apply Nat.ltb_lt in Hs | apply Nat.ltb_ge in Hs]; cbn [andb].
  2: { apply sat_ret. simpl. split; [done |]. split; [lia |]. intros _ i Hi. lia. }
  destruct (runs <? maximum) eqn:Hr; reflect.
  2: { apply sat_ret. simpl. split; [done |]. split; [lia |]. intros; lia. }
  cbv zeta. apply sat_bind. eapply sat_mono; [apply scanChunks_spec; [done | apply chunk_pos; lia | lia] |].
  intros [runs' [st'|]] (H1 & H2 & H3); cbn [fst snd] in *; specialize (H2 ltac:(lia) ltac:(lia)).
  - eapply sat_mono; [apply IH; [done | lia | lia] |]. intros r (? & ? & ?). split; [done |]. split; [lia | done].
  - destruct (size st <=? granularity)%nat eqn:Hl; [apply Nat.leb_le in Hl | apply Nat.leb_gt in Hl].
    + apply sat_ret. simpl. split; [done |]. split; [lia |]. intros Hm i Hi.
      rewrite chunk_one in H3 by lia. specialize (H3 Hm i). rewrite Nat.mul_1_r in H3. simpl in H3.
      specialize (H3 Hi). by replace (Nat.min (i + 1) (size st)) with (S i) in H3 by lia.
    + eapply sat_mono; [apply IH; [done | lia | lia] |]. intros r (? & ? & ?). split; [done |]. split; [lia | done].
Qed.

Lemma reduce_spec st runs :
  I st →
  sat total (reduce size attempt maximum st runs) (λ r,
    I r.1 ∧ runs ≤ r.2 ≤ Z.max runs maximum ∧ (r.2 < maximum → minimal r.1)).
Proof using Type*. intros. apply reduceLoop_spec; [done | lia | done]. Qed.
End reduction.

(** ** Copies *)

Lemma cloneViolation_id v : cloneViolation v = v.
Proof. by destruct v. Qed.

Lemma cloneRun_id run : cloneRun run = run.
Proof.
  destruct run as [sch sc ad cn rp ds [st n e d err vs]]. unfold cloneRun, cloneOutcome, CloneTape. simpl.
  rewrite cloneScenario_id, cloneTape_id. f_equal; [by destruct cn |]. f_equal.
  induction vs as [|v vs IH]; simpl; [done |]. by rewrite cloneViolation_id, IH.
Qed.

Lemma without_one {A} (l : list A) i : without l i (S i) = delete i l.
Proof. unfold without. by rewrite delete_take_drop. Qed.

Lemma without_sublist {A} (l : list A) i j : (i ≤ j)%nat → without l i j `sublist_of` l.
Proof.
  intros Hij. unfold without. rewrite <- (take_drop i l) at 3. apply sublist_app; [done |].
  replace (drop j l) with (drop (j - i) (drop i l)); [apply sublist_drop |]. rewrite drop_drop. f_equal. lia.
Qed.

(** ** The phases *)

(** The entries that [simplerSelections] reads without a panic: those of valid tapes. *)
Definition simple (e : Entry) : Prop := Options (EnChoice e) ≠ [] ∨ is_Some (Min (EnChoice e)).

Lemma simplerSelections_simple e : simple e → ∃ l, simplerSelections e = Done l.
Proof.
  unfold simple, simplerSelections. intros H. destruct (Options (EnChoice e)) as [|o os]; [| by eexists].
  destruct (Number (EnSelection e)) as [n|]; [| by eexists].
  destruct H as [H | [m ->]]; [done |]. case_if; by eexists.
Qed.

Section phases.
Context (evaluate : Evaluator) (total : bool) (input : Run).

(** What is relied on of an evaluation: its run has the scenario it was given, and a tape
    of entries with a domain. *)
Definition evaluator_ok : Prop :=
  ∀ scenario guide, sat total (evaluate scenario guide) (λ r,
    RunScenario r.1 = scenario ∧ Forall simple (Entries (Decisions r.1))).

Context (Hev : evaluator_ok) (Hinput : Forall simple (Entries (Decisions input))).

(** A run that may be the result. *)
Definition accepted (run : Run) : Prop :=
  run = input ∨ ∃ scenario guide, evaluate scenario guide = mret (run, true).

Record kept (st : Run * Tape) : Prop := {
  kp_accepted : accepted st.1;
  kp_frame : RunScenario st.1 = set_Actions (RunScenario input) (Actions (RunScenario st.1));
  kp_actions : Actions (RunScenario st.1) `sublist_of` Actions (RunScenario input);
  kp_simple : Forall simple (Entries st.2) }.

Lemma kept_start : kept (cloneRun input, CloneTape (Decisions input)).
Proof using Hinput.
  rewrite cloneRun_id. unfold CloneTape. rewrite cloneTape_id. split; simpl; [by left | | done | done].
  by destruct (RunScenario input).
Qed.

Lemma attemptActions_keeps st start end_ :
  kept st → (start < end_ ≤ countActions st)%nat →
  sat total (attemptActions evaluate st start end_) (λ r, match r with Some st' => kept st' | None => True end).
Proof using Hev.
  destruct st as [current guide]. intros [Ha Hf Hs _] Hr. cbn [fst snd] in *. unfold attemptActions. rewrite cloneScenario_id.
  cbv zeta.
  apply sat_bind. eapply sat_mono; [apply sat_eq, Hev |]. intros [candidate [|]] [E [Hsc Hsim]]; apply sat_ret; [| done].
  rewrite cloneRun_id. unfold CloneTape. rewrite cloneTape_id. simpl in *. split; simpl.
  - right. by eexists _, _.
  - rewrite Hsc, Hf. by destruct (RunScenario input).
  - rewrite Hsc. simpl. trans (Actions (RunScenario current)); [apply without_sublist; lia | done].
  - done.
Qed.

(** The guide phases leave the scenario alone. *)
Record guiding (scenario : Scenario) (st : Run * Tape) : Prop := {
  gd_kept : kept st;
  gd_scenario : RunScenario st.1 = scenario }.

Lemma guiding_next current guide candidate guide' scenario g :
  guiding scenario (current, guide) → evaluate scenario g = mret (candidate, true) →
  RunScenario candidate = scenario → Forall simple (Entries guide') →
  guiding scenario (cloneRun candidate, guide').
Proof.
  intros [[Ha Hf Hs Hg] Hsc] E Hc Hg'. rewrite cloneRun_id. simpl in *.
  split; [| done]. split; simpl; [right; by eexists _, _ | by rewrite Hc, <- Hsc | by rewrite Hc, <- Hsc | done].
Qed.

Lemma attemptGuide_keeps scenario st start end_ :
  guiding scenario st → (start < end_ ≤ countGuide st)%nat →
  sat total (attemptGuide evaluate st start end_) (λ r, match r with Some st' => guiding scenario st' | None => True end).
Proof using Hev.
  destruct st as [current guide]. intros Hg Hr. pose proof Hg as [[_ _ _ Hsim] Hsc]. cbn [fst snd] in *.
  unfold attemptGuide, CloneTape. rewrite cloneTape_id, Hsc.
  apply sat_bind. eapply sat_mono; [apply sat_eq, Hev |]. intros [candidate [|]] [E [Hsc' _]]; apply sat_ret; [| done].
  eapply guiding_next; [done | done | done |]. simpl.
  rewrite Forall_forall in Hsim |- *. intros e He. apply Hsim.
  eapply elem_of_sublist; [exact He |]. apply without_sublist. lia.
Qed.

(** ** Shrinking selections *)

(** The guide keeps its length, the choices stay as they are. *)
Record shrinking (scenario : Scenario) (choices : list Choice) (st : Run * Tape) : Prop := {
  sk_guiding : guiding scenario st;
  sk_choices : EnChoice <$> Entries st.2 = choices }.

Lemma alter_choices (f : Entry → Entry) (i : nat) (l : list Entry) :
  (∀ e, EnChoice (f e) = EnChoice e) → EnChoice <$> alter f i l = EnChoice <$> l.
Proof.
  intros Hf. apply list_eq. intros j. rewrite !list_lookup_fmap. destruct (decide (i = j)) as [->|Hne].
  - rewrite list_lookup_alter_eq. destruct (l !! j); simpl; [by rewrite Hf | done].
  - by rewrite list_lookup_alter_ne.
Qed.

Lemma simple_choices (l k : list Entry) : EnChoice <$> l = EnChoice <$> k → Forall simple k → Forall simple l.
Proof.
  intros E H. rewrite Forall_lookup in H |- *. intros i e Hi.
  assert (EnChoice <$> (l !! i) = EnChoice <$> (k !! i)) as Hl by by rewrite <- !list_lookup_fmap, E.
  rewrite Hi in Hl. destruct (k !! i) as [e'|] eqn:Hk; [| done]. simpl in Hl.
  unfold simple. replace (EnChoice e) with (EnChoice e') by congruence. by apply (H i).
Qed.

Lemma trySelections_spec scenario choices maximum st index selections runs :
  shrinking scenario choices st → runs < maximum →
  sat total (trySelections evaluate maximum st index selections runs) (λ r,
    runs ≤ r.1 ≤ maximum ∧ match r.2 with Some st' => shrinking scenario choices st' | None => True end).
Proof using Hev.
  intros Hst. revert runs. induction selections as [|s selections IH]; intros runs Hr; cbn [trySelections].
  { apply sat_ret. simpl. by split; [lia |]. }
  destruct st as [current guide]. pose proof Hst as [Hg Hc]. pose proof Hg as [[_ _ _ Hsim] Hsc]. cbn [fst snd] in *.
  unfold CloneTape. rewrite cloneTape_id, Hsc. set (guide' := set_Entries _ _).
  assert (EnChoice <$> Entries guide' = choices) as Hc' by (unfold guide'; cbn [Entries set_Entries]; by rewrite alter_choices).
  apply sat_bind. eapply sat_mono; [apply sat_eq, Hev |]. intros [candidate [|]] [E [Hsc' _]]; cbv zeta; cbn iota.
  - apply sat_ret. simpl. split; [lia |]. split; [| done].
    eapply guiding_next; [done | done | done |]. eapply simple_choices; [| done]. by rewrite Hc', Hc.
  - destruct (maximum <=? runs + 1) eqn:Hm; reflect; [apply sat_ret; simpl; by split; [lia |] |].
    eapply sat_mono; [apply IH; lia |]. intros r [H1 H2]. split; [lia | done].
Qed.

Lemma shrinkSelections_spec scenario choices maximum st indices shrunk runs :
  shrinking scenario choices st → Forall (λ i, i < length choices)%nat indices →
  sat total (shrinkSelections evaluate maximum st indices shrunk runs) (λ r,
    shrinking scenario choices r.1.1 ∧ runs ≤ r.2 ≤ Z.max runs maximum).
Proof using Hev.
  intros Hst Hi. revert st shrunk runs Hst. induction Hi as [|i indices Hi His IH]; intros st shrunk runs Hst; cbn [shrinkSelections].
  { apply sat_ret. simpl. by split; [| lia]. }
  destruct (maximum <=? runs) eqn:Hm; reflect; [apply sat_ret; simpl; by split; [| lia] |].
  pose proof Hst as [[[_ _ _ Hsim] _] Hc]. rewrite <- Hc, length_fmap in Hi.
  destruct (lookup_lt_is_Some_2 _ _ Hi) as [e He]. rewrite He.
  destruct (simplerSelections_simple e) as [l ->]; [by eapply Forall_lookup_1 |].
  apply sat_bind. eapply sat_mono; [by apply (trySelections_spec scenario choices); [| lia] |].
  intros [runs' [st'|]] [H1 H2]; cbn [fst snd] in *; cbn iota.
  - eapply sat_mono; [by apply IH |]. intros r [H3 H4]. split; [done | lia].
  - eapply sat_mono; [by apply IH |]. intros r [H3 H4]. split; [done | lia].
Qed.
End phases.

(** ** The whole minimization *)

(** No action of the scenario, no entry of the guide can be left out. *)
Definition every_action_needed (evaluate : Evaluator) (scenario : Scenario) (guide : Tape) : Prop :=
  ∀ i, (i < length (Actions scenario))%nat →
    ∃ run, evaluate (set_Actions scenario (delete i (Actions scenario))) guide = mret (run, false).

Definition every_entry_needed (evaluate : Evaluator) (scenario : Scenario) (guide : Tape) : Prop :=
  ∀ i, (i < length (Entries guide))%nat →
    ∃ run, evaluate scenario (set_Entries guide (delete i (Entries guide))) = mret (run, false).

Lemma refused_evaluation {A} (m : M (Run * bool)) (k : Run → A) :
  ('(candidate, matches) ← m; mret (if matches : bool then Some (k candidate) else None)) = mret None →
  ∃ run, m = mret (run, false).
Proof. destruct m as [[[e|[run [|]]]|]|]; try discriminate. intros _. by exists run. Qed.

Lemma minimal_actions evaluate current guide :
  minimal countActions (attemptActions evaluate) (current, guide) →
  every_action_needed evaluate (RunScenario current) guide.
Proof.
  intros H i Hi. specialize (H i Hi). unfold refused, attemptActions in H. rewrite cloneScenario_id in H. cbv zeta in H.
  rewrite without_one in H. apply (refused_evaluation _ (λ c, (cloneRun c, CloneTape (Decisions c)))) in H. done.
Qed.

Lemma minimal_guide evaluate current guide :
  minimal countGuide (attemptGuide evaluate) (current, guide) →
  every_entry_needed evaluate (RunScenario current) guide.
Proof.
  intros H i Hi. specialize (H i Hi). unfold refused, attemptGuide, CloneTape in H. rewrite cloneTape_id in H. cbv zeta in H.
  rewrite without_one in H. apply (refused_evaluation _ (λ c, (cloneRun c, _))) in H. done.
Qed.

(** What the result of [minimize] is. *)
Record minimized (evaluate : Evaluator) (input : Run) (bounds : Bounds) (r : Result) : Prop := {
  mn_accepted : accepted evaluate input (ReRun r);
  mn_frame : RunScenario (ReRun r) = set_Actions (RunScenario input) (Actions (RunScenario (ReRun r)));
  mn_actions : Actions (RunScenario (ReRun r)) `sublist_of` Actions (RunScenario input);
  mn_removed : ActionsRemoved r = zlen (Actions (RunScenario input)) - zlen (Actions (RunScenario (ReRun r)));
  mn_runs : 0 ≤ ReRuns r ≤ Z.max 0 (MaxRuns bounds);
  mn_truncated : Truncated r = (MaxRuns bounds <=? ReRuns r);
  mn_minimal : Truncated r = false → ∃ guide1 guide2,
    every_action_needed evaluate (RunScenario (ReRun r)) guide1 ∧
    every_entry_needed evaluate (RunScenario (ReRun r)) guide2 ∧
    GuidanceEntriesRemoved r = zlen (Entries guide1) - zlen (Entries guide2) }.

Lemma minimize_spec evaluate total input bounds target :
  evaluator_ok evaluate total → Forall simple (Entries (Decisions input)) →
  sat total (minimize evaluate input bounds target) (minimized evaluate input bounds).
Proof.
  intros Hev Hin. unfold minimize. cbv zeta. apply sat_bind.
  eapply sat_mono; [apply (reduce_spec countActions (attemptActions evaluate) _ total (kept evaluate input));
    [by apply attemptActions_keeps | by apply kept_start] |].
  intros [[current guide] runs] (K1 & R1 & M1). cbn [fst snd] in *. apply sat_bind.
  eapply sat_mono; [apply (reduce_spec countGuide (attemptGuide evaluate) _ total (guiding evaluate input (RunScenario current)));
    [by intros; eapply attemptGuide_keeps | by split] |].
  intros [[current2 guide2] runs2] (K2 & R2 & M2). cbn [fst snd] in *. apply sat_bind.
  eapply sat_mono; [apply (shrinkSelections_spec evaluate total input Hev (RunScenario current) (EnChoice <$> Entries guide2)); [by split |] |].
  { apply Forall_forall. intros i Hi%elem_of_seq. rewrite length_fmap. lia. }
  intros [[[current3 guide3] shrunk] runs3] ([[[A3 F3 S3 _] Hsc3] Hc3] & R3). cbn [fst snd] in *. apply sat_ret.
  assert (length (Entries guide3) = length (Entries guide2)) as Hl.
  { apply (f_equal length) in Hc3. by rewrite !length_fmap in Hc3. }
  rewrite cloneRun_id. split; cbn [ReRun ReRuns ActionsRemoved GuidanceEntriesRemoved Truncated]; try done; try lia.
  intros Ht. apply Z.leb_gt in Ht. rewrite Hsc3. exists guide, guide2. split; [apply minimal_actions, M1; lia |].
  split; [| unfold zlen; by rewrite Hl].
  destruct K2 as [_ Hsc2]. cbn [fst] in Hsc2. rewrite <- Hsc2. apply minimal_guide, M2. lia.
Qed.

(** C23.  Minimization ends and its result cannot be reduced: if evaluations return, so does
    [minimize], after at most [MaxRuns] of them; its result is the input or a run whose
    evaluation matched, with the input's scenario less some of its actions; unless it ran
    out of runs, evaluation refused to leave out any single action, under the guide that
    the reduction of actions ended with, and any single entry of the guide that the
    reduction of guides ended with. *)
Theorem minimize_ends_one_minimal evaluate input bounds target :
  evaluator_ok evaluate true → Forall simple (Entries (Decisions input)) →
  ∃ r, minimize evaluate input bounds target = Done (Some (inr r)) ∧ minimized evaluate input bounds r.
Proof. intros Hev Hin. by apply sat_total, minimize_spec. Qed.

(** ** Simpler selections *)

Lemma int64_small z : - (max_i64 + 1) ≤ z ≤ max_i64 → int64 z = z.
Proof. intros. unfold int64. rewrite wrap64_small by (unfold is_u64; lia). lia. Qed.

Lemma optionExists_spec options id : optionExists options id = true ↔ id ∈ OptID <$> options.
Proof.
  induction options as [|o options IH]; simpl; [by rewrite elem_of_nil |].
  rewrite elem_of_cons. destruct (String.eqb_spec (OptID o) id); naive_solver.
Qed.

(** The halving loop climbs strictly to the number below the original. *)
Lemma halving_spec n lo original cursor :
  0 ≤ lo < cursor → cursor < original ≤ max_i64 → original - cursor ≤ 2 ^ Z.of_nat n →
  ∃ l, halving (S n) lo original cursor = cursor :: l ∧ StronglySorted Z.lt (cursor :: l) ∧
    Forall (λ v, cursor ≤ v < original) (cursor :: l) ∧ last (cursor :: l) = Some (original - 1).
Proof.
  revert cursor. induction n as [|n IH]; intros cursor Hlo Ho Hd; cbn [halving].
  all: rewrite (proj2 (Z.ltb_lt lo cursor)), (proj2 (Z.ltb_lt cursor original)) by lia; cbn [andb].
  all: rewrite int64_small by lia.
  - simpl in Hd. rewrite (proj2 (Z.leb_le _ _)) by lia. exists []. split; [done |].
    split; [repeat constructor |]. split; [repeat constructor; lia |]. simpl. f_equal. lia.
  - destruct (original - cursor <=? 1) eqn:H1; reflect.
    { exists []. split; [done |]. split; [repeat constructor |]. split; [repeat constructor; lia |]. simpl. f_equal. lia. }
    rewrite Z.quot_div_nonneg by lia. rewrite Nat2Z.inj_succ, Z.pow_succ_r in Hd by lia.
    pose proof (Z.div_mod (original - cursor) 2 ltac:(lia)) as Hm.
    pose proof (Z.mod_pos_bound (original - cursor) 2 ltac:(lia)) as Hb.
    rewrite int64_small by lia. set (c' := cursor + _) in *.
    destruct (IH c') as (l & E & Hs & Hf & Hl); [unfold c'; lia | unfold c'; lia | unfold c'; lia |].
    cbn [halving] in E. rewrite E. exists (c' :: l). split; [done |].
    assert (Forall (λ v, cursor < v < original) (c' :: l)) as Hf'.
    { eapply Forall_impl; [exact Hf |]. simpl. unfold c'. intros v Hv. lia. }
    split; [| split; [| done]].
    + constructor; [done |]. eapply Forall_impl; [exact Hf' |]. simpl. lia.
    + constructor; [lia |]. eapply Forall_impl; [exact Hf' |]. simpl. lia.
Qed.

Lemma halving_stop n lo original : halving (S n) lo original lo = [].
Proof. cbn [halving]. by rewrite Z.ltb_irrefl. Qed.

(** All the numbers that are tried. *)
Lemma halving_values lo n :
  0 ≤ lo < n → n ≤ max_i64 →
  let vs := lo :: halving 64 lo n (int64 (lo + Z.quot (int64 (n - lo)) 2)) in
  StronglySorted Z.lt vs ∧ Forall (λ v, lo ≤ v < n) vs ∧ last vs = Some (n - 1).
Proof.
  intros Hlo Hn. cbv zeta. rewrite (int64_small (n - lo)), Z.quot_div_nonneg by lia.
  pose proof (Z.div_mod (n - lo) 2 ltac:(lia)) as Hm. pose proof (Z.mod_pos_bound (n - lo) 2 ltac:(lia)) as Hb.
  rewrite int64_small by lia. destruct (decide (n - lo = 1)) as [H1|H1].
  - replace (lo + (n - lo) / 2) with lo by lia. rewrite (halving_stop 63).
    split; [repeat constructor |]. split; [by apply Forall_singleton; lia |]. simpl. f_equal. lia.
  - destruct (halving_spec 63 lo n (lo + (n - lo) / 2)) as (l & -> & Hs' & Hf & Hl); [lia | lia | |].
    { change (2 ^ Z.of_nat 63) with (max_i64 + 1). lia. }
    split; [constructor; [done |]; eapply Forall_impl; [exact Hf |]; simpl; lia |].
    split; [constructor; [lia |]; eapply Forall_impl; [exact Hf |]; simpl; lia |]. exact Hl.
Qed.

(** A selection that the shrinking may try instead of [s]. *)
Definition simpler (c : Choice) (s s' : Selection) : Prop :=
  in_domain c s' ∧ s' ≠ s ∧ (∀ n n', Number s = Some n → Number s' = Some n' → n' < n).

Lemma preferredSelections_spec c s preferred result :
  choice_wf c → Options c ≠ [] →
  Forall (simpler c s) result → NoDup result → Forall (λ r, Number r = None) result →
  Forall (simpler c s) (preferredSelections c s preferred result) ∧ NoDup (preferredSelections c s preferred result).
Proof.
  intros Hc Ho. revert result. induction preferred as [|p preferred IH]; intros result Hr Hn Hnum; cbn [preferredSelections]; [done |].
  cbv zeta. case_if; reflect; [| by apply IH]. destruct Hif as [[Hp He] Hx]. apply optionExists_spec in He.
  assert (p ≠ "") as Hne.
  { destruct Hc as (_ & _ & _ & [(_ & _ & _ & Hf & _) | [? _]]); [| done].
    apply list_elem_of_fmap in He as (o & -> & Hin). rewrite Forall_forall in Hf. by apply (Hf o). }
  apply IH.
  - apply Forall_app. split; [done |]. apply Forall_singleton. split; [by left |]. split; [| done]. intros <-. by apply Hp.
  - apply NoDup_app. split; [done |]. split; [| apply NoDup_singleton].
    intros r Hin ->%list_elem_of_singleton. assert (selectionExists result (mkSelection p None) = true) as E; [| congruence].
    clear -Hin. induction result as [|r result IH]; [by apply elem_of_nil in Hin |]. simpl.
    apply elem_of_cons in Hin as [<- | Hin]; [by rewrite String.eqb_refl |]. case_if; [done | by apply IH].
  - apply Forall_app. split; [done |]. by apply Forall_singleton.
Qed.

(** The candidates of [simplerSelections] for a valid entry are distinct members of
    the domain other than the selection itself; numeric ones start at the minimum, climb
    strictly and end just below the selected number, without overflow and within the 64
    iterations of the loop. *)
Theorem simpler_selections_legal e :
  entry_ok e → (∀ hi, Max (EnChoice e) = Some hi → hi ≤ max_i64) →
  ∃ l, simplerSelections e = Done l ∧ Forall (simpler (EnChoice e) (EnSelection e)) l ∧ NoDup l ∧
    ∀ lo n, Min (EnChoice e) = Some lo → Number (EnSelection e) = Some n → lo < n →
      ∃ vs, l = (λ v, mkSelection "" (Some v)) <$> vs ∧ StronglySorted Z.lt vs ∧
        head vs = Some lo ∧ last vs = Some (n - 1).
Proof.
  intros (Hc & Hd & _) Hmax. unfold simplerSelections. destruct e as [c dd cd s]. cbn [EnChoice EnSelection] in *.
  destruct (Options c) as [|o os] eqn:Ho.
  - destruct Hd as [[? _] | (_ & Hs & lo & hi & n & Hlo & Hhi & Hn & Hr)]; [done |].
    assert (0 ≤ lo) as Hpos.
    { destruct Hc as (_ & _ & _ & [(? & _) | (_ & lo' & hi' & E & _ & ?)]); [done |]. rewrite Hlo in E. injection E as <-. lia. }
    specialize (Hmax hi Hhi). rewrite Hn, Hlo. destruct (n <=? lo) eqn:Hle; reflect.
    { exists []. split; [done |]. split; [constructor |]. split; [constructor |]. intros ? ? [= <-] [= <-]. lia. }
    set (vs := lo :: _). destruct (halving_values lo n) as (H1 & H2 & H3); [lia | lia |]. fold vs in H1, H2, H3.
    exists ((λ v, mkSelection "" (Some v)) <$> vs). split; [done |]. split; [| split].
    + apply Forall_fmap. eapply Forall_impl; [exact H2 |]. intros v Hv. simpl in Hv. unfold compose, simpler. simpl. split.
      * right. split; [done |]. split; [done |]. exists lo, hi, v. split; [done |]. split; [done |]. split; [done | lia].
      * split; [intros <-; simpl in Hn; injection Hn; lia |]. intros n1 n2 E [= <-]. assert (n1 = n) as -> by congruence. lia.
    + apply NoDup_fmap_2; [by intros ? ? [= ->] |]. clear -H1. induction H1 as [|v vs Hs IH Hf]; constructor; [| done].
      rewrite Forall_forall in Hf. intros Hin%Hf. lia.
    + intros lo' n' [= <-] E _. assert (n' = n) as -> by congruence. by exists vs.
  - eexists. split; [done |].
    destruct (preferredSelections_spec c s ["drop"; OptID o] []) as [H1 H2]; [done | by rewrite Ho | constructor | constructor | constructor |].
    split; [done |]. split; [done |]. intros lo n Hlo. destruct Hc as (_ & _ & _ & [(_ & ? & _) | [? _]]); congruence.
Qed.

(** ** Artifacts *)

Section artifact.
Context (Execute : Scenario → Configuration → program (Z + Outcome)) (build : Build) (fuel : nat).

(** The tape of a run is accepted, drives its scenario to an equal outcome and is consumed. *)
Definition reproduces (run : Run) : Prop :=
  ∃ td td' outcome, NewTapeDecider (Decisions run) = Done (inr td) ∧
    execute fuel (Execute (RunScenario run) (RunConfiguration run)) td = Done (Some (td', inr outcome)) ∧
    Finish td' = None ∧ Artifact.OutcomesEqual (RunOutcome run) outcome = true.

Lemma OutcomesEqual_refl o : Artifact.OutcomesEqual o o = true.
Proof.
  unfold Artifact.OutcomesEqual. rewrite !String.eqb_refl, !Z.eqb_refl. cbn [negb orb].
  induction (Violations o) as [|v vs IH]; simpl; [done |]. by rewrite String.eqb_refl.
Qed.

Lemma entry_ok_simple e : entry_ok e → simple e.
Proof. intros ((_ & _ & _ & [(Ho & _) | (_ & lo & _ & Hlo & _)]) & _); [by left | right; by eexists]. Qed.

Lemma entries_simple l : Forall entry_ok l → Forall simple l.
Proof. intros H. eapply Forall_impl; [exact H |]. exact entry_ok_simple. Qed.

(** What a recorded execution leaves is a run that reproduces. *)
Lemma recorded_reproduces {D} `{!Decider D} (d : D) scenario configuration r outcome :
  execute fuel (Execute scenario configuration) (NewRecorder (Some d)) = Done (Some (r, inr outcome)) → Err r = None →
  Forall entry_ok (Entries (RecordedTape r)) ∧
  ∃ td td', NewTapeDecider (RecordedTape r) = Done (inr td) ∧
    execute fuel (Execute scenario configuration) td = Done (Some (td', inr outcome)) ∧ Finish td' = None.
Proof.
  intros E Herr. destruct (recorder_replay fuel _ (Some d) [] r _ E Herr) as (es & He & Hok & Hrun).
  simpl in He. unfold RecordedTape. rewrite cloneTape_id, He. split; [done |].
  unfold NewTapeDecider. destruct (newTapeDecider_spec (mkTape SchemaVersion es) false) as [(_ & _ & ->) | [Hno _]]; [| by destruct Hno].
  eexists _, _. split; [done |]. split; [apply (Hrun _ [] [] false fuel); simpl; by rewrite app_nil_r |].
  unfold Finish. simpl. by rewrite Nat.eqb_refl.
Qed.

(** What is relied on of the evaluations. *)
Record candidate_ok (input : Run) (target : string) (scenario : Scenario) (c : Run) (matches : bool) : Prop := {
  cd_valid : Artifact.Validate c = Done None;
  cd_reproduces : reproduces c;
  cd_scenario : RunScenario c = scenario;
  cd_configuration : RunConfiguration c = RunConfiguration input;
  cd_matches : matches = hasViolation (Violations (RunOutcome c)) target;
  cd_entries : Forall entry_ok (Entries (Decisions c)) }.

Lemma evaluateCandidate_spec input bounds target scenario guide :
  sat false (evaluateCandidate Execute build fuel input bounds target scenario guide) (λ r,
    candidate_ok input target scenario r.1 r.2).
Proof.
  unfold evaluateCandidate. apply sat_bind. destruct (call_go _) as [[[|guided]|]|]; try done. cbn [sat].
  apply sat_bind. unfold runExecute.
  destruct (execute _ _ _) as [[[recorder [err|outcome]]|]|] eqn:E; try done. cbn [sat mret M_ret].
  destruct (Err recorder) as [err|] eqn:Herr; [done |].
  destruct (recorded_reproduces _ _ _ _ _ E Herr) as (Hok & td & td' & H1 & H2 & H3).
  cbv zeta. rewrite cloneScenario_id, cloneRun_id. set (c := mkRun _ _ _ _ _ _ _).
  apply sat_bind. unfold validateRun. destruct (Artifact.Validate c) as [[err|]|] eqn:Hv; try done. simpl. split; [done | | done ..].
  exists td, td', outcome. split; [done |]. split; [done |]. split; [done |]. apply OutcomesEqual_refl.
Qed.

(** C24.  A minimized artifact is a reproduction of the violation: it is a valid artifact,
    replaying its tape on its scenario consumes the tape and gives an equal outcome, which
    has a violation with the target fingerprint; its configuration is that of the input
    and its scenario the input's less some of the actions; and at most [MaxRuns] runs were
    made, the replay of the input included. *)
Theorem minimized_artifact_reproduces input bounds r :
  MinimizeArtifact Execute build fuel input bounds = Done (Some (inr r)) →
  Artifact.Validate (ReRun r) = Done None ∧ reproduces (ReRun r) ∧
  hasViolation (Violations (RunOutcome (ReRun r))) (targetOf input bounds) = true ∧
  RunConfiguration (ReRun r) = RunConfiguration input ∧
  RunScenario (ReRun r) = set_Actions (RunScenario input) (Actions (RunScenario (ReRun r))) ∧
  Actions (RunScenario (ReRun r)) `sublist_of` Actions (RunScenario input) ∧
  1 ≤ ReRuns r ≤ MaxRuns bounds.
Proof.
  intros E. pattern r. refine (sat_value _ _ _ E _). clear E r. unfold MinimizeArtifact, validateRun.
  destruct (Artifact.Validate input) as [[err|]|] eqn:Hv; try done. cbn [mbind M_bind mret M_ret].
  case_if; [done |]. cbv zeta. set (target := targetOf input bounds). case_if; [done |]. case_if; [done |]. reflect.
  unfold call_go, call. destruct (NewTapeDecider (Decisions input)) as [[err|td]|] eqn:Htd; try done. cbn [mbind M_bind mret M_ret].
  unfold runExecute. destruct (execute _ _ td) as [[[td' [err|outcome]]|]|] eqn:Hx; try done. cbn [mbind M_bind mret M_ret].
  case_if; [done |]. reflect.
  assert (reproduces input) as Hin by (by exists td, td', outcome; split_and!; [| | apply dec_stable; tauto | tauto]).
  assert (RunScenario input = set_Actions (RunScenario input) (Actions (RunScenario input))) as Hframe by by destruct (RunScenario input).
  cbn [MaxRuns]; case_if; reflect; [apply sat_ret; cbn [ReRun ReRuns]; rewrite cloneRun_id; split_and!; try done; try tauto; lia |].
  apply sat_bind. eapply sat_mono; [apply (minimize_spec _ false) |].
  - intros scenario guide. eapply sat_mono; [apply evaluateCandidate_spec |]. intros r [_ _ Hs _ _ He].
    split; [done | by apply entries_simple].
  - apply entries_simple. unfold NewTapeDecider in Htd.
    destruct (newTapeDecider_spec (Decisions input) false) as [(_ & ? & _) | [_ Hno]]; [done | congruence].
  - intros r [Ha Hf Hs _ Hr _ _]. cbn [MaxRuns] in Hr. apply sat_ret. cbn [ReRun ReRuns].
    destruct Ha as [-> | (scenario & guide & Hc)]; [split_and!; try done; try tauto; lia |].
    destruct (sat_value _ _ _ Hc (evaluateCandidate_spec _ _ _ _ _)) as [H1 H2 H3 H4 H5 H6]. cbn [fst snd] in *.
    split_and!; try done; lia.
Qed.
End artifact.

(** ** A minimization *)

(** A run that fails when it crashes a node and draws a latency above 12. *)
Definition demo_violation : Violation :=
  mkViolation Check.ElectionSafety 200 ["a"; "b"] (str "{}")
    (match Check.Fingerprint Check.ElectionSafety ["a"; "b"] (str "{}") with inr s => s | inl _ => "" end).

Definition demo_digest : string := Sha256.hex_string (Sha256.Sum256 []).

Definition demo_fails (scenario : Scenario) (latency : option Z) : bool :=
  existsb (λ a, String.eqb (ActKind a) ActionCrash) (Actions scenario) &&
  match latency with Some n => 12 <? n | None => false end.

Definition demo_execute (scenario : Scenario) (configuration : Configuration) : program (Z + Outcome) :=
  Ask demo_latency (λ answer,
    match answer with
    | inl _ => Return (inl 1)
    | inr s =>
      Return (inr (if demo_fails scenario (Number s)
                   then mkOutcome OutcomeViolation 7 200 demo_digest "" [demo_violation]
                   else mkOutcome OutcomeCompleted 9 (DurationNS scenario) demo_digest "" []))
    end).

Definition demo_action (at_ : Z) (kind : string) (node : NodeID) : Action :=
  mkAction at_ kind node [] [] [] [] false false.

Definition demo_input : Run :=
  mkRun RunSchemaVersion
    (mkScenario "crash" "1" 1000 100
       [demo_action 100 ActionHeal ""; demo_action 200 ActionCrash "b"; demo_action 300 ActionRestart "b"])
    (mkAdapter ReferenceAdapterID ReferenceAdapterCurrent)
    (Artifact.ConfigurationFrom (ClusterState.DefaultConfig ["a"; "b"; "c"]))
    (NewReproducibility (mkBuild "rev" false "go1.24") 3)
    (mkTape SchemaVersion [entry_of_choice demo_latency (mkSelection "" (Some 19))])
    (mkOutcome OutcomeViolation 7 200 demo_digest "" [demo_violation]).

Definition demo_bounds : Bounds := mkBounds 20 3 "".
Definition demo_build : Build := mkBuild "rev" false "go1.24".

Definition demo_minimized : M Result := MinimizeArtifact demo_execute demo_build 10 demo_input demo_bounds.

(** One action is left; its guide entry is needed, and a smaller latency is found for it. *)
Example demo_minimized_value :
  match demo_minimized with
  | Done (Some (inr r)) => (map ActKind (Actions (RunScenario (ReRun r))), ReRuns r, SelectionsShrunk r, Truncated r)
  | _ => ([], 0, 0, true)
  end = ([ActionCrash], 8, 1, false).
Proof. vm_compute. reflexivity. Qed.

(** The value of a computation that returned. *)
Definition returns {A} (m : M A) : bool := match m with Done (Some (inr _)) => true | _ => false end.
Definition value_of {A} (d : A) (m : M A) : A := match m with Done (Some (inr a)) => a | _ => d end.
Lemma value_of_eq {A} (d : A) (m : M A) : returns m = true → m = Done (Some (inr (value_of d m))).
Proof. by destruct m as [[[|]|]|]. Qed.

Definition demo_result : Result := value_of (mkResult demo_input 0 0 0 0 true) demo_minimized.

Lemma demo_minimized_eq : demo_minimized = Done (Some (inr demo_result)).
Proof. apply value_of_eq. vm_compute. reflexivity. Qed.

Lemma minimized_artifact_reproduces_witness :
  Artifact.Validate (ReRun demo_result) = Done None ∧ reproduces demo_execute 10 (ReRun demo_result) ∧
  hasViolation (Violations (RunOutcome (ReRun demo_result))) (targetOf demo_input demo_bounds) = true ∧
  1 ≤ ReRuns demo_result ≤ 20.
Proof.
  destruct (minimized_artifact_reproduces demo_execute demo_build 10 demo_input demo_bounds demo_result demo_minimized_eq)
    as (H1 & H2 & H3 & _ & _ & _ & H4).
  split; [exact H1 |]. split; [exact H2 |]. split; [exact H3 | exact H4].
Defined.

(** An evaluator that needs the crash and one entry of the guide. *)
Definition demo_evaluate : Evaluator := λ scenario guide,
  mret (mkRun RunSchemaVersion scenario (RunAdapter demo_input) (RunConfiguration demo_input)
          (RunReproducibility demo_input) demo_tape (RunOutcome demo_input),
        demo_fails scenario (Some 19) && (0 <? zlen (Entries guide))).

Lemma demo_evaluate_ok : evaluator_ok demo_evaluate true.
Proof. intros s g. split; [done |]. apply Forall_cons; split; [by left |]. apply Forall_cons; split; [right; by eexists | constructor]. Qed.

Lemma demo_input_simple : Forall simple (Entries (Decisions demo_input)).
Proof. apply Forall_cons; split; [right; by eexists | constructor]. Qed.

Lemma minimize_ends_one_minimal_witness :
  ∃ r, minimize demo_evaluate demo_input demo_bounds "" = Done (Some (inr r)) ∧
    minimized demo_evaluate demo_input demo_bounds r.
Proof. exact (minimize_ends_one_minimal demo_evaluate demo_input demo_bounds "" demo_evaluate_ok demo_input_simple). Defined.

Definition demo_entry : Entry := entry_of_choice demo_latency (mkSelection "" (Some 19)).

Example demo_simpler : simplerSelections demo_entry = Done (map (λ v, mkSelection "" (Some v)) [10; 14; 16; 17; 18]).
Proof. vm_compute. reflexivity. Qed.

Lemma demo_entry_ok : entry_ok demo_entry.
Proof.
  split; [| split; [| done]].
  - split; [done |]. split; [done |]. split; [right; vm_compute; reflexivity |]. right. split; [done |]. exists 10, 20. by repeat split.
  - right. split; [done |]. split; [done |]. exists 10, 20, 19. by repeat split.
Qed.

Lemma simpler_selections_legal_witness :
  ∃ l, simplerSelections demo_entry = Done l ∧ Forall (simpler demo_latency (mkSelection "" (Some 19))) l ∧ NoDup l.
Proof.
  destruct (simpler_selections_legal demo_entry demo_entry_ok) as (l & H1 & H2 & H3 & _).
  { intros hi [= <-]. lia. }
  exists l. split; [exact H1 |]. split; [exact H2 | exact H3].
Defined.
