(* ===== verification/JsonTree.v ===== *)
(** * JSON values (encoding/json's [Unmarshal])

    The values that Go's decoder builds from a text, as the code that reads fields by name
    uses them: strings are unescaped, surrogate pairs joined, and bytes that are not UTF-8
    replaced by U+FFFD; numbers keep their text.  A [json.RawMessage] is a value of [json]. *)

From S2P Require Export JsonEnc.
From stdpp Require Import options.

#[global] Open Scope Z_scope.

(** ** Runes *)

Definition byte_of (z : Z) : byte := default x00 (Byte.of_N (Z.to_N z)).

(** [utf8.AppendRune] of a rune that is no surrogate. *)
Definition encode_rune (r : Z) : bytes :=
  if r <? 128 then [byte_of r]
  else if r <? 2048 then [byte_of (192 + Z.shiftr r 6); byte_of (128 + Z.land r 63)]
  else if r <? 65536 then
    [byte_of (224 + Z.shiftr r 12); byte_of (128 + Z.land (Z.shiftr r 6) 63); byte_of (128 + Z.land r 63)]
  else
    [byte_of (240 + Z.shiftr r 18); byte_of (128 + Z.land (Z.shiftr r 12) 63);
     byte_of (128 + Z.land (Z.shiftr r 6) 63); byte_of (128 + Z.land r 63)].

Definition replacement_rune : bytes := [xef; xbf; xbd].

Definition hex_value (b : byte) : Z :=
  let c := code b in if c <? 58 then c - 48 else if c <? 71 then c - 55 else c - 87.

Definition hex4 (a b c d : byte) : Z :=
  Z.lor (Z.lor (Z.shiftl (hex_value a) 12) (Z.shiftl (hex_value b) 8)) (Z.lor (Z.shiftl (hex_value c) 4) (hex_value d)).

Definition is_surrogate (r : Z) : bool := (55296 <=? r) && (r <? 57344).

(** [utf16.DecodeRune], [None] when the two do not form a pair. *)
Definition join_surrogates (r1 r2 : Z) : option Z :=
  if (55296 <=? r1) && (r1 <? 56320) && (56320 <=? r2) && (r2 <? 57344)
  then Some (Z.lor (Z.shiftl (r1 - 55296) 10) (r2 - 56320) + 65536) else None.

(** The low surrogate that may follow, with the text after it. *)
Definition low_surrogate (l : bytes) : option (Z * bytes) :=
  match l with
  | s :: u :: a :: b :: c :: d :: rest =>
    if (code s =? 92) && (code u =? 117) && is_hex a && is_hex b && is_hex c && is_hex d
    then Some (hex4 a b c d, rest) else None
  | _ => None
  end.

Definition unescape (e : byte) : byte :=
  match code e with 98 => x08 | 102 => x0c | 110 => x0a | 114 => x0d | 116 => x09 | _ => e end.

(** The value of a string after its opening quote, as [scan_string] reads it, and the rest;
    the fuel is the length of the text. *)
Fixpoint unquote (fuel : nat) (l : bytes) : option (bytes * bytes) :=
  match fuel with
  | O => None
  | S fuel =>
    match l with
    | [] => None
    | b :: l' =>
      let c := code b in
      if c =? 34 then Some ([], l')
      else if c <? 32 then None
      else if c =? 92 then
        match l' with
        | e :: l'' =>
          match code e with
          | 34 | 92 | 47 | 98 | 102 | 110 | 114 | 116 =>
            '(s, rest) ← unquote fuel l''; Some (unescape e :: s, rest)
          | 117 =>
            match l'' with
            | h1 :: h2 :: h3 :: h4 :: after =>
              if is_hex h1 && is_hex h2 && is_hex h3 && is_hex h4 then
                let r := hex4 h1 h2 h3 h4 in
                if is_surrogate r then
                  match low_surrogate after with
                  | Some (r2, after2) =>
                    match join_surrogates r r2 with
                    | Some joined => '(s, rest) ← unquote fuel after2; Some (encode_rune joined ++ s, rest)
                    | None => '(s, rest) ← unquote fuel after; Some (replacement_rune ++ s, rest)
                    end
                  | None => '(s, rest) ← unquote fuel after; Some (replacement_rune ++ s, rest)
                  end
                else '(s, rest) ← unquote fuel after; Some (encode_rune r ++ s, rest)
              else None
            | _ => None
            end
          | _ => None
          end
        | [] => None
        end
      else
        match rune_size l with
        | O => '(s, rest) ← unquote fuel l'; Some (replacement_rune ++ s, rest)
        | n => '(s, rest) ← unquote fuel (drop n l); Some (take n l ++ s, rest)
        end
    end
  end.

Definition read_string (l : bytes) : option (bytes * bytes) := unquote (S (length l)) l.

(** ** Values *)

Inductive json :=
| JNull
| JBool (b : bool)
| JNumber (text : bytes)
| JString (s : bytes)
| JArray (l : list json)
| JObject (fields : list (bytes * json)).

(** What a scanner consumed. *)
Definition consumed (l rest : bytes) : bytes := take (length l - length rest) l.

Definition cons_fst {A B} (x : A) (p : list A * B) : list A * B := (x :: p.1, p.2).

(** The value at the head of a text and the rest; the shape is that of [scan_value]. *)
Fixpoint parse_value (fuel : nat) (depth : nat) (l : bytes) : option (json * bytes) :=
  match fuel with
  | O => None
  | S fuel =>
    match skip_space l with
    | [] => None
    | b :: l' =>
      match code b with
      | 123 => match depth with O => None | S depth =>
                 match skip_space l' with
                 | c :: rest => if code c =? 125 then Some (JObject [], rest)
                                else prod_map JObject id <$> parse_members fuel depth (c :: rest)
                 | [] => None
                 end end
      | 91 => match depth with O => None | S depth =>
                match skip_space l' with
                | c :: rest => if code c =? 93 then Some (JArray [], rest)
                               else prod_map JArray id <$> parse_elements fuel depth (c :: rest)
                | [] => None
                end end
      | 34 => prod_map JString id <$> read_string l'
      | 45 => (λ rest, (JNumber (b :: consumed l' rest), rest)) <$> scan_number l'
      | 116 => pair (JBool true) <$> scan_literal [x72; x75; x65] l'
      | 102 => pair (JBool false) <$> scan_literal [x61; x6c; x73; x65] l'
      | 110 => pair JNull <$> scan_literal [x75; x6c; x6c] l'
      | _ => if is_digit b then (λ rest, (JNumber (consumed (b :: l') rest), rest)) <$> scan_number (b :: l') else None
      end
    end
  end
with parse_members (fuel : nat) (depth : nat) (l : bytes) : option (list (bytes * json) * bytes) :=
  match fuel with
  | O => None
  | S fuel =>
    match skip_space l with
    | q :: l' =>
      if code q =? 34 then
        '(name, rest) ← read_string l';
        match skip_space rest with
        | colon :: rest =>
          if code colon =? 58 then
            '(v, rest) ← parse_value fuel depth rest;
            match skip_space rest with
            | c :: rest =>
              if code c =? 44 then cons_fst (name, v) <$> parse_members fuel depth rest
              else if code c =? 125 then Some ([(name, v)], rest) else None
            | [] => None
            end
          else None
        | [] => None
        end
      else None
    | [] => None
    end
  end
with parse_elements (fuel : nat) (depth : nat) (l : bytes) : option (list json * bytes) :=
  match fuel with
  | O => None
  | S fuel =>
    '(v, rest) ← parse_value fuel depth l;
    match skip_space rest with
    | c :: rest =>
      if code c =? 44 then cons_fst v <$> parse_elements fuel depth rest
      else if code c =? 93 then Some ([v], rest) else None
    | [] => None
    end
  end.

(** The whole text is one value. *)
Definition parse_json (l : bytes) : option json :=
  match parse_value (2 * length l + 1) (Z.to_nat 10000) l with
  | Some (v, rest) => if bool_decide (skip_space rest = []) then Some v else None
  | None => None
  end.

(** Strings of bytes. *)
Definition unstr (l : bytes) : string := String.string_of_list_byte l.

(** ** What a value consumes *)

Lemma skip_space_length l : (length (skip_space l) ≤ length l)%nat.
Proof. induction l as [|b l IH]; simpl; [lia |]. destruct (is_space b); simpl; lia. Qed.

Lemma skip_digits_length l : (length (skip_digits l) ≤ length l)%nat.
Proof. induction l as [|b l IH]; simpl; [lia |]. destruct (is_digit b); simpl; lia. Qed.

Lemma one_digit_length l rest : one_digit l = Some rest → (length rest < length l)%nat.
Proof.
  destruct l as [|b l]; simpl; [done |]. destruct (is_digit b); [| done]. intros [= <-].
  pose proof (skip_digits_length l). lia.
Qed.

Lemma scan_fraction_length l rest : scan_fraction l = Some rest → (length rest ≤ length l)%nat.
Proof.
  destruct l as [|b l]; simpl; [by intros [= <-] |]. case_if; [| by intros [= <-]].
  intros H%one_digit_length. lia.
Qed.

Lemma scan_exponent_length l rest : scan_exponent l = Some rest → (length rest ≤ length l)%nat.
Proof.
  destruct l as [|b [|s l]]; cbn [scan_exponent]; [by intros [= <-] | by case_if; [| intros [= <-]] |].
  case_if; [| by intros [= <-]]. case_if; intros H%one_digit_length; simpl in *; lia.
Qed.

Lemma scan_number_length l rest : scan_number l = Some rest → (length rest < length l)%nat.
Proof.
  unfold scan_number. destruct l as [|b l]; [done |].
  assert (∀ r, (if code b =? 48 then Some l else one_digit (b :: l)) = Some r → (length r < length (b :: l))%nat) as H.
  { intros r. case_if; [intros [= <-]; simpl; lia | apply one_digit_length]. }
  destruct (if code b =? 48 then Some l else one_digit (b :: l)) as [r|]; [| done]. specialize (H r eq_refl). cbn.
  destruct (scan_fraction r) as [r1|] eqn:H1; [| done]. apply scan_fraction_length in H1. cbn.
  intros H2%scan_exponent_length. simpl in *. lia.
Qed.

Lemma scan_literal_length w l rest : scan_literal w l = Some rest → (length rest ≤ length l)%nat.
Proof. unfold scan_literal. case_if; [| done]. intros [= <-]. rewrite length_drop. lia. Qed.

Lemma low_surrogate_length l r rest : low_surrogate l = Some (r, rest) → (length rest < length l)%nat.
Proof.
  destruct l as [|s [|u [|a [|b [|c [|d l]]]]]]; simpl; try done. case_if; [| done]. intros [= _ <-]. lia.
Qed.

Lemma unquote_length fuel l s rest : unquote fuel l = Some (s, rest) → (length rest < length l)%nat.
Proof.
  revert l s. induction fuel as [|fuel IH]; intros l s; cbn [unquote]; [done |].
  assert (∀ k f, (unquote fuel k ≫= λ '(s, rest), Some (f s, rest)) = Some (s, rest) → (length rest < length k)%nat) as Hk.
  { intros k f. destruct (unquote fuel k) as [[s' r]|] eqn:E; [| done]. cbn. intros [= _ <-]. by eapply IH. }
  destruct l as [|b l]; [done |]. cbv zeta. cbn [length].
  destruct (code b =? 34); [intros [= _ <-]; lia |]. destruct (code b <? 32); [done |].
  destruct (code b =? 92).
  - destruct l as [|e l]; [done |]. cbn [length].
    repeat match goal with |- match ?z with _ => _ end = _ → _ => is_var z; destruct z | |- match code ?e with _ => _ end = _ → _ => destruct (code e) end.
    all: first [done | intros H; specialize (Hk _ _ H); simpl in *; lia | idtac].
    all: case_if; [| done]; case_if; [| intros H; specialize (Hk _ _ H); simpl in *; lia].
    all: destruct (low_surrogate _) as [[r2 after2]|] eqn:El; [| intros H; specialize (Hk _ _ H); simpl in *; lia].
    all: apply low_surrogate_length in El; destruct (join_surrogates _ _); intros H; specialize (Hk _ _ H); simpl in *; lia.
  - destruct (rune_size (b :: l)) as [|n]; intros H; specialize (Hk _ _ H); [lia |].
    rewrite length_drop in Hk. simpl in Hk. lia.
Qed.

Lemma read_string_length l s rest : read_string l = Some (s, rest) → (length rest < length l)%nat.
Proof. apply unquote_length. Qed.

(** ** Strings: [unquote] reads what [scan_string] accepts *)

Lemma snd_bind {A} (o : option (bytes * A)) (f : bytes → bytes) :
  snd <$> (o ≫= λ '(s, rest), Some (f s, rest)) = snd <$> o.
Proof. by destruct o as [[s r]|]. Qed.

(** A byte of a longer rune is no syntax. *)
Lemma scan_string_high b l : 128 ≤ code b → scan_string (b :: l) = scan_string l.
Proof.
  intros H. cbn [scan_string]. cbv zeta.
  by rewrite (proj2 (Z.eqb_neq _ _)), (proj2 (Z.ltb_ge _ _)), (proj2 (Z.eqb_neq _ _)) by lia.
Qed.

Lemma scan_string_rune l n : rune_size l = S n → ¬ code (hd x00 l) < 128 → scan_string l = scan_string (drop (S n) l).
Proof.
  unfold rune_size. destruct l as [|b l]; [done |]. cbn [hd]. intros H Hb.
  rewrite (proj2 (Z.ltb_ge _ _)) in H by lia. rewrite scan_string_high by lia.
  assert (∀ lo hi x, cont lo hi x = true → 128 ≤ lo → 128 ≤ code x) as Hc by (unfold cont; intros lo hi x Hx ?; reflect; lia).
  destruct (code b <? 194); [done |]. destruct (code b <? 224).
  { destruct l as [|b1 l]; [done |]. destruct (cont 128 191 b1) eqn:H1; [| done]. injection H as <-.
    apply Hc in H1; [| lia]. cbn [drop]. by rewrite scan_string_high. }
  destruct (code b <? 240).
  { cbv zeta in H. destruct l as [|b1 [|b2 l]]; try done. case_if_in H; [| done]. injection H as <-.
    apply andb_true_iff in Hif as [H1 H2]. apply Hc in H1; [| by case_if; lia]. apply Hc in H2; [| lia].
    cbn [drop]. by rewrite !scan_string_high. }
  destruct (code b <? 245); [| done].
  cbv zeta in H. destruct l as [|b1 [|b2 [|b3 l]]]; try done. case_if_in H; [| done]. injection H as <-.
  rewrite !andb_true_iff in Hif. destruct Hif as [[H1 H2] H3].
  apply Hc in H1; [| by case_if; lia]. apply Hc in H2; [| lia]. apply Hc in H3; [| lia].
  cbn [drop]. by rewrite !scan_string_high.
Qed.

Lemma low_surrogate_scan l r rest : low_surrogate l = Some (r, rest) → scan_string l = scan_string rest.
Proof.
  destruct l as [|s [|u [|a [|b [|c [|d l]]]]]]; try done. cbn [low_surrogate]. case_if; [| done]. intros [= _ <-].
  rewrite !andb_true_iff, !Z.eqb_eq in Hif. destruct Hif as [[[[[Hs Hu] Ha] Hb] Hc] Hd].
  cbn [scan_string]. cbv zeta. rewrite Hs, Hu, Ha, Hb, Hc, Hd. done.
Qed.

Lemma unquote_scan fuel l : (length l < fuel)%nat → snd <$> unquote fuel l = scan_string l.
Proof.
  revert l. induction fuel as [|fuel IH]; intros l Hf; [lia |]. destruct l as [|b l]; [done |]. cbn [length] in Hf.
  destruct (decide (code b < 128)) as [Hb|Hb].
  - assert (rune_size (b :: l) = 1%nat) as Hr by (simpl; by rewrite (proj2 (Z.ltb_lt _ _)) by lia).
    cbn [unquote scan_string]. rewrite Hr. cbv zeta.
    destruct (code b =? 34); [done |]. destruct (code b <? 32); [done |]. destruct (code b =? 92).
    2: { cbn [drop]. rewrite snd_bind. apply IH. lia. }
    destruct l as [|e l]; [done |]. cbn [length] in Hf.
    repeat match goal with |- context [match code ?e with _ => _ end] => destruct (code e) | |- context [match ?z with _ => _ end] => is_var z; destruct z end.
    all: first [done | rewrite snd_bind; apply IH; simpl in *; lia | idtac].
    all: case_if; [| done]; case_if; [| rewrite snd_bind; apply IH; simpl in *; lia].
    all: destruct (low_surrogate _) as [[r2 after2]|] eqn:El; [| rewrite snd_bind; apply IH; simpl in *; lia].
    all: destruct (join_surrogates _ _); rewrite snd_bind; [rewrite (low_surrogate_scan _ _ _ El) |]; apply IH.
    all: try apply low_surrogate_length in El; simpl in *; lia.
  - cbn [unquote]. cbv zeta. rewrite (proj2 (Z.eqb_neq _ _)), (proj2 (Z.ltb_ge _ _)), (proj2 (Z.eqb_neq _ _)) by lia.
    destruct (rune_size (b :: l)) as [|n] eqn:Hr; rewrite snd_bind.
    + rewrite IH by lia. symmetry. apply scan_string_high. lia.
    + rewrite (scan_string_rune _ n) by done. apply IH. rewrite length_drop. simpl. lia.
Qed.

Lemma read_string_scan l : snd <$> read_string l = scan_string l.
Proof. apply unquote_scan. lia. Qed.

(** ** Values: the parser reads what the scanner accepts *)

Record parse_scans (fuel : nat) : Prop := {
  ps_value : ∀ depth l, snd <$> parse_value fuel depth l = scan_value fuel depth l;
  ps_members : ∀ depth l, snd <$> parse_members fuel depth l = scan_members fuel depth l;
  ps_elements : ∀ depth l, snd <$> parse_elements fuel depth l = scan_elements fuel depth l }.

Lemma snd_map {A B} (f : A → B) (o : option (A * bytes)) : snd <$> (prod_map f id <$> o) = snd <$> o.
Proof. by destruct o as [[a r]|]. Qed.
Lemma snd_cons {A} (x : A) (o : option (list A * bytes)) : snd <$> (cons_fst x <$> o) = snd <$> o.
Proof. by destruct o as [[a r]|]. Qed.
Lemma snd_pair {A} (f : bytes → A) (o : option bytes) : snd <$> ((λ rest, (f rest, rest)) <$> o) = o.
Proof. by destruct o. Qed.

Lemma parse_scans_all fuel : parse_scans fuel.
Proof.
  induction fuel as [|fuel [Hv Hm He]]; [done |]. split; intros depth l.
  - cbn [parse_value scan_value]. destruct (skip_space l) as [|b l']; [done |].
    assert (snd <$> (if is_digit b then (λ rest, (JNumber (consumed (b :: l') rest), rest)) <$> scan_number (b :: l') else None) =
      (if is_digit b then scan_number (b :: l') else None)) as Hd by (case_if; [apply snd_pair | done]).
    repeat match goal with |- context [match code ?e with _ => _ end] => destruct (code e) | |- context [match ?z with _ => _ end] => is_var z; lazymatch type of z with positive => destruct z end end.
    all: first [exact Hd | by rewrite snd_map, read_string_scan | apply (snd_pair (λ rest, _)) | idtac].
    all: destruct depth as [|depth]; [done |]; destruct (skip_space l') as [|c rest]; [done |]; case_if; [done |].
    all: rewrite snd_map; first [apply Hm | apply He].
  - cbn [parse_members scan_members]. destruct (skip_space l) as [|q l']; [done |]. case_if; [| done].
    rewrite <- read_string_scan. destruct (read_string l') as [[name rest]|]; [| done]. cbn [mbind option_bind fmap option_fmap option_map snd].
    destruct (skip_space rest) as [|colon rest2]; [done |]. case_if; [| done].
    rewrite <- Hv. destruct (parse_value _ _ _) as [[v rest3]|]; [| done]. cbn [mbind option_bind fmap option_fmap option_map snd].
    destruct (skip_space rest3) as [|c rest4]; [done |]. case_if; [by rewrite <- Hm; apply snd_cons |]. by case_if.
  - cbn [parse_elements scan_elements]. rewrite <- Hv.
    destruct (parse_value _ _ _) as [[v rest3]|]; [| done]. cbn [mbind option_bind fmap option_fmap option_map snd].
    destruct (skip_space rest3) as [|c rest4]; [done |]. case_if; [by rewrite <- He; apply snd_cons |]. by case_if.
Qed.

(** [Valid] accepts exactly the texts that [Unmarshal] can read. *)
Lemma parse_json_valid l : is_Some (parse_json l) ↔ json_valid l = true.
Proof.
  unfold parse_json, json_valid. rewrite <- (ps_value _ (parse_scans_all _)).
  destruct (parse_value _ _ _) as [[v rest]|]; cbn; [| split; [by intros [? ?] | done]].
  destruct (bool_decide _); split; [done | by eexists | by intros [? ?] | done].
Qed.

(** ** The fuel is enough *)

Record parse_shrinks (fuel : nat) : Prop := {
  sh_value : ∀ depth l v rest, parse_value fuel depth l = Some (v, rest) → (length rest < length l)%nat;
  sh_members : ∀ depth l v rest, parse_members fuel depth l = Some (v, rest) → (length rest < length l)%nat;
  sh_elements : ∀ depth l v rest, parse_elements fuel depth l = Some (v, rest) → (length rest < length l)%nat }.

(** A step of the parser: what was read is shorter than the text before the spaces. *)
Ltac shrink :=
  repeat match goal with
  | H : skip_space ?l = _ |- _ => pose proof (skip_space_length l); rewrite H in *; clear H
  end; simpl in *; lia.

Lemma parse_shrinks_all fuel : parse_shrinks fuel.
Proof.
  induction fuel as [|fuel [Hv Hm He]]; [split; done |]. split; intros depth l v rest.
  - cbn [parse_value]. destruct (skip_space l) as [|b l'] eqn:Hl; [done |].
    assert ((if is_digit b then (λ rest, (JNumber (consumed (b :: l') rest), rest)) <$> scan_number (b :: l') else None) = Some (v, rest) →
      (length rest < length l)%nat) as Hd.
    { case_if; [| done]. intros (r & H%scan_number_length & [= _ ->])%fmap_Some. shrink. }
    assert (∀ w (x : json), pair x <$> scan_literal w l' = Some (v, rest) → (length rest < length l)%nat) as Hlit.
    { intros w x (r & H%scan_literal_length & [= _ ->])%fmap_Some. shrink. }
    repeat match goal with |- match code ?e with _ => _ end = _ → _ => destruct (code e) | |- match ?z with _ => _ end = _ → _ => is_var z; lazymatch type of z with positive => destruct z end end.
    all: first [exact Hd | exact (Hlit _ _) | idtac].
    all: try (intros ([s r] & H%read_string_length & [= _ ->])%fmap_Some; shrink).
    all: try (intros (r & H%scan_number_length & [= _ ->])%fmap_Some; shrink).
    all: destruct depth as [|depth]; [done |]; destruct (skip_space l') as [|c rest'] eqn:Hl'; [done |]; case_if; [intros [= _ <-]; shrink |].
    all: intros ([k r] & H & [= _ ->])%fmap_Some; first [apply Hm in H | apply He in H]; shrink.
  - cbn [parse_members]. destruct (skip_space l) as [|q l'] eqn:Hl; [done |]. case_if; [| done].
    destruct (read_string l') as [[name r1]|] eqn:H1; [| done]. apply read_string_length in H1. cbn [mbind option_bind].
    destruct (skip_space r1) as [|colon r2] eqn:Hr1; [done |]. case_if; [| done].
    destruct (parse_value _ _ _) as [[w r3]|] eqn:H2; [| done]. apply Hv in H2. cbn [mbind option_bind].
    destruct (skip_space r3) as [|c r4] eqn:Hr3; [done |]. case_if; [| case_if; [intros [= _ <-]; shrink | done]].
    intros ([k r] & H & [= _ ->])%fmap_Some. apply Hm in H. shrink.
  - cbn [parse_elements]. destruct (parse_value _ _ _) as [[w r3]|] eqn:H2; [| done]. apply Hv in H2. cbn [mbind option_bind].
    destruct (skip_space r3) as [|c r4] eqn:Hr3; [done |]. case_if; [| case_if; [intros [= _ <-]; shrink | done]].
    intros ([k r] & H & [= _ ->])%fmap_Some. apply He in H. shrink.
Qed.

(** What is read with any fuel is read with twice the length of the text. *)
Record parse_enough (fuel : nat) : Prop := {
  en_value : ∀ depth l x fuel', parse_value fuel depth l = Some x → (2 * length l < fuel')%nat →
    parse_value fuel' depth l = Some x;
  en_members : ∀ depth l x fuel', parse_members fuel depth l = Some x → (2 * length l < fuel')%nat →
    parse_members fuel' depth l = Some x;
  en_elements : ∀ depth l x fuel', parse_elements fuel depth l = Some x → (2 * length l + 1 < fuel')%nat →
    parse_elements fuel' depth l = Some x }.

Lemma parse_enough_all fuel : parse_enough fuel.
Proof.
  induction fuel as [|fuel [Hv Hm He]]; [split; done |].
  split; intros depth l x [|fuel'] Hx Hf; try lia; revert Hx.
  - cbn [parse_value]. destruct (skip_space l) as [|b l'] eqn:Hl; [done |].
    destruct (code b) as [|c|c]; try done.
    repeat (destruct c as [c|c|]; try done).
    all: destruct depth as [|depth]; [done |]; destruct (skip_space l') as [|c rest] eqn:Hl'; [done |]; case_if; [done |].
    all: intros (y & H & ->)%fmap_Some; first [erewrite Hm by (exact H || shrink) | erewrite He by (exact H || shrink)]; done.
  - cbn [parse_members]. destruct (skip_space l) as [|q l'] eqn:Hl; [done |]. case_if; [| done].
    destruct (read_string l') as [[name r1]|] eqn:H1; [| done]. apply read_string_length in H1. cbn [mbind option_bind].
    destruct (skip_space r1) as [|colon r2] eqn:Hr1; [done |]. case_if; [| done].
    destruct (parse_value fuel depth r2) as [[w r3]|] eqn:H2; [| done]. rewrite (Hv _ _ _ _ H2) by shrink.
    apply (sh_value _ (parse_shrinks_all _)) in H2. cbn [mbind option_bind].
    destruct (skip_space r3) as [|c r4] eqn:Hr3; [done |]. case_if; [| done].
    intros (y & H & ->)%fmap_Some. by erewrite Hm by (exact H || shrink).
  - cbn [parse_elements]. destruct (parse_value fuel depth l) as [[w r3]|] eqn:H2; [| done]. rewrite (Hv _ _ _ _ H2) by shrink.
    apply (sh_value _ (parse_shrinks_all _)) in H2. cbn [mbind option_bind].
    destruct (skip_space r3) as [|c r4] eqn:Hr3; [done |]. case_if; [| done].
    intros (y & H & ->)%fmap_Some. by erewrite He by (exact H || shrink).
Qed.

Example parse_example :
  parse_json (str "{ " ++ [quote] ++ str "a\u00e9\ud83d\ude00\ud83d" ++ [quote] ++ str " : [true, -1.5e3, " ++ [quote; xff; quote] ++ str ", null] }") =
  Some (JObject [(str "a" ++ [xc3; xa9; xf0; x9f; x98; x80; xef; xbf; xbd],
                  JArray [JBool true; JNumber (str "-1.5e3"); JString replacement_rune; JNull])]).
Proof. vm_compute. reflexivity. Qed.
