(* ===== verification/StrictJson.v ===== *)
(** * Duplicate names in JSON documents (internal/strictjson/strictjson.go)

    The walk of the first value of a document that rejects a name repeated in one object.
    The walk asks the Standard Library's decoder for tokens; the grammar those tokens
    follow is that of [Json.scan_value], on which the walk is written.  The theorem says
    that a document is accepted exactly when its first value parses, to a value without
    repeated names. *)

From S2P Require Export JsonTree.
From stdpp Require Import options.

#[global] Open Scope Z_scope.

Definition maxNestingDepth : Z := 10000.

Inductive StrictError := ErrDuplicateName | ErrNestingTooDeep | ErrSyntax.

#[export] Instance StrictError_eq_dec : EqDecision StrictError.
Proof. solve_decision. Defined.

(** ** The lexical depth *)

(** The loop of [exceedsNestingDepth]. *)
Fixpoint exceedsLoop (depth : Z) (inString escaped : bool) (document : bytes) : bool :=
  match document with
  | [] => false
  | value :: document =>
    if inString then
      if escaped then exceedsLoop depth inString false document
      else match code value with
      | 92 => exceedsLoop depth inString true document
      | 34 => exceedsLoop depth false escaped document
      | _ => exceedsLoop depth inString escaped document
      end
    else match code value with
    | 34 => exceedsLoop depth true escaped document
    | 91 | 123 => if maxNestingDepth <? depth + 1 then true else exceedsLoop (depth + 1) inString escaped document
    | 93 | 125 => exceedsLoop (if 0 <? depth then depth - 1 else depth) inString escaped document
    | _ => exceedsLoop depth inString escaped document
    end
  end.

Definition exceedsNestingDepth (document : bytes) : bool := exceedsLoop 0 false false document.

(** ** The walk *)

Definition syntax {A} (o : option A) : StrictError + A :=
  match o with Some a => inr a | None => inl ErrSyntax end.

(** [depth] is the nesting of the value; the fuel bounds the tokens. *)
Fixpoint scanValue (fuel : nat) (depth : Z) (l : bytes) : StrictError + bytes :=
  match fuel with
  | O => inl ErrSyntax
  | S fuel =>
    match skip_space l with
    | [] => inl ErrSyntax
    | b :: l' =>
      match code b with
      | 123 =>
        if maxNestingDepth <=? depth then inl ErrNestingTooDeep
        else match skip_space l' with
        | c :: rest => if code c =? 125 then inr rest else scanMembers fuel depth ∅ (c :: rest)
        | [] => inl ErrSyntax
        end
      | 91 =>
        if maxNestingDepth <=? depth then inl ErrNestingTooDeep
        else match skip_space l' with
        | c :: rest => if code c =? 93 then inr rest else scanElements fuel depth (c :: rest)
        | [] => inl ErrSyntax
        end
      | 34 => syntax (snd <$> read_string l')
      | 45 => syntax (scan_number l')
      | 116 => syntax (scan_literal [x72; x75; x65] l')
      | 102 => syntax (scan_literal [x61; x6c; x73; x65] l')
      | 110 => syntax (scan_literal [x75; x6c; x6c] l')
      | _ => if is_digit b then syntax (scan_number (b :: l')) else inl ErrSyntax
      end
    end
  end
with scanMembers (fuel : nat) (depth : Z) (names : gset bytes) (l : bytes) : StrictError + bytes :=
  match fuel with
  | O => inl ErrSyntax
  | S fuel =>
    match skip_space l with
    | q :: l' =>
      if code q =? 34 then
        match read_string l' with
        | None => inl ErrSyntax
        | Some (name, rest) =>
          if bool_decide (name ∈ names) then inl ErrDuplicateName
          else match skip_space rest with
          | colon :: rest =>
            if code colon =? 58 then
              match scanValue fuel (depth + 1) rest with
              | inl err => inl err
              | inr rest =>
                match skip_space rest with
                | c :: rest =>
                  if code c =? 44 then scanMembers fuel depth ({[name]} ∪ names) rest
                  else if code c =? 125 then inr rest else inl ErrSyntax
                | [] => inl ErrSyntax
                end
              end
            else inl ErrSyntax
          | [] => inl ErrSyntax
          end
        end
      else inl ErrSyntax
    | [] => inl ErrSyntax
    end
  end
with scanElements (fuel : nat) (depth : Z) (l : bytes) : StrictError + bytes :=
  match fuel with
  | O => inl ErrSyntax
  | S fuel =>
    match scanValue fuel (depth + 1) l with
    | inl err => inl err
    | inr rest =>
      match skip_space rest with
      | c :: rest =>
        if code c =? 44 then scanElements fuel depth rest
        else if code c =? 93 then inr rest else inl ErrSyntax
      | [] => inl ErrSyntax
      end
    end
  end.

Definition RejectDuplicateNames (document : bytes) : option StrictError :=
  match scanValue (2 * length document + 1) 0 document with
  | inr _ => None
  | inl ErrDuplicateName => Some ErrDuplicateName
  | inl err => if exceedsNestingDepth document then Some ErrNestingTooDeep else Some err
  end.

(** ** What is accepted *)

(** No object of a value repeats a name. *)
Fixpoint unique_names (v : json) : Prop :=
  match v with
  | JArray l => (fix all (l : list json) := match l with [] => True | v :: l => unique_names v ∧ all l end) l
  | JObject l =>
    NoDup l.*1 ∧ (fix all (l : list (bytes * json)) := match l with [] => True | (_, v) :: l => unique_names v ∧ all l end) l
  | _ => True
  end.

Definition elements_unique (l : list json) : Prop := Forall unique_names l.
Definition members_unique (names : gset bytes) (l : list (bytes * json)) : Prop :=
  NoDup l.*1 ∧ Forall (λ n, n ∉ names) l.*1 ∧ Forall unique_names l.*2.

Lemma unique_array l : unique_names (JArray l) ↔ elements_unique l.
Proof.
  unfold elements_unique. simpl. induction l as [|v l IH]; [by rewrite Forall_nil |]. by rewrite Forall_cons, IH.
Qed.

Lemma unique_object l : unique_names (JObject l) ↔ members_unique ∅ l.
Proof.
  unfold members_unique. simpl.
  assert ((fix all (l : list (bytes * json)) := match l with [] => True | (_, v) :: l => unique_names v ∧ all l end) l ↔
    Forall unique_names l.*2) as H.
  { induction l as [|[n v] l IH]; simpl; [by rewrite Forall_nil |]. by rewrite Forall_cons, IH. }
  rewrite H. split; [intros [H1 H2]; split; [done |]; split; [| done] | by intros (? & _ & ?)].
  apply Forall_true. intros n. set_solver.
Qed.

Lemma members_unique_cons names n v l :
  members_unique names ((n, v) :: l) ↔ n ∉ names ∧ unique_names v ∧ members_unique ({[n]} ∪ names) l.
Proof.
  unfold members_unique. cbn [fmap list_fmap fst snd]. rewrite NoDup_cons, !Forall_cons, !Forall_forall. set_solver.
Qed.

(** A scan succeeds exactly where the parser does, with the same rest, on unique names. *)
Definition agrees {A} (s : StrictError + bytes) (p : option (A * bytes)) (ok : A → Prop) : Prop :=
  ∀ rest, s = inr rest ↔ ∃ v, p = Some (v, rest) ∧ ok v.

Lemma agrees_error {A} e (ok : A → Prop) : agrees (inl e) None ok.
Proof. intros rest. split; [done | intros (? & ? & _); done]. Qed.

Lemma agrees_value {A} (v : A) rest (ok : A → Prop) : ok v → agrees (inr rest) (Some (v, rest)) ok.
Proof. intros Hv rest'. naive_solver. Qed.

Lemma agrees_refused {A} e (v : A) rest (ok : A → Prop) : ¬ ok v → agrees (inl e) (Some (v, rest)) ok.
Proof. intros Hv rest'. split; [done | naive_solver]. Qed.

Lemma agrees_string (o : option (bytes * bytes)) :
  agrees (syntax (snd <$> o)) (prod_map JString id <$> o) unique_names.
Proof. destruct o as [[s r]|]; [by apply agrees_value | apply agrees_error]. Qed.

Lemma agrees_number (f : bytes → bytes) (o : option bytes) :
  agrees (syntax o) ((λ rest, (JNumber (f rest), rest)) <$> o) unique_names.
Proof. destruct o as [r|]; [by apply agrees_value | apply agrees_error]. Qed.

Lemma agrees_literal v (o : option bytes) : unique_names v → agrees (syntax o) (pair v <$> o) unique_names.
Proof. intros Hv. destruct o as [r|]; [by apply agrees_value | apply agrees_error]. Qed.

Lemma agrees_map {A B} (f : A → B) s (p : option (A * bytes)) ok ok' :
  agrees s p ok → (∀ v, ok v ↔ ok' (f v)) → agrees s (prod_map f id <$> p) ok'.
Proof. intros H Hf rest. rewrite (H rest). destruct p as [[v r]|]; simpl; naive_solver. Qed.

(** A value, then what follows it. *)
Lemma agrees_bind {A B} s (p : option (A * bytes)) ok k (q : A * bytes → option (B * bytes)) ok' :
  agrees s p ok →
  (∀ v rest, p = Some (v, rest) → ok v → agrees (k rest) (q (v, rest)) ok') →
  (∀ v rest w rest', p = Some (v, rest) → ¬ ok v → q (v, rest) = Some (w, rest') → ¬ ok' w) →
  agrees (match s with inl err => inl err | inr rest => k rest end) (p ≫= q) ok'.
Proof.
  intros H Hk Hbad rest. destruct s as [err|r].
  - split; [done |]. intros (w & Hw & Hok). destruct p as [[v r]|]; [| done]. simpl in Hw. exfalso.
    apply (Hbad v r w rest); [done | | done | done]. intros Hv. pose proof (proj2 (H r) (ex_intro _ v (conj eq_refl Hv))) as E. discriminate E.
  - destruct (proj1 (H r) eq_refl) as (v & -> & Hv). simpl. by apply Hk.
Qed.

Lemma members_bad names n v l :
  ¬ (n ∉ names ∧ unique_names v) → ¬ members_unique names ((n, v) :: l).
Proof. rewrite members_unique_cons. tauto. Qed.

(** The three functions at one fuel. *)
Record scan_agrees (fuel : nat) : Prop := {
  sa_value : ∀ depth d l, Z.of_nat depth + d = maxNestingDepth →
    agrees (scanValue fuel d l) (parse_value fuel depth l) unique_names;
  sa_members : ∀ depth d names l, Z.of_nat depth + d + 1 = maxNestingDepth →
    agrees (scanMembers fuel d names l) (parse_members fuel depth l) (members_unique names);
  sa_elements : ∀ depth d l, Z.of_nat depth + d + 1 = maxNestingDepth →
    agrees (scanElements fuel d l) (parse_elements fuel depth l) elements_unique }.

Lemma agrees_cons {A} (x : A) s (p : option (list A * bytes)) (ok ok' : list A → Prop) :
  agrees s p ok → (∀ l, ok l ↔ ok' (x :: l)) → agrees s (cons_fst x <$> p) ok'.
Proof.
  intros H Hf rest. rewrite (H rest). destruct p as [[v r]|]; [| split; intros (? & ? & _); done]. cbn.
  split; intros (w & [= <- <-] & Hw); eexists; (split; [done |]); by apply Hf.
Qed.

Lemma scan_value_step fuel : scan_agrees fuel → ∀ depth d l, Z.of_nat depth + d = maxNestingDepth →
  agrees (scanValue (S fuel) d l) (parse_value (S fuel) depth l) unique_names.
Proof.
  intros [_ Hm He] depth d l Hd. cbn [scanValue parse_value]. destruct (skip_space l) as [|b l']; [apply agrees_error |].
  destruct (code b) as [|c|c]; try (case_if; [apply agrees_number | apply agrees_error]).
  repeat (destruct c as [c|c|]; try (case_if; [apply agrees_number | apply agrees_error])).
  all: try first [apply agrees_string | apply (agrees_number (λ rest, b :: consumed l' rest)) | by apply agrees_literal].
  all: destruct depth as [|depth]; [rewrite (proj2 (Z.leb_le _ _)) by lia; apply agrees_error | rewrite (proj2 (Z.leb_gt _ _)) by lia].
  all: destruct (skip_space l') as [|c rest]; [apply agrees_error |]; case_if; [apply agrees_value; done || (split; [constructor | done]) |].
  - eapply agrees_map; [apply Hm; lia |]. intros v. by rewrite unique_object.
  - eapply agrees_map; [apply He; lia |]. intros v. by rewrite unique_array.
Qed.

Lemma scan_members_step fuel : scan_agrees fuel → ∀ depth d names l, Z.of_nat depth + d + 1 = maxNestingDepth →
  agrees (scanMembers (S fuel) d names l) (parse_members (S fuel) depth l) (members_unique names).
Proof.
  intros [Hv Hm _] depth d names l Hd. cbn [scanMembers parse_members].
  destruct (skip_space l) as [|q l']; [apply agrees_error |]. case_if; [| apply agrees_error].
  destruct (read_string l') as [[name rest]|]; [| apply agrees_error]. cbn [mbind option_bind].
  destruct (skip_space rest) as [|colon rest2]; [by case_if; apply agrees_error |].
  destruct (code colon =? 58); [| by case_if; apply agrees_error].
  destruct (bool_decide_reflect (name ∈ names)) as [Hin|Hin].
  { intros r. split; [done |]. intros (v & Hr & Hu). exfalso. destruct (parse_value _ _ _) as [[v' r']|]; [| done]. cbn in Hr.
    assert (∃ l'', v = (name, v') :: l'') as [l'' ->]; [| by eapply members_bad; [| exact Hu]; tauto].
    destruct (skip_space r') as [|c r'']; [done |]. case_if_in Hr; [destruct (parse_members _ _ _) as [[l'' ?]|]; [| done]; injection Hr as <- _; by eexists |].
    case_if_in Hr; [injection Hr as <- _; by eexists | done]. }
  eapply agrees_bind; [apply (Hv depth (d + 1)); lia | |].
  - intros v r _ Hu. destruct (skip_space r) as [|c r']; [apply agrees_error |]. case_if.
    + eapply agrees_cons; [apply Hm; lia |]. intros k. rewrite members_unique_cons. tauto.
    + case_if; [| apply agrees_error]. apply agrees_value. rewrite members_unique_cons.
      split; [done |]. split; [done |]. repeat constructor.
  - intros v r w r' _ Hu Hw. destruct (skip_space r) as [|c r'']; [done |].
    case_if_in Hw; [destruct (parse_members _ _ _) as [[k ?]|]; [| done]; injection Hw as <- _ | case_if_in Hw; [injection Hw as <- _ | done]].
    all: apply members_bad; tauto.
Qed.

Lemma scan_elements_step fuel : scan_agrees fuel → ∀ depth d l, Z.of_nat depth + d + 1 = maxNestingDepth →
  agrees (scanElements (S fuel) d l) (parse_elements (S fuel) depth l) elements_unique.
Proof.
  intros [Hv _ He] depth d l Hd. cbn [scanElements parse_elements].
  eapply agrees_bind; [apply (Hv depth (d + 1)); lia | |].
  - intros v r _ Hu. destruct (skip_space r) as [|c r']; [apply agrees_error |]. case_if.
    + eapply agrees_cons; [apply He; lia |]. intros k. unfold elements_unique. rewrite Forall_cons. tauto.
    + case_if; [| apply agrees_error]. apply agrees_value. by apply Forall_singleton.
  - intros v r w r' _ Hu Hw. destruct (skip_space r) as [|c r'']; [done |].
    case_if_in Hw; [destruct (parse_elements _ _ _) as [[k ?]|]; [| done]; injection Hw as <- _ | case_if_in Hw; [injection Hw as <- _ | done]].
    all: unfold elements_unique; rewrite Forall_cons; tauto.
Qed.

Lemma scan_agrees_all fuel : scan_agrees fuel.
Proof.
  induction fuel as [|fuel IH]; [split; intros; apply agrees_error |].
  split; [by apply scan_value_step | by apply scan_members_step | by apply scan_elements_step].
Qed.

(** C25.  A document is accepted exactly when it begins with a JSON value, nested at most
    10000 deep, in which no object has two members whose names are equal after their
    escapes are resolved. *)
Theorem strict_json_exact document :
  RejectDuplicateNames document = None ↔
    ∃ fuel v rest, parse_value fuel (Z.to_nat 10000) document = Some (v, rest) ∧ unique_names v.
Proof.
  unfold RejectDuplicateNames. set (n := (2 * length document + 1)%nat).
  pose proof (sa_value _ (scan_agrees_all n) (Z.to_nat 10000) 0 document ltac:(done)) as H.
  assert (RejectDuplicateNames document = None ↔ ∃ rest, scanValue n 0 document = inr rest) as Hs.
  { unfold RejectDuplicateNames. fold n. destruct (scanValue n 0 document) as [err|rest]; [| split; [by eexists | done]].
    split; [by destruct err; [done | |]; destruct (exceedsNestingDepth document) | by intros [? ?]]. }
  unfold RejectDuplicateNames in Hs. fold n in Hs. rewrite Hs. split.
  - intros [rest Hr]. apply H in Hr as (v & Hp & Hu). by exists n, v, rest.
  - intros (fuel & v & rest & Hp & Hu). exists rest. apply H. exists v. split; [| done].
    apply (en_value _ (parse_enough_all fuel) _ _ _ n Hp). lia.
Qed.

Example strict_examples :
  map RejectDuplicateNames
    [str "{" ++ [quote] ++ str "name" ++ [quote] ++ str ":1," ++ [quote] ++ str "n\u0061me" ++ [quote] ++ str ":2}";
     str "[{" ++ [quote; x61; quote] ++ str ":1}," ++ str "{" ++ [quote; x61; quote] ++ str ":1}] trailing"; str "[1,]"] =
  [Some ErrDuplicateName; None; Some ErrSyntax].
Proof. vm_compute. reflexivity. Qed.
