(* ===== verification/Text.v ===== *)
(** * Texts as the validations read them (unicode, unicode/utf8, strings)

    Valid UTF-8, control characters, surrounding white space and decimal numbers, on bytes. *)

From S2P Require Export JsonTree.
From stdpp Require Import options.

#[global] Open Scope Z_scope.

(** The runes of a text, an invalid byte being one of its own; the fuel is its length. *)
Fixpoint runes_of (fuel : nat) (l : bytes) : list bytes :=
  match fuel, l with
  | S fuel, b :: l' =>
    match rune_size l with
    | O => [b] :: runes_of fuel l'
    | n => take n l :: runes_of fuel (drop n l)
    end
  | _, _ => []
  end.

Definition runes (l : bytes) : list bytes := runes_of (length l) l.

(** [utf8.Valid]. *)
Definition valid_utf8 (l : bytes) : bool := forallb (λ r, negb (Nat.eqb (rune_size r) 0)) (runes l).

(** [unicode.IsControl] and [unicode.IsSpace]. *)
Definition control_rune (r : bytes) : bool :=
  match r with
  | [b] => (code b <? 32) || (code b =? 127)
  | [b; c] => (code b =? 194) && (code c <? 160)
  | _ => false
  end.

Definition space_rune (r : bytes) : bool :=
  match r with
  | [b] => ((9 <=? code b) && (code b <=? 13)) || (code b =? 32)
  | [b; c] => (code b =? 194) && ((code c =? 133) || (code c =? 160))
  | [xe1; x9a; x80] | [xe2; x81; x9f] | [xe3; x80; x80] => true
  | [xe2; x80; c] => ((128 <=? code c) && (code c <=? 138)) || (code c =? 168) || (code c =? 169) || (code c =? 175)
  | _ => false
  end.

Definition has_control (l : bytes) : bool := existsb control_rune (runes l).

(** [strings.TrimSpace] returns its argument. *)
Definition trimmed (l : bytes) : bool :=
  match runes l, last (runes l) with
  | first :: _, Some final => negb (space_rune first) && negb (space_rune final)
  | _, _ => true
  end.

(** [strconv.ParseUint] in base 10 and 64 bits. *)
Fixpoint parse_digits (acc : Z) (l : bytes) : option Z :=
  match l with
  | [] => Some acc
  | b :: l => if is_digit b then parse_digits (acc * 10 + (code b - 48)) l else None
  end.

Definition parse_uint (l : bytes) : option Z :=
  match l with
  | [] => None
  | _ => match parse_digits 0 l with
         | Some n => if n <=? max_u64 then Some n else None
         | None => None
         end
  end.

Example text_examples :
  map valid_utf8 [str "a" ++ [xc3; xa9]; [xc3]; [xed; xa0; x80]] = [true; false; false] ∧
  map has_control [str "ab"; [x61; x0a]; [xc2; x85]; [xc2; xa0]] = [false; true; true; false] ∧
  map trimmed [str "a b"; str " a"; [x61; xe2; x80; x83]; []] = [true; false; false; true] ∧
  map parse_uint [str "18446744073709551615"; str "18446744073709551616"; str "1e3"; []] = [Some max_u64; None; None; None].
Proof. vm_compute. done. Qed.
