(* ===== verification/JsonText.v ===== *)
(** * Reading back encoded strings

    The decoder reads what the encoder wrote: the JSON text of a valid UTF-8 string gives
    the string back, and leaves what follows it; so such a text determines its string. *)

From S2P Require Import Prelude.
From S2P Require Export Text Fields.
From stdpp Require Import options.

#[global] Open Scope Z_scope.

(** The size of a rune depends on its bytes only. *)
Lemma rune_size_app l n r :
  rune_size l = S n → length (take (S n) l) = S n ∧ rune_size (take (S n) l ++ r) = S n.
Proof.
  destruct l as [|b l]; [done |]. cbn [rune_size].
  destruct (code b <? 128) eqn:E1; [intros [= <-]; split; [done | simpl; by rewrite E1] |].
  destruct (code b <? 194) eqn:E2; [done |].
  destruct (code b <? 224) eqn:E3.
  { destruct l as [|b1 l]; [done |]. destruct (cont 128 191 b1) eqn:E4; [| done]. intros [= <-].
    split; [done |]. simpl. by rewrite E1, E2, E3, E4. }
  destruct (code b <? 240) eqn:E4.
  { destruct l as [|b1 [|b2 l]]; [done | done |]. destruct (_ && _) eqn:E5; [| done]. intros [= <-].
    split; [done |]. simpl. by rewrite E1, E2, E3, E4, E5. }
  destruct (code b <? 245) eqn:E5; [| done].
  destruct l as [|b1 [|b2 [|b3 l]]]; [done | done | done |]. destruct (_ && _) eqn:E6; [| done]. intros [= <-].
  split; [done |]. simpl. by rewrite E1, E2, E3, E4, E5, E6.
Qed.

Lemma rune_size_big b l n : rune_size (b :: l) = S (S n) → 194 ≤ code b.
Proof.
  cbn [rune_size]. destruct (Z.ltb_spec (code b) 128); [done |]. destruct (Z.ltb_spec (code b) 194); [done |]. lia.
Qed.

Lemma rune_size_one b l : rune_size (b :: l) = 1%nat → code b < 128.
Proof.
  cbn [rune_size]. destruct (Z.ltb_spec (code b) 128); [done |]. destruct (code b <? 194); [done |].
  destruct (code b <? 224); [destruct l as [|b1 l]; [done |]; by destruct (cont 128 191 b1) |].
  destruct (code b <? 240); [destruct l as [|b1 [|b2 l]]; [done | done |]; by destruct (_ && _) |].
  destruct (code b <? 245); [| done]. destruct l as [|b1 [|b2 [|b3 l]]]; [done .. |]. by destruct (_ && _).
Qed.

Definition push (r : bytes) (m : option (bytes * bytes)) : option (bytes * bytes) := '(s, rest) ← m; Some (r ++ s, rest).

Lemma unquote_ascii fuel b l :
  code b < 128 → unquote (S fuel) (escape_ascii b ++ l) = push [b] (unquote fuel l).
Proof. destruct b; intros H; (reflexivity || (vm_compute in H; discriminate H)). Qed.

(** A rune of several bytes that is not escaped is read as it is. *)
Lemma unquote_raw fuel l n :
  rune_size l = S (S n) → unquote (S fuel) l = push (take (S (S n)) l) (unquote fuel (drop (S (S n)) l)).
Proof.
  intros H. destruct l as [|b l]; [done |]. pose proof (rune_size_big _ _ _ H) as Hb. cbn [unquote].
  destruct (Z.eqb_spec (code b) 34); [lia |]. destruct (Z.ltb_spec (code b) 32); [lia |].
  destruct (Z.eqb_spec (code b) 92); [lia |]. by rewrite H.
Qed.

Lemma escape_rune_ascii b : escape_rune [b] = escape_ascii b.
Proof. by destruct b. Qed.

Lemma escape_rune_cases r :
  (∃ b, r = [b]) ∨
  (r = [xe2; x80; xa8] ∧ escape_rune r = [bslash; x75; x32; x30; x32; x38]) ∨
  (r = [xe2; x80; xa9] ∧ escape_rune r = [bslash; x75; x32; x30; x32; x39]) ∨ escape_rune r = r.
Proof.
  destruct (decide (r = [xe2; x80; xa8])) as [->|H1]; [auto |]. destruct (decide (r = [xe2; x80; xa9])) as [->|H2]; [auto |].
  destruct r as [|b [|b1 [|b2 r]]]; [by auto | by eauto | |]; do 3 right.
  - destruct b; try reflexivity. by destruct b1.
  - destruct b; try reflexivity. destruct b1; try reflexivity. destruct b2; try reflexivity; by destruct r.
Qed.

Lemma unquote_rune fuel l n r :
  rune_size l = S n → unquote (S fuel) (escape_rune (take (S n) l) ++ r) = push (take (S n) l) (unquote fuel r).
Proof.
  intros H. destruct (rune_size_app l n r H) as [Hlen Hsize]. destruct n as [|n].
  { destruct l as [|b l]; [done |]. cbn [take]. rewrite escape_rune_ascii. apply (unquote_ascii fuel b r). by eapply rune_size_one. }
  destruct (escape_rune_cases (take (S (S n)) l)) as [(b & E) | [[E ->] | [[E ->] | ->]]].
  - by rewrite E in Hlen.
  - rewrite E. reflexivity.
  - rewrite E. reflexivity.
  - rewrite (unquote_raw fuel _ n Hsize). by rewrite take_app_length', drop_app_length' by done.
Qed.

(** What [valid_utf8] says of the head of a text. *)
Lemma runes_of_valid fuel l :
  (length l ≤ fuel)%nat → forallb (λ r, negb (Nat.eqb (rune_size r) 0)) (runes_of fuel l) = true → l ≠ [] →
  ∃ n, rune_size l = S n ∧ forallb (λ r, negb (Nat.eqb (rune_size r) 0)) (runes_of (pred fuel) (drop (S n) l)) = true.
Proof.
  intros Hf H Hl. destruct fuel as [|fuel]; [destruct l; [done | simpl in Hf; lia] |]. destruct l as [|b l]; [done |]. cbn [runes_of] in H.
  destruct (rune_size (b :: l)) as [|n] eqn:E; cbn [forallb] in H; apply andb_true_iff in H as [H1 H2].
  - exfalso. unfold rune_size in E, H1. destruct (code b <? 128) eqn:E1; [done |]. destruct (code b <? 194); [done |].
    destruct (code b <? 224); [done |]. destruct (code b <? 240); [done |]. by destruct (code b <? 245).
  - exists n. by split.
Qed.

Lemma unquote_escape fuel n l r :
  (length l ≤ n)%nat → (length l < fuel)%nat →
  forallb (λ r, negb (Nat.eqb (rune_size r) 0)) (runes_of n l) = true →
  unquote fuel (escape n l ++ quote :: r) = Some (l, r).
Proof.
  revert fuel l. induction n as [|n IH]; intros fuel l Hn Hf Hv.
  { destruct l; [| simpl in Hn; lia]. destruct fuel; [simpl in Hf; lia | reflexivity]. }
  destruct l as [|b l]; [destruct fuel; [simpl in Hf; lia | reflexivity] |].
  destruct (runes_of_valid (S n) (b :: l) Hn Hv ltac:(done)) as (k & Hk & Hv'). cbn [escape]. rewrite Hk.
  rewrite <- (assoc_L (++)). destruct fuel as [|fuel]; [lia |]. rewrite (unquote_rune fuel (b :: l) k _ Hk).
  assert (length (drop (S k) (b :: l)) ≤ length l)%nat as Hlen by (rewrite length_drop; simpl; lia). simpl in Hn, Hf.
  rewrite (IH fuel (drop (S k) (b :: l))) by (done || lia). unfold push. cbn [mbind option_bind].
  by rewrite take_drop.
Qed.

(** The text of a valid string gives it back and leaves what follows. *)
Theorem encode_bytes_read l r : valid_utf8 l = true → read_string (tail (encode_bytes l ++ r)) = Some (l, r).
Proof.
  intros Hv. unfold read_string, encode_bytes. cbn [app tail]. rewrite <- (assoc_L (++)). cbn [app].
  apply unquote_escape; [done | | exact Hv]. rewrite length_app.
  assert (∀ n (k : bytes), (length k ≤ n)%nat → (length k ≤ length (escape n k))%nat) as H.
  { clear. induction n as [|n IH]; intros k Hk; [simpl; lia |]. destruct k as [|b k]; [simpl; lia |]. cbn [escape].
    destruct (rune_size (b :: k)) as [|m] eqn:E; rewrite length_app; simpl in Hk.
    - pose proof (IH k ltac:(lia)). simpl. lia.
    - pose proof (IH (drop (S m) (b :: k)) ltac:(rewrite length_drop; simpl; lia)) as H. rewrite length_drop in H.
      destruct (rune_size_app (b :: k) m [] E) as [Hlen _].
      assert (S m ≤ length (escape_rune (take (S m) (b :: k))))%nat; [| simpl in *; lia].
      destruct (escape_rune_cases (take (S m) (b :: k))) as [(c & Ec) | [[Ec ->] | [[Ec ->] | ->]]]; rewrite ?Hlen; try done.
      + rewrite Ec in Hlen. injection Hlen as <-. rewrite Ec. clear. by destruct c; vm_compute; lia.
      + rewrite Ec in Hlen. injection Hlen as <-. simpl. lia.
      + rewrite Ec in Hlen. injection Hlen as <-. simpl. lia. }
  specialize (H (length l) l ltac:(lia)). simpl. lia.
Qed.

(** Two texts that continue one another start with the same string. *)
Lemma encode_string_prefix s t r k :
  valid_utf8 (str s) = true → valid_utf8 (str t) = true → encode_string s ++ r = encode_string t ++ k → s = t ∧ r = k.
Proof.
  intros Hs Ht E. pose proof (encode_bytes_read (str s) r Hs) as H. pose proof (encode_bytes_read (str t) k Ht) as H'.
  unfold encode_string in E. rewrite E, H' in H. injection H as H1 H2. split; [by apply str_inj | done].
Qed.

(** ** Texts that determine their values

    [prefix_free P enc]: the text of a value is never continued to that of another. *)

Definition prefix_free {A} (P : A → Prop) (enc : A → bytes) : Prop :=
  ∀ x y r k, P x → P y → enc x ++ r = enc y ++ k → x = y ∧ r = k.

Definition utf8_string (s : string) : Prop := valid_utf8 (str s) = true.

Lemma encode_string_free : prefix_free utf8_string encode_string.
Proof. intros s t r k. apply encode_string_prefix. Qed.

Definition ascii_bytes (l : bytes) : Prop := Forall (λ b, code b < 128) l.

Lemma ascii_valid l : ascii_bytes l → valid_utf8 l = true.
Proof.
  unfold valid_utf8, runes. generalize (Nat.le_refl (length l)). generalize (length l) at 2 3. intros n.
  revert l. induction n as [|n IH]; intros l Hn Hl; [done |]. destruct Hl as [|b l Hb Hl]; [done |]. cbn [runes_of].
  assert (∀ k, rune_size (b :: k) = 1%nat) as Hs by (intros k; unfold rune_size; by rewrite (proj2 (Z.ltb_lt _ _) Hb)).
  rewrite Hs. cbn [forallb take drop]. rewrite Hs, drop_0. apply IH; [simpl in Hn; lia | done].
Qed.

Lemma pretty_ascii x s : ascii_bytes (str s) → ascii_bytes (str (pretty.pretty_N_go x s)).
Proof.
  revert s. induction (N.lt_wf_0 x) as [x _ IH]; intros s Hs. destruct (decide (x = 0)%N) as [->|Hx]; [done |].
  rewrite pretty.pretty_N_go_step by lia. apply IH; [apply N.div_lt; lia |].
  apply Forall_cons. split; [| exact Hs]. unfold pretty.pretty_N_char. repeat case_match; reflexivity.
Qed.

Lemma encode_int_ascii z : ascii_bytes (encode_int z).
Proof.
  unfold encode_int. destruct z as [|p|p]; [by repeat constructor | |].
  - apply (pretty_ascii (N.pos p) ""). constructor.
  - apply Forall_cons. split; [done |]. apply (pretty_ascii (N.pos p) ""). constructor.
Qed.

Lemma encode_int_inj z w : encode_int z = encode_int w → z = w.
Proof. unfold encode_int. intros E%str_inj. by apply (inj pretty.pretty). Qed.

(** A number written as a string. *)
Lemma encode_quoted_int_free : prefix_free (λ _, True) (λ z, encode_bytes (encode_int z)).
Proof.
  intros z w r k _ _ E. pose proof (encode_bytes_read (encode_int z) r (ascii_valid _ (encode_int_ascii z))) as H.
  pose proof (encode_bytes_read (encode_int w) k (ascii_valid _ (encode_int_ascii w))) as H'.
  rewrite E, H' in H. injection H as H1 H2. by apply encode_int_inj in H1.
Qed.

Lemma sep_by_cons sep x l : sep_by sep (x :: l) = x ++ concat (map (λ y, [sep] ++ y) l).
Proof.
  revert x. induction l as [|y l IH]; intros x; [by rewrite app_nil_r |]. change (sep_by sep (x :: y :: l)) with (x ++ [sep] ++ sep_by sep (y :: l)).
  rewrite IH. cbn [map concat]. by rewrite <- !(assoc_L (++)).
Qed.

(** Arrays of values that do not start with a closing bracket. *)
Lemma encode_array_free {A} (P : A → Prop) (f : A → bytes) :
  prefix_free P f → (∀ x, P x → ∃ b t, f x = b :: t ∧ b ≠ x5d) → prefix_free (Forall P) (λ l, encode_array (map f l)).
Proof.
  intros Hf Hhead l k r r' Hl Hk. unfold encode_array. rewrite <- !(assoc_L (++)). intros E%app_inv_head.
  assert (Htail : ∀ l k, Forall P l → Forall P k →
    concat (map (λ y, [x2c] ++ y) (map f l)) ++ [x5d] ++ r = concat (map (λ y, [x2c] ++ y) (map f k)) ++ [x5d] ++ r' → l = k ∧ r = r').
  { clear l k Hl Hk E. induction l as [|x l IH]; intros [|y k] Hl Hk; cbn [map concat]; rewrite <- ?(assoc_L (++)); cbn [app].
    - intros E. split; [done | by injection E].
    - intros E. discriminate E.
    - intros E. discriminate E.
    - intros E. apply Forall_cons in Hl as [Hx Hl]. apply Forall_cons in Hk as [Hy Hk]. injection E as E.
      destruct (Hf x y _ _ Hx Hy E) as [-> E']. destruct (IH k Hl Hk E') as [-> ->]. done. }
  destruct l as [|x l], k as [|y k]; cbn [map] in E; rewrite ?sep_by_cons, <- ?(assoc_L (++)) in E.
  - split; [done | by injection E].
  - exfalso. apply Forall_cons in Hk as [Hy _]. destruct (Hhead y Hy) as (b & t & Eb & Hne). rewrite Eb in E. injection E as E _. by subst.
  - exfalso. apply Forall_cons in Hl as [Hx _]. destruct (Hhead x Hx) as (b & t & Eb & Hne). rewrite Eb in E. injection E as E _. by subst.
  - apply Forall_cons in Hl as [Hx Hl]. apply Forall_cons in Hk as [Hy Hk].
    destruct (Hf x y _ _ Hx Hy E) as [-> E']. destruct (Htail l k Hl Hk E') as [-> ->]. done.
Qed.

(** Compare two texts member by member: equal parts are dropped. *)
Ltac same_text E :=
  repeat match type of E with ?a ++ _ = ?a ++ _ => apply app_inv_head in E end.
