(* ===== verification/Order.v ===== *)
(** * Orders and sorted sets of strings (cmp, slices, strings)

    Three-way comparisons and their lexicographic composition, and lists of strings that
    are strictly increasing, which is how the documents write sets. *)

From S2P Require Import Prelude.
From stdpp Require Import options.

#[global] Open Scope Z_scope.

(** ** Comparisons *)

(** Comparisons in a row, the first difference deciding. *)
Definition lexico (c d : comparison) : comparison := match c with Eq => d | _ => c end.

(** What makes a comparison one of a total preorder. *)
Record compare_ok {A} (cmp : A → A → comparison) : Prop := {
  compare_anti : ∀ x y, cmp y x = CompOpp (cmp x y);
  compare_trans : ∀ x y z, cmp x y ≠ Gt → cmp y z ≠ Gt → cmp x z ≠ Gt }.

Lemma compare_ok_Z : compare_ok Z.compare.
Proof. split; [intros; apply Z.compare_antisym |]. apply Z.le_trans. Qed.

Lemma string_le_compare s t : String.le s t ↔ String.compare s t ≠ Gt.
Proof. unfold String.le, String.leb. by destruct (String.compare s t). Qed.

Lemma compare_ok_string : compare_ok String.compare.
Proof.
  split; [intros; apply String.compare_antisym |].
  intros x y z. rewrite <- !string_le_compare. apply transitivity.
Qed.

Lemma compare_ok_pull {A B} (f : A → B) cmp : compare_ok cmp → compare_ok (λ x y, cmp (f x) (f y)).
Proof. intros [Ha Ht]. split; eauto. Qed.

Lemma compare_ok_lexico {A} (c d : A → A → comparison) :
  compare_ok c → compare_ok d → compare_ok (λ x y, lexico (c x y) (d x y)).
Proof.
  intros [Ca Ct] [Da Dt]. split; [intros x y; rewrite Ca, Da; by destruct (c x y) |].
  intros x y z H1 H2.
  assert (c x y ≠ Gt) as Hxy by (by destruct (c x y)). assert (c y z ≠ Gt) as Hyz by (by destruct (c y z)).
  pose proof (Ct x y z Hxy Hyz) as Hxz. destruct (c x z) eqn:E; [| done | done]. cbn [lexico].
  assert (c z x ≠ Gt) as Hzx by (rewrite Ca, E; done).
  assert (c x y = Eq) as E1.
  { destruct (c x y) eqn:E1; [done | | done]. exfalso. apply (Ct y z x Hyz Hzx). by rewrite Ca, E1. }
  assert (c y z = Eq) as E2.
  { destruct (c y z) eqn:E2; [done | | done]. exfalso. apply (Ct z x y Hzx Hxy). by rewrite Ca, E2. }
  rewrite E1 in H1. rewrite E2 in H2. by apply (Dt x y z).
Qed.

Lemma lexico_eq c d : lexico c d = Eq ↔ c = Eq ∧ d = Eq.
Proof. destruct c; simpl; naive_solver. Qed.

Lemma compare_ok_total {A} (cmp : A → A → comparison) : compare_ok cmp → Total (λ x y, cmp x y ≠ Gt).
Proof. intros [Ha _] x y. rewrite (Ha x y). destruct (cmp x y); simpl; auto. Qed.

Lemma compare_ok_transitive {A} (cmp : A → A → comparison) : compare_ok cmp → Transitive (λ x y, cmp x y ≠ Gt).
Proof. intros [_ Ht] x y z. apply Ht. Qed.

Lemma compare_ok_refl {A} (cmp : A → A → comparison) x : compare_ok cmp → cmp x x = Eq.
Proof. intros [Ha _]. specialize (Ha x x). by destruct (cmp x x). Qed.

(** ** Strictly increasing lists *)

Definition slt (s t : string) : Prop := String.compare s t = Lt.
#[export] Instance slt_dec : RelDecision slt.
Proof. intros s t. unfold slt. apply _. Defined.

#[export] Instance slt_transitive : Transitive slt.
Proof.
  intros x y z H1 H2. unfold slt in *.
  assert (String.compare x z ≠ Gt) as H by (apply (compare_trans _ compare_ok_string x y z); congruence).
  destruct (String.compare x z) eqn:E; [| done | done]. apply String.compare_eq_iff in E as ->.
  rewrite String.compare_antisym, H2 in H1. done.
Qed.

Lemma slt_irrefl s : ¬ slt s s.
Proof. unfold slt. by rewrite (compare_ok_refl _ s compare_ok_string). Qed.

(** [strictlySorted], and the tests [values[index-1] >= value] inside other loops. *)
Fixpoint strictlySorted (values : list string) : bool :=
  match values with
  | x :: ((y :: _) as values') => match String.compare x y with Lt => strictlySorted values' | _ => false end
  | _ => true
  end.

Definition sorted_set (l : list string) : Prop := StronglySorted slt l.

Lemma strictlySorted_spec l : strictlySorted l = true ↔ sorted_set l.
Proof.
  unfold sorted_set. split.
  - intros H. apply Sorted_StronglySorted; [apply _ |].
    induction l as [|x [|y l] IH]; [constructor | repeat constructor |].
    cbn [strictlySorted] in H. destruct (String.compare x y) eqn:E; [done | | done].
    constructor; [by apply IH | by constructor].
  - intros H. induction H as [|x l Hs IH Hf]; [done |].
    destruct l as [|y l]; [done |]. apply Forall_cons in Hf as [Hxy _].
    cbn [strictlySorted]. unfold slt in Hxy. by rewrite Hxy.
Qed.

#[export] Instance sorted_set_dec l : Decision (sorted_set l).
Proof. refine (cast_if (decide (strictlySorted l = true))); by rewrite <- strictlySorted_spec. Defined.

Lemma sorted_set_NoDup l : sorted_set l → NoDup l.
Proof.
  induction 1 as [|x l _ IH Hf]; constructor; [| done]. intros Hx.
  rewrite Forall_forall in Hf. by apply (slt_irrefl x), Hf.
Qed.

(** A set has one strictly increasing list. *)
Lemma sorted_set_ext l k : sorted_set l → sorted_set k → (∀ x, x ∈ l ↔ x ∈ k) → l = k.
Proof.
  intros Hl Hk H. apply (StronglySorted_unique_strong slt); [| done | done |].
  - intros x y _ _ Hxy Hyx. exfalso. apply (slt_irrefl x). by etrans.
  - apply NoDup_Permutation; auto using sorted_set_NoDup.
Qed.

Lemma sorted_set_cons x l : sorted_set (x :: l) ↔ sorted_set l ∧ Forall (slt x) l.
Proof. unfold sorted_set. split; [by inversion 1 | intros []; by constructor]. Qed.

Lemma sorted_set_sublist l k : l `sublist_of` k → sorted_set k → sorted_set l.
Proof.
  induction 1 as [|x l k H IH|x l k H IH]; [done | |].
  - rewrite !sorted_set_cons. intros [Hs Hf]. split; [auto |].
    rewrite Forall_forall in *. intros y Hy. apply Hf. by eapply elem_of_sublist.
  - rewrite sorted_set_cons. intros [Hs _]. auto.
Qed.

(** [slices.Compact]: runs of equal elements become one. *)
Fixpoint slices_Compact (l : list string) : list string :=
  match l with
  | x :: ((y :: _) as l') => if String.eqb x y then slices_Compact l' else x :: slices_Compact l'
  | _ => l
  end.

Lemma slices_Compact_elem l x : x ∈ slices_Compact l ↔ x ∈ l.
Proof.
  induction l as [|y [|z l] IH]; [done | done |]. cbn [slices_Compact].
  destruct (String.eqb_spec y z) as [->|Hne]; rewrite ?elem_of_cons in *; naive_solver.
Qed.

Lemma slices_Compact_sorted l : StronglySorted String.le l → sorted_set (slices_Compact l).
Proof.
  induction 1 as [|x l Hs IH Hf]; [constructor |]. destruct l as [|y l]; [repeat constructor |].
  cbn [slices_Compact]. destruct (String.eqb_spec x y) as [->|Hne]; [done |].
  apply sorted_set_cons. split; [done |]. apply Forall_forall. intros z Hz. apply (slices_Compact_elem (y :: l)) in Hz.
  rewrite Forall_forall in Hf. pose proof (Hf z Hz) as Hxz. rewrite string_le_compare in Hxz.
  unfold slt. destruct (String.compare x z) eqn:E; [exfalso | done | done].
  apply String.compare_eq_iff in E as ->. apply elem_of_cons in Hz as [|Hz]; [done |].
  apply StronglySorted_inv in Hs as [_ Hs]. rewrite Forall_forall in Hs.
  apply Hne, (anti_symm String.le); [apply Hf; by left | by apply Hs].
Qed.

(** Sorted, without repetition: the canonical list of a set. *)
Definition sort_compact (l : list string) : list string := slices_Compact (sort_nodes l).

Lemma sort_compact_elem l x : x ∈ sort_compact l ↔ x ∈ l.
Proof. unfold sort_compact. by rewrite slices_Compact_elem, elem_of_sort_nodes. Qed.

Lemma sort_compact_sorted l : sorted_set (sort_compact l).
Proof. apply slices_Compact_sorted, sort_nodes_sorted. Qed.

Lemma sort_compact_id l : sorted_set l → sort_compact l = l.
Proof.
  intros H. apply sorted_set_ext; [apply sort_compact_sorted | done | intros; apply sort_compact_elem].
Qed.

Lemma sorted_set_filter (P : string → Prop) `{∀ x, Decision (P x)} l : sorted_set l → sorted_set (filter P l).
Proof. apply sorted_set_sublist, sublist_filter. Qed.
