(* ===== verification/Projector.v ===== *)
(** * Projection of semantic directives (semanticplan/projector.go)

    The portable identity of a choice, read from its JSON context, the directives that a
    source tape determines, and the projector: a decider that answers a target's choices
    from the directives with the same identity, fixed choices by their only value, and the
    rest by a seeded fallback.  A Go map of keys is a [gmap]; the report sorts what it
    takes from one, so the order of iteration does not show. *)

From S2P Require Import Prelude.
From S2P Require Export Decision Text StrictJson Order.
From S2P Require Scenario Digest.
From stdpp Require Import options.

#[global] Open Scope Z_scope.

Definition maximumContextBytes : Z := 16777216.

Inductive ProjError := ErrInvalidProjection | ErrDuplicateTarget.

#[export] Instance ProjError_eq_dec : EqDecision ProjError.
Proof. solve_decision. Defined.

(** The sentinels of the other files of the package; errors without one are [ErrInvalid]. *)
Inductive SemanticError :=
| ErrInvalidPlan | ErrInvalidCapabilities | ErrInvalidExecution | ErrInvalidCausal | ErrCausalConflict
| ErrProjection (e : ProjError) | ErrInvalid.

#[export] Instance SemanticError_eq_dec : EqDecision SemanticError.
Proof. solve_decision. Defined.

Definition ElectionTimeout : Kind := "election_timeout".
Definition NetworkLoss : Kind := "network_loss".
Definition NetworkLatency : Kind := "network_latency".
Definition StorageLatency : Kind := "storage_latency".

(** ** Portable keys *)

Abbreviation ProjectionFidelity := string (only parsing).
Definition ProjectionExact : ProjectionFidelity := "exact".
Definition ProjectionPartial : ProjectionFidelity := "partial".
Definition ProjectionFailed : ProjectionFidelity := "failed".

Record PortableKey := mkKey {
  KeyKind : Kind; KeyNode : NodeID; KeyFrom : NodeID; KeyTo : NodeID; Incarnation : Z; Occurrence : Z }.

#[export] Instance PortableKey_eq_dec : EqDecision PortableKey.
Proof. solve_decision. Defined.
#[export] Instance PortableKey_countable : Countable PortableKey.
Proof.
  refine (inj_countable'
    (λ k, (KeyKind k, KeyNode k, KeyFrom k, KeyTo k, Incarnation k, Occurrence k))
    (λ '(a, b, c, d, e, f), mkKey a b c d e f) _).
  by intros [].
Defined.

Definition supportedKind (kind : Kind) : bool :=
  bool_decide (kind ∈ [ElectionTimeout; StorageLatency; NetworkLoss; NetworkLatency]).

(** The kinds of a node's own durations. *)
Definition node_kind (kind : Kind) : bool := bool_decide (kind ∈ [ElectionTimeout; StorageLatency]).

Abbreviation strlen := Digest.strlen (only parsing).

Definition validEndpoint (value : string) : bool :=
  if String.eqb value "" || (4096 <? strlen value) || negb (valid_utf8 (str value)) then false
  else negb (has_control (str value)).

Definition validateKey (k : PortableKey) : bool :=
  if negb (supportedKind (KeyKind k)) then false
  else if (Incarnation k =? 0) || (Occurrence k =? 0) then false
  else if node_kind (KeyKind k) then
    negb (negb (validEndpoint (KeyNode k)) || negb (String.eqb (KeyFrom k) "") || negb (String.eqb (KeyTo k) ""))
  else negb (negb (String.eqb (KeyNode k) "") || negb (validEndpoint (KeyFrom k)) || negb (validEndpoint (KeyTo k))).

(** ** Contexts *)

Definition Fields : Type := gmap bytes json.

(** The fields of a context that is one JSON object. *)
Definition decodeContextObject (raw : bytes) : option Fields :=
  if (zlen raw =? 0) || (maximumContextBytes <? zlen raw) || negb (valid_utf8 raw) then None
  else match RejectDuplicateNames raw with
  | Some _ => None
  | None =>
    match parse_json raw with
    | Some (JObject fields) => Some (list_to_map fields)
    | _ => None
    end
  end.

(** [json.Unmarshal] into a string leaves it empty on [null]. *)
Definition requiredString (fields : Fields) (name : string) : option string :=
  match fields !! str name with
  | Some (JString s) => if validEndpoint (unstr s) then Some (unstr s) else None
  | _ => None
  end.

(** The text of a field that is no number does not parse. *)
Definition requiredUint (fields : Fields) (name : string) : option Z :=
  match fields !! str name with
  | Some (JNumber (b :: text)) => if code b =? 48 then None else parse_uint (b :: text)
  | _ => None
  end.

Definition rejectFields (fields : Fields) (names : list string) : bool :=
  forallb (λ name, bool_decide (fields !! str name = None)) names.

(** ** Choices *)

Definition validatePortableChoice (choice : Choice) : option ProjError :=
  match ValidateChoice choice with
  | Some _ => Some ErrInvalidProjection
  | None =>
    if negb (supportedKind (ChKind choice)) then Some ErrInvalidProjection
    else if String.eqb (ChKind choice) NetworkLoss then
      if (zlen (Options choice) =? 0) ||
         negb (forallb (λ option, String.eqb (OptID option) "deliver" || String.eqb (OptID option) "drop") (Options choice))
      then Some ErrInvalidProjection else None
    else if bool_decide (Min choice = None) || bool_decide (Max choice = None) then Some ErrInvalidProjection
    else None
  end.

(** The switch on the kind. *)
Definition contextKey (kind : Kind) (fields : Fields) : option PortableKey :=
  if node_kind kind then
    if rejectFields fields ["from"; "to"; "sender_incarnation"; "send_sequence"] then
      node ← requiredString fields "node";
      incarnation ← requiredUint fields "incarnation";
      occurrence ← requiredUint fields "generation";
      Some (mkKey kind node "" "" incarnation occurrence)
    else None
  else
    if rejectFields fields ["node"; "incarnation"; "generation"] then
      from ← requiredString fields "from";
      to ← requiredString fields "to";
      incarnation ← requiredUint fields "sender_incarnation";
      occurrence ← requiredUint fields "send_sequence";
      Some (mkKey kind "" from to incarnation occurrence)
    else None.

Definition PortableKeyForChoice (choice : Choice) : ProjError + PortableKey :=
  match validatePortableChoice choice with
  | Some err => inl err
  | None =>
    match decodeContextObject (Context_ choice) ≫= contextKey (ChKind choice) with
    | None => inl ErrInvalidProjection
    | Some key => if validateKey key then inr key else inl ErrInvalidProjection
    end
  end.

Definition fixedSelection (choice : Choice) : option Selection :=
  match Options choice with
  | [option] => Some (mkSelection (OptID option) None)
  | _ =>
    match Min choice, Max choice with
    | Some min, Some max => if min =? max then Some (mkSelection "" (Some min)) else None
    | _, _ => None
    end
  end.

(** ** Directives *)

Record Directive := mkDirective { DirKey : PortableKey; SourceIndex : Z; DirSelection : Selection }.

#[export] Instance Directive_eq_dec : EqDecision Directive.
Proof. solve_decision. Defined.

Definition validateDirectiveSelection (directive : Directive) : bool :=
  let selection := DirSelection directive in
  if String.eqb (KeyKind (DirKey directive)) NetworkLoss then
    negb (bool_decide (Number selection ≠ None) ||
          (negb (String.eqb (SelOption selection) "deliver") && negb (String.eqb (SelOption selection) "drop")))
  else match Number selection with
  | None => false
  | Some n => negb (negb (String.eqb (SelOption selection) "") || (n <? 0))
  end.

Definition cloneDirective (d : Directive) : Directive :=
  mkDirective (DirKey d) (SourceIndex d) (cloneSelection (DirSelection d)).

(** [previous] is the source index of the directive before. *)
Fixpoint validateDirectivesLoop (previous : option Z) (seen : gset PortableKey) (directives : list Directive)
    : option ProjError :=
  match directives with
  | [] => None
  | directive :: directives =>
    if Scenario.MaxDecisions <=? SourceIndex directive then Some ErrInvalidProjection
    else if match previous with Some p => SourceIndex directive <=? p | None => false end then Some ErrInvalidProjection
    else if negb (validateKey (DirKey directive)) then Some ErrInvalidProjection
    else if negb (validateDirectiveSelection directive) then Some ErrInvalidProjection
    else if bool_decide (DirKey directive ∈ seen) then Some ErrInvalidProjection
    else validateDirectivesLoop (Some (SourceIndex directive)) ({[DirKey directive]} ∪ seen) directives
  end.

Definition ValidateDirectives (directives : list Directive) : option ProjError :=
  validateDirectivesLoop None ∅ directives.

Fixpoint directivesLoop (index : Z) (seen : gset PortableKey) (entries : list Entry) : ProjError + list Directive :=
  match entries with
  | [] => inr []
  | entry :: entries =>
    match validatePortableChoice (EnChoice entry) with
    | Some _ => inl ErrInvalidProjection
    | None =>
      match PortableKeyForChoice (EnChoice entry) with
      | inl err => inl err
      | inr key =>
        if bool_decide (key ∈ seen) then inl ErrDuplicateTarget
        else match directivesLoop (index + 1) ({[key]} ∪ seen) entries with
        | inl err => inl err
        | inr directives =>
          inr (match fixedSelection (EnChoice entry) with
               | Some _ => directives
               | None => mkDirective key index (cloneSelection (EnSelection entry)) :: directives
               end)
        end
      end
    end
  end.

Definition DirectivesFromTape (tape : Tape) : go (ProjError + list Directive) :=
  valid ← NewTapeDecider tape;
  Done (match valid with
        | inl _ => inl ErrInvalidProjection
        | inr _ =>
          match directivesLoop 0 ∅ (Entries tape) with
          | inl err => inl err
          | inr directives =>
            match ValidateDirectives directives with
            | Some err => inl err
            | None => inr directives
            end
          end
        end).

(** ** The projector *)

Record Projector := mkProjector {
  directives : gmap PortableKey Directive;
  consumedKeys : gset PortableKey;
  seenKeys : gset PortableKey;
  fallback : SeedDecider;
  additional : list PortableKey;
  projected : Z;
  fixed : Z;
  failed : option ProjError }.

(** The keys of valid directives are distinct. *)
Definition NewProjector (ds : list Directive) (fallbackSeed : Z) : ProjError + Projector :=
  match ValidateDirectives ds with
  | Some err => inl err
  | None =>
    inr (mkProjector (list_to_map ((λ d, (DirKey d, cloneDirective d)) <$> ds)) ∅ ∅ (NewSeedDecider fallbackSeed) [] 0 0 None)
  end.

Definition set_failed (p : Projector) (err : ProjError) : Projector :=
  mkProjector (directives p) (consumedKeys p) (seenKeys p) (fallback p) (additional p) (projected p) (fixed p) (Some err).
Definition set_seen (p : Projector) (seen : gset PortableKey) : Projector :=
  mkProjector (directives p) (consumedKeys p) seen (fallback p) (additional p) (projected p) (fixed p) (failed p).

(** [fail]: the first failure is kept and returned. *)
Definition fail (p : Projector) (err : ProjError) : Projector * (ProjError + Selection) :=
  match failed p with
  | Some first => (p, inl first)
  | None => (set_failed p err, inl err)
  end.

(** The answer to a choice whose key is new. *)
Definition answer (fuel : nat) (p : Projector) (key : PortableKey) (choice : Choice)
    : go (option (Projector * (ProjError + Selection))) :=
  match fixedSelection choice with
  | Some selection =>
    Done (Some (mkProjector (directives p) (consumedKeys p) (seenKeys p) (fallback p) (additional p) (projected p)
                  (fixed p + 1) (failed p), inr selection))
  | None =>
    match directives p !! key with
    | Some directive =>
      invalid ← ValidateSelection choice (DirSelection directive);
      Done (Some (match invalid with
        | Some _ => fail p ErrInvalidProjection
        | None =>
          (mkProjector (directives p) ({[key]} ∪ consumedKeys p) (seenKeys p) (fallback p) (additional p)
             (projected p + 1) (fixed p) (failed p), inr (cloneSelection (DirSelection directive)))
        end))
    | None =>
      chosen ← Choose fuel (fallback p) choice;
      Done (match chosen with
        | None => None
        | Some (d, r) =>
          let p := mkProjector (directives p) (consumedKeys p) (seenKeys p) d (additional p) (projected p) (fixed p) (failed p) in
          Some (match r with
            | inl _ => fail p ErrInvalidProjection
            | inr selection =>
              (mkProjector (directives p) (consumedKeys p) (seenKeys p) (fallback p) (additional p ++ [key]) (projected p)
                 (fixed p) (failed p), inr selection)
            end)
        end)
    end
  end.

Definition projectorChoose (fuel : nat) (p : Projector) (choice : Choice)
    : go (option (Projector * (ProjError + Selection))) :=
  match failed p with
  | Some err => Done (Some (p, inl err))
  | None =>
    match validatePortableChoice choice with
    | Some err => Done (Some (fail p err))
    | None =>
      match PortableKeyForChoice choice with
      | inl err => Done (Some (fail p err))
      | inr key =>
        if bool_decide (key ∈ seenKeys p) then Done (Some (fail p ErrDuplicateTarget))
        else answer fuel (set_seen p ({[key]} ∪ seenKeys p)) key choice
      end
    end
  end.

(** As a decider of the executions, its errors being those of another decider. *)
Definition projectorError (e : ProjError) : DecisionError :=
  ErrOther (match e with ErrInvalidProjection => 1 | ErrDuplicateTarget => 2 end).

#[export] Instance projector_decider : Decider Projector :=
  {| Choose := λ fuel p c,
       r ← projectorChoose fuel p c;
       Done (match r with
             | None => None
             | Some (p, inl err) => Some (p, inl (projectorError err))
             | Some (p, inr s) => Some (p, inr s)
             end);
     OperationContext := λ _, None |}.

(** ** Reports

    A list that can be null is an [option]; [items] are its elements. *)

Definition items {A} (l : option (list A)) : list A := default [] l.

Record ProjectionReport := mkReport {
  Fidelity : ProjectionFidelity; ReDirectives : Z; Projected : Z; Fixed : Z;
  Additional : option (list PortableKey); Unmatched : option (list Directive) }.

#[export] Instance ProjectionReport_eq_dec : EqDecision ProjectionReport.
Proof. solve_decision. Defined.

Definition compareKeys (l r : PortableKey) : comparison :=
  lexico (String.compare (KeyKind l) (KeyKind r)) (lexico (String.compare (KeyNode l) (KeyNode r))
  (lexico (String.compare (KeyFrom l) (KeyFrom r)) (lexico (String.compare (KeyTo l) (KeyTo r))
  (lexico (Incarnation l ?= Incarnation r) (Occurrence l ?= Occurrence r))))).

Definition compareDirectives (l r : Directive) : comparison :=
  lexico (SourceIndex l ?= SourceIndex r) (compareKeys (DirKey l) (DirKey r)).

Definition key_le (l r : PortableKey) : Prop := compareKeys l r ≠ Gt.
Definition directive_le (l r : Directive) : Prop := compareDirectives l r ≠ Gt.

#[export] Instance key_le_dec : RelDecision key_le.
Proof. intros l r. unfold key_le. apply _. Defined.
#[export] Instance directive_le_dec : RelDecision directive_le.
Proof. intros l r. unfold directive_le. apply _. Defined.

Definition sortKeys (keys : list PortableKey) : list PortableKey := merge_sort key_le keys.

(** The directives that were not consumed. *)
Definition unmatched (p : Projector) : list Directive :=
  map_to_list (directives p) ≫= λ '(key, directive),
    if bool_decide (key ∈ consumedKeys p) then [] else [cloneDirective directive].

Definition ProjectorFinish (p : Projector) : ProjectionReport :=
  let unmatched := merge_sort directive_le (unmatched p) in
  let additional := sortKeys (additional p) in
  let fidelity :=
    if bool_decide (failed p ≠ None) then ProjectionFailed
    else if negb (zlen additional =? 0) || negb (zlen unmatched =? 0) then ProjectionPartial
    else ProjectionExact in
  mkReport fidelity (Z.of_nat (size (directives p))) (projected p) (fixed p) (Some additional) (Some unmatched).

Definition ProjectorErr (p : Projector) : option ProjError := failed p.

(** ** Verification of a recorded tape (execution.go)

    The loop of [VerifyExecutionProjection]: the projector has to answer every recorded
    choice with the recorded selection. *)

Fixpoint projectEntries (fuel : nat) (p : Projector) (entries : list Entry) : go (option (SemanticError + Projector)) :=
  match entries with
  | [] => Done (Some (inr p))
  | entry :: entries =>
    chosen ← projectorChoose fuel p (EnChoice entry);
    match chosen with
    | None => Done None
    | Some (p, inl _) => Done (Some (inl ErrInvalidExecution))
    | Some (p, inr selection) =>
      if negb (bool_decide (selection = EnSelection entry)) then Done (Some (inl ErrInvalidExecution))
      else projectEntries fuel p entries
    end
  end.
