(* ===== verification/ProjectorProps.v ===== *)
(** * Properties of the projector

    What a projection reports is a function of its directives and of the choices it
    answered ([accounting]); a tape is pinned by its own directives. *)

From S2P Require Import Prelude.
From S2P Require Export Projector DecisionProps.
From S2P Require Scenario.
From stdpp Require Import options.

#[global] Open Scope Z_scope.

(** ** Orders *)

Lemma compareKeys_ok : compare_ok compareKeys.
Proof.
  unfold compareKeys.
  repeat first [apply compare_ok_lexico | apply (compare_ok_pull _ _ compare_ok_string)
    | apply (compare_ok_pull _ _ compare_ok_Z)].
Qed.

Lemma compareKeys_eq l r : compareKeys l r = Eq → l = r.
Proof.
  unfold compareKeys. rewrite !lexico_eq. intros (H1 & H2 & H3 & H4 & H5 & H6).
  apply String.compare_eq_iff in H1, H2, H3, H4. apply Z.compare_eq_iff in H5, H6.
  destruct l, r. simpl in *. by subst.
Qed.

Lemma compareDirectives_ok : compare_ok compareDirectives.
Proof.
  unfold compareDirectives. apply compare_ok_lexico; [apply (compare_ok_pull _ _ compare_ok_Z) |].
  apply (compare_ok_pull _ _ compareKeys_ok).
Qed.

#[export] Instance key_le_total : Total key_le := compare_ok_total _ compareKeys_ok.
#[export] Instance key_le_transitive : Transitive key_le := compare_ok_transitive _ compareKeys_ok.
#[export] Instance directive_le_total : Total directive_le := compare_ok_total _ compareDirectives_ok.
#[export] Instance directive_le_transitive : Transitive directive_le := compare_ok_transitive _ compareDirectives_ok.

(** ** Directives *)

Definition directive_ok (d : Directive) : Prop :=
  SourceIndex d < Scenario.MaxDecisions ∧ validateKey (DirKey d) = true ∧ validateDirectiveSelection d = true.

Definition before (d e : Directive) : Prop := SourceIndex d < SourceIndex e.

#[export] Instance before_transitive : Transitive before.
Proof. intros ???. unfold before. lia. Qed.

Definition directives_ok (ds : list Directive) : Prop :=
  StronglySorted before ds ∧ Forall directive_ok ds ∧ NoDup (DirKey <$> ds).

Lemma validateDirectivesLoop_spec previous seen ds :
  validateDirectivesLoop previous seen ds = None ↔
  directives_ok ds ∧ (∀ d, d ∈ ds → DirKey d ∉ seen) ∧
  match previous with Some p => Forall (λ d, p < SourceIndex d) ds | None => True end.
Proof.
  unfold directives_ok. revert previous seen. induction ds as [|d ds IH]; intros previous seen; cbn [validateDirectivesLoop].
  { split; [| done]. intros _. split_and!; try constructor; [by intros ? ?%elem_of_nil | by destruct previous]. }
  rewrite fmap_cons, Forall_cons, NoDup_cons. unfold directive_ok at 1.
  assert (StronglySorted before (d :: ds) ↔ StronglySorted before ds ∧ Forall (λ e, SourceIndex d < SourceIndex e) ds) as ->.
  { split; [by inversion 1 | intros []; by constructor]. }
  destruct (Z.leb_spec Scenario.MaxDecisions (SourceIndex d)) as [|Hmax]; [split; [done |]; intros; conj_all; lia |].
  assert (match previous with Some p => SourceIndex d <=? p | None => false end = false ↔
          match previous with Some p => p < SourceIndex d | None => True end) as Hprev.
  { destruct previous; [rewrite Z.leb_gt; lia | done]. }
  destruct (match previous with Some p => SourceIndex d <=? p | None => false end) eqn:Ep.
  { split; [done |]. intros (_ & _ & H). enough (true = false) by done. apply Hprev. destruct previous; [| done]. by apply Forall_cons in H as [? _]. }
  pose proof (proj1 Hprev eq_refl) as Hp. clear Hprev Ep.
  destruct (validateKey (DirKey d)); cbn [negb]; [| split; [done | intros; conj_all; congruence]].
  destruct (validateDirectiveSelection d); cbn [negb]; [| split; [done | intros; conj_all; congruence]].
  case_bool_decide as Hs; [split; [done |]; intros (_ & H & _); exfalso; apply (H d); [by left | done] |].
  rewrite IH. clear IH. split.
  - intros ((Hso & Hok & Hnd) & Hd & Hf). split_and!; try done.
    + intros (e & He & Hin)%list_elem_of_fmap. apply (Hd e Hin). rewrite <- He. set_solver.
    + intros e [->|Hin]%elem_of_cons; [done |]. specialize (Hd e Hin). set_solver.
    + destruct previous; [| done]. apply Forall_cons. split; [done |]. eapply Forall_impl; [exact Hf |]. simpl. lia.
  - intros (([Hso Hf] & [_ Hok] & Hni & Hnd) & Hd & _). split_and!; try done.
    intros e Hin. assert (DirKey e ≠ DirKey d) by (intros E; apply Hni; apply list_elem_of_fmap; by exists e).
    assert (DirKey e ∉ seen) by (apply Hd; by right). set_solver.
Qed.

Lemma ValidateDirectives_spec ds : ValidateDirectives ds = None ↔ directives_ok ds.
Proof. unfold ValidateDirectives. rewrite validateDirectivesLoop_spec. set_solver. Qed.

Lemma directives_ok_sorted ds : directives_ok ds → StronglySorted directive_le ds.
Proof.
  intros (Hs & _). induction Hs as [|d ds Hs IH Hf]; constructor; [done |].
  eapply Forall_impl; [exact Hf |]. intros e He. unfold directive_le, compareDirectives, before in *. simpl in He.
  by rewrite (proj2 (Z.compare_lt_iff _ _) He).
Qed.

Lemma directives_ok_sublist ds es : es `sublist_of` ds → directives_ok ds → directives_ok es.
Proof.
  intros Hsub (Hs & Hok & Hnd). split_and!.
  - induction Hsub as [|d es ds Hsub IH|d es ds Hsub IH]; [done | |].
    + apply StronglySorted_inv in Hs as [Hs Hf]. apply Forall_cons in Hok as [_ Hok]. apply NoDup_cons in Hnd as [_ Hnd].
      constructor; [auto |]. rewrite Forall_forall in *. intros e He. apply Hf. by eapply elem_of_sublist.
    + apply StronglySorted_inv in Hs as [Hs Hf]. apply Forall_cons in Hok as [_ Hok]. apply NoDup_cons in Hnd as [_ Hnd]. auto.
  - rewrite Forall_forall in *. intros e He. apply Hok. by eapply elem_of_sublist.
  - eapply sublist_NoDup; [done | by apply fmap_sublist].
Qed.

Lemma directives_before_inj ds d e : StronglySorted before ds → d ∈ ds → e ∈ ds → SourceIndex d = SourceIndex e → d = e.
Proof.
  induction 1 as [|x ds Hs IH Hf]; [by intros ?%elem_of_nil |]. rewrite Forall_forall in Hf. unfold before in Hf.
  intros [->|Hd]%elem_of_cons [->|He]%elem_of_cons E; [done | | | auto]; [specialize (Hf e He) | specialize (Hf d Hd)]; lia.
Qed.

(** Sorting the values taken from a map of directives gives them in source order. *)
Lemma directives_sorted ds l : directives_ok ds → l ≡ₚ ds → merge_sort directive_le l = ds.
Proof.
  intros Hok Hl. apply (StronglySorted_unique_strong directive_le).
  - intros d e Hd He Hle Hge. rewrite merge_sort_Permutation, Hl in Hd.
    apply (directives_before_inj ds); [apply Hok | done | done |].
    unfold directive_le, compareDirectives in *. rewrite (compare_anti _ compare_ok_Z (SourceIndex d)) in Hge.
    rewrite (compare_anti _ compareKeys_ok (DirKey d)) in Hge.
    destruct (Z.compare_spec (SourceIndex d) (SourceIndex e)); simpl in *; done.
  - apply StronglySorted_merge_sort; apply _.
  - by apply directives_ok_sorted.
  - by rewrite merge_sort_Permutation.
Qed.

Definition directive_map (ds : list Directive) : gmap PortableKey Directive :=
  list_to_map ((λ d, (DirKey d, d)) <$> ds).

Lemma directive_map_lookup ds k d :
  NoDup (DirKey <$> ds) → directive_map ds !! k = Some d ↔ d ∈ ds ∧ DirKey d = k.
Proof.
  intros Hnd. unfold directive_map. rewrite <- elem_of_list_to_map by (rewrite <- list_fmap_compose; exact Hnd).
  rewrite list_elem_of_fmap. naive_solver.
Qed.

Lemma directive_map_None ds k : directive_map ds !! k = None ↔ k ∉ DirKey <$> ds.
Proof. unfold directive_map. rewrite <- not_elem_of_list_to_map. by rewrite <- list_fmap_compose. Qed.

Lemma cloneDirective_id d : cloneDirective d = d.
Proof. destruct d. unfold cloneDirective. simpl. by rewrite cloneSelection_id. Qed.

(** ** Choices *)

(** A selection of the seeded decider is legal. *)
Lemma seed_in_domain fuel d c d' s :
  choice_u64 c → seedChoose fuel d c = Done (Some (d', inr s)) → choice_wf c ∧ in_domain c s.
Proof.
  intros Hu E. unfold seedChoose in E. destruct (ValidateChoice_spec c) as [Hwf [Hv|Hv]]; rewrite Hv in E; [| done].
  apply Hwf in Hv as Hc. split; [done |]. clear Hwf Hv. pose proof Hc as (_ & _ & _ & Hd).
  destruct (decide (Options c = [])) as [Ho|Hne].
  - destruct Hd as [(? & _) | (_ & lo & hi & Hlo & Hhi & Hr)]; [done |]. rewrite Ho, Hlo, Hhi in E.
    destruct (Z.eqb_spec lo hi) as [Heq|Hne].
    { injection E as _ <-. right. split_and!; try done. exists lo, hi, lo. split_and!; done || lia. }
    destruct Hu as [_ Hu]. rewrite Hhi in Hu.
    rewrite (wrap64_small (hi - lo)) in E by (unfold is_u64; lia). rewrite wrap64_small in E by (unfold is_u64; lia).
    unfold Uint64N in E. destruct (Z.eqb_spec (hi - lo + 1) 0); [lia |]. cbn [mbind go_bind] in E.
    destruct (uint64N fuel (random d) (hi - lo + 1)) as [[r v]|] eqn:Ev; [| done]. injection E as _ <-.
    apply uint64N_range in Ev; [| lia]. right. split_and!; try done. exists lo, hi, (lo + v). split_and!; try done; lia.
  - pose proof (in_options_size c Hc Hne) as Hn. destruct Hd as [(_ & _ & _ & Hf & _) | (? & _)]; [| done].
    destruct Hu as [Hu _]. destruct (Options c) as [|o [|o' l]] eqn:Ho; [done | |].
    { injection E as _ <-. apply (option_in_domain c 0 o); [done | done | by rewrite Ho]. }
    rewrite <- Ho in *. rewrite totalWeight_spec in E by (done || by unfold is_u64). case_decide as Hle; [| done].
    pose proof (weights_pos _ Hne Hu Hf) as Hpos. rewrite Z.add_0_l in *. unfold Uint64N in E.
    destruct (Z.eqb_spec (weights (Options c)) 0); [lia |]. cbn [mbind go_bind] in E.
    destruct (uint64N fuel (random d) (weights (Options c))) as [[r v]|] eqn:Ev; [| done].
    apply uint64N_range in Ev; [| lia]. destruct (pickOption_spec (Options c) v Hu Ev Hle) as (i & o1 & Hi & Hp & _).
    rewrite Hp in E. injection E as _ <-. by eapply option_in_domain.
Qed.

(** A fixed choice has one legal selection. *)
Lemma fixedSelection_spec c s : choice_wf c → fixedSelection c = Some s → ∀ s', in_domain c s' ↔ s' = s.
Proof.
  intros (_ & _ & _ & Hd) E s'. unfold fixedSelection in E.
  destruct Hd as [(Hne & Hlo & Hhi & Hf & _) | (Ho & lo & hi & Hlo & Hhi & _)].
  - rewrite Hlo in E. destruct (Options c) as [|o [|]] eqn:Ho; [done | | done]. injection E as <-.
    apply Forall_cons in Hf as [[Hid _] _]. split.
    + intros [(_ & Hn & _ & Hin) | (? & _)]; [| congruence]. rewrite Ho in Hin. apply list_elem_of_singleton in Hin.
      destruct s'. simpl in *. by subst.
    + intros ->. left. rewrite Ho. split_and!; try done. by left.
  - rewrite Ho, Hlo, Hhi in E. destruct (Z.eqb_spec lo hi) as [<-|]; [| done]. injection E as <-. split.
    + intros [(? & _) | (_ & Hs & lo' & hi' & n & Hlo' & Hhi' & Hn & Hr)]; [congruence |].
      assert (lo' = lo ∧ hi' = lo) as [-> ->] by (split; congruence). assert (n = lo) as -> by lia.
      destruct s'. simpl in *. by subst.
    + intros ->. right. split_and!; try done. exists lo, lo, lo. split_and!; done || lia.
Qed.

Definition key_of (c : Choice) : PortableKey :=
  match PortableKeyForChoice c with inr k => k | inl _ => mkKey "" "" "" "" 0 0 end.

Definition has_key (c : Choice) : Prop := PortableKeyForChoice c = inr (key_of c).

Lemma has_key_inr c k : PortableKeyForChoice c = inr k → has_key c ∧ k = key_of c.
Proof. intros E. unfold has_key, key_of. by rewrite E. Qed.

Lemma validatePortableChoice_wf c : validatePortableChoice c = None → choice_wf c.
Proof.
  unfold validatePortableChoice. destruct (ValidateChoice_spec c) as [Hwf [Hv|Hv]]; rewrite Hv; [| done].
  intros _. by apply Hwf.
Qed.

Lemma has_key_portable c : has_key c → validatePortableChoice c = None ∧ choice_wf c ∧ validateKey (key_of c) = true.
Proof.
  unfold has_key, PortableKeyForChoice. intros E. destruct (validatePortableChoice c) eqn:Hv; [done |].
  split_and!; [done | by apply validatePortableChoice_wf |].
  destruct (_ ≫= _); [| done]. case_if_in E; [| done]. by injection E as <-.
Qed.

(** ** Accounting *)

Definition variable_choices (cs : list Choice) : list Choice := filter (λ c, fixedSelection c = None) cs.
Definition fixed_choices (cs : list Choice) : list Choice := filter (λ c, fixedSelection c ≠ None) cs.
Definition directed (ds : list Directive) (c : Choice) : Prop := key_of c ∈ DirKey <$> ds.
#[export] Instance directed_dec ds c : Decision (directed ds c).
Proof. unfold directed. apply _. Defined.

Definition covered (ds : list Directive) (cs : list Choice) : list Choice := filter (directed ds) (variable_choices cs).
Definition extra (ds : list Directive) (cs : list Choice) : list PortableKey :=
  key_of <$> filter (λ c, ¬ directed ds c) (variable_choices cs).
Definition missing (ds : list Directive) (cs : list Choice) : list Directive :=
  filter (λ d, DirKey d ∉ key_of <$> variable_choices cs) ds.

(** The report on a list of answered choices. *)
Definition accounting (failed : bool) (ds : list Directive) (cs : list Choice) : ProjectionReport :=
  mkReport
    (if failed then ProjectionFailed
     else if bool_decide (extra ds cs = [] ∧ missing ds cs = []) then ProjectionExact else ProjectionPartial)
    (zlen ds) (zlen (covered ds cs)) (zlen (fixed_choices cs)) (Some (sortKeys (extra ds cs))) (Some (missing ds cs)).

(** What a projector has counted. *)
Record tracks (ds : list Directive) (cs : list Choice) (p : Projector) : Prop := {
  tr_directives : directives p = directive_map ds;
  tr_consumed : consumedKeys p = list_to_set (key_of <$> covered ds cs);
  tr_additional : additional p = extra ds cs;
  tr_projected : projected p = zlen (covered ds cs);
  tr_fixed : fixed p = zlen (fixed_choices cs) }.

Lemma NewProjector_spec ds seed p :
  NewProjector ds seed = inr p →
  directives_ok ds ∧ tracks ds [] p ∧ seenKeys p = ∅ ∧ failed p = None ∧ fallback p = NewSeedDecider seed.
Proof.
  unfold NewProjector. destruct (ValidateDirectives ds) eqn:Hv; [done |]. intros [= <-].
  apply ValidateDirectives_spec in Hv. split_and!; try done. split; simpl; try done.
  unfold directive_map. f_equal. apply list_fmap_ext. intros _ d _. by rewrite cloneDirective_id.
Qed.

Lemma unmatched_spec ds cs p :
  directives_ok ds → tracks ds cs p → merge_sort directive_le (unmatched p) = missing ds cs.
Proof.
  intros Hok [Hd Hc _ _ _]. apply directives_sorted; [eapply directives_ok_sublist; [apply sublist_filter | done] |].
  unfold unmatched. rewrite Hd, Hc. unfold directive_map. rewrite map_to_list_to_map.
  2: { rewrite <- list_fmap_compose. apply Hok. }
  assert (∀ l, l ⊆ ds →
    ((λ d, (DirKey d, d)) <$> l) ≫= (λ '(key, directive),
      if bool_decide (key ∈ (list_to_set (key_of <$> covered ds cs) : gset PortableKey)) then [] else [cloneDirective directive])
    = missing l cs) as H; [| by rewrite (H ds)].
  induction l as [|d l IH]; intros Hl; [done |]. unfold missing. rewrite filter_cons, fmap_cons. cbn [mbind list_bind].
  specialize (IH ltac:(set_solver)). rewrite cloneDirective_id. fold (missing l cs).
  assert (DirKey d ∈ (list_to_set (key_of <$> covered ds cs) : gset PortableKey) ↔ DirKey d ∈ key_of <$> variable_choices cs) as Hiff.
  { rewrite elem_of_list_to_set, !list_elem_of_fmap. split.
    - intros (c & E & [_ Hc']%list_elem_of_filter). by exists c.
    - intros (c & E & Hc'). exists c. split; [done |]. apply list_elem_of_filter. split; [| done]. unfold directed.
      rewrite <- E. apply list_elem_of_fmap. exists d. split; [done |]. apply Hl. by left. }
  rewrite <- IH. destruct (bool_decide_reflect (DirKey d ∈ (list_to_set (key_of <$> covered ds cs) : gset PortableKey))) as [Hb|Hb];
    destruct (decide (DirKey d ∉ key_of <$> variable_choices cs)); done || tauto.
Qed.

Lemma Finish_accounts ds cs p :
  directives_ok ds → tracks ds cs p →
  ProjectorFinish p = accounting (bool_decide (failed p ≠ None)) ds cs.
Proof.
  intros Hok Ht. unfold ProjectorFinish, accounting. rewrite (unmatched_spec ds cs p Hok Ht). destruct Ht as [Hd _ Ha Hp Hf].
  rewrite Ha, Hp, Hf, Hd. unfold directive_map. rewrite map_size_list_to_map.
  2: { rewrite <- list_fmap_compose. apply Hok. }
  rewrite length_fmap. f_equal. case_bool_decide; [done |]. rewrite !zlen_eqb_zero.
  assert (sortKeys (extra ds cs) = [] ↔ extra ds cs = []) as Hiff.
  { unfold sortKeys. split; [| by intros ->]. intros E. apply Permutation_nil. rewrite <- E.
    apply merge_sort_Permutation. }
  repeat case_bool_decide; simpl; try done; tauto.
Qed.

(** ** Steps *)

Lemma filter_snoc {A} (P : A → Prop) `{∀ x, Decision (P x)} l x :
  filter P (l ++ [x]) = filter P l ++ if decide (P x) then [x] else [].
Proof. by rewrite filter_app, filter_cons. Qed.

(** The answer to a choice, for the keys of the directives. *)
Definition answers (ds : list Directive) (c : Choice) (s : Selection) : Prop :=
  match fixedSelection c with
  | Some s' => s = s'
  | None => ∀ d, d ∈ ds → DirKey d = key_of c → s = DirSelection d ∧ ValidateSelection c s = Done None
  end.

Lemma fail_tracks ds cs p err p' r (Q : Selection → Prop) :
  tracks ds cs p → failed p = None → Done (Some (fail p err)) = Done (Some (p', r)) →
  match r with inl err => failed p' = Some err ∧ tracks ds cs p' | inr s => Q s end.
Proof. intros [] Hf. unfold fail. rewrite Hf. intros [= <- <-]. split; [done |]. by split. Qed.

(** A projector answers a choice or fails for good without counting it. *)
Lemma projectorChoose_spec fuel ds cs p c p' r :
  directives_ok ds → tracks ds cs p → failed p = None →
  projectorChoose fuel p c = Done (Some (p', r)) →
  match r with
  | inl err => failed p' = Some err ∧ tracks ds cs p'
  | inr s => failed p' = None ∧ tracks ds (cs ++ [c]) p' ∧ has_key c ∧ key_of c ∉ seenKeys p ∧
      seenKeys p' = {[key_of c]} ∪ seenKeys p ∧ answers ds c s ∧ (choice_u64 c → in_domain c s)
  end.
Proof.
  intros Hok Ht Hf. unfold projectorChoose. rewrite Hf.
  destruct (validatePortableChoice c) eqn:Hv; [by apply fail_tracks |].
  apply validatePortableChoice_wf in Hv as Hwf.
  destruct (PortableKeyForChoice c) as [err|key] eqn:Hk; [by apply fail_tracks |].
  apply has_key_inr in Hk as [Hk ->]. case_bool_decide as Hseen; [by apply fail_tracks |].
  destruct Ht as [Td Tc Ta Tp Tf]. unfold answer, answers. cbn [set_seen directives seenKeys fallback consumedKeys additional projected fixed failed].
  assert (tracks ds cs (set_seen p ({[key_of c]} ∪ seenKeys p))) as Ht' by by split.
  destruct (fixedSelection c) as [s|] eqn:Hfix.
  { intros [= <- <-]. split_and!; try done.
    - split; simpl; unfold covered, extra, covered, variable_choices, fixed_choices in *; rewrite ?filter_snoc, ?zlen_app;
        rewrite ?decide_False, ?decide_True by congruence; rewrite ?app_nil_r; try done. by rewrite Tf.
    - intros _. by apply (fixedSelection_spec c s Hwf Hfix). }
  assert (variable_choices (cs ++ [c]) = variable_choices cs ++ [c]) as Hvar.
  { unfold variable_choices. by rewrite filter_snoc, decide_True. }
  assert (fixed_choices (cs ++ [c]) = fixed_choices cs) as Hfixed.
  { unfold fixed_choices. rewrite filter_snoc, decide_False, app_nil_r by auto. done. }
  rewrite Td. destruct (directive_map ds !! key_of c) as [d|] eqn:Hd.
  - apply directive_map_lookup in Hd as [Hd Hdk]; [| apply Hok].
    assert (directed ds c) as Hdir by (apply list_elem_of_fmap; eauto).
    destruct (validateSelection_spec c (DirSelection d) Hwf) as [[Es Hin] | [Es _]];
      unfold ValidateSelection; rewrite ValidateChoice_wf, Es by done; cbn [mbind go_bind]; [| by apply fail_tracks].
    intros [= <- <-]. rewrite cloneSelection_id. split_and!; try done.
    + split; simpl; unfold covered, extra; rewrite ?Hvar, ?Hfixed, ?filter_snoc, ?fmap_app, ?zlen_app; try done;
        rewrite ?decide_True, ?decide_False, ?app_nil_r by auto; try done; [| by rewrite Tp].
      rewrite list_to_set_app_L, Tc. simpl. set_solver.
    + intros d' Hd' Hk'. assert (d' = d) as ->; [| by split].
      pose proof (proj2 (directive_map_lookup ds (key_of c) d ltac:(apply Hok)) (conj Hd Hdk)).
      pose proof (proj2 (directive_map_lookup ds (key_of c) d' ltac:(apply Hok)) (conj Hd' Hk')). congruence.
  - apply directive_map_None in Hd. change (Choose (D := SeedDecider)) with seedChoose.
    destruct (seedChoose fuel (fallback p) c) as [[[d' [err|s]]|]|] eqn:Es; cbn [mbind go_bind]; [| | done | done].
    + apply fail_tracks; [by split | done].
    + intros [= <- <-]. split_and!; try done.
      * split; simpl; unfold covered, extra; rewrite ?Hvar, ?Hfixed, ?filter_snoc; try done;
          rewrite ?decide_True, ?decide_False, ?app_nil_r by done; try done. by rewrite fmap_app, Ta.
      * intros d1 Hd1 Hk1. exfalso. apply Hd, list_elem_of_fmap. eauto.
      * intros Hu. by apply (seed_in_domain fuel (fallback p) c d' s).
Qed.

(** A projector that has answered the choices [cs]. *)
Definition progress (ds : list Directive) (cs : list Choice) (p : Projector) : Prop :=
  tracks ds cs p ∧ failed p = None ∧ seenKeys p = list_to_set (key_of <$> cs) ∧
  NoDup (key_of <$> cs) ∧ Forall has_key cs.

Lemma NewProjector_progress ds seed p : NewProjector ds seed = inr p → directives_ok ds ∧ progress ds [] p.
Proof.
  intros (Hok & Ht & Hs & Hf & _)%NewProjector_spec. split; [done |]. split_and!; try done; constructor.
Qed.

Lemma projectorChoose_progress fuel ds cs p c p' r :
  directives_ok ds → progress ds cs p → projectorChoose fuel p c = Done (Some (p', r)) →
  match r with
  | inl err => failed p' = Some err ∧ tracks ds cs p'
  | inr s => progress ds (cs ++ [c]) p' ∧ answers ds c s ∧ (choice_u64 c → in_domain c s)
  end.
Proof.
  intros Hok (Ht & Hf & Hs & Hnd & Hk) E. pose proof (projectorChoose_spec fuel ds cs p c p' r Hok Ht Hf E) as H.
  destruct r as [err|s]; [done |]. destruct H as (Hf' & Ht' & Hk' & Hni & Hs' & Ha & Hin).
  split; [| by split]. split_and!; try done.
  - rewrite Hs', Hs, fmap_app, list_to_set_app_L. simpl. set_solver.
  - rewrite fmap_app. apply NoDup_app. rewrite Hs, elem_of_list_to_set in Hni. split_and!; [done | | apply NoDup_singleton].
    intros k Hin1 Hin2%list_elem_of_singleton. by subst.
  - apply Forall_app. by split; [| constructor].
Qed.

Lemma projectEntries_spec fuel ds es cs p p' :
  directives_ok ds → progress ds cs p → projectEntries fuel p es = Done (Some (inr p')) →
  progress ds (cs ++ (EnChoice <$> es)) p' ∧ Forall (λ e, answers ds (EnChoice e) (EnSelection e)) es.
Proof.
  intros Hok. revert cs p. induction es as [|e es IH]; intros cs p Hp; cbn [projectEntries].
  { intros [= <-]. rewrite app_nil_r. split; [done | constructor]. }
  destruct (projectorChoose fuel p (EnChoice e)) as [[[p1 [err|s]]|]|] eqn:E; cbn [mbind go_bind]; [done | | done | done].
  pose proof (projectorChoose_progress _ _ _ _ _ _ _ Hok Hp E) as (Hp1 & Ha & _). simpl in Hp1, Ha.
  case_bool_decide as Hs; [subst s | done]. cbn [negb]. intros E'.
  destruct (IH _ _ Hp1 E') as [Hp' Ha']. rewrite <- (assoc_L (++)) in Hp'. split; [done | by constructor].
Qed.

Lemma length_filter_complement {A} (P : A → Prop) `{∀ x, Decision (P x)} l :
  (length (filter P l) + length (filter (λ x, ¬ P x) l) = length l)%nat.
Proof. rewrite <- length_app. apply Permutation_length, filter_app_complement. Qed.

(** Every directive is projected or unmatched. *)
Lemma covered_missing ds cs :
  NoDup (DirKey <$> ds) → NoDup (key_of <$> cs) → zlen (covered ds cs) + zlen (missing ds cs) = zlen ds.
Proof.
  intros Hds Hcs. unfold zlen, missing.
  rewrite <- (length_filter_complement (λ d, DirKey d ∈ key_of <$> variable_choices cs) ds).
  enough (length (covered ds cs) = length (filter (λ d, DirKey d ∈ key_of <$> variable_choices cs) ds)) by lia.
  rewrite <- (length_fmap key_of), <- (length_fmap DirKey). apply Permutation_length, NoDup_Permutation.
  - eapply sublist_NoDup; [exact Hcs |]. apply fmap_sublist. etrans; apply sublist_filter.
  - eapply sublist_NoDup; [exact Hds |]. apply fmap_sublist, sublist_filter.
  - intros k. rewrite !list_elem_of_fmap. split.
    + intros (c & -> & [(d & Hk & Hd)%list_elem_of_fmap Hc]%list_elem_of_filter). exists d. split; [done |].
      apply list_elem_of_filter. split; [| done]. rewrite <- Hk. by apply list_elem_of_fmap_2.
    + intros (d & -> & [(c & Hk & Hc)%list_elem_of_fmap Hd]%list_elem_of_filter). exists c. split; [done |].
      apply list_elem_of_filter. split; [| done]. unfold directed. rewrite <- Hk. by apply list_elem_of_fmap_2.
Qed.

(** Every choice is projected, fixed or additional. *)
Lemma covered_extra ds cs : zlen (covered ds cs) + zlen (fixed_choices cs) + zlen (extra ds cs) = zlen cs.
Proof.
  unfold zlen, covered, extra, fixed_choices. rewrite length_fmap.
  pose proof (length_filter_complement (directed ds) (variable_choices cs)).
  pose proof (length_filter_complement (λ c, fixedSelection c = None) cs) as H2. fold (variable_choices cs) in H2.
  cbn beta in *. lia.
Qed.

(** ** Directives of a tape *)

Definition entry_keyed (e : Entry) : Prop := has_key (EnChoice e).

Lemma directivesLoop_spec index seen es ds :
  directivesLoop index seen es = inr ds →
  Forall entry_keyed es ∧ NoDup ((λ e, key_of (EnChoice e)) <$> es) ∧ (∀ e, e ∈ es → key_of (EnChoice e) ∉ seen) ∧
  (λ d, (DirKey d, DirSelection d)) <$> ds =
  (λ e, (key_of (EnChoice e), EnSelection e)) <$> filter (λ e, fixedSelection (EnChoice e) = None) es.
Proof.
  revert index seen ds. induction es as [|e es IH]; intros index seen ds; cbn [directivesLoop].
  { intros [= <-]. split_and!; try constructor. by intros ? ?%elem_of_nil. }
  destruct (validatePortableChoice (EnChoice e)) eqn:Hv; [done |].
  destruct (PortableKeyForChoice (EnChoice e)) as [err|k] eqn:Hk; [done |]. apply has_key_inr in Hk as [Hk ->].
  case_bool_decide as Hs; [done |]. destruct (directivesLoop _ _ es) as [err|ds'] eqn:E; [done |].
  destruct (IH _ _ _ E) as (Hf & Hnd & Hd & He). intros [= <-]. split_and!.
  - by constructor.
  - rewrite fmap_cons. constructor; [| done]. intros (e' & Ee & Hin)%list_elem_of_fmap. apply (Hd e' Hin). rewrite <- Ee. set_solver.
  - intros e' [->|Hin]%elem_of_cons; [done |]. specialize (Hd e' Hin). set_solver.
  - rewrite filter_cons. destruct (fixedSelection (EnChoice e)); [by rewrite decide_False by done |].
    rewrite decide_True, !fmap_cons, He by done. simpl. by rewrite cloneSelection_id.
Qed.

Lemma DirectivesFromTape_spec t ds :
  DirectivesFromTape t = Done (inr ds) →
  Schema t = SchemaVersion ∧ Forall entry_ok (Entries t) ∧ directives_ok ds ∧ directivesLoop 0 ∅ (Entries t) = inr ds.
Proof.
  unfold DirectivesFromTape, NewTapeDecider. destruct (newTapeDecider_spec t false) as [(Hs & Hok & ->) | [_ ->]]; [| done].
  cbn [mbind go_bind]. destruct (directivesLoop 0 ∅ (Entries t)) as [|ds'] eqn:E; [done |].
  destruct (ValidateDirectives ds') eqn:Hv; [done |]. intros [= <-]. split_and!; try done. by apply ValidateDirectives_spec.
Qed.

(** A choice that is fixed or has a directive in its domain is answered. *)
Lemma projectorChoose_directed fuel ds cs p c s :
  directives_ok ds → progress ds cs p → has_key c → key_of c ∉ key_of <$> cs → in_domain c s →
  (fixedSelection c = None → ∃ d, d ∈ ds ∧ DirKey d = key_of c ∧ DirSelection d = s) →
  ∃ p', projectorChoose fuel p c = Done (Some (p', inr s)).
Proof.
  intros Hok (Ht & Hf & Hs & _ & _) Hk Hni Hin Hd. unfold projectorChoose. rewrite Hf.
  destruct (has_key_portable c Hk) as (Hv & Hwf & _). rewrite Hv, Hk.
  rewrite bool_decide_eq_false_2 by (by rewrite Hs, elem_of_list_to_set).
  unfold answer. cbn [set_seen directives]. destruct (fixedSelection c) as [s'|] eqn:Hfix.
  { apply (fixedSelection_spec c s' Hwf Hfix) in Hin as ->. by eexists. }
  destruct (Hd eq_refl) as (d & Hin' & Hdk & Hds).
  rewrite (tr_directives _ _ _ Ht), (proj2 (directive_map_lookup ds (key_of c) d ltac:(apply Hok)) (conj Hin' Hdk)).
  rewrite Hds, ValidateSelection_ok by done. cbn [mbind go_bind]. rewrite cloneSelection_id. by eexists.
Qed.

Lemma projectEntries_directed fuel ds es cs p :
  directives_ok ds → progress ds cs p → NoDup (key_of <$> cs ++ (EnChoice <$> es)) →
  Forall (λ e, entry_keyed e ∧ entry_ok e ∧ (fixedSelection (EnChoice e) = None →
    ∃ d, d ∈ ds ∧ DirKey d = key_of (EnChoice e) ∧ DirSelection d = EnSelection e)) es →
  ∃ p', projectEntries fuel p es = Done (Some (inr p')).
Proof.
  intros Hok. revert cs p. induction es as [|e es IH]; intros cs p Hp Hnd Hes; [by exists p |].
  apply Forall_cons in Hes as [(Hk & (_ & Hin & _) & Hd) Hes]. rewrite fmap_cons in Hnd.
  destruct (projectorChoose_directed fuel ds cs p (EnChoice e) (EnSelection e)) as [p1 E]; try done.
  { rewrite fmap_app in Hnd. apply NoDup_app in Hnd as (_ & Hnd & _). intros Hc. apply (Hnd _ Hc). by left. }
  pose proof (projectorChoose_progress _ _ _ _ _ _ _ Hok Hp E) as (Hp1 & _ & _). simpl in Hp1.
  destruct (IH _ _ Hp1) as [p' E']; [by rewrite <- (assoc_L (++)) | done |].
  exists p'. cbn [projectEntries]. rewrite E. cbn [mbind go_bind]. by rewrite bool_decide_eq_true_2.
Qed.

Lemma filter_none {A} (P : A → Prop) `{∀ x, Decision (P x)} l : (∀ x, x ∈ l → ¬ P x) → filter P l = [].
Proof.
  intros Hl. apply elem_of_nil_inv. intros x [Hx Hin]%list_elem_of_filter. by apply (Hl x).
Qed.

Lemma accounting_counts ds cs :
  NoDup (DirKey <$> ds) → NoDup (key_of <$> cs) →
  let report := accounting false ds cs in
  Projected report + zlen (items (Unmatched report)) = ReDirectives report ∧
  Projected report + Fixed report + zlen (items (Additional report)) = zlen cs ∧
  (Fidelity report = ProjectionExact ↔ key_of <$> variable_choices cs ≡ₚ DirKey <$> ds).
Proof.
  intros Hds Hcs report. subst report. cbn. split_and!.
  - by apply covered_missing.
  - rewrite <- (covered_extra ds cs). unfold zlen, sortKeys. by rewrite merge_sort_Permutation.
  - assert (NoDup (key_of <$> variable_choices cs)) as Hv.
    { eapply sublist_NoDup; [exact Hcs |]. apply fmap_sublist, sublist_filter. }
    split.
    + case_bool_decide as H; [| done]. intros _. destruct H as [He Hm]. unfold extra in He. apply fmap_nil_inv in He.
      apply NoDup_Permutation; try done. intros k. rewrite !list_elem_of_fmap. split.
      * intros (c & -> & Hc). destruct (decide (directed ds c)) as [Hd|Hd].
        -- unfold directed in Hd. apply list_elem_of_fmap in Hd. naive_solver.
        -- exfalso. apply (elem_of_nil c). rewrite <- He. by apply list_elem_of_filter.
      * intros (d & -> & Hd). destruct (decide (DirKey d ∈ key_of <$> variable_choices cs)) as [Hk|Hk].
        -- apply list_elem_of_fmap in Hk. naive_solver.
        -- exfalso. apply (elem_of_nil d). rewrite <- Hm. by apply list_elem_of_filter.
    + intros Hp. rewrite bool_decide_eq_true_2; [done |]. split.
      * unfold extra. rewrite filter_none; [done |]. intros c Hc Hd. apply Hd. unfold directed. rewrite <- Hp. by apply list_elem_of_fmap_2.
      * apply filter_none. intros d Hd Hk. apply Hk. rewrite Hp. by apply list_elem_of_fmap_2.
Qed.

Lemma accounting_exact ds cs :
  NoDup (DirKey <$> ds) → NoDup (key_of <$> cs) → key_of <$> variable_choices cs ≡ₚ DirKey <$> ds →
  accounting false ds cs = mkReport ProjectionExact (zlen ds) (zlen ds) (zlen cs - zlen ds) (Some []) (Some []).
Proof.
  intros Hds Hcs Hp. destruct (accounting_counts ds cs Hds Hcs) as (_ & _ & He). apply He in Hp. clear He.
  pose proof (covered_missing ds cs Hds Hcs) as H1. pose proof (covered_extra ds cs) as H2.
  unfold accounting in *. cbn [Fidelity] in Hp. case_bool_decide as H; [| done]. destruct H as [Hx Hm].
  rewrite Hx, Hm in *. rewrite !zlen_nil in *. f_equal; lia.
Qed.

Lemma variable_entries es :
  variable_choices (EnChoice <$> es) = EnChoice <$> filter (λ e, fixedSelection (EnChoice e) = None) es.
Proof.
  unfold variable_choices. induction es as [|e es IH]; [done |]. rewrite fmap_cons, !filter_cons.
  by case_decide; rewrite IH.
Qed.

(** ** Theorems *)

(** C26.  Accounting: the report of a projection that answered the choices of a tape is the
    function [accounting] of the directives and the choices alone, whatever the fallback
    chose.  Every directive is projected or unmatched, every choice is projected, fixed or
    additional, and the report is exact exactly when the keys of the variable choices are
    those of the directives; fixed choices got their only value and directed ones the
    selection of their directive, which is legal for them. *)
Theorem projection_accounts fuel ds seed p es p' :
  NewProjector ds seed = inr p → projectEntries fuel p es = Done (Some (inr p')) →
  let cs := EnChoice <$> es in let report := ProjectorFinish p' in
  report = accounting false ds cs ∧
  Projected report + zlen (items (Unmatched report)) = ReDirectives report ∧
  Projected report + Fixed report + zlen (items (Additional report)) = zlen es ∧
  (Fidelity report = ProjectionExact ↔ key_of <$> variable_choices cs ≡ₚ DirKey <$> ds) ∧
  Forall (λ e, answers ds (EnChoice e) (EnSelection e)) es.
Proof.
  intros Hnew E cs report. destruct (NewProjector_progress ds seed p Hnew) as [Hok Hp].
  destruct (projectEntries_spec fuel ds es [] p p' Hok Hp E) as [(Ht & Hf & _ & Hnd & _) Ha].
  assert (report = accounting false ds cs) as Hr.
  { subst report. rewrite (Finish_accounts ds cs p' Hok Ht). by rewrite Hf. }
  rewrite Hr. destruct (accounting_counts ds cs ltac:(apply Hok) Hnd) as (H1 & H2 & H3).
  split_and!; try done. rewrite H2. unfold zlen, cs. by rewrite length_fmap.
Qed.

(** Round trip: the directives taken from a tape determine it.  A projector made from
    them answers the choices of the tape with the recorded selections, in whatever order
    they come and whatever the seed of the fallback, and its report is exact. *)
Theorem directives_pin_tape fuel t ds seed es :
  DirectivesFromTape t = Done (inr ds) → es ≡ₚ Entries t →
  ∃ p p', NewProjector ds seed = inr p ∧ projectEntries fuel p es = Done (Some (inr p')) ∧
    ProjectorFinish p' = mkReport ProjectionExact (zlen ds) (zlen ds) (zlen (Entries t) - zlen ds) (Some []) (Some []).
Proof.
  intros (_ & Hent & Hok & Hloop)%DirectivesFromTape_spec Hes.
  destruct (directivesLoop_spec _ _ _ _ Hloop) as (Hkeys & Hnd & _ & Hds).
  assert (∃ p, NewProjector ds seed = inr p) as [p Hp].
  { unfold NewProjector. rewrite (proj2 (ValidateDirectives_spec ds) Hok). by eexists. }
  destruct (NewProjector_progress ds seed p Hp) as [_ Hpr].
  destruct (projectEntries_directed fuel ds es [] p) as [p' E]; try done.
  { rewrite app_nil_l, <- list_fmap_compose, Hes. exact Hnd. }
  { rewrite Hes. rewrite !Forall_forall in *. intros e He. split_and!; auto. intros Hv.
    assert ((key_of (EnChoice e), EnSelection e) ∈ (λ d, (DirKey d, DirSelection d)) <$> ds) as Hin.
    { rewrite Hds. apply list_elem_of_fmap. exists e. split; [done |]. by apply list_elem_of_filter. }
    apply list_elem_of_fmap in Hin as (d & [= Ek Es] & Hd). by exists d. }
  exists p, p'. split_and!; try done. set (cs := EnChoice <$> es) in *.
  destruct (projectEntries_spec fuel ds es [] p p' Hok Hpr E) as [(Ht & Hf & _ & Hcs & _) _].
  rewrite (Finish_accounts ds cs p' Hok Ht), Hf. rewrite bool_decide_eq_false_2 by auto.
  rewrite (accounting_exact ds cs); [| apply Hok | done |].
  - f_equal. unfold zlen, cs. by rewrite length_fmap, Hes.
  - unfold cs. rewrite variable_entries, Hes, <- list_fmap_compose.
    transitivity (fst <$> ((λ d, (DirKey d, DirSelection d)) <$> ds)); [| by rewrite <- list_fmap_compose].
    by rewrite Hds, <- list_fmap_compose.
Qed.

(** ** Witnesses: the tape of a fixed latency, an election timeout and a lost packet *)

Definition demo_node_context (generation : Z) : bytes :=
  encode_object [encode_member "node" (encode_string "a"); encode_member "incarnation" (encode_int 1);
    encode_member "generation" (encode_int generation)].
Definition demo_link_context (sequence : Z) : bytes :=
  encode_object [encode_member "from" (encode_string "a"); encode_member "to" (encode_string "b");
    encode_member "sender_incarnation" (encode_int 1); encode_member "send_sequence" (encode_int sequence);
    encode_member "message" (encode_object [])].

Definition demo_storage : Choice := mkChoice "s" "storage_latency" [] (Some 3) (Some 3) (demo_node_context 1).
Definition demo_election : Choice := mkChoice "e" "election_timeout" [] (Some 4) (Some 9) (demo_node_context 2).
Definition demo_loss : Choice :=
  mkChoice "l" "network_loss" [mkOption "deliver" 3; mkOption "drop" 1] None None (demo_link_context 7).
Definition demo_late : Choice := mkChoice "n" "network_latency" [] (Some 1) (Some 5) (demo_link_context 8).

Definition demo_source : Tape := mkTape SchemaVersion
  [entry_of_choice demo_storage (mkSelection "" (Some 3)); entry_of_choice demo_election (mkSelection "" (Some 8));
   entry_of_choice demo_loss (mkSelection "drop" None)].
Definition demo_directives : list Directive :=
  [mkDirective (mkKey "election_timeout" "a" "" "" 1 2) 1 (mkSelection "" (Some 8));
   mkDirective (mkKey "network_loss" "" "a" "b" 1 7) 2 (mkSelection "drop" None)].

Example demo_source_directives : DirectivesFromTape demo_source = Done (inr demo_directives).
Proof. vm_compute. reflexivity. Qed.

(** The value of a sum that is a success. *)
Definition right_value {E A} (d : A) (m : E + A) : A := match m with inr a => a | inl _ => d end.
Lemma right_value_ok {E A} (d : A) (m : E + A) : (if m then false else true) = true → m = inr (right_value d m).
Proof. by destruct m. Qed.

Definition no_projector : Projector := mkProjector ∅ ∅ ∅ (NewSeedDecider 0) [] 0 0 None.
Definition demo_projector : Projector := right_value no_projector (NewProjector demo_directives 123).

(** The election, then a choice that the source does not have. *)
Definition demo_target : list Entry :=
  [entry_of_choice demo_election (mkSelection "" (Some 8)); entry_of_choice demo_late (mkSelection "" (Some 4))].

Definition entries_value {E} (d : Projector) (m : go (option (E + Projector))) : Projector :=
  match m with Done (Some (inr p)) => p | _ => d end.
Lemma entries_value_ok {E} (d : Projector) (m : go (option (E + Projector))) :
  match m with Done (Some (inr _)) => true | _ => false end = true → m = Done (Some (inr (entries_value d m))).
Proof. by destruct m as [[[|]|]|]. Qed.

Definition demo_projected : Projector := entries_value no_projector (projectEntries 9 demo_projector demo_target).

Lemma demo_projector_ok : NewProjector demo_directives 123 = inr demo_projector.
Proof. apply right_value_ok. vm_compute. reflexivity. Qed.
Lemma demo_projected_ok : projectEntries 9 demo_projector demo_target = Done (Some (inr demo_projected)).
Proof. apply entries_value_ok. vm_compute. reflexivity. Qed.

Example demo_report : ProjectorFinish demo_projected =
  mkReport ProjectionPartial 2 1 0 (Some [mkKey "network_latency" "" "a" "b" 1 8])
    (Some [mkDirective (mkKey "network_loss" "" "a" "b" 1 7) 2 (mkSelection "drop" None)]).
Proof. vm_compute. reflexivity. Qed.

Lemma projection_accounts_witness :
  let cs := EnChoice <$> demo_target in let report := ProjectorFinish demo_projected in
  report = accounting false demo_directives cs ∧
  Projected report + zlen (items (Unmatched report)) = ReDirectives report ∧
  Projected report + Fixed report + zlen (items (Additional report)) = zlen demo_target ∧
  (Fidelity report = ProjectionExact ↔ key_of <$> variable_choices cs ≡ₚ DirKey <$> demo_directives) ∧
  Forall (λ e, answers demo_directives (EnChoice e) (EnSelection e)) demo_target.
Proof. exact (projection_accounts 9 demo_directives 123 demo_projector demo_target demo_projected demo_projector_ok demo_projected_ok). Defined.

Lemma directives_pin_tape_witness :
  ∃ p p', NewProjector demo_directives 5 = inr p ∧ projectEntries 0 p (reverse (Entries demo_source)) = Done (Some (inr p')) ∧
    ProjectorFinish p' = mkReport ProjectionExact 2 2 (3 - 2) (Some []) (Some []).
Proof. apply (directives_pin_tape 0 demo_source demo_directives 5); [exact demo_source_directives | apply reverse_Permutation]. Defined.
