(* ===== verification/Document.v ===== *)
(** * Documents of semantic plans (semanticplan/plan.go, outcome.go)

    What the documents of the package share: the patterns of digests and invariant
    identifiers, identities of adapters and nodes, digests of canonical JSON, and the strict
    decoding of one bounded document.  The reflection of [encoding/json] that fills a Go
    structure is a parameter of the decoding. *)

From S2P Require Import Prelude.
From S2P Require Export Projector.
From S2P Require Scenario AppOracle.
From stdpp Require Import options.

#[global] Open Scope Z_scope.

(** ** Identifiers *)

Definition is_lower (b : byte) : bool := (97 <=? code b) && (code b <=? 122).
Definition lower_hex (b : byte) : bool := is_digit b || ((97 <=? code b) && (code b <=? 102)).

(** 64 hexadecimal digits in lower case. *)
Definition digestPattern (value : string) : bool := (strlen value =? 64) && forallb lower_hex (str value).

(** Segments separated by slashes, each of lower-case letters, digits, dots, underscores and
    dashes, that start with a letter or digit, the first with a letter; the state says
    whether a slash was the last character. *)
Definition id_start (b : byte) : bool := is_lower b || is_digit b.
Definition id_char (b : byte) : bool := id_start b || (code b =? 46) || (code b =? 95) || (code b =? 45).

Fixpoint segments (slash : bool) (l : bytes) : bool :=
  match l with
  | [] => negb slash
  | b :: l =>
    if slash then id_start b && segments false l
    else if code b =? 47 then segments true l
    else id_char b && segments false l
  end.

Definition invariantPattern (value : string) : bool :=
  match str value with
  | [] => false
  | b :: l => is_lower b && segments false l
  end.

Definition validateNodeID (id : NodeID) : bool :=
  negb (String.eqb id "" || (256 <? strlen id) || negb (valid_utf8 (str id)) || negb (trimmed (str id)) || has_control (str id)).

Definition validateAdapterID (adapter : Scenario.Adapter) : bool :=
  let id := Scenario.AdID adapter in
  let version := Scenario.AdVersion adapter in
  negb (String.eqb id "" || (256 <? strlen id) || String.eqb version "" || (256 <? strlen version) ||
    negb (valid_utf8 (str id)) || negb (valid_utf8 (str version)) || negb (trimmed (str id)) || negb (trimmed (str version)) ||
    has_control (str id ++ str version)).

#[export] Instance Adapter_eq_dec : EqDecision Scenario.Adapter.
Proof. solve_decision. Defined.

Definition maxNormalizedInvariants : Z := 1024.

(** A set of identifiers: not null, bounded, matching the pattern, strictly increasing. *)
Definition validateInvariantSet (values : option (list string)) : bool :=
  match values with
  | None => false
  | Some values => (zlen values <=? maxNormalizedInvariants) && forallb invariantPattern values && strictlySorted values
  end.

Definition canonicalStrings (values : option (list string)) : option (list string) :=
  Some (sort_compact (items values)).

(** ** Sorted sets, by two indices *)

Fixpoint intersects (left : list string) {struct left} : list string → bool :=
  fix go right :=
    match left, right with
    | x :: left', y :: right' =>
      match String.compare x y with
      | Lt => intersects left' right
      | Gt => go right'
      | Eq => true
      end
    | _, _ => false
    end.

Fixpoint partitionSets (left : list string) {struct left} : list string → list string * list string * list string :=
  fix go right :=
    match left, right with
    | x :: left', y :: right' =>
      match String.compare x y with
      | Lt => let '(shared, leftOnly, rightOnly) := partitionSets left' right in (shared, x :: leftOnly, rightOnly)
      | Gt => let '(shared, leftOnly, rightOnly) := go right' in (shared, leftOnly, y :: rightOnly)
      | Eq => let '(shared, leftOnly, rightOnly) := partitionSets left' right' in (x :: shared, leftOnly, rightOnly)
      end
    | _, _ => ([], left, right)
    end.

(** [setIndex] is the rest of the set. *)
Fixpoint skip_less (value : string) (set : list string) : list string :=
  match set with
  | x :: set' => match String.compare x value with Lt => skip_less value set' | _ => set end
  | [] => []
  end.

Fixpoint isSubset (subset set : list string) : bool :=
  match subset with
  | [] => true
  | value :: subset =>
    match skip_less value set with
    | x :: set => if String.eqb x value then isSubset subset (x :: set) else false
    | [] => false
    end
  end.

(** ** Digests *)

Definition encode_bool (b : bool) : bytes := str (if b then "true" else "false").

(** [digestCanonicalJSON]: [encoded] is what [json.Marshal] returned. *)
Definition digestCanonicalJSON (encoded : option bytes) : SemanticError + string :=
  match encoded with
  | None => inl ErrInvalid
  | Some encoded => inr (digestBytes encoded)
  end.

Definition marshalAdapter (adapter : Scenario.Adapter) : bytes :=
  encode_object [encode_member "id" (encode_string (Scenario.AdID adapter)); encode_member "version" (encode_string (Scenario.AdVersion adapter))].

(** ** Decoding

    A reader has its content and may fail after it. *)

Record Reader := mkReader { content : bytes; broken : bool }.

(** [io.ReadAll] of an [io.LimitReader]. *)
Definition read_limited (limit : Z) (r : Reader) : option bytes :=
  if zlen (content r) <? limit then if broken r then None else Some (content r)
  else Some (take (Z.to_nat limit) (content r)).

Section decode.
Context {T : Type}.
(** [Decode] with unknown fields disallowed: the value and the rest of the text. *)
Variable Decode : bytes → option (T * bytes).

Definition decodePlanDocument (reader : option Reader) (maximum : Z) : SemanticError + T :=
  match reader with
  | None => inl ErrInvalid
  | Some reader =>
    match read_limited (maximum + 1) reader with
    | None => inl ErrInvalid
    | Some data =>
      if maximum <? zlen data then inl ErrInvalid
      else match RejectDuplicateNames data with
      | Some _ => inl ErrInvalid
      | None =>
        match Decode data with
        | None => inl ErrInvalid
        | Some (target, trailing) =>
          match skip_space trailing with [] => inr target | _ => inl ErrInvalid end
        end
      end
    end
  end.
End decode.
