(* ===== verification/DocumentProps.v ===== *)
(** * Properties of what documents share: sorted sets and digests *)

From S2P Require Import Prelude.
From S2P Require Export Document.
From S2P Require Digest.
From stdpp Require Import options.

#[global] Open Scope Z_scope.

(** One check of a validation. *)
Lemma check_none (b : bool) (e : SemanticError) rest : (if b then Some e else rest) = None ↔ b = false ∧ rest = None.
Proof. destruct b; naive_solver. Qed.

(** ** Sets by two indices *)

Lemma intersects_cons x l y r :
  intersects (x :: l) (y :: r) =
  match String.compare x y with Lt => intersects l (y :: r) | Gt => intersects (x :: l) r | Eq => true end.
Proof. reflexivity. Qed.

Lemma partitionSets_cons x l y r :
  partitionSets (x :: l) (y :: r) =
  match String.compare x y with
  | Lt => let '(s, a, b) := partitionSets l (y :: r) in (s, x :: a, b)
  | Gt => let '(s, a, b) := partitionSets (x :: l) r in (s, a, y :: b)
  | Eq => let '(s, a, b) := partitionSets l r in (x :: s, a, b)
  end.
Proof. reflexivity. Qed.

Lemma partitionSets_nil_l r : partitionSets [] r = ([], [], r).
Proof. by destruct r. Qed.
Lemma partitionSets_nil_r l : partitionSets l [] = ([], l, []).
Proof. by destruct l. Qed.

Lemma compare_gt x y : String.compare x y = Gt → slt y x.
Proof. unfold slt. rewrite String.compare_antisym. by destruct (String.compare y x). Qed.

(** Below the first element of a sorted set there is none. *)
Lemma below_sorted x y l : slt x y → sorted_set (y :: l) → x ∉ y :: l.
Proof.
  intros Hxy [_ Hf]%sorted_set_cons Hin. rewrite Forall_forall in Hf.
  apply (slt_irrefl x). apply elem_of_cons in Hin as [->|Hin]; [done |]. etrans; [exact Hxy | by apply Hf].
Qed.

(** Induction on two sorted sets, advancing as the indices do. *)
Lemma two_sets_ind (P : list string → list string → Prop) :
  (∀ r, P [] r) → (∀ l, P l []) →
  (∀ x l y r, slt x y → x ∉ y :: r → P l (y :: r) → P (x :: l) (y :: r)) →
  (∀ x l y r, slt y x → y ∉ x :: l → P (x :: l) r → P (x :: l) (y :: r)) →
  (∀ x l r, x ∉ l → x ∉ r → P l r → P (x :: l) (x :: r)) →
  ∀ l r, sorted_set l → sorted_set r → P l r.
Proof.
  intros H1 H2 H3 H4 H5 l. induction l as [|x l IHl]; intros r Hl; [done |].
  induction r as [|y r IHr]; intros Hr; [done |].
  pose proof (proj1 (sorted_set_cons _ _) Hl) as [Hl' Hlf]. pose proof (proj1 (sorted_set_cons _ _) Hr) as [Hr' Hrf].
  destruct (String.compare x y) eqn:E.
  - apply String.compare_eq_iff in E as <-. pose proof (sorted_set_NoDup _ Hl) as [? _]%NoDup_cons.
    pose proof (sorted_set_NoDup _ Hr) as [? _]%NoDup_cons. by apply H5; auto.
  - by apply H3; auto using below_sorted.
  - apply compare_gt in E. by apply H4; auto using below_sorted.
Qed.

Lemma slt_compare x y : slt x y → String.compare x y = Lt ∧ String.compare y x = Gt.
Proof. unfold slt. intros E. split; [done |]. by rewrite String.compare_antisym, E. Qed.

Lemma filter_id {A} (P : A → Prop) `{∀ x, Decision (P x)} (l : list A) : (∀ x, x ∈ l → P x) → filter P l = l.
Proof.
  induction l as [|x l IH]; intros Hl; [done |]. rewrite filter_cons, decide_True by (apply Hl; by left).
  rewrite IH; [done |]. intros y Hy. apply Hl. by right.
Qed.

Lemma filter_nothing {A} (P : A → Prop) `{∀ x, Decision (P x)} (l : list A) : (∀ x, x ∈ l → ¬ P x) → filter P l = [].
Proof. intros Hl. apply elem_of_nil_inv. intros x [Hx Hin]%list_elem_of_filter. by apply (Hl x). Qed.

Lemma filter_ext_elem {A} (P Q : A → Prop) `{∀ x, Decision (P x)} `{∀ x, Decision (Q x)} (l : list A) :
  (∀ x, x ∈ l → P x ↔ Q x) → filter P l = filter Q l.
Proof.
  induction l as [|x l IH]; intros Hl; [done |]. rewrite !filter_cons.
  rewrite (decide_ext (P x) (Q x)) by (apply Hl; by left).
  rewrite IH; [done |]. intros y Hy. apply Hl. by right.
Qed.

Lemma intersects_spec l r : sorted_set l → sorted_set r → intersects l r = true ↔ ∃ x, x ∈ l ∧ x ∈ r.
Proof.
  revert l r. apply two_sets_ind.
  - intros r. split; [by destruct r | set_solver].
  - intros l. split; [by destruct l | set_solver].
  - intros x l y r [E _]%slt_compare Hni IH. rewrite intersects_cons, E, IH. set_solver.
  - intros x l y r [_ E]%slt_compare Hni IH. rewrite intersects_cons, E, IH. set_solver.
  - intros x l r _ _ _. rewrite intersects_cons, (compare_ok_refl _ x compare_ok_string). split; [| done].
    intros _. exists x. set_solver.
Qed.

(** The three parts are the intersection and the two differences. *)
Lemma partitionSets_spec l r :
  sorted_set l → sorted_set r →
  partitionSets l r = (filter (λ x, x ∈ r) l, filter (λ x, x ∉ r) l, filter (λ x, x ∉ l) r).
Proof.
  revert l r. apply two_sets_ind.
  - intros r. rewrite partitionSets_nil_l, (filter_id (λ x, x ∉ [])); [done | set_solver].
  - intros l. rewrite partitionSets_nil_r, (filter_id (λ x, x ∉ [])), filter_nothing by set_solver. done.
  - intros x l y r Hlt Hni IH. destruct (slt_compare _ _ Hlt) as [E _]. rewrite partitionSets_cons, E, IH.
    rewrite (filter_cons _ x l), decide_False by done. rewrite (filter_cons (λ z, z ∉ y :: r) x l), decide_True by done.
    f_equal. apply filter_ext_elem. set_solver.
  - intros x l y r Hlt Hni IH. destruct (slt_compare _ _ Hlt) as [_ E]. rewrite partitionSets_cons, E, IH.
    rewrite (filter_cons (λ z, z ∉ x :: l) y r), decide_True by done. do 2 f_equal; apply filter_ext_elem; set_solver.
  - intros x l r Hl Hr IH. rewrite partitionSets_cons, (compare_ok_refl _ x compare_ok_string), IH.
    rewrite !filter_cons, !decide_True, !decide_False by set_solver.
    f_equal; [f_equal; [f_equal |] |]; apply filter_ext_elem; set_solver.
Qed.

Lemma skip_less_spec value set :
  sorted_set set → sorted_set (skip_less value set) ∧
  (∀ x, x ∈ set → (slt x value ∨ x ∈ skip_less value set)) ∧ (∀ x, x ∈ skip_less value set → x ∈ set ∧ ¬ slt x value).
Proof.
  induction set as [|x set IH]; intros Hs; [by split_and!; set_solver |].
  pose proof (proj1 (sorted_set_cons _ _) Hs) as [Hs' Hf]. cbn [skip_less].
  destruct (String.compare x value) eqn:E.
  - split_and!; [done | set_solver |]. intros y Hy. split; [done |]. intros Hlt.
    apply String.compare_eq_iff in E as ->. by apply (below_sorted y value set).
  - destruct (IH Hs') as (H1 & H2 & H3). split_and!; [done | |].
    + intros y [->|Hy]%elem_of_cons; [by left | auto].
    + intros y Hy. destruct (H3 y Hy). set_solver.
  - split_and!; [done | set_solver |]. intros y Hy. split; [done |]. intros Hlt. apply compare_gt in E.
    rewrite Forall_forall in Hf. apply elem_of_cons in Hy as [->|Hy]; [apply (slt_irrefl x); by etrans |].
    apply (slt_irrefl x). etrans; [by apply Hf |]. by etrans.
Qed.

Lemma isSubset_spec subset set : sorted_set subset → sorted_set set → isSubset subset set = true ↔ ∀ x, x ∈ subset → x ∈ set.
Proof.
  revert set. induction subset as [|v subset IH]; intros set Hb Hs; cbn [isSubset]; [split; [set_solver | done] |].
  pose proof (proj1 (sorted_set_cons _ _) Hb) as [Hb' Hf]. rewrite Forall_forall in Hf.
  destruct (skip_less_spec v set Hs) as (H1 & H2 & H3).
  destruct (skip_less v set) as [|x rest] eqn:E.
  { split; [done |]. intros H. destruct (H2 v ltac:(apply H; by left)) as [Hlt|?%elem_of_nil]; [by apply slt_irrefl in Hlt | done]. }
  destruct (String.eqb_spec x v) as [->|Hne].
  - rewrite IH by done. split.
    + intros H y [->|Hy]%elem_of_cons; [by apply H3; left | by apply H3, H].
    + intros H y Hy. destruct (H2 y ltac:(apply H; by right)) as [Hlt|]; [| done].
      exfalso. apply (slt_irrefl y). etrans; [exact Hlt | by apply Hf].
  - split; [done |]. intros H. exfalso. destruct (H2 v ltac:(apply H; by left)) as [Hlt|Hin]; [by apply slt_irrefl in Hlt |].
    apply elem_of_cons in Hin as [->|Hin]; [done |]. apply sorted_set_cons in H1 as [_ Hx]. rewrite Forall_forall in Hx.
    destruct (H3 x ltac:(by left)) as [_ Hnl]. by apply Hnl, Hx.
Qed.

Lemma forallb_Forall {A} (f : A → bool) (l : list A) : forallb f l = true ↔ Forall (λ x, f x = true) l.
Proof. rewrite forallb_forall, Forall_forall. setoid_rewrite list_elem_of_In. done. Qed.

Lemma validateInvariantSet_spec values :
  validateInvariantSet values = true ↔
  ∃ l, values = Some l ∧ zlen l ≤ maxNormalizedInvariants ∧ Forall (λ x, invariantPattern x = true) l ∧ sorted_set l.
Proof.
  unfold validateInvariantSet. destruct values as [l|]; [| naive_solver].
  rewrite !andb_true_iff, Z.leb_le, forallb_Forall, strictlySorted_spec. naive_solver.
Qed.
