(* ===== verification/Normalized.v ===== *)
(** * Normalized outcomes and their comparison (semanticplan/outcome.go)

    The portable result of one execution, its validation and digest, and the comparison of
    two results on independent axes.  The enumerations are strings, so that a document can
    carry an unknown value; a Go map of commitments is a [gmap]. *)

From S2P Require Import Prelude.
From S2P Require Export Document.
From S2P Require Scenario AppOracle.
From stdpp Require Import options.

#[global] Open Scope Z_scope.

(** ** Vocabulary *)

Definition NormalizedOutcomeSchema : string := "d-raft.normalized-outcome/v1".
Definition NormalizedComparisonSchema : string := "d-raft.normalized-comparison/v1".
Definition maxNormalizedDocumentBytes : Z := 8388608.
Definition maxNormalizedNodes : Z := 1024.

Abbreviation EligibilityStatus := string (only parsing).
Definition EligibilityEligible : EligibilityStatus := "eligible".
Definition EligibilityIneligible : EligibilityStatus := "ineligible".

Abbreviation CompletionStatus := string (only parsing).
Definition CompletionNotExecuted : CompletionStatus := "not_executed".
Definition CompletionCompleted : CompletionStatus := "completed".
Definition CompletionSafetyViolation : CompletionStatus := "safety_violation".
Definition CompletionDecisionExhausted : CompletionStatus := "decision_exhausted".
Definition CompletionStepLimit : CompletionStatus := "step_limit".
Definition CompletionTimeLimit : CompletionStatus := "time_limit".
Definition CompletionExecutionError : CompletionStatus := "execution_error".
Definition completionStatuses : list CompletionStatus :=
  [CompletionNotExecuted; CompletionCompleted; CompletionSafetyViolation; CompletionDecisionExhausted;
   CompletionStepLimit; CompletionTimeLimit; CompletionExecutionError].

Definition EligibilityBothEligible : string := "both_eligible".
Definition EligibilityLeftIneligible : string := "left_ineligible".
Definition EligibilityRightIneligible : string := "right_ineligible".
Definition EligibilityBothIneligible : string := "both_ineligible".
Definition eligibilityComparisons : list string :=
  [EligibilityBothEligible; EligibilityLeftIneligible; EligibilityRightIneligible; EligibilityBothIneligible].

Definition AgreementAgree : string := "agree".
Definition AgreementDisagree : string := "disagree".
Definition AgreementNotComparable : string := "not_comparable".
Definition agreementStatuses : list string := [AgreementAgree; AgreementDisagree; AgreementNotComparable].

Definition ProjectionBothExact : string := "both_exact".
Definition ProjectionLeftPartial : string := "left_partial".
Definition ProjectionRightPartial : string := "right_partial".
Definition ProjectionBothPartial : string := "both_partial".
Definition ProjectionNotComparable : string := "not_comparable".
Definition projectionComparisons : list string :=
  [ProjectionBothExact; ProjectionLeftPartial; ProjectionRightPartial; ProjectionBothPartial; ProjectionNotComparable].

Definition ExecutionBothReached : string := "both_reached".
Definition ExecutionLeftNotReached : string := "left_not_reached".
Definition ExecutionRightNotReached : string := "right_not_reached".
Definition ExecutionNeitherReached : string := "neither_reached".
Definition ExecutionNotComparable : string := "not_comparable".
Definition executionBoundaryComparisons : list string :=
  [ExecutionBothReached; ExecutionLeftNotReached; ExecutionRightNotReached; ExecutionNeitherReached; ExecutionNotComparable].

Definition ApplicationAgree : string := "agree".
Definition ApplicationWorkloadDivergence : string := "workload_divergence".
Definition ApplicationStateDivergence : string := "state_divergence".
Definition ApplicationLeftNodesDisagreeAtBoundary : string := "left_nodes_disagree_at_boundary".
Definition ApplicationRightNodesDisagreeAtBoundary : string := "right_nodes_disagree_at_boundary".
Definition ApplicationNotComparable : string := "not_comparable".
Definition applicationComparisons : list string :=
  [ApplicationAgree; ApplicationWorkloadDivergence; ApplicationStateDivergence; ApplicationLeftNodesDisagreeAtBoundary;
   ApplicationRightNodesDisagreeAtBoundary; ApplicationNotComparable].

(** ** Data *)

Record NodeCommitment := mkNodeCommitment { CommitNode : NodeID; CommitCommitment : AppOracle.Commitment }.

#[export] Instance NodeCommitment_eq_dec : EqDecision NodeCommitment.
Proof. solve_decision. Defined.

Record NormalizedOutcome := mkNormalizedOutcome {
  NoSchema : string; NoPlanSHA256 : string; NoExecutionSHA256 : string; NoAdapter : Scenario.Adapter;
  NoEligibility : EligibilityStatus; NoProjection : ProjectionFidelity; NoCompletion : CompletionStatus;
  NoAgree : bool; (* ApplicationNodesAgreeAtBoundary *)
  NoCommitments : option (list NodeCommitment); NoNegotiated : option (list string);
  NoCommon : option (list string); NoSpecific : option (list string) }.

#[export] Instance NormalizedOutcome_eq_dec : EqDecision NormalizedOutcome.
Proof. solve_decision. Defined.

Record NormalizedComparison := mkNormalizedComparison {
  NcSchema : string; NcPlanSHA256 : string; LeftExecutionSHA256 : string; RightExecutionSHA256 : string;
  LeftOutcomeSHA256 : string; RightOutcomeSHA256 : string;
  LeftAdapter : Scenario.Adapter; RightAdapter : Scenario.Adapter;
  NcEligibility : string; LeftProjection : ProjectionFidelity; RightProjection : ProjectionFidelity;
  NcProjection : string; LeftCompletion : CompletionStatus; RightCompletion : CompletionStatus;
  ExecutionBoundary : string; Safety : string;
  NcNegotiated : option (list string); SharedCommonIDs : option (list string);
  LeftOnlyCommonIDs : option (list string); RightOnlyCommonIDs : option (list string);
  Application : string }.

(** ** Commitments *)

Definition validateCommitment (commitment : AppOracle.Commitment) : bool :=
  String.eqb (AppOracle.CmSchema commitment) AppOracle.CommitmentSchema &&
  (AppOracle.CmCommands commitment <=? AppOracle.MaxCommands) &&
  digestPattern (AppOracle.CmChainDigest commitment) && digestPattern (AppOracle.CmStateDigest commitment).

Definition commitmentsAgree (nodes : list NodeCommitment) : bool :=
  match nodes with
  | [] => false
  | want :: nodes => forallb (λ node, bool_decide (CommitCommitment node = CommitCommitment want)) nodes
  end.

(** Sorted by strictly increasing identifier; [previous] is the node before. *)
Fixpoint validateCommitments (previous : option NodeID) (nodes : list NodeCommitment) : bool :=
  match nodes with
  | [] => true
  | node :: nodes =>
    validateNodeID (CommitNode node) &&
    match previous with
    | Some p => match String.compare p (CommitNode node) with Lt => true | _ => false end
    | None => true
    end &&
    validateCommitment (CommitCommitment node) && validateCommitments (Some (CommitNode node)) nodes
  end.

Definition node_le (l r : NodeCommitment) : Prop := String.le (CommitNode l) (CommitNode r).
#[export] Instance node_le_dec : RelDecision node_le.
Proof. intros l r. unfold node_le. apply _. Defined.

Definition sortCommitments (nodes : list NodeCommitment) : list NodeCommitment := merge_sort node_le nodes.

Definition NormalizeNodeCommitments (commitments : option (gmap NodeID AppOracle.Commitment))
    : SemanticError + (list NodeCommitment * bool) :=
  match commitments with
  | None => inl ErrInvalid
  | Some commitments =>
    if maxNormalizedNodes <? Z.of_nat (size commitments) then inl ErrInvalid
    else if forallb (λ '(node, commitment), validateNodeID node && validateCommitment commitment) (map_to_list commitments)
    then
      let nodes := sortCommitments ((λ '(node, commitment), mkNodeCommitment node commitment) <$> map_to_list commitments) in
      inr (nodes, commitmentsAgree nodes)
    else inl ErrInvalid
  end.

(** ** Invariant identifiers *)

Definition NormalizeInvariantIDs (observed negotiatedCommon : option (list string))
    : SemanticError + (option (list string) * option (list string)) :=
  let observed := canonicalStrings observed in
  let negotiatedCommon := canonicalStrings negotiatedCommon in
  if negb (validateInvariantSet observed) then inl ErrInvalid
  else if negb (validateInvariantSet negotiatedCommon) then inl ErrInvalid
  else
    let commonSet : gset string := list_to_set (items negotiatedCommon) in
    inr (Some (filter (λ id, id ∈ commonSet) (items observed)), Some (filter (λ id, id ∉ commonSet) (items observed))).

(** ** Outcomes *)

Definition is_nil {A} (l : list A) : bool := match l with [] => true | _ => false end.

Definition known_fidelity (projection : ProjectionFidelity) : bool :=
  String.eqb projection ProjectionExact || String.eqb projection ProjectionPartial || String.eqb projection ProjectionFailed.

Definition OutcomeValidate (outcome : NormalizedOutcome) : option SemanticError :=
  let invalid (b : bool) (rest : option SemanticError) := if b then Some ErrInvalid else rest in
  let nodes := items (NoCommitments outcome) in
  invalid (negb (String.eqb (NoSchema outcome) NormalizedOutcomeSchema))
  (invalid (negb (digestPattern (NoPlanSHA256 outcome)) || negb (digestPattern (NoExecutionSHA256 outcome)))
  (invalid (negb (validateAdapterID (NoAdapter outcome)))
  (invalid (negb (String.eqb (NoEligibility outcome) EligibilityEligible) && negb (String.eqb (NoEligibility outcome) EligibilityIneligible))
  (invalid (negb (known_fidelity (NoProjection outcome)))
  (invalid (negb (contains completionStatuses (NoCompletion outcome)))
  (invalid
    (if String.eqb (NoEligibility outcome) EligibilityIneligible then
       negb (String.eqb (NoProjection outcome) ProjectionFailed) || negb (String.eqb (NoCompletion outcome) CompletionNotExecuted) ||
       negb (is_nil nodes) || NoAgree outcome || negb (is_nil (items (NoCommon outcome))) || negb (is_nil (items (NoSpecific outcome)))
     else if String.eqb (NoCompletion outcome) CompletionNotExecuted then true
     else String.eqb (NoProjection outcome) ProjectionFailed && negb (String.eqb (NoCompletion outcome) CompletionExecutionError))
  (invalid (bool_decide (NoCommitments outcome = None) || (maxNormalizedNodes <? zlen nodes))
  (invalid (negb (validateCommitments None nodes))
  (invalid (negb (Bool.eqb (NoAgree outcome) (commitmentsAgree nodes)))
  (invalid (negb (validateInvariantSet (NoNegotiated outcome)))
  (invalid (negb (validateInvariantSet (NoCommon outcome)))
  (invalid (negb (validateInvariantSet (NoSpecific outcome)))
  (invalid (intersects (items (NoCommon outcome)) (items (NoSpecific outcome)))
  (invalid (negb (isSubset (items (NoCommon outcome)) (items (NoNegotiated outcome))) ||
            intersects (items (NoSpecific outcome)) (items (NoNegotiated outcome)))
  None)))))))))))))).

(** Orders the lists and derives the agreement. *)
Definition CanonicalizeOutcome (outcome : NormalizedOutcome) : SemanticError + NormalizedOutcome :=
  let nodes := sortCommitments <$> (NoCommitments outcome) in
  let outcome := mkNormalizedOutcome (NoSchema outcome) (NoPlanSHA256 outcome) (NoExecutionSHA256 outcome) (NoAdapter outcome)
    (NoEligibility outcome) (NoProjection outcome) (NoCompletion outcome) (commitmentsAgree (items nodes)) nodes
    (canonicalStrings (NoNegotiated outcome)) (canonicalStrings (NoCommon outcome)) (canonicalStrings (NoSpecific outcome)) in
  match OutcomeValidate outcome with
  | Some err => inl err
  | None => inr outcome
  end.

(** ** Digests *)

Definition marshalCommitment (c : AppOracle.Commitment) : bytes :=
  encode_object [encode_member "schema" (encode_string (AppOracle.CmSchema c));
    encode_member "commands" (AppOracle.encode_uint64 (AppOracle.CmCommands c));
    encode_member "chain_digest" (encode_string (AppOracle.CmChainDigest c));
    encode_member "state_digest" (encode_string (AppOracle.CmStateDigest c))].

Definition marshalNodeCommitment (n : NodeCommitment) : bytes :=
  encode_object [encode_member "node" (encode_string (CommitNode n)); encode_member "commitment" (marshalCommitment (CommitCommitment n))].

Definition marshalStrings (l : option (list string)) : bytes := AppOracle.marshal_list encode_string l.

Definition marshalOutcome (o : NormalizedOutcome) : bytes :=
  encode_object [encode_member "schema" (encode_string (NoSchema o)); encode_member "plan_sha256" (encode_string (NoPlanSHA256 o));
    encode_member "execution_sha256" (encode_string (NoExecutionSHA256 o)); encode_member "adapter" (marshalAdapter (NoAdapter o));
    encode_member "eligibility" (encode_string (NoEligibility o)); encode_member "projection" (encode_string (NoProjection o));
    encode_member "completion" (encode_string (NoCompletion o));
    encode_member "application_nodes_agree_at_boundary" (encode_bool (NoAgree o));
    encode_member "node_commitments" (AppOracle.marshal_list marshalNodeCommitment (NoCommitments o));
    encode_member "negotiated_common_ids" (marshalStrings (NoNegotiated o));
    encode_member "common_invariant_ids" (marshalStrings (NoCommon o));
    encode_member "adapter_specific_invariant_ids" (marshalStrings (NoSpecific o))].

Definition DigestNormalizedOutcome (outcome : NormalizedOutcome) : SemanticError + string :=
  match OutcomeValidate outcome with
  | Some err => inl err
  | None => digestCanonicalJSON (Some (marshalOutcome outcome))
  end.

(** ** The axes of a comparison *)

Definition compareEligibility (left right : EligibilityStatus) : string :=
  if String.eqb left EligibilityEligible && String.eqb right EligibilityEligible then EligibilityBothEligible
  else if String.eqb left EligibilityIneligible && String.eqb right EligibilityEligible then EligibilityLeftIneligible
  else if String.eqb left EligibilityEligible && String.eqb right EligibilityIneligible then EligibilityRightIneligible
  else EligibilityBothIneligible.

Definition eligibilityFromComparison (comparison : string) (left : bool) : EligibilityStatus :=
  if String.eqb comparison EligibilityBothEligible then EligibilityEligible
  else if String.eqb comparison EligibilityLeftIneligible then if left then EligibilityIneligible else EligibilityEligible
  else if String.eqb comparison EligibilityRightIneligible then if left then EligibilityEligible else EligibilityIneligible
  else EligibilityIneligible.

Definition compareProjection (left right : ProjectionFidelity) (leftEligibility rightEligibility : EligibilityStatus) : string :=
  if negb (String.eqb leftEligibility EligibilityEligible) || negb (String.eqb rightEligibility EligibilityEligible)
  then ProjectionNotComparable
  else if String.eqb left ProjectionFailed || String.eqb right ProjectionFailed then ProjectionNotComparable
  else if String.eqb left ProjectionExact && String.eqb right ProjectionExact then ProjectionBothExact
  else if String.eqb left ProjectionPartial && String.eqb right ProjectionExact then ProjectionLeftPartial
  else if String.eqb left ProjectionExact && String.eqb right ProjectionPartial then ProjectionRightPartial
  else ProjectionBothPartial.

Definition completionReachedBoundary (status : CompletionStatus) : bool := String.eqb status CompletionCompleted.

Definition compareExecutionBoundary (left right : CompletionStatus) (leftEligibility rightEligibility : EligibilityStatus) : string :=
  if negb (String.eqb leftEligibility EligibilityEligible) || negb (String.eqb rightEligibility EligibilityEligible)
  then ExecutionNotComparable
  else match completionReachedBoundary left, completionReachedBoundary right with
  | true, true => ExecutionBothReached
  | false, true => ExecutionLeftNotReached
  | true, false => ExecutionRightNotReached
  | false, false => ExecutionNeitherReached
  end.

Definition agreement (equal : bool) : string := if equal then AgreementAgree else AgreementDisagree.

Definition compareApplication (left right : NormalizedOutcome) : string :=
  let leftNodes := items (NoCommitments left) in
  let rightNodes := items (NoCommitments right) in
  match leftNodes, rightNodes with
  | l :: _, r :: _ =>
    if negb (bool_decide (length leftNodes = length rightNodes)) then ApplicationNotComparable
    else if negb (bool_decide (CommitNode <$> leftNodes = CommitNode <$> rightNodes)) then ApplicationNotComparable
    else if negb (NoAgree left) then ApplicationLeftNodesDisagreeAtBoundary
    else if negb (NoAgree right) then ApplicationRightNodesDisagreeAtBoundary
    else
      let leftCommitment := CommitCommitment l in
      let rightCommitment := CommitCommitment r in
      if negb (AppOracle.CmCommands leftCommitment =? AppOracle.CmCommands rightCommitment) ||
         negb (String.eqb (AppOracle.CmChainDigest leftCommitment) (AppOracle.CmChainDigest rightCommitment))
      then ApplicationWorkloadDivergence
      else if negb (String.eqb (AppOracle.CmStateDigest leftCommitment) (AppOracle.CmStateDigest rightCommitment))
      then ApplicationStateDivergence
      else ApplicationAgree
  | _, _ => ApplicationNotComparable
  end.

Definition validateProjectionCompletionPair (eligibility : EligibilityStatus) (projection : ProjectionFidelity)
    (completion : CompletionStatus) : bool :=
  if negb (known_fidelity projection) then false
  else if String.eqb eligibility EligibilityIneligible then
    negb (negb (String.eqb projection ProjectionFailed) || negb (String.eqb completion CompletionNotExecuted))
  else if String.eqb completion CompletionNotExecuted then false
  else negb (String.eqb projection ProjectionFailed && negb (String.eqb completion CompletionExecutionError)).

Definition ComparisonValidate (c : NormalizedComparison) : option SemanticError :=
  let invalid (b : bool) (rest : option SemanticError) := if b then Some ErrInvalid else rest in
  let leftEligibility := eligibilityFromComparison (NcEligibility c) true in
  let rightEligibility := eligibilityFromComparison (NcEligibility c) false in
  let shared := items (SharedCommonIDs c) in
  let leftOnly := items (LeftOnlyCommonIDs c) in
  let rightOnly := items (RightOnlyCommonIDs c) in
  let negotiated := items (NcNegotiated c) in
  invalid (negb (String.eqb (NcSchema c) NormalizedComparisonSchema))
  (invalid (negb (forallb digestPattern [NcPlanSHA256 c; LeftExecutionSHA256 c; RightExecutionSHA256 c; LeftOutcomeSHA256 c; RightOutcomeSHA256 c]))
  (invalid (negb (validateAdapterID (LeftAdapter c)))
  (invalid (negb (validateAdapterID (RightAdapter c)))
  (invalid (negb (contains eligibilityComparisons (NcEligibility c)) || negb (contains projectionComparisons (NcProjection c)) ||
            negb (contains executionBoundaryComparisons (ExecutionBoundary c)) || negb (contains completionStatuses (LeftCompletion c)) ||
            negb (contains completionStatuses (RightCompletion c)) || negb (contains agreementStatuses (Safety c)) ||
            negb (contains applicationComparisons (Application c)))
  (invalid (negb (validateProjectionCompletionPair leftEligibility (LeftProjection c) (LeftCompletion c)))
  (invalid (negb (validateProjectionCompletionPair rightEligibility (RightProjection c) (RightCompletion c)))
  (invalid (negb (String.eqb (NcProjection c) (compareProjection (LeftProjection c) (RightProjection c) leftEligibility rightEligibility)))
  (invalid (negb (String.eqb (ExecutionBoundary c)
                    (compareExecutionBoundary (LeftCompletion c) (RightCompletion c) leftEligibility rightEligibility)))
  (invalid (negb (validateInvariantSet (SharedCommonIDs c)))
  (invalid (negb (validateInvariantSet (NcNegotiated c)))
  (invalid (negb (validateInvariantSet (LeftOnlyCommonIDs c)))
  (invalid (negb (validateInvariantSet (RightOnlyCommonIDs c)))
  (invalid (intersects shared leftOnly || intersects shared rightOnly || intersects leftOnly rightOnly)
  (invalid (negb (isSubset shared negotiated) || negb (isSubset leftOnly negotiated) || negb (isSubset rightOnly negotiated))
  (invalid (negb (String.eqb (ExecutionBoundary c) ExecutionBothReached) &&
            (negb (String.eqb (Safety c) AgreementNotComparable) || negb (String.eqb (Application c) ApplicationNotComparable)))
  (invalid (String.eqb (ExecutionBoundary c) ExecutionBothReached && String.eqb (Safety c) AgreementNotComparable)
  (invalid (String.eqb (Safety c) AgreementAgree && (negb (is_nil leftOnly) || negb (is_nil rightOnly)))
  (invalid (String.eqb (Safety c) AgreementDisagree && (zlen leftOnly + zlen rightOnly =? 0))
  (invalid (String.eqb (Safety c) AgreementNotComparable && negb (zlen shared + zlen leftOnly + zlen rightOnly =? 0))
  None))))))))))))))))))).

(** What both executions reached the boundary for. *)
Definition compared (left right : NormalizedOutcome) (leftDigest rightDigest : string) : NormalizedComparison :=
  let boundary := compareExecutionBoundary (NoCompletion left) (NoCompletion right) (NoEligibility left) (NoEligibility right) in
  let make := mkNormalizedComparison NormalizedComparisonSchema (NoPlanSHA256 left) (NoExecutionSHA256 left) (NoExecutionSHA256 right)
    leftDigest rightDigest (NoAdapter left) (NoAdapter right) (compareEligibility (NoEligibility left) (NoEligibility right))
    (NoProjection left) (NoProjection right)
    (compareProjection (NoProjection left) (NoProjection right) (NoEligibility left) (NoEligibility right))
    (NoCompletion left) (NoCompletion right) boundary in
  if String.eqb boundary ExecutionBothReached then
    let '(shared, leftOnly, rightOnly) := partitionSets (items (NoCommon left)) (items (NoCommon right)) in
    make (agreement (is_nil leftOnly && is_nil rightOnly)) (NoNegotiated left) (Some shared) (Some leftOnly) (Some rightOnly)
      (compareApplication left right)
  else make AgreementNotComparable (NoNegotiated left) (Some []) (Some []) (Some []) ApplicationNotComparable.

Definition CompareNormalized (left right : NormalizedOutcome) : SemanticError + NormalizedComparison :=
  match OutcomeValidate left with
  | Some err => inl err
  | None =>
    match OutcomeValidate right with
    | Some err => inl err
    | None =>
      if negb (String.eqb (NoPlanSHA256 left) (NoPlanSHA256 right)) then inl ErrInvalid
      else if negb (nodes_equal (items (NoNegotiated left)) (items (NoNegotiated right))) then inl ErrInvalid
      else
        match DigestNormalizedOutcome left, DigestNormalizedOutcome right with
        | inl err, _ => inl err
        | _, inl err => inl err
        | inr leftDigest, inr rightDigest =>
          let comparison := compared left right leftDigest rightDigest in
          match ComparisonValidate comparison with
          | Some err => inl err
          | None => inr comparison
          end
        end
    end
  end.

Definition marshalComparison (c : NormalizedComparison) : bytes :=
  encode_object [encode_member "schema" (encode_string (NcSchema c)); encode_member "plan_sha256" (encode_string (NcPlanSHA256 c));
    encode_member "left_execution_sha256" (encode_string (LeftExecutionSHA256 c));
    encode_member "right_execution_sha256" (encode_string (RightExecutionSHA256 c));
    encode_member "left_outcome_sha256" (encode_string (LeftOutcomeSHA256 c));
    encode_member "right_outcome_sha256" (encode_string (RightOutcomeSHA256 c));
    encode_member "left_adapter" (marshalAdapter (LeftAdapter c)); encode_member "right_adapter" (marshalAdapter (RightAdapter c));
    encode_member "eligibility" (encode_string (NcEligibility c)); encode_member "left_projection" (encode_string (LeftProjection c));
    encode_member "right_projection" (encode_string (RightProjection c)); encode_member "projection" (encode_string (NcProjection c));
    encode_member "left_completion" (encode_string (LeftCompletion c)); encode_member "right_completion" (encode_string (RightCompletion c));
    encode_member "execution_boundary" (encode_string (ExecutionBoundary c)); encode_member "safety" (encode_string (Safety c));
    encode_member "negotiated_common_ids" (marshalStrings (NcNegotiated c));
    encode_member "shared_common_ids" (marshalStrings (SharedCommonIDs c));
    encode_member "left_only_common_ids" (marshalStrings (LeftOnlyCommonIDs c));
    encode_member "right_only_common_ids" (marshalStrings (RightOnlyCommonIDs c));
    encode_member "application" (encode_string (Application c))].

Definition DigestNormalizedComparison (comparison : NormalizedComparison) : SemanticError + string :=
  match ComparisonValidate comparison with
  | Some err => inl err
  | None => digestCanonicalJSON (Some (marshalComparison comparison))
  end.

(** ** Decoding *)

(** The validated document. *)
Definition validated {T} (validate : T → option SemanticError) (decoded : SemanticError + T) : SemanticError + T :=
  match decoded with
  | inl err => inl err
  | inr document => match validate document with Some err => inl err | None => inr document end
  end.

Definition decodeNormalized {T} (Decode : bytes → option (T * bytes)) (r : option Reader) : SemanticError + T :=
  decodePlanDocument Decode r maxNormalizedDocumentBytes.

Definition DecodeNormalizedOutcome (Decode : bytes → option (NormalizedOutcome * bytes)) (r : option Reader)
    : SemanticError + NormalizedOutcome := validated OutcomeValidate (decodeNormalized Decode r).
Definition DecodeNormalizedComparison (Decode : bytes → option (NormalizedComparison * bytes)) (r : option Reader)
    : SemanticError + NormalizedComparison := validated ComparisonValidate (decodeNormalized Decode r).
