(* ===== verification/NormalizedProps.v ===== *)
(** * Properties of normalized outcomes

    Valid outcomes of one plan always compare, the comparison is itself valid, and swapping
    the sides mirrors it; each axis says what it means on the outcomes. *)

From S2P Require Import Prelude.
From S2P Require Export Normalized DocumentProps.
From S2P Require Scenario AppOracle.
From S2P Require Export JsonText.
From S2P Require Scenario AppOracle Digest.
From stdpp Require Import options.

#[global] Open Scope Z_scope.

(** ** Validity *)

(** The three statuses of one side agree with one another. *)
Definition status_ok (eligibility : EligibilityStatus) (projection : ProjectionFidelity) (completion : CompletionStatus) : Prop :=
  (eligibility = EligibilityIneligible ∧ projection = ProjectionFailed ∧ completion = CompletionNotExecuted) ∨
  (eligibility = EligibilityEligible ∧ completion ∈ completionStatuses ∧ completion ≠ CompletionNotExecuted ∧
   projection ∈ [ProjectionExact; ProjectionPartial; ProjectionFailed] ∧
   (projection = ProjectionFailed → completion = CompletionExecutionError)).

Definition commitment_before (l r : NodeCommitment) : Prop := slt (CommitNode l) (CommitNode r).

Definition commitments_ok (nodes : list NodeCommitment) : Prop :=
  StronglySorted commitment_before nodes ∧
  Forall (λ n, validateNodeID (CommitNode n) = true ∧ validateCommitment (CommitCommitment n) = true) nodes.

Definition invariants_ok (values : option (list string)) : Prop := validateInvariantSet values = true.

Record outcome_ok (o : NormalizedOutcome) : Prop := {
  ok_schema : NoSchema o = NormalizedOutcomeSchema;
  ok_digests : digestPattern (NoPlanSHA256 o) = true ∧ digestPattern (NoExecutionSHA256 o) = true;
  ok_adapter : validateAdapterID (NoAdapter o) = true;
  ok_status : status_ok (NoEligibility o) (NoProjection o) (NoCompletion o);
  ok_ineligible : NoEligibility o = EligibilityIneligible →
    items (NoCommitments o) = [] ∧ NoAgree o = false ∧ items (NoCommon o) = [] ∧ items (NoSpecific o) = [];
  ok_commitments : NoCommitments o ≠ None ∧ zlen (items (NoCommitments o)) ≤ maxNormalizedNodes ∧ commitments_ok (items (NoCommitments o));
  ok_agree : NoAgree o = commitmentsAgree (items (NoCommitments o));
  ok_sets : invariants_ok (NoNegotiated o) ∧ invariants_ok (NoCommon o) ∧ invariants_ok (NoSpecific o);
  ok_common : ∀ x, x ∈ items (NoCommon o) → x ∈ items (NoNegotiated o);
  ok_specific : ∀ x, x ∈ items (NoSpecific o) → x ∉ items (NoNegotiated o) }.

Lemma items_sorted values : invariants_ok values → sorted_set (items values).
Proof. intros (l & -> & _ & _ & H)%validateInvariantSet_spec. done. Qed.

#[export] Instance commitment_before_transitive : Transitive commitment_before.
Proof. intros x y z. unfold commitment_before. apply transitivity. Qed.

Lemma validateCommitments_spec previous nodes :
  validateCommitments previous nodes = true ↔
  commitments_ok nodes ∧ match previous with Some p => Forall (λ n, slt p (CommitNode n)) nodes | None => True end.
Proof.
  unfold commitments_ok. revert previous. induction nodes as [|n nodes IH]; intros previous; cbn [validateCommitments].
  { split; [| done]. intros _. split; [split; constructor | by destruct previous]. }
  rewrite !andb_true_iff, IH, Forall_cons.
  assert (StronglySorted commitment_before (n :: nodes) ↔
    StronglySorted commitment_before nodes ∧ Forall (λ m, slt (CommitNode n) (CommitNode m)) nodes) as ->.
  { split; [by inversion 1 | intros []; by constructor]. }
  split.
  - intros (((H1 & H2) & H3) & (H4 & H5) & H6). split; [by split_and! |]. destruct previous as [p|]; [| done].
    assert (slt p (CommitNode n)) as Hp by (unfold slt; by destruct (String.compare p (CommitNode n))).
    apply Forall_cons. split; [done |]. eapply Forall_impl; [exact H6 |]. intros m Hm. by etrans.
  - intros (([H1 H2] & [[H3 H4] H5]) & Hp). split_and!; try done. destruct previous as [p|]; [| done].
    apply Forall_cons in Hp as [Hp _]. unfold slt in Hp. by rewrite Hp.
Qed.

Lemma known_fidelity_spec p : known_fidelity p = true ↔ p ∈ [ProjectionExact; ProjectionPartial; ProjectionFailed].
Proof. unfold known_fidelity. rewrite !orb_true_iff, !String.eqb_eq. set_solver. Qed.

Lemma is_nil_spec {A} (l : list A) : is_nil l = true ↔ l = [].
Proof. by destruct l. Qed.

(** The conditions on the three statuses of an outcome. *)
Lemma status_spec o :
  (negb (String.eqb (NoEligibility o) EligibilityEligible) && negb (String.eqb (NoEligibility o) EligibilityIneligible) = false ∧
   known_fidelity (NoProjection o) = true ∧ contains completionStatuses (NoCompletion o) = true ∧
   (if String.eqb (NoEligibility o) EligibilityIneligible then
       negb (String.eqb (NoProjection o) ProjectionFailed) || negb (String.eqb (NoCompletion o) CompletionNotExecuted) ||
       negb (is_nil (items (NoCommitments o))) || NoAgree o || negb (is_nil (items (NoCommon o))) || negb (is_nil (items (NoSpecific o)))
     else if String.eqb (NoCompletion o) CompletionNotExecuted then true
     else String.eqb (NoProjection o) ProjectionFailed && negb (String.eqb (NoCompletion o) CompletionExecutionError)) = false) ↔
  status_ok (NoEligibility o) (NoProjection o) (NoCompletion o) ∧
  (NoEligibility o = EligibilityIneligible →
    items (NoCommitments o) = [] ∧ NoAgree o = false ∧ items (NoCommon o) = [] ∧ items (NoSpecific o) = []).
Proof.
  rewrite known_fidelity_spec, contains_true. unfold status_ok.
  destruct (String.eqb_spec (NoEligibility o) EligibilityIneligible) as [->|Hi].
  - rewrite !orb_false_iff, !negb_false_iff, !is_nil_spec, !String.eqb_eq. split.
    + intros (_ & _ & _ & (((((H1 & H2) & H3) & H4) & H5) & H6)). split; [by left | done].
    + intros [[(_ & -> & ->)|(? & _)] Hn]; [| done]. destruct (Hn eq_refl) as (? & ? & ? & ?).
      split_and!; try done; set_solver.
  - rewrite andb_true_r, negb_false_iff, String.eqb_eq.
    destruct (String.eqb_spec (NoCompletion o) CompletionNotExecuted) as [->|Hc].
    { split; [by intros (_ & _ & _ & ?) | intros [[(? & _)|(_ & _ & ? & _)] _]; done]. }
    rewrite andb_false_iff, negb_false_iff, String.eqb_eq, String.eqb_neq. split.
    + intros (H1 & H2 & H3 & H4). split; [right; split_and!; try done; tauto | done].
    + intros [[(? & _)|(H1 & H2 & H3 & H4 & H5)] _]; [done |]. split_and!; try done.
      destruct (decide (NoProjection o = ProjectionFailed)); auto.
Qed.

Lemma OutcomeValidate_spec o : OutcomeValidate o = None ↔ outcome_ok o.
Proof.
  unfold OutcomeValidate. cbv zeta. rewrite !check_none, !orb_false_iff, !negb_false_iff.
  rewrite String.eqb_eq, bool_decide_eq_false, Z.ltb_ge, (validateCommitments_spec None), Bool.eqb_true_iff.
  pose proof (status_spec o) as Hst. split.
  - intros (H1 & [H2 H3] & H4 & H5 & H6 & H7 & H8 & [H9 H10] & [H11 _] & H12 & H13 & H14 & H15 & H16 & [H17 H18] & _).
    destruct (proj1 Hst ltac:(by split_and!)) as [H19 H20]. pose proof (items_sorted _ H13). pose proof (items_sorted _ H14).
    pose proof (items_sorted _ H15). split; try done.
    + by apply isSubset_spec.
    + intros x Hx Hn. apply not_true_iff_false in H18. apply H18, intersects_spec; try done. by exists x.
  - intros [H1 [H2 H3] H4 H5 H6 (H7 & H8 & H9) H10 (H11 & H12 & H13) H14 H15].
    destruct (proj2 Hst (conj H5 H6)) as (H16 & H17 & H18 & H19).
    pose proof (items_sorted _ H11). pose proof (items_sorted _ H12). pose proof (items_sorted _ H13).
    split_and!; try done.
    + apply not_true_iff_false. rewrite intersects_spec by done. intros (x & Hc & Hs). apply (H15 x Hs). auto.
    + by apply isSubset_spec.
    + apply not_true_iff_false. rewrite intersects_spec by done. intros (x & Hs & Hn). by apply (H15 x Hs).
Qed.

(** ** Axes *)

Definition eligibilities : list EligibilityStatus := [EligibilityEligible; EligibilityIneligible].

Lemma status_ok_facts e p c :
  status_ok e p c → e ∈ eligibilities ∧ contains completionStatuses c = true ∧ validateProjectionCompletionPair e p c = true.
Proof.
  unfold validateProjectionCompletionPair. rewrite contains_true. intros [(-> & -> & ->)|(-> & Hc & Hne & Hp & Hf)].
  - split_and!; [set_solver .. | done].
  - split_and!; [set_solver | done |]. apply known_fidelity_spec in Hp. rewrite Hp. cbn [negb].
    change (String.eqb EligibilityEligible EligibilityIneligible) with false. cbv iota.
    rewrite (proj2 (String.eqb_neq _ _)) by done. rewrite negb_true_iff, andb_false_iff, negb_false_iff, String.eqb_eq, String.eqb_neq.
    destruct (decide (p = ProjectionFailed)); auto.
Qed.

Lemma compareEligibility_inverse l r :
  l ∈ eligibilities → r ∈ eligibilities →
  eligibilityFromComparison (compareEligibility l r) true = l ∧ eligibilityFromComparison (compareEligibility l r) false = r ∧
  contains eligibilityComparisons (compareEligibility l r) = true.
Proof. unfold eligibilities. rewrite !elem_of_cons, !elem_of_nil. intros [->|[->|[]]] [->|[->|[]]]; by vm_compute. Qed.

Lemma compareProjection_known p q e f : contains projectionComparisons (compareProjection p q e f) = true.
Proof. unfold compareProjection. repeat case_if; by vm_compute. Qed.

Lemma compareExecutionBoundary_known c d e f : contains executionBoundaryComparisons (compareExecutionBoundary c d e f) = true.
Proof. unfold compareExecutionBoundary. case_if; [by vm_compute |]. destruct (completionReachedBoundary c), (completionReachedBoundary d); by vm_compute. Qed.

Lemma compareApplication_known l r : contains applicationComparisons (compareApplication l r) = true.
Proof.
  unfold compareApplication. destruct (items (NoCommitments l)), (items (NoCommitments r)); try by vm_compute.
  repeat case_if; by vm_compute.
Qed.

(** Both executions reached the boundary. *)
Definition reached (o : NormalizedOutcome) : Prop := NoEligibility o = EligibilityEligible ∧ NoCompletion o = CompletionCompleted.
#[export] Instance reached_dec o : Decision (reached o).
Proof. unfold reached. apply _. Defined.

Lemma boundary_reached l r :
  compareExecutionBoundary (NoCompletion l) (NoCompletion r) (NoEligibility l) (NoEligibility r) = ExecutionBothReached ↔
  reached l ∧ reached r.
Proof.
  unfold compareExecutionBoundary, reached, completionReachedBoundary.
  destruct (String.eqb_spec (NoEligibility l) EligibilityEligible), (String.eqb_spec (NoEligibility r) EligibilityEligible),
    (String.eqb_spec (NoCompletion l) CompletionCompleted), (String.eqb_spec (NoCompletion r) CompletionCompleted);
    cbn [negb orb]; split; (done || naive_solver).
Qed.

Lemma subset_invariants values sub :
  invariants_ok (Some values) → sub `sublist_of` values → invariants_ok (Some sub).
Proof.
  intros (l & [= <-] & Hlen & Hf & Hs)%validateInvariantSet_spec Hsub. apply validateInvariantSet_spec.
  exists sub. split_and!; [done | | | by eapply sorted_set_sublist].
  - apply sublist_length in Hsub. unfold zlen in *. lia.
  - rewrite Forall_forall in *. intros x Hx. apply Hf. by eapply elem_of_sublist.
Qed.

Lemma invariants_items values : invariants_ok values → values = Some (items values).
Proof. by intros (l & -> & _)%validateInvariantSet_spec. Qed.

Lemma empty_invariants : invariants_ok (Some []).
Proof. done. Qed.

Lemma digestPattern_digest l : digestPattern (digestBytes l) = true.
Proof.
  unfold digestPattern, digestBytes. apply andb_true_iff. split.
  - rewrite Digest.strlen_hex, Digest.Sum256_length. done.
  - rewrite Digest.str_hex. apply forallb_Forall. generalize (Sha256.Sum256 l). intros k. induction k as [|b k IH]; [constructor |].
    unfold Digest.hex_text in *. cbn [map concat app]. repeat apply Forall_cons_2; [by destruct b .. | done].
Qed.

(** The three parts of two valid sets of common identifiers. *)
Lemma parts_valid l r negotiated :
  invariants_ok l → invariants_ok r → invariants_ok negotiated →
  (∀ x, x ∈ items l → x ∈ items negotiated) → (∀ x, x ∈ items r → x ∈ items negotiated) →
  let shared := filter (λ x, x ∈ items r) (items l) in
  let leftOnly := filter (λ x, x ∉ items r) (items l) in
  let rightOnly := filter (λ x, x ∉ items l) (items r) in
  (invariants_ok (Some shared) ∧ invariants_ok (Some leftOnly) ∧ invariants_ok (Some rightOnly)) ∧
  (intersects shared leftOnly = false ∧ intersects shared rightOnly = false ∧ intersects leftOnly rightOnly = false) ∧
  isSubset shared (items negotiated) = true ∧ isSubset leftOnly (items negotiated) = true ∧ isSubset rightOnly (items negotiated) = true.
Proof.
  intros Hl Hr Hn Hln Hrn shared leftOnly rightOnly. rewrite (invariants_items l Hl) in Hl. rewrite (invariants_items r Hr) in Hr.
  assert (invariants_ok (Some shared)) as H1 by (eapply subset_invariants; [exact Hl | apply sublist_filter]).
  assert (invariants_ok (Some leftOnly)) as H2 by (eapply subset_invariants; [exact Hl | apply sublist_filter]).
  assert (invariants_ok (Some rightOnly)) as H3 by (eapply subset_invariants; [exact Hr | apply sublist_filter]).
  pose proof (items_sorted _ H1). pose proof (items_sorted _ H2). pose proof (items_sorted _ H3). pose proof (items_sorted _ Hn).
  split_and!; try done; try (apply not_true_iff_false; rewrite intersects_spec by done);
    try (apply isSubset_spec; [done | done |]); unfold shared, leftOnly, rightOnly; setoid_rewrite list_elem_of_filter; naive_solver.
Qed.

(** ** Comparison *)

(** The safety axis is consistent with the boundary and the three sets. *)
Definition safety_ok (c : NormalizedComparison) : Prop :=
  contains agreementStatuses (Safety c) = true ∧ contains applicationComparisons (Application c) = true ∧
  (invariants_ok (SharedCommonIDs c) ∧ invariants_ok (LeftOnlyCommonIDs c) ∧ invariants_ok (RightOnlyCommonIDs c)) ∧
  (intersects (items (SharedCommonIDs c)) (items (LeftOnlyCommonIDs c)) = false ∧
   intersects (items (SharedCommonIDs c)) (items (RightOnlyCommonIDs c)) = false ∧
   intersects (items (LeftOnlyCommonIDs c)) (items (RightOnlyCommonIDs c)) = false) ∧
  (isSubset (items (SharedCommonIDs c)) (items (NcNegotiated c)) = true ∧
   isSubset (items (LeftOnlyCommonIDs c)) (items (NcNegotiated c)) = true ∧
   isSubset (items (RightOnlyCommonIDs c)) (items (NcNegotiated c)) = true) ∧
  if String.eqb (ExecutionBoundary c) ExecutionBothReached then
    Safety c = agreement (is_nil (items (LeftOnlyCommonIDs c)) && is_nil (items (RightOnlyCommonIDs c)))
  else
    Safety c = AgreementNotComparable ∧ Application c = ApplicationNotComparable ∧
    items (SharedCommonIDs c) = [] ∧ items (LeftOnlyCommonIDs c) = [] ∧ items (RightOnlyCommonIDs c) = [].

(** The other axes of a comparison are those of two outcomes. *)
Definition axes (l r : NormalizedOutcome) (dl dr : string) (c : NormalizedComparison) : Prop :=
  NcSchema c = NormalizedComparisonSchema ∧ NcPlanSHA256 c = NoPlanSHA256 l ∧
  LeftExecutionSHA256 c = NoExecutionSHA256 l ∧ RightExecutionSHA256 c = NoExecutionSHA256 r ∧
  LeftOutcomeSHA256 c = dl ∧ RightOutcomeSHA256 c = dr ∧ LeftAdapter c = NoAdapter l ∧ RightAdapter c = NoAdapter r ∧
  NcEligibility c = compareEligibility (NoEligibility l) (NoEligibility r) ∧
  LeftProjection c = NoProjection l ∧ RightProjection c = NoProjection r ∧
  NcProjection c = compareProjection (NoProjection l) (NoProjection r) (NoEligibility l) (NoEligibility r) ∧
  LeftCompletion c = NoCompletion l ∧ RightCompletion c = NoCompletion r ∧
  ExecutionBoundary c = compareExecutionBoundary (NoCompletion l) (NoCompletion r) (NoEligibility l) (NoEligibility r) ∧
  NcNegotiated c = NoNegotiated l.

Lemma is_nil_zlen {A} (l : list A) : (zlen l =? 0) = is_nil l.
Proof. destruct l; [done |]. rewrite zlen_cons. pose proof (zlen_nonneg l). cbn [is_nil]. lia. Qed.

Lemma safety_checks c :
  safety_ok c →
  (negb (String.eqb (ExecutionBoundary c) ExecutionBothReached) &&
     (negb (String.eqb (Safety c) AgreementNotComparable) || negb (String.eqb (Application c) ApplicationNotComparable)) = false) ∧
  (String.eqb (ExecutionBoundary c) ExecutionBothReached && String.eqb (Safety c) AgreementNotComparable = false) ∧
  (String.eqb (Safety c) AgreementAgree && (negb (is_nil (items (LeftOnlyCommonIDs c))) || negb (is_nil (items (RightOnlyCommonIDs c)))) = false) ∧
  (String.eqb (Safety c) AgreementDisagree && (zlen (items (LeftOnlyCommonIDs c)) + zlen (items (RightOnlyCommonIDs c)) =? 0) = false) ∧
  (String.eqb (Safety c) AgreementNotComparable &&
     negb (zlen (items (SharedCommonIDs c)) + zlen (items (LeftOnlyCommonIDs c)) + zlen (items (RightOnlyCommonIDs c)) =? 0) = false).
Proof.
  intros (_ & _ & _ & _ & _ & H). destruct (String.eqb (ExecutionBoundary c) ExecutionBothReached).
  - rewrite H. destruct (items (LeftOnlyCommonIDs c)) as [|x lo], (items (RightOnlyCommonIDs c)) as [|y ro]; cbn [is_nil andb orb negb agreement];
      split_and!; try reflexivity; apply andb_false_iff; right; rewrite ?zlen_cons, ?zlen_nil;
      pose proof (zlen_nonneg lo) || idtac; pose proof (zlen_nonneg ro) || idtac; lia.
  - destruct H as (-> & -> & -> & -> & ->). split_and!; reflexivity.
Qed.

Lemma axes_valid l r dl dr c :
  outcome_ok l → outcome_ok r → digestPattern dl = true → digestPattern dr = true →
  axes l r dl dr c → safety_ok c → ComparisonValidate c = None.
Proof.
  intros Hl Hr Hdl Hdr (A1 & A2 & A3 & A4 & A5 & A6 & A7 & A8 & A9 & A10 & A11 & A12 & A13 & A14 & A15 & A16) Hs.
  destruct (safety_checks c Hs) as (Q1 & Q2 & Q3 & Q4 & Q5). destruct Hs as (K1 & K2 & (V1 & V2 & V3) & (I1 & I2 & I3) & (B1 & B2 & B3) & _).
  destruct (status_ok_facts _ _ _ (ok_status l Hl)) as (He & Hc & Hp). destruct (status_ok_facts _ _ _ (ok_status r Hr)) as (He' & Hc' & Hp').
  destruct (compareEligibility_inverse _ _ He He') as (Hel & Her & Hek).
  destruct (ok_digests l Hl) as [D1 D2]. destruct (ok_digests r Hr) as [D3 D4]. destruct (ok_sets l Hl) as (S1 & _ & _).
  unfold ComparisonValidate. cbv zeta. rewrite !check_none. unfold invariants_ok in *.
  rewrite Q1, Q2, Q3, Q4, Q5, I1, I2, I3, B1, B2, B3, V1, V2, V3, K1, K2. clear Q1 Q2 Q3 Q4 Q5 I1 I2 I3 B1 B2 B3 V1 V2 V3 K1 K2.
  rewrite A1, A2, A3, A4, A5, A6, A7, A8, A9, A10, A11, A12, A13, A14, A15, A16, Hel, Her, Hek. cbn [forallb].
  rewrite !String.eqb_refl, D1, D2, D4, Hdl, Hdr, (ok_adapter l Hl), (ok_adapter r Hr), S1, Hc, Hc', Hp, Hp'.
  rewrite compareProjection_known, compareExecutionBoundary_known. done.
Qed.

Lemma compared_axes l r dl dr : axes l r dl dr (compared l r dl dr).
Proof. unfold compared. cbv zeta. case_if; [destruct (partitionSets _ _) as [[]] |]; by split_and!. Qed.

(** The safety axis of a comparison, on the two outcomes. *)
Lemma compared_safety l r dl dr :
  outcome_ok l → outcome_ok r → items (NoNegotiated l) = items (NoNegotiated r) →
  let c := compared l r dl dr in
  safety_ok c ∧
  (reached l ∧ reached r →
     SharedCommonIDs c = Some (filter (λ x, x ∈ items (NoCommon r)) (items (NoCommon l))) ∧
     LeftOnlyCommonIDs c = Some (filter (λ x, x ∉ items (NoCommon r)) (items (NoCommon l))) ∧
     RightOnlyCommonIDs c = Some (filter (λ x, x ∉ items (NoCommon l)) (items (NoCommon r))) ∧
     Application c = compareApplication l r).
Proof.
  intros Hl Hr Hn. destruct (ok_sets l Hl) as (S1 & S2 & _). destruct (ok_sets r Hr) as (S3 & S4 & _).
  destruct (parts_valid (NoCommon l) (NoCommon r) (NoNegotiated l) S2 S4 S1 (ok_common l Hl)) as (V & I & B).
  { intros x Hx. rewrite Hn. by apply (ok_common r Hr). }
  pose proof (boundary_reached l r) as Hb. unfold safety_ok, compared. cbv zeta.
  rewrite partitionSets_spec by auto using items_sorted.
  destruct (String.eqb_spec (compareExecutionBoundary (NoCompletion l) (NoCompletion r) (NoEligibility l) (NoEligibility r)) ExecutionBothReached) as [E|E];
    cbn [SharedCommonIDs LeftOnlyCommonIDs RightOnlyCommonIDs Safety Application ExecutionBoundary NcNegotiated]; rewrite ?E, ?String.eqb_refl.
  - split; [| done]. split_and!; try done; try apply V; try apply I; try apply B; [| apply compareApplication_known].
    by destruct (is_nil _ && is_nil _).
  - rewrite (proj2 (String.eqb_neq _ _) E). split; [| tauto].
    split_and!; try done; by destruct (items (NoNegotiated l)).
Qed.

(** What a comparison needs. *)
Definition comparable (l r : NormalizedOutcome) : Prop :=
  OutcomeValidate l = None ∧ OutcomeValidate r = None ∧ NoPlanSHA256 l = NoPlanSHA256 r ∧ items (NoNegotiated l) = items (NoNegotiated r).

Lemma digest_value o : OutcomeValidate o = None → DigestNormalizedOutcome o = inr (digestBytes (marshalOutcome o)).
Proof. unfold DigestNormalizedOutcome. by intros ->. Qed.

Lemma CompareNormalized_spec l r :
  (comparable l r ∧ CompareNormalized l r = inr (compared l r (digestBytes (marshalOutcome l)) (digestBytes (marshalOutcome r)))) ∨
  (¬ comparable l r ∧ ∃ err, CompareNormalized l r = inl err).
Proof.
  unfold CompareNormalized, comparable. destruct (OutcomeValidate l) eqn:Hl; [right; naive_solver |].
  destruct (OutcomeValidate r) eqn:Hr; [right; naive_solver |].
  destruct (String.eqb_spec (NoPlanSHA256 l) (NoPlanSHA256 r)) as [Hp|Hp]; cbn [negb]; [| right; naive_solver].
  destruct (nodes_equal (items (NoNegotiated l)) (items (NoNegotiated r))) eqn:Hn; cbn [negb];
    [apply nodes_equal_true in Hn | apply nodes_equal_false in Hn; right; naive_solver].
  left. split; [done |]. rewrite !digest_value by done.
  apply OutcomeValidate_spec in Hl, Hr. destruct (compared_safety l r (digestBytes (marshalOutcome l)) (digestBytes (marshalOutcome r)) Hl Hr Hn) as [Hs _].
  by rewrite (axes_valid l r _ _ _ Hl Hr (digestPattern_digest _) (digestPattern_digest _) (compared_axes _ _ _ _) Hs).
Qed.

(** The status for the sides exchanged. *)
Definition swapped (s : string) : string :=
  foldr (λ '(a, b) rest, if String.eqb s a then b else if String.eqb s b then a else rest) s
    [(EligibilityLeftIneligible, EligibilityRightIneligible); (ProjectionLeftPartial, ProjectionRightPartial);
     (ExecutionLeftNotReached, ExecutionRightNotReached);
     (ApplicationLeftNodesDisagreeAtBoundary, ApplicationRightNodesDisagreeAtBoundary)].

(** The comparison of the sides exchanged, but for the application. *)
Definition mirror (c : NormalizedComparison) (application : string) : NormalizedComparison :=
  mkNormalizedComparison (NcSchema c) (NcPlanSHA256 c) (RightExecutionSHA256 c) (LeftExecutionSHA256 c)
    (RightOutcomeSHA256 c) (LeftOutcomeSHA256 c) (RightAdapter c) (LeftAdapter c) (swapped (NcEligibility c))
    (RightProjection c) (LeftProjection c) (swapped (NcProjection c)) (RightCompletion c) (LeftCompletion c)
    (swapped (ExecutionBoundary c)) (Safety c) (NcNegotiated c) (SharedCommonIDs c) (RightOnlyCommonIDs c) (LeftOnlyCommonIDs c)
    application.

Lemma compareEligibility_swap l r :
  l ∈ eligibilities → r ∈ eligibilities → compareEligibility r l = swapped (compareEligibility l r).
Proof. unfold eligibilities. rewrite !elem_of_cons, !elem_of_nil. intros [->|[->|[]]] [->|[->|[]]]; by vm_compute. Qed.

Lemma compareProjection_swap p q e f : 
  p ∈ [ProjectionExact; ProjectionPartial; ProjectionFailed] → q ∈ [ProjectionExact; ProjectionPartial; ProjectionFailed] →
  compareProjection q p f e = swapped (compareProjection p q e f).
Proof.
  rewrite !elem_of_cons, !elem_of_nil. unfold compareProjection.
  destruct (String.eqb e EligibilityEligible), (String.eqb f EligibilityEligible); cbn [negb orb]; try reflexivity.
  intros [->|[->|[->|[]]]] [->|[->|[->|[]]]]; reflexivity.
Qed.

Lemma compareExecutionBoundary_swap c d e f :
  compareExecutionBoundary d c f e = swapped (compareExecutionBoundary c d e f).
Proof.
  unfold compareExecutionBoundary.
  destruct (String.eqb e EligibilityEligible), (String.eqb f EligibilityEligible), (completionReachedBoundary c), (completionReachedBoundary d);
    reflexivity.
Qed.

(** The nodes of a side that are compared, and one of the commitments. *)
Definition commit_nodes (o : NormalizedOutcome) : list NodeID := CommitNode <$> items (NoCommitments o).

Definition comparable_nodes (l r : NormalizedOutcome) : Prop := commit_nodes l ≠ [] ∧ commit_nodes l = commit_nodes r.
#[export] Instance comparable_nodes_dec l r : Decision (comparable_nodes l r).
Proof. unfold comparable_nodes. apply _. Defined.

Lemma compareApplication_eq l r :
  compareApplication l r =
  if decide (comparable_nodes l r) then
    match items (NoCommitments l), items (NoCommitments r) with
    | n :: _, m :: _ =>
      if negb (NoAgree l) then ApplicationLeftNodesDisagreeAtBoundary
      else if negb (NoAgree r) then ApplicationRightNodesDisagreeAtBoundary
      else if negb (AppOracle.CmCommands (CommitCommitment n) =? AppOracle.CmCommands (CommitCommitment m)) ||
         negb (String.eqb (AppOracle.CmChainDigest (CommitCommitment n)) (AppOracle.CmChainDigest (CommitCommitment m)))
      then ApplicationWorkloadDivergence
      else if negb (String.eqb (AppOracle.CmStateDigest (CommitCommitment n)) (AppOracle.CmStateDigest (CommitCommitment m)))
      then ApplicationStateDivergence
      else ApplicationAgree
    | _, _ => ApplicationNotComparable
    end
  else ApplicationNotComparable.
Proof.
  destruct (decide (comparable_nodes l r)) as [Hc|Hc]; unfold compareApplication, comparable_nodes, commit_nodes in *;
    destruct (items (NoCommitments l)) as [|n ln], (items (NoCommitments r)) as [|m rm]; try done;
    destruct (bool_decide_reflect (length (n :: ln) = length (m :: rm))) as [Hlen|Hlen]; cbn [negb]; try done.
  - by rewrite bool_decide_eq_true_2 by apply Hc.
  - exfalso. destruct Hc as [_ E%(f_equal length)]. by rewrite !length_fmap in E.
  - rewrite bool_decide_eq_false_2; [done |]. intros E. apply Hc. by split.
Qed.

Lemma compareApplication_swap l r :
  compareApplication r l = swapped (compareApplication l r) ∨
  (NoAgree l = false ∧ NoAgree r = false ∧ compareApplication r l = compareApplication l r).
Proof.
  rewrite !compareApplication_eq.
  rewrite (decide_ext (comparable_nodes r l) (comparable_nodes l r)) by (unfold comparable_nodes; naive_solver congruence).
  case_decide; [| by left]. destruct (items (NoCommitments l)) as [|n ln], (items (NoCommitments r)) as [|m rm]; try by left.
  destruct (NoAgree l), (NoAgree r); cbn [negb]; try (by left); [| by right].
  rewrite (Z.eqb_sym (AppOracle.CmCommands (CommitCommitment m))), (String.eqb_sym (AppOracle.CmChainDigest (CommitCommitment m))),
    (String.eqb_sym (AppOracle.CmStateDigest (CommitCommitment m))).
  left. case_if; [done |]. by case_if.
Qed.

Lemma status_projection o : outcome_ok o → NoProjection o ∈ [ProjectionExact; ProjectionPartial; ProjectionFailed].
Proof. intros H. destruct (ok_status o H) as [(_ & -> & _)|(_ & _ & _ & ? & _)]; set_solver. Qed.

(** The boundary decides which fields a comparison fills. *)
Lemma compared_cases l r dl dr :
  outcome_ok l → outcome_ok r →
  compared l r dl dr =
  mkNormalizedComparison NormalizedComparisonSchema (NoPlanSHA256 l) (NoExecutionSHA256 l) (NoExecutionSHA256 r)
    dl dr (NoAdapter l) (NoAdapter r) (compareEligibility (NoEligibility l) (NoEligibility r)) (NoProjection l) (NoProjection r)
    (compareProjection (NoProjection l) (NoProjection r) (NoEligibility l) (NoEligibility r)) (NoCompletion l) (NoCompletion r)
    (compareExecutionBoundary (NoCompletion l) (NoCompletion r) (NoEligibility l) (NoEligibility r))
    (if decide (reached l ∧ reached r) then agreement (bool_decide (NoCommon l = NoCommon r)) else AgreementNotComparable)
    (NoNegotiated l)
    (Some (if decide (reached l ∧ reached r) then filter (λ x, x ∈ items (NoCommon r)) (items (NoCommon l)) else []))
    (Some (if decide (reached l ∧ reached r) then filter (λ x, x ∉ items (NoCommon r)) (items (NoCommon l)) else []))
    (Some (if decide (reached l ∧ reached r) then filter (λ x, x ∉ items (NoCommon l)) (items (NoCommon r)) else []))
    (if decide (reached l ∧ reached r) then compareApplication l r else ApplicationNotComparable).
Proof.
  intros Hl Hr. pose proof (boundary_reached l r) as Hb.
  destruct (ok_sets l Hl) as (_ & S2 & _). destruct (ok_sets r Hr) as (_ & S4 & _).
  unfold compared. cbv zeta. rewrite partitionSets_spec by auto using items_sorted.
  destruct (String.eqb_spec (compareExecutionBoundary (NoCompletion l) (NoCompletion r) (NoEligibility l) (NoEligibility r)) ExecutionBothReached) as [E|E].
  - rewrite !(decide_True (P := reached l ∧ reached r)) by tauto. f_equal. f_equal.
    symmetry. case_bool_decide as Heq.
    + rewrite Heq, !filter_nothing by tauto. done.
    + symmetry. apply andb_false_iff. rewrite <- !not_true_iff_false, !is_nil_spec.
      destruct (decide (filter (λ x, x ∉ items (NoCommon r)) (items (NoCommon l)) = [])) as [E1|]; [| auto].
      right. intros E2. apply Heq. rewrite (invariants_items _ S2), (invariants_items _ S4). f_equal.
      apply sorted_set_ext; [by apply items_sorted .. |]. intros x. split; intros Hx; apply dec_stable; intros Hn.
      * by apply (filter_nil_not_elem_of _ _ x E1).
      * by apply (filter_nil_not_elem_of _ _ x E2).
  - rewrite !(decide_False (P := reached l ∧ reached r)) by tauto. done.
Qed.

(** The comparison of the sides exchanged. *)
Lemma compared_swap l r dl dr :
  outcome_ok l → outcome_ok r → NoPlanSHA256 l = NoPlanSHA256 r → items (NoNegotiated l) = items (NoNegotiated r) →
  compared r l dr dl = mirror (compared l r dl dr) (Application (compared r l dr dl)).
Proof.
  intros Hl Hr Hp Hn. destruct (status_ok_facts _ _ _ (ok_status l Hl)) as (He & _). destruct (status_ok_facts _ _ _ (ok_status r Hr)) as (He' & _).
  destruct (ok_sets l Hl) as (S1 & S2 & _). destruct (ok_sets r Hr) as (S3 & S4 & _).
  rewrite !compared_cases by done. unfold mirror.
  cbn [Application NcSchema NcPlanSHA256 LeftExecutionSHA256 RightExecutionSHA256
      LeftOutcomeSHA256 RightOutcomeSHA256 LeftAdapter RightAdapter NcEligibility LeftProjection RightProjection NcProjection
      LeftCompletion RightCompletion ExecutionBoundary Safety NcNegotiated SharedCommonIDs LeftOnlyCommonIDs RightOnlyCommonIDs].
  rewrite !(decide_ext (reached r ∧ reached l) (reached l ∧ reached r)) by tauto.
  rewrite <- (compareEligibility_swap (NoEligibility l) (NoEligibility r) He He').
  rewrite <- (compareProjection_swap (NoProjection l) (NoProjection r)) by auto using status_projection.
  rewrite <- (compareExecutionBoundary_swap (NoCompletion l) (NoCompletion r)), Hp.
  assert (NoNegotiated l = NoNegotiated r) as -> by (rewrite (invariants_items _ S1), (invariants_items _ S3); by f_equal).
  assert (filter (λ x, x ∈ items (NoCommon l)) (items (NoCommon r)) = filter (λ x, x ∈ items (NoCommon r)) (items (NoCommon l))) as ->.
  { apply sorted_set_ext; [by apply sorted_set_filter, items_sorted .. |]. intros x. rewrite !list_elem_of_filter. tauto. }
  by rewrite (bool_decide_ext (NoCommon r = NoCommon l) (NoCommon l = NoCommon r)) by done.
Qed.

(** ** Theorems *)

(** Comparing normalized outcomes succeeds exactly for two valid outcomes of one plan and
    one set of negotiated invariants: the comparison it builds always passes its own
    validation.  Exchanging the sides mirrors the comparison, except that when the nodes of
    both sides disagree the left side is reported in either order. *)
Theorem comparison_total_and_symmetric l r :
  match CompareNormalized l r with
  | inr c => comparable l r ∧ ComparisonValidate c = None ∧
      ∃ c', CompareNormalized r l = inr c' ∧ c' = mirror c (Application c') ∧
        (Application c' = swapped (Application c) ∨ (NoAgree l = false ∧ NoAgree r = false ∧ Application c' = Application c))
  | inl _ => ¬ comparable l r
  end.
Proof.
  destruct (CompareNormalized_spec l r) as [[Hc ->]|[Hc [err ->]]]; [| done].
  destruct (CompareNormalized_spec r l) as [[_ ->]|[Hn _]]; [| destruct Hc as (? & ? & ? & ?); destruct Hn; by split_and!].
  destruct Hc as (Hl & Hr & Hp & Hn). split; [by split_and! |]. apply OutcomeValidate_spec in Hl, Hr.
  destruct (compared_safety l r (digestBytes (marshalOutcome l)) (digestBytes (marshalOutcome r)) Hl Hr Hn) as [Hs _].
  split; [by eapply (axes_valid l r _ _ _ Hl Hr (digestPattern_digest _) (digestPattern_digest _)); [apply compared_axes |] |].
  eexists. split; [done |]. split; [by apply compared_swap |].
  rewrite !compared_cases by done. cbn [Application]. rewrite (decide_ext (reached r ∧ reached l) (reached l ∧ reached r)) by tauto.
  case_decide; [apply compareApplication_swap | by left].
Qed.

(** All nodes of a side have one commitment. *)
Definition committed_to (o : NormalizedOutcome) (k : AppOracle.Commitment) : Prop :=
  ∀ n, n ∈ items (NoCommitments o) → CommitCommitment n = k.

Lemma agree_spec o :
  outcome_ok o → commit_nodes o ≠ [] → NoAgree o = true ↔ ∃ k, committed_to o k.
Proof.
  intros Ho Hne. rewrite (ok_agree o Ho). unfold commit_nodes, committed_to, commitmentsAgree in *.
  destruct (items (NoCommitments o)) as [|n ns]; [done |]. rewrite forallb_Forall, Forall_forall.
  setoid_rewrite bool_decide_eq_true. split.
  - intros H. exists (CommitCommitment n). intros m [->|Hm]%elem_of_cons; auto.
  - intros [k Hk] m Hm. rewrite (Hk m) by set_solver. symmetry. apply Hk. set_solver.
Qed.

Lemma committed_schema o k : outcome_ok o → commit_nodes o ≠ [] → committed_to o k → AppOracle.CmSchema k = AppOracle.CommitmentSchema.
Proof.
  intros Ho Hne Hk. destruct (ok_commitments o Ho) as (_ & _ & _ & Hf). unfold commit_nodes, committed_to in *.
  destruct (items (NoCommitments o)) as [|n ns]; [done |]. rewrite <- (Hk n) by by left.
  apply Forall_cons in Hf as [[_ Hv] _]. unfold validateCommitment in Hv. rewrite !andb_true_iff, String.eqb_eq in Hv. tauto.
Qed.

(** The application axis, when both executions reached the boundary. *)
Lemma compareApplication_meaning l r :
  outcome_ok l → outcome_ok r →
  (compareApplication l r = ApplicationAgree ↔ comparable_nodes l r ∧ ∃ k, committed_to l k ∧ committed_to r k) ∧
  (compareApplication l r = ApplicationStateDivergence ↔ comparable_nodes l r ∧ ∃ k k', committed_to l k ∧ committed_to r k' ∧
     AppOracle.CmCommands k = AppOracle.CmCommands k' ∧ AppOracle.CmChainDigest k = AppOracle.CmChainDigest k' ∧
     AppOracle.CmStateDigest k ≠ AppOracle.CmStateDigest k').
Proof.
  intros Hl Hr. rewrite compareApplication_eq. destruct (decide (comparable_nodes l r)) as [[Hne Heq]|Hc].
  2: { split; (split; [done | by intros [? _]]). }
  pose proof (agree_spec l Hl Hne) as Al. assert (commit_nodes r ≠ []) as Hne' by congruence. pose proof (agree_spec r Hr Hne') as Ar.
  assert (∃ n ns m ms, items (NoCommitments l) = n :: ns ∧ items (NoCommitments r) = m :: ms) as (n & ns & m & ms & En & Em).
  { unfold commit_nodes in Hne, Hne'. destruct (items (NoCommitments l)), (items (NoCommitments r)); try done. by eexists _, _, _, _. }
  rewrite En, Em. destruct (NoAgree l), (NoAgree r); cbn [negb].
  2-4: split; (split; [done |]); intros (_ & H); exfalso; naive_solver.
  destruct (proj1 Al eq_refl) as [k Hk]. destruct (proj1 Ar eq_refl) as [k' Hk']. clear Al Ar.
  pose proof (committed_schema l k Hl Hne Hk) as Sk. pose proof (committed_schema r k' Hr Hne' Hk') as Sk'.
  assert (∀ j, committed_to l j → j = k) as Uk.
  { intros j Hj. rewrite <- (Hj n), <- (Hk n); [done | rewrite En; by left ..]. }
  assert (∀ j, committed_to r j → j = k') as Uk'.
  { intros j Hj. rewrite <- (Hj m), <- (Hk' m); [done | rewrite Em; by left ..]. }
  rewrite (Hk n), (Hk' m) by (rewrite ?En, ?Em; by left).
  assert (k = k' ↔ AppOracle.CmCommands k = AppOracle.CmCommands k' ∧ AppOracle.CmChainDigest k = AppOracle.CmChainDigest k' ∧
    AppOracle.CmStateDigest k = AppOracle.CmStateDigest k') as Hkk.
  { destruct k, k'. simpl in *. naive_solver congruence. }
  assert ((∃ j, committed_to l j ∧ committed_to r j) ↔ k = k') as ->.
  { split; [intros (j & H1 & H2); by rewrite <- (Uk j H1), <- (Uk' j H2) | intros <-; by exists k]. }
  assert (∀ Q : _ → _ → Prop, (∃ j j', committed_to l j ∧ committed_to r j' ∧ Q j j') ↔ Q k k') as Hq.
  { intros Q. split; [intros (j & j' & H1 & H2 & H3); by rewrite <- (Uk j H1), <- (Uk' j' H2) | intros H; by exists k, k']. }
  rewrite (Hq (λ j j', AppOracle.CmCommands j = AppOracle.CmCommands j' ∧ AppOracle.CmChainDigest j = AppOracle.CmChainDigest j' ∧
    AppOracle.CmStateDigest j ≠ AppOracle.CmStateDigest j')), Hkk.
  destruct (Z.eqb_spec (AppOracle.CmCommands k) (AppOracle.CmCommands k')); cbn [negb orb]; [| split; (split; [done | tauto])].
  destruct (String.eqb_spec (AppOracle.CmChainDigest k) (AppOracle.CmChainDigest k')); cbn [negb]; [| split; (split; [done | tauto])].
  destruct (String.eqb_spec (AppOracle.CmStateDigest k) (AppOracle.CmStateDigest k')); cbn [negb]; split; split; try done; try tauto.
  all: intros _; by split_and!.
Qed.

(** C28.  What a comparison says.  Both executions reached the boundary when both were eligible and
    completed; only then are safety and the application compared.  Safety agrees exactly
    when the two sides observed the same negotiated invariants, and the three sets are the
    intersection and the differences.  The application agrees exactly when both sides have
    the same nodes, all with one commitment; the states diverge exactly when all nodes of
    each side agree and the two commitments have one history but different states. *)
Theorem comparison_meaning l r c :
  CompareNormalized l r = inr c →
  (ExecutionBoundary c = ExecutionBothReached ↔ reached l ∧ reached r) ∧
  (¬ (reached l ∧ reached r) → Safety c = AgreementNotComparable ∧ Application c = ApplicationNotComparable) ∧
  (reached l ∧ reached r →
    (Safety c = AgreementAgree ↔ NoCommon l = NoCommon r) ∧
    (∀ x, x ∈ items (SharedCommonIDs c) ↔ x ∈ items (NoCommon l) ∧ x ∈ items (NoCommon r)) ∧
    (∀ x, x ∈ items (LeftOnlyCommonIDs c) ↔ x ∈ items (NoCommon l) ∧ x ∉ items (NoCommon r)) ∧
    (∀ x, x ∈ items (RightOnlyCommonIDs c) ↔ x ∈ items (NoCommon r) ∧ x ∉ items (NoCommon l)) ∧
    (Application c = ApplicationAgree ↔ comparable_nodes l r ∧ ∃ k, committed_to l k ∧ committed_to r k) ∧
    (Application c = ApplicationStateDivergence ↔ comparable_nodes l r ∧ ∃ k k', committed_to l k ∧ committed_to r k' ∧
       AppOracle.CmCommands k = AppOracle.CmCommands k' ∧ AppOracle.CmChainDigest k = AppOracle.CmChainDigest k' ∧
       AppOracle.CmStateDigest k ≠ AppOracle.CmStateDigest k')).
Proof.
  intros E. destruct (CompareNormalized_spec l r) as [[Hc E']|[_ [err E']]]; rewrite E' in E; [| done].
  apply (inj inr) in E as <-. clear E'. destruct Hc as (Hl & Hr & _ & _). apply OutcomeValidate_spec in Hl, Hr.
  rewrite compared_cases by done.
  cbn [ExecutionBoundary Safety Application SharedCommonIDs LeftOnlyCommonIDs RightOnlyCommonIDs items default from_option id].
  split; [apply boundary_reached |]. destruct (decide (reached l ∧ reached r)) as [Hb|Hb]; [| by split].
  split; [done |]. intros _. pose proof (compareApplication_meaning l r Hl Hr) as [Ha Hs].
  split_and!; try done; try (intros x; unfold items at 1; cbn [default from_option id]; rewrite list_elem_of_filter; tauto).
  case_bool_decide; by split.
Qed.

(** ** Witness: two completed executions, one with a violation of its own *)

Definition demo_hash : string := digestBytes [].
Definition demo_commitment : AppOracle.Commitment := AppOracle.mkCommitment AppOracle.CommitmentSchema 3 demo_hash demo_hash.
Definition demo_outcome (id : string) (common : list string) : NormalizedOutcome :=
  mkNormalizedOutcome NormalizedOutcomeSchema demo_hash demo_hash (Scenario.mkAdapter id "1") EligibilityEligible ProjectionExact
    CompletionCompleted true (Some [mkNodeCommitment "a" demo_commitment; mkNodeCommitment "b" demo_commitment])
    (Some ["raft/election-safety"; "raft/log-matching"]) (Some common) (Some []).

Definition demo_left : NormalizedOutcome := demo_outcome "left" [].
Definition demo_right : NormalizedOutcome := demo_outcome "right" ["raft/log-matching"].
Definition demo_comparison : NormalizedComparison :=
  compared demo_left demo_right (digestBytes (marshalOutcome demo_left)) (digestBytes (marshalOutcome demo_right)).

Lemma demo_comparison_ok : CompareNormalized demo_left demo_right = inr demo_comparison.
Proof.
  destruct (CompareNormalized_spec demo_left demo_right) as [[_ E]|[H _]]; [exact E |].
  destruct H. split_and!; vm_compute; reflexivity.
Qed.

Lemma comparison_meaning_witness :
  Safety demo_comparison = AgreementDisagree ∧ Application demo_comparison = ApplicationAgree ∧
  RightOnlyCommonIDs demo_comparison = Some ["raft/log-matching"] ∧
  ((ExecutionBoundary demo_comparison = ExecutionBothReached ↔ reached demo_left ∧ reached demo_right) ∧
   (Safety demo_comparison = AgreementAgree ↔ NoCommon demo_left = NoCommon demo_right)).
Proof.
  assert (reached demo_left ∧ reached demo_right) as Hr by (split; split; reflexivity).
  destruct (comparison_meaning demo_left demo_right demo_comparison demo_comparison_ok) as (H1 & _ & H2).
  split_and!; [vm_compute; reflexivity .. | exact H1 | exact (proj1 (H2 Hr))].
Defined.

(** * Digests of normalized outcomes

    Two valid outcomes with one digest are equal, unless SHA-256 has a collision: the JSON
    text of a valid outcome determines it. *)

(** ** Valid documents hold valid text *)

Lemma digestPattern_text s : digestPattern s = true → utf8_string s.
Proof.
  unfold digestPattern. rewrite andb_true_iff, forallb_Forall. intros [_ H]. apply ascii_valid. eapply Forall_impl; [exact H |].
  intros b Hb. unfold lower_hex, is_digit in Hb. reflect. lia.
Qed.

Lemma segments_text slash l : segments slash l = true → ascii_bytes l.
Proof.
  revert slash. induction l as [|b l IH]; intros slash H; [constructor |]. cbn [segments] in H.
  assert (∀ b, id_start b = true → code b < 128) as Hs.
  { intros c Hc. unfold id_start, is_lower, is_digit in Hc. reflect. lia. }
  apply Forall_cons. destruct slash; [apply andb_true_iff in H as [Hb H]; split; [by apply Hs | by eapply IH] |].
  destruct (Z.eqb_spec (code b) 47); [split; [lia | by eapply IH] |]. apply andb_true_iff in H as [Hb H]. split; [| by eapply IH].
  unfold id_char in Hb. rewrite !orb_true_iff, !Z.eqb_eq in Hb. destruct Hb as [[[Hb|Hb]|Hb]|Hb]; [by apply Hs | lia ..].
Qed.

Lemma invariantPattern_text s : invariantPattern s = true → utf8_string s.
Proof.
  unfold invariantPattern, utf8_string. destruct (str s) as [|b l]; [done |]. rewrite andb_true_iff. intros [Hb Hl].
  apply ascii_valid, Forall_cons. split; [unfold is_lower in Hb; reflect; lia | by eapply segments_text].
Qed.

Lemma invariants_text values : invariants_ok values → Forall utf8_string (items values).
Proof.
  intros (l & -> & _ & Hf & _)%validateInvariantSet_spec. eapply Forall_impl; [exact Hf |]. apply invariantPattern_text.
Qed.

Definition adapter_text (a : Scenario.Adapter) : Prop := utf8_string (Scenario.AdID a) ∧ utf8_string (Scenario.AdVersion a).

Lemma validateAdapterID_text a : validateAdapterID a = true → adapter_text a.
Proof.
  unfold validateAdapterID, adapter_text, utf8_string. rewrite negb_true_iff, !orb_false_iff, !negb_false_iff. tauto.
Qed.

Definition commitment_text (c : AppOracle.Commitment) : Prop :=
  utf8_string (AppOracle.CmSchema c) ∧ utf8_string (AppOracle.CmChainDigest c) ∧ utf8_string (AppOracle.CmStateDigest c).

Definition node_text (n : NodeCommitment) : Prop := utf8_string (CommitNode n) ∧ commitment_text (CommitCommitment n).

Lemma node_valid_text n : validateNodeID (CommitNode n) = true ∧ validateCommitment (CommitCommitment n) = true → node_text n.
Proof.
  unfold validateNodeID, validateCommitment, node_text, commitment_text.
  rewrite negb_true_iff, !orb_false_iff, !negb_false_iff, !andb_true_iff, String.eqb_eq.
  intros [((((_ & _) & Hv) & _) & _) (((Hs & _) & Hc) & Hd)]. split_and!; auto using digestPattern_text. by rewrite Hs.
Qed.

(** ** Texts of the parts *)

Ltac object_text := unfold encode_object; cbn [sep_by]; unfold encode_member; rewrite <- ?(assoc_L (++)).

Lemma marshalAdapter_free : prefix_free adapter_text marshalAdapter.
Proof.
  intros [i v] [i' v'] r k [H1 H2] [H3 H4]. unfold marshalAdapter. cbn [Scenario.AdID Scenario.AdVersion] in *. object_text.
  intros E. same_text E. apply (encode_string_free i i') in E as [-> E]; [| done ..].
  same_text E. apply (encode_string_free v v') in E as [-> E]; [| done ..]. by same_text E.
Qed.

Lemma marshalCommitment_free : prefix_free commitment_text marshalCommitment.
Proof.
  intros [s c d e] [s' c' d' e'] r k (H1 & H2 & H3) (H4 & H5 & H6). unfold marshalCommitment.
  cbn [AppOracle.CmSchema AppOracle.CmCommands AppOracle.CmChainDigest AppOracle.CmStateDigest] in *. object_text.
  intros E. same_text E. apply (encode_string_free s s') in E as [-> E]; [| done ..].
  same_text E. apply (encode_quoted_int_free c c') in E as [-> E]; [| done ..].
  same_text E. apply (encode_string_free d d') in E as [-> E]; [| done ..].
  same_text E. apply (encode_string_free e e') in E as [-> E]; [| done ..]. by same_text E.
Qed.

Lemma marshalNodeCommitment_free : prefix_free node_text marshalNodeCommitment.
Proof.
  intros [n c] [n' c'] r k [H1 H2] [H3 H4]. unfold marshalNodeCommitment. cbn [CommitNode CommitCommitment] in *. object_text.
  intros E. same_text E. apply (encode_string_free n n') in E as [-> E]; [| done ..].
  same_text E. apply (marshalCommitment_free c c') in E as [-> E]; [| done ..]. by same_text E.
Qed.

Lemma marshal_items_free {A} (P : A → Prop) (f : A → bytes) l k r r' :
  prefix_free P f → (∀ x, P x → ∃ b t, f x = b :: t ∧ b ≠ x5d) → l ≠ None → k ≠ None → Forall P (items l) → Forall P (items k) →
  AppOracle.marshal_list f l ++ r = AppOracle.marshal_list f k ++ r' → l = k ∧ r = r'.
Proof.
  intros Hf Hh Hl Hk Pl Pk E. destruct l as [l|], k as [k|]; try done.
  destruct (encode_array_free P f Hf Hh l k r r' Pl Pk E) as [-> ->]. done.
Qed.

Lemma encode_bool_free : prefix_free (λ _, True) encode_bool.
Proof. intros [] [] r k _ _ E; try discriminate E; by apply app_inv_head in E as ->. Qed.

Lemma marshalStrings_free l k r r' :
  invariants_ok l → invariants_ok k → marshalStrings l ++ r = marshalStrings k ++ r' → l = k ∧ r = r'.
Proof.
  intros Hl Hk. apply (marshal_items_free utf8_string); auto using invariants_text, encode_string_free.
  - intros s _. eexists _, _. by split.
  - by rewrite (invariants_items l Hl).
  - by rewrite (invariants_items k Hk).
Qed.

(** ** Outcomes *)

Lemma status_text o : outcome_ok o → utf8_string (NoEligibility o) ∧ utf8_string (NoProjection o) ∧ utf8_string (NoCompletion o).
Proof.
  intros H. destruct (ok_status o H) as [(-> & -> & ->)|(-> & Hc & _ & Hp & _)]; [done |]. split_and!; [done | |].
  - assert (Forall utf8_string [ProjectionExact; ProjectionPartial; ProjectionFailed]) as Hf by by repeat constructor.
    rewrite Forall_forall in Hf. by apply Hf.
  - assert (Forall utf8_string completionStatuses) as Hf by by repeat constructor.
    rewrite Forall_forall in Hf. by apply Hf.
Qed.

Lemma marshalOutcome_inj o o' : outcome_ok o → outcome_ok o' → marshalOutcome o = marshalOutcome o' → o = o'.
Proof.
  intros Ho Ho' E. apply (f_equal (λ l, l ++ [])) in E.
  pose proof (status_text o Ho) as (T1 & T2 & T3). pose proof (status_text o' Ho') as (T4 & T5 & T6).
  destruct (ok_digests o Ho) as [D1%digestPattern_text D2%digestPattern_text].
  destruct (ok_digests o' Ho') as [D3%digestPattern_text D4%digestPattern_text].
  pose proof (validateAdapterID_text _ (ok_adapter o Ho)) as A1. pose proof (validateAdapterID_text _ (ok_adapter o' Ho')) as A2.
  destruct (ok_sets o Ho) as (S1 & S2 & S3). destruct (ok_sets o' Ho') as (S4 & S5 & S6).
  destruct (ok_commitments o Ho) as (C1 & _ & _ & C2). destruct (ok_commitments o' Ho') as (C3 & _ & _ & C4).
  pose proof (Forall_impl _ _ _ C2 node_valid_text) as N1. pose proof (Forall_impl _ _ _ C4 node_valid_text) as N2.
  destruct o as [s p e a el pr co ag nc ne cm sp], o' as [s' p' e' a' el' pr' co' ag' nc' ne' cm' sp'].
  pose proof (ok_schema _ Ho) as Hs. pose proof (ok_schema _ Ho') as Hs'. simpl in Hs, Hs'. subst s s'.
  unfold marshalOutcome in E. simpl in T1, T2, T3, T4, T5, T6, D1, D2, D3, D4, A1, A2, S1, S2, S3, S4, S5, S6, C1, C3, N1, N2.
  cbn [NoSchema NoPlanSHA256 NoExecutionSHA256 NoAdapter NoEligibility NoProjection NoCompletion NoAgree NoCommitments NoNegotiated NoCommon NoSpecific] in E.
  revert E. object_text. intros E. same_text E.
  apply (encode_string_free p p') in E as [-> E]; [| done ..]. same_text E.
  apply (encode_string_free e e') in E as [-> E]; [| done ..]. same_text E.
  apply (marshalAdapter_free a a') in E as [-> E]; [| done ..]. same_text E.
  apply (encode_string_free el el') in E as [-> E]; [| done ..]. same_text E.
  apply (encode_string_free pr pr') in E as [-> E]; [| done ..]. same_text E.
  apply (encode_string_free co co') in E as [-> E]; [| done ..]. same_text E.
  apply (encode_bool_free ag ag') in E as [-> E]; [| done ..]. same_text E.
  apply (marshal_items_free node_text marshalNodeCommitment nc nc') in E as [-> E]; [| apply marshalNodeCommitment_free | by eauto | done ..].
  same_text E. apply (marshalStrings_free ne ne') in E as [-> E]; [| done ..].
  same_text E. apply (marshalStrings_free cm cm') in E as [-> E]; [| done ..].
  same_text E. apply (marshalStrings_free sp sp') in E as [-> E]; done.
Qed.

(** The digest of a normalized outcome binds it: two valid outcomes with one digest are the
    same outcome, or exhibit a collision of SHA-256. *)
Theorem outcome_digest_binds o o' d :
  DigestNormalizedOutcome o = inr d → DigestNormalizedOutcome o' = inr d → o = o' ∨ Digest.collision.
Proof.
  unfold DigestNormalizedOutcome. destruct (OutcomeValidate o) eqn:Ho; [done |]. destruct (OutcomeValidate o') eqn:Ho'; [done |].
  intros E E'. apply (inj inr) in E, E'. rewrite <- E' in E. apply Digest.hex_string_inj, Digest.Sum256_binding in E as [E|?]; [| by right].
  left. apply OutcomeValidate_spec in Ho, Ho'. by apply marshalOutcome_inj.
Qed.

Lemma outcome_digest_binds_witness :
  (∃ d, DigestNormalizedOutcome demo_left = inr d) ∧ (demo_left = demo_left ∨ Digest.collision).
Proof.
  assert (DigestNormalizedOutcome demo_left = inr (digestBytes (marshalOutcome demo_left))) as H.
  { apply digest_value. vm_compute. reflexivity. }
  split; [by eexists | exact (outcome_digest_binds demo_left demo_left _ H H)].
Defined.
