(* ===== verification/Plan.v ===== *)
(** * Semantic plans and adapter capabilities (semanticplan/plan.go)

    A plan is a bounded scenario with the directives projected from a source run;
    capabilities declare what an adapter supports; the preflight decides whether a plan can
    run on two adapters.  The JSON text of a plan, which [encoding/json] writes by
    reflection, is a parameter. *)

From S2P Require Import Prelude.
From S2P Require Export Document.
From S2P Require Scenario Artifact AppOracle.
From stdpp Require Import options.

#[global] Open Scope Z_scope.

Definition SemanticPlanSchema : string := "d-raft.semantic-plan/v1".
Definition AdapterCapabilitiesSchema : string := "d-raft.adapter-capabilities/v1".
Definition MembershipFixedAllVoters : string := "fixed_all_voters".
Definition maxCapabilitiesDocumentBytes : Z := 1048576.
Definition maxCapabilityValues : Z := 1024.
Definition maxCapabilityValueBytes : Z := 256.

Definition portableActions : list string :=
  [Scenario.ActionCrash; Scenario.ActionHeal; Scenario.ActionPartition; Scenario.ActionPropose; Scenario.ActionRestart].
Definition portableProjectionKinds : list Kind := [ElectionTimeout; NetworkLatency; NetworkLoss; StorageLatency].
Definition V1Actions : list string := portableActions.
Definition V1ProjectionKinds : list Kind := portableProjectionKinds.

(** ** Data *)

Record Convergence := mkConvergence { WorkloadEndNS : Z; ComparisonBoundaryNS : Z }.
Record Source := mkSource { SrcAdapter : Scenario.Adapter; RunSHA256 : string }.

Record Plan := mkPlan {
  PlSchema : string; PlScenario : Scenario.Scenario; PlConfiguration : Scenario.Configuration;
  PlApplication : AppOracle.AppConfig; PlConvergence : Convergence; PlSource : Source;
  FallbackSeed : Z; PlDirectives : option (list Directive) }.

Record Capabilities := mkCapabilities {
  CpSchema : string; CpAdapter : Scenario.Adapter; MembershipProfiles : option (list string); CpActions : option (list string);
  ApplicationProfiles : option (list string); ProjectionKinds : option (list Kind); InvariantIDs : option (list string) }.

Abbreviation RejectionCode := string (only parsing).
Definition RejectFixedAllVoters : RejectionCode := "plan/fixed_all_voters_required".
Definition RejectUnsupportedAction : RejectionCode := "plan/unsupported_action".
Definition RejectInvalidCommand : RejectionCode := "plan/invalid_portable_command".
Definition RejectDuplicateCommand : RejectionCode := "plan/duplicate_command_id".
Definition RejectUnbalancedLifecycle : RejectionCode := "plan/unbalanced_lifecycle".
Definition RejectUnhealedNetwork : RejectionCode := "plan/unhealed_network".
Definition RejectSourceAdapter : RejectionCode := "capability/left/source_adapter".
Definition RejectLeftMembership : RejectionCode := "capability/left/membership_profile".
Definition RejectRightMembership : RejectionCode := "capability/right/membership_profile".
Definition RejectLeftAction : RejectionCode := "capability/left/action".
Definition RejectRightAction : RejectionCode := "capability/right/action".
Definition RejectLeftApplication : RejectionCode := "capability/left/application_profile".
Definition RejectRightApplication : RejectionCode := "capability/right/application_profile".
Definition RejectLeftProjectionKind : RejectionCode := "capability/left/projection_kind".
Definition RejectRightProjectionKind : RejectionCode := "capability/right/projection_kind".

Record Eligibility := mkEligibility { Eligible : bool; Rejections : list RejectionCode }.

(** ** Validation of plans *)

Definition fixedAllVoters (configuration : Scenario.Configuration) : bool :=
  if negb (zlen (Scenario.CnLearners configuration) =? 0) then false
  else if zlen (Scenario.CnVoters configuration) =? 0 then true
  else nodes_equal (Scenario.CnMembers configuration) (Scenario.CnVoters configuration).

(** [remaining] is what is left of the budget. *)
Definition consume (remaining amount : Z) : option Z :=
  if (amount <? 0) || (remaining <? amount) then None else Some (remaining - amount).

Fixpoint consumeAll (remaining : Z) (amounts : list Z) : option Z :=
  match amounts with
  | [] => Some remaining
  | amount :: amounts => r ← consume remaining amount; consumeAll r amounts
  end.

Definition actionAmount (action : Scenario.Action) : Z :=
  512 + ((zlen (Scenario.ActData action) + 2) / 3) * 4 + strlen (Scenario.ActNode action).

Fixpoint consumeActions (remaining : Z) (actions : list Scenario.Action) : option Z :=
  match actions with
  | [] => Some remaining
  | action :: actions =>
    r ← consume remaining (actionAmount action);
    r ← consumeAll r ((λ node, strlen node + 4) <$> concat (Scenario.ActGroups action));
    consumeActions r actions
  end.

Definition directiveAmount (directive : Directive) : Z :=
  512 + strlen (KeyNode (DirKey directive)) + strlen (KeyFrom (DirKey directive)) + strlen (KeyTo (DirKey directive)).

Definition planFitsResourceBudget (plan : Plan) : bool :=
  match consumeActions (Scenario.DefaultMaxArtifactBytes - 4096) (Scenario.Actions (PlScenario plan)) with
  | None => false
  | Some r =>
    match consumeAll r (directiveAmount <$> items (PlDirectives plan)) with
    | None => false
    | Some _ => true
    end
  end.

(** The nodes a directive names are members. *)
Definition knownNodes (members : gset NodeID) (directive : Directive) : bool :=
  forallb (λ node, String.eqb node "" || bool_decide (node ∈ members))
    [KeyNode (DirKey directive); KeyFrom (DirKey directive); KeyTo (DirKey directive)].

Definition PlanValidate (plan : Plan) : option SemanticError :=
  let scenario := PlScenario plan in
  let convergence := PlConvergence plan in
  let invalid (b : bool) (rest : option SemanticError) := if b then Some ErrInvalidPlan else rest in
  invalid (negb (String.eqb (PlSchema plan) SemanticPlanSchema))
  (invalid (negb (Artifact.ValidateExperiment scenario (PlConfiguration plan)))
  (invalid (negb (planFitsResourceBudget plan))
  (invalid (bool_decide (AppOracle.ValidateConfig (PlApplication plan) ≠ None))
  (invalid (negb (validateAdapterID (SrcAdapter (PlSource plan))))
  (invalid (negb (digestPattern (RunSHA256 (PlSource plan))))
  (invalid (negb (ComparisonBoundaryNS convergence =? Scenario.DurationNS scenario) || (WorkloadEndNS convergence <? 0) ||
            (ComparisonBoundaryNS convergence <=? WorkloadEndNS convergence))
  (invalid (negb (forallb (λ action, Scenario.ActAtNS action <=? WorkloadEndNS convergence) (Scenario.Actions scenario)))
  (invalid (bool_decide (PlDirectives plan = None) || (Scenario.MaxDecisions <? zlen (items (PlDirectives plan))))
  (invalid (bool_decide (ValidateDirectives (items (PlDirectives plan)) ≠ None))
  (invalid (negb (forallb (knownNodes (list_to_set (Scenario.CnMembers (PlConfiguration plan)))) (items (PlDirectives plan))))
  None)))))))))).

(** ** Validation of capabilities *)

(** A canonical set: not null, bounded, strictly increasing. *)
Definition capabilitySet (values : option (list string)) : bool :=
  match values with
  | None => false
  | Some values => (zlen values <=? maxCapabilityValues) && strictlySorted values
  end.

Definition validateMembershipProfiles (values : option (list string)) : bool :=
  capabilitySet values && forallb (λ value, String.eqb value MembershipFixedAllVoters) (items values).

Definition validateActions (values : option (list string)) : bool :=
  capabilitySet values &&
  forallb (contains [Scenario.ActionPropose; Scenario.ActionCrash; Scenario.ActionRestart; Scenario.ActionCrashAfterNextPersist;
    Scenario.ActionSnapshot; Scenario.ActionBeginMembership; Scenario.ActionFinalizeMembership; Scenario.ActionPartition; Scenario.ActionHeal])
    (items values).

Definition validateProjectionKinds (values : option (list Kind)) : bool :=
  capabilitySet values && forallb supportedKind (items values).

Definition validateCapabilityStrings (values : option (list string)) (valid : string → bool) : bool :=
  capabilitySet values &&
  forallb (λ value, negb ((strlen value =? 0) || (maxCapabilityValueBytes <? strlen value) || negb (trimmed (str value)) ||
    has_control (str value) || negb (valid value))) (items values).

Definition validateApplicationProfiles (values : option (list string)) : bool :=
  validateCapabilityStrings values (λ value, String.eqb value AppOracle.CommandSchema).

Definition CapabilitiesValidate (capabilities : Capabilities) : option SemanticError :=
  let invalid (b : bool) (rest : option SemanticError) := if b then Some ErrInvalidCapabilities else rest in
  invalid (negb (String.eqb (CpSchema capabilities) AdapterCapabilitiesSchema))
  (invalid (negb (validateAdapterID (CpAdapter capabilities)))
  (invalid (negb (validateMembershipProfiles (MembershipProfiles capabilities)))
  (invalid (negb (validateActions (CpActions capabilities)))
  (invalid (negb (validateApplicationProfiles (ApplicationProfiles capabilities)))
  (invalid (negb (validateProjectionKinds (ProjectionKinds capabilities)))
  (invalid (negb (validateCapabilityStrings (InvariantIDs capabilities) invariantPattern))
  None)))))).

(** ** Preflight *)

(** What the loop over the actions has gathered. *)
Record Workload := mkWorkload {
  rejected : list RejectionCode; commands : gset bytes; up : gmap NodeID bool; partitioned : bool; lifecycleValid : bool }.

Definition add_rejection (w : Workload) (code : RejectionCode) : Workload :=
  mkWorkload (rejected w ++ [code]) (commands w) (up w) (partitioned w) (lifecycleValid w).
Definition set_up (w : Workload) (node : NodeID) (b : bool) : Workload :=
  mkWorkload (rejected w) (commands w) (<[node := b]> (up w)) (partitioned w) (lifecycleValid w).
Definition set_partitioned (w : Workload) (b : bool) : Workload :=
  mkWorkload (rejected w) (commands w) (up w) b (lifecycleValid w).
Definition lifecycle_failed (w : Workload) : Workload :=
  mkWorkload (rejected w) (commands w) (up w) (partitioned w) false.

(** A missing key reads as [false]. *)
Definition is_up (w : Workload) (node : NodeID) : bool := default false (up w !! node).

Definition preflightAction (w : Workload) (action : Scenario.Action) : Workload :=
  let kind := Scenario.ActKind action in
  let node := Scenario.ActNode action in
  if String.eqb kind Scenario.ActionPropose then
    match AppOracle.DecodeCommand (Scenario.ActData action) with
    | inl _ => add_rejection w RejectInvalidCommand
    | inr command =>
      if bool_decide (AppOracle.CID command ∈ commands w) then add_rejection w RejectDuplicateCommand
      else mkWorkload (rejected w) ({[AppOracle.CID command]} ∪ commands w) (up w) (partitioned w) (lifecycleValid w)
    end
  else if String.eqb kind Scenario.ActionCrash then
    if negb (is_up w node) then lifecycle_failed w else set_up w node false
  else if String.eqb kind Scenario.ActionRestart then
    if is_up w node then lifecycle_failed w else set_up w node true
  else if String.eqb kind Scenario.ActionPartition then set_partitioned w true
  else if String.eqb kind Scenario.ActionHeal then set_partitioned w false
  else add_rejection w RejectUnsupportedAction.

Definition missing_from (supported : option (list string)) (values : list string) (code : RejectionCode) : list RejectionCode :=
  values ≫= λ value, if contains (items supported) value then [] else [code].

(** The rejections before they are sorted. *)
Definition rejections (plan : Plan) (left right : Capabilities) : list RejectionCode :=
  let when (b : bool) (code : RejectionCode) := if b then [code] else [] in
  let actions := Scenario.Actions (PlScenario plan) in
  let members := Scenario.CnMembers (PlConfiguration plan) in
  let before :=
    when (negb (fixedAllVoters (PlConfiguration plan))) RejectFixedAllVoters ++
    when (negb (bool_decide (SrcAdapter (PlSource plan) = CpAdapter left))) RejectSourceAdapter ++
    when (negb (contains (items (MembershipProfiles left)) MembershipFixedAllVoters)) RejectLeftMembership ++
    when (negb (contains (items (MembershipProfiles right)) MembershipFixedAllVoters)) RejectRightMembership ++
    when (negb (contains (items (ApplicationProfiles left)) (AppOracle.AppSchema (PlApplication plan)))) RejectLeftApplication ++
    when (negb (contains (items (ApplicationProfiles right)) (AppOracle.AppSchema (PlApplication plan)))) RejectRightApplication in
  let w := fold_left preflightAction actions (mkWorkload before ∅ (list_to_map ((λ member, (member, true)) <$> members)) false true) in
  let requiredActions : gset string := list_to_set (Scenario.ActKind <$> actions) in
  rejected w ++
  when (negb (lifecycleValid w && forallb snd (map_to_list (up w)))) RejectUnbalancedLifecycle ++
  when (partitioned w) RejectUnhealedNetwork ++
  missing_from (CpActions left) (elements requiredActions) RejectLeftAction ++
  missing_from (CpActions right) (elements requiredActions) RejectRightAction ++
  missing_from (ProjectionKinds left) portableProjectionKinds RejectLeftProjectionKind ++
  missing_from (ProjectionKinds right) portableProjectionKinds RejectRightProjectionKind.

Definition Preflight (plan : Plan) (left right : Capabilities) : SemanticError + Eligibility :=
  match PlanValidate plan with
  | Some err => inl err
  | None =>
    match CapabilitiesValidate left with
    | Some err => inl err
    | None =>
      match CapabilitiesValidate right with
      | Some err => inl err
      | None =>
        let rejections := sort_compact (rejections plan left right) in
        inr (mkEligibility (zlen rejections =? 0) rejections)
      end
    end
  end.

(** ** Documents *)

Definition DecodePlan (Decode : bytes → option (Plan * bytes)) (reader : option Reader) : SemanticError + Plan :=
  match decodePlanDocument Decode reader Scenario.DefaultMaxArtifactBytes with
  | inl _ => inl ErrInvalidPlan
  | inr plan => match PlanValidate plan with Some err => inl err | None => inr plan end
  end.

Definition DecodeCapabilities (Decode : bytes → option (Capabilities * bytes)) (reader : option Reader) : SemanticError + Capabilities :=
  match decodePlanDocument Decode reader maxCapabilitiesDocumentBytes with
  | inl _ => inl ErrInvalidCapabilities
  | inr capabilities => match CapabilitiesValidate capabilities with Some err => inl err | None => inr capabilities end
  end.

Definition DigestPlan (marshal : Plan → option bytes) (plan : Plan) : SemanticError + string :=
  match PlanValidate plan with
  | Some err => inl err
  | None =>
    match marshal plan with
    | None => inl ErrInvalidPlan
    | Some encoded => inr (digestBytes encoded)
    end
  end.

Definition marshalCapabilities (c : Capabilities) : bytes :=
  let strings := AppOracle.marshal_list encode_string in
  encode_object [encode_member "schema" (encode_string (CpSchema c)); encode_member "adapter" (marshalAdapter (CpAdapter c));
    encode_member "membership_profiles" (strings (MembershipProfiles c)); encode_member "actions" (strings (CpActions c));
    encode_member "application_profiles" (strings (ApplicationProfiles c)); encode_member "projection_kinds" (strings (ProjectionKinds c));
    encode_member "invariant_ids" (strings (InvariantIDs c))].
