(* ===== verification/PlanProps.v ===== *)
(** * Properties of plans

    The preflight rejects exactly the plans and adapters that its documentation names, each
    with its own code; the budget of a plan is a sum. *)

From S2P Require Import Prelude.
From S2P Require Export Plan DocumentProps.
From S2P Require Scenario Artifact ArtifactProps AppOracle DecisionProps.
From stdpp Require Import options.

#[global] Open Scope Z_scope.

(** ** The loop over the actions *)

Definition proposes (action : Scenario.Action) : Prop := Scenario.ActKind action = Scenario.ActionPropose.
#[export] Instance proposes_dec action : Decision (proposes action).
Proof. unfold proposes. apply _. Defined.

(** The identifier of the command a proposal carries. *)
Definition command_id (action : Scenario.Action) : option bytes :=
  match AppOracle.DecodeCommand (Scenario.ActData action) with inr command => Some (AppOracle.CID command) | inl _ => None end.

Definition command_ids (actions : list Scenario.Action) : list bytes := omap command_id (filter proposes actions).

Definition portable (action : Scenario.Action) : Prop := Scenario.ActKind action ∈ portableActions.

(** Crashes and restarts of a node: [true] is a restart. *)
Definition lifecycle_event (node : NodeID) (action : Scenario.Action) : option bool :=
  if decide (Scenario.ActNode action = node) then
    if String.eqb (Scenario.ActKind action) Scenario.ActionCrash then Some false
    else if String.eqb (Scenario.ActKind action) Scenario.ActionRestart then Some true else None
  else None.

(** The state after crashes and restarts that alternate, from a state. *)
Fixpoint alternates (state : bool) (events : list bool) : option bool :=
  match events with
  | [] => Some state
  | event :: events => if Bool.eqb event state then None else alternates event events
  end.

(** The lifecycle of a node starts and ends up. *)
Definition balanced (actions : list Scenario.Action) (node : NodeID) : Prop :=
  alternates true (omap (lifecycle_event node) actions) = Some true.

(** The last partition is healed. *)
Fixpoint healed (partitioned : bool) (actions : list Scenario.Action) : bool :=
  match actions with
  | [] => negb partitioned
  | action :: actions =>
    healed (if String.eqb (Scenario.ActKind action) Scenario.ActionPartition then true
            else if String.eqb (Scenario.ActKind action) Scenario.ActionHeal then false else partitioned) actions
  end.

(** The kind of an action decides its step. *)
Lemma preflightAction_cases (P : Workload → Prop) w a :
  (proposes a → command_id a = None → P (add_rejection w RejectInvalidCommand)) →
  (∀ id, proposes a → command_id a = Some id → id ∈ commands w → P (add_rejection w RejectDuplicateCommand)) →
  (∀ id, proposes a → command_id a = Some id → id ∉ commands w →
     P (mkWorkload (rejected w) ({[id]} ∪ commands w) (up w) (partitioned w) (lifecycleValid w))) →
  (Scenario.ActKind a = Scenario.ActionCrash →
     P (if negb (is_up w (Scenario.ActNode a)) then lifecycle_failed w else set_up w (Scenario.ActNode a) false)) →
  (Scenario.ActKind a = Scenario.ActionRestart →
     P (if is_up w (Scenario.ActNode a) then lifecycle_failed w else set_up w (Scenario.ActNode a) true)) →
  (Scenario.ActKind a = Scenario.ActionPartition → P (set_partitioned w true)) →
  (Scenario.ActKind a = Scenario.ActionHeal → P (set_partitioned w false)) →
  (¬ portable a → P (add_rejection w RejectUnsupportedAction)) →
  P (preflightAction w a).
Proof.
  intros H1 H2 H3 H4 H5 H6 H7 H8. unfold preflightAction, proposes, command_id, portable in *.
  destruct (String.eqb_spec (Scenario.ActKind a) Scenario.ActionPropose) as [E|N1].
  { destruct (AppOracle.DecodeCommand (Scenario.ActData a)) as [err|command]; [by apply H1 |].
    case_bool_decide; [by eapply H2 | by apply H3]. }
  destruct (String.eqb_spec (Scenario.ActKind a) Scenario.ActionCrash) as [E|N2]; [by apply H4 |].
  destruct (String.eqb_spec (Scenario.ActKind a) Scenario.ActionRestart) as [E|N3]; [by apply H5 |].
  destruct (String.eqb_spec (Scenario.ActKind a) Scenario.ActionPartition) as [E|N4]; [by apply H6 |].
  destruct (String.eqb_spec (Scenario.ActKind a) Scenario.ActionHeal) as [E|N5]; [by apply H7 |].
  apply H8. unfold portableActions. set_solver.
Qed.

(** The kinds are different strings. *)
Lemma kind_facts a :
  (proposes a → ∀ n, lifecycle_event n a = None) ∧ (proposes a → portable a) ∧
  (Scenario.ActKind a = Scenario.ActionCrash → portable a ∧ ¬ proposes a ∧
     ∀ n, lifecycle_event n a = if decide (Scenario.ActNode a = n) then Some false else None) ∧
  (Scenario.ActKind a = Scenario.ActionRestart → portable a ∧ ¬ proposes a ∧
     ∀ n, lifecycle_event n a = if decide (Scenario.ActNode a = n) then Some true else None) ∧
  (Scenario.ActKind a = Scenario.ActionPartition ∨ Scenario.ActKind a = Scenario.ActionHeal →
     portable a ∧ ¬ proposes a ∧ ∀ n, lifecycle_event n a = None) ∧
  (¬ portable a → ¬ proposes a ∧ ∀ n, lifecycle_event n a = None).
Proof.
  unfold lifecycle_event, portable, proposes, portableActions.
  split_and!.
  - intros -> n. by case_decide.
  - intros ->. set_solver.
  - intros ->. split_and!; [set_solver | done |]. intros n. by case_decide.
  - intros ->. split_and!; [set_solver | done |]. intros n. by case_decide.
  - intros [->| ->]; (split_and!; [set_solver | done |]; intros n; by case_decide).
  - intros Hn. split; [intros E; apply Hn; rewrite E; set_solver |]. intros n. case_decide; [| done].
    rewrite (proj2 (String.eqb_neq _ _)) by (intros E; apply Hn; rewrite E; set_solver).
    by rewrite (proj2 (String.eqb_neq _ _)) by (intros E; apply Hn; rewrite E; set_solver).
Qed.

(** The commands are distinct and new. *)
Definition fresh_ids (seen : gset bytes) (ids : list bytes) : Prop := NoDup ids ∧ ∀ id, id ∈ ids → id ∉ seen.

Lemma fresh_ids_cons seen id ids : id ∉ seen → fresh_ids seen (id :: ids) ↔ fresh_ids ({[id]} ∪ seen) ids.
Proof. intros H. unfold fresh_ids. rewrite NoDup_cons. set_solver. Qed.

(** The codes and commands that one action adds. *)
Definition step_codes (seen : gset bytes) (a : Scenario.Action) : list RejectionCode :=
  if decide (proposes a) then
    match command_id a with
    | None => [RejectInvalidCommand]
    | Some id => if decide (id ∈ seen) then [RejectDuplicateCommand] else []
    end
  else if decide (portable a) then [] else [RejectUnsupportedAction].

Definition step_commands (seen : gset bytes) (a : Scenario.Action) : gset bytes :=
  if decide (proposes a) then match command_id a with Some id => {[id]} ∪ seen | None => seen end else seen.

Lemma preflight_codes w a :
  rejected (preflightAction w a) = rejected w ++ step_codes (commands w) a ∧
  commands (preflightAction w a) = step_commands (commands w) a.
Proof.
  destruct (kind_facts a) as (_ & K2 & K3 & K4 & K5 & K6). unfold step_codes, step_commands.
  apply (preflightAction_cases (λ w', rejected w' = _ ∧ commands w' = _)); cbn [add_rejection set_partitioned rejected commands].
  - intros Hp E. rewrite !decide_True, E by done. done.
  - intros id Hp E Hin. rewrite !decide_True, E, decide_True by done. split; [done | set_solver].
  - intros id Hp E Hin. rewrite !decide_True, E, decide_False, app_nil_r by done. done.
  - intros E. destruct (K3 E) as (Hp & Hn & _). rewrite !(decide_False (P := proposes a)), decide_True, app_nil_r by done. by destruct (is_up w _).
  - intros E. destruct (K4 E) as (Hp & Hn & _). rewrite !(decide_False (P := proposes a)), decide_True, app_nil_r by done. by destruct (is_up w _).
  - intros E. destruct (K5 (or_introl E)) as (Hp & Hn & _). by rewrite !(decide_False (P := proposes a)), decide_True, app_nil_r by done.
  - intros E. destruct (K5 (or_intror E)) as (Hp & Hn & _). by rewrite !(decide_False (P := proposes a)), decide_True, app_nil_r by done.
  - intros E. destruct (K6 E) as (Hn & _). by rewrite !(decide_False (P := proposes a)), decide_False by done.
Qed.

Lemma command_ids_cons a actions :
  command_ids (a :: actions) =
  if decide (proposes a) then match command_id a with Some id => id :: command_ids actions | None => command_ids actions end
  else command_ids actions.
Proof. unfold command_ids. rewrite filter_cons. case_decide; [| done]. cbn [omap list_omap]. by destruct (command_id a). Qed.

Lemma preflight_rejected actions w code :
  code ∈ rejected (fold_left preflightAction actions w) ↔
  code ∈ rejected w ∨
  (code = RejectInvalidCommand ∧ ∃ a, a ∈ actions ∧ proposes a ∧ command_id a = None) ∨
  (code = RejectDuplicateCommand ∧ ¬ fresh_ids (commands w) (command_ids actions)) ∨
  (code = RejectUnsupportedAction ∧ ∃ a, a ∈ actions ∧ ¬ portable a).
Proof.
  revert w. induction actions as [|a actions IH]; intros w; cbn [fold_left].
  { split; [auto |]. intros [?|[[_ (a & Ha & _)]|[[_ H]|[_ (a & Ha & _)]]]]; [done | set_solver | | set_solver].
    exfalso. apply H. split; [constructor | set_solver]. }
  assert (Hcons : ∀ Q : Scenario.Action → Prop, (∃ x, x ∈ a :: actions ∧ Q x) ↔ Q a ∨ ∃ x, x ∈ actions ∧ Q x).
  { intros Q. split; [intros (x & [->|Hx]%elem_of_cons & Hq); eauto | intros [Hq|(x & Hx & Hq)]; [exists a | exists x]; set_solver]. }
  rewrite IH, (Hcons (λ x, proposes x ∧ command_id x = None)), (Hcons (λ x, ¬ portable x)), command_ids_cons.
  destruct (preflight_codes w a) as [-> ->]. rewrite elem_of_app. unfold step_codes, step_commands.
  destruct (kind_facts a) as (_ & K2 & _). case_decide as Hp.
  - pose proof (K2 Hp). destruct (command_id a) as [id|]; [| rewrite list_elem_of_singleton; tauto].
    case_decide as Hs.
    + rewrite list_elem_of_singleton. replace ({[id]} ∪ commands w) with (commands w) by set_solver.
      assert (¬ fresh_ids (commands w) (id :: command_ids actions)) by (intros [_ Hf]; apply (Hf id); [by left | done]).
      split; [naive_solver |]. intros [?|[[? [[_ ?]|?]]|[[? _]|[? [?|?]]]]]; try done; tauto.
    + rewrite fresh_ids_cons by done. rewrite elem_of_nil. split; [naive_solver |]. intros [?|[[? [[_ ?]|?]]|[?|[? [?|?]]]]]; try done; tauto.
  - case_decide; rewrite ?list_elem_of_singleton, ?elem_of_nil; tauto.
Qed.

(** ** Lifecycles *)

Definition events (node : NodeID) (actions : list Scenario.Action) : list bool := omap (lifecycle_event node) actions.

Lemma events_cons n a actions : events n (a :: actions) = match lifecycle_event n a with Some e => e :: events n actions | None => events n actions end.
Proof. unfold events. cbn [omap list_omap]. by destruct (lifecycle_event n a). Qed.

(** One action: the state of every node, unless a crash or restart is out of turn. *)
Lemma preflight_step w a :
  let w' := preflightAction w a in
  (lifecycleValid w' = lifecycleValid w ∧
   ∀ n, match lifecycle_event n a with Some e => is_up w n = negb e ∧ is_up w' n = e | None => is_up w' n = is_up w n end) ∨
  (lifecycleValid w' = false ∧ ∃ n e, lifecycle_event n a = Some e ∧ is_up w n = e).
Proof.
  cbv zeta. destruct (kind_facts a) as (K1 & _ & K3 & K4 & K5 & K6).
  assert (∀ b, (∀ n, lifecycle_event n a = if decide (Scenario.ActNode a = n) then Some b else None) →
    is_up w (Scenario.ActNode a) = negb b → ∀ n, match lifecycle_event n a with
      | Some e => is_up w n = negb e ∧ is_up (set_up w (Scenario.ActNode a) b) n = e
      | None => is_up (set_up w (Scenario.ActNode a) b) n = is_up w n end) as Hset.
  { intros b He Hb n. rewrite He. unfold is_up, set_up in *. cbn [up]. case_decide as Hn.
    - subst n. split; [done | by rewrite lookup_insert_eq].
    - by rewrite lookup_insert_ne. }
  apply (preflightAction_cases (λ w', (lifecycleValid w' = _ ∧ ∀ n, match lifecycle_event n a with Some e => is_up w n = negb e ∧ is_up w' n = e | None => is_up w' n = is_up w n end) ∨ (lifecycleValid w' = _ ∧ _))).
  - intros Hp _. left. split; [done |]. intros n. by rewrite (K1 Hp n).
  - intros id Hp _ _. left. split; [done |]. intros n. by rewrite (K1 Hp n).
  - intros id Hp _ _. left. split; [done |]. intros n. by rewrite (K1 Hp n).
  - intros E. destruct (K3 E) as (_ & _ & He). destruct (is_up w (Scenario.ActNode a)) eqn:Hu; cbn [negb].
    + left. split; [done |]. by apply Hset.
    + right. split; [done |]. exists (Scenario.ActNode a), false. rewrite He, decide_True by done. done.
  - intros E. destruct (K4 E) as (_ & _ & He). destruct (is_up w (Scenario.ActNode a)) eqn:Hu.
    + right. split; [done |]. exists (Scenario.ActNode a), true. rewrite He, decide_True by done. done.
    + left. split; [done |]. by apply Hset.
  - intros E. destruct (K5 (or_introl E)) as (_ & _ & He). left. split; [done |]. intros n. by rewrite (He n).
  - intros E. destruct (K5 (or_intror E)) as (_ & _ & He). left. split; [done |]. intros n. by rewrite (He n).
  - intros E. destruct (K6 E) as (_ & He). left. split; [done |]. intros n. by rewrite (He n).
Qed.

Lemma preflight_invalid actions w : lifecycleValid w = false → lifecycleValid (fold_left preflightAction actions w) = false.
Proof.
  revert w. induction actions as [|a actions IH]; intros w Hw; [done |]. apply IH.
  destruct (preflight_step w a) as [[-> _]|[-> _]]; done.
Qed.

Lemma preflight_lifecycle actions w :
  lifecycleValid w = true → let w' := fold_left preflightAction actions w in
  (lifecycleValid w' = true ∧ ∀ n, alternates (is_up w n) (events n actions) = Some (is_up w' n)) ∨
  (lifecycleValid w' = false ∧ ∃ n, alternates (is_up w n) (events n actions) = None ∧ events n actions ≠ []).
Proof.
  cbv zeta. revert w. induction actions as [|a actions IH]; intros w Hw; [by left |]. cbn [fold_left].
  destruct (preflight_step w a) as [[Hv Hs]|[Hv (n & e & He & Hu)]].
  - rewrite Hw in Hv. destruct (IH _ Hv) as [[H1 H2]|[H1 (n & H2 & H3)]].
    + left. split; [done |]. intros n. rewrite events_cons. specialize (Hs n). specialize (H2 n).
      destruct (lifecycle_event n a) as [e|]; [| by rewrite <- Hs]. destruct Hs as [Hu He]. cbn [alternates].
      rewrite He in H2 at 1. rewrite Hu. by destruct e.
    + right. split; [done |]. exists n. rewrite events_cons. specialize (Hs n).
      destruct (lifecycle_event n a) as [e|]; [| by rewrite <- Hs]. split; [| done]. destruct Hs as [Hu He]. cbn [alternates].
      rewrite Hu. rewrite He in H2. by destruct e.
  - right. split; [by apply preflight_invalid |]. exists n. rewrite events_cons, He. split; [| done].
    cbn [alternates]. by rewrite Hu, Bool.eqb_reflx.
Qed.

(** The nodes whose state is known are those of the start and those that were crashed or restarted. *)
Lemma preflight_dom actions w :
  dom (up (fold_left preflightAction actions w)) ⊆ dom (up w) ∪ list_to_set (Scenario.ActNode <$> filter (λ a, lifecycle_event (Scenario.ActNode a) a ≠ None) actions) ∧
  dom (up w) ⊆ dom (up (fold_left preflightAction actions w)).
Proof.
  revert w. induction actions as [|a actions IH]; intros w; [set_solver |]. cbn [fold_left].
  destruct (IH (preflightAction w a)) as [H1 H2]. rewrite filter_cons.
  assert (dom (up w) ⊆ dom (up (preflightAction w a)) ∧ dom (up (preflightAction w a)) ⊆
    dom (up w) ∪ (if decide (lifecycle_event (Scenario.ActNode a) a ≠ None) then {[Scenario.ActNode a]} else ∅)) as [H3 H4].
  { destruct (kind_facts a) as (_ & _ & K3 & K4 & _).
    assert (∀ X : gset NodeID, dom (up w) ⊆ dom (up w) ∧ dom (up w) ⊆ dom (up w) ∪ X) as Hsame by (intros X; split; [done | apply union_subseteq_l]).
    apply (preflightAction_cases (λ w', dom (up w) ⊆ dom (up w') ∧ dom (up w') ⊆ dom (up w) ∪ _)); try (intros; apply Hsame).
    - intros E. destruct (K3 E) as (_ & _ & He). rewrite (decide_True (P := _ ≠ None)) by (by rewrite He, decide_True).
      destruct (is_up w _); cbn [negb]; [| apply Hsame]. cbn [set_up up]. rewrite dom_insert_L.
      split; [apply union_subseteq_r | by rewrite (comm_L (∪))].
    - intros E. destruct (K4 E) as (_ & _ & He). rewrite (decide_True (P := _ ≠ None)) by (by rewrite He, decide_True).
      destruct (is_up w _); [apply Hsame |]. cbn [set_up up]. rewrite dom_insert_L.
      split; [apply union_subseteq_r | by rewrite (comm_L (∪))]. }
  split; [| by etrans]. etrans; [exact H1 |]. etrans; [apply union_mono_r; exact H4 |]. rewrite <- (assoc_L (∪)).
  apply union_mono_l. case_decide; cbn [fmap list_fmap list_to_set]; [done | by rewrite (left_id_L ∅ (∪))].
Qed.

Lemma preflight_partitioned actions w :
  partitioned (fold_left preflightAction actions w) = negb (healed (partitioned w) actions).
Proof.
  revert w. induction actions as [|a actions IH]; intros w; cbn [fold_left healed]; [by destruct (partitioned w) |].
  rewrite IH. do 2 f_equal. destruct (kind_facts a) as (_ & _ & K3 & K4 & _).
  apply (preflightAction_cases (λ w', partitioned w' = _)).
  - by intros -> _.
  - by intros id -> _ _.
  - by intros id -> _ _.
  - intros ->. by destruct (is_up w _).
  - intros ->. by destruct (is_up w _).
  - by intros ->.
  - by intros ->.
  - intros Hn. rewrite !(proj2 (String.eqb_neq _ _)); [done | |]; intros E; apply Hn; unfold portable, portableActions; rewrite E; set_solver.
Qed.

(** ** Valid plans *)

Lemma plan_actions_ok plan :
  PlanValidate plan = None →
  Forall (ArtifactProps.action_ok (Scenario.CnMembers (PlConfiguration plan))) (Scenario.Actions (PlScenario plan)).
Proof.
  unfold PlanValidate. cbv zeta. rewrite !check_none. intros (_ & Hv & _). apply negb_false_iff in Hv.
  unfold Artifact.ValidateExperiment in Hv. apply andb_true_iff in Hv as [Hc Hs]. apply ArtifactProps.configuration_spec in Hc.
  pose proof Hc as [_ Hsort Hnames _ _ _ _ _ _]. apply ArtifactProps.canonicalMembers_spec in Hnames.
  destruct (ArtifactProps.checked_members None _ Hsort Hnames) as (_ & Hne & _).
  unfold Artifact.validateScenario in Hs. case_if_in Hs; [discriminate Hs |]. by apply ArtifactProps.validActions_spec in Hs as (? & _).
Qed.

Lemma plan_event_member plan n a e :
  PlanValidate plan = None → a ∈ Scenario.Actions (PlScenario plan) → lifecycle_event n a = Some e →
  Scenario.ActNode a = n ∧ n ∈ Scenario.CnMembers (PlConfiguration plan).
Proof.
  intros Hv Ha He. pose proof (plan_actions_ok plan Hv) as Hok. rewrite Forall_forall in Hok.
  destruct (Hok a Ha) as (_ & H & _). unfold lifecycle_event in He. case_decide as Hn; [| done]. split; [done |]. subst n. apply H.
  destruct (String.eqb_spec (Scenario.ActKind a) Scenario.ActionCrash) as [->|]; [by left |].
  destruct (String.eqb_spec (Scenario.ActKind a) Scenario.ActionRestart) as [->|]; [right; by left | done].
Qed.

Definition started (before : list RejectionCode) (members : list NodeID) : Workload :=
  mkWorkload before ∅ (list_to_map ((λ member, (member, true)) <$> members)) false true.

Lemma started_up before members n b :
  up (started before members) !! n = Some b ↔ n ∈ members ∧ b = true.
Proof.
  unfold started. cbn [up]. induction members as [|m members IH]; cbn [fmap list_fmap list_to_map foldr fst snd]; [set_solver |].
  destruct (decide (n = m)) as [->|Hne].
  - rewrite lookup_insert_eq. split; [intros [= <-]; split; [by left | done] | by intros [_ ->]].
  - rewrite lookup_insert_ne by done. rewrite IH, elem_of_cons. naive_solver.
Qed.

Lemma started_is_up before members n : is_up (started before members) n = bool_decide (n ∈ members).
Proof.
  unfold is_up. destruct (up (started before members) !! n) as [b|] eqn:E.
  - apply started_up in E as [Hn ->]. by rewrite bool_decide_eq_true_2.
  - rewrite bool_decide_eq_false_2; [done |]. intros Hn. pose proof (proj2 (started_up before members n true) (conj Hn eq_refl)). congruence.
Qed.

(** The lifecycle is valid and all are up exactly when every member is balanced. *)
Lemma preflight_balanced plan before :
  PlanValidate plan = None → let members := Scenario.CnMembers (PlConfiguration plan) in
  let actions := Scenario.Actions (PlScenario plan) in let w := fold_left preflightAction actions (started before members) in
  lifecycleValid w && forallb snd (map_to_list (up w)) = true ↔ ∀ n, n ∈ members → balanced actions n.
Proof.
  intros Hv members actions w.
  assert (∀ n, events n actions ≠ [] → n ∈ members) as Hmem.
  { intros n Hn. destruct (events n actions) as [|e es] eqn:E; [done |].
    assert (e ∈ events n actions) as (a & Ha & He)%list_elem_of_omap by (rewrite E; by left). by eapply plan_event_member. }
  assert (∀ n, up w !! n ≠ None ↔ n ∈ members) as Hdom.
  { intros n. destruct (preflight_dom actions (started before members)) as [D1 D2]. fold w in D1, D2.
    assert (n ∈ dom (up (started before members)) ↔ n ∈ members) as Hs.
    { rewrite elem_of_dom. unfold is_Some. setoid_rewrite started_up. naive_solver. }
    split.
    - intros Hn%not_eq_None_Some%elem_of_dom. apply D1, elem_of_union in Hn as [Hn|Hn]; [by apply Hs |].
      apply elem_of_list_to_set, list_elem_of_fmap in Hn as (a & -> & [Hn Ha]%list_elem_of_filter).
      destruct (lifecycle_event (Scenario.ActNode a) a) as [e|] eqn:He; [| done]. by eapply plan_event_member.
    - intros Hn%Hs. by apply not_eq_None_Some, elem_of_dom, D2. }
  destruct (preflight_lifecycle actions (started before members) eq_refl) as [[Hval Hst]|[Hval (n & Hn & Hne)]]; fold w in Hval; rewrite Hval; cbn [andb].
  - rewrite forallb_Forall, Forall_forall. unfold balanced. split.
    + intros H n Hn. specialize (Hst n). rewrite started_is_up, bool_decide_eq_true_2 in Hst by done. unfold events in Hst. rewrite Hst.
      f_equal. fold w. unfold is_up. destruct (up w !! n) as [b|] eqn:E; [| by apply Hdom in Hn].
      apply (H (n, b)). by apply elem_of_map_to_list.
    + intros H [n b] Hin. apply elem_of_map_to_list in Hin. cbn [snd]. assert (n ∈ members) as Hn by (apply Hdom; by rewrite Hin).
      specialize (Hst n). rewrite started_is_up, bool_decide_eq_true_2 in Hst by done. unfold events in Hst. rewrite (H n Hn) in Hst.
      injection Hst as Hst. unfold is_up in Hst. fold w in Hst. by rewrite Hin in Hst.
  - split; [done |]. intros H. exfalso. pose proof (Hmem n Hne) as Hin. specialize (H n Hin). unfold balanced in H.
    rewrite started_is_up, bool_decide_eq_true_2 in Hn by done. unfold events in Hn. congruence.
Qed.

(** Why a plan is rejected, by code. *)
Definition reason (plan : Plan) (left right : Capabilities) (code : RejectionCode) : Prop :=
  let actions := Scenario.Actions (PlScenario plan) in
  let application := AppOracle.AppSchema (PlApplication plan) in
  (code = RejectFixedAllVoters ∧ fixedAllVoters (PlConfiguration plan) = false) ∨
  (code = RejectSourceAdapter ∧ SrcAdapter (PlSource plan) ≠ CpAdapter left) ∨
  (code = RejectLeftMembership ∧ MembershipFixedAllVoters ∉ items (MembershipProfiles left)) ∨
  (code = RejectRightMembership ∧ MembershipFixedAllVoters ∉ items (MembershipProfiles right)) ∨
  (code = RejectLeftApplication ∧ application ∉ items (ApplicationProfiles left)) ∨
  (code = RejectRightApplication ∧ application ∉ items (ApplicationProfiles right)) ∨
  (code = RejectInvalidCommand ∧ ∃ a, a ∈ actions ∧ proposes a ∧ command_id a = None) ∨
  (code = RejectDuplicateCommand ∧ ¬ NoDup (command_ids actions)) ∨
  (code = RejectUnsupportedAction ∧ ∃ a, a ∈ actions ∧ ¬ portable a) ∨
  (code = RejectUnbalancedLifecycle ∧ ∃ n, n ∈ Scenario.CnMembers (PlConfiguration plan) ∧ ¬ balanced actions n) ∨
  (code = RejectUnhealedNetwork ∧ healed false actions = false) ∨
  (code = RejectLeftAction ∧ ∃ a, a ∈ actions ∧ Scenario.ActKind a ∉ items (CpActions left)) ∨
  (code = RejectRightAction ∧ ∃ a, a ∈ actions ∧ Scenario.ActKind a ∉ items (CpActions right)) ∨
  (code = RejectLeftProjectionKind ∧ ∃ k, k ∈ portableProjectionKinds ∧ k ∉ items (ProjectionKinds left)) ∨
  (code = RejectRightProjectionKind ∧ ∃ k, k ∈ portableProjectionKinds ∧ k ∉ items (ProjectionKinds right)).

Lemma when_elem (b : bool) (code c : RejectionCode) : c ∈ (if b then [code] else []) ↔ c = code ∧ b = true.
Proof. destruct b; rewrite ?list_elem_of_singleton, ?elem_of_nil; naive_solver. Qed.

Lemma missing_elem supported values code c :
  c ∈ missing_from supported values code ↔ c = code ∧ ∃ v, v ∈ values ∧ v ∉ items supported.
Proof.
  unfold missing_from. rewrite list_elem_of_bind. split.
  - intros (v & Hc & Hv). destruct (contains (items supported) v) eqn:E; [by apply elem_of_nil in Hc |].
    apply list_elem_of_singleton in Hc. apply contains_false in E. eauto.
  - intros (-> & v & Hv & Hn). exists v. split; [| done]. apply contains_false in Hn. rewrite Hn. by left.
Qed.

Lemma required_elem actions (Q : string → Prop) :
  (∃ k, k ∈ elements (list_to_set (Scenario.ActKind <$> actions) : gset string) ∧ Q k) ↔ ∃ a, a ∈ actions ∧ Q (Scenario.ActKind a).
Proof.
  split.
  - intros (k & Hk & Hq). rewrite elem_of_elements, elem_of_list_to_set in Hk. apply list_elem_of_fmap in Hk as (a & -> & Ha). eauto.
  - intros (a & Ha & Hq). exists (Scenario.ActKind a). rewrite elem_of_elements, elem_of_list_to_set. split; [| done].
    by apply list_elem_of_fmap_2.
Qed.

Lemma balanced_dec_members plan : PlanValidate plan = None → ∀ before,
  let members := Scenario.CnMembers (PlConfiguration plan) in
  let actions := Scenario.Actions (PlScenario plan) in let w := fold_left preflightAction actions (started before members) in
  negb (lifecycleValid w && forallb snd (map_to_list (up w))) = true ↔ ∃ n, n ∈ members ∧ ¬ balanced actions n.
Proof.
  intros Hv before members actions w. rewrite negb_true_iff, <- not_true_iff_false.
  pose proof (preflight_balanced plan before Hv) as Hiff. cbv zeta in Hiff. fold members actions in Hiff. fold w in Hiff. rewrite Hiff.
  assert (∀ n, Decision (balanced actions n)) as Hdec by (intros n; unfold balanced; apply _).
  split.
  - intros H. destruct (decide (Forall (balanced actions) members)) as [Hf|Hf].
    + exfalso. apply H. by rewrite Forall_forall in Hf.
    + apply not_Forall_Exists in Hf; [| apply _]. apply Exists_exists in Hf. naive_solver.
  - intros (n & Hn & Hb) H. by apply Hb, H.
Qed.

Lemma fresh_empty ids : fresh_ids ∅ ids ↔ NoDup ids.
Proof. unfold fresh_ids. set_solver. Qed.

Lemma rejections_reason plan left right code :
  PlanValidate plan = None → code ∈ rejections plan left right ↔ reason plan left right code.
Proof.
  intros Hv. unfold rejections, reason. cbv zeta.
  match goal with |- context [mkWorkload ?b ∅ _ false true] =>
    change (mkWorkload b ∅ (list_to_map ((λ member, (member, true)) <$> Scenario.CnMembers (PlConfiguration plan))) false true)
      with (started b (Scenario.CnMembers (PlConfiguration plan))); set (before := b) end.
  rewrite !elem_of_app, !when_elem, !missing_elem, preflight_rejected, (balanced_dec_members plan Hv), preflight_partitioned.
  rewrite !required_elem. cbn [started rejected commands partitioned]. rewrite fresh_empty, negb_true_iff.
  unfold before. rewrite !elem_of_app, !when_elem, !negb_true_iff, !contains_false, bool_decide_eq_false. tauto.
Qed.

(** C27.  The preflight decides the eligibility of a plan.  For valid documents it lists, sorted
    and without repetition, exactly the codes whose reason holds: roles other than all
    voters, a source that is not the left adapter, missing profiles, actions or kinds on
    either side, commands that do not decode or repeat an identifier, actions outside the
    portable vocabulary, a member whose crashes and restarts do not alternate or that does
    not end up, a partition that is not healed.  The plan is eligible exactly when there is none. *)
Theorem preflight_exact plan left right :
  match Preflight plan left right with
  | inl _ => PlanValidate plan ≠ None ∨ CapabilitiesValidate left ≠ None ∨ CapabilitiesValidate right ≠ None
  | inr e => (PlanValidate plan = None ∧ CapabilitiesValidate left = None ∧ CapabilitiesValidate right = None) ∧
      sorted_set (Rejections e) ∧ (Eligible e = true ↔ ∀ code, ¬ reason plan left right code) ∧
      ∀ code, code ∈ Rejections e ↔ reason plan left right code
  end.
Proof.
  unfold Preflight. destruct (PlanValidate plan) eqn:Hp; [auto |]. destruct (CapabilitiesValidate left) eqn:Hl; [auto |].
  destruct (CapabilitiesValidate right) eqn:Hr; [auto |]. cbn [Rejections Eligible].
  assert (∀ code, code ∈ sort_compact (rejections plan left right) ↔ reason plan left right code) as H.
  { intros code. by rewrite sort_compact_elem, rejections_reason. }
  split_and!; try done; [apply sort_compact_sorted |]. rewrite DecisionProps.zlen_eqb_zero, bool_decide_eq_true. split.
  - intros E code Hc. apply H in Hc. rewrite E in Hc. by apply elem_of_nil in Hc.
  - intros Hn. apply elem_of_nil_inv. intros code Hc. by apply (Hn code), H.
Qed.

(** ** The budget *)

Lemma consume_spec r a : consume r a = if decide (0 ≤ a ≤ r) then Some (r - a) else None.
Proof.
  unfold consume. destruct (Z.ltb_spec a 0); cbn [orb]; [by rewrite decide_False by lia |].
  destruct (Z.ltb_spec r a); [by rewrite decide_False by lia | by rewrite decide_True by lia].
Qed.

Definition sum (l : list Z) : Z := foldr Z.add 0 l.

Lemma sum_nonneg l : Forall (λ a, 0 ≤ a) l → 0 ≤ sum l.
Proof. unfold sum. induction 1; simpl; lia. Qed.

Lemma consumeAll_spec r l : 0 ≤ r → Forall (λ a, 0 ≤ a) l → consumeAll r l = if decide (sum l ≤ r) then Some (r - sum l) else None.
Proof.
  intros Hr Hl. revert r Hr. induction Hl as [|a l Ha Hl IH]; intros r Hr; cbn [consumeAll sum foldr].
  { rewrite decide_True by (simpl; lia). f_equal. simpl. lia. }
  fold (sum l). pose proof (sum_nonneg l Hl). rewrite consume_spec. case_decide as H1; cbn [mbind option_bind]; [| by rewrite decide_False by lia].
  rewrite IH by lia. case_decide; [rewrite decide_True by lia; f_equal; lia | by rewrite decide_False by lia].
Qed.

Definition groupAmounts (action : Scenario.Action) : list Z := (λ node, strlen node + 4) <$> concat (Scenario.ActGroups action).
Definition actionAmounts (actions : list Scenario.Action) : list Z := actions ≫= λ a, actionAmount a :: groupAmounts a.

Lemma text_nonneg s : 0 ≤ strlen s.
Proof. apply zlen_nonneg. Qed.

Lemma actionAmount_nonneg a : 0 ≤ actionAmount a.
Proof.
  unfold actionAmount. pose proof (text_nonneg (Scenario.ActNode a)). pose proof (zlen_nonneg (Scenario.ActData a)).
  pose proof (Z.div_pos (zlen (Scenario.ActData a) + 2) 3 ltac:(lia) ltac:(lia)). lia.
Qed.

Lemma groupAmounts_nonneg a : Forall (λ z, 0 ≤ z) (groupAmounts a).
Proof. unfold groupAmounts. apply Forall_fmap, Forall_true. intros s. simpl. pose proof (text_nonneg s). lia. Qed.

Lemma actionAmounts_nonneg actions : Forall (λ z, 0 ≤ z) (actionAmounts actions).
Proof.
  unfold actionAmounts. induction actions as [|a actions IH]; cbn [mbind list_bind]; [constructor |].
  apply Forall_app. split; [| exact IH]. apply Forall_cons. split; [apply actionAmount_nonneg | apply groupAmounts_nonneg].
Qed.

Lemma consumeAll_app r l k : consumeAll r (l ++ k) = consumeAll r l ≫= λ r, consumeAll r k.
Proof.
  revert r. induction l as [|a l IH]; intros r; [done |]. cbn [consumeAll app]. destruct (consume r a); [| done].
  cbn [mbind option_bind]. apply IH.
Qed.

Lemma consumeActions_eq r actions : consumeActions r actions = consumeAll r (actionAmounts actions).
Proof.
  unfold actionAmounts. revert r. induction actions as [|a actions IH]; intros r; [done |]. cbn [consumeActions mbind list_bind app].
  cbn [consumeAll]. destruct (consume r (actionAmount a)); [| done]. cbn [mbind option_bind]. rewrite consumeAll_app. fold (groupAmounts a).
  destruct (consumeAll z (groupAmounts a)); [| done]. cbn [mbind option_bind]. apply IH.
Qed.

(** The budget of a plan is exact: a plan fits when the sum of its amounts - the base64 text
    of every payload, the nodes of every group, the endpoints of every directive, and the
    constants for their syntax - is at most what the limit leaves; nothing is lost to the
    order of the sums. *)
Theorem plan_budget_exact plan :
  planFitsResourceBudget plan = true ↔
  sum (actionAmounts (Scenario.Actions (PlScenario plan)) ++ (directiveAmount <$> items (PlDirectives plan)))
    ≤ Scenario.DefaultMaxArtifactBytes - 4096.
Proof.
  unfold planFitsResourceBudget. set (limit := Scenario.DefaultMaxArtifactBytes - 4096). assert (0 ≤ limit) as Hl by done.
  assert (Forall (λ z, 0 ≤ z) (directiveAmount <$> items (PlDirectives plan))) as Hd.
  { apply Forall_fmap, Forall_true. intros d. simpl. unfold directiveAmount. pose proof (text_nonneg (KeyNode (DirKey d))).
    pose proof (text_nonneg (KeyFrom (DirKey d))). pose proof (text_nonneg (KeyTo (DirKey d))). lia. }
  rewrite consumeActions_eq. pose proof (consumeAll_app limit (actionAmounts (Scenario.Actions (PlScenario plan))) (directiveAmount <$> items (PlDirectives plan))) as E.
  rewrite (consumeAll_spec limit (_ ++ _) Hl) in E by (apply Forall_app; auto using actionAmounts_nonneg).
  destruct (consumeAll limit (actionAmounts _)) as [r|]; cbn [mbind option_bind] in E; [rewrite <- E |]; case_decide; try done; by split; intros.
Qed.
