(* ===== verification/Execution.v ===== *)
(** * Executions of semantic plans (semanticplan/execution.go)

    The evidence of one attempt to run a plan on an adapter: its validation, the
    independent reconstruction of its projection from the recorded tape, and its
    normalization into the portable outcome.  The JSON texts of executions and plans are
    parameters; the clones of the source are values. *)

From S2P Require Import Prelude.
From S2P Require Export Normalized Plan.
From S2P Require Scenario Outcome Check AppOracle RaftTypes.
From stdpp Require Import options.

#[global] Open Scope Z_scope.

Definition SemanticExecutionSchema : string := "d-raft.semantic-execution/v1".
Definition maxExecutionErrorBytes : Z := 4096.

(** The tape is its schema and its entries, which can be null. *)
Record SemanticExecution := mkExecution {
  ExSchema : string; ExPlanSHA256 : string; ExCapabilitiesSHA256 : string; ExAdapter : Scenario.Adapter;
  ExReproducibility : Scenario.Reproducibility; ExEligibility : EligibilityStatus; ExRejections : option (list RejectionCode);
  ExProjection : ProjectionReport; ExTapeSchema : string; ExEntries : option (list Entry);
  ExOutcome : option Outcome.Outcome; OperationalError : string; ExCommitments : option (list NodeCommitment) }.

Definition ExDecisions (execution : SemanticExecution) : Tape := mkTape (ExTapeSchema execution) (items (ExEntries execution)).

(** ** Validation of the parts *)

(** A text that is bounded, valid UTF-8, trimmed and without control characters. *)
Definition boundedText (value : string) (maximum : Z) : bool :=
  negb (String.eqb value "" || (maximum <? strlen value) || negb (valid_utf8 (str value)) || negb (trimmed (str value)) || has_control (str value)).

Definition validateExecutionReproducibility (r : Scenario.Reproducibility) : bool :=
  String.eqb (Scenario.DecisionSchema r) SchemaVersion &&
  boundedText (Scenario.GitRevision r) 256 && boundedText (Scenario.GoVersion r) 128 && boundedText (Scenario.CheckerSchema r) 256 &&
  boundedText (Scenario.MessageCodec r) 256 && boundedText (Scenario.ObservationSchema r) 256.

Definition validRejectionCode (value : RejectionCode) : bool :=
  contains [RejectFixedAllVoters; RejectUnsupportedAction; RejectInvalidCommand; RejectDuplicateCommand; RejectUnbalancedLifecycle;
    RejectUnhealedNetwork; RejectSourceAdapter; RejectLeftMembership; RejectRightMembership; RejectLeftAction; RejectRightAction;
    RejectLeftApplication; RejectRightApplication; RejectLeftProjectionKind; RejectRightProjectionKind] value.

Definition strictRejectionSet (values : list RejectionCode) : bool := forallb validRejectionCode values && strictlySorted values.

(** [seen] are the nodes before; they are sorted, so a repeated node is also out of order. *)
Fixpoint validateNodeCommitmentLoop (previous : option NodeID) (seen : gset NodeID) (nodes : list NodeCommitment) : bool :=
  match nodes with
  | [] => true
  | node :: nodes =>
    validateNodeID (CommitNode node) && validateCommitment (CommitCommitment node) && negb (bool_decide (CommitNode node ∈ seen)) &&
    match previous with
    | Some p => match String.compare p (CommitNode node) with Lt => true | _ => false end
    | None => true
    end &&
    validateNodeCommitmentLoop (Some (CommitNode node)) ({[CommitNode node]} ∪ seen) nodes
  end.

Definition validateNodeCommitmentList (nodes : list NodeCommitment) : bool := validateNodeCommitmentLoop None ∅ nodes.

Fixpoint sortedKeys (previous : option PortableKey) (keys : list PortableKey) : bool :=
  match keys with
  | [] => true
  | key :: keys =>
    validateKey key &&
    match previous with
    | Some p => match compareKeys p key with Lt => true | _ => false end
    | None => true
    end &&
    sortedKeys (Some key) keys
  end.

Definition validateProjectionReport (report : ProjectionReport) (recorded : Z) : bool :=
  let additional := items (Additional report) in
  let unmatched := items (Unmatched report) in
  negb ((ReDirectives report <? 0) || (Projected report <? 0) || (Fixed report <? 0) || (ReDirectives report <? Projected report) ||
        bool_decide (Additional report = None) || bool_decide (Unmatched report = None)) &&
  negb ((Scenario.MaxDecisions <? ReDirectives report) || (Scenario.MaxDecisions <? Projected report) ||
        (Scenario.MaxDecisions <? Fixed report) || (Scenario.MaxDecisions <? zlen additional) || (Scenario.MaxDecisions <? zlen unmatched)) &&
  sortedKeys None additional &&
  bool_decide (ValidateDirectives unmatched = None) &&
  (recorded =? Projected report + Fixed report + zlen additional) &&
  (if String.eqb (Fidelity report) ProjectionExact then
     is_nil additional && is_nil unmatched && (Projected report =? ReDirectives report)
   else if String.eqb (Fidelity report) ProjectionPartial then
     negb (zlen additional + zlen unmatched =? 0) && (Projected report + zlen unmatched =? ReDirectives report)
   else if String.eqb (Fidelity report) ProjectionFailed then
     Projected report + zlen unmatched <=? ReDirectives report
   else false).

(** The violations in order; [seen] are the fingerprints before. *)
Fixpoint validateViolations (endNS : Z) (seen : gset string) (violations : list Outcome.Violation) : bool :=
  match violations with
  | [] => true
  | violation :: violations =>
    negb ((Outcome.VAtNS violation <? 0) || (endNS <? Outcome.VAtNS violation) ||
          (Scenario.MaxViolationEvidenceBytes <? zlen (Outcome.Evidence violation))) &&
    match Check.ValidateViolation violation with Some _ => false | None => true end &&
    negb (bool_decide (Outcome.VFingerprint violation ∈ seen)) &&
    validateViolations endNS ({[Outcome.VFingerprint violation]} ∪ seen) violations
  end.

Definition validateRawOutcome (outcome : Outcome.Outcome) : bool :=
  let noError := String.eqb (Outcome.OutError outcome) "" in
  let clean := is_nil (Outcome.Violations outcome) in
  negb ((Outcome.EndNS outcome <? 0) || (Scenario.MaxScenarioSteps <? Outcome.Steps outcome) ||
        negb (digestPattern (Outcome.ObservationDigest outcome)) || (maxExecutionErrorBytes <? strlen (Outcome.OutError outcome)) ||
        (Scenario.MaxViolations <? zlen (Outcome.Violations outcome))) &&
  validateViolations (Outcome.EndNS outcome) ∅ (Outcome.Violations outcome) &&
  (if String.eqb (Outcome.Status outcome) Outcome.OutcomeCompleted then noError && clean
   else if String.eqb (Outcome.Status outcome) Outcome.OutcomeViolation then noError && negb clean
   else if String.eqb (Outcome.Status outcome) Outcome.OutcomeError then negb noError && clean
   else if String.eqb (Outcome.Status outcome) Outcome.OutcomeBudgetExhausted then noError && clean
   else false).

(** The switch on the eligibility. *)
Definition validateEligibility (execution : SemanticExecution) : bool :=
  let rejections := items (ExRejections execution) in
  if String.eqb (ExEligibility execution) EligibilityIneligible then
    negb (is_nil rejections || negb (String.eqb (Fidelity (ExProjection execution)) ProjectionFailed) ||
          negb (is_nil (items (ExEntries execution))) || bool_decide (is_Some (ExOutcome execution)) ||
          negb (String.eqb (OperationalError execution) "") || negb (is_nil (items (ExCommitments execution))))
  else if String.eqb (ExEligibility execution) EligibilityEligible then
    is_nil rejections &&
    match ExOutcome execution with
    | None => negb (String.eqb (OperationalError execution) "")
    | Some _ => String.eqb (OperationalError execution) ""
    end
  else false.

(** The outcome, and that a failed projection has an error outcome. *)
Definition validateExecutionOutcome (execution : SemanticExecution) : bool :=
  match ExOutcome execution with
  | None => true
  | Some outcome =>
    validateRawOutcome outcome &&
    negb (String.eqb (Fidelity (ExProjection execution)) ProjectionFailed && negb (String.eqb (Outcome.Status outcome) Outcome.OutcomeError))
  end.

Definition has_zero (l : bytes) : bool := existsb (λ b, code b =? 0) l.

(** ** Comparisons with a plan *)

Definition validateOutcomeAgainstPlan (plan : Plan) (outcome : Outcome.Outcome) : bool :=
  let steps := Scenario.ScMaxSteps (PlScenario plan) in
  negb ((ComparisonBoundaryNS (PlConvergence plan) <? Outcome.EndNS outcome) || (steps <? Outcome.Steps outcome)) &&
  negb (String.eqb (Outcome.Status outcome) Outcome.OutcomeBudgetExhausted && negb (Outcome.Steps outcome =? steps)) &&
  forallb (λ violation, forallb (contains (Scenario.CnMembers (PlConfiguration plan))) (Outcome.VNodes violation)) (Outcome.Violations outcome).

Definition validatePlanCommitmentNodes (plan : Plan) (nodes : list NodeCommitment) : bool :=
  nodes_equal (CommitNode <$> nodes) (Scenario.CnMembers (PlConfiguration plan)).

Definition classifyCompletion (outcome : Outcome.Outcome) (boundary : Z) (fidelity : ProjectionFidelity) : CompletionStatus :=
  let status_is := String.eqb (Outcome.Status outcome) in
  if String.eqb fidelity ProjectionFailed || status_is Outcome.OutcomeError then CompletionExecutionError
  else if (Outcome.EndNS outcome =? boundary) && (status_is Outcome.OutcomeCompleted || status_is Outcome.OutcomeViolation)
  then CompletionCompleted
  else if status_is Outcome.OutcomeViolation then CompletionSafetyViolation
  else if status_is Outcome.OutcomeBudgetExhausted then CompletionStepLimit
  else if status_is Outcome.OutcomeCompleted then CompletionTimeLimit
  else CompletionExecutionError.

(** ** Clones *)

Definition cloneDirectives (directives : option (list Directive)) : option (list Directive) := Some (map cloneDirective (items directives)).
Definition cloneProjectionReport (report : ProjectionReport) : ProjectionReport :=
  mkReport (Fidelity report) (ReDirectives report) (Projected report) (Fixed report) (Some (RaftTypes.slices_Clone (items (Additional report))))
    (Some (map cloneDirective (RaftTypes.slices_Clone (items (Unmatched report))))).
Definition cloneNodeCommitments (nodes : option (list NodeCommitment)) : option (list NodeCommitment) := Some (RaftTypes.slices_Clone (items nodes)).
Definition cloneRawViolation (v : Outcome.Violation) : Outcome.Violation :=
  Outcome.mkViolation (Outcome.VID v) (Outcome.VAtNS v) (RaftTypes.slices_Clone (Outcome.VNodes v)) (RaftTypes.slices_Clone (Outcome.Evidence v)) (Outcome.VFingerprint v).
Definition cloneRawOutcome (outcome : option Outcome.Outcome) : option Outcome.Outcome :=
  (λ o, Outcome.mkOutcome (Outcome.Status o) (Outcome.Steps o) (Outcome.EndNS o) (Outcome.ObservationDigest o) (Outcome.OutError o)
    (map cloneRawViolation (Outcome.Violations o))) <$> outcome.

(** ** Negotiation *)

(** The identifiers of both, by two indices. *)
Fixpoint commonIDs (left : list string) {struct left} : list string → list string :=
  fix go right :=
    match left, right with
    | x :: left', y :: right' =>
      match String.compare x y with
      | Lt => commonIDs left' right
      | Gt => go right'
      | Eq => x :: commonIDs left' right'
      end
    | _, _ => []
    end.

Definition NegotiateInvariantIDs (left right : Capabilities) : SemanticError + option (list string) :=
  match CapabilitiesValidate left with
  | Some err => inl err
  | None =>
    match CapabilitiesValidate right with
    | Some err => inl err
    | None => inr (Some (commonIDs (items (InvariantIDs left)) (items (InvariantIDs right))))
    end
  end.

Definition DigestCapabilities (capabilities : Capabilities) : SemanticError + string :=
  match CapabilitiesValidate capabilities with
  | Some err => inl err
  | None => digestCanonicalJSON (Some (marshalCapabilities capabilities))
  end.

Definition bilateralPreflight (plan : Plan) (local peer : Capabilities) : SemanticError + Eligibility :=
  if bool_decide (CpAdapter local = SrcAdapter (PlSource plan)) then Preflight plan local peer
  else if bool_decide (CpAdapter peer = SrcAdapter (PlSource plan)) then Preflight plan peer local
  else inl ErrInvalidExecution.

(** ** Executions *)

Section execution.
(** What [json.Marshal] returns for a plan and for an execution. *)
Variable marshalPlan : Plan → option bytes.
Variable marshalExecution : SemanticExecution → option bytes.

(** The checks before and after the tape. *)
Definition validateHead (execution : SemanticExecution) : bool :=
  String.eqb (ExSchema execution) SemanticExecutionSchema &&
  digestPattern (ExPlanSHA256 execution) && digestPattern (ExCapabilitiesSHA256 execution) &&
  validateAdapterID (ExAdapter execution) && validateExecutionReproducibility (ExReproducibility execution) &&
  bool_decide (ExRejections execution ≠ None) && strictRejectionSet (items (ExRejections execution)) &&
  String.eqb (ExTapeSchema execution) SchemaVersion && bool_decide (ExEntries execution ≠ None) &&
  (zlen (items (ExEntries execution)) <=? Scenario.MaxDecisions).

Definition validateTail (execution : SemanticExecution) : bool :=
  bool_decide (ExCommitments execution ≠ None) && validateNodeCommitmentList (items (ExCommitments execution)) &&
  validateProjectionReport (ExProjection execution) (zlen (items (ExEntries execution))) &&
  negb ((maxExecutionErrorBytes <? strlen (OperationalError execution)) || has_zero (str (OperationalError execution))) &&
  validateEligibility execution && validateExecutionOutcome execution &&
  match marshalExecution execution with
  | None => false
  | Some encoded => zlen encoded <=? Scenario.DefaultMaxArtifactBytes
  end.

Definition ExecutionValidate (execution : SemanticExecution) : go (option SemanticError) :=
  if negb (validateHead execution) then Done (Some ErrInvalidExecution)
  else
    valid ← NewTapeDecider (ExDecisions execution);
    Done (match valid with
          | inl _ => Some ErrInvalidExecution
          | inr _ => if validateTail execution then None else Some ErrInvalidExecution
          end).

Definition DigestSemanticExecution (execution : SemanticExecution) : go (SemanticError + string) :=
  invalid ← ExecutionValidate execution;
  Done (match invalid with
        | Some err => inl err
        | None => digestCanonicalJSON (marshalExecution execution)
        end).

Definition DecodeSemanticExecution (Decode : bytes → option (SemanticExecution * bytes)) (reader : option Reader)
    : go (SemanticError + SemanticExecution) :=
  match decodePlanDocument Decode reader Scenario.DefaultMaxArtifactBytes with
  | inl _ => Done (inl ErrInvalidExecution)
  | inr execution =>
    invalid ← ExecutionValidate execution;
    Done (match invalid with Some err => inl err | None => inr execution end)
  end.

(** The report of an adapter that did not run. *)
Definition unexecuted (plan : Plan) : ProjectionReport :=
  mkReport ProjectionFailed (zlen (items (PlDirectives plan))) 0 0 (Some []) (cloneDirectives (PlDirectives plan)).

Definition set_failed_report (report : ProjectionReport) (failed : bool) : ProjectionReport :=
  mkReport (if failed then ProjectionFailed else Fidelity report) (ReDirectives report) (Projected report) (Fixed report)
    (Additional report) (Unmatched report).

Definition VerifyExecutionProjection (fuel : nat) (plan : Plan) (execution : SemanticExecution)
    : go (option (option SemanticError)) :=
  match PlanValidate plan with
  | Some err => Done (Some (Some err))
  | None =>
    invalid ← ExecutionValidate execution;
    match invalid with
    | Some err => Done (Some (Some err))
    | None =>
      if negb (Scenario.DecisionSeed (ExReproducibility execution) =? FallbackSeed plan) then Done (Some (Some ErrInvalidExecution))
      else if String.eqb (ExEligibility execution) EligibilityIneligible then
        Done (Some (if bool_decide (unexecuted plan = ExProjection execution) then None else Some ErrInvalidExecution))
      else
        match NewProjector (items (PlDirectives plan)) (FallbackSeed plan) with
        | inl err => Done (Some (Some (ErrProjection err)))
        | inr projector =>
          replayed ← projectEntries fuel projector (items (ExEntries execution));
          Done (match replayed with
                | None => None
                | Some (inl err) => Some (Some err)
                | Some (inr projector) =>
                  let want := set_failed_report (ProjectorFinish projector)
                    (String.eqb (Fidelity (ExProjection execution)) ProjectionFailed) in
                  Some (if bool_decide (want = ExProjection execution) then None else Some ErrInvalidExecution)
                end)
        end
    end
  end.

Definition NewEligibleExecution (fuel : nat) (plan : Plan) (capabilities : Capabilities) (reproducibility : Scenario.Reproducibility)
    (projection : ProjectionReport) (tape : Tape) (outcome : option Outcome.Outcome) (operationalError : string)
    (nodes : option (list NodeCommitment)) : go (option (SemanticError + SemanticExecution)) :=
  match DigestPlan marshalPlan plan with
  | inl err => Done (Some (inl err))
  | inr planDigest =>
    match DigestCapabilities capabilities with
    | inl err => Done (Some (inl err))
    | inr capabilitiesDigest =>
      let tape := CloneTape tape in
      let execution := mkExecution SemanticExecutionSchema planDigest capabilitiesDigest (CpAdapter capabilities) reproducibility
        EligibilityEligible (Some []) (cloneProjectionReport projection) (Schema tape) (Some (Entries tape))
        (cloneRawOutcome outcome) operationalError (cloneNodeCommitments nodes) in
      invalid ← ExecutionValidate execution;
      match invalid with
      | Some err => Done (Some (inl err))
      | None =>
        verified ← VerifyExecutionProjection fuel plan execution;
        Done (match verified with
              | None => None
              | Some (Some err) => Some (inl err)
              | Some None => Some (inr execution)
              end)
      end
    end
  end.

(** The part of [NormalizeExecution] after the verification. *)
Definition normalized (plan : Plan) (capabilities : Capabilities) (negotiatedCommon : option (list string)) (planDigest executionDigest : string)
    (execution : SemanticExecution) : SemanticError + NormalizedOutcome :=
  let make completion commitments common specific :=
    CanonicalizeOutcome (mkNormalizedOutcome NormalizedOutcomeSchema planDigest executionDigest (ExAdapter execution) (ExEligibility execution)
      (Fidelity (ExProjection execution)) completion false commitments (Some (RaftTypes.slices_Clone (items negotiatedCommon))) common specific) in
  if String.eqb (ExEligibility execution) EligibilityIneligible then make CompletionNotExecuted (Some []) (Some []) (Some [])
  else
    let commitments := cloneNodeCommitments (ExCommitments execution) in
    match ExOutcome execution with
    | None => make CompletionExecutionError commitments (Some []) (Some [])
    | Some outcome =>
      if negb (validateOutcomeAgainstPlan plan outcome) then inl ErrInvalidExecution
      else
        let completion := classifyCompletion outcome (ComparisonBoundaryNS (PlConvergence plan)) (Fidelity (ExProjection execution)) in
        let observed := Outcome.VID <$> Outcome.Violations outcome in
        if negb (forallb (contains (items (InvariantIDs capabilities))) observed) then inl ErrInvalidExecution
        else match NormalizeInvariantIDs (Some observed) negotiatedCommon with
        | inl err => inl err
        | inr (common, specific) =>
          if completionReachedBoundary completion && negb (validatePlanCommitmentNodes plan (items commitments)) then inl ErrInvalidExecution
          else make completion commitments common specific
        end
    end.

Definition NormalizeExecution (fuel : nat) (plan : Plan) (capabilities peerCapabilities : Capabilities) (execution : SemanticExecution)
    : go (option (SemanticError + NormalizedOutcome)) :=
  match DigestPlan marshalPlan plan, DigestCapabilities capabilities, NegotiateInvariantIDs capabilities peerCapabilities,
        bilateralPreflight plan capabilities peerCapabilities with
  | inl err, _, _, _ => Done (Some (inl err))
  | _, inl err, _, _ => Done (Some (inl err))
  | _, _, inl err, _ => Done (Some (inl err))
  | _, _, _, inl err => Done (Some (inl err))
  | inr planDigest, inr capabilitiesDigest, inr negotiatedCommon, inr eligibility =>
    invalid ← ExecutionValidate execution;
    match invalid with
    | Some err => Done (Some (inl err))
    | None =>
      let wantEligibility := if negb (Eligible eligibility) then EligibilityIneligible else EligibilityEligible in
      if negb (String.eqb (ExPlanSHA256 execution) planDigest) then Done (Some (inl ErrInvalidExecution))
      else if negb (String.eqb (ExCapabilitiesSHA256 execution) capabilitiesDigest) || negb (bool_decide (ExAdapter execution = CpAdapter capabilities))
      then Done (Some (inl ErrInvalidExecution))
      else if negb (String.eqb (ExEligibility execution) wantEligibility) || negb (nodes_equal (items (ExRejections execution)) (Rejections eligibility))
      then Done (Some (inl ErrInvalidExecution))
      else
        verified ← VerifyExecutionProjection fuel plan execution;
        match verified with
        | None => Done None
        | Some (Some err) => Done (Some (inl err))
        | Some None =>
          digest ← DigestSemanticExecution execution;
          Done (Some (match digest with
                      | inl err => inl err
                      | inr executionDigest => normalized plan capabilities negotiatedCommon planDigest executionDigest execution
                      end))
        end
    end
  end.
End execution.
