(* ===== verification/ExecutionProps.v ===== *)
(** * Properties of executions

    The evidence that an honest execution leaves is accepted by its independent
    verification; what the verification accepts is the accounting of the plan; and the
    normalized outcomes of two executions of one plan always compare. *)

From S2P Require Import Prelude.
From S2P Require Export Execution ProjectorProps NormalizedProps.
From S2P Require Scenario Outcome Check AppOracle RaftTypes ArtifactProps.
From stdpp Require Import options.

#[global] Open Scope Z_scope.

(** ** Recording over a projector *)

(** Every choice that a program can ask satisfies [P]. *)
Fixpoint asks {R} (P : Choice → Prop) (p : program R) : Prop :=
  match p with
  | Return _ => True
  | Ask c k => P c ∧ ∀ answer, asks P (k answer)
  end.

Lemma recorder_projection {R} fuel ds (prog : program R) cs p es0 (r' : Recorder Projector) v :
  directives_ok ds → progress ds cs p → asks choice_u64 prog →
  execute fuel prog (mkRecorder (Some p) es0 None) = Done (Some (r', v)) →
  ∃ es p' q, entries r' = es0 ++ es ∧ base r' = Some p' ∧ Forall entry_ok es ∧
    projectEntries fuel p es = Done (Some (inr q)) ∧ progress ds (cs ++ (EnChoice <$> es)) q ∧
    ((rec_err r' = None ∧ p' = q) ∨ (rec_err r' ≠ None ∧ failed p' ≠ None ∧ tracks ds (cs ++ (EnChoice <$> es)) p')).
Proof.
  intros Hok. revert cs p es0. induction prog as [x|c k IH]; intros cs p es0 Hp Hty; cbn [execute].
  { intros [= <- <-]. exists [], p, p. rewrite !app_nil_r. split_and!; try done; by left. }
  destruct Hty as [Hc Hty]. cbn [Choose recorder_decider]. unfold recorderChoose. cbn [rec_err base Choose projector_decider].
  destruct (projectorChoose fuel p c) as [[[p1 [err|s]]|]|] eqn:Ech; cbn [mbind go_bind]; [| | done | done].
  - intros E. apply (recorder_sticky _ _ _ _ _ (projectorError err)) in E as ->; [| done].
    destruct (projectorChoose_progress _ _ _ _ _ _ _ Hok Hp Ech) as [Hf Ht].
    exists [], p1, p. cbn [entries base rec_err]. rewrite !app_nil_r. split_and!; try done. right. split_and!; [done | congruence | done].
  - destruct (projectorChoose_progress _ _ _ _ _ _ _ Hok Hp Ech) as (Hp1 & _ & Hin). specialize (Hin Hc).
    pose proof Hp1 as (_ & _ & _ & _ & H5).
    assert (choice_wf c) as Hwf. { apply Forall_app in H5 as [_ [Hk _]%Forall_cons]. by apply has_key_portable. }
    destruct (newEntry_spec c s) as [(_ & _ & ->)|[Hno _]]; [| by destruct Hno]. cbn [mbind go_bind]. intros E.
    destruct (IH (inr s) (cs ++ [c]) p1 (es0 ++ [entry_of_choice c s]) Hp1 (Hty _) E) as (es & p' & q & He & Hb & Hes & Hq & Hpq & Hlast).
    exists (entry_of_choice c s :: es), p', q. rewrite fmap_cons. rewrite <- !(assoc_L (++)) in *. split_and!; try done.
    + constructor; [| done]. by split_and!.
    + cbn [projectEntries]. change (EnChoice (entry_of_choice c s)) with c. rewrite Ech. cbn [mbind go_bind].
      change (EnSelection (entry_of_choice c s)) with s. by rewrite bool_decide_eq_true_2.
Qed.

(** ** Reports of projectors *)

Lemma sortedKeys_spec previous keys :
  sortedKeys previous keys = true ↔
  Forall (λ k, validateKey k = true) keys ∧ StronglySorted (λ k j, compareKeys k j = Lt) keys ∧
  match previous with Some p => Forall (λ k, compareKeys p k = Lt) keys | None => True end.
Proof.
  assert (Htr : Transitive (λ k j, compareKeys k j = Lt)).
  { intros x y z H1 H2. assert (compareKeys x z ≠ Gt) as H by (apply (compare_trans _ compareKeys_ok x y z); congruence).
    destruct (compareKeys x z) eqn:E; [| done | done]. apply compareKeys_eq in E as ->.
    rewrite (compare_anti _ compareKeys_ok), H2 in H1. done. }
  revert previous. induction keys as [|k keys IH]; intros previous; cbn [sortedKeys].
  { split; [| done]. intros _. split_and!; try constructor. by destruct previous. }
  rewrite !andb_true_iff, IH, Forall_cons.
  assert (StronglySorted (λ k j, compareKeys k j = Lt) (k :: keys) ↔
    StronglySorted (λ k j, compareKeys k j = Lt) keys ∧ Forall (λ j, compareKeys k j = Lt) keys) as ->.
  { split; [by inversion 1 | intros []; by constructor]. }
  split.
  - intros ((H1 & H2) & H3 & H4 & H5). split_and!; try done. destruct previous as [p|]; [| done].
    assert (compareKeys p k = Lt) as Hp by by destruct (compareKeys p k). apply Forall_cons. split; [done |].
    eapply Forall_impl; [exact H5 |]. intros j Hj. by apply (Htr p k j).
  - intros ((H1 & H2) & (H3 & H4) & H5). split_and!; try done. destruct previous as [p|]; [| done].
    apply Forall_cons in H5 as [-> _]. done.
Qed.

Lemma sortKeys_sorted keys :
  Forall (λ k, validateKey k = true) keys → NoDup keys → sortedKeys None (sortKeys keys) = true.
Proof.
  intros Hv Hnd. apply sortedKeys_spec. unfold sortKeys. split_and!; [by rewrite merge_sort_Permutation | | done].
  assert (StronglySorted key_le (merge_sort key_le keys)) as Hs by (apply StronglySorted_merge_sort; apply _).
  assert (NoDup (merge_sort key_le keys)) as Hnd' by by rewrite merge_sort_Permutation.
  induction Hs as [|k l Hs IH Hf]; [constructor |]. apply NoDup_cons in Hnd' as [Hk Hnd']. constructor; [by apply IH |].
  rewrite Forall_forall in *. intros j Hj. specialize (Hf j Hj). unfold key_le in Hf.
  destruct (compareKeys k j) eqn:E; [| done | done]. apply compareKeys_eq in E as ->. done.
Qed.

(** The report of a projection is valid for the number of choices it answered. *)
Lemma accounting_valid failed ds cs :
  directives_ok ds → zlen ds ≤ Scenario.MaxDecisions → NoDup (key_of <$> cs) → Forall has_key cs → zlen cs ≤ Scenario.MaxDecisions →
  validateProjectionReport (accounting failed ds cs) (zlen cs) = true.
Proof.
  intros Hok Hlen Hnd Hk Hcs. pose proof Hok as (_ & _ & Hnd').
  pose proof (covered_missing ds cs Hnd' Hnd) as H1. pose proof (covered_extra ds cs) as H2.
  pose proof (zlen_nonneg (covered ds cs)). pose proof (zlen_nonneg (missing ds cs)). pose proof (zlen_nonneg (fixed_choices cs)).
  pose proof (zlen_nonneg (extra ds cs)).
  assert (zlen (sortKeys (extra ds cs)) = zlen (extra ds cs)) as Hx by (unfold zlen, sortKeys; by rewrite merge_sort_Permutation).
  assert (sortedKeys None (sortKeys (extra ds cs)) = true) as Hs.
  { apply sortKeys_sorted.
    - unfold extra. apply Forall_fmap. rewrite Forall_forall in *. intros c Hc. do 2 apply list_elem_of_filter in Hc as [_ Hc].
      by destruct (has_key_portable c (Hk c Hc)) as (_ & _ & ?).
    - eapply sublist_NoDup; [exact Hnd |]. apply fmap_sublist. etrans; apply sublist_filter. }
  assert (ValidateDirectives (missing ds cs) = None) as Hv.
  { apply ValidateDirectives_spec. eapply directives_ok_sublist; [apply sublist_filter | done]. }
  assert (is_nil (sortKeys (extra ds cs)) = bool_decide (extra ds cs = [])) as Hn1.
  { rewrite <- is_nil_zlen, Hx, zlen_eqb_zero. done. }
  unfold validateProjectionReport, accounting. cbn [ReDirectives Projected Fixed Additional Unmatched Fidelity items default from_option id].
  rewrite Hx, Hs, Hv. rewrite !bool_decide_eq_false_2 by done. rewrite bool_decide_eq_true_2 by done.
  rewrite !(proj2 (Z.ltb_ge _ _)) by lia. cbn [orb negb andb]. rewrite (proj2 (Z.eqb_eq _ _)) by lia. cbn [andb].
  destruct failed; [change (String.eqb ProjectionFailed ProjectionExact) with false; change (String.eqb ProjectionFailed ProjectionPartial) with false;
    change (String.eqb ProjectionFailed ProjectionFailed) with true; cbv iota; lia |].
  destruct (bool_decide_reflect (extra ds cs = [] ∧ missing ds cs = [])) as [[He Hm]|He].
  - change (String.eqb ProjectionExact ProjectionExact) with true. cbv iota.
    rewrite Hn1, bool_decide_eq_true_2 by done. rewrite Hm in *. rewrite zlen_nil in H1. cbn [is_nil andb]. lia.
  - change (String.eqb ProjectionPartial ProjectionExact) with false. change (String.eqb ProjectionPartial ProjectionPartial) with true. cbv iota.
    apply andb_true_iff. split; [| lia]. rewrite negb_true_iff, Z.eqb_neq. intros E. apply He.
    split; apply nil_length_inv; unfold zlen in *; lia.
Qed.

Lemma map_cloneDirective l : map cloneDirective l = l.
Proof. induction l as [|d l IH]; [done |]. simpl. by rewrite cloneDirective_id, IH. Qed.

Lemma clone_accounting failed ds cs : cloneProjectionReport (accounting failed ds cs) = accounting failed ds cs.
Proof. unfold cloneProjectionReport, accounting. cbn. by rewrite map_cloneDirective. Qed.

Lemma set_failed_accounting ds cs : set_failed_report (accounting false ds cs) true = accounting true ds cs.
Proof. reflexivity. Qed.

Lemma accounting_not_failed ds cs : String.eqb (Fidelity (accounting false ds cs)) ProjectionFailed = false.
Proof. cbn. by case_bool_decide. Qed.

Lemma set_failed_same report : set_failed_report report false = report.
Proof. by destruct report. Qed.

Lemma plan_directives plan :
  PlanValidate plan = None → directives_ok (items (PlDirectives plan)) ∧ zlen (items (PlDirectives plan)) ≤ Scenario.MaxDecisions.
Proof.
  unfold PlanValidate. cbv zeta. rewrite !check_none, !orb_false_iff, !bool_decide_eq_false, !Z.ltb_ge.
  intros (_ & _ & _ & _ & _ & _ & _ & _ & [_ Hl] & Hv & _). split; [| done]. apply ValidateDirectives_spec.
  destruct (ValidateDirectives (items (PlDirectives plan))) as [err|]; [exfalso; by apply Hv | done].
Qed.

Section theorems.
Variable marshalPlan : Plan → option bytes.
Variable marshalExecution : SemanticExecution → option bytes.

(** The execution that [NewEligibleExecution] builds. *)
Definition evidence (planDigest capabilitiesDigest : string) (capabilities : Capabilities) (reproducibility : Scenario.Reproducibility)
    (projection : ProjectionReport) (tape : Tape) (outcome : option Outcome.Outcome) (operationalError : string)
    (nodes : option (list NodeCommitment)) : SemanticExecution :=
  mkExecution SemanticExecutionSchema planDigest capabilitiesDigest (CpAdapter capabilities) reproducibility
    EligibilityEligible (Some []) (cloneProjectionReport projection) (Schema tape) (Some (Entries tape))
    (cloneRawOutcome outcome) operationalError (cloneNodeCommitments nodes).

(** C29.  Honest evidence is accepted.  Run any code that asks for choices on a projector of the
    plan's directives, recorded, whether or not the projection failed on the way: the
    recorded tape is one that exact replay accepts, the projector's report is valid for it,
    and the constructor of the evidence returns it whenever the document itself is valid -
    the independent reconstruction from the plan and the tape never rejects it. *)
Theorem honest_evidence_is_accepted {R} fuel plan capabilities (prog : program R) p0 r' v p' reproducibility outcome operationalError
    nodes planDigest capabilitiesDigest :
  DigestPlan marshalPlan plan = inr planDigest → DigestCapabilities capabilities = inr capabilitiesDigest →
  Scenario.DecisionSeed reproducibility = FallbackSeed plan →
  NewProjector (items (PlDirectives plan)) (FallbackSeed plan) = inr p0 → asks choice_u64 prog →
  execute fuel prog (NewRecorder (Some p0)) = Done (Some (r', v)) → base r' = Some p' →
  zlen (entries r') ≤ Scenario.MaxDecisions →
  let e := evidence planDigest capabilitiesDigest capabilities reproducibility (ProjectorFinish p') (RecordedTape r') outcome operationalError nodes in
  (∃ d, NewTapeDecider (RecordedTape r') = Done (inr d)) ∧
  validateProjectionReport (ProjectorFinish p') (zlen (entries r')) = true ∧
  NewEligibleExecution marshalPlan marshalExecution fuel plan capabilities reproducibility (ProjectorFinish p') (RecordedTape r')
    outcome operationalError nodes =
  (invalid ← ExecutionValidate marshalExecution e; Done (Some (match invalid with Some err => inl err | None => inr e end))).
Proof.
  intros Hpd Hcd Hseed Hnew Hty Hex Hb Hlen e.
  assert (PlanValidate plan = None) as Hplan by (unfold DigestPlan in Hpd; by destruct (PlanValidate plan)).
  destruct (plan_directives plan Hplan) as [Hok Hdl]. destruct (NewProjector_progress _ _ _ Hnew) as [_ Hp0].
  destruct (recorder_projection fuel _ prog [] p0 [] r' v Hok Hp0 Hty Hex) as (es & p1 & q & He & Hb' & Hes & Hq & Hprog & Hlast).
  rewrite !app_nil_l in *. rewrite Hb in Hb'. injection Hb' as <-.
  pose proof Hprog as (Htr & Hqf & _ & Hnd & Hk). set (ds := items (PlDirectives plan)) in *. set (cs := EnChoice <$> es) in *.
  assert (ProjectorFinish q = accounting false ds cs) as Hrq.
  { rewrite (Finish_accounts ds cs q Hok Htr), Hqf. by rewrite bool_decide_eq_false_2 by auto. }
  assert (∃ b, ProjectorFinish p' = accounting b ds cs) as [failed Hr].
  { destruct Hlast as [[_ ->]|(_ & Hf & Ht)]; [by exists false |]. exists true.
    by rewrite (Finish_accounts ds cs p' Hok Ht), bool_decide_eq_true_2. }
  assert (zlen (entries r') = zlen cs) as Hcs by (rewrite He; unfold zlen, cs; by rewrite length_fmap).
  assert (RecordedTape r' = mkTape SchemaVersion es) as Ht by (unfold RecordedTape; by rewrite cloneTape_id, He).
  split_and!.
  - rewrite Ht. unfold NewTapeDecider. destruct (newTapeDecider_spec (mkTape SchemaVersion es) false) as [(_ & _ & ->)|[Hno _]]; [by eexists | by destruct Hno].
  - rewrite Hr, Hcs. apply accounting_valid; try done. by rewrite <- Hcs.
  - unfold NewEligibleExecution. rewrite Hpd, Hcd. unfold CloneTape. rewrite cloneTape_id. fold (evidence planDigest capabilitiesDigest capabilities
      reproducibility (ProjectorFinish p') (RecordedTape r') outcome operationalError nodes). fold e.
    destruct (ExecutionValidate marshalExecution e) as [[err|]|] eqn:Hv; cbn [mbind go_bind]; [done | | done].
    unfold VerifyExecutionProjection. rewrite Hplan, Hv. cbn [mbind go_bind]. 
    change (Scenario.DecisionSeed (ExReproducibility e)) with (Scenario.DecisionSeed reproducibility). rewrite Hseed, Z.eqb_refl. cbn [negb]. change (String.eqb (ExEligibility e) EligibilityIneligible) with false. cbv iota.
    fold ds. rewrite Hnew. assert (items (ExEntries e) = es) as -> by (unfold e, evidence; by rewrite Ht). rewrite Hq. cbn [mbind go_bind].
    assert (ExProjection e = accounting failed ds cs) as -> by (unfold e, evidence; cbn [ExProjection]; by rewrite Hr, clone_accounting).
    rewrite Hrq. rewrite bool_decide_eq_true_2; [done |]. destruct failed; [reflexivity |]. rewrite accounting_not_failed. apply set_failed_same.
Qed.

(** What the verification of a projection accepts: evidence of an adapter that did not run
    reports the whole plan as unexecuted; evidence of one that ran has distinct portable
    choices, every fixed or directed one answered as the plan demands, and as its report
    the accounting of those choices, which a failure can only degrade in its fidelity. *)
Theorem verified_projection_is_accounted fuel plan execution :
  VerifyExecutionProjection marshalExecution fuel plan execution = Done (Some None) →
  let cs := EnChoice <$> items (ExEntries execution) in let ds := items (PlDirectives plan) in
  PlanValidate plan = None ∧ ExecutionValidate marshalExecution execution = Done None ∧
  Scenario.DecisionSeed (ExReproducibility execution) = FallbackSeed plan ∧
  if decide (ExEligibility execution = EligibilityIneligible) then ExProjection execution = unexecuted plan
  else NoDup (key_of <$> cs) ∧ Forall has_key cs ∧
    Forall (λ e, answers ds (EnChoice e) (EnSelection e)) (items (ExEntries execution)) ∧
    ExProjection execution = accounting (bool_decide (Fidelity (ExProjection execution) = ProjectionFailed)) ds cs.
Proof.
  intros E cs ds. unfold VerifyExecutionProjection in E. destruct (PlanValidate plan) eqn:Hplan; [done |].
  destruct (ExecutionValidate marshalExecution execution) as [[err|]|] eqn:Hv; cbn [mbind go_bind] in E; [done | | done].
  destruct (Z.eqb_spec (Scenario.DecisionSeed (ExReproducibility execution)) (FallbackSeed plan)) as [Hseed|]; cbn [negb] in E; [| done].
  split_and!; try done. destruct (String.eqb_spec (ExEligibility execution) EligibilityIneligible) as [Hi|Hi].
  - rewrite decide_True by done. case_bool_decide; [done | discriminate E].
  - rewrite decide_False by done. destruct (NewProjector (items (PlDirectives plan)) (FallbackSeed plan)) as [|p0] eqn:Hnew; [done |].
    destruct (NewProjector_progress _ _ _ Hnew) as [Hok Hp0].
    destruct (projectEntries fuel p0 (items (ExEntries execution))) as [[[|q]|]|] eqn:Hq; cbn [mbind go_bind] in E; [done | | done | done].
    destruct (projectEntries_spec fuel _ _ [] p0 q Hok Hp0 Hq) as [(Htr & Hqf & _ & Hnd & Hk) Ha]. rewrite app_nil_l in *.
    split_and!; try done. case_bool_decide as Hw; [| discriminate E].
    assert (ProjectorFinish q = accounting false ds cs) as Hrq.
    { rewrite (Finish_accounts ds cs q Hok Htr), Hqf. by rewrite bool_decide_eq_false_2 by auto. }
    rewrite Hrq in Hw. destruct (String.eqb_spec (Fidelity (ExProjection execution)) ProjectionFailed) as [Hf|Hf].
    + rewrite bool_decide_eq_true_2 by done. by rewrite <- Hw.
    + rewrite bool_decide_eq_false_2 by done. by rewrite <- Hw, set_failed_same.
Qed.
End theorems.

(** ** Witnesses: an election timeout and a latency that the source does not have *)

Definition demo_plan : Plan :=
  mkPlan SemanticPlanSchema ArtifactProps.demo_scenario ArtifactProps.demo_configuration
    AppOracle.KVConfig (mkConvergence 500 1000000000) (mkSource (Scenario.mkAdapter "left" "1") demo_hash) 123 (Some demo_directives).

Definition demo_capabilities (id : string) : Capabilities :=
  mkCapabilities AdapterCapabilitiesSchema (Scenario.mkAdapter id "1") (Some [MembershipFixedAllVoters]) (Some portableActions)
    (Some [AppOracle.CommandSchema]) (Some portableProjectionKinds) (Some ["raft/election-safety"; "raft/log-matching"]).

Definition demo_reproducibility : Scenario.Reproducibility :=
  Scenario.mkReproducibility 123 "rev" false "go1.24" SchemaVersion "checker" "codec" "observation".

Definition demo_encode {A} (_ : A) : option bytes := Some (str "{}").

Definition demo_program : program Selection :=
  Ask demo_election (λ _, Ask demo_late (λ answer, Return (match answer with inr s => s | inl _ => mkSelection "" None end))).

Definition demo_start : Recorder Projector := NewRecorder (Some demo_projector).
Definition demo_recorded : Recorder Projector * Selection :=
  match execute 9 demo_program demo_start with
  | Done (Some x) => x
  | _ => (demo_start, mkSelection "" None)
  end.

Definition demo_after : Projector := default demo_projector (base (fst demo_recorded)).

(** The evidence of an adapter that stopped after the two choices. *)
Definition demo_execution (id : string) : SemanticExecution :=
  evidence (digestBytes (str "{}")) (right_value "" (DigestCapabilities (demo_capabilities id))) (demo_capabilities id) demo_reproducibility
    (ProjectorFinish demo_after) (RecordedTape (fst demo_recorded)) None "stopped" (Some []).

Lemma demo_recorded_ok : execute 9 demo_program demo_start = Done (Some (fst demo_recorded, snd demo_recorded)).
Proof.
  assert (match execute 9 demo_program demo_start with Done (Some _) => true | _ => false end = true) as H by (vm_compute; reflexivity).
  unfold demo_recorded. by destruct (execute 9 demo_program demo_start) as [[[]|]|].
Qed.
Lemma demo_after_ok : base (fst demo_recorded) = Some demo_after.
Proof.
  assert (match base (fst demo_recorded) with Some _ => true | None => false end = true) as H by (vm_compute; reflexivity).
  unfold demo_after. by destruct (base (fst demo_recorded)).
Qed.
Lemma demo_capabilities_digest id :
  CapabilitiesValidate (demo_capabilities id) = None →
  DigestCapabilities (demo_capabilities id) = inr (right_value "" (DigestCapabilities (demo_capabilities id))).
Proof. intros E. unfold DigestCapabilities. by rewrite E. Qed.
Lemma demo_plan_digest : DigestPlan demo_encode demo_plan = inr (digestBytes (str "{}")).
Proof.
  unfold DigestPlan. assert (PlanValidate demo_plan = None) as -> by (vm_compute; reflexivity). reflexivity.
Qed.
Lemma demo_execution_valid : ExecutionValidate demo_encode (demo_execution "left") = Done None.
Proof. vm_compute. reflexivity. Qed.

Lemma honest_evidence_is_accepted_witness :
  (∃ d, NewTapeDecider (RecordedTape (fst demo_recorded)) = Done (inr d)) ∧
  NewEligibleExecution demo_encode demo_encode 9 demo_plan (demo_capabilities "left") demo_reproducibility (ProjectorFinish demo_after)
    (RecordedTape (fst demo_recorded)) None "stopped" (Some []) = Done (Some (inr (demo_execution "left"))).
Proof.
  assert (CapabilitiesValidate (demo_capabilities "left") = None) as Hc by (vm_compute; reflexivity).
  destruct (honest_evidence_is_accepted demo_encode demo_encode 9 demo_plan (demo_capabilities "left") demo_program demo_projector
    (fst demo_recorded) (snd demo_recorded) demo_after demo_reproducibility None "stopped" (Some []) _ _ demo_plan_digest
    (demo_capabilities_digest "left" Hc) eq_refl demo_projector_ok) as (Ht & _ & E).
  - split; [by split | intros _]. split; [by split | done].
  - exact demo_recorded_ok.
  - exact demo_after_ok.
  - apply Z.leb_le. vm_compute. reflexivity.
  - split; [exact Ht |]. rewrite E. fold (demo_execution "left"). rewrite demo_execution_valid. reflexivity.
Defined.

Lemma verified_projection_is_accounted_witness :
  let execution := demo_execution "left" in
  VerifyExecutionProjection demo_encode 9 demo_plan execution = Done (Some None) ∧
  ExProjection execution = mkReport ProjectionPartial 2 1 0 (Some [mkKey "network_latency" "" "a" "b" 1 8])
    (Some [mkDirective (mkKey "network_loss" "" "a" "b" 1 7) 2 (mkSelection "drop" None)]) ∧
  ExProjection execution = accounting false demo_directives [demo_election; demo_late].
Proof.
  assert (VerifyExecutionProjection demo_encode 9 demo_plan (demo_execution "left") = Done (Some None)) as H by (vm_compute; reflexivity).
  split; [exact H |]. split; [vm_compute; reflexivity |].
  destruct (verified_projection_is_accounted demo_encode 9 demo_plan (demo_execution "left") H) as (_ & _ & _ & Hd).
  rewrite decide_False in Hd by (vm_compute; discriminate). destruct Hd as (_ & _ & _ & Hd). exact Hd.
Defined.
