(* ===== verification/ExecutionCompare.v ===== *)
(** * Comparing the executions of one plan

    Two executions of one plan, each normalized against the capabilities of the other's
    adapter, always compare: the negotiated identifiers, the eligibility and the nodes of
    the commitments are the same on both sides. *)

From S2P Require Import Prelude.
From S2P Require Export ExecutionProps PlanProps.
From S2P Require Scenario Artifact ArtifactProps AppOracle RaftTypes.
From stdpp Require Import options.

#[global] Open Scope Z_scope.

(** ** Negotiation *)

Lemma commonIDs_cons x l y r :
  commonIDs (x :: l) (y :: r) =
  match String.compare x y with Lt => commonIDs l (y :: r) | Gt => commonIDs (x :: l) r | Eq => x :: commonIDs l r end.
Proof. reflexivity. Qed.

(** The identifiers of both. *)
Lemma commonIDs_spec l r : sorted_set l → sorted_set r → commonIDs l r = filter (λ x, x ∈ r) l.
Proof.
  revert l r. apply two_sets_ind.
  - by intros [].
  - intros l. rewrite filter_nothing by set_solver. by destruct l.
  - intros x l y r [E _]%slt_compare Hni IH. by rewrite commonIDs_cons, E, IH, filter_cons, decide_False.
  - intros x l y r [_ E]%slt_compare Hni IH. rewrite commonIDs_cons, E, IH. apply filter_ext_elem. set_solver.
  - intros x l r Hl Hr IH. rewrite commonIDs_cons, (compare_ok_refl _ x compare_ok_string), IH.
    rewrite filter_cons, decide_True by by left. f_equal. apply filter_ext_elem. set_solver.
Qed.

Lemma commonIDs_comm l r : sorted_set l → sorted_set r → commonIDs l r = commonIDs r l.
Proof.
  intros Hl Hr. rewrite !commonIDs_spec by done. apply sorted_set_ext; [by apply sorted_set_filter .. |].
  intros x. rewrite !list_elem_of_filter. tauto.
Qed.

Lemma capabilities_invariants c : CapabilitiesValidate c = None → sorted_set (items (InvariantIDs c)).
Proof.
  unfold CapabilitiesValidate. cbv zeta. rewrite !check_none. intros (_ & _ & _ & _ & _ & _ & Hi & _). apply negb_false_iff in Hi.
  unfold validateCapabilityStrings, capabilitySet in Hi. destruct (InvariantIDs c) as [l|]; [| done].
  rewrite !andb_true_iff in Hi. apply strictlySorted_spec. tauto.
Qed.

Lemma NegotiateInvariantIDs_comm c1 c2 n1 n2 :
  NegotiateInvariantIDs c1 c2 = inr n1 → NegotiateInvariantIDs c2 c1 = inr n2 → n1 = n2.
Proof.
  unfold NegotiateInvariantIDs. destruct (CapabilitiesValidate c1) eqn:H1, (CapabilitiesValidate c2) eqn:H2; try done.
  intros [= <-] [= <-]. f_equal. apply commonIDs_comm; by apply capabilities_invariants.
Qed.

(** ** Eligibility *)

Lemma Preflight_eligible plan l r e :
  Preflight plan l r = inr e → PlanValidate plan = None ∧ (Eligible e = true ↔ ∀ code, ¬ reason plan l r code).
Proof.
  unfold Preflight. destruct (PlanValidate plan) eqn:Hp; [done |]. destruct (CapabilitiesValidate l), (CapabilitiesValidate r); try done.
  intros [= <-]. split; [done |]. cbn [Eligible]. rewrite DecisionProps.zlen_eqb_zero, bool_decide_eq_true. split.
  - intros E code Hc%rejections_reason%sort_compact_elem; [| done]. rewrite E in Hc. by apply elem_of_nil in Hc.
  - intros Hn. apply elem_of_nil_inv. intros code Hc. by apply (Hn code), rejections_reason, sort_compact_elem.
Qed.

(** Two adapters that are both the source: a reason one way is a reason the other way. *)
Lemma reason_swap plan l r code :
  CpAdapter l = SrcAdapter (PlSource plan) → CpAdapter r = SrcAdapter (PlSource plan) →
  reason plan l r code → ∃ code', reason plan r l code'.
Proof.
  intros Hl Hr. unfold reason. cbv zeta.
  intros [[-> H]|[[-> H]|[[-> H]|[[-> H]|[[-> H]|[[-> H]|[[-> H]|[[-> H]|[[-> H]|[[-> H]|[[-> H]|[[-> H]|[[-> H]|[[-> H]|[-> H]]]]]]]]]]]]]]];
    [exists RejectFixedAllVoters | by rewrite Hl in H | exists RejectRightMembership | exists RejectLeftMembership
    | exists RejectRightApplication | exists RejectLeftApplication | exists RejectInvalidCommand | exists RejectDuplicateCommand
    | exists RejectUnsupportedAction | exists RejectUnbalancedLifecycle | exists RejectUnhealedNetwork | exists RejectRightAction
    | exists RejectLeftAction | exists RejectRightProjectionKind | exists RejectLeftProjectionKind]; tauto.
Qed.

Lemma bilateral_eligible plan c1 c2 e1 e2 :
  bilateralPreflight plan c1 c2 = inr e1 → bilateralPreflight plan c2 c1 = inr e2 → PlanValidate plan = None ∧ Eligible e1 = Eligible e2.
Proof.
  unfold bilateralPreflight. destruct (bool_decide_reflect (CpAdapter c1 = SrcAdapter (PlSource plan))) as [H1|H1],
    (bool_decide_reflect (CpAdapter c2 = SrcAdapter (PlSource plan))) as [H2|H2]; [| | | done].
  - intros [Hp E1]%Preflight_eligible [_ E2]%Preflight_eligible. split; [done |]. apply eq_bool_prop_intro.
    rewrite !Is_true_true, E1, E2. split; intros H code Hc; [apply (reason_swap plan c2 c1) in Hc as [c' Hc] | apply (reason_swap plan c1 c2) in Hc as [c' Hc]];
      try done; by apply (H c').
  - intros E E'. rewrite E in E'. injection E' as <-. apply Preflight_eligible in E as [Hp _]. done.
  - intros E E'. rewrite E in E'. injection E' as <-. apply Preflight_eligible in E as [Hp _]. done.
Qed.

(** ** Normalized outcomes *)

(** What canonicalization keeps. *)
Lemma CanonicalizeOutcome_spec x o :
  CanonicalizeOutcome x = inr o →
  OutcomeValidate o = None ∧ NoPlanSHA256 o = NoPlanSHA256 x ∧ NoEligibility o = NoEligibility x ∧ NoCompletion o = NoCompletion x ∧
  NoNegotiated o = canonicalStrings (NoNegotiated x) ∧ commit_nodes o ≡ₚ commit_nodes x.
Proof.
  unfold CanonicalizeOutcome. cbv zeta. destruct (OutcomeValidate _) eqn:E; [done |]. intros [= <-]. split_and!; try done.
  unfold commit_nodes. cbn [NoCommitments]. destruct (NoCommitments x) as [nodes|]; [| done]. cbn [fmap option_fmap option_map items default].
  unfold sortCommitments. apply fmap_Permutation, merge_sort_Permutation.
Qed.

Lemma commit_nodes_sorted o : outcome_ok o → sorted_set (commit_nodes o).
Proof.
  intros Ho. destruct (ok_commitments o Ho) as (_ & _ & Hs & _). unfold commit_nodes, sorted_set.
  induction Hs as [|n l _ IH Hf]; [constructor |]. cbn [fmap list_fmap]. constructor; [exact IH | by apply Forall_fmap].
Qed.

Lemma sorted_set_le l : sorted_set l → StronglySorted String.le l.
Proof.
  induction 1 as [|x l _ IH Hf]; constructor; [done |]. eapply Forall_impl; [exact Hf |].
  intros y Hxy. rewrite string_le_compare. unfold slt in Hxy. by rewrite Hxy.
Qed.

(** The nodes of an outcome that reached the boundary are the members. *)
Lemma plan_members plan o :
  PlanValidate plan = None → outcome_ok o → commit_nodes o ≡ₚ Scenario.CnMembers (PlConfiguration plan) →
  commit_nodes o = Scenario.CnMembers (PlConfiguration plan) ∧ commit_nodes o ≠ [].
Proof.
  unfold PlanValidate. cbv zeta. rewrite !check_none. intros (_ & Hv & _) Ho Hp. apply negb_false_iff in Hv.
  unfold Artifact.ValidateExperiment in Hv. apply andb_true_iff in Hv as [Hc _]. apply ArtifactProps.configuration_spec in Hc.
  destruct Hc as [[Hne _] Hs _ _ _ _ _ _ _]. assert (commit_nodes o = Scenario.CnMembers (PlConfiguration plan)) as E.
  { apply (StronglySorted_unique String.le); [| done | done]. by apply sorted_set_le, commit_nodes_sorted. }
  split; [done |]. by rewrite E.
Qed.

Lemma application_comparable l r : comparable_nodes l r → compareApplication l r ≠ ApplicationNotComparable.
Proof.
  intros H. rewrite compareApplication_eq, decide_True by done. destruct H as [H1 H2]. unfold commit_nodes in *.
  destruct (items (NoCommitments l)), (items (NoCommitments r)); try done. repeat case_if; done.
Qed.

Lemma reached_boundary l r c : CompareNormalized l r = inr c → reached l → reached r → ExecutionBoundary c = ExecutionBothReached.
Proof.
  intros E Hl Hr. destruct (CompareNormalized_spec l r) as [[_ E']|[_ [err E']]]; rewrite E in E'; [| done]. injection E' as ->.
  destruct (compared_axes l r (digestBytes (marshalOutcome l)) (digestBytes (marshalOutcome r)))
    as (_ & _ & _ & _ & _ & _ & _ & _ & _ & _ & _ & _ & _ & _ & -> & _). by apply boundary_reached.
Qed.

Section compare.
Variable marshalPlan : Plan → option bytes.
Variable marshalExecution : SemanticExecution → option bytes.

(** What the outcome of a normalization is. *)
Lemma normalized_spec plan capabilities negotiated pd ed execution o :
  normalized plan capabilities negotiated pd ed execution = inr o →
  OutcomeValidate o = None ∧ NoPlanSHA256 o = pd ∧ NoEligibility o = ExEligibility execution ∧
  NoNegotiated o = canonicalStrings (Some (items negotiated)) ∧
  (reached o → commit_nodes o ≡ₚ Scenario.CnMembers (PlConfiguration plan)).
Proof.
  unfold normalized. cbv zeta. destruct (String.eqb_spec (ExEligibility execution) EligibilityIneligible) as [Hi|Hi].
  { intros (H1 & H2 & H3 & H4 & H5 & H6)%CanonicalizeOutcome_spec. split_and!; try done. intros [He _]. rewrite H3 in He. cbn in He. by rewrite Hi in He. }
  destruct (ExOutcome execution) as [raw|].
  2: { intros (H1 & H2 & H3 & H4 & H5 & H6)%CanonicalizeOutcome_spec. split_and!; try done. intros [_ Hc]. by rewrite H4 in Hc. }
  destruct (validateOutcomeAgainstPlan plan raw); cbn [negb]; [| done].
  destruct (forallb _ _); cbn [negb]; [| done].
  destruct (NormalizeInvariantIDs _ negotiated) as [|[common specific]]; [done |].
  destruct (completionReachedBoundary _) eqn:Hb; cbn [andb].
  - destruct (validatePlanCommitmentNodes _ _) eqn:Hn; cbn [negb]; [| done].
    intros (H1 & H2 & H3 & H4 & H5 & H6)%CanonicalizeOutcome_spec. split_and!; try done. intros _.
    apply nodes_equal_true in Hn. rewrite H6. unfold commit_nodes. cbn [NoCommitments]. by rewrite Hn.
  - intros (H1 & H2 & H3 & H4 & H5 & H6)%CanonicalizeOutcome_spec. split_and!; try done. intros [_ Hc].
    rewrite H4 in Hc. cbn [NoCompletion] in Hc. unfold completionReachedBoundary in Hb. by rewrite Hc in Hb.
Qed.

Lemma NormalizeExecution_spec fuel plan c peer execution o :
  NormalizeExecution marshalPlan marshalExecution fuel plan c peer execution = Done (Some (inr o)) →
  OutcomeValidate o = None ∧ DigestPlan marshalPlan plan = inr (NoPlanSHA256 o) ∧
  (∃ n, NegotiateInvariantIDs c peer = inr n ∧ NoNegotiated o = canonicalStrings (Some (items n))) ∧
  (∃ e, bilateralPreflight plan c peer = inr e ∧ NoEligibility o = if Eligible e then EligibilityEligible else EligibilityIneligible) ∧
  (reached o → commit_nodes o ≡ₚ Scenario.CnMembers (PlConfiguration plan)).
Proof.
  unfold NormalizeExecution. destruct (DigestPlan marshalPlan plan) as [|pd]; [done |]. destruct (DigestCapabilities c) as [|cd]; [done |].
  destruct (NegotiateInvariantIDs c peer) as [|n]; [done |]. destruct (bilateralPreflight plan c peer) as [|e]; [done |].
  destruct (ExecutionValidate marshalExecution execution) as [[err|]|]; cbn [mbind go_bind]; [done | | done].
  case_if; [done |]. case_if; [done |].
  destruct (String.eqb_spec (ExEligibility execution) (if negb (Eligible e) then EligibilityIneligible else EligibilityEligible)) as [He|]; cbn [negb orb]; [| done].
  case_if; [done |].
  destruct (VerifyExecutionProjection marshalExecution fuel plan execution) as [[[err|]|]|]; cbn [mbind go_bind]; [done | | done | done].
  destruct (DigestSemanticExecution marshalExecution execution) as [[err|ed]|]; cbn [mbind go_bind]; [done | | done].
  intros [= (H1 & H2 & H3 & H4 & H5)%normalized_spec]. split_and!; try done; [by rewrite H2 | by exists n |].
  exists e. split; [done |]. rewrite H3, He. by destruct (Eligible e).
Qed.

(** The outcomes of two executions of one plan always compare.  When each execution normalizes
    against the capabilities of the other's adapter, the comparison of the two outcomes
    returns a valid document: both sides ran, or both were found ineligible; and when both
    reached the boundary, the commitments on either side are those of the plan's members, so
    that the application states are compared too. *)
Theorem normalized_outcomes_compare fuel fuel' plan c1 c2 e1 e2 o1 o2 :
  NormalizeExecution marshalPlan marshalExecution fuel plan c1 c2 e1 = Done (Some (inr o1)) →
  NormalizeExecution marshalPlan marshalExecution fuel' plan c2 c1 e2 = Done (Some (inr o2)) →
  ∃ c, CompareNormalized o1 o2 = inr c ∧ ComparisonValidate c = None ∧
    (NcEligibility c = EligibilityBothEligible ∨ NcEligibility c = EligibilityBothIneligible) ∧
    (ExecutionBoundary c = ExecutionBothReached →
      commit_nodes o1 = Scenario.CnMembers (PlConfiguration plan) ∧ commit_nodes o2 = Scenario.CnMembers (PlConfiguration plan) ∧
      Application c ≠ ApplicationNotComparable).
Proof.
  intros (Hv1 & Hp1 & (n1 & Hn1 & E1) & (l1 & Hl1 & F1) & R1)%NormalizeExecution_spec
    (Hv2 & Hp2 & (n2 & Hn2 & E2) & (l2 & Hl2 & F2) & R2)%NormalizeExecution_spec.
  pose proof (NegotiateInvariantIDs_comm _ _ _ _ Hn1 Hn2) as <-. destruct (bilateral_eligible _ _ _ _ _ Hl1 Hl2) as [Hpv El].
  rewrite <- El in F2. assert (NoPlanSHA256 o1 = NoPlanSHA256 o2) as Hp by congruence.
  assert (comparable o1 o2) as Hc by (unfold comparable; by rewrite E1, E2).
  destruct (CompareNormalized_spec o1 o2) as [[_ E]|[[] _]]; [| done]. rewrite E.
  apply OutcomeValidate_spec in Hv1 as Ho1, Hv2 as Ho2. destruct (ok_digests o1 Ho1) as [Hd _].
  eexists. split; [done |]. set (d1 := digestBytes (marshalOutcome o1)). set (d2 := digestBytes (marshalOutcome o2)).
  split.
  { apply (axes_valid o1 o2 d1 d2 _ Ho1 Ho2 (digestPattern_digest _) (digestPattern_digest _) (compared_axes _ _ _ _)).
    apply compared_safety; [done | done | by rewrite E1, E2]. }
  pose proof (compared_axes o1 o2 d1 d2) as Hax. destruct Hax as (_ & _ & _ & _ & _ & _ & _ & _ & Hel & _).
  split; [rewrite Hel, F1, F2; by destruct (Eligible l1); [left | right] |].
  rewrite (compared_cases o1 o2 d1 d2) by done. cbn [ExecutionBoundary]. intros Hb. apply boundary_reached in Hb as [Hr1 Hr2].
  destruct (plan_members plan o1 Hpv Ho1 (R1 Hr1)) as [M1 Hne]. destruct (plan_members plan o2 Hpv Ho2 (R2 Hr2)) as [M2 _].
  split_and!; [done | done |]. cbn [Application]. rewrite decide_True by done.
  apply application_comparable. split; [done | congruence].
Qed.
End compare.

(** ** Witness: executions that reached the boundary without a choice *)

Definition demo_complete (id : string) : SemanticExecution :=
  evidence (digestBytes (str "{}")) (right_value "" (DigestCapabilities (demo_capabilities id))) (demo_capabilities id) demo_reproducibility
    (ProjectorFinish demo_projector) (mkTape SchemaVersion [])
    (Some (Outcome.mkOutcome Outcome.OutcomeCompleted 12 1000000000 demo_hash "" [])) ""
    (Some ((λ node, mkNodeCommitment node demo_commitment) <$> ["a"; "b"; "c"])).

Definition demo_normalization (left right : string) : go (option (SemanticError + NormalizedOutcome)) :=
  NormalizeExecution demo_encode demo_encode 9 demo_plan (demo_capabilities left) (demo_capabilities right) (demo_complete left).

Definition demo_normalized (left right : string) : NormalizedOutcome :=
  match demo_normalization left right with Done (Some (inr o)) => o | _ => demo_left end.

(** It normalizes, and to an outcome that reached the boundary. *)
Definition demo_reaches (left right : string) : bool :=
  match demo_normalization left right with
  | Done (Some (inr o)) => bool_decide (reached o)
  | _ => false
  end.

Lemma demo_normalized_ok left right :
  demo_reaches left right = true →
  demo_normalization left right = Done (Some (inr (demo_normalized left right))) ∧ reached (demo_normalized left right).
Proof. unfold demo_reaches, demo_normalized. destruct (demo_normalization left right) as [[[|]|]|]; try done. by intros ?%bool_decide_eq_true. Qed.

Lemma demo_left_reaches : demo_reaches "left" "right" = true.
Proof. vm_compute. reflexivity. Qed.
Lemma demo_right_reaches : demo_reaches "right" "left" = true.
Proof. vm_compute. reflexivity. Qed.

Lemma normalized_outcomes_compare_witness :
  ∃ c, CompareNormalized (demo_normalized "left" "right") (demo_normalized "right" "left") = inr c ∧ ComparisonValidate c = None ∧
    ExecutionBoundary c = ExecutionBothReached ∧ Application c ≠ ApplicationNotComparable.
Proof.
  destruct (demo_normalized_ok "left" "right" demo_left_reaches) as [N1 R1].
  destruct (demo_normalized_ok "right" "left" demo_right_reaches) as [N2 R2].
  destruct (normalized_outcomes_compare demo_encode demo_encode 9 9 demo_plan (demo_capabilities "left") (demo_capabilities "right")
    (demo_complete "left") (demo_complete "right") _ _ N1 N2) as (c & E & Hv & _ & Ha).
  pose proof (reached_boundary _ _ _ E R1 R2) as Hb.
  exists c. split_and!; [exact E | exact Hv | exact Hb | by apply Ha].
Defined.
