(* ===== verification/Causal.v ===== *)
(** * Causal replay (semanticplan/causal.go)

    Replay under operation identifiers: every attempt of one operation gets the loss
    disposition of the source tape, whatever the order and the batching of the messages
    that carry it.  A Go map from identifiers is a [gmap] or a [gset]; the JSON text of an
    evidence, whose size is bounded, is a parameter. *)

From S2P Require Import Prelude.
From S2P Require Export Execution.
From S2P Require Scenario AppOracle Outcome.
From stdpp Require Import options.

#[global] Open Scope Z_scope.

Definition CausalReplaySchema : string := "d-raft.causal-replay/v1".
Definition CausalEvidenceSchema : string := "d-raft.causal-evidence/v1".

(** ** Data *)

Record CausalDirective := mkCausalDirective { OperationID : string; SourceIndices : list Z; CdSelection : Selection }.

#[export] Instance CausalDirective_eq_dec : EqDecision CausalDirective.
Proof. solve_decision. Defined.

Record CausalProjectionReport := mkCausalReport {
  CrSchema : string; CrFidelity : ProjectionFidelity; CrDirectives : Z; CrProjected : Z;
  CrAdditional : option (list string); CrUnmatched : option (list CausalDirective) }.

#[export] Instance CausalProjectionReport_eq_dec : EqDecision CausalProjectionReport.
Proof. solve_decision. Defined.

Record CausalReplayEvidence := mkCausalEvidence {
  CeSchema : string; CePlanSHA256 : string; SourceAdapter : Scenario.Adapter; TargetAdapter : Scenario.Adapter;
  CeFallbackSeed : Z; SourceTape : Tape; TargetTape : Tape; SourceOutcome : Outcome.Outcome; TargetOutcome : Outcome.Outcome;
  CeReport : CausalProjectionReport }.

(** ** Contexts *)

Definition boundedOperation (id : string) : bool := negb (String.eqb id "" || (128 <? strlen id) || negb (trimmed (str id))).

(** A bounded set of identifiers, sorted and without repetition. *)
Definition operationSet (ids : list string) : bool := forallb boundedOperation ids && strictlySorted ids.

(** [json.Unmarshal] leaves a string or a boolean as it was on [null]. *)
Definition stringElement (v : json) : option string :=
  match v with JString s => Some (unstr s) | JNull => Some "" | _ => None end.

Definition operationFields (fields : Fields) : option (list string * bool) :=
  causal ← match fields !! str "causal" with
           | None | Some JNull => Some false
           | Some (JBool b) => Some b
           | Some _ => None
           end;
  match fields !! str "operation_ids" with
  | None => Some ([], causal)
  | Some (JArray l) =>
    ids ← mapM stringElement l;
    if operationSet ids then Some (ids, causal) else None
  | Some _ => None
  end.

(** The identifiers and the marker; no value is an error. *)
Definition choiceOperationContext (choice : Choice) : option (list string * bool) :=
  if negb (String.eqb (ChKind choice) NetworkLoss) || (zlen (Context_ choice) =? 0) then Some ([], false)
  else match RejectDuplicateNames (Context_ choice) with
  | Some _ => None
  | None =>
    match parse_json (Context_ choice) with
    | Some (JObject fields) => operationFields (list_to_map fields)
    | Some JNull => operationFields ∅
    | _ => None
    end
  end.

Definition ChoiceOperationIDs (choice : Choice) : option (list string) := fst <$> choiceOperationContext choice.

(** ** Directives *)

Definition lossOption (s : string) : bool := String.eqb s "drop" || String.eqb s "deliver".

(** Below the limit and strictly increasing. *)
Fixpoint sourceIndexes (previous : option Z) (l : list Z) : bool :=
  match l with
  | [] => true
  | i :: l => negb ((Scenario.MaxDecisions <=? i) || match previous with Some p => i <=? p | None => false end) && sourceIndexes (Some i) l
  end.

Fixpoint validateCausalLoop (previous : option string) (directives : list CausalDirective) : bool :=
  match directives with
  | [] => true
  | d :: directives =>
    boundedOperation (OperationID d) &&
    match previous with
    | Some p => match String.compare p (OperationID d) with Lt => true | _ => false end
    | None => true
    end &&
    negb (is_nil (SourceIndices d)) && sourceIndexes None (SourceIndices d) &&
    negb (bool_decide (Number (CdSelection d) ≠ None) || negb (lossOption (SelOption (CdSelection d)))) &&
    validateCausalLoop (Some (OperationID d)) directives
  end.

Definition ValidateCausalDirectives (directives : list CausalDirective) : option SemanticError :=
  if validateCausalLoop None directives then None else Some ErrInvalidCausal.

(** The loop over the entries; [sawLoss] is its flag. *)
Fixpoint causalLoop (sawLoss : bool) (entries : list Entry) : bool :=
  match entries with
  | [] => sawLoss
  | entry :: entries =>
    if negb (String.eqb (ChKind (EnChoice entry)) NetworkLoss) then causalLoop sawLoss entries
    else match choiceOperationContext (EnChoice entry) with
    | Some (_, true) => causalLoop true entries
    | _ => false
    end
  end.

Definition ValidateCausalTape (tape : Tape) : go (option SemanticError) :=
  valid ← NewCausalTapeDecider tape;
  Done (match valid with
        | inl _ => Some ErrInvalidCausal
        | inr _ => if causalLoop false (Entries tape) then None else Some ErrInvalidCausal
        end).

(** The identifiers of one choice. *)
Fixpoint gatherIDs (index : Z) (selection : Selection) (byID : gmap string CausalDirective) (ids : list string)
    : SemanticError + gmap string CausalDirective :=
  match ids with
  | [] => inr byID
  | id :: ids =>
    if negb (lossOption (SelOption selection)) then inl ErrInvalidCausal
    else match byID !! id with
    | None => gatherIDs index selection (<[id := mkCausalDirective id [index] (cloneSelection selection)]> byID) ids
    | Some d =>
      if negb (bool_decide (CdSelection d = selection)) then inl ErrCausalConflict
      else gatherIDs index selection (<[id := mkCausalDirective (OperationID d) (SourceIndices d ++ [index]) (CdSelection d)]> byID) ids
    end
  end.

Fixpoint gatherEntries (index : Z) (byID : gmap string CausalDirective) (entries : list Entry)
    : SemanticError + gmap string CausalDirective :=
  match entries with
  | [] => inr byID
  | entry :: entries =>
    if negb (String.eqb (ChKind (EnChoice entry)) NetworkLoss) then gatherEntries (index + 1) byID entries
    else match choiceOperationContext (EnChoice entry) with
    | Some (ids, true) =>
      match gatherIDs index (EnSelection entry) byID ids with
      | inl err => inl err
      | inr byID => gatherEntries (index + 1) byID entries
      end
    | _ => inl ErrInvalidCausal
    end
  end.

Definition operation_le (l r : CausalDirective) : Prop := String.le (OperationID l) (OperationID r).
#[export] Instance operation_le_dec : RelDecision operation_le.
Proof. intros l r. unfold operation_le. apply _. Defined.

Definition sortDirectives (l : list CausalDirective) : list CausalDirective := merge_sort operation_le l.

Definition CausalDirectivesFromTape (tape : Tape) : go (SemanticError + list CausalDirective) :=
  invalid ← ValidateCausalTape tape;
  Done (match invalid with
        | Some err => inl err
        | None =>
          match gatherEntries 0 ∅ (Entries tape) with
          | inl err => inl err
          | inr byID =>
            let result := sortDirectives (snd <$> map_to_list byID) in
            match ValidateCausalDirectives result with
            | Some err => inl err
            | None => inr result
            end
          end
        end).

(** ** The projector *)

Record CausalProjector := mkCausalProjector {
  causalDirectives : gmap string CausalDirective;
  causalConsumed : gset string;
  causalAdditional : gset string;
  causalFallback : SeedDecider;
  causalFailed : option SemanticError }.

Definition NewCausalProjector (directives : list CausalDirective) (fallbackSeed : Z) : SemanticError + CausalProjector :=
  match ValidateCausalDirectives directives with
  | Some err => inl err
  | None => inr (mkCausalProjector (list_to_map ((λ d, (OperationID d, d)) <$> directives)) ∅ ∅ (NewSeedDecider fallbackSeed) None)
  end.

Definition IncludeOperationIDs (_ : CausalProjector) : bool := true.

Definition causalFail (p : CausalProjector) (err : SemanticError) : CausalProjector * (SemanticError + Selection) :=
  (mkCausalProjector (causalDirectives p) (causalConsumed p) (causalAdditional p) (causalFallback p) (Some err), inl err).

Definition add_additional (p : CausalProjector) (ids : gset string) : CausalProjector :=
  mkCausalProjector (causalDirectives p) (causalConsumed p) (ids ∪ causalAdditional p) (causalFallback p) (causalFailed p).

(** [p.fallback.Choose]; what is [added] is added on success. *)
Definition causalDraw (fuel : nat) (p : CausalProjector) (choice : Choice) (added : gset string)
    : go (option (CausalProjector * (SemanticError + Selection))) :=
  chosen ← Choose fuel (causalFallback p) choice;
  Done (match chosen with
        | None => None
        | Some (d, r) =>
          let p := mkCausalProjector (causalDirectives p) (causalConsumed p) (causalAdditional p) d (causalFailed p) in
          Some (match r with
                | inl _ => causalFail p ErrInvalid
                | inr selection => (add_additional p added, inr selection)
                end)
        end).

(** The loop over the identifiers: the additional ones, the selection of the known ones,
    whether one is unknown, and whether two known ones differ, which ends the loop. *)
Fixpoint scanIDs (directives : gmap string CausalDirective) (additional : gset string) (selected : option Selection)
    (unknown : bool) (ids : list string) : gset string * option Selection * bool * bool :=
  match ids with
  | [] => (additional, selected, unknown, false)
  | id :: ids =>
    match directives !! id with
    | None => scanIDs directives ({[id]} ∪ additional) selected true ids
    | Some d =>
      match selected with
      | None => scanIDs directives additional (Some (cloneSelection (CdSelection d))) unknown ids
      | Some s =>
        if bool_decide (s = CdSelection d) then scanIDs directives additional selected unknown ids
        else (additional, selected, unknown, true)
      end
    end
  end.

(** The answer to a loss choice with identifiers. *)
Definition causalAnswer (fuel : nat) (p : CausalProjector) (choice : Choice) (ids : list string)
    : go (option (CausalProjector * (SemanticError + Selection))) :=
  let '(additional, selected, unknown, conflict) := scanIDs (causalDirectives p) (causalAdditional p) None false ids in
  let p := mkCausalProjector (causalDirectives p) (causalConsumed p) additional (causalFallback p) (causalFailed p) in
  if conflict : bool then Done (Some (causalFail p ErrCausalConflict))
  else match selected with
  | None =>
    let selection := mkSelection "deliver" None in
    invalid ← ValidateSelection choice selection;
    match invalid with
    | Some _ => causalDraw fuel p choice ∅
    | None => Done (Some (p, inr selection))
    end
  | Some selected =>
    if String.eqb (SelOption selected) "drop" && unknown then Done (Some (causalFail p ErrCausalConflict))
    else
      invalid ← ValidateSelection choice selected;
      Done (Some (match invalid with
                  | Some _ => causalFail p ErrCausalConflict
                  | None =>
                    let known := filter (λ id, is_Some (causalDirectives p !! id)) ids in
                    (mkCausalProjector (causalDirectives p) (list_to_set known ∪ causalConsumed p) (causalAdditional p)
                       (causalFallback p) (causalFailed p), inr selected)
                  end))
  end.

Definition causalChoose (fuel : nat) (p : CausalProjector) (choice : Choice)
    : go (option (CausalProjector * (SemanticError + Selection))) :=
  match causalFailed p with
  | Some err => Done (Some (p, inl err))
  | None =>
    match ValidateChoice choice with
    | Some _ => Done (Some (causalFail p ErrInvalid))
    | None =>
      if negb (String.eqb (ChKind choice) NetworkLoss) then causalDraw fuel p choice {[ChID choice]}
      else match choiceOperationContext choice with
      | None | Some (_, false) => Done (Some (causalFail p ErrInvalidCausal))
      | Some ([], true) => causalDraw fuel p choice {[ChID choice]}
      | Some (ids, true) => causalAnswer fuel p choice ids
      end
    end
  end.

Definition causalError (e : SemanticError) : DecisionError :=
  match e with ErrInvalidCausal => ErrOther 3 | ErrCausalConflict => ErrOther 4 | _ => ErrInvalidChoice end.

#[export] Instance causal_decider : Decider CausalProjector :=
  {| Choose := λ fuel p c,
       r ← causalChoose fuel p c;
       Done (match r with
             | None => None
             | Some (p, inl err) => Some (p, inl (causalError err))
             | Some (p, inr s) => Some (p, inr s)
             end);
     OperationContext := λ p, Some (IncludeOperationIDs p) |}.

(** ** Reports *)

Definition marshalSelection (s : Selection) : bytes :=
  encode_object
    ((if String.eqb (SelOption s) "" then [] else [encode_member "option" (encode_string (SelOption s))]) ++
     match Number s with Some n => [encode_member "number" (encode_int n)] | None => [] end).

Definition marshalCausalDirective (d : CausalDirective) : bytes :=
  encode_object [encode_member "operation_id" (encode_string (OperationID d));
    encode_member "source_indices" (encode_array (map AppOracle.encode_uint64 (SourceIndices d)));
    encode_member "selection" (marshalSelection (CdSelection d))].

Definition marshalCausalReport (r : CausalProjectionReport) : bytes :=
  encode_object [encode_member "schema" (encode_string (CrSchema r)); encode_member "fidelity" (encode_string (CrFidelity r));
    encode_member "directives" (encode_int (CrDirectives r)); encode_member "projected" (encode_int (CrProjected r));
    encode_member "additional" (marshalStrings (CrAdditional r));
    encode_member "unmatched" (AppOracle.marshal_list marshalCausalDirective (CrUnmatched r))].

Definition CausalReportValidate (report : CausalProjectionReport) : option SemanticError :=
  let invalid (b : bool) (rest : option SemanticError) := if b then Some ErrInvalidCausal else rest in
  let additional := items (CrAdditional report) in
  let unmatched := items (CrUnmatched report) in
  invalid (negb (String.eqb (CrSchema report) CausalReplaySchema))
  (invalid (negb (known_fidelity (CrFidelity report)))
  (invalid ((CrDirectives report <? 0) || (Scenario.MaxDecisions <? CrDirectives report) || (CrProjected report <? 0) ||
            (CrDirectives report <? CrProjected report))
  (invalid (bool_decide (CrAdditional report = None) || bool_decide (CrUnmatched report = None))
  (invalid (negb (operationSet additional))
  (invalid (bool_decide (ValidateCausalDirectives unmatched ≠ None))
  (invalid (CrDirectives report <? zlen unmatched)
  (invalid (String.eqb (CrFidelity report) ProjectionExact &&
            (negb (is_nil additional) || negb (is_nil unmatched) || negb (CrProjected report =? CrDirectives report)))
  (invalid (String.eqb (CrFidelity report) ProjectionPartial && is_nil additional && is_nil unmatched &&
            (CrProjected report =? CrDirectives report))
  (invalid (Scenario.DefaultMaxArtifactBytes <? zlen (marshalCausalReport report))
  None))))))))).

(** The report before it is validated. *)
Definition causalReport (p : CausalProjector) : CausalProjectionReport :=
  let additional := sort_nodes (elements (causalAdditional p)) in
  let unmatched := sortDirectives (snd <$> filter (λ '(id, _), id ∉ causalConsumed p) (map_to_list (causalDirectives p))) in
  let fidelity :=
    if bool_decide (causalFailed p ≠ None) then ProjectionFailed
    else if negb (is_nil additional) || negb (is_nil unmatched) then ProjectionPartial
    else ProjectionExact in
  mkCausalReport CausalReplaySchema fidelity (Z.of_nat (size (causalDirectives p))) (Z.of_nat (size (causalConsumed p)))
    (Some additional) (Some unmatched).

Definition CausalFinish (p : CausalProjector) : CausalProjectionReport :=
  let report := causalReport p in
  match CausalReportValidate report with
  | None => report
  | Some _ => mkCausalReport CausalReplaySchema ProjectionFailed (CrDirectives report) (CrProjected report) (Some []) (Some [])
  end.

Definition CausalErr (p : CausalProjector) : option SemanticError := causalFailed p.

Definition DecodeCausalProjectionReport (Decode : bytes → option (CausalProjectionReport * bytes)) (reader : option Reader)
    : SemanticError + CausalProjectionReport :=
  match decodePlanDocument Decode reader Scenario.DefaultMaxArtifactBytes with
  | inl _ => inl ErrInvalidCausal
  | inr report => match CausalReportValidate report with Some err => inl err | None => inr report end
  end.

(** ** Evidence *)

(** The projector has to answer every recorded choice with the recorded selection. *)
Fixpoint causalEntries (fuel : nat) (p : CausalProjector) (entries : list Entry) : go (option (SemanticError + CausalProjector)) :=
  match entries with
  | [] => Done (Some (inr p))
  | entry :: entries =>
    chosen ← causalChoose fuel p (EnChoice entry);
    match chosen with
    | None => Done None
    | Some (p, inl _) => Done (Some (inl ErrInvalidCausal))
    | Some (p, inr selection) =>
      if negb (bool_decide (selection = EnSelection entry)) then Done (Some (inl ErrInvalidCausal))
      else causalEntries fuel p entries
    end
  end.

Section evidence.
Variable marshalEvidence : CausalReplayEvidence → option bytes.

(** The checks after the tapes. *)
Definition validateCausalParts (e : CausalReplayEvidence) : option SemanticError :=
  match CausalReportValidate (CeReport e) with
  | Some err => Some err
  | None =>
    if String.eqb (CrFidelity (CeReport e)) ProjectionFailed || negb (validateRawOutcome (SourceOutcome e)) ||
       negb (validateRawOutcome (TargetOutcome e))
    then Some ErrInvalidCausal else None
  end.

(** The reconstruction of the report. *)
Definition verifyCausalProjection (fuel : nat) (e : CausalReplayEvidence) : go (option (option SemanticError)) :=
  directives ← CausalDirectivesFromTape (SourceTape e);
  match directives with
  | inl err => Done (Some (Some err))
  | inr directives =>
    match NewCausalProjector directives (CeFallbackSeed e) with
    | inl err => Done (Some (Some err))
    | inr projector =>
      replayed ← causalEntries fuel projector (Entries (TargetTape e));
      Done (match replayed with
            | None => None
            | Some (inl err) => Some (Some err)
            | Some (inr projector) =>
              if negb (bool_decide (CausalFinish projector = CeReport e)) then Some (Some ErrInvalidCausal)
              else match marshalEvidence e with
              | None => Some (Some ErrInvalidCausal)
              | Some encoded => Some (if Scenario.DefaultMaxArtifactBytes <? zlen encoded then Some ErrInvalidCausal else None)
              end
            end)
    end
  end.

(** No value is the fallback's fuel running out. *)
Definition CausalEvidenceValidate (fuel : nat) (e : CausalReplayEvidence) : go (option (option SemanticError)) :=
  if negb (String.eqb (CeSchema e) CausalEvidenceSchema) || negb (digestPattern (CePlanSHA256 e)) ||
     negb (validateAdapterID (SourceAdapter e)) || negb (validateAdapterID (TargetAdapter e))
  then Done (Some (Some ErrInvalidCausal))
  else
    source ← ValidateCausalTape (SourceTape e);
    match source with
    | Some err => Done (Some (Some err))
    | None =>
      target ← ValidateCausalTape (TargetTape e);
      match target with
      | Some _ => Done (Some (Some ErrInvalidCausal))
      | None =>
        replayable ← NewCausalTapeDecider (TargetTape e);
        match replayable, validateCausalParts e with
        | inl _, _ => Done (Some (Some ErrInvalidCausal))
        | _, Some err => Done (Some (Some err))
        | inr _, None => verifyCausalProjection fuel e
        end
      end
    end.

Definition DigestCausalReplayEvidence (fuel : nat) (e : CausalReplayEvidence) : go (option (SemanticError + string)) :=
  invalid ← CausalEvidenceValidate fuel e;
  Done (match invalid with
        | None => None
        | Some (Some err) => Some (inl err)
        | Some None => Some (digestCanonicalJSON (marshalEvidence e))
        end).

Definition DecodeCausalReplayEvidence (Decode : bytes → option (CausalReplayEvidence * bytes)) (fuel : nat) (reader : option Reader)
    : go (option (SemanticError + CausalReplayEvidence)) :=
  match decodePlanDocument Decode reader Scenario.DefaultMaxArtifactBytes with
  | inl _ => Done (Some (inl ErrInvalidCausal))
  | inr e =>
    invalid ← CausalEvidenceValidate fuel e;
    Done (match invalid with
          | None => None
          | Some (Some err) => Some (inl err)
          | Some None => Some (inr e)
          end)
  end.
End evidence.
