(* ===== verification/CausalProps.v ===== *)
(** * Properties of causal replay

    A causal tape determines one disposition for each operation it names; a projection gives
    that disposition to every attempt of the operation, in any order and any batching; what
    the validation of an evidence accepts is exactly that; and the report of a projector is
    always a valid document. *)

From S2P Require Import Prelude.
From S2P Require Export Causal ExecutionProps.
From S2P Require Scenario AppOracle Outcome.
From stdpp Require Import options.

#[global] Open Scope Z_scope.

(** ** Operations of choices and tapes *)

(** The operations that a choice carries. *)
Definition operations (c : Choice) : list string :=
  match choiceOperationContext c with Some (ids, _) => ids | None => [] end.

(** A loss choice under a causal context. *)
Definition causal_loss (c : Choice) : Prop := ChKind c = NetworkLoss ∧ choiceOperationContext c = Some (operations c, true).

(** The entries of a tape that carry an operation: their indexes and selections. *)
Fixpoint mentions (index : Z) (id : string) (es : list Entry) : list (Z * Selection) :=
  match es with
  | [] => []
  | e :: es =>
    (if decide (id ∈ operations (EnChoice e)) then [(index, EnSelection e)] else []) ++ mentions (index + 1) id es
  end.

Lemma mentions_app i id es es' : mentions i id (es ++ es') = mentions i id es ++ mentions (i + zlen es) id es'.
Proof.
  revert i. induction es as [|e es IH]; intros i; cbn [mentions app].
  - by rewrite zlen_nil, Z.add_0_r.
  - rewrite IH, zlen_cons, <- (assoc_L (++)). do 3 f_equal. lia.
Qed.

Lemma mentions_elem i id es s : s ∈ (mentions i id es).*2 ↔ ∃ e, e ∈ es ∧ id ∈ operations (EnChoice e) ∧ EnSelection e = s.
Proof.
  revert i. induction es as [|e es IH]; intros i; cbn [mentions].
  - split; [by intros ?%elem_of_nil | by intros (e & ?%elem_of_nil & _)].
  - rewrite fmap_app, elem_of_app, IH. split.
    + intros [H|(e' & He' & H)]; [| exists e'; split; [by right | done]].
      case_decide; [| by apply elem_of_nil in H]. apply list_elem_of_singleton in H as ->. exists e. split; [by left | done].
    + intros (e' & [->|He']%elem_of_cons & Hid & <-); [left; rewrite decide_True by done; by left | right; eauto].
Qed.

Lemma operationSet_spec ids : operationSet ids = true ↔ Forall (λ id, boundedOperation id = true) ids ∧ sorted_set ids.
Proof. unfold operationSet. by rewrite andb_true_iff, forallb_Forall, strictlySorted_spec. Qed.

Lemma operationFields_set fields ids b : operationFields fields = Some (ids, b) → operationSet ids = true.
Proof.
  unfold operationFields. destruct (match fields !! str "causal" with None | Some JNull => _ | Some (JBool b) => _ | Some _ => _ end) as [causal|]; [| done].
  cbn [mbind option_bind]. destruct (fields !! str "operation_ids") as [[]|]; try done; [| by intros [= <- _]].
  destruct (mapM stringElement _) as [found|]; [| done]. cbn [mbind option_bind]. destruct (operationSet found) eqn:E; [| done]. by intros [= <- _].
Qed.

Lemma choiceOperationContext_set c ids b : choiceOperationContext c = Some (ids, b) → operationSet ids = true.
Proof.
  unfold choiceOperationContext. case_if; [by intros [= <- _] |]. destruct (RejectDuplicateNames _); [done |].
  destruct (parse_json _) as [[]|]; try done; apply operationFields_set.
Qed.

Lemma operations_set c : operationSet (operations c) = true.
Proof. unfold operations. destruct (choiceOperationContext c) as [[ids b]|] eqn:E; [by eapply choiceOperationContext_set | done]. Qed.

Lemma operations_bounded c : Forall (λ id, boundedOperation id = true) (operations c).
Proof. apply operationSet_spec, operations_set. Qed.
Lemma operations_NoDup c : NoDup (operations c).
Proof. apply sorted_set_NoDup, operationSet_spec, operations_set. Qed.

Lemma operations_kind c : ChKind c ≠ NetworkLoss → operations c = [].
Proof. intros H. unfold operations, choiceOperationContext. by rewrite (proj2 (String.eqb_neq _ _) H). Qed.

(** ** Gathering *)

(** A map describes a tape: each operation has the indexes of its entries and their one
    selection. *)
Definition describes (es : list Entry) (byID : gmap string CausalDirective) : Prop :=
  ∀ id, match mentions 0 id es with
        | [] => byID !! id = None
        | (i, s) :: l => byID !! id = Some (mkCausalDirective id (i :: l.*1) s) ∧ Forall (λ x, x.2 = s) l ∧ lossOption (SelOption s) = true
        end.

Lemma describes_lookup es byID id d :
  describes es byID → byID !! id = Some d →
  OperationID d = id ∧ SourceIndices d = (mentions 0 id es).*1 ∧ lossOption (SelOption (CdSelection d)) = true ∧
  ∀ e, e ∈ es → id ∈ operations (EnChoice e) → EnSelection e = CdSelection d.
Proof.
  intros H Hd. specialize (H id). pose proof (mentions_elem 0 id es) as Hm.
  destruct (mentions 0 id es) as [|[i s] l]; [congruence |]. destruct H as (H & Hf & Hs). rewrite Hd in H. injection H as ->.
  split_and!; try done. intros e He Hid. assert (EnSelection e ∈ (((i, s) :: l).*2)) as Hin by (apply Hm; eauto).
  cbn [CdSelection]. rewrite fmap_cons in Hin. apply elem_of_cons in Hin as [->|Hin]; [done |].
  apply list_elem_of_fmap in Hin as (x & -> & Hx). rewrite Forall_forall in Hf. by apply Hf.
Qed.

Lemma describes_dom es byID id :
  describes es byID → is_Some (byID !! id) ↔ ∃ e, e ∈ es ∧ id ∈ operations (EnChoice e).
Proof.
  intros H. specialize (H id). pose proof (mentions_elem 0 id es) as Hm. destruct (mentions 0 id es) as [|[i s] l].
  - rewrite H. split; [by intros [? ?] |]. intros (e & He & Hid). pose proof (proj2 (Hm (EnSelection e))) as Hn.
    exfalso. apply (not_elem_of_nil (EnSelection e)), Hn. eauto.
  - destruct H as [-> _]. split; [| by eexists]. intros _. destruct (proj1 (Hm s)) as (e & He & Hid & _); [by left | eauto].
Qed.

(** What the identifiers of one choice change. *)
Definition gathered (i : Z) (s : Selection) (ids : list string) (byID : gmap string CausalDirective) (id : string) : option CausalDirective :=
  if decide (id ∈ ids) then
    Some (match byID !! id with
          | None => mkCausalDirective id [i] s
          | Some d => mkCausalDirective (OperationID d) (SourceIndices d ++ [i]) (CdSelection d)
          end)
  else byID !! id.

Lemma gatherIDs_spec i s byID ids byID' :
  NoDup ids → gatherIDs i s byID ids = inr byID' →
  (∀ id, byID' !! id = gathered i s ids byID id) ∧ (ids ≠ [] → lossOption (SelOption s) = true) ∧
  (∀ id d, id ∈ ids → byID !! id = Some d → CdSelection d = s).
Proof.
  intros Hnd. revert byID. induction Hnd as [|id ids Hni Hnd IH]; intros byID.
  { intros [= <-]. split_and!; [| done | by intros ? ? ?%elem_of_nil]. intros id. unfold gathered. by rewrite decide_False by apply not_elem_of_nil. }
  cbn [gatherIDs]. destruct (lossOption (SelOption s)) eqn:Hs; cbn [negb]; [| done].
  assert (∀ d, (∀ i', i' = id → gathered i s (id :: ids) byID i' = Some d) →
    ∀ id', gathered i s ids (<[id := d]> byID) id' = gathered i s (id :: ids) byID id') as Hstep.
  { intros d Hd id'. unfold gathered in *. destruct (decide (id' = id)) as [->|Hne].
    - rewrite decide_False by done. rewrite lookup_insert_eq. symmetry. by apply Hd.
    - rewrite lookup_insert_ne by done. destruct (decide (id' ∈ ids)) as [Hin|Hin].
      + by rewrite decide_True by (by right).
      + rewrite decide_False; [done |]. by intros [?|?]%elem_of_cons. }
  assert (∀ m, (∀ id' d', id' ∈ ids → <[id := m]> byID !! id' = Some d' → CdSelection d' = s) →
     ∀ id' d', id' ∈ ids → byID !! id' = Some d' → CdSelection d' = s) as Hrest.
  { intros m H id' d' Hin Hd'. apply (H id' d' Hin). rewrite lookup_insert_ne; [done |]. by intros ->. }
  destruct (byID !! id) as [d|] eqn:E.
  - destruct (bool_decide_reflect (CdSelection d = s)) as [Hsel|]; cbn [negb]; [| done].
    intros (H1 & _ & H3)%IH. split_and!; [| done |].
    + intros id'. rewrite H1. apply Hstep. intros i' ->. unfold gathered. rewrite decide_True by (by left). by rewrite E.
    + intros id' d' [->|Hin]%elem_of_cons Hd'; [congruence | by eapply Hrest].
  - intros (H1 & _ & H3)%IH. split_and!; [| done |].
    + intros id'. rewrite H1. apply Hstep. intros i' ->. unfold gathered. rewrite decide_True by (by left). rewrite E. by destruct s.
    + intros id' d' [->|Hin]%elem_of_cons Hd'; [congruence | by eapply Hrest].
Qed.

Lemma describes_snoc es e byID byID' :
  describes es byID → let ids := operations (EnChoice e) in
  (∀ id, byID' !! id = gathered (zlen es) (EnSelection e) ids byID id) → (ids ≠ [] → lossOption (SelOption (EnSelection e)) = true) →
  (∀ id d, id ∈ ids → byID !! id = Some d → CdSelection d = EnSelection e) → describes (es ++ [e]) byID'.
Proof.
  intros H ids H1 H2 H3 id. specialize (H id). specialize (H1 id). rewrite mentions_app. cbn [mentions]. rewrite app_nil_r, Z.add_0_l.
  unfold gathered in H1. destruct (decide (id ∈ ids)) as [Hid|Hid]; fold ids.
  - rewrite decide_True by done. destruct (mentions 0 id es) as [|[i s] l]; cbn [app].
    + rewrite H in H1. split_and!; [done | constructor |]. apply H2. intros E. rewrite E in Hid. by apply elem_of_nil in Hid.
    + destruct H as (H & Hf & Hs). rewrite H in H1. cbn [OperationID SourceIndices CdSelection] in H1. pose proof (H3 id _ Hid H) as Hsel.
      cbn [CdSelection] in Hsel. split_and!; [by rewrite H1, fmap_app | | done]. apply Forall_app. split; [done |]. by constructor.
  - rewrite decide_False, app_nil_r by done. by rewrite H1.
Qed.

Lemma gatherEntries_spec es0 es byID byID' :
  describes es0 byID → gatherEntries (zlen es0) byID es = inr byID' →
  describes (es0 ++ es) byID' ∧ Forall (λ e, ChKind (EnChoice e) = NetworkLoss → causal_loss (EnChoice e)) es.
Proof.
  revert es0 byID. induction es as [|e es IH]; intros es0 byID Hd; cbn [gatherEntries].
  { intros [= <-]. by rewrite app_nil_r. }
  assert (zlen es0 + 1 = zlen (es0 ++ [e])) as Hz by by rewrite zlen_app.
  destruct (String.eqb_spec (ChKind (EnChoice e)) NetworkLoss) as [Hk|Hk]; cbn [negb].
  - destruct (choiceOperationContext (EnChoice e)) as [[ids []]|] eqn:Hc; try done.
    assert (operations (EnChoice e) = ids) as Hids by (unfold operations; by rewrite Hc).
    destruct (gatherIDs _ _ _ _) as [|byID1] eqn:Hg; [done |].
    apply gatherIDs_spec in Hg as (H1 & H2 & H3); [| rewrite <- Hids; apply operations_NoDup].
    rewrite Hz. intros E. apply IH in E as [E Hf].
    + rewrite <- (assoc_L (++)) in E. split; [exact E |]. constructor; [| done]. intros _. split; [done |]. by rewrite Hids.
    + apply (describes_snoc es0 e byID byID1 Hd); cbv zeta; by rewrite Hids.
  - rewrite Hz. intros E. apply IH in E as [E Hf].
    + rewrite <- (assoc_L (++)) in E. split; [exact E |]. by constructor.
    + pose proof (operations_kind _ Hk) as Ho. apply (describes_snoc es0 e byID byID Hd); cbv zeta; rewrite Ho; [| done | by intros ? ? ?%elem_of_nil].
      intros id. unfold gathered. by rewrite decide_False by apply not_elem_of_nil.
Qed.

Lemma describes_nil : describes [] ∅.
Proof. intros id. cbn [mentions]. apply lookup_empty. Qed.

(** ** Directives in order *)

Definition keyed (byID : gmap string CausalDirective) : Prop := ∀ id d, byID !! id = Some d → OperationID d = id.

Lemma describes_keyed es byID : describes es byID → keyed byID.
Proof. intros H id d Hd. by apply (describes_lookup es byID id d). Qed.

Lemma keyed_pairs byID (l : list (string * CausalDirective)) : keyed byID → (∀ x, x ∈ l → x ∈ map_to_list byID) → (λ d, (OperationID d, d)) <$> (snd <$> l) = l.
Proof.
  intros Hk. induction l as [|[id d] l IH]; intros Hl; [done |]. cbn [fmap list_fmap snd].
  rewrite (Hk id d) by (apply elem_of_map_to_list, Hl; by left). f_equal. apply IH. intros x Hx. apply Hl. by right.
Qed.

(** The directives of a map make the map again. *)
Lemma sorted_directives_map byID :
  keyed byID → list_to_map ((λ d, (OperationID d, d)) <$> sortDirectives (snd <$> map_to_list byID)) = byID.
Proof.
  intros Hk. assert ((λ d, (OperationID d, d)) <$> sortDirectives (snd <$> map_to_list byID) ≡ₚ map_to_list byID) as Hp.
  { unfold sortDirectives. rewrite merge_sort_Permutation. by rewrite (keyed_pairs byID (map_to_list byID) Hk). }
  transitivity (list_to_map (map_to_list byID) : gmap string CausalDirective); [| apply list_to_map_to_list].
  apply list_to_map_proper; [| exact Hp]. rewrite Hp. apply NoDup_fst_map_to_list.
Qed.

Lemma validateCausalLoop_spec previous ds :
  validateCausalLoop previous ds = true ↔
  Forall (λ d, boundedOperation (OperationID d) = true ∧ SourceIndices d ≠ [] ∧ sourceIndexes None (SourceIndices d) = true ∧
               Number (CdSelection d) = None ∧ lossOption (SelOption (CdSelection d)) = true) ds ∧
  sorted_set (OperationID <$> ds) ∧ match previous with Some p => Forall (slt p) (OperationID <$> ds) | None => True end.
Proof.
  revert previous. induction ds as [|d ds IH]; intros previous; cbn [validateCausalLoop fmap list_fmap].
  { split; [| done]. intros _. split_and!; [constructor | constructor | by destruct previous; constructor]. }
  rewrite !andb_true_iff, IH, !Forall_cons, sorted_set_cons, !negb_true_iff, orb_false_iff, negb_false_iff, bool_decide_eq_false.
  assert (is_nil (SourceIndices d) = false ↔ SourceIndices d ≠ []) as -> by (destruct (SourceIndices d); split; done).
  assert (¬ Number (CdSelection d) ≠ None ↔ Number (CdSelection d) = None) as -> by (destruct (Number (CdSelection d)); split; naive_solver).
  split.
  - intros (((((H1 & H2) & H3) & H4) & H5 & H6) & H7 & H8 & H9). split_and!; try done. destruct previous as [p|]; [| done].
    assert (slt p (OperationID d)) as Hp by (unfold slt; by destruct (String.compare p (OperationID d))).
    apply Forall_cons. split; [done |]. eapply Forall_impl; [exact H9 |]. intros x Hx. by etrans.
  - intros (((H1 & H2 & H3 & H4 & H5) & H6) & (H7 & H8) & H9). split_and!; try done. destruct previous as [p|]; [| done].
    apply Forall_cons in H9 as [Hp _]. unfold slt in Hp. by rewrite Hp.
Qed.

Lemma ValidateCausalDirectives_none ds : ValidateCausalDirectives ds = None ↔ validateCausalLoop None ds = true.
Proof. unfold ValidateCausalDirectives. by destruct (validateCausalLoop None ds). Qed.

(** What a causal tape determines. *)
Lemma CausalDirectivesFromTape_spec tape ds :
  CausalDirectivesFromTape tape = Done (inr ds) →
  ∃ byID, describes (Entries tape) byID ∧ ds = sortDirectives (snd <$> map_to_list byID) ∧
    ValidateCausalDirectives ds = None ∧ list_to_map ((λ d, (OperationID d, d)) <$> ds) = byID.
Proof.
  unfold CausalDirectivesFromTape. destruct (ValidateCausalTape tape) as [[err|]|]; cbn [mbind go_bind]; [done | | done].
  destruct (gatherEntries 0 ∅ (Entries tape)) as [|byID] eqn:Hg; [done |].
  destruct (ValidateCausalDirectives _) eqn:Hv; [done |]. intros [= <-].
  apply (gatherEntries_spec [] _ ∅ byID describes_nil) in Hg as [Hd _]. rewrite app_nil_l in Hd.
  exists byID. split_and!; try done. apply sorted_directives_map. by eapply describes_keyed.
Qed.

(** ** The projector *)

Section projection.
Variable D : gmap string CausalDirective.

Definition known (id : string) : Prop := is_Some (D !! id).
#[local] Instance known_dec id : Decision (known id).
Proof. unfold known. apply _. Defined.

(** What a choice adds to the additional identifiers. *)
Definition extras (c : Choice) : list string :=
  match operations c with [] => [ChID c] | ids => filter (λ id, ¬ known id) ids end.

(** The known operations of the choices. *)
Definition touched (cs : list Choice) : list string := filter known (cs ≫= operations).

(** A projector that has answered the choices [cs]. *)
Definition causal_tracks (cs : list Choice) (p : CausalProjector) : Prop :=
  causalDirectives p = D ∧ causalFailed p = None ∧
  causalConsumed p = list_to_set (touched cs) ∧ causalAdditional p = list_to_set (cs ≫= extras).

(** The answers that the directives allow: the disposition of every known operation, and no
    drop of a batch with an unknown one. *)
Definition causal_answers (c : Choice) (s : Selection) : Prop :=
  (∀ id d, id ∈ operations c → D !! id = Some d → s = CdSelection d) ∧
  (∀ id id', id ∈ operations c → id' ∈ operations c → known id → ¬ known id' → SelOption s ≠ "drop").

Lemma scanIDs_spec additional selected unknown ids additional' selected' unknown' :
  scanIDs D additional selected unknown ids = (additional', selected', unknown', false) →
  additional' = list_to_set (filter (λ id, ¬ known id) ids) ∪ additional ∧
  (unknown' = true ↔ unknown = true ∨ ∃ id, id ∈ ids ∧ ¬ known id) ∧
  (∀ s, selected = Some s → selected' = Some s) ∧
  (∀ id d, id ∈ ids → D !! id = Some d → selected' = Some (CdSelection d)) ∧
  (selected' ≠ None → selected ≠ None ∨ ∃ id, id ∈ ids ∧ known id).
Proof.
  revert additional selected unknown. induction ids as [|id ids IH]; intros additional selected unknown; cbn [scanIDs].
  { intros [= <- <- <-]. split_and!; [set_solver | | done | by intros ? ? ?%elem_of_nil | by left].
    split; [by left | intros [?|(id & ?%elem_of_nil & _)]; done]. }
  destruct (D !! id) as [d|] eqn:E.
  - assert (known id) as Hk by by eexists.
    assert (filter (λ id, ¬ known id) (id :: ids) = filter (λ id, ¬ known id) ids) as Hfil by (rewrite filter_cons, decide_False; auto).
    assert (∀ s0, (selected = Some s0 ∨ selected = None) → s0 = CdSelection d →
      scanIDs D additional (Some s0) unknown ids = (additional', selected', unknown', false) →
      additional' = list_to_set (filter (λ id, ¬ known id) (id :: ids)) ∪ additional ∧
      (unknown' = true ↔ unknown = true ∨ ∃ id', id' ∈ id :: ids ∧ ¬ known id') ∧
      (∀ s, selected = Some s → selected' = Some s) ∧
      (∀ id' d, id' ∈ id :: ids → D !! id' = Some d → selected' = Some (CdSelection d)) ∧
      (selected' ≠ None → selected ≠ None ∨ ∃ id', id' ∈ id :: ids ∧ known id')) as Hgo.
    { intros s0 Hs0 -> (H1 & H2 & H3 & H4 & H5)%IH. rewrite Hfil. split_and!; [done | | | |].
      - rewrite H2. setoid_rewrite elem_of_cons. split; [intros [?|(x & ? & ?)]; [by left | right; eauto] |].
        intros [?|(x & [->|?] & ?)]; [by left | done | right; eauto].
      - intros s ->. destruct Hs0 as [[= ->]|]; [by apply H3 | done].
      - intros id' d' [->|Hin]%elem_of_cons Hd'; [rewrite E in Hd'; injection Hd' as <-; by apply H3 | by eapply H4].
      - intros _. right. exists id. split; [by left | done]. }
    destruct selected as [s0|].
    + destruct (bool_decide_reflect (s0 = CdSelection d)) as [Hs|]; [| done]. apply Hgo; [by left | done].
    + apply Hgo; [by right | by destruct (CdSelection d)].
  - assert (¬ known id) as Hk by (intros [? ?]; congruence). intros (H1 & H2 & H3 & H4 & H5)%IH. split_and!.
    + rewrite H1, filter_cons, decide_True by done. set_solver.
    + rewrite H2. setoid_rewrite elem_of_cons. split; [intros _; right; exists id; split; [by left | done] | by left].
    + exact H3.
    + intros id' d' [->|Hin]%elem_of_cons Hd'; [congruence | by eapply H4].
    + intros H. destruct (H5 H) as [?|(x & ? & ?)]; [by left | right; exists x; split; [by right | done]].
Qed.

Lemma causalDraw_spec fuel p choice added p' r :
  causalDraw fuel p choice added = Done (Some (p', r)) →
  causalDirectives p' = causalDirectives p ∧ causalConsumed p' = causalConsumed p ∧
  match r with
  | inl err => causalFailed p' = Some err
  | inr _ => causalFailed p' = causalFailed p ∧ causalAdditional p' = added ∪ causalAdditional p
  end.
Proof.
  unfold causalDraw. destruct (Choose fuel (causalFallback p) choice) as [[[d [err|s]]|]|]; cbn [mbind go_bind]; [| | done | done];
    intros [= <- <-]; by split_and!.
Qed.

Lemma bind_snoc {A B} (f : A → list B) l x : (l ++ [x]) ≫= f = (l ≫= f) ++ f x.
Proof. rewrite bind_app. cbn [mbind list_bind]. by rewrite app_nil_r. Qed.

Lemma tracks_snoc cs c p p' :
  causal_tracks cs p → causalDirectives p' = causalDirectives p → causalFailed p' = None →
  causalConsumed p' = list_to_set (filter known (operations c)) ∪ causalConsumed p →
  causalAdditional p' = list_to_set (extras c) ∪ causalAdditional p → causal_tracks (cs ++ [c]) p'.
Proof.
  intros (T1 & T2 & T3 & T4) H1 H2 H3 H4. unfold causal_tracks, touched in *. rewrite !bind_snoc, filter_app, !list_to_set_app_L.
  split_and!; [congruence | done | rewrite H3, T3; set_solver | rewrite H4, T4; set_solver].
Qed.

Lemma causalAnswer_spec fuel cs p c p' s :
  causal_tracks cs p → operations c ≠ [] → causalAnswer fuel p c (operations c) = Done (Some (p', inr s)) →
  causal_tracks (cs ++ [c]) p' ∧ causal_answers c s.
Proof.
  intros Ht Hne. pose proof Ht as (T1 & T2 & T3 & T4). unfold causalAnswer. rewrite T1.
  destruct (scanIDs D (causalAdditional p) None false (operations c)) as [[[additional selected] unknown] conflict] eqn:Hscan.
  destruct conflict; [done |]. apply scanIDs_spec in Hscan as (H1 & H2 & _ & H4 & H5).
  assert (extras c = filter (λ id, ¬ known id) (operations c)) as Hex by (unfold extras; by destruct (operations c)).
  destruct selected as [selected|].
  - destruct (String.eqb_spec (SelOption selected) "drop") as [Hdrop|Hdrop], unknown eqn:Hu; cbn [andb]; try done.
    all: destruct (ValidateSelection c selected) as [[err|]|]; cbn [mbind go_bind]; [done | | done]; intros [= <- <-].
    all: split; [apply (tracks_snoc cs c p); try done; cbn [causalAdditional]; rewrite Hex, H1; set_solver |].
    all: split; [intros id d Hid Hd; specialize (H4 id d Hid Hd); congruence |].
    all: intros id id' _ Hid' _ Hn; try done; exfalso; assert (false = true) as Hf by (apply H2; right; by exists id'); discriminate Hf.
  - assert (∀ id, id ∈ operations c → ¬ known id) as Hun.
    { intros id Hid [d Hd]. specialize (H4 id d Hid Hd). discriminate H4. }
    assert (filter known (operations c) = []) as Hfil by by apply filter_nothing.
    assert (causal_answers c s) as Ha by (split; [intros id d Hid Hd; exfalso; by apply (Hun id Hid); eexists | intros id id' Hid _ Hk; by apply Hun in Hk]).
    destruct (ValidateSelection c _) as [[err|]|]; cbn [mbind go_bind]; [| | done].
    + intros (E1 & E2 & E3 & E4)%causalDraw_spec. cbn [causalDirectives causalConsumed causalFailed causalAdditional] in *. split; [| done].
      apply (tracks_snoc cs c p); [done | congruence | congruence | rewrite E2, Hfil; set_solver |].
      rewrite E4, Hex, H1. set_solver.
    + intros [= <- <-]. split; [| done]. apply (tracks_snoc cs c p); try done; [rewrite Hfil; cbn [causalConsumed]; set_solver |].
      rewrite Hex. cbn [causalAdditional]. rewrite H1. set_solver.
Qed.

Lemma causalChoose_spec fuel cs p c p' s :
  causal_tracks cs p → causalChoose fuel p c = Done (Some (p', inr s)) →
  causal_tracks (cs ++ [c]) p' ∧ causal_answers c s ∧ (ChKind c = NetworkLoss → causal_loss c).
Proof.
  intros Ht. pose proof Ht as (T1 & T2 & T3 & T4). unfold causalChoose. rewrite T2. destruct (ValidateChoice c); [done |].
  assert (operations c = [] → causalDraw fuel p c {[ChID c]} = Done (Some (p', inr s)) → causal_tracks (cs ++ [c]) p' ∧ causal_answers c s) as Hdraw.
  { intros Ho (E1 & E2 & E3 & E4)%causalDraw_spec. split.
    - apply (tracks_snoc cs c p); try done; [congruence | rewrite E2, Ho; set_solver | rewrite E4; unfold extras; rewrite Ho; set_solver].
    - unfold causal_answers. rewrite Ho. split; [by intros ? ? ?%elem_of_nil | by intros ? ? ?%elem_of_nil]. }
  destruct (String.eqb_spec (ChKind c) NetworkLoss) as [Hk|Hk]; cbn [negb].
  - destruct (choiceOperationContext c) as [[ids [|]]|] eqn:Hc; [| by destruct ids | done].
    assert (operations c = ids) as Hids by (unfold operations; by rewrite Hc).
    assert (causal_loss c) as Hl by (split; [done | by rewrite Hids]). destruct ids as [|id ids].
    + intros E. destruct (Hdraw Hids E). by split_and!.
    + rewrite <- Hids. intros E. apply (causalAnswer_spec fuel cs) in E as [? ?]; [by split_and! | done | by rewrite Hids].
  - intros E. destruct (Hdraw (operations_kind c Hk) E). by split_and!.
Qed.

Lemma causalEntries_spec fuel cs p es p' :
  causal_tracks cs p → causalEntries fuel p es = Done (Some (inr p')) →
  causal_tracks (cs ++ (EnChoice <$> es)) p' ∧ Forall (λ e, causal_answers (EnChoice e) (EnSelection e)) es.
Proof.
  revert cs p. induction es as [|e es IH]; intros cs p Ht; cbn [causalEntries fmap list_fmap].
  { intros [= <-]. by rewrite app_nil_r. }
  destruct (causalChoose fuel p (EnChoice e)) as [[[p1 [err|s]]|]|] eqn:E; cbn [mbind go_bind]; [done | | done | done].
  apply (causalChoose_spec fuel cs) in E as (Ht1 & Ha & _); [| done].
  destruct (bool_decide_reflect (s = EnSelection e)) as [->|]; cbn [negb]; [| done].
  intros [H1 H2]%(IH (cs ++ [EnChoice e])); [| done]. rewrite <- (assoc_L (++)) in H1. split; [done | by constructor].
Qed.
End projection.

(** ** Reports *)

(** The directives that are left. *)
Definition leftover (D : gmap string CausalDirective) (consumed : gset string) : list CausalDirective :=
  sortDirectives (snd <$> filter (λ '(id, _), id ∉ consumed) (map_to_list D)).

Lemma leftover_elem D consumed d :
  keyed D → d ∈ leftover D consumed ↔ D !! OperationID d = Some d ∧ OperationID d ∉ consumed.
Proof.
  intros Hk. unfold leftover, sortDirectives. rewrite merge_sort_Permutation, list_elem_of_fmap. split.
  - intros ([id d'] & -> & [Hc Hd]%list_elem_of_filter). apply elem_of_map_to_list in Hd. cbn [snd]. by rewrite (Hk id d' Hd).
  - intros [Hd Hc]. exists (OperationID d, d). split; [done |]. apply list_elem_of_filter. split; [done | by apply elem_of_map_to_list].
Qed.

Lemma leftover_keys D consumed :
  keyed D → OperationID <$> leftover D consumed ≡ₚ fst <$> filter (λ '(id, _), id ∉ consumed) (map_to_list D).
Proof.
  intros Hk. unfold leftover, sortDirectives. rewrite merge_sort_Permutation, <- list_fmap_compose.
  erewrite list_fmap_ext; [reflexivity |]. intros i [id d] Hi. cbn. apply list_elem_of_lookup_2, list_elem_of_filter in Hi as [_ Hi].
  by apply Hk, elem_of_map_to_list.
Qed.

Lemma leftover_NoDup D consumed : keyed D → NoDup (OperationID <$> leftover D consumed).
Proof.
  intros Hk. rewrite leftover_keys by done. eapply sublist_NoDup; [apply (NoDup_fst_map_to_list D) | apply fmap_sublist, sublist_filter].
Qed.

Lemma leftover_count D consumed :
  keyed D → consumed ⊆ dom D → Z.of_nat (size consumed) + zlen (leftover D consumed) = Z.of_nat (size D).
Proof.
  intros Hk Hsub. assert (list_to_set (OperationID <$> leftover D consumed) = dom D ∖ consumed) as Hset.
  { apply set_eq. intros id. rewrite elem_of_list_to_set, list_elem_of_fmap, elem_of_difference, elem_of_dom. split.
    - intros (d & -> & [Hd Hc]%leftover_elem); [by split | done].
    - intros [[d Hd] Hc]. exists d. rewrite leftover_elem, (Hk id d Hd) by done. by split. }
  pose proof (size_list_to_set (C := gset string) _ (leftover_NoDup D consumed Hk)) as Hsize. rewrite Hset, length_fmap in Hsize.
  rewrite size_difference, size_dom in Hsize by done. pose proof (subseteq_size _ _ Hsub) as Hle. rewrite size_dom in Hle.
  unfold zlen. lia.
Qed.

Lemma sort_nodes_nil l : sort_nodes l = [] ↔ l = [].
Proof. split; [| by intros ->]. intros E. apply elem_of_nil_inv. intros x Hx. apply (elem_of_sort_nodes x) in Hx. rewrite E in Hx. by apply elem_of_nil in Hx. Qed.

(** An operation of a list of entries. *)
Definition named (es : list Entry) (id : string) : Prop := ∃ e, e ∈ es ∧ id ∈ operations (EnChoice e).

(** What an entry adds to the additional identifiers of a replay of [source]. *)
Definition uncovered (source : list Entry) (e : Entry) (x : string) : Prop :=
  (operations (EnChoice e) = [] ∧ x = ChID (EnChoice e)) ∨ (x ∈ operations (EnChoice e) ∧ ¬ named source x).

Lemma touched_elem D es id : id ∈ touched D (EnChoice <$> es) ↔ known D id ∧ named es id.
Proof.
  unfold touched, named. rewrite list_elem_of_filter, list_elem_of_bind. split.
  - intros [Hk (c & Hid & (e & -> & He)%list_elem_of_fmap)]. eauto.
  - intros [Hk (e & He & Hid)]. split; [done |]. exists (EnChoice e). split; [done | by apply list_elem_of_fmap_2].
Qed.

Lemma extras_elem D source e x :
  (∀ id, known D id ↔ named source id) → x ∈ extras D (EnChoice e) ↔ uncovered source e x.
Proof.
  intros Hk. unfold extras, uncovered. destruct (operations (EnChoice e)) as [|id ids] eqn:Ho.
  - rewrite list_elem_of_singleton. split; [by left | intros [[_ ->]|[?%elem_of_nil _]]; done].
  - rewrite list_elem_of_filter, Hk. split; [intros []; by right | intros [[? _]|[]]; done].
Qed.

(** The report of a projector that has answered the choices of [target]. *)
Lemma causalReport_spec D source target p :
  keyed D → (∀ id, known D id ↔ named source id) → causal_tracks D (EnChoice <$> target) p →
  let report := causalReport p in
  CrProjected report + zlen (items (CrUnmatched report)) = CrDirectives report ∧
  (∀ d, d ∈ items (CrUnmatched report) ↔ D !! OperationID d = Some d ∧ ¬ named target (OperationID d)) ∧
  (∀ x, x ∈ items (CrAdditional report) ↔ ∃ t, t ∈ target ∧ uncovered source t x) ∧
  (CrFidelity report = ProjectionExact ↔ (∀ id, named source id → named target id) ∧ ∀ t x, t ∈ target → ¬ uncovered source t x) ∧
  CrFidelity report ≠ ProjectionFailed.
Proof.
  intros Hk Hn (T1 & T2 & T3 & T4). unfold causalReport. rewrite T1, T2, T3, T4. cbv zeta.
  cbn [CrProjected CrUnmatched CrDirectives CrAdditional CrFidelity items default from_option id].
  set (consumed := list_to_set (touched D (EnChoice <$> target)) : gset string). fold (leftover D consumed).
  assert (∀ id, id ∈ consumed ↔ known D id ∧ named target id) as Hc by (intros id; unfold consumed; by rewrite elem_of_list_to_set, touched_elem).
  assert (∀ d, d ∈ leftover D consumed ↔ D !! OperationID d = Some d ∧ ¬ named target (OperationID d)) as Hleft.
  { intros d. rewrite leftover_elem, Hc by done. split; intros [Hd H]; (split; [done |]); [| tauto].
    intros Hnt. apply H. split; [by eexists | done]. }
  assert (∀ x, x ∈ sort_nodes (elements (list_to_set ((EnChoice <$> target) ≫= extras D) : gset string)) ↔ ∃ t, t ∈ target ∧ uncovered source t x) as Hadd.
  { intros x. rewrite elem_of_sort_nodes, elem_of_elements, elem_of_list_to_set, list_elem_of_bind. split.
    - intros (c & Hx & (t & -> & Ht)%list_elem_of_fmap). exists t. split; [done |]. by apply (extras_elem D).
    - intros (t & Ht & Hx). exists (EnChoice t). split; [by apply (extras_elem D source) | by apply list_elem_of_fmap_2]. }
  split_and!; [| done | done | |].
  - apply leftover_count; [done |]. intros id [Hid _]%Hc. by apply elem_of_dom.
  - rewrite bool_decide_eq_false_2 by auto.
    assert (is_nil (sort_nodes (elements (list_to_set ((EnChoice <$> target) ≫= extras D) : gset string))) = true ↔
      ∀ t x, t ∈ target → ¬ uncovered source t x) as Ha.
    { rewrite is_nil_spec. split; [intros E t x Ht Hx | intros H; apply elem_of_nil_inv; intros x (t & Ht & Hx)%Hadd; by apply (H t x)].
      assert (x ∈ sort_nodes (elements (list_to_set ((EnChoice <$> target) ≫= extras D) : gset string))) as Hin by (apply Hadd; eauto).
      rewrite E in Hin. by apply elem_of_nil in Hin. }
    assert (is_nil (leftover D consumed) = true ↔ ∀ id, named source id → named target id) as Hl.
    { rewrite is_nil_spec. split.
      - intros E id Hid. assert (Decision (named target id)) as Hdec.
        { destruct (decide (id ∈ consumed)) as [Hin|Hin]; [left; by apply Hc | right]. intros Ht. apply Hin, Hc. split; [by apply Hn | done]. }
        destruct (decide (named target id)) as [|Hnt]; [done |]. apply Hn in Hid as [d Hd].
        assert (d ∈ leftover D consumed) as Hin by (apply Hleft; by rewrite (Hk id d Hd)). rewrite E in Hin. by apply elem_of_nil in Hin.
      - intros H. apply elem_of_nil_inv. intros d [Hd Hnt]%Hleft. apply Hnt, H, Hn. by eexists. }
    rewrite <- Ha, <- Hl. destruct (is_nil _), (is_nil _); cbn [negb orb]; split; try done; intros [? ?]; done.
  - rewrite bool_decide_eq_false_2 by auto. by destruct (_ || _).
Qed.

Section evidence_theorems.
Variable marshalEvidence : CausalReplayEvidence → option bytes.

Lemma NewCausalProjector_tracks ds seed p D :
  list_to_map ((λ d, (OperationID d, d)) <$> ds) = D → NewCausalProjector ds seed = inr p → causal_tracks D [] p.
Proof. intros HD. unfold NewCausalProjector. destruct (ValidateCausalDirectives ds); [done |]. intros [= <-]. by split_and!. Qed.

(** C30.  Causal evidence shows one disposition for each operation.  When the validation accepts an
    evidence, every target choice that carries an operation of the source was answered with
    the selection of the source - whatever the order and the batching of the target - and no
    batch with an operation the source does not know was dropped; the report counts every
    operation of the source once, lists as unmatched those the target does not carry, as
    additional what the source does not cover, and is exact when there is neither. *)
Theorem causal_evidence_one_disposition fuel e :
  CausalEvidenceValidate marshalEvidence fuel e = Done (Some None) →
  let source := Entries (SourceTape e) in let target := Entries (TargetTape e) in let report := CeReport e in
  (∀ s t id, s ∈ source → t ∈ target → id ∈ operations (EnChoice s) → id ∈ operations (EnChoice t) → EnSelection t = EnSelection s) ∧
  (∀ t id id', t ∈ target → id ∈ operations (EnChoice t) → id' ∈ operations (EnChoice t) → named source id → ¬ named source id' →
     SelOption (EnSelection t) ≠ "drop") ∧
  CrProjected report + zlen (items (CrUnmatched report)) = CrDirectives report ∧
  (∀ d, d ∈ items (CrUnmatched report) → named source (OperationID d) ∧ ¬ named target (OperationID d)) ∧
  (∀ x, x ∈ items (CrAdditional report) ↔ ∃ t, t ∈ target ∧ uncovered source t x) ∧
  (CrFidelity report = ProjectionExact ↔ (∀ id, named source id → named target id) ∧ ∀ t x, t ∈ target → ¬ uncovered source t x).
Proof.
  intros E source target report. unfold CausalEvidenceValidate in E. case_if_in E; [discriminate E |].
  destruct (ValidateCausalTape (SourceTape e)) as [[|]|]; cbn [mbind go_bind] in E; [done | | done].
  destruct (ValidateCausalTape (TargetTape e)) as [[|]|]; cbn [mbind go_bind] in E; [done | | done].
  destruct (NewCausalTapeDecider (TargetTape e)) as [[|decider]|]; cbn [mbind go_bind] in E; [done | | done].
  destruct (validateCausalParts e) eqn:Hparts; [done |]. unfold verifyCausalProjection in E.
  destruct (CausalDirectivesFromTape (SourceTape e)) as [[|ds]|] eqn:Hds; cbn [mbind go_bind] in E; [done | | done].
  destruct (CausalDirectivesFromTape_spec _ _ Hds) as (D & HD & _ & _ & Hmap). pose proof (describes_keyed _ _ HD) as Hk.
  destruct (NewCausalProjector ds (CeFallbackSeed e)) as [|p0] eqn:Hnew; [done |].
  pose proof (NewCausalProjector_tracks ds _ p0 D Hmap Hnew) as Ht0.
  destruct (causalEntries fuel p0 (Entries (TargetTape e))) as [[[|p]|]|] eqn:Hes; cbn [mbind go_bind] in E; [done | | done | done].
  destruct (causalEntries_spec D fuel [] p0 _ p Ht0 Hes) as [Ht Hans]. rewrite app_nil_l in Ht. fold target in Ht, Hans.
  destruct (bool_decide_reflect (CausalFinish p = CeReport e)) as [Hfin|]; cbn [negb] in E; [| done].
  assert (∀ id, known D id ↔ named source id) as Hn by (intros id; by apply describes_dom).
  destruct (causalReport_spec D source target p Hk Hn Ht) as (R1 & R2 & R3 & R4 & _).
  assert (CrFidelity (CeReport e) ≠ ProjectionFailed) as Hnf.
  { unfold validateCausalParts in Hparts. destruct (CausalReportValidate (CeReport e)); [done |].
    destruct (String.eqb_spec (CrFidelity (CeReport e)) ProjectionFailed); [done | done]. }
  assert (CeReport e = causalReport p) as Hrep.
  { rewrite <- Hfin in Hnf |- *. unfold CausalFinish in *. by destruct (CausalReportValidate (causalReport p)). }
  unfold report. rewrite Hrep. rewrite Forall_forall in Hans. split_and!; try done.
  - intros s t id Hs Ht' Hid Hid'. destruct (Hans t Ht') as [Ha _]. destruct (proj2 (Hn id)) as [d Hd]; [by exists s |].
    rewrite (Ha id d Hid' Hd). symmetry. by apply (describes_lookup _ _ _ _ HD Hd).
  - intros t id id' Ht' Hid Hid' Hs Hs'. destruct (Hans t Ht') as [_ Hb]. apply (Hb id id'); [done | done | by apply Hn | by rewrite Hn].
  - intros d [Hd Hnt]%R2. split; [apply Hn; by eexists | done].
Qed.
End evidence_theorems.

(** ** Replay of a causal tape *)

Lemma scanIDs_known D additional selected unknown ids s :
  (∀ id, id ∈ ids → ∃ d, D !! id = Some d ∧ CdSelection d = s) → (selected = None ∨ selected = Some s) →
  scanIDs D additional selected unknown ids = (additional, match ids with [] => selected | _ => Some s end, unknown, false).
Proof.
  revert selected. induction ids as [|id ids IH]; intros selected Hids Hs; [done |]. cbn [scanIDs].
  destruct (Hids id) as (d & -> & Hd); [by left |]. assert (∀ id', id' ∈ ids → ∃ d, D !! id' = Some d ∧ CdSelection d = s) as Hids' by (intros; apply Hids; by right).
  assert (cloneSelection (CdSelection d) = s) as Hc by (rewrite Hd; by destruct s).
  destruct Hs as [->| ->]; [rewrite Hc | rewrite bool_decide_eq_true_2 by done]; rewrite IH by auto; by destruct ids.
Qed.

Lemma causalChoose_known D fuel cs p c s :
  causal_tracks D cs p → ValidateSelection c s = Done None → causal_loss c → operations c ≠ [] →
  (∀ id, id ∈ operations c → ∃ d, D !! id = Some d ∧ CdSelection d = s) →
  ∃ p', causalChoose fuel p c = Done (Some (p', inr s)).
Proof.
  intros (T1 & T2 & _) Hv [Hk Hc] Hne Hids. unfold causalChoose. rewrite T2.
  assert (ValidateChoice c = None) as -> by (unfold ValidateSelection in Hv; by destruct (ValidateChoice c)).
  rewrite (proj2 (String.eqb_eq _ _) Hk), Hc. cbn [negb]. destruct (operations c) as [|id ids] eqn:Ho; [done |]. rewrite <- Ho in *.
  unfold causalAnswer. rewrite T1, (scanIDs_known D _ _ _ (operations c) s Hids) by by left. rewrite Ho, andb_false_r, Hv.
  cbn [mbind go_bind]. by eexists.
Qed.

(** C31.  Causal replay reproduces dispositions.  The directives of a causal tape, under any
    fallback seed, answer every sequence of legal loss choices - the operations of the tape
    reordered, repeated or batched anew - with the dispositions the tape gave them, when no
    batch mixes two dispositions; nothing is additional, and the report is exact as soon as
    every operation of the tape was carried. *)
Theorem causal_replay_reproduces fuel tape ds seed es :
  CausalDirectivesFromTape tape = Done (inr ds) →
  Forall (λ e, ValidateSelection (EnChoice e) (EnSelection e) = Done None ∧ causal_loss (EnChoice e) ∧ operations (EnChoice e) ≠ [] ∧
    ∀ id, id ∈ operations (EnChoice e) → ∃ s, s ∈ Entries tape ∧ id ∈ operations (EnChoice s) ∧ EnSelection s = EnSelection e) es →
  ∃ p p', NewCausalProjector ds seed = inr p ∧ causalEntries fuel p es = Done (Some (inr p')) ∧
    CrAdditional (causalReport p') = Some [] ∧
    (CrFidelity (causalReport p') = ProjectionExact ↔ ∀ id, named (Entries tape) id → named es id).
Proof.
  intros Hds Hes. destruct (CausalDirectivesFromTape_spec _ _ Hds) as (D & HD & _ & Hval & Hmap).
  pose proof (describes_keyed _ _ HD) as Hk. assert (∀ id, known D id ↔ named (Entries tape) id) as Hn by (intros id; by apply describes_dom).
  destruct (NewCausalProjector ds seed) as [|p] eqn:Hnew; [unfold NewCausalProjector in Hnew; by rewrite Hval in Hnew |].
  pose proof (NewCausalProjector_tracks ds _ p D Hmap Hnew) as Ht.
  assert (∀ cs p, causal_tracks D cs p → ∃ p', causalEntries fuel p es = Done (Some (inr p'))) as Hgo.
  { clear Ht Hnew p. induction Hes as [|e es (Hv & Hl & Hne & Hids) _ IH]; intros cs p Ht; [by eexists |]. cbn [causalEntries].
    destruct (causalChoose_known D fuel cs p (EnChoice e) (EnSelection e) Ht Hv Hl Hne) as [p1 E].
    { intros id Hid. destruct (Hids id Hid) as (s & Hs & Hsid & <-). destruct (proj2 (Hn id)) as [d Hd]; [by exists s |].
      exists d. split; [done |]. symmetry. by apply (describes_lookup _ _ _ _ HD Hd). }
    rewrite E. cbn [mbind go_bind]. rewrite bool_decide_eq_true_2 by done. cbn [negb].
    apply (causalChoose_spec D fuel cs) in E as [Ht1 _]; [| done]. by apply (IH (cs ++ [EnChoice e])). }
  destruct (Hgo [] p Ht) as [p' E]. exists p, p'. split_and!; try done.
  all: destruct (causalEntries_spec D fuel [] p es p' Ht E) as [Ht' _]; rewrite app_nil_l in Ht'.
  all: destruct (causalReport_spec D (Entries tape) es p' Hk Hn Ht') as (_ & _ & R3 & R4 & _).
  all: assert (∀ t x, t ∈ es → ¬ uncovered (Entries tape) t x) as Hcov.
  1,3: rewrite Forall_forall in Hes; intros t x (_ & _ & Hne & Hids)%Hes [[Ho _]|[Hx Hu]]; [done |];
    apply Hu; destruct (Hids x Hx) as (s & Hs & Hsx & _); by exists s.
  - cbn [causalReport CrAdditional]. f_equal. apply elem_of_nil_inv. intros x Hx. destruct (proj1 (R3 x) Hx) as (t & Ht1 & Hu). by apply (Hcov t x).
  - rewrite R4. tauto.
Qed.

(** ** Validity of reports *)

Lemma le_NoDup_sorted_set l : StronglySorted String.le l → NoDup l → sorted_set l.
Proof.
  induction 1 as [|x l Hs IH Hf]; intros Hnd; [constructor |]. apply NoDup_cons in Hnd as [Hx Hnd]. apply sorted_set_cons. split; [auto |].
  rewrite Forall_forall in *. intros y Hy. pose proof (Hf y Hy) as Hle. rewrite string_le_compare in Hle. unfold slt.
  destruct (String.compare x y) eqn:E; [| done | done]. apply String.compare_eq_iff in E as ->. done.
Qed.

Lemma sort_nodes_sorted_set l : NoDup l → sorted_set (sort_nodes l).
Proof. intros Hnd. apply le_NoDup_sorted_set; [apply sort_nodes_sorted |]. unfold sort_nodes. by rewrite merge_sort_Permutation. Qed.

Lemma sortDirectives_sorted l : StronglySorted String.le (OperationID <$> sortDirectives l).
Proof.
  unfold sortDirectives. assert (StronglySorted operation_le (merge_sort operation_le l)) as H.
  { apply StronglySorted_merge_sort; [intros x y z; unfold operation_le; apply transitivity | intros x y; unfold operation_le; apply (total String.le)]. }
  induction H as [|d k _ IH Hf]; cbn [fmap list_fmap]; constructor; [done | by apply Forall_fmap].
Qed.

Lemma leftover_valid ds D consumed :
  keyed D → (∀ id d, D !! id = Some d → d ∈ ds) → ValidateCausalDirectives ds = None → ValidateCausalDirectives (leftover D consumed) = None.
Proof.
  intros Hk HD. rewrite !ValidateCausalDirectives_none, !validateCausalLoop_spec. intros (Hf & _). split_and!; [| | done].
  - rewrite Forall_forall in *. intros d [Hd _]%leftover_elem; [by apply Hf, (HD _ _ Hd) | done].
  - apply le_NoDup_sorted_set; [apply sortDirectives_sorted | by apply leftover_NoDup].
Qed.

(** The text of a number is not longer than the number. *)
Lemma pretty_N_length x s : zlen (str (pretty.pretty_N_go x s)) ≤ Z.of_N x + zlen (str s).
Proof.
  revert s. induction (N.lt_wf_0 x) as [x _ IH]. intros s. destruct (decide (x = 0%N)) as [->|Hx].
  - rewrite pretty.pretty_N_go_0. lia.
  - rewrite pretty.pretty_N_go_step by lia. assert (x `div` 10 < x)%N as Hlt by (apply N.div_lt; lia).
    specialize (IH _ Hlt (String (pretty.pretty_N_char (x `mod` 10)) s)).
    change (str (String ?a s)) with (Ascii.byte_of_ascii a :: str s) in IH. rewrite zlen_cons in IH. lia.
Qed.

Lemma encode_int_length z : 0 ≤ z → zlen (encode_int z) ≤ z + 1.
Proof.
  intros Hz. unfold encode_int. destruct z as [|x|x]; [done | | lia].
  change (pretty.pretty (Z.pos x)) with (pretty.pretty_N_go (N.pos x) ""). pose proof (pretty_N_length (N.pos x) "") as H.
  change (zlen (str "")) with 0 in H. lia.
Qed.

(** A projector of the directives [D], whatever it was asked. *)
Definition consistent (D : gmap string CausalDirective) (p : CausalProjector) : Prop :=
  causalDirectives p = D ∧ causalConsumed p ⊆ dom D.

Lemma causalChoose_consistent D fuel p c p' r :
  consistent D p → causalChoose fuel p c = Done (Some (p', r)) → consistent D p'.
Proof.
  intros [H1 H2]. unfold causalChoose. destruct (causalFailed p); [by intros [= <- <-] |].
  destruct (ValidateChoice c); [by intros [= <- <-] |].
  assert (∀ q added, consistent D q → causalDraw fuel q c added = Done (Some (p', r)) → consistent D p') as Hdraw.
  { intros q added [Q1 Q2] (E1 & E2 & _)%causalDraw_spec. split; [congruence | by rewrite E2]. }
  case_if; [by apply Hdraw |]. destruct (choiceOperationContext c) as [[ids []]|]; [| by destruct ids; intros [= <- <-] | by intros [= <- <-]].
  destruct ids as [|id ids]; [by apply Hdraw |]. generalize (id :: ids). clear id ids. intros ids.
  unfold causalAnswer. destruct (scanIDs _ _ _ _ _) as [[[additional selected] unknown] []]; [by intros [= <- <-] |].
  destruct selected as [selected|].
  - case_if; [by intros [= <- <-] |]. destruct (ValidateSelection c selected) as [[err|]|]; cbn [mbind go_bind]; [by intros [= <- <-] | | done].
    intros [= <- <-]. split; [done |]. cbn [causalConsumed causalDirectives]. apply union_subseteq. split; [| done].
    intros id [Hid _]%elem_of_list_to_set%list_elem_of_filter. rewrite <- H1. by apply elem_of_dom.
  - destruct (ValidateSelection c _) as [[err|]|]; cbn [mbind go_bind]; [by apply Hdraw | by intros [= <- <-] | done].
Qed.

Lemma execute_consistent {R} D fuel (prog : program R) p p' v :
  consistent D p → execute fuel prog p = Done (Some (p', v)) → consistent D p'.
Proof.
  revert p. induction prog as [x|c k IH]; intros p Hp; cbn [execute]; [by intros [= <- <-] |].
  cbn [Choose causal_decider]. destruct (causalChoose fuel p c) as [[[p1 [err|s]]|]|] eqn:E; cbn [mbind go_bind]; try done;
    apply IH; by eapply causalChoose_consistent.
Qed.

Lemma zlen_member k v : zlen (encode_member k v) = zlen (encode_string k) + 1 + zlen v.
Proof. unfold encode_member. rewrite !zlen_app. change (zlen [x3a]) with 1. lia. Qed.

(** The report that replaces an invalid one. *)
Lemma empty_report_valid directives projected :
  0 ≤ projected ≤ directives → directives ≤ Scenario.MaxDecisions →
  CausalReportValidate (mkCausalReport CausalReplaySchema ProjectionFailed directives projected (Some []) (Some [])) = None.
Proof.
  intros Hp Hd. unfold CausalReportValidate. cbv zeta. cbn [CrSchema CrFidelity CrDirectives CrProjected CrAdditional CrUnmatched items default from_option id].
  rewrite !check_none, !orb_false_iff, !Z.ltb_ge. split_and!; try done; try lia.
  { rewrite zlen_nil. lia. }
  pose proof (encode_int_length directives ltac:(lia)) as L1. pose proof (encode_int_length projected ltac:(lia)) as L2.
  unfold marshalCausalReport, encode_object. cbn [sep_by CrSchema CrFidelity CrDirectives CrProjected CrAdditional CrUnmatched].
  rewrite !zlen_app, !zlen_member.
  change Scenario.DefaultMaxArtifactBytes with 67108864. change Scenario.MaxDecisions with 100000 in Hd.
  repeat match goal with |- context [zlen (encode_string ?s)] =>
    let n := eval vm_compute in (zlen (encode_string s)) in change (zlen (encode_string s)) with n end.
  change (zlen (marshalStrings (Some []))) with 2. change (zlen (AppOracle.marshal_list marshalCausalDirective (Some []))) with 2.
  change (zlen [x7b]) with 1. change (zlen [x7d]) with 1. change (zlen [x2c]) with 1. lia.
Qed.

Lemma operations_texts additional :
  NoDup additional → operationSet (sort_nodes additional) = true ↔ Forall (λ id, boundedOperation id = true) additional.
Proof.
  intros Hnd. rewrite operationSet_spec. split.
  - intros [H _]. rewrite Forall_forall in *. intros x Hx. apply H. by apply elem_of_sort_nodes.
  - intros H. split; [| by apply sort_nodes_sorted_set]. rewrite Forall_forall in *. intros x Hx. apply H. by apply elem_of_sort_nodes.
Qed.

(** The report of a consistent projector fails its validation only by what it lists as
    additional and by its size. *)
Lemma causalReport_valid ds D p :
  keyed D → (∀ id d, D !! id = Some d → d ∈ ds) → ValidateCausalDirectives ds = None → zlen ds ≤ Scenario.MaxDecisions →
  Z.of_nat (size D) ≤ zlen ds → consistent D p →
  CausalReportValidate (causalReport p) = None ↔
  Forall (λ id, boundedOperation id = true) (elements (causalAdditional p)) ∧
  zlen (marshalCausalReport (causalReport p)) ≤ Scenario.DefaultMaxArtifactBytes.
Proof.
  intros Hk HD Hv Hmax Hsize [H1 H2]. unfold CausalReportValidate. cbv zeta.
  rewrite !check_none, !orb_false_iff, !Z.ltb_ge.
  unfold causalReport. rewrite H1. cbv zeta. fold (leftover D (causalConsumed p)).
  cbn [CrSchema CrFidelity CrDirectives CrProjected CrAdditional CrUnmatched items default from_option id].
  pose proof (leftover_count D (causalConsumed p) Hk H2) as Hcount. pose proof (zlen_nonneg (leftover D (causalConsumed p))) as Hz.
  set (additional := sort_nodes (elements (causalAdditional p))).
  assert (operationSet additional = true ↔ Forall (λ id, boundedOperation id = true) (elements (causalAdditional p))) as Ho.
  { apply operations_texts, NoDup_elements. }
  split.
  - intros (_ & _ & _ & _ & Hop%negb_false_iff & _ & _ & _ & _ & Hs & _). split; [by apply Ho | exact Hs].
  - intros [Hop Hs]. split_and!; try done; try lia.
    + rewrite negb_false_iff. destruct (bool_decide (causalFailed p ≠ None)); [done |]. by destruct (_ || _).
    + by apply negb_false_iff, Ho.
    + rewrite (leftover_valid ds D) by done. done.
    + destruct (bool_decide (causalFailed p ≠ None)); [reflexivity |]. destruct (is_nil additional); [| reflexivity].
      destruct (leftover D (causalConsumed p)) as [|d l] eqn:E; [| reflexivity].
      rewrite zlen_nil in Hcount. cbn [is_nil negb orb]. apply andb_false_iff. right. rewrite negb_false_iff. lia.
    + destruct (bool_decide (causalFailed p ≠ None)); [reflexivity |].
      destruct (is_nil additional), (is_nil (leftover D (causalConsumed p))); reflexivity.
Qed.

(** Reports of causal projectors are valid documents.  However a program is run on a projector
    of at most [MaxDecisions] directives, its report passes the validation; it is the
    accounting of the projector unless an additional identifier exceeds what an operation
    identifier may be, or the text exceeds the limit of a document: then an empty report of
    a failure stands in, even when no choice failed. *)
Theorem causal_report_always_valid {R} fuel ds seed (prog : program R) p0 p v :
  NewCausalProjector ds seed = inr p0 → zlen ds ≤ Scenario.MaxDecisions → execute fuel prog p0 = Done (Some (p, v)) →
  CausalReportValidate (CausalFinish p) = None ∧
  (CausalFinish p = causalReport p ↔
    Forall (λ id, boundedOperation id = true) (elements (causalAdditional p)) ∧
    zlen (marshalCausalReport (causalReport p)) ≤ Scenario.DefaultMaxArtifactBytes).
Proof.
  unfold NewCausalProjector. destruct (ValidateCausalDirectives ds) eqn:Hv; [done |]. intros [= <-] Hmax Hex.
  set (D := list_to_map ((λ d, (OperationID d, d)) <$> ds) : gmap string CausalDirective) in *.
  assert (consistent D p) as Hp by (eapply execute_consistent; [| exact Hex]; split; [done | set_solver]).
  assert (∀ id d, D !! id = Some d → OperationID d = id ∧ d ∈ ds) as HD.
  { intros id d Hd. apply elem_of_list_to_map_2, list_elem_of_fmap in Hd as (d' & [= -> ->] & Hd). by split. }
  assert (keyed D) as Hk by (intros id d Hd; by apply HD).
  assert (Z.of_nat (size D) ≤ zlen ds) as Hsize.
  { unfold D. rewrite map_size_list_to_map; [unfold zlen; by rewrite length_fmap |].
    apply ValidateCausalDirectives_none, validateCausalLoop_spec in Hv as (_ & Hs & _). rewrite <- list_fmap_compose. by apply sorted_set_NoDup. }
  rewrite <- (causalReport_valid ds D p Hk (λ id d Hd, proj2 (HD id d Hd)) Hv Hmax Hsize Hp).
  unfold CausalFinish. destruct (CausalReportValidate (causalReport p)) as [err|] eqn:E; [| by rewrite E].
  assert (CausalReportValidate (mkCausalReport CausalReplaySchema ProjectionFailed (CrDirectives (causalReport p)) (CrProjected (causalReport p)) (Some []) (Some [])) = None) as Hempty.
  { destruct Hp as [H1 H2]. apply empty_report_valid; unfold causalReport; rewrite H1; cbn [CrDirectives CrProjected]; [| lia].
    apply subseteq_size in H2. rewrite size_dom in H2. lia. }
  split; [done |]. split; [| done]. intros Heq. by rewrite Heq, E in Hempty.
Qed.

(** A fixed choice whose identifier is longer than an operation identifier is answered without
    a failure, and yet the report is that of a failed projection. *)
Definition long_choice : Choice :=
  mkChoice (String.string_of_list_byte (replicate 129 x61)) "storage_latency" [] (Some 3) (Some 3) [].

Lemma long_identifier_fails_report :
  match NewCausalProjector [] 0 with
  | inl _ => False
  | inr p =>
    match causalChoose 0 p long_choice with
    | Done (Some (p', inr s)) =>
      s = mkSelection "" (Some 3) ∧ causalFailed p' = None ∧ CrFidelity (causalReport p') = ProjectionPartial ∧
      CrFidelity (CausalFinish p') = ProjectionFailed
    | _ => False
    end
  end.
Proof. vm_compute. by split_and!. Qed.

(** ** Witnesses: two operations, replayed in the other order beside a third one *)

Definition demo_causal_context (ids : list string) : bytes :=
  encode_object [encode_member "causal" (encode_bool true); encode_member "operation_ids" (encode_array (map encode_string ids))].
Definition demo_attempt (id : string) (ids : list string) : Choice :=
  mkChoice id "network_loss" [mkOption "deliver" 3; mkOption "drop" 1] None None (demo_causal_context ids).

Definition demo_causal_source : Tape := mkTape SchemaVersion
  [entry_of_choice (demo_attempt "1" ["op-a"]) (mkSelection "drop" None);
   entry_of_choice (demo_attempt "2" ["op-b"; "op-c"]) (mkSelection "deliver" None)].
Definition demo_causal_target : Tape := mkTape SchemaVersion
  [entry_of_choice (demo_attempt "7" ["op-b"; "op-z"]) (mkSelection "deliver" None);
   entry_of_choice (demo_attempt "8" ["op-a"]) (mkSelection "drop" None);
   entry_of_choice (demo_attempt "9" ["op-a"]) (mkSelection "drop" None)].
Definition demo_causal_directives : list CausalDirective :=
  [mkCausalDirective "op-a" [0] (mkSelection "drop" None); mkCausalDirective "op-b" [1] (mkSelection "deliver" None);
   mkCausalDirective "op-c" [1] (mkSelection "deliver" None)].
Definition demo_raw_outcome : Outcome.Outcome := Outcome.mkOutcome Outcome.OutcomeCompleted 12 1000000000 demo_hash "" [].
Definition demo_causal_evidence : CausalReplayEvidence :=
  mkCausalEvidence CausalEvidenceSchema demo_hash (Scenario.mkAdapter "left" "1") (Scenario.mkAdapter "right" "1") 5
    demo_causal_source demo_causal_target demo_raw_outcome demo_raw_outcome
    (mkCausalReport CausalReplaySchema ProjectionPartial 3 2 (Some ["op-z"])
       (Some [mkCausalDirective "op-c" [1] (mkSelection "deliver" None)])).

Lemma demo_causal_directives_ok : CausalDirectivesFromTape demo_causal_source = Done (inr demo_causal_directives).
Proof. vm_compute. reflexivity. Qed.

Lemma causal_evidence_one_disposition_witness :
  CausalEvidenceValidate demo_encode 9 demo_causal_evidence = Done (Some None) ∧
  CrProjected (CeReport demo_causal_evidence) + zlen (items (CrUnmatched (CeReport demo_causal_evidence))) =
    CrDirectives (CeReport demo_causal_evidence).
Proof.
  assert (CausalEvidenceValidate demo_encode 9 demo_causal_evidence = Done (Some None)) as H by (vm_compute; reflexivity).
  split; [exact H |]. destruct (causal_evidence_one_disposition demo_encode 9 demo_causal_evidence H) as (_ & _ & R & _). exact R.
Defined.

Lemma demo_attempt_operations :
  operations (demo_attempt "7" ["op-b"; "op-c"]) = ["op-b"; "op-c"] ∧ operations (demo_attempt "8" ["op-a"]) = ["op-a"] ∧
  choiceOperationContext (demo_attempt "7" ["op-b"; "op-c"]) = Some (["op-b"; "op-c"], true) ∧
  choiceOperationContext (demo_attempt "8" ["op-a"]) = Some (["op-a"], true) ∧
  operations (demo_attempt "1" ["op-a"]) = ["op-a"] ∧ operations (demo_attempt "2" ["op-b"; "op-c"]) = ["op-b"; "op-c"].
Proof. vm_compute. by split_and!. Qed.

Lemma causal_replay_reproduces_witness :
  ∃ p p', NewCausalProjector demo_causal_directives 5 = inr p ∧
    causalEntries 0 p [entry_of_choice (demo_attempt "7" ["op-b"; "op-c"]) (mkSelection "deliver" None);
                       entry_of_choice (demo_attempt "8" ["op-a"]) (mkSelection "drop" None)] = Done (Some (inr p')) ∧
    CrAdditional (causalReport p') = Some [].
Proof.
  destruct demo_attempt_operations as (O7 & O8 & C7 & C8 & O1 & O2).
  destruct (causal_replay_reproduces 0 demo_causal_source demo_causal_directives 5
    [entry_of_choice (demo_attempt "7" ["op-b"; "op-c"]) (mkSelection "deliver" None);
     entry_of_choice (demo_attempt "8" ["op-a"]) (mkSelection "drop" None)] demo_causal_directives_ok) as (p & p' & H1 & H2 & H3 & _).
  - constructor; [| constructor; [| constructor]]; cbn [entry_of_choice EnChoice EnSelection]; unfold causal_loss; rewrite ?O7, ?O8.
    + split; [vm_compute; reflexivity |]. split; [by split |]. split; [done |]. intros id Hid.
      exists (entry_of_choice (demo_attempt "2" ["op-b"; "op-c"]) (mkSelection "deliver" None)).
      split; [right; left |]. split; [| reflexivity]. cbn [entry_of_choice EnChoice]. by rewrite O2.
    + split; [vm_compute; reflexivity |]. split; [by split |]. split; [done |]. intros id Hid.
      exists (entry_of_choice (demo_attempt "1" ["op-a"]) (mkSelection "drop" None)).
      split; [left |]. split; [| reflexivity]. cbn [entry_of_choice EnChoice]. by rewrite O1.
  - exists p, p'. split; [exact H1 |]. split; [exact H2 | exact H3].
Defined.

Definition demo_causal_projector : CausalProjector :=
  match NewCausalProjector demo_causal_directives 5 with inr p => p | inl _ => mkCausalProjector ∅ ∅ ∅ (NewSeedDecider 0) None end.
Definition demo_causal_program : program unit :=
  Ask (demo_attempt "8" ["op-a"]) (λ _, Ask long_choice (λ _, Return tt)).
Definition demo_causal_after : CausalProjector :=
  match execute 0 demo_causal_program demo_causal_projector with Done (Some (p, _)) => p | _ => demo_causal_projector end.

Lemma causal_report_always_valid_witness :
  CausalReportValidate (CausalFinish demo_causal_after) = None.
Proof.
  assert (NewCausalProjector demo_causal_directives 5 = inr demo_causal_projector) as H.
  { assert (match NewCausalProjector demo_causal_directives 5 with inr _ => true | inl _ => false end = true) as E by (vm_compute; reflexivity).
    unfold demo_causal_projector. destruct (NewCausalProjector demo_causal_directives 5); [discriminate E | reflexivity]. }
  assert (execute 0 demo_causal_program demo_causal_projector = Done (Some (demo_causal_after, tt))) as Hex.
  { assert (match execute 0 demo_causal_program demo_causal_projector with Done (Some _) => true | _ => false end = true) as E by (vm_compute; reflexivity).
    unfold demo_causal_after. destruct (execute 0 demo_causal_program demo_causal_projector) as [[[p []]|]|]; [reflexivity | discriminate E | discriminate E]. }
  assert (zlen demo_causal_directives ≤ Scenario.MaxDecisions) as Hlen by (apply Z.leb_le; vm_compute; reflexivity).
  destruct (causal_report_always_valid 0 demo_causal_directives 5 demo_causal_program demo_causal_projector demo_causal_after tt H Hlen Hex) as [Hv _].
  exact Hv.
Defined.
