(* ===== verification/Canonical.v ===== *)
(** * Canonical states (network.go, raftsim/cluster.go)

    The exact, order-independent picture of a router and of a cluster between two events,
    from which the explorer recognizes a state it has seen.  The parts have their own
    ([Simulator.CanonicalState], [Check.State], [Node.State], [Rand.State]); the last step,
    the JSON text of the picture, is [encoding/json]'s. *)

From S2P Require Import Prelude RaftTypes Membership Outcome.
From S2P Require Import Cluster.
From S2P Require Node Simulator Network Decision Check AppOracle Rand.
From Stdlib Require Import QArith.QArith.
From stdpp Require Import options.

#[global] Open Scope Z_scope.

(** ** The bits of a float64

    [math.Float64bits] of the rational a float64 denotes: sign, biased exponent, fraction.
    Below the smallest normal exponent the number is subnormal. *)

Definition exponentOf (num den : Z) : Z :=
  let e := Z.log2 num - Z.log2 den in
  let below := if 0 <=? e then num <? den * 2 ^ e else num * 2 ^ (- e) <? den in
  if below then e - 1 else e.

Definition magnitudeBits (num den : Z) : Z :=
  if num =? 0 then 0
  else
    let e := Z.max (exponentOf num den) (-1022) in
    let shift := 52 - e in
    let mantissa := if 0 <=? shift then num * 2 ^ shift / den else num / (den * 2 ^ (- shift)) in
    if mantissa <? 2 ^ 52 then mantissa else (e + 1023) * 2 ^ 52 + (mantissa - 2 ^ 52).

Definition Float64bits (f : Rand.float64) : Z :=
  match f with
  | Rand.FNaN => 9221120237041090561
  | Rand.FInf negative => (if negative then 2 ^ 63 else 0) + 2047 * 2 ^ 52
  | Rand.FQ q => (if (Qnum q <? 0)%Z then 2 ^ 63 else 0) + magnitudeBits (Z.abs (Qnum q)) (Z.pos (Qden q))
  end.

(** ** The router *)

Definition RouterStateSchema : string := "d-raft.router-state/v1".

Record CanonicalLinkState := mkCanonicalLink {
  ClFrom : string; ClTo : string; ClMinLatencyNS : Z; ClMaxLatencyNS : Z; LossProbabilityBits : Z }.
Record CanonicalRouteState := mkCanonicalRoute { RtFrom : string; RtTo : string }.

Record RouterState := mkRouterState {
  RoSchema : string; RoDefaultLink : CanonicalLinkState; RoLinks : list CanonicalLinkState;
  RoEndpoints : list string; PartitionActive : bool; PartitionNodes : list string;
  RoAllowed : list CanonicalRouteState; RoNextPacket : Z; RoExhausted : bool; RoRandom : Rand.RandState }.

Definition canonicalLink (from to : string) (link : Network.LinkConfig) : CanonicalLinkState :=
  mkCanonicalLink from to (Network.MinLatency link) (Network.MaxLatency link)
    (Float64bits (Network.LossProbability link)).

(** The two comparisons: by source, then by target. *)
Definition by_ends (l r : string * string) : Prop :=
  if decide (l.1 = r.1) then String.le l.2 r.2 else String.le l.1 r.1.
#[export] Instance by_ends_dec : RelDecision by_ends.
Proof. intros l r. unfold by_ends. destruct (decide (l.1 = r.1)); apply _. Defined.

Definition link_le (l r : CanonicalLinkState) : Prop := by_ends (ClFrom l, ClTo l) (ClFrom r, ClTo r).
Definition route_le (l r : CanonicalRouteState) : Prop := by_ends (RtFrom l, RtTo l) (RtFrom r, RtTo r).
#[export] Instance link_le_dec : RelDecision link_le := λ l r, by_ends_dec _ _.
#[export] Instance route_le_dec : RelDecision route_le := λ l r, by_ends_dec _ _.

Section router.
Context {M H X D : Type}.

(** The observer is the history of the network ([Network.observed]), which is not part of
    the code's state; the trace sink is nil. *)
Definition RouterCanonicalState (w : Network.Net M H X D) : Network.NetError + RouterState :=
  let r := Network.router w in
  match Network.eventTagger r with
  | None => inl Network.ErrUncacheableRouter
  | Some _ =>
    let links := merge_sort link_le
      (map (λ kl, canonicalLink kl.1.1 kl.1.2 kl.2) (map_to_list (Network.links r))) in
    let state active nodes allowed :=
      mkRouterState RouterStateSchema (canonicalLink "" "" (Network.defaultLink r)) links
        (sort_nodes (map fst (map_to_list (Network.handlers r)))) active nodes allowed (Network.nextPacket r)
        (Network.r_exhausted r) (Rand.State (Some (Network.rng w))) in
    inr match Network.partition r with
        | None => state false [] []
        | Some m =>
          state true (slices_Clone (Network.nodes m))
            (merge_sort route_le (map (λ k, mkCanonicalRoute k.1 k.2) (elements (Network.allowed m))))
        end
  end.
End router.

(** ** The cluster *)

Definition CanonicalStateSchema : string := "d-raft.raftsim-state/v1".

Record queuedInputState := mkQueuedState {
  QsInput : Input; QsIncarnation : Z; QsTimer : timerKind; QsGeneration : Z }.

Record processState := mkProcessState {
  PsID : NodeID; PsUp : bool; PsIncarnation : Z; PsStore : Store; PsRandom : Rand.RandState;
  PsMailbox : list queuedInputState; PsElectionEvent : Z; PsElectionGeneration : Z;
  PsHeartbeatEvent : Z; PsHeartbeatGeneration : Z; PsPersistEvent : Z; PsPersistAckEvent : Z;
  PsPersistGeneration : Z; PsCrashAfterPersist : bool; PsSendSequence : Z; PsNode : option Node.NodeState }.

Record clusterState := mkClusterState {
  ClSchema : string; ClBootstrapped : bool; ClMembers : list NodeID; ClSimulator : Simulator.SimulatorState;
  ClRouter : RouterState; ClProcesses : list processState; ClChecker : Check.CheckerState;
  ClViolations : list Violation; ClError : string }.

Definition cloneInput (input : Input) : Input :=
  match input with
  | InputMessage message => InputMessage (CloneMessage message)
  | InputProposal data => InputProposal (slices_Clone data)
  | InputSnapshot index data => InputSnapshot index (slices_Clone data)
  | InputBeginMembership voters learners => InputBeginMembership (slices_Clone voters) (slices_Clone learners)
  | InputElectionTimeout | InputHeartbeatTimeout | InputPersisted _ | InputFinalizeMembership | InputUnknown _ => input
  end.

Definition queuedState (q : queuedInput) : queuedInputState :=
  mkQueuedState (cloneInput (q_input q)) (q_incarnation q) (q_timer q) (q_generation q).

Definition processStateOf (id : NodeID) (p : process) : processState :=
  mkProcessState id (p_up p) (p_incarnation p) (cloneStore (p_store p)) (Rand.State (Some (p_random p)))
    (map queuedState (p_mailbox p)) (p_electionEvent p) (p_electionGeneration p) (p_heartbeatEvent p)
    (p_heartbeatGeneration p) (p_persistEvent p) (p_persistAckEvent p) (p_persistGeneration p)
    (p_crashAfterPersist p) (p_sendSequence p) (Node.State <$> p_node p).

(** A missing process is a nil pointer. *)
Fixpoint processStates (processes : gmap NodeID process) (ids : list NodeID) : go (list processState) :=
  match ids with
  | [] => Done []
  | id :: ids =>
    match processes !! id with
    | None => Panic
    | Some p => rest ← processStates processes ids; Done (processStateOf id p :: rest)
    end
  end.

Section cluster.
Context {D : Type}.
Context (errorText : ClusterError → string) (marshalClusterState : clusterState → option bytes).

Definition clusterStateOf (c : Cluster D) : go (ClusterError + clusterState) :=
  match Application (c_config c) with
  | Some _ => Done (inl ErrUncacheableState)
  | None =>
    simulatorState ← Simulator.CanonicalState (c_sim c);
    match simulatorState with
    | inl _ => Done (inl ErrUncacheableState)
    | inr simulatorState =>
      match RouterCanonicalState (c_net c) with
      | inl _ => Done (inl ErrUncacheableState)
      | inr routerState =>
        processes ← processStates (c_processes c) (c_members c);
        Done (inr (mkClusterState CanonicalStateSchema (c_bootstrapped c) (slices_Clone (c_members c)) simulatorState
                     routerState processes (Check.State (c_checker c)) (Check.cloneViolations (c_violations c))
                     match c_err c with Some err => errorText err | None => "" end))
      end
    end
  end.

Definition CanonicalState (c : Cluster D) : go (ClusterError + bytes) :=
  state ← clusterStateOf c;
  Done match state with
       | inl err => inl err
       | inr state =>
         match marshalClusterState state with Some raw => inr raw | None => inl ErrEncoding end
       end.
End cluster.
