(* ===== verification/Experiment.v ===== *)
(** * Running experiments (experiment/experiment.go)

    A scenario is run against a cluster: its actions are callbacks on the cluster's
    scheduler, the loop steps the cluster up to the scenario's end or step budget, and the
    outcome says how it ended, with a digest of what can be observed.  The action callbacks
    share one variable, the first error of an action.

    JSON texts that [encoding/json] writes by reflection and the texts of errors are
    parameters. *)

From S2P Require Import Prelude RaftTypes Membership Outcome Scenario Artifact.
From S2P Require Import Cluster Canonical.
From S2P Require Node Simulator Network Decision Check AppOracle Sha256.
From Stdlib Require Import QArith.QArith.
From stdpp Require Import options.

#[global] Open Scope Z_scope.

Definition FrontierSchemaVersion : string := "d-raft.reference-frontier/v1".
Definition ApplicationObservationSchemaVersion : string := "d-raft.reference-app-observation/v1".

(** ** Errors *)

Inductive ExperimentError :=
| ErrArtifact (e : ArtifactError)
| ErrCluster (e : ClusterError)
| ErrApplicationConfig (e : AppOracle.AppError)
| ErrInvalidProposal (e : AppOracle.AppError)
| ErrDuplicateProposal (id : bytes)
| ErrPortableSnapshot
| ErrUnknownAction (kind : string)
| ErrNilDecider
| ErrInvalidPreEvent
| ErrMarshal.

(** [errors.Is(err, decision.ErrOpenChoice)] *)
Definition isOpenChoice (err : ExperimentError) : bool :=
  match err with
  | ErrCluster (ErrDecision (Decision.ErrOpenChoice _ _)) => true
  | ErrCluster (ErrNet (Network.ErrCallback 5)) => true
  | _ => false
  end.

Definition openChoice (err : option ExperimentError) : bool :=
  match err with Some err => isOpenChoice err | None => false end.

(** ** Observations *)

Record nodeSnapshot := mkNodeSnapshot {
  NnID : NodeID; NnUp : bool; NnStatus : option Node.Status_; NnStore : Store }.

Record observationSnapshot := mkObservationSnapshot {
  ObAtNS : Z; ObNodes : list nodeSnapshot; ObViolations : list Violation }.

Record applicationNodeSnapshot := mkApplicationNode {
  AnID : NodeID; AnUp : bool; AnStatus : option Node.Status_; AnStore : Store;
  AnApplication : AppOracle.Commitment }.

Record applicationObservationSnapshot := mkApplicationObservation {
  AoSchema : string; AoApplicationSchema : string; AoAtNS : Z; AoNodes : list applicationNodeSnapshot;
  AoViolations : list Violation }.

Record frontierState := mkFrontier {
  FrSchema : string; FrAdapter : Adapter; FrDecisionSchema : string; FrCheckerSchema : string;
  FrMessageCodec : string; FrScenario : Scenario; FrConfiguration : Configuration; FrStepsUsed : Z;
  FrPreEvent : bytes; FrInEvent : list Decision.Entry }.

Record Texts := mkTexts {
  marshalAction : Action → bytes;
  marshalObservation : observationSnapshot → option bytes;
  marshalApplicationObservation : applicationObservationSnapshot → option bytes;
  marshalFrontier : frontierState → option bytes;
  marshalClusterState : clusterState → option bytes;
  clusterErrorText : ClusterError → string;
  errorText : ExperimentError → string }.

(** [artifact.DigestJSON] of what was encoded. *)
Definition DigestJSON (encoded : option bytes) : ExperimentError + string :=
  match encoded with
  | None => inl ErrMarshal
  | Some encoded => inr (Sha256.hex_string (Sha256.Sha256.Sum256 encoded))
  end.

(** ** Scenarios of a portable application *)

Fixpoint checkPortable (snapshots : bool) (seen : gset bytes) (actions : list Action) : option ExperimentError :=
  match actions with
  | [] => None
  | action :: actions =>
    if String.eqb (ActKind action) ActionPropose then
      match AppOracle.DecodeCommand (ActData action) with
      | inl err => Some (ErrInvalidProposal err)
      | inr command =>
        if bool_decide (AppOracle.CID command ∈ seen) then Some (ErrDuplicateProposal (AppOracle.CID command))
        else checkPortable snapshots ({[AppOracle.CID command]} ∪ seen) actions
      end
    else if String.eqb (ActKind action) ActionSnapshot then
      if negb snapshots || negb (zlen (ActData action) =? 0) then Some ErrPortableSnapshot
      else checkPortable snapshots seen actions
    else checkPortable snapshots seen actions
  end.

Definition validateApplicationScenario (scenario : Scenario) (snapshots : bool) : option ExperimentError :=
  checkPortable snapshots ∅ (Actions scenario).

Definition cloneAction (action : Action) : Action :=
  mkAction (ActAtNS action) (ActKind action) (ActNode action) (slices_Clone (ActData action))
    (map slices_Clone (ActGroups action)) (slices_Clone (ActVoters action)) (slices_Clone (ActLearners action))
    (actVotersPresent action) (actLearnersPresent action).

(** ** Frontiers *)

Definition encodeFrontier (texts : Texts) (scenario : Scenario) (configuration : Configuration) (steps : Z)
    (preEvent : bytes) (inEvent : list Decision.Entry) : ExperimentError + bytes :=
  if negb (Json.json_valid preEvent) then inl ErrInvalidPreEvent
  else
    match marshalFrontier texts
            (mkFrontier FrontierSchemaVersion (mkAdapter ReferenceAdapterID ReferenceAdapterCurrent)
               Decision.SchemaVersion Check.SchemaVersion MessageCodecCurrent scenario configuration steps
               preEvent inEvent) with
    | Some raw => inr raw
    | None => inl ErrMarshal
    end.

(** What an execution returns: an outcome; a frontier with the open choice; an error. *)
Inductive executed :=
| Finished (outcome : Outcome)
| OpenFrontier (frontier : bytes) (err : ExperimentError)
| Failed (err : ExperimentError).

Section experiment.
Context {D : Type} `{!Decision.Decider D}.
Context (enc : Encoders) (texts : Texts) (fuel : nat).

Abbreviation Cluster := (Cluster D).
Abbreviation M := (M D).

(** ** Actions *)

Definition call (m : M unit) : M (option ExperimentError) :=
  r ← try m; mret (match r with inl err => Some (ErrCluster err) | inr _ => None end).

Definition applyAction (action : Action) : M (option ExperimentError) :=
  let kind_is := String.eqb (ActKind action) in
  let anyNode := String.eqb (ActNode action) "" in
  if kind_is ActionPropose then
    call (if anyNode then Propose enc fuel (ActData action) else ProposeTo enc fuel (ActNode action) (ActData action))
  else if kind_is ActionCrash then call (Crash enc (ActNode action))
  else if kind_is ActionRestart then call (Restart enc fuel (ActNode action))
  else if kind_is ActionCrashAfterNextPersist then call (CrashAfterNextPersist (ActNode action))
  else if kind_is ActionSnapshot then call (Cluster.Snapshot enc fuel (ActNode action) (ActData action))
  else if kind_is ActionBeginMembership then
    call (if anyNode then BeginMembershipChange enc fuel (ActVoters action) (ActLearners action)
          else BeginMembershipChangeTo enc fuel (ActNode action) (ActVoters action) (ActLearners action))
  else if kind_is ActionFinalizeMembership then
    call (if anyNode then FinalizeMembershipChange enc fuel
          else FinalizeMembershipChangeTo enc fuel (ActNode action))
  else if kind_is ActionPartition then call (Partition (ActGroups action))
  else if kind_is ActionHeal then call Heal
  else mret (Some (ErrUnknownAction (ActKind action))).

(** The callback of an action: [actionErr] is the variable the callbacks share. *)
Definition performAction (application : bool) (action : Action) (actionErr : option ExperimentError)
    : M (option ExperimentError) :=
  match actionErr with
  | Some err => mret (Some err)
  | None =>
    if application && String.eqb (ActKind action) ActionSnapshot
    then call (SnapshotApplication enc fuel (ActNode action))
    else applyAction action
  end.

(** The callbacks are numbered by the position of their action. *)
Definition actionCallback (application : bool) (actions : list Action) (n : nat)
    (actionErr : option ExperimentError) : M (option ExperimentError) :=
  match actions !! n with
  | Some action => performAction application (cloneAction action) actionErr
  | None => panic
  end.

Fixpoint scheduleActions (n : nat) (actions : list Action) : M unit :=
  match actions with
  | [] => mret tt
  | source :: actions =>
    let action := cloneAction source in
    r ← on_sim (λ s, Simulator.ScheduleAtTagged s (ActAtNS action)
                       (Heap.mkTag "external_action" (marshalAction texts action)) (Some (inr (userCallback n))));
    _ ← check ErrSim r;
    scheduleActions (S n) actions
  end.

(** ** Digests of what can be observed *)

(** The status of a live node; a node that is down has none. *)
Definition liveStatus (id : NodeID) : M (bool * option Node.Status_) :=
  status ← try (Status id);
  match status with
  | inl ErrNodeDown => mret (false, None)
  | inl err => raise err
  | inr status => mret (true, Some status)
  end.

Fixpoint snapshotNodes (ids : list NodeID) : M (list nodeSnapshot) :=
  match ids with
  | [] => mret []
  | id :: ids =>
    store ← Store_ id;
    '(up, status) ← liveStatus id;
    rest ← snapshotNodes ids;
    mret (mkNodeSnapshot id up status store :: rest)
  end.

Definition snapshotDigest (violations : list Violation) : M (ExperimentError + string) :=
  now ← gets c_now;
  members ← gets Members;
  nodes ← snapshotNodes members;
  mret (DigestJSON (marshalObservation texts (mkObservationSnapshot now nodes (slices_Clone violations)))).

Fixpoint applicationNodes (ids : list NodeID) : M (list applicationNodeSnapshot) :=
  match ids with
  | [] => mret []
  | id :: ids =>
    store ← Store_ id;
    commitment ← ApplicationCommitment enc id;
    '(up, status) ← liveStatus id;
    rest ← applicationNodes ids;
    mret (mkApplicationNode id up status store commitment :: rest)
  end.

Definition applicationSnapshotDigest (violations : list Violation) : M (ExperimentError + string) :=
  now ← gets c_now;
  members ← gets Members;
  nodes ← applicationNodes members;
  mret (DigestJSON (marshalApplicationObservation texts
    (mkApplicationObservation ApplicationObservationSchemaVersion AppOracle.CommandSchema now nodes
       (slices_Clone violations)))).

(** ** The loop *)

(** The variables of the loop that live on after it. *)
Record progress := mkProgress {
  pg_steps : Z; pg_actionErr : option ExperimentError; pg_runErr : option ExperimentError; pg_exhausted : bool }.

(** The recorder of a controlled execution, when there is one: the entries recorded in the
    state of the decider. *)
Context (recorder : option (D → list Decision.Entry)).

Definition recorded : M (list Decision.Entry) :=
  decider ← gets c_decider;
  match recorder, decider with
  | Some entries, Some d => mret (entries d)
  | _, _ => mret []
  end.

(** The state before an event and the number of decisions so far, for a recorder only. *)
Definition beforeEvent : M (ClusterError + bytes * nat) :=
  match recorder with
  | None => mret (inr ([], 0%nat))
  | Some _ =>
    c ← gets (λ c, c);
    state ← lift (CanonicalState (clusterErrorText texts) (marshalClusterState texts) c);
    match state with
    | inl err => mret (inl err)
    | inr preEvent => entries ← recorded; mret (inr (preEvent, length entries))
    end
  end.

(** [decisionsSince]: [Recorder.Suffix] in range. *)
Definition decisionsSince (before : nat) : M (list Decision.Entry) :=
  entries ← recorded;
  mret (Decision.cloneEntries (drop before entries)).

Section run.
Context (scenario : Scenario) (configuration : Configuration) (application : bool).

Abbreviation callback := (actionCallback application (Actions scenario)).

(** [inl]: the execution returns from inside the loop.  [None]: out of [limit]. *)
Fixpoint stepLoop (limit : nat) (steps : Z) (actionErr : option ExperimentError)
    : M (option (executed + progress)) :=
  match limit with
  | O => mret None
  | S limit =>
    if bool_decide (is_Some actionErr) then mret (Some (inr (mkProgress steps actionErr None false)))
    else
      s ← gets c_sim;
      '(next, exists_) ← lift (Simulator.NextEventTime s);
      if negb exists_ || (DurationNS scenario <? next) then
        mret (Some (inr (mkProgress steps actionErr None false)))
      else if steps =? ScMaxSteps scenario then mret (Some (inr (mkProgress steps actionErr None true)))
      else
        pre ← beforeEvent;
        match pre with
        | inl err => mret (Some (inl (Failed (ErrCluster err))))
        | inr (preEvent, before) =>
          '(actionErr, (ran, err)) ← Cluster.Step enc fuel callback actionErr;
          let after := if (ran : bool) then wrap64 (steps + 1) else steps in
          let err := ErrCluster <$> err in
          let openErr := match err with
                         | Some err => Some err
                         | None => if openChoice actionErr then actionErr else None
                         end in
          match (if bool_decide (is_Some recorder) && openChoice openErr then openErr else None) with
          | Some openErr =>
            inEvent ← decisionsSince before;
            mret (Some (inl match encodeFrontier texts scenario configuration steps preEvent inEvent with
                            | inl err => Failed err
                            | inr frontier => OpenFrontier frontier openErr
                            end))
          | None =>
            match err with
            | Some err => mret (Some (inr (mkProgress after actionErr (Some err) false)))
            | None => stepLoop limit after actionErr
            end
          end
        end
  end.

(** The rest of the time, when the loop did not end early.  [None]: as in [RunUntil]. *)
Definition finishTime (limit : nat) (p : progress) : M (option progress) :=
  match pg_runErr p, pg_actionErr p, pg_exhausted p with
  | None, None, false =>
    r ← RunUntil enc fuel callback limit (DurationNS scenario) None;
    mret match r with
         | None => None
         | Some (actionErr, (additional, err)) =>
           Some (mkProgress (wrap64 (pg_steps p + additional)) actionErr (ErrCluster <$> err) false)
         end
  | _, _, _ => mret (Some p)
  end.

Definition outcomeOf (steps endNS : Z) (digest : string) (violations : list Violation)
    (runErr : option ExperimentError) (exhausted : bool) : Outcome :=
  let outcome status error := mkOutcome status steps endNS digest error violations in
  if 0 <? zlen violations then outcome OutcomeViolation ""
  else match runErr with
  | Some err => outcome OutcomeError (errorText texts err)
  | None => if exhausted then outcome OutcomeBudgetExhausted "" else outcome OutcomeCompleted ""
  end.

Definition conclude (p : progress) : M executed :=
  let runErr := match pg_actionErr p with Some err => Some err | None => pg_runErr p end in
  match (if openChoice runErr then runErr else None) with
  | Some err => mret (Failed err)
  | None =>
    violations ← gets Violations_;
    digest ← (if application then applicationSnapshotDigest violations else snapshotDigest violations);
    now ← gets c_now;
    mret match digest with
         | inl err => Failed err
         | inr digest => Finished (outcomeOf (pg_steps p) now digest violations runErr (pg_exhausted p))
         end
  end.

(** The loop takes one step of the scenario's budget at a time. *)
Definition stepLimit : nat := S (Z.to_nat (ScMaxSteps scenario)).

(** [None]: out of a limit, which [executeScheduledCore_ends] excludes. *)
Definition executeScheduledCore : M (option executed) :=
  _ ← scheduleActions 0 (Actions scenario);
  looped ← stepLoop stepLimit 0 None;
  match looped with
  | None => mret None
  | Some (inl result) => mret (Some result)
  | Some (inr p) =>
    finished ← finishTime stepLimit p;
    match finished with
    | None => mret None
    | Some p => result ← conclude p; mret (Some result)
    end
  end.
End run.
End experiment.

Section execute.
Context {D : Type} `{!Decision.Decider D}.
Context (enc : Encoders) (texts : Texts) (fuel : nat).

(** The result of a computation that drives a cluster, with the decider it leaves. *)
Definition executed_by (m : M D (option executed)) (c : Cluster D)
    : go (option (option D * (ExperimentError + executed))) :=
  r ← m c;
  Done (match r with
        | None | Some (_, inr None) => None
        | Some (c, inl err) => Some (c_decider c, inl (ErrCluster err))
        | Some (c, inr (Some result)) => Some (c_decider c, inr result)
        end).

(** [executeScheduled] and [executeScheduledApplication]: no recorder, so no frontier. *)
Definition executeScheduled (scenario : Scenario) (application : bool) (c : Cluster D)
    : go (option (option D * (ExperimentError + Outcome))) :=
  let configuration := mkConfiguration [] [] [] 0 0 0 (Rand.FQ 0%Q) 0 0 0 0 false false false in
  r ← executed_by (executeScheduledCore enc texts fuel None scenario configuration application) c;
  Done (match r with
        | None => None
        | Some (d, inl err) => Some (d, inl err)
        | Some (d, inr (Finished outcome)) => Some (d, inr outcome)
        | Some (d, inr (OpenFrontier _ err)) | Some (d, inr (Failed err)) => Some (d, inl err)
        end).

(** A new cluster, and what is done with it. *)
Definition withCluster {A} (config : ClusterConfig) (decider : option D)
    (run : Cluster D → go (option (option D * (ExperimentError + A))))
    : go (option (option D * (ExperimentError + A))) :=
  created ← Cluster.New enc fuel config decider;
  match created with
  | None => Done None
  | Some (d, inl err) => Done (Some (d, inl (ErrCluster err)))
  | Some (_, inr c) => run c
  end.

Definition Execute (scenario : Scenario) (configuration : Configuration) (decider : option D)
    : go (option (option D * (ExperimentError + Outcome))) :=
  if negb (ValidateExperiment scenario configuration) then
    Done (Some (decider, inl (ErrArtifact ErrInvalidArtifact)))
  else withCluster (ClusterConfig_ configuration) decider (executeScheduled scenario false).

Definition applicationConfig (config : ClusterConfig) (application : AppOracle.AppConfig) : ClusterConfig :=
  mkClusterConfig (CcMembers config) (CcVoters config) (CcLearners config) (Seed config) (CcNetwork config)
    (ElectionTimeoutMin config) (ElectionTimeoutMax config) (HeartbeatInterval config) (StorageLatency config)
    (StopOnViolation config) (Some application).

Definition ExecuteWithApplication (scenario : Scenario) (configuration : Configuration) (decider : option D)
    (application : AppOracle.AppConfig) : go (option (option D * (ExperimentError + Outcome))) :=
  if negb (ValidateExperiment scenario configuration) then
    Done (Some (decider, inl (ErrArtifact ErrInvalidArtifact)))
  else match AppOracle.ValidateConfig application with
  | Some err => Done (Some (decider, inl (ErrApplicationConfig err)))
  | None =>
    match validateApplicationScenario scenario true with
    | Some err => Done (Some (decider, inl err))
    | None =>
      withCluster (applicationConfig (ClusterConfig_ configuration) application) decider
        (executeScheduled scenario true)
    end
  end.
End execute.

(** ** Controlled executions *)

#[local] Existing Instance Decision.recorder_decider.

Section frontier.
Context {D : Type} `{!Decision.Decider D}.
Context (enc : Encoders) (texts : Texts) (fuel : nat).

(** The recorder wraps the decider; the cluster is paused, so that its state before the
    bootstrap is known when the bootstrap opens a choice. *)
Definition bootstrapFrontier (scenario : Scenario) (configuration : Configuration)
    : M (Decision.Recorder D) (option executed) :=
  pre ← beforeEvent texts (Some Decision.entries);
  match pre with
  | inl err => mret (Some (Failed (ErrCluster err)))
  | inr (preEvent, before) =>
    r ← try (Bootstrap enc fuel);
    match ErrCluster <$> match r with inl err => Some err | inr _ => None end with
    | Some err =>
      if isOpenChoice err then
        inEvent ← decisionsSince (Some Decision.entries) before;
        mret (Some match encodeFrontier texts scenario configuration 0 preEvent inEvent with
                   | inl err => Failed err
                   | inr frontier => OpenFrontier frontier err
                   end)
      else mret (Some (Failed err))
    | None => executeScheduledCore enc texts fuel (Some Decision.entries) scenario configuration false
    end
  end.

Definition ExecuteWithFrontier (scenario : Scenario) (configuration : Configuration) (decider : option D)
    : go (option (option (Decision.Recorder D) * executed)) :=
  if negb (ValidateExperiment scenario configuration) then
    Done (Some (None, Failed (ErrArtifact ErrInvalidArtifact)))
  else match decider with
  | None => Done (Some (None, Failed ErrNilDecider))
  | Some d =>
    let recorder := Decision.NewRecorder (Some d) in
    match NewPaused enc fuel (ClusterConfig_ configuration) (Some recorder) with
    | inl err => Done (Some (Some recorder, Failed (ErrCluster err)))
    | inr c =>
      r ← executed_by (bootstrapFrontier scenario configuration) c;
      Done (match r with
            | None => None
            | Some (d, inl err) => Some (d, Failed err)
            | Some (d, inr result) => Some (d, result)
            end)
    end
  end.
End frontier.
