(* ===== verification/ClusterClock.v ===== *)
(** * The clock stands still while the cluster works (raftsim/cluster.go)

    Only the scheduler moves the virtual time, when it takes an event or at the end of
    [RunUntil]: no operation of the cluster does, and no callback while it runs. *)

From S2P Require Export ClusterGroup.
From S2P Require Import Prelude RaftTypes Membership Outcome.
From S2P Require Node Heap Simulator SimInv Network Decision Check AppOracle.
From stdpp Require Import options.

#[global] Open Scope Z_scope.

(** ** The scheduler and the network *)

Lemma wlp_and {A} (m : go A) (P Q : A → Prop) :
  wlp m P → wlp m Q → wlp m (λ a, P a ∧ Q a).
Proof. destruct m; simpl; auto. Qed.

Section scheduler.
Context {A : Type}.
Implicit Types s : Simulator.Simulator A.

Lemma scheduleAt_now s at_ tag act :
  wlp (Simulator.scheduleAt s at_ tag act) (λ r, Simulator.now r.1 = Simulator.now s).
Proof.
  unfold Simulator.scheduleAt. repeat case_match; try done.
  all: apply wlp_bind; destruct (Heap.push _ _ _) as [[m h]|]; [| done]; simpl.
  all: unfold Simulator.recordTrace; by case_match.
Qed.

Lemma ScheduleAtTagged_now s at_ tag act :
  wlp (Simulator.ScheduleAtTagged s at_ tag act) (λ r, Simulator.now r.1 = Simulator.now s).
Proof. unfold Simulator.ScheduleAtTagged. case_match; [done | apply scheduleAt_now]. Qed.

Lemma ScheduleTagged_now s delay tag act :
  wlp (Simulator.ScheduleTagged s delay tag act) (λ r, Simulator.now r.1 = Simulator.now s).
Proof. unfold Simulator.ScheduleTagged. repeat case_match; try done. apply ScheduleAtTagged_now. Qed.

Lemma Schedule_now s delay act :
  wlp (Simulator.Schedule s delay act) (λ r, Simulator.now r.1 = Simulator.now s).
Proof. unfold Simulator.Schedule. repeat case_match; try done. apply scheduleAt_now. Qed.

Lemma Cancel_now s event : wlp (Simulator.Cancel s event) (λ r, Simulator.now r.1 = Simulator.now s).
Proof.
  unfold Simulator.Cancel. case_match; [done |].
  apply wlp_bind. destruct (Heap.deref _ _) as [e|]; [| done]. simpl.
  apply wlp_bind. destruct (Heap.remove _ _ _) as [[[m h] x]|]; [| done]. simpl.
  apply wlp_bind. destruct (Heap.deref _ _) as [e'|]; [| done]. simpl.
  unfold Simulator.recordTrace. by case_match.
Qed.
End scheduler.

Section network.
Context {M H X D : Type}.
Abbreviation Net := (Network.Net M H X D).

Lemma decideLoss_sim fuel (w : Net) packet link :
  wlp (Network.decideLoss fuel w packet link) (λ r, match r with Some (w', _) => Network.sim w' = Network.sim w | None => True end).
Proof.
  unfold Network.decideLoss. destruct (Network.decisions _) as [source|]; apply wlp_bind.
  - destruct (Network.Drop _ _ _ _ _) as [[[d [|]]|]|]; done.
  - by destruct (Rand.Chance _ _) as [[r b]|].
Qed.

Lemma decideLatency_sim fuel (w : Net) packet link :
  wlp (Network.decideLatency fuel w packet link) (λ r, match r with Some (w', _) => Network.sim w' = Network.sim w | None => True end).
Proof.
  unfold Network.decideLatency. destruct (Network.decisions _) as [source|]; apply wlp_bind.
  - destruct (Network.Latency _ _ _ _ _) as [[[d [|]]|]|]; done.
  - by destruct (Rand.Duration _ _ _ _) as [[[r b]|]|].
Qed.

Lemma scheduleDelivery_now (w : Net) packet latency :
  wlp (Network.scheduleDelivery w packet latency) (λ r, Simulator.now (Network.sim r.1) = Simulator.now (Network.sim w)).
Proof.
  unfold Network.scheduleDelivery. repeat case_match; try done; apply wlp_bind.
  - eapply wlp_mono; [apply ScheduleTagged_now |]. by intros [].
  - eapply wlp_mono; [apply Schedule_now |]. by intros [].
Qed.

Lemma Send_now fuel (w : Net) from to message :
  wlp (Network.Send fuel w from to message)
    (λ r, match r with Some (w', _) => Simulator.now (Network.sim w') = Simulator.now (Network.sim w) | None => True end).
Proof.
  unfold Network.Send. repeat (case_match; [| done]).
  destruct (Network.r_exhausted (Network.router w)); [done |].
  unfold Network.allocatePacket. destruct (if _ =? _ then _ else _) as [next exh]. cbv zeta.
  match goal with |- context [Network.set_router w ?r] => set (w1 := Network.set_router w r) end.
  destruct (negb _); [done |]. apply wlp_bind. eapply wlp_mono; [apply decideLoss_sim |].
  intros [[w2 [err|[]]]|] H2; simpl; [by rewrite H2 | by rewrite H2 | | done].
  apply wlp_bind. eapply wlp_mono; [apply decideLatency_sim |].
  intros [[w3 [err|latency]]|] H3; simpl; [by rewrite H3, H2 | | done].
  apply wlp_bind. eapply wlp_mono; [apply scheduleDelivery_now |].
  intros [w4 [err|]] H4; simpl in *; by rewrite H4, H3, H2.
Qed.
End network.

(** ** The cluster *)

Section clock.
Context {D : Type} `{HD : !Decision.Decider D} (enc : Encoders) (fuel : nat) (t : Z).
Abbreviation Cluster := (Cluster D).

Definition at_time (c : Cluster) : Prop := c_now c = t.
Abbreviation I := at_time.

Lemma still_modify (f : Cluster → Cluster) : (∀ c, c_sim (f c) = c_sim c) → keeps I (modify f).
Proof. intros Hf. apply keeps_modify. intros c Hc. unfold at_time, c_now. by rewrite Hf. Qed.

Lemma still_put_process id p : keeps I (put_process id p).
Proof. by apply still_modify. Qed.
#[local] Hint Resolve still_put_process : keeps.

Lemma still_update id f : keeps I (update id f).
Proof. unfold update. keep. Qed.

Lemma still_fail err : keeps I (fail err).
Proof. apply still_modify. intros c. by destruct (c_err c). Qed.
#[local] Hint Resolve still_update still_fail : keeps.

Lemma still_orFail m : keeps I m → keeps I (orFail m).
Proof. intros Hm. unfold orFail. keep. Qed.

Lemma still_on_sim {A} (f : Simulator.Simulator (Network.delivery Envelope + action) → go (_ * A)) :
  (∀ s, wlp (f s) (λ r, Simulator.now r.1 = Simulator.now s)) → keeps I (on_sim f).
Proof.
  intros Hf c Hc. unfold on_sim. apply wlp_bind. eapply wlp_mono; [apply Hf |].
  intros [s a] H. exact (eq_trans H Hc).
Qed.

Lemma still_simCancel event : keeps I (simCancel event).
Proof. apply still_on_sim. intros s. apply Cancel_now. Qed.

Lemma still_ScheduleTagged delay tag a : keeps I (ScheduleTagged delay tag a).
Proof. unfold ScheduleTagged. keep. apply still_on_sim. intros s. apply ScheduleTagged_now. Qed.
#[local] Hint Resolve still_simCancel still_ScheduleTagged : keeps.

Lemma still_cancelEvent event : keeps I (cancelEvent event).
Proof. unfold cancelEvent. keep. Qed.

Lemma still_chooseDuration id kind minimum maximum context :
  keeps I (chooseDuration fuel id kind minimum maximum context).
Proof. by apply chooseDuration_only. Qed.

Lemma still_randomDuration id minimum maximum : keeps I (randomDuration fuel id minimum maximum).
Proof. unfold randomDuration. keep. Qed.
#[local] Hint Resolve still_cancelEvent still_chooseDuration still_randomDuration : keeps.

Lemma still_resetElectionTimer id : keeps I (resetElectionTimer fuel id).
Proof. unfold resetElectionTimer. keep. Qed.

Lemma still_resetHeartbeatTimer id : keeps I (resetHeartbeatTimer id).
Proof. unfold resetHeartbeatTimer. keep. Qed.

Lemma still_syncRoleTimers id before after : keeps I (syncRoleTimers id before after).
Proof. unfold syncRoleTimers. keep. Qed.

Lemma still_queuedInputIsCurrent p q : keeps I (queuedInputIsCurrent p q).
Proof. unfold queuedInputIsCurrent. destruct (q_timer q); keep. Qed.

Lemma still_cancelProcessEvents id : keeps I (cancelProcessEvents id).
Proof. unfold cancelProcessEvents. keep. Qed.

Lemma still_observe : keeps I (observe enc).
Proof. unfold observe. keep; [by apply still_modify | destruct l; keep]. Qed.
#[local] Hint Resolve still_resetElectionTimer still_resetHeartbeatTimer still_syncRoleTimers
  still_queuedInputIsCurrent still_cancelProcessEvents still_observe : keeps.

Lemma still_persistEffect id token st : keeps I (persistEffect enc fuel id token st).
Proof. unfold persistEffect. keep. Qed.

Lemma still_sendEffect id m : keeps I (sendEffect fuel id m).
Proof.
  unfold sendEffect. do 3 (apply keeps_bind; [keep | intros ?]). cbv zeta.
  intros c Hc. unfold gets, sample, modify, mbind, M_bind. simpl.
  pose proof (Send_now fuel (c_net c) id (To m)) as H.
  match goal with |- context [Network.Send _ _ _ _ ?e] => specialize (H e) end.
  destruct (Network.Send _ _ _ _ _) as [[[w r]|]|]; simpl; try done.
  assert (I (set_c_net c w)) as Hw by exact (eq_trans H Hc).
  by destruct r.
Qed.

Lemma still_applyEffect id entry : keeps I (applyEffect id entry).
Proof. unfold applyEffect. keep. Qed.

Lemma still_installEffect id snapshot : keeps I (installEffect enc id snapshot).
Proof. unfold installEffect. keep. Qed.
#[local] Hint Resolve still_persistEffect still_sendEffect still_applyEffect still_installEffect : keeps.

Lemma still_processEffect id e : keeps I (processEffect enc fuel id e).
Proof. destruct e; simpl; auto with keeps. Qed.
#[local] Hint Resolve still_processEffect : keeps.

Lemma still_processEffects id es : keeps I (processEffects enc fuel id es).
Proof. induction es as [|e es IH]; simpl; keep. Qed.

Lemma still_stepNode id n input : keeps I (stepNode id n input).
Proof. unfold stepNode. keep. Qed.
#[local] Hint Resolve still_processEffects still_stepNode : keeps.

Lemma still_submit id q : keeps I (submit enc fuel id q).
Proof. unfold submit. keep. Qed.
#[local] Hint Resolve still_submit : keeps.

Lemma still_drain id : keeps I (drain enc fuel id).
Proof.
  unfold drain. apply keeps_bind; [apply keeps_the_process | intros p].
  generalize (S (length (p_mailbox p))). intros limit.
  induction limit as [|limit IH]; cbn [drainLoop]; [apply keeps_ret |].
  apply keeps_bind; [apply keeps_the_process | intros q]. apply keeps_if; [apply keeps_ret |].
  apply keeps_bind; [apply keeps_the_node | intros n].
  destruct (Node.AwaitingPersistence n); [keep |]. destruct (p_mailbox q); keep.
Qed.

Lemma still_receive id packet : keeps I (receive enc fuel id packet).
Proof. unfold receive, orFail. keep. Qed.

Lemma still_start id : keeps I (start enc fuel id).
Proof. unfold start. keep. Qed.

Lemma still_Bootstrap : keeps I (Bootstrap enc fuel).
Proof.
  assert (∀ ids, keeps I (startAll enc fuel ids)) as H.
  { induction ids as [|id ids IH]; simpl; [apply keeps_ret |].
    apply keeps_bind; [apply still_start | intros; apply IH]. }
  unfold Bootstrap. do 2 (apply keeps_bind; [keep | intros]). apply keeps_bind; [keep | intros ms].
  apply keeps_bind; [apply H | intros _]. apply keeps_bind; [by apply still_modify | intros _]. keep.
Qed.

Lemma still_Crash id : keeps I (Crash enc id).
Proof. unfold Crash. keep. Qed.

Lemma still_Restart id : keeps I (Restart enc fuel id).
Proof. unfold Restart. keep. Qed.

Lemma still_timerCurrent id inc gen f wanted : keeps I (timerCurrent id inc gen f wanted).
Proof. unfold timerCurrent. keep. Qed.
#[local] Hint Resolve still_drain still_Crash still_Restart still_orFail still_timerCurrent : keeps.

Lemma still_CrashAfterNextPersist id : keeps I (CrashAfterNextPersist id).
Proof. unfold CrashAfterNextPersist. keep. Qed.

(** ** The callbacks *)

Section running.
Context {X : Type} (callback : nat → X → M D X).
Context (callback_still : ∀ n x, keeps I (callback n x)).

Lemma still_runAction a x : keeps I (runAction enc fuel callback a x).
Proof using All.
  destruct a; simpl; [| | | | | | apply callback_still];
    unfold onElectionTimer, onHeartbeatTimer, onStorageCompletion, onPersistenceAck; keep.
  all: apply still_orFail; keep.
Qed.

Lemma still_runDelivery d : keeps I (runDelivery enc fuel d).
Proof.
  intros c Hc. unfold runDelivery, gets, modify, mbind, M_bind. simpl.
  assert (Network.sim (Network.arrive (c_net c) d).1 = c_sim c) as Hs.
  { unfold Network.arrive. destruct (negb _); [done |]. by destruct (_ !! _). }
  destruct (Network.arrive (c_net c) d) as [net [id|]]; simpl in *.
  - apply still_receive. unfold at_time, c_now, c_sim in *. simpl. by rewrite Hs.
  - unfold at_time, c_now, c_sim in *. simpl. by rewrite Hs.
Qed.
End running.

(** ** The operations of clients *)

Lemma still_clientInput id p input : keeps I (clientInput enc fuel id p input).
Proof. unfold clientInput. keep. Qed.

Lemma still_leaderLoop found ids : keeps I (leaderLoop found ids).
Proof. revert found. induction ids as [|id ids IH]; intros found; simpl; keep; apply IH. Qed.

Lemma still_toLeader call : (∀ id, keeps I (call id)) → keeps I (toLeader call).
Proof. intros Hc. unfold toLeader, Leader_. keep. apply still_leaderLoop. Qed.

Lemma still_liveLeader id : keeps I (liveLeader id).
Proof. unfold liveLeader. keep. Qed.
#[local] Hint Resolve still_clientInput still_liveLeader : keeps.

Lemma still_ProposeTo id data : keeps I (ProposeTo enc fuel id data).
Proof. unfold ProposeTo. keep. Qed.

Lemma still_snapshot id data : keeps I (snapshot enc fuel id data).
Proof. unfold snapshot. keep. Qed.
#[local] Hint Resolve still_ProposeTo still_snapshot : keeps.

Lemma still_Snapshot id data : keeps I (Cluster.Snapshot enc fuel id data).
Proof. unfold Cluster.Snapshot. keep. Qed.

Lemma still_SnapshotApplication id : keeps I (SnapshotApplication enc fuel id).
Proof. unfold SnapshotApplication. keep. Qed.

Lemma still_BeginMembershipChangeTo id voters learners :
  keeps I (BeginMembershipChangeTo enc fuel id voters learners).
Proof. unfold BeginMembershipChangeTo. keep. Qed.

Lemma still_FinalizeMembershipChangeTo id : keeps I (FinalizeMembershipChangeTo enc fuel id).
Proof. unfold FinalizeMembershipChangeTo. keep. Qed.

Lemma still_Partition groups : keeps I (Partition groups).
Proof. unfold Partition. keep. by apply still_modify. Qed.

Lemma still_Heal : keeps I Heal.
Proof. by apply still_modify. Qed.
End clock.
