(* ===== verification/ExperimentProps.v ===== *)
(** * What experiments return (experiment/experiment.go)

    An execution refines a group as every run of the harness does, ends within the
    scenario's steps and time, and its outcome is one that the artifact's validation
    accepts. *)

From S2P Require Export Experiment ClusterClock.
From S2P Require Import Prelude RaftTypes Membership Outcome Scenario Artifact ArtifactProps ClusterProps.
From S2P Require Node Heap NodeHost Election Simulator SimInv SimProps Network NetProps Decision Check AppOracle Sha256 Digest.
From stdpp Require Import options.

#[global] Open Scope Z_scope.

Section experiment.
Context {D : Type} `{HD : !Decision.Decider D} (enc : Encoders) (fuel : nat).
Abbreviation Cluster := (Cluster D).

(** ** Actions keep what clients keep *)

Section actions.
Context (I : Cluster → Prop).

Lemma keeps_call m : keeps I m → keeps I (call m).
Proof. intros Hm. unfold call. keep. Qed.

(** What every action is made of. *)
Context (Hpropose : ∀ id data, keeps I (ProposeTo enc fuel id data)).
Context (Hcrash : ∀ id, keeps I (Crash enc id)) (Hrestart : ∀ id, keeps I (Restart enc fuel id)).
Context (Hpersist : ∀ id, keeps I (CrashAfterNextPersist id)).
Context (Hsnapshot : ∀ id data, keeps I (Cluster.Snapshot enc fuel id data)).
Context (Happlication : ∀ id, keeps I (SnapshotApplication enc fuel id)).
Context (Hbegin : ∀ id voters learners, keeps I (BeginMembershipChangeTo enc fuel id voters learners)).
Context (Hfinalize : ∀ id, keeps I (FinalizeMembershipChangeTo enc fuel id)).
Context (Hpartition : ∀ groups, keeps I (Partition groups)) (Hheal : keeps I Heal).
Context (Hleader : ∀ call, (∀ id, keeps I (call id)) → keeps I (toLeader call)).

Lemma applyAction_keeps action : keeps I (applyAction enc fuel action).
Proof using All.
  unfold applyAction. cbv zeta.
  repeat (apply keeps_if; [apply keeps_call; try apply keeps_if; auto; apply Hleader; auto |]).
  apply keeps_ret.
Qed.

Lemma actionCallback_keeps application actions n err :
  keeps I (actionCallback enc fuel application actions n err).
Proof using All.
  unfold actionCallback, performAction. apply keeps_option; [intros a | apply keeps_panic].
  apply keeps_option; [intros; apply keeps_ret |].
  apply keeps_if; [by apply keeps_call | apply applyAction_keeps].
Qed.
End actions.

Section related.
Context (conf : ClusterConfig) (ms : list NodeID).
Abbreviation related := (related conf ms).
Abbreviation inv := (inv conf ms).

Lemma callback_related application actions n err :
  keeps related (actionCallback enc fuel application actions n err).
Proof.
  pose proof (λ x Hx, perform_related enc fuel conf ms x Hx) as H.
  apply actionCallback_keeps; [intros .. | |].
  - exact (H (CmdProposeTo id data) I).
  - exact (H (CmdCrash id) I).
  - exact (H (CmdRestart id) I).
  - exact (H (CmdCrashAfterNextPersist id) I).
  - exact (H (CmdSnapshot id data) I).
  - exact (H (CmdSnapshotApplication id) I).
  - exact (H (CmdBeginMembershipChangeTo id voters learners) I).
  - exact (H (CmdFinalizeMembershipChangeTo id) I).
  - exact (H (CmdPartition groups) I).
  - exact (H CmdHeal I).
  - apply toLeader_related.
Qed.

Lemma callback_still t application actions n err :
  keeps (at_time t) (actionCallback enc fuel application actions n err).
Proof.
  apply actionCallback_keeps; intros.
  - apply still_ProposeTo.
  - apply still_Crash.
  - apply still_Restart.
  - apply still_CrashAfterNextPersist.
  - apply still_Snapshot.
  - apply still_SnapshotApplication.
  - apply still_BeginMembershipChangeTo.
  - apply still_FinalizeMembershipChangeTo.
  - apply still_Partition.
  - apply still_Heal.
  - by apply still_toLeader.
Qed.

(** ** Scheduling the actions *)

Context (texts : Texts).

Lemma schedule_related at_ tag n :
  at_ ≤ max_i64 →
  keeps related (on_sim (D := D) (λ s, Simulator.ScheduleAtTagged s at_ tag (Some (inr (userCallback n))))).
Proof.
  intros Hat. apply keeps_related. intros g c Hc. unfold on_sim.
  pose proof (rl_sim _ _ _ _ (proj1 Hc)) as Hs.
  pose proof (SimProps.exec_command_ok (c_sim c) (SimProps.CScheduleAtTagged at_ tag (Some (inr (userCallback n)))) Hs Hat) as Hx.
  cbn [SimProps.exec_command SimProps.scheduled SimProps.spec_command] in Hx. unfold SimProps.scheduled in Hx.
  pose proof (NetProps.spec_at_placed (c_sim c) at_ (Some tag) (Some (inr (userCallback n))) Hs Hat) as Hp.
  destruct (Simulator.ScheduleAtTagged _ _ _ _) as [[s r]|]; [| done]. cbn [mbind go_bind wp] in Hx.
  destruct Hx as (Hs' & E & _). rewrite E in Hp. cbn [fst snd] in Hp. apply inv_sim; [done | done |].
  intros x t tg a Hx. unfold NetProps.placed in Hp. destruct r as [err|y].
  - left. by rewrite Hp in Hx.
  - destruct Hp as (t' & Hy & _ & Hev). rewrite Hev in Hx.
    apply lookup_insert_Some in Hx as [[<- Hx] | [_ Hx]]; [right; by simplify_eq | by left].
Qed.

Lemma scheduleActions_keeps (J : Cluster → Prop) n actions :
  (∀ n at_ tag, at_ ≤ max_i64 →
     keeps J (on_sim (D := D) (λ s, Simulator.ScheduleAtTagged s at_ tag (Some (inr (userCallback n)))))) →
  Forall (λ a, ActAtNS a ≤ max_i64) actions → keeps J (scheduleActions texts n actions).
Proof.
  intros HJ H. revert n. induction H as [|a actions Ha _ IH]; intros n; simpl; [apply keeps_ret |].
  apply keeps_bind; [by apply HJ |]. intros r. apply keeps_bind; [apply keeps_check |]. intros _. apply IH.
Qed.

Lemma schedule_still t n at_ tag :
  keeps (at_time t) (on_sim (D := D) (λ s, Simulator.ScheduleAtTagged s at_ tag (Some (inr (userCallback n))))).
Proof. apply still_on_sim. intros s. apply ScheduleAtTagged_now. Qed.

(** ** Stepping in time *)

Section run.
Context (scenario : Scenario) (application : bool).
Abbreviation callback := (actionCallback enc fuel application (Actions scenario)).
Abbreviation end_ := (DurationNS scenario).

(** No event is due. *)
Definition quiet (c : Cluster) : Prop :=
  ∀ x e, SimInv.sp_events (SimInv.abs (c_sim c)) !! x = Some e → end_ < e.1.1.

Lemma next_view c :
  related c →
  ∃ next more, Simulator.NextEventTime (c_sim c) = Done (next, more) ∧
    if negb more || (end_ <? next) then quiet c
    else Simulator.queue (c_sim c) ≠ [] ∧
         ∃ x e, SimInv.sp_events (SimInv.abs (c_sim c)) !! x = Some e ∧ e.1.1 ≤ end_.
Proof.
  intros (g & _ & Hr). pose proof (rl_sim _ _ _ _ Hr) as Hs.
  destruct (SimProps.NextEventTime_ok (c_sim c) Hs) as (next & E & Hmin & Hex).
  exists next, (negb (length (Simulator.queue (c_sim c)) =? 0)%nat). split; [exact E |].
  destruct (Simulator.queue (c_sim c)) as [|y q] eqn:Hq; simpl.
  - intros x e Hx. exfalso. destruct (SimInv.takeNext_ok (c_sim c) Hs) as [(_ & H & _) | (? & ? & ? & ? & H)].
    + pose proof (eq_trans (eq_sym Hx) (f_equal (λ m, m !! x) H)) as H0. by apply (lookup_empty_Some x e).
    + destruct H as (_ & _ & _ & _ & H & _). by rewrite Hq in H.
  - destruct (Z.ltb_spec end_ next).
    + intros x e Hx. apply Hmin in Hx. lia.
    + split; [done |]. destruct Hex as (x & e & Hx & He); [done |]. exists x, e. split; [done | lia].
Qed.

Definition in_time (c : Cluster) : Prop := related c ∧ c_now c ≤ end_.

(** The time of what one step runs. *)
Lemma Step_clock c v :
  related c → Simulator.queue (c_sim c) ≠ [] →
  (∃ x e, SimInv.sp_events (SimInv.abs (c_sim c)) !! x = Some e ∧ e.1.1 ≤ end_) → c_now c ≤ end_ →
  wlp (Step enc fuel callback v c) (λ r, match r with
    | None => True
    | Some (c', inl _) => c_now c' ≤ end_
    | Some (c', inr (_, (ran, err))) => c_now c' ≤ end_ ∧ (err = None → ran = true)
    end).
Proof.
  intros Hc Hq (y & ev & Hev & Hdue) Hnow. unfold Step. apply gets_step.
  destruct (c_err c) as [err|] eqn:Herr; [by split |]. apply bind_step. unfold simulatorStep.
  apply gets_step, lift_step. intros next Hnext. destruct Hc as (g & Hg & Hr).
  destruct (SimInv.takeNext_ok (c_sim c) (rl_sim _ _ _ _ Hr)) as
    [(E & _) | (x & e & act & s & Hmin & _ & Habs & _ & _ & E)]; [done |]. rewrite E in Hnext. simplify_eq.
  assert (e ≤ end_) as He.
  { destruct Hmin as [_ Hmin]. destruct ev as [[t tg] a]. simpl in Hdue. specialize (Hmin _ _ Hev). simpl in Hmin. lia. }
  assert (at_time e (set_c_sim c s)) as Ht.
  { exact (f_equal SimInv.sp_now Habs). }
  apply bind_step. simpl.
  eapply (keeps_step _ (at_time e)); [| exact Ht | exact I | by intros c' ? -> |].
  { destruct act as [tg [d|a]]; simpl.
    - apply keeps_bind; [apply still_runDelivery | intros; apply keeps_ret].
    - apply still_runAction, callback_still. }
  intros c' w Hc'. simpl.
  eapply (keeps_step _ (at_time e)); [apply still_observe | done | done | by intros c2 ? -> |].
  intros c2 _ Hc2. apply gets_step. simpl. split; [by rewrite Hc2 | done].
Qed.

Lemma Step_in_time c v :
  in_time c → Simulator.queue (c_sim c) ≠ [] →
  (∃ x e, SimInv.sp_events (SimInv.abs (c_sim c)) !! x = Some e ∧ e.1.1 ≤ end_) →
  wlp (Step enc fuel callback v c) (λ r, match r with
    | None => True
    | Some (c', inl _) => in_time c'
    | Some (c', inr (_, (ran, err))) => in_time c' ∧ (err = None → ran = true)
    end).
Proof.
  intros [Hc Hnow] Hq Hdue.
  pose proof (Step_related enc fuel conf ms callback (callback_related _ _) v c Hc) as H1.
  pose proof (Step_clock c v Hc Hq Hdue Hnow) as H2.
  eapply wlp_mono; [exact (wlp_and _ _ _ H1 H2) |]. unfold in_time.
  intros [[c' [err|[w [ran err]]]]|]; naive_solver.
Qed.

(** ** The loop *)

Context (recorder : option (D → list Decision.Entry)) (configuration : Configuration).

Lemma keeps_recorded (J : Cluster → Prop) : keeps J (recorded recorder).
Proof. unfold recorded. keep. Qed.

Lemma keeps_beforeEvent (J : Cluster → Prop) : keeps J (beforeEvent texts recorder).
Proof. unfold beforeEvent. destruct recorder; keep. Qed.

Lemma keeps_decisionsSince (J : Cluster → Prop) before : keeps J (decisionsSince recorder before).
Proof. unfold decisionsSince. apply keeps_bind; [apply keeps_recorded |]. intros es. apply keeps_ret. Qed.

(** Where the loop leaves the execution. *)
Definition progressed (c : Cluster) (p : progress) : Prop :=
  in_time c ∧ 0 ≤ pg_steps p ≤ ScMaxSteps scenario ∧
  if pg_exhausted p then pg_steps p = ScMaxSteps scenario ∧ pg_actionErr p = None ∧ pg_runErr p = None
  else pg_actionErr p = None → pg_runErr p = None → quiet c.

(** The results of leaving the loop: a frontier comes with an open choice, to a recorder. *)
Definition left_early (result : executed) : Prop :=
  match result with
  | Finished _ => False
  | OpenFrontier _ err => isOpenChoice err = true ∧ is_Some recorder
  | Failed _ => True
  end.

Definition loop_post (r : option (Cluster * (ClusterError + option (executed + progress)))) : Prop :=
  match r with
  | None => True
  | Some (c, inl _) => in_time c
  | Some (c, inr None) => False
  | Some (c, inr (Some (inl result))) => in_time c ∧ left_early result
  | Some (c, inr (Some (inr p))) => progressed c p
  end.

Lemma stepLoop_spec limit steps err c :
  in_time c → 0 ≤ steps ≤ ScMaxSteps scenario ≤ max_u64 → ScMaxSteps scenario - steps < Z.of_nat limit →
  wlp (stepLoop enc texts fuel recorder scenario configuration application limit steps err c) loop_post.
Proof.
  revert steps err c. induction limit as [|limit IH]; intros steps err c Hc Hsteps Hlimit; [lia |].
  cbn [stepLoop]. case_bool_decide as Herr; [refine (conj Hc (conj _ _)); [simpl; lia | by destruct err, Herr] |].
  apply gets_step. destruct (next_view c (proj1 Hc)) as (next & more & -> & Hview).
  apply lift_step. intros [next' more'] [= <- <-]. destruct (negb more || (end_ <? next)) eqn:Hdue.
  { refine (conj Hc (conj _ _)); [simpl; lia | done]. }
  destruct Hview as (Hq & Hev). destruct (Z.eqb_spec steps (ScMaxSteps scenario)) as [Heq|Hne].
  { assert (err = None) as -> by (destruct err; [by destruct Herr | done]).
    refine (conj Hc (conj _ _)); [simpl; lia | done]. }
  eapply (keeps_step _ (λ c', in_time c' ∧ c_sim c' = c_sim c)); [| by split | done | by intros ?? [? _] |].
  { intros c' Hc'. by apply keeps_beforeEvent. }
  intros c1 pre [Hc1 Hsim]. destruct pre as [e|[preEvent before]]; [done |].
  apply bind_step. rewrite <- Hsim in Hq, Hev. eapply wlp_mono; [by apply Step_in_time |].
  intros [[c2 [e|[v [ran e]]]]|]; [done | | done]. intros [Hc2 Hran]. cbv zeta.
  match goal with |- context [if bool_decide _ && openChoice ?o then _ else _] => generalize o end. intros openErr.
  destruct (if _ && _ then openErr else None) as [opened|] eqn:Hopen.
  { assert (left_early (OpenFrontier [] opened)) as Hearly.
    { destruct (bool_decide_reflect (is_Some recorder)); simpl in Hopen; [| done].
      destruct openErr as [o|]; [| done]. simpl in Hopen. destruct (isOpenChoice o) eqn:Ho; [| done]. by simplify_eq. }
    eapply (keeps_step _ in_time); [apply keeps_decisionsSince | done | done | by intros |].
    intros c3 es Hc3. simpl. split; [done |]. by destruct (encodeFrontier _ _ _ _ _ _). }
  assert (∀ b : bool, 0 ≤ (if b then wrap64 (steps + 1) else steps) ≤ ScMaxSteps scenario) as Hafter.
  { intros []; [rewrite wrap64_small by (unfold is_u64; lia)|]; lia. }
  destruct e as [e|]; simpl.
  { by refine (conj Hc2 (conj (Hafter ran) _)). }
  rewrite Hran by done. rewrite wrap64_small by (unfold is_u64; lia). apply IH; [done | lia | lia].
Qed.
(** ** The rest of the time *)

Lemma advance_quiet c :
  in_time c → quiet c → 0 ≤ end_ ≤ max_i64 →
  ∃ s, advanceClock end_ c = Done (Some (set_c_sim c s, inr None)) ∧ Simulator.now s = end_.
Proof.
  intros [Hc Hnow] Hquiet Hend. destruct (next_view c Hc) as (next & more & E & Hview).
  destruct Hc as (g & _ & Hr). pose proof (rl_sim _ _ _ _ Hr) as Hs.
  unfold advanceClock, Simulator.RunUntil. rewrite (proj2 (Z.ltb_ge _ _)) by lia.
  change (Simulator.now (c_sim c)) with (c_now c). rewrite (proj2 (Z.ltb_ge _ _)) by lia.
  assert (Simulator.runUntil (λ _ _, Panic) 1 end_ (c_sim c) 0 = Done (Some (c_sim c, 0))) as ->.
  { simpl. rewrite E. simpl. destruct more; simpl; [| done].
    destruct (Z.leb_spec next end_); [| done]. rewrite (proj2 (Z.ltb_ge _ _)) in Hview by lia.
    destruct Hview as (_ & x & e & Hx & He). apply Hquiet in Hx. lia. }
  simpl. change (Simulator.now (c_sim c)) with (c_now c). destruct (Z.eqb_spec (c_now c) end_) as [Heq|Hne]; simpl.
  - by exists (c_sim c).
  - eexists. split; [reflexivity |]. apply SimProps.clock_advanced; [done | unfold c_now in *; lia | apply Hquiet].
Qed.

(** Where an execution is concluded. *)
Definition finished (c : Cluster) (p : progress) : Prop :=
  in_time c ∧ 0 ≤ pg_steps p ≤ ScMaxSteps scenario ∧
  if pg_exhausted p then pg_steps p = ScMaxSteps scenario ∧ pg_actionErr p = None ∧ pg_runErr p = None
  else pg_actionErr p = None → pg_runErr p = None → c_now c = end_.

Lemma finishTime_spec limit p c :
  progressed c p → 0 ≤ end_ ≤ max_i64 → ScMaxSteps scenario ≤ max_u64 →
  wlp (finishTime enc fuel scenario application (S limit) p c) (λ r, match r with
    | None => True
    | Some (c', inl _) => in_time c'
    | Some (c', inr None) => False
    | Some (c', inr (Some p')) => finished c' p'
    end).
Proof.
  destruct p as [steps aerr rerr exh]. intros (Hc & Hsteps & Hend') Hend Hmax. unfold finishTime. simpl in *.
  destruct rerr as [e|]; [refine (conj Hc (conj Hsteps _)); by destruct exh |].
  destruct aerr as [e|]; [refine (conj Hc (conj Hsteps _)); by destruct exh |].
  destruct exh; [by refine (conj Hc (conj Hsteps _)) |].
  specialize (Hend' eq_refl eq_refl). apply bind_step.
  destruct (advance_quiet c Hc Hend' Hend) as (s & Hadv & Hnow).
  pose proof (advanceClock_related conf ms end_ ltac:(lia) c (proj1 Hc)) as Hrel. rewrite Hadv in Hrel.
  unfold RunUntil. apply gets_step, gets_step. destruct (c_err c) as [e|].
  { simpl. rewrite Z.add_0_r, wrap64_small by (unfold is_u64; lia). by refine (conj Hc (conj Hsteps _)). }
  destruct Hc as [Hc Hle]. rewrite (proj2 (Z.ltb_ge _ _)) by done. cbn [runUntilLoop]. apply gets_step.
  destruct (next_view c Hc) as (next & more & E & Hview). rewrite E. apply lift_step. intros ? [= <-].
  destruct (negb more || (end_ <? next)).
  2: { exfalso. destruct Hview as (_ & x & e & Hev & He). apply Hend' in Hev. lia. }
  apply bind_step. rewrite Hadv. simpl. rewrite Z.add_0_r, wrap64_small by (unfold is_u64; lia).
  refine (conj (conj Hrel _) (conj Hsteps (λ _ _, Hnow))). change (Simulator.now s ≤ end_). lia.
Qed.
(** ** The outcome *)

(** What the artifact's validation wants of an outcome; an error is a text that is not
    empty. *)
Definition outcome_ok (outcome : Outcome) : Prop :=
  0 ≤ Steps outcome ≤ ScMaxSteps scenario ∧ 0 ≤ EndNS outcome ≤ end_ ∧
  validDigest (ObservationDigest outcome) = true ∧
  ((∀ err, errorText texts err ≠ "") → validStatus scenario outcome = true).

Lemma reads_statuses (J : Cluster → Prop) id : keeps J (liveStatus id).
Proof. unfold liveStatus, Status. keep. destruct e; keep. Qed.

#[local] Hint Resolve reads_statuses : keeps.

Lemma reads_nodes (J : Cluster → Prop) ids : keeps J (snapshotNodes ids).
Proof. induction ids as [|id ids IH]; simpl; [apply keeps_ret |]. unfold Store_. keep. Qed.

Lemma reads_commitment (J : Cluster → Prop) id : keeps J (ApplicationCommitment enc id).
Proof. unfold ApplicationCommitment. keep. Qed.
#[local] Hint Resolve reads_nodes reads_commitment : keeps.

Lemma reads_applications (J : Cluster → Prop) ids : keeps J (applicationNodes enc ids).
Proof. induction ids as [|id ids IH]; simpl; [apply keeps_ret |]. unfold Store_. keep. Qed.
#[local] Hint Resolve reads_applications : keeps.

(** The digest, if there is one, is a digest. *)
Lemma digest_valid encoded digest : DigestJSON encoded = inr digest → validDigest digest = true.
Proof.
  unfold DigestJSON, validDigest. destruct encoded; [| discriminate]. intros [= <-].
  rewrite Digest.hex_decode_string, Digest.Sum256_length. by case_bool_decide.
Qed.

Definition digested (c : Cluster) (r : option (Cluster * (ClusterError + (ExperimentError + string)))) : Prop :=
  match r with
  | Some (c', inr (inr digest)) => c' = c ∧ validDigest digest = true
  | Some (c', _) => c' = c
  | None => True
  end.

Lemma digest_spec violations c :
  wlp ((if application then applicationSnapshotDigest enc texts violations else snapshotDigest texts violations) c)
    (digested c).
Proof.
  unfold applicationSnapshotDigest, snapshotDigest. destruct application; apply gets_step, gets_step;
    (eapply (keeps_step _ (λ c', c' = c)); [auto with keeps | done | done | done |]); intros c' nodes ->; simpl;
    destruct (DigestJSON _) eqn:E; [done | by apply digest_valid in E | done | by apply digest_valid in E].
Qed.

Lemma outcomeOf_ok c p digest violations runErr :
  finished c p → validDigest digest = true →
  (runErr = None → pg_actionErr p = None ∧ pg_runErr p = None) →
  outcome_ok (outcomeOf texts (pg_steps p) (c_now c) digest violations runErr (pg_exhausted p)).
Proof.
  intros ([Hc Hnow] & Hsteps & Hend) Hd Hrun.
  assert (0 ≤ c_now c) as Hpos.
  { destruct Hc as (g & _ & Hr). apply (SimInv.sw_now _ (rl_sim _ _ _ _ Hr)). }
  unfold outcomeOf. assert (zlen violations = 0 ∨ 0 < zlen violations) as [Hv|Hv] by (pose proof (zlen_nonneg violations); lia).
  - rewrite Hv. cbn [Z.ltb Z.compare]. destruct runErr as [err|]; [| destruct (Hrun eq_refl) as [Ha Hr]; destruct (pg_exhausted p)].
    all: split; [done |]; split; [done |]; split; [done |]; intros Htext; unfold validStatus; simpl; rewrite Hv, ?andb_true_r.
    + rewrite negb_true_iff, String.eqb_neq. apply Htext.
    + apply Z.eqb_eq, Hend.
    + apply Z.eqb_eq. by apply Hend.
  - rewrite (proj2 (Z.ltb_lt _ _)) by done. split; [done |]. split; [done |]. split; [done |].
    intros _. unfold validStatus. simpl. by rewrite (proj2 (Z.eqb_neq _ _)) by lia.
Qed.

Definition concluded (r : option (Cluster * (ClusterError + executed))) : Prop :=
  match r with
  | None => True
  | Some (c, inr (Finished outcome)) => in_time c ∧ outcome_ok outcome ∧ EndNS outcome = c_now c
  | Some (c, inr result) => in_time c ∧ left_early result
  | Some (c, inl _) => in_time c
  end.

Lemma conclude_spec p c :
  finished c p → wlp (conclude enc texts application p c) concluded.
Proof.
  intros Hf. unfold conclude. cbv zeta.
  set (runErr := match pg_actionErr p with Some err => Some err | None => pg_runErr p end).
  destruct (if openChoice runErr then runErr else None) as [err|]; [by split; [apply Hf |] |].
  apply gets_step, bind_step. eapply wlp_mono; [apply digest_spec |].
  intros [[c' [err|[err|digest]]]|]; [by intros ->; apply Hf | by intros ->; split; [apply Hf |] | | done].
  intros [-> Hd]. simpl. split; [apply Hf |]. split.
  - apply (outcomeOf_ok c); [done | done |]. unfold runErr. by destruct (pg_actionErr p).
  - unfold outcomeOf. destruct (0 <? _); [done |]. destruct runErr; [done |]. by destruct (pg_exhausted p).
Qed.

(** ** Executions *)

Definition execution_post (r : option (Cluster * (ClusterError + option executed))) : Prop :=
  match r with
  | None => True
  | Some (c, inr None) => False
  | Some (c, inr (Some (Finished outcome))) => in_time c ∧ outcome_ok outcome ∧ EndNS outcome = c_now c
  | Some (c, inr (Some result)) => in_time c ∧ left_early result
  | Some (c, inl _) => in_time c
  end.

Lemma executeScheduledCore_spec c :
  in_time c → 0 ≤ end_ ≤ max_i64 → 0 ≤ ScMaxSteps scenario ≤ max_u64 →
  Forall (λ a, ActAtNS a ≤ max_i64) (Actions scenario) →
  wlp (executeScheduledCore enc texts fuel recorder scenario configuration application c) execution_post.
Proof.
  intros Hc Hend Hmax Hactions. unfold executeScheduledCore.
  eapply (keeps_step _ in_time); [| exact Hc | done | by intros |].
  { intros c1 [Hc1 Hnow]. pose proof (scheduleActions_keeps related 0 (Actions scenario)
      (λ n at_ tag H, schedule_related at_ tag n H) Hactions c1 Hc1) as H1.
    pose proof (scheduleActions_keeps (at_time (c_now c1)) 0 (Actions scenario)
      (λ n at_ tag _, schedule_still _ n at_ tag) Hactions c1 eq_refl) as H2.
    eapply wlp_mono; [exact (wlp_and _ _ _ H1 H2) |]. unfold in_time, at_time.
    intros [[c' r]|]; [| done]. intros [? ->]. done. }
  intros c1 _ Hc1. apply bind_step. eapply wlp_mono.
  { apply (stepLoop_spec (stepLimit scenario) 0 None); [done | lia |]. unfold stepLimit. lia. }
  intros [[c2 [err|[[result|p]|]]]|]; simpl; [done | | | done | done].
  { intros [H2 Hno]. by destruct result. }
  intros Hp. apply bind_step. unfold stepLimit. eapply wlp_mono; [apply finishTime_spec; [done | done | lia] |].
  intros [[c3 [err|[p'|]]]|]; simpl; [done | | done | done]. intros Hf.
  apply bind_step. eapply wlp_mono; [by apply conclude_spec |].
  intros [[c4 [err|[]]]|]; done.
Qed.
End run.
End related.

(** ** New clusters *)

Lemma NewPaused_now config decider c : NewPaused enc fuel config decider = inr c → c_now c = 0.
Proof.
  unfold NewPaused. destruct (validateConfig config); [done |]. cbv zeta.
  destruct (Rand.Split _) as [root random]. unfold Network.NewRouter. destruct (Network.Validate _); [done |].
  match goal with |- context [registerAll ?n ?l] => set (net := n); set (ids := l) end.
  assert (Network.sim net = Simulator.New) as Hsim by (unfold net; by destruct decider).
  destruct (registerAll net ids) as [|net'] eqn:Hreg; [done |]. apply registerAll_same in Hreg as [Hs _].
  intros [= <-]. unfold c_now, c_sim. simpl. by rewrite Hs, Hsim.
Qed.

Lemma bootstrapped config decider c0 c r :
  NewPaused enc fuel config decider = inr c0 → Bootstrap enc fuel c0 = Done (Some (c, r)) →
  related (c_config c) (c_members c) c ∧ c_now c = 0.
Proof.
  intros H0 Hb. split.
  - destruct (launched_related enc fuel config decider c) as (conf & ms & g & Hg & Hr); [by exists c0, r |].
    rewrite (rl_config _ _ _ _ Hr), (rl_members _ _ _ _ Hr). by exists g.
  - pose proof (still_Bootstrap enc fuel (c_now c0) c0 eq_refl) as H. rewrite Hb in H.
    rewrite <- (NewPaused_now _ _ _ H0). exact H.
Qed.

Lemma New_related config decider d c :
  Cluster.New enc fuel config decider = Done (Some (d, inr c)) →
  related (c_config c) (c_members c) c ∧ c_now c = 0.
Proof.
  unfold Cluster.New. destruct (NewPaused enc fuel config decider) as [|c0] eqn:H0; [done |].
  destruct (Bootstrap enc fuel c0) as [[[c1 [|]]|]|] eqn:Hb; try done. simpl. intros [= _ <-].
  by eapply bootstrapped.
Qed.

(** What validation says of the times of a scenario. *)
Lemma scenario_times scenario configuration :
  ValidateExperiment scenario configuration = true →
  0 ≤ DurationNS scenario ≤ max_i64 ∧ ScMaxSteps scenario ≤ max_u64 ∧
  Forall (λ a, ActAtNS a ≤ max_i64) (Actions scenario).
Proof.
  unfold ValidateExperiment, validateScenario. rewrite andb_true_iff. intros [_ H].
  case_if_in H; [discriminate H |]. rewrite !orb_false_iff, !Z.ltb_ge in Hif.
  unfold MaxVirtualDurationNS, MaxScenarioSteps in Hif. split; [lia |]. split; [lia |].
  assert (∀ previous actions, validActions RunSchemaVersion (CnMembers configuration) (DurationNS scenario) previous actions = true →
    Forall (λ a, ActAtNS a ≤ max_i64) actions) as Hall; [| by eapply Hall].
  intros previous actions. revert previous. induction actions as [|a actions IH]; intros previous Ha; [constructor |].
  simpl in Ha. rewrite !andb_true_iff, negb_true_iff, !orb_false_iff, !Z.ltb_ge in Ha.
  constructor; [lia |]. destruct Ha as [_ Ha]. by eapply IH.
Qed.

Lemma execution_spec scenario configuration config decider d c recorder configuration' application texts :
  ValidateExperiment scenario configuration = true → 0 ≤ ScMaxSteps scenario →
  Cluster.New enc fuel config decider = Done (Some (d, inr c)) →
  wlp (executeScheduledCore enc texts fuel recorder scenario configuration' application c)
    (execution_post (c_config c) (c_members c) texts scenario recorder).
Proof.
  intros Hv Hsteps Hnew. apply scenario_times in Hv as (Hend & Hmax & Hactions).
  apply New_related in Hnew as [Hr Ht]. apply executeScheduledCore_spec; [| done | done | done].
  split; [done | lia].
Qed.

(** ** Theorems *)

(** C34.  An execution of a valid experiment ends: whatever the decider answers and the actions do,
    neither the loop nor the run to the end of time needs more than one round more than the
    scenario's steps, so the model's limits are never reached. *)
Theorem execution_ends scenario configuration config decider d c texts recorder application c' r :
  ValidateExperiment scenario configuration = true → 0 ≤ ScMaxSteps scenario →
  Cluster.New enc fuel config decider = Done (Some (d, inr c)) →
  executeScheduledCore enc texts fuel recorder scenario configuration application c = Done (Some (c', r)) →
  r ≠ inr None.
Proof.
  intros Hv Hs Hnew Hrun ->. pose proof (execution_spec scenario configuration config decider d c recorder
    configuration application texts Hv Hs Hnew) as H. by rewrite Hrun in H.
Qed.

(** Every execution of a valid experiment refines a group: whatever scenario drives the cluster and
    however the execution ends - an outcome, an open choice, an error - the cluster it leaves
    runs a group of hosts reached by group steps from the empty group. *)
Theorem experiment_refines_group scenario configuration config decider d c texts recorder application c' r :
  ValidateExperiment scenario configuration = true → 0 ≤ ScMaxSteps scenario →
  Cluster.New enc fuel config decider = Done (Some (d, inr c)) →
  executeScheduledCore enc texts fuel recorder scenario configuration application c = Done (Some (c', r)) →
  ∃ g, rtc (Election.gstep (node_config (c_config c') (c_members c'))) empty_group g ∧
       rel (c_config c') (c_members c') g c'.
Proof.
  intros Hv Hs Hnew Hrun. pose proof (execution_spec scenario configuration config decider d c recorder
    configuration application texts Hv Hs Hnew) as H. rewrite Hrun in H.
  assert (related (c_config c) (c_members c) c') as (g & Hg & Hr) 
    by (destruct r as [err|[[]|]]; try apply H; by destruct H).
  exists g. by rewrite (rl_config _ _ _ _ Hr), (rl_members _ _ _ _ Hr).
Qed.



End experiment.

(** ** A scenario of a split, a crash and a restart *)

#[local] Existing Instance Decision.seed_decider.

Definition demo_texts : Texts :=
  mkTexts (λ _, JsonEnc.encode_object []) (λ _, Some []) (λ _, Some []) (λ _, Some [])
    (λ _, Some (JsonEnc.encode_object [])) (λ _, "error") (λ _, "error").
Definition demo_decider : option Decision.SeedDecider := Some (Decision.NewSeedDecider 1).

(** The first microsecond: every timer is set, one of them twice. *)
Definition short_scenario : Scenario :=
  mkScenario (ScID demo_scenario) (ScVersion demo_scenario) 1000 (ScMaxSteps demo_scenario) (Actions demo_scenario).



Lemma demo_valid : ValidateExperiment short_scenario demo_configuration = true.
Proof. vm_compute. reflexivity. Qed.


(** The same execution, its steps one by one. *)
Definition demo_core (c : Cluster Decision.SeedDecider) :=
  executeScheduledCore demo_encoders demo_texts 10 None short_scenario demo_configuration false c.

Lemma demo_created :
  match Cluster.New demo_encoders 10 (ClusterConfig_ demo_configuration) demo_decider with
  | Done (Some (_, inr c)) =>
    match demo_core c with Done (Some (_, inr (Some (Finished _)))) => true | _ => false end
  | _ => false
  end = true.
Proof. vm_compute. reflexivity. Qed.

Lemma execution_ends_witness :
  ∃ d c c' r, Cluster.New demo_encoders 10 (ClusterConfig_ demo_configuration) demo_decider = Done (Some (d, inr c)) ∧
    demo_core c = Done (Some (c', r)) ∧ r ≠ inr None.
Proof.
  pose proof demo_created as H.
  destruct (Cluster.New demo_encoders 10 (ClusterConfig_ demo_configuration) demo_decider) as [[[d [|c]]|]|] eqn:Hnew;
    try discriminate H.
  destruct (demo_core c) as [[[c' r]|]|] eqn:Hrun; try discriminate H.
  exists d, c, c', r. split; [reflexivity |]. split; [exact Hrun |].
  exact (execution_ends demo_encoders 10 short_scenario demo_configuration (ClusterConfig_ demo_configuration) demo_decider
    d c demo_texts None false c' r demo_valid ltac:(vm_compute; discriminate) Hnew Hrun).
Defined.

Lemma experiment_refines_group_witness :
  ∃ c' g, rtc (Election.gstep (node_config (c_config c') (c_members c'))) empty_group g ∧
    rel (D := Decision.SeedDecider) (c_config c') (c_members c') g c'.
Proof.
  pose proof demo_created as H.
  destruct (Cluster.New demo_encoders 10 (ClusterConfig_ demo_configuration) demo_decider) as [[[d [|c]]|]|] eqn:Hnew;
    try discriminate H.
  destruct (demo_core c) as [[[c' r]|]|] eqn:Hrun; try discriminate H.
  exists c'.
  exact (experiment_refines_group demo_encoders 10 short_scenario demo_configuration (ClusterConfig_ demo_configuration)
    demo_decider d c demo_texts None false c' r demo_valid ltac:(vm_compute; discriminate) Hnew Hrun).
Defined.
