(* ===== verification/ClusterProgram.v ===== *)
(** * The harness as a program over its decider (raftsim/cluster.go)

    A cluster with a decider does nothing with it but ask it: what it does is a program
    ([Decision.program]) of its state and the answers.  [plug] puts a decider into a
    skeleton, a cluster without one, and [Rep m] says that the computation [m], which is
    defined for every type of deciders, is one program for all of them.  What holds of
    programs, recording and replay above all, then holds of the harness. *)

From S2P Require Export Cluster.
From S2P Require Import Prelude RaftTypes Membership Outcome.
From S2P Require Import Decision.
From S2P Require Node Heap Simulator Network Check AppOracle Rand.
From stdpp Require Import options.

#[global] Open Scope Z_scope.

(** ** Deciders that keep their mind *)

(** Whether operation identities are asked for does not change with the choices made. *)
Class Steady (D : Type) `{!Decider D} :=
  steady : ∀ fuel (d : D) c d' r, Choose fuel d c = Done (Some (d', r)) → OperationContext d' = OperationContext d.

#[export] Instance seed_steady : Steady SeedDecider.
Proof. done. Qed.
#[export] Instance causal_seed_steady : Steady CausalSeedDecider.
Proof. done. Qed.
#[export] Instance tape_steady : Steady TapeDecider.
Proof.
  intros fuel d c d' r. simpl. unfold tapeChoose. repeat case_match; try (by intros [= <- <-]).
  all: destruct (validateSelection c _) as [[e'|]|]; simpl; try discriminate; by intros [= <- <-].
Qed.
#[export] Instance prefix_steady : Steady PrefixDecider.
Proof. done. Qed.
#[export] Instance guided_steady {D} `{!Decider D} : Steady (GuidedDecider D).
Proof. done. Qed.
#[export] Instance prefix_then_steady {D} `{!Decider D} : Steady (PrefixThenDecider D).
Proof. done. Qed.

#[export] Instance recorder_steady {D} `{!Decider D} `{!Steady D} : Steady (Recorder D).
Proof.
  intros fuel r c r' v. simpl. unfold recorderChoose.
  destruct (rec_err r); [by intros [= <- <-] |]. destruct (base r) as [d|] eqn:Hb; [| by intros [= <- <-]].
  destruct (Choose fuel d c) as [[[d1 [err|s]]|]|] eqn:Hd; simpl; try discriminate.
  - intros [= <- <-]. simpl. by rewrite (steady _ _ _ _ _ Hd).
  - destruct (newEntry c s) as [[err|e]|]; simpl; try discriminate; intros [= <- <-]; simpl; by rewrite (steady _ _ _ _ _ Hd).
Qed.

(** ** Programs *)

Fixpoint andThen {A B} (p : program A) (k : A → program B) : program B :=
  match p with
  | Return a => k a
  | Ask c next => Ask c (λ answer, andThen (next answer) k)
  end.

Section programs.
Context {D : Type} `{!Decider D}.

Lemma execute_andThen {A B} fuel (p : program A) (k : A → program B) (d : D) :
  execute fuel (andThen p k) d =
  r ← execute fuel p d; match r with None => Done None | Some (d, a) => execute fuel (k a) d end.
Proof.
  revert d. induction p as [a|c next IH]; intros d; simpl; [done |].
  destruct (Choose fuel d c) as [[[d1 answer]|]|]; simpl; [apply IH | done | done].
Qed.

Lemma execute_steady `{!Steady D} {A} fuel (p : program A) (d d' : D) a :
  execute fuel p d = Done (Some (d', a)) → OperationContext d' = OperationContext d.
Proof.
  revert d. induction p as [x|c next IH]; intros d; simpl; [by intros [= <- <-] |].
  destruct (Choose fuel d c) as [[[d1 answer]|]|] eqn:Hd; simpl; try discriminate.
  intros H. apply IH in H. by rewrite H, (steady _ _ _ _ _ Hd).
Qed.
End programs.

(** ** Skeletons *)

Abbreviation Skeleton := (Cluster unit).
Abbreviation Res A := (go (option (Skeleton * (ClusterError + A)))).

Create HintDb rep discriminated.
#[export] Hint Constants Opaque : rep.

Section represent.
Context (enc : Encoders) (fuel : nat) (include : bool).

Definition asks {D} `{!Decider D} (d : D) : Prop := default false (OperationContext d) = include.

Definition plug {D} `{!Decider D} (s : Skeleton) (d : D) : Cluster D :=
  let net := c_net s in
  let r := Network.router net in
  mkCluster (c_config s) (c_members s)
    (Network.mkNet (Network.sim net) (Network.rng net) (Some d)
       (Network.mkRouter (Network.defaultLink r) (Network.links r) (Network.handlers r) (Network.partition r)
          (Network.clone r) (Network.nextPacket r) (Network.r_exhausted r) (Some (raftNetworkDecisions enc fuel))
          (Network.eventTagger r))
       (Network.observed net))
    (c_processes s) (c_checker s) (c_bootstrapped s) (c_violations s) (c_err s).

Definition plugged {D A} `{!Decider D} (d : D) (v : Res A) : go (option (Cluster D * (ClusterError + A))) :=
  r ← v; Done (option_map (λ sr, (plug sr.1 d, sr.2)) r).

Definition played {D A} `{!Decider D} (p : program (Res A)) (d : D) : go (option (Cluster D * (ClusterError + A))) :=
  r ← execute fuel p d; match r with None => Done None | Some (d, v) => plugged d v end.

(** A computation for all deciders, and one that a program stands for. *)
Definition Poly (A : Type) : Type := ∀ D, Decider D → M D A.

Record Rep {A} (m : Poly A) := mkRep {
  rp_program : Skeleton → program (Res A);
  rp_represents : ∀ D (dec : Decider D) (st : Steady D) (d : D) s,
    asks d → m D dec (plug s d) = played (rp_program s) d }.
Arguments mkRep {A m}.
Arguments rp_program {A m}.
Arguments rp_represents {A m}.

(** What only reads and writes the skeleton. *)
Lemma rep_pure {A} (m : Poly A) (m0 : Skeleton → Res A) :
  (∀ D dec (d : D) s, asks d → m D dec (plug s d) = plugged d (m0 s)) → Rep m.
Proof.
  intros H. exists (λ s, Return (m0 s)). intros D dec st d s Hd. by rewrite H.
Qed.

Lemma rep_ext {A} (m m' : Poly A) : (∀ D dec (d : D) s, asks d → m D dec (plug s d) = m' D dec (plug s d)) → Rep m' → Rep m.
Proof. intros H [p Hp]. exists p. intros D dec st d s Hd. by rewrite H, Hp. Qed.

Lemma rep_bind {A B} (m : Poly A) (k : A → Poly B) :
  Rep m → (∀ a, Rep (k a)) → Rep (λ D dec, m D dec ≫= λ a, k a D dec).
Proof.
  intros [p Hp] Hk.
  exists (λ s, andThen (p s) (λ v,
    match v with
    | Panic => Return Panic
    | Done None => Return (Done None)
    | Done (Some (s, inl err)) => Return (Done (Some (s, inl err)))
    | Done (Some (s, inr a)) => rp_program (Hk a) s
    end)).
  intros D dec st d s Hd. unfold mbind, M_bind, played. rewrite Hp by done. unfold played. rewrite execute_andThen.
  destruct (execute fuel (p s) d) as [[[d' v]|]|] eqn:He; simpl; [| done | done].
  apply execute_steady in He.
  destruct v as [[[s' [err|a]]|]|]; simpl; try done. apply (rp_represents (Hk a) D dec st). unfold asks. by rewrite He.
Qed.

Lemma rep_try {A} (m : Poly A) : Rep m → Rep (λ D dec, try (m D dec)).
Proof.
  intros [p Hp]. exists (λ s, andThen (p s) (λ v, Return (r ← v; Done (option_map (λ sr, (sr.1, inr sr.2)) r)))).
  intros D dec st d s Hd. unfold try, played. rewrite Hp by done. unfold played. rewrite execute_andThen.
  destruct (execute fuel (p s) d) as [[[d' v]|]|]; simpl; [| done | done].
  by destruct v as [[[s' r]|]|].
Qed.

Lemma rep_ret {A} (a : A) : Rep (λ D dec, mret a).
Proof. by apply (rep_pure _ (λ s, Done (Some (s, inr a)))). Qed.
Lemma rep_raise {A} err : Rep (λ D dec, raise err : M D A).
Proof. by apply (rep_pure _ (λ s, Done (Some (s, inl err)))). Qed.
Lemma rep_panic {A} : Rep (λ D dec, panic : M D A).
Proof. by apply (rep_pure _ (λ _, Panic)). Qed.
Lemma rep_gets {A} (f : ∀ D, Cluster D → A) (f0 : Skeleton → A) :
  (∀ D (dec : Decider D) (d : D) s, f D (plug s d) = f0 s) → Rep (λ D dec, gets (f D)).
Proof. intros H. apply (rep_pure _ (λ s, Done (Some (s, inr (f0 s))))). intros. unfold gets. by rewrite H. Qed.
Lemma rep_modify (f : ∀ D, Cluster D → Cluster D) (f0 : Skeleton → Skeleton) :
  (∀ D (dec : Decider D) (d : D) s, f D (plug s d) = plug (f0 s) d) → Rep (λ D dec, modify (f D)).
Proof. intros H. apply (rep_pure _ (λ s, Done (Some (f0 s, inr tt)))). intros. unfold modify. by rewrite H. Qed.
Lemma rep_raiseIf b err : Rep (λ D dec, raiseIf b err).
Proof. destruct b; [apply rep_raise | apply rep_ret]. Qed.
Lemma rep_lift {A} (v : go A) : Rep (λ D dec, lift v).
Proof. apply (rep_pure _ (λ s, a ← v; Done (Some (s, inr a)))). intros. unfold lift. by destruct v. Qed.
Lemma rep_sample {A} (v : go (option A)) : Rep (λ D dec, sample v).
Proof.
  apply (rep_pure _ (λ s, r ← v; Done (match r with None => None | Some a => Some (s, inr a) end))).
  intros. unfold sample. by destruct v as [[]|].
Qed.
Lemma rep_check {E A} (w : E → ClusterError) (r : E + A) : Rep (λ D dec, check w r).
Proof. destruct r; [apply rep_raise | apply rep_ret]. Qed.
Lemma rep_if {A} (b : bool) (m k : Poly A) : Rep m → Rep k → Rep (λ D dec, if b then m D dec else k D dec).
Proof. by destruct b. Qed.
Lemma rep_option {A B} (o : option A) (k1 : A → Poly B) (k2 : Poly B) :
  (∀ a, Rep (k1 a)) → Rep k2 → Rep (λ D dec, match o with Some a => k1 a D dec | None => k2 D dec end).
Proof. destruct o; auto. Qed.
Lemma rep_sum {A B E} (r : E + A) (k1 : E → Poly B) (k2 : A → Poly B) :
  (∀ e, Rep (k1 e)) → (∀ a, Rep (k2 a)) → Rep (λ D dec, match r with inl e => k1 e D dec | inr a => k2 a D dec end).
Proof. destruct r; auto. Qed.
Lemma rep_on_sim {A} (f : Simulator.Simulator (Network.delivery Envelope + action) → go (_ * A)) :
  Rep (λ D dec, on_sim f).
Proof.
  apply (rep_pure _ (λ s, '(x, a) ← f (c_sim s); Done (Some (set_c_sim s x, inr a)))). intros. unfold on_sim.
  change (c_sim (plug s d)) with (c_sim s). by destruct (f (c_sim s)) as [[]|].
Qed.

(** ** The parts of the harness *)

Lemma rep_config : Rep (λ D dec, gets c_config).
Proof. by apply (rep_gets (λ D, c_config) c_config). Qed.
Lemma rep_members : Rep (λ D dec, gets c_members).
Proof. by apply (rep_gets (λ D, c_members) c_members). Qed.
Lemma rep_processes : Rep (λ D dec, gets c_processes).
Proof. by apply (rep_gets (λ D, c_processes) c_processes). Qed.
Lemma rep_err : Rep (λ D dec, gets c_err).
Proof. by apply (rep_gets (λ D, c_err) c_err). Qed.
Lemma rep_bootstrapped : Rep (λ D dec, gets c_bootstrapped).
Proof. by apply (rep_gets (λ D, c_bootstrapped) c_bootstrapped). Qed.
Lemma rep_sim : Rep (λ D dec, gets c_sim).
Proof. by apply (rep_gets (λ D, c_sim) c_sim). Qed.
Lemma rep_now : Rep (λ D dec, gets c_now).
Proof. by apply (rep_gets (λ D, c_now) c_now). Qed.

#[local] Hint Resolve rep_ret rep_raise rep_panic rep_raiseIf rep_lift rep_sample rep_check rep_on_sim
  rep_config rep_members rep_processes rep_err rep_bootstrapped rep_sim rep_now : rep.

(** One computation after the other; what is not closed by a hint is left. *)
Ltac rep :=
  repeat first
    [ progress intros
    | solve [auto with rep nocore]
    | apply rep_bind
    | apply rep_try
    | apply rep_if
    | apply rep_option
    | apply rep_sum
    | progress cbv zeta
    | match goal with |- Rep (λ D dec, let '(_, _) := ?x in _) => destruct x end ].

Lemma rep_the_process id : Rep (λ D dec, the_process id).
Proof. unfold the_process. rep. Qed.
Lemma rep_put_process id p : Rep (λ D dec, put_process id p).
Proof. by apply (rep_modify (λ D c, set_c_processes c (<[id := p]> (c_processes c))) (λ c, set_c_processes c (<[id := p]> (c_processes c)))). Qed.
#[local] Hint Resolve rep_the_process rep_put_process : rep.
Lemma rep_update id f : Rep (λ D dec, update id f).
Proof. unfold update. rep. Qed.
Lemma rep_the_node p : Rep (λ D dec, the_node p).
Proof. unfold the_node. rep. Qed.
Lemma rep_known id : Rep (λ D dec, known id).
Proof. unfold known. rep. Qed.
Lemma rep_fail err : Rep (λ D dec, fail err).
Proof.
  set (f := λ D (c : Cluster D), match c_err c with None => set_c_err c (Some err) | Some _ => c end).
  apply (rep_modify f (f unit)). intros D dec d s. unfold f. simpl. by destruct (c_err s).
Qed.
Lemma rep_failed : Rep (λ D dec, failed).
Proof. unfold failed. rep. Qed.
#[local] Hint Resolve rep_update rep_the_node rep_known rep_fail rep_failed : rep.
Lemma rep_orFail (m : Poly unit) : Rep m → Rep (λ D dec, orFail (m D dec)).
Proof. intros Hm. unfold orFail. rep. Qed.

Lemma rep_simCancel event : Rep (λ D dec, simCancel event).
Proof. unfold simCancel. rep. Qed.
#[local] Hint Resolve rep_simCancel : rep.
Lemma rep_cancelEvent event : Rep (λ D dec, cancelEvent event).
Proof. unfold cancelEvent. rep. Qed.
Lemma rep_ScheduleTagged delay tag a : Rep (λ D dec, ScheduleTagged delay tag a).
Proof. unfold ScheduleTagged. rep. Qed.
#[local] Hint Resolve rep_cancelEvent rep_ScheduleTagged : rep.

(** ** Decisions *)

(** The decider is there. *)
Lemma rep_decider {A} (k : ∀ D, Decider D → option D → M D A) (k' : Poly A) :
  (∀ D dec d, k D dec (Some d) = k' D dec) → Rep k' → Rep (λ D dec, gets c_decider ≫= k D dec).
Proof.
  intros H. apply rep_ext. intros D dec d s Hd. rewrite <- (H D dec d). done.
Qed.

Lemma rep_include {A} (k : bool → Poly A) :
  (∀ b, Rep (k b)) → Rep (λ D dec, decider ← gets c_decider; k (Cluster.includeOperationIDs decider) D dec).
Proof.
  intros H. eapply (rep_ext _ (k include)); [| apply H]. intros D dec d s Hd.
  unfold mbind, M_bind, gets. simpl. unfold asks in Hd. by rewrite Hd.
Qed.

(** One question, and the validation of its answer. *)
Lemma rep_chooseDuration id kind minimum maximum context :
  Rep (λ D dec, chooseDuration fuel id kind minimum maximum context).
Proof.
  set (choice := mkChoice id kind [] (Some minimum) (Some maximum) context).
  exists (λ s, Ask choice (λ answer, Return
    match answer with
    | inl err => Done (Some (s, inl (ErrDecision err)))
    | inr selection =>
      invalid ← ValidateSelection choice selection;
      match invalid with
      | Some err => Done (Some (s, inl (ErrDecision err)))
      | None => match Number selection with Some n => Done (Some (s, inr n)) | None => Panic end
      end
    end)).
  intros D dec st d s Hd. unfold chooseDuration, played, mbind, M_bind, gets, sample, modify, lift, check. simpl.
  fold choice. destruct (Choose fuel d choice) as [[[d' [err|selection]]|]|]; simpl; try done.
  destruct (ValidateSelection choice selection) as [[err|]|]; simpl; try done.
  by destruct (Number selection).
Qed.

Lemma rep_randomDuration id minimum maximum : Rep (λ D dec, randomDuration fuel id minimum maximum).
Proof. unfold randomDuration. rep. Qed.
#[local] Hint Resolve rep_chooseDuration rep_randomDuration : rep.

(** ** Timers *)

Lemma rep_resetElectionTimer id : Rep (λ D dec, resetElectionTimer fuel id).
Proof.
  unfold resetElectionTimer. do 3 (apply rep_bind; [rep | intros]). apply rep_if; [rep |].
  do 3 (apply rep_bind; [rep | intros; cbv zeta]). eapply rep_decider; [intros; reflexivity |]. rep.
Qed.

Lemma rep_resetHeartbeatTimer id : Rep (λ D dec, resetHeartbeatTimer id).
Proof. unfold resetHeartbeatTimer. rep. Qed.

Lemma rep_syncRoleTimers id before after : Rep (λ D dec, syncRoleTimers id before after).
Proof. unfold syncRoleTimers. rep. Qed.

Lemma rep_queuedInputIsCurrent p q : Rep (λ D dec, queuedInputIsCurrent p q).
Proof. unfold queuedInputIsCurrent. destruct (q_timer q); rep. Qed.

Lemma rep_cancelProcessEvents id : Rep (λ D dec, cancelProcessEvents id).
Proof. unfold cancelProcessEvents. rep. Qed.
#[local] Hint Resolve rep_resetElectionTimer rep_resetHeartbeatTimer rep_syncRoleTimers rep_queuedInputIsCurrent
  rep_cancelProcessEvents : rep.

(** ** Observation *)

Lemma rep_observe : Rep (λ D dec, observe enc).
Proof.
  apply (rep_pure _ (observe enc)). intros D dec d s Hd.
  unfold observe, plugged, mbind, M_bind, gets, lift, modify. simpl.
  destruct (observeProcesses (c_processes s) (c_members s)) as [nodes|]; simpl; [| done].
  change (c_now (plug s d)) with (c_now s).
  destruct (Check.Observe _ _ _) as [[checker violations]|]; simpl; [| done].
  destruct violations as [|first violations]; [done |].
  destruct (StopOnViolation (c_config s)); [| done]. unfold fail, modify. simpl. by destruct (c_err s).
Qed.
#[local] Hint Resolve rep_observe : rep.

(** ** Effects *)

Lemma rep_persistEffect id token state : Rep (λ D dec, persistEffect enc fuel id token state).
Proof. unfold persistEffect. rep. Qed.

Lemma rep_applyEffect id entry : Rep (λ D dec, applyEffect id entry).
Proof. unfold applyEffect. rep. Qed.

Lemma rep_installEffect id snapshot : Rep (λ D dec, installEffect enc id snapshot).
Proof. unfold installEffect. rep. Qed.

(** Sending in three parts: what comes before the decisions, and the two decisions; the
    packet is scheduled at the end. *)
Section sending.
Context (from to : string) (message : Envelope).
Abbreviation Sent := (Network.NetError + Network.SendResult)%type.
Abbreviation Packet := (Network.Packet Envelope).

Definition sendStart {D} (w : Net D) : Net D * (Sent + (Packet * Network.LinkConfig)) :=
  match Network.handlers (Network.router w) !! from with
  | None => (w, inl (inl Network.ErrUnknownSource))
  | Some _ =>
  match Network.handlers (Network.router w) !! to with
  | None => (w, inl (inl Network.ErrUnknownTarget))
  | Some _ =>
  if Network.r_exhausted (Network.router w) then (w, inl (inl Network.ErrPacketExhausted))
  else
  let '(w, packetID) := Network.allocatePacket w in
  let message := match Network.clone (Network.router w) with Some f => f message | None => message end in
  let packet := Network.mkPacket packetID from to message (Simulator.now (Network.sim w)) in
  if negb (Network.Allows (Network.partition (Network.router w)) from to)
  then let '(w, r) := Network.drop w packet Network.DropPartition 0 false in (w, inl (inr r))
  else (w, inr (packet, Network.linkOf (Network.router w) from to))
  end end.

Definition sendEnd {D} (packet : Packet) (latency : Z) (w : Net D) : go (Net D * Sent) :=
  '(w, failed) ← Network.scheduleDelivery w packet latency;
  match failed with
  | Some err => Done (w, inl err)
  | None =>
    let deliveryAt := Simulator.now (Network.sim w) + latency in
    let w := Network.observe w (Network.mkNetEvent Network.PacketScheduled packet (Simulator.now (Network.sim w))
                                  deliveryAt Network.NotDropped false) in
    Done (w, inr (Network.mkSendResult (Network.PkID packet) true deliveryAt Network.NotDropped))
  end.

(** A computation on the network of a cluster. *)
Definition onNet {D A} (f : Net D → go (option (Net D * A))) : M D A := λ c,
  r ← f (c_net c); Done (option_map (λ wa, (set_c_net c wa.1, inr wa.2)) r).

Definition sendParts : Poly Sent := λ D dec,
  start ← onNet (λ w, Done (Some (sendStart w)));
  match start with
  | inl sent => mret sent
  | inr (packet, link) =>
    lost ← onNet (λ w, Network.decideLoss fuel w packet link);
    match lost with
    | inl err => mret (inl err)
    | inr true => onNet (λ w, let '(w, r) := Network.drop w packet Network.DropLoss 0 false in Done (Some (w, inr r)))
    | inr false =>
      sampled ← onNet (λ w, Network.decideLatency fuel w packet link);
      match sampled with
      | inl err => mret (inl err)
      | inr latency => onNet (λ w, r ← sendEnd packet latency w; Done (Some r))
      end
    end
  end.

Lemma Send_parts D (dec : Decider D) (c : Cluster D) :
  (r ← Network.Send fuel (c_net c) from to message; Done (option_map (λ wa, (set_c_net c wa.1, inr wa.2)) r)) =
  sendParts D dec c.
Proof.
  unfold sendParts, Network.Send, sendStart, onNet, mbind, M_bind. simpl.
  destruct (Network.handlers (Network.router (c_net c)) !! from); [| done].
  destruct (Network.handlers (Network.router (c_net c)) !! to); [| done].
  destruct (Network.r_exhausted _); [done |].
  destruct (Network.allocatePacket (c_net c)) as [w packetID]. cbv zeta. destruct (negb _); [done |]. simpl.
  destruct (Network.decideLoss _ _ _ _) as [[[w1 [err|[]]]|]|]; simpl; try done.
  destruct (Network.decideLatency _ _ _ _) as [[[w2 [err|latency]]|]|]; simpl; try done.
  unfold sendEnd, mbind. simpl. destruct (Network.scheduleDelivery _ _ _) as [[w3 [err|]]|]; done.
Qed.
End sending.

Lemma rep_sendStart from to message : Rep (λ D dec, onNet (λ w, Done (Some (sendStart from to message w)))).
Proof.
  apply (rep_pure _ (onNet (λ w, Done (Some (sendStart from to message w))))). intros D dec d s Hd.
  unfold onNet, sendStart, plugged. simpl.
  destruct (Network.handlers (Network.router (c_net s)) !! from); [| done].
  destruct (Network.handlers (Network.router (c_net s)) !! to); [| done].
  destruct (Network.r_exhausted (Network.router (c_net s))) eqn:Hx; [unfold plug; simpl; by rewrite Hx |].
  unfold Network.allocatePacket. simpl.
  destruct (Network.nextPacket (Network.router (c_net s)) =? max_u64); simpl;
    destruct (Network.Allows (Network.partition (Network.router (c_net s))) from to); unfold plug; simpl; by rewrite ?Hx.
Qed.

(** A decision of the network is one question. *)
Lemma rep_askNetwork {A} (choice : Choice) (k : Network.NetError + Selection → Poly A)
    (f : ∀ D, Decider D → M D A) :
  (∀ D dec (d : D) s, asks d → f D dec (plug s d) =
     r ← askNetwork fuel d choice;
     match r with None => Done None | Some (d', answer) => k answer D dec (plug s (default d d')) end) →
  (∀ answer, Rep (k answer)) → Rep f.
Proof.
  intros Hf Hk.
  exists (λ s, Ask choice (λ answer,
    match answer with
    | inl err => rp_program (Hk (inl (decisionError err))) s
    | inr selection =>
      match ValidateSelection choice selection with
      | Panic => Return Panic
      | Done (Some err) => rp_program (Hk (inl (decisionError err))) s
      | Done None => rp_program (Hk (inr selection)) s
      end
    end)).
  intros D dec st d s Hd. rewrite Hf by done. unfold askNetwork, played. simpl.
  destruct (Choose fuel d choice) as [[[d' [err|selection]]|]|] eqn:Hc; simpl; try done.
  all: assert (asks d') as Hd' by (unfold asks; by rewrite (steady _ _ _ _ _ Hc)).
  - by apply (rp_represents (Hk _) D dec st).
  - destruct (ValidateSelection choice selection) as [[err|]|]; simpl; [| | done];
      by apply (rp_represents (Hk _) D dec st).
Qed.

Lemma rep_decideLoss packet link : Rep (λ D dec, onNet (λ w, Network.decideLoss fuel w packet link)).
Proof.
  apply (rep_askNetwork (lossChoice enc include packet link) (λ answer D dec,
    match answer with
    | inl err => mret (inl err)
    | inr selection =>
      let dropped := String.eqb (SelOption selection) "drop" in
      mret (if (dropped && Rand.feq (Network.LossProbability link) (Rand.FQ 0)) ||
               (negb dropped && Rand.feq (Network.LossProbability link) (Rand.FQ 1))
            then inl Network.ErrInvalidNetworkDecision else inr dropped)
    end)).
  2: { intros [err|selection]; apply rep_ret. }
  intros D dec d s Hd. unfold onNet, Network.decideLoss. simpl. unfold Drop.
  unfold asks in Hd. unfold Cluster.includeOperationIDs. rewrite Hd.
  unfold askNetwork. destruct (Choose _ _ _) as [[[d' [err|selection]]|]|]; simpl; try done.
  destruct (ValidateSelection _ _) as [[err|]|]; done.
Qed.

Lemma rep_decideLatency packet link : Rep (λ D dec, onNet (λ w, Network.decideLatency fuel w packet link)).
Proof.
  apply (rep_askNetwork (latencyChoice enc include packet link) (λ answer D dec,
    match answer with
    | inl err => mret (inl err)
    | inr selection =>
      match Number selection with
      | None => panic
      | Some latency =>
        mret (if (latency <? Network.MinLatency link) || (Network.MaxLatency link <? latency)
              then inl Network.ErrInvalidNetworkDecision else inr latency)
      end
    end)).
  2: { intros [err|selection]; [apply rep_ret |]. destruct (Number selection); [apply rep_ret | apply rep_panic]. }
  intros D dec d s Hd. unfold onNet, Network.decideLatency. simpl. unfold Latency.
  unfold asks in Hd. unfold Cluster.includeOperationIDs. rewrite Hd.
  unfold askNetwork. destruct (Choose _ _ _) as [[[d' [err|selection]]|]|]; simpl; try done.
  destruct (ValidateSelection _ _) as [[err|]|]; simpl; try done. by destruct (Number selection).
Qed.

Lemma rep_sendEnd packet latency : Rep (λ D dec, onNet (λ w, r ← sendEnd packet latency w; Done (Some r))).
Proof.
  apply (rep_pure _ (onNet (λ w, r ← sendEnd packet latency w; Done (Some r)))). intros D dec d s Hd.
  unfold onNet, sendEnd, plugged, Network.scheduleDelivery. simpl.
  destruct (Network.eventTagger (Network.router (c_net s))) as [tagger|] eqn:Ht.
  - destruct (tagger packet) as [err|tag]; simpl; [unfold plug; simpl; by rewrite Ht |].
    destruct (Simulator.ScheduleTagged _ _ _ _) as [[x [|]]|]; unfold plug; simpl; by rewrite ?Ht.
  - destruct (Simulator.Schedule _ _ _) as [[x [|]]|]; unfold plug; simpl; by rewrite ?Ht.
Qed.
#[local] Hint Resolve rep_sendStart rep_decideLoss rep_decideLatency rep_sendEnd : rep.

Lemma rep_dropped packet :
  Rep (λ D dec, onNet (λ w, let '(w, r) := Network.drop w packet Network.DropLoss 0 false in
                            Done (Some (w, inr r : Network.NetError + Network.SendResult)))).
Proof.
  by apply (rep_pure _ (onNet (λ w, let '(w, r) := Network.drop w packet Network.DropLoss 0 false in Done (Some (w, inr r))))).
Qed.
#[local] Hint Resolve rep_dropped : rep.

Lemma rep_sendParts from to message : Rep (sendParts from to message).
Proof.
  unfold sendParts. apply rep_bind; [rep |]. intros [sent|[packet link]]; [rep |].
  apply rep_bind; [rep |]. intros [err|[]]; rep.
Qed.

Lemma rep_sendEffect id message : Rep (λ D dec, sendEffect fuel id message).
Proof.
  unfold sendEffect. do 2 (apply rep_bind; [rep | intros]). rename a0 into p.
  set (envelope := λ b : bool, mkEnvelope (p_incarnation p) (p_sendSequence p)
         (if b then operationIDs (RaftTypes.Entries message) else []) message).
  apply (rep_include (λ b D dec, net ← gets c_net; sent ← sample (Network.Send fuel net id (To message) (envelope b));
     _ ← modify (λ c, set_c_net c sent.1); _ ← check ErrNet sent.2; mret tt)). intros b.
  apply (rep_ext _ (λ D dec, sent ← sendParts id (To message) (envelope b) D dec; _ ← check ErrNet sent; mret tt)).
  - intros D dec d s Hd. unfold mbind, M_bind. rewrite <- Send_parts. unfold gets, sample, modify. simpl.
    by destruct (Network.Send _ _ _ _ _) as [[[w [err|sent]]|]|].
  - apply rep_bind; [apply rep_sendParts | intros sent; rep].
Qed.
#[local] Hint Resolve rep_persistEffect rep_applyEffect rep_installEffect rep_sendEffect : rep.

Lemma rep_processEffect id effect : Rep (λ D dec, processEffect enc fuel id effect).
Proof. destruct effect; simpl; auto with rep nocore. Qed.
#[local] Hint Resolve rep_processEffect : rep.

Lemma rep_processEffects id effects : Rep (λ D dec, processEffects enc fuel id effects).
Proof. induction effects as [|e es IH]; simpl; rep. Qed.

(** ** Inputs *)

Lemma rep_stepNode id n input : Rep (λ D dec, stepNode id n input).
Proof. unfold stepNode. rep. Qed.
#[local] Hint Resolve rep_processEffects rep_stepNode : rep.

Lemma rep_submit id q : Rep (λ D dec, submit enc fuel id q).
Proof. unfold submit. rep. Qed.
#[local] Hint Resolve rep_submit : rep.

Lemma rep_drain id : Rep (λ D dec, drain enc fuel id).
Proof.
  unfold drain. apply rep_bind; [rep | intros p].
  generalize (S (length (p_mailbox p))). intros limit.
  induction limit as [|limit IH]; cbn [drainLoop]; [rep |].
  apply rep_bind; [rep | intros q]. apply rep_if; [rep |]. apply rep_bind; [rep | intros n].
  destruct (Node.AwaitingPersistence n); [rep |]. destruct (p_mailbox q); rep.
Qed.
#[local] Hint Resolve rep_drain : rep.

Lemma rep_receive id packet : Rep (λ D dec, receive enc fuel id packet).
Proof. unfold receive, orFail. rep. Qed.

(** ** The life cycle of processes *)

Lemma rep_start id : Rep (λ D dec, start enc fuel id).
Proof. unfold start. rep. Qed.
#[local] Hint Resolve rep_receive rep_start : rep.

Lemma rep_Crash id : Rep (λ D dec, Crash enc id).
Proof. unfold Crash. rep. Qed.

Lemma rep_Restart id : Rep (λ D dec, Restart enc fuel id).
Proof. unfold Restart. rep. Qed.

Lemma rep_CrashAfterNextPersist id : Rep (λ D dec, CrashAfterNextPersist id).
Proof. unfold CrashAfterNextPersist. rep. Qed.
#[local] Hint Resolve rep_Crash rep_Restart : rep.

Lemma rep_modify_plain (f : ∀ D, Cluster D → Cluster D) :
  (∀ D (dec : Decider D) (d : D) s, f D (plug s d) = plug (f unit s) d) → Rep (λ D dec, modify (f D)).
Proof. apply rep_modify. Qed.

Lemma rep_Bootstrap : Rep (λ D dec, Bootstrap enc fuel).
Proof.
  assert (∀ ids, Rep (λ D dec, startAll enc fuel ids)) as H.
  { induction ids as [|id ids IH]; simpl; rep. }
  unfold Bootstrap. do 3 (apply rep_bind; [rep | intros]). apply rep_bind; [apply H | intros _].
  apply rep_bind; [by apply (rep_modify_plain (λ D c, set_c_bootstrapped c true)) | intros _]. rep.
Qed.

(** ** Callbacks *)

Lemma rep_timerCurrent id inc gen f wanted : Rep (λ D dec, timerCurrent id inc gen f wanted).
Proof. unfold timerCurrent. rep. Qed.
#[local] Hint Resolve rep_timerCurrent : rep.

Lemma rep_runDelivery delivery : Rep (λ D dec, runDelivery enc fuel delivery).
Proof.
  apply (rep_ext _ (λ D dec, handler ← onNet (λ w, Done (Some (Network.arrive w delivery)));
    match handler with Some id => receive enc fuel id (Network.dl_packet delivery) | None => mret tt end)).
  { intros D dec d s Hd. unfold runDelivery, onNet, gets, modify, mbind, M_bind. simpl.
    by destruct (Network.arrive _ _) as [w [id|]]. }
  apply rep_bind; [| intros; rep].
  apply (rep_pure _ (onNet (λ w, Done (Some (Network.arrive w delivery))))). intros D dec d s Hd.
  unfold onNet, plugged, Network.arrive. simpl.
  destruct (negb (Network.Allows (Network.partition (Network.router (c_net s))) _ _)); [done |].
  by destruct (Network.handlers (Network.router (c_net s)) !! _).
Qed.
#[local] Hint Resolve rep_runDelivery : rep.

Section running.
Context {X : Type} (callback : nat → X → Poly X).
Context (rep_callback : ∀ n x, Rep (callback n x)).

Abbreviation the_callback dec := (λ n x, callback n x _ dec).

Lemma rep_runAction a x : Rep (λ D dec, runAction enc fuel (the_callback dec) a x).
Proof using All.
  destruct a; simpl; [| | | | | | apply rep_callback];
    unfold onElectionTimer, onHeartbeatTimer, onStorageCompletion, onPersistenceAck, orFail; rep.
Qed.
#[local] Hint Resolve rep_runAction : rep.

Lemma rep_set_sim x : Rep (λ D dec, modify (λ c : Cluster D, set_c_sim c x)).
Proof. by apply (rep_modify_plain (λ D c, set_c_sim c x)). Qed.
#[local] Hint Resolve rep_set_sim : rep.

Lemma rep_simulatorStep x : Rep (λ D dec, simulatorStep enc fuel (the_callback dec) x).
Proof using All.
  unfold simulatorStep. apply rep_bind; [rep | intros s]. apply rep_bind; [rep | intros [[s' act]|]]; [| rep].
  apply rep_bind; [rep | intros _]. apply rep_bind; [| intros; rep]. destruct act; rep.
Qed.
#[local] Hint Resolve rep_simulatorStep : rep.

Lemma rep_Step x : Rep (λ D dec, Step enc fuel (the_callback dec) x).
Proof using All.
  unfold Step. apply rep_bind; [rep | intros [err|]]; [rep |].
  apply rep_bind; [rep | intros [y ran]]. apply rep_bind; [destruct ran; rep | intros _]. rep.
Qed.

Lemma rep_advanceClock end_ : Rep (λ D dec, advanceClock end_).
Proof.
  apply (rep_pure _ (advanceClock end_)). intros D dec d s Hd. unfold advanceClock, plugged.
  change (c_sim (plug s d)) with (c_sim s).
  by destruct (Simulator.RunUntil _ _ _ _) as [[[x [|]]|]|].
Qed.
#[local] Hint Resolve rep_Step rep_advanceClock : rep.

Lemma rep_RunUntil events end_ x : Rep (λ D dec, RunUntil enc fuel (the_callback dec) events end_ x).
Proof using All.
  unfold RunUntil. do 2 (apply rep_bind; [rep | intros]). destruct a; [rep |]. apply rep_if; [rep |].
  generalize 0. revert x. induction events as [|events IH]; intros x count; cbn [runUntilLoop]; [rep |].
  apply rep_bind; [rep | intros s]. apply rep_bind; [rep | intros [next more]]. apply rep_if; [rep |].
  apply rep_bind; [rep | intros [y [ran err]]]. apply rep_if; [rep | apply IH].
Qed.
End running.

(** ** Clients *)

Lemma rep_clientInput id p input : Rep (λ D dec, clientInput enc fuel id p input).
Proof. unfold clientInput. rep. Qed.

Lemma rep_leaderLoop found ids : Rep (λ D dec, leaderLoop found ids).
Proof. revert found. induction ids as [|id ids IH]; intros found; simpl; rep; apply IH. Qed.

Lemma rep_toLeader (call : NodeID → Poly unit) : (∀ id, Rep (call id)) → Rep (λ D dec, toLeader (λ id, call id D dec)).
Proof.
  intros Hc. unfold toLeader, Leader_. apply rep_bind.
  - apply rep_bind; [rep | intros; apply rep_leaderLoop].
  - intros [id|]; [apply Hc | rep].
Qed.

Lemma rep_liveLeader id : Rep (λ D dec, liveLeader id).
Proof. unfold liveLeader. rep. Qed.
#[local] Hint Resolve rep_clientInput rep_liveLeader : rep.

Lemma rep_ProposeTo id data : Rep (λ D dec, ProposeTo enc fuel id data).
Proof.
  unfold ProposeTo. apply rep_bind; [rep | intros p]. apply rep_bind; [rep | intros conf].
  apply rep_bind; [destruct (Application conf); rep | intros; rep].
Qed.

Lemma rep_snapshot id data : Rep (λ D dec, snapshot enc fuel id data).
Proof. unfold snapshot. rep. Qed.
#[local] Hint Resolve rep_ProposeTo rep_snapshot : rep.

Lemma rep_Snapshot id data : Rep (λ D dec, Cluster.Snapshot enc fuel id data).
Proof. unfold Cluster.Snapshot. rep. Qed.

Lemma rep_SnapshotApplication id : Rep (λ D dec, SnapshotApplication enc fuel id).
Proof. unfold SnapshotApplication. rep. Qed.

Lemma rep_BeginMembershipChangeTo id voters learners : Rep (λ D dec, BeginMembershipChangeTo enc fuel id voters learners).
Proof. unfold BeginMembershipChangeTo. rep. Qed.

Lemma rep_FinalizeMembershipChangeTo id : Rep (λ D dec, FinalizeMembershipChangeTo enc fuel id).
Proof. unfold FinalizeMembershipChangeTo. rep. Qed.

Lemma rep_SetPartition m : Rep (λ D dec, modify (λ c : Cluster D, set_c_net c (Network.SetPartition (c_net c) m))).
Proof. by apply (rep_modify_plain (λ D c, set_c_net c (Network.SetPartition (c_net c) m))). Qed.
#[local] Hint Resolve rep_SetPartition : rep.

Lemma rep_Partition groups : Rep (λ D dec, Partition groups).
Proof. unfold Partition. rep. Qed.

Lemma rep_Heal : Rep (λ D dec, Heal).
Proof. apply rep_SetPartition. Qed.

Lemma rep_Propose data : Rep (λ D dec, Propose enc fuel data).
Proof. unfold Propose. apply (rep_toLeader (λ id D dec, ProposeTo enc fuel id data)). intros; rep. Qed.

Lemma rep_BeginMembershipChange voters learners : Rep (λ D dec, BeginMembershipChange enc fuel voters learners).
Proof.
  unfold BeginMembershipChange. apply (rep_toLeader (λ id D dec, BeginMembershipChangeTo enc fuel id voters learners)).
  intros. apply rep_BeginMembershipChangeTo.
Qed.

Lemma rep_FinalizeMembershipChange : Rep (λ D dec, FinalizeMembershipChange enc fuel).
Proof.
  unfold FinalizeMembershipChange.
  apply (rep_toLeader (λ id D dec, FinalizeMembershipChangeTo enc fuel id)). intros. apply rep_FinalizeMembershipChangeTo.
Qed.

(** ** Reading *)

Lemma rep_Status id : Rep (λ D dec, Cluster.Status id).
Proof. unfold Cluster.Status. rep. Qed.

Lemma rep_Store id : Rep (λ D dec, Store_ id).
Proof. unfold Store_. rep. Qed.

Lemma rep_ApplicationCommitment id : Rep (λ D dec, ApplicationCommitment enc id).
Proof. unfold ApplicationCommitment. rep. Qed.

(** ** New clusters

    A cluster with a decider is a skeleton with the decider put into it. *)

Lemma registerAll_skeleton {D} `{!Decider D} (net : Net unit) (d : D) ids :
  let with_decider (w : Net unit) : Net D := c_net (plug (mkCluster (DefaultConfig []) [] w ∅ (Check.New []) false [] None) d) in
  registerAll (with_decider net) ids =
  match registerAll net ids with inl err => inl err | inr net => inr (with_decider net) end.
Proof.
  cbv zeta. revert net. induction ids as [|id ids IH]; intros net; simpl; [done |].
  unfold Network.Register. destruct (String.eqb id ""); [done |]. simpl.
  destruct (Network.handlers (Network.router net) !! id) eqn:Hh; [done |]. rewrite <- IH. done.
Qed.

Lemma NewPaused_skeleton {D} `{!Decider D} config (d : D) `{!Decider unit} :
  NewPaused enc fuel config (Some d) =
  match NewPaused (D := unit) enc fuel config None with inl err => inl err | inr s => inr (plug s d) end.
Proof.
  unfold NewPaused. destruct (validateConfig config); [done |]. cbv zeta.
  destruct (Rand.Split _) as [root random]. unfold Network.NewRouter. destruct (Network.Validate _); [done |].
  match goal with |- context [@registerAll unit ?n ?l] => set (net := n) end.
  match goal with |- context [@registerAll D ?n ?l] =>
    change n with (c_net (plug (mkCluster (DefaultConfig []) [] net ∅ (Check.New []) false [] None) d)) end.
  rewrite registerAll_skeleton. by destruct (registerAll net _).
Qed.
End represent.

#[export] Hint Resolve rep_ret rep_raise rep_panic rep_raiseIf rep_lift rep_sample rep_check rep_on_sim
  rep_config rep_members rep_processes rep_err rep_bootstrapped rep_sim rep_now rep_the_process
  rep_put_process rep_update rep_the_node rep_known rep_fail rep_failed rep_simCancel rep_cancelEvent
  rep_ScheduleTagged rep_chooseDuration rep_randomDuration rep_resetElectionTimer rep_resetHeartbeatTimer
  rep_syncRoleTimers rep_queuedInputIsCurrent rep_cancelProcessEvents rep_observe rep_sendStart
  rep_decideLoss rep_decideLatency rep_sendEnd rep_dropped rep_persistEffect rep_applyEffect
  rep_installEffect rep_sendEffect rep_processEffect rep_processEffects rep_stepNode rep_submit rep_drain
  rep_receive rep_start rep_Crash rep_Restart rep_timerCurrent rep_runDelivery rep_advanceClock
  rep_clientInput rep_liveLeader rep_ProposeTo rep_snapshot rep_SetPartition rep_Bootstrap
  rep_CrashAfterNextPersist rep_Snapshot rep_SnapshotApplication rep_BeginMembershipChangeTo
  rep_FinalizeMembershipChangeTo rep_Propose rep_BeginMembershipChange rep_FinalizeMembershipChange rep_Partition rep_Heal rep_Status rep_Store rep_ApplicationCommitment : rep.

(** The tactic of the section, outside of it. *)
Ltac rep :=
  repeat first
    [ progress intros
    | solve [auto with rep nocore]
    | apply rep_bind
    | apply rep_try
    | apply rep_if
    | apply rep_option
    | apply rep_sum
    | progress cbv zeta
    | match goal with |- Rep _ _ _ (λ D dec, let '(_, _) := ?x in _) => destruct x end ].
