(* ===== verification/ExperimentReplay.v ===== *)
(** * A recorded experiment replays exactly (experiment/experiment.go)

    An experiment is a program over its decider, so the tape of a recorded execution
    reproduces it: the same outcome, to the last choice. *)

From S2P Require Export ClusterProgram Experiment.
From S2P Require Import Prelude RaftTypes Membership Outcome Scenario Artifact ArtifactProps ClusterProps ExperimentProps.
From S2P Require Import Decision DecisionProps.
From S2P Require Node Heap Simulator Network Check AppOracle Rand.
From stdpp Require Import options.

#[global] Open Scope Z_scope.

Section replay.
Context (enc : Encoders) (texts : Texts) (fuel : nat) (include : bool).
Abbreviation Rep := (Rep enc fuel include).

Lemma rep_call (m : Poly unit) : Rep m → Rep (λ D dec, call (m D dec)).
Proof. intros Hm. unfold call. rep. Qed.

Lemma rep_applyAction action : Rep (λ D dec, applyAction enc fuel action).
Proof.
  unfold applyAction. cbv zeta.
  repeat (apply rep_if; [apply rep_call; try apply rep_if; auto with rep nocore |]). rep.
Qed.

Lemma rep_actionCallback application actions n err : Rep (λ D dec, actionCallback enc fuel application actions n err).
Proof.
  unfold actionCallback, performAction. apply rep_option; [intros a | rep].
  apply rep_option; [intros; rep |]. apply rep_if; [apply rep_call; rep | apply rep_applyAction].
Qed.

Lemma rep_scheduleActions n actions : Rep (λ D dec, scheduleActions texts n actions).
Proof. revert n. induction actions as [|a actions IH]; intros n; simpl; rep; apply IH. Qed.

Lemma rep_liveStatus id : Rep (λ D dec, liveStatus id).
Proof. unfold liveStatus. apply rep_bind; [rep | intros [[]|]]; rep. Qed.
#[local] Hint Resolve rep_actionCallback rep_scheduleActions rep_liveStatus : rep.

Lemma rep_snapshotNodes ids : Rep (λ D dec, snapshotNodes ids).
Proof. induction ids as [|id ids IH]; simpl; rep. Qed.

Lemma rep_applicationNodes ids : Rep (λ D dec, applicationNodes enc ids).
Proof. induction ids as [|id ids IH]; simpl; rep. Qed.

Lemma rep_Members : Rep (λ D dec, gets Members).
Proof. by apply (rep_gets _ _ _ (λ D, Members) Members). Qed.
Lemma rep_Violations : Rep (λ D dec, gets Violations_).
Proof. by apply (rep_gets _ _ _ (λ D, Violations_) Violations_). Qed.
#[local] Hint Resolve rep_snapshotNodes rep_applicationNodes rep_Members rep_Violations : rep.

Lemma rep_digest (application : bool) violations :
  Rep (λ D dec, if application then applicationSnapshotDigest enc texts violations else snapshotDigest texts violations).
Proof. unfold applicationSnapshotDigest, snapshotDigest. rep. Qed.
#[local] Hint Resolve rep_digest : rep.

Section run.
Context (scenario : Scenario) (configuration : Configuration) (application : bool).

Lemma rep_stepLoop limit steps err :
  Rep (λ D dec, stepLoop enc texts fuel None scenario configuration application limit steps err).
Proof.
  revert steps err. induction limit as [|limit IH]; intros steps err; cbn [stepLoop]; [rep |].
  apply rep_if; [rep |]. apply rep_bind; [rep | intros s]. apply rep_bind; [rep | intros [next more]].
  apply rep_if; [rep |]. apply rep_if; [rep |].
  apply rep_bind; [unfold beforeEvent; rep | intros [e|[preEvent before]]]; [rep |].
  apply rep_bind.
  { apply (rep_Step enc fuel include (λ n x D dec, actionCallback enc fuel application (Actions scenario) n x)).
    intros; rep. }
  intros [v [ran [e|]]]; simpl; [rep | apply IH].
Qed.

Lemma rep_finishTime limit p : Rep (λ D dec, finishTime enc fuel scenario application limit p).
Proof.
  unfold finishTime. destruct (pg_runErr p); [rep |]. destruct (pg_actionErr p); [rep |].
  destruct (pg_exhausted p); [rep |]. apply rep_bind; [| intros r; rep].
  apply (rep_RunUntil enc fuel include (λ n x D dec, actionCallback enc fuel application (Actions scenario) n x)).
  intros; rep.
Qed.

Lemma rep_conclude p : Rep (λ D dec, conclude enc texts application p).
Proof.
  unfold conclude. cbv zeta. destruct (if openChoice _ then _ else None); [rep |].
  apply rep_bind; [rep | intros violations]. apply rep_bind; [rep | intros digest]. rep.
Qed.

Lemma rep_executeScheduledCore :
  Rep (λ D dec, executeScheduledCore enc texts fuel None scenario configuration application).
Proof.
  unfold executeScheduledCore. apply rep_bind; [rep | intros _].
  apply rep_bind; [apply rep_stepLoop | intros [[result|p]|]]; [rep | | rep].
  apply rep_bind; [apply rep_finishTime | intros [p'|]]; [| rep].
  apply rep_bind; [apply rep_conclude | intros result; rep].
Qed.
End run.

(** ** An experiment is a program *)

Abbreviation Answer := (go (option (ExperimentError + Outcome))).

(** What [executeScheduled] makes of the result of the core. *)
Definition answer_of (v : Res (option executed)) : Answer :=
  r ← v;
  Done match r with
       | None | Some (_, inr None) => None
       | Some (_, inl err) => Some (inl (ErrCluster err))
       | Some (_, inr (Some (Finished outcome))) => Some (inr outcome)
       | Some (_, inr (Some (OpenFrontier _ err))) | Some (_, inr (Some (Failed err))) => Some (inl err)
       end.

(** Running a program for its answer, as an execution returns it. *)
Definition answers {D} `{!Decider D} (p : program Answer) (d : D)
    : go (option (option D * (ExperimentError + Outcome))) :=
  r ← execute fuel p d;
  match r with
  | None => Done None
  | Some (d, v) => a ← v; Done (option_map (λ x, (Some d, x)) a)
  end.

#[local] Instance no_decider_at_all : Decider unit := {| Choose := λ _ _ _, Panic; OperationContext := λ _, None |}.

Lemma scheduled_program config scenario application :
  ∃ p, ∀ D (dec : Decider D) (st : Steady D) (d : D), asks include d →
    withCluster enc fuel config (Some d) (executeScheduled enc texts fuel scenario application) = answers p d.
Proof.
  set (conf := mkConfiguration [] [] [] 0 0 0 (Rand.FQ 0%Q) 0 0 0 0 false false false).
  destruct (rep_Bootstrap enc fuel include) as [pb Hpb].
  destruct (rep_executeScheduledCore scenario conf application) as [pe Hpe].
  destruct (NewPaused (D := unit) enc fuel config None) as [err|s] eqn:Hs.
  { exists (Return (Done (Some (inl (ErrCluster err))))). intros D dec st d Hd.
    unfold withCluster, Cluster.New. by rewrite (NewPaused_skeleton enc fuel config d (Decider1 := no_decider_at_all)), Hs. }
  exists (andThen (pb s) (λ v, match v with
    | Panic => Return Panic
    | Done None => Return (Done None)
    | Done (Some (s, inl err)) => Return (Done (Some (inl (ErrCluster err))))
    | Done (Some (s, inr _)) => andThen (pe s) (λ v, Return (answer_of v))
    end)).
  intros D dec st d Hd. unfold withCluster, Cluster.New, answers.
  rewrite (NewPaused_skeleton enc fuel config d (Decider1 := no_decider_at_all)), Hs, Hpb, execute_andThen by done. unfold played.
  destruct (execute fuel (pb s) d) as [[[d' v]|]|] eqn:He; simpl; [| done | done].
  apply execute_steady in He. assert (asks include d') as Hd' by (unfold asks; by rewrite He).
  destruct v as [[[s' [err|[]]]|]|]; simpl; try done.
  unfold executeScheduled, executed_by. fold conf. rewrite (Hpe D dec st d' s' Hd'), execute_andThen.
  unfold played. destruct (execute fuel (pe s') d') as [[[d2 v]|]|]; simpl; [| done | done].
  by destruct v as [[[s2 [err|[[outcome|f err|err]|]]]|]|].
Qed.

(** Either entry point: proposals are opaque, or those of a portable application. *)
Definition run_experiment {D} `{!Decider D} (scenario : Scenario) (configuration : Configuration)
    (application : option AppOracle.AppConfig) (decider : option D) :=
  match application with
  | None => Execute enc texts fuel scenario configuration decider
  | Some application => ExecuteWithApplication enc texts fuel scenario configuration decider application
  end.

Lemma experiment_program scenario configuration application :
  ∃ p, ∀ D (dec : Decider D) (st : Steady D) (d : D), asks include d →
    run_experiment scenario configuration application (Some d) = answers p d.
Proof.
  assert (∀ err, ∃ p, ∀ D (dec : Decider D) (st : Steady D) (d : D), asks include d →
    Done (Some (Some d, inl err)) = answers p d) as Hfail.
  { intros err. by exists (Return (Done (Some (inl err)))). }
  destruct application as [application|]; cbn [run_experiment]; [unfold ExecuteWithApplication | unfold Execute].
  - destruct (negb _); [apply Hfail |]. destruct (AppOracle.ValidateConfig application); [apply Hfail |].
    destruct (validateApplicationScenario scenario true); [apply Hfail |]. apply scheduled_program.
  - destruct (negb _); [apply Hfail |]. apply scheduled_program.
Qed.
End replay.

(** ** Theorems *)

(** C32.  A recorded experiment replays exactly.  An execution is recorded, whatever decider answers it
    and however it ends, and the recorder has not failed: then its tape is accepted by the
    replaying decider, the same experiment under the tape has the same result, outcome or
    error, and the tape is used up to its last entry. *)
Theorem recorded_experiment_replays {D} `{!Decider D} `{!Steady D} enc texts fuel scenario configuration application
    (b : D) r result :
  run_experiment (D := Recorder D) enc texts fuel scenario configuration application (Some (NewRecorder (Some b))) =
    Done (Some (Some r, result)) →
  Err r = None →
  ∃ td td',
    newTapeDecider (RecordedTape r) (default false (OperationContext b)) = Done (inr td) ∧
    run_experiment (D := TapeDecider) enc texts fuel scenario configuration application (Some td) =
      Done (Some (Some td', result)) ∧
    Finish td' = None.
Proof.
  intros Hrun Herr. set (include := default false (OperationContext b)).
  destruct (experiment_program enc texts fuel include scenario configuration application) as [p Hp].
  rewrite (Hp _ recorder_decider _ (NewRecorder (Some b)) eq_refl) in Hrun. unfold answers in Hrun.
  destruct (execute fuel p (NewRecorder (Some b))) as [[[r' v]|]|] eqn:He; try discriminate Hrun.
  cbn [mbind go_bind] in Hrun. destruct v as [[x|]|]; simpl in Hrun; try discriminate Hrun. injection Hrun as -> ->.
  destruct (recorder_replay fuel p (Some b) [] r (Done (Some result)) He Herr) as (es & Hes & Hok & Hreplay).
  simpl in Hes. subst es.
  destruct (newTapeDecider_spec (RecordedTape r) include) as [(_ & _ & Htd) | [Hno _]].
  2: { exfalso. apply Hno. unfold RecordedTape. rewrite cloneTape_id. by split. }
  eexists _, _. split; [exact Htd |].
  rewrite (Hp _ tape_decider _ (mkTapeDecider (RecordedTape r) 0 include) eq_refl). unfold answers.
  assert (Entries (RecordedTape r) = entries r) as Het by (unfold RecordedTape; by rewrite cloneTape_id).
  assert (execute fuel p (mkTapeDecider (RecordedTape r) 0 include) =
          Done (Some (mkTapeDecider (RecordedTape r) (length (entries r)) include, Done (Some result)))) as ->.
  { apply (Hreplay (RecordedTape r) [] [] include fuel). by rewrite Het, app_nil_r. }
  split; [reflexivity |]. unfold Finish. cbn [tindex tape]. by rewrite Het, Nat.eqb_refl.
Qed.

(** ** The demonstration recorded and replayed *)

Definition demo_recorded :=
  run_experiment demo_encoders demo_texts 10 short_scenario demo_configuration None
    (Some (NewRecorder (Some (NewSeedDecider 1)))).

Lemma demo_recorder_sound :
  match demo_recorded with
  | Done (Some (Some r, inr outcome)) =>
    bool_decide (Err r = None) && (length (entries r) =? 4)%nat && (Steps outcome =? 4)
  | _ => false
  end = true.
Proof. vm_compute. reflexivity. Qed.

Lemma recorded_experiment_replays_witness :
  ∃ r outcome td td', demo_recorded = Done (Some (Some r, inr outcome)) ∧ Steps outcome = 4 ∧
    newTapeDecider (RecordedTape r) false = Done (inr td) ∧
    run_experiment demo_encoders demo_texts 10 short_scenario demo_configuration None (Some td) =
      Done (Some (Some td', inr outcome)) ∧ Finish td' = None.
Proof.
  pose proof demo_recorder_sound as H. destruct demo_recorded as [[[[r|] [err|outcome]]|]|] eqn:E; try discriminate H.
  apply andb_true_iff in H as [H Hsteps]. apply andb_true_iff in H as [Herr _].
  apply bool_decide_eq_true_1 in Herr. apply Z.eqb_eq in Hsteps.
  destruct (recorded_experiment_replays demo_encoders demo_texts 10 short_scenario demo_configuration None
    (NewSeedDecider 1) r (inr outcome) E Herr) as (td & td' & H1 & H2 & H3).
  exists r, outcome, td, td'. split; [reflexivity |]. split; [exact Hsteps |]. split; [exact H1 |]. split; [exact H2 | exact H3].
Defined.
