(* ===== verification/Semantic.v ===== *)
(** * Semantic executions on the reference adapter (experiment/semantic.go)

    A portable plan is run on a cluster: its configuration, its application, a recorder
    around the projector of its directives, its scenario; what comes out is the evidence of
    an execution.  A causal plan answers by operation instead of by occurrence.

    The build data are a parameter, as are JSON texts and the texts of errors. *)

From S2P Require Import Prelude RaftTypes Membership Outcome Scenario Artifact.
From S2P Require Import Cluster Experiment.
From S2P Require Node Decision Check AppOracle Rand Minimize Digest JsonEnc Sha256.
From S2P Require Import Projector Normalized Plan Execution Causal.
From Stdlib Require Import QArith.QArith.
From stdpp Require Import options.

#[global] Open Scope Z_scope.

Inductive RunError :=
| ErrSemantic (e : SemanticError)
| ErrProjector (e : ProjError)
| ErrSemanticIneligible (rejections : list string)
| ErrRun (e : ExperimentError)
| ErrRecorder (e : Decision.DecisionError).

Definition ReferenceSemanticCapabilities : Capabilities :=
  mkCapabilities AdapterCapabilitiesSchema (mkAdapter ReferenceAdapterID ReferenceAdapterCurrent)
    (Some [MembershipFixedAllVoters]) (Some V1Actions) (Some [AppOracle.CommandSchema]) (Some V1ProjectionKinds)
    (Some [Check.AppliedConflict; Check.AppliedMonotonic; Check.CommitMonotonic; Check.CommittedConflict;
           Check.DurableDoubleVote; Check.DurableTermMonotonic; Check.ElectionCertificate; Check.ElectionSafety;
           Check.LeaderCompleteness; Check.LogMatching; Check.MembershipTransition; Check.SnapshotConflict;
           Check.VolatileDurableMatch]).

(** The preflight of a plan against the adapter itself, and what follows it. *)
Definition eligible {A} (plan : Plan) (k : go (option (RunError + A))) : go (option (RunError + A)) :=
  let capabilities := ReferenceSemanticCapabilities in
  match Preflight plan capabilities capabilities with
  | inl err => Done (Some (inl (ErrSemantic err)))
  | inr eligibility =>
    if negb (Eligible eligibility) then Done (Some (inl (ErrSemanticIneligible (Rejections eligibility)))) else k
  end.

Definition planConfig (plan : Plan) : ClusterConfig :=
  applicationConfig (ClusterConfig_ (PlConfiguration plan)) (PlApplication plan).

#[local] Existing Instance Decision.recorder_decider.

Section runs.
Context (enc : Encoders) (texts : Texts) (fuel : nat).

Section decider.
Context {D : Type} `{!Decision.Decider D}.

(** The recorder and what it wraps, which the cluster shares with its caller. *)
Definition recorded_by (d : option (Decision.Recorder D)) : go (Decision.Recorder D * D) :=
  match d with
  | Some r => match Decision.base r with Some b => Done (r, b) | None => Panic end
  | None => Panic
  end.

(** A cluster of the plan: the error of its construction, or a computation on it with the
    decider it leaves. *)
Definition planned {A} (plan : Plan) (d : D) (run : M (Decision.Recorder D) (option (ExperimentError + A)))
    : go (option ((Decision.Recorder D * D) * (ClusterError + (ExperimentError + A)))) :=
  created ← Cluster.New enc fuel (planConfig plan) (Some (Decision.NewRecorder (Some d)));
  match created with
  | None => Done None
  | Some (r, inl err) => rb ← recorded_by r; Done (Some (rb, inl err))
  | Some (_, inr c) =>
    ran ← run c;
    match ran with
    | None | Some (_, inr None) => Done None
    | Some (c, inl err) => rb ← recorded_by (c_decider c); Done (Some (rb, inr (inl (ErrCluster err))))
    | Some (c, inr (Some result)) => rb ← recorded_by (c_decider c); Done (Some (rb, inr result))
    end
  end.

(** [executeScheduledApplication] on the cluster of a plan. *)
Definition applicationRun (plan : Plan) : M (Decision.Recorder D) (option (ExperimentError + Outcome)) :=
  result ← executeScheduledCore enc texts fuel None (PlScenario plan)
             (mkConfiguration [] [] [] 0 0 0 (Rand.FQ 0%Q) 0 0 0 0 false false false) true;
  mret match result with
       | None => None
       | Some (Finished outcome) => Some (inr outcome)
       | Some (OpenFrontier _ err) | Some (Failed err) => Some (inl err)
       end.

Fixpoint memberCommitments (members : list NodeID) : M (Decision.Recorder D) (gmap NodeID AppOracle.Commitment) :=
  match members with
  | [] => mret ∅
  | member :: members =>
    commitment ← ApplicationCommitment enc member;
    commitments ← memberCommitments members;
    mret (<[member := commitment]> commitments)
  end.

Definition semanticRun (plan : Plan)
    : M (Decision.Recorder D) (option (ExperimentError + (Outcome * gmap NodeID AppOracle.Commitment))) :=
  result ← applicationRun plan;
  match result with
  | None => mret None
  | Some (inl err) => mret (Some (inl err))
  | Some (inr outcome) =>
    members ← gets Members;
    commitments ← memberCommitments members;
    mret (Some (inr (outcome, commitments)))
  end.
End decider.

Section documents.
Context (build : Minimize.Build) (marshalPlan : Plan → option bytes) (marshalExecution : SemanticExecution → option bytes).

Definition newExecution (plan : Plan) (projector : Projector) (recorder : Decision.Recorder Projector)
    (outcome : option Outcome) (operationalError : string) (nodes : list NodeCommitment)
    : go (option (RunError + SemanticExecution)) :=
  r ← NewEligibleExecution marshalPlan marshalExecution fuel plan ReferenceSemanticCapabilities
        (Minimize.NewReproducibility build (FallbackSeed plan)) (ProjectorFinish projector) (Decision.RecordedTape recorder)
        outcome operationalError (Some nodes);
  Done match r with
       | None => None
       | Some (inl err) => Some (inl (ErrSemantic err))
       | Some (inr execution) => Some (inr execution)
       end.

Definition ExecuteSemanticPlan (plan : Plan) : go (option (RunError + SemanticExecution)) :=
  eligible plan
    match NewProjector (items (PlDirectives plan)) (FallbackSeed plan) with
    | inl err => Done (Some (inl (ErrProjector err)))
    | inr projector =>
      ran ← planned plan projector (semanticRun plan);
      match ran with
      | None => Done None
      | Some ((recorder, projector), inl err) =>
        newExecution plan projector recorder None (clusterErrorText texts err) []
      | Some (_, inr (inl err)) => Done (Some (inl (ErrRun err)))
      | Some ((recorder, projector), inr (inr (outcome, commitments))) =>
        match NormalizeNodeCommitments (Some commitments) with
        | inl err => Done (Some (inl (ErrSemantic err)))
        | inr (nodes, _) => newExecution plan projector recorder (Some outcome) "" nodes
        end
      end
    end.
End documents.

(** What the two causal executions return: an outcome or an error, or both when only the
    recorder failed, with the evidence so far. *)
Record CausalRun := mkCausalRun {
  cr_outcome : option Outcome; cr_report : CausalProjectionReport; cr_tape : Decision.Tape; cr_err : option RunError }.
Record CausalSource := mkCausalSource {
  cs_outcome : option Outcome; cs_tape : Decision.Tape; cs_err : option RunError }.

Definition outcome_and_error (result : ClusterError + (ExperimentError + Outcome)) : option Outcome * option RunError :=
  match result with
  | inl err => (None, Some (ErrRun (ErrCluster err)))
  | inr (inl err) => (None, Some (ErrRun err))
  | inr (inr outcome) => (Some outcome, None)
  end.

(** The first error is returned with nothing else. *)
Definition ExecuteCausalPlan (plan : Plan) (source : Decision.Tape) : go (option (RunError + CausalRun)) :=
  eligible plan
    (directives ← CausalDirectivesFromTape source;
     match directives with
     | inl err => Done (Some (inl (ErrSemantic err)))
     | inr directives =>
       match NewCausalProjector directives (FallbackSeed plan) with
       | inl err => Done (Some (inl (ErrSemantic err)))
       | inr projector =>
         ran ← planned plan projector (applicationRun plan);
         Done match ran with
              | None => None
              | Some ((recorder, projector), result) =>
                let '(outcome, err) := outcome_and_error result in
                Some (inr (mkCausalRun outcome (CausalFinish projector) (Decision.RecordedTape recorder) err))
              end
       end
     end).

#[local] Existing Instance Decision.causal_seed_decider.

Definition ExecuteCausalSourcePlan (plan : Plan) (seed : Z) : go (option (RunError + CausalSource)) :=
  eligible plan
    (ran ← planned plan (Decision.NewCausalSeedDecider seed) (applicationRun plan);
     Done match ran with
          | None => None
          | Some ((recorder, _), result) =>
            let '(outcome, err) := outcome_and_error result in
            let err := match err, Decision.Err recorder with
                       | None, Some failed => Some (ErrRecorder failed)
                       | err, _ => err
                       end in
            Some (inr (mkCausalSource outcome (Decision.RecordedTape recorder) err))
          end).
End runs.

(** * Canonical workloads (experiment/canonical.go)

    The named, immutable input of the published comparison of two adapters: its scenario, its
    configuration and its decision seed, and the check that binds a name to them.  The JSON
    text of an input is a parameter. *)

Definition PortableFaultsV1 : string := "portable-faults-v1".
Definition PortableFaultsV1DecisionSeed : Z := 1.

Inductive CanonicalError :=
| ErrUnknownScenario (name : string)
| ErrWorkload (e : AppOracle.AppError)
| ErrInvalidWorkload
| ErrInput (e : ExperimentError)
| ErrInputMismatch (name : string).

(** ** The workload *)

Definition ms (n : Z) : Z := n * 1000000.
Definition externalAction (at_ : Z) (kind : string) (node : NodeID) (data : bytes) (groups : list (list NodeID)) : Action :=
  mkAction at_ kind node data groups [] [] false false.

(** The command of one ordinal, as an action. *)
Definition appendPut (at_ ordinal : Z) : AppOracle.AppError + Action :=
  match AppOracle.EncodeCommand (AppOracle.mkCommand (replicate 15 x00 ++ [Digest.byte_of ordinal]) AppOracle.Put
          (str "key-" ++ JsonEnc.encode_int ordinal) (str "value-" ++ JsonEnc.encode_int ordinal)) with
  | inl err => inl err
  | inr encoded => inr (externalAction at_ ActionPropose "" encoded [])
  end.

Definition faultsScenario (put1 put2 put3 put4 : Action) : Scenario :=
  mkScenario "semantic/portable-faults" "1" (ms 5000) 500000
    [put1; externalAction (ms 800) ActionPartition "" [] [["a"; "b"]; ["c"]]; put2;
     externalAction (ms 1400) ActionHeal "" [] []; externalAction (ms 1600) ActionCrash "c" [] []; put3;
     externalAction (ms 2200) ActionRestart "c" [] []; put4].

(** The probability is the float64 nearest to 0.02. *)
Definition faultsConfiguration : Configuration :=
  mkConfiguration ["a"; "b"; "c"] [] [] 19 (ms 1) (ms 5) (Rand.FQ (5764607523034235 # 288230376151711744))
    (ms 100) (ms 200) (ms 20) (ms 1) true false false.

Definition portableFaultsV1 : CanonicalError + (Scenario * Configuration) :=
  match appendPut (ms 600) 1, appendPut (ms 1000) 2, appendPut (ms 1800) 3, appendPut (ms 2400) 4 with
  | inr put1, inr put2, inr put3, inr put4 =>
    let scenario := faultsScenario put1 put2 put3 put4 in
    if ValidateExperiment scenario faultsConfiguration then inr (scenario, faultsConfiguration) else inl ErrInvalidWorkload
  | inl err, _, _, _ | _, inl err, _, _ | _, _, inl err, _ | _, _, _, inl err => inl (ErrWorkload err)
  end.

Definition Canonical (name : string) : CanonicalError + (Scenario * Configuration) :=
  if String.eqb name PortableFaultsV1 then portableFaultsV1 else inl (ErrUnknownScenario name).

Definition CanonicalDecisionSeed (name : string) : CanonicalError + Z :=
  if String.eqb name PortableFaultsV1 then inr PortableFaultsV1DecisionSeed else inl (ErrUnknownScenario name).

Definition CanonicalName (scenario : Scenario) : option string :=
  if String.eqb (ScID scenario) "semantic/portable-faults" && String.eqb (ScVersion scenario) "1"
  then Some PortableFaultsV1 else None.

(** ** Verification *)

Section verify.
Context (marshalInput : Scenario → Configuration → Z → option bytes).

Definition canonicalInputDigest (scenario : Scenario) (configuration : Configuration) (seed : Z) : ExperimentError + string :=
  DigestJSON (marshalInput scenario configuration seed).

Definition VerifyCanonical (name : string) (scenario : Scenario) (configuration : Configuration) (seed : Z) : option CanonicalError :=
  match Canonical name with
  | inl err => Some err
  | inr (expectedScenario, expectedConfiguration) =>
    match CanonicalDecisionSeed name with
    | inl err => Some err
    | inr expectedSeed =>
      match canonicalInputDigest expectedScenario expectedConfiguration expectedSeed with
      | inl err => Some (ErrInput err)
      | inr expectedDigest =>
        match canonicalInputDigest scenario configuration seed with
        | inl err => Some (ErrInput err)
        | inr actualDigest => if String.eqb actualDigest expectedDigest then None else Some (ErrInputMismatch name)
        end
      end
    end
  end.

(** ** Facts *)

(** The workload exists, and is a portable one: its commands decode, with distinct identifiers. *)
Lemma workload_exists :
  ∃ scenario, Canonical PortableFaultsV1 = inr (scenario, faultsConfiguration) ∧
    CanonicalName scenario = Some PortableFaultsV1 ∧ ValidateExperiment scenario faultsConfiguration = true ∧
    validateApplicationScenario scenario false = None.
Proof using Type.
  assert (match Canonical PortableFaultsV1 with
          | inr (scenario, configuration) =>
            bool_decide (CanonicalName scenario = Some PortableFaultsV1) && ValidateExperiment scenario faultsConfiguration &&
            match validateApplicationScenario scenario false with None => true | Some _ => false end
          | inl _ => false
          end = true) as H by (vm_compute; reflexivity).
  assert (match Canonical PortableFaultsV1 with inr (_, configuration) => configuration = faultsConfiguration | inl _ => False end) as Hc
    by (vm_compute; reflexivity).
  destruct (Canonical PortableFaultsV1) as [|[scenario configuration]]; [done |]. subst configuration. exists scenario.
  rewrite !andb_true_iff in H. destruct H as [[H1 H2] H3]. apply bool_decide_eq_true_1 in H1. split_and!; try done.
  by destruct (validateApplicationScenario scenario false).
Qed.

(** What is verified under a name is the named input, or collides with it. *)
Lemma verified_input name scenario configuration seed :
  VerifyCanonical name scenario configuration seed = None →
  ∃ expectedScenario expectedConfiguration expectedSeed raw raw',
    Canonical name = inr (expectedScenario, expectedConfiguration) ∧ CanonicalDecisionSeed name = inr expectedSeed ∧
    marshalInput expectedScenario expectedConfiguration expectedSeed = Some raw ∧
    marshalInput scenario configuration seed = Some raw' ∧ (raw = raw' ∨ Digest.collision).
Proof using Type.
  unfold VerifyCanonical, canonicalInputDigest, DigestJSON. destruct (Canonical name) as [|[s c]]; [done |].
  destruct (CanonicalDecisionSeed name) as [|d]; [done |]. destruct (marshalInput s c d) as [raw|] eqn:E; [| done].
  destruct (marshalInput scenario configuration seed) as [raw'|] eqn:E'; [| done].
  destruct (String.eqb_spec (Sha256.hex_string (Sha256.Sha256.Sum256 raw')) (Sha256.hex_string (Sha256.Sha256.Sum256 raw))) as [Hd|]; [| done].
  intros _. exists s, c, d, raw, raw'. split_and!; try done.
  apply Digest.hex_string_inj, Digest.Sum256_binding in Hd as [->|]; auto.
Qed.

(** The named input verifies. *)
Lemma canonical_verifies name scenario configuration seed raw :
  Canonical name = inr (scenario, configuration) → CanonicalDecisionSeed name = inr seed →
  marshalInput scenario configuration seed = Some raw → VerifyCanonical name scenario configuration seed = None.
Proof using Type.
  intros H1 H2 H3. unfold VerifyCanonical, canonicalInputDigest, DigestJSON. rewrite H1, H2, H3. by rewrite String.eqb_refl.
Qed.
End verify.
