(* ===== verification/Lines.v ===== *)
(** * Lines, words and paths (strings, path)

    The parts of the Standard Library of Go that cut texts: lines, surrounding white space,
    prefixes and suffixes, words of a text whatever the case, and lexical paths. *)

From S2P Require Import Prelude.
From S2P Require Export Text Digest.
From stdpp Require Import options.

#[global] Open Scope Z_scope.

(** ** Cutting *)

(** [strings.Split] at one byte: at least one part. *)
Fixpoint split_on (sep : byte) (l : bytes) : list bytes :=
  match l with
  | [] => [[]]
  | b :: l =>
    if Byte.eqb b sep then [] :: split_on sep l
    else match split_on sep l with
         | [] => [[b]]
         | part :: parts => (b :: part) :: parts
         end
  end.

Fixpoint join_with (sep : byte) (parts : list bytes) : bytes :=
  match parts with
  | [] => []
  | [part] => part
  | part :: parts => part ++ [sep] ++ join_with sep parts
  end.

Definition newline : byte := x0a.
Definition lines (l : bytes) : list bytes := split_on newline l.

(** [strings.TrimSpace]. *)
Fixpoint trim_left (runes : list bytes) : list bytes :=
  match runes with
  | r :: runes' => if space_rune r then trim_left runes' else runes
  | [] => []
  end.
Definition TrimSpace (l : bytes) : bytes := concat (rev (trim_left (rev (trim_left (runes l))))).

Fixpoint has_prefix (prefix l : bytes) : bool :=
  match prefix, l with
  | [], _ => true
  | p :: prefix, b :: l => Byte.eqb p b && has_prefix prefix l
  | _, [] => false
  end.
Definition has_suffix (suffix l : bytes) : bool := has_prefix (rev suffix) (rev l).

(** [strings.Contains]. *)
Fixpoint has_infix (needle l : bytes) : bool :=
  has_prefix needle l || match l with [] => false | _ :: l => has_infix needle l end.

(** [strings.ToLower] as far as words of ASCII letters can tell: the two letters that are not
    ASCII and whose lower case is are mapped, other runes stay. *)
Definition lower_rune (r : bytes) : bytes :=
  match r with
  | [b] => if (65 <=? code b) && (code b <=? 90) then [default b (Byte.of_N (Z.to_N (code b + 32)))] else [b]
  | [xc4; xb0] => [x69]
  | [xe2; x84; xaa] => [x6b]
  | _ => r
  end.
Definition to_lower (l : bytes) : bytes := concat (map lower_rune (runes l)).

(** [strings.Fields]: the words between white space. *)
Fixpoint words (word : bytes) (runes : list bytes) : list bytes :=
  match runes with
  | [] => match word with [] => [] | _ => [word] end
  | r :: runes =>
    if space_rune r then match word with [] => words [] runes | _ => word :: words [] runes end
    else words (word ++ r) runes
  end.
Definition Words (l : bytes) : list bytes := words [] (runes l).

(** ** Paths

    [path.Clean]: empty and one-dot components are dropped, a parent component takes back
    the one before it, or stays at the front of a relative path. *)

Definition slash : byte := x2f.
Definition dot : bytes := [x2e].
Definition dotdot : bytes := [x2e; x2e].

Fixpoint clean_parts (rooted : bool) (kept : list bytes) (parts : list bytes) : list bytes :=
  match parts with
  | [] => rev kept
  | part :: parts =>
    if bool_decide (part = []) || bool_decide (part = dot) then clean_parts rooted kept parts
    else if bool_decide (part = dotdot) then
      match kept with
      | last :: kept' =>
        if bool_decide (last = dotdot) then clean_parts rooted (dotdot :: kept) parts
        else clean_parts rooted kept' parts
      | [] => if rooted then clean_parts rooted [] parts else clean_parts rooted [dotdot] parts
      end
    else clean_parts rooted (part :: kept) parts
  end.

Definition is_abs (l : bytes) : bool := match l with b :: _ => Byte.eqb b slash | [] => false end.

Definition path_clean (l : bytes) : bytes :=
  match l with
  | [] => dot
  | _ =>
    let rooted := is_abs l in
    let cleaned := join_with slash (clean_parts rooted [] (split_on slash l)) in
    if rooted then slash :: cleaned
    else match cleaned with [] => dot | _ => cleaned end
  end.

Example path_examples :
  map (λ s, String.string_of_list_byte (path_clean (str s)))
    ["a/b"; "a//b/"; "./a/../b"; "../a/.."; "/.."; ""; "a/.."; ".."]%string =
  ["a/b"; "a/b"; "b"; ".."; "/"; "."; "."; ".."]%string.
Proof. vm_compute. done. Qed.

(** ** Facts *)

Lemma split_on_nonempty sep l : split_on sep l ≠ [].
Proof. destruct l as [|b l]; simpl; [done |]. case_match; [done |]. by destruct (split_on sep l). Qed.

Lemma byte_eqb_true a b : Byte.eqb a b = true ↔ a = b.
Proof. split; [apply Byte.byte_dec_bl | apply Byte.byte_dec_lb]. Qed.

Lemma join_split sep l : join_with sep (split_on sep l) = l.
Proof.
  induction l as [|b l IH]; [done |]. simpl. destruct (Byte.eqb b sep) eqn:E.
  - apply byte_eqb_true in E as ->. pose proof (split_on_nonempty sep l) as H.
    destruct (split_on sep l) as [|p ps]; [done |]. simpl in *. by rewrite IH.
  - pose proof (split_on_nonempty sep l) as H. destruct (split_on sep l) as [|p [|q ps]]; [done | |]; simpl in *.
    + by rewrite IH.
    + by rewrite <- IH.
Qed.

Lemma split_no_sep sep l p : p ∈ split_on sep l → sep ∉ p.
Proof.
  revert p. induction l as [|b l IH]; intros p; simpl.
  { intros ->%list_elem_of_singleton. apply not_elem_of_nil. }
  destruct (Byte.eqb b sep) eqn:E.
  - intros [->|Hp]%elem_of_cons; [apply not_elem_of_nil | by apply IH].
  - assert (b ≠ sep) as Hb by (intros ->; by rewrite (proj2 (byte_eqb_true sep sep) eq_refl) in E).
    destruct (split_on sep l) as [|q qs] eqn:Hs.
    + intros ->%list_elem_of_singleton [Hx|Hx%elem_of_nil]%elem_of_cons; [by subst | done].
    + intros [->|Hp]%elem_of_cons; [| apply IH; by right].
      intros [Hx|Hx]%elem_of_cons; [by subst | eapply IH; [by left | exact Hx]].
Qed.

Lemma split_app sep l k : sep ∉ l → split_on sep (l ++ sep :: k) = l :: split_on sep k.
Proof.
  intros Hl. induction l as [|b l IH]; simpl.
  { by rewrite (proj2 (byte_eqb_true sep sep) eq_refl). }
  apply not_elem_of_cons in Hl as [Hb Hl]. rewrite IH by done.
  destruct (Byte.eqb b sep) eqn:E; [| done]. by apply byte_eqb_true in E as ->.
Qed.

Lemma split_single sep l : sep ∉ l → split_on sep l = [l].
Proof.
  intros Hl. induction l as [|b l IH]; simpl; [done |].
  apply not_elem_of_cons in Hl as [Hb Hl]. rewrite IH by done.
  destruct (Byte.eqb b sep) eqn:E; [| done]. by apply byte_eqb_true in E as ->.
Qed.

Lemma split_join sep parts :
  parts ≠ [] → (∀ p, p ∈ parts → sep ∉ p) → split_on sep (join_with sep parts) = parts.
Proof.
  intros Hne Hs. induction parts as [|p [|q ps] IH]; [done | |].
  - simpl. apply split_single. apply Hs. by left.
  - change (join_with sep (p :: q :: ps)) with (p ++ sep :: join_with sep (q :: ps)).
    rewrite split_app by (apply Hs; by left). f_equal. apply IH; [done |]. intros r Hr. apply Hs. by right.
Qed.

(** Cutting does not lengthen. *)
Lemma split_length sep l p : p ∈ split_on sep l → (length p ≤ length l)%nat.
Proof.
  revert p. induction l as [|b l IH]; intros p; simpl; [intros ->%list_elem_of_singleton; simpl; lia |].
  destruct (Byte.eqb b sep).
  - intros [->|Hp]%elem_of_cons; [simpl; lia |]. apply IH in Hp. lia.
  - destruct (split_on sep l) as [|q qs]; [intros ->%list_elem_of_singleton; simpl; lia |].
    intros [->|Hp]%elem_of_cons; [specialize (IH q ltac:(by left)); simpl; lia | specialize (IH p ltac:(by right)); lia].
Qed.

Lemma concat_runes_of fuel l : (length (concat (runes_of fuel l)) ≤ length l)%nat.
Proof.
  revert l. induction fuel as [|fuel IH]; intros [|b l]; cbn [runes_of concat length]; try lia.
  destruct (rune_size (b :: l)) as [|n]; cbn [concat]; rewrite length_app.
  - specialize (IH l). simpl. lia.
  - pose proof (IH (drop (S n) (b :: l))) as H. rewrite length_drop in H. rewrite length_take. cbn [length] in *. lia.
Qed.

Lemma trim_left_length runes : (length (concat (trim_left runes)) ≤ length (concat runes))%nat.
Proof.
  induction runes as [|r runes IH]; cbn [trim_left]; [lia |]. case_match; [| lia]. cbn [concat]. rewrite length_app. lia.
Qed.

Lemma concat_rev_length (l : list bytes) : length (concat (rev l)) = length (concat l).
Proof.
  induction l as [|x l IH]; [done |]. cbn [rev concat]. rewrite concat_app, !length_app. cbn [concat]. rewrite app_nil_r. lia.
Qed.

Lemma TrimSpace_length l : (length (TrimSpace l) ≤ length l)%nat.
Proof.
  unfold TrimSpace. rewrite concat_rev_length.
  pose proof (trim_left_length (rev (trim_left (runes l)))) as H. rewrite concat_rev_length in H.
  pose proof (trim_left_length (runes l)). pose proof (concat_runes_of (length l) l). unfold runes in *. lia.
Qed.
