(* ===== verification/MutantCorpus.v ===== *)
(** * Corpora of mutants (mutant/manifest.go, mutant/result.go)

    A manifest pins a corpus of source mutants; a result records, for each, the evidence of
    one run and how it is classified.  The patterns are regular expressions over ASCII
    letters, written here as tests of the bytes. *)

From S2P Require Import Prelude.
From S2P Require Export Lines.
From S2P Require Import Document.
From S2P Require Sha256.
From stdpp Require Import options.

#[global] Open Scope Z_scope.

Definition ManifestSchema : string := "d-raft.mutant/v1".
Definition ResultSchema : string := "d-raft.mutant-result/v1".
Definition MaximumMutants : Z := 64.
Definition maximumOutput : Z := 65536.

(** ** Patterns *)

Definition is_upper (b : byte) : bool := (65 <=? code b) && (code b <=? 90).
Definition alphanumeric (b : byte) : bool := is_lower b || is_upper b || is_digit b.

Definition hexPattern (length : Z) (value : string) : bool := (strlen value =? length) && forallb lower_hex (str value).
Definition hex40Pattern (value : string) : bool := hexPattern 40 value.
Definition hex64Pattern (value : string) : bool := hexPattern 64 value.

Definition idPattern (value : string) : bool :=
  match str value with
  | [] => false
  | b :: l => id_start b && (zlen l <=? 127) && forallb id_char l
  end.

(** Two or more components of letters, digits, dots, underscores and dashes. *)
Definition module_char (b : byte) : bool := is_upper b || id_char b.
Definition repositoryPattern (value : string) : bool :=
  let parts := split_on slash (str value) in
  (2 <=? zlen parts) && forallb (λ part, negb (bool_decide (part = [])) && forallb module_char part) parts.

Definition testPattern (value : string) : bool :=
  has_prefix (str "Test") (str value) &&
  match rev (drop 4 (str value)) with
  | [] => false
  | final :: l => alphanumeric final && forallb (λ b, alphanumeric b || (code b =? 95)) l
  end.

(** ** Manifests *)

Inductive InvariantClass := InvariantSafety | InvariantConformance | InvariantOther (text : string).
#[export] Instance InvariantClass_eq_dec : EqDecision InvariantClass.
Proof. solve_decision. Defined.

Record Invariant := mkInvariant { InvName : string; InvClass : InvariantClass }.
Record Patch := mkPatch { PtPath : string; PtSHA256 : string }.
Record Mutant := mkMutant {
  MuID : string; MuPackage : string; MuTest : string; MuInvariant : Invariant;
  ActivationPatch : Patch; MutantPatch : Patch }.
Record Manifest := mkManifest {
  MfSchema : string; MfRepository : string; MfBaseCommit : string; MfMutants : list Mutant }.

(** A bound on the path, a form [path.Clean] keeps, and no way to the parent. *)
Definition validPath (value : string) : bool :=
  let p := str value in
  negb (bool_decide (p = []) || (4096 <? zlen p) || bool_decide (JsonEnc.bslash ∈ p) || has_control p || is_abs p ||
        negb (bool_decide (path_clean p = p)) || bool_decide (p = dot) || has_prefix (str "../") p).

Definition Patch_validate (p : Patch) : bool := validPath (PtPath p) && hex64Pattern (PtSHA256 p).

Definition knownClass (class : InvariantClass) : bool :=
  match class with InvariantSafety | InvariantConformance => true | InvariantOther _ => false end.

Definition validateTarget (m : Mutant) : bool :=
  idPattern (MuID m) && bool_decide (MuPackage m ∈ ["./raft"; "./check"; "./raftsim"]) &&
  testPattern (MuTest m) && invariantPattern (InvName (MuInvariant m)) && knownClass (InvClass (MuInvariant m)).

Definition Mutant_validate (m : Mutant) : bool :=
  validateTarget m && Patch_validate (ActivationPatch m) && Patch_validate (MutantPatch m) &&
  negb (String.eqb (PtPath (ActivationPatch m)) (PtPath (MutantPatch m))).

(** The loop over the entries, which have identifiers [MuID] or [RsID]: each valid, new, and
    after the one before it. *)
Fixpoint validEntries {A} (id : A → string) (valid : A → bool) (previous : option string) (seen : gset string)
    (entries : list A) : bool :=
  match entries with
  | [] => true
  | entry :: entries =>
    valid entry && negb (bool_decide (id entry ∈ seen)) &&
    match previous with
    | Some p => match String.compare p (id entry) with Lt => true | _ => false end
    | None => true
    end &&
    validEntries id valid (Some (id entry)) ({[id entry]} ∪ seen) entries
  end.

Definition boundedCount {A} (entries : list A) : bool := (0 <? zlen entries) && (zlen entries <=? MaximumMutants).

Definition Manifest_Validate (m : Manifest) : bool :=
  String.eqb (MfSchema m) ManifestSchema &&
  repositoryPattern (MfRepository m) && negb (has_infix dotdot (str (MfRepository m))) &&
  hex40Pattern (MfBaseCommit m) && boundedCount (MfMutants m) &&
  validEntries MuID Mutant_validate None ∅ (MfMutants m).

(** The markers a test prints. *)
Definition ActivationMarker (id : string) : bytes := str "DRAFT_MUTANT_ACTIVATED:" ++ str id.
Definition InvariantMarker (name : string) : bytes := str "DRAFT_MUTANT_INVARIANT:" ++ str name.

(** [DecodeManifest]: [decodePlanDocument] is the strict reading of one bounded document. *)
Definition DecodeManifest (Decode : bytes → option (Manifest * bytes)) (reader : option Reader) : option Manifest :=
  match decodePlanDocument Decode reader 4194304 with
  | inl _ => None
  | inr manifest => if Manifest_Validate manifest then Some manifest else None
  end.

(** ** Results *)

Inductive Classification :=
| SafetyKill | ConformanceKill | NonSafetyDetection | Survived | NotActivated | BaselineFailed | Ineligible | OperationalError
| UnknownClassification (text : string).
#[export] Instance Classification_eq_dec : EqDecision Classification.
Proof. solve_decision. Defined.

Record Environment := mkEnvironment {
  RunnerRevision : string; RunnerModified : bool; TargetHead : string; TargetModified : bool;
  EnvGoVersion : string; EnvGOOS : string; EnvGOARCH : string }.
Record CommandResult := mkCommandResult {
  ExitCode : Z; DurationMS : Z; CmOutput : bytes; OutputTruncated : bool }.
Record MutantResult := mkMutantResult {
  RsID : string; RsPackage : string; RsTest : string; RsInvariant : Invariant; ActivationSHA256 : string;
  MutationSHA256 : string; RsClassification : Classification; Detail : bytes;
  RsBaseline : option CommandResult; RsMutant : option CommandResult }.
Record Result := mkResult {
  RtSchema : string; RtManifestSchema : string; ManifestSHA256 : string; RtRepository : string; RtBaseCommit : string;
  BaseTree : string; RtEnvironment : Environment; Results : list MutantResult }.

Record ClassificationInput := mkClassification {
  CiInvariant : Invariant; BaselineRan : bool; BaselinePassed : bool; BaselineMarked : bool; MutantRan : bool;
  MutantPassed : bool; MutantMarked : bool; TargetMarked : bool; CiEligible : bool; OperationalFail : bool }.

Definition Classify (i : ClassificationInput) : Classification :=
  if OperationalFail i then OperationalError
  else if negb (CiEligible i) then Ineligible
  else if negb (BaselineRan i) || negb (BaselinePassed i) then BaselineFailed
  else if negb (BaselineMarked i) || (MutantRan i && negb (MutantMarked i)) then NotActivated
  else if negb (MutantRan i) then OperationalError
  else if MutantPassed i then Survived
  else if negb (TargetMarked i) then NonSafetyDetection
  else match InvClass (CiInvariant i) with
       | InvariantSafety => SafetyKill
       | InvariantConformance => ConformanceKill
       | InvariantOther _ => OperationalError
       end.

(** A line that is the marker, or ends in it after a colon and a space. *)
Definition hasExactMarker (output marker : bytes) : bool :=
  existsb (λ line, let line := TrimSpace line in bool_decide (line = marker) || has_suffix (str ": " ++ marker) line) (lines output).

Definition marked (command : option CommandResult) (marker : bytes) : bool :=
  match command with Some c => hasExactMarker (CmOutput c) marker | None => false end.
Definition passed (command : option CommandResult) : bool :=
  match command with Some c => ExitCode c =? 0 | None => false end.
Definition failedRun (command : option CommandResult) : bool :=
  match command with Some c => negb (ExitCode c =? 0) | None => false end.
Definition absent (command : option CommandResult) : bool := match command with None => true | Some _ => false end.

Definition validateEvidence (r : MutantResult) : bool :=
  let baselineMarked := marked (RsBaseline r) (ActivationMarker (RsID r)) in
  let mutantMarked := marked (RsMutant r) (ActivationMarker (RsID r)) in
  let targetMarked := marked (RsMutant r) (InvariantMarker (InvName (RsInvariant r))) in
  match RsClassification r with
  | SafetyKill | ConformanceKill =>
    passed (RsBaseline r) && failedRun (RsMutant r) && baselineMarked && mutantMarked && targetMarked
  | NonSafetyDetection =>
    passed (RsBaseline r) && failedRun (RsMutant r) && baselineMarked && mutantMarked && negb targetMarked
  | Survived => passed (RsBaseline r) && passed (RsMutant r) && baselineMarked && mutantMarked
  | BaselineFailed => failedRun (RsBaseline r) && absent (RsMutant r)
  | NotActivated => passed (RsBaseline r) && negb (baselineMarked && (absent (RsMutant r) || mutantMarked))
  | Ineligible | OperationalError | UnknownClassification _ => true
  end.

Definition knownClassification (c : Classification) : bool :=
  match c with UnknownClassification _ => false | _ => true end.

Definition validCommand (command : option CommandResult) : bool :=
  match command with
  | Some c => (0 <=? DurationMS c) && (zlen (CmOutput c) <=? maximumOutput)
  | None => true
  end.

Definition declaration (r : MutantResult) : Mutant :=
  mkMutant (RsID r) (RsPackage r) (RsTest r) (RsInvariant r) (mkPatch "" "") (mkPatch "" "").

Definition MutantResult_valid (r : MutantResult) : bool :=
  idPattern (RsID r) && knownClassification (RsClassification r) && validateTarget (declaration r) &&
  hex64Pattern (ActivationSHA256 r) && hex64Pattern (MutationSHA256 r) && (zlen (Detail r) <=? 16384) &&
  negb (bool_decide (RsClassification r = SafetyKill) && negb (bool_decide (InvClass (RsInvariant r) = InvariantSafety))) &&
  negb (bool_decide (RsClassification r = ConformanceKill) && negb (bool_decide (InvClass (RsInvariant r) = InvariantConformance))) &&
  validCommand (RsBaseline r) && validCommand (RsMutant r) && validateEvidence r.

Definition validEnvironment (e : Environment) : bool :=
  hex40Pattern (RunnerRevision e) && hex40Pattern (TargetHead e) &&
  negb (String.eqb (EnvGoVersion e) "" || String.eqb (EnvGOOS e) "" || String.eqb (EnvGOARCH e) "").

Definition Result_Validate (r : Result) : bool :=
  String.eqb (RtSchema r) ResultSchema && String.eqb (RtManifestSchema r) ManifestSchema &&
  repositoryPattern (RtRepository r) && hex40Pattern (RtBaseCommit r) && hex40Pattern (BaseTree r) &&
  hex64Pattern (ManifestSHA256 r) && validEnvironment (RtEnvironment r) && boundedCount (Results r) &&
  validEntries RsID MutantResult_valid None ∅ (Results r).

Definition DecodeResult (Decode : bytes → option (Result * bytes)) (reader : option Reader) : option Result :=
  match decodePlanDocument Decode reader 67108864 with
  | inl _ => None
  | inr result => if Result_Validate result then Some result else None
  end.

(** * Running a corpus of mutants (mutant/runner.go)

    The runner applies the two patches of a mutant in a worktree of its own, runs one test
    before and after the mutation, and classifies what it saw.  What git, the file system
    and the test process answer is a record of the world, one field for each call; the
    quotation of a text (the verb %q of fmt) and the text of an exit status are parameters. *)

Definition maximumPatchSize : Z := 16777216.
Definition productionMutationFiles : list bytes := [str "raft/membership.go"; str "raft/node.go"; str "raft/types.go"].

(** Combined output, and the text of the error when the command failed. *)
Record Command := mkCommand { output : bytes; failure : option bytes }.

Inductive PatchError :=
| ErrParsePatch (c : Command) (err : bytes)
| ErrSummarizePatch (c : Command) (err : bytes)
| ErrNoChanges
| ErrMalformedPatch
| ErrRepeatedTarget (name : bytes)
| ErrActivationTarget (file : bytes)
| ErrMutationTarget (name : bytes)
| ErrActivationForm (summary : bytes)
| ErrMutationForm (summary : bytes)
| ErrDiff (err : bytes)
| ErrMalformedDiff (line : bytes)
| ErrUnexpectedChange (line : bytes)
| ErrMissingChanges.

(** ** Texts *)

Definition activationFile (package : string) : bytes :=
  (if has_prefix (str "./") (str package) then drop 2 (str package) else str package) ++ str "/mutant_activation_test.go".

Definition nonemptyLines (value : bytes) : list bytes :=
  filter (λ line, line ≠ []) (map TrimSpace (lines value)).

Definition commandError (operation : string) (output err : bytes) : bytes :=
  let message := take 4096 (TrimSpace output) in
  match message with
  | [] => str operation ++ str ": " ++ err
  | _ => str operation ++ str ": " ++ err ++ str ": " ++ message
  end.

Definition isOperationalTestFailure (output : bytes) : bool :=
  let lower := to_lower output in
  has_infix (str "[build failed]") lower || has_infix (str "build constraints exclude all go files") lower ||
  has_infix (str "panic:") lower || has_infix (str "test timed out") lower.

Definition tab : byte := x09.

(** ** The content of a patch *)

Fixpoint patchTargets (entry : Mutant) (activation : bool) (seen : list bytes) (lines : list bytes) : option PatchError :=
  match lines with
  | [] => None
  | line :: lines =>
    match split_on tab line with
    | [added; removed; name] =>
      if bool_decide (added = str "-") || bool_decide (removed = str "-") then Some ErrMalformedPatch
      else if bool_decide (name ∈ seen) then Some (ErrRepeatedTarget name)
      else if activation && (negb (bool_decide (name = activationFile (MuPackage entry))) || negb (bool_decide (removed = str "0")))
      then Some (ErrActivationTarget (activationFile (MuPackage entry)))
      else if negb activation && negb (bool_decide (name ∈ productionMutationFiles)) then Some (ErrMutationTarget name)
      else patchTargets entry activation (name :: seen) lines
    | _ => Some ErrMalformedPatch
    end
  end.

(** [numstat] and [summary] are what git says of the patch. *)
Definition validatePatchContent (entry : Mutant) (numstat summary : Command) (activation : bool) : option PatchError :=
  match failure numstat, failure summary with
  | Some err, _ => Some (ErrParsePatch numstat err)
  | _, Some err => Some (ErrSummarizePatch summary err)
  | None, None =>
    let lines := nonemptyLines (output numstat) in
    match lines with
    | [] => Some ErrNoChanges
    | _ =>
      match patchTargets entry activation [] lines with
      | Some err => Some err
      | None =>
        let trimmedSummary := TrimSpace (output summary) in
        if activation then
          if negb (zlen lines =? 1) || negb (bool_decide (trimmedSummary = str "create mode 100644 " ++ activationFile (MuPackage entry)))
          then Some (ErrActivationForm trimmedSummary) else None
        else if negb (bool_decide (trimmedSummary = [])) then Some (ErrMutationForm trimmedSummary) else None
      end
    end
  end.

(** The changes of a worktree: the activation file, and mutated files when [mutated]. *)
Fixpoint diffLines (entry : Mutant) (mutated : bool) (found : bool * bool) (lines : list bytes) : PatchError + (bool * bool) :=
  match lines with
  | [] => inr found
  | line :: lines =>
    match split_on tab line with
    | [status; name] =>
      if bool_decide (status = str "A") && bool_decide (name = activationFile (MuPackage entry))
      then diffLines entry mutated (true, found.2) lines
      else if mutated && bool_decide (status = str "M") && bool_decide (name ∈ productionMutationFiles)
      then diffLines entry mutated (found.1, true) lines
      else inl (ErrUnexpectedChange line)
    | _ => inl (ErrMalformedDiff line)
    end
  end.

Definition inspectDiff (entry : Mutant) (diff : Command) (mutated : bool) : option PatchError :=
  match failure diff with
  | Some err => Some (ErrDiff err)
  | None =>
    let lines := nonemptyLines (output diff) in
    match diffLines entry mutated (false, false) lines with
    | inl err => Some err
    | inr (foundActivation, foundMutation) =>
      if negb foundActivation || (negb mutated && negb (zlen lines =? 1)) || (mutated && negb foundMutation)
      then Some ErrMissingChanges else None
    end
  end.

(** ** One test *)

Record limitedBuffer := mkBuffer { lbuffer : bytes; remaining : Z; truncated : bool }.

Definition Write (b : limitedBuffer) (data : bytes) : limitedBuffer :=
  let over := remaining b <? zlen data in
  let data := if over then take (Z.to_nat (remaining b)) data else data in
  mkBuffer (lbuffer b ++ data) (remaining b - zlen data) (if over then true else truncated b).

Inductive TestError := ExitError (code : Z) | OtherError (err : bytes).

(** What the test process does: the error of its environment, what it writes, how long it
    takes, how it ends, and the error of the context when its time is over. *)
Record TestRun := mkTestRun {
  environmentErr : option bytes; written : list bytes; milliseconds : Z; ended : option TestError; timeout : option bytes }.

Definition runTest (t : TestRun) : CommandResult * option TestError :=
  match environmentErr t with
  | Some err => (mkCommandResult (-1) (milliseconds t) [] false, Some (OtherError err))
  | None =>
    let buffer := foldl Write (mkBuffer [] maximumOutput false) (written t) in
    let result code := mkCommandResult code (milliseconds t) (lbuffer buffer) (truncated buffer) in
    match ended t with
    | None => (result 0, None)
    | Some err =>
      let code := match err with ExitError code => code | OtherError _ => -1 end in
      (result code, Some (match timeout t with Some text => OtherError (str "command timeout: " ++ text) | None => err end))
    end
  end.

Definition isExitError (err : TestError) : bool := match err with ExitError _ => true | OtherError _ => false end.

(** ** One mutant *)

(** [applyPatch]: the check, then the application. *)
Record PatchRun := mkPatchRun { checked : Command; appliedPatch : Command }.
Definition applyPatch (p : PatchRun) : Command :=
  match failure (checked p) with Some _ => checked p | None => appliedPatch p end.

Record World := mkWorld {
  activationNumstat : Command; activationSummary : Command; mutationNumstat : Command; mutationSummary : Command;
  temporaryErr : option bytes; worktreeAdd : Command; activationApply : PatchRun; intentToAdd : Command;
  activationDiff : Command; baselineTest : TestRun; mutationApply : PatchRun; mutationDiff : Command; mutantTest : TestRun }.

Section runner.
Context (quote : bytes → bytes) (exitText : Z → bytes).

Definition errorText (err : PatchError) : bytes :=
  match err with
  | ErrParsePatch c err => str "parse patch: " ++ commandError "git apply --numstat" (output c) err
  | ErrSummarizePatch c err => str "summarize patch: " ++ commandError "git apply --summary" (output c) err
  | ErrNoChanges => str "patch contains no textual changes"
  | ErrMalformedPatch => str "binary or malformed patch content is forbidden"
  | ErrRepeatedTarget name => str "patch repeats target " ++ quote name
  | ErrActivationTarget file => str "activation patch may only add " ++ quote file
  | ErrMutationTarget name => str "mutant patch target " ++ quote name ++ str " is not an allowlisted production file"
  | ErrActivationForm summary => str "activation patch must only add a regular 100644 file; summary=" ++ quote summary
  | ErrMutationForm summary => str "mutant patch may not add, delete, rename, copy, or change modes; summary=" ++ quote summary
  | ErrDiff err => str "git diff --name-status: " ++ err
  | ErrMalformedDiff line => str "malformed diff status " ++ quote line
  | ErrUnexpectedChange line => str "unexpected worktree change " ++ quote line
  | ErrMissingChanges => str "expected activation and mutation changes were not present"
  end.

Definition testErrorText (err : TestError) : bytes :=
  match err with ExitError code => exitText code | OtherError err => err end.

(** The result of an entry with what was found. *)
Definition resultOf (entry : Mutant) (baseline : option CommandResult) (classification : Classification) (detail : bytes)
    (mutant : option CommandResult) : MutantResult :=
  mkMutantResult (MuID entry) (MuPackage entry) (MuTest entry) (MuInvariant entry) (PtSHA256 (ActivationPatch entry))
    (PtSHA256 (MutantPatch entry)) classification detail baseline mutant.

(** The part after the baseline test passed with its marker. *)
Definition runMutation (entry : Mutant) (baseline : CommandResult) (w : World) : MutantResult :=
  let result := resultOf entry (Some baseline) in
  match failure (applyPatch (mutationApply w)) with
  | Some err => result OperationalError (commandError "apply mutant patch" (output (applyPatch (mutationApply w))) err) None
  | None =>
    match inspectDiff entry (mutationDiff w) true with
    | Some err => result OperationalError (str "inspect mutant diff: " ++ errorText err) None
    | None =>
      let '(mutantRun, mutantErr) := runTest (mutantTest w) in
      let mutantMarked := hasExactMarker (CmOutput mutantRun) (ActivationMarker (MuID entry)) in
      let targetMarked := hasExactMarker (CmOutput mutantRun) (InvariantMarker (InvName (MuInvariant entry))) in
      let operational :=
        match mutantErr with Some err => negb (isExitError err) | None => false end ||
        isOperationalTestFailure (CmOutput mutantRun) || (negb (ExitCode mutantRun =? 0) && negb mutantMarked) in
      let classification := Classify (mkClassification (MuInvariant entry) true true true (negb operational)
        (ExitCode mutantRun =? 0) mutantMarked targetMarked true operational) in
      result classification
        match classification with
        | SafetyKill | ConformanceKill => str "test failed with the targeted invariant marker"
        | NonSafetyDetection => str "test failed without the targeted invariant marker"
        | Survived => str "targeted test passed after mutation"
        | NotActivated => str "mutant output did not contain the activation marker"
        | OperationalError =>
          match mutantErr with
          | Some err => str "mutant test: " ++ testErrorText err
          | None => str "mutant test did not execute normally"
          end
        | BaselineFailed | Ineligible | UnknownClassification _ => []
        end (Some mutantRun)
    end
  end.

(** From the baseline test on. *)
Definition runBaseline (entry : Mutant) (w : World) : MutantResult :=
  let '(baseline, baselineErr) := runTest (baselineTest w) in
  let result := resultOf entry (Some baseline) in
  match (match baselineErr with Some err => if isExitError err then None else Some err | None => None end) with
  | Some err => result OperationalError (str "baseline test: " ++ testErrorText err) None
  | None =>
    if isOperationalTestFailure (CmOutput baseline) then
      result OperationalError (str "baseline test could not execute normally") None
    else
      let baselineMarked := hasExactMarker (CmOutput baseline) (ActivationMarker (MuID entry)) in
      if negb (ExitCode baseline =? 0) then
        if negb baselineMarked then
          result OperationalError (str "baseline test failed before emitting the activation marker") None
        else result BaselineFailed (str "activated baseline test failed") None
      else if negb baselineMarked then
        result NotActivated (str "baseline output did not contain the activation marker") None
      else runMutation entry baseline w
  end.

Definition runOne (entry : Mutant) (w : World) : MutantResult :=
  let operational detail := resultOf entry None OperationalError detail None in
  match validatePatchContent entry (activationNumstat w) (activationSummary w) true with
  | Some err => operational (str "validate activation patch: " ++ errorText err)
  | None =>
    match validatePatchContent entry (mutationNumstat w) (mutationSummary w) false with
    | Some err => operational (str "validate mutant patch: " ++ errorText err)
    | None =>
      match temporaryErr w with
      | Some err => operational (str "create temporary directory: " ++ err)
      | None =>
        let step (c : Command) (operation : string) (k : MutantResult) :=
          match failure c with Some err => operational (commandError operation (output c) err) | None => k end in
        step (worktreeAdd w) "create worktree"
          (step (applyPatch (activationApply w)) "apply activation patch"
            (step (intentToAdd w) "register activation patch"
              match inspectDiff entry (activationDiff w) false with
              | Some err => operational (str "inspect activation diff: " ++ errorText err)
              | None => runBaseline entry w
              end))
      end
    end
  end.

(** ** The corpus *)

(** A patch file that was read, or not. *)
Definition loadPatch (patch : Patch) (file : option bytes) : option bytes :=
  data ← file;
  if maximumPatchSize <? zlen data then None
  else if String.eqb (Sha256.hex_string (Sha256.Sha256.Sum256 data)) (PtSHA256 patch) then Some data else None.

Fixpoint loadAll (patchFile : Patch → option bytes) (entries : list Mutant) : option (list (bytes * bytes)) :=
  match entries with
  | [] => Some []
  | entry :: entries =>
    activation ← loadPatch (ActivationPatch entry) (patchFile (ActivationPatch entry));
    mutation ← loadPatch (MutantPatch entry) (patchFile (MutantPatch entry));
    loaded ← loadAll patchFile entries;
    Some ((activation, mutation) :: loaded)
  end.

(** The settings of a build: the last revision and dirty bit, both of which must be there. *)
Definition ParseBool (value : string) : option bool :=
  if bool_decide (value ∈ ["1"; "t"; "T"; "TRUE"; "true"; "True"]) then Some true
  else if bool_decide (value ∈ ["0"; "f"; "F"; "FALSE"; "false"; "False"]) then Some false
  else None.

Fixpoint buildSettings (revision : string) (modified : option bool) (settings : list (string * string))
    : option (string * option bool) :=
  match settings with
  | [] => Some (revision, modified)
  | (key, value) :: settings =>
    if String.eqb key "vcs.revision" then buildSettings value modified settings
    else if String.eqb key "vcs.modified" then
      value ← ParseBool value; buildSettings revision (Some value) settings
    else buildSettings revision modified settings
  end.

Definition executableProvenance (info : option (list (string * string))) : option (string * bool) :=
  settings ← info;
  match buildSettings "" None settings with
  | Some (revision, Some modified) => if hex40Pattern revision then Some (revision, modified) else None
  | _ => None
  end.

(** What git and the build say of the repository and the runner. *)
Record Metadata := mkMetadata {
  baseTreeOutput : Command; targetOutput : Command; statusOutput : Command;
  buildInfo : option (list (string * string)); mdGoVersion : string; mdGOOS : string; mdGOARCH : string }.

Definition text_of (l : bytes) : string := String.string_of_list_byte l.

Fixpoint moduleLine (lines : list bytes) : bytes :=
  match lines with
  | [] => []
  | line :: lines =>
    match Words line with
    | [keyword; module] => if bool_decide (keyword = str "module") then module else moduleLine lines
    | _ => moduleLine lines
    end
  end.
Definition modulePath (goMod : bytes) : bytes := moduleLine (lines goMod).

(** The resolved directory; what git says of it, and the resolution of its answer. *)
Record Repository := mkRepository {
  repositoryDir : option bytes; toplevel : Command; resolvedTop : option bytes; baseCommit : Command; goMod : Command }.

Definition validateRepository (r : Repository) (manifest : Manifest) : bool :=
  match repositoryDir r with
  | None => false
  | Some real =>
    bool_decide (failure (toplevel r) = None) && bool_decide (resolvedTop r = Some real) &&
    bool_decide (failure (baseCommit r) = None) && bool_decide (TrimSpace (output (baseCommit r)) = str (MfBaseCommit manifest)) &&
    bool_decide (failure (goMod r) = None) && bool_decide (modulePath (output (goMod r)) = str (MfRepository manifest))
  end.

Definition repositoryMetadata (m : Metadata) : option (string * Environment) :=
  match failure (baseTreeOutput m) with
  | Some _ => None
  | None =>
    let baseTree := text_of (TrimSpace (output (baseTreeOutput m))) in
    if negb (hex40Pattern baseTree) then None
    else match failure (targetOutput m) with
    | Some _ => None
    | None =>
      let targetHead := text_of (TrimSpace (output (targetOutput m))) in
      if negb (hex40Pattern targetHead) then None
      else match failure (statusOutput m) with
      | Some _ => None
      | None =>
        match executableProvenance (buildInfo m) with
        | None => None
        | Some (runnerRevision, runnerModified) =>
          Some (baseTree, mkEnvironment runnerRevision runnerModified targetHead
                  (negb (zlen (output (statusOutput m)) =? 0)) (mdGoVersion m) (mdGOOS m) (mdGOARCH m))
        end
      end
    end
  end.

Inductive CorpusError := ErrManifest | ErrRepository | ErrPatchFiles | ErrMetadata | ErrDigest | ErrGeneratedResult.

Definition DigestManifest (marshal : Manifest → option bytes) (manifest : Manifest) : option string :=
  if Manifest_Validate manifest then (λ raw, Sha256.hex_string (Sha256.Sha256.Sum256 raw)) <$> marshal manifest else None.

Definition Run (marshal : Manifest → option bytes) (repository : Repository) (patchFile : Patch → option bytes) (metadata : Metadata)
    (world : Mutant → bytes * bytes → World) (manifest : Manifest) : CorpusError + Result :=
  if negb (Manifest_Validate manifest) then inl ErrManifest
  else if negb (validateRepository repository manifest) then inl ErrRepository
  else match loadAll patchFile (MfMutants manifest) with
  | None => inl ErrPatchFiles
  | Some loaded =>
    match repositoryMetadata metadata with
    | None => inl ErrMetadata
    | Some (baseTree, environment) =>
      match DigestManifest marshal manifest with
      | None => inl ErrDigest
      | Some manifestSHA256 =>
        let result := mkResult ResultSchema ManifestSchema manifestSHA256 (MfRepository manifest) (MfBaseCommit manifest) baseTree
          environment (zip_with (λ entry patches, runOne entry (world entry patches)) (MfMutants manifest) loaded) in
        if Result_Validate result then inr result else inl ErrGeneratedResult
      end
    end
  end.
End runner.
