(* ===== verification/MutantProps.v ===== *)
(** * The results of a corpus (mutant)

    What the runner records is consistent with how it classifies it, and its own validation
    never refuses a result. *)

From S2P Require Import Prelude.
From S2P Require Export MutantCorpus.
From S2P Require Import Document DocumentProps.
From S2P Require Sha256 Digest.
From stdpp Require Import options.

#[global] Open Scope Z_scope.

(** ** Texts *)

Lemma zlen_str_app a b : zlen (str a ++ b) = zlen (str a) + zlen b.
Proof. apply zlen_app. Qed.


(** ** Bounded output *)




(** ** One result *)





Section results.
Context (quote : bytes → bytes) (exitText : Z → bytes).
Context (quote_bound : ∀ l, zlen (quote l) ≤ 4 * zlen l + 2).


















End results.

(** ** The corpus *)






Section corpus.
Context (quote : bytes → bytes) (exitText : Z → bytes).




End corpus.

(** ** Attribution *)

(** A line of a diff that changes only what the runner allows. *)
Definition allowed_change (entry : Mutant) (line : bytes) : Prop :=
  ∃ status name, split_on tab line = [status; name] ∧
    ((status = str "A" ∧ name = activationFile (MuPackage entry)) ∨ (status = str "M" ∧ name ∈ productionMutationFiles)).

Lemma diffLines_allowed entry found lines found' :
  diffLines entry true found lines = inr found' → Forall (allowed_change entry) lines.
Proof.
  revert found. induction lines as [|line lines IH]; intros found; cbn [diffLines]; [constructor |].
  destruct (split_on tab line) as [|status [|name [|]]] eqn:Hs; try done.
  destruct (bool_decide_reflect (status = str "A")) as [Ha|], (bool_decide_reflect (name = activationFile (MuPackage entry))) as [Hn|];
    cbn [andb]; [intros H; constructor; [exists status, name; auto | by eapply IH] | | |].
  all: destruct (bool_decide_reflect (status = str "M")), (bool_decide_reflect (name ∈ productionMutationFiles)); cbn [andb]; try done.
  all: intros H; constructor; [exists status, name; auto | by eapply IH].
Qed.

Lemma inspectDiff_allowed entry diff : inspectDiff entry diff true = None → Forall (allowed_change entry) (nonemptyLines (output diff)).
Proof.
  unfold inspectDiff. destruct (failure diff); [done |]. cbv zeta.
  destruct (diffLines entry true (false, false) (nonemptyLines (output diff))) as [|found] eqn:E; [done |]. intros _.
  by eapply diffLines_allowed.
Qed.

(** C35.  A safety kill is attributed.  When the runner reports one, the invariant is a safety
    invariant, the activated baseline test passed with the activation marker, the test failed
    after the mutation with the activation marker and the marker of the invariant, nothing
    looked like a build failure or a panic, and the mutation changed production files of the
    protocol only. *)
Theorem safety_kill_is_attributed quote exitText entry w :
  RsClassification (runOne quote exitText entry w) = SafetyKill →
  ∃ baseline mutant,
    RsBaseline (runOne quote exitText entry w) = Some baseline ∧ RsMutant (runOne quote exitText entry w) = Some mutant ∧
    InvClass (MuInvariant entry) = InvariantSafety ∧
    ExitCode baseline = 0 ∧ hasExactMarker (CmOutput baseline) (ActivationMarker (MuID entry)) = true ∧
    ExitCode mutant ≠ 0 ∧ hasExactMarker (CmOutput mutant) (ActivationMarker (MuID entry)) = true ∧
    hasExactMarker (CmOutput mutant) (InvariantMarker (InvName (MuInvariant entry))) = true ∧
    isOperationalTestFailure (CmOutput mutant) = false ∧
    Forall (allowed_change entry) (nonemptyLines (output (mutationDiff w))).
Proof.
  unfold runOne. cbv zeta. destruct (validatePatchContent entry _ _ true); [done |].
  destruct (validatePatchContent entry _ _ false); [done |]. destruct (temporaryErr w); [done |].
  destruct (failure (worktreeAdd w)); [done |]. destruct (failure (applyPatch (activationApply w))); [done |].
  destruct (failure (intentToAdd w)); [done |]. destruct (inspectDiff entry (activationDiff w) false); [done |].
  unfold runBaseline. destruct (runTest (baselineTest w)) as [baseline err]. cbv zeta.
  destruct (match err with Some err => _ | None => None end); [done |].
  destruct (isOperationalTestFailure (CmOutput baseline)); [done |].
  destruct (hasExactMarker (CmOutput baseline) (ActivationMarker (MuID entry))) eqn:Hb;
    destruct (Z.eqb_spec (ExitCode baseline) 0) as [Hexit|]; cbn [negb]; try done.
  unfold runMutation. cbv zeta. destruct (failure (applyPatch (mutationApply w))); [done |]. destruct (inspectDiff entry (mutationDiff w) true) eqn:Hd; [done |].
  destruct (runTest (mutantTest w)) as [mutant merr]. cbn [resultOf RsClassification RsBaseline RsMutant].
  set (operational := (_ || _ || _) : bool). destruct operational eqn:Hop; [done |].
  unfold operational in Hop. apply orb_false_iff in Hop as [Hop _]. apply orb_false_iff in Hop as [_ Hop].
  unfold Classify. cbn [OperationalFail CiEligible BaselineRan BaselinePassed BaselineMarked MutantRan MutantMarked MutantPassed TargetMarked
    CiInvariant negb orb andb].
  destruct (hasExactMarker (CmOutput mutant) (ActivationMarker (MuID entry))) eqn:Hm; [| done].
  destruct (Z.eqb_spec (ExitCode mutant) 0) as [|Hexit']; [done |].
  destruct (hasExactMarker (CmOutput mutant) (InvariantMarker (InvName (MuInvariant entry)))) eqn:Ht; [| done]. cbn [negb].
  destruct (InvClass (MuInvariant entry)) eqn:Hc; try done. intros _.
  exists baseline, mutant. split_and!; try done. by apply inspectDiff_allowed.
Qed.

(** ** Paths of patches *)

(** A component that leads nowhere but down. *)
Definition proper (part : bytes) : Prop := part ≠ [] ∧ part ≠ dot ∧ part ≠ dotdot.

Lemma clean_parts_shape kept parts :
  (∃ n names, rev kept = replicate n dotdot ++ names ∧ Forall proper names) →
  ∃ n names, clean_parts false kept parts = replicate n dotdot ++ names ∧ Forall proper names.
Proof.
  revert kept. induction parts as [|part parts IH]; intros kept Hk; cbn [clean_parts]; [done |].
  destruct (bool_decide_reflect (part = [])) as [|Hne]; cbn [orb]; [by apply IH |].
  destruct (bool_decide_reflect (part = dot)) as [|Hnd]; [by apply IH |].
  destruct Hk as (n & names & Hk & Hp).
  destruct (bool_decide_reflect (part = dotdot)) as [->|Hndd].
  - destruct kept as [|final kept].
    { apply IH. by exists 1%nat, []. }
    cbn [rev] in Hk. destruct (bool_decide_reflect (final = dotdot)) as [->|Hf].
    + apply IH. cbn [rev]. rewrite Hk. destruct names as [|x names' _] using rev_ind.
      * exists (S n), []. rewrite !app_nil_r. by rewrite replicate_S_end.
      * rewrite app_assoc in Hk. apply app_inj_tail in Hk as [_ <-]. apply Forall_app in Hp as [_ Hx].
        apply Forall_cons in Hx as [(_ & _ & Hx) _]. done.
    + apply IH. destruct names as [|x names' _] using rev_ind.
      * rewrite app_nil_r in Hk. destruct n as [|n]; [by destruct (rev kept) |].
        rewrite replicate_S_end in Hk. apply app_inj_tail in Hk as [_ ->]. done.
      * rewrite app_assoc in Hk. apply app_inj_tail in Hk as [Hk _]. exists n, names'. split; [done |].
        by apply Forall_app in Hp as [Hp _].
  - apply IH. exists n, (names ++ [part]). cbn [rev]. rewrite Hk, <- app_assoc. split; [done |].
    apply Forall_app. split; [done |]. by constructor.
Qed.

Lemma clean_parts_elem kept parts x : x ∈ clean_parts false kept parts → x ∈ kept ∨ x ∈ parts ∨ x = dotdot.
Proof.
  revert kept. induction parts as [|part parts IH]; intros kept; cbn [clean_parts].
  { rewrite list_elem_of_In, <- in_rev, <- list_elem_of_In. auto. }
  repeat case_match; intros Hx%IH; rewrite ?elem_of_cons in *; naive_solver.
Qed.

(** A path the manifest accepts leads down from the corpus, or is the parent itself. *)
Lemma valid_path_inside value :
  validPath value = true → str value = dotdot ∨ Forall proper (split_on slash (str value)).
Proof.
  unfold validPath. set (p := str value). rewrite negb_true_iff, !orb_false_iff, negb_false_iff, !bool_decide_eq_true, !bool_decide_eq_false.
  intros (((((((Hne & _) & _) & _) & Habs) & Hclean) & Hdot) & Hup).
  unfold path_clean in Hclean. destruct p as [|b l] eqn:Hp; [done |]. rewrite Habs in Hclean. rewrite <- Hp in *. clear b l Hp.
  cbv zeta in Hclean. set (parts := clean_parts false [] (split_on slash p)) in *.
  assert (join_with slash parts = p) as Hj by (destruct (join_with slash parts); [by rewrite <- Hclean in Hdot | done]).
  assert (parts ≠ []) as Hparts by (intros E; by rewrite E in Hj).
  assert (split_on slash p = parts) as Hs.
  { rewrite <- Hj. apply split_join; [done |]. intros x Hx. apply clean_parts_elem in Hx as [Hx|[Hx| ->]].
    - by apply elem_of_nil in Hx.
    - by eapply split_no_sep.
    - by apply (bool_decide_unpack (slash ∉ dotdot)). }
  destruct (clean_parts_shape [] (split_on slash p)) as (n & names & E & Hproper); [by exists 0%nat, [] |]. fold parts in E.
  rewrite Hs. destruct n as [|n]; [right; by rewrite E |]. rewrite E in Hj. cbn [replicate app] in Hj.
  destruct (replicate n dotdot ++ names) as [|q rest]; [by left |].
  exfalso. rewrite <- Hj in Hup. by change (has_prefix (str "../") (dotdot ++ [slash] ++ join_with slash (q :: rest)) = false) in Hup.
Qed.

Example parent_path_is_accepted : validPath ".." = true.
Proof. vm_compute. reflexivity. Qed.

(** ** A corpus of one mutant *)

Definition demo_patch : bytes := str "diff".
Definition demo_sha : string := Sha256.hex_string (Sha256.Sha256.Sum256 demo_patch).
Definition demo_entry : Mutant :=
  mkMutant "m1" "./raft" "TestVote" (mkInvariant "raft/election-safety" InvariantSafety)
    (mkPatch "m1/activation.patch" demo_sha) (mkPatch "m1/mutant.patch" demo_sha).

Definition said (text : string) : Command := mkCommand (str text) None.
Definition tabbed (parts : list string) : bytes := join_with tab (map str parts).
Definition demo_test (code : Z) (text : list bytes) : TestRun :=
  mkTestRun None text 5 (if code =? 0 then None else Some (ExitError code)) None.
Definition demo_world : World :=
  mkWorld (mkCommand (tabbed ["3"; "0"; "raft/mutant_activation_test.go"]) None)
    (said "create mode 100644 raft/mutant_activation_test.go") (mkCommand (tabbed ["1"; "1"; "raft/node.go"]) None) (said "")
    None (said "") (mkPatchRun (said "") (said "")) (said "")
    (mkCommand (tabbed ["A"; "raft/mutant_activation_test.go"]) None)
    (demo_test 0 [str "DRAFT_MUTANT_ACTIVATED:m1"; [newline]; str "ok"])
    (mkPatchRun (said "") (said ""))
    (mkCommand (tabbed ["A"; "raft/mutant_activation_test.go"] ++ [newline] ++ tabbed ["M"; "raft/node.go"]) None)
    (demo_test 1 [str "x.go:3: DRAFT_MUTANT_ACTIVATED:m1"; [newline]; str " DRAFT_MUTANT_INVARIANT:raft/election-safety"; [newline]; str "FAIL"]).



Lemma safety_kill_is_attributed_witness :
  ∃ mutant, RsMutant (runOne (λ _, []) (λ _, []) demo_entry demo_world) = Some mutant ∧ ExitCode mutant ≠ 0 ∧
    Forall (allowed_change demo_entry) (nonemptyLines (output (mutationDiff demo_world))).
Proof.
  destruct (safety_kill_is_attributed (λ _, []) (λ _, []) demo_entry demo_world) as (b & m & _ & Hm & _ & _ & _ & He & _ & _ & _ & Hf).
  - vm_compute. reflexivity.
  - exists m. split; [exact Hm |]. split; [exact He | exact Hf].
Defined.
