(* ===== verification/Defects.v ===== *)
(** * Manifests of pinned defects (defect/manifest.go)

    The metadata of a defect of a production library that a replay command reproduces. *)

From S2P Require Import Prelude.
From S2P Require Export Lines.
From S2P Require Import Document JsonText.
From S2P Require Sha256.
From stdpp Require Import options.

#[global] Open Scope Z_scope.

Definition ManifestSchema : string := "d-raft.defect/v1".
Definition maxManifestBytes : Z := 16384.

Record Manifest := mkManifest {
  DfSchema : string; DfID : string; UpstreamModule : string; IssueURL : string; FixURL : string;
  VulnerableRevision : string; FixedRevision : string; Fixture : string; FixtureSHA256 : string;
  FailurePredicate : string; MappingPolicy : string }.

Definition revisionPattern (value : string) : bool := (strlen value =? 40) && forallb lower_hex (str value).

(** The fields that must be there, and those with bounded, trimmed texts. *)
Definition requiredFields (m : Manifest) : list string :=
  [DfID m; UpstreamModule m; IssueURL m; FixURL m; Fixture m; FailurePredicate m; MappingPolicy m].

Definition boundedField (value : string) : bool :=
  (strlen value <=? maxManifestBytes) && trimmed (str value) && negb (existsb (λ b, code b =? 0) (str value)).

(** [json.Marshal]: every field is a string. *)
Definition marshalManifest (m : Manifest) : bytes :=
  encode_object
    [encode_member "schema" (encode_string (DfSchema m)); encode_member "id" (encode_string (DfID m));
     encode_member "upstream_module" (encode_string (UpstreamModule m)); encode_member "issue_url" (encode_string (IssueURL m));
     encode_member "fix_url" (encode_string (FixURL m));
     encode_member "vulnerable_revision" (encode_string (VulnerableRevision m));
     encode_member "fixed_revision" (encode_string (FixedRevision m)); encode_member "fixture" (encode_string (Fixture m));
     encode_member "fixture_sha256" (encode_string (FixtureSHA256 m));
     encode_member "failure_predicate" (encode_string (FailurePredicate m));
     encode_member "mapping_policy" (encode_string (MappingPolicy m))].

Definition Validate (m : Manifest) : bool :=
  String.eqb (DfSchema m) ManifestSchema && forallb (λ value, negb (String.eqb value "")) (requiredFields m) &&
  forallb boundedField (requiredFields m) &&
  revisionPattern (VulnerableRevision m) && revisionPattern (FixedRevision m) &&
  negb (String.eqb (VulnerableRevision m) (FixedRevision m)) &&
  (strlen (FixtureSHA256 m) =? 64) && bool_decide (to_lower (str (FixtureSHA256 m)) = str (FixtureSHA256 m)) &&
  bool_decide (is_Some (hex_decode (FixtureSHA256 m))) &&
  (zlen (marshalManifest m) <=? maxManifestBytes).

Definition DecodeManifest (Decode : bytes → option (Manifest * bytes)) (reader : option Reader) : option Manifest :=
  match decodePlanDocument Decode reader maxManifestBytes with
  | inl _ => None
  | inr manifest => if Validate manifest then Some manifest else None
  end.

Definition PinnedEtcdRaftPR31 : Manifest :=
  mkManifest ManifestSchema "etcd-raft/pr-31-log-truncation-panic" "go.etcd.io/etcd/raft/v3"
    "https://github.com/etcd-io/raft/pull/31"
    "https://github.com/etcd-io/raft/commit/d086538f5647fb518b8dbba26a424aea9d782c78"
    "42419da55f51f7a0f0fb22b0e15892fb5657d191" "d086538f5647fb518b8dbba26a424aea9d782c78"
    "defects/etcd-raft-pr31/slow_follower_after_compaction.txt"
    "bdf15b0b725fca9114922c7f5d0e56aa3005f6eea2555c9edd14efe3142fb4a9"
    "vulnerable execution panics while processing slow_follower_after_compaction.txt; fixed execution reaches the fixture boundary without panic"
    "network-loss directives bind all MsgApp attempts carrying one stable application/log operation; conflicting batches are ineligible".

Definition Digest (m : Manifest) : option string :=
  if Validate m then Some (Sha256.hex_string (Sha256.Sha256.Sum256 (marshalManifest m))) else None.

(** ** Facts *)

Lemma pinned_manifest_is_valid : Validate PinnedEtcdRaftPR31 = true.
Proof. vm_compute. reflexivity. Qed.

Definition texts_of (m : Manifest) : list string :=
  [DfSchema m; DfID m; UpstreamModule m; IssueURL m; FixURL m; VulnerableRevision m; FixedRevision m; Fixture m;
   FixtureSHA256 m; FailurePredicate m; MappingPolicy m].

Lemma marshalManifest_inj m m' :
  Forall utf8_string (texts_of m) → Forall utf8_string (texts_of m') → marshalManifest m = marshalManifest m' → m = m'.
Proof.
  intros H H' E. apply (f_equal (λ l, l ++ [])) in E. destruct m, m'. unfold texts_of in *. cbn [DfSchema DfID UpstreamModule IssueURL FixURL VulnerableRevision FixedRevision
    Fixture FixtureSHA256 FailurePredicate MappingPolicy] in *.
  repeat (apply Forall_cons in H as [? H]; apply Forall_cons in H' as [? H']).
  unfold marshalManifest in E. cbn [DfSchema DfID UpstreamModule IssueURL FixURL VulnerableRevision FixedRevision
    Fixture FixtureSHA256 FailurePredicate MappingPolicy] in E.
  revert E. unfold encode_object. cbn [sep_by]. unfold encode_member. rewrite <- ?(assoc_L (++)). intros E.
  repeat (same_text E; match type of E with encode_string ?a ++ _ = encode_string ?b ++ _ =>
    apply (encode_string_free a b) in E as [-> E]; [| assumption ..] end). done.
Qed.

(** A digest determines its manifest, up to a collision of the hash function. *)
Lemma digest_binds m m' d :
  Forall utf8_string (texts_of m) → Forall utf8_string (texts_of m') → Digest m = Some d → Digest m' = Some d → m = m' ∨ collision.
Proof.
  intros H H'. unfold Digest. destruct (Validate m), (Validate m'); try done. intros [= E] [= E']. rewrite <- E' in E.
  apply hex_string_inj in E. destruct (Sum256_binding _ _ E) as [Em|]; [left; by apply marshalManifest_inj | by right].
Qed.
