(* ===== verification/Trace.v ===== *)
(** * Traces (trace.go, trace/decoder.go)

    A recorder writes one JSON record per line, a decoder reads them back and checks them.
    The values of messages and details are of any type [V] when they are recorded, and raw
    JSON when they are read.  What [encoding/json] does by reflection - the text of a record
    and the record of a text - is a parameter.  The theorem follows the events of a
    scheduler from the operations that emit them to the records that are decoded. *)

From S2P Require Import Prelude RaftTypes Json JsonEnc JsonTree Text Lines StrictJson Document.
From S2P Require Heap Simulator SimInv SimProps Rand.
From Stdlib Require Import QArith.QArith.
From stdpp Require Import options.

#[global] Open Scope Z_scope.

(** ** Events (trace.go) *)

Definition TraceSchemaVersion : string := "d-raft.trace/v1".

Module TraceEventKind.
Definition TraceEventScheduled : string := "event_scheduled".
Definition TraceEventCanceled : string := "event_canceled".
Definition TraceEventExecuted : string := "event_executed".
Definition TraceClockAdvanced : string := "clock_advanced".
Definition TraceRandomDraw : string := "random_draw".
Definition TraceNodeRegistered : string := "node_registered".
Definition TraceNodeUnregistered : string := "node_unregistered".
Definition TraceLinkSet : string := "link_set".
Definition TraceLinkReset : string := "link_reset".
Definition TracePartitionChanged : string := "partition_changed".
Definition TracePacketScheduled : string := "packet_scheduled".
Definition TracePacketDelivered : string := "packet_delivered".
Definition TracePacketDropped : string := "packet_dropped".
Definition TraceProtocolInput : string := "protocol_input".
Definition TraceProtocolState : string := "protocol_state".
Definition TracePersistence : string := "persistence".
Definition TraceProcessLifecycle : string := "process_lifecycle".
Definition TraceProtocolDrop : string := "protocol_drop".
End TraceEventKind.
Import TraceEventKind.

Record TraceRoute := mkTraceRoute { TrFrom : NodeID; TrTo : NodeID }.
Record TraceLinkConfig := mkTraceLinkConfig { TlMinLatencyNS : Z; TlMaxLatencyNS : Z; TlLossProbability : Rand.float64 }.

(** A number is zero and a string empty when it is omitted. *)
Record TraceEvent (V : Type) := mkTraceEvent {
  Kind : string; TeAtNS : option Z; EventID : Z; ScheduledForNS : option Z;
  RandomStream : string; RandomOperation : string; RandomArguments : gmap string string; RandomResult : string;
  PacketID : Z; TeFrom : NodeID; TeTo : NodeID; TeMessage : option V; DeliveryAtNS : option Z; DropReason : string;
  Component : string; TeAction : string; Details : option V;
  TeNode : NodeID; TeLink : option TraceLinkConfig; PartitionActive : option bool; PartitionNodes : list NodeID;
  PartitionAllowed : list TraceRoute }.
Arguments mkTraceEvent {V}.
Arguments Kind {V}.
Arguments TeAtNS {V}.
Arguments EventID {V}.
Arguments ScheduledForNS {V}.
Arguments RandomStream {V}.
Arguments RandomOperation {V}.
Arguments RandomArguments {V}.
Arguments RandomResult {V}.
Arguments PacketID {V}.
Arguments TeFrom {V}.
Arguments TeTo {V}.
Arguments TeMessage {V}.
Arguments DeliveryAtNS {V}.
Arguments DropReason {V}.
Arguments Component {V}.
Arguments TeAction {V}.
Arguments Details {V}.
Arguments TeNode {V}.
Arguments TeLink {V}.
Arguments PartitionActive {V}.
Arguments PartitionNodes {V}.
Arguments PartitionAllowed {V}.

Record TraceRecord (V : Type) := mkTraceRecord { Schema : string; Sequence : Z; Event : TraceEvent V }.
Arguments mkTraceRecord {V}.
Arguments Schema {V}.
Arguments Sequence {V}.
Arguments Event {V}.

(** An event of the scheduler (simulator.go). *)
Definition schedulerEvent {V} (kind : string) (at_ event : Z) (scheduled : option Z) : TraceEvent V :=
  mkTraceEvent kind (Some at_) event scheduled "" "" ∅ "" 0 "" "" None None "" "" "" None "" None None [] [].

Definition simulatorEvent {V} (e : Simulator.SimTrace) : TraceEvent V :=
  match e with
  | Simulator.TraceEventScheduled at_ event scheduled => schedulerEvent TraceEventScheduled at_ event (Some scheduled)
  | Simulator.TraceEventCanceled at_ event scheduled => schedulerEvent TraceEventCanceled at_ event (Some scheduled)
  | Simulator.TraceEventExecuted at_ event => schedulerEvent TraceEventExecuted at_ event None
  | Simulator.TraceClockAdvanced at_ => schedulerEvent TraceClockAdvanced at_ 0 None
  end.

(** ** Recording *)

Section recorder.
Context {V W E : Type}.
(** [io.Writer]: how much was written, and an error. *)
Context (Write : W → bytes → W * (Z * option E)).
(** [json.Marshal] of a record. *)
Context (marshal : TraceRecord V → option bytes).

Inductive RecorderError :=
| ErrRequiresWriter | ErrNoWriter | ErrSequenceExhausted | ErrMarshal | ErrWrite (e : E) | ErrShortWrite.

Record JSONLRecorder := mkRecorder { writer : option W; rc_next : Z; rc_err : option RecorderError }.

Definition NewJSONLRecorder (writer : option W) : JSONLRecorder :=
  match writer with
  | None => mkRecorder None 0 (Some ErrRequiresWriter)
  | Some _ => mkRecorder writer 1 None
  end.

Definition RecordTrace (r : JSONLRecorder) (event : TraceEvent V) : JSONLRecorder :=
  let refused err := mkRecorder (writer r) (rc_next r) (Some err) in
  match rc_err r with
  | Some _ => r
  | None =>
    match writer r with
    | None => refused ErrNoWriter
    | Some w =>
      if rc_next r =? 0 then refused ErrSequenceExhausted
      else match marshal (mkTraceRecord TraceSchemaVersion (rc_next r) event) with
      | None => refused ErrMarshal
      | Some encoded =>
        let encoded := encoded ++ [newline] in
        let '(w, (written, err)) := Write w encoded in
        let wrote err := mkRecorder (Some w) (rc_next r) (Some err) in
        match err with
        | Some err => wrote (ErrWrite err)
        | None =>
          if negb (written =? zlen encoded) then wrote ErrShortWrite
          else mkRecorder (Some w) (wrap64 (rc_next r + 1)) None
        end
      end
    end
  end.

Definition Err (r : JSONLRecorder) : option RecorderError := rc_err r.
End recorder.
Arguments JSONLRecorder : clear implicits.
Arguments RecorderError : clear implicits.

(** ** Decoding (trace/decoder.go) *)

Definition DefaultMaxRecordBytes : Z := 16777216.
Definition ValidateCompatible : Z := 1.
Definition ValidateStrict : Z := 2.

Inductive ValidateError :=
| ErrSchema (schema : string) | ErrSequence (got want : Z) | ErrMissingKind | ErrNegativeTime | ErrInvalidLink
| ErrUnknownKind (kind : string) | ErrIncomplete (kind : string).

Inductive TraceError :=
| ErrNilReader | ErrSizeLimit | ErrMode (mode : Z)
| ErrRecordTooLarge (maximum : Z) | ErrRead
| ErrBlankLine (line : Z) | ErrStrict (line : Z) (e : StrictError) | ErrDecode (line : Z) | ErrTrailing (line : Z)
| ErrInvalid (line : Z) (e : ValidateError).

Definition knownKind (kind : string) : bool :=
  bool_decide (kind ∈ [TraceEventScheduled; TraceEventCanceled; TraceEventExecuted; TraceClockAdvanced;
    TraceRandomDraw; TraceNodeRegistered; TraceNodeUnregistered; TraceLinkSet; TraceLinkReset; TracePartitionChanged;
    TracePacketScheduled; TracePacketDelivered; TracePacketDropped; TraceProtocolInput; TraceProtocolState;
    TracePersistence; TraceProcessLifecycle; TraceProtocolDrop]).

Definition negativeTime (t : option Z) : bool := match t with Some t => t <? 0 | None => false end.
Definition invalidLink (link : option TraceLinkConfig) : bool :=
  match link with
  | None => false
  | Some l =>
    (TlMinLatencyNS l <? 0) || (TlMaxLatencyNS l <? TlMinLatencyNS l) || Rand.flt (TlLossProbability l) (Rand.FQ 0%Q) ||
    Rand.flt (Rand.FQ 1%Q) (TlLossProbability l) || negb (Rand.feq (TlLossProbability l) (TlLossProbability l))
  end.

(** What an event of a known kind must have. *)
Definition complete {V} (e : TraceEvent V) : bool :=
  let kind_is := String.eqb (Kind e) in
  let given {A} (x : option A) := match x with Some _ => true | None => false end in
  let named x := negb (String.eqb x "") in
  let timed := given (TeAtNS e) in
  if kind_is TraceEventScheduled then timed && given (ScheduledForNS e) && negb (EventID e =? 0)
  else if kind_is TraceEventCanceled then timed && negb (EventID e =? 0)
  else if kind_is TraceEventExecuted then timed && negb (EventID e =? 0)
  else if kind_is TraceClockAdvanced then timed
  else if kind_is TraceRandomDraw then named (RandomStream e) && named (RandomOperation e) && named (RandomResult e)
  else if kind_is TraceNodeRegistered || kind_is TraceNodeUnregistered then timed && named (TeNode e)
  else if kind_is TraceLinkSet then timed && named (TeFrom e) && named (TeTo e) && given (TeLink e)
  else if kind_is TraceLinkReset then timed && named (TeFrom e) && named (TeTo e)
  else if kind_is TracePartitionChanged then timed && given (PartitionActive e)
  else if kind_is TracePacketScheduled || kind_is TracePacketDelivered then
    timed && negb (PacketID e =? 0) && named (TeFrom e) && named (TeTo e) && given (DeliveryAtNS e)
  else if kind_is TracePacketDropped then
    timed && negb (PacketID e =? 0) && named (TeFrom e) && named (TeTo e) &&
    bool_decide (DropReason e ∈ ["loss"; "partition"; "target_unavailable"])
  else timed && named (Component e) && named (TeAction e).

Definition validateEvent {V} (mode : Z) (e : TraceEvent V) : option ValidateError :=
  if String.eqb (Kind e) "" then Some ErrMissingKind
  else if negativeTime (TeAtNS e) || negativeTime (ScheduledForNS e) || negativeTime (DeliveryAtNS e) then Some ErrNegativeTime
  else if invalidLink (TeLink e) then Some ErrInvalidLink
  else if negb (knownKind (Kind e)) then (if mode =? ValidateStrict then Some (ErrUnknownKind (Kind e)) else None)
  else if complete e then None else Some (ErrIncomplete (Kind e)).

Record Decoder := mkDecoder {
  d_reader : option Reader; maximum : Z; d_mode : Z; d_next : Z; d_err : option TraceError; d_line : Z }.

Definition Option_ : Type := Decoder → Decoder.
Definition WithMaxRecordBytes (maximum : Z) : Option_ := λ d,
  mkDecoder (d_reader d) maximum (d_mode d) (d_next d) (d_err d) (d_line d).
Definition WithValidation (mode : Z) : Option_ := λ d,
  mkDecoder (d_reader d) (maximum d) mode (d_next d) (d_err d) (d_line d).
Definition set_d_reader (d : Decoder) (r : option Reader) : Decoder :=
  mkDecoder r (maximum d) (d_mode d) (d_next d) (d_err d) (d_line d).
Definition set_d_err (d : Decoder) (err : TraceError) : Decoder :=
  mkDecoder (d_reader d) (maximum d) (d_mode d) (d_next d) (Some err) (d_line d).

Definition NewDecoder (reader : option Reader) (options : list Option_) : Decoder :=
  let decoder := foldl (λ d option, option d) (mkDecoder None DefaultMaxRecordBytes ValidateCompatible 1 None 0) options in
  match reader with
  | None => set_d_err decoder ErrNilReader
  | Some _ =>
    if maximum decoder <=? 0 then set_d_err decoder ErrSizeLimit
    else if negb (d_mode decoder =? ValidateCompatible) && negb (d_mode decoder =? ValidateStrict)
    then set_d_err decoder (ErrMode (d_mode decoder))
    else set_d_reader decoder reader
  end.

(** ** Lines

    [bufio.Reader.ReadSlice] of a newline: a fragment up to it, the end of the content, or a
    buffer that is full. *)

Inductive slice := Delimited | BufferFull | Ended.
Definition bufferSize : nat := 4096.

Fixpoint ReadSlice (room : nat) (l : bytes) : bytes * bytes * slice :=
  match l with
  | [] => ([], [], Ended)
  | b :: l' =>
    match room with
    | O => ([], l, BufferFull)
    | S room =>
      if Byte.eqb b newline then ([b], l', Delimited)
      else let '(fragment, rest, s) := ReadSlice room l' in (b :: fragment, rest, s)
    end
  end.

(** A full buffer takes something from the content: its length bounds the rounds.  The
    result says whether the content ended. *)
Fixpoint readLoop (rounds : nat) (maximum : Z) (line : bytes) (r : Reader) : Reader * (TraceError + (bytes * bool)) :=
  match rounds with
  | O => (r, inl ErrRead)
  | S rounds =>
    let '(fragment, rest, s) := ReadSlice bufferSize (content r) in
    let r := mkReader rest (broken r) in
    if maximum <? zlen line + zlen fragment then (r, inl (ErrRecordTooLarge maximum))
    else
      let line := line ++ fragment in
      match s with
      | Delimited => (r, inr (line, false))
      | BufferFull => readLoop rounds maximum line r
      | Ended => if broken r then (r, inl ErrRead) else (r, inr (line, true))
      end
  end.

Definition readLine (maximum : Z) (r : Reader) : Reader * (TraceError + (bytes * bool)) :=
  readLoop (S (length (content r))) maximum [] r.

(** [bytes.TrimSuffix] of one byte. *)
Definition trimLast (b : byte) (l : bytes) : bytes :=
  match rev l with c :: rest => if Byte.eqb c b then rev rest else l | [] => l end.

Definition carriage_return : byte := x0d.

Section decoder.
(** [Decode] of a record, with unknown fields disallowed or not: the record and the rest. *)
Context (Decode : bool → bytes → option (TraceRecord bytes * bytes)).

Definition validateRecord (d : Decoder) (record : TraceRecord bytes) : option ValidateError :=
  if negb (String.eqb (Schema record) TraceSchemaVersion) then Some (ErrSchema (Schema record))
  else if negb (Sequence record =? d_next d) then Some (ErrSequence (Sequence record) (d_next d))
  else validateEvent (d_mode d) (Event record).

(** [Next] of a line. *)
Definition decodeLine (d : Decoder) (line : bytes) : Decoder * (TraceError + option (TraceRecord bytes)) :=
  let number := wrap64 (d_line d + 1) in
  let d := mkDecoder (d_reader d) (maximum d) (d_mode d) (d_next d) (d_err d) number in
  let refuse err := (set_d_err d err, inl err) in
  let line := trimLast carriage_return (trimLast newline line) in
  match TrimSpace line with
  | [] => refuse (ErrBlankLine number)
  | _ =>
    match RejectDuplicateNames line with
    | Some err => refuse (ErrStrict number err)
    | None =>
      match Decode (d_mode d =? ValidateStrict) line with
      | None => refuse (ErrDecode number)
      | Some (record, trailing) =>
        match skip_space trailing with
        | _ :: _ => refuse (ErrTrailing number)
        | [] =>
          match validateRecord d record with
          | Some err => refuse (ErrInvalid number err)
          | None => (mkDecoder (d_reader d) (maximum d) (d_mode d) (wrap64 (d_next d + 1)) (d_err d) number, inr (Some record))
          end
        end
      end
    end
  end.

(** [inr None] is [io.EOF].  [NewDecoder] leaves no decoder without a reader or an error. *)
Definition Next (d : Decoder) : Decoder * (TraceError + option (TraceRecord bytes)) :=
  match d_err d, d_reader d with
  | Some err, _ => (d, inl err)
  | None, None => (d, inl ErrNilReader)
  | None, Some reader =>
    let '(reader, r) := readLine (maximum d) reader in
    let d := set_d_reader d (Some reader) in
    match r with
    | inl err => (set_d_err d err, inl err)
    | inr ([], true) => (d, inr None)
    | inr (line, _) => decodeLine d line
    end
  end.

(** Every record up to the end of the content or an error. *)
Fixpoint readAll (limit : nat) (d : Decoder) : option (list (TraceRecord bytes) * option TraceError) :=
  match limit with
  | O => None
  | S limit =>
    match Next d with
    | (_, inl err) => Some ([], Some err)
    | (_, inr None) => Some ([], None)
    | (d, inr (Some record)) => '(records, err) ← readAll limit d; Some (record :: records, err)
    end
  end.
End decoder.

(** Raw JSON of a type, [None] when it is missing or cannot be decoded. *)
Definition DecodeRaw {M} (Unmarshal : bytes → option M) (raw : option bytes) : option M :=
  match raw with None | Some [] => None | Some raw => Unmarshal raw end.
Definition DecodeMessage {M} (Unmarshal : bytes → option M) (record : TraceRecord bytes) : option M :=
  DecodeRaw Unmarshal (TeMessage (Event record)).
Definition DecodeDetails {M} (Unmarshal : bytes → option M) (record : TraceRecord bytes) : option M :=
  DecodeRaw Unmarshal (Details (Event record)).

(** ** What is written is read back *)

Lemma ReadSlice_line room line rest :
  newline ∉ line →
  ReadSlice room (line ++ newline :: rest) =
    if (length line <? room)%nat then (line ++ [newline], rest, Delimited)
    else (take room line, drop room line ++ newline :: rest, BufferFull).
Proof.
  revert line. induction room as [|room IH]; intros [|b line] Hn; try done.
  apply not_elem_of_cons in Hn as [Hb Hn]. cbn [ReadSlice app].
  destruct (Byte.eqb b newline) eqn:E; [apply byte_eqb_true in E; congruence |]. rewrite IH by done.
  change (length (b :: line) <? S room)%nat with (length line <? room)%nat. by destruct (_ <? _)%nat.
Qed.

Lemma readLoop_line rounds maximum acc line rest b :
  newline ∉ line → zlen acc + zlen line < maximum → (length line < rounds)%nat →
  readLoop rounds maximum acc (mkReader (line ++ newline :: rest) b) = (mkReader rest b, inr (acc ++ line ++ [newline], false)).
Proof.
  revert acc line. induction rounds as [|rounds IH]; intros acc line Hn Hmax Hr; [lia |]. cbn [readLoop content broken].
  rewrite ReadSlice_line by done. destruct (Nat.ltb_spec (length line) bufferSize) as [Hl|Hl].
  - unfold zlen in *. rewrite length_app. simpl. by rewrite (proj2 (Z.ltb_ge _ _)) by lia.
  - rewrite (proj2 (Z.ltb_ge _ _)) by (unfold zlen in *; rewrite length_take; lia). unfold bufferSize in *.
    rewrite IH; [by rewrite <- app_assoc, (app_assoc (take _ _)), take_drop | | |].
    + intros Hin. apply Hn. rewrite <- (take_drop 4096 line). apply elem_of_app. by right.
    + unfold zlen in *. rewrite length_app, length_take, length_drop. lia.
    + rewrite length_drop. lia.
Qed.

Lemma readLine_line maximum line rest b :
  newline ∉ line → zlen line < maximum →
  readLine maximum (mkReader (line ++ newline :: rest) b) = (mkReader rest b, inr (line ++ [newline], false)).
Proof.
  intros Hn Hmax. unfold readLine. rewrite readLoop_line; [done | done | by unfold zlen in * | simpl; rewrite length_app; simpl; lia].
Qed.

Lemma trimLast_snoc b l : trimLast b (l ++ [b]) = l.
Proof. unfold trimLast. rewrite rev_app_distr. simpl. rewrite (proj2 (byte_eqb_true b b) eq_refl). apply rev_involutive. Qed.

Lemma trimLast_other b c l : c ≠ b → trimLast b (l ++ [c]) = l ++ [c].
Proof.
  intros Hne. unfold trimLast. rewrite rev_app_distr. simpl. destruct (Byte.eqb c b) eqn:E; [by apply byte_eqb_true in E | done].
Qed.

(** A text in braces is not blank. *)
Lemma TrimSpace_brace l : TrimSpace (x7b :: l) ≠ [].
Proof.
  assert (runes (x7b :: l) = [x7b] :: runes l) as E by reflexivity.
  unfold TrimSpace. rewrite E. cbn [trim_left]. change (space_rune [x7b]) with false. cbn iota.
  intros H. apply (f_equal length) in H. rewrite concat_rev_length in H. revert H.
  generalize (runes l). intros rs. cbn [rev]. induction (rev rs) as [|r k IH]; [done |]. cbn [app trim_left].
  destruct (space_rune r); [exact IH |]. cbn [concat]. rewrite length_app, concat_app, length_app. simpl. lia.
Qed.

(** What [encoding/json] makes of a record: an object on one line, read back as it is. *)
Definition reads_back {V} (marshal : TraceRecord V → option bytes) (Decode : bool → bytes → option (TraceRecord bytes * bytes))
    (maximum : Z) (record : TraceRecord V) (read : TraceRecord bytes) : Prop :=
  ∃ body, marshal record = Some (x7b :: body ++ [x7d]) ∧ newline ∉ body ∧ zlen body + 2 < maximum ∧
    RejectDuplicateNames (x7b :: body ++ [x7d]) = None ∧ Decode true (x7b :: body ++ [x7d]) = Some (read, []).

(** [bytes.Buffer]. *)
Definition bufferWrite (w l : bytes) : bytes * (Z * option Empty_set) := (w ++ l, (zlen l, None)).

Definition recordAll {V} (marshal : TraceRecord V → option bytes) (r : JSONLRecorder bytes Empty_set) (events : list (TraceEvent V)) :=
  foldl (RecordTrace bufferWrite marshal) r events.

(** A record as it is read, from its number. *)
Definition numbered (next : Z) (events : list (TraceEvent bytes)) : list (TraceRecord bytes) :=
  imap (λ i e, mkTraceRecord TraceSchemaVersion (next + Z.of_nat i) e) events.

Lemma numbered_cons next e events : numbered next (e :: events) = mkTraceRecord TraceSchemaVersion next e :: numbered (next + 1) events.
Proof. unfold numbered. cbn [imap]. f_equal; [f_equal; lia |]. apply imap_ext. intros i x _. simpl. f_equal. lia. Qed.

Section roundtrip.
Context {V : Type} (marshal : TraceRecord V → option bytes) (Decode : bool → bytes → option (TraceRecord bytes * bytes)) (maximum : Z).

(** The events [es], read as [ds], with their numbers from [next]. *)
Fixpoint readable (next : Z) (es : list (TraceEvent V)) (ds : list (TraceEvent bytes)) : Prop :=
  match es, ds with
  | [], [] => True
  | e :: es, d :: ds =>
    reads_back marshal Decode maximum (mkTraceRecord TraceSchemaVersion next e) (mkTraceRecord TraceSchemaVersion next d) ∧
    validateEvent ValidateStrict d = None ∧ readable (next + 1) es ds
  | _, _ => False
  end.

Lemma Next_line body rest b next line record :
  newline ∉ body → zlen body + 2 < maximum → RejectDuplicateNames (x7b :: body ++ [x7d]) = None →
  Decode true (x7b :: body ++ [x7d]) = Some (record, []) →
  Schema record = TraceSchemaVersion → Sequence record = next → validateEvent ValidateStrict (Event record) = None →
  Next Decode (mkDecoder (Some (mkReader ((x7b :: body ++ [x7d]) ++ newline :: rest) b)) maximum ValidateStrict next None line) =
    (mkDecoder (Some (mkReader rest b)) maximum ValidateStrict (wrap64 (next + 1)) None (wrap64 (line + 1)), inr (Some record)).
Proof using Type.
  intros Hn Hmax Hd Hdec Hs Hq Hv. unfold Next. cbn [d_err d_reader]. set (text := x7b :: body ++ [x7d]) in *.
  rewrite readLine_line; [| unfold text; set_solver | unfold text, zlen in *; simpl; rewrite length_app; simpl; lia].
  cbn [app]. unfold text at 1. cbn [app]. fold text. unfold decodeLine. cbn [set_d_reader d_reader Trace.maximum d_mode d_next d_err d_line].
  change (x7b :: (body ++ [x7d]) ++ [newline]) with (text ++ [newline]). rewrite trimLast_snoc.
  assert (trimLast carriage_return text = text) as -> by (apply (trimLast_other carriage_return x7d (x7b :: body)); done).
  destruct (TrimSpace text) as [|? ?] eqn:E; [by apply TrimSpace_brace in E |]. rewrite Hd. change (ValidateStrict =? ValidateStrict) with true.
  rewrite Hdec. cbn [skip_space]. unfold validateRecord. cbn [d_mode d_next].
  by rewrite Hs, Hq, String.eqb_refl, Z.eqb_refl, Hv.
Qed.
(** The lines of a file. *)
Fixpoint file (next : Z) (es : list (TraceEvent V)) : bytes :=
  match es with
  | [] => []
  | e :: es => default [] (marshal (mkTraceRecord TraceSchemaVersion next e)) ++ newline :: file (next + 1) es
  end.

Lemma recordAll_file w next es ds :
  readable next es ds → 0 < next → next + zlen es ≤ max_u64 →
  recordAll marshal (mkRecorder (Some w) next None) es = mkRecorder (Some (w ++ file next es)) (next + zlen es) None.
Proof using Type.
  revert w next ds. induction es as [|e es IH]; intros w next [|d ds] Hr H0 Hmax; try done.
  - unfold recordAll, zlen. simpl. by rewrite app_nil_r, Z.add_0_r.
  - destruct Hr as ((body & Hm & _) & _ & Hr). unfold recordAll. cbn [foldl].
    assert (zlen (e :: es) = zlen es + 1) as Hlen by (unfold zlen; simpl; lia). rewrite Hlen in *.
    change (foldl (RecordTrace bufferWrite marshal) ?r es) with (recordAll marshal r es).
    unfold RecordTrace at 1. cbn [rc_err writer rc_next]. rewrite (proj2 (Z.eqb_neq next 0)) by lia. rewrite Hm.
    unfold bufferWrite at 1. rewrite Z.eqb_refl. cbn [negb]. rewrite wrap64_small by (unfold is_u64; unfold zlen in *; lia).
    rewrite (IH _ _ ds) by (done || lia). cbn [file]. rewrite Hm. cbn [default]. f_equal; [| lia].
    by rewrite <- !app_assoc.
Qed.

Lemma readAll_file next es ds line :
  0 < maximum → readable next es ds → 0 < next → next + zlen es ≤ max_u64 →
  readAll Decode (S (length ds)) (mkDecoder (Some (mkReader (file next es) false)) maximum ValidateStrict next None line) =
    Some (numbered next ds, None).
Proof using Type.
  intros Hpos. revert next ds line. induction es as [|e es IH]; intros next [|d ds] line Hr H0 Hmax; try done.
  - cbn [readAll length file]. unfold Next. cbn [d_err d_reader]. unfold readLine. cbn [content length readLoop ReadSlice broken Trace.maximum].
    unfold zlen. simpl. rewrite (proj2 (Z.ltb_ge maximum (Z.of_nat 0 + Z.of_nat 0))); [done | change (0 ≤ maximum); lia].
  - destruct Hr as ((body & Hm & Hn & Hlen & Hd & Hdec) & Hv & Hr). cbn [file]. rewrite Hm. cbn [default].
    assert (zlen (e :: es) = zlen es + 1) as Hz by (unfold zlen; simpl; lia). rewrite Hz in *.
    cbn [length]. remember (S (length ds)) as limit. cbn [readAll].
    rewrite (Next_line body _ false next line _ Hn Hlen Hd Hdec eq_refl eq_refl Hv). subst limit.
    rewrite wrap64_small by (unfold is_u64; unfold zlen in *; lia). rewrite IH by (done || lia).
    cbn [mbind option_bind]. by rewrite numbered_cons.
Qed.
End roundtrip.

(** ** The events of a scheduler *)

Section simulator.
Context {A : Type}.
Abbreviation Sim := (Simulator.Simulator A).

Definition event_valid (e : Simulator.SimTrace) : Prop := validateEvent ValidateStrict (simulatorEvent (V := bytes) e) = None.

(** Every event that a sink received is valid. *)
Definition events_valid (s : Sim) : Prop := match Simulator.trace s with Some l => Forall event_valid l | None => True end.

Lemma scheduler_events_valid at_ event scheduled :
  0 ≤ at_ → 0 ≤ scheduled → event ≠ 0 →
  event_valid (Simulator.TraceEventScheduled at_ event scheduled) ∧ event_valid (Simulator.TraceEventCanceled at_ event scheduled) ∧
  event_valid (Simulator.TraceEventExecuted at_ event) ∧ event_valid (Simulator.TraceClockAdvanced at_).
Proof.
  intros Hat Hs He. unfold event_valid, validateEvent.
  cbn [simulatorEvent schedulerEvent Kind TeAtNS ScheduledForNS DeliveryAtNS TeLink negativeTime invalidLink].
  rewrite !(proj2 (Z.ltb_ge _ 0)) by lia. unfold complete. cbn [schedulerEvent Kind TeAtNS ScheduledForNS EventID].
  by rewrite (proj2 (Z.eqb_neq event 0)) by done.
Qed.

Lemma record_valid s e : events_valid s → event_valid e → events_valid (Simulator.recordTrace s e).
Proof.
  unfold events_valid, Simulator.recordTrace. destruct (Simulator.trace s) as [l|] eqn:E; [| by rewrite E].
  simpl. intros H He. apply Forall_app. by split; [| constructor].
Qed.

Lemma scheduleAt_valid s at_ t act :
  SimInv.sim_wf s → events_valid s → wlp (Simulator.scheduleAt s at_ t act) (λ r, events_valid r.1).
Proof.
  intros [_ _ _ _ Hnow Hnext] Hv. unfold Simulator.scheduleAt. destruct (Z.ltb_spec at_ 0); [done |]. destruct (at_ <? _); [done |].
  destruct act as [act|]; [| done]. destruct (Simulator.exhausted s); [done |]. cbv zeta.
  set (id := if Simulator.nextID s =? 0 then 1 else Simulator.nextID s).
  destruct (if id =? max_u64 then _ else _) as [next exh]. apply wlp_bind.
  destruct (Heap.push _ _ _) as [[m h]|]; [| done]. simpl. apply record_valid; [done |].
  apply scheduler_events_valid; [simpl; lia | done |]. unfold id. destruct (Z.eqb_spec (Simulator.nextID s) 0); lia.
Qed.

Lemma Cancel_valid s id : SimInv.sim_wf s → events_valid s → wlp (Simulator.Cancel s id) (λ r, events_valid r.1).
Proof.
  intros Hs Hv. pose proof Hs as [Hc Ho Hp Hev Hnow _]. unfold Simulator.Cancel.
  destruct (bool_decide_reflect (id ∈ Simulator.pending s)) as [Hin|]; [| done]. cbn [negb]. apply Hp in Hin.
  destruct (SimInv.queue_position s id Hs Hin) as (e & He & _ & Hidx & Hpos). destruct (Hev id Hin) as (H0 & _ & e0 & He0 & Hw & _).
  rewrite (SimInv.deref_Some _ _ _ He). cbn [mbind go_bind].
  destruct (wp_inv _ _ (Heap.remove_ok (SimInv.time_of (Simulator.mem s)) _ _ _ _ Hc Ho Hidx Hpos))
    as ([[m' h'] y] & E & -> & _ & _ & He' & _). cbn [Simulator.mem Simulator.queue Simulator.set_pending]. rewrite E. cbn [mbind go_bind].
  destruct (SimInv.erased_lookup _ _ _ _ He' He) as (e' & Hm' & _ & Hwe & _). rewrite (SimInv.deref_Some _ _ _ Hm'). cbn [mbind go_bind wlp].
  apply record_valid; [done |]. apply scheduler_events_valid; simpl; try lia. rewrite Hwe. assert (e0 = e) as -> by congruence. lia.
Qed.

Lemma takeNext_valid s :
  SimInv.sim_wf s → events_valid s →
  wlp (Simulator.takeNext s) (λ r, match r with Some (s', _) => SimInv.sim_wf s' ∧ events_valid s' | None => True end).
Proof.
  intros Hs Hv. destruct (SimInv.takeNext_ok s Hs) as [(_ & _ & ->) | (x & e & act & s1 & _ & Hs1 & _ & _ & _ & E)]; [done |].
  pose proof E as E'. rewrite E'. cbn [wlp]. split; [done |]. clear E'. pose proof Hs as [Hc Ho Hp Hev _ _].
  unfold Simulator.takeNext in E. destruct (Simulator.queue s) as [|y q] eqn:Hq; [done |]. rewrite <- Hq in *.
  assert (Simulator.queue s !! 0%nat = Some y) as Hy by by rewrite Hq.
  unfold Heap.pop in E. destruct (wp_inv _ _ (Heap.remove_ok (SimInv.time_of (Simulator.mem s)) _ _ _ _ Hc Ho (Z.le_refl 0) Hy))
    as ([[m' h'] z] & Er & -> & _ & _ & He' & _). rewrite Er in E. cbn [mbind go_bind] in E.
  destruct (Hev y) as (H0 & _ & e0 & He0 & Hw & _); [by eapply list_elem_of_lookup_2 |].
  destruct (Hc _ _ Hy) as (e1 & He1 & Hid & _). assert (e1 = e0) as -> by congruence.
  destruct (SimInv.erased_lookup _ _ _ _ He' He0) as (e' & Hm' & Hid' & Hwe & _). rewrite (SimInv.deref_Some _ _ _ Hm') in E. cbn [mbind go_bind] in E.
  cbv zeta in E. destruct (Heap.action e') as [a|]; [| done]. injection E as <- _.
  assert (events_valid (Simulator.recordTrace (Simulator.set_now (Simulator.set_pending (Simulator.set_heap s m' h')
    (Simulator.pending s ∖ {[Heap.ev_id e']})) (Heap.when e')) (Simulator.TraceEventExecuted (Heap.when e') (Heap.ev_id e')))) as Hd; [| exact Hd].
  pose proof (SimInv.sw_now _ Hs). apply record_valid; [done |]. apply (scheduler_events_valid _ _ 0); [lia | lia |]. rewrite Hid', Hid. lia.
Qed.

(** ** Driven schedulers *)

Lemma exec_command_valid s c :
  SimInv.sim_wf s → SimProps.command_i64 c → events_valid s →
  wlp (SimProps.exec_command s c) (λ r, SimInv.sim_wf r.1 ∧ events_valid r.1).
Proof.
  intros Hs Hc Hv. pose proof (SimProps.exec_command_ok s c Hs Hc) as Hw.
  assert (wlp (SimProps.exec_command s c) (λ r, events_valid r.1)) as H.
  { assert (∀ m, wlp m (λ r, events_valid r.1) → wlp (SimProps.scheduled (A := A) m) (λ r, events_valid r.1)) as Hsch.
    { intros m Hm. unfold SimProps.scheduled. apply wlp_bind. eapply wlp_mono; [exact Hm |]. by intros [s' r]. }
    destruct c; cbn [SimProps.exec_command]; try apply Hsch.
    - unfold Simulator.Schedule. do 2 (destruct (_ <? _); [done |]). by apply scheduleAt_valid.
    - unfold Simulator.ScheduleTagged. do 2 (destruct (_ <? _); [done |]). unfold Simulator.ScheduleAtTagged.
      destruct (Simulator.validateEventTag t); [done | by apply scheduleAt_valid].
    - by apply scheduleAt_valid.
    - unfold Simulator.ScheduleAtTagged. destruct (Simulator.validateEventTag t); [done | by apply scheduleAt_valid].
    - apply wlp_bind. eapply wlp_mono; [by apply Cancel_valid |]. by intros [s' b]. }
  destruct (SimProps.exec_command s c) as [[s' r]|]; [| done]. simpl in *. split; [apply Hw | exact H].
Qed.

Context (run_action : A → Sim → go Sim) `{HA : !SimProps.Actions run_action}.

(** A scheduler with a sink, after any operations and runs of its loops. *)
Inductive driven : Sim → Prop :=
| driven_new : driven (Simulator.SetTraceSink Simulator.New (Some []))
| driven_command s c s' r : driven s → SimProps.command_i64 c → SimProps.exec_command s c = Done (s', r) → driven s'
| driven_step s s' b : driven s → Simulator.Step run_action s = Done (s', b) → driven s'
| driven_until s fuel end_ s' r :
    driven s → end_ ≤ max_i64 → Simulator.RunUntil run_action fuel end_ s = Done (Some (s', r)) → driven s'.

Lemma script_valid s cs :
  SimInv.sim_wf s → Forall SimProps.command_i64 cs → events_valid s →
  wlp (SimProps.script s cs) (λ s', SimInv.sim_wf s' ∧ events_valid s').
Proof using Type.
  intros Hs Hcs. revert s Hs. induction Hcs as [|c cs Hc _ IH]; intros s Hs Hv; [done |]. cbn [SimProps.script].
  apply wlp_bind. eapply wlp_mono; [by apply exec_command_valid |]. intros [s' r] [Hs' Hv']. by apply IH.
Qed.

Lemma Step_valid s :
  SimInv.sim_wf s → events_valid s → wlp (Simulator.Step run_action s) (λ r, SimInv.sim_wf r.1 ∧ events_valid r.1).
Proof using All.
  intros Hs Hv. unfold Simulator.Step. apply wlp_bind. eapply wlp_mono; [by apply takeNext_valid |].
  intros [[s' a]|]; [| done]. intros [Hs' Hv']. apply wlp_bind. destruct (SimProps.run_script a s') as (cs & Hcs & ->).
  eapply wlp_mono; [by apply script_valid |]. done.
Qed.

Lemma runUntil_valid fuel end_ s count :
  SimInv.sim_wf s → events_valid s →
  wlp (Simulator.runUntil run_action fuel end_ s count) (λ r, match r with Some (s', _) => events_valid s' | None => True end).
Proof using All.
  revert s count. induction fuel as [|fuel IH]; intros s count Hs Hv; [done |]. cbn [Simulator.runUntil]. apply wlp_bind.
  destruct (Simulator.NextEventTime s) as [[t b]|]; [| done]. simpl. destruct (b && (t <=? end_)); [| done].
  apply wlp_bind. eapply wlp_mono; [by apply Step_valid |]. intros [s' b'] [Hs' Hv']. by apply IH.
Qed.

Lemma driven_valid s : driven s → SimInv.sim_wf s ∧ events_valid s.
Proof using All.
  intros Hd. induction Hd as [| s c s' r _ [Hs Hv] Hc E | s s' b _ [Hs Hv] E | s fuel end_ s' r _ [Hs Hv] Hend E].
  - split; [| constructor]. destruct (SimInv.New_wf (A := A)) as [W1 W2 W3 W4 W5 W6]. by split.
  - pose proof (exec_command_valid s c Hs Hc Hv) as H. by rewrite E in H.
  - pose proof (Step_valid s Hs Hv) as H. by rewrite E in H.
  - unfold Simulator.RunUntil in E. destruct (Z.ltb_spec end_ 0) as [|E0]; [by simplify_eq |].
    destruct (Z.ltb_spec end_ (Simulator.now s)) as [|En]; [by simplify_eq |].
    pose proof (SimProps.run_until_stops_at_end run_action fuel end_ s Hs ltac:(lia)) as Hw.
    unfold Simulator.RunUntil in Hw. rewrite (proj2 (Z.ltb_ge end_ 0)), (proj2 (Z.ltb_ge end_ (Simulator.now s))) in Hw by lia.
    rewrite E in Hw. destruct Hw as [Hw _]. split; [by apply (Hw s' r) |]. clear Hw.
    pose proof (runUntil_valid fuel end_ s 0 Hs Hv) as Hrun. destruct (Simulator.runUntil _ _ _ _ _) as [[[s1 n]|]|]; try done.
    simpl in *. destruct (negb _); simplify_eq; [| done]. apply record_valid; [done |].
    by apply (scheduler_events_valid _ 1 0); [lia |..].
Qed.
End simulator.

(** ** The trace of a scheduler is read back *)

Lemma readable_events {V} marshal Decode maximum next (l : list Simulator.SimTrace) :
  Forall event_valid l →
  (∀ i e, l !! i = Some e →
     reads_back (V := V) marshal Decode maximum (mkTraceRecord TraceSchemaVersion (next + Z.of_nat i) (simulatorEvent e))
       (mkTraceRecord TraceSchemaVersion (next + Z.of_nat i) (simulatorEvent e))) →
  readable marshal Decode maximum next (map simulatorEvent l) (map simulatorEvent l).
Proof.
  revert next. induction l as [|e l IH]; intros next Hv Hr; [done |]. apply Forall_cons in Hv as [He Hv]. cbn [map readable].
  split; [| split; [exact He |]].
  - pose proof (Hr 0%nat e eq_refl) as H. by rewrite Z.add_0_r in H.
  - apply IH; [done |]. intros i e' Hi. replace (next + 1 + Z.of_nat i) with (next + Z.of_nat (S i)) by lia. by apply (Hr (S i)).
Qed.

(** C37.  What a scheduler reports to a recorder is read back in full: after any operations
    and runs of its loops, the recorder has no error, and a strict decoder of what it wrote
    returns the events, in order, with their sequence numbers, and then the end of the file.
    The JSON text of every record is an object on one line within the decoder's limit, with
    no repeated name, from which the record can be read. *)
Theorem simulator_trace_decodes {A V} run_action `{HA : !SimProps.Actions run_action} marshal Decode maximum
    (s : Simulator.Simulator A) l :
  driven run_action s → Simulator.trace s = Some l → 0 < maximum → zlen l < max_u64 →
  (∀ i e, l !! i = Some e →
     reads_back (V := V) marshal Decode maximum (mkTraceRecord TraceSchemaVersion (1 + Z.of_nat i) (simulatorEvent e))
       (mkTraceRecord TraceSchemaVersion (1 + Z.of_nat i) (simulatorEvent e))) →
  let r := recordAll marshal (NewJSONLRecorder (Some [])) (map simulatorEvent l) in
  Err r = None ∧ ∃ written, writer r = Some written ∧
    readAll Decode (S (length l))
      (NewDecoder (Some (mkReader written false)) [WithMaxRecordBytes maximum; WithValidation ValidateStrict]) =
      Some (numbered 1 (map simulatorEvent l), None).
Proof.
  intros Hd Hl Hpos Hmax Hr. destruct (driven_valid run_action s Hd) as [_ Hv]. unfold events_valid in Hv. rewrite Hl in Hv.
  pose proof (readable_events marshal Decode maximum 1 l Hv Hr) as Hread.
  assert (1 + zlen (map (simulatorEvent (V := V)) l) ≤ max_u64) as Hlen by (unfold zlen in *; rewrite length_map; lia).
  cbv zeta. unfold NewJSONLRecorder. rewrite (recordAll_file _ _ _ _ _ _ _ Hread) by (done || lia). split; [done |].
  eexists. split; [done |]. unfold NewDecoder. cbn [foldl WithMaxRecordBytes WithValidation Trace.maximum d_mode d_next d_err d_line d_reader].
  rewrite (proj2 (Z.leb_gt maximum 0)) by done. change (negb (ValidateStrict =? ValidateCompatible) && negb (ValidateStrict =? ValidateStrict)) with false.
  rewrite app_nil_l. rewrite <- (length_map (simulatorEvent (V := bytes)) l) at 1. by apply readAll_file.
Qed.

(** ** A scheduler that schedules, cancels and runs *)

Definition demo_marshal (r : TraceRecord Empty_set) : option bytes :=
  let e := Event r in
  let some key v := match v with Some z => [encode_member key (encode_int z)] | None => [] end in
  Some (encode_object ([encode_member "schema" (encode_string (Schema r)); encode_member "sequence" (encode_int (Sequence r));
                        encode_member "kind" (encode_string (Kind e))] ++ some "at_ns" (TeAtNS e) ++
                       (if EventID e =? 0 then [] else [encode_member "event_id" (encode_int (EventID e))]) ++
                       some "scheduled_for_ns" (ScheduledForNS e))).

Definition demo_decode (strict : bool) (l : bytes) : option (TraceRecord bytes * bytes) :=
  match parse_json l with
  | Some (JObject fields) =>
    let field name := snd <$> list_find (λ f, f.1 = str name) fields in
    let text name := match field name with Some (_, JString s) => unstr s | _ => "" end in
    let number name := match field name with Some (_, JNumber t) => parse_uint t | _ => None end in
    Some (mkTraceRecord (text "schema") (default 0 (number "sequence"))
            (schedulerEvent (text "kind") (default 0 (number "at_ns")) (default 0 (number "event_id")) (number "scheduled_for_ns")), [])
  | _ => None
  end.

Definition idle_action (_ : unit) (s : Simulator.Simulator unit) : go (Simulator.Simulator unit) := Done s.
#[export] Instance idle_actions : SimProps.Actions idle_action.
Proof. intros a s. exists []. by split; [constructor |]. Qed.

Definition demo_script : list (SimProps.command (A := unit)) :=
  [SimProps.CSchedule 5 (Some tt); SimProps.CScheduleAt 3 (Some tt); SimProps.CCancel 1].

Definition demo_simulator : option (Simulator.Simulator unit) :=
  match SimProps.script (Simulator.SetTraceSink Simulator.New (Some [])) demo_script with
  | Done s => match Simulator.RunUntil idle_action 5 9 s with Done (Some (s, _)) => Some s | _ => None end
  | Panic => None
  end.

Lemma script_driven {A} (run_action : A → Simulator.Simulator A → go (Simulator.Simulator A)) s cs s' :
  driven run_action s → Forall SimProps.command_i64 cs → SimProps.script s cs = Done s' → driven run_action s'.
Proof.
  intros Hd Hcs. revert s Hd. induction Hcs as [|c cs Hc _ IH]; intros s Hd; cbn [SimProps.script]; [by intros [= <-] |].
  destruct (SimProps.exec_command s c) as [[s1 r]|] eqn:E; [| done]. cbn [mbind go_bind]. apply IH. by apply (driven_command _ s c s1 r).
Qed.

Lemma demo_driven s : demo_simulator = Some s → driven idle_action s.
Proof.
  unfold demo_simulator. destruct (SimProps.script _ _) as [s0|] eqn:E0; [| done].
  destruct (Simulator.RunUntil _ _ _ _) as [[[s1 r]|]|] eqn:E1; try done. intros [= <-].
  apply (driven_until idle_action s0 5 9 s1 r); [| done | exact E1].
  apply (script_driven idle_action _ _ _ (driven_new _)) in E0; [done |]. repeat constructor. vm_compute. discriminate.
Qed.

Definition demo_events : list Simulator.SimTrace :=
  [Simulator.TraceEventScheduled 0 1 5; Simulator.TraceEventScheduled 0 2 3; Simulator.TraceEventCanceled 0 1 5;
   Simulator.TraceEventExecuted 3 2; Simulator.TraceClockAdvanced 9].

Lemma demo_trace : (s ← demo_simulator; Simulator.trace s) = Some demo_events.
Proof. vm_compute. reflexivity. Qed.

(** The body of the text of a record. *)
Definition demo_body (r : TraceRecord Empty_set) : bytes := removelast (tail (default [] (demo_marshal r))).

Lemma demo_reads_back i e :
  demo_events !! i = Some e →
  reads_back demo_marshal demo_decode 200 (mkTraceRecord TraceSchemaVersion (1 + Z.of_nat i) (simulatorEvent e))
    (mkTraceRecord TraceSchemaVersion (1 + Z.of_nat i) (simulatorEvent e)).
Proof.
  intros Hi. exists (demo_body (mkTraceRecord TraceSchemaVersion (1 + Z.of_nat i) (simulatorEvent e))).
  do 5 (destruct i as [|i]; [injection Hi as <-; split_and!;
    [vm_compute; reflexivity | refine (bool_decide_eq_true_1 _ _); vm_compute; reflexivity | vm_compute; reflexivity
    | vm_compute; reflexivity | vm_compute; reflexivity] |]). done.
Qed.

Lemma simulator_trace_decodes_witness :
  ∃ s written, demo_simulator = Some s ∧
    readAll demo_decode 6 (NewDecoder (Some (mkReader written false)) [WithMaxRecordBytes 200; WithValidation ValidateStrict]) =
      Some (numbered 1 (map simulatorEvent demo_events), None).
Proof.
  pose proof demo_trace as H. destruct demo_simulator as [s|] eqn:E; [| discriminate H]. cbn [mbind option_bind] in H.
  destruct (simulator_trace_decodes idle_action demo_marshal demo_decode 200 s demo_events (demo_driven s E) H eq_refl eq_refl
    demo_reads_back) as (_ & written & _ & Hw).
  exists s, written. split; [reflexivity | exact Hw].
Defined.
