(* ===== verification/EtcdState.v ===== *)
(** * The etcd/raft adapter: the library, the state and computations (adapters/etcdraft)

    The adapter drives the production Raft core of go.etcd.io/raft/v3, a library whose code
    is not part of the repository.  What the adapter calls of it is the class [Library]:
    its types, the getters of its messages, its storage in memory, its raw node.  A raw node
    reads the storage it was created with, which the adapter writes, so its operations take
    the storage as it is when they are called.  Nothing else is assumed of the library.

    The chain of applied entries (oracle.go) comes first: a commitment to the history of
    entries a process applied, in which every block hashes one entry and the block before
    it.  The rest is the state of the adapter's cluster and the computations over it; the adapter
    is a separate program from the harness of the reference node, with its own rules. *)

From S2P Require Import Prelude RaftTypes Membership Outcome Digest.
From S2P Require Sha256 Fields Node Simulator Network Decision Check AppOracle Rand ClusterState.
From stdpp Require Import options.

#[global] Open Scope Z_scope.

(** ** The chain (oracle.go) *)

Definition ChainSchemaVersion : string := "d-raft.etcdraft-chain/v1".

Record Block := mkBlock {
  BkIndex : Z; BkTerm : Z; BkEntryType : Z; BkDataDigest : string; BkDigest : string }.

Definition Chain : Type := list Block.

(** The [uint8] of an entry type. *)
Definition entryTypeCode (t : EntryType) : Z :=
  match t with
  | EntryNoop => 1 | EntryCommand => 2 | EntryConfigJoint => 3 | EntryConfigFinal => 4 | EntryUnknown code => code
  end.

Definition zeroDigest : bytes := replicate 32 x00.

(** The index that is wanted next and the digest before it. *)
Definition chainHead (c : Chain) : option (Z * bytes) :=
  match last c with
  | None => Some (1, zeroDigest)
  | Some block =>
    match hex_decode (BkDigest block) with
    | Some decoded => if zlen decoded =? 32 then Some (wrap64 (BkIndex block + 1), decoded) else None
    | None => None
    end
  end.

(** What a block hashes. *)
Definition blockText (previous : bytes) (entry : Entry) : bytes :=
  str ChainSchemaVersion ++ [x00] ++ previous ++ Sha256.be_bytes 8 (Index entry) ++ Sha256.be_bytes 8 (Term entry) ++
  [byte_of (entryTypeCode (Type_ entry))] ++ Sha256.Sha256.Sum256 (Data entry).

Definition newBlock (previous : bytes) (entry : Entry) : Block :=
  mkBlock (Index entry) (Term entry) (entryTypeCode (Type_ entry)) (Sha256.hex_string (Sha256.Sha256.Sum256 (Data entry)))
    (Sha256.hex_string (Sha256.Sha256.Sum256 (blockText previous entry))).

(** [None]: the order is wrong. *)
Definition chainApply (c : Chain) (entry : Entry) : option Chain :=
  match chainHead c with
  | None => None
  | Some (want, previous) => if Index entry =? want then Some (c ++ [newBlock previous entry]) else None
  end.

Definition chainBlocks (c : Chain) : list Block := slices_Clone c.
Definition chainDigest (c : Chain) : string :=
  match last c with None => Sha256.hex_string zeroDigest | Some block => BkDigest block end.
Definition chainIndex (c : Chain) : Z := match last c with None => 0 | Some block => BkIndex block end.

(** Rebuilding. *)

Fixpoint chainApplyAll (c : Chain) (entries : list Entry) : option Chain :=
  match entries with
  | [] => Some c
  | entry :: entries => c ← chainApply c entry; chainApplyAll c entries
  end.

Lemma chainApplyAll_app c l k : chainApplyAll c (l ++ k) = c' ← chainApplyAll c l; chainApplyAll c' k.
Proof.
  revert c. induction l as [|e l IH]; intros c; [done |]. cbn [app chainApplyAll].
  destruct (chainApply c e) as [c'|]; cbn [mbind option_bind]; [apply IH | done].
Qed.

(** The digest of every block is one of the hash function. *)
Definition hashed (c : Chain) : Prop :=
  Forall (λ b, ∃ l, BkDigest b = Sha256.hex_string (Sha256.Sha256.Sum256 l)) c.

Lemma hashed_head c : hashed c → ∃ previous, chainHead c = Some (wrap64 (chainIndex c + 1), previous) ∧ zlen previous = 32.
Proof.
  intros Hc. unfold chainHead, chainIndex. destruct (last c) as [b|] eqn:E; [| by exists zeroDigest].
  apply last_Some_elem_of in E. unfold hashed in Hc. rewrite Forall_forall in Hc. destruct (Hc b E) as [l Hl].
  rewrite Hl, hex_decode_string. cbv beta iota. assert (zlen (Sha256.Sha256.Sum256 l) = 32) as -> by apply Sum256_length.
  rewrite Z.eqb_refl. exists (Sha256.Sha256.Sum256 l). split; [done |]. apply Sum256_length.
Qed.

Lemma chainApply_hashed c e c' : hashed c → chainApply c e = Some c' → hashed c' ∧ chainIndex c' = Index e.
Proof.
  intros Hc. unfold chainApply. destruct (hashed_head c Hc) as (previous & -> & _).
  destruct (_ =? _); [| done]. intros [= <-]. split.
  - apply Forall_app. split; [exact Hc |]. constructor; [| constructor]. by exists (blockText previous e).
  - unfold chainIndex. by rewrite last_snoc.
Qed.

Lemma chainApply_next c e : hashed c → Index e = wrap64 (chainIndex c + 1) → is_Some (chainApply c e).
Proof.
  intros Hc He. unfold chainApply. destruct (hashed_head c Hc) as (previous & -> & _). rewrite He, Z.eqb_refl. by eexists.
Qed.

Lemma chainApplyAll_hashed c l c' : hashed c → chainApplyAll c l = Some c' → hashed c'.
Proof.
  revert c. induction l as [|e l IH]; intros c Hc; cbn [chainApplyAll]; [by intros [= <-] |].
  destruct (chainApply c e) as [c1|] eqn:E; cbn [mbind option_bind]; [| done].
  apply IH. by apply (chainApply_hashed c e).
Qed.

(** What a block commits to. *)
Record committed (e e' : Entry) : Prop := {
  same_index : Index e = Index e';
  same_term : Term e = Term e';
  same_type : entryTypeCode (Type_ e) = entryTypeCode (Type_ e');
  same_data : Data e = Data e' }.

(** The fields of an entry have their width. *)
Definition wide (e : Entry) : Prop := is_u64 (Index e) ∧ is_u64 (Term e) ∧ 0 ≤ entryTypeCode (Type_ e) < 256.

Lemma blockText_inj previous previous' e e' :
  zlen previous = 32 → zlen previous' = 32 → wide e → wide e' → blockText previous e = blockText previous' e' →
  previous = previous' ∧ (committed e e' ∨ collision).
Proof.
  intros Hp Hp' (Hi & Ht & Hy) (Hi' & Ht' & Hy') E. unfold blockText in E. unfold is_u64 in *.
  apply app_inv_head, app_inv_head in E.
  apply app_inj_1 in E as [-> E]; [| unfold zlen in *; lia]. split; [done |].
  apply app_inj_1 in E as [Ei E]; [| by rewrite !Fields.be_bytes_length].
  apply app_inj_1 in E as [Et E]; [| by rewrite !Fields.be_bytes_length].
  apply Fields.be_bytes_inj in Ei; [| simpl; lia ..]. apply Fields.be_bytes_inj in Et; [| simpl; lia ..].
  injection E as Ey Ed. apply (f_equal code) in Ey. rewrite !code_byte_of, !Z.mod_small in Ey by lia.
  apply Sum256_binding in Ed as [Ed|]; [left; by constructor | by right].
Qed.

(** The chain after some entries, with its last block. *)
Lemma chain_snoc l e c :
  chainApplyAll [] (l ++ [e]) = Some c →
  ∃ c0 previous, chainApplyAll [] l = Some c0 ∧ chainHead c0 = Some (Index e, previous) ∧ c = c0 ++ [newBlock previous e].
Proof.
  rewrite chainApplyAll_app. destruct (chainApplyAll [] l) as [c0|]; cbn [mbind option_bind chainApplyAll]; [| done].
  unfold chainApply. destruct (chainHead c0) as [[want previous]|] eqn:E; cbn [mbind option_bind]; [| done].
  destruct (Z.eqb_spec (Index e) want) as [<-|]; cbn [mbind option_bind]; [| done]. intros [= <-]. by exists c0, previous.
Qed.

Lemma chain_head_digest l c want previous :
  chainApplyAll [] l = Some c → chainHead c = Some (want, previous) →
  previous = default zeroDigest (hex_decode (chainDigest c)) ∧ zlen previous = 32 ∧ chainDigest c = Sha256.hex_string previous.
Proof.
  intros Hc H. apply chainApplyAll_hashed in Hc; [| constructor]. unfold chainHead, chainDigest in *.
  destruct (last c) as [b|] eqn:E; [| injection H as <- <-; split_and!; try done; by rewrite hex_decode_string].
  apply last_Some_elem_of in E. unfold hashed in Hc. rewrite Forall_forall in Hc. destruct (Hc b E) as [k Hk].
  rewrite Hk, hex_decode_string in *. destruct (Z.eqb_spec (zlen (Sha256.Sha256.Sum256 k)) 32) as [Hl|]; [| done].
  injection H as <- <-. done.
Qed.

(** ** The library *)

Inductive StateType := StateFollower | StateCandidate | StateLeader | StatePreCandidate | StateOther (code : Z).
#[export] Instance StateType_eq_dec : EqDecision StateType.
Proof. solve_decision. Defined.

Inductive MessageKind := MsgApp | MsgHeartbeat | MsgSnap | MsgVote | MsgOther (code : Z).
#[export] Instance MessageKind_eq_dec : EqDecision MessageKind.
Proof. solve_decision. Defined.

(** The configuration of a raw node, but its storage and its logger. *)
Record RawConfig := mkRawConfig {
  RcID : Z; ElectionTick : Z; HeartbeatTick : Z; RcApplied : Z; MaxSizePerMsg : Z; MaxCommittedSizePerReady : Z;
  MaxInflightMsgs : Z; CheckQuorum : bool; PreVote : bool; AsyncStorageWrites : bool; StepDownOnRemoval : bool }.

Class Library := {
  PbEntry : Type; PbMessage : Type; PbHardState : Type; PbSnapshot : Type; Ready : Type;
  RawNode : Type; MemoryStorage : Type; LibraryError : Type;
  (* raftpb *)
  entryIndex : PbEntry → Z; entryTerm : PbEntry → Z; entryNormal : PbEntry → bool; entryData : PbEntry → bytes;
  messageTo : PbMessage → Z; messageFrom : PbMessage → Z; messageTerm : PbMessage → Z; messageKind : PbMessage → MessageKind;
  messageEntries : PbMessage → list (option PbEntry); marshalMessage : PbMessage → option bytes;
  newHardState : Z → Z → PbHardState; (* term, commit *)
  hardTerm : PbHardState → Z; hardVote : PbHardState → Z; hardCommit : PbHardState → Z; isEmptyHardState : PbHardState → bool;
  newSnapshot : Z → Z → list Z → PbSnapshot; (* index, term, voters *)
  snapshotIndex : PbSnapshot → Z; snapshotTerm : PbSnapshot → Z; snapshotData : PbSnapshot → bytes;
  isEmptySnapshot : PbSnapshot → bool; marshalSnapshot : PbSnapshot → option bytes;
  (* Ready *)
  readyEntries : Ready → list PbEntry; readyHardState : Ready → PbHardState; readySnapshot : Ready → PbSnapshot;
  readyCommitted : Ready → list PbEntry; readyMessages : Ready → list PbMessage; readyMustSync : Ready → bool;
  (* MemoryStorage *)
  NewMemoryStorage : MemoryStorage;
  ApplySnapshot : MemoryStorage → PbSnapshot → go (MemoryStorage * option LibraryError);
  SetHardState : MemoryStorage → PbHardState → go (MemoryStorage * option LibraryError);
  Append : MemoryStorage → list PbEntry → go (MemoryStorage * option LibraryError);
  InitialState : MemoryStorage → go (LibraryError + PbHardState);
  StorageSnapshot : MemoryStorage → go (LibraryError + PbSnapshot);
  FirstIndex : MemoryStorage → go (LibraryError + Z);
  LastIndex : MemoryStorage → go (LibraryError + Z);
  StorageEntries : MemoryStorage → Z → Z → go (LibraryError + list PbEntry);
  (* RawNode *)
  NewRawNode : RawConfig → MemoryStorage → go (LibraryError + RawNode);
  raftState : RawNode → StateType; rawTerm : RawNode → Z; rawVote : RawNode → Z; rawCommit : RawNode → Z; rawLead : RawNode → Z;
  RawStep : MemoryStorage → RawNode → PbMessage → go (RawNode * option LibraryError);
  RawCampaign : MemoryStorage → RawNode → go (RawNode * option LibraryError);
  RawTick : MemoryStorage → RawNode → go RawNode;
  RawPropose : MemoryStorage → RawNode → bytes → go (RawNode * option LibraryError);
  HasReady : MemoryStorage → RawNode → bool;
  GetReady : MemoryStorage → RawNode → go (RawNode * Ready);
  Advance : MemoryStorage → RawNode → Ready → go RawNode }.

Section adapter.
Context `{!Library}.

(** ** Errors *)

Inductive AdapterError :=
| ErrUnsupported (kind : string) | ErrUnsupportedMembership | ErrApplicationDisabled | ErrInvalidConfig | ErrUnknownNode | ErrUnknownNumber (id : Z)
| ErrNodeDown | ErrNodeUp | ErrNoLeader | ErrPersistenceOrder | ErrInvalidProposal | ErrOracleOrder
| ErrProposalDropped (* of the library *)
| ErrTransportIdentity | ErrUnknownInput | ErrNoApplication | ErrChainMismatch | ErrUnknownRole (code : Z) | ErrMarshalMessage
| ErrLibrary (e : LibraryError)
| ErrSim (e : Simulator.SimError)
| ErrNet (e : Network.NetError)
| ErrDecision (e : Decision.DecisionError)
| ErrApp (e : AppOracle.AppError)
| ErrViolation (v : Violation).

(** ** Configuration (adapter.go)

    The fields of [Config] but the decider, which is the state of the decision source. *)

Record AdapterConfig := mkAdapterConfig {
  AcMembers : list NodeID; AcSeed : Z; AcNetwork : Network.LinkConfig; ElectionTimeoutMin : Z; ElectionTimeoutMax : Z;
  HeartbeatInterval : Z; StorageLatency : Z; AcMaxSteps : Z; StopOnViolation : bool; AcApplication : option AppOracle.AppConfig }.

(** ** Processes *)

Inductive inputKind := inputMessage | inputCampaign | inputHeartbeat | inputProposal.

Record queuedInput := mkQueued {
  q_kind : inputKind; q_message : option PbMessage; q_data : bytes; q_incarnation : Z }.

(** A pending ready is an object that callbacks compare by identity: [pd_ref] is its
    address. *)
Record pendingReady := mkPending {
  pd_ref : Z; pd_ready : Ready; pd_generation : Z; pd_incarnation : Z; pd_event : Z; pd_persisted : bool }.

Record envelope := mkEnvelope {
  SenderIncarnation : Z; SendSequence : Z; OperationIDs : list string; EnvFrom : NodeID; EnvTo : NodeID; EnvMessage : PbMessage }.

Definition cloneEnvelope (source : envelope) : envelope :=
  mkEnvelope (SenderIncarnation source) (SendSequence source) (slices_Clone (OperationIDs source)) (EnvFrom source)
    (EnvTo source) (EnvMessage source).

(** An event is zero when there is none. *)
Record process := mkProcess {
  p_name : NodeID;
  p_id : Z;
  p_raw : option RawNode;
  p_storage : MemoryStorage;
  p_up : bool;
  p_incarnation : Z;
  p_appliedIndex : Z;
  p_applied : list Entry;
  p_chain : Chain;
  p_application : option AppOracle.Machine;
  p_mailbox : list queuedInput;
  p_pending : option pendingReady;
  p_persistGen : Z;
  p_electionEvent : Z;
  p_electionGen : Z;
  p_heartbeatEvent : Z;
  p_heartbeatGen : Z;
  p_crashAfterWrite : bool;
  p_sendSequence : Z;
  p_campaignQueued : bool;
  p_heartbeatQueued : bool }.

Definition set_p_name (x : process) (v : NodeID) : process :=
    mkProcess v (p_id x) (p_raw x) (p_storage x) (p_up x) (p_incarnation x) (p_appliedIndex x) (p_applied x)
    (p_chain x) (p_application x) (p_mailbox x) (p_pending x) (p_persistGen x) (p_electionEvent x)
    (p_electionGen x) (p_heartbeatEvent x) (p_heartbeatGen x) (p_crashAfterWrite x) (p_sendSequence x)
    (p_campaignQueued x) (p_heartbeatQueued x).
Definition set_p_id (x : process) (v : Z) : process :=
    mkProcess (p_name x) v (p_raw x) (p_storage x) (p_up x) (p_incarnation x) (p_appliedIndex x) (p_applied x)
    (p_chain x) (p_application x) (p_mailbox x) (p_pending x) (p_persistGen x) (p_electionEvent x)
    (p_electionGen x) (p_heartbeatEvent x) (p_heartbeatGen x) (p_crashAfterWrite x) (p_sendSequence x)
    (p_campaignQueued x) (p_heartbeatQueued x).
Definition set_p_raw (x : process) (v : option RawNode) : process :=
    mkProcess (p_name x) (p_id x) v (p_storage x) (p_up x) (p_incarnation x) (p_appliedIndex x) (p_applied x)
    (p_chain x) (p_application x) (p_mailbox x) (p_pending x) (p_persistGen x) (p_electionEvent x)
    (p_electionGen x) (p_heartbeatEvent x) (p_heartbeatGen x) (p_crashAfterWrite x) (p_sendSequence x)
    (p_campaignQueued x) (p_heartbeatQueued x).
Definition set_p_storage (x : process) (v : MemoryStorage) : process :=
    mkProcess (p_name x) (p_id x) (p_raw x) v (p_up x) (p_incarnation x) (p_appliedIndex x) (p_applied x)
    (p_chain x) (p_application x) (p_mailbox x) (p_pending x) (p_persistGen x) (p_electionEvent x)
    (p_electionGen x) (p_heartbeatEvent x) (p_heartbeatGen x) (p_crashAfterWrite x) (p_sendSequence x)
    (p_campaignQueued x) (p_heartbeatQueued x).
Definition set_p_up (x : process) (v : bool) : process :=
    mkProcess (p_name x) (p_id x) (p_raw x) (p_storage x) v (p_incarnation x) (p_appliedIndex x) (p_applied x)
    (p_chain x) (p_application x) (p_mailbox x) (p_pending x) (p_persistGen x) (p_electionEvent x)
    (p_electionGen x) (p_heartbeatEvent x) (p_heartbeatGen x) (p_crashAfterWrite x) (p_sendSequence x)
    (p_campaignQueued x) (p_heartbeatQueued x).
Definition set_p_incarnation (x : process) (v : Z) : process :=
    mkProcess (p_name x) (p_id x) (p_raw x) (p_storage x) (p_up x) v (p_appliedIndex x) (p_applied x) (p_chain
    x) (p_application x) (p_mailbox x) (p_pending x) (p_persistGen x) (p_electionEvent x) (p_electionGen x)
    (p_heartbeatEvent x) (p_heartbeatGen x) (p_crashAfterWrite x) (p_sendSequence x) (p_campaignQueued x)
    (p_heartbeatQueued x).
Definition set_p_appliedIndex (x : process) (v : Z) : process :=
    mkProcess (p_name x) (p_id x) (p_raw x) (p_storage x) (p_up x) (p_incarnation x) v (p_applied x) (p_chain
    x) (p_application x) (p_mailbox x) (p_pending x) (p_persistGen x) (p_electionEvent x) (p_electionGen x)
    (p_heartbeatEvent x) (p_heartbeatGen x) (p_crashAfterWrite x) (p_sendSequence x) (p_campaignQueued x)
    (p_heartbeatQueued x).
Definition set_p_applied (x : process) (v : list Entry) : process :=
    mkProcess (p_name x) (p_id x) (p_raw x) (p_storage x) (p_up x) (p_incarnation x) (p_appliedIndex x) v
    (p_chain x) (p_application x) (p_mailbox x) (p_pending x) (p_persistGen x) (p_electionEvent x)
    (p_electionGen x) (p_heartbeatEvent x) (p_heartbeatGen x) (p_crashAfterWrite x) (p_sendSequence x)
    (p_campaignQueued x) (p_heartbeatQueued x).
Definition set_p_chain (x : process) (v : Chain) : process :=
    mkProcess (p_name x) (p_id x) (p_raw x) (p_storage x) (p_up x) (p_incarnation x) (p_appliedIndex x)
    (p_applied x) v (p_application x) (p_mailbox x) (p_pending x) (p_persistGen x) (p_electionEvent x)
    (p_electionGen x) (p_heartbeatEvent x) (p_heartbeatGen x) (p_crashAfterWrite x) (p_sendSequence x)
    (p_campaignQueued x) (p_heartbeatQueued x).
Definition set_p_application (x : process) (v : option AppOracle.Machine) : process :=
    mkProcess (p_name x) (p_id x) (p_raw x) (p_storage x) (p_up x) (p_incarnation x) (p_appliedIndex x)
    (p_applied x) (p_chain x) v (p_mailbox x) (p_pending x) (p_persistGen x) (p_electionEvent x)
    (p_electionGen x) (p_heartbeatEvent x) (p_heartbeatGen x) (p_crashAfterWrite x) (p_sendSequence x)
    (p_campaignQueued x) (p_heartbeatQueued x).
Definition set_p_mailbox (x : process) (v : list queuedInput) : process :=
    mkProcess (p_name x) (p_id x) (p_raw x) (p_storage x) (p_up x) (p_incarnation x) (p_appliedIndex x)
    (p_applied x) (p_chain x) (p_application x) v (p_pending x) (p_persistGen x) (p_electionEvent x)
    (p_electionGen x) (p_heartbeatEvent x) (p_heartbeatGen x) (p_crashAfterWrite x) (p_sendSequence x)
    (p_campaignQueued x) (p_heartbeatQueued x).
Definition set_p_pending (x : process) (v : option pendingReady) : process :=
    mkProcess (p_name x) (p_id x) (p_raw x) (p_storage x) (p_up x) (p_incarnation x) (p_appliedIndex x)
    (p_applied x) (p_chain x) (p_application x) (p_mailbox x) v (p_persistGen x) (p_electionEvent x)
    (p_electionGen x) (p_heartbeatEvent x) (p_heartbeatGen x) (p_crashAfterWrite x) (p_sendSequence x)
    (p_campaignQueued x) (p_heartbeatQueued x).
Definition set_p_persistGen (x : process) (v : Z) : process :=
    mkProcess (p_name x) (p_id x) (p_raw x) (p_storage x) (p_up x) (p_incarnation x) (p_appliedIndex x)
    (p_applied x) (p_chain x) (p_application x) (p_mailbox x) (p_pending x) v (p_electionEvent x)
    (p_electionGen x) (p_heartbeatEvent x) (p_heartbeatGen x) (p_crashAfterWrite x) (p_sendSequence x)
    (p_campaignQueued x) (p_heartbeatQueued x).
Definition set_p_electionEvent (x : process) (v : Z) : process :=
    mkProcess (p_name x) (p_id x) (p_raw x) (p_storage x) (p_up x) (p_incarnation x) (p_appliedIndex x)
    (p_applied x) (p_chain x) (p_application x) (p_mailbox x) (p_pending x) (p_persistGen x) v (p_electionGen
    x) (p_heartbeatEvent x) (p_heartbeatGen x) (p_crashAfterWrite x) (p_sendSequence x) (p_campaignQueued x)
    (p_heartbeatQueued x).
Definition set_p_electionGen (x : process) (v : Z) : process :=
    mkProcess (p_name x) (p_id x) (p_raw x) (p_storage x) (p_up x) (p_incarnation x) (p_appliedIndex x)
    (p_applied x) (p_chain x) (p_application x) (p_mailbox x) (p_pending x) (p_persistGen x) (p_electionEvent
    x) v (p_heartbeatEvent x) (p_heartbeatGen x) (p_crashAfterWrite x) (p_sendSequence x) (p_campaignQueued x)
    (p_heartbeatQueued x).
Definition set_p_heartbeatEvent (x : process) (v : Z) : process :=
    mkProcess (p_name x) (p_id x) (p_raw x) (p_storage x) (p_up x) (p_incarnation x) (p_appliedIndex x)
    (p_applied x) (p_chain x) (p_application x) (p_mailbox x) (p_pending x) (p_persistGen x) (p_electionEvent
    x) (p_electionGen x) v (p_heartbeatGen x) (p_crashAfterWrite x) (p_sendSequence x) (p_campaignQueued x)
    (p_heartbeatQueued x).
Definition set_p_heartbeatGen (x : process) (v : Z) : process :=
    mkProcess (p_name x) (p_id x) (p_raw x) (p_storage x) (p_up x) (p_incarnation x) (p_appliedIndex x)
    (p_applied x) (p_chain x) (p_application x) (p_mailbox x) (p_pending x) (p_persistGen x) (p_electionEvent
    x) (p_electionGen x) (p_heartbeatEvent x) v (p_crashAfterWrite x) (p_sendSequence x) (p_campaignQueued x)
    (p_heartbeatQueued x).
Definition set_p_crashAfterWrite (x : process) (v : bool) : process :=
    mkProcess (p_name x) (p_id x) (p_raw x) (p_storage x) (p_up x) (p_incarnation x) (p_appliedIndex x)
    (p_applied x) (p_chain x) (p_application x) (p_mailbox x) (p_pending x) (p_persistGen x) (p_electionEvent
    x) (p_electionGen x) (p_heartbeatEvent x) (p_heartbeatGen x) v (p_sendSequence x) (p_campaignQueued x)
    (p_heartbeatQueued x).
Definition set_p_sendSequence (x : process) (v : Z) : process :=
    mkProcess (p_name x) (p_id x) (p_raw x) (p_storage x) (p_up x) (p_incarnation x) (p_appliedIndex x)
    (p_applied x) (p_chain x) (p_application x) (p_mailbox x) (p_pending x) (p_persistGen x) (p_electionEvent
    x) (p_electionGen x) (p_heartbeatEvent x) (p_heartbeatGen x) (p_crashAfterWrite x) v (p_campaignQueued x)
    (p_heartbeatQueued x).
Definition set_p_campaignQueued (x : process) (v : bool) : process :=
    mkProcess (p_name x) (p_id x) (p_raw x) (p_storage x) (p_up x) (p_incarnation x) (p_appliedIndex x)
    (p_applied x) (p_chain x) (p_application x) (p_mailbox x) (p_pending x) (p_persistGen x) (p_electionEvent
    x) (p_electionGen x) (p_heartbeatEvent x) (p_heartbeatGen x) (p_crashAfterWrite x) (p_sendSequence x) v
    (p_heartbeatQueued x).
Definition set_p_heartbeatQueued (x : process) (v : bool) : process :=
    mkProcess (p_name x) (p_id x) (p_raw x) (p_storage x) (p_up x) (p_incarnation x) (p_appliedIndex x)
    (p_applied x) (p_chain x) (p_application x) (p_mailbox x) (p_pending x) (p_persistGen x) (p_electionEvent
    x) (p_electionGen x) (p_heartbeatEvent x) (p_heartbeatGen x) (p_crashAfterWrite x) (p_sendSequence x)
    (p_campaignQueued x) v.

Definition set_persisted (p : pendingReady) : pendingReady :=
  mkPending (pd_ref p) (pd_ready p) (pd_generation p) (pd_incarnation p) (pd_event p) true.
Definition set_pd_event (p : pendingReady) (event : Z) : pendingReady :=
  mkPending (pd_ref p) (pd_ready p) (pd_generation p) (pd_incarnation p) event (pd_persisted p).

(** ** Scheduled actions

    A callback with its captured variables; a pending ready is captured by its address. *)
Inductive action :=
| electionFired (name : NodeID) (incarnation generation : Z)
| heartbeatFired (name : NodeID) (incarnation generation : Z)
| storageWritten (name : NodeID) (incarnation : Z) (ref : Z) (ready : Ready)
| readyReleased (name : NodeID) (incarnation : Z) (ref : Z) (ready : Ready)
| userCallback (n : nat).

(** ** The cluster *)

Section state.
Context {D : Type}.

(** The decision source of the router shares the decider of the cluster. *)
Definition Net : Type := Network.Net envelope NodeID action D.

Record Cluster := mkCluster {
  c_config : AdapterConfig;
  c_members : list NodeID;
  c_ids : gmap NodeID Z;
  c_names : gmap Z NodeID;
  c_net : Net;
  c_processes : gmap NodeID process;
  c_checker : Check.Checker;
  c_violations : list Violation;
  c_err : option AdapterError;
  c_allocated : Z }.

Definition set_c_net (x : Cluster) (v : Net) : Cluster :=
    mkCluster (c_config x) (c_members x) (c_ids x) (c_names x) v (c_processes x) (c_checker x) (c_violations
    x) (c_err x) (c_allocated x).
Definition set_c_processes (x : Cluster) (v : gmap NodeID process) : Cluster :=
    mkCluster (c_config x) (c_members x) (c_ids x) (c_names x) (c_net x) v (c_checker x) (c_violations x)
    (c_err x) (c_allocated x).
Definition set_c_checker (x : Cluster) (v : Check.Checker) : Cluster :=
    mkCluster (c_config x) (c_members x) (c_ids x) (c_names x) (c_net x) (c_processes x) v (c_violations x)
    (c_err x) (c_allocated x).
Definition set_c_violations (x : Cluster) (v : list Violation) : Cluster :=
    mkCluster (c_config x) (c_members x) (c_ids x) (c_names x) (c_net x) (c_processes x) (c_checker x) v
    (c_err x) (c_allocated x).
Definition set_c_err (x : Cluster) (v : option AdapterError) : Cluster :=
    mkCluster (c_config x) (c_members x) (c_ids x) (c_names x) (c_net x) (c_processes x) (c_checker x)
    (c_violations x) v (c_allocated x).
Definition set_c_allocated (x : Cluster) (v : Z) : Cluster :=
    mkCluster (c_config x) (c_members x) (c_ids x) (c_names x) (c_net x) (c_processes x) (c_checker x)
    (c_violations x) (c_err x) v.

Definition Scheduler : Type := Simulator.Simulator (Network.delivery envelope + action).
Definition c_sim (c : Cluster) : Scheduler := Network.sim (c_net c).
Definition set_c_sim (c : Cluster) (s : Scheduler) : Cluster := set_c_net c (Network.set_sim (c_net c) s).
Definition c_now (c : Cluster) : Z := Simulator.now (c_sim c).
Definition c_decider (c : Cluster) : D := Network.dstate (c_net c).
Definition set_c_decider (c : Cluster) (d : D) : Cluster := set_c_net c (Network.set_dstate (c_net c) d).

(** ** Computations *)

Definition M (A : Type) : Type := Cluster → go (option (Cluster * (AdapterError + A))).

#[export] Instance M_ret : MRet M := λ A a c, Done (Some (c, inr a)).
#[export] Instance M_bind : MBind M := λ A B k m c,
  r ← m c;
  match r with
  | None => Done None
  | Some (c, inl err) => Done (Some (c, inl err))
  | Some (c, inr a) => k a c
  end.

Definition raise {A} (err : AdapterError) : M A := λ c, Done (Some (c, inl err)).
Definition panic {A} : M A := λ _, Panic.
Definition outOfFuel {A} : M A := λ _, Done None.
Definition gets {A} (f : Cluster → A) : M A := λ c, Done (Some (c, inr (f c))).
Definition modify (f : Cluster → Cluster) : M unit := λ c, Done (Some (f c, inr tt)).
Definition raiseIf (b : bool) (err : AdapterError) : M unit := if b then raise err else mret tt.
Definition try {A} (m : M A) : M (AdapterError + A) := λ c, r ← m c; Done (option_map (λ cr, (cr.1, inr cr.2)) r).
Definition lift {A} (m : go A) : M A := λ c, a ← m; Done (Some (c, inr a)).
Definition sample {A} (m : go (option A)) : M A := λ c,
  r ← m; Done (match r with None => None | Some a => Some (c, inr a) end).
Definition check {E A} (wrap : E → AdapterError) (r : E + A) : M A :=
  match r with inl err => raise (wrap err) | inr a => mret a end.
Definition refuse (err : option AdapterError) : M unit := match err with Some err => raise err | None => mret tt end.

Definition failed : M unit := err ← gets c_err; refuse err.

(** [c.processes[name]]: reading a field of a missing process panics. *)
Definition the_process (name : NodeID) : M process :=
  processes ← gets c_processes; match processes !! name with Some p => mret p | None => panic end.
Definition put_process (name : NodeID) (p : process) : M unit :=
  modify (λ c, set_c_processes c (<[name := p]> (c_processes c))).
Definition update (name : NodeID) (f : process → process) : M unit := p ← the_process name; put_process name (f p).
(** A call through a nil raw node panics. *)
Definition the_raw (p : process) : M RawNode := match p_raw p with Some raw => mret raw | None => panic end.
(** [process, ok := c.processes[name]] *)
Definition known (name : NodeID) : M process :=
  processes ← gets c_processes; match processes !! name with Some p => mret p | None => raise ErrUnknownNode end.
Definition live (name : NodeID) : M process :=
  p ← known name; _ ← raiseIf (negb (p_up p)) ErrNodeDown; mret p.

Definition fail (err : AdapterError) : M unit :=
  modify (λ c, match c_err c with None => set_c_err c (Some err) | Some _ => c end).
(** [if err := call; err != nil { c.fail(err) }] *)
Definition orFail (m : M unit) : M unit :=
  r ← try m; match r with inl err => fail err | inr _ => mret tt end.

(** A call of the library that changes a raw node, and one that changes a storage. *)
Definition raw_call (name : NodeID) (f : MemoryStorage → RawNode → go (RawNode * option LibraryError)) : M unit :=
  p ← the_process name;
  raw ← the_raw p;
  called ← lift (f (p_storage p) raw);
  _ ← update name (λ p, set_p_raw p (Some called.1));
  refuse (ErrLibrary <$> called.2).
Definition storage_call (name : NodeID) (f : MemoryStorage → go (MemoryStorage * option LibraryError)) : M unit :=
  p ← the_process name;
  called ← lift (f (p_storage p));
  _ ← update name (λ p, set_p_storage p called.1);
  refuse (ErrLibrary <$> called.2).

(** The address of a new object. *)
Definition allocate : M Z :=
  ref ← gets c_allocated; _ ← modify (λ c, set_c_allocated c (ref + 1)); mret ref.

(** ** The scheduler *)

Definition on_sim {A} (f : Scheduler → go (Scheduler * A)) : M A := λ c,
  '(s, a) ← f (c_sim c); Done (Some (set_c_sim c s, inr a)).
Definition simCancel (event : Z) : M unit := _ ← on_sim (λ s, Simulator.Cancel s event); mret tt.
Definition cancelEvent (event : Z) : M unit := if event =? 0 then mret tt else simCancel event.
Definition Schedule (delay : Z) (a : action) : M Z :=
  r ← on_sim (λ s, Simulator.Schedule s delay (Some (inr a))); check ErrSim r.

End state.
End adapter.
Arguments Net {_} D.
Arguments Cluster {_} D.
Arguments M {_} D.
