(* ===== verification/EtcdCluster.v ===== *)
(** * The etcd/raft adapter: operations (adapters/etcdraft)

    Configurations (adapter.go), network decisions (decisions.go), observation (observe.go)
    and the environment of the raw nodes (cluster.go).  A ready that needs persistence is
    written to the storage after a delay, and its messages and entries are released by a
    later event; a crash in between drops them. *)

From S2P Require Import Prelude RaftTypes Membership Outcome Scenario.
From S2P Require Export EtcdState.
From S2P Require Node Heap Simulator Network Decision Check AppOracle Rand ClusterState Cluster Artifact Experiment Sha256.
From Stdlib Require Import QArith.QArith QArith.Qround.
From stdpp Require Import options.

#[global] Open Scope Z_scope.

Definition AdapterID : string := "go.etcd.io/raft/v3".
Definition AdapterVersion : string := "3.7.0+d-raft.1".
Definition MessageCodecVersion : string := "go.etcd.io/raft/v3/raftpb/deterministic-protobuf-v1".
Definition ObservationSchemaVersion : string := "d-raft.etcdraft-observation/v1".
Definition ApplicationObservationSchemaVersion : string := "d-raft.etcdraft-app-observation/v1".
Definition CheckerProfile : string := "d-raft.etcdraft-check/common-durable-v1".

(** A decider of the caller's, or the seeded one that [New] makes when there is none. *)
#[export] Instance either_decider {D E} `{!Decision.Decider D} `{!Decision.Decider E} : Decision.Decider (D + E) :=
  {| Decision.Choose := λ fuel d c,
       match d with
       | inl d => r ← Decision.Choose fuel d c; Done (option_map (λ ds, (inl ds.1, ds.2)) r)
       | inr d => r ← Decision.Choose fuel d c; Done (option_map (λ ds, (inr ds.1, ds.2)) r)
       end;
     Decision.OperationContext := λ d,
       match d with inl d => Decision.OperationContext d | inr d => Decision.OperationContext d end |}.

(** The decision of a loss (decisions.go). *)
Definition lossOptions (probability : Rand.float64) : list Decision.Option_ :=
  let zero := Rand.FQ 0%Q in
  let one := Rand.FQ 1%Q in
  if Rand.flt probability zero || Rand.feq probability zero then [Decision.mkOption "deliver" 1]
  else if Rand.flt one probability || Rand.feq probability one then [Decision.mkOption "drop" 1]
  else
    let scale := 9007199254740992 in
    let drop := match probability with
                | Rand.FQ q => Qceiling (q * inject_Z scale)%Q
                | _ => 0
                end in
    [Decision.mkOption "drop" drop; Decision.mkOption "deliver" (wrap64 (scale - drop))].

(** What the network asks, as JSON shows it. *)
Record networkContext := mkNetworkContext {
  NcFrom : NodeID; NcTo : NodeID; NcSenderIncarnation : Z; NcSendSequence : Z; NcCausal : bool; NcOperationIDs : list string;
  NcMessage : bytes; NcMinLatencyNS : Z; NcMaxLatencyNS : Z; NcLossProbability : Rand.float64 }.

(** ** Observations (observe.go) *)

Record pendingSnapshot := mkPendingSnapshot {
  PsGeneration : Z; PsIncarnation : Z; PsPersisted : bool; PsMustSync : bool; PsTerm : Z; PsVote : NodeID; PsCommit : Z;
  PsEntries : list Entry; PsCommitted : list Entry; PsMessages : list bytes; PsSnapshot : option bytes }.
Record inputSnapshot := mkInputSnapshot { IsKind : inputKind; IsIncarnation : Z; IsData : bytes; IsMessage : option bytes }.
Record nodeSnapshot := mkNodeSnapshot {
  NnID : NodeID; NnUp : bool; NnStatus : option Node.Status_; NnDurable : PersistentState; NnAppliedIndex : Z;
  NnApplied : list Entry; NnChain : list Block; NnApplication : option AppOracle.Commitment;
  NnPending : option pendingSnapshot; NnMailbox : list inputSnapshot }.
Record observationSnapshot := mkObservationSnapshot {
  OsSchema : string; OsAdapter : string; OsVersion : string; OsAtNS : Z; OsNodes : list nodeSnapshot; OsViolations : list Violation }.

(** The JSON texts that [encoding/json] writes by reflection. *)
Record EtcdEncoders := mkEncoders {
  marshalContext : networkContext → bytes;
  marshalEvidence : Check.evidence → bytes;
  marshalObservation : observationSnapshot → option bytes }.

Section adapter.
Context `{!Library}.

(** ** Configurations (adapter.go) *)

Definition ConfigurationFrom (source : Configuration) : AdapterError + AdapterConfig :=
  let voters := sort_nodes (slices_Clone (CnVoters source)) in
  let members := sort_nodes (slices_Clone (CnMembers source)) in
  if ((0 <? zlen (CnVoters source)) || (0 <? zlen (CnLearners source))) &&
     (negb (bool_decide (voters = members)) || negb (zlen (CnLearners source) =? 0))
  then inl ErrUnsupportedMembership
  else inr (mkAdapterConfig (slices_Clone (CnMembers source)) (InfrastructureSeed source)
              (Network.mkLink (NetworkMinLatencyNS source) (NetworkMaxLatencyNS source) (NetworkLossProbability source))
              (ElectionTimeoutMinNS source) (ElectionTimeoutMaxNS source) (HeartbeatIntervalNS source)
              (StorageLatencyNS source) MaxScenarioSteps (CnStopOnViolation source) None).

Definition validateConfig (c : AdapterConfig) : option AdapterError :=
  let link := AcNetwork c in
  let probability := Network.LossProbability link in
  if (zlen (AcMembers c) =? 0) || (ElectionTimeoutMin c <=? 0) || (ElectionTimeoutMax c <? ElectionTimeoutMin c) ||
     (HeartbeatInterval c <=? 0) || (ElectionTimeoutMin c <=? HeartbeatInterval c) || (StorageLatency c <? 0)
  then Some ErrInvalidConfig
  else if negb (ClusterState.checkMembers None (sort_nodes (slices_Clone (AcMembers c)))) then Some ErrInvalidConfig
  else if (Network.MinLatency link <? 0) || (Network.MaxLatency link <? Network.MinLatency link) ||
          Rand.flt probability (Rand.FQ 0%Q) || Rand.flt (Rand.FQ 1%Q) probability || negb (Rand.feq probability probability)
  then Some ErrInvalidConfig
  else match AcApplication c with
  | None => None
  | Some application =>
    match AppOracle.ValidateConfig application with Some _ => Some ErrInvalidConfig | None => None end
  end.

(** ** Network decisions (decisions.go) *)

(** Portable commands are known by their identity, other entries by their place. *)
Definition operationID (entry : PbEntry) : string :=
  let id := "raft-entry/" +:+ ClusterState.decimal (entryTerm entry) +:+ "/" +:+ ClusterState.decimal (entryIndex entry) in
  if entryNormal entry then
    match AppOracle.DecodeCommand (entryData entry) with
    | inr command => Sha256.hex_string (AppOracle.CID command)
    | inl _ => id
    end
  else id.

Fixpoint operationIDsLoop (seen : gset string) (ids : list string) (entries : list (option PbEntry)) : list string :=
  match entries with
  | [] => ids
  | None :: entries => operationIDsLoop seen ids entries
  | Some entry :: entries =>
    let id := operationID entry in
    if bool_decide (id ∈ seen) then operationIDsLoop seen ids entries
    else operationIDsLoop ({[id]} ∪ seen) (ids ++ [id]) entries
  end.

Definition operationIDs (entries : list (option PbEntry)) : list string :=
  merge_sort String.le (operationIDsLoop ∅ [] entries).

(** [None]: the message cannot be encoded. *)
Definition canonicalNetworkContext (packet : Network.Packet envelope) (link : Network.LinkConfig) (include : bool)
    : option networkContext :=
  let env := Network.PkMessage packet in
  wire ← marshalMessage (EnvMessage env);
  let ids := if zlen (OperationIDs env) =? 0 then operationIDs (messageEntries (EnvMessage env))
             else slices_Clone (OperationIDs env) in
  Some (mkNetworkContext (EnvFrom env) (EnvTo env) (SenderIncarnation env) (SendSequence env) include
          (if include then ids else []) wire (Network.MinLatency link) (Network.MaxLatency link) (Network.LossProbability link)).

Definition networkChoiceID (what : string) (packet : Network.Packet envelope) : string :=
  let env := Network.PkMessage packet in
  "network/" +:+ EnvFrom env +:+ "/" +:+ ClusterState.decimal (SenderIncarnation env) +:+ "/" +:+
  ClusterState.decimal (SendSequence env) +:+ "/" +:+ what.

Section cluster.
Context {D : Type} `{!Decision.Decider D}.
Context (enc : EtcdEncoders).
(** The fuel of every rejection sampling, and of the loop over the readies of a raw node. *)
Context (fuel : nat).

Abbreviation Cluster := (Cluster D).
Abbreviation M := (M D).

Definition includeOperationIDs (d : D) : bool := default false (Decision.OperationContext d).

(** [Choose] and [ValidateSelection] of a choice of the network. *)
Definition askNetwork (d : D) (choice : Decision.Choice) : go (option (D * (Network.NetError + Decision.Selection))) :=
  answer ← Decision.Choose fuel d choice;
  match answer with
  | None => Done None
  | Some (d, inl err) => Done (Some (d, inl (ClusterState.decisionError err)))
  | Some (d, inr selection) =>
    invalid ← Decision.ValidateSelection choice selection;
    Done (Some (d, match invalid with Some err => inl (ClusterState.decisionError err) | None => inr selection end))
  end.

Definition Drop (d : D) (packet : Network.Packet envelope) (link : Network.LinkConfig)
    : go (option (D * (Network.NetError + bool))) :=
  match canonicalNetworkContext packet link (includeOperationIDs d) with
  | None => Done (Some (d, inl (Network.ErrCallback 0)))
  | Some context =>
    answer ← askNetwork d (Decision.mkChoice (networkChoiceID "loss" packet) "network_loss"
                             (lossOptions (Network.LossProbability link)) None None (marshalContext enc context));
    Done match answer with
         | None => None
         | Some (d, inl err) => Some (d, inl err)
         | Some (d, inr selection) => Some (d, inr (String.eqb (Decision.SelOption selection) "drop"))
         end
  end.

Definition Latency (d : D) (packet : Network.Packet envelope) (link : Network.LinkConfig)
    : go (option (D * (Network.NetError + Z))) :=
  match canonicalNetworkContext packet link (includeOperationIDs d) with
  | None => Done (Some (d, inl (Network.ErrCallback 0)))
  | Some context =>
    answer ← askNetwork d (Decision.mkChoice (networkChoiceID "latency" packet) "network_latency" []
                             (Some (Network.MinLatency link)) (Some (Network.MaxLatency link)) (marshalContext enc context));
    match answer with
    | None => Done None
    | Some (d, inl err) => Done (Some (d, inl err))
    | Some (d, inr selection) =>
      match Decision.Number selection with None => Panic | Some n => Done (Some (d, inr n)) end
    end
  end.

Definition networkDecisions : Network.NetworkDecisionSource envelope D := Network.mkSource (λ _, Drop) (λ _, Latency).

Definition chooseDuration (id : string) (kind : Decision.Kind) (minimum maximum : Z) (context : bytes) : M Z :=
  d ← gets c_decider;
  let choice := Decision.mkChoice id kind [] (Some minimum) (Some maximum) context in
  answer ← sample (Decision.Choose fuel d choice);
  _ ← modify (λ c, set_c_decider c answer.1);
  selection ← check ErrDecision answer.2;
  invalid ← lift (Decision.ValidateSelection choice selection);
  _ ← refuse (ErrDecision <$> invalid);
  match Decision.Number selection with Some n => mret n | None => panic end.

(** ** Observation (observe.go) *)

Definition normalizeEntry (source : PbEntry) : Entry :=
  if entryNormal source && negb (zlen (entryData source) =? 0)
  then mkEntry (entryIndex source) (entryTerm source) EntryCommand (slices_Clone (entryData source)) emptyMembership
  else mkEntry (entryIndex source) (entryTerm source) EntryNoop [] emptyMembership.

(** The name of a number; zero is no name. *)
Definition nameOf (id : Z) : M NodeID :=
  names ← gets c_names;
  if id =? 0 then mret ""
  else match names !! id with Some name => mret name | None => raise (ErrUnknownNumber id) end.

Definition stable (members : list NodeID) : Membership := stableMembership members [].

Definition durableState (p : process) : M PersistentState :=
  let storage := p_storage p in
  members ← gets c_members;
  hard ← lift (InitialState storage); hard ← check ErrLibrary hard;
  snapshot ← lift (StorageSnapshot storage); snapshot ← check ErrLibrary snapshot;
  votedFor ← nameOf (hardVote hard);
  first ← lift (FirstIndex storage); first ← check ErrLibrary first;
  last ← lift (LastIndex storage); last ← check ErrLibrary last;
  log ← (if first <=? last then
           entries ← lift (StorageEntries storage first (wrap64 (last + 1)));
           entries ← check ErrLibrary entries;
           mret (map normalizeEntry entries)
         else mret []);
  mret (mkPersistentState (mkHardState (hardTerm hard) votedFor (hardCommit hard))
          (mkSnapshot (snapshotIndex snapshot) (snapshotTerm snapshot) (slices_Clone members)
             (slices_Clone (snapshotData snapshot)) (stable members)) log).

Definition normalizeRole (role : StateType) : AdapterError + Role :=
  match role with
  | StateFollower => inr Follower
  | StateCandidate | StatePreCandidate => inr Candidate
  | StateLeader => inr Leader
  | StateOther code => inl (ErrUnknownRole code)
  end.

Definition status (p : process) (durable : PersistentState) : M (option Node.Status_) :=
  if negb (p_up p) then mret None
  else
    members ← gets c_members;
    raw ← the_raw p;
    role ← check (λ e, e) (normalizeRole (raftState raw));
    vote ← nameOf (rawVote raw);
    leader ← nameOf (rawLead raw);
    let snapshot := Snapshot_ durable in
    mret (Some (Node.mkStatus (p_name p) role (rawTerm raw) vote leader (rawCommit raw) (p_appliedIndex p)
      (wrap64 (LastIncludedIndex snapshot + zlen (Log durable)))
      (match last (Log durable) with Some entry => Term entry | None => LastIncludedTerm snapshot end)
      (cloneSnapshot snapshot) (stable members) (cloneEntries (Log durable)) [] (stable members)
      (bool_decide (is_Some (p_pending p))) 0)).

(** The base entry stands for the initial snapshot. *)
Definition baseEntry : Entry := mkEntry 1 1 EntryNoop [] emptyMembership.

Definition verifyChain (p : process) : option AdapterError :=
  match chainApplyAll [] (baseEntry :: p_applied p) with
  | None => Some ErrOracleOrder
  | Some rebuilt =>
    if negb (chainIndex rebuilt =? p_appliedIndex p) || negb (String.eqb (chainDigest rebuilt) (chainDigest (p_chain p)))
    then Some ErrChainMismatch else None
  end.

Fixpoint observeProcesses (names : list NodeID) : M (list Check.NodeObservation) :=
  match names with
  | [] => mret []
  | name :: names =>
    p ← the_process name;
    durable ← durableState p;
    status ← status p durable;
    _ ← refuse (verifyChain p);
    rest ← observeProcesses names;
    mret (Check.mkNodeObservation name (p_up p) status durable (p_appliedIndex p) (cloneEntries (p_applied p)) :: rest)
  end.

Definition observation : M Check.Observation :=
  now ← gets c_now;
  members ← gets c_members;
  nodes ← observeProcesses members;
  mret (Check.mkObservation now (slices_Clone members) nodes).

(** The status is left out: the public state of a raw node is not enough for its checks. *)
Definition hideStatus (n : Check.NodeObservation) : Check.NodeObservation :=
  Check.mkNodeObservation (Check.ObID n) (Check.Up n) None (Check.Durable n) (Check.ObAppliedIndex n) (Check.Applied n).

Definition observe : M unit :=
  r ← try observation;
  match r with
  | inl err => fail err
  | inr seen =>
    checker ← gets c_checker;
    observed ← lift (Check.Observe (marshalEvidence enc) checker
                       (Check.mkObservation (Check.At seen) (Check.ObMembers seen) (map hideStatus (Check.ObNodes seen))));
    _ ← modify (λ c, set_c_violations (set_c_checker c observed.1) (c_violations c ++ Check.cloneViolations observed.2));
    config ← gets c_config;
    match observed.2 with
    | first :: _ => if StopOnViolation config then fail (ErrViolation first) else mret tt
    | [] => mret tt
    end
  end.

(** ** The portable application *)

Fixpoint recoverLoop (appliedIndex last : Z) (application : option AppOracle.Machine) (entries : list Entry)
    : AdapterError + (option AppOracle.Machine * Z) :=
  match entries with
  | [] => inr (application, last)
  | entry :: entries =>
    if (last =? max_u64) || negb (Index entry =? wrap64 (last + 1)) || (appliedIndex <? Index entry) then inl ErrPersistenceOrder
    else match Type_ entry with
    | EntryCommand =>
      match AppOracle.ApplyEncoded application (Data entry) with
      | (_, inl err) => inl (ErrApp err)
      | (application, inr _) => recoverLoop appliedIndex (Index entry) application entries
      end
    | EntryNoop => recoverLoop appliedIndex (Index entry) application entries
    | _ => inl (ErrApp (AppOracle.ErrInvalidEntry (Type_ entry)))
    end
  end.

Definition recoverApplication (p : process) : AdapterError + option AppOracle.Machine :=
  match recoverLoop (p_appliedIndex p) 1 (Some AppOracle.New) (p_applied p) with
  | inl err => inl err
  | inr (application, last) => if negb (last =? p_appliedIndex p) then inl ErrPersistenceOrder else inr application
  end.

(** ** Applying, sending and persisting *)

Definition applyEntry (name : NodeID) (source : PbEntry) : M unit :=
  let entry := normalizeEntry source in
  p ← the_process name;
  config ← gets c_config;
  if Index entry <=? p_appliedIndex p then mret tt
  else
    _ ← raiseIf (negb (Index entry =? wrap64 (p_appliedIndex p + 1))) ErrPersistenceOrder;
    _ ← raiseIf (negb (chainIndex (p_chain p) =? p_appliedIndex p)) ErrOracleOrder;
    _ ← raiseIf (bool_decide (is_Some (AcApplication config)) && bool_decide (p_application p = None)) ErrNoApplication;
    _ ← match p_application p with
        | Some application =>
          if bool_decide (Type_ entry = EntryCommand) then
            let '(application, r) := AppOracle.ApplyEncoded (Some application) (Data entry) in
            _ ← update name (λ p, set_p_application p application);
            _ ← check ErrApp r; mret tt
          else mret tt
        | None => mret tt
        end;
    match chainApply (p_chain p) entry with
    | None => raise ErrOracleOrder
    | Some chain =>
      update name (λ p, set_p_applied (set_p_appliedIndex (set_p_chain p chain) (Index entry)) (p_applied p ++ [entry]))
    end.

Definition send (name : NodeID) (source : PbMessage) : M unit :=
  names ← gets c_names;
  match names !! messageTo source with
  | None => raise (ErrUnknownNumber (messageTo source))
  | Some to =>
    _ ← update name (λ p, set_p_sendSequence p (wrap64 (p_sendSequence p + 1)));
    p ← the_process name;
    d ← gets c_decider;
    let ids := if includeOperationIDs d then operationIDs (messageEntries source) else [] in
    net ← gets c_net;
    sent ← sample (Network.Send fuel net (p_name p) to
                     (mkEnvelope (p_incarnation p) (p_sendSequence p) ids (p_name p) to source));
    _ ← modify (λ c, set_c_net c sent.1);
    _ ← check ErrNet sent.2;
    mret tt
  end.

Definition readyNeedsPersistence (ready : Ready) : bool :=
  (0 <? zlen (readyEntries ready)) || negb (isEmptyHardState (readyHardState ready)) || negb (isEmptySnapshot (readySnapshot ready)).

Definition persistReady (name : NodeID) (ready : Ready) : M unit :=
  _ ← raiseIf (negb (readyNeedsPersistence ready)) ErrPersistenceOrder;
  _ ← (if isEmptySnapshot (readySnapshot ready) then mret tt
       else storage_call name (λ storage, ApplySnapshot storage (readySnapshot ready)));
  _ ← (if isEmptyHardState (readyHardState ready) then mret tt
       else storage_call name (λ storage, SetHardState storage (readyHardState ready)));
  storage_call name (λ storage, Append storage (readyEntries ready)).

Fixpoint each {A} (f : A → M unit) (l : list A) : M unit :=
  match l with [] => mret tt | x :: l => _ ← f x; each f l end.

Definition persistedPending (p : process) : bool := match p_pending p with Some pending => pd_persisted pending | None => false end.

Definition releaseReady (name : NodeID) (ready : Ready) : M unit :=
  p ← the_process name;
  _ ← raiseIf (readyNeedsPersistence ready && negb (persistedPending p)) ErrPersistenceOrder;
  _ ← each (applyEntry name) (readyCommitted ready);
  _ ← each (send name) (readyMessages ready);
  raw_call name (λ storage raw, raw ← Advance storage raw ready; Done (raw, None)).

(** The next ready of a raw node is accepted by it. *)
Definition takeReady (name : NodeID) : M Ready :=
  p ← the_process name;
  raw ← the_raw p;
  taken ← lift (GetReady (p_storage p) raw);
  _ ← update name (λ p, set_p_raw p (Some taken.1));
  mret taken.2.

(** The write of a ready is scheduled, and the process waits for it. *)
Definition awaitStorage (name : NodeID) (ready : Ready) : M unit :=
  _ ← update name (λ p, set_p_persistGen p (wrap64 (p_persistGen p + 1)));
  p ← the_process name;
  let generation := p_persistGen p in
  let incarnation := p_incarnation p in
  config ← gets c_config;
  delay ← chooseDuration (ClusterState.storageChoiceID name incarnation generation) "storage_latency"
            (StorageLatency config) (StorageLatency config) (ClusterState.timerJSON name incarnation generation);
  ref ← allocate;
  event ← Schedule delay (storageWritten name incarnation ref ready);
  update name (λ p, set_p_pending p (Some (mkPending ref ready generation incarnation event false))).

Fixpoint pumpLoop (limit : nat) (name : NodeID) : M unit :=
  match limit with
  | O => outOfFuel
  | S limit =>
    p ← the_process name;
    if negb (p_up p) || bool_decide (is_Some (p_pending p)) then mret tt
    else
      raw ← the_raw p;
      if negb (HasReady (p_storage p) raw) then mret tt
      else
        ready ← takeReady name;
        if readyNeedsPersistence ready then awaitStorage name ready
        else _ ← releaseReady name ready; pumpLoop limit name
  end.

Definition pump (name : NodeID) : M unit := pumpLoop fuel name.

(** ** Timers *)

Definition isLeader (p : process) : M bool := raw ← the_raw p; mret (bool_decide (raftState raw = StateLeader)).

Definition resetElectionTimer (name : NodeID) : M unit :=
  p ← the_process name;
  _ ← (if p_electionEvent p =? 0 then mret tt
       else _ ← simCancel (p_electionEvent p); update name (λ p, set_p_electionEvent p 0));
  idle ← (if negb (p_up p) then mret true else isLeader p);
  if (idle : bool) then mret tt
  else
    _ ← update name (λ p, set_p_electionGen p (wrap64 (p_electionGen p + 1)));
    p ← the_process name;
    let generation := p_electionGen p in
    let incarnation := p_incarnation p in
    config ← gets c_config;
    delay ← chooseDuration (ClusterState.timerChoiceID name incarnation generation) "election_timeout"
              (ElectionTimeoutMin config) (ElectionTimeoutMax config) (ClusterState.timerJSON name incarnation generation);
    event ← Schedule delay (electionFired name incarnation generation);
    update name (λ p, set_p_electionEvent p event).

Definition resetHeartbeatTimer (name : NodeID) : M unit :=
  p ← the_process name;
  _ ← (if p_heartbeatEvent p =? 0 then mret tt
       else _ ← simCancel (p_heartbeatEvent p); update name (λ p, set_p_heartbeatEvent p 0));
  leads ← (if negb (p_up p) then mret false else isLeader p);
  if negb leads then mret tt
  else
    _ ← update name (λ p, set_p_heartbeatGen p (wrap64 (p_heartbeatGen p + 1)));
    p ← the_process name;
    let generation := p_heartbeatGen p in
    let incarnation := p_incarnation p in
    config ← gets c_config;
    event ← Schedule (HeartbeatInterval config) (heartbeatFired name incarnation generation);
    update name (λ p, set_p_heartbeatEvent p event).

Definition syncRoleTimers (name : NodeID) (before after : StateType) : M unit :=
  p ← the_process name;
  if bool_decide (after = StateLeader) then
    _ ← (if p_electionEvent p =? 0 then mret tt
         else
           _ ← simCancel (p_electionEvent p);
           update name (λ p, set_p_electionGen (set_p_electionEvent p 0) (wrap64 (p_electionGen p + 1))));
    if bool_decide (before = StateLeader) then mret tt else resetHeartbeatTimer name
  else if p_heartbeatEvent p =? 0 then mret tt
  else
    _ ← simCancel (p_heartbeatEvent p);
    update name (λ p, set_p_heartbeatGen (set_p_heartbeatEvent p 0) (wrap64 (p_heartbeatGen p + 1))).

Definition cancelProcessEvents (name : NodeID) : M unit :=
  p ← the_process name;
  _ ← cancelEvent (p_electionEvent p);
  _ ← cancelEvent (p_heartbeatEvent p);
  _ ← match p_pending p with Some pending => cancelEvent (pd_event pending) | None => mret tt end;
  update name (λ p,
    let p := set_p_heartbeatEvent (set_p_electionEvent p 0) 0 in
    let p := set_p_electionGen p (wrap64 (p_electionGen p + 1)) in
    let p := set_p_heartbeatGen p (wrap64 (p_heartbeatGen p + 1)) in
    set_p_persistGen p (wrap64 (p_persistGen p + 1))).

(** ** Inputs *)

(** A raw node as [BasicStatus] shows it. *)
Record basicStatus := mkBasic { bsState : StateType; bsTerm : Z; bsVote : Z }.
Definition basicOf (raw : RawNode) : basicStatus := mkBasic (raftState raw) (rawTerm raw) (rawVote raw).

Definition shouldResetElectionTimer (before after : basicStatus) (message : option PbMessage) : bool :=
  match message with
  | None => false
  | Some m =>
    if bool_decide (bsState after = StateLeader) then false
    else if (bsTerm before <? bsTerm after) ||
            (negb (bool_decide (bsState before = StateFollower)) && bool_decide (bsState after = StateFollower)) then true
    else if bool_decide (messageKind m ∈ [MsgApp; MsgHeartbeat; MsgSnap]) && (bsTerm before <=? messageTerm m) &&
            bool_decide (bsState after = StateFollower) then true
    else bool_decide (messageKind m = MsgVote) && (bsTerm after =? messageTerm m) && (bsVote after =? messageFrom m)
  end.

(** An input waits in the mailbox, one campaign and one heartbeat at most. *)
Definition enqueue (name : NodeID) (input : queuedInput) : M unit :=
  p ← the_process name;
  match q_kind input with
  | inputCampaign =>
    if p_campaignQueued p then mret tt
    else update name (λ p, set_p_mailbox (set_p_campaignQueued p true) (p_mailbox p ++ [input]))
  | inputHeartbeat =>
    if p_heartbeatQueued p then mret tt
    else update name (λ p, set_p_mailbox (set_p_heartbeatQueued p true) (p_mailbox p ++ [input]))
  | _ => update name (λ p, set_p_mailbox p (p_mailbox p ++ [input]))
  end.

(** A campaign of a leader and a heartbeat of anyone else are void. *)
Definition void (name : NodeID) (input : queuedInput) (state : StateType) : M bool :=
  match q_kind input with
  | inputCampaign => _ ← update name (λ p, set_p_campaignQueued p false); mret (bool_decide (state = StateLeader))
  | inputHeartbeat => _ ← update name (λ p, set_p_heartbeatQueued p false); mret (negb (bool_decide (state = StateLeader)))
  | _ => mret false
  end.

Definition stepRaw (name : NodeID) (input : queuedInput) : M unit :=
  match q_kind input with
  | inputMessage =>
    match q_message input with
    | Some message => raw_call name (λ storage raw, RawStep storage raw message)
    | None => panic
    end
  | inputCampaign => raw_call name RawCampaign
  | inputHeartbeat => raw_call name (λ storage raw, raw ← RawTick storage raw; Done (raw, None))
  | inputProposal => raw_call name (λ storage raw, RawPropose storage raw (slices_Clone (q_data input)))
  end.

Definition submit (name : NodeID) (input : queuedInput) : M unit :=
  p ← the_process name;
  if negb (p_up p) || negb (q_incarnation input =? p_incarnation p) then mret tt
  else if bool_decide (is_Some (p_pending p)) then enqueue name input
  else
    raw ← the_raw p;
    let before := basicOf raw in
    skip ← void name input (bsState before);
    if (skip : bool) then mret tt
    else
      _ ← stepRaw name input;
      _ ← pump name;
      p ← the_process name;
      raw ← the_raw p;
      let after := basicOf raw in
      _ ← syncRoleTimers name (bsState before) (bsState after);
      match q_kind input with
      | inputCampaign => if bool_decide (bsState after = StateLeader) then mret tt else resetElectionTimer name
      | inputHeartbeat => if bool_decide (bsState after = StateLeader) then resetHeartbeatTimer name else mret tt
      | inputMessage =>
        if shouldResetElectionTimer before after (q_message input) then resetElectionTimer name else mret tt
      | inputProposal => mret tt
      end.

(** The mailbox shrinks in every iteration: the fuel is one more than its length. *)
Fixpoint drainLoop (limit : nat) (name : NodeID) : M unit :=
  match limit with
  | O => mret tt
  | S limit =>
    p ← the_process name;
    match p_up p, p_pending p, p_mailbox p with
    | true, None, input :: mailbox =>
      _ ← update name (λ p, set_p_mailbox p mailbox);
      r ← try (submit name input);
      match r with inl err => fail err | inr _ => drainLoop limit name end
    | _, _, _ => mret tt
    end
  end.

Definition drain (name : NodeID) : M unit :=
  p ← the_process name; drainLoop (S (length (p_mailbox p))) name.

Definition receive (name : NodeID) (packet : Network.Packet envelope) : M unit :=
  let env := Network.PkMessage packet in
  p ← the_process name;
  ids ← gets c_ids;
  if (SenderIncarnation env =? 0) || (SendSequence env =? 0) || negb (String.eqb (EnvFrom env) (Network.PkFrom packet)) ||
     negb (String.eqb (EnvTo env) name) || negb (messageFrom (EnvMessage env) =? default 0 (ids !! EnvFrom env)) ||
     negb (messageTo (EnvMessage env) =? p_id p)
  then fail ErrTransportIdentity
  else if negb (p_up p) then mret tt
  else orFail (submit name (mkQueued inputMessage (Some (EnvMessage env)) [] (p_incarnation p))).

(** ** The life cycle of processes *)

(** The storage of a new process: a snapshot of the configuration, at index and term one. *)
Definition initStorage (name : NodeID) (voters : list Z) : M unit :=
  _ ← storage_call name (λ storage, ApplySnapshot storage (newSnapshot 1 1 voters));
  storage_call name (λ storage, SetHardState storage (newHardState 1 1)).

(** The part of [newProcess] that a restart shares: recovery, then a raw node. *)
Definition boot (name : NodeID) : M unit :=
  p ← the_process name;
  config ← gets c_config;
  _ ← match AcApplication config with
      | None => mret tt
      | Some _ =>
        application ← check (λ e, e) (recoverApplication p);
        update name (λ p, set_p_application p application)
      end;
  created ← lift (NewRawNode (mkRawConfig (p_id p) 1000000000 1 (p_appliedIndex p) max_u64 max_u64 256 false false false true)
                    (p_storage p));
  raw ← check ErrLibrary created;
  update name (λ p, set_p_up (set_p_raw p (Some raw)) true).

Definition newProcess (name : NodeID) : M unit :=
  members ← gets c_members;
  ids ← gets c_ids;
  config ← gets c_config;
  let application := match AcApplication config with Some _ => Some AppOracle.New | None => None end in
  match chainApply [] baseEntry with
  | None => raise ErrOracleOrder
  | Some chain =>
    _ ← put_process name (mkProcess name (default 0 (ids !! name)) None NewMemoryStorage true 1 1 [] chain application [] None
                            0 0 0 0 0 false 0 false false);
    _ ← initStorage name (map (λ member, default 0 (ids !! member)) members);
    boot name
  end.

Definition Crash (name : NodeID) : M unit :=
  _ ← live name;
  _ ← cancelProcessEvents name;
  _ ← update name (λ p,
        let p := set_p_up p false in
        let p := set_p_incarnation p (wrap64 (p_incarnation p + 1)) in
        let p := set_p_raw p None in
        let p := set_p_application p None in
        let p := set_p_mailbox p [] in
        let p := set_p_pending p None in
        let p := set_p_crashAfterWrite p false in
        let p := set_p_sendSequence p 0 in
        let p := set_p_campaignQueued p false in
        set_p_heartbeatQueued p false);
  _ ← observe;
  failed.

Definition Restart (name : NodeID) : M unit :=
  p ← known name;
  _ ← raiseIf (p_up p) ErrNodeUp;
  _ ← boot name;
  _ ← resetElectionTimer name;
  _ ← pump name;
  _ ← observe;
  failed.

Definition CrashAfterNextPersist (name : NodeID) : M unit :=
  _ ← live name; update name (λ p, set_p_crashAfterWrite p true).

(** ** Callbacks *)

Definition timerCurrent (name : NodeID) (incarnation generation : Z) (generationOf : process → Z) (wanted : bool) : M bool :=
  p ← the_process name;
  if negb (p_up p) || negb (p_incarnation p =? incarnation) || negb (generationOf p =? generation) then mret false
  else leads ← isLeader p; mret (Bool.eqb leads wanted).

Definition onElectionTimer (name : NodeID) (incarnation generation : Z) : M unit :=
  current ← timerCurrent name incarnation generation p_electionGen false;
  if negb current then mret tt
  else
    _ ← update name (λ p, set_p_electionEvent p 0);
    orFail (submit name (mkQueued inputCampaign None [] incarnation)).

Definition onHeartbeatTimer (name : NodeID) (incarnation generation : Z) : M unit :=
  current ← timerCurrent name incarnation generation p_heartbeatGen true;
  if negb current then mret tt
  else
    _ ← update name (λ p, set_p_heartbeatEvent p 0);
    orFail (submit name (mkQueued inputHeartbeat None [] incarnation)).

(** The process is live, in its incarnation, and waits for the same object. *)
Definition waitsFor (p : process) (incarnation ref : Z) : bool :=
  p_up p && (p_incarnation p =? incarnation) &&
  match p_pending p with Some pending => pd_ref pending =? ref | None => false end.

Definition onStorageWritten (name : NodeID) (incarnation ref : Z) (ready : Ready) : M unit :=
  p ← the_process name;
  if negb (waitsFor p incarnation ref) then mret tt
  else
    r ← try (persistReady name ready);
    match r with
    | inl err => fail err
    | inr _ =>
      _ ← update name (λ p, set_p_pending p (set_persisted <$> p_pending p));
      p ← the_process name;
      if p_crashAfterWrite p then
        _ ← update name (λ p, set_p_crashAfterWrite p false);
        orFail (Crash name)
      else
        orFail
          (ack ← Schedule 0 (readyReleased name incarnation ref ready);
           update name (λ p, set_p_pending p ((λ pending, set_pd_event pending ack) <$> p_pending p)))
    end.

Definition onReadyReleased (name : NodeID) (incarnation ref : Z) (ready : Ready) : M unit :=
  p ← the_process name;
  if negb (waitsFor p incarnation ref) || negb (persistedPending p) then mret tt
  else
    r ← try (releaseReady name ready);
    match r with
    | inl err => fail err
    | inr _ =>
      _ ← update name (λ p, set_p_pending p None);
      r ← try (pump name);
      match r with inl err => fail err | inr _ => drain name end
    end.

(** A due delivery: the router drops it or calls the handler of its target. *)
Definition runDelivery (d : Network.delivery envelope) : M unit :=
  net ← gets c_net;
  let '(net, handler) := Network.arrive net d in
  _ ← modify (λ c, set_c_net c net);
  match handler with Some name => receive name (Network.dl_packet d) | None => mret tt end.

(** ** Running

    The callbacks that a user of the scheduler adds share variables, of type [X]. *)

Section running.
Context {X : Type} (callback : nat → X → M X).

Definition runAction (a : action) (x : X) : M X :=
  match a with
  | electionFired name incarnation generation => _ ← onElectionTimer name incarnation generation; mret x
  | heartbeatFired name incarnation generation => _ ← onHeartbeatTimer name incarnation generation; mret x
  | storageWritten name incarnation ref ready => _ ← onStorageWritten name incarnation ref ready; mret x
  | readyReleased name incarnation ref ready => _ ← onReadyReleased name incarnation ref ready; mret x
  | userCallback n => callback n x
  end.

(** [c.simulator.Step()] *)
Definition simulatorStep (x : X) : M (X * bool) :=
  s ← gets c_sim;
  next ← lift (Simulator.takeNext s);
  match next with
  | None => mret (x, false)
  | Some (s, act) =>
    _ ← modify (λ c, set_c_sim c s);
    x ← match act with inl d => _ ← runDelivery d; mret x | inr a => runAction a x end;
    mret (x, true)
  end.

Definition Step (x : X) : M (X * (bool * option AdapterError)) :=
  err ← gets c_err;
  match err with
  | Some err => mret (x, (false, Some err))
  | None =>
    '(x, ran) ← simulatorStep x;
    _ ← (if (ran : bool) then observe else mret tt);
    err ← gets c_err;
    mret (x, (ran, err))
  end.

(** [c.simulator.RunUntil(end)]: events run without being observed.  [None]: more events
    than [events] are due. *)
Fixpoint runUntilLoop (events : nat) (end_ : Z) (x : X) : M (option X) :=
  match events with
  | O => mret None
  | S events =>
    s ← gets c_sim;
    '(next, exists_) ← lift (Simulator.NextEventTime s);
    if (exists_ : bool) && (next <=? end_) then '(x, _) ← simulatorStep x; runUntilLoop events end_ x
    else mret (Some x)
  end.

Definition SimulatorRunUntil (events : nat) (end_ : Z) (x : X) : M (option (X * option AdapterError)) :=
  now ← gets c_now;
  if end_ <? 0 then mret (Some (x, Some (ErrSim Simulator.ErrNegativeTime)))
  else if end_ <? now then mret (Some (x, Some (ErrSim Simulator.ErrPast)))
  else
    r ← runUntilLoop events end_ x;
    match r with
    | None => mret None
    | Some x =>
      _ ← modify (λ c, set_c_sim c
            (let s := c_sim c in
             if negb (Simulator.now s =? end_)
             then Simulator.recordTrace (Simulator.set_now s end_) (Simulator.TraceClockAdvanced end_) else s));
      mret (Some (x, None))
    end.
End running.

(** ** Reading *)

Definition Members (c : Cluster) : list NodeID := slices_Clone (c_members c).
Definition Violations (c : Cluster) : list Violation := Check.cloneViolations (c_violations c).

(** The unique live leader: [None] when there is none or more than one. *)
Fixpoint leaderLoop (found : string) (members : list NodeID) : M (option NodeID) :=
  match members with
  | [] => mret (if String.eqb found "" then None else Some found)
  | name :: members =>
    p ← the_process name;
    if negb (p_up p) then leaderLoop found members
    else
      leads ← isLeader p;
      if negb leads then leaderLoop found members
      else if negb (String.eqb found "") then mret None
      else leaderLoop name members
  end.

Definition Leader_ : M (option NodeID) := members ← gets c_members; leaderLoop "" members.

Definition applicationCommitment (p : process) : M AppOracle.Commitment :=
  application ← match p_application p with
                | Some application => mret (Some application)
                | None => check (λ e, e) (recoverApplication p)
                end;
  match application with Some application => mret (AppOracle.Commitment_ application) | None => panic end.

Definition ApplicationCommitment (name : NodeID) : M AppOracle.Commitment :=
  p ← known name;
  config ← gets c_config;
  _ ← raiseIf (bool_decide (AcApplication config = None)) ErrApplicationDisabled;
  applicationCommitment p.

Definition DurableState (name : NodeID) : M PersistentState := p ← known name; durableState p.
Definition Status (name : NodeID) : M Node.Status_ :=
  p ← live name;
  durable ← durableState p;
  seen ← status p durable;
  match seen with Some seen => mret seen | None => panic end.
Definition AppliedEntries (name : NodeID) : M (list Entry) := p ← known name; mret (cloneEntries (p_applied p)).
Definition ChainBlocks (name : NodeID) : M (list Block) := p ← known name; mret (chainBlocks (p_chain p)).

(** ** Digests *)

Definition wireOf (wire : option bytes) : M bytes := match wire with Some wire => mret wire | None => raise ErrMarshalMessage end.
Fixpoint wiresOf (messages : list PbMessage) : M (list bytes) :=
  match messages with
  | [] => mret []
  | message :: messages => wire ← wireOf (marshalMessage message); wires ← wiresOf messages; mret (wire :: wires)
  end.

Definition snapshotPending (p : process) : M (option pendingSnapshot) :=
  match p_pending p with
  | None => mret None
  | Some pending =>
    let ready := pd_ready pending in
    let hard := readyHardState ready in
    vote ← nameOf (hardVote hard);
    messages ← wiresOf (readyMessages ready);
    snapshot ← (if isEmptySnapshot (readySnapshot ready) then mret None
                else wire ← wireOf (marshalSnapshot (readySnapshot ready)); mret (Some wire));
    mret (Some (mkPendingSnapshot (pd_generation pending) (pd_incarnation pending) (pd_persisted pending) (readyMustSync ready)
      (hardTerm hard) vote (hardCommit hard) (map normalizeEntry (readyEntries ready)) (map normalizeEntry (readyCommitted ready))
      messages snapshot))
  end.

Fixpoint snapshotMailbox (mailbox : list queuedInput) : M (list inputSnapshot) :=
  match mailbox with
  | [] => mret []
  | input :: mailbox =>
    message ← match q_message input with
              | None => mret None
              | Some message => wire ← wireOf (marshalMessage message); mret (Some wire)
              end;
    rest ← snapshotMailbox mailbox;
    mret (mkInputSnapshot (q_kind input) (q_incarnation input) (slices_Clone (q_data input)) message :: rest)
  end.

Fixpoint snapshotNodes (names : list NodeID) : M (list nodeSnapshot) :=
  match names with
  | [] => mret []
  | name :: names =>
    p ← the_process name;
    durable ← durableState p;
    seen ← status p durable;
    pending ← snapshotPending p;
    mailbox ← snapshotMailbox (p_mailbox p);
    config ← gets c_config;
    application ← match AcApplication config with
                  | None => mret None
                  | Some _ => commitment ← applicationCommitment p; mret (Some commitment)
                  end;
    rest ← snapshotNodes names;
    mret (mkNodeSnapshot name (p_up p) seen durable (p_appliedIndex p) (cloneEntries (p_applied p)) (chainBlocks (p_chain p))
            application pending mailbox :: rest)
  end.

(** [None]: the observation cannot be encoded. *)
Definition SnapshotDigest : M (option string) :=
  config ← gets c_config;
  now ← gets c_now;
  violations ← gets Violations;
  members ← gets c_members;
  nodes ← snapshotNodes members;
  let schema := match AcApplication config with Some _ => ApplicationObservationSchemaVersion | None => ObservationSchemaVersion end in
  mret (option_map (λ raw, Sha256.hex_string (Sha256.Sha256.Sum256 raw))
          (marshalObservation enc (mkObservationSnapshot schema AdapterID AdapterVersion now nodes violations))).

(** ** Driving the protocol *)

Definition ProposeTo (name : NodeID) (data : bytes) : M unit :=
  p ← live name;
  _ ← raiseIf (zlen data =? 0) ErrInvalidProposal;
  config ← gets c_config;
  _ ← match AcApplication config with
      | None => mret tt
      | Some _ => _ ← check ErrApp (AppOracle.DecodeCommand data); mret tt
      end;
  leads ← isLeader p;
  _ ← raiseIf (negb leads) ErrProposalDropped;
  submit name (mkQueued inputProposal None (slices_Clone data) (p_incarnation p)).

Definition Propose (data : bytes) : M unit :=
  leader ← Leader_;
  match leader with Some name => ProposeTo name data | None => raise ErrNoLeader end.

Definition Partition (groups : list (list NodeID)) : M unit :=
  matrix ← check ErrNet (Network.NewPartitions groups);
  modify (λ c, set_c_net c (Network.SetPartition (c_net c) (Some matrix))).
Definition Heal : M unit := modify (λ c, set_c_net c (Network.SetPartition (c_net c) None)).

(** ** Construction *)

(** The numbers of the members, from one. *)
Fixpoint numbers (next : Z) (members : list NodeID) : gmap NodeID Z * gmap Z NodeID :=
  match members with
  | [] => (∅, ∅)
  | name :: members => let '(ids, names) := numbers (next + 1) members in (<[name := next]> ids, <[next := name]> names)
  end.

Definition emptyCluster (config : AdapterConfig) (d : D) : AdapterError + Cluster :=
  let members := sort_nodes (slices_Clone (AcMembers config)) in
  let config := mkAdapterConfig (slices_Clone members) (AcSeed config) (AcNetwork config) (ElectionTimeoutMin config)
    (ElectionTimeoutMax config) (HeartbeatInterval config) (StorageLatency config) (AcMaxSteps config)
    (StopOnViolation config) (AcApplication config) in
  match Network.NewRouter Simulator.New (Rand.NewRand (AcSeed config)) (AcNetwork config) (Some cloneEnvelope) d with
  | inl err => inl (ErrNet err)
  | inr net =>
    let '(ids, names) := numbers 1 members in
    inr (mkCluster config members ids names (Network.SetDecisionSource net (Some networkDecisions)) ∅ (Check.New members) [] None 0)
  end.

Definition register (name : NodeID) : M unit :=
  net ← gets c_net;
  let '(net, err) := Network.Register net name (Some name) in
  _ ← modify (λ c, set_c_net c net);
  refuse (ErrNet <$> err).

Definition construct : M unit :=
  members ← gets c_members;
  _ ← each (λ name, _ ← newProcess name; register name) members;
  _ ← each resetElectionTimer members;
  _ ← observe;
  failed.
End cluster.
Arguments networkDecisions {_ _} enc fuel.

#[local] Existing Instance Decision.seed_decider.

(** [New]: who gave the decider still holds it when the cluster is refused. *)
Definition New {D} `{!Decision.Decider D} (enc : EtcdEncoders) (fuel : nat) (config : AdapterConfig) (decider : option D)
    : go (option ((D + Decision.SeedDecider) * (AdapterError + Cluster (D + Decision.SeedDecider)))) :=
  let d := match decider with Some d => inl d | None => inr (Decision.NewSeedDecider (AcSeed config)) end in
  match validateConfig config with
  | Some err => Done (Some (d, inl err))
  | None =>
    match emptyCluster enc fuel config d with
    | inl err => Done (Some (d, inl err))
    | inr c =>
      r ← construct enc fuel c;
      Done match r with
           | None => None
           | Some (c, inl err) => Some (c_decider c, inl err)
           | Some (c, inr _) => Some (c_decider c, inr c)
           end
    end
  end.
End adapter.
