(* ===== verification/EtcdExecute.v ===== *)
(** * Executions on the etcd/raft adapter (adapters/etcdraft/execute.go, semantic.go)

    A scenario is run against a cluster of the adapter, which refuses what it does not
    support; a portable plan is projected onto it. *)

From S2P Require Import Prelude RaftTypes Membership Outcome Scenario Artifact.
From S2P Require Export EtcdCluster.
From S2P Require Node Simulator Network Decision Check AppOracle Rand Experiment Minimize Semantic.
From S2P Require Import Projector Normalized Plan Execution Causal.
From stdpp Require Import options.

#[global] Open Scope Z_scope.

#[local] Existing Instance Decision.seed_decider.
#[local] Existing Instance Decision.recorder_decider.

(** The part of the plan's capabilities that the adapter implements (semantic.go). *)
Definition SemanticCapabilities : Capabilities :=
  mkCapabilities AdapterCapabilitiesSchema (mkAdapter AdapterID AdapterVersion)
    (Some [MembershipFixedAllVoters]) (Some V1Actions) (Some [AppOracle.CommandSchema]) (Some V1ProjectionKinds)
    (Some [Check.AppliedConflict; Check.AppliedMonotonic; Check.CommitMonotonic; Check.CommittedConflict;
           Check.DurableDoubleVote; Check.DurableTermMonotonic; Check.LogMatching; Check.MembershipTransition;
           Check.SnapshotConflict]).

Section execute.
Context `{!Library}.

Inductive ExecuteError :=
| ErrArtifact (e : ArtifactError)
| ErrAdapter (e : AdapterError)
| ErrApplicationConfig (e : AppOracle.AppError)
| ErrInvalidProposal (e : AppOracle.AppError)
| ErrDuplicateProposal (id : bytes)
| ErrUnknownAction (kind : string)
| ErrMarshal.

(** ** Validation *)

Fixpoint checkProposals (seen : gset bytes) (actions : list Action) : option ExecuteError :=
  match actions with
  | [] => None
  | action :: actions =>
    if negb (String.eqb (ActKind action) ActionPropose) then checkProposals seen actions
    else match AppOracle.DecodeCommand (ActData action) with
    | inl err => Some (ErrInvalidProposal err)
    | inr command =>
      if bool_decide (AppOracle.CID command ∈ seen) then Some (ErrDuplicateProposal (AppOracle.CID command))
      else checkProposals ({[AppOracle.CID command]} ∪ seen) actions
    end
  end.

Definition validateApplicationProposals (scenario : Scenario) : option ExecuteError := checkProposals ∅ (Actions scenario).

Definition unsupportedKind (kind : string) : bool :=
  bool_decide (kind ∈ [ActionSnapshot; ActionBeginMembership; ActionFinalizeMembership]).

Fixpoint checkCapabilities (actions : list Action) : option ExecuteError :=
  match actions with
  | [] => None
  | action :: actions =>
    if unsupportedKind (ActKind action) then Some (ErrAdapter (ErrUnsupported (ActKind action)))
    else if String.eqb (ActKind action) ActionPropose && (zlen (ActData action) =? 0)
    then Some (ErrAdapter EtcdState.ErrInvalidProposal)
    else checkCapabilities actions
  end.

Definition validateScenarioCapabilities (scenario : Scenario) : option ExecuteError := checkCapabilities (Actions scenario).

Section run.
Context {D : Type} `{!Decision.Decider D}.
Context (enc : EtcdEncoders) (errorText : ExecuteError → string) (fuel : nat).

Abbreviation M := (M D).

(** ** Actions *)

Definition call (m : M unit) : M (option ExecuteError) :=
  r ← try m; mret (match r with inl err => Some (ErrAdapter err) | inr _ => None end).

Definition applyAction (action : Action) : M (option ExecuteError) :=
  let kind_is := String.eqb (ActKind action) in
  if kind_is ActionPropose then
    call (if String.eqb (ActNode action) "" then Propose fuel (ActData action)
          else ProposeTo fuel (ActNode action) (ActData action))
  else if kind_is ActionCrash then call (Crash enc (ActNode action))
  else if kind_is ActionRestart then call (Restart enc fuel (ActNode action))
  else if kind_is ActionCrashAfterNextPersist then call (CrashAfterNextPersist (ActNode action))
  else if kind_is ActionPartition then call (Partition (ActGroups action))
  else if kind_is ActionHeal then call Heal
  else if unsupportedKind (ActKind action) then mret (Some (ErrAdapter (ErrUnsupported (ActKind action))))
  else mret (Some (ErrUnknownAction (ActKind action))).

(** The callback of an action: [actionErr] is the variable the callbacks share. *)
Definition actionCallback (actions : list Action) (n : nat) (actionErr : option ExecuteError) : M (option ExecuteError) :=
  match actions !! n with
  | Some action => match actionErr with Some err => mret (Some err) | None => applyAction (Experiment.cloneAction action) end
  | None => panic
  end.

Fixpoint scheduleActions (n : nat) (actions : list Action) : M unit :=
  match actions with
  | [] => mret tt
  | action :: actions =>
    r ← on_sim (λ s, Simulator.ScheduleAt s (ActAtNS action) (Some (inr (userCallback n))));
    _ ← check ErrSim r;
    scheduleActions (S n) actions
  end.

(** ** The loop *)

Record progress := mkProgress {
  pg_steps : Z; pg_actionErr : option ExecuteError; pg_runErr : option ExecuteError; pg_exhausted : bool }.

Section scenario.
Context (scenario : Scenario).
Abbreviation callback := (actionCallback (Actions scenario)).

(** [None]: out of [limit]. *)
Fixpoint stepLoop (limit : nat) (steps : Z) (actionErr : option ExecuteError) : M (option progress) :=
  match limit with
  | O => mret None
  | S limit =>
    if bool_decide (is_Some actionErr) then mret (Some (mkProgress steps actionErr None false))
    else
      s ← gets c_sim;
      '(next, exists_) ← lift (Simulator.NextEventTime s);
      if negb exists_ || (DurationNS scenario <? next) then mret (Some (mkProgress steps actionErr None false))
      else if steps =? ScMaxSteps scenario then mret (Some (mkProgress steps actionErr None true))
      else
        '(actionErr, (ran, err)) ← Step enc fuel callback actionErr;
        let after := if (ran : bool) then wrap64 (steps + 1) else steps in
        match err with
        | Some err => mret (Some (mkProgress after actionErr (Some (ErrAdapter err)) false))
        | None => stepLoop limit after actionErr
        end
  end.

(** The first error of an action, or the one of the loop. *)
Definition runError (p : progress) : option ExecuteError :=
  match pg_actionErr p with Some err => Some err | None => pg_runErr p end.

(** The rest of the time, when the loop did not end early; what an action reports there is
    not read again.  [None]: more than [limit] events. *)
Definition finishTime (limit : nat) (p : progress) : M (option (option ExecuteError)) :=
  match runError p, pg_exhausted p with
  | None, false =>
    r ← SimulatorRunUntil enc fuel callback limit (DurationNS scenario) (pg_actionErr p);
    mret match r with None => None | Some (_, err) => Some (ErrAdapter <$> err) end
  | err, _ => mret (Some err)
  end.

Definition outcomeOf (steps endNS : Z) (digest : string) (violations : list Violation) (runErr : option ExecuteError)
    (exhausted : bool) : Outcome :=
  let outcome status error := mkOutcome status steps endNS digest error violations in
  if 0 <? zlen violations then outcome OutcomeViolation ""
  else match runErr with
  | Some err => outcome OutcomeError (errorText err)
  | None => if exhausted then outcome OutcomeBudgetExhausted "" else outcome OutcomeCompleted ""
  end.

(** One round more than the steps of the scenario is enough for both loops. *)
Definition stepLimit : nat := S (Z.to_nat (ScMaxSteps scenario)).

Definition executeScheduled : M (option (ExecuteError + Outcome)) :=
  _ ← scheduleActions 0 (Actions scenario);
  looped ← stepLoop stepLimit 0 None;
  match looped with
  | None => mret None
  | Some p =>
    finished ← finishTime stepLimit p;
    match finished with
    | None => mret None
    | Some runErr =>
      violations ← gets Violations;
      digest ← SnapshotDigest enc;
      now ← gets c_now;
      mret (Some match digest with
                 | None => inl ErrMarshal
                 | Some digest => inr (outcomeOf (pg_steps p) now digest violations runErr (pg_exhausted p))
                 end)
    end
  end.
End scenario.
End run.

(** ** Executions *)

(** A new cluster, and what is done with it; the decider it leaves. *)
Definition withCluster {D} `{!Decision.Decider D} {A} (enc : EtcdEncoders) (fuel : nat) (config : AdapterConfig) (decider : option D)
    (run : M (D + Decision.SeedDecider) (option (ExecuteError + A)))
    : go (option ((D + Decision.SeedDecider) * (AdapterError + (ExecuteError + A)))) :=
  created ← New enc fuel config decider;
  match created with
  | None => Done None
  | Some (d, inl err) => Done (Some (d, inl err))
  | Some (_, inr c) =>
    r ← run c;
    Done match r with
         | None | Some (_, inr None) => None
         | Some (c, inl err) => Some (c_decider c, inr (inl (ErrAdapter err)))
         | Some (c, inr (Some result)) => Some (c_decider c, inr result)
         end
  end.

Definition joined {S A} (r : option (S * (AdapterError + (ExecuteError + A)))) : option (ExecuteError + A) :=
  match r with
  | None => None
  | Some (_, inl err) => Some (inl (ErrAdapter err))
  | Some (_, inr result) => Some result
  end.

Definition set_application (config : AdapterConfig) (application : AppOracle.AppConfig) : AdapterConfig :=
  mkAdapterConfig (AcMembers config) (AcSeed config) (AcNetwork config) (EtcdState.ElectionTimeoutMin config)
    (EtcdState.ElectionTimeoutMax config) (EtcdState.HeartbeatInterval config) (EtcdState.StorageLatency config) (AcMaxSteps config)
    (EtcdState.StopOnViolation config) (Some application).

Section executions.
Context {D : Type} `{!Decision.Decider D}.
Context (enc : EtcdEncoders) (errorText : ExecuteError → string) (fuel : nat).

Definition Execute (scenario : Scenario) (configuration : Configuration) (decider : option D) : go (option (ExecuteError + Outcome)) :=
  if negb (ValidateExperiment scenario configuration) then Done (Some (inl (ErrArtifact ErrInvalidArtifact)))
  else match validateScenarioCapabilities scenario with
  | Some err => Done (Some (inl err))
  | None =>
    match ConfigurationFrom configuration with
    | inl err => Done (Some (inl (ErrAdapter err)))
    | inr config => r ← withCluster enc fuel config decider (executeScheduled enc errorText fuel scenario); Done (joined r)
    end
  end.

Definition ExecuteWithApplication (scenario : Scenario) (configuration : Configuration) (decider : option D)
    (application : AppOracle.AppConfig) : go (option (ExecuteError + Outcome)) :=
  if negb (ValidateExperiment scenario configuration) then Done (Some (inl (ErrArtifact ErrInvalidArtifact)))
  else match validateScenarioCapabilities scenario with
  | Some err => Done (Some (inl err))
  | None =>
    match AppOracle.ValidateConfig application with
    | Some err => Done (Some (inl (ErrApplicationConfig err)))
    | None =>
      match validateApplicationProposals scenario with
      | Some err => Done (Some (inl err))
      | None =>
        match ConfigurationFrom configuration with
        | inl err => Done (Some (inl (ErrAdapter err)))
        | inr config =>
          r ← withCluster enc fuel (set_application config application) decider (executeScheduled enc errorText fuel scenario);
          Done (joined r)
        end
      end
    end
  end.
End executions.

(** ** Semantic plans (semantic.go) *)

Inductive PlanError :=
| ErrSemantic (e : SemanticError)
| ErrProjector (e : ProjError)
| ErrSemanticIneligible (rejections : list string)
| ErrExecute (e : ExecuteError).

Section plans.
Context (enc : EtcdEncoders) (errorText : ExecuteError → string) (adapterErrorText : AdapterError → string) (fuel : nat).

(** The preflight of a plan from the reference adapter to this one. *)
Definition eligible {A} (plan : Plan) (k : go (option (PlanError + A))) : go (option (PlanError + A)) :=
  match Preflight plan Semantic.ReferenceSemanticCapabilities SemanticCapabilities with
  | inl err => Done (Some (inl (ErrSemantic err)))
  | inr eligibility => if negb (Eligible eligibility) then Done (Some (inl (ErrSemanticIneligible (Rejections eligibility)))) else k
  end.

(** The recorder and the projector it wraps, which the cluster shares with its caller. *)
Definition recorded_by {P} (d : Decision.Recorder P + Decision.SeedDecider) : go (Decision.Recorder P * P) :=
  match d with
  | inl r => match Decision.base r with Some b => Done (r, b) | None => Panic end
  | inr _ => Panic
  end.

(** The cluster of a plan, with a recorder around [projector], and a computation on it. *)
Definition planned {P A} `{!Decision.Decider P} (plan : Plan) (config : AdapterConfig) (projector : P)
    (run : M (Decision.Recorder P + Decision.SeedDecider) (option (ExecuteError + A)))
    : go (option ((Decision.Recorder P * P) * (AdapterError + (ExecuteError + A)))) :=
  ran ← withCluster enc fuel (set_application config (PlApplication plan)) (Some (Decision.NewRecorder (Some projector))) run;
  match ran with
  | None => Done None
  | Some (d, result) => rb ← recorded_by d; Done (Some (rb, result))
  end.

Section commitments.
Context {D : Type} `{!Decision.Decider D}.

Fixpoint memberCommitments (members : list NodeID) : M D (gmap NodeID AppOracle.Commitment) :=
  match members with
  | [] => mret ∅
  | member :: members =>
    commitment ← ApplicationCommitment member;
    commitments ← memberCommitments members;
    mret (<[member := commitment]> commitments)
  end.

Definition semanticRun (plan : Plan) : M D (option (ExecuteError + (Outcome * gmap NodeID AppOracle.Commitment))) :=
  result ← executeScheduled enc errorText fuel (PlScenario plan);
  match result with
  | None => mret None
  | Some (inl err) => mret (Some (inl err))
  | Some (inr outcome) =>
    members ← gets Members;
    commitments ← memberCommitments members;
    mret (Some (inr (outcome, commitments)))
  end.
End commitments.

Section documents.
Context (build : Minimize.Build) (marshalPlan : Plan → option bytes) (marshalExecution : SemanticExecution → option bytes).

Definition reproducibility (plan : Plan) : Reproducibility :=
  let r := Minimize.NewReproducibility build (FallbackSeed plan) in
  mkReproducibility (DecisionSeed r) (GitRevision r) (GitModified r) (GoVersion r) (DecisionSchema r) CheckerProfile
    MessageCodecVersion ObservationSchemaVersion.

Definition newExecution (plan : Plan) (projector : Projector) (recorder : Decision.Recorder Projector)
    (outcome : option Outcome) (operationalError : string) (nodes : list NodeCommitment)
    : go (option (PlanError + SemanticExecution)) :=
  r ← NewEligibleExecution marshalPlan marshalExecution fuel plan SemanticCapabilities (reproducibility plan)
        (ProjectorFinish projector) (Decision.RecordedTape recorder) outcome operationalError (Some nodes);
  Done match r with
       | None => None
       | Some (inl err) => Some (inl (ErrSemantic err))
       | Some (inr execution) => Some (inr execution)
       end.

Definition ExecuteSemanticPlan (plan : Plan) : go (option (PlanError + SemanticExecution)) :=
  eligible plan
    match NewProjector (items (PlDirectives plan)) (FallbackSeed plan) with
    | inl err => Done (Some (inl (ErrProjector err)))
    | inr projector =>
      match ConfigurationFrom (PlConfiguration plan) with
      | inl err => Done (Some (inl (ErrExecute (ErrAdapter err))))
      | inr config =>
        ran ← planned plan config projector (semanticRun plan);
        match ran with
        | None => Done None
        | Some ((recorder, projector), inl err) => newExecution plan projector recorder None (adapterErrorText err) []
        | Some (_, inr (inl err)) => Done (Some (inl (ErrExecute err)))
        | Some ((recorder, projector), inr (inr (outcome, commitments))) =>
          match NormalizeNodeCommitments (Some commitments) with
          | inl err => Done (Some (inl (ErrSemantic err)))
          | inr (nodes, _) => newExecution plan projector recorder (Some outcome) "" nodes
          end
        end
      end
    end.
End documents.

(** What a causal execution returns, with the evidence so far. *)
Record CausalRun := mkCausalRun {
  cr_outcome : option Outcome; cr_report : CausalProjectionReport; cr_tape : Decision.Tape; cr_err : option PlanError }.

Definition ExecuteCausalPlan (plan : Plan) (source : Decision.Tape) : go (option (PlanError + CausalRun)) :=
  eligible plan
    (directives ← CausalDirectivesFromTape source;
     match directives with
     | inl err => Done (Some (inl (ErrSemantic err)))
     | inr directives =>
       match NewCausalProjector directives (FallbackSeed plan) with
       | inl err => Done (Some (inl (ErrSemantic err)))
       | inr projector =>
         match ConfigurationFrom (PlConfiguration plan) with
         | inl err =>
           Done (Some (inr (mkCausalRun None (CausalFinish projector) (Decision.RecordedTape (Decision.NewRecorder (Some projector)))
                              (Some (ErrExecute (ErrAdapter err))))))
         | inr config =>
           ran ← planned plan config projector (executeScheduled enc errorText fuel (PlScenario plan));
           Done match ran with
                | None => None
                | Some ((recorder, projector), result) =>
                  let run outcome err :=
                    Some (inr (mkCausalRun outcome (CausalFinish projector) (Decision.RecordedTape recorder) err)) in
                  match result with
                  | inl err => run None (Some (ErrExecute (ErrAdapter err)))
                  | inr (inl err) => run None (Some (ErrExecute err))
                  | inr (inr outcome) => run (Some outcome) None
                  end
                end
         end
       end
     end).
End plans.
End execute.
