(* ===== verification/EtcdInv.v ===== *)
(** * What every cluster of the etcd/raft adapter keeps (adapters/etcdraft)

    Whatever the library does, the chain of a process commits to the entries it applied, its
    application is the one that recovery rebuilds from them, a ready that waits for its
    storage is the one its scheduled event writes, and the storage is not touched between
    the write and the release. *)

From S2P Require Import Prelude RaftTypes Membership Outcome.
From S2P Require Export EtcdCluster.
From S2P Require Node Simulator SimInv SimProps Network NetProps Decision Check AppOracle ClusterState.
From stdpp Require Import options.

#[global] Open Scope Z_scope.

(** ** Computations that keep an invariant *)

Section keeps.
Context `{HL : !Library} {D : Type}.

Definition keeps (I : Cluster D → Prop) {A} (m : M D A) : Prop :=
  ∀ c, I c → wlp (m c) (λ r, match r with None => True | Some (c', _) => I c' end).

Context (I : Cluster D → Prop).

Lemma kept_bind {A B} (m : M D A) (k : A → M D B) : keeps I m → (∀ a, keeps I (k a)) → keeps I (m ≫= k).
Proof.
  intros Hm Hk c Hc. unfold mbind, M_bind. apply wlp_bind. eapply wlp_mono; [by apply Hm |].
  intros [[c' [err|a]]|] H; [done | | done]. by apply Hk.
Qed.

Lemma kept_ret {A} (a : A) : keeps I (mret a).
Proof. by intros c Hc. Qed.
Lemma kept_raise {A} err : keeps I (raise err : M D A).
Proof. by intros c Hc. Qed.
Lemma kept_panic {A} : keeps I (panic : M D A).
Proof. by intros c Hc. Qed.
Lemma kept_outOfFuel {A} : keeps I (outOfFuel : M D A).
Proof. by intros c Hc. Qed.
Lemma kept_gets {A} (f : Cluster D → A) : keeps I (gets f).
Proof. by intros c Hc. Qed.
Lemma kept_raiseIf b err : keeps I (raiseIf b err).
Proof. intros c Hc. unfold raiseIf. by destruct b. Qed.
Lemma kept_lift {A} (m : go A) : keeps I (lift m).
Proof. intros c Hc. unfold lift. by destruct m. Qed.
Lemma kept_sample {A} (m : go (option A)) : keeps I (sample m).
Proof. intros c Hc. unfold sample. by destruct m as [[]|]. Qed.
Lemma kept_check {E A} (w : E → AdapterError) (r : E + A) : keeps I (check w r).
Proof. intros c Hc. by destruct r. Qed.
Lemma kept_refuse err : keeps I (refuse err).
Proof. intros c Hc. by destruct err. Qed.
Lemma kept_modify f : (∀ c, I c → I (f c)) → keeps I (modify f).
Proof. intros Hf c Hc. by apply Hf. Qed.
Lemma kept_try {A} (m : M D A) : keeps I m → keeps I (try m).
Proof. intros Hm c Hc. unfold try. apply wlp_bind. eapply wlp_mono; [by apply Hm |]. by intros [[c' r]|]. Qed.
Lemma kept_the_raw p : keeps I (the_raw p).
Proof. intros c Hc. unfold the_raw. by destruct (p_raw p). Qed.
Lemma kept_failed : keeps I failed.
Proof. apply kept_bind; [apply kept_gets |]. intros. apply kept_refuse. Qed.
Lemma kept_known id : keeps I (known id).
Proof. apply kept_bind; [apply kept_gets |]. intros ps. destruct (ps !! id); [apply kept_ret | apply kept_raise]. Qed.
Lemma kept_the_process id : keeps I (the_process id).
Proof. apply kept_bind; [apply kept_gets |]. intros ps. destruct (ps !! id); [apply kept_ret | apply kept_panic]. Qed.
Lemma kept_live id : keeps I (live id).
Proof.
  apply kept_bind; [apply kept_known |]. intros p. apply kept_bind; [apply kept_raiseIf |]. intros. apply kept_ret.
Qed.
Lemma kept_if {A} (b : bool) (m k : M D A) : keeps I m → keeps I k → keeps I (if b then m else k).
Proof. by destruct b. Qed.
Lemma kept_sum {A B E} (r : E + A) (k1 : E → M D B) (k2 : A → M D B) :
  (∀ e, keeps I (k1 e)) → (∀ a, keeps I (k2 a)) → keeps I (match r with inl e => k1 e | inr a => k2 a end).
Proof. by destruct r. Qed.
Lemma kept_option {A B} (o : option A) (k1 : A → M D B) (k2 : M D B) :
  (∀ a, keeps I (k1 a)) → keeps I k2 → keeps I (match o with Some a => k1 a | None => k2 end).
Proof. by destruct o. Qed.
Lemma kept_list {A B} (l : list A) (k1 : M D B) (k2 : A → list A → M D B) :
  keeps I k1 → (∀ x l, keeps I (k2 x l)) → keeps I (match l with [] => k1 | x :: l => k2 x l end).
Proof. by destruct l. Qed.
Lemma kept_each {A} (f : A → M D unit) l : (∀ x, keeps I (f x)) → keeps I (each f l).
Proof.
  intros Hf. induction l as [|x l IH]; [apply kept_ret |]. apply kept_bind; [apply Hf | intros; exact IH].
Qed.
End keeps.

Create HintDb etcd discriminated.
#[export] Hint Constants Opaque : etcd.
#[export] Hint Resolve kept_ret kept_raise kept_panic kept_outOfFuel kept_gets kept_raiseIf kept_lift kept_sample
  kept_check kept_refuse kept_the_raw kept_failed kept_known kept_the_process kept_live : etcd.

(** One computation after the other; what is not closed by a hint is left. *)
Ltac keep :=
  repeat first
    [ progress intros
    | solve [auto with etcd nocore]
    | apply kept_bind
    | apply kept_try
    | apply kept_each
    | apply kept_if
    | apply kept_option
    | apply kept_sum
    | apply kept_list
    | progress cbv zeta
    | match goal with |- keeps _ (let '(_, _) := ?x in _) => destruct x end ].

(** ** One step of a computation at a time *)

Section steps.
Context `{HL : !Library} {D : Type} {B : Type} (Q : option (Cluster D * (AdapterError + B)) → Prop).

Lemma step_bind {A} (m : M D A) (k : A → M D B) c :
  wlp (m c) (λ r, match r with
    | None => Q None
    | Some (c', inl err) => Q (Some (c', inl err))
    | Some (c', inr a) => wlp (k a c') Q
    end) →
  wlp ((m ≫= k) c) Q.
Proof. intros H. unfold mbind, M_bind. apply wlp_bind. eapply wlp_mono; [exact H |]. by intros [[c' [err|a]]|]. Qed.

Lemma step_process name (k : process → M D B) c :
  (∀ p, c_processes c !! name = Some p → wlp (k p c) Q) → wlp ((the_process name ≫= k) c) Q.
Proof.
  intros H. apply step_bind. unfold the_process, mbind, M_bind, gets. simpl.
  destruct (c_processes c !! name) as [p|]; simpl; auto.
Qed.

Lemma step_raiseIf b err (k : unit → M D B) c :
  Q (Some (c, inl err)) → (b = false → wlp (k tt c) Q) → wlp ((raiseIf b err ≫= k) c) Q.
Proof. intros H1 H2. apply step_bind. unfold raiseIf. destruct b; simpl; auto. Qed.

Lemma step_gets {A} (f : Cluster D → A) (k : A → M D B) c : wlp (k (f c) c) Q → wlp ((gets f ≫= k) c) Q.
Proof. intros H. by apply step_bind. Qed.

Lemma step_lift {A} (m : go A) (k : A → M D B) c : (∀ a, m = Done a → wlp (k a c) Q) → wlp ((lift m ≫= k) c) Q.
Proof. intros H. apply step_bind. unfold lift. destruct m; simpl; auto. Qed.

Lemma step_update name f (k : unit → M D B) c p :
  c_processes c !! name = Some p →
  wlp (k tt (set_c_processes c (<[name := f p]> (c_processes c)))) Q → wlp ((update name f ≫= k) c) Q.
Proof. intros Hp H. apply step_bind. unfold update, the_process, mbind, M_bind, gets. simpl. by rewrite Hp. Qed.

(** A part that keeps an invariant stronger than what is wanted in the end. *)
Lemma step_kept {A} (I : Cluster D → Prop) (m : M D A) (k : A → M D B) c :
  keeps I m → I c → Q None → (∀ c' err, I c' → Q (Some (c', inl err))) →
  (∀ c' a, I c' → wlp (k a c') Q) → wlp ((m ≫= k) c) Q.
Proof.
  intros Hm Hc Hn He Hk. apply step_bind. eapply wlp_mono; [by apply Hm |]. intros [[c' [err|a]]|] H; auto.
Qed.
End steps.

Lemma last_update `{HL : !Library} {D} name f (c : Cluster D) p (R : option (Cluster D * (AdapterError + unit)) → Prop) :
  c_processes c !! name = Some p →
  R (Some (set_c_processes c (<[name := f p]> (c_processes c)), inr tt)) → wlp (update name f c) R.
Proof. intros Hp H. unfold update, the_process, mbind, M_bind, gets. simpl. by rewrite Hp. Qed.

(** ** Recovery *)

Section recovery.
Context `{HL : !Library}.

Lemma recoverLoop_mono a a' last app l r :
  a ≤ a' → recoverLoop a last app l = inr r → recoverLoop a' last app l = inr r.
Proof.
  intros Ha. revert last app. induction l as [|e l IH]; intros last app; cbn [recoverLoop]; [done |].
  destruct ((last =? max_u64) || negb (Index e =? wrap64 (last + 1)) || (a <? Index e)) eqn:E; [done |].
  assert ((last =? max_u64) || negb (Index e =? wrap64 (last + 1)) || (a' <? Index e) = false) as ->.
  { apply orb_false_iff in E as [-> E]. simpl. lia. }
  destruct (Type_ e); try done; [by apply IH |]. destruct (AppOracle.ApplyEncoded app (Data e)) as [app' [|]]; [done | by apply IH].
Qed.

(** The application after one more entry. *)
Definition applied_one (app : option AppOracle.Machine) (e : Entry) : option (option AppOracle.Machine) :=
  match Type_ e with
  | EntryCommand => match AppOracle.ApplyEncoded app (Data e) with (_, inl _) => None | (app, inr _) => Some app end
  | EntryNoop => Some app
  | _ => None
  end.

Lemma recoverLoop_snoc a last app l e app1 last1 app2 :
  recoverLoop a last app l = inr (app1, last1) → last1 < max_u64 → Index e = last1 + 1 → 0 ≤ last1 → Index e ≤ a →
  applied_one app1 e = Some app2 → recoverLoop a last app (l ++ [e]) = inr (app2, Index e).
Proof.
  intros H Hmax He H0 Ha Happ. revert last app H. induction l as [|x l IH]; intros last app; cbn [recoverLoop Datatypes.app].
  - intros [= -> ->].
    assert ((last1 =? max_u64) || negb (Index e =? wrap64 (last1 + 1)) || (a <? Index e) = false) as ->.
    { rewrite wrap64_small by (unfold is_u64; lia). lia. }
    unfold applied_one in Happ. destruct (Type_ e); try done; [by simplify_eq |].
    destruct (AppOracle.ApplyEncoded app1 (Data e)) as [app' [|]]; by simplify_eq.
  - destruct (_ || _); [done |]. destruct (Type_ x); try done; [by apply IH |].
    destruct (AppOracle.ApplyEncoded app (Data x)) as [app' [|]]; [done | by apply IH].
Qed.

(** A machine stays one. *)
Lemma ApplyEncoded_some m data app r : AppOracle.ApplyEncoded (Some m) data = (app, r) → is_Some app.
Proof.
  unfold AppOracle.ApplyEncoded, AppOracle.applyCanonical. destruct (AppOracle.DecodeCommand data); [intros [= <- _]; by eexists |].
  cbv zeta. repeat case_match; intros [= <- _]; by eexists.
Qed.

Lemma ApplyEncoded_refused m data app err : AppOracle.ApplyEncoded m data = (app, inl err) → app = m.
Proof.
  unfold AppOracle.ApplyEncoded, AppOracle.applyCanonical. destruct (AppOracle.DecodeCommand data); [by intros [= <- _] |].
  cbv zeta. repeat case_match; by intros [= <-].
Qed.
End recovery.

(** ** The invariant *)

Section invariant.
Context `{HL : !Library}.

(** A ready was written to a storage: its snapshot, its hard state, its entries. *)
Definition written (s0 : MemoryStorage) (ready : Ready) (s : MemoryStorage) : Prop :=
  ∃ s1 s2,
    (if isEmptySnapshot (readySnapshot ready) then s1 = s0 else ApplySnapshot s0 (readySnapshot ready) = Done (s1, None)) ∧
    (if isEmptyHardState (readyHardState ready) then s2 = s1 else SetHardState s1 (readyHardState ready) = Done (s2, None)) ∧
    Append s2 (readyEntries ready) = Done (s, None).

Definition pending_ok (allocated : Z) (p : process) (pd : pendingReady) : Prop :=
  p_up p = true ∧ pd_incarnation pd = p_incarnation p ∧ pd_ref pd < allocated ∧ readyNeedsPersistence (pd_ready pd) = true ∧
  (pd_persisted pd = true → ∃ s0, written s0 (pd_ready pd) (p_storage p)).

Definition input_ok (p : process) (q : queuedInput) : Prop :=
  p_up p = true ∧ q_incarnation q = p_incarnation p ∧ (q_kind q = inputMessage → is_Some (q_message q)).

Definition application_ok (config : AdapterConfig) (p : process) : Prop :=
  match AcApplication config with
  | None => p_application p = None
  | Some _ => ∃ m, recoverApplication p = inr (Some m) ∧ (p_application p = Some m ∨ (p_application p = None ∧ p_up p = false))
  end.

(** An entry that an entry of the library stands for. *)
Definition normalized (e : Entry) : Prop := ∃ source, e = normalizeEntry source.

Record process_ok (config : AdapterConfig) (allocated : Z) (name : NodeID) (p : process) : Prop := {
  ok_name : p_name p = name;
  ok_index : 1 ≤ p_appliedIndex p ≤ max_u64;
  ok_length : p_appliedIndex p = 1 + zlen (p_applied p);
  ok_normal : Forall normalized (p_applied p);
  ok_chain : chainApplyAll [] (baseEntry :: p_applied p) = Some (p_chain p);
  ok_head : chainIndex (p_chain p) = p_appliedIndex p;
  ok_application : application_ok config p;
  ok_pending : ∀ pd, p_pending p = Some pd → pending_ok allocated p pd;
  ok_mailbox : Forall (input_ok p) (p_mailbox p) }.

(** A write or a release that is scheduled is the one its process waits for, if any waits. *)
Definition waiting_ok (ps : gmap NodeID process) (allocated x : Z) (name : NodeID) (ref : Z) (ready : Ready) (persisted : bool) : Prop :=
  ref < allocated ∧ ∀ p pd, ps !! name = Some p → p_pending p = Some pd → pd_ref pd = ref →
    pd_ready pd = ready ∧ pd_persisted pd = persisted ∧ pd_event pd = x.

Definition action_ok (ps : gmap NodeID process) (allocated x : Z) (a : Network.delivery envelope + action) : Prop :=
  match a with
  | inr (storageWritten name _ ref ready) => waiting_ok ps allocated x name ref ready false
  | inr (readyReleased name _ ref ready) => waiting_ok ps allocated x name ref ready true
  | _ => True
  end.

Section cluster.
Context {D : Type} (config : AdapterConfig).
Abbreviation Cluster := (Cluster D).

Definition events (c : Cluster) := SimInv.sp_events (SimInv.abs (c_sim c)).

Record ok (c : Cluster) : Prop := {
  ok_config : c_config c = config;
  ok_sim : SimInv.sim_wf (c_sim c);
  ok_processes : ∀ name p, c_processes c !! name = Some p → process_ok config (c_allocated c) name p;
  ok_events : ∀ x t tg a, events c !! x = Some (t, tg, Some a) → action_ok (c_processes c) (c_allocated c) x a }.

Lemma ok_ext c c' :
  c_config c' = c_config c → c_sim c' = c_sim c → c_processes c' = c_processes c → c_allocated c' = c_allocated c → ok c → ok c'.
Proof. intros H1 H2 H3 H4 []. split; unfold events in *; rewrite ?H1, ?H2, ?H3, ?H4; done. Qed.

Lemma ok_set_sim c s :
  ok c → SimInv.sim_wf s →
  (∀ x t tg a, SimInv.sp_events (SimInv.abs s) !! x = Some (t, tg, Some a) →
     events c !! x = Some (t, tg, Some a) ∨ action_ok (c_processes c) (c_allocated c) x a) →
  ok (set_c_sim c s).
Proof.
  intros [] Hs He. split; try done. intros x t tg a Hx. destruct (He x t tg a Hx) as [H|H]; [by eapply ok_events0 | done].
Qed.

(** One process changes; what it waited for it may still wait for. *)
Lemma ok_put c name p p' :
  ok c → c_processes c !! name = Some p → process_ok config (c_allocated c) name p' →
  (∀ pd, p_pending p' = Some pd → p_pending p = Some pd) →
  ok (set_c_processes c (<[name := p']> (c_processes c))).
Proof.
  intros [H1 H2 H3 H4] Hp Hp' Hpd. split; try done; simpl.
  - intros y q. destruct (decide (y = name)) as [->|Hne].
    + rewrite lookup_insert_eq. by intros [= <-].
    + rewrite lookup_insert_ne by done. apply H3.
  - intros x t tg a Hx. specialize (H4 x t tg a Hx).
    assert (∀ y ref ready b, waiting_ok (c_processes c) (c_allocated c) x y ref ready b →
      waiting_ok (<[name := p']> (c_processes c)) (c_allocated c) x y ref ready b) as Hw.
    { intros y ref ready b [Hr Hw]. split; [done |]. intros q pd. destruct (decide (y = name)) as [->|Hne].
      - rewrite lookup_insert_eq. intros [= <-] Hq. apply (Hw p); [done | by apply Hpd].
      - rewrite lookup_insert_ne by done. apply Hw. }
    destruct a as [|[]]; try done; by apply Hw.
Qed.

Lemma process_ok_mono a a' name p : a ≤ a' → process_ok config a name p → process_ok config a' name p.
Proof. intros Ha []. split; try done. intros pd Hpd. destruct (ok_pending0 pd Hpd) as (H1 & H2 & H3 & H4). refine (conj H1 (conj H2 (conj _ H4))). lia. Qed.

(** What only the scheduling of a process reads. *)
Record harmless (p p' : process) : Prop := {
  hl_name : p_name p' = p_name p; hl_storage : p_storage p' = p_storage p; hl_up : p_up p' = p_up p;
  hl_incarnation : p_incarnation p' = p_incarnation p; hl_index : p_appliedIndex p' = p_appliedIndex p;
  hl_applied : p_applied p' = p_applied p; hl_chain : p_chain p' = p_chain p;
  hl_application : p_application p' = p_application p; hl_pending : p_pending p' = p_pending p }.

Lemma harmless_refl p : harmless p p.
Proof. done. Qed.

(** The mailbox may change, as long as its inputs are current. *)
Lemma harmless_ok a name p p' :
  harmless p p' → Forall (input_ok p) (p_mailbox p') → process_ok config a name p → process_ok config a name p'.
Proof.
  intros [] Hq []. split; rewrite ?hl_name0, ?hl_index0, ?hl_applied0, ?hl_chain0, ?hl_pending0; try done.
  - unfold application_ok, recoverApplication in *. by rewrite hl_application0, hl_up0, hl_index0, hl_applied0.
  - intros pd Hpd. destruct (ok_pending0 pd Hpd) as (? & ? & ? & ?). unfold pending_ok. by rewrite hl_up0, hl_incarnation0, hl_storage0.
  - eapply Forall_impl; [exact Hq |]. intros q. unfold input_ok. by rewrite hl_up0, hl_incarnation0.
Qed.

Lemma kept_update_mailbox name f :
  (∀ p, harmless p (f p)) → (∀ p, Forall (input_ok p) (p_mailbox p) → Forall (input_ok p) (p_mailbox (f p))) → keeps ok (update name f).
Proof.
  intros Hf Hq c Hc. unfold update, the_process, mbind, M_bind, gets. simpl.
  destruct (c_processes c !! name) as [p|] eqn:Hp; simpl; [| done].
  pose proof (ok_processes _ Hc _ _ Hp) as Hok. apply (ok_put c name p); [done | done | |].
  - apply (harmless_ok _ _ p); [done | apply Hq, Hok | done].
  - by rewrite (hl_pending _ _ (Hf p)).
Qed.

Lemma kept_update name f : (∀ p, harmless p (f p)) → (∀ p, p_mailbox (f p) = p_mailbox p) → keeps ok (update name f).
Proof. intros Hf Hq. apply kept_update_mailbox; [done |]. intros p. by rewrite Hq. Qed.

Lemma kept_modify_ext f :
  (∀ c, c_config (f c) = c_config c ∧ c_sim (f c) = c_sim c ∧ c_processes (f c) = c_processes c ∧ c_allocated (f c) = c_allocated c) →
  keeps ok (modify f).
Proof. intros Hf. apply kept_modify. intros c Hc. destruct (Hf c) as (? & ? & ? & ?). by apply (ok_ext c). Qed.

Lemma kept_fail err : keeps ok (fail err).
Proof. apply kept_modify_ext. intros c. by destruct (c_err c). Qed.

Lemma kept_orFail m : keeps ok m → keeps ok (orFail m).
Proof. intros Hm. unfold orFail. keep. apply kept_fail. Qed.

(** ** The scheduler *)

Lemma kept_simCancel x : keeps ok (simCancel x).
Proof.
  intros c Hc. unfold simCancel, on_sim, mbind, M_bind. pose proof (ok_sim _ Hc) as Hs.
  destruct (wp_inv _ _ (SimInv.Cancel_ok (c_sim c) x Hs)) as ([s r] & -> & Hs' & Hsp & _). simpl.
  apply ok_set_sim; [done | done |]. intros y t tg a Hy. left.
  unfold SimInv.spec_cancel in Hsp. apply (f_equal (λ q, SimInv.sp_events q.1)) in Hsp. simpl in Hsp.
  change (SimInv.sp_events (SimInv.abs s)) with (filter (λ p, p.1 ∈ Simulator.pending s)
    (SimInv.entry_of <$> Simulator.mem s)) in Hy. rewrite <- Hsp in Hy. by apply lookup_delete_Some in Hy as [_ Hy].
Qed.

#[local] Hint Resolve kept_simCancel : etcd.

Lemma kept_cancelEvent x : keeps ok (cancelEvent x).
Proof. unfold cancelEvent. keep. Qed.

(** Scheduling an action: the event it adds, if any. *)
Lemma Schedule_view delay a c :
  SimInv.sim_wf (c_sim c) →
  wlp (Schedule delay a c) (λ r, match r with
    | Some (c', r) => ∃ s, c' = set_c_sim c s ∧ SimInv.sim_wf s ∧
      match r with
      | inl _ => SimInv.sp_events (SimInv.abs s) = events c
      | inr x => ∃ t at_, events c !! x = None ∧ SimInv.sp_events (SimInv.abs s) = <[x := (at_, t, Some (inr a))]> (events c)
      end
    | None => True
    end).
Proof.
  intros Hs. unfold Schedule, on_sim.
  pose proof (NetProps.exec_schedule_ok (c_sim c) delay None (Some (inr a)) Hs) as H.
  cbv beta iota in H. unfold mbind, M_bind. destruct (Simulator.Schedule _ _ _) as [[s r]|]; [| done].
  destruct H as (Hs' & _ & Hp). simpl. destruct r as [err|x]; simpl.
  - exists s. split_and!; [done | done |]. exact (f_equal SimInv.sp_events Hp).
  - destruct Hp as (t & Hx & _ & Hev). exists s. split_and!; [done | done |]. by exists t, (Simulator.now (c_sim c) + delay).
Qed.

(** The actions that write and release nothing. *)
Definition tame (a : action) : Prop :=
  match a with storageWritten _ _ _ _ | readyReleased _ _ _ _ => False | _ => True end.

Lemma kept_Schedule delay a : tame a → keeps ok (Schedule delay a).
Proof.
  intros Ha c Hc. pose proof (Schedule_view delay a c (ok_sim _ Hc)) as H.
  destruct (Schedule delay a c) as [[[c' r]|]|]; try done. destruct H as (s & -> & Hs & Hr).
  apply ok_set_sim; [done | done |]. intros y t tg e Hy. destruct r as [err|x]; simpl in *.
  - left. by rewrite <- Hr.
  - destruct Hr as (t' & at_ & Hx & Hev). rewrite Hev in Hy.
    apply lookup_insert_Some in Hy as [[-> Hy] | [_ Hy]]; [right | by left]. simplify_eq. by destruct a.
Qed.

(** ** Parts that only read, or change what is harmless *)

#[local] Hint Resolve kept_update kept_fail kept_orFail kept_cancelEvent kept_Schedule : etcd.
#[local] Hint Extern 1 (∀ _, harmless _ _) => intros ?; by split : etcd.
#[local] Hint Extern 1 (∀ _, p_mailbox _ = p_mailbox _) => done : etcd.
#[local] Hint Extern 1 (tame _) => exact Logic.I : etcd.

Section operations.
Context `{HD : !Decision.Decider D} (enc : EtcdEncoders) (fuel : nat).

Lemma kept_chooseDuration id kind minimum maximum context : keeps ok (chooseDuration fuel id kind minimum maximum context).
Proof. unfold chooseDuration. keep. by apply kept_modify_ext. Qed.
#[local] Hint Resolve kept_chooseDuration : etcd.

Lemma kept_isLeader (p : process) : keeps ok (isLeader p).
Proof. unfold isLeader. keep. Qed.
#[local] Hint Resolve kept_isLeader : etcd.

Lemma kept_resetElectionTimer name : keeps ok (resetElectionTimer fuel name).
Proof. unfold resetElectionTimer. keep. Qed.
Lemma kept_resetHeartbeatTimer name : keeps ok (resetHeartbeatTimer name).
Proof. unfold resetHeartbeatTimer. keep. Qed.
#[local] Hint Resolve kept_resetElectionTimer kept_resetHeartbeatTimer : etcd.
Lemma kept_syncRoleTimers name before after : keeps ok (syncRoleTimers name before after).
Proof. unfold syncRoleTimers. keep. Qed.
Lemma kept_cancelProcessEvents name : keeps ok (cancelProcessEvents name).
Proof. unfold cancelProcessEvents. keep. Qed.

Lemma kept_nameOf id : keeps ok (nameOf id).
Proof. unfold nameOf. keep. Qed.
#[local] Hint Resolve kept_nameOf kept_syncRoleTimers kept_cancelProcessEvents : etcd.
Lemma kept_durableState p : keeps ok (durableState p).
Proof. unfold durableState. keep. Qed.
Lemma kept_status p durable : keeps ok (status p durable).
Proof. unfold status. keep. Qed.
#[local] Hint Resolve kept_durableState kept_status : etcd.
Lemma kept_observeProcesses names : keeps ok (observeProcesses names).
Proof. induction names as [|name names IH]; cbn [observeProcesses]; keep. Qed.
#[local] Hint Resolve kept_observeProcesses : etcd.
Lemma kept_observe : keeps ok (observe enc).
Proof. unfold observe, observation. keep. by apply kept_modify_ext. Qed.
#[local] Hint Resolve kept_observe : etcd.

Lemma kept_raw_call name f : keeps ok (raw_call name f).
Proof. unfold raw_call. keep. Qed.
#[local] Hint Resolve kept_raw_call : etcd.
Lemma kept_takeReady name : keeps ok (takeReady name).
Proof. unfold takeReady. keep. Qed.
Lemma kept_stepRaw name input : keeps ok (stepRaw name input).
Proof. unfold stepRaw. destruct (q_kind input); keep. Qed.
Lemma kept_void name input state : keeps ok (void name input state).
Proof. unfold void. destruct (q_kind input); keep. Qed.

(** A message is sent: at most one delivery is scheduled. *)
Lemma kept_send name source : keeps ok (send fuel name source).
Proof.
  unfold send. apply kept_bind; [keep | intros names]. destruct (names !! messageTo source) as [to|]; [| keep].
  apply kept_bind; [keep | intros _]. apply kept_bind; [keep | intros p]. apply kept_bind; [keep | intros d]. cbv zeta.
  set (env := mkEnvelope _ _ _ _ _ _). intros c Hc. unfold gets, sample, modify, mbind, M_bind. simpl.
  pose proof (NetProps.Send_view fuel (c_net c) (p_name p) to env (ok_sim _ Hc)) as Hview.
  destruct (Network.Send _ _ _ _ _) as [[[w r]|]|]; simpl; try done. destruct Hview as (Hs & _ & Hev).
  assert (ok (set_c_net c w)) as Hi; [| by destruct r].
  assert (ok (set_c_sim c (Network.sim w))) as H1; [| by eapply ok_ext; [| | | | exact H1]].
  apply ok_set_sim; [done | done |]. intros x t tg e He. destruct Hev as [Hev | (y & t' & at_ & Hy & Hev)].
  - left. unfold events, c_sim. by rewrite <- Hev.
  - rewrite Hev in He. apply lookup_insert_Some in He as [[-> He] | [_ He]]; [right | by left]. by simplify_eq.
Qed.
#[local] Hint Resolve kept_takeReady kept_stepRaw kept_void kept_send : etcd.

(** ** Applying an entry *)

Definition with_applied (p : process) (application : option AppOracle.Machine) (chain : Chain) (e : Entry) : process :=
  set_p_applied (set_p_appliedIndex (set_p_chain (set_p_application p application) chain) (Index e)) (p_applied p ++ [e]).

Lemma recover_snoc p m e m' chain :
  recoverApplication p = inr (Some m) → 1 ≤ p_appliedIndex p → Index e = p_appliedIndex p + 1 → Index e ≤ max_u64 →
  applied_one (Some m) e = Some (Some m') → recoverApplication (with_applied p (Some m') chain e) = inr (Some m').
Proof using Type.
  unfold recoverApplication. cbn [with_applied p_appliedIndex p_applied set_p_applied set_p_appliedIndex set_p_chain set_p_application].
  destruct (recoverLoop (p_appliedIndex p) 1 (Some AppOracle.New) (p_applied p)) as [err|[app last]] eqn:E; [done |].
  destruct (Z.eqb_spec last (p_appliedIndex p)) as [->|]; cbn [negb]; [| done]. intros [= ->] H1 He Hmax Hm'.
  apply (recoverLoop_mono _ (Index e)) in E; [| lia].
  rewrite (recoverLoop_snoc _ _ _ _ e _ _ _ E) by (done || lia). by rewrite Z.eqb_refl.
Qed.

Lemma applied_ok a name p e chain application :
  process_ok config a name p → normalized e → Index e = p_appliedIndex p + 1 → Index e ≤ max_u64 → chainApply (p_chain p) e = Some chain →
  match AcApplication config with
  | None => application = None
  | Some _ => ∃ m m', p_application p = Some m ∧ application = Some m' ∧ applied_one (Some m) e = Some (Some m')
  end → process_ok config a name (with_applied p application chain e).
Proof using Type.
  intros [] Hnorm He Hmax Hchain Happ.
  assert (hashed (p_chain p)) as Hh by (eapply chainApplyAll_hashed; [| exact ok_chain0]; constructor).
  split; unfold with_applied; simpl; try done.
  - lia.
  - unfold zlen in *. rewrite length_app. simpl. lia.
  - apply Forall_app. by split; [| constructor].
  - change (chainApplyAll [] ((baseEntry :: p_applied p) ++ [e]) = Some chain). rewrite chainApplyAll_app, ok_chain0.
    cbn [mbind option_bind chainApplyAll]. by rewrite Hchain.
  - by apply (chainApply_hashed _ _ _ Hh Hchain).
  - unfold application_ok in *. destruct (AcApplication config) eqn:Hconf; [| done].
    destruct Happ as (m & m' & Hm & -> & Hone). destruct ok_application0 as (m0 & Hr & [Hm0|[Hm0 _]]); [| congruence].
    rewrite Hm in Hm0. injection Hm0 as <-. exists m'. split; [| by left].
    apply (recover_snoc p m e m' chain); try done; lia.
Qed.

Lemma normalizeEntry_type source : Type_ (normalizeEntry source) = EntryCommand ∨ Type_ (normalizeEntry source) = EntryNoop.
Proof using Type. unfold normalizeEntry. case_match; auto. Qed.

Lemma with_applied_end c name p application chain e :
  ok c → c_processes c !! name = Some p → process_ok config (c_allocated c) name (with_applied p application chain e) →
  ok (set_c_processes c (<[name := with_applied p application chain e]> (c_processes c))).
Proof using Type. intros Hc Hp Hok. by apply (ok_put c name p). Qed.

Lemma kept_applyEntry name source : keeps ok (applyEntry name source).
Proof using Type.
  intros c Hc. unfold applyEntry. cbv zeta. pose proof (normalizeEntry_type source) as Hty. assert (normalized (normalizeEntry source)) as Hnorm by by exists source.
  set (e := normalizeEntry source) in *. clearbody e.
  apply step_process. intros p Hp. apply step_gets. pose proof (ok_processes _ Hc _ _ Hp) as Hok. pose proof Hok as [].
  destruct (Z.leb_spec (Index e) (p_appliedIndex p)) as [|Hlt]; [done |].
  apply step_raiseIf; [done |]. rewrite negb_false_iff, Z.eqb_eq. intros He.
  assert (Index e = p_appliedIndex p + 1 ∧ Index e ≤ max_u64) as [Hidx Hmax].
  { destruct (decide (p_appliedIndex p = max_u64)) as [E|]; [rewrite E in He; change (wrap64 (max_u64 + 1)) with 0 in He; lia |].
    rewrite wrap64_small in He by (unfold is_u64; lia). lia. }
  apply step_raiseIf; [done |]. intros _. apply step_raiseIf; [done |]. rewrite (ok_config _ Hc). intros Happ.
  assert (hashed (p_chain p)) as Hh by (eapply chainApplyAll_hashed; [| exact ok_chain0]; constructor).
  destruct (chainApply_next (p_chain p) e Hh) as [chain Hchain]; [by rewrite ok_head0 |]. rewrite Hchain.
  unfold application_ok in ok_application0. destruct (p_application p) as [m|] eqn:Hm.
  - destruct (AcApplication config) eqn:Hconf; [| done].
    assert (∀ m', applied_one (Some m) e = Some (Some m') →
      process_ok config (c_allocated c) name (with_applied p (Some m') chain e)) as Hdone.
    { intros m' Hm'. apply applied_ok; try done. rewrite Hconf. by exists m, m'. }
    unfold applied_one in Hdone. destruct Hty as [Hty|Hty]; rewrite Hty in *; cbn.
    + destruct (AppOracle.ApplyEncoded (Some m) (Data e)) as [app r] eqn:Ha. pose proof (ApplyEncoded_some _ _ _ _ Ha) as [m' ->].
      apply step_bind. apply (step_update _ name _ _ c p); [done |]. destruct r as [err|b]; simpl.
      * apply ApplyEncoded_refused in Ha as [= ->]. apply (ok_put c name p); [done | done | | done].
        apply (harmless_ok _ _ p); [by split | apply Hok | done].
      * eapply last_update; [apply lookup_insert_eq |]. simpl. rewrite insert_insert_eq.
        change (ok (set_c_processes c (<[name := with_applied p (Some m') chain e]> (c_processes c)))).
        by apply with_applied_end, Hdone.
    + apply (last_update name _ c p); [done |].
      assert (with_applied p (Some m) chain e = set_p_applied (set_p_appliedIndex (set_p_chain p chain) (Index e)) (p_applied p ++ [e])) as <-
        by (destruct p; simpl in *; by subst).
      by apply with_applied_end, Hdone.
  - destruct (AcApplication config) eqn:Hconf; [by rewrite bool_decide_eq_true_2 in Happ by by eexists |].
    apply step_bind. simpl. apply (last_update name _ c p); [done |].
    assert (with_applied p None chain e = set_p_applied (set_p_appliedIndex (set_p_chain p chain) (Index e)) (p_applied p ++ [e])) as <-
      by (destruct p; simpl in *; by subst).
    apply with_applied_end; [done | done |]. apply applied_ok; try done. by rewrite Hconf.
Qed.
#[local] Hint Resolve kept_applyEntry : etcd.

Lemma kept_releaseReady name ready : keeps ok (releaseReady fuel name ready).
Proof using Type. unfold releaseReady. keep. Qed.
#[local] Hint Resolve kept_releaseReady : etcd.

(** ** Waiting for the storage *)

Definition ends {A} (r : option (Cluster * (AdapterError + A))) : Prop := match r with None => True | Some (c, _) => ok c end.

Lemma ok_allocate c : ok c → ok (set_c_allocated c (c_allocated c + 1)).
Proof using Type.
  intros []. split; try done; simpl.
  - intros name p Hp. eapply process_ok_mono; [| by apply ok_processes0]. lia.
  - intros x t tg a Hx. specialize (ok_events0 x t tg a Hx). destruct a as [|[]]; try done; destruct ok_events0; split; (lia || done).
Qed.

(** A new object that a live process waits for, with the event that writes it. *)
Lemma ok_wait c name p s x t at_ ready generation :
  ok c → c_processes c !! name = Some p → p_up p = true → readyNeedsPersistence ready = true → SimInv.sim_wf s →
  SimInv.sp_events (SimInv.abs s) =
    <[x := (at_, t, Some (inr (storageWritten name (p_incarnation p) (c_allocated c) ready)))]> (events c) →
  ok (set_c_processes (set_c_sim (set_c_allocated c (c_allocated c + 1)) s)
        (<[name := set_p_pending p (Some (mkPending (c_allocated c) ready generation (p_incarnation p) x false))]> (c_processes c))).
Proof using Type.
  intros Hc Hp Hup Hneeds Hs Hev. pose proof Hc as [H1 H2 H3 H4]. split; try done; simpl.
  - intros y q. destruct (decide (y = name)) as [->|Hne].
    + rewrite lookup_insert_eq. intros [= <-]. destruct (H3 name p Hp). split; try done.
      intros pd. simpl. intros [= <-]. split_and!; try done. simpl. lia.
    + rewrite lookup_insert_ne by done. intros Hq. eapply process_ok_mono; [| by apply H3]. lia.
  - intros y t' tg a Hy. unfold events in Hy. change (c_sim (set_c_processes _ _)) with s in Hy. rewrite Hev in Hy.
    apply lookup_insert_Some in Hy as [[<- Hy] | [Hne Hy]].
    + simplify_eq. simpl. split; [lia |]. intros q pd. rewrite lookup_insert_eq. intros [= <-] [= <-] _. done.
    + specialize (H4 y t' tg a Hy).
      assert (∀ z ref rd b, waiting_ok (c_processes c) (c_allocated c) y z ref rd b →
        waiting_ok (<[name := set_p_pending p (Some (mkPending (c_allocated c) ready generation (p_incarnation p) x false))]>
          (c_processes c)) (c_allocated c + 1) y z ref rd b) as Hw.
      { intros z ref rd b [Hr Hw]. split; [lia |]. intros q pd. destruct (decide (z = name)) as [->|Hz].
        - rewrite lookup_insert_eq. intros [= <-] [= <-]. simpl. lia.
        - rewrite lookup_insert_ne by done. apply Hw. }
      destruct a as [|[]]; try done; by apply Hw.
Qed.

(** A live process that waits for nothing. *)
Definition idle (name : NodeID) (c : Cluster) : Prop :=
  ok c ∧ ∃ p, c_processes c !! name = Some p ∧ p_up p = true ∧ p_pending p = None.

Lemma kept_update_idle name f :
  (∀ p, harmless p (f p)) → (∀ p, p_mailbox (f p) = p_mailbox p) → keeps (idle name) (update name f).
Proof using Type.
  intros Hf Hq c [Hc (p & Hp & Hup & Hpd)]. pose proof (kept_update name f Hf Hq c Hc) as H.
  unfold update, the_process, mbind, M_bind, gets in *. simpl in *. rewrite Hp in *. simpl in *. split; [exact H |].
  exists (f p). simpl. rewrite lookup_insert_eq. destruct (Hf p). split_and!; congruence.
Qed.
#[local] Hint Resolve kept_update_idle : etcd.

Lemma kept_modify_idle name f :
  (∀ c, c_config (f c) = c_config c ∧ c_sim (f c) = c_sim c ∧ c_processes (f c) = c_processes c ∧ c_allocated (f c) = c_allocated c) →
  keeps (idle name) (modify f).
Proof using Type.
  intros Hf. apply kept_modify. intros c [Hc Hp]. destruct (Hf c) as (H1 & H2 & H3 & H4). split; [by apply (ok_ext c) |].
  by rewrite H3.
Qed.

Lemma kept_idle_choose name id kind minimum maximum context :
  keeps (idle name) (chooseDuration fuel id kind minimum maximum context).
Proof using Type. unfold chooseDuration. keep. by apply kept_modify_idle. Qed.

Lemma kept_idle_takeReady name : keeps (idle name) (takeReady name).
Proof using Type. unfold takeReady. keep. Qed.

Lemma awaitStorage_ends name ready c :
  idle name c → readyNeedsPersistence ready = true → wlp (awaitStorage fuel name ready c) ends.
Proof using Type.
  intros Hc Hneeds. unfold awaitStorage.
  eapply (step_kept _ (idle name)); [keep | done | done | by intros ?? [] |]. clear c Hc. intros c _ Hc.
  apply step_process. intros p Hp. cbv zeta. apply step_gets.
  assert (idle name c ∧ c_processes c !! name = Some p) as Hcp by done. clear Hc.
  eapply (step_kept _ (λ c, idle name c ∧ c_processes c !! name = Some p)); [| done | done | by intros ?? [[]] |].
  { unfold chooseDuration. keep. apply kept_modify. intros c' [[Ho Hi] Hp']. split; [| done]. split; [by apply (ok_ext c') | done]. }
  clear c Hcp Hp. intros c delay [[Hc (q & Hq & Hup & Hpd)] Hp]. assert (q = p) as -> by congruence.
  unfold allocate. apply step_bind. unfold gets, modify, mbind, M_bind. simpl.
  set (c1 := set_c_allocated c (c_allocated c + 1)). assert (ok c1) as Hc1 by by apply ok_allocate.
  apply step_bind. eapply wlp_mono; [apply Schedule_view, Hc1 |]. intros [[c' r]|]; [| done]. intros (s & -> & Hs & Hr).
  destruct r as [err|x].
  - apply ok_set_sim; [done | done |]. intros y t tg e Hy. left. by rewrite <- Hr.
  - destruct Hr as (t & at_ & Hx & Hev). apply (last_update name _ (set_c_sim c1 s) p); [done |].
    by apply (ok_wait c name p s x t at_ ready (p_persistGen p)).
Qed.

Lemma kept_pumpLoop limit name : keeps ok (pumpLoop fuel limit name).
Proof using Type.
  induction limit as [|limit IH]; cbn [pumpLoop]; [keep |]. intros c Hc.
  apply step_process. intros p Hp. destruct (p_up p) eqn:Hup; [| done]. cbn [negb orb].
  destruct (bool_decide_reflect (is_Some (p_pending p))) as [|Hpd]; [done |].
  assert (idle name c) as Hi by (split; [done |]; exists p; split_and!; [done | done | by apply eq_None_not_Some]).
  apply step_bind. unfold the_raw. destruct (p_raw p) as [raw|]; [| done]. simpl. destruct (HasReady _ _); [| done]. cbn [negb].
  eapply (step_kept _ (idle name)); [apply kept_idle_takeReady | done | done | by intros ?? [] |].
  clear c Hc Hp Hi. intros c ready Hc. destruct (readyNeedsPersistence ready) eqn:Hneeds; [by apply awaitStorage_ends |].
  assert (keeps ok (_ ← releaseReady fuel name ready; pumpLoop fuel limit name)) as H by (keep; exact IH).
  apply (H c), Hc.
Qed.

Lemma kept_pump name : keeps ok (pump fuel name).
Proof using Type. apply kept_pumpLoop. Qed.
#[local] Hint Resolve kept_pump : etcd.

(** ** Inputs *)

Lemma enqueue_ends name input c p :
  ok c → c_processes c !! name = Some p → input_ok p input → wlp (enqueue name input c) ends.
Proof using Type.
  intros Hc Hp Hin. unfold enqueue. apply step_process. intros q Hq. assert (q = p) as -> by congruence. clear Hq. pose proof (ok_processes _ Hc _ _ Hp) as Hok.
  assert (∀ f, harmless p (f p) → p_mailbox (f p) = p_mailbox p ++ [input] → wlp (update name f c) ends) as Hdone.
  { intros f Hf Hm. apply (last_update name f c p); [done |]. apply (ok_put c name p); [done | done | | by rewrite (hl_pending _ _ Hf)].
    apply (harmless_ok _ _ p); [done | | done]. rewrite Hm. apply Forall_app. split; [apply Hok | by constructor]. }
  destruct (q_kind input); try (apply Hdone; [by split | done]).
  - destruct (p_campaignQueued p); [done |]. apply Hdone; [by split | done].
  - destruct (p_heartbeatQueued p); [done |]. apply Hdone; [by split | done].
Qed.

Lemma kept_submit name input : (q_kind input = inputMessage → is_Some (q_message input)) → keeps ok (submit fuel name input).
Proof using Type.
  intros Hq c Hc. unfold submit. apply step_process. intros p Hp. destruct (p_up p) eqn:Hup; [| done]. cbn [negb orb].
  destruct (Z.eqb_spec (q_incarnation input) (p_incarnation p)) as [Hi|]; [| done]. cbn [negb].
  destruct (bool_decide (is_Some (p_pending p))).
  { apply (enqueue_ends name input c p); [done | done |]. by split_and!. }
  revert c Hc Hp. match goal with |- ∀ c, ok c → _ → wlp (?m c) _ => assert (keeps ok m) as H; [| intros c Hc _; by apply (H c)] end.
  destruct (q_kind input); keep.
Qed.

Lemma kept_drainLoop limit name : keeps ok (drainLoop fuel limit name).
Proof using Type.
  induction limit as [|limit IH]; cbn [drainLoop]; [keep |]. intros c Hc. apply step_process. intros p Hp.
  destruct (p_up p), (p_pending p) as [pd|] eqn:Hpd, (p_mailbox p) as [|input mailbox] eqn:Hm; try done.
  pose proof (ok_processes _ Hc _ _ Hp) as Hok. pose proof (ok_mailbox _ _ _ _ Hok) as Hall. rewrite Hm in Hall.
  apply Forall_cons in Hall as [Hin Hall]. apply (step_update _ name _ _ c p); [done |].
  set (c1 := set_c_processes c _). assert (ok c1) as Hc1.
  { apply (ok_put c name p); [done | done | | done]. by apply (harmless_ok _ _ p). }
  assert (keeps ok (r ← try (submit fuel name input); match r with inl err => fail err | inr _ => drainLoop fuel limit name end)) as H.
  { apply kept_bind; [apply kept_try, kept_submit, Hin |]. intros [err|_]; [keep | exact IH]. }
  by apply (H c1).
Qed.

Lemma kept_drain name : keeps ok (drain fuel name).
Proof using Type. apply kept_bind; [keep | intros; apply kept_drainLoop]. Qed.
#[local] Hint Resolve kept_drain : etcd.

Lemma kept_receive name packet : keeps ok (receive fuel name packet).
Proof using Type.
  unfold receive. cbv zeta. apply kept_bind; [keep | intros p]. apply kept_bind; [keep | intros ids].
  do 2 (apply kept_if; [keep |]). apply kept_orFail, kept_submit. by eexists.
Qed.
#[local] Hint Resolve kept_receive : etcd.

Lemma kept_runDelivery d : keeps ok (runDelivery fuel d).
Proof using Type.
  unfold runDelivery. intros c Hc. apply step_gets.
  destruct (Network.arrive (c_net c) d) as [net handler] eqn:E.
  assert (Network.sim net = Network.sim (c_net c)) as Hsim.
  { revert E. unfold Network.arrive. destruct (negb _); [by intros [= <- <-] |]. destruct (_ !! _); by intros [= <- <-]. }
  assert (keeps ok (match handler with Some name => receive fuel name (Network.dl_packet d) | None => mret tt end)) as H by keep.
  apply step_bind. simpl. apply (H (set_c_net c net)). by apply (ok_ext c).
Qed.
#[local] Hint Resolve kept_runDelivery : etcd.
End operations.
End cluster.
End invariant.

#[export] Hint Resolve kept_simCancel kept_update kept_fail kept_orFail kept_cancelEvent kept_Schedule kept_chooseDuration
  kept_isLeader kept_resetElectionTimer kept_resetHeartbeatTimer kept_nameOf kept_syncRoleTimers kept_cancelProcessEvents
  kept_durableState kept_status kept_observe kept_raw_call kept_takeReady kept_stepRaw kept_void kept_send
  kept_applyEntry kept_releaseReady kept_pump kept_drain kept_receive kept_runDelivery : etcd.
#[export] Hint Extern 1 (∀ _, harmless _ _) => intros ?; by split : etcd.
#[export] Hint Extern 1 (∀ _, p_mailbox _ = p_mailbox _) => done : etcd.
#[export] Hint Extern 1 (tame _) => exact Logic.I : etcd.
