(* ===== verification/EtcdProps.v ===== *)
(** * The etcd/raft adapter: its operations keep the invariant, and the theorems
    (adapters/etcdraft)

    A cluster is built and driven by any sequence of steps, runs of its scheduler, actions
    and scheduled actions; an operation that fails may have changed it, and the sequence
    goes on.  The theorems hold of every cluster that is so reached, for any library. *)

From S2P Require Import Prelude RaftTypes Membership Outcome Scenario.
From S2P Require Export EtcdExecute EtcdInv.
From S2P Require Node Simulator SimInv SimProps Network NetProps Decision Check AppOracle Rand ClusterState Experiment Digest.
From Stdlib Require Import QArith.QArith.
From stdpp Require Import options.

#[global] Open Scope Z_scope.

Section operations.
Context `{HL : !Library} {D : Type} (config : AdapterConfig) `{HD : !Decision.Decider D} (enc : EtcdEncoders) (fuel : nat).
Abbreviation Cluster := (Cluster D).
Abbreviation ok := (ok (D := D) config).

(** ** Booting and crashing *)

(** The application is the recovered one, and there is one if the configuration has one. *)
Definition recovered (p : process) : Prop :=
  match AcApplication config with
  | None => p_application p = None
  | Some _ => ∃ m, recoverApplication p = inr (Some m) ∧ p_application p = Some m
  end.

Lemma recovered_ok a name p p' :
  process_ok config a name p → harmless (set_p_up (set_p_application p (p_application p')) (p_up p')) p' →
  (p_up p = true → p_up p' = true) → p_mailbox p' = p_mailbox p → recovered p' → process_ok config a name p'.
Proof using Type.
  intros [] [] Hup Hm Happ. simpl in *. split; rewrite ?hl_name, ?hl_index, ?hl_applied, ?hl_chain, ?hl_pending; try done.
  - unfold recovered, application_ok in *. destruct (AcApplication config); [| done]. destruct Happ as (m & H1 & H2). exists m. auto.
  - intros pd Hpd. destruct (ok_pending pd Hpd) as (H1 & H2 & H3). unfold pending_ok. rewrite hl_incarnation, hl_storage. auto.
  - rewrite Hm. eapply Forall_impl; [exact ok_mailbox |]. intros q (H1 & H2 & H3). unfold input_ok. rewrite hl_incarnation. auto.
Qed.

Lemma recovered_put c name p p' :
  ok c → c_processes c !! name = Some p → harmless (set_p_up (set_p_application p (p_application p')) (p_up p')) p' →
  (p_up p = true → p_up p' = true) → p_mailbox p' = p_mailbox p → recovered p' →
  ok (set_c_processes c (<[name := p']> (c_processes c))).
Proof using Type.
  intros Hc Hp Hh Hup Hm Hr. apply (ok_put config c name p); [done | done | |].
  - apply (recovered_ok _ _ p); try done. by apply Hc.
  - by rewrite (hl_pending _ _ Hh).
Qed.

Lemma boot_tail name p c rc s :
  ok c → c_processes c !! name = Some p → recovered p →
  wlp ((created ← lift (NewRawNode rc s); raw ← check ErrLibrary created; update name (λ p, set_p_up (set_p_raw p (Some raw)) true)) c)
    (ends config).
Proof using Type.
  intros Hc Hp Hr. apply step_lift. intros [err|raw] _; [done |]. apply (last_update name _ c p); [done |].
  by apply (recovered_put c name p).
Qed.

Lemma kept_boot name : keeps ok (boot name).
Proof using Type.
  intros c Hc. unfold boot. apply step_process. intros p Hp. apply step_gets. rewrite (ok_config _ _ Hc).
  pose proof (ok_application _ _ _ _ (ok_processes _ _ Hc _ _ Hp)) as Happ. unfold application_ok in Happ.
  destruct (AcApplication config) as [app|] eqn:Hconf.
  - destruct Happ as (m & Hm & _). apply step_bind. rewrite Hm. apply step_bind. simpl. apply (last_update name _ c p); [done |].
    assert (recovered (set_p_application p (Some m))) as Hr by (unfold recovered; rewrite Hconf; by exists m).
    apply boot_tail with (set_p_application p (Some m)); [by apply (recovered_put c name p) | apply lookup_insert_eq | done].
  - apply step_bind. simpl. apply boot_tail with p; [done | done |]. unfold recovered. by rewrite Hconf.
Qed.
#[local] Hint Resolve kept_boot : etcd.

Lemma downed_ok a name p p' :
  process_ok config a name p → p_name p' = p_name p → p_appliedIndex p' = p_appliedIndex p → p_applied p' = p_applied p →
  p_chain p' = p_chain p → p_application p' = None → p_up p' = false → p_pending p' = None → p_mailbox p' = [] →
  process_ok config a name p'.
Proof using Type.
  intros [] Hn Hi Ha Hch Happ Hup Hpd Hm. split; rewrite ?Hn, ?Hi, ?Ha, ?Hch, ?Hpd, ?Hm; try done.
  unfold application_ok, recoverApplication in *. rewrite Hi, Ha. destruct (AcApplication config); [| done].
  destruct ok_application as (m & Hr & _). exists m. auto.
Qed.

Lemma kept_Crash name : keeps ok (Crash enc name).
Proof using Type.
  unfold Crash. do 2 (apply kept_bind; [keep | intros ?]). apply kept_bind; [| keep].
  intros c Hc. unfold update. apply step_process. intros p Hp. unfold put_process, modify. simpl.
  apply (ok_put config c name p); [done | done | | done]. by apply (downed_ok _ _ p); [apply Hc | ..].
Qed.

Lemma kept_Restart name : keeps ok (Restart enc fuel name).
Proof using Type. unfold Restart. keep. Qed.

Lemma kept_CrashAfterNextPersist name : keeps ok (CrashAfterNextPersist name).
Proof using Type. unfold CrashAfterNextPersist. keep. Qed.
#[local] Hint Resolve kept_Crash kept_Restart kept_CrashAfterNextPersist : etcd.

(** ** Timers *)

Lemma kept_timerCurrent name incarnation generation gen wanted : keeps ok (timerCurrent name incarnation generation gen wanted).
Proof using Type. unfold timerCurrent. keep. Qed.
#[local] Hint Resolve kept_timerCurrent : etcd.

Lemma kept_onElectionTimer name incarnation generation : keeps ok (onElectionTimer fuel name incarnation generation).
Proof using Type.
  unfold onElectionTimer. apply kept_bind; [keep | intros []; cbn [negb]]; [| keep]. apply kept_bind; [keep | intros _].
  by apply kept_orFail, kept_submit.
Qed.

Lemma kept_onHeartbeatTimer name incarnation generation : keeps ok (onHeartbeatTimer fuel name incarnation generation).
Proof using Type.
  unfold onHeartbeatTimer. apply kept_bind; [keep | intros []; cbn [negb]]; [| keep]. apply kept_bind; [keep | intros _].
  by apply kept_orFail, kept_submit.
Qed.

(** ** The write of a ready *)

(** What a fired event knows: it is no longer scheduled. *)
Definition fired (x : Z) (name : NodeID) (ref : Z) (ready : Ready) (b : bool) (c : Cluster) : Prop :=
  ok c ∧ waiting_ok (c_processes c) (c_allocated c) x name ref ready b ∧ events c !! x = None.

(** Nothing that is scheduled writes or releases an object of a process. *)
Definition unscheduled (c : Cluster) (name : NodeID) (ref : Z) : Prop :=
  ∀ y t tg a, events c !! y = Some (t, tg, Some a) →
    match a with inr (storageWritten n _ r _) | inr (readyReleased n _ r _) => n = name → r ≠ ref | _ => True end.

Lemma fired_unscheduled x name ref ready b c p pd :
  fired x name ref ready b c → c_processes c !! name = Some p → p_pending p = Some pd → pd_ref pd = ref → unscheduled c name ref.
Proof using Type.
  intros (Hc & [_ Hw] & Hx) Hp Hpd Href y t tg a Hy. destruct (Hw p pd Hp Hpd Href) as (_ & _ & He).
  pose proof (ok_events _ _ Hc y t tg a Hy) as Ha.
  assert (y ≠ x) as Hne by (intros ->; by rewrite Hx in Hy).
  destruct a as [|[]]; try done; intros -> ->; destruct Ha as [_ Ha]; destruct (Ha p pd Hp Hpd Href) as (_ & _ & ?); congruence.
Qed.

(** A process that changes what it waits for, when nothing scheduled concerns that. *)
Lemma ok_put_unscheduled c name p' :
  ok c → process_ok config (c_allocated c) name p' →
  (∀ pd, p_pending p' = Some pd → unscheduled c name (pd_ref pd)) →
  ok (set_c_processes c (<[name := p']> (c_processes c))).
Proof using Type.
  intros [H1 H2 H3 H4] Hp' Hpd. split; try done; simpl.
  - intros y q. destruct (decide (y = name)) as [->|Hne].
    + rewrite lookup_insert_eq. by intros [= <-].
    + rewrite lookup_insert_ne by done. apply H3.
  - intros x t tg a Hx. specialize (H4 x t tg a Hx).
    assert (∀ pd, p_pending p' = Some pd → _) as Hu by exact (λ pd H, Hpd pd H x t tg a Hx).
    assert (∀ y ref ready b, (∀ pd, p_pending p' = Some pd → y = name → ref ≠ pd_ref pd) →
      waiting_ok (c_processes c) (c_allocated c) x y ref ready b →
      waiting_ok (<[name := p']> (c_processes c)) (c_allocated c) x y ref ready b) as Hw.
    { intros y ref ready b Hne [Hr Hw]. split; [done |]. intros q pd. destruct (decide (y = name)) as [->|Hy].
      - rewrite lookup_insert_eq. intros [= <-] Hq <-. by destruct (Hne pd Hq eq_refl).
      - rewrite lookup_insert_ne by done. apply Hw. }
    destruct a as [|[]]; try done; by apply Hw.
Qed.

Lemma stored_ok a name p s :
  (∀ pd, p_pending p = Some pd → pd_persisted pd = false) → process_ok config a name p → process_ok config a name (set_p_storage p s).
Proof using Type.
  intros Hf []. split; try done. intros pd Hpd. destruct (ok_pending pd Hpd) as (H1 & H2 & H3 & H4 & _).
  split_and!; try done. by rewrite (Hf pd Hpd).
Qed.

Lemma step_storage {B} (Q : option (Cluster * (AdapterError + B)) → Prop) name f (k : unit → M D B) c p :
  c_processes c !! name = Some p →
  (∀ s err, f (p_storage p) = Done (s, err) →
     let c' := set_c_processes c (<[name := set_p_storage p s]> (c_processes c)) in
     match err with Some err => Q (Some (c', inl (ErrLibrary err))) | None => wlp (k tt c') Q end) →
  wlp ((storage_call name f ≫= k) c) Q.
Proof using Type.
  intros Hp H. apply step_bind. unfold storage_call. apply step_process. intros q Hq. assert (q = p) as -> by congruence.
  apply step_lift. intros [s err] Hf. apply (step_update _ name _ _ c p); [done |]. specialize (H s err Hf). simpl in H.
  unfold refuse. by destruct err.
Qed.

(** What a storage was changed to, on the way of a write. *)
Definition rewritten (name : NodeID) (p : process) (s : MemoryStorage) (c : Cluster) : Cluster :=
  set_c_processes c (<[name := set_p_storage p s]> (c_processes c)).

Lemma rewritten_call {B} (Q : option (Cluster * (AdapterError + B)) → Prop) name p s c f (k : unit → M D B) :
  (∀ s' err, f s = Done (s', err) →
     match err with Some err => Q (Some (rewritten name p s' c, inl (ErrLibrary err))) | None => wlp (k tt (rewritten name p s' c)) Q end) →
  wlp ((storage_call name f ≫= k) (rewritten name p s c)) Q.
Proof using Type.
  intros H. apply (step_storage Q name f k _ (set_p_storage p s)); [apply lookup_insert_eq |]. intros s' err Hf. specialize (H s' err Hf).
  cbv zeta. unfold rewritten in *. simpl in *. by rewrite insert_insert_eq.
Qed.

Lemma rewritten_maybe {B} (Q : option (Cluster * (AdapterError + B)) → Prop) (b : bool) name p s c f (k : unit → M D B) :
  (∀ s' err, f s = Done (s', Some err) → Q (Some (rewritten name p s' c, inl (ErrLibrary err)))) →
  (∀ s', (if b then s' = s else f s = Done (s', None)) → wlp (k tt (rewritten name p s' c)) Q) →
  wlp (((if b then mret tt else storage_call name f) ≫= k) (rewritten name p s c)) Q.
Proof using Type.
  intros H1 H2. destruct b.
  - apply step_bind. simpl. by apply H2.
  - apply rewritten_call. intros s' [err|] Hf; auto.
Qed.

Lemma persistReady_ends name ready c p :
  c_processes c !! name = Some p →
  wlp (persistReady name ready c) (λ r, match r with
    | None => True
    | Some (c', r) => ∃ s, c' = rewritten name p s c ∧ (r = inr tt → written (p_storage p) ready s)
    end).
Proof using Type.
  intros Hp. assert (c = rewritten name p (p_storage p) c) as Hc.
  { unfold rewritten. destruct c; simpl in *. rewrite insert_id; [done |]. rewrite Hp. by destruct p. }
  rewrite Hc at 1. unfold persistReady. apply step_raiseIf; [by exists (p_storage p) |]. intros _.
  apply rewritten_maybe; [intros s err _; by exists s |]. intros s1 H1.
  apply rewritten_maybe; [intros s err _; by exists s |]. intros s2 H2.
  match goal with |- wlp (?m ?x) ?Q => assert (wlp ((m ≫= λ u, mret u) x) Q) as H end.
  - apply rewritten_call. intros s [err|] H3; [by exists s |]. exists s. split; [done |]. intros _. by exists s1, s2.
  - revert H. unfold mbind, M_bind. destruct (storage_call _ _ _) as [[[c' [err|[]]]|]|]; done.
Qed.

(** The process waits for the object that the callback captured. *)
Lemma waitsFor_true p incarnation ref :
  waitsFor p incarnation ref = true → ∃ pd, p_pending p = Some pd ∧ pd_ref pd = ref ∧ p_up p = true ∧ p_incarnation p = incarnation.
Proof using Type.
  unfold waitsFor. rewrite !andb_true_iff, Z.eqb_eq. intros [[Hup Hi] Hr]. destruct (p_pending p) as [pd|]; [| done].
  apply Z.eqb_eq in Hr. by exists pd.
Qed.

(** The release of a written ready is scheduled. *)
Lemma ok_released c name p pd s x t at_ :
  ok c → c_processes c !! name = Some p → p_pending p = Some pd → pd_persisted pd = true → unscheduled c name (pd_ref pd) →
  SimInv.sim_wf s →
  SimInv.sp_events (SimInv.abs s) =
    <[x := (at_, t, Some (inr (readyReleased name (p_incarnation p) (pd_ref pd) (pd_ready pd))))]> (events c) →
  ok (set_c_processes (set_c_sim c s) (<[name := set_p_pending p (Some (set_pd_event pd x))]> (c_processes c))).
Proof using Type.
  intros Hc Hp Hpd Hper Hu Hs Hev. pose proof (ok_processes _ _ Hc _ _ Hp) as Hok. pose proof (ok_pending _ _ _ _ Hok pd Hpd) as Hpok.
  assert (process_ok config (c_allocated c) name (set_p_pending p (Some (set_pd_event pd x)))) as Hok'.
  { destruct Hok. split; try done. intros pd' [= <-]. done. }
  assert (ok (set_c_processes c (<[name := set_p_pending p (Some (set_pd_event pd x))]> (c_processes c)))) as [H1 H2 H3 H4].
  { apply (ok_put_unscheduled c name); [done | done |]. by intros pd' [= <-]. }
  split; try done. intros y t' tg a Hy. unfold events in Hy. change (c_sim (set_c_processes _ _)) with s in Hy. rewrite Hev in Hy.
  apply lookup_insert_Some in Hy as [[<- [= <- <- <-]] | [Hne Hy]]; [| by apply (H4 y t' tg)].
  split; [by apply Hpok |]. intros q pd'. simpl. rewrite lookup_insert_eq. by intros [= <-] [= <-] _.
Qed.

Lemma kept_acknowledge name incarnation ref ready c p pd :
  ok c → c_processes c !! name = Some p → p_pending p = Some pd → pd_persisted pd = true → pd_ref pd = ref → pd_ready pd = ready →
  p_incarnation p = incarnation → unscheduled c name ref →
  wlp (orFail (ack ← Schedule 0 (readyReleased name incarnation ref ready);
               update name (λ p, set_p_pending p ((λ pending, set_pd_event pending ack) <$> p_pending p))) c) (ends config).
Proof using Type.
  intros Hc Hp Hpd Hper <- <- <- Hu. unfold orFail. apply step_bind. unfold try. apply wlp_bind.
  match goal with |- wlp (?m c) _ => assert (wlp (m c) (ends config)) as H end.
  - apply step_bind. eapply wlp_mono; [apply Schedule_view, Hc |]. intros [[c' r]|]; [| done]. intros (s & -> & Hs & Hr).
    destruct r as [err|x].
    + apply ok_set_sim; [done | done |]. intros y t tg a Hy. left. by rewrite <- Hr.
    + destruct Hr as (t & at_ & _ & Hev). apply (last_update name _ _ p); [done |]. rewrite Hpd. by apply (ok_released c name p pd s x t at_).
  - eapply wlp_mono; [exact H |]. intros [[c' [err|[]]]|] Hc'; simpl; [by apply (kept_fail config err c') | done | done].
Qed.

Lemma persisted_ok a name p pd s :
  process_ok config a name p → p_pending p = Some pd → written (p_storage p) (pd_ready pd) s →
  process_ok config a name (set_p_pending (set_p_storage p s) (Some (set_persisted pd))).
Proof using Type.
  intros [] Hpd Hw. split; try done. intros pd' [= <-]. destruct (ok_pending pd Hpd) as (H1 & H2 & H3 & H4 & _).
  split_and!; try done. intros _. by exists (p_storage p).
Qed.

Lemma onStorageWritten_ends x name incarnation ref ready c :
  fired x name ref ready false c → wlp (onStorageWritten enc name incarnation ref ready c) (ends config).
Proof using Type.
  intros Hf. pose proof Hf as (Hc & [_ Hw] & _). unfold onStorageWritten. apply step_process. intros p Hp.
  destruct (waitsFor p incarnation ref) eqn:Hwait; [| done]. cbn [negb].
  apply waitsFor_true in Hwait as (pd & Hpd & Href & Hup & Hinc). destruct (Hw p pd Hp Hpd Href) as (Hready & Hper & _).
  pose proof (fired_unscheduled _ _ _ _ _ _ _ _ Hf Hp Hpd Href) as Hu. pose proof (ok_processes _ _ Hc _ _ Hp) as Hok.
  assert (∀ s, ok (rewritten name p s c)) as Hstored.
  { intros s. apply (ok_put config c name p); [done | done | | done]. apply stored_ok; [| done]. intros pd' Hpd'. congruence. }
  apply step_bind. unfold try. apply wlp_bind. eapply wlp_mono; [by apply persistReady_ends |]. intros [[c' r]|]; [| done].
  intros (s & -> & Hr). simpl. destruct r as [err|[]]; [by apply (kept_fail config err) |]. specialize (Hr eq_refl).
  apply (step_update _ name _ _ _ (set_p_storage p s)); [apply lookup_insert_eq |]. simpl. rewrite Hpd, insert_insert_eq. cbn [fmap option_fmap option_map].
  set (p2 := set_p_pending (set_p_storage p s) (Some (set_persisted pd))). set (c2 := set_c_processes _ _).
  assert (ok c2) as Hc2.
  { apply (ok_put_unscheduled c name); [done | |]; [subst ready; by apply persisted_ok |]. intros pd' [= <-]. by subst ref. }
  apply step_process. intros q Hq. unfold c2 in Hq. simpl in Hq. rewrite lookup_insert_eq in Hq. injection Hq as <-.
  destruct (p_crashAfterWrite p2).
  - revert c2 Hc2. intros c2 Hc2. clearbody c2. revert c2 Hc2. keep.
  - apply (kept_acknowledge name incarnation ref ready c2 p2 (set_persisted pd)); try done. apply lookup_insert_eq.
Qed.

Lemma kept_onReadyReleased name incarnation ref ready : keeps ok (onReadyReleased fuel name incarnation ref ready).
Proof using Type.
  unfold onReadyReleased. apply kept_bind; [keep | intros p]. apply kept_if; [keep |].
  apply kept_bind; [keep | intros []]; [keep |]. apply kept_bind; [| keep].
  intros c Hc. unfold update. apply step_process. clear p. intros p Hp. unfold put_process, modify. simpl.
  apply (ok_put config c name p); [done | done | | done]. by destruct (ok_processes _ _ Hc _ _ Hp).
Qed.
#[local] Hint Resolve kept_onElectionTimer kept_onHeartbeatTimer kept_onReadyReleased : etcd.

(** ** Running *)

Section running.
Context {X : Type} (callback : nat → X → M D X) (Hcallback : ∀ n x, keeps ok (callback n x)).

Lemma simulatorStep_keeps x : keeps ok (simulatorStep enc fuel callback x).
Proof using Hcallback.
  intros c Hc. unfold simulatorStep. apply step_gets. apply step_lift. intros next Hnext.
  destruct (SimInv.takeNext_ok (c_sim c) (ok_sim _ _ Hc)) as [(_ & _ & E) | (y & at_ & [tg a] & s & Hn & Hs & Habs & _ & _ & E)];
    rewrite E in Hnext; injection Hnext as <-; [done |]. simpl in *. destruct Hn as [Hy _].
  assert (SimInv.sp_events (SimInv.abs s) = delete y (events c)) as Hev by by rewrite Habs.
  assert (ok (set_c_sim c s)) as Hc1.
  { apply ok_set_sim; [done | done |]. intros z t' tg' a'. rewrite Hev. intros [_ Hz]%lookup_delete_Some. by left. }
  assert (events (set_c_sim c s) !! y = None) as Hno.
  { change (SimInv.sp_events (SimInv.abs s) !! y = None). rewrite Hev. apply lookup_delete_eq. }
  pose proof (ok_events _ _ Hc y _ _ _ Hy) as Ha. apply step_bind. simpl.
  set (c1 := set_c_sim c s) in *.
  assert (wlp ((match a with inl d => _ ← runDelivery fuel d; mret x | inr a => runAction enc fuel callback a x end) c1) (ends config)) as H.
  { destruct a as [d | [n i g | n i g | n i r rd | n i r rd | n]]; cbn [runAction].
    - assert (keeps ok (_ ← runDelivery fuel d; mret x)) as H by keep. by apply (H c1).
    - assert (keeps ok (_ ← onElectionTimer fuel n i g; mret x)) as H by keep. by apply (H c1).
    - assert (keeps ok (_ ← onHeartbeatTimer fuel n i g; mret x)) as H by keep. by apply (H c1).
    - apply step_bind. eapply wlp_mono; [by apply (onStorageWritten_ends y) |]. by intros [[? []]|].
    - assert (keeps ok (_ ← onReadyReleased fuel n i r rd; mret x)) as H by keep. by apply (H c1).
    - by apply Hcallback. }
  apply step_bind. eapply wlp_mono; [exact H |]. by intros [[c' [err|x']]|].
Qed.

Lemma Step_keeps x : keeps ok (Step enc fuel callback x).
Proof using Hcallback.
  unfold Step. apply kept_bind; [keep | intros [err|]]; [keep |]. apply kept_bind; [apply simulatorStep_keeps |].
  intros [x' ran]. keep.
Qed.

Lemma runUntilLoop_keeps n end_ x : keeps ok (runUntilLoop enc fuel callback n end_ x).
Proof using Hcallback.
  revert x. induction n as [|n IH]; intros x; cbn [runUntilLoop]; [keep |].
  apply kept_bind; [keep | intros s]. apply kept_bind; [keep | intros [next ex]]. apply kept_if; [| keep].
  apply kept_bind; [apply simulatorStep_keeps | intros [x' ran]; apply IH].
Qed.
End running.

Lemma SimulatorRunUntil_keeps {X} (callback : nat → X → M D X) n end_ x :
  (∀ n x, keeps ok (callback n x)) → end_ ≤ max_i64 → keeps ok (SimulatorRunUntil enc fuel callback n end_ x).
Proof using Type.
  intros Hcallback Hend c Hc. unfold SimulatorRunUntil. apply step_gets. destruct (Z.ltb_spec end_ 0) as [|H0]; [done |].
  destruct (end_ <? c_now c); [done |].
  assert (wlp (runUntilLoop enc fuel callback n end_ x c) (λ r, match r with
    | Some (c', r) => ok c' ∧ match r with inr (Some _) => ∀ y e, events c' !! y = Some e → end_ < e.1.1 | _ => True end
    | None => True
    end)) as H.
  - revert x c Hc. induction n as [|n IH]; intros x c Hc; cbn [runUntilLoop]; [done |]. apply step_gets. apply step_lift.
    intros [next ex] Hnext. destruct (SimProps.NextEventTime_ok (c_sim c) (ok_sim _ _ Hc)) as (t & Ht & Hmin & Hsome).
    rewrite Ht in Hnext. injection Hnext as <- <-.
    destruct (Nat.eqb_spec (length (Simulator.queue (c_sim c))) 0) as [Hl|Hl]; cbn [negb andb].
    + split; [done |]. intros y e Hy. exfalso.
      destruct (SimInv.takeNext_ok (c_sim c) (ok_sim _ _ Hc)) as [(_ & He & _) | (? & ? & ? & ? & _ & _ & _ & _ & Hq & _)];
        [unfold events in Hy; rewrite He in Hy; by apply lookup_empty_Some in Hy | rewrite Hl in Hq; done].
    + destruct (Z.leb_spec t end_); [| split; [done |]; intros y e Hy%Hmin; lia].
      apply step_bind. eapply wlp_mono; [by apply simulatorStep_keeps |]. intros [[c' [err|[x' ran]]]|]; [done | | done].
      intros Hc'. by apply IH.
  - apply step_bind. eapply wlp_mono; [exact H |]. clear c Hc H. intros [[c [err|[x'|]]]|] Hc; try apply Hc. destruct Hc as [Hc Hlater].
    apply step_bind. simpl. apply ok_set_sim; [done | |].
    + destruct (negb _); [apply SimProps.clock_set; [apply Hc | lia | exact Hlater] | apply Hc].
    + intros y t tg a Hy. left. destruct (negb _); [| done].
      destruct (SimProps.clock_set (c_sim c) end_ (ok_sim _ _ Hc) ltac:(lia) Hlater) as (_ & _ & E).
      unfold events. by rewrite <- E.
Qed.

(** ** Actions *)

Lemma kept_leaderLoop found members : keeps ok (leaderLoop (D := D) found members).
Proof using Type.
  revert found. induction members as [|name members IH]; intros found; cbn [leaderLoop]; [keep |].
  apply kept_bind; [keep | intros p]. apply kept_if; [apply IH |]. apply kept_bind; [keep | intros leads].
  apply kept_if; [apply IH |]. apply kept_if; [keep | apply IH].
Qed.

Lemma kept_Leader : keeps ok (Leader_ (D := D)).
Proof using Type. unfold Leader_. apply kept_bind; [keep | intros; apply kept_leaderLoop]. Qed.
#[local] Hint Resolve kept_Leader : etcd.

Lemma kept_ProposeTo name data : keeps ok (ProposeTo fuel name data).
Proof using Type.
  unfold ProposeTo. do 6 (apply kept_bind; [keep | intros ?]). by apply kept_submit.
Qed.

Lemma kept_Propose data : keeps ok (Propose fuel data).
Proof using Type. unfold Propose. apply kept_bind; [keep | intros [name|]]; [apply kept_ProposeTo | keep]. Qed.

Lemma set_partition_keeps m : keeps ok (modify (λ c : Cluster, set_c_net c (Network.SetPartition (c_net c) m))).
Proof using Type. by apply kept_modify_ext. Qed.

Lemma kept_Partition groups : keeps ok (Partition (D := D) groups).
Proof using Type. unfold Partition. apply kept_bind; [keep | intros; apply set_partition_keeps]. Qed.

Lemma kept_call (m : M D unit) : keeps ok m → keeps ok (call m).
Proof using Type. intros Hm. unfold call. apply kept_bind; [by apply kept_try | keep]. Qed.

Lemma kept_applyAction action : keeps ok (applyAction enc fuel action).
Proof using Type.
  unfold applyAction. cbv zeta. repeat (apply kept_if; [| ]); try apply kept_call; try apply kept_ret; try apply kept_if.
  all: first [apply kept_Propose | apply kept_ProposeTo | apply kept_Crash | apply kept_Restart
    | apply kept_CrashAfterNextPersist | apply kept_Partition | apply set_partition_keeps].
Qed.

Lemma kept_actionCallback actions n x : keeps ok (actionCallback enc fuel actions n x).
Proof using Type.
  unfold actionCallback. destruct (actions !! n); [| keep]. destruct x; [keep | apply kept_applyAction].
Qed.

Lemma kept_after at_ n :
  at_ ≤ max_i64 → keeps ok (r ← on_sim (λ s, Simulator.ScheduleAt s at_ (Some (inr (userCallback n)))); check (D := D) ErrSim r).
Proof using Type.
  intros Hat c Hc. apply step_bind. unfold on_sim, Simulator.ScheduleAt.
  pose proof (SimInv.scheduleAt_ok (c_sim c) at_ Simulator.emptyTag (Some (inr (userCallback n))) (ok_sim _ _ Hc) Hat (or_introl eq_refl)) as H.
  destruct (Simulator.scheduleAt _ _ _ _) as [[s r]|]; [| done]. simpl in H. destruct H as (Hs & Hsp & _). simpl.
  assert (ok (set_c_sim c s)) as Hc'; [| by destruct r].
  apply NetProps.spec_schedule_placed in Hsp; [| apply Hc | done].
  apply ok_set_sim; [done | done |]. intros y t tg a Hy. unfold events. unfold NetProps.placed in Hsp. destruct r as [err|x].
  - left. by rewrite Hsp in Hy.
  - destruct Hsp as (t' & _ & _ & Hev). rewrite Hev in Hy. apply lookup_insert_Some in Hy as [[_ Hy]|[_ Hy]]; [| by left].
    right. by simplify_eq.
Qed.

(** ** Construction *)

(** A process that waits for nothing. *)
Definition quiet (name : NodeID) (c : Cluster) : Prop :=
  ok c ∧ ∃ p, c_processes c !! name = Some p ∧ p_pending p = None.

Lemma kept_quiet_storage name f : keeps (quiet name) (storage_call name f).
Proof using Type.
  intros c [Hc (p & Hp & Hpd)]. unfold storage_call. apply step_process. intros q Hq. assert (q = p) as -> by congruence.
  apply step_lift. intros [s err] _. apply (step_update _ name _ _ c p); [done |].
  assert (quiet name (rewritten name p s c)) as H.
  { split; [| exists (set_p_storage p s); split; [apply lookup_insert_eq | done]].
    apply (ok_put config c name p); [done | done | | done]. apply stored_ok; [congruence |]. by apply Hc. }
  unfold refuse. by destruct err.
Qed.

Lemma kept_newProcess name : keeps ok (newProcess name).
Proof using Type.
  unfold newProcess. apply kept_bind; [keep | intros members]. apply kept_bind; [keep | intros ids].
  intros c Hc. apply step_gets. rewrite (ok_config _ _ Hc). cbv zeta.
  destruct (chainApply [] baseEntry) as [chain|] eqn:Hchain; [| done].
  assert (chainApplyAll [] [baseEntry] = Some chain) as Hall by (cbn [chainApplyAll]; by rewrite Hchain).
  pose proof (chainApply_hashed [] baseEntry chain (Forall_nil_2 _) Hchain) as [_ Hidx].
  unfold put_process. apply step_bind. unfold modify. set (p := mkProcess _ _ _ _ _ _ _ _ _ _ _ _ _ _ _ _ _ _ _ _ _). set (c1 := set_c_processes c _).
  assert (ok c1) as Hc1.
  { apply (ok_put_unscheduled c name); [done | | done]. split; try done. unfold application_ok. simpl.
    destruct (AcApplication config); [| done]. exists AppOracle.New. split; [reflexivity | by left]. }
  assert (quiet name c1) as Hq by (split; [done |]; exists p; split; [apply lookup_insert_eq | done]).
  clearbody c1. clear c Hc Hc1. eapply (step_kept _ (quiet name)); [| done | done | by intros ?? [] |].
  { unfold initStorage. apply kept_bind; [| intros _]; apply kept_quiet_storage. }
  clear c1 Hq. intros c _ [Hc _]. by apply (kept_boot name c).
Qed.

Lemma kept_register name : keeps ok (register (D := D) name).
Proof using Type.
  intros c Hc. unfold register. apply step_gets. destruct (Network.Register _ _ _) as [net err] eqn:E.
  assert (Network.sim net = Network.sim (c_net c)) as Hsim.
  { revert E. unfold Network.Register. destruct (String.eqb name ""); [by intros [= <- <-] |]. destruct (_ !! _); by intros [= <- <-]. }
  apply step_bind. assert (ok (set_c_net c net)) as H by by apply (ok_ext config c). simpl. unfold refuse. by destruct err.
Qed.

Lemma kept_construct : keeps ok (construct enc fuel).
Proof using Type.
  unfold construct. apply kept_bind; [keep | intros members].
  apply kept_bind; [| intros _; keep]. apply kept_each. intros name.
  apply kept_bind; [apply kept_newProcess | intros; apply kept_register].
Qed.
End operations.

(** ** Runs

    Any sequence of steps of the cluster, runs of its scheduler, actions of a scenario and
    actions that are scheduled for later; one that fails may have changed the cluster, and
    the sequence goes on. *)

Inductive command :=
| CmdStep
| CmdRunUntil (events : nat) (end_ : Z)
| CmdAction (a : Action)
| CmdAfter (at_ : Z) (n : nat).

(** A [time.Time] of the simulator has 64 bits. *)
Definition command_ok (x : command) : Prop :=
  match x with CmdRunUntil _ end_ => end_ ≤ max_i64 | CmdAfter at_ _ => at_ ≤ max_i64 | _ => True end.

#[local] Existing Instance Decision.seed_decider.

Section runs.
Context `{HL : !Library} {D : Type} `{HD : !Decision.Decider D} (enc : EtcdEncoders) (fuel : nat) (actions : list Action).
Abbreviation Cluster := (Cluster (D + Decision.SeedDecider)).

(** The callbacks of the actions share the first error. *)
Definition perform (x : command) (err : option ExecuteError) : M (D + Decision.SeedDecider) (option ExecuteError) :=
  let callback := actionCallback enc fuel actions in
  match x with
  | CmdStep => r ← Step enc fuel callback err; mret r.1
  | CmdRunUntil events end_ =>
    r ← SimulatorRunUntil enc fuel callback events end_ err;
    match r with Some (err, _) => mret err | None => outOfFuel end
  | CmdAction a => _ ← applyAction enc fuel a; mret err
  | CmdAfter at_ n =>
    _ ← (r ← on_sim (λ s, Simulator.ScheduleAt s at_ (Some (inr (userCallback n)))); check ErrSim r); mret err
  end.

Fixpoint performAll (cs : list command) (err : option ExecuteError) (c : Cluster) : go (option Cluster) :=
  match cs with
  | [] => Done (Some c)
  | x :: cs =>
    r ← perform x err c;
    match r with
    | None => Done None
    | Some (c, inl _) => performAll cs err c
    | Some (c, inr err) => performAll cs err c
    end
  end.

Definition adapterRuns (config : AdapterConfig) (decider : option D) (cs : list command) (c : Cluster) : Prop :=
  ∃ d c0, New enc fuel config decider = Done (Some (d, inr c0)) ∧ performAll cs None c0 = Done (Some c).

Lemma perform_keeps config x err : command_ok x → keeps (ok config) (perform x err).
Proof using Type.
  intros Hx. pose proof (kept_actionCallback (D := D + Decision.SeedDecider) config enc fuel actions) as Hcb. destruct x; cbn [perform].
  - apply kept_bind; [apply (Step_keeps config enc fuel _ Hcb) | keep].
  - apply kept_bind; [apply (SimulatorRunUntil_keeps config enc fuel _ _ _ _ Hcb Hx) | keep].
  - apply kept_bind; [apply kept_applyAction | keep].
  - apply kept_bind; [by apply kept_after | keep].
Qed.

Lemma performAll_ok config cs err c :
  Forall command_ok cs → ok config c →
  wlp (performAll cs err c) (λ r, match r with None => True | Some c' => ok config c' end).
Proof using Type.
  intros Hcs. revert err c. induction Hcs as [|x cs Hx _ IH]; intros err c Hc; [done |]. cbn [performAll].
  apply wlp_bind. eapply wlp_mono; [by apply perform_keeps |]. intros [[c' [err'|x']]|]; [apply IH | apply IH | done].
Qed.

Lemma emptyCluster_ok config (d : D + Decision.SeedDecider) (c : Cluster) : emptyCluster enc fuel config d = inr c → ok (c_config c) c.
Proof using Type.
  unfold emptyCluster, Network.NewRouter. destruct (Network.Validate _); [done |]. destruct (numbers _ _) as [ids names].
  intros [= <-]. split; simpl; try done.
  apply SimInv.New_wf.
Qed.

Lemma adapterRuns_ok config decider cs c :
  Forall command_ok cs → adapterRuns config decider cs c → ok (c_config c) c.
Proof using Type.
  intros Hcs (d & c0 & Hnew & Hrun). unfold New in Hnew. destruct (validateConfig config); [done |].
  destruct (emptyCluster _ _ _ _) as [|c1] eqn:E; [done |]. apply emptyCluster_ok in E.
  pose proof (kept_construct (c_config c1) enc fuel c1 E) as H.
  destruct (construct enc fuel c1) as [[[c2 [err|[]]]|]|]; try done. injection Hnew as _ <-. simpl in H.
  pose proof (performAll_ok _ cs None c2 Hcs H) as Hc. rewrite Hrun in Hc. by rewrite (ok_config _ _ Hc).
Qed.
(** The cluster after some commands, when it is built and nothing runs out of fuel. *)
Definition runOf (config : AdapterConfig) (decider : option D) (cs : list command) : option Cluster :=
  match New enc fuel config decider with
  | Done (Some (_, inr c)) => match performAll cs None c with Done (Some c) => Some c | _ => None end
  | _ => None
  end.

Lemma runOf_runs config decider cs c : runOf config decider cs = Some c → adapterRuns config decider cs c.
Proof using Type.
  unfold runOf, adapterRuns. destruct (New _ _ _ _) as [[[d [err|c0]]|]|] eqn:H0; try done.
  destruct (performAll _ _ _) as [[c1|]|] eqn:H1; try done. intros [= <-]. by exists d, c0.
Qed.
End runs.

(** ** Theorems *)

Section theorems.
Context `{HL : !Library} {D : Type} `{HD : !Decision.Decider D}.

(** C39.  In every cluster that is reached, the chain of every process is the one that its
    applied entries rebuild, and the application of a live process is the one that a restart
    would recover from them: the recovery of a process that is down cannot fail. *)
Theorem adapter_recovery_exact enc fuel actions config decider cs c name p :
  adapterRuns enc fuel actions config decider cs c → Forall command_ok cs → c_processes c !! name = Some p →
  verifyChain p = None ∧
  match AcApplication (c_config c) with
  | None => p_application p = None
  | Some _ => ∃ m, recoverApplication p = inr (Some m) ∧ (p_up p = true → p_application p = Some m)
  end.
Proof using Type.
  intros Hrun Hcs Hp. destruct (ok_processes _ _ (adapterRuns_ok _ _ _ _ _ _ _ Hcs Hrun) _ _ Hp). split.
  - unfold verifyChain. by rewrite ok_chain, ok_head, Z.eqb_refl, String.eqb_refl.
  - unfold application_ok in *. destruct (AcApplication (c_config c)); [| done]. destruct ok_application as (m & Hr & Hm).
    exists m. split; [done |]. intros Hup. destruct Hm as [|[_ ?]]; [done | congruence].
Qed.

(** C38.  A release that is scheduled, of the ready its process still waits for, finds the
    ready written: the storage is the one that writing its snapshot, its hard state and its
    entries makes.  A write that is scheduled finds it not written yet, so it is written
    once. *)
Theorem adapter_persists_before_release enc fuel actions config decider cs c x t tg name incarnation ref ready p :
  adapterRuns enc fuel actions config decider cs c → Forall command_ok cs → c_processes c !! name = Some p →
  waitsFor p incarnation ref = true →
  (events c !! x = Some (t, tg, Some (inr (readyReleased name incarnation ref ready))) →
   persistedPending p = true ∧ ∃ s0, written s0 ready (p_storage p)) ∧
  (events c !! x = Some (t, tg, Some (inr (storageWritten name incarnation ref ready))) → persistedPending p = false).
Proof using Type.
  intros Hrun Hcs Hp Hw. apply waitsFor_true in Hw as (pd & Hpd & Href & _).
  pose proof (adapterRuns_ok _ _ _ _ _ _ _ Hcs Hrun) as Hok. unfold persistedPending. rewrite Hpd.
  split; intros Hx; destruct (ok_events _ _ Hok _ _ _ _ Hx) as [_ Ha]; destruct (Ha p pd Hp Hpd Href) as (<- & Hper & _); [| done].
  split; [done |]. by apply (ok_pending _ _ _ _ (ok_processes _ _ Hok _ _ Hp) pd Hpd).
Qed.





End theorems.

(** ** A library that elects at once

    A raw node is a follower that campaigns into a leader with one ready, which writes and
    commits the entry of its term.  The storage keeps what it is given. *)

Module Toy.
Inductive raw := follower | elected | leading.
Record store := mkStore { hard : Z * Z; snap : Z * Z; entries : list (Z * Z) }.

Definition zero : Z * Z := (0, 0).
Definition stored (s : store) : go (store * option Empty_set) := Done (s, None).
Definition unchanged (r : raw) : go (raw * option Empty_set) := Done (r, None).
Definition campaign (r : raw) : go (raw * option Empty_set) :=
  Done (match r with follower => elected | _ => r end, None).
Definition is_elected (r : raw) : bool := match r with elected => true | _ => false end.
Definition state_of (r : raw) : StateType := match r with follower => StateFollower | _ => StateLeader end.
Definition term_of (r : raw) : Z := match r with follower => 1 | _ => 2 end.
Definition lead_of (r : raw) : Z := match r with follower => 0 | _ => 1 end.

#[export] Instance library : Library := {|
  PbEntry := Z * Z; PbMessage := Empty_set; PbHardState := Z * Z; PbSnapshot := Z * Z; Ready := unit; RawNode := raw;
  MemoryStorage := store; LibraryError := Empty_set;
  entryIndex := λ e, wrap64 e.1; entryTerm := λ e, wrap64 e.2; entryNormal := λ _, true; entryData := λ _, [];
  messageTo := λ m, match m with end; messageFrom := λ m, match m with end; messageTerm := λ m, match m with end;
  messageKind := λ m, match m with end; messageEntries := λ m, match m with end; marshalMessage := λ m, match m with end;
  newHardState := pair; hardTerm := fst; hardVote := λ h, if h.1 =? 2 then 1 else 0; hardCommit := snd;
  isEmptyHardState := λ h, bool_decide (h = zero);
  newSnapshot := λ index term _, (index, term); snapshotIndex := fst; snapshotTerm := snd; snapshotData := λ _, [];
  isEmptySnapshot := λ s, bool_decide (s = zero); marshalSnapshot := λ _, None;
  readyEntries := λ _, [(2, 2)]; readyHardState := λ _, (2, 2); readySnapshot := λ _, zero; readyCommitted := λ _, [(2, 2)];
  readyMessages := λ _, []; readyMustSync := λ _, true;
  NewMemoryStorage := mkStore zero zero [];
  ApplySnapshot := λ s x, stored (mkStore (hard s) x []);
  SetHardState := λ s h, stored (mkStore h (snap s) (entries s));
  Append := λ s l, stored (mkStore (hard s) (snap s) (entries s ++ l));
  InitialState := λ s, Done (inr (hard s)); StorageSnapshot := λ s, Done (inr (snap s));
  FirstIndex := λ s, Done (inr ((snap s).1 + 1)); LastIndex := λ s, Done (inr ((snap s).1 + zlen (entries s)));
  StorageEntries := λ s _ _, Done (inr (entries s));
  NewRawNode := λ _ _, Done (inr follower); raftState := state_of; rawTerm := term_of; rawVote := lead_of;
  rawCommit := term_of; rawLead := lead_of;
  RawStep := λ _ r _, unchanged r; RawCampaign := λ _ r, campaign r; RawTick := λ _ r, Done r;
  RawPropose := λ _ r _, unchanged r; HasReady := λ _ r, is_elected r; GetReady := λ _ _, Done (leading, tt);
  Advance := λ _ r _, Done r |}.

Definition encoders : EtcdEncoders := mkEncoders (λ _, []) (λ _, []) (λ _, Some []).
Definition config : AdapterConfig :=
  mkAdapterConfig ["a"] 1 (Network.mkLink 0 0 (Rand.FQ 0%Q)) 10 10 5 1 10 false (Some AppOracle.KVConfig).
Definition no_decider : option Decision.SeedDecider := None.
End Toy.
Import Toy.
#[local] Existing Instance Decision.seed_decider.

Definition toy_run (cs : list command) := runOf Toy.encoders 10 [] Toy.config Toy.no_decider cs.

Definition process_of (c : Cluster (Decision.SeedDecider + Decision.SeedDecider)) : option process := c_processes c !! "a".

(** Elected, its entry written, released and applied. *)
Definition applied_run : list command := [CmdStep; CmdStep; CmdStep].

Lemma applied_run_process : is_Some (toy_run applied_run ≫= process_of).
Proof. refine (bool_decide_eq_true_1 _ _). vm_compute. reflexivity. Qed.

Definition written_run : list command := [CmdStep; CmdStep].

(** A process that waits for the release of what it has written. *)
Definition releasing (c : Cluster (Decision.SeedDecider + Decision.SeedDecider)) : option (process * (Z * Heap.EventTag)) :=
  p ← process_of c;
  match events c !! 4 with
  | Some (t, tg, Some (inr (readyReleased name incarnation ref tt))) =>
    if String.eqb name "a" && (incarnation =? 1) && (ref =? 0) && waitsFor p 1 0 then Some (p, (t, tg)) else None
  | _ => None
  end.

Lemma releasing_inv c p t tg :
  releasing c = Some (p, (t, tg)) →
  c_processes c !! "a" = Some p ∧ waitsFor p 1 0 = true ∧ events c !! 4 = Some (t, tg, Some (inr (readyReleased "a" 1 0 tt))).
Proof.
  unfold releasing, process_of. destruct (c_processes c !! "a") as [q|]; simpl; [| done].
  destruct (events c !! 4) as [[[t' tg'] [[d|[]]|]]|]; try done. destruct ready.
  destruct (String.eqb_spec name "a") as [->|]; [| done]. destruct (Z.eqb_spec incarnation 1) as [->|]; [| done].
  destruct (Z.eqb_spec ref 0) as [->|]; [| done]. simpl. destruct (waitsFor q 1 0) eqn:E; [| done]. by intros [= <- <- <-].
Qed.

Lemma written_run_releases : is_Some (toy_run written_run ≫= releasing).
Proof. refine (bool_decide_eq_true_1 _ _). vm_compute. reflexivity. Qed.

(** A run whose end passes a test. *)
Lemma run_of_bind {A} cs (f : Cluster (Decision.SeedDecider + Decision.SeedDecider) → option A) :
  is_Some (toy_run cs ≫= f) → ∃ c a, adapterRuns Toy.encoders 10 [] Toy.config Toy.no_decider cs c ∧ f c = Some a.
Proof. intros [a (c & Hf & Hc)%bind_Some]. exists c, a. split; [by apply runOf_runs | done]. Qed.

Lemma adapter_recovery_exact_witness :
  ∃ c p, adapterRuns Toy.encoders 10 [] Toy.config Toy.no_decider applied_run c ∧ process_of c = Some p ∧ verifyChain p = None.
Proof.
  destruct (run_of_bind _ _ applied_run_process) as (c & p & Hc & Hp). exists c, p. split; [exact Hc |]. split; [exact Hp |].
  apply (adapter_recovery_exact Toy.encoders 10 [] Toy.config Toy.no_decider applied_run c "a" p Hc ltac:(repeat constructor) Hp).
Defined.

Lemma adapter_persists_before_release_witness :
  ∃ c p s0, adapterRuns Toy.encoders 10 [] Toy.config Toy.no_decider written_run c ∧ process_of c = Some p ∧
    persistedPending p = true ∧ written s0 tt (p_storage p).
Proof.
  destruct (run_of_bind _ _ written_run_releases) as (c & [p [t tg]] & Hc & Hf). apply releasing_inv in Hf as (Hp & Hw & Hx).
  destruct (adapter_persists_before_release Toy.encoders 10 [] Toy.config Toy.no_decider written_run c 4 t tg "a" 1 0 tt p Hc
    ltac:(repeat constructor) Hp Hw) as [H _].
  destruct (H Hx) as (Hper & s0 & Hs). exists c, p, s0. split; [exact Hc |]. split; [exact Hp |]. split; [exact Hper | exact Hs].
Defined.





